(* ===== verification/_CoqProject ===== *)
-Q . S2P
Prelude.v
Outcome.v
GlobalFifo.v
GlobalFifoConc.v
SimpleFsLayout.v
SimpleFs.v
Mkfs.v
SimpleFsProps.v
SimpleFsSpec.v
SimpleFsSystem.v
Prioq.v
Hexdecoct.v
HexdecoctProps.v
Base32Props.v
Bsearch.v
Utf8.v
Utf8Props.v
Utf16Props.v
Escape.v
EscapeProps.v
StringUtil.v
PathUtil.v
PathUtilProps.v
UnitName.v
UnitNameProps.v
BusSignature.v
BusNames.v
BusNamesProps.v
ExtractWord.v
TimeUtil.v
TimeUtilProps.v
EnvUtil.v
EnvUtilProps.v
EnvExpand.v
SipHash.v
HashMap.v
HashMapLinks.v
HashMapProps.v
HashMapInsert.v
HashMapRemove.v
HashMapResize.v
HashMapSpec.v
HashMapIter.v
HashMapOps.v
HashMapMove.v
HashMapSystem.v
HashMapExamples.v
HashMapCache.v
HashFuncs.v
StrBuf.v
StrBufProps.v
Bitmap.v
UidRange.v
JobMerge.v
Job.v
JobProps.v
JobFinish.v
Transaction.v
TransactionProps.v
TransactionMarks.v
TransactionOrder.v
TransactionSteps.v
TransactionMerge.v
TransactionApply.v
TransactionActivate.v
TransactionAdd.v
TransactionCollect.v
TransactionSystem.v
TransactionExamples.v
Threads.v
SemQueue.v
CondVar.v
FuseHello.v
SysvSem.v
Reentrancy.v
BubbleSort.v
