(* ===== verification/Prelude.v ===== *)
(** * Verification of the C code of the linux-development repository

    The repository is course material on Linux development: a character device
    driver and a small file system for the kernel, programs that show threads,
    processes and I/O, and a copy of the systemd sources that the course reads.
    This development models the parts with an algorithm or a protocol of their
    own as executable functions and step relations, statement for statement,
    and proves what makes them correct, or exactly where they are not.

    ** Conventions

    A C integer is a [Z] whose conversions and overflow are written out
    ([wrapu], [wraps] below); a byte is a [Z] from 0 to 255 and a string or
    buffer the list of its bytes. A function that can fail returns the error
    number of the source as a value. Undefined behaviour, a failed assertion and
    an access outside an object are [None], or a constructor of the outcome type
    of the component ([Oops], [Fault]), so that "returns" in a theorem includes
    the absence of these. What the code calls outside the repository is an
    argument or an instance of a class whose laws are its documented behaviour;
    calls that can fail have their answers left open (streams of faults, an
    [oom] flag), except where a file says otherwise.

    ** The parts

    - [GlobalFifo], [GlobalFifoConc]: the driver [src/schedule/day6/globalfifo.c].
      The first file has the device record and what read, write, ioctl and poll
      do to it under the mutex, against the class [Kernel] of the kernel
      services they use ([memcpy], [wake_up_interruptible], [fasync_helper]) and
      the classes of their laws. The second has any number of tasks, each a
      program counter in one file operation, the sleeps and wake-ups, signals,
      and [reachable], the states of all interleavings. [memcpy] is right where
      the copied regions do not overlap and unknown where they do, as in the
      shift of the buffer by a read; the bytes are then unknown too, unless
      [MemcpyDescending] is assumed. The theorems: the history of completed
      operations is one of a bounded FIFO queue of known and unknown bytes, the
      bounds and mutual exclusion hold in every reachable state, a sleeping
      writer is woken as long as nobody clears the buffer; a sleeping reader is
      not, a clear strands a writer, and the buffer shift needs more of [memcpy]
      than it promises.
    - [SimpleFsLayout], [SimpleFs], [Mkfs]: the file system
      [src/io/simplefs]: the structures of [simple.h] as bytes, the functions of
      the module [simple.c] as a state and fault monad over the block buffers,
      in-memory inodes and the three mutexes, and the formatter
      [mkfs-simplefs.c] on a file descriptor with short and failing writes.
      [SimpleFsProps] is a total-correctness logic for the monad with one rule
      per kernel service; [SimpleFsSpec] the abstract file system (a table of
      inodes, a free map, directories as lists of entries) with the refinement
      lemmas of create, lookup, read and write; [SimpleFsSystem] puts formatter
      and module together. The module never sets the block size, so the buffers
      have that of the device, a parameter of [booted]. The theorems: a formatted
      device of any former content with blocks of 4096 bytes mounts and shows the
      welcome file, while with smaller blocks the first lookup crashes; creations
      and lookups agree, written data is read back; and what the allocator, the
      directory block, the read position and interrupted calls do outside these
      conditions.
    - [Prioq]: systemd's priority queue [src/basic/prioq.c] (paths of this
      group below [src/app/multi_process/day1/systemd]), with its index words:
      every operation keeps the heap order and the index words, everything put
      in comes out sorted, and the item count at which the array size wraps.
    - [Hexdecoct] with [HexdecoctProps] and [Base32Props]: the encodings of
      [src/basic/hexdecoct.c]: each decoder accepts exactly what its encoder
      prints, up to white space, and none leaves its buffer on any input.
    - [Utf8] with [Utf8Props] and [Utf16Props]: [src/basic/utf8.c] and the
      tables of [gunicode.c]: validation is exact, the escaping functions give
      valid text that fits buffer and console, UTF-16 round trips.
    - [SipHash]: [src/basic/siphash24.c]: hashing in pieces of any lengths is
      hashing the message.
    - [HashMap]: [src/basic/hashmap.c], on [SipHash]: plain and ordered hash maps
      and sets as a map from bucket indexes to entries with a distance byte for
      each; the hash and comparison functions of keys, [realloc] and the keys of
      new tables are the class [HashEnv], and [LawfulHash] says that comparison is
      an equivalence that hashing respects. [HashMapLinks]: the doubly linked list
      of ordered maps while entries move between buckets and swap slots.
      [HashMapProps], [HashMapInsert], [HashMapRemove], [HashMapResize]: the
      invariant of Robin Hood hashing, and that insertion, removal with backward
      shift and rehashing in place keep it. [HashMapSpec]: [map_of], the
      association list that a table stands for, and what the three do to it.
      [HashMapIter], [HashMapOps], [HashMapMove]: iteration, each operation, and
      moving entries while the map they leave is iterated. [HashMapSystem]: every
      sequence of calls gives the results of the association list; growth, and
      the size that the code cannot compute. [HashMapExamples]: the maps with
      pointers as keys ([hash-funcs.c]), and what goes wrong with the key NULL.
      [HashMapCache]: the iterated cache at the end of [hashmap.c], whose arrays show
      the map as long as every change sets a flag, and the two ways in which they
      do not. [HashFuncs]: the rest of [hash-funcs.c]; strings and paths fulfil
      [LawfulHash], by the theorems of [PathUtilProps] and [SipHash], so that a map
      finds a path however it is written.
    - [StrBuf] with [StrBufProps]: [src/basic/strbuf.c]: strings in one buffer with
      shared tails and a trie that finds them; offsets stay valid, and tails and
      repeated strings cost nothing. [Bsearch] is the binary search of the C
      library, which this and [Utf8] use.
    - [BusSignature]: the types and signatures of D-Bus,
      [src/libsystemd/sd-bus/bus-type.c] and [bus-signature.c]: the recognizer
      against the grammar. [BusNames] with [BusNamesProps]: labels, object paths,
      names and patterns, [src/basic/bus-label.c], [bus-internal.c] and a part of
      [sd-bus.c] and [src/basic/unit-def.c]: exactly what the checks accept, and
      where that differs from D-Bus; what is encoded, also with templates and for units, is decoded again.
    - [ExtractWord]: [src/basic/extract-word.c], the words of a configuration line:
      safe on every line, and quoted words are read back.
    - [TimeUtil] with [TimeUtilProps]: time spans of [src/basic/time-util.c]: what is
      printed is parsed again, up to the accuracy asked for; where it is not, and
      where the buffer is overrun.
    - [EnvUtil]: environment blocks, [src/basic/env-util.c]. [EnvUtilProps]: what is
      a valid assignment, and blocks refine maps from names to values. [EnvExpand]:
      the expansion of variables ends on every text, and against the syntax of
      texts with variables; the words of command lines. The fuel of the expansion
      is the depth of the recursion, at most the length of the text.
    - [Escape] with [EscapeProps]: [src/basic/escape.c]: C escaping is undone by
      unescaping, which is safe on every input; what [shell_maybe_quote] prints
      is read back by a shell; and where octal escaping and truncation fall
      short.
    - [StringUtil], [PathUtil] with [PathUtilProps]: the string helpers and the
      functions of [src/basic/path-util.c] on the text of paths, against paths
      as lists of components: simplification, comparison, prefixes, joining,
      relative paths and last components mean what they should.
    - [UnitName] with [UnitNameProps]: [src/basic/unit-name.c]: the grammar of
      unit names, building and taking apart, escaping of paths, mangling and the
      tree of slices.
    - [Bitmap]: [src/shared/bitmap.c] refines a set of numbers; [UidRange]:
      [src/shared/uid-range.c] keeps sorted disjoint ranges and computes unions.
    - [JobMerge]: the algebra of job types of [src/core/job.c]. [Job]: the life of
      jobs there, with the dispatch loop of [src/core/manager.c]: jobs are
      objects of a store that the table, the slots of units and the queues point
      to. What units do is the class [JobEnv]: their operations, the request for
      each unit of [OnFailure=] and the reaction of each unit that triggers
      another; [unit_start_on_failure] and [unit_trigger_notify] go over these.
      [JobProps]: the consistency of the manager is kept by every operation for
      all lawful environments, and what installing a job does. [JobFinish]: which
      jobs fail with a job and that no wake-up is lost, so that jobs without a
      circle in their order make progress, both for units whose [OnFailure=] and
      triggering units leave the jobs alone ([inert], so when there are none);
      and what happens when a reaction fills a slot during installation.
    - [Transaction]: [src/core/transaction.c] with the job links and the
      redundancy test of [job.c] and [manager_add_job] of [manager.c], on the
      manager of [Job]: a graph of new jobs with links, the ten steps that clean
      it up, its application and its abortion. What the code reads of units,
      hash maps and memory is the class [TransactionEnv]. [TransactionProps]: the
      well-formed graph, and that deletion takes exactly the jobs that need the
      deleted one. [TransactionMarks]: marks are invisible to all but the sweeps
      (the equivalence [remarked]), and what the sweep from the anchor marks.
      [TransactionOrder]: the order check finds every circle it reaches and
      drops only what does not matter. [TransactionSteps]: minimizing, garbage
      collection and redundant jobs, and the loop over the order check.
      [TransactionMerge]: one job for each unit. [TransactionApply]: installation,
      and the rollback that undoes it. [TransactionActivate]: the ten steps
      together. [TransactionAdd], [TransactionCollect]: the collection of a job
      with its dependencies ends, since each new job uses up a pair of a unit
      and a type, and fetches what a job needs. [TransactionSystem]: requests as a
      whole, refused (without a trace but for isolate and flush) or applied, where
      the units that trigger others neither fill empty slots nor reuse ids when a
      job is cancelled. [TransactionExamples]: the laws
      hold for a small system, to which the theorems apply, and a request that
      loses a requirement.
    - [Threads], [SemQueue], [CondVar]: the pthread programs of
      [src/app/multi_thread/day2]: the deadlock of [deadlock.c] and that it is
      the only one, the runs of [pi.c], the counter of [mutex.c], the ring of
      [semaphore.c] and the linked list of [cond_var.c] as FIFOs without
      invalid access, lost wake-up or deadlock, for every interleaving, but for
      the unchecked [malloc] of the latter.
    - [FuseHello]: the operations of [src/io/fuse-hello/hello.c] describe one
      read-only file.
    - [SysvSem]: [src/app/multi_process/day3/sysvshm/sem.c], children that share a
      semaphore: exclusion and no deadlock, also when some are killed. [Reentrancy]:
      [reentrace.c] and [signal_non_reenteriable_fixed.c] with their counterparts
      that are not reentrant. [BubbleSort]: [src/arm/bubble_sort.c], which does not
      sort.

    ** Bounds and fuel

    Loops of the source that are not structural take fuel, and each theorem
    that such a function returns is proved for the fuel the definition uses (the
    length of the input or one more, the number of slots or of blocks), so no
    theorem has running out of fuel as a way to hold. Sizes are bounded only
    where the code's own arithmetic needs it: strings below [2 ^ 60] bytes where
    a buffer of four times the length is allocated, queues below [2 ^ 31 - 1]
    items. The recursion that finishes jobs takes fuel of its own, whose end is an
    outcome different from a failed assertion: as many levels as there are
    installed jobs are enough when the reactions to a finished job install none.
    Deletions in a transaction take as much fuel as there are links ([enough]),
    the loops that delete as much as there are jobs ([n_jobs]); the collection
    takes fuel from the caller, and more than [total_work] is enough: the sum of
    one and the number of dependencies over all pairs of a unit and a job type.
    Requests need ids and generations that do not wrap around ([spacious]). The
    loops of a hash map take one more than the number of buckets ([fuel_of]),
    those over a map that is changed twice as many; sequences of calls are
    bounded by [2 ^ 25] insertions and reservations of [2 ^ 25] entries, so that
    the size of the table stays computable ([resize_buckets_oversized]). The
    finite programs of [Threads] are decided by exhaustive exploration, whose
    soundness is a lemma; the others by invariants.

    ** Not modelled

    Registration of drivers and file systems with the kernel, printing,
    scheduling priorities, and the other demonstration programs, which only perform
    system calls (processes, sockets, signals, I/O models). Of the systemd tree
    only the components above; of jobs and transactions not their timers, messages
    and serialization, [manager_check_finished] and the coldplugging of units during
    a reload, of [path-util.c] not what asks the file system, of
    [hashmap.c] not the helpers for strings, memory pools and destructors.

    ** This file

    Machine integers, their notations (scope [c_scope]) and bit lemmas, the
    tactics and the rewriting database the files share, bytes and lists.
    [Outcome] has the monad of functions that return, crash or run out of fuel. *)

From stdpp Require Export base list gmap.
From Stdlib Require Export ZArith Lia.
From Stdlib Require String Ascii.

(** ** Machine integers

    A C integer is a [Z] with the wrap-around of its type written out:
    [wrapu w] is the conversion to an unsigned type of [w] bits, [wraps w] the
    conversion to a signed two's complement type of [w] bits. *)

Declare Scope c_scope.
Delimit Scope c_scope with c.
#[global] Open Scope Z_scope.

Definition wrapu (w x : Z) : Z := x mod 2 ^ w.
Definition wraps (w x : Z) : Z := (x + 2 ^ (w - 1)) mod 2 ^ w - 2 ^ (w - 1).

Abbreviation u8 := (wrapu 8).
Abbreviation u16 := (wrapu 16).
Abbreviation u32 := (wrapu 32).
Abbreviation u64 := (wrapu 64).
Abbreviation s32 := (wraps 32).
Abbreviation s64 := (wraps 64).

(** The operators of [uint64_t]. *)
Notation "x '+u64' y" := (wrapu 64 (x + y)) (at level 50, left associativity) : c_scope.
Notation "x '<<u64' y" := (wrapu 64 (Z.shiftl x y)) (at level 45, left associativity) : c_scope.
Notation "x '>>u64' y" := (Z.shiftr x y) (at level 45, left associativity) : c_scope.
Notation "x '^u64' y" := (Z.lxor x y) (at level 49, left associativity) : c_scope.
Notation "x '|u64' y" := (Z.lor x y) (at level 50, left associativity) : c_scope.

Definition UINT32_MAX : Z := 2 ^ 32 - 1.
Definition UINT64_MAX : Z := 2 ^ 64 - 1.
Definition INT_MAX : Z := 2 ^ 31 - 1.

(** The error numbers the modelled code returns (asm-generic/errno-base.h and
    errno.h); a function that fails returns the negated number. *)
Definition EPERM : Z := 1.
Definition ENOENT : Z := 2.
Definition EINTR : Z := 4.
Definition EIO : Z := 5.
Definition EAGAIN : Z := 11.
Definition ENOMEM : Z := 12.
Definition EFAULT : Z := 14.
Definition EBUSY : Z := 16.
Definition EEXIST : Z := 17.
Definition ENOTDIR : Z := 20.
Definition EINVAL : Z := 22.
Definition ENOSPC : Z := 28.
Definition EPIPE : Z := 32.
Definition ERANGE : Z := 34.
Definition ENAMETOOLONG : Z := 36.
Definition ERESTARTSYS : Z := 512.

Lemma wrapu_range w x : 0 ≤ w → 0 ≤ wrapu w x < 2 ^ w.
Proof. intros. apply Z.mod_pos_bound, Z.pow_pos_nonneg; lia. Qed.

Lemma wrapu_small w x : 0 ≤ x < 2 ^ w → wrapu w x = x.
Proof. apply Z.mod_small. Qed.

Lemma wraps_small w x :
  0 < w → - 2 ^ (w - 1) ≤ x < 2 ^ (w - 1) → wraps w x = x.
Proof.
  intros Hw Hx. unfold wraps.
  assert (2 ^ w = 2 * 2 ^ (w - 1)) as Hp.
  { rewrite <- Z.pow_succ_r by lia. f_equal; lia. }
  rewrite Z.mod_small; lia.
Qed.

(** ** Tactics *)

(** Case analysis on the scrutinee of a [match] or [if] of the goal. *)
Ltac case_goal :=
  match goal with
  | |- context [match ?x with _ => _ end] => destruct x eqn:?
  end.

(** Case analysis on the scrutinee of a [match] or [if] of a hypothesis. *)
Ltac case_hyp :=
  match goal with
  | H : context [match ?x with _ => _ end] |- _ => destruct x eqn:?
  end.

(** Equality of two towers of map insertions. *)
Ltac solve_inserts :=
  apply map_eq; intros ?; rewrite !lookup_insert; repeat case_decide; congruence.

(** Turns boolean comparisons of [Z] and [nat] in the context into
    propositions that [lia] reads. *)
Ltac reflect_bools :=
  repeat match goal with
  | H : (_ && _)%bool = true |- _ => apply andb_true_iff in H; destruct H
  | H : (_ || _)%bool = false |- _ => apply orb_false_iff in H; destruct H
  | H : negb _ = true |- _ => apply negb_true_iff in H
  | H : negb _ = false |- _ => apply negb_false_iff in H
  | H : (_ =? _) = true |- _ => apply Z.eqb_eq in H
  | H : (_ =? _) = false |- _ => apply Z.eqb_neq in H
  | H : (_ <? _) = true |- _ => apply Z.ltb_lt in H
  | H : (_ <? _) = false |- _ => apply Z.ltb_ge in H
  | H : (_ <=? _) = true |- _ => apply Z.leb_le in H
  | H : (_ <=? _) = false |- _ => apply Z.leb_gt in H
  | H : (_ >=? _) = true |- _ => apply Z.geb_le in H
  | H : (_ >? _) = true |- _ => apply Z.gtb_lt in H
  end.

(** *** Bits of machine words *)

Lemma wrapu_testbit w x n : 0 ≤ w → Z.testbit (wrapu w x) n = (n <? w) && Z.testbit x n.
Proof. apply Z.testbit_mod_pow2. Qed.

Lemma testbit_small w x n : 0 ≤ w ≤ n → 0 ≤ x < 2 ^ w → Z.testbit x n = false.
Proof.
  intros Hn Hx. rewrite <- (Z.mod_small x (2 ^ w)) by done. by apply Z.mod_pow2_bits_high.
Qed.

(** Masking a [w]-bit word with a converted [int] uses the bits of the [int]. *)
Lemma land_wrapu w x m : 0 ≤ w → 0 ≤ x < 2 ^ w → Z.land x (wrapu w m) = Z.land x m.
Proof.
  intros Hw Hx. apply Z.bits_inj'. intros n Hn.
  rewrite !Z.land_spec, wrapu_testbit by done.
  destruct (n <? w) eqn:E; reflect_bools; [done|].
  by rewrite (testbit_small w x n) by lia.
Qed.

Lemma land_pow2_eqb x i : 0 ≤ i → (Z.land x (2 ^ i) =? 0) = negb (Z.testbit x i).
Proof.
  intros Hi. destruct (Z.testbit x i) eqn:E; simpl.
  - apply Z.eqb_neq. intros H. apply (f_equal (λ z, Z.testbit z i)) in H.
    rewrite Z.land_spec, E, Z.pow2_bits_true, Z.bits_0 in H by done. done.
  - apply Z.eqb_eq, Z.bits_inj'. intros n Hn. rewrite Z.land_spec, Z.bits_0.
    destruct (decide (n = i)) as [->|]; [by rewrite E|].
    by rewrite Z.pow2_bits_false, andb_false_r by lia.
Qed.

Lemma land_neg_pow2 x k : 0 ≤ k → Z.land x (- 2 ^ k) = x - x mod 2 ^ k.
Proof.
  intros Hk. replace (- 2 ^ k) with (Z.lnot (Z.ones k)).
  - rewrite <- Z.ldiff_land, Z.ldiff_ones_r by done.
    rewrite Z.shiftl_mul_pow2, Z.shiftr_div_pow2 by done.
    pose proof (Z.div_mod x (2 ^ k)). lia.
  - rewrite Z.ones_equiv. unfold Z.lnot. lia.
Qed.

(** Joining disjoint bit fields is addition. *)
Lemma lor_add a b k : 0 ≤ k → 0 ≤ b < 2 ^ k → Z.lor (a * 2 ^ k) b = a * 2 ^ k + b.
Proof.
  intros Hk Hb. rewrite <- Z.add_lor_land, <- Z.shiftl_mul_pow2 by done.
  assert (Z.land (Z.shiftl a k) b = 0) as ->; [|lia].
  apply Z.bits_inj'. intros n Hn. rewrite Z.land_spec, Z.bits_0, Z.shiftl_spec by done.
  destruct (decide (n < k)).
  - by rewrite Z.testbit_neg_r by lia.
  - by rewrite (testbit_small k b), andb_false_r by lia.
Qed.

(** ** Bytes *)

Definition is_byte (b : Z) : Prop := 0 ≤ b < 256.

#[export] Instance is_byte_dec b : Decision (is_byte b).
Proof. unfold is_byte. apply _. Defined.

(** The bytes of a string literal, without the final NUL. *)
Definition bytes_of (s : String.string) : list Z :=
  (λ c, Z.of_N (Ascii.N_of_ascii c)) <$> String.list_ascii_of_string s.

(** ** Hint databases

    [cint] proves the range side conditions of machine-integer rewriting. *)
Create Rewrite HintDb cint.
#[export] Hint Rewrite wrapu_small using lia : cint.

(** ** Lists *)

Section lists.
Context {A : Type}.
Implicit Types l k : list A.

(** [memset]-like constant arrays and in-place block copies. [splice off k l]
    overwrites [length k] cells of [l] from offset [off]: a C copy into an
    array that has room for it. *)
Definition splice (off : nat) k l : list A :=
  take off l ++ k ++ drop (off + length k) l.

Lemma length_splice off k l :
  (off + length k ≤ length l)%nat → length (splice off k l) = length l.
Proof.
  intros. unfold splice. rewrite !length_app, length_take, length_drop. lia.
Qed.

Lemma take_splice off k l :
  (off + length k ≤ length l)%nat →
  take (off + length k) (splice off k l) = take off l ++ k.
Proof.
  intros. unfold splice. rewrite app_assoc.
  apply take_app_length'. rewrite length_app, length_take. lia.
Qed.

Lemma lookup_splice_lt off k l i :
  (i < off)%nat → (off + length k ≤ length l)%nat → splice off k l !! i = l !! i.
Proof.
  intros. unfold splice. rewrite lookup_app_l by (rewrite length_take; lia).
  by apply lookup_take_lt.
Qed.

Lemma lookup_splice_mid off k l i :
  (off ≤ i < off + length k)%nat → (off + length k ≤ length l)%nat →
  splice off k l !! i = k !! (i - off)%nat.
Proof.
  intros. unfold splice. rewrite lookup_app_r by (rewrite length_take; lia).
  rewrite length_take, Nat.min_l by lia. apply lookup_app_l. lia.
Qed.

Lemma lookup_splice_ge off k l i :
  (off + length k ≤ i)%nat → (off + length k ≤ length l)%nat →
  splice off k l !! i = l !! i.
Proof.
  intros. unfold splice. rewrite lookup_app_r by (rewrite length_take; lia).
  rewrite length_take, Nat.min_l by lia.
  rewrite lookup_app_r by lia. rewrite lookup_drop. f_equal. lia.
Qed.

Lemma filter_ne_id `{EqDecision A} (x : A) l : x ∉ l → filter (.≠ x) l = l.
Proof.
  induction l as [|y l IH]; [done|]. intros [? ?]%not_elem_of_cons.
  rewrite filter_cons_True, IH; done.
Qed.

(** Induction on the length, for functions that consume several elements. *)
Lemma list_length_ind (P : list A → Prop) :
  (∀ l, (∀ k, (length k < length l)%nat → P k) → P l) → ∀ l, P l.
Proof.
  intros H l. remember (length l) as n eqn:E. revert l E.
  induction (lt_wf n) as [n _ IH]. intros l ->. apply H. intros k Hk. by eapply IH.
Qed.

End lists.
