(* ===== verification/Outcome.v ===== *)
(** * Outcomes of functions

    The monad of functions that may fail an assertion, use freed memory or run
    out of fuel. *)

From S2P Require Import Prelude.

(** [assert(b)] in a function without fuel. *)
Definition assert_ (b : bool) : option unit := if b then Some tt else None.
Notation "'assert' b ; e" := (assert_ b ≫= λ _, e) (at level 60, right associativity).

(** The outcome of a function with fuel. *)
Inductive outcome (A : Type) := Ret (a : A) | Crash | OutOfFuel.
Arguments Ret {A} a. Arguments Crash {A}. Arguments OutOfFuel {A}.

#[export] Instance outcome_bind : MBind outcome := λ A B f o,
  match o with Ret a => f a | Crash => Crash | OutOfFuel => OutOfFuel end.

Definition lift {A} (o : option A) : outcome A := match o with Some a => Ret a | None => Crash end.
Notation "x ←! o ; e" := (lift o ≫= λ x, e) (at level 20, o at level 100, e at level 200, right associativity).
Notation "' p ←! o ; e" := (lift o ≫= λ x, match x with p => e end)
  (at level 20, p pattern, o at level 100, e at level 200, right associativity).
Notation "'require' b ; e" := (lift (assert_ b) ≫= λ _, e) (at level 60, right associativity).

(** Steps of a function that returned. *)
Lemma bind_returned {A B} (m : outcome A) (f : A → outcome B) b : m ≫= f = Ret b → ∃ a, m = Ret a ∧ f a = Ret b.
Proof. destruct m as [a| |]; [|done..]. by exists a. Qed.

Ltac returned H :=
  repeat match type of H with
  | mbind _ _ = Ret _ => let a := fresh "a" in let E := fresh "E" in apply bind_returned in H as (a & E & H)
  | (if ?b then _ else _) = Ret _ => let E := fresh "E" in destruct b eqn:E
  | match ?x with pair _ _ => _ end = Ret _ => destruct x
  | match ?x with Some _ => _ | None => _ end = Ret _ => let E := fresh "E" in destruct x eqn:E
  end.
