(* ===== verification/GlobalFifo.v ===== *)
(** * The globalfifo character device: its buffer

    Models [src/schedule/day6/globalfifo.c]: the device record, what each
    file operation does to it once the device mutex is held, and the driver's
    probe and remove. The blocking behaviour and the interleaving of tasks are
    in [GlobalFifoConc].

    The kernel is not part of the repository. What the driver relies on is the
    class [Kernel]: [memcpy] inside the device buffer, what a
    [wake_up_interruptible] does to the state of a waiting task, and
    [fasync_helper]. [MemcpyContract] is the documented contract of [memcpy],
    which covers regions that do not overlap; the driver also moves the rest of
    its data down over itself, and what is then in the buffer is not known,
    see [globalfifo_read_needs_memmove]. [MemcpyDescending] is a [memcpy] that does
    more than is documented; the theorems that use it say so. *)

From S2P Require Import Prelude.

Definition GLOBALFIFO_SIZE : Z := 0x1000.
Definition FIFO_CLEAR : Z := 0x1.
Definition POLLIN : Z := 0x1.
Definition POLLOUT : Z := 0x4.
Definition POLLRDNORM : Z := 0x40.
Definition POLLWRNORM : Z := 0x100.

(** ** Kernel interface *)

Inductive task_state := TASK_RUNNING | TASK_INTERRUPTIBLE | TASK_KILLABLE.

#[export] Instance task_state_eq_dec : EqDecision task_state.
Proof. solve_decision. Defined.

Class Kernel := {
  (** [memcpy a s n m]: the array [m] after [memcpy(m + a, m + s, n)]. *)
  memcpy : nat → nat → nat → list Z → list Z;
  (** The state of a task on a queue after [wake_up_interruptible]. *)
  wake_interruptible : task_state → task_state;
  (** [fasync_helper fd filp on queue]: return value and new queue. *)
  fasync_helper : Z → Z → Z → list Z → Z * list Z;
}.

(** The contract of [memcpy] for regions that do not overlap. For others it says
    nothing about the bytes; the array remains an array of its size. *)
Class MemcpyContract (K : Kernel) : Prop := {
  memcpy_disjoint a s n m :
    (a + n ≤ length m)%nat → (s + n ≤ length m)%nat →
    (a + n ≤ s ∨ s + n ≤ a)%nat →
    memcpy a s n m = splice a (take n (drop s m)) m;
  memcpy_size a s n m :
    (a + n ≤ length m)%nat → (s + n ≤ length m)%nat →
    length (memcpy a s n m) = length m;
}.

(** A [memcpy] that also moves a block down over itself, as [memmove] does. *)
Class MemcpyDescending (K : Kernel) : Prop :=
  memcpy_descending a s n m :
    (a ≤ s)%nat → (s + n ≤ length m)%nat →
    memcpy a s n m = splice a (take n (drop s m)) m.

(** [wake_up_interruptible] makes runnable the tasks that sleep interruptibly
    and only those. *)
Class WakeLaws (K : Kernel) : Prop := {
  wake_sleeper : wake_interruptible TASK_INTERRUPTIBLE = TASK_RUNNING;
  wake_runner : wake_interruptible TASK_RUNNING = TASK_RUNNING;
  wake_killable : wake_interruptible TASK_KILLABLE = TASK_KILLABLE;
}.

(** ** The device *)

(** [struct globalfifo_dev]. The wait queues list the tasks that are on them;
    [async_queue] lists the files that asked for SIGIO. *)
Record globalfifo_dev := mk_dev {
  current_len : Z;
  mem : list Z;
  mutex : option nat;
  r_wait : list nat;
  w_wait : list nat;
  async_queue : list Z;
}.

Definition set_buffer (len : Z) (m : list Z) (d : globalfifo_dev) : globalfifo_dev :=
  mk_dev len m (mutex d) (r_wait d) (w_wait d) (async_queue d).
Definition set_mutex (o : option nat) (d : globalfifo_dev) : globalfifo_dev :=
  mk_dev (current_len d) (mem d) o (r_wait d) (w_wait d) (async_queue d).
Definition set_r_wait (q : list nat) (d : globalfifo_dev) : globalfifo_dev :=
  mk_dev (current_len d) (mem d) (mutex d) q (w_wait d) (async_queue d).
Definition set_w_wait (q : list nat) (d : globalfifo_dev) : globalfifo_dev :=
  mk_dev (current_len d) (mem d) (mutex d) (r_wait d) q (async_queue d).
Definition set_async (q : list Z) (d : globalfifo_dev) : globalfifo_dev :=
  mk_dev (current_len d) (mem d) (mutex d) (r_wait d) (w_wait d) q.

(** A buffer of [GLOBALFIFO_SIZE] zero bytes. *)
Definition zeroed_mem : list Z := replicate (Z.to_nat GLOBALFIFO_SIZE) 0.

Lemma length_zeroed_mem : length zeroed_mem = Z.to_nat GLOBALFIFO_SIZE.
Proof. apply length_replicate. Qed.

#[global] Opaque zeroed_mem.

(** ** Operations, with the mutex held *)

Section operations.
Context `{K : Kernel}.
Implicit Type d : globalfifo_dev.

(** [globalfifo_ioctl]: the part of FIFO_CLEAR under the mutex. *)
Definition globalfifo_clear d : globalfifo_dev :=
  set_buffer 0 zeroed_mem d.

(** [globalfifo_poll]: the event mask. *)
Definition globalfifo_poll_mask d : Z :=
  let mask := 0 in
  let mask := if current_len d =? 0 then mask
              else Z.lor mask (Z.lor POLLIN POLLRDNORM) in
  if current_len d =? GLOBALFIFO_SIZE then mask
  else Z.lor mask (Z.lor POLLOUT POLLWRNORM).

(** [globalfifo_read] after the wait loop: the return value, the bytes copied
    to user space and the new device. [fault] says that [copy_to_user] did not
    copy everything. *)
Definition globalfifo_read_copy (count : Z) (fault : bool) d
    : Z * list Z * globalfifo_dev :=
  let count := if count >? current_len d then current_len d else count in
  if fault then (- EFAULT, [], d)
  else
    let m := memcpy 0 (Z.to_nat count) (Z.to_nat (u32 (current_len d - count))) (mem d) in
    (s32 count, take (Z.to_nat count) (mem d),
     set_buffer (u32 (current_len d - count)) m d).

(** [globalfifo_write] after the wait loop. [buf] holds the bytes the user
    offers, so [count] is its length; [fault] is what a failing
    [copy_from_user] left in the destination. *)
Definition globalfifo_write_copy (buf : list Z) (fault : option (list Z)) d
    : Z * list Z * globalfifo_dev :=
  let count := Z.of_nat (length buf) in
  let count := if count >? u32 (GLOBALFIFO_SIZE - current_len d)
               then u32 (GLOBALFIFO_SIZE - current_len d) else count in
  let off := Z.to_nat (current_len d) in
  match fault with
  | Some junk =>
      (- EFAULT, [], set_buffer (current_len d)
         (splice off (take (Z.to_nat count) junk) (mem d)) d)
  | None =>
      (s32 count, take (Z.to_nat count) buf,
       set_buffer (u32 (current_len d + count))
         (splice off (take (Z.to_nat count) buf) (mem d)) d)
  end.

(** [globalfifo_fasync], and [globalfifo_release], which takes the file off
    the asynchronous notification queue. *)
Definition globalfifo_fasync (fd filp mode : Z) d : Z * globalfifo_dev :=
  let '(r, q) := fasync_helper fd filp mode (async_queue d) in (r, set_async q d).

Definition globalfifo_open d : Z * globalfifo_dev := (0, d).

Definition globalfifo_release (filp : Z) d : Z * globalfifo_dev :=
  let '(_, d) := globalfifo_fasync (-1) filp 0 d in (0, d).

(** [globalfifo_probe]: [alloc] says whether [devm_kzalloc] succeeded (the
    memory it returns is zeroed), [reg] is what [misc_register] returned. The
    result carries the device when it is registered. *)
Definition globalfifo_probe (alloc : bool) (reg : Z) : Z * option globalfifo_dev :=
  if negb alloc then (- ENOMEM, None)
  else
    let gl := mk_dev 0 zeroed_mem None [] [] [] in
    if reg <? 0 then (reg, None) else (0, Some gl).

End operations.

(** ** The bounded queue the device implements *)

(** The bytes in the FIFO, oldest first. *)
Definition contents (d : globalfifo_dev) : list Z :=
  take (Z.to_nat (current_len d)) (mem d).

Definition dev_wf (d : globalfifo_dev) : Prop :=
  0 ≤ current_len d ≤ GLOBALFIFO_SIZE ∧
  length (mem d) = Z.to_nat GLOBALFIFO_SIZE.

(** The abstract queue: its bytes, oldest first, [None] for a byte of which nothing is
    known. It stands for the bytes of a buffer that are the same where they are known. *)
Definition known (o : option Z) (b : Z) : Prop := o = None ∨ o = Some b.
Definition agrees : list (option Z) → list Z → Prop := Forall2 known.

#[export] Instance known_dec o b : Decision (known o b).
Proof. unfold known. apply _. Defined.
#[export] Instance agrees_dec q bs : Decision (agrees q bs).
Proof. unfold agrees. apply _. Defined.

(** What a read of [n] bytes leaves. When more bytes are left than were taken, they are
    moved over themselves; [moves] says that [memcpy] can do that. *)
Definition queue_rest (moves : bool) (n : nat) (q : list (option Z)) : list (option Z) :=
  if moves || (length q <=? 2 * n)%nat then drop n q else replicate (length q - n) None.

(** A write appends what fits. *)
Definition queue_write (buf : list Z) (q : list Z) : list Z * list Z :=
  let fit := take (Z.to_nat GLOBALFIFO_SIZE - length q) buf in (fit, q ++ fit).

Lemma length_contents d : dev_wf d → length (contents d) = Z.to_nat (current_len d).
Proof.
  intros [Hl Hm]. unfold contents. rewrite length_take, Hm. lia.
Qed.

(** A device that was registered is empty and unlocked, with no waiter. *)
Lemma probe_device alloc reg r d :
  globalfifo_probe alloc reg = (r, Some d) →
  r = 0 ∧ dev_wf d ∧ current_len d = 0 ∧
  mutex d = None ∧ r_wait d = [] ∧ w_wait d = [] ∧ async_queue d = [].
Proof.
  unfold globalfifo_probe. destruct alloc; [|done]. cbn [negb].
  destruct (reg <? 0); [done|]. intros [= <- <-]. unfold dev_wf.
  cbn [current_len mem mutex r_wait w_wait async_queue].
  by rewrite length_zeroed_mem.
Qed.

(** Linear arithmetic with the buffer size unfolded. *)
Ltac fifo_lia := unfold GLOBALFIFO_SIZE in *; lia.

Section refinement.
Context `{K : Kernel}.

Lemma read_count d count :
  (if count >? current_len d then current_len d else count)
  = Z.min count (current_len d).
Proof. destruct (count >? current_len d) eqn:E; reflect_bools; lia. Qed.

Lemma write_count d (buf : list Z) :
  dev_wf d →
  (if Z.of_nat (length buf) >? u32 (GLOBALFIFO_SIZE - current_len d)
   then u32 (GLOBALFIFO_SIZE - current_len d) else Z.of_nat (length buf))
  = Z.min (Z.of_nat (length buf)) (GLOBALFIFO_SIZE - current_len d).
Proof.
  intros [Hl _]. unfold GLOBALFIFO_SIZE in *. autorewrite with cint.
  destruct (_ >? _) eqn:E; reflect_bools; lia.
Qed.

(** What a read delivers, and the length of what it leaves. *)
Lemma read_copy_output `{!MemcpyContract K} count d :
  dev_wf d → 0 ≤ count →
  ∀ r out d', globalfifo_read_copy count false d = (r, out, d') →
  dev_wf d' ∧ r = Z.of_nat (length out) ∧ out = take (length out) (contents d) ∧
  length (contents d') = (length (contents d) - length out)%nat.
Proof.
  intros Hwf Hc r out d' [= <- <- <-]. rewrite read_count.
  pose proof Hwf as [Hl Hm]. unfold GLOBALFIFO_SIZE in *.
  rewrite wraps_small by (simpl; lia). autorewrite with cint.
  set (m := memcpy _ _ _ _). assert (length m = length (mem d)) as Hlm by (apply memcpy_size; lia).
  unfold contents, dev_wf, set_buffer; cbn [current_len mem]. rewrite !length_take, Hlm, take_take.
  split_and!; [fifo_lia|fifo_lia|fifo_lia|fifo_lia|f_equal; lia|lia].
Qed.

(** The bytes that are left, when the regions of the copy are apart or [memcpy] moves. *)
Lemma read_copy_rest `{!MemcpyContract K} count d :
  dev_wf d → 0 ≤ count →
  ∀ r out d', globalfifo_read_copy count false d = (r, out, d') →
  MemcpyDescending K ∨ (length (contents d) ≤ 2 * length out)%nat →
  contents d' = drop (length out) (contents d).
Proof.
  intros Hwf Hc r out d' [= <- <- <-]. rewrite read_count.
  pose proof (length_contents d Hwf) as Hlc. pose proof Hwf as [Hl Hm]. unfold GLOBALFIFO_SIZE in *. autorewrite with cint.
  rewrite length_take, Hm, Nat.min_l by lia. intros Hmv.
  set (n := Z.min count (current_len d)) in *. assert (0 ≤ n ≤ current_len d) by lia.
  assert (memcpy 0 (Z.to_nat n) (Z.to_nat (current_len d - n)) (mem d) =
    splice 0 (take (Z.to_nat (current_len d - n)) (drop (Z.to_nat n) (mem d))) (mem d)) as ->.
  { destruct Hmv as [Hd|Hap]; [apply memcpy_descending|apply memcpy_disjoint]; lia. }
  unfold contents, set_buffer; cbn [current_len mem]. unfold splice. simpl.
  rewrite take_app_le by (rewrite length_take, length_drop; lia).
  rewrite take_take, Nat.min_id, skipn_firstn_comm. f_equal. lia.
Qed.

Lemma read_refines_queue `{!MemcpyContract K} moves count q d :
  (moves = true → MemcpyDescending K) → dev_wf d → 0 ≤ count → agrees q (contents d) →
  ∀ r out d', globalfifo_read_copy count false d = (r, out, d') →
  dev_wf d' ∧ r = Z.of_nat (length out) ∧ agrees (take (length out) q) out ∧
  agrees (queue_rest moves (length out) q) (contents d').
Proof.
  intros Hmv Hwf Hc Hq r out d' E. pose proof (Forall2_length _ _ _ Hq) as Hlq.
  destruct (read_copy_output count d Hwf Hc r out d' E) as (Hwf' & Hr & Hout & Hlen). split_and!; [done..| |].
  - rewrite Hout at 2. by apply Forall2_take.
  - unfold queue_rest. destruct (moves || _) eqn:Hb.
    + rewrite (read_copy_rest count d Hwf Hc r out d' E); [by apply Forall2_drop|].
      apply orb_true_iff in Hb as [Hb|Hb%Nat.leb_le]; [left; auto|right; lia].
    + apply Forall2_replicate_l; [lia|]. apply Forall_forall. intros b _. by left.
Qed.

Lemma write_refines_queue buf d :
  dev_wf d →
  ∀ r fit d', globalfifo_write_copy buf None d = (r, fit, d') →
  dev_wf d' ∧ r = Z.of_nat (length fit) ∧
  (fit, contents d') = queue_write buf (contents d).
Proof.
  intros Hwf r fit d' [= <- <- <-]. rewrite write_count by done.
  pose proof Hwf as [Hl Hm]. pose proof (length_contents d Hwf) as Hlen.
  set (n := Z.min _ _). assert (0 ≤ n ≤ GLOBALFIFO_SIZE - current_len d) by lia.
  assert (Z.to_nat n ≤ length buf)%nat by lia.
  unfold GLOBALFIFO_SIZE in *.
  rewrite wraps_small by (simpl; lia). autorewrite with cint.
  assert (length (take (Z.to_nat n) buf) = Z.to_nat n) as Hn by (rewrite length_take; lia).
  unfold dev_wf, set_buffer; cbn [current_len mem].
  split_and!; [fifo_lia|fifo_lia|..].
  - rewrite length_splice; [done|lia].
  - lia.
  - unfold queue_write. rewrite Hlen.
    assert (take (Z.to_nat n) buf = take (Z.to_nat 0x1000 - Z.to_nat (current_len d)) buf) as ->.
    { destruct (decide (Z.of_nat (length buf) ≤ 0x1000 - current_len d)).
      - rewrite !take_ge by lia. done.
      - f_equal. lia. }
    f_equal. unfold contents; cbn [current_len mem].
    rewrite <- take_splice by (rewrite length_take; fifo_lia).
    f_equal. rewrite length_take. fifo_lia.
Qed.

(** The copies change the buffer and nothing else of the device. *)
Lemma read_copy_shape count fault d r out d' :
  globalfifo_read_copy count fault d = (r, out, d') →
  ∃ n m, d' = set_buffer n m d.
Proof.
  unfold globalfifo_read_copy. destruct fault; intros [= <- <- <-]; [|eauto].
  exists (current_len d), (mem d). by destruct d.
Qed.

Lemma write_copy_shape buf fault d r fit d' :
  globalfifo_write_copy buf fault d = (r, fit, d') →
  ∃ n m, d' = set_buffer n m d.
Proof. unfold globalfifo_write_copy. destruct fault; intros [= <- <- <-]; eauto. Qed.

(** A write that faults leaves the FIFO as it was: the bytes it scribbled lie
    past the last valid one. *)
Lemma write_fault_contents buf junk d :
  dev_wf d →
  ∀ r fit d', globalfifo_write_copy buf (Some junk) d = (r, fit, d') →
  dev_wf d' ∧ contents d' = contents d.
Proof.
  intros Hwf r fit d' [= <- <- <-]. rewrite write_count by done.
  pose proof Hwf as [Hl Hm]. unfold dev_wf, contents, set_buffer; cbn [current_len mem].
  split.
  - rewrite length_splice; [done|]. rewrite length_take. fifo_lia.
  - unfold splice. apply take_app_length'. rewrite length_take. fifo_lia.
Qed.
End refinement.

(** ** Two kernels

    Both meet the documented contract of [memcpy]; one copies upwards, one
    downwards. *)

Fixpoint copy_up (a s n : nat) (m : list Z) : list Z :=
  match n with
  | O => m
  | S n => copy_up (S a) (S s) n (<[a := m !!! s]> m)
  end.

Fixpoint copy_down (a s n : nat) (m : list Z) : list Z :=
  match n with
  | O => m
  | S n => copy_down a s n (<[(a + n)%nat := m !!! (s + n)%nat]> m)
  end.

Definition fasync_list (fd filp mode : Z) (q : list Z) : Z * list Z :=
  if mode =? 0 then
    if decide (filp ∈ q) then (1, filter (.≠ filp) q) else (0, q)
  else if decide (filp ∈ q) then (0, q) else (1, filp :: q).

Definition wake_interruptible_state (st : task_state) : task_state :=
  match st with TASK_INTERRUPTIBLE => TASK_RUNNING | st => st end.

Definition kernel_up : Kernel := Build_Kernel copy_up wake_interruptible_state fasync_list.
Definition kernel_down : Kernel := Build_Kernel copy_down wake_interruptible_state fasync_list.

Lemma length_copy_up a s n m : length (copy_up a s n m) = length m.
Proof.
  revert a s m; induction n as [|n IH]; intros a s m; simpl; [done|].
  by rewrite IH, length_insert.
Qed.

Lemma length_copy_down a s n m : length (copy_down a s n m) = length m.
Proof.
  revert m; induction n as [|n IH]; intros m; simpl; [done|].
  by rewrite IH, length_insert.
Qed.

Lemma lookup_copy_up a s n m i :
  (a ≤ s ∨ s + n ≤ a)%nat → (a + n ≤ length m)%nat → (s + n ≤ length m)%nat →
  copy_up a s n m !! i =
  if decide (a ≤ i < a + n)%nat then m !! (s + (i - a))%nat else m !! i.
Proof.
  revert a s m; induction n as [|n IH]; intros a s m Hov Ha Hs; simpl.
  { case_decide; [lia|done]. }
  rewrite IH; rewrite ?length_insert; [|lia..].
  destruct (lookup_lt_is_Some_2 m s) as [x Hx]; [lia|].
  rewrite (list_lookup_total_correct _ _ _ Hx).
  destruct (decide (i = a)) as [->|Hne].
  - rewrite decide_False, decide_True by lia.
    rewrite list_lookup_insert_eq by lia. rewrite <- Hx. f_equal. lia.
  - destruct (decide (S a ≤ i < S a + n)%nat).
    + rewrite decide_True by lia. rewrite list_lookup_insert_ne by lia. f_equal. lia.
    + rewrite decide_False by lia. by rewrite list_lookup_insert_ne.
Qed.

Lemma lookup_copy_down a s n m i :
  (s ≤ a ∨ a + n ≤ s)%nat → (a + n ≤ length m)%nat → (s + n ≤ length m)%nat →
  copy_down a s n m !! i =
  if decide (a ≤ i < a + n)%nat then m !! (s + (i - a))%nat else m !! i.
Proof.
  revert m; induction n as [|n IH]; intros m Hov Ha Hs; simpl.
  { case_decide; [lia|done]. }
  rewrite IH; rewrite ?length_insert; [|lia..].
  destruct (lookup_lt_is_Some_2 m (s + n)) as [x Hx]; [lia|].
  rewrite (list_lookup_total_correct _ _ _ Hx).
  destruct (decide (i = a + n)%nat) as [->|Hne].
  - rewrite decide_False, decide_True by lia.
    rewrite list_lookup_insert_eq by lia. rewrite <- Hx. f_equal. lia.
  - destruct (decide (a ≤ i < a + n)%nat).
    + rewrite decide_True by lia. rewrite list_lookup_insert_ne by lia. f_equal.
    + rewrite decide_False by lia. by rewrite list_lookup_insert_ne.
Qed.

Lemma lookup_splice_copy a s n (m : list Z) i :
  (a + n ≤ length m)%nat → (s + n ≤ length m)%nat →
  splice a (take n (drop s m)) m !! i =
  if decide (a ≤ i < a + n)%nat then m !! (s + (i - a))%nat else m !! i.
Proof.
  intros Ha Hs.
  assert (length (take n (drop s m)) = n) as Hn by (rewrite length_take, length_drop; lia).
  case_decide.
  - rewrite lookup_splice_mid, lookup_take_lt, lookup_drop by lia. f_equal.
  - destruct (decide (i < a)%nat).
    + apply lookup_splice_lt; lia.
    + apply lookup_splice_ge; lia.
Qed.

#[export] Instance kernel_up_descending : MemcpyDescending kernel_up.
Proof.
  intros a s n m Ha Hs. apply list_eq; intros i.
  simpl. rewrite lookup_copy_up, lookup_splice_copy by lia. done.
Qed.

#[export] Instance kernel_up_contract : MemcpyContract kernel_up.
Proof.
  split; [|intros; apply length_copy_up]. intros a s n m Ha Hs Hd. apply list_eq; intros i.
  simpl. rewrite lookup_copy_up, lookup_splice_copy by lia. done.
Qed.

#[export] Instance kernel_down_contract : MemcpyContract kernel_down.
Proof.
  split; [|intros; apply length_copy_down]. intros a s n m Ha Hs Hd. apply list_eq; intros i.
  simpl. rewrite lookup_copy_down, lookup_splice_copy by lia. done.
Qed.

#[export] Instance kernel_up_wakes : WakeLaws kernel_up.
Proof. split; reflexivity. Qed.

#[export] Instance kernel_down_wakes : WakeLaws kernel_down.
Proof. split; reflexivity. Qed.

(** The driver shifts its buffer with [memcpy] over overlapping regions,
    which the contract of [memcpy] does not cover: with a [memcpy] that meets
    the contract but copies downwards, a read corrupts the bytes that stay in
    the FIFO. *)
Theorem globalfifo_read_needs_memmove :
  MemcpyContract kernel_down ∧
  ∃ d count r out d',
    dev_wf d ∧ globalfifo_read_copy (K := kernel_down) count false d = (r, out, d') ∧
    contents d = [1; 2; 3] ∧ out = [1] ∧ contents d' = [3; 3].
Proof.
  split; [apply _|].
  set (d := mk_dev 3 (splice 0 [1; 2; 3] zeroed_mem) None [] [] []).
  exists d, 1. do 3 eexists.
  split; [|split; [reflexivity|]].
  - split; [vm_compute; split; discriminate|]. unfold d; cbn [mem].
    rewrite length_splice; rewrite length_zeroed_mem; vm_compute; [reflexivity|lia].
  - split_and!; vm_compute; reflexivity.
Qed.

(** The event mask of [globalfifo_poll] tells the truth about the FIFO:
    readable exactly when it holds a byte, writable exactly when it has room. *)
Lemma globalfifo_poll_truthful d :
  dev_wf d →
  (Z.land (globalfifo_poll_mask d) (Z.lor POLLIN POLLRDNORM) = 0 ↔ contents d = []) ∧
  (Z.land (globalfifo_poll_mask d) (Z.lor POLLOUT POLLWRNORM) = 0 ↔
     length (contents d) = Z.to_nat GLOBALFIFO_SIZE).
Proof.
  intros Hwf. rewrite <- length_zero_iff_nil, (length_contents d Hwf).
  destruct Hwf as [Hl _]. unfold globalfifo_poll_mask.
  destruct (current_len d =? 0) eqn:E1, (current_len d =? GLOBALFIFO_SIZE) eqn:E2;
    reflect_bools; (split; split; intros H; try (vm_compute in H; discriminate));
    try reflexivity; fifo_lia.
Qed.

