(* ===== verification/GlobalFifoConc.v ===== *)
(** * The globalfifo device: blocking, wake-ups and interleaving

    Models the file operations of [src/schedule/day6/globalfifo.c] as run by
    any number of tasks. Each task has a program counter whose constructors
    are the points of the C function where another task can run; [exec] is
    one step of one task, and [step], [reachable] the transition relation.
    Signals arrive as steps of the environment.

    The kernel's scheduler is modelled by its contract: a task that called
    [schedule] resumes when its state is TASK_RUNNING, or when a signal that
    its sleep state reacts to is pending ([may_resume]). [poll_wait] only
    registers the caller with the VFS and is left out. *)

From S2P Require Import Prelude GlobalFifo.

#[local] Set Warnings "-clear-no-such-hyp".

(** ** Tasks *)

(** Program points of [globalfifo_read]. *)
Inductive read_pc :=
  | R_lock | R_queue | R_test | R_unlock | R_schedule | R_signal | R_relock
  | R_copy | R_out (ret : Z) | R_out2 (ret : Z).

(** Program points of [globalfifo_write]. *)
Inductive write_pc :=
  | W_lock | W_queue | W_test | W_unlock | W_schedule | W_signal | W_relock
  | W_copy | W_out (ret : Z) | W_out2 (ret : Z).

(** Program points of [globalfifo_ioctl] and [globalfifo_poll]. *)
Inductive ioctl_pc := I_switch | I_lock | I_clear | I_unlock.
Inductive poll_pc := P_lock | P_mask | P_unlock (mask : Z).

Inductive pc :=
  | Idle
  | Reading (p : read_pc) (nonblock : bool) (count : N)
  | Writing (p : write_pc) (nonblock : bool) (buf : list Z)
  | Ioctl (p : ioctl_pc) (cmd : Z)
  | Polling (p : poll_pc).

(** A task: where it is, its scheduler state, its pending signals. *)
Record task := mk_task {
  tpc : pc;
  tstate : task_state;
  sig_pending : bool;
  sig_fatal : bool;
}.

Definition goto (p : pc) (tk : task) : task :=
  mk_task p (tstate tk) (sig_pending tk) (sig_fatal tk).
Definition set_state (st : task_state) (tk : task) : task :=
  mk_task (tpc tk) st (sig_pending tk) (sig_fatal tk).

Definition may_resume (tk : task) : bool :=
  match tstate tk with
  | TASK_RUNNING => true
  | TASK_INTERRUPTIBLE => sig_pending tk
  | TASK_KILLABLE => sig_fatal tk
  end.

(** What the tasks did to the FIFO and what their calls returned. *)
Inductive event :=
  | EvRead (t : nat) (bs : list Z)
  | EvWrite (t : nat) (bs : list Z)
  | EvClear (t : nat)
  | EvSigio (t : nat)
  | EvReturn (t : nat) (ret : Z).

Record world := mk_world {
  dev : globalfifo_dev;
  tasks : gmap nat task;
  log : list event;
}.

(** A system call of a task, and the labels of the transitions. [LStep]
    carries what a failing user copy left behind, if it failed. *)
Inductive call :=
  | CallRead (nonblock : bool) (count : N)
  | CallWrite (nonblock : bool) (buf : list Z)
  | CallIoctl (cmd : Z)
  | CallPoll
  | CallFasync (fd filp mode : Z)
  | CallRelease (filp : Z).

Inductive label :=
  | LCall (t : nat) (c : call)
  | LStep (t : nat) (fault : option (list Z))
  | LSignal (t : nat) (fatal : bool).

Section exec.
Context `{K : Kernel}.

Definition wake_task (tk : task) : task := set_state (wake_interruptible (tstate tk)) tk.

(** [wake_up_interruptible(q)]: every task on [q]. *)
Definition wake_queue (q : list nat) (ts : gmap nat task) : gmap nat task :=
  map_imap (λ t tk, Some (if decide (t ∈ q) then wake_task tk else tk)) ts.

(** The world after task [t] became [tk] and the device [d]. *)
Definition commit (t : nat) (tk : task) (d : globalfifo_dev) (w : world) : world :=
  mk_world d (<[t := tk]> (tasks w)) (log w).

Definition emit (e : event) (w : world) : world :=
  mk_world (dev w) (tasks w) (log w ++ [e]).

(** [globalfifo_read], one step. *)
Definition exec_read (t : nat) (tk : task) (fault : bool) (w : world)
    (p : read_pc) (nb : bool) (count : N) : option world :=
  let d := dev w in
  let at_ q := goto (Reading q nb count) tk in
  match p with
  | R_lock =>
      guard (mutex d = None);; Some (commit t (at_ R_queue) (set_mutex (Some t) d) w)
  | R_queue => Some (commit t (at_ R_test) (set_r_wait (t :: r_wait d) d) w)
  | R_test =>
      if current_len d =? 0 then
        if nb then Some (commit t (at_ (R_out (- EAGAIN))) d w)
        else Some (commit t (set_state TASK_KILLABLE (at_ R_unlock)) d w)
      else Some (commit t (at_ R_copy) d w)
  | R_unlock => Some (commit t (at_ R_schedule) (set_mutex None d) w)
  | R_schedule =>
      guard (may_resume tk = true);;
      Some (commit t (set_state TASK_RUNNING (at_ R_signal)) d w)
  | R_signal =>
      if sig_fatal tk then Some (commit t (at_ (R_out2 (- ERESTARTSYS))) d w)
      else Some (commit t (at_ R_relock) d w)
  | R_relock =>
      guard (mutex d = None);; Some (commit t (at_ R_test) (set_mutex (Some t) d) w)
  | R_copy =>
      let '(ret, bs, d') := globalfifo_read_copy (Z.of_N count) fault d in
      let w' := commit t (at_ (R_out ret)) d' w in
      if fault then Some w'
      else Some (emit (EvRead t bs)
                   (mk_world (dev w') (wake_queue (w_wait d') (tasks w')) (log w')))
  | R_out ret => Some (commit t (at_ (R_out2 ret)) (set_mutex None d) w)
  | R_out2 ret =>
      Some (emit (EvReturn t ret)
        (commit t (set_state TASK_RUNNING (goto Idle tk))
           (set_r_wait (filter (.≠ t) (r_wait d)) d) w))
  end.

(** [globalfifo_write], one step. *)
Definition exec_write (t : nat) (tk : task) (fault : option (list Z)) (w : world)
    (p : write_pc) (nb : bool) (buf : list Z) : option world :=
  let d := dev w in
  let at_ q := goto (Writing q nb buf) tk in
  match p with
  | W_lock =>
      guard (mutex d = None);; Some (commit t (at_ W_queue) (set_mutex (Some t) d) w)
  | W_queue => Some (commit t (at_ W_test) (set_w_wait (t :: w_wait d) d) w)
  | W_test =>
      if current_len d =? GLOBALFIFO_SIZE then
        if nb then Some (commit t (at_ (W_out (- EAGAIN))) d w)
        else Some (commit t (set_state TASK_INTERRUPTIBLE (at_ W_unlock)) d w)
      else Some (commit t (at_ W_copy) d w)
  | W_unlock => Some (commit t (at_ W_schedule) (set_mutex None d) w)
  | W_schedule =>
      guard (may_resume tk = true);;
      Some (commit t (set_state TASK_RUNNING (at_ W_signal)) d w)
  | W_signal =>
      if sig_pending tk then Some (commit t (at_ (W_out2 (- ERESTARTSYS))) d w)
      else Some (commit t (at_ W_relock) d w)
  | W_relock =>
      guard (mutex d = None);; Some (commit t (at_ W_test) (set_mutex (Some t) d) w)
  | W_copy =>
      let '(ret, bs, d') := globalfifo_write_copy buf fault d in
      let w' := commit t (at_ (W_out ret)) d' w in
      match fault with
      | Some _ => Some w'
      | None =>
          let w'' := emit (EvWrite t bs)
                  (mk_world (dev w') (wake_queue (r_wait d') (tasks w')) (log w')) in
          Some (match async_queue d' with [] => w'' | _ => emit (EvSigio t) w'' end)
      end
  | W_out ret => Some (commit t (at_ (W_out2 ret)) (set_mutex None d) w)
  | W_out2 ret =>
      Some (emit (EvReturn t ret)
        (commit t (set_state TASK_RUNNING (goto Idle tk))
           (set_w_wait (filter (.≠ t) (w_wait d)) d) w))
  end.

(** [globalfifo_ioctl], one step. *)
Definition exec_ioctl (t : nat) (tk : task) (w : world) (p : ioctl_pc) (cmd : Z)
    : option world :=
  let d := dev w in
  match p with
  | I_switch =>
      if cmd =? FIFO_CLEAR then Some (commit t (goto (Ioctl I_lock cmd) tk) d w)
      else Some (emit (EvReturn t (- EINVAL)) (commit t (goto Idle tk) d w))
  | I_lock =>
      guard (mutex d = None);;
      Some (commit t (goto (Ioctl I_clear cmd) tk) (set_mutex (Some t) d) w)
  | I_clear =>
      Some (emit (EvClear t)
        (commit t (goto (Ioctl I_unlock cmd) tk) (globalfifo_clear d) w))
  | I_unlock =>
      Some (emit (EvReturn t 0) (commit t (goto Idle tk) (set_mutex None d) w))
  end.

(** [globalfifo_poll], one step. *)
Definition exec_poll (t : nat) (tk : task) (w : world) (p : poll_pc) : option world :=
  let d := dev w in
  match p with
  | P_lock =>
      guard (mutex d = None);;
      Some (commit t (goto (Polling P_mask) tk) (set_mutex (Some t) d) w)
  | P_mask => Some (commit t (goto (Polling (P_unlock (globalfifo_poll_mask d))) tk) d w)
  | P_unlock mask =>
      Some (emit (EvReturn t mask) (commit t (goto Idle tk) (set_mutex None d) w))
  end.

(** Entry into a file operation. [globalfifo_fasync] and [globalfifo_release]
    take no lock and are one step. *)
Definition exec_call (t : nat) (tk : task) (w : world) (c : call) : world :=
  let d := dev w in
  match c with
  | CallRead nb count => commit t (goto (Reading R_lock nb count) tk) d w
  | CallWrite nb buf => commit t (goto (Writing W_lock nb buf) tk) d w
  | CallIoctl cmd => commit t (goto (Ioctl I_switch cmd) tk) d w
  | CallPoll => commit t (goto (Polling P_lock) tk) d w
  | CallFasync fd filp mode =>
      let '(r, d') := globalfifo_fasync fd filp mode d in
      emit (EvReturn t r) (commit t tk d' w)
  | CallRelease filp =>
      let '(r, d') := globalfifo_release filp d in
      emit (EvReturn t r) (commit t tk d' w)
  end.

Definition exec (l : label) (w : world) : option world :=
  match l with
  | LCall t c =>
      tk ← tasks w !! t;
      match tpc tk with
      | Idle => Some (exec_call t tk w c)
      | _ => None
      end
  | LStep t fault =>
      tk ← tasks w !! t;
      match tpc tk with
      | Idle => None
      | Reading p nb count => exec_read t tk (bool_decide (is_Some fault)) w p nb count
      | Writing p nb buf => exec_write t tk fault w p nb buf
      | Ioctl p cmd => exec_ioctl t tk w p cmd
      | Polling p => exec_poll t tk w p
      end
  | LSignal t fatal =>
      tk ← tasks w !! t;
      Some (commit t (mk_task (tpc tk) (tstate tk) true (sig_fatal tk || fatal)) (dev w) w)
  end.

Fixpoint run (ls : list label) (w : world) : option world :=
  match ls with
  | [] => Some w
  | l :: ls => w' ← exec l w; run ls w'
  end.

Inductive step (w : world) (l : label) (w' : world) : Prop :=
  | step_exec : exec l w = Some w' → step w l w'.

(** The device as [globalfifo_probe] leaves it, with idle tasks. *)
Definition idle_task : task := mk_task Idle TASK_RUNNING false false.
Definition initial (w : world) : Prop :=
  globalfifo_probe true 0 = (0, Some (dev w)) ∧ log w = [] ∧
  ∀ t tk, tasks w !! t = Some tk → tk = idle_task.

Inductive reachable : world → Prop :=
  | reachable_init w : initial w → reachable w
  | reachable_step w l w' : reachable w → step w l w' → reachable w'.

End exec.

(** ** The abstract FIFO

    The log replayed on a bounded queue: a write appends the bytes it
    accepted and they fit, a read takes a prefix, FIFO_CLEAR empties it.
    [None] when the log is not a history of the queue. *)
Definition queue_event (moves : bool) (e : event) (q : list (option Z)) : option (list (option Z)) :=
  match e with
  | EvRead _ bs => guard (agrees (take (length bs) q) bs);; Some (queue_rest moves (length bs) q)
  | EvWrite _ bs =>
      guard (length q + length bs ≤ Z.to_nat GLOBALFIFO_SIZE)%nat;; Some (q ++ (Some <$> bs))
  | EvClear _ => Some []
  | EvSigio _ | EvReturn _ _ => Some q
  end.

Definition replay (moves : bool) (es : list event) : option (list (option Z)) :=
  foldl (λ oq e, oq ≫= queue_event moves e) (Some []) es.

Lemma replay_snoc moves es e : replay moves (es ++ [e]) = replay moves es ≫= queue_event moves e.
Proof. unfold replay. by rewrite foldl_app. Qed.

(** The log is a history of the queue, whose content is in the buffer. *)
Definition fifo_history (moves : bool) (es : list event) (d : globalfifo_dev) : Prop :=
  ∃ q, replay moves es = Some q ∧ agrees q (contents d).

Lemma fifo_history_skip moves es e d :
  (∀ q, queue_event moves e q = Some q) → fifo_history moves es d → fifo_history moves (es ++ [e]) d.
Proof. intros He (q & E & Hq). exists q. rewrite replay_snoc, E. cbn [mbind option_bind]. by rewrite He. Qed.

Lemma agrees_bytes bs : agrees (Some <$> bs) bs.
Proof. induction bs as [|b bs IH]; constructor; [by right|done]. Qed.

(** ** The invariant *)

(** The program points at which a task holds the device mutex. *)
Definition holds (p : pc) : bool :=
  match p with
  | Idle => false
  | Reading p _ _ =>
      match p with R_queue | R_test | R_unlock | R_copy | R_out _ => true | _ => false end
  | Writing p _ _ =>
      match p with W_queue | W_test | W_unlock | W_copy | W_out _ => true | _ => false end
  | Ioctl p _ => match p with I_clear | I_unlock => true | _ => false end
  | Polling p => match p with P_mask | P_unlock _ => true | _ => false end
  end.

(** The program points between [add_wait_queue] and [remove_wait_queue]. *)
Definition on_r_wait (p : pc) : bool :=
  match p with
  | Reading p _ _ => match p with R_lock | R_queue => false | _ => true end
  | _ => false
  end.
Definition on_w_wait (p : pc) : bool :=
  match p with
  | Writing p _ _ => match p with W_lock | W_queue => false | _ => true end
  | _ => false
  end.

(** The only points at which a task is in a sleep state. *)
Definition state_ok (tk : task) : Prop :=
  match tstate tk, tpc tk with
  | TASK_RUNNING, _ => True
  | TASK_INTERRUPTIBLE, Writing (W_unlock | W_schedule) _ _ => True
  | TASK_KILLABLE, Reading (R_unlock | R_schedule) _ _ => True
  | _, _ => False
  end.

Record task_inv (d : globalfifo_dev) (t : nat) (tk : task) : Prop := {
  ti_mutex : holds (tpc tk) = true ↔ mutex d = Some t;
  ti_r : on_r_wait (tpc tk) = true → t ∈ r_wait d;
  ti_w : on_w_wait (tpc tk) = true → t ∈ w_wait d;
  ti_state : state_ok tk;
}.

Record Inv (moves : bool) (w : world) : Prop := {
  inv_wf : dev_wf (dev w);
  inv_fifo : fifo_history moves (log w) (dev w);
  inv_task t tk : tasks w !! t = Some tk → task_inv (dev w) t tk;
}.

(** What a step of task [t] may do to the device without disturbing the
    other tasks. *)
Record frame (t : nat) (d d' : globalfifo_dev) : Prop := {
  frame_mutex u : u ≠ t → mutex d' = Some u ↔ mutex d = Some u;
  frame_r u : u ≠ t → u ∈ r_wait d → u ∈ r_wait d';
  frame_w u : u ≠ t → u ∈ w_wait d → u ∈ w_wait d';
}.

Create HintDb fifo.

Lemma frame_refl t d : frame t d d.
Proof. by split. Qed.
Lemma frame_lock t d : mutex d = None → frame t d (set_mutex (Some t) d).
Proof. intros E. split; simpl; rewrite ?E; naive_solver. Qed.
Lemma frame_unlock t d : mutex d = Some t → frame t d (set_mutex None d).
Proof. intros E. split; simpl; rewrite ?E; naive_solver. Qed.
Lemma frame_r_add t d : frame t d (set_r_wait (t :: r_wait d) d).
Proof. split; set_solver. Qed.
Lemma frame_w_add t d : frame t d (set_w_wait (t :: w_wait d) d).
Proof. split; set_solver. Qed.
Lemma frame_r_del t d : frame t d (set_r_wait (filter (.≠ t) (r_wait d)) d).
Proof. split; simpl; try done. intros u ??. by apply list_elem_of_filter. Qed.
Lemma frame_w_del t d : frame t d (set_w_wait (filter (.≠ t) (w_wait d)) d).
Proof. split; simpl; try done. intros u ??. by apply list_elem_of_filter. Qed.
Lemma frame_buffer t n m d : frame t d (set_buffer n m d).
Proof. by split. Qed.
Lemma frame_async t q d : frame t d (set_async q d).
Proof. by split. Qed.

#[export] Hint Resolve frame_refl frame_lock frame_unlock frame_r_add frame_w_add
  frame_r_del frame_w_del frame_buffer frame_async : fifo.

Lemma task_inv_frame t u d d' tk :
  frame t d d' → u ≠ t → task_inv d u tk → task_inv d' u tk.
Proof. intros [Hm Hr Hw] Hne [Hm' ? ? ?]. split; [rewrite Hm'; symmetry; auto|auto..]. Qed.

(** The invariant after task [t] moved: the device and the task itself are the
    only things to look at. *)
Lemma inv_commit moves w t tk' d' es :
  Inv moves w → frame t (dev w) d' → dev_wf d' →
  fifo_history moves es d' → task_inv d' t tk' →
  Inv moves (mk_world d' (<[t := tk']> (tasks w)) es).
Proof.
  intros [_ _ Ht] Hf Hwf Hr Hti. split; simpl; [done..|].
  intros u tku. rewrite lookup_insert. case_decide; naive_solver eauto using task_inv_frame.
Qed.

Section preservation.
Context `{K : Kernel} `{!MemcpyContract K} `{!WakeLaws K}.
Context (moves : bool) (Hmoves : moves = true → MemcpyDescending K).

Lemma state_ok_wake tk : state_ok tk → state_ok (wake_task tk).
Proof.
  unfold state_ok, wake_task. destruct tk as [p []]; simpl;
    rewrite ?wake_runner, ?wake_sleeper, ?wake_killable; done.
Qed.

Lemma task_inv_wake d t tk : task_inv d t tk → task_inv d t (wake_task tk).
Proof. intros []. split; [done..|]. by apply state_ok_wake. Qed.

Lemma inv_wake d ts es q :
  Inv moves (mk_world d ts es) → Inv moves (mk_world d (wake_queue q ts) es).
Proof.
  intros [? ? Ht]. split; simpl in *; [done..|]. intros t tk.
  unfold wake_queue. rewrite map_lookup_imap.
  destruct (ts !! t) as [tk0|] eqn:E; simpl; [|done].
  intros [= <-]. case_decide; eauto using task_inv_wake.
Qed.

Lemma inv_emit_return w t r : Inv moves w → Inv moves (emit (EvReturn t r) w).
Proof.
  intros [? Hr ?]. split; simpl; [done| |done]. by apply fifo_history_skip.
Qed.

Lemma inv_emit_sigio w t : Inv moves w → Inv moves (emit (EvSigio t) w).
Proof.
  intros [? Hr ?]. split; simpl; [done| |done]. by apply fifo_history_skip.
Qed.

(** Closes the [task_inv] of the task that moved. *)
Ltac solve_task_inv :=
  lazymatch goal with
  | H : task_inv _ ?t ?tk |- task_inv _ ?t _ =>
      destruct H as [?Hm ?Hr ?Hw ?Hs]; destruct tk as [? [] ? ?];
      unfold state_ok in *; simpl in *; subst; simpl in *; try done;
      (split; simpl in *;
       [intuition congruence
       | first [done | auto using list_elem_of_here]
       | first [done | auto using list_elem_of_here] | done])
  end.

(** Closes the steps that leave the buffer alone. *)
Ltac solve_move :=
  repeat first [apply inv_emit_return | apply inv_emit_sigio];
  apply inv_commit; [done | eauto with fifo | done | done | solve_task_inv].

Lemma read_copy_inv t tk fault w nb c :
  Inv moves w → tasks w !! t = Some tk → tpc tk = Reading R_copy nb c →
  ∀ w', exec_read t tk fault w R_copy nb c = Some w' → Inv moves w'.
Proof.
  intros HI Htk Hp w'. pose proof (inv_task _ _ HI t tk Htk) as Hti.
  pose proof (inv_wf _ _ HI) as Hwf. pose proof (inv_fifo _ _ HI) as Hq.
  cbn [exec_read]. destruct fault.
  { unfold globalfifo_read_copy. intros [= <-]. solve_move. }
  destruct (globalfifo_read_copy _ _ _) as [[ret bs] d'] eqn:E. intros [= <-].
  destruct Hq as (q & Er & Hq).
  pose proof (read_refines_queue moves (Z.of_N c) q _ Hmoves Hwf ltac:(lia) Hq _ _ _ E) as (Hwf' & _ & Hout & Hrest).
  apply read_copy_shape in E as (n & m & ->).
  unfold emit, commit; cbn [dev tasks log].
  apply inv_wake, inv_commit; [done|apply frame_buffer|done| |solve_task_inv].
  eexists. rewrite replay_snoc, Er. simpl. rewrite option_guard_True by done. done.
Qed.

Lemma exec_read_inv t tk fault w w' p nb c :
  Inv moves w → tasks w !! t = Some tk → tpc tk = Reading p nb c →
  exec_read t tk fault w p nb c = Some w' → Inv moves w'.
Proof.
  intros HI Htk Hp Hex. pose proof (inv_task _ _ HI t tk Htk) as Hti.
  pose proof (proj1 (ti_mutex _ _ _ Hti)) as Hown. rewrite Hp in Hown.
  pose proof (inv_wf _ _ HI) as Hwf. pose proof (inv_fifo _ _ HI) as Hq.
  destruct p; try (by eapply read_copy_inv); simpl in Hex; simplify_option_eq;
    repeat case_hyp; simplify_eq; solve_move.
Qed.

(** The history after a write. *)
Lemma write_history t es b bs d d' :
  dev_wf d → fifo_history moves es d → (bs, contents d') = queue_write b (contents d) → fifo_history moves (es ++ [EvWrite t bs]) d'.
Proof.
  intros Hwf (q & Er & Hq) [= Hb Hc]. exists (q ++ (Some <$> bs)). pose proof (Forall2_length _ _ _ Hq) as Hlq.
  rewrite replay_snoc, Er. simpl. rewrite option_guard_True.
  - split; [done|]. rewrite Hc, <- Hb. apply Forall2_app; [done|apply agrees_bytes].
  - rewrite Hb, length_take, Hlq, length_contents by done. destruct Hwf. fifo_lia.
Qed.

Lemma write_copy_inv t tk fault w nb b :
  Inv moves w → tasks w !! t = Some tk → tpc tk = Writing W_copy nb b →
  ∀ w', exec_write t tk fault w W_copy nb b = Some w' → Inv moves w'.
Proof.
  intros HI Htk Hp w'. pose proof (inv_task _ _ HI t tk Htk) as Hti.
  pose proof (inv_wf _ _ HI) as Hwf. pose proof (inv_fifo _ _ HI) as Hq.
  cbn [exec_write]. destruct fault as [junk|].
  - destruct (globalfifo_write_copy _ _ _) as [[ret bs] d'] eqn:E. intros [= <-].
    pose proof (write_fault_contents _ _ _ Hwf _ _ _ E) as [Hwf' Hc].
    apply write_copy_shape in E as (n & m & ->).
    unfold commit; cbn [dev tasks log].
    apply inv_commit; [done|apply frame_buffer|done| |solve_task_inv].
    destruct Hq as (q & Er & Hq). exists q. by rewrite Hc.
  - destruct (globalfifo_write_copy _ _ _) as [[ret bs] d'] eqn:E. intros [= <-].
    pose proof (write_refines_queue b _ Hwf _ _ _ E) as (Hwf' & _ & Hqw).
    apply write_copy_shape in E as (n & m & ->).
    cbn [async_queue set_buffer].
    destruct (async_queue (dev w)); [|apply inv_emit_sigio]; unfold emit, commit; cbn [dev tasks log];
      (apply inv_wake, inv_commit; [done|apply frame_buffer|done| |solve_task_inv]);
      by apply (write_history _ _ b _ (dev w)).
Qed.

Lemma exec_write_inv t tk fault w w' p nb b :
  Inv moves w → tasks w !! t = Some tk → tpc tk = Writing p nb b →
  exec_write t tk fault w p nb b = Some w' → Inv moves w'.
Proof.
  intros HI Htk Hp Hex. pose proof (inv_task _ _ HI t tk Htk) as Hti.
  pose proof (proj1 (ti_mutex _ _ _ Hti)) as Hown. rewrite Hp in Hown.
  pose proof (inv_wf _ _ HI) as Hwf. pose proof (inv_fifo _ _ HI) as Hq.
  destruct p; try (by eapply write_copy_inv); simpl in Hex; simplify_option_eq;
    repeat case_hyp; simplify_eq; solve_move.
Qed.

Lemma exec_ioctl_inv t tk w w' p cmd :
  Inv moves w → tasks w !! t = Some tk → tpc tk = Ioctl p cmd →
  exec_ioctl t tk w p cmd = Some w' → Inv moves w'.
Proof.
  intros HI Htk Hp Hex. pose proof (inv_task _ _ HI t tk Htk) as Hti.
  pose proof (proj1 (ti_mutex _ _ _ Hti)) as Hown. rewrite Hp in Hown.
  pose proof (inv_wf _ _ HI) as Hwf. pose proof (inv_fifo _ _ HI) as Hq.
  destruct p; simpl in Hex; simplify_option_eq; repeat case_hyp; simplify_eq;
    try solve_move.
  unfold emit, commit; cbn [dev tasks log].
  apply inv_commit; [done|apply frame_buffer| | |solve_task_inv].
  - unfold globalfifo_clear, dev_wf; cbn [current_len mem set_buffer].
    rewrite length_zeroed_mem. fifo_lia.
  - destruct Hq as (q & Er & _). exists []. rewrite replay_snoc, Er. split; [done|]. constructor.
Qed.

Lemma exec_poll_inv t tk w w' p :
  Inv moves w → tasks w !! t = Some tk → tpc tk = Polling p →
  exec_poll t tk w p = Some w' → Inv moves w'.
Proof.
  intros HI Htk Hp Hex. pose proof (inv_task _ _ HI t tk Htk) as Hti.
  pose proof (proj1 (ti_mutex _ _ _ Hti)) as Hown. rewrite Hp in Hown.
  pose proof (inv_wf _ _ HI) as Hwf. pose proof (inv_fifo _ _ HI) as Hq.
  destruct p; simpl in Hex; simplify_option_eq; repeat case_hyp; simplify_eq; solve_move.
Qed.

Lemma exec_call_inv t tk w c :
  Inv moves w → tasks w !! t = Some tk → tpc tk = Idle → Inv moves (exec_call t tk w c).
Proof.
  intros HI Htk Hp. pose proof (inv_task _ _ HI t tk Htk) as Hti.
  pose proof (inv_wf _ _ HI) as Hwf. pose proof (inv_fifo _ _ HI) as Hq.
  destruct c; simpl; try solve_move;
    unfold globalfifo_release, globalfifo_fasync;
    destruct (fasync_helper _ _ _ _); solve_move.
Qed.

Lemma exec_inv l w w' : Inv moves w → exec l w = Some w' → Inv moves w'.
Proof.
  intros HI Hex. destruct l as [t c|t fault|t fatal]; simpl in Hex;
    destruct (tasks w !! t) as [tk|] eqn:Htk; simplify_eq/=.
  - destruct (tpc tk) eqn:Hp; simplify_eq. by apply exec_call_inv.
  - destruct (tpc tk) eqn:Hp; simplify_eq;
      eauto using exec_read_inv, exec_write_inv, exec_ioctl_inv, exec_poll_inv.
  - pose proof (inv_task _ _ HI t tk Htk) as [????].
    apply inv_commit; [done|eauto with fifo|apply HI|apply HI|by split].
Qed.

Lemma initial_inv w : initial w → Inv moves w.
Proof.
  intros (Hp & Hl & Ht). apply probe_device in Hp as (_ & Hwf & Hc & Hm & _).
  split; [done| |].
  - exists []. rewrite Hl. unfold contents. rewrite Hc. split; [done|]. constructor.
  - intros t tk Htk. rewrite (Ht t tk Htk). split; simpl; rewrite ?Hm; done.
Qed.

Lemma reachable_inv w : reachable w → Inv moves w.
Proof.
  induction 1 as [w Hi|w l w' Hr IH [Hs]]; eauto using initial_inv, exec_inv.
Qed.

End preservation.

(** With the documented contract alone. *)
Lemma reachable_inv_false `{K : Kernel} `{!MemcpyContract K} `{!WakeLaws K} w : reachable w → Inv false w.
Proof. by apply reachable_inv. Qed.

(** ** Blocked writers *)

(** A writer that sleeps does so on a full FIFO. *)
Definition writers_ok (w : world) : Prop :=
  ∀ t tk, tasks w !! t = Some tk → tstate tk = TASK_INTERRUPTIBLE →
  current_len (dev w) = GLOBALFIFO_SIZE.

Lemma writers_commit w t tk tk' d' es :
  writers_ok w → tasks w !! t = Some tk → current_len d' = current_len (dev w) →
  (tstate tk' = TASK_INTERRUPTIBLE →
     tstate tk = TASK_INTERRUPTIBLE ∨ current_len (dev w) = GLOBALFIFO_SIZE) →
  writers_ok (mk_world d' (<[t := tk']> (tasks w)) es).
Proof.
  intros Hw Htk Hl Hst u tku. simpl. rewrite lookup_insert, Hl.
  case_decide; [intros [= <-] Hi|by apply Hw]. destruct (Hst Hi); eauto.
Qed.

Section writers.
Context `{K : Kernel} `{!MemcpyContract K} `{!WakeLaws K}.

Lemma wake_queue_sleeper q ts t tk :
  wake_queue q ts !! t = Some tk → tstate tk = TASK_INTERRUPTIBLE →
  ts !! t = Some tk ∧ t ∉ q.
Proof.
  unfold wake_queue. rewrite map_lookup_imap.
  destruct (ts !! t) as [tk0|] eqn:E; simpl; [|done]. intros [= <-].
  case_decide; [|intros ?; split; done]. destruct tk0 as [p [] ? ?]; simpl;
    rewrite ?wake_runner, ?wake_sleeper, ?wake_killable; intros; discriminate.
Qed.

Lemma sleeper_on_queue w t tk :
  Inv false w → tasks w !! t = Some tk → tstate tk = TASK_INTERRUPTIBLE → t ∈ w_wait (dev w).
Proof.
  intros HI Htk Hs. destruct (inv_task _ _ HI t tk Htk) as [_ _ Hw Hok].
  apply Hw. revert Hok. unfold state_ok, on_w_wait. rewrite Hs.
  destruct (tpc tk) as [|?|[]| |]; done.
Qed.

Lemma read_copy_writers t tk fault w nb c w' :
  Inv false w → writers_ok w → tasks w !! t = Some tk → tpc tk = Reading R_copy nb c →
  exec_read t tk fault w R_copy nb c = Some w' → writers_ok w'.
Proof.
  intros HI Hw Htk Hp. pose proof (inv_task _ _ HI t tk Htk) as Hti.
  cbn [exec_read]. destruct fault.
  { intros [= <-]. eapply writers_commit; eauto. }
  destruct (globalfifo_read_copy _ _ _) as [[ret bs] d'] eqn:E. intros [= <-].
  apply read_copy_shape in E as (n & m & ->). intros u tku. simpl.
  intros Hu Hs. destruct (wake_queue_sleeper _ _ _ _ Hu Hs) as [Hu' Hnq].
  exfalso. apply Hnq. revert Hu'. rewrite lookup_insert. case_decide as Ht.
  - intros [= <-]. subst. eapply sleeper_on_queue; eauto.
  - intros Hu'. eapply sleeper_on_queue; eauto.
Qed.

(** A write into a full FIFO accepts nothing. *)
Lemma write_copy_full b fault d r bs d' :
  current_len d = GLOBALFIFO_SIZE →
  globalfifo_write_copy b fault d = (r, bs, d') → current_len d' = GLOBALFIFO_SIZE.
Proof.
  intros Hf. unfold globalfifo_write_copy. rewrite Hf, Z.sub_diag.
  destruct fault; intros [= <- <- <-]; cbn [current_len set_buffer]; [done|].
  change (u32 0) with 0. destruct (_ >? 0) eqn:E; reflect_bools; [done|].
  replace (Z.of_nat (length b)) with 0 by lia. done.
Qed.

Lemma write_copy_writers t tk fault w nb b w' :
  Inv false w → writers_ok w → tasks w !! t = Some tk → tpc tk = Writing W_copy nb b →
  exec_write t tk fault w W_copy nb b = Some w' → writers_ok w'.
Proof.
  intros HI Hw Htk Hp Hex u tku Hu Hs.
  cbn [exec_write] in Hex.
  destruct (globalfifo_write_copy _ _ _) as [[ret bs] d'] eqn:E.
  assert (dev w' = d' ∧ ∃ tk0, tasks w !! u = Some tk0 ∧ tstate tk0 = TASK_INTERRUPTIBLE)
    as [-> (tk0 & Hu0 & Hs0)].
  { assert (∀ v tkv, <[t := goto (Writing (W_out ret) nb b) tk]> (tasks w) !! v = Some tkv →
       tstate tkv = TASK_INTERRUPTIBLE →
       ∃ tk0, tasks w !! v = Some tk0 ∧ tstate tk0 = TASK_INTERRUPTIBLE) as Hold.
    { intros v tkv. rewrite lookup_insert. case_decide; [intros [= <-]; subst|]; eauto. }
    destruct fault; [|destruct (async_queue d')]; simplify_eq/=; (split; [done|]).
    - eauto.
    - destruct (wake_queue_sleeper _ _ _ _ Hu Hs); eauto.
    - destruct (wake_queue_sleeper _ _ _ _ Hu Hs); eauto. }
  eapply write_copy_full, E. eauto.
Qed.

(** Closes the steps that leave the length alone. *)
Ltac solve_writers :=
  eapply writers_commit;
  [eassumption|eassumption|reflexivity|simpl; first [discriminate | tauto]].

Lemma exec_writers l w w' :
  Inv false w → writers_ok w → exec l w = Some w' →
  (∃ t, log w' = log w ++ [EvClear t]) ∨ writers_ok w'.
Proof.
  intros HI Hw Hex. destruct l as [t c|t fault|t fatal]; simpl in Hex;
    destruct (tasks w !! t) as [tk|] eqn:Htk; simplify_eq/=.
  - right. destruct (tpc tk) eqn:Hp; simplify_eq. destruct c; simpl; try solve_writers;
    unfold globalfifo_release, globalfifo_fasync; destruct (fasync_helper _ _ _ _);
    solve_writers.
  - destruct (tpc tk) eqn:Hp; simplify_eq.
    + right. destruct p; try (by eapply read_copy_writers);
        simpl in Hex; simplify_option_eq; repeat case_hyp; simplify_eq; solve_writers.
    + right. destruct p; try (by eapply write_copy_writers);
        simpl in Hex; simplify_option_eq; repeat case_hyp; simplify_eq;
        reflect_bools; solve_writers.
    + destruct p; simpl in Hex; simplify_option_eq; repeat case_hyp; simplify_eq;
       first [left; by eexists | right; solve_writers].
    + right. destruct p; simpl in Hex; simplify_option_eq; repeat case_hyp; simplify_eq;
        solve_writers.
  - right. solve_writers.
Qed.

Lemma exec_log l w w' : exec l w = Some w' → ∃ es, log w' = log w ++ es.
Proof.
  intros Hex.
  assert (∀ e : event, ∃ es, log w ++ [e] = log w ++ es) by eauto.
  assert (∀ e e' : event, ∃ es, (log w ++ [e]) ++ [e'] = log w ++ es).
  { intros e e'. rewrite <- app_assoc. eauto. }
  assert (∃ es, log w = log w ++ es) by (exists []; by rewrite app_nil_r).
  destruct l as [t c|t fault|t fatal]; simpl in Hex;
    destruct (tasks w !! t) as [tk|] eqn:Htk; simplify_eq/=.
  - destruct (tpc tk) eqn:Hp; simplify_eq. destruct c; simpl; try done;
      unfold globalfifo_release, globalfifo_fasync; destruct (fasync_helper _ _ _ _); simpl; auto.
  - destruct (tpc tk) eqn:Hp; simplify_eq; destruct p; simpl in Hex; simplify_option_eq;
      repeat case_hyp; simplify_eq; simpl; auto.
  - done.
Qed.

Lemma reachable_writers w :
  reachable w → (∀ t, EvClear t ∉ log w) → writers_ok w.
Proof.
  induction 1 as [w Hi|w l w' Hr IH [Hs]]; intros Hnc.
  - intros t tk Htk. destruct Hi as (_ & _ & Hi). by rewrite (Hi t tk Htk).
  - destruct (exec_log _ _ _ Hs) as [es Hes].
    destruct (exec_writers l w w') as [[t Ht]|]; eauto using reachable_inv_false.
    + apply IH. intros t Ht. apply (Hnc t). rewrite Hes. apply elem_of_app; auto.
    + exfalso. apply (Hnc t). rewrite Ht. apply elem_of_app. right. by constructor.
Qed.
End writers.

(** ** Results *)

Section results.
Context `{K : Kernel}.

Lemma run_reachable ls w w' : reachable w → run ls w = Some w' → reachable w'.
Proof.
  revert w. induction ls as [|l ls IH]; simpl; intros w Hr Hrun; [by simplify_eq|].
  destruct (exec l w) as [w1|] eqn:E; simplify_eq/=.
  eapply IH; [|done]. eapply reachable_step; [done|by constructor].
Qed.

Context `{!MemcpyContract K} `{!WakeLaws K}.

(** C1. Whatever the interleaving of reads, writes, clears and polls, the
    bytes the driver delivered and accepted are a history of one bounded FIFO
    queue of GLOBALFIFO_SIZE bytes, and the buffer holds its current content. A read
    that leaves more bytes than it takes copies overlapping regions with [memcpy]: by
    its contract the bytes that are left are then unknown, and only their number and
    place in the queue are as they should be; bytes written later are right again. If
    [memcpy] moves such a block as [memmove] does, no byte is lost, duplicated or
    reordered. *)
Theorem globalfifo_history_is_fifo moves w :
  (moves = true → MemcpyDescending K) → reachable w →
  ∃ q, replay moves (log w) = Some q ∧ agrees q (contents (dev w)).
Proof. intros Hm Hr. apply (inv_fifo moves w), reachable_inv; done. Qed.

(** C2. In every reachable state the fill level stays within the buffer, and
    at most one task is inside a critical section of the driver: the one the
    mutex names. *)
Theorem globalfifo_bounds_and_exclusion w :
  reachable w →
  dev_wf (dev w) ∧
  ∀ t u tk uk, tasks w !! t = Some tk → tasks w !! u = Some uk →
    holds (tpc tk) = true → holds (tpc uk) = true →
    t = u ∧ mutex (dev w) = Some t.
Proof.
  intros Hr%reachable_inv_false. split; [apply Hr|]. intros t u tk uk Ht Hu Hht Hhu.
  pose proof (proj1 (ti_mutex _ _ _ (inv_task _ _ Hr t tk Ht)) Hht).
  pose proof (proj1 (ti_mutex _ _ _ (inv_task _ _ Hr u uk Hu)) Hhu).
  naive_solver.
Qed.

(** C3. No lost wake-up for writers as long as nobody cleared the FIFO: a
    writer that called [schedule] while the FIFO was full can run again as
    soon as there is room. *)
Theorem globalfifo_writer_wakes w t tk nb b :
  reachable w → (∀ u, EvClear u ∉ log w) →
  tasks w !! t = Some tk → tpc tk = Writing W_schedule nb b →
  current_len (dev w) < GLOBALFIFO_SIZE → may_resume tk = true.
Proof.
  intros Hr Hnc Htk Hp Hlt. pose proof (reachable_writers w Hr Hnc t tk Htk) as Hfull.
  pose proof (ti_state _ _ _ (inv_task _ _ (reachable_inv_false w Hr) t tk Htk)) as Hok.
  unfold state_ok in Hok. rewrite Hp in Hok. unfold may_resume.
  destruct (tstate tk); [done|rewrite Hfull in Hlt by done; lia|done].
Qed.

End results.

Section stuck_reader.
Context `{K : Kernel} `{!WakeLaws K}.

(** A reader inside [schedule], in the sleep state the driver gives it, with
    no fatal signal. *)
Definition reader_blocked (w : world) (t : nat) : Prop :=
  ∃ tk nb c, tasks w !! t = Some tk ∧ tpc tk = Reading R_schedule nb c ∧
    tstate tk = TASK_KILLABLE ∧ sig_fatal tk = false.

Lemma lookup_wake_queue q ts u tk :
  ts !! u = Some tk →
  wake_queue q ts !! u = Some tk ∨ wake_queue q ts !! u = Some (wake_task tk).
Proof.
  intros E. unfold wake_queue. rewrite map_lookup_imap, E. simpl. case_decide; auto.
Qed.

(** A step of task [t] leaves another task as it is or wakes it. *)
Lemma exec_step_other t fault w w' u tku :
  exec (LStep t fault) w = Some w' → tasks w !! u = Some tku → u ≠ t →
  tasks w' !! u = Some tku ∨ tasks w' !! u = Some (wake_task tku).
Proof.
  intros Hex Hu Hne. simpl in Hex. destruct (tasks w !! t) as [tk|] eqn:Htk; simplify_eq/=.
  assert (∀ tk', <[t := tk']> (tasks w) !! u = Some tku) as Hins.
  { intros tk'. by rewrite lookup_insert_ne. }
  destruct (tpc tk) as [|p nb c|p nb b|p cmd|p]; simplify_eq; destruct p;
    simpl in Hex; simplify_option_eq; repeat case_hyp; simplify_eq; simpl;
    auto using lookup_wake_queue.
Qed.

Lemma exec_blocked l w w' t :
  exec l w = Some w' → l ≠ LSignal t true → reader_blocked w t → reader_blocked w' t.
Proof.
  intros Hex Hl (tk & nb & c & Htk & Hp & Hst & Hf).
  assert (wake_task tk = tk) as Hwk.
  { destruct tk; simpl in *; subst. unfold wake_task, set_state; simpl.
    by rewrite wake_killable. }
  destruct l as [u cl|u fault|u fatal].
  - simpl in Hex. destruct (tasks w !! u) as [uk|] eqn:Huk; simplify_eq/=.
    destruct (decide (u = t)) as [->|Hne]; simplify_eq; [by rewrite Hp in Hex|].
    destruct (tpc uk); simplify_eq. exists tk, nb, c. split; [|done].
    destruct cl; simpl; unfold globalfifo_release, globalfifo_fasync;
      try destruct (fasync_helper _ _ _ _); simpl; by rewrite lookup_insert_ne.
  - destruct (decide (u = t)) as [->|Hne].
    + simpl in Hex. rewrite Htk in Hex. simpl in Hex. rewrite Hp in Hex. simpl in Hex.
      unfold may_resume in Hex. rewrite Hst, Hf in Hex. simplify_option_eq.
    + exists tk, nb, c. split; [|done].
      destruct (exec_step_other u fault w w' t tk); congruence.
  - simpl in Hex. destruct (tasks w !! u) as [uk|] eqn:Huk; simplify_eq/=.
    destruct (decide (u = t)) as [->|Hne].
    + destruct fatal; [congruence|]. simplify_eq. unfold reader_blocked; simpl.
      rewrite lookup_insert_eq. do 3 eexists. split; [done|]. simpl.
      by rewrite Hf, orb_false_r.
    + exists tk, nb, c. split; [|done]. simpl. by rewrite lookup_insert_ne.
Qed.

(** C4. A reader that blocked never gets the data it waits for: it sleeps in
    TASK_KILLABLE while writers call [wake_up_interruptible], so whatever the
    other tasks do, it stays in [schedule] until a fatal signal kills it. *)
Theorem globalfifo_reader_stuck ls w w' t :
  reader_blocked w t → run ls w = Some w' → LSignal t true ∉ ls →
  reader_blocked w' t.
Proof.
  revert w. induction ls as [|l ls IH]; simpl; intros w Hb Hrun Hn; [by simplify_eq|].
  apply not_elem_of_cons in Hn as [Hl Hn].
  destruct (exec l w) as [w1|] eqn:E; simplify_eq/=.
  eapply IH; [eapply exec_blocked; eauto; congruence|done..].
Qed.

End stuck_reader.

(** ** Runs

    Concrete executions on the device as probed, with three idle tasks and the
    kernel that copies upwards. *)

#[local] Existing Instance kernel_up.

Definition boot_world : world :=
  mk_world (mk_dev 0 zeroed_mem None [] [] [])
    (list_to_map [(0%nat, idle_task); (1%nat, idle_task); (2%nat, idle_task)]) [].

Definition steps_of (t n : nat) : list label := replicate n (LStep t None).

(** The state a run from [boot_world] ends in. *)
Definition after (ls : list label) : world := default boot_world (run ls boot_world).

Lemma boot_initial : initial boot_world.
Proof.
  split_and!; [done..|]. intros t tk. unfold boot_world; simpl.
  rewrite !lookup_insert. repeat case_decide; intros; simplify_eq; try done.
Qed.

Lemma after_reachable ls :
  bool_decide (is_Some (run ls boot_world)) = true → reachable (after ls).
Proof.
  unfold after. destruct (run ls boot_world) as [w|] eqn:E; [|done]. intros _.
  eapply run_reachable; [|done]. apply reachable_init, boot_initial.
Qed.

(** Task 0 writes three bytes, task 1 reads two of them. *)
Definition run_copy : list label :=
  LCall 0 (CallWrite false [7; 8; 9]) :: steps_of 0 6
  ++ LCall 1 (CallRead false 2) :: steps_of 1 6.

(** Task 0 fills the FIFO, task 1 blocks writing to it. *)
Definition run_full : list label :=
  LCall 0 (CallWrite false (replicate 5000 7)) :: steps_of 0 6
  ++ LCall 1 (CallWrite false [1]) :: steps_of 1 4.

(** Task 0 blocks on the empty FIFO. *)
Definition run_reader : list label := LCall 0 (CallRead false 2) :: steps_of 0 4.

Lemma globalfifo_history_is_fifo_witness :
  reachable (after run_copy) ∧
  log (after run_copy) = [EvWrite 0 [7; 8; 9]; EvReturn 0 3; EvRead 1 [7; 8]; EvReturn 1 2] ∧
  replay false (log (after run_copy)) = Some [Some 9] ∧
  ∃ q, replay false (log (after run_copy)) = Some q ∧ agrees q (contents (dev (after run_copy))).
Proof.
  assert (reachable (after run_copy)) as Hr.
  { apply after_reachable. vm_compute. reflexivity. }
  split_and!; [done|vm_compute; reflexivity|vm_compute; reflexivity|].
  apply globalfifo_history_is_fifo; [done|exact Hr].
Defined.

Lemma globalfifo_bounds_and_exclusion_witness :
  let w := after (LCall 0 (CallWrite false [7]) :: steps_of 0 2) in
  reachable w ∧ mutex (dev w) = Some 0%nat ∧
  dev_wf (dev w) ∧
  ∀ t u tk uk, tasks w !! t = Some tk → tasks w !! u = Some uk →
    holds (tpc tk) = true → holds (tpc uk) = true →
    t = u ∧ mutex (dev w) = Some t.
Proof.
  intros w. assert (reachable w) as Hr.
  { apply after_reachable. vm_compute. reflexivity. }
  split_and!; [done|vm_compute; reflexivity|apply globalfifo_bounds_and_exclusion, Hr..].
Defined.

Definition not_clear (e : event) : bool :=
  match e with EvClear _ => false | _ => true end.

Lemma no_clear_check w : forallb not_clear (log w) = true → ∀ u, EvClear u ∉ log w.
Proof.
  intros H u Hin. rewrite forallb_forall in H.
  by specialize (H _ (proj1 (list_elem_of_In _ _) Hin)).
Qed.

Lemma globalfifo_writer_wakes_witness :
  let w := after (run_full ++ LCall 2 (CallRead false 10) :: steps_of 2 4) in
  ∃ tk, tasks w !! 1%nat = Some tk ∧ tpc tk = Writing W_schedule false [1] ∧
    current_len (dev w) = 4086 ∧ may_resume tk = true.
Proof.
  intros w. exists (default idle_task (tasks w !! 1%nat)).
  split_and!; [vm_compute; reflexivity..|].
  apply (globalfifo_writer_wakes w 1 _ false [1]).
  - apply after_reachable. vm_compute. reflexivity.
  - apply no_clear_check. vm_compute. reflexivity.
  - vm_compute. reflexivity.
  - vm_compute. reflexivity.
  - vm_compute. reflexivity.
Defined.

Lemma globalfifo_reader_stuck_witness :
  let ls := LCall 1 (CallWrite false [7; 8; 9]) :: steps_of 1 6 in
  let w' := default boot_world (run ls (after run_reader)) in
  contents (dev w') = [7; 8; 9] ∧ reader_blocked w' 0.
Proof.
  intros ls w'. split; [vm_compute; reflexivity|].
  apply (globalfifo_reader_stuck ls (after run_reader)).
  - exists (default idle_task (tasks (after run_reader) !! 0%nat)), false, 2%N.
    split_and!; vm_compute; reflexivity.
  - vm_compute. reflexivity.
  - subst ls. intros Hin. repeat (apply elem_of_cons in Hin as [Hin|Hin]; [discriminate|]).
    by apply elem_of_nil in Hin.
Defined.

(** FIFO_CLEAR strands writers: it empties the FIFO without waking [w_wait],
    so a reachable state has a writer asleep in [schedule], with no signal to
    wait for, on a FIFO that has all its room free. *)
Theorem globalfifo_clear_strands_writer :
  ∃ w t tk nb b, reachable w ∧ tasks w !! t = Some tk ∧
    tpc tk = Writing W_schedule nb b ∧ may_resume tk = false ∧
    current_len (dev w) = 0 ∧ mutex (dev w) = None.
Proof.
  set (w := after (run_full ++ LCall 2 (CallIoctl FIFO_CLEAR) :: steps_of 2 4)).
  exists w, 1%nat, (default idle_task (tasks w !! 1%nat)), false, [1].
  split_and!; [apply after_reachable|..]; vm_compute; reflexivity.
Qed.
