(* ===== verification/SimpleFsLayout.v ===== *)
(** * simplefs: the on-disk layout

    Models [src/io/simplefs/simple.h], the structures that mkfs-simplefs and
    the kernel module both cast block buffers to: the superblock, the inode
    of the inode store and the directory record, each as the bytes a 64-bit
    little-endian build of the header puts on disk. A block is a list of
    bytes; a cast followed by a field access is a read at the field's offset.

    Padding bytes between fields are never read; a whole-structure copy writes
    them as zero here. *)

From S2P Require Import Prelude.

(** ** Little-endian integers in byte lists *)

Fixpoint le_bytes (n : nat) (z : Z) : list Z :=
  match n with
  | O => []
  | S n => z mod 256 :: le_bytes n (z / 256)
  end.

Fixpoint le_value (bs : list Z) : Z :=
  match bs with
  | [] => 0
  | b :: bs => b + 256 * le_value bs
  end.

Lemma length_le_bytes n z : length (le_bytes n z) = n.
Proof. revert z; induction n as [|n IH]; intros z; simpl; [done|]. by rewrite IH. Qed.

Lemma le_bytes_range n z : Forall is_byte (le_bytes n z).
Proof.
  revert z; induction n as [|n IH]; intros z; simpl; constructor; [|done].
  unfold is_byte. apply Z.mod_pos_bound. lia.
Qed.

Lemma le_value_bytes n z :
  0 ≤ z < 256 ^ Z.of_nat n → le_value (le_bytes n z) = z.
Proof.
  revert z; induction n as [|n IH]; intros z Hz.
  - simpl in *. lia.
  - cbn [le_bytes le_value]. rewrite IH.
    + pose proof (Z.div_mod z 256). lia.
    + rewrite Nat2Z.inj_succ, Z.pow_succ_r in Hz by lia.
      split; [apply Z.div_pos; lia|apply Z.div_lt_upper_bound; lia].
Qed.

(** ** Field access in a block *)

Definition SIMPLEFS_DEFAULT_BLOCK_SIZE : Z := 4096.

(** The [n] bytes at offset [off]; [None] when they are not all in the block,
    where the C code would read outside the buffer. *)
Definition get_bytes (off n : Z) (b : list Z) : option (list Z) :=
  if bool_decide (0 ≤ off ∧ 0 ≤ n ∧ off + n ≤ Z.of_nat (length b))
  then Some (take (Z.to_nat n) (drop (Z.to_nat off) b)) else None.

(** The block after a copy of [bs] to offset [off]; [None] when it does not
    fit, where the C code would write outside the buffer. *)
Definition put_bytes (off : Z) (bs b : list Z) : option (list Z) :=
  if bool_decide (0 ≤ off ∧ off + Z.of_nat (length bs) ≤ Z.of_nat (length b))
  then Some (splice (Z.to_nat off) bs b) else None.

Definition get_u64 (off : Z) (b : list Z) : option Z := le_value <$> get_bytes off 8 b.
Definition get_u32 (off : Z) (b : list Z) : option Z := le_value <$> get_bytes off 4 b.
Definition put_u64 (off z : Z) (b : list Z) : option (list Z) :=
  put_bytes off (le_bytes 8 z) b.

Lemma put_bytes_length off bs b b' : put_bytes off bs b = Some b' → length b' = length b.
Proof.
  unfold put_bytes. case_bool_decide; intros; simplify_eq. apply length_splice. lia.
Qed.

Lemma put_bytes_some off bs b :
  0 ≤ off → off + Z.of_nat (length bs) ≤ Z.of_nat (length b) →
  put_bytes off bs b = Some (splice (Z.to_nat off) bs b).
Proof. intros. unfold put_bytes. by rewrite bool_decide_true. Qed.

Lemma get_bytes_some off n b :
  0 ≤ off → 0 ≤ n → off + n ≤ Z.of_nat (length b) →
  get_bytes off n b = Some (take (Z.to_nat n) (drop (Z.to_nat off) b)).
Proof. intros. unfold get_bytes. by rewrite bool_decide_true. Qed.

Lemma get_put_same off bs b b' :
  put_bytes off bs b = Some b' → get_bytes off (Z.of_nat (length bs)) b' = Some bs.
Proof.
  intros H. pose proof (put_bytes_length _ _ _ _ H) as Hl. revert H.
  unfold put_bytes, get_bytes. case_bool_decide; intros; simplify_eq.
  rewrite bool_decide_true by lia. f_equal. unfold splice.
  rewrite drop_app_length' by (rewrite length_take; lia).
  rewrite Nat2Z.id. by apply take_app_length'.
Qed.

Lemma get_put_other off off' n bs b b' :
  put_bytes off bs b = Some b' →
  (off' + n ≤ off ∨ off + Z.of_nat (length bs) ≤ off') →
  get_bytes off' n b' = get_bytes off' n b.
Proof.
  intros H Hd. pose proof (put_bytes_length _ _ _ _ H) as Hl. revert H.
  unfold put_bytes, get_bytes. rewrite Hl. case_bool_decide; intros; simplify_eq.
  case_bool_decide; [|done]. f_equal. apply list_eq. intros i.
  destruct (decide (i < Z.to_nat n)%nat).
  - rewrite !lookup_take_lt, !lookup_drop by lia.
    destruct Hd; [apply lookup_splice_lt|apply lookup_splice_ge]; lia.
  - rewrite !lookup_take_ge by lia. done.
Qed.

Lemma get_put_u64 off z b b' :
  0 ≤ z < 2 ^ 64 → put_u64 off z b = Some b' → get_u64 off b' = Some z.
Proof.
  intros Hz H. unfold put_u64 in H. apply get_put_same in H.
  rewrite length_le_bytes in H. unfold get_u64. change 8 with (Z.of_nat 8).
  rewrite H. simpl. f_equal. by apply (le_value_bytes 8).
Qed.

Lemma get_u64_other off off' bs b b' :
  put_bytes off bs b = Some b' →
  (off' + 8 ≤ off ∨ off + Z.of_nat (length bs) ≤ off') →
  get_u64 off' b' = get_u64 off' b.
Proof. intros H Hd. unfold get_u64. by rewrite (get_put_other _ _ _ _ _ _ H Hd). Qed.

(** ** Constants *)

Definition SIMPLEFS_MAGIC : Z := 0x10032013.
Definition SIMPLEFS_FILENAME_MAXLEN : Z := 255.
Definition SIMPLEFS_START_INO : Z := 10.
Definition SIMPLEFS_RESERVED_INODES : Z := 3.
Definition SIMPLEFS_ROOTDIR_INODE_NUMBER : Z := 1.
Definition SIMPLEFS_SUPERBLOCK_BLOCK_NUMBER : Z := 0.
Definition SIMPLEFS_INODESTORE_BLOCK_NUMBER : Z := 1.
Definition SIMPLEFS_ROOTDIR_DATABLOCK_NUMBER : Z := 2.
Definition SIMPLEFS_MAX_FILESYSTEM_OBJECTS_SUPPORTED : Z := 64.

(** File types of <linux/stat.h>. *)
Definition S_IFMT : Z := 0xF000.
Definition S_IFDIR : Z := 0x4000.
Definition S_IFREG : Z := 0x8000.
Definition S_ISDIR (m : Z) : bool := Z.land m S_IFMT =? S_IFDIR.
Definition S_ISREG (m : Z) : bool := Z.land m S_IFMT =? S_IFREG.

(** ** struct simplefs_inode *)

(** The union of [file_size] and [dir_children_count] is one field. *)
Record simplefs_inode := mk_inode {
  mode : Z;
  inode_no : Z;
  data_block_number : Z;
  union_size : Z;
}.

Abbreviation file_size := union_size.
Abbreviation dir_children_count := union_size.

Definition sizeof_inode : Z := 32.

Definition inode_bytes (i : simplefs_inode) : list Z :=
  le_bytes 4 (mode i) ++ [0; 0; 0; 0] ++ le_bytes 8 (inode_no i)
  ++ le_bytes 8 (data_block_number i) ++ le_bytes 8 (union_size i).

Definition get_inode_at (off : Z) (b : list Z) : option simplefs_inode :=
  m ← get_u32 off b; n ← get_u64 (off + 8) b;
  d ← get_u64 (off + 16) b; u ← get_u64 (off + 24) b;
  Some (mk_inode m n d u).

Definition inode_ok (i : simplefs_inode) : Prop :=
  0 ≤ mode i < 2 ^ 32 ∧ 0 ≤ inode_no i < 2 ^ 64 ∧
  0 ≤ data_block_number i < 2 ^ 64 ∧ 0 ≤ union_size i < 2 ^ 64.

Lemma length_inode_bytes i : length (inode_bytes i) = 32%nat.
Proof. unfold inode_bytes. by rewrite !length_app, !length_le_bytes. Qed.

Lemma get_bytes_length off n b l : get_bytes off n b = Some l → Z.of_nat (length l) = n.
Proof.
  unfold get_bytes. case_bool_decide; intros; simplify_eq.
  rewrite length_take, length_drop. lia.
Qed.

(** A slice of a slice. *)
Lemma get_bytes_sub off n b l k m :
  get_bytes off n b = Some l → 0 ≤ k → 0 ≤ m → k + m ≤ n →
  get_bytes (off + k) m b = get_bytes k m l.
Proof.
  intros H. pose proof (get_bytes_length _ _ _ _ H) as Hl. revert H.
  unfold get_bytes. case_bool_decide; [intros [= H0] ???|done].
  rewrite !bool_decide_true by lia. f_equal. apply list_eq. intros i.
  destruct (decide (i < Z.to_nat m)%nat).
  - rewrite !lookup_take_lt, !lookup_drop by lia.
    rewrite <- H0, lookup_take_lt, lookup_drop by lia. f_equal. lia.
  - rewrite !lookup_take_ge by lia. done.
Qed.

Lemma inode_bytes_fields i :
  inode_ok i → get_inode_at 0 (inode_bytes i) = Some i.
Proof.
  intros (Hm & Hn & Hd & Hu). unfold get_inode_at, get_u32, get_u64.
  rewrite !get_bytes_some by (rewrite ?length_inode_bytes; lia).
  unfold inode_bytes. simpl. cbn [le_value].
  destruct i as [m n d u]; simpl in *. f_equal.
  pose proof (le_value_bytes 4 m Hm) as E1. pose proof (le_value_bytes 8 n Hn) as E2.
  pose proof (le_value_bytes 8 d Hd) as E3. pose proof (le_value_bytes 8 u Hu) as E4.
  simpl in E1, E2, E3, E4. rewrite E1, E2, E3, E4. done.
Qed.

Lemma get_inode_put off i b b' :
  inode_ok i → put_bytes off (inode_bytes i) b = Some b' → get_inode_at off b' = Some i.
Proof.
  intros Hi H%get_put_same. rewrite length_inode_bytes in H.
  rewrite <- (inode_bytes_fields i Hi). unfold get_inode_at, get_u32, get_u64.
  rewrite <- (Z.add_0_r off) at 1. change 32%nat with (Z.to_nat 32) in H.
  by rewrite !(get_bytes_sub _ _ _ _ _ _ H) by lia.
Qed.

Lemma get_inode_other off off' bs b b' :
  put_bytes off bs b = Some b' →
  (off' + sizeof_inode ≤ off ∨ off + Z.of_nat (length bs) ≤ off') →
  get_inode_at off' b' = get_inode_at off' b.
Proof.
  unfold sizeof_inode. intros H Hd. unfold get_inode_at, get_u32, get_u64.
  by rewrite !(get_put_other _ _ _ _ _ _ H) by lia.
Qed.

(** ** struct simplefs_dir_record *)

(** [filename] at offset 0, one byte of padding, [inode_no] at 256. *)
Definition sizeof_dir_record : Z := 264.
Definition record_inode_no (off : Z) (b : list Z) : option Z := get_u64 (off + 256) b.

(** The C string at offset [off]: the bytes up to the first NUL; [None] when
    the block ends before one. *)
Fixpoint c_string (bs : list Z) : option (list Z) :=
  match bs with
  | [] => None
  | b :: bs => if b =? 0 then Some [] else cons b <$> c_string bs
  end.

Definition get_string (off : Z) (b : list Z) : option (list Z) :=
  if bool_decide (0 ≤ off ≤ Z.of_nat (length b))
  then c_string (drop (Z.to_nat off) b) else None.

(** [strcpy(b + off, name)]. *)
Definition put_string (off : Z) (name b : list Z) : option (list Z) :=
  put_bytes off (name ++ [0]) b.

Lemma c_string_app name l :
  (0 ∉ name) → c_string (name ++ 0 :: l) = Some name.
Proof.
  induction name as [|c name IH]; simpl; intros Hn; [done|].
  apply not_elem_of_cons in Hn as [Hc Hn]. rewrite IH by done.
  destruct (c =? 0) eqn:E; reflect_bools; [lia|done].
Qed.

Lemma get_put_string off name b b' :
  (0 ∉ name) → put_string off name b = Some b' → get_string off b' = Some name.
Proof.
  intros Hn H. unfold put_string in H. pose proof (put_bytes_length _ _ _ _ H) as Hl.
  revert H. unfold put_bytes, get_string. case_bool_decide; intros; simplify_eq.
  rewrite length_app in *. simpl in *. rewrite bool_decide_true by lia.
  unfold splice. rewrite drop_app_length' by (rewrite length_take; lia).
  rewrite <- app_assoc. by apply c_string_app.
Qed.

(** A string that ends within [n] bytes of [off] is read the same in every
    block that agrees on those bytes. *)
Lemma c_string_prefix l1 l2 n s :
  take n l1 = take n l2 → c_string l1 = Some s → (length s < n)%nat → c_string l2 = Some s.
Proof.
  revert l1 l2 s. induction n as [|n IH]; intros l1 l2 s Ht Hs Hn; [lia|].
  destruct l1 as [|b l1]; [done|]. destruct l2 as [|b2 l2]; [done|].
  simpl in *. injection Ht as -> Ht. destruct (b2 =? 0); [done|].
  destruct (c_string l1) as [s1|] eqn:E1; simplify_eq/=.
  by rewrite (IH l1 l2 s1) by (done || lia).
Qed.

Lemma get_string_other off off' bs b b' s :
  put_bytes off bs b = Some b' → get_string off' b = Some s →
  (off' + Z.of_nat (length s) + 1 ≤ off ∨ off + Z.of_nat (length bs) ≤ off') →
  get_string off' b' = Some s.
Proof.
  intros H Hs Hd. pose proof (put_bytes_length _ _ _ _ H) as Hl. revert H Hs.
  unfold put_bytes, get_string. rewrite Hl.
  case_bool_decide; intros ?; simplify_eq. case_bool_decide; [|done]. intros Hs.
  eapply (c_string_prefix _ _ (S (length s)) s); [|exact Hs|lia].
  apply list_eq. intros i. destruct (decide (i < S (length s))%nat).
  - rewrite !lookup_take_lt, !lookup_drop by lia. symmetry.
    destruct Hd; [apply lookup_splice_lt|apply lookup_splice_ge]; lia.
  - rewrite !lookup_take_ge by lia. done.
Qed.

(** ** struct simplefs_super_block *)

Definition SB_version : Z := 0.
Definition SB_magic : Z := 8.
Definition SB_block_size : Z := 16.
Definition SB_inodes_count : Z := 24.
Definition SB_free_blocks : Z := 32.

Definition super_bytes (version magic block_size inodes_count free_blocks : Z) : list Z :=
  le_bytes 8 version ++ le_bytes 8 magic ++ le_bytes 8 block_size
  ++ le_bytes 8 inodes_count ++ le_bytes 8 free_blocks
  ++ replicate (Z.to_nat (SIMPLEFS_DEFAULT_BLOCK_SIZE - 5 * 8)) 0.
