(* ===== verification/SimpleFs.v ===== *)
(** * simplefs: the kernel module

    Models [src/io/simplefs/simple.c] on the layout of [SimpleFsLayout]. The
    state is what the module's functions touch: the block buffers as the
    kernel sees them, the blocks on the device, the in-memory
    [struct simplefs_inode] objects, the module's three mutexes.

    The kernel services it calls are modelled by their contract, with every
    documented failure left open: each fallible call ([sb_bread],
    [mutex_lock_interruptible], [new_inode], [kmem_cache_alloc], the user
    copies, [d_make_root]) consumes one answer of the stream [faults] and
    fails when it is [true]. A computation ends in [Ret], or in [Oops] where
    the C code runs into a BUG_ON, a NULL dereference, an access outside a
    buffer, an undefined shift or an unlock of a mutex that is not held, or in
    [Stuck] where it waits for a mutex that nobody will release. *)

From S2P Require Import Prelude SimpleFsLayout.

(** ** State and effects *)

Inductive lock_id := SB_LOCK | INODES_MGMT_LOCK | CHILDREN_LOCK.

#[export] Instance lock_id_eq_dec : EqDecision lock_id.
Proof. solve_decision. Defined.

Record fs := mk_fs {
  cache : gmap Z (list Z);
  disk : gmap Z (list Z);
  dirty : gset Z;
  bh_refs : Z;
  heap : gmap nat simplefs_inode;
  held : list lock_id;
  faults : list bool;
}.

Definition with_cache (c : gmap Z (list Z)) (s : fs) : fs :=
  mk_fs c (disk s) (dirty s) (bh_refs s) (heap s) (held s) (faults s).
Definition with_disk (d : gmap Z (list Z)) (q : gset Z) (s : fs) : fs :=
  mk_fs (cache s) d q (bh_refs s) (heap s) (held s) (faults s).
Definition with_refs (n : Z) (s : fs) : fs :=
  mk_fs (cache s) (disk s) (dirty s) n (heap s) (held s) (faults s).
Definition with_heap (h : gmap nat simplefs_inode) (s : fs) : fs :=
  mk_fs (cache s) (disk s) (dirty s) (bh_refs s) h (held s) (faults s).
Definition with_held (l : list lock_id) (s : fs) : fs :=
  mk_fs (cache s) (disk s) (dirty s) (bh_refs s) (heap s) l (faults s).
Definition with_faults (f : list bool) (s : fs) : fs :=
  mk_fs (cache s) (disk s) (dirty s) (bh_refs s) (heap s) (held s) f.

Inductive outcome (A : Type) :=
  | Ret (a : A) (s : fs)
  | Oops
  | Stuck.
Arguments Ret {A} _ _.
Arguments Oops {A}.
Arguments Stuck {A}.

Definition M (A : Type) : Type := fs → outcome A.

Definition ret {A} (a : A) : M A := λ s, Ret a s.
Definition bind {A B} (m : M A) (k : A → M B) : M B := λ s,
  match m s with Ret a s => k a s | Oops => Oops | Stuck => Stuck end.

Declare Scope sfs_scope.
Delimit Scope sfs_scope with sfs.
Notation "'let!' x := m 'in' k" := (bind m (λ x, k))
  (at level 10, x name, m at level 100, k at level 200) : sfs_scope.
Notation "'do!' m ; k" := (bind m (λ _, k))
  (at level 10, m at level 100, k at level 200) : sfs_scope.
#[local] Open Scope sfs_scope.

Definition gets {A} (f : fs → A) : M A := λ s, Ret (f s) s.
Definition modify (f : fs → fs) : M unit := λ s, Ret tt (f s).
Definition oops {A} : M A := λ _, Oops.
Definition lift {A} (o : option A) : M A :=
  match o with Some a => ret a | None => oops end.

(** ** Kernel services *)

(** Whether the next fallible call fails. *)
Definition fault : M bool := λ s,
  match faults s with
  | [] => Ret false s
  | f :: fs => Ret f (with_faults fs s)
  end.

(** [sb_bread]: a reference to the buffer of block [n], NULL on failure. [cache] has the
    blocks of the device, whose size is that of the superblock of the VFS; the module
    leaves it as the kernel chose it, and nothing here depends on it. *)
Definition sb_bread (n : Z) : M (option Z) :=
  let! f := fault in
  let! c := gets cache in
  if f then ret None
  else match c !! n with
       | Some _ => do! modify (λ s, with_refs (bh_refs s + 1) s); ret (Some n)
       | None => ret None
       end.
Definition brelse (bh : Z) : M unit := modify (λ s, with_refs (bh_refs s - 1) s).

(** [bh->b_data], and a store into it. *)
Definition b_data (bh : Z) : M (list Z) := let! c := gets cache in lift (c !! bh).
Definition set_b_data (bh : Z) (b : list Z) : M unit :=
  modify (λ s, with_cache (<[bh := b]> (cache s)) s).

Definition mark_buffer_dirty (bh : Z) : M unit :=
  modify (λ s, with_disk (disk s) ({[bh]} ∪ dirty s) s).
Definition sync_dirty_buffer (bh : Z) : M unit :=
  let! b := b_data bh in
  modify (λ s, if decide (bh ∈ dirty s)
               then with_disk (<[bh := b]> (disk s)) (dirty s ∖ {[bh]}) s else s).

(** [mutex_lock_interruptible]: [true] when a signal interrupted the wait. *)
Definition mutex_lock_interruptible (l : lock_id) : M bool :=
  let! f := fault in
  if f then ret true
  else λ s, if decide (l ∈ held s) then Stuck
            else Ret false (with_held (l :: held s) s).
Definition mutex_unlock (l : lock_id) : M unit := λ s,
  if decide (l ∈ held s) then Ret tt (with_held (filter (.≠ l) (held s)) s) else Oops.

(** [kmem_cache_alloc]: a fresh object, whose content is not initialised. *)
Definition kmem_cache_alloc : M (option nat) :=
  let! f := fault in
  if f then ret None
  else
    let! h := gets heap in
    let p := fresh (dom h) in
    do! modify (λ s, with_heap (<[p := mk_inode 0 0 0 0]> h) s); ret (Some p).

Definition new_inode : M bool := let! f := fault in ret (negb f).

(** A dereference of a pointer to a [struct simplefs_inode]. *)
Definition load (p : option nat) : M simplefs_inode :=
  match p with
  | None => oops
  | Some p => let! h := gets heap in lift (h !! p)
  end.
Definition store (p : option nat) (i : simplefs_inode) : M unit :=
  match p with
  | None => oops
  | Some p => modify (λ s, with_heap (<[p := i]> (heap s)) s)
  end.

(** ** VFS objects *)

Inductive file_ops := simplefs_dir_operations | simplefs_file_operations | no_operations.

(** The part of [struct inode] the module reads and writes. *)
Record inode := mk_vinode {
  i_ino : Z;
  i_mode : Z;
  i_fop : file_ops;
  i_private : option nat;
}.

(** ** The superblock *)

Definition sb_field (off : Z) : M Z :=
  let! b := b_data SIMPLEFS_SUPERBLOCK_BLOCK_NUMBER in lift (get_u64 off b).
Definition set_sb_field (off z : Z) : M unit :=
  let! b := b_data SIMPLEFS_SUPERBLOCK_BLOCK_NUMBER in
  let! b := lift (put_u64 off z b) in
  set_b_data SIMPLEFS_SUPERBLOCK_BLOCK_NUMBER b.

(** [simplefs_sb_sync]. The superblock structure is the data of the buffer of
    block 0 itself, so redirecting [b_data] to it changes nothing. *)
Definition simplefs_sb_sync : M unit :=
  let! bh := sb_bread SIMPLEFS_SUPERBLOCK_BLOCK_NUMBER in
  let! bh := lift bh in
  do! mark_buffer_dirty bh;
  do! sync_dirty_buffer bh;
  brelse bh.

(** [simplefs_inode_search]: the offset in [b] of the inode numbered [search];
    the outer [None] is a read past the buffer. [fuel] bounds the loop, which
    runs at most [inodes_count] times. *)
Fixpoint inode_search_loop (fuel : nat) (b : list Z) (start search count n : Z)
    : option Z :=
  no ← get_u64 (start + 8) b;
  if negb (no =? search) && (count <? n) then
    match fuel with
    | O => None
    | S fuel => inode_search_loop fuel b (start + sizeof_inode) search (count + 1) n
    end
  else Some start.

Definition simplefs_inode_search (n : Z) (b : list Z) (search : Z) : option (option Z) :=
  start ← inode_search_loop (Z.to_nat n) b 0 search 0 n;
  no ← get_u64 (start + 8) b;
  Some (if no =? search then Some start else None).

(** [simplefs_inode_add] *)
Definition simplefs_inode_add (sfs_inode : option nat) : M unit :=
  let! i := mutex_lock_interruptible INODES_MGMT_LOCK in
  if i then ret tt else
  let! bh := sb_bread SIMPLEFS_INODESTORE_BLOCK_NUMBER in
  let! bh := lift bh in
  let! i := mutex_lock_interruptible SB_LOCK in
  if i then ret tt else
  let! n := sb_field SB_inodes_count in
  let! ino := load sfs_inode in
  let! b := b_data bh in
  let! b := lift (put_bytes (n * sizeof_inode) (inode_bytes ino) b) in
  do! set_b_data bh b;
  do! set_sb_field SB_inodes_count (u64 (n + 1));
  do! mark_buffer_dirty bh;
  do! simplefs_sb_sync;
  do! brelse bh;
  do! mutex_unlock SB_LOCK;
  mutex_unlock INODES_MGMT_LOCK.

(** [1 << i] on [int]: an [i] of the width or more is undefined; the compiler
    defines [1 << 31] as INT_MIN. *)
Definition int_shl1 (i : Z) : option Z :=
  if bool_decide (0 ≤ i < 32) then Some (s32 (2 ^ i)) else None.

(** The loop of [simplefs_sb_get_a_freeblock]: the first [i] whose bit is set
    in [free], or the bound. *)
Fixpoint freeblock_loop (fuel : nat) (i free : Z) : option Z :=
  match fuel with
  | O => Some i
  | S fuel =>
      m ← int_shl1 i;
      if Z.land free (u64 m) =? 0 then freeblock_loop fuel (i + 1) free else Some i
  end.

Definition simplefs_sb_get_a_freeblock : M (Z * Z) :=
  let! i := mutex_lock_interruptible SB_LOCK in
  if i then (do! mutex_unlock SB_LOCK; ret (- EINTR, 0)) else
  let! free := sb_field SB_free_blocks in
  let! i := lift (freeblock_loop (Z.to_nat (SIMPLEFS_MAX_FILESYSTEM_OBJECTS_SUPPORTED - 3)) 3 free) in
  if i =? SIMPLEFS_MAX_FILESYSTEM_OBJECTS_SUPPORTED
  then (do! mutex_unlock SB_LOCK; ret (- ENOSPC, 0)) else
  let! m := lift (int_shl1 i) in
  do! set_sb_field SB_free_blocks (Z.land free (u64 (Z.lnot m)));
  do! simplefs_sb_sync;
  do! mutex_unlock SB_LOCK;
  ret (0, i).

(** [simplefs_sb_get_objects_count] *)
Definition simplefs_sb_get_objects_count : M (Z * Z) :=
  let! i := mutex_lock_interruptible INODES_MGMT_LOCK in
  if i then ret (- EINTR, 0) else
  let! n := sb_field SB_inodes_count in
  do! mutex_unlock INODES_MGMT_LOCK;
  ret (0, n).

(** ** Directories *)

(** [simplefs_iterate] (the [readdir] of a kernel from 3.11 on): the return
    value, the new position and the entries given to [dir_emit], each the
    SIMPLEFS_FILENAME_MAXLEN bytes of the name field and the inode number. *)
Fixpoint iterate_loop (n : nat) (off pos : Z) (b : list Z)
    : option (Z * list (list Z * Z)) :=
  match n with
  | O => Some (pos, [])
  | S n =>
      name ← get_bytes off SIMPLEFS_FILENAME_MAXLEN b;
      ino ← record_inode_no off b;
      rest ← iterate_loop n (off + sizeof_dir_record) (pos + sizeof_dir_record) b;
      Some (rest.1, (name, ino) :: rest.2)
  end.

Definition simplefs_iterate (dir : inode) (pos : Z) : M (Z * Z * list (list Z * Z)) :=
  if negb (pos =? 0) then ret (0, pos, []) else
  let! sfs_inode := load (i_private dir) in
  if negb (S_ISDIR (mode sfs_inode)) then ret (- ENOTDIR, pos, []) else
  let! bh := sb_bread (data_block_number sfs_inode) in
  let! bh := lift bh in
  let! b := b_data bh in
  let! r := lift (iterate_loop (Z.to_nat (dir_children_count sfs_inode)) 0 pos b) in
  do! brelse bh;
  ret (0, r.1, r.2).

(** [simplefs_get_inode]: a new in-memory copy of inode [ino], NULL when the
    store has none. *)
Fixpoint get_inode_loop (n : nat) (off ino : Z) (b : list Z)
    : option (option simplefs_inode) :=
  match n with
  | O => Some None
  | S n =>
      i ← get_inode_at off b;
      if inode_no i =? ino then Some (Some i)
      else get_inode_loop n (off + sizeof_inode) ino b
  end.

Definition simplefs_get_inode (ino : Z) : M (option nat) :=
  let! bh := sb_bread SIMPLEFS_INODESTORE_BLOCK_NUMBER in
  let! bh := lift bh in
  let! n := sb_field SB_inodes_count in
  let! b := b_data bh in
  let! found := lift (get_inode_loop (Z.to_nat n) 0 ino b) in
  let! p := match found with
            | None => ret None
            | Some i => let! p := kmem_cache_alloc in do! store p i; ret p
            end in
  do! brelse bh;
  ret p.

(** ** Files *)

(** [simplefs_read]: the return value, the new position and the bytes copied
    to the user. *)
Definition simplefs_read (file : inode) (len ppos : Z) : M (Z * Z * list Z) :=
  let! ino := load (i_private file) in
  if ppos >=? file_size ino then ret (0, ppos, []) else
  let! bh := sb_bread (data_block_number ino) in
  match bh with
  | None => ret (0, ppos, [])
  | Some bh =>
      let! b := b_data bh in
      let nbytes := s32 (Z.min (file_size ino) len) in
      let! out := lift (get_bytes 0 nbytes b) in
      let! f := fault in
      if f then (do! brelse bh; ret (- EFAULT, ppos, []))
      else (do! brelse bh; ret (nbytes, ppos + nbytes, out))
  end.

(** [simplefs_inode_save] *)
Definition simplefs_inode_save (sfs_inode : option nat) : M Z :=
  let! bh := sb_bread SIMPLEFS_INODESTORE_BLOCK_NUMBER in
  let! bh := lift bh in
  let! i := mutex_lock_interruptible SB_LOCK in
  if i then ret (- EINTR) else
  let! ino := load sfs_inode in
  let! n := sb_field SB_inodes_count in
  let! b := b_data bh in
  let! it := lift (simplefs_inode_search n b (inode_no ino)) in
  match it with
  | None => do! mutex_unlock SB_LOCK; ret (- EIO)
  | Some off =>
      let! b := lift (put_bytes off (inode_bytes ino) b) in
      do! set_b_data bh b;
      do! mark_buffer_dirty bh;
      do! sync_dirty_buffer bh;
      do! brelse bh;
      do! mutex_unlock SB_LOCK;
      ret 0
  end.

Section write.
(** [generic_write_checks] of the VFS: from the position and the length to an
    error, or 0 with the position and the length to use. *)
Context (generic_write_checks : Z → Z → Z * Z * Z).

(** [simplefs_write]; [junk] is what a failing [copy_from_user] left in the
    buffer. *)
Definition simplefs_write (file : inode) (buf : list Z) (ppos : Z) (junk : list Z)
    : M (Z * Z) :=
  let '(retval, ppos, len) := generic_write_checks ppos (Z.of_nat (length buf)) in
  if negb (retval =? 0) then ret (retval, ppos) else
  let! ino := load (i_private file) in
  let! bh := sb_bread (data_block_number ino) in
  match bh with
  | None => ret (0, ppos)
  | Some bh =>
      let! b := b_data bh in
      let! f := fault in
      if f then
        let! b := lift (put_bytes ppos (take (Z.to_nat len) junk) b) in
        do! set_b_data bh b;
        do! brelse bh;
        ret (- EFAULT, ppos)
      else
      let! b := lift (put_bytes ppos (take (Z.to_nat len) buf) b) in
      do! set_b_data bh b;
      let ppos := ppos + len in
      do! mark_buffer_dirty bh;
      do! sync_dirty_buffer bh;
      do! brelse bh;
      let! i := mutex_lock_interruptible INODES_MGMT_LOCK in
      if i then ret (- EINTR, ppos) else
      let! ino := load (i_private file) in
      do! store (i_private file)
            (mk_inode (mode ino) (inode_no ino) (data_block_number ino) ppos);
      let! retval := simplefs_inode_save (i_private file) in
      do! mutex_unlock INODES_MGMT_LOCK;
      ret (if retval =? 0 then len else retval, ppos)
  end.
End write.

(** ** Creation and lookup *)

(** [simplefs_create_fs_object]: the return value and, on success, the inode
    the dentry is given. *)
Definition simplefs_create_fs_object (dir : inode) (name : list Z) (m : Z)
    : M (Z * option inode) :=
  let! i := mutex_lock_interruptible CHILDREN_LOCK in
  if i then ret (- EINTR, None) else
  let! rc := simplefs_sb_get_objects_count in
  if rc.1 <? 0 then (do! mutex_unlock CHILDREN_LOCK; ret (rc.1, None)) else
  let count := rc.2 in
  if count >=? SIMPLEFS_MAX_FILESYSTEM_OBJECTS_SUPPORTED
  then (do! mutex_unlock CHILDREN_LOCK; ret (- ENOSPC, None)) else
  if negb (S_ISDIR m) && negb (S_ISREG m)
  then (do! mutex_unlock CHILDREN_LOCK; ret (- EINVAL, None)) else
  let! ok := new_inode in
  if negb ok then (do! mutex_unlock CHILDREN_LOCK; ret (- ENOMEM, None)) else
  let ino := u64 (count + SIMPLEFS_START_INO - SIMPLEFS_RESERVED_INODES + 1) in
  let! p := kmem_cache_alloc in
  let! raw := load p in
  do! store p (mk_inode m ino (data_block_number raw) 0);
  let fop := if S_ISDIR m then simplefs_dir_operations else simplefs_file_operations in
  let! rb := simplefs_sb_get_a_freeblock in
  if rb.1 <? 0 then (do! mutex_unlock CHILDREN_LOCK; ret (rb.1, None)) else
  do! store p (mk_inode m ino rb.2 0);
  do! simplefs_inode_add p;
  let! parent := load (i_private dir) in
  let! bh := sb_bread (data_block_number parent) in
  let! bh := lift bh in
  let! b := b_data bh in
  let off := dir_children_count parent * sizeof_dir_record in
  let! b := lift (put_u64 (off + 256) ino b) in
  let! b := lift (put_string off name b) in
  do! set_b_data bh b;
  do! mark_buffer_dirty bh;
  do! sync_dirty_buffer bh;
  do! brelse bh;
  let! i := mutex_lock_interruptible INODES_MGMT_LOCK in
  if i then (do! mutex_unlock CHILDREN_LOCK; ret (- EINTR, None)) else
  do! store (i_private dir)
        (mk_inode (mode parent) (inode_no parent) (data_block_number parent)
           (u64 (dir_children_count parent + 1)));
  let! r := simplefs_inode_save (i_private dir) in
  do! mutex_unlock INODES_MGMT_LOCK;
  do! mutex_unlock CHILDREN_LOCK;
  if negb (r =? 0) then ret (r, None) else
  ret (0, Some (mk_vinode ino m fop p)).

Definition simplefs_mkdir (dir : inode) (name : list Z) (m : Z) : M (Z * option inode) :=
  simplefs_create_fs_object dir name (Z.lor S_IFDIR m).

Definition simplefs_create (dir : inode) (name : list Z) (m : Z) : M (Z * option inode) :=
  simplefs_create_fs_object dir name m.

(** The search of [simplefs_lookup] in a directory block: the inode number of
    the first record with that name. *)
Fixpoint lookup_loop (n : nat) (off : Z) (name b : list Z) : option (option Z) :=
  match n with
  | O => Some None
  | S n =>
      s ← get_string off b;
      if decide (s = name) then ino ← record_inode_no off b; Some (Some ino)
      else lookup_loop n (off + sizeof_dir_record) name b
  end.

(** [simplefs_lookup]: the inode the dentry is given. The C function returns
    NULL in both cases, and keeps the reference to the directory's buffer. *)
Definition simplefs_lookup (parent : inode) (name : list Z) : M (option inode) :=
  let! pi := load (i_private parent) in
  let! bh := sb_bread (data_block_number pi) in
  let! bh := lift bh in
  let! b := b_data bh in
  let! found := lift (lookup_loop (Z.to_nat (dir_children_count pi)) 0 name b) in
  match found with
  | None => ret None
  | Some ino =>
      let! p := simplefs_get_inode ino in
      let! ok := new_inode in
      if negb ok then oops else
      let! si := load p in
      let im := u16 (mode si) in
      let fop := if S_ISDIR im then simplefs_dir_operations
                 else if S_ISREG im then simplefs_file_operations
                 else no_operations in
      ret (Some (mk_vinode ino im fop p))
  end.

(** [simplefs_destory_inode]; [kmem_cache_free] of a NULL pointer does nothing. *)
Definition simplefs_destory_inode (ino : inode) : M unit :=
  match i_private ino with
  | None => ret tt
  | Some p => modify (λ s, with_heap (delete p (heap s)) s)
  end.

(** ** Mounting *)

(** [simplefs_fill_super]: the return value and the root inode. *)
Definition simplefs_fill_super : M (Z * option inode) :=
  let! bh := sb_bread SIMPLEFS_SUPERBLOCK_BLOCK_NUMBER in
  let! bh := lift bh in
  let! magic := sb_field SB_magic in
  let! block_size := sb_field SB_block_size in
  if negb (magic =? SIMPLEFS_MAGIC) then (do! brelse bh; ret (- EPERM, None)) else
  if negb (block_size =? SIMPLEFS_DEFAULT_BLOCK_SIZE)
  then (do! brelse bh; ret (- EPERM, None)) else
  let! ok := new_inode in
  if negb ok then oops else
  let! p := simplefs_get_inode SIMPLEFS_ROOTDIR_INODE_NUMBER in
  let! f := fault in
  if f then (do! brelse bh; ret (- ENOMEM, None)) else
  do! brelse bh;
  ret (0, Some (mk_vinode SIMPLEFS_ROOTDIR_INODE_NUMBER S_IFDIR simplefs_dir_operations p)).
