(* ===== verification/Mkfs.v ===== *)
(** * mkfs-simplefs

    Models [src/io/simplefs/mkfs-simplefs.c]: the sequence of writes and seeks
    that formats a device. The file descriptor is the device's bytes and a
    position; a [write] transfers what the stream [transfers] grants, so that
    short and failing writes are covered, and a [lseek] may fail. *)

From Stdlib Require Import String.
From S2P Require Import Prelude SimpleFsLayout.

#[local] Open Scope Z_scope.

Definition WELCOMEFILE_DATABLOCK_NUMBER : Z := 3.
Definition WELCOMEFILE_INODE_NUMBER : Z := 2.

(** ** The file descriptor *)

(** [transfers] holds the answers of the coming system calls: [None] for one
    that does all it was asked to, [Some n] for a write of [n] bytes only
    ([n < 0] for an error) or a seek that fails. *)
Record file := mk_file {
  content : list Z;
  offset : Z;
  transfers : list (option Z);
}.

Definition answer (f : file) : option Z * file :=
  match transfers f with
  | [] => (None, f)
  | t :: ts => (t, mk_file (content f) (offset f) ts)
  end.

(** [write(fd, bs, length bs)]: bytes past the end of the device are refused. *)
Definition write (f : file) (bs : list Z) : Z * file :=
  let '(t, f) := answer f in
  let room := Z.of_nat (length (content f)) - offset f in
  let n := Z.min (Z.max 0 room)
             (match t with None => Z.of_nat (length bs) | Some n => Z.min n (Z.of_nat (length bs)) end) in
  if n <? 0 then (-1, f)
  else
    (n, mk_file (splice (Z.to_nat (offset f)) (take (Z.to_nat n) bs) (content f))
          (offset f + n) (transfers f)).

(** [lseek(fd, n, SEEK_CUR)] *)
Definition lseek_cur (f : file) (n : Z) : Z * file :=
  let '(t, f) := answer f in
  match t with
  | Some _ => (-1, f)
  | None => (offset f + n, mk_file (content f) (offset f + n) (transfers f))
  end.

(** ** The steps of the formatter; each returns 0 or -1. *)

(** [(~0) & ~(1 << WELCOMEFILE_DATABLOCK_NUMBER)] as an [int], converted. *)
Definition initial_free_blocks : Z :=
  u64 (Z.land (Z.lnot 0) (Z.lnot (Z.shiftl 1 WELCOMEFILE_DATABLOCK_NUMBER))).

Definition write_superblock (f : file) : Z * file :=
  let sb := super_bytes 1 SIMPLEFS_MAGIC SIMPLEFS_DEFAULT_BLOCK_SIZE 2 initial_free_blocks in
  let '(r, f) := write f sb in
  if negb (r =? SIMPLEFS_DEFAULT_BLOCK_SIZE) then (-1, f) else (0, f).

Definition root_inode : simplefs_inode :=
  mk_inode S_IFDIR SIMPLEFS_ROOTDIR_INODE_NUMBER SIMPLEFS_ROOTDIR_DATABLOCK_NUMBER 1.

Definition write_inode_store (f : file) : Z * file :=
  let '(r, f) := write f (inode_bytes root_inode) in
  if negb (r =? sizeof_inode) then (-1, f) else (0, f).

Definition write_inode (f : file) (i : simplefs_inode) : Z * file :=
  let '(r, f) := write f (inode_bytes i) in
  if negb (r =? sizeof_inode) then (-1, f)
  else
    let nbytes := SIMPLEFS_DEFAULT_BLOCK_SIZE - sizeof_inode - sizeof_inode in
    let '(r, f) := lseek_cur f nbytes in
    if r =? -1 then (-1, f) else (0, f).

(** [struct simplefs_dir_record] with a name shorter than its field. *)
Definition record_bytes (name : list Z) (ino : Z) : list Z :=
  name ++ replicate (256 - length name) 0 ++ le_bytes 8 ino.

Definition write_dirent (f : file) (record : list Z) : Z * file :=
  let nbytes := sizeof_dir_record in
  let '(r, f) := write f record in
  if negb (r =? nbytes) then (-1, f)
  else
    let '(r, f) := lseek_cur f (SIMPLEFS_DEFAULT_BLOCK_SIZE - sizeof_dir_record) in
    if r =? -1 then (-1, f) else (0, f).

Definition write_block (f : file) (block : list Z) : Z * file :=
  let '(r, f) := write f block in
  if negb (r =? Z.of_nat (length block)) then (-1, f) else (0, f).

(** [char welcomefile_body[]], with its NUL. *)
Definition welcomefile_body : list Z :=
  bytes_of "Love is God. God is Love. Anbe Murugan." ++ [10; 0].

Definition welcome : simplefs_inode :=
  mk_inode S_IFREG WELCOMEFILE_INODE_NUMBER WELCOMEFILE_DATABLOCK_NUMBER
    (Z.of_nat (length welcomefile_body)).

Definition welcome_name : list Z := bytes_of "vanakkam".

(** [main], once the device is open: the exit status and the device. *)
Definition mkfs_main (f : file) : Z * file :=
  let '(r, f) := write_superblock f in
  if negb (r =? 0) then (1, f) else
  let '(r, f) := write_inode_store f in
  if negb (r =? 0) then (1, f) else
  let '(r, f) := write_inode f welcome in
  if negb (r =? 0) then (1, f) else
  let '(r, f) := write_dirent f (record_bytes welcome_name WELCOMEFILE_INODE_NUMBER) in
  if negb (r =? 0) then (1, f) else
  let '(r, f) := write_block f welcomefile_body in
  if negb (r =? 0) then (1, f) else (0, f).
