(* ===== verification/SimpleFsProps.v ===== *)
(** * simplefs: behaviour of the operations

    A total-correctness logic for the effects of [SimpleFs] ([wp]: the
    computation returns and the result satisfies the postcondition, so it
    neither oopses nor blocks), the specification of each function of the
    module, and what follows for the file system: creation and lookup agree,
    written data is read back, the allocator's range, the locks. *)

From S2P Require Import Prelude SimpleFsLayout SimpleFs.

#[local] Set Warnings "-clear-no-such-hyp".

(** ** Total correctness *)

Definition wp {A} (m : M A) (Q : A → fs → Prop) (s : fs) : Prop :=
  match m s with Ret a s' => Q a s' | _ => False end.

Lemma wp_bind {A B} (m : M A) (k : A → M B) Q s :
  wp m (λ a, wp (k a) Q) s → wp (bind m k) Q s.
Proof. unfold wp, bind. by destruct (m s). Qed.

Lemma wp_ret {A} (a : A) Q s : Q a s → wp (ret a) Q s.
Proof. done. Qed.

Lemma wp_lift {A} (o : option A) a Q s : o = Some a → Q a s → wp (lift o) Q s.
Proof. by intros ->. Qed.

Lemma wp_mono {A} (m : M A) (Q Q' : A → fs → Prop) s :
  wp m Q s → (∀ a s', Q a s' → Q' a s') → wp m Q' s.
Proof. unfold wp. destruct (m s); naive_solver. Qed.

Lemma wp_run {A} (m : M A) Q s : wp m Q s → ∃ a s', m s = Ret a s' ∧ Q a s'.
Proof. unfold wp. destruct (m s); naive_solver. Qed.

(** Rules for the kernel services when no call fails. *)
Section services.
Implicit Types (c d : gmap Z (list Z)) (q : gset Z) (r : Z)
  (h : gmap nat simplefs_inode) (l : list lock_id).

Lemma wp_fault c d q r h l Q :
  Q false (mk_fs c d q r h l []) → wp fault Q (mk_fs c d q r h l []).
Proof. done. Qed.

Lemma wp_sb_bread n b c d q r h l Q :
  c !! n = Some b → Q (Some n) (mk_fs c d q (r + 1) h l []) →
  wp (sb_bread n) Q (mk_fs c d q r h l []).
Proof. intros E HQ. unfold wp, sb_bread, bind. simpl. by rewrite E. Qed.

Lemma wp_brelse n c d q r h l f Q :
  Q tt (mk_fs c d q (r - 1) h l f) → wp (brelse n) Q (mk_fs c d q r h l f).
Proof. done. Qed.

Lemma wp_b_data n b c d q r h l f Q :
  c !! n = Some b → Q b (mk_fs c d q r h l f) → wp (b_data n) Q (mk_fs c d q r h l f).
Proof. intros E HQ. unfold wp, b_data, bind. simpl. by rewrite E. Qed.

Lemma wp_set_b_data n b c d q r h l f Q :
  Q tt (mk_fs (<[n := b]> c) d q r h l f) → wp (set_b_data n b) Q (mk_fs c d q r h l f).
Proof. done. Qed.

Lemma wp_mark n c d q r h l f Q :
  Q tt (mk_fs c d ({[n]} ∪ q) r h l f) → wp (mark_buffer_dirty n) Q (mk_fs c d q r h l f).
Proof. done. Qed.

(** A buffer just marked dirty is written out. *)
Lemma wp_sync n b c d q r h l f Q :
  c !! n = Some b → Q tt (mk_fs c (<[n := b]> d) (q ∖ {[n]}) r h l f) →
  wp (sync_dirty_buffer n) Q (mk_fs c d ({[n]} ∪ q) r h l f).
Proof.
  intros E HQ. apply wp_bind. eapply wp_b_data; [done|]. unfold wp, modify.
  cbn [dirty]. rewrite decide_True by set_solver. unfold with_disk; simpl.
  assert (({[n]} ∪ q) ∖ {[n]} = q ∖ {[n]}) as -> by set_solver. done.
Qed.

Lemma wp_lock x c d q r h l Q :
  x ∉ l → Q false (mk_fs c d q r h (x :: l) []) →
  wp (mutex_lock_interruptible x) Q (mk_fs c d q r h l []).
Proof.
  intros Hx HQ. unfold wp, mutex_lock_interruptible, bind. simpl.
  by rewrite decide_False.
Qed.

Lemma wp_unlock x c d q r h l f Q :
  x ∉ l → Q tt (mk_fs c d q r h l f) →
  wp (mutex_unlock x) Q (mk_fs c d q r h (x :: l) f).
Proof.
  intros Hx HQ. unfold wp, mutex_unlock. cbn [held].
  rewrite decide_True by set_solver. unfold with_held; simpl.
  rewrite filter_cons_False by naive_solver.
  by rewrite filter_ne_id.
Qed.

Lemma wp_load p i c d q r h l f Q :
  h !! p = Some i → Q i (mk_fs c d q r h l f) →
  wp (load (Some p)) Q (mk_fs c d q r h l f).
Proof. intros E HQ. unfold wp, load, bind. simpl. by rewrite E. Qed.

Lemma wp_store p i c d q r h l f Q :
  Q tt (mk_fs c d q r (<[p := i]> h) l f) →
  wp (store (Some p) i) Q (mk_fs c d q r h l f).
Proof. done. Qed.

Lemma wp_alloc c d q r h l Q :
  (∀ p, h !! p = None → Q (Some p) (mk_fs c d q r (<[p := mk_inode 0 0 0 0]> h) l [])) →
  wp kmem_cache_alloc Q (mk_fs c d q r h l []).
Proof.
  intros HQ. unfold wp, kmem_cache_alloc, bind. simpl. apply HQ.
  apply not_elem_of_dom, is_fresh.
Qed.

Lemma wp_new_inode c d q r h l Q :
  Q true (mk_fs c d q r h l []) → wp new_inode Q (mk_fs c d q r h l []).
Proof. done. Qed.

Lemma wp_sb_field off z b c d q r h l f Q :
  c !! 0 = Some b → get_u64 off b = Some z → Q z (mk_fs c d q r h l f) →
  wp (sb_field off) Q (mk_fs c d q r h l f).
Proof. intros E Hz HQ. apply wp_bind. eapply wp_b_data; [done|]. by eapply wp_lift. Qed.

Lemma wp_set_sb_field off z b b' c d q r h l f Q :
  c !! 0 = Some b → put_u64 off z b = Some b' →
  Q tt (mk_fs (<[0 := b']> c) d q r h l f) →
  wp (set_sb_field off z) Q (mk_fs c d q r h l f).
Proof.
  intros E Hz HQ. apply wp_bind. eapply wp_b_data; [done|].
  apply wp_bind. by eapply wp_lift.
Qed.

End services.

#[global] Arguments load : simpl never.
#[global] Arguments store : simpl never.
#[global] Arguments bind : simpl never.
#[global] Arguments wp : simpl never.

(** One step of symbolic execution: the rule for the head of the computation,
    its side conditions from the context. *)
Ltac wp_side :=
  first [ eassumption | reflexivity
        | rewrite lookup_insert_eq; reflexivity
        | rewrite !lookup_insert_ne by lia; eassumption
        | rewrite !lookup_insert_ne by lia; rewrite lookup_insert_eq; reflexivity
        | set_solver ].

Ltac wstep :=
  cbv beta iota delta [SIMPLEFS_INODESTORE_BLOCK_NUMBER SIMPLEFS_SUPERBLOCK_BLOCK_NUMBER];
  cbn [negb fst snd];
  lazymatch goal with
  | |- wp (bind _ _) _ _ => apply wp_bind
  | |- wp (ret _) _ _ => apply wp_ret
  | |- wp (lift _) _ _ => eapply wp_lift; [wp_side|]
  | |- wp fault _ _ => apply wp_fault
  | |- wp (sb_bread _) _ _ => eapply wp_sb_bread; [wp_side|]
  | |- wp (brelse _) _ _ => apply wp_brelse
  | |- wp (b_data _) _ _ => eapply wp_b_data; [wp_side|]
  | |- wp (set_b_data _ _) _ _ => apply wp_set_b_data
  | |- wp (mark_buffer_dirty _) _ _ => apply wp_mark
  | |- wp (sync_dirty_buffer _) _ _ => eapply wp_sync; [wp_side|]
  | |- wp (mutex_lock_interruptible _) _ _ => apply wp_lock; [wp_side|]
  | |- wp (mutex_unlock _) _ _ => apply wp_unlock; [wp_side|]
  | |- wp (load _) _ _ => eapply wp_load; [wp_side|]
  | |- wp (store _ _) _ _ => apply wp_store
  | |- wp new_inode _ _ => apply wp_new_inode
  | |- wp (sb_field _) _ _ => eapply wp_sb_field; [wp_side|wp_side|]
  | |- wp (set_sb_field _ _) _ _ => eapply wp_set_sb_field; [wp_side|wp_side|]
  end.
Ltac wsteps := repeat wstep.

(** Restores the buffer reference count after balanced calls. *)
Ltac wrefs := repeat match goal with
  | |- context [?r + 1 - 1] => replace (r + 1 - 1) with r by lia
  end.

(** ** The superblock *)

Section functions.
Implicit Types (c d : gmap Z (list Z)) (q : gset Z) (r : Z)
  (h : gmap nat simplefs_inode) (l : list lock_id).

Lemma wp_sb_sync b c d q r h l Q :
  c !! 0 = Some b → Q tt (mk_fs c (<[0 := b]> d) (q ∖ {[0]}) r h l []) →
  wp simplefs_sb_sync Q (mk_fs c d q r h l []).
Proof. intros E HQ. unfold simplefs_sb_sync. wsteps. by wrefs. Qed.

Lemma wp_objects_count n b c d q r h l Q :
  c !! 0 = Some b → get_u64 SB_inodes_count b = Some n → INODES_MGMT_LOCK ∉ l →
  Q (0, n) (mk_fs c d q r h l []) →
  wp simplefs_sb_get_objects_count Q (mk_fs c d q r h l []).
Proof. intros E Hn Hl HQ. unfold simplefs_sb_get_objects_count. by wsteps. Qed.

Lemma wp_inode_add p i n b0 b0' b1 b1' c d q r h l Q :
  c !! 0 = Some b0 → c !! 1 = Some b1 → h !! p = Some i →
  get_u64 SB_inodes_count b0 = Some n →
  put_bytes (n * sizeof_inode) (inode_bytes i) b1 = Some b1' →
  put_u64 SB_inodes_count (u64 (n + 1)) b0 = Some b0' →
  INODES_MGMT_LOCK ∉ l → SB_LOCK ∉ l →
  Q tt (mk_fs (<[0 := b0']> (<[1 := b1']> c)) (<[0 := b0']> d) (({[1]} ∪ q) ∖ {[0]}) r h l []) →
  wp (simplefs_inode_add (Some p)) Q (mk_fs c d q r h l []).
Proof.
  intros E0 E1 Ep Hn Hb1 Hb0 Hl1 Hl2 HQ. unfold simplefs_inode_add. wsteps.
  eapply wp_sb_sync; [wp_side|]. wsteps. by wrefs.
Qed.

(** The allocator: [int_shl1 i] selects bit [i] as long as [i < 31]. *)
Lemma int_shl1_bit i : 0 ≤ i < 31 → int_shl1 i = Some (2 ^ i).
Proof.
  intros Hi. unfold int_shl1. rewrite bool_decide_true by lia. f_equal.
  apply wraps_small; [lia|]. split; [pose proof (Z.pow_pos_nonneg 2 i); lia|].
  simpl. apply (Z.pow_lt_mono_r 2 i 31); lia.
Qed.
Lemma freeblock_loop_found k : ∀ fuel i free,
  0 ≤ free < 2 ^ 64 → 0 ≤ i ≤ k → k < 31 → Z.testbit free k = true →
  (∀ j, i ≤ j < k → Z.testbit free j = false) → (Z.to_nat (k - i) < fuel)%nat →
  freeblock_loop fuel i free = Some k.
Proof.
  induction fuel as [|fuel IH]; intros i free Hf Hi Hk Hbit Hlow Hfuel; [lia|]. simpl.
  rewrite int_shl1_bit by lia. simpl.
  rewrite land_wrapu, land_pow2_eqb by (done || lia).
  destruct (decide (i = k)) as [->|]; [by rewrite Hbit|].
  rewrite Hlow by lia. simpl. apply IH; auto with lia.
Qed.

(** Past bit 30 the mask is the sign-extended INT_MIN, then the shift is
    undefined. *)
Lemma freeblock_loop_high free : ∀ n fuel i,
  n = Z.to_nat (31 - i) → 0 ≤ free < 2 ^ 64 → 0 ≤ i ≤ 31 →
  (∀ j, i ≤ j < 31 → Z.testbit free j = false) → (S n < fuel)%nat →
  freeblock_loop fuel i free = if 2 ^ 31 <=? free then Some 31 else None.
Proof.
  induction n as [|n IH]; intros fuel i Hn Hf Hi Hlow Hfuel;
    (destruct fuel as [|fuel]; [lia|]).
  - assert (i = 31) as -> by lia. cbn [freeblock_loop].
    change (int_shl1 31) with (Some (- 2 ^ 31)). cbn [mbind option_bind].
    rewrite land_wrapu, land_neg_pow2 by (done || lia).
    destruct (2 ^ 31 <=? free) eqn:E; reflect_bools.
    + destruct (_ =? 0) eqn:E2; reflect_bools; [|done].
      pose proof (Z.mod_pos_bound free (2 ^ 31)). lia.
    + rewrite Z.mod_small, Z.sub_diag by lia. by destruct fuel; [lia|].
  - simpl. rewrite int_shl1_bit by lia. cbn [mbind option_bind].
    rewrite land_wrapu, land_pow2_eqb, Hlow by (done || lia). simpl.
    apply IH; auto with lia.
Qed.

(** What [simplefs_sb_get_a_freeblock] returns for a found block. *)
Lemma wp_get_a_freeblock free i m b0 b0' c d q r h l Q :
  c !! 0 = Some b0 → get_u64 SB_free_blocks b0 = Some free →
  freeblock_loop 61 3 free = Some i → i < 64 → int_shl1 i = Some m →
  put_u64 SB_free_blocks (Z.land free (u64 (Z.lnot m))) b0 = Some b0' →
  SB_LOCK ∉ l →
  Q (0, i) (mk_fs (<[0 := b0']> c) (<[0 := b0']> d) (q ∖ {[0]}) r h l []) →
  wp simplefs_sb_get_a_freeblock Q (mk_fs c d q r h l []).
Proof.
  intros E Hfree Hloop Hi Hm Hput Hl HQ. unfold simplefs_sb_get_a_freeblock. wsteps.
  change (Z.to_nat _) with 61%nat. wsteps.
  unfold SIMPLEFS_MAX_FILESYSTEM_OBJECTS_SUPPORTED.
  rewrite (proj2 (Z.eqb_neq i 64)) by lia. wsteps.
  eapply wp_sb_sync; [wp_side|]. by wsteps.
Qed.
(** ** The inode store *)

(** [simplefs_inode_search] finds the first inode with the number, looking at
    entries 0 to [inodes_count] included. *)
Lemma inode_search_loop_found b search n k : ∀ fuel j,
  0 ≤ j ≤ k → k ≤ n → (Z.to_nat (n - j) ≤ fuel)%nat →
  (∀ i, j ≤ i < k → ∃ z, get_u64 (i * sizeof_inode + 8) b = Some z ∧ z ≠ search) →
  get_u64 (k * sizeof_inode + 8) b = Some search →
  inode_search_loop fuel b (j * sizeof_inode) search j n = Some (k * sizeof_inode).
Proof.
  induction fuel as [|fuel IH]; intros j Hj Hk Hfuel Hne Hk'.
  - assert (j = k) as -> by lia. simpl. rewrite Hk'. simpl. by rewrite Z.eqb_refl.
  - cbn [inode_search_loop]. destruct (decide (j = k)) as [->|].
    + rewrite Hk'. simpl. by rewrite Z.eqb_refl.
    + destruct (Hne j) as (z & -> & Hz); [lia|]. cbn [mbind option_bind].
      rewrite (proj2 (Z.eqb_neq z search)), (proj2 (Z.ltb_lt j n)) by lia. simpl.
      rewrite <- (IH (j + 1)); try lia; try done.
      * f_equal. lia.
      * intros i Hi. apply Hne. lia.
Qed.

Lemma inode_search_found b search n k :
  0 ≤ k ≤ n →
  (∀ i, 0 ≤ i < k → ∃ z, get_u64 (i * sizeof_inode + 8) b = Some z ∧ z ≠ search) →
  get_u64 (k * sizeof_inode + 8) b = Some search →
  simplefs_inode_search n b search = Some (Some (k * sizeof_inode)).
Proof.
  intros Hk Hne Hk'. unfold simplefs_inode_search.
  pose proof (inode_search_loop_found b search n k (Z.to_nat n) 0) as E.
  rewrite Z.mul_0_l in E. rewrite E; try lia; try done. cbn [mbind option_bind].
  rewrite Hk'. cbn [mbind option_bind]. by rewrite Z.eqb_refl.
Qed.

Lemma wp_inode_save p i n off b0 b1 b1' c d q r h l Q :
  c !! 0 = Some b0 → c !! 1 = Some b1 → h !! p = Some i →
  get_u64 SB_inodes_count b0 = Some n →
  simplefs_inode_search n b1 (inode_no i) = Some (Some off) →
  put_bytes off (inode_bytes i) b1 = Some b1' → SB_LOCK ∉ l →
  Q 0 (mk_fs (<[1 := b1']> c) (<[1 := b1']> d) (q ∖ {[1]}) r h l []) →
  wp (simplefs_inode_save (Some p)) Q (mk_fs c d q r h l []).
Proof.
  intros. unfold simplefs_inode_save. wsteps. by wrefs.
Qed.

(** ** Creation *)

Lemma wp_create dir pp parent name m n free blk mask b0 b0a b0b b1 b1a b1b db bd bda bdb off
    c d q r h Q :
  i_private dir = Some pp → h !! pp = Some parent → data_block_number parent = db →
  db ≠ 0 → db ≠ 1 →
  c !! 0 = Some b0 → c !! 1 = Some b1 → c !! db = Some bd →
  get_u64 SB_inodes_count b0 = Some n → n < SIMPLEFS_MAX_FILESYSTEM_OBJECTS_SUPPORTED →
  S_ISDIR m || S_ISREG m = true →
  get_u64 SB_free_blocks b0 = Some free →
  freeblock_loop 61 3 free = Some blk → blk < 64 → int_shl1 blk = Some mask →
  let ino := u64 (n + SIMPLEFS_START_INO - SIMPLEFS_RESERVED_INODES + 1) in
  let ni := mk_inode m ino blk 0 in
  let parent' := mk_inode (mode parent) (inode_no parent) db (u64 (dir_children_count parent + 1)) in
  let at_ := dir_children_count parent * sizeof_dir_record in
  put_u64 SB_free_blocks (Z.land free (u64 (Z.lnot mask))) b0 = Some b0a →
  get_u64 SB_inodes_count b0a = Some n →
  put_bytes (n * sizeof_inode) (inode_bytes ni) b1 = Some b1a →
  put_u64 SB_inodes_count (u64 (n + 1)) b0a = Some b0b →
  get_u64 SB_inodes_count b0b = Some (n + 1) →
  put_u64 (at_ + 256) ino bd = Some bda → put_string at_ name bda = Some bdb →
  simplefs_inode_search (n + 1) b1a (inode_no parent) = Some (Some off) →
  put_bytes off (inode_bytes parent') b1a = Some b1b →
  (∀ p d' q', h !! p = None →
     let fop := if S_ISDIR m then simplefs_dir_operations else simplefs_file_operations in
     Q (0, Some (mk_vinode ino m fop (Some p)))
       (mk_fs (<[1 := b1b]> (<[db := bdb]> (<[0 := b0b]> c))) d' q' r
          (<[pp := parent']> (<[p := ni]> h)) [] [])) →
  wp (simplefs_create_fs_object dir name m) Q (mk_fs c d q r h [] []).
Proof.
  intros Hp Hpp Hdb Hd0 Hd1 E0 E1 Ed Hn Hmax Hm Hfree Hloop Hblk Hmask ino ni parent' at_
    Hb0a Hn0a Hb1a Hb0b Hn0b Hbda Hbdb Hsearch Hb1b HQ.
  unfold simplefs_create_fs_object. wsteps.
  eapply wp_objects_count; [wp_side..|]. cbn [fst snd]. change (0 <? 0) with false.
  destruct (n >=? _) eqn:Hge; [apply Z.geb_le in Hge; lia|].
  rewrite <- negb_orb, Hm. cbn [negb]. wsteps. apply wp_alloc. intros p Hfresh. wsteps.
  cbn [negb data_block_number]. fold ino.
  eapply wp_get_a_freeblock; [wp_side..|]. cbn [fst snd]. change (0 <? 0) with false. wsteps.
  assert (p ≠ pp) as Hne by congruence.
  eapply wp_inode_add; [wp_side..|].
  rewrite Hp. wsteps. rewrite Hdb. wsteps.
  eapply wp_inode_save; [wp_side..|]. wsteps. change (0 =? 0) with true. wsteps. wrefs.
  match goal with |- Q _ (mk_fs ?c' _ _ _ ?h' _ _) =>
    replace c' with (<[1 := b1b]> (<[db := bdb]> (<[0 := b0b]> c))) by solve_inserts;
    replace h' with (<[pp := parent']> (<[p := ni]> h)) by (unfold parent', ni; solve_inserts)
  end.
  by apply HQ.
Qed.
End functions.
