(* ===== verification/SimpleFsSpec.v ===== *)
(** * simplefs: the file system the module implements

    The abstract view of a mounted simplefs: the inode table, the free-block
    map and the entries of a directory ([store_rep], [dir_rep]), the
    specification of creation, lookup, read and write on it, and the
    properties that follow, from the formatted device on. *)

From S2P Require Import Prelude SimpleFsLayout SimpleFs SimpleFsProps.

#[local] Set Warnings "-clear-no-such-hyp".

(** ** Representation *)

(** The inodes [tbl] are the entries of the inode store [b]. *)
Definition inodes_at (b : list Z) (tbl : list simplefs_inode) : Prop :=
  ∀ k i, tbl !! k = Some i → get_inode_at (Z.of_nat k * sizeof_inode) b = Some i.

(** The entries [es], name and inode number, are the records of the directory
    block [b]. *)
Definition record_at (b : list Z) (k : nat) (e : list Z * Z) : Prop :=
  get_string (Z.of_nat k * sizeof_dir_record) b = Some e.1 ∧
  record_inode_no (Z.of_nat k * sizeof_dir_record) b = Some e.2 ∧
  (length e.1 ≤ 255)%nat.
Definition records_at (b : list Z) (es : list (list Z * Z)) : Prop :=
  ∀ k e, es !! k = Some e → record_at b k e.

Definition is_block (b : list Z) : Prop :=
  Z.of_nat (length b) = SIMPLEFS_DEFAULT_BLOCK_SIZE.

(** The superblock and the inode store of [s] hold the inodes [tbl] and the
    free map [free]. Inode numbers are those mkfs and the module hand out. *)
Record store_rep (s : fs) (tbl : list simplefs_inode) (free : Z) : Prop := {
  sr_super : ∃ b, cache s !! 0 = Some b ∧ is_block b ∧
    get_u64 SB_inodes_count b = Some (Z.of_nat (length tbl)) ∧
    get_u64 SB_free_blocks b = Some free;
  sr_store : ∃ b, cache s !! 1 = Some b ∧ is_block b ∧ inodes_at b tbl;
  sr_free : 0 ≤ free < 2 ^ 64;
  sr_len : Z.of_nat (length tbl) ≤ SIMPLEFS_MAX_FILESYSTEM_OBJECTS_SUPPORTED;
  sr_ok : Forall inode_ok tbl;
  sr_nodup : NoDup (inode_no <$> tbl);
  sr_fresh : Forall (λ i, inode_no i < Z.of_nat (length tbl) + 8) tbl;
}.

(** The directory [dir], in memory and in its data block, has the entries
    [es]; [di] is its inode. *)
Record dir_rep (s : fs) (dir : inode) (di : simplefs_inode) (es : list (list Z * Z)) : Prop := {
  dr_heap : ∃ p, i_private dir = Some p ∧ heap s !! p = Some di;
  dr_block : ∃ b, cache s !! data_block_number di = Some b ∧ is_block b ∧ records_at b es;
  dr_data : 2 ≤ data_block_number di;
  dr_count : dir_children_count di = Z.of_nat (length es);
}.

(** Between calls: no mutex held, and no call is made to fail. *)
Definition quiet (s : fs) : Prop := held s = [] ∧ faults s = [].

(** ** Blocks *)

Lemma get_inode_no off b i :
  get_inode_at off b = Some i → get_u64 (off + 8) b = Some (inode_no i).
Proof.
  unfold get_inode_at. intros H. simplify_option_eq. done.
Qed.

Lemma inodes_at_append b b' tbl i :
  inodes_at b tbl → inode_ok i →
  put_bytes (Z.of_nat (length tbl) * sizeof_inode) (inode_bytes i) b = Some b' →
  inodes_at b' (tbl ++ [i]).
Proof.
  intros Hat Hi Hput k j Hk. apply lookup_app_Some in Hk as [Hk|[Hge Hk]].
  - rewrite (get_inode_other _ _ _ _ _ Hput); [by apply Hat|].
    apply lookup_lt_Some in Hk. unfold sizeof_inode. lia.
  - apply list_lookup_singleton_Some in Hk as [Hk <-].
    replace k with (length tbl) by lia. by eapply get_inode_put.
Qed.

Lemma inodes_at_insert b b' tbl k i :
  inodes_at b tbl → inode_ok i → (k < length tbl)%nat →
  put_bytes (Z.of_nat k * sizeof_inode) (inode_bytes i) b = Some b' →
  inodes_at b' (<[k := i]> tbl).
Proof.
  intros Hat Hi Hlt Hput j x Hj. destruct (decide (k = j)) as [->|Hne].
  - rewrite list_lookup_insert_eq in Hj by done. simplify_eq. by eapply get_inode_put.
  - rewrite list_lookup_insert_ne in Hj by done.
    rewrite (get_inode_other _ _ _ _ _ Hput); [by apply Hat|].
    rewrite length_inode_bytes. unfold sizeof_inode. lia.
Qed.

Lemma records_at_append b b' b'' es name ino :
  records_at b es → (0 ∉ name) → (length name ≤ 255)%nat → 0 ≤ ino < 2 ^ 64 →
  let off := Z.of_nat (length es) * sizeof_dir_record in
  put_u64 (off + 256) ino b = Some b' → put_string off name b' = Some b'' →
  records_at b'' (es ++ [(name, ino)]).
Proof.
  intros Hat Hnul Hlen Hino off Hput Hstr k e Hk.
  assert (length (name ++ [0]) = S (length name)) as Hl by (rewrite length_app; simpl; lia).
  apply lookup_app_Some in Hk as [Hk|[Hge Hk]].
  - destruct (Hat k e Hk) as (Hs & Hn & Hle). apply lookup_lt_Some in Hk.
    subst off. unfold record_at, sizeof_dir_record, record_inode_no in *. split_and!; [| |done].
    + eapply get_string_other; [exact Hstr| |lia].
      eapply get_string_other; [exact Hput|done|lia].
    + rewrite (get_u64_other _ _ _ _ _ Hstr), (get_u64_other _ _ _ _ _ Hput); [done|lia..].
  - apply list_lookup_singleton_Some in Hk as [Hk <-]. cbn [fst snd].
    replace k with (length es) by lia. fold off. split_and!; [| |done].
    + by eapply get_put_string.
    + unfold record_inode_no. rewrite (get_u64_other _ _ _ _ _ Hstr) by lia.
      by eapply get_put_u64.
Qed.

(** Searching the directory block is searching the entries. *)
Fixpoint assoc (name : list Z) (es : list (list Z * Z)) : option Z :=
  match es with
  | [] => None
  | (n, ino) :: es => if decide (n = name) then Some ino else assoc name es
  end.

Lemma lookup_loop_assoc b name : ∀ es k,
  (∀ j e, es !! j = Some e → record_at b (k + j) e) →
  lookup_loop (length es) (Z.of_nat k * sizeof_dir_record) name b = Some (assoc name es).
Proof.
  induction es as [|[n ino] es IH]; intros k Hat; [done|]. simpl.
  destruct (Hat 0%nat (n, ino)) as (Hs & Hn & _); [done|].
  rewrite Nat.add_0_r in Hs, Hn. simpl in Hs, Hn. rewrite Hs. simpl.
  case_decide; [by rewrite Hn|].
  rewrite <- (IH (S k)); [f_equal; lia|].
  intros j e Hj. replace (S k + j)%nat with (k + S j)%nat by lia. by apply Hat.
Qed.

Lemma assoc_app name es es' :
  assoc name (es ++ es') =
  match assoc name es with Some i => Some i | None => assoc name es' end.
Proof. induction es as [|[n i] es IH]; simpl; [done|]. by case_decide. Qed.

Lemma assoc_none name es : name ∉ es.*1 → assoc name es = None.
Proof.
  induction es as [|[n i] es IH]; simpl; [done|]. intros [? ?]%not_elem_of_cons.
  rewrite decide_False by done. auto.
Qed.

(** Searching the inode store is searching the table. *)
Fixpoint find_inode (ino : Z) (tbl : list simplefs_inode) : option simplefs_inode :=
  match tbl with
  | [] => None
  | i :: tbl => if inode_no i =? ino then Some i else find_inode ino tbl
  end.

Lemma get_inode_loop_find b ino : ∀ tbl k,
  (∀ j i, tbl !! j = Some i → get_inode_at (Z.of_nat (k + j) * sizeof_inode) b = Some i) →
  get_inode_loop (length tbl) (Z.of_nat k * sizeof_inode) ino b = Some (find_inode ino tbl).
Proof.
  induction tbl as [|i tbl IH]; intros k Hat; [done|]. simpl.
  pose proof (Hat 0%nat i eq_refl) as E. rewrite Nat.add_0_r in E. rewrite E. simpl.
  case_match; [done|]. rewrite <- (IH (S k)); [f_equal; lia|].
  intros j x Hj. replace (S k + j)%nat with (k + S j)%nat by lia. by apply Hat.
Qed.

Lemma find_inode_app ino tbl tbl' :
  find_inode ino (tbl ++ tbl') =
  match find_inode ino tbl with Some i => Some i | None => find_inode ino tbl' end.
Proof. induction tbl as [|i tbl IH]; simpl; [done|]. by destruct (_ =? _). Qed.

Lemma find_inode_none ino tbl : ino ∉ inode_no <$> tbl → find_inode ino tbl = None.
Proof.
  induction tbl as [|i tbl IH]; simpl; [done|]. intros [? ?]%not_elem_of_cons.
  rewrite (proj2 (Z.eqb_neq _ _)) by done. auto.
Qed.

Lemma find_inode_lookup ino tbl k i :
  NoDup (inode_no <$> tbl) → tbl !! k = Some i → inode_no i = ino → find_inode ino tbl = Some i.
Proof.
  revert k. induction tbl as [|j tbl IH]; intros k Hnd Hk Hi; [done|]. simpl in *.
  apply NoDup_cons in Hnd as [Hj Hnd]. destruct k as [|k]; simplify_eq/=.
  - by rewrite Z.eqb_refl.
  - rewrite (proj2 (Z.eqb_neq _ _)); [by eapply IH|]. intros Heq. apply Hj.
    apply list_elem_of_fmap. exists i. split; [congruence|]. by eapply list_elem_of_lookup_2.
Qed.

(** The position of an inode in the table, as [simplefs_inode_search] finds it. *)
Lemma search_table b tbl k i n :
  inodes_at b tbl → NoDup (inode_no <$> tbl) → tbl !! k = Some i → Z.of_nat (length tbl) ≤ n →
  simplefs_inode_search n b (inode_no i) = Some (Some (Z.of_nat k * sizeof_inode)).
Proof.
  intros Hat Hnd Hk Hn. pose proof (lookup_lt_Some _ _ _ Hk).
  apply inode_search_found; [lia| |by apply get_inode_no, Hat].
  intros j Hj. destruct (lookup_lt_is_Some_2 tbl (Z.to_nat j)) as [x Hx]; [lia|].
  exists (inode_no x). split.
  - apply get_inode_no. pose proof (Hat _ _ Hx) as Ex. by rewrite Z2Nat.id in Ex by lia.
  - intros Heq. assert (Z.to_nat j = k); [|lia].
    eapply (NoDup_lookup _ _ _ (inode_no i) Hnd); rewrite list_lookup_fmap.
    + by rewrite Hx, <- Heq.
    + by rewrite Hk.
Qed.

(** ** Creation *)

(** The lowest block the allocator may hand out. *)
Definition lowest_free (free blk : Z) : Prop :=
  3 ≤ blk < 31 ∧ Z.testbit free blk = true ∧ ∀ j, 3 ≤ j < blk → Z.testbit free j = false.

Lemma lowest_free_loop free blk :
  0 ≤ free < 2 ^ 64 → lowest_free free blk → freeblock_loop 61 3 free = Some blk.
Proof. intros Hf (? & ? & ?). apply freeblock_loop_found; auto with lia. Qed.

Lemma clear_free free blk :
  0 ≤ free < 2 ^ 64 → lowest_free free blk →
  Z.land free (u64 (Z.lnot (2 ^ blk))) = Z.clearbit free blk ∧
  0 ≤ Z.clearbit free blk < 2 ^ 64.
Proof.
  intros Hf (? & ? & ?). rewrite land_wrapu, <- Z.ldiff_land by lia.
  rewrite Z.clearbit_spec'. split; [done|].
  assert (Z.land free (Z.lnot (2 ^ blk)) = wrapu 64 (Z.land free (Z.lnot (2 ^ blk)))) as E.
  { apply Z.bits_inj'. intros n Hn. rewrite wrapu_testbit by lia.
    destruct (n <? 64) eqn:En; reflect_bools; [done|].
    by rewrite Z.land_spec, (testbit_small 64 free) by lia. }
  rewrite Z.ldiff_land, E. apply wrapu_range. lia.
Qed.

(** The inode number of the next object, the inode created and the parent's
    inode afterwards. *)
Definition next_ino (tbl : list simplefs_inode) : Z := Z.of_nat (length tbl) + 8.
Definition new_object (tbl : list simplefs_inode) (m blk : Z) : simplefs_inode :=
  mk_inode m (next_ino tbl) blk 0.
Definition one_more_child (di : simplefs_inode) : simplefs_inode :=
  mk_inode (mode di) (inode_no di) (data_block_number di) (dir_children_count di + 1).

Lemma put_u64_some off z b :
  0 ≤ off → off + 8 ≤ Z.of_nat (length b) → ∃ b', put_u64 off z b = Some b'.
Proof.
  intros. eexists. unfold put_u64. apply put_bytes_some; rewrite ?length_le_bytes; lia.
Qed.

Lemma put_is_block off bs b b' : put_bytes off bs b = Some b' → is_block b → is_block b'.
Proof. unfold is_block. by intros ->%put_bytes_length. Qed.

(** The superblock fields do not overlap. *)
Lemma super_update b n free free' :
  is_block b → get_u64 SB_inodes_count b = Some n → get_u64 SB_free_blocks b = Some free →
  0 ≤ n < 64 → 0 ≤ free' < 2 ^ 64 →
  ∃ b1 b2, put_u64 SB_free_blocks free' b = Some b1 ∧ get_u64 SB_inodes_count b1 = Some n ∧
    put_u64 SB_inodes_count (u64 (n + 1)) b1 = Some b2 ∧
    get_u64 SB_inodes_count b2 = Some (n + 1) ∧ get_u64 SB_free_blocks b2 = Some free' ∧
    is_block b2.
Proof.
  unfold is_block, SIMPLEFS_DEFAULT_BLOCK_SIZE, SB_inodes_count, SB_free_blocks.
  intros Hb Hn Hf Hn64 Hf'. destruct (put_u64_some 32 free' b) as [b1 H1]; [lia..|].
  pose proof (put_bytes_length _ _ _ _ H1).
  destruct (put_u64_some 24 (u64 (n + 1)) b1) as [b2 H2]; [lia..|].
  pose proof (put_bytes_length _ _ _ _ H2). exists b1, b2. split_and!; try done.
  - by rewrite (get_u64_other _ _ _ _ _ H1) by lia.
  - rewrite wrapu_small in H2 by lia. eapply get_put_u64; [|exact H2]. lia.
  - rewrite (get_u64_other _ _ _ _ _ H2) by (rewrite length_le_bytes; lia).
    by apply (get_put_u64 _ _ _ _ Hf' H1).
  - lia.
Qed.

(** The inode store after an append and the parent's update. *)
Lemma store_update b tbl kd di m blk :
  is_block b → inodes_at b tbl → NoDup (inode_no <$> tbl) →
  Z.of_nat (length tbl) < 64 → tbl !! kd = Some di →
  inode_ok (new_object tbl m blk) → inode_ok (one_more_child di) →
  Forall (λ i, inode_no i < next_ino tbl) tbl →
  ∃ b1 b2, put_bytes (Z.of_nat (length tbl) * sizeof_inode)
             (inode_bytes (new_object tbl m blk)) b = Some b1 ∧
    simplefs_inode_search (Z.of_nat (length tbl) + 1) b1 (inode_no di)
      = Some (Some (Z.of_nat kd * sizeof_inode)) ∧
    put_bytes (Z.of_nat kd * sizeof_inode) (inode_bytes (one_more_child di)) b1 = Some b2 ∧
    inodes_at b2 (<[kd := one_more_child di]> tbl ++ [new_object tbl m blk]) ∧ is_block b2.
Proof.
  unfold is_block, SIMPLEFS_DEFAULT_BLOCK_SIZE. intros Hb Hat Hnd Hlen Hkd Hno Hdo Hfresh.
  pose proof (lookup_lt_Some _ _ _ Hkd).
  assert (∃ b1, put_bytes (Z.of_nat (length tbl) * sizeof_inode)
             (inode_bytes (new_object tbl m blk)) b = Some b1) as [b1 H1].
  { eexists. apply put_bytes_some; rewrite ?length_inode_bytes; unfold sizeof_inode; lia. }
  pose proof (put_bytes_length _ _ _ _ H1).
  assert (∃ b2, put_bytes (Z.of_nat kd * sizeof_inode)
             (inode_bytes (one_more_child di)) b1 = Some b2) as [b2 H2].
  { eexists. apply put_bytes_some; rewrite ?length_inode_bytes; unfold sizeof_inode; lia. }
  pose proof (put_bytes_length _ _ _ _ H2). exists b1, b2.
  pose proof (inodes_at_append _ _ _ _ Hat Hno H1) as Hat1. split_and!; try done; [| |lia].
  - eapply search_table; [exact Hat1| | |rewrite length_app; simpl; lia].
    + rewrite fmap_app. apply NoDup_app. split_and!; [done| |apply NoDup_singleton].
      intros x Hx ->%list_elem_of_singleton. apply list_elem_of_fmap in Hx as (i & Hi & Hi').
      rewrite Forall_forall in Hfresh. specialize (Hfresh i Hi'). simpl in Hi. lia.
    + by apply lookup_app_l_Some.
  - rewrite <- insert_app_l by done. eapply inodes_at_insert; try done.
    rewrite length_app. lia.
Qed.

(** The directory block after the new record. *)
Lemma dir_update b es name ino :
  is_block b → records_at b es → (0 ∉ name) → (length name ≤ 255)%nat → 0 ≤ ino < 2 ^ 64 →
  (length es < 15)%nat →
  ∃ b1 b2, put_u64 (Z.of_nat (length es) * sizeof_dir_record + 256) ino b = Some b1 ∧
    put_string (Z.of_nat (length es) * sizeof_dir_record) name b1 = Some b2 ∧
    records_at b2 (es ++ [(name, ino)]) ∧ is_block b2.
Proof.
  unfold is_block, SIMPLEFS_DEFAULT_BLOCK_SIZE. intros Hb Hat Hnul Hlen Hino Hes.
  destruct (put_u64_some (Z.of_nat (length es) * sizeof_dir_record + 256) ino b) as [b1 H1];
    [unfold sizeof_dir_record; lia..|].
  pose proof (put_bytes_length _ _ _ _ H1).
  assert (∃ b2, put_string (Z.of_nat (length es) * sizeof_dir_record) name b1 = Some b2)
    as [b2 H2].
  { eexists. apply put_bytes_some; rewrite ?length_app; simpl length;
      unfold sizeof_dir_record; lia. }
  pose proof (put_bytes_length _ _ _ _ H2). exists b1, b2. split_and!; try done; [|lia].
  by eapply records_at_append.
Qed.

Lemma store_rep_create s s' tbl free kd di m blk :
  store_rep s tbl free → lowest_free free blk → tbl !! kd = Some di →
  Z.of_nat (length tbl) < 64 →
  inode_ok (new_object tbl m blk) → inode_ok (one_more_child di) →
  (∃ b, cache s' !! 0 = Some b ∧ is_block b ∧
     get_u64 SB_inodes_count b = Some (Z.of_nat (length tbl) + 1) ∧
     get_u64 SB_free_blocks b = Some (Z.clearbit free blk)) →
  (∃ b, cache s' !! 1 = Some b ∧ is_block b ∧
     inodes_at b (<[kd := one_more_child di]> tbl ++ [new_object tbl m blk])) →
  store_rep s' (<[kd := one_more_child di]> tbl ++ [new_object tbl m blk]) (Z.clearbit free blk).
Proof.
  intros R Hfree Hkd Hlen Hno Hdo Hb0 Hb1. pose proof (lookup_lt_Some _ _ _ Hkd).
  assert (length (<[kd := one_more_child di]> tbl ++ [new_object tbl m blk])
          = S (length tbl)) as El by (rewrite length_app, length_insert; simpl; lia).
  assert (inode_no <$> <[kd := one_more_child di]> tbl = inode_no <$> tbl) as En.
  { rewrite list_fmap_insert. apply list_insert_id. by rewrite list_lookup_fmap, Hkd. }
  pose proof (sr_fresh _ _ _ R) as Hf. split.
  - rewrite El. by replace (Z.of_nat (S (length tbl))) with (Z.of_nat (length tbl) + 1) by lia.
  - done.
  - apply clear_free; [apply R|done].
  - rewrite El. unfold SIMPLEFS_MAX_FILESYSTEM_OBJECTS_SUPPORTED. lia.
  - apply Forall_app. split; [|by apply Forall_singleton].
    apply Forall_insert; [apply R|done].
  - rewrite fmap_app, En. apply NoDup_app. split_and!; [apply R| |apply NoDup_singleton].
    intros x Hx ->%list_elem_of_singleton. apply list_elem_of_fmap in Hx as (i & Hi & Hi').
    rewrite Forall_forall in Hf. specialize (Hf i Hi'). unfold new_object, next_ino in Hi.
    simpl in Hi. lia.
  - rewrite El. apply Forall_app. split.
    + apply Forall_insert; [eapply Forall_impl; [exact Hf|]; simpl; lia|].
      pose proof (Forall_lookup_1 _ _ _ _ Hf Hkd). simpl in *. lia.
    + apply Forall_singleton. simpl. unfold next_ino. lia.
Qed.

(** The call that creates [name] in [dir] adds one inode to the table and one
    entry to the directory, takes the lowest free block, and leaves locks and
    buffer references as they were. *)
Lemma create_spec s tbl free dir kd di es blk name m :
  store_rep s tbl free → dir_rep s dir di es → quiet s →
  tbl !! kd = Some di → Z.of_nat (length tbl) < SIMPLEFS_MAX_FILESYSTEM_OBJECTS_SUPPORTED →
  (length es < 15)%nat → lowest_free free blk →
  (0 ∉ name) → (length name ≤ 255)%nat → 0 ≤ m < 2 ^ 16 → S_ISDIR m || S_ISREG m = true →
  wp (simplefs_create_fs_object dir name m) (λ r s', ∃ p,
      let fop := if S_ISDIR m then simplefs_dir_operations else simplefs_file_operations in
      r = (0, Some (mk_vinode (next_ino tbl) m fop (Some p))) ∧
      heap s !! p = None ∧ heap s' !! p = Some (new_object tbl m blk) ∧
      store_rep s' (<[kd := one_more_child di]> tbl ++ [new_object tbl m blk])
        (Z.clearbit free blk) ∧
      dir_rep s' dir (one_more_child di) (es ++ [(name, next_ino tbl)]) ∧
      quiet s' ∧ bh_refs s' = bh_refs s) s.
Proof.
  intros R D [Hheld Hfaults] Hkd Hlen Hes Hlow Hnul Hname Hm Hty.
  unfold SIMPLEFS_MAX_FILESYSTEM_OBJECTS_SUPPORTED in Hlen.
  destruct (sr_super _ _ _ R) as (b0 & E0 & Hb0 & Hn & Hf).
  destruct (sr_store _ _ _ R) as (b1 & E1 & Hb1 & Hat).
  destruct (dr_heap _ _ _ _ D) as (pp & Hpp & Hdi).
  destruct (dr_block _ _ _ _ D) as (bd & Ed & Hbd & Hrec).
  pose proof (dr_data _ _ _ _ D) as Hdb. pose proof (dr_count _ _ _ _ D) as Hcnt.
  pose proof (sr_free _ _ _ R) as Hf64.
  destruct (clear_free free blk Hf64 Hlow) as [Eclr Hclr].
  assert (3 ≤ blk < 31) by apply Hlow.
  pose proof (Forall_lookup_1 _ _ _ _ (sr_ok _ _ _ R) Hkd) as (Hd1 & Hd2 & Hd3 & Hd4).
  assert (inode_ok (new_object tbl m blk)) as Hno.
  { unfold inode_ok, new_object, next_ino; simpl. lia. }
  assert (inode_ok (one_more_child di)) as Hdo.
  { unfold inode_ok, one_more_child; simpl. lia. }
  destruct (super_update b0 _ free (Z.clearbit free blk) Hb0 Hn Hf) as
    (b0a & b0b & S1 & S2 & S3 & S4 & S5 & S6); [lia|done|].
  destruct (store_update b1 tbl kd di m blk) as (b1a & b1b & T1 & T2 & T3 & T4 & T5);
    try done; [apply R|apply R|].
  destruct (dir_update bd es name (next_ino tbl)) as (bda & bdb & U1 & U2 & U3 & U4);
    try done; [unfold next_ino; lia|].
  destruct s as [c d q r h l f]; simpl in *. subst l f.
  assert (u64 (Z.of_nat (length tbl) + SIMPLEFS_START_INO - SIMPLEFS_RESERVED_INODES + 1)
          = next_ino tbl) as Eino.
  { unfold next_ino, SIMPLEFS_START_INO, SIMPLEFS_RESERVED_INODES.
    rewrite wrapu_small by lia. lia. }
  eapply (wp_create dir pp di name m (Z.of_nat (length tbl)) free blk (2 ^ blk)
    b0 b0a b0b b1 b1a b1b (data_block_number di) bd bda bdb); try done;
    rewrite ?Eino, ?Hcnt, ?Eclr; try (done || lia).
  - by apply lowest_free_loop.
  - apply int_shl1_bit; lia.
  - rewrite wrapu_small by lia. rewrite <- Hcnt. exact T3.
  - intros p d' q' Hp fop. exists p. rewrite wrapu_small by lia. rewrite <- Hcnt.
    assert (p ≠ pp) by congruence.
    split_and!; try done; simpl.
    + by rewrite lookup_insert_ne, lookup_insert_eq.
    + eapply store_rep_create; try done; simpl.
      * exists b0b. by rewrite !lookup_insert_ne, lookup_insert_eq by lia.
      * exists b1b. by rewrite lookup_insert_eq.
    + split; simpl.
      * exists pp. by rewrite lookup_insert_eq.
      * exists bdb. by rewrite lookup_insert_ne, lookup_insert_eq by lia.
      * done.
      * rewrite length_app. simpl. lia.
Qed.

(** ** Lookup *)

(** Every entry of the directory names an inode of the table. *)
Definition entries_ok (tbl : list simplefs_inode) (es : list (list Z * Z)) : Prop :=
  Forall (λ e, e.2 ∈ inode_no <$> tbl) es.

Lemma find_inode_is_Some ino tbl :
  ino ∈ inode_no <$> tbl → ∃ i, find_inode ino tbl = Some i ∧ inode_no i = ino.
Proof.
  induction tbl as [|j tbl IH]; simpl; [by intros ?%elem_of_nil|].
  destruct (inode_no j =? ino) eqn:E; reflect_bools; [by eauto|].
  intros [->|H]%elem_of_cons; [done|]. by apply IH.
Qed.

Lemma assoc_elem name es ino : assoc name es = Some ino → (name, ino) ∈ es.
Proof.
  induction es as [|[n i] es IH]; simpl; [done|]. case_decide; intros; simplify_eq; [left|].
  right. by apply IH.
Qed.

(** [s'] has the buffers, the locks and at least the in-memory inodes of [s]. *)
Definition extends (s s' : fs) : Prop :=
  cache s' = cache s ∧ disk s' = disk s ∧ held s' = held s ∧ faults s' = faults s ∧
  ∀ p i, heap s !! p = Some i → heap s' !! p = Some i.

Definition fop_of (m : Z) : file_ops :=
  if S_ISDIR m then simplefs_dir_operations
  else if S_ISREG m then simplefs_file_operations else no_operations.

Lemma store_rep_extends s s' tbl free :
  store_rep s tbl free → extends s s' → store_rep s' tbl free.
Proof. intros [] (Ec & _). split; try done; by rewrite Ec. Qed.

Lemma dir_rep_extends s s' dir di es :
  dir_rep s dir di es → extends s s' → dir_rep s' dir di es.
Proof.
  intros [(p & ? & ?)] (Ec & _ & _ & _ & Hh). split; try done; [|by rewrite Ec].
  exists p. auto.
Qed.

Lemma quiet_extends s s' : quiet s → extends s s' → quiet s'.
Proof. unfold quiet. intros [? ?] (_ & _ & -> & -> & _). done. Qed.

Lemma get_inode_spec s tbl free ino i Q :
  store_rep s tbl free → quiet s → find_inode ino tbl = Some i →
  (∀ p s', heap s !! p = None → heap s' !! p = Some i → extends s s' →
     bh_refs s' = bh_refs s → Q (Some p) s') →
  wp (simplefs_get_inode ino) Q s.
Proof.
  intros R [Hheld Hfaults] Hfind HQ.
  destruct (sr_super _ _ _ R) as (b0 & E0 & Hb0 & Hn & Hf).
  destruct (sr_store _ _ _ R) as (b1 & E1 & Hb1 & Hat).
  destruct s as [c d q r h l f]; simpl in *. subst l f.
  unfold simplefs_get_inode. wsteps. rewrite Nat2Z.id.
  eapply wp_lift; [apply (get_inode_loop_find b1 ino tbl 0); exact Hat|].
  rewrite Hfind. wsteps. apply wp_alloc. intros p Hp. wsteps. wrefs.
  rewrite insert_insert_eq. apply HQ; simpl; [done|by rewrite lookup_insert_eq| |done].
  split_and!; try done. intros p' i' Hp'. simpl in *. rewrite lookup_insert_ne; congruence.
Qed.

(** The lookup of a name gives the inode its entry names. It keeps a reference
    to the directory's buffer. *)
Lemma lookup_spec s tbl free dir di es name :
  store_rep s tbl free → dir_rep s dir di es → quiet s → entries_ok tbl es →
  wp (simplefs_lookup dir name) (λ r s', extends s s' ∧ bh_refs s' = bh_refs s + 1 ∧
      match assoc name es with
      | None => r = None
      | Some ino => ∃ i p, find_inode ino tbl = Some i ∧ heap s' !! p = Some i ∧
          r = Some (mk_vinode ino (u16 (mode i)) (fop_of (u16 (mode i))) (Some p))
      end) s.
Proof.
  intros R D Hq Hes. destruct (dr_heap _ _ _ _ D) as (pp & Hpp & Hdi).
  destruct (dr_block _ _ _ _ D) as (bd & Ed & Hbd & Hrec).
  pose proof (dr_count _ _ _ _ D) as Hcnt. pose proof Hq as [Hheld Hfaults].
  destruct s as [c d q r h l f]; simpl in *. subst l f.
  unfold simplefs_lookup. rewrite Hpp.
  wsteps. rewrite Hcnt, Nat2Z.id.
  eapply wp_lift; [apply (lookup_loop_assoc bd name es 0); exact Hrec|].
  destruct (assoc name es) as [ino|] eqn:Ea; [|by wsteps].
  assert (ino ∈ inode_no <$> tbl) as [i [Hi Hino]]%find_inode_is_Some.
  { eapply (Forall_forall _ es) in Hes; [|by apply assoc_elem]. done. }
  apply wp_bind. eapply (get_inode_spec _ tbl free); [| |exact Hi|].
  { destruct R. by split. }
  { done. }
  intros p [c' d' q' r' h' l' f'] Hp Hp' (? & ? & ? & ? & Hext) Hr. simpl in *. subst.
  wsteps. split_and!; try done. exists i, p. split_and!; done.
Qed.

(** ** Files *)

(** The open file [file] has the inode [i], the [k]-th of the table, and the
    data block [b]. *)
Record file_rep (s : fs) (tbl : list simplefs_inode) (file : inode) (k : nat)
    (i : simplefs_inode) (b : list Z) : Prop := {
  fr_heap : ∃ p, i_private file = Some p ∧ heap s !! p = Some i;
  fr_block : cache s !! data_block_number i = Some b ∧ is_block b;
  fr_data : 2 ≤ data_block_number i;
  fr_table : tbl !! k = Some i;
}.

Lemma take_splice_0 (bs b : list Z) n :
  n = length bs → take n (splice 0 bs b) = bs.
Proof. intros ->. unfold splice. simpl. by apply take_app_length'. Qed.

(** A read returns the first bytes of the file, up to its size and the length
    asked for; the position only decides whether the file has ended. *)
Lemma read_spec s tbl file k i b len pos :
  file_rep s tbl file k i b → quiet s →
  0 ≤ file_size i ≤ SIMPLEFS_DEFAULT_BLOCK_SIZE → 0 ≤ len →
  wp (simplefs_read file len pos) (λ r s', s' = s ∧
      let n := Z.min (file_size i) len in
      r = if pos >=? file_size i then (0, pos, []) else (n, pos + n, take (Z.to_nat n) b)) s.
Proof.
  intros F [Hheld Hfaults] Hsize Hlen. destruct (fr_heap _ _ _ _ _ _ F) as (p & Hp & Hi).
  destruct (fr_block _ _ _ _ _ _ F) as [Eb Hb].
  unfold is_block, SIMPLEFS_DEFAULT_BLOCK_SIZE in *.
  destruct s as [c d q r h l f]; simpl in *. subst l f. unfold simplefs_read. rewrite Hp.
  wsteps. destruct (pos >=? file_size i) eqn:E; [by wsteps|]. wsteps.
  rewrite (wraps_small 32) by lia.
  eapply wp_lift; [apply get_bytes_some; lia|]. wsteps. wrefs. rewrite drop_0. done.
Qed.

(** What the module relies on [generic_write_checks] for: an accepted write
    stays within the largest file, one block ([s_maxbytes]). *)
Definition write_checks_law (gwc : Z → Z → Z * Z * Z) : Prop :=
  ∀ pos len pos' len', 0 ≤ pos → 0 ≤ len → gwc pos len = (0, pos', len') →
    0 ≤ pos' ∧ 0 ≤ len' ≤ len ∧ pos' + len' ≤ SIMPLEFS_DEFAULT_BLOCK_SIZE.

Definition resized (i : simplefs_inode) (n : Z) : simplefs_inode :=
  mk_inode (mode i) (inode_no i) (data_block_number i) n.

Lemma store_rep_update s s' tbl free k i i' :
  store_rep s tbl free → tbl !! k = Some i → inode_no i' = inode_no i → inode_ok i' →
  cache s' !! 0 = cache s !! 0 →
  (∃ b, cache s' !! 1 = Some b ∧ is_block b ∧ inodes_at b (<[k := i']> tbl)) →
  store_rep s' (<[k := i']> tbl) free.
Proof.
  intros R Hk Hno Hok E0 E1.
  assert (inode_no <$> <[k := i']> tbl = inode_no <$> tbl) as En.
  { rewrite list_fmap_insert. apply list_insert_id. by rewrite list_lookup_fmap, Hk, Hno. }
  pose proof (sr_fresh _ _ _ R) as Hf.
  split; try done; rewrite ?length_insert, ?E0, ?En; try apply R.
  - apply Forall_insert; [apply R|done].
  - apply Forall_insert; [exact Hf|]. rewrite Hno. apply (Forall_lookup_1 _ _ _ _ Hf Hk).
Qed.

(** A write that the checks accept puts the bytes at its position in the
    file's block, on the device too, and makes its end the end of the file. *)
Lemma write_spec gwc s tbl free file k i b buf pos junk pos' len' :
  write_checks_law gwc → store_rep s tbl free → file_rep s tbl file k i b → quiet s →
  0 ≤ pos → gwc pos (Z.of_nat (length buf)) = (0, pos', len') →
  let b' := splice (Z.to_nat pos') (take (Z.to_nat len') buf) b in
  wp (simplefs_write gwc file buf pos junk) (λ r s',
      r = (len', pos' + len') ∧
      store_rep s' (<[k := resized i (pos' + len')]> tbl) free ∧
      file_rep s' (<[k := resized i (pos' + len')]> tbl) file k (resized i (pos' + len')) b' ∧
      disk s' !! data_block_number i = Some b' ∧ disk s' !! 1 = cache s' !! 1 ∧
      quiet s' ∧ bh_refs s' = bh_refs s) s.
Proof.
  intros Hlaw R F Hq Hpos Hg b'. destruct (fr_heap _ _ _ _ _ _ F) as (p & Hp & Hi).
  destruct (fr_block _ _ _ _ _ _ F) as [Eb Hb]. pose proof (fr_data _ _ _ _ _ _ F) as Hd.
  pose proof (fr_table _ _ _ _ _ _ F) as Hk. pose proof (lookup_lt_Some _ _ _ Hk).
  destruct (sr_super _ _ _ R) as (b0 & E0 & Hb0 & Hn & Hf).
  destruct (sr_store _ _ _ R) as (b1 & E1 & Hb1 & Hat).
  destruct (Hlaw _ _ _ _ Hpos (Zle_0_nat _) Hg) as (Hp' & Hl' & Hmax).
  pose proof (sr_len _ _ _ R) as Hlen.
  pose proof (Forall_lookup_1 _ _ _ _ (sr_ok _ _ _ R) Hk) as (Ho1 & Ho2 & Ho3 & Ho4).
  unfold SIMPLEFS_MAX_FILESYSTEM_OBJECTS_SUPPORTED, is_block, SIMPLEFS_DEFAULT_BLOCK_SIZE in *.
  assert (inode_ok (resized i (pos' + len'))) as Hok by (unfold inode_ok, resized; simpl; lia).
  assert (length (take (Z.to_nat len') buf) = Z.to_nat len') as Htake
    by (rewrite length_take; lia).
  assert (put_bytes pos' (take (Z.to_nat len') buf) b = Some b') as Hput.
  { apply put_bytes_some; rewrite ?Htake; lia. }
  pose proof (put_bytes_length _ _ _ _ Hput) as Hl.
  assert (∃ b1', put_bytes (Z.of_nat k * sizeof_inode)
             (inode_bytes (resized i (pos' + len'))) b1 = Some b1') as [b1' H1].
  { eexists. apply put_bytes_some; rewrite ?length_inode_bytes; unfold sizeof_inode; lia. }
  pose proof (put_bytes_length _ _ _ _ H1) as Hl1.
  destruct Hq as [Hheld Hfaults].
  assert (simplefs_inode_search (Z.of_nat (length tbl)) b1 (inode_no i)
          = Some (Some (Z.of_nat k * sizeof_inode))) as Hs.
  { eapply search_table; try done. apply R. }
  destruct s as [c d q r h l f]; simpl in *. subst l f.
  unfold simplefs_write. rewrite Hg, Hp. change (0 =? 0) with true. wsteps.
  eapply wp_inode_save; [wp_side..|]. wsteps. wrefs.
  split_and!; try done; simpl.
  - eapply store_rep_update; try done; simpl.
    + by rewrite !lookup_insert_ne by lia.
    + exists b1'. rewrite lookup_insert_eq. split_and!; [done|unfold is_block, SIMPLEFS_DEFAULT_BLOCK_SIZE; lia|].
      by eapply inodes_at_insert.
  - split; simpl; try done.
    + exists p. by rewrite lookup_insert_eq.
    + rewrite lookup_insert_ne, lookup_insert_eq by lia. split; [done|].
      unfold is_block, SIMPLEFS_DEFAULT_BLOCK_SIZE. lia.
    + by apply list_lookup_insert_eq.
  - by rewrite lookup_insert_ne, lookup_insert_eq by lia.
  - by rewrite !lookup_insert_eq.
Qed.
