(* ===== verification/SimpleFsSystem.v ===== *)
(** * simplefs: from the formatted device on

    Puts the formatter and the module together: what [mkfs_main] leaves on a
    device of any size and content is what [simplefs_fill_super] mounts and
    the operations of [SimpleFsSpec] need, and the properties of the file
    system follow for states that are reached this way. *)

From S2P Require Import Prelude SimpleFsLayout SimpleFs SimpleFsProps Mkfs SimpleFsSpec.

#[local] Open Scope sfs_scope.
#[local] Set Warnings "-clear-no-such-hyp".

(** ** The formatter *)

Lemma write_full c off bs :
  0 ≤ off → off + Z.of_nat (length bs) ≤ Z.of_nat (length c) →
  write (mk_file c off []) bs =
    (Z.of_nat (length bs),
     mk_file (splice (Z.to_nat off) bs c) (off + Z.of_nat (length bs)) []).
Proof.
  intros H1 H2. unfold write. cbn [answer transfers content offset].
  rewrite Z.min_r by lia.
  rewrite (proj2 (Z.ltb_ge _ _)) by lia. by rewrite Nat2Z.id, firstn_all.
Qed.

Lemma length_super_bytes a b c d e : length (super_bytes a b c d e) = Z.to_nat 4096.
Proof. unfold super_bytes. by rewrite !length_app, !length_le_bytes, length_replicate. Qed.

Lemma length_record_bytes name ino :
  (length name ≤ 256)%nat → length (record_bytes name ino) = Z.to_nat 264.
Proof.
  intros. unfold record_bytes. rewrite !length_app, length_replicate, length_le_bytes. lia.
Qed.

(** The device after the five writes of the formatter. *)
Definition formatted (c c' : list Z) : Prop :=
  ∃ c1 c2 c3 c4,
    put_bytes 0 (super_bytes 1 SIMPLEFS_MAGIC SIMPLEFS_DEFAULT_BLOCK_SIZE 2
                   initial_free_blocks) c = Some c1 ∧
    put_bytes 4096 (inode_bytes root_inode) c1 = Some c2 ∧
    put_bytes 4128 (inode_bytes welcome) c2 = Some c3 ∧
    put_bytes 8192 (record_bytes welcome_name WELCOMEFILE_INODE_NUMBER) c3 = Some c4 ∧
    put_bytes 12288 welcomefile_body c4 = Some c'.

Lemma write_put c off bs :
  0 ≤ off → off + Z.of_nat (length bs) ≤ Z.of_nat (length c) →
  ∃ c', put_bytes off bs c = Some c' ∧ length c' = length c ∧
    write (mk_file c off []) bs =
      (Z.of_nat (length bs), mk_file c' (off + Z.of_nat (length bs)) []).
Proof.
  intros H1 H2. eexists. split; [by apply put_bytes_some|]. split.
  - apply length_splice. lia.
  - by rewrite write_full.
Qed.

Lemma mkfs_formats c :
  4 * 4096 ≤ Z.of_nat (length c) →
  ∃ c' off, mkfs_main (mk_file c 0 []) = (0, mk_file c' off []) ∧
    formatted c c' ∧ length c' = length c.
Proof.
  intros Hc.
  assert (Z.of_nat (length welcomefile_body) = 41) as Ew by done.
  edestruct (write_put c 0) as (c1 & P1 & L1 & W1);
    [lia|rewrite (length_super_bytes 1 SIMPLEFS_MAGIC SIMPLEFS_DEFAULT_BLOCK_SIZE 2 initial_free_blocks); lia|].
  edestruct (write_put c1 4096) as (c2 & P2 & L2 & W2);
    [lia|rewrite (length_inode_bytes root_inode); lia|].
  edestruct (write_put c2 4128) as (c3 & P3 & L3 & W3);
    [lia|rewrite (length_inode_bytes welcome); lia|].
  edestruct (write_put c3 8192) as (c4 & P4 & L4 & W4);
    [lia|rewrite (length_record_bytes welcome_name WELCOMEFILE_INODE_NUMBER) by (vm_compute; lia); lia|].
  edestruct (write_put c4 12288 welcomefile_body) as (c5 & P5 & L5 & W5); [lia|lia|].
  exists c5. eexists. split; [|split; [by exists c1, c2, c3, c4|congruence]].
  rewrite length_super_bytes in W1. rewrite length_inode_bytes in W2, W3.
  rewrite length_record_bytes in W4 by (vm_compute; lia).
  unfold mkfs_main, write_superblock. rewrite W1. cbv beta iota zeta.
  change (0 + Z.of_nat (Z.to_nat 4096)) with 4096.
  change (negb (Z.of_nat (Z.to_nat 4096) =? SIMPLEFS_DEFAULT_BLOCK_SIZE)) with false.
  unfold write_inode_store. cbv beta iota zeta. change (negb (0 =? 0)) with false.
  cbv beta iota zeta. rewrite W2. cbv beta iota zeta.
  change (negb (Z.of_nat 32 =? sizeof_inode)) with false. cbv beta iota zeta.
  change (4096 + Z.of_nat 32) with 4128. unfold write_inode. rewrite W3. cbv beta iota zeta.
  change (negb (Z.of_nat 32 =? sizeof_inode)) with false.
  cbn [lseek_cur answer transfers offset content].
  change (4128 + Z.of_nat 32 + (SIMPLEFS_DEFAULT_BLOCK_SIZE - sizeof_inode - sizeof_inode))
    with 8192. cbn [negb Z.eqb].
  unfold write_dirent. rewrite W4. cbv beta iota zeta.
  change (negb (Z.of_nat (Z.to_nat 264) =? sizeof_dir_record)) with false.
  cbn [lseek_cur answer transfers offset content].
  change (8192 + Z.of_nat (Z.to_nat 264) + (SIMPLEFS_DEFAULT_BLOCK_SIZE - sizeof_dir_record))
    with 12288. cbn [negb Z.eqb].
  unfold write_block. rewrite W5, Z.eqb_refl. reflexivity.
Qed.

(** ** The mounted device *)

(** The device as the buffer cache sees it: its blocks by number. The module never calls
    [sb_set_blocksize], so a block of [sb_bread] has the size [bs] that the kernel chose
    for the device: a parameter. *)
Definition device_blocks (bs : Z) (c : list Z) : gmap Z (list Z) :=
  let block k := take (Z.to_nat bs) (drop (Z.to_nat (Z.of_nat k * bs)) c) in
  map_seqZ 0 (block <$> seq 0 (Z.to_nat (Z.of_nat (length c) / bs))).

Definition booted (bs : Z) (c : list Z) : fs :=
  mk_fs (device_blocks bs c) (device_blocks bs c) ∅ 0 ∅ [] [].

Lemma lookup_device_blocks c n :
  0 ≤ n → (n + 1) * 4096 ≤ Z.of_nat (length c) →
  device_blocks 4096 c !! n = get_bytes (n * 4096) 4096 c.
Proof.
  intros Hn Hlen. unfold device_blocks. rewrite get_bytes_some by lia.
  rewrite <- (Z2Nat.id n) at 1 by done.
  replace (Z.of_nat (Z.to_nat n)) with (0 + Z.of_nat (Z.to_nat n)) by lia.
  apply lookup_map_seqZ_Some. split; [lia|].
  replace (Z.to_nat (0 + Z.of_nat (Z.to_nat n) - 0)) with (Z.to_nat n) by lia.
  rewrite list_lookup_fmap, lookup_seq_lt; simpl; [do 3 f_equal; lia|].
  apply Z2Nat.inj_lt; [lia|apply Z.div_pos; lia|].
  apply Z.lt_le_trans with (n + 1); [lia|]. apply Z.div_le_lower_bound; lia.
Qed.

Lemma get_inode_sub off b c k :
  get_bytes off 4096 c = Some b → 0 ≤ k → k + 32 ≤ 4096 →
  get_inode_at k b = get_inode_at (off + k) c.
Proof.
  intros H Hk Hk'. unfold get_inode_at, get_u32, get_u64. rewrite <- !Z.add_assoc.
  by rewrite !(get_bytes_sub _ _ _ _ _ _ H) by lia.
Qed.

Lemma get_string_prefix r b s :
  get_bytes 0 (Z.of_nat (length r)) b = Some r → c_string r = Some s →
  (length s < length r)%nat → get_string 0 b = Some s.
Proof.
  unfold get_bytes, get_string. case_bool_decide; intros H1 H2 H3; simplify_eq.
  rewrite bool_decide_true by lia. simpl. rewrite drop_0 in *.
  eapply (c_string_prefix _ _ (length r)); [|exact H2|done].
  rewrite Nat2Z.id in H1. rewrite <- H1. by rewrite take_take, Nat.min_l by (rewrite length_take; lia).
Qed.

(** The blocks of a formatted device. *)
Record formatted_blocks (c : gmap Z (list Z)) : Prop := {
  fb_super : c !! 0 = Some (super_bytes 1 SIMPLEFS_MAGIC SIMPLEFS_DEFAULT_BLOCK_SIZE 2
                              initial_free_blocks);
  fb_store : ∃ b, c !! 1 = Some b ∧ is_block b ∧ inodes_at b [root_inode; welcome];
  fb_root : ∃ b, c !! 2 = Some b ∧ is_block b ∧
              records_at b [(welcome_name, WELCOMEFILE_INODE_NUMBER)];
  fb_welcome : ∃ b, c !! 3 = Some b ∧ is_block b ∧ get_bytes 0 41 b = Some welcomefile_body;
}.

Lemma get_block c n :
  0 ≤ n → (n + 1) * 4096 ≤ Z.of_nat (length c) →
  ∃ b, get_bytes (n * 4096) 4096 c = Some b ∧ device_blocks 4096 c !! n = Some b ∧ is_block b.
Proof.
  intros Hn Hlen. eexists. split; [apply get_bytes_some; lia|]. split.
  - rewrite lookup_device_blocks by done. apply get_bytes_some; lia.
  - unfold is_block. rewrite length_take, length_drop. unfold SIMPLEFS_DEFAULT_BLOCK_SIZE. lia.
Qed.

Lemma formatted_device c c' :
  formatted c c' → 4 * 4096 ≤ Z.of_nat (length c') → formatted_blocks (device_blocks 4096 c').
Proof.
  intros (c1 & c2 & c3 & c4 & P1 & P2 & P3 & P4 & P5) Hlen.
  destruct (get_block c' 1) as (b1 & G1 & D1 & B1); [lia..|].
  destruct (get_block c' 2) as (b2 & G2 & D2 & B2); [lia..|].
  destruct (get_block c' 3) as (b3 & G3 & D3 & B3); [lia..|].
  change (1 * 4096) with 4096 in G1. change (2 * 4096) with 8192 in G2.
  change (3 * 4096) with 12288 in G3. split.
  - rewrite lookup_device_blocks by lia. change (0 * 4096) with 0.
    rewrite (get_put_other _ _ _ _ _ _ P5), (get_put_other _ _ _ _ _ _ P4),
      (get_put_other _ _ _ _ _ _ P3), (get_put_other _ _ _ _ _ _ P2) by lia.
    apply get_put_same in P1. by rewrite length_super_bytes in P1.
  - exists b1. split_and!; [done..|]. intros [|[|k]] i Hk;
      [injection Hk as <-|injection Hk as <-|done].
    + change (Z.of_nat 0 * sizeof_inode) with 0.
      rewrite (get_inode_sub _ _ _ _ G1) by lia. change (4096 + 0) with 4096.
      rewrite (get_inode_other _ _ _ _ _ P5), (get_inode_other _ _ _ _ _ P4),
        (get_inode_other _ _ _ _ _ P3) by (unfold sizeof_inode; lia).
      eapply get_inode_put; [|exact P2]. by vm_compute.
    + change (Z.of_nat 1 * sizeof_inode) with 32.
      rewrite (get_inode_sub _ _ _ _ G1) by lia. change (4096 + 32) with 4128.
      rewrite (get_inode_other _ _ _ _ _ P5), (get_inode_other _ _ _ _ _ P4)
        by (unfold sizeof_inode; lia).
      eapply get_inode_put; [|exact P3]. by vm_compute.
  - exists b2. split_and!; [done..|]. intros [|k] e He; [injection He as <-|done].
    cbn [fst snd].
    set (rec := record_bytes welcome_name WELCOMEFILE_INODE_NUMBER) in *.
    assert (Z.of_nat (length rec) = 264) as Hrl by done.
    assert (get_bytes 0 264 b2 = Some rec) as Hrec.
    { rewrite <- (get_bytes_sub 8192 4096 c') by (done || lia).
      rewrite (get_put_other _ _ _ _ _ _ P5) by lia.
      apply get_put_same in P4. by rewrite Hrl in P4. }
    split_and!; [|unfold record_inode_no, get_u64|by vm_compute; lia].
    + apply (get_string_prefix rec); [by rewrite Hrl|done|by vm_compute; lia].
    + change (Z.of_nat 0 * sizeof_dir_record + 256) with (0 + 256).
      by rewrite (get_bytes_sub _ _ _ _ _ _ Hrec) by lia.
  - exists b3. split_and!; [done..|]. rewrite <- (get_bytes_sub 12288 4096 c') by (done || lia).
    by apply get_put_same in P5.
Qed.

Definition root_vinode (p : nat) : inode :=
  mk_vinode SIMPLEFS_ROOTDIR_INODE_NUMBER S_IFDIR simplefs_dir_operations (Some p).

Definition root_entries : list (list Z * Z) := [(welcome_name, WELCOMEFILE_INODE_NUMBER)].

Lemma formatted_store_rep s :
  formatted_blocks (cache s) → store_rep s [root_inode; welcome] initial_free_blocks.
Proof.
  intros F. destruct (fb_store _ F) as (b & ? & ? & ?). split.
  - eexists. split; [apply (fb_super _ F)|]. by vm_compute.
  - by exists b.
  - by vm_compute.
  - by vm_compute.
  - by repeat constructor; vm_compute.
  - apply (bool_decide_unpack _). by vm_compute.
  - by repeat constructor; vm_compute.
Qed.

Lemma mount_spec c Q :
  formatted_blocks c →
  (∀ p s, cache s = c → quiet s → bh_refs s = 0 →
     store_rep s [root_inode; welcome] initial_free_blocks →
     dir_rep s (root_vinode p) root_inode root_entries →
     Q (0, Some (root_vinode p)) s) →
  wp simplefs_fill_super Q (mk_fs c c ∅ 0 ∅ [] []).
Proof.
  intros F HQ. pose proof (fb_super _ F) as E0.
  set (sb := super_bytes _ _ _ _ _) in E0.
  assert (get_u64 SB_magic sb = Some SIMPLEFS_MAGIC) by (by vm_compute).
  assert (get_u64 SB_block_size sb = Some SIMPLEFS_DEFAULT_BLOCK_SIZE) by (by vm_compute).
  clearbody sb. unfold simplefs_fill_super. wsteps. rewrite !Z.eqb_refl. wsteps.
  eapply (get_inode_spec _ _ _ _ root_inode);
    [by apply formatted_store_rep|done|done|].
  intros p [c' d' q' r' h' l' f'] Hp Hp' (Hc & Hd & Hl & Hf & Hh) Hr. simpl in *. subst. wsteps.
  assert (formatted_blocks c) as F' by done.
  destruct (fb_root _ F) as (b & ? & ? & ?).
  apply HQ; try done; [by apply formatted_store_rep|]. split; simpl.
  - by exists p.
  - by exists b.
  - done.
  - done.
Qed.

(** [mkfs_main], then a mount of the result: the file system is consistent. *)
Lemma mkfs_mount_spec bs dev Q :
  bs = SIMPLEFS_DEFAULT_BLOCK_SIZE → 4 * 4096 ≤ Z.of_nat (length dev) →
  (∀ c p s, formatted_blocks c → cache s = c → quiet s → bh_refs s = 0 →
     store_rep s [root_inode; welcome] initial_free_blocks →
     dir_rep s (root_vinode p) root_inode root_entries → Q (0, Some (root_vinode p)) s) →
  ∃ f, mkfs_main (mk_file dev 0 []) = (0, f) ∧
    wp simplefs_fill_super Q (booted bs (content f)).
Proof.
  intros -> Hlen HQ. destruct (mkfs_formats dev Hlen) as (c' & off & Hm & Hf & Hl).
  eexists. split; [exact Hm|]. simpl.
  apply mount_spec; [eapply formatted_device; [exact Hf|by rewrite Hl]|].
  intros p s Hc Hq Hr R D. eapply (HQ (cache s)); try done. rewrite Hc.
  eapply formatted_device; [exact Hf|by rewrite Hl].
Qed.

(** ** Filling the root directory *)

(** Creates the names one after the other, as a shell loop of [touch] would;
    stops at the first failure. *)
Fixpoint create_all (dir : inode) (names : list (list Z)) (m : Z) : M Z :=
  match names with
  | [] => ret 0
  | name :: names =>
      let! r := simplefs_create dir name m in
      if r.1 =? 0 then create_all dir names m else ret r.1
  end.

(** Mounts, and runs [k] on the root directory. *)
Definition on_mount {A} (k : inode → M A) : M A :=
  let! r := simplefs_fill_super in
  match r.2 with Some root => k root | None => oops end.

Definition name_ok (name : list Z) : Prop := (0 ∉ name) ∧ (length name ≤ 255)%nat.

#[export] Instance name_ok_dec name : Decision (name_ok name).
Proof. unfold name_ok. apply _. Defined.

(** The entries of [names], created in order from the [k]-th object on. *)
Fixpoint new_entries (k : nat) (names : list (list Z)) : list (list Z * Z) :=
  match names with
  | [] => []
  | name :: names => (name, 10 + Z.of_nat k) :: new_entries (S k) names
  end.

(** After [k] creations of mode [m] in the root directory, with entries [es]. *)
Record populated (s : fs) (p : nat) (m : Z) (k : nat) (es : list (list Z * Z)) : Prop := {
  pop_store : ∃ tbl free di, store_rep s tbl free ∧
    dir_rep s (root_vinode p) di es ∧ tbl !! 0%nat = Some di ∧ tbl !! 1%nat = Some welcome ∧
    length tbl = (2 + k)%nat ∧
    entries_ok tbl es ∧
    (∀ j, 3 ≤ j < 31 → Z.testbit free j = bool_decide (4 + Z.of_nat k ≤ j)) ∧
    (∀ j, (j < k)%nat → tbl !! (2 + j)%nat =
       Some (mk_inode m (10 + Z.of_nat j) (4 + Z.of_nat j) 0));
  pop_quiet : quiet s;
  pop_len : length es = S k;
}.

Lemma populated_lowest free k :
  (k < 14)%nat → (∀ j, 3 ≤ j < 31 → Z.testbit free j = bool_decide (4 + Z.of_nat k ≤ j)) →
  lowest_free free (4 + Z.of_nat k).
Proof.
  intros Hk Hbits. split_and!; [lia..| |].
  - by rewrite Hbits, bool_decide_true by lia.
  - intros j Hj. by rewrite Hbits, bool_decide_false by lia.
Qed.

Lemma lookup_insert_tail {A} (l : list A) (x y : A) (j : nat) :
  length l = (2 + j)%nat → (<[0%nat := x]> l ++ [y]) !! (2 + j)%nat = Some y.
Proof. intros Hl. apply list_lookup_middle. by rewrite length_insert. Qed.

Lemma populated_create s p m k es name :
  populated s p m k es → (k < 14)%nat → name_ok name → 0 ≤ m < 2 ^ 16 →
  S_ISDIR m || S_ISREG m = true →
  wp (simplefs_create (root_vinode p) name m) (λ r s',
      r.1 = 0 ∧ populated s' p m (S k) (es ++ [(name, 10 + Z.of_nat k)])) s.
Proof.
  intros [(tbl & free & di & R & D & Hdi & Hwel & Hlen & Hes & Hbits & Hobj) Hq Hl] Hk [Hn1 Hn2] Hm Hty.
  assert (next_ino tbl = 10 + Z.of_nat k) as Hino by (unfold next_ino; lia).
  eapply wp_mono.
  { eapply (create_spec _ tbl free _ 0 di es (4 + Z.of_nat k)); try done.
    - unfold SIMPLEFS_MAX_FILESYSTEM_OBJECTS_SUPPORTED. lia.
    - lia.
    - by apply populated_lowest. }
  simpl. intros r s' (q & -> & _ & _ & R' & D' & Hq' & _). split; [done|].
  rewrite Hino in D'. split; [|done|rewrite length_app; simpl; lia].
  eexists _, _, _. split_and!; [exact R'|exact D'|..].
  - rewrite lookup_app_l by (rewrite length_insert; lia). apply list_lookup_insert_eq. lia.
  - rewrite lookup_app_l by (rewrite length_insert; lia). by rewrite list_lookup_insert_ne.
  - rewrite length_app, length_insert. simpl. lia.
  - apply Forall_app. rewrite fmap_app, list_fmap_insert, list_insert_id
      by (by rewrite list_lookup_fmap, Hdi). split.
    + eapply Forall_impl; [exact Hes|]. intros e He. simpl. set_solver.
    + apply Forall_singleton. simpl. rewrite Hino. set_solver.
  - intros j Hj. rewrite Z.clearbit_eqb, Hbits by lia.
    destruct (_ =? j) eqn:E; reflect_bools; simpl; repeat case_bool_decide; done || lia.
  - intros j Hj. destruct (decide (j = k)) as [->|].
    + rewrite lookup_insert_tail by done. unfold new_object. by rewrite Hino.
    + rewrite lookup_app_l by (rewrite length_insert; lia).
      rewrite list_lookup_insert_ne by lia. apply Hobj. lia.
Qed.

Lemma populated_create_all p m names : ∀ s k es,
  populated s p m k es → (k + length names ≤ 14)%nat → Forall name_ok names →
  0 ≤ m < 2 ^ 16 → S_ISDIR m || S_ISREG m = true →
  wp (create_all (root_vinode p) names m) (λ r s',
      r = 0 ∧ populated s' p m (k + length names) (es ++ new_entries k names)) s.
Proof.
  induction names as [|name names IH]; intros s k es P Hk Hok Hm Hty.
  - simpl. rewrite Nat.add_0_r, app_nil_r. by apply wp_ret.
  - cbn [create_all new_entries length] in *. apply Forall_cons in Hok as [Hok Hoks].
    apply wp_bind. eapply wp_mono; [by eapply populated_create; try done; lia|].
    intros r s' [-> P']. rewrite Z.eqb_refl. eapply wp_mono; [apply (IH _ _ _ P'); try done; lia|].
    intros r' s'' [-> P'']. split; [done|]. rewrite <- app_assoc in P''.
    replace (k + S (length names))%nat with (S k + length names)%nat by lia. exact P''.
Qed.

Lemma assoc_new_entries names : ∀ k j name,
  NoDup names → names !! j = Some name →
  assoc name (new_entries k names) = Some (10 + Z.of_nat (k + j)).
Proof.
  induction names as [|n names IH]; intros k j name Hnd Hj; [done|].
  apply NoDup_cons in Hnd as [Hn Hnd]. destruct j as [|j]; simplify_eq/=.
  - rewrite decide_True by done. do 2 f_equal. lia.
  - rewrite decide_False by (intros ->; eauto using list_elem_of_lookup_2).
    rewrite (IH (S k) j) by done. do 2 f_equal. lia.
Qed.

Lemma populated_mount s p m :
  store_rep s [root_inode; welcome] initial_free_blocks →
  dir_rep s (root_vinode p) root_inode root_entries → quiet s →
  populated s p m 0 root_entries.
Proof.
  intros R D Hq. split; [|done|done]. eexists _, _, _. split_and!; try done.
  - apply Forall_singleton. simpl. right. left.
  - intros j Hj.
    assert (Forall (λ j, Z.testbit initial_free_blocks j = bool_decide (4 + Z.of_nat 0 ≤ j))
              (seqZ 3 28)) as H by (apply (bool_decide_unpack _); by vm_compute).
    eapply Forall_forall in H; [exact H|]. apply elem_of_seqZ. lia.
  - intros j Hj. lia.
Qed.

Lemma populated_extends s s' p m k es :
  populated s p m k es → extends s s' → populated s' p m k es.
Proof.
  intros [(tbl & free & di & R & D & H) Hq Hl] He. split; [|by eapply quiet_extends|done].
  exists tbl, free, di.
  split_and!; [by eapply store_rep_extends|by eapply dir_rep_extends|apply H..].
Qed.

(** A lookup in the root directory after [k] creations. *)
Lemma populated_lookup s p m k es name ino :
  populated s p m k es → assoc name es = Some ino →
  wp (simplefs_lookup (root_vinode p) name) (λ r s', extends s s' ∧ ∃ i q,
      (∀ j : nat, (j < k)%nat → ino = 10 + Z.of_nat j →
         i = mk_inode m (10 + Z.of_nat j) (4 + Z.of_nat j) 0) ∧
      (ino = 2 → i = welcome) ∧ heap s' !! q = Some i ∧
      r = Some (mk_vinode ino (u16 (mode i)) (fop_of (u16 (mode i))) (Some q))) s.
Proof.
  intros [(tbl & free & di & R & D & Hdi & Hwel & Hlen & Hes & Hbits & Hobj) Hq Hl] Ha.
  pose proof (sr_nodup _ _ _ R) as Hnd.
  eapply wp_mono; [by eapply lookup_spec|]. rewrite Ha.
  intros r s' (He & _ & i & q & Hi & Hhq & ->). split; [done|]. exists i, q.
  split_and!; try done.
  - intros j Hj ->. pose proof (find_inode_lookup _ _ _ _ Hnd (Hobj j Hj) eq_refl) as E.
    simpl in E. congruence.
  - intros ->. pose proof (find_inode_lookup _ _ _ _ Hnd Hwel eq_refl) as E.
    change (inode_no welcome) with 2 in E. congruence.
Qed.

(** ** Properties *)

(** C5. On a device of at least four blocks whose block size for the kernel is that of
    the file system, 4096 bytes, and when no call fails: whatever the device holds,
    formatting it succeeds, the result mounts,
    and the file the formatter promises is there: looking its name up in the
    root directory and reading it gives the whole welcome text. *)
Theorem simplefs_mkfs_mount_read (bs : Z) (dev : list Z) (len : Z) :
  bs = SIMPLEFS_DEFAULT_BLOCK_SIZE → 4 * 4096 ≤ Z.of_nat (length dev) → Z.of_nat (length welcomefile_body) ≤ len →
  ∃ f, mkfs_main (mk_file dev 0 []) = (0, f) ∧
    wp (on_mount (λ root,
          let! v := simplefs_lookup root welcome_name in
          match v with
          | Some file => simplefs_read file len 0
          | None => oops
          end))
       (λ r s, r = (41, 41, welcomefile_body) ∧ held s = []) (booted bs (content f)).
Proof.
  intros Hbs Hdev Hlen.
  edestruct (mkfs_mount_spec bs dev) as (f & Hm & Hw); [done|done| |exists f; split; [exact Hm|];
    apply wp_bind; exact Hw].
  intros c p s F Hc Hq Hr R D. simpl. apply wp_bind.
  eapply wp_mono; [eapply lookup_spec; try done; by repeat constructor; right; left|].
  intros v s' ((Hc' & Hd' & Hl' & Hf' & Hh') & _ & i & q & Hi & Hq' & ->).
  assert (i = welcome) as -> by (change (Some welcome = Some i) in Hi; congruence).
  destruct (fb_welcome _ F) as (b & Hb & Hbl & Hbody).
  eapply wp_mono; [eapply (read_spec _ [root_inode; welcome] _ 1 welcome b); try done|].
  - split; simpl; [by exists q| |done|done]. split; [|done]. by rewrite Hc', Hc.
  - split; [by rewrite Hl'; apply Hq|by rewrite Hf'; apply Hq].
  - change (Z.of_nat (length welcomefile_body)) with 41 in *. lia.
  - intros r s'' [-> ->]. split; [|rewrite Hl'; apply Hq].
    change (0 >=? file_size welcome) with false.
    change (Z.of_nat (length welcomefile_body)) with 41 in *.
    cbv zeta. change (file_size welcome) with 41. rewrite Z.min_l by lia.
    f_equal. rewrite get_bytes_some in Hbody by (unfold is_block in Hbl; rewrite ?Hbl; done).
    rewrite drop_0 in Hbody. congruence.
Qed.

Lemma simplefs_mkfs_mount_read_witness :
  ∃ f, mkfs_main (mk_file (replicate (Z.to_nat 16384) 7) 0 []) = (0, f) ∧
    wp (on_mount (λ root,
          let! v := simplefs_lookup root welcome_name in
          match v with
          | Some file => simplefs_read file 100 0
          | None => oops
          end))
       (λ r s, r = (41, 41, welcomefile_body) ∧ held s = []) (booted 4096 (content f)).
Proof.
  apply (simplefs_mkfs_mount_read 4096 (replicate (Z.to_nat 16384) 7) 100).
  - reflexivity.
  - rewrite length_replicate. lia.
  - by vm_compute.
Defined.

(** On a formatted device of any content and blocks of 4096 bytes, up to 14 files or directories
    created in the root directory all succeed, and afterwards every one of
    them is found under its name with its own inode number, the mode it was
    created with and its own data block, and the welcome file is still found. *)
Theorem simplefs_populate (bs : Z) (dev : list Z) (names : list (list Z)) (m : Z) (j : nat)
    (name : list Z) :
  bs = SIMPLEFS_DEFAULT_BLOCK_SIZE → 4 * 4096 ≤ Z.of_nat (length dev) →
  (length names ≤ 14)%nat → NoDup names → Forall name_ok names → welcome_name ∉ names →
  0 ≤ m < 2 ^ 16 → S_ISDIR m || S_ISREG m = true → names !! j = Some name →
  ∃ f, mkfs_main (mk_file dev 0 []) = (0, f) ∧
    wp (on_mount (λ root,
          let! rc := create_all root names m in
          let! v := simplefs_lookup root name in
          let! w := simplefs_lookup root welcome_name in
          ret (rc, v, w)))
       (λ r s, ∃ p q,
          r = (0, Some (mk_vinode (10 + Z.of_nat j) m (fop_of m) (Some p)),
                  Some (mk_vinode 2 S_IFREG simplefs_file_operations (Some q))) ∧
          heap s !! p = Some (mk_inode m (10 + Z.of_nat j) (4 + Z.of_nat j) 0) ∧
          heap s !! q = Some welcome) (booted bs (content f)).
Proof.
  intros Hbs Hdev Hlen Hnd Hok Hw Hm Hty Hj.
  edestruct (mkfs_mount_spec bs dev) as (f & Hf & Hrun); [done|done| |exists f; split; [exact Hf|];
    apply wp_bind; exact Hrun].
  intros c p s F Hc Hq Hr R D. cbn [snd]. apply wp_bind.
  eapply wp_mono; [apply (populated_create_all p m names s 0 root_entries); try done|].
  { by apply populated_mount. }
  intros rc s1 [-> P]. apply wp_bind. eapply wp_mono; 
    [apply (populated_lookup s1 p m _ _ name (10 + Z.of_nat (0 + j)) P)|].
  { rewrite assoc_app. simpl. rewrite decide_False by (intros <-; eauto using list_elem_of_lookup_2).
    by apply (assoc_new_entries _ 0). }
  intros v s2 (Hs2 & i & q & Hi & _ & Hhq & ->). pose proof (populated_extends _ _ _ _ _ _ P Hs2) as P2.
  apply wp_bind. eapply wp_mono; [apply (populated_lookup s2 p m _ _ welcome_name 2 P2)|].
  { rewrite assoc_app. done. }
  intros w s3 (Hs3 & i' & q' & _ & Hi' & Hhq' & ->). apply wp_ret.
  apply lookup_lt_Some in Hj.
  assert (i = mk_inode m (10 + Z.of_nat j) (4 + Z.of_nat j) 0) as ->
    by (apply Hi; simpl; lia).
  assert (i' = welcome) as -> by (by apply Hi').
  exists q, q'. split_and!; [|by apply Hs3|done].
  simpl. by rewrite (wrapu_small 16 m).
Qed.

Definition sample_device : list Z := replicate (Z.to_nat 16384) 7.
Definition sample_names : list (list Z) := [[97]; [98; 99]; [100; 101; 102]].

Lemma sample_device_size : 4 * 4096 ≤ Z.of_nat (length sample_device).
Proof. unfold sample_device. rewrite length_replicate. lia. Qed.

Lemma simplefs_populate_witness :
  ∃ f, mkfs_main (mk_file sample_device 0 []) = (0, f) ∧
    wp (on_mount (λ root,
          let! rc := create_all root sample_names 0x81A4 in
          let! v := simplefs_lookup root [98; 99] in
          let! w := simplefs_lookup root welcome_name in
          ret (rc, v, w)))
       (λ r s, ∃ p q,
          r = (0, Some (mk_vinode 11 0x81A4 (fop_of 0x81A4) (Some p)),
                  Some (mk_vinode 2 S_IFREG simplefs_file_operations (Some q))) ∧
          heap s !! p = Some (mk_inode 0x81A4 11 5 0) ∧
          heap s !! q = Some welcome) (booted 4096 (content f)).
Proof.
  apply (simplefs_populate 4096 sample_device sample_names 0x81A4 1 [98; 99]).
  - reflexivity.
  - apply sample_device_size.
  - vm_compute. lia.
  - apply (bool_decide_unpack _). by vm_compute.
  - apply (bool_decide_unpack _). by vm_compute.
  - apply (bool_decide_unpack _). by vm_compute.
  - lia.
  - reflexivity.
  - reflexivity.
Defined.

(** The inodes that were there before a creation. *)
Lemma find_inode_created tbl kd di m blk ino i1 :
  NoDup (inode_no <$> <[kd := one_more_child di]> tbl ++ [new_object tbl m blk]) → tbl !! kd = Some di →
  ino ∈ inode_no <$> tbl → find_inode ino (<[kd := one_more_child di]> tbl ++ [new_object tbl m blk]) = Some i1 →
  ∃ i, find_inode ino tbl = Some i ∧ i1 = (if decide (ino = inode_no di) then one_more_child i else i).
Proof.
  intros Hnd Hkd (i & -> & [k Hk]%list_elem_of_lookup)%list_elem_of_fmap Hf. exists i.
  assert (NoDup (inode_no <$> tbl)) as Hnd0.
  { rewrite fmap_app, list_fmap_insert, list_insert_id in Hnd by (by rewrite list_lookup_fmap, Hkd).
    by apply NoDup_app in Hnd as [? _]. }
  split; [by eapply find_inode_lookup|]. pose proof (lookup_lt_Some _ _ _ Hk).
  assert (∀ j, (<[kd := one_more_child di]> tbl ++ [new_object tbl m blk]) !! k = Some j → inode_no j = inode_no i → i1 = j) as H1.
  { intros j Hj Hno. rewrite (find_inode_lookup _ _ _ _ Hnd Hj Hno) in Hf. congruence. }
  rewrite lookup_app_l in H1 by (by rewrite length_insert).
  destruct (decide (k = kd)) as [->|Hne].
  - rewrite Hk in Hkd. injection Hkd as ->. rewrite decide_True by done. apply H1; [|done]. by apply list_lookup_insert_eq.
  - rewrite list_lookup_insert_ne in H1 by done. rewrite decide_False; [by apply H1|]. intros E. apply Hne.
    eapply (NoDup_lookup _ _ _ (inode_no i) Hnd0); rewrite list_lookup_fmap; [by rewrite Hk|by rewrite Hkd, E].
Qed.

(** C6. Creation and lookup agree in any consistent file system with room: when the
    directory has fewer than 15 entries, there are fewer than 64 objects and one of
    the blocks 3 to 30 is free, the name is new to the directory and no call fails, then
    after [name] is created looking it up gives the inode just
    made, with the number and mode of the creation, an empty file on the lowest free
    block; every other name gives what it gave before: none, or its inode with the
    same content, but that the directory counts one more child in its own. *)
Theorem simplefs_create_lookup s tbl free dir kd di es blk name m name' :
  store_rep s tbl free → dir_rep s dir di es → entries_ok tbl es → quiet s →
  tbl !! kd = Some di → Z.of_nat (length tbl) < SIMPLEFS_MAX_FILESYSTEM_OBJECTS_SUPPORTED →
  (length es < 15)%nat → lowest_free free blk →
  name_ok name → name ∉ es.*1 → 0 ≤ m < 2 ^ 16 → S_ISDIR m || S_ISREG m = true →
  wp (let! r := simplefs_create dir name m in
      let! v := simplefs_lookup dir name' in ret (r.1, v))
     (λ r s', r.1 = 0 ∧ held s' = [] ∧
        if decide (name' = name) then
          ∃ p, r.2 = Some (mk_vinode (next_ino tbl) m (fop_of m) (Some p)) ∧
               heap s' !! p = Some (new_object tbl m blk)
        else match assoc name' es with
             | None => r.2 = None
             | Some ino => ∃ i p, find_inode ino tbl = Some i ∧
                 heap s' !! p = Some (if decide (ino = inode_no di) then one_more_child i else i) ∧
                 r.2 = Some (mk_vinode ino (u16 (mode i)) (fop_of (u16 (mode i))) (Some p))
             end) s.
Proof.
  intros R D He Hq Hkd Hlen Hes Hlow [Hn1 Hn2] Hnew Hm Hty.
  apply wp_bind. eapply wp_mono; [by eapply create_spec|].
  intros r s1 (p & -> & Hp & _ & R1 & D1 & Hq1 & _). apply wp_bind.
  set (tbl1 := _ ++ _) in R1. set (es1 := _ ++ _) in D1.
  assert (inode_no <$> tbl1 = (inode_no <$> tbl) ++ [next_ino tbl]) as Eno.
  { unfold tbl1. rewrite fmap_app, list_fmap_insert, list_insert_id
      by (by rewrite list_lookup_fmap, Hkd). done. }
  assert (entries_ok tbl1 es1) as He1.
  { apply Forall_app. unfold entries_ok in He. rewrite Eno. split.
    - eapply Forall_impl; [exact He|]. intros e ?. simpl. set_solver.
    - apply Forall_singleton. simpl. set_solver. }
  eapply wp_mono; [by eapply lookup_spec|].
  intros v s2 ((_ & _ & Hl & _) & _ & Hv). apply wp_ret. simpl.
  split_and!; [done|by rewrite Hl; apply Hq1|].
  unfold es1 in Hv. rewrite assoc_app in Hv. case_decide as Hname.
  - subst name'. rewrite assoc_none in Hv by done. simpl in Hv.
    rewrite decide_True in Hv by done. destruct Hv as (i & q & Hi & Hhq & ->).
    pose proof (sr_nodup _ _ _ R1) as Hnd.
    assert (tbl1 !! length tbl = Some (new_object tbl m blk)) as Ht.
    { apply list_lookup_middle. by rewrite length_insert. }
    pose proof (find_inode_lookup _ _ _ _ Hnd Ht eq_refl) as Hi2. simpl in Hi2.
    rewrite Hi in Hi2. injection Hi2 as ->. exists q. split; [|done].
    simpl. by rewrite (wrapu_small 16 m).
  - destruct (assoc name' es) as [ino|] eqn:Ea.
    + destruct Hv as (i1 & q & Hi1 & Hhq & ->).
      destruct (find_inode_created tbl kd di m blk ino i1) as (i & Hi & ->); try done.
      { apply (sr_nodup _ _ _ R1). }
      { unfold entries_ok in He. rewrite Forall_forall in He. by apply (He (name', ino)), assoc_elem. }
      exists i, q. split_and!; [done..|]. by case_decide.
    + simpl in Hv. rewrite decide_False in Hv by done. by subst v.
Qed.

(** A state for concrete instances: the sample device, formatted and mounted,
    with the welcome file open. *)
Lemma mounted_sample :
  ∃ s p file b, store_rep s [root_inode; welcome] initial_free_blocks ∧
    dir_rep s (root_vinode p) root_inode root_entries ∧ quiet s ∧
    file_rep s [root_inode; welcome] file 1 welcome b.
Proof.
  destruct (mkfs_mount_spec 4096 sample_device (λ r s, ∃ p, formatted_blocks (cache s) ∧ quiet s ∧
     store_rep s [root_inode; welcome] initial_free_blocks ∧
     dir_rep s (root_vinode p) root_inode root_entries)) as (f & _ & Hw);
    [done|apply sample_device_size|intros c p s F Hc; subst c; by eauto|].
  apply wp_run in Hw as (r & s & _ & p & F & Hq & R & D).
  assert (entries_ok [root_inode; welcome] root_entries) as He
    by (by repeat constructor; right; left).
  pose proof (lookup_spec s _ _ _ _ _ welcome_name R D Hq He) as Hl.
  apply wp_run in Hl as (v & s' & _ & Hext & _ & i & q & Hi & Hhq & ->).
  assert (i = welcome) as -> by (change (Some welcome = Some i) in Hi; congruence).
  destruct (fb_welcome _ F) as (b & Hb & Hbl & _).
  exists s', p, (mk_vinode 2 S_IFREG simplefs_file_operations (Some q)), b. split_and!.
  - by eapply store_rep_extends.
  - by eapply dir_rep_extends.
  - by eapply quiet_extends.
  - split; simpl; [by exists q| |done|done]. destruct Hext as [-> _]. done.
Qed.

Lemma simplefs_create_lookup_witness :
  ∃ s p, store_rep s [root_inode; welcome] initial_free_blocks ∧
    dir_rep s (root_vinode p) root_inode root_entries ∧
    wp (let! r := simplefs_create (root_vinode p) [97; 98] 0x81A4 in
        let! v := simplefs_lookup (root_vinode p) [97; 98] in ret (r.1, v))
     (λ r s', r.1 = 0 ∧ held s' = [] ∧
        if decide ([97; 98] = [97; 98]) then
          ∃ q, r.2 = Some (mk_vinode 10 0x81A4 (fop_of 0x81A4) (Some q)) ∧
               heap s' !! q = Some (mk_inode 0x81A4 10 4 0)
        else match assoc [97; 98] root_entries with
             | None => r.2 = None
             | Some ino => ∃ i p, find_inode ino [root_inode; welcome] = Some i ∧
                 heap s' !! p = Some (if decide (ino = inode_no root_inode) then one_more_child i else i) ∧
                 r.2 = Some (mk_vinode ino (u16 (mode i)) (fop_of (u16 (mode i))) (Some p))
             end) s.
Proof.
  destruct mounted_sample as (s & p & file & b & R & D & Hq & F). exists s, p.
  split; [exact R|]. split; [exact D|].
  apply (simplefs_create_lookup s [root_inode; welcome] initial_free_blocks (root_vinode p) 0
    root_inode root_entries 4 [97; 98] 0x81A4 [97; 98] R D); try done.
  - by repeat constructor; right; left.
  - vm_compute. lia.
  - split; [lia|]. split; [reflexivity|]. intros j Hj. replace j with 3 by lia. reflexivity.
  - apply (bool_decide_unpack _). by vm_compute.
  - apply (bool_decide_unpack _). by vm_compute.
Defined.

(** C7. What is written is read back: a write at the start of a file that
    [generic_write_checks] takes in full succeeds, reaches the device, keeps
    the file system consistent, and a following read of the file returns
    exactly the bytes written and then the end of the file. *)
Theorem simplefs_write_read gwc s tbl free file k i b buf junk len :
  write_checks_law gwc → store_rep s tbl free → file_rep s tbl file k i b → quiet s →
  gwc 0 (Z.of_nat (length buf)) = (0, 0, Z.of_nat (length buf)) →
  buf ≠ [] → Z.of_nat (length buf) ≤ len →
  let n := Z.of_nat (length buf) in
  wp (let! w := simplefs_write gwc file buf 0 junk in
      let! r := simplefs_read file len 0 in
      let! e := simplefs_read file len n in ret (w, r, e))
     (λ x s', x = ((n, n), (n, n, buf), (0, n, [])) ∧
        store_rep s' (<[k := resized i n]> tbl) free ∧ quiet s' ∧ bh_refs s' = bh_refs s ∧
        ∃ b', disk s' !! data_block_number i = Some b' ∧ take (length buf) b' = buf) s.
Proof.
  intros Hlaw R F Hq Hg Hbuf Hlen n. apply wp_bind.
  destruct (Hlaw 0 n 0 n) as (_ & _ & Hmax); [lia|lia|done|].
  eapply wp_mono; [by eapply write_spec|]. rewrite Nat2Z.id, firstn_all. fold n.
  intros w s1 (-> & R1 & F1 & Hd & Hd1 & Hq1 & Hr). simpl in *.
  assert (0 < n) by (destruct buf; [done|simpl in *; lia]).
  apply wp_bind. eapply wp_mono; [eapply read_spec; try done; simpl; lia|].
  intros r s2 [-> ->]. simpl. apply wp_bind.
  eapply wp_mono; [eapply read_spec; try done; simpl; lia|].
  intros e s3 [-> ->]. simpl. apply wp_ret.
  rewrite !Z.add_0_l. change (Z.to_nat 0) with 0%nat.
  replace (0 >=? n) with false by lia. replace (n >=? n) with true by lia.
  rewrite Z.min_l by lia.
  unfold n. rewrite Nat2Z.id, take_splice_0 by done.
  split_and!; try done; try apply Hq1. eexists. split; [exact Hd|]. by apply take_splice_0.
Qed.

(** [generic_write_checks] on a regular file of at most [s_maxbytes] = 4096
    bytes, without O_APPEND: refuses a start past the limit, clips the rest. *)
Definition sample_checks (pos len : Z) : Z * Z * Z :=
  if pos >=? 4096 then (- 27, pos, len) else (0, pos, Z.min len (4096 - pos)).

Lemma sample_checks_law : write_checks_law sample_checks.
Proof.
  intros pos len pos' len' Hp Hl. unfold sample_checks, SIMPLEFS_DEFAULT_BLOCK_SIZE.
  destruct (pos >=? 4096) eqn:E; intros [= <- <-].
  assert (¬ 4096 ≤ pos) by (intros ?%Z.geb_le; congruence). lia.
Qed.

Lemma simplefs_write_read_witness :
  ∃ s file b, store_rep s [root_inode; welcome] initial_free_blocks ∧
    file_rep s [root_inode; welcome] file 1 welcome b ∧
  wp (let! w := simplefs_write sample_checks file [104; 105] 0 [] in
      let! r := simplefs_read file 4096 0 in
      let! e := simplefs_read file 4096 2 in ret (w, r, e))
     (λ x s', x = ((2, 2), (2, 2, [104; 105]), (0, 2, [])) ∧
        store_rep s' (<[1%nat := resized welcome 2]> [root_inode; welcome]) initial_free_blocks ∧
        quiet s' ∧ bh_refs s' = bh_refs s ∧
        ∃ b', disk s' !! 3 = Some b' ∧ take 2 b' = [104; 105]) s.
Proof.
  destruct mounted_sample as (s & p & file & b & R & D & Hq & F). exists s, file, b.
  split; [exact R|]. split; [exact F|].
  apply (simplefs_write_read sample_checks s _ _ file 1 welcome b [104; 105] [] 4096
    sample_checks_law R F Hq); done.
Defined.

(** The free map of the superblock buffer. *)
Definition free_map (s : fs) : option Z := b ← cache s !! 0; get_u64 SB_free_blocks b.

Lemma put_free_map b z :
  is_block b → 0 ≤ z < 2 ^ 64 →
  ∃ b', put_u64 SB_free_blocks z b = Some b' ∧ get_u64 SB_free_blocks b' = Some z.
Proof.
  intros Hb Hz. unfold is_block, SIMPLEFS_DEFAULT_BLOCK_SIZE in Hb.
  destruct (put_u64_some SB_free_blocks z b) as [b' Hb']; [done|unfold SB_free_blocks; lia|].
  exists b'. split; [done|]. by eapply get_put_u64.
Qed.

(** A block found by the loop is returned, and the mask taken off the map. *)
Lemma get_a_freeblock_some s b free blk m :
  cache s !! 0 = Some b → is_block b → get_u64 SB_free_blocks b = Some free →
  0 ≤ free < 2 ^ 64 → quiet s →
  freeblock_loop 61 3 free = Some blk → blk < 64 → int_shl1 blk = Some m →
  wp simplefs_sb_get_a_freeblock
    (λ r s', r = (0, blk) ∧ free_map s' = Some (Z.land free (u64 (Z.lnot m))) ∧ quiet s') s.
Proof.
  intros E Hb Hf Hf64 [Hl Hfa] Hloop Hblk Hm.
  destruct (put_free_map b (Z.land free (u64 (Z.lnot m))) Hb) as (b' & Hp & Hg).
  { pose proof (wrapu_range 64 (Z.lnot m)). split; [apply Z.land_nonneg; lia|].
    destruct (decide (0 < Z.land free (u64 (Z.lnot m)))); [|lia].
    apply Z.log2_lt_pow2; [done|].
    eapply Z.le_lt_trans; [apply Z.log2_land; lia|].
    destruct (decide (0 < free)); [|by replace free with 0 in * by lia].
    eapply Z.le_lt_trans; [apply Z.le_min_l|]. apply Z.log2_lt_pow2; lia. }
  destruct s as [c d q r h l f]; simpl in *. subst l f.
  eapply wp_get_a_freeblock; try done; [set_solver|]. split_and!; try done.
  unfold free_map; simpl. by rewrite lookup_insert_eq.
Qed.

(** C8. The block allocator on every free map: it hands out the lowest free
    block from 3 to 30 and marks that block alone; when only higher blocks are
    free it hands out block 31 and forgets every block above; when no block is
    free it does not return -ENOSPC but shifts an [int] by its width. *)
Theorem simplefs_freeblock s b free :
  cache s !! 0 = Some b → is_block b → get_u64 SB_free_blocks b = Some free →
  0 ≤ free < 2 ^ 64 → quiet s →
  (∀ blk, lowest_free free blk → wp simplefs_sb_get_a_freeblock
     (λ r s', r = (0, blk) ∧ free_map s' = Some (Z.clearbit free blk) ∧ quiet s') s) ∧
  ((∀ j, 3 ≤ j < 31 → Z.testbit free j = false) →
     if 2 ^ 31 <=? free
     then wp simplefs_sb_get_a_freeblock
       (λ r s', r = (0, 31) ∧ free_map s' = Some (free mod 2 ^ 31) ∧ quiet s') s
     else simplefs_sb_get_a_freeblock s = Oops).
Proof.
  intros E Hb Hf Hf64 Hq. split.
  - intros blk Hlow. assert (3 ≤ blk < 31) by apply Hlow.
    eapply wp_mono; [eapply get_a_freeblock_some; try done|].
    + by apply lowest_free_loop.
    + lia.
    + apply int_shl1_bit. lia.
    + intros r s' H'. by rewrite (proj1 (clear_free free blk Hf64 Hlow)) in H'.
  - intros Hnone. assert (freeblock_loop 61 3 free = if 2 ^ 31 <=? free then Some 31 else None)
      as Hloop by (apply (freeblock_loop_high free 28); auto with lia).
    destruct (2 ^ 31 <=? free) eqn:Ef; reflect_bools.
    + eapply wp_mono; [eapply (get_a_freeblock_some _ _ _ 31 (- 2 ^ 31)); done|].
      intros r s' H'. change (u64 (Z.lnot (- 2 ^ 31))) with (Z.ones 31) in H'.
      by rewrite Z.land_ones in H'.
    + destruct Hq as [Hl Hfa]. destruct s as [c d q r h l f]; simpl in *. subst l f.
      unfold simplefs_sb_get_a_freeblock, sb_field, mutex_lock_interruptible, b_data, fault,
        gets, lift, ret, bind, SIMPLEFS_SUPERBLOCK_BLOCK_NUMBER. simpl. rewrite E. simpl. rewrite Hf.
      change (Z.to_nat _) with 61%nat. by rewrite Hloop.
Qed.

(** A superblock buffer whose free map has no bit from 3 on. *)
Definition full_map_state (free : Z) : fs :=
  mk_fs {[0 := super_bytes 1 SIMPLEFS_MAGIC SIMPLEFS_DEFAULT_BLOCK_SIZE 2 free]} ∅ ∅ 0 ∅ [] [].

Lemma simplefs_freeblock_witness :
  simplefs_sb_get_a_freeblock (full_map_state 7) = Oops ∧
  wp simplefs_sb_get_a_freeblock
    (λ r s', r = (0, 5) ∧ free_map s' = Some (Z.clearbit 96 5) ∧ quiet s') (full_map_state 96).
Proof.
  split.
  - apply (simplefs_freeblock (full_map_state 7)
      (super_bytes 1 SIMPLEFS_MAGIC SIMPLEFS_DEFAULT_BLOCK_SIZE 2 7) 7); try done.
    intros j Hj. apply (testbit_small 3); lia.
  - apply (simplefs_freeblock (full_map_state 96)
      (super_bytes 1 SIMPLEFS_MAGIC SIMPLEFS_DEFAULT_BLOCK_SIZE 2 96) 96); try done.
    split; [lia|]. split; [done|]. intros j Hj. assert (j = 3 ∨ j = 4) as [-> | ->] by lia; done.
Defined.

(** A read does not use its position: whenever the position is before the
    end of the file, the bytes returned are the first ones of the file, so the
    bytes at the position are returned only when the position is 0. *)
Theorem simplefs_read_from_start s tbl file k i b len pos :
  file_rep s tbl file k i b → quiet s →
  0 ≤ file_size i ≤ SIMPLEFS_DEFAULT_BLOCK_SIZE → 0 ≤ len → 0 ≤ pos < file_size i →
  wp (simplefs_read file len pos) (λ r s', s' = s ∧
      r.1.1 = Z.min (file_size i) len ∧ r.1.2 = pos + r.1.1 ∧
      get_bytes 0 r.1.1 b = Some r.2) s.
Proof.
  intros F Hq Hs Hl Hp. eapply wp_mono; [by eapply read_spec|].
  intros r s' [-> ->]. replace (pos >=? file_size i) with false by lia. simpl.
  split_and!; try done. destruct (fr_block _ _ _ _ _ _ F) as [_ Hb].
  unfold is_block in Hb. rewrite get_bytes_some by lia. by rewrite drop_0.
Qed.

Lemma simplefs_read_from_start_witness :
  ∃ s file b, wp (simplefs_read file 4 5) (λ r s', s' = s ∧
      r.1.1 = Z.min (file_size welcome) 4 ∧ r.1.2 = 5 + r.1.1 ∧
      get_bytes 0 r.1.1 b = Some r.2) s.
Proof.
  destruct mounted_sample as (s & p & file & b & R & D & Hq & F). exists s, file, b.
  apply (simplefs_read_from_start s _ file 1 welcome b 4 5 F Hq); done.
Defined.

(** The device of [simplefs_mkfs_mount_read], for whole runs. *)
Definition sample_boot : fs := booted 4096 (content (mkfs_main (mk_file sample_device 0 [])).2).
Definition sample_run {A} (k : inode → M A) (answers : list bool) : outcome A :=
  on_mount (λ root, do! modify (with_faults answers); k root) sample_boot.

(** The bound of 14 is exact: after 14 creations in the root directory,
    which returned 0, one more writes its record outside the directory's
    block. *)
Theorem simplefs_directory_overflow :
  let names := (λ k, [97 + Z.of_nat k]) <$> seq 0 15 in
  sample_run (λ root, create_all root names S_IFREG) [] = Oops ∧
  ∃ s, sample_run (λ root, create_all root (take 14 names) S_IFREG) [] = Ret 0 s.
Proof. split; [by vm_compute|]. eexists. vm_compute. reflexivity. Qed.

(** A signal that interrupts [simplefs_inode_add] at its second mutex
    leaves the first one locked, and the creation that called it then waits
    for that mutex forever. A signal that interrupts the block allocation
    makes it unlock a mutex it does not hold. *)
Theorem simplefs_interrupted_create :
  sample_run (λ root, simplefs_create root [97] S_IFREG)
    (replicate 8 false ++ [true]) = Stuck ∧
  sample_run (λ root, simplefs_create root [97] S_IFREG)
    (replicate 4 false ++ [true]) = Oops.
Proof. split; by vm_compute. Qed.

(** The module does not set the block size, and when the blocks of the device are smaller
    its block 1 is not the inode store: the formatted device mounts, with a root directory
    that has no inode, and the first lookup dereferences NULL. *)
Theorem simplefs_small_blocks :
  let boot := booted 512 (content (mkfs_main (mk_file sample_device 0 [])).2) in
  (∃ s, simplefs_fill_super boot =
     Ret (0, Some (mk_vinode SIMPLEFS_ROOTDIR_INODE_NUMBER S_IFDIR simplefs_dir_operations None)) s) ∧
  on_mount (λ root, simplefs_lookup root welcome_name) boot = Oops.
Proof. split; [eexists|]; by vm_compute. Qed.
