(* ===== verification/Prioq.v ===== *)
(** * systemd: the priority queue

    Models [src/app/multi_process/day1/systemd/src/basic/prioq.c], the binary
    heap behind sd-event's timers and the journal's and network's queues. An
    item is an opaque data pointer and, optionally, the address of an
    [unsigned] in the caller's object that the queue keeps equal to the item's
    position. [items] holds the [n_items] slots in use, [idxs] the memory the
    index pointers refer to. A failed [assert] and an access outside the
    allocated array are [None]; index arithmetic wraps at 32 bits. *)

From S2P Require Import Prelude.
From Stdlib Require Import Permutation Sorted.

#[local] Set Warnings "-clear-no-such-hyp".

(** ** Data *)

Record prioq_item := mk_item {
  data : Z;
  idx : option Z;
}.

Record Prioq := mk_prioq {
  items : list prioq_item;
  n_allocated : Z;
  idxs : gmap Z Z;
}.

Definition n_items (q : Prioq) : nat := length (items q).
Definition with_items (l : list prioq_item) (q : Prioq) : Prioq :=
  mk_prioq l (n_allocated q) (idxs q).

(** An [unsigned] computation on indices. *)
Definition unsigned (z : Z) : nat := Z.to_nat (u32 z).

(** [if (p) *p = k], and [!p || *p == k]. *)
Definition set_idx (p : option Z) (k : nat) (q : Prioq) : Prioq :=
  match p with
  | None => q
  | Some p => mk_prioq (items q) (n_allocated q) (<[p := Z.of_nat k]> (idxs q))
  end.
Definition idx_is (p : option Z) (k : nat) (q : Prioq) : bool :=
  match p with None => true | Some p => bool_decide (idxs q !! p = Some (Z.of_nat k)) end.

(** [prioq_new] in a program whose index words are [mem]. *)
Definition prioq_new (mem : gmap Z Z) : Prioq := mk_prioq [] 0 mem.

Section prioq.
Context (compare_func : Z → Z → Z).

Definition swap (q : Prioq) (j k : nat) : option Prioq :=
  a ← items q !! j; b ← items q !! k;
  if idx_is (idx a) j q && idx_is (idx b) k q then
    Some (set_idx (idx a) k (set_idx (idx b) j
            (with_items (<[k := a]> (<[j := b]> (items q))) q)))
  else None.

(** The loop of [shuffle_up]; [fuel] bounds its iterations, at most the
    starting index. *)
Fixpoint shuffle_up_loop (fuel : nat) (q : Prioq) (i : nat) : option (nat * Prioq) :=
  match i with
  | O => Some (O, q)
  | _ =>
    match fuel with
    | O => None
    | S fuel =>
        let k := ((i - 1) / 2)%nat in
        a ← items q !! k; b ← items q !! i;
        if compare_func (data a) (data b) <=? 0 then Some (i, q)
        else q ← swap q i k; shuffle_up_loop fuel q k
    end
  end.

Definition shuffle_up (q : Prioq) (i : nat) : option (nat * Prioq) :=
  if (i <? n_items q)%nat then shuffle_up_loop i q i else None.

(** The loop of [shuffle_down], at most [n_items] iterations. *)
Fixpoint shuffle_down_loop (fuel : nat) (q : Prioq) (i : nat) : option (nat * Prioq) :=
  match fuel with
  | O => None
  | S fuel =>
      let k := unsigned ((Z.of_nat i + 1) * 2) in
      let j := unsigned (Z.of_nat k - 1) in
      if (n_items q <=? j)%nat then Some (i, q)
      else
        a ← items q !! j; b ← items q !! i;
        let s := if compare_func (data a) (data b) <? 0 then j else i in
        c ← items q !! s;
        let s := match items q !! k with
                 | Some d => if compare_func (data d) (data c) <? 0 then k else s
                 | None => s
                 end in
        if (s =? i)%nat then Some (i, q)
        else q ← swap q i s; shuffle_down_loop fuel q s
  end.

Definition shuffle_down (q : Prioq) (i : nat) : option (nat * Prioq) :=
  shuffle_down_loop (S (n_items q)) q i.

(** [prioq_put]; [oom] is whether [reallocarray] fails. *)
Definition prioq_put (q : Prioq) (d : Z) (p : option Z) (oom : bool) : option (Z * Prioq) :=
  let grow := Z.of_nat (n_items q) >=? n_allocated q in
  if grow && oom then Some (- ENOMEM, q)
  else
    let n := if grow then Z.max (u32 ((Z.of_nat (n_items q) + 1) * 2)) 16 else n_allocated q in
    let k := n_items q in
    if Z.of_nat k <? n then
      let q := mk_prioq (items q ++ [mk_item d p]) n (idxs q) in
      r ← shuffle_up (set_idx p k q) k;
      Some (0, r.2)
    else None.

(** [remove_item] of the item in slot [i]. *)
Definition remove_item (q : Prioq) (i : nat) : option Prioq :=
  let l := (n_items q - 1)%nat in
  if (i =? l)%nat then Some (with_items (take l (items q)) q)
  else
    last ← items q !! l;
    let q := set_idx (idx last) i (with_items (take l (<[i := last]> (items q))) q) in
    r ← shuffle_down q i;
    r ← shuffle_up r.2 r.1;
    Some r.2.

(** [find_item]: the slot of the item, if any; the outer [None] is a read of
    an index pointer that is not mapped. *)
Fixpoint find_data (l : list prioq_item) (d : Z) : option nat :=
  match l with
  | [] => None
  | x :: l => if data x =? d then Some O else S <$> find_data l d
  end.

Definition PRIOQ_IDX_NULL : Z := u32 (-1).

Definition find_item (q : Prioq) (d : Z) (p : option Z) : option (option nat) :=
  if (n_items q =? 0)%nat then Some None
  else
    match p with
    | Some p =>
        k ← idxs q !! p;
        if (k =? PRIOQ_IDX_NULL) || (k >=? Z.of_nat (n_items q)) then Some None
        else
          x ← items q !! Z.to_nat k;
          Some (if data x =? d then Some (Z.to_nat k) else None)
    | None => Some (find_data (items q) d)
    end.

Definition prioq_remove (q : Prioq) (d : Z) (p : option Z) : option (Z * Prioq) :=
  i ← find_item q d p;
  match i with
  | None => Some (0, q)
  | Some i => q ← remove_item q i; Some (1, q)
  end.

Definition prioq_reshuffle (q : Prioq) (d : Z) (p : option Z) : option (Z * Prioq) :=
  i ← find_item q d p;
  match i with
  | None => Some (0, q)
  | Some k =>
      r ← shuffle_down q k;
      r ← shuffle_up r.2 r.1;
      Some (1, r.2)
  end.

Definition prioq_peek_by_index (q : Prioq) (i : nat) : option Z := data <$> items q !! i.

Definition prioq_pop (q : Prioq) : option (option Z * Prioq) :=
  match items q with
  | [] => Some (None, q)
  | x :: _ => q ← remove_item q 0; Some (Some (data x), q)
  end.

Definition prioq_size (q : Prioq) : nat := n_items q.
Definition prioq_isempty (q : Prioq) : bool := (n_items q =? 0)%nat.

End prioq.

(** ** The comparison function *)

(** What the queue relies on its caller's comparison for: a total preorder,
    the two argument orders giving opposite signs. *)
Class TotalCompare (cmp : Z → Z → Z) : Prop := {
  cmp_sign : ∀ x y, Z.sgn (cmp x y) = - Z.sgn (cmp y x);
  cmp_trans : ∀ x y z, cmp x y ≤ 0 → cmp y z ≤ 0 → cmp x z ≤ 0;
}.

(** Comparison of the data values themselves, and of keys. *)
#[export] Instance compare_sub_total : TotalCompare Z.sub.
Proof. split; intros; [rewrite <- Z.sgn_opp; f_equal|]; lia. Qed.

(** ** Lists as heaps *)

Section heap.
Context (cmp : Z → Z → Z) `{!TotalCompare cmp}.
Implicit Types l : list Z.

Definition parent (i : nat) : nat := ((i - 1) / 2)%nat.

(** The items in slots [a] and [b], where there are such, are in order. *)
Definition le_at l (a b : nat) : Prop :=
  ∀ x y, l !! a = Some x → l !! b = Some y → cmp x y ≤ 0.

Definition heap l : Prop := ∀ c, (0 < c)%nat → le_at l (parent c) c.

(** A heap but for the item in slot [i], on both sides or towards its parent. *)
Definition heap_around l (i : nat) : Prop :=
  (∀ c, (0 < c)%nat → c ≠ i → parent c ≠ i → le_at l (parent c) c) ∧
  (∀ c, (0 < c)%nat → (0 < i)%nat → parent c = i → le_at l (parent i) c).
Definition heap_below l (i : nat) : Prop :=
  (∀ c, (0 < c)%nat → c ≠ i → le_at l (parent c) c) ∧
  (∀ c, (0 < c)%nat → (0 < i)%nat → parent c = i → le_at l (parent i) c).

Lemma cmp_flip x y : ¬ cmp x y ≤ 0 → cmp y x ≤ 0.
Proof. intros H. pose proof (cmp_sign x y). lia. Qed.
Lemma cmp_flip_lt x y : ¬ cmp x y < 0 → cmp y x ≤ 0.
Proof. intros H. pose proof (cmp_sign x y). lia. Qed.
Lemma cmp_refl x : cmp x x ≤ 0.
Proof. pose proof (cmp_sign x x). lia. Qed.

Lemma parent_lt c : (0 < c)%nat → (parent c < c)%nat.
Proof. intros. unfold parent. apply Nat.Div0.div_lt_upper_bound; lia. Qed.

Lemma parent_children c i :
  (0 < c)%nat → parent c = i ↔ c = (2 * i + 1)%nat ∨ c = (2 * i + 2)%nat.
Proof.
  intros Hc. unfold parent. pose proof (Nat.div_mod (c - 1) 2).
  pose proof (Nat.mod_upper_bound (c - 1) 2). lia.
Qed.

Lemma heap_around_heap l i : heap l → heap_around l i.
Proof.
  intros H. split; [by intros; apply H|]. intros c Hc Hi Hp x y Hx Hy.
  destruct (l !! i) as [z|] eqn:Ez.
  - eapply cmp_trans; [by apply (H i Hi x z)|]. apply (H c Hc); [by rewrite Hp|done].
  - apply lookup_ge_None in Ez. apply lookup_lt_Some in Hy.
    pose proof (parent_lt c Hc). lia.
Qed.

(** The root of a heap is least. *)
Lemma heap_root l x : heap l → l !! 0%nat = Some x → ∀ i y, l !! i = Some y → cmp x y ≤ 0.
Proof.
  intros H Hx i. induction (lt_wf i) as [i _ IH]. intros y Hy.
  destruct (decide (i = 0%nat)) as [->|]; [simplify_eq; apply cmp_refl|].
  destruct (lookup_lt_is_Some_2 l (parent i)) as [z Hz].
  { apply lookup_lt_Some in Hy. pose proof (parent_lt i). lia. }
  eapply cmp_trans; [eapply IH; [apply parent_lt; lia|exact Hz]|]. by apply (H i); [lia| |].
Qed.

Lemma heap_nil : heap [].
Proof. intros c _ x y Hx. by rewrite lookup_nil in Hx. Qed.

Lemma heap_take l n : heap l → heap (take n l).
Proof.
  intros H c Hc x y Hx Hy. apply lookup_take_Some in Hx as [Hx _], Hy as [Hy _].
  by eapply H.
Qed.

(** The exchange of two slots. *)
Lemma lookup_exchange {A} (l : list A) j k a b n :
  l !! j = Some a → l !! k = Some b → j ≠ k →
  <[k := a]> (<[j := b]> l) !! n =
    if decide (n = k) then Some a else if decide (n = j) then Some b else l !! n.
Proof.
  intros Hj Hk Hne. apply lookup_lt_Some in Hj, Hk. repeat case_decide; subst.
  - apply list_lookup_insert_eq. by rewrite length_insert.
  - rewrite list_lookup_insert_ne by done. by apply list_lookup_insert_eq.
  - by rewrite !list_lookup_insert_ne by done.
Qed.

Lemma exchange_perm {A} (l : list A) j k a b :
  l !! j = Some a → l !! k = Some b → j ≠ k → <[k := a]> (<[j := b]> l) ≡ₚ l.
Proof.
  intros Hj Hk Hne. apply Permutation_inj. split; [by rewrite !length_insert|].
  exists (λ n, if decide (n = k) then j else if decide (n = j) then k else n). split.
  - intros x y. repeat case_decide; congruence.
  - intros n. rewrite lookup_exchange by done. repeat case_decide; congruence.
Qed.

(** Case analysis on the slots an order after an exchange is about. *)
Ltac exchange_cases Hj Hk :=
  intros ?x ?y; rewrite !(lookup_exchange _ _ _ _ _ _ Hj Hk) by lia;
  repeat case_decide; intros ?Hx ?Hy; simplify_eq; try lia.

Lemma heap_up_step l i x y :
  heap_below l i → (0 < i)%nat → l !! i = Some y → l !! parent i = Some x → cmp y x ≤ 0 →
  heap_below (<[parent i := y]> (<[i := x]> l)) (parent i).
Proof.
  intros [Ha Hb] Hi Hy Hx Hyx. pose proof (parent_lt i Hi). split.
  - intros c Hc Hne. pose proof (parent_lt c Hc). exchange_cases Hy Hx.
    + eapply cmp_trans; [exact Hyx|]. by eapply (Ha c); [|lia|congruence|].
    + by eapply (Hb c).
    + by eapply (Ha c).
  - intros c Hc Hp Hpc. pose proof (parent_lt (parent i) Hp). exchange_cases Hy Hx.
    + by eapply (Ha (parent i)); [|lia| |].
    + eapply cmp_trans; [by eapply (Ha (parent i)); [|lia| |]|].
      by eapply (Ha c); [|lia|congruence|].
Qed.

Lemma heap_down_step l i s y z :
  heap_around l i → (0 < s)%nat → parent s = i → l !! i = Some y → l !! s = Some z →
  cmp z y ≤ 0 → (∀ c, (0 < c)%nat → parent c = i → le_at l s c) →
  heap_around (<[s := y]> (<[i := z]> l)) s.
Proof.
  intros [Ha Hb] Hs Hp Hy Hz Hzy Hmin. pose proof (parent_lt s Hs). split.
  - intros c Hc Hne Hpc. pose proof (parent_lt c Hc).
    exchange_cases Hy Hz.
    + by eapply (Hmin c).
    + eapply (Hb s); [lia|lia|done| |done]. done.
    + by eapply (Ha c).
  - intros c Hc _ Hpc. pose proof (parent_lt c Hc).
    exchange_cases Hy Hz. eapply (Ha c); [lia..| |done]. congruence.
Qed.

Lemma heap_below_of_around l i :
  heap_around l i → (∀ c, (0 < c)%nat → parent c = i → le_at l i c) → heap_below l i.
Proof.
  intros [Ha Hb] Hc. split; [|done]. intros c Hc0 Hne.
  destruct (decide (parent c = i)) as [E|]; [rewrite E; by apply Hc|by apply Ha].
Qed.

Lemma heap_of_below l i :
  heap_below l i → (i = 0%nat ∨ le_at l (parent i) i) → heap l.
Proof.
  intros [Ha _] Hi c Hc. destruct (decide (c = i)) as [->|]; [|by apply Ha].
  destruct Hi as [->|]; [lia|done].
Qed.

End heap.

(** ** The queue's invariant *)

Definition keys (q : Prioq) : list Z := data <$> items q.

(** Every index word the items refer to holds the item's position. *)
Definition idx_ok (q : Prioq) : Prop :=
  ∀ i x p, items q !! i = Some x → idx x = Some p → idxs q !! p = Some (Z.of_nat i).

(** The largest number of items for which the index arithmetic is exact. *)
Definition PRIOQ_MAX : Z := 2 ^ 31 - 1.

Record prioq_wf (cmp : Z → Z → Z) (q : Prioq) : Prop := {
  wf_heap : heap cmp (keys q);
  wf_idx : idx_ok q;
  wf_alloc : Z.of_nat (n_items q) ≤ n_allocated q;
  wf_max : Z.of_nat (n_items q) ≤ PRIOQ_MAX;
}.

(** The same items, some moved; no other index word touched. *)
Record moved (q q' : Prioq) : Prop := {
  mv_items : items q' ≡ₚ items q;
  mv_alloc : n_allocated q' = n_allocated q;
  mv_idx : idx_ok q';
  mv_frame : ∀ p, Some p ∉ idx <$> items q → idxs q' !! p = idxs q !! p;
}.

Lemma moved_refl q : idx_ok q → moved q q.
Proof. by split. Qed.

Lemma moved_trans q1 q2 q3 : moved q1 q2 → moved q2 q3 → moved q1 q3.
Proof.
  intros [Hi Ha _ Hf] [Hi' Ha' Hx' Hf']. split; [by etrans|congruence|done|].
  intros p Hp. rewrite Hf', Hf; [done..|]. by rewrite Hi.
Qed.

Lemma moved_length q q' : moved q q' → n_items q' = n_items q.
Proof. intros [H _ _ _]. unfold n_items. by rewrite H. Qed.

Lemma items_set_idx p k q : items (set_idx p k q) = items q.
Proof. by destruct p. Qed.
Lemma alloc_set_idx p k q : n_allocated (set_idx p k q) = n_allocated q.
Proof. by destruct p. Qed.
Lemma idxs_set_idx p k q r :
  idxs (set_idx p k q) !! r = if decide (p = Some r) then Some (Z.of_nat k) else idxs q !! r.
Proof.
  destruct p as [p|]; simpl; [|done]. rewrite lookup_insert.
  repeat case_decide; congruence.
Qed.

Lemma lookup_keys q i x : items q !! i = Some x → keys q !! i = Some (data x).
Proof. intros H. unfold keys. by rewrite list_lookup_fmap, H. Qed.

(** Distinct items have distinct index words. *)
Lemma idx_ok_inj q i j x y p :
  idx_ok q → items q !! i = Some x → items q !! j = Some y →
  idx x = Some p → idx y = Some p → i = j.
Proof.
  intros Hq Hi Hj Hx Hy. pose proof (Hq _ _ _ Hi Hx). pose proof (Hq _ _ _ Hj Hy).
  assert (Z.of_nat i = Z.of_nat j) by congruence. lia.
Qed.

Lemma swap_spec q j k a b :
  items q !! j = Some a → items q !! k = Some b → j ≠ k → idx_ok q →
  ∃ q', swap q j k = Some q' ∧ items q' = <[k := a]> (<[j := b]> (items q)) ∧ moved q q'.
Proof.
  intros Ha Hb Hne Hq. unfold swap. rewrite Ha, Hb. simpl.
  assert (∀ i x, items q !! i = Some x → idx_is (idx x) i q = true) as Hidx.
  { intros i x Hx. unfold idx_is. destruct (idx x) eqn:E; [|done].
    apply bool_decide_true. by eapply Hq. }
  rewrite !Hidx by done. simpl. eexists. split; [done|].
  rewrite !items_set_idx. split; [done|]. split.
  - rewrite !items_set_idx. by apply exchange_perm.
  - by rewrite !alloc_set_idx.
  - intros i x p. rewrite !items_set_idx, !idxs_set_idx. cbn [items with_items idxs].
    rewrite (lookup_exchange _ _ _ _ _ _ Ha Hb Hne).
    repeat (case_decide; simplify_eq); intros Hi Hp; simplify_eq/=; try congruence; try done.
    + by destruct (idx_ok_inj q j k a x p).
    + by destruct (idx_ok_inj q i j x a p).
    + by destruct (idx_ok_inj q i k x b p).
    + by eapply Hq.
  - intros p Hp. rewrite !idxs_set_idx. rewrite !decide_False; [done| |].
    + intros E. apply Hp. rewrite <- E. apply list_elem_of_fmap.
      eauto using list_elem_of_lookup_2.
    + intros E. apply Hp. rewrite <- E. apply list_elem_of_fmap.
      eauto using list_elem_of_lookup_2.
Qed.

Lemma keys_exchange q q' j k a b :
  items q' = <[k := a]> (<[j := b]> (items q)) →
  keys q' = <[k := data a]> (<[j := data b]> (keys q)).
Proof. intros E. unfold keys. by rewrite E, !list_fmap_insert. Qed.

(** ** Shuffling *)

Section shuffle.
Context (cmp : Z → Z → Z) `{!TotalCompare cmp}.

Lemma shuffle_up_loop_spec fuel : ∀ q i,
  (i ≤ fuel)%nat → (i < n_items q)%nat → idx_ok q → heap_below cmp (keys q) i →
  ∃ i' q', shuffle_up_loop cmp fuel q i = Some (i', q') ∧ moved q q' ∧ heap cmp (keys q').
Proof.
  induction fuel as [|fuel IH]; intros q i Hfuel Hi Hq Hh.
  - assert (i = 0%nat) as -> by lia. exists 0%nat, q. split; [done|].
    split; [by apply moved_refl|]. eapply heap_of_below; eauto.
  - destruct (decide (i = 0%nat)) as [->|Hi0].
    { exists 0%nat, q. split; [done|]. split; [by apply moved_refl|].
      eapply heap_of_below; eauto. }
    assert (shuffle_up_loop cmp (S fuel) q i =
      (a ← items q !! parent i; b ← items q !! i;
       if cmp (data a) (data b) <=? 0 then Some (i, q)
       else q ← swap q i (parent i); shuffle_up_loop cmp fuel q (parent i))) as ->
      by (by destruct i).
    pose proof (parent_lt i). unfold n_items in *.
    destruct (lookup_lt_is_Some_2 (items q) (parent i)) as [a Ha]; [lia|].
    destruct (lookup_lt_is_Some_2 (items q) i) as [b Hb]; [lia|].
    rewrite Ha, Hb. simpl. pose proof (lookup_keys _ _ _ Ha) as Ka.
    pose proof (lookup_keys _ _ _ Hb) as Kb.
    destruct (cmp (data a) (data b) <=? 0) eqn:E; reflect_bools.
    + exists i, q. split; [done|]. split; [by apply moved_refl|].
      eapply heap_of_below; [exact Hh|]. right. intros x y Hx Hy. congruence.
    + destruct (swap_spec q i (parent i) b a Hb Ha ltac:(lia) Hq) as (q1 & -> & Eq1 & Hm).
      simpl. pose proof (moved_length _ _ Hm) as Hlen. unfold n_items in Hlen.
      destruct (IH q1 (parent i)) as (i' & q' & -> & Hm' & Hh'); [lia|lia|apply Hm| |].
      * rewrite (keys_exchange _ _ _ _ _ _ Eq1).
        apply heap_up_step; try done; [lia|]. apply cmp_flip; [done|lia].
      * exists i', q'. split; [done|]. split; [by eapply moved_trans|done].
Qed.

Lemma shuffle_up_spec q i :
  (i < n_items q)%nat → idx_ok q → heap_below cmp (keys q) i →
  ∃ i' q', shuffle_up cmp q i = Some (i', q') ∧ moved q q' ∧ heap cmp (keys q').
Proof.
  intros Hi Hq Hh. unfold shuffle_up. rewrite (proj2 (Nat.ltb_lt _ _)) by done.
  by apply shuffle_up_loop_spec.
Qed.

Lemma unsigned_small z : 0 ≤ z < 2 ^ 32 → unsigned z = Z.to_nat z.
Proof. intros. unfold unsigned. by rewrite wrapu_small. Qed.

(** The child [shuffle_down] goes to: the least of the item and its children. *)
Definition smallest (q : Prioq) (i : nat) : option nat :=
  let j := (2 * i + 1)%nat in
  let k := (2 * i + 2)%nat in
  a ← items q !! j; b ← items q !! i;
  let s := if cmp (data a) (data b) <? 0 then j else i in
  c ← items q !! s;
  Some (match items q !! k with
        | Some d => if cmp (data d) (data c) <? 0 then k else s
        | None => s
        end).

Lemma shuffle_down_loop_eq fuel q i :
  (i < n_items q)%nat → Z.of_nat (n_items q) ≤ PRIOQ_MAX →
  shuffle_down_loop cmp (S fuel) q i =
    if (n_items q <=? 2 * i + 1)%nat then Some (i, q)
    else s ← smallest q i;
         if (s =? i)%nat then Some (i, q)
         else q ← swap q i s; shuffle_down_loop cmp fuel q s.
Proof.
  unfold PRIOQ_MAX. intros Hi Hmax. cbn [shuffle_down_loop].
  rewrite (unsigned_small ((Z.of_nat i + 1) * 2)) by lia.
  replace (Z.to_nat ((Z.of_nat i + 1) * 2)) with (2 * i + 2)%nat by lia.
  rewrite unsigned_small by lia.
  replace (Z.to_nat (Z.of_nat (2 * i + 2) - 1)) with (2 * i + 1)%nat by lia.
  destruct (_ <=? _)%nat; [done|]. unfold smallest.
  destruct (items q !! (2 * i + 1)%nat) as [a|]; [|done]. cbn [mbind option_bind].
  destruct (items q !! i) as [b|]; [|done]. cbn [mbind option_bind].
  by destruct (items q !! (if cmp (data a) (data b) <? 0 then (2 * i + 1)%nat else i)).
Qed.

(** It is the item itself or one of its children, and least of the three. *)
Lemma smallest_spec q i b :
  (2 * i + 1 < n_items q)%nat → items q !! i = Some b →
  ∃ s c, smallest q i = Some s ∧ items q !! s = Some c ∧
    (s = i ∨ parent s = i ∧ (0 < s)%nat) ∧ cmp (data c) (data b) ≤ 0 ∧
    ∀ ch, (0 < ch)%nat → parent ch = i → le_at cmp (keys q) s ch.
Proof.
  intros Hj Hb. unfold smallest, n_items in *.
  destruct (lookup_lt_is_Some_2 (items q) (2 * i + 1)) as [a Ha]; [lia|].
  rewrite Ha, Hb. cbn [mbind option_bind].
  pose proof (proj2 (parent_children (2 * i + 1) i ltac:(lia)) (or_introl eq_refl)) as P1.
  pose proof (proj2 (parent_children (2 * i + 2) i ltac:(lia)) (or_intror eq_refl)) as P2.
  set (s1 := if cmp (data a) (data b) <? 0 then (2 * i + 1)%nat else i).
  assert (∃ c, items q !! s1 = Some c ∧ (s1 = i ∨ parent s1 = i ∧ (0 < s1)%nat) ∧
    cmp (data c) (data b) ≤ 0 ∧ cmp (data c) (data a) ≤ 0) as (c & Hc & Hs & Hcb & Hca).
  { unfold s1. destruct (cmp (data a) (data b) <? 0) eqn:E; reflect_bools.
    - exists a. split_and!; [done|lia|lia|by apply cmp_refl].
    - exists b. split_and!; [done|by left|by apply cmp_refl|apply cmp_flip_lt; [done|lia]]. }
  fold s1. rewrite Hc. cbn [mbind option_bind].
  assert (∀ s x, items q !! s = Some x → cmp (data x) (data a) ≤ 0 →
    (∀ d, items q !! (2 * i + 2)%nat = Some d → cmp (data x) (data d) ≤ 0) →
    ∀ ch, (0 < ch)%nat → parent ch = i → le_at cmp (keys q) s ch) as Hle.
  { intros s x Hx Hxa Hxd ch Hch Hp u v Hu Hv. rewrite (lookup_keys _ _ _ Hx) in Hu.
    unfold keys in Hv. rewrite list_lookup_fmap in Hv.
    rewrite parent_children in Hp by done. destruct Hp as [-> | ->].
    - rewrite Ha in Hv. by simplify_eq/=.
    - destruct (items q !! (2 * i + 2)%nat) as [d|]; simplify_eq/=. by apply Hxd. }
  destruct (items q !! (2 * i + 2)%nat) as [d|] eqn:Hd.
  - destruct (cmp (data d) (data c) <? 0) eqn:E; reflect_bools.
    + exists (2 * i + 2)%nat, d. split_and!; [done|done|lia| |].
      * eapply cmp_trans; [|exact Hcb]. lia.
      * eapply Hle; [done| |intros; simplify_eq; by apply cmp_refl].
        eapply cmp_trans; [|exact Hca]. lia.
    + exists s1, c. split_and!; try done. eapply Hle; [done..|]. intros d' [= <-].
      apply cmp_flip_lt; [done|lia].
  - exists s1, c. split_and!; try done. by eapply Hle.
Qed.

Lemma shuffle_down_loop_spec fuel : ∀ q i,
  (n_items q ≤ fuel + i)%nat → (i < n_items q)%nat → Z.of_nat (n_items q) ≤ PRIOQ_MAX →
  idx_ok q → heap_around cmp (keys q) i →
  ∃ i' q', shuffle_down_loop cmp (S fuel) q i = Some (i', q') ∧ moved q q' ∧
    (i' < n_items q)%nat ∧ heap_below cmp (keys q') i'.
Proof.
  induction fuel as [|fuel IH]; intros q i Hfuel Hi Hmax Hq Hh; [lia|].
  rewrite shuffle_down_loop_eq by done. destruct (n_items q <=? 2 * i + 1)%nat eqn:E.
  - apply Nat.leb_le in E. exists i, q. split; [done|]. split; [by apply moved_refl|].
    split; [done|]. apply heap_below_of_around; [done|]. intros c Hc Hp x y _ Hy.
    apply lookup_lt_Some in Hy. unfold keys in Hy. rewrite length_fmap in Hy.
    rewrite parent_children in Hp by done. unfold n_items in E. lia.
  - apply Nat.leb_gt in E.
    destruct (lookup_lt_is_Some_2 (items q) i) as [b Hb]; [done|].
    destruct (smallest_spec q i b E Hb) as (s & c & -> & Hc & Hs & Hcb & Hmin).
    cbn [mbind option_bind].
    destruct (s =? i)%nat eqn:Es.
    + apply Nat.eqb_eq in Es as ->. exists i, q. split; [done|].
      split; [by apply moved_refl|]. split; [done|]. by apply heap_below_of_around.
    + apply Nat.eqb_neq in Es. destruct Hs as [|[Hp Hs0]]; [done|].
      pose proof (parent_lt s Hs0).
      destruct (swap_spec q i s b c Hb Hc ltac:(lia) Hq) as (q1 & -> & Eq1 & Hm).
      cbn [mbind option_bind].
      pose proof (moved_length _ _ Hm) as Hlen. pose proof (lookup_lt_Some _ _ _ Hc).
      destruct (IH q1 s) as (i' & q' & -> & Hm' & Hi' & Hh');
        rewrite ?Hlen; try done; [lia|apply Hm| |].
      * rewrite (keys_exchange _ _ _ _ _ _ Eq1).
        by apply (heap_down_step cmp (keys q) i s (data b) (data c)); auto using lookup_keys.
      * exists i', q'. split; [done|]. split; [by eapply moved_trans|].
        split; [by rewrite <- Hlen|done].
Qed.

(** [shuffle_down] then [shuffle_up], as removal and reshuffling do. *)
Lemma shuffle_spec q i :
  (i < n_items q)%nat → Z.of_nat (n_items q) ≤ PRIOQ_MAX → idx_ok q →
  heap_around cmp (keys q) i →
  ∃ r1 r2, shuffle_down cmp q i = Some r1 ∧ shuffle_up cmp r1.2 r1.1 = Some r2 ∧
    moved q r2.2 ∧ heap cmp (keys r2.2).
Proof.
  intros Hi Hmax Hq Hh.
  destruct (shuffle_down_loop_spec (n_items q) q i) as (i1 & q1 & E1 & M1 & Hi1 & Hh1);
    try done; [lia|].
  destruct (shuffle_up_spec q1 i1) as (i2 & q2 & E2 & M2 & Hh2); try done.
  - by rewrite (moved_length _ _ M1).
  - apply M1.
  - exists (i1, q1), (i2, q2). split_and!; try done. by eapply moved_trans.
Qed.

End shuffle.

(** ** Operations *)

Section operations.
Context (cmp : Z → Z → Z) `{!TotalCompare cmp}.

Lemma heap_around_insert l i v : heap cmp l → heap_around cmp (<[i := v]> l) i.
Proof.
  intros Hh. split.
  - intros c Hc Hne Hp x y. rewrite !list_lookup_insert_ne by done. by apply Hh.
  - intros c Hc Hi Hp x y. pose proof (parent_lt i Hi). pose proof (parent_lt c Hc).
    rewrite !list_lookup_insert_ne by lia. by apply (heap_around_heap cmp l i Hh).
Qed.

Lemma heap_around_take l i n : heap_around cmp l i → heap_around cmp (take n l) i.
Proof.
  intros [Ha Hb]. split; intros c H1 H2 H3 x y Hx Hy;
    apply lookup_take_Some in Hx as [Hx _], Hy as [Hy _]; [by apply (Ha c H1 H2 H3)|by apply (Hb c H1 H2 H3)].
Qed.

(** Appending to a heap breaks only the order towards the new slot's parent. *)
Lemma heap_below_app l v : heap cmp l → heap_below cmp (l ++ [v]) (length l).
Proof.
  intros Hh. split.
  - intros c Hc Hne x y Hx Hy. assert (c < length l)%nat.
    { apply lookup_lt_Some in Hy. rewrite length_app in Hy. simpl in Hy. lia. }
    pose proof (parent_lt c Hc). rewrite lookup_app_l in Hx, Hy by lia. by eapply Hh.
  - intros c Hc _ Hp x y _ Hy. apply lookup_lt_Some in Hy. rewrite length_app in Hy.
    pose proof (parent_lt c Hc). simpl in Hy. lia.
Qed.

(** [replaced] is the removal of slot [i] by moving the last item there. *)
Lemma replace_last_perm {A} (l : list A) i (x y : A) :
  l !! i = Some x → l !! (length l - 1)%nat = Some y → i ≠ (length l - 1)%nat →
  x :: take (length l - 1) (<[i := y]> l) ≡ₚ l.
Proof.
  intros Hi Hy Hne. pose proof (lookup_lt_Some _ _ _ Hi) as Hlt.
  assert (i < length l - 1)%nat as Hi' by lia.
  rewrite <- (take_drop_middle l i x Hi) at 3.
  rewrite (insert_take_drop l i y Hlt), take_app, length_take, take_take.
  rewrite !Nat.min_r by lia. rewrite Nat.min_l by lia.
  replace (length l - 1 - i)%nat with (S (length l - 2 - i)) by lia. simpl.
  assert (drop (S i) l = take (length l - 2 - i) (drop (S i) l) ++ [y]) as E.
  { rewrite <- (take_drop (length l - 2 - i) (drop (S i) l)) at 1. f_equal.
    rewrite drop_drop. replace (S i + (length l - 2 - i))%nat with (length l - 1)%nat by lia.
    rewrite (drop_S l y) by done. by rewrite drop_ge by lia. }
  rewrite E at 2. rewrite (Permutation_app_comm (take (length l - 2 - i) _) [y]).
  apply Permutation_middle.
Qed.

Lemma take_last_perm {A} (l : list A) (x : A) :
  l !! (length l - 1)%nat = Some x → x :: take (length l - 1) l ≡ₚ l.
Proof.
  intros Hx. pose proof (lookup_lt_Some _ _ _ Hx). rewrite Permutation_cons_append.
  by rewrite <- (take_S_r _ _ _ Hx), take_ge by lia.
Qed.

(** Removal of the item in a slot: the rest stays a queue, with its index
    words right and no other written. *)
Lemma remove_item_spec q i x :
  prioq_wf cmp q → items q !! i = Some x →
  ∃ q', remove_item cmp q i = Some q' ∧ prioq_wf cmp q' ∧ x :: items q' ≡ₚ items q ∧
    ∀ p, Some p ∉ idx <$> items q' → idxs q' !! p = idxs q !! p.
Proof.
  intros [Hh Hx Ha Hm] Hi. pose proof (lookup_lt_Some _ _ _ Hi) as Hlt.
  unfold remove_item, n_items in *. destruct (i =? _)%nat eqn:E.
  - apply Nat.eqb_eq in E. eexists. split; [done|]. simpl. split; [|split; [|done]].
    + assert (length (take (length (items q) - 1) (items q)) ≤ length (items q))%nat
        by (rewrite length_take; lia).
      split; unfold keys, n_items; simpl; [|intros j y p Hj Hp| lia..].
      * rewrite fmap_take. by apply heap_take.
      * apply lookup_take_Some in Hj as [Hj _]. by eapply Hx.
    + apply take_last_perm. by rewrite <- E.
  - apply Nat.eqb_neq in E.
    destruct (lookup_lt_is_Some_2 (items q) (length (items q) - 1)) as [y Hy]; [lia|].
    rewrite Hy. cbn [mbind option_bind].
    set (q1 := set_idx _ _ _).
    assert (items q1 = take (length (items q) - 1) (<[i := y]> (items q))) as E1
      by (unfold q1; by rewrite items_set_idx).
    assert (n_items q1 = (length (items q) - 1)%nat) as El
      by (unfold n_items; rewrite E1, length_take, length_insert; lia).
    assert (idx_ok q1) as Hx1.
    { intros j z p Hj Hp. rewrite E1 in Hj. apply lookup_take_Some in Hj as [Hj Hjlt].
      unfold q1. rewrite idxs_set_idx. destruct (decide (i = j)) as [<-|Hne].
      - rewrite list_lookup_insert_eq in Hj by done. simplify_eq. by rewrite decide_True.
      - rewrite list_lookup_insert_ne in Hj by done. case_decide as Hyp; [|by eapply Hx].
        pose proof (idx_ok_inj q _ _ _ _ _ Hx Hj Hy Hp Hyp). lia. }
    destruct (shuffle_spec cmp q1 i) as (r1 & r2 & -> & E2 & M & Hh2).
    { lia. } { unfold n_items in *. lia. } { done. }
    { unfold keys. rewrite E1, fmap_take, list_fmap_insert.
      by apply heap_around_take, heap_around_insert. }
    cbn [mbind option_bind]. rewrite E2. cbn [mbind option_bind].
    pose proof (moved_length _ _ M) as Hl2.
    eexists. split; [done|]. split; [|split].
    + split; [done|apply M|..]; rewrite Hl2, El; [|lia].
      rewrite (mv_alloc _ _ M). unfold q1. rewrite alloc_set_idx. simpl. lia.
    + rewrite (mv_items _ _ M), E1. by apply replace_last_perm.
    + intros p Hp. rewrite (mv_items _ _ M) in Hp. rewrite (mv_frame _ _ M) by done.
      unfold q1. rewrite idxs_set_idx, decide_False; [done|]. intros Hyp. apply Hp.
      rewrite E1, <- Hyp. apply list_elem_of_fmap. exists y. split; [done|].
      apply (list_elem_of_lookup_2 _ i). apply lookup_take_Some. split; [|lia].
      by apply list_lookup_insert_eq.
Qed.

Lemma put_spec q d p :
  prioq_wf cmp q → Z.of_nat (n_items q) < PRIOQ_MAX →
  (∀ r, p = Some r → Some r ∉ idx <$> items q) →
  ∃ q', prioq_put cmp q d p false = Some (0, q') ∧ prioq_wf cmp q' ∧
    items q' ≡ₚ mk_item d p :: items q ∧
    ∀ r, Some r ∉ idx <$> items q' → idxs q' !! r = idxs q !! r.
Proof.
  intros [Hh Hx Ha Hm] Hn Hp. unfold prioq_put. rewrite andb_false_r.
  set (n := if Z.of_nat (n_items q) >=? n_allocated q then _ else n_allocated q).
  assert (Z.of_nat (n_items q) < n) as Hcap.
  { unfold n, PRIOQ_MAX in *. destruct (Z.of_nat (n_items q) >=? n_allocated q) eqn:E.
    - rewrite wrapu_small by lia. lia.
    - destruct (Z.geb_spec (Z.of_nat (n_items q)) (n_allocated q)); [done|lia]. }
  rewrite (proj2 (Z.ltb_lt _ _)) by done.
  set (q1 := set_idx p (n_items q) _).
  assert (items q1 = items q ++ [mk_item d p]) as E1 by (unfold q1; by rewrite items_set_idx).
  assert (n_items q1 = S (n_items q)) as El
    by (unfold n_items; rewrite E1, length_app; simpl; lia).
  destruct (shuffle_up_spec cmp q1 (n_items q)) as (i' & q' & -> & M & Hh').
  - lia.
  - intros j z r Hj Hr. rewrite E1 in Hj. unfold q1. rewrite idxs_set_idx.
    apply lookup_app_Some in Hj as [Hj|[Hge Hj]].
    + rewrite decide_False; [by eapply Hx|]. intros Hpr. apply (Hp r Hpr).
      rewrite <- Hr. apply list_elem_of_fmap. eauto using list_elem_of_lookup_2.
    + apply list_lookup_singleton_Some in Hj as [Hj <-]. simpl in Hr.
      rewrite decide_True by done. do 2 f_equal. unfold n_items. lia.
  - unfold keys. rewrite E1, fmap_app. unfold n_items. rewrite <- (length_fmap data).
    by apply heap_below_app.
  - simpl. pose proof (moved_length _ _ M) as Hl'. exists q'. split; [done|]. split; [|split].
    + split; [done|apply M|..]; rewrite Hl', El; [|lia].
      rewrite (mv_alloc _ _ M). unfold q1. rewrite alloc_set_idx. simpl. lia.
    + rewrite (mv_items _ _ M), E1. symmetry. apply Permutation_cons_append.
    + intros r Hr. rewrite (mv_items _ _ M) in Hr. rewrite (mv_frame _ _ M) by done.
      unfold q1. rewrite idxs_set_idx, decide_False; [done|]. intros ->. apply Hr.
      rewrite E1, fmap_app. set_solver.
Qed.

End operations.

(** ** Properties *)

(** Puts the data of a list, without index words. *)
Fixpoint put_all (cmp : Z → Z → Z) (q : Prioq) (ds : list Z) : option Prioq :=
  match ds with
  | [] => Some q
  | d :: ds => r ← prioq_put cmp q d None false; put_all cmp r.2 ds
  end.

(** Pops until the queue is empty, at most [n] times. *)
Fixpoint pop_all (cmp : Z → Z → Z) (n : nat) (q : Prioq) : option (list Z * Prioq) :=
  match n with
  | O => Some ([], q)
  | S n =>
      r ← prioq_pop cmp q;
      match r.1 with
      | None => Some ([], r.2)
      | Some d => rest ← pop_all cmp n r.2; Some (d :: rest.1, rest.2)
      end
  end.

Section results.
Context (cmp : Z → Z → Z) `{!TotalCompare cmp}.

Lemma pop_spec q :
  prioq_wf cmp q → items q ≠ [] →
  ∃ x q', prioq_pop cmp q = Some (Some (data x), q') ∧ prioq_wf cmp q' ∧
    x :: items q' ≡ₚ items q ∧ (∀ y, y ∈ items q → cmp (data x) (data y) ≤ 0) ∧
    ∀ p, Some p ∉ idx <$> items q' → idxs q' !! p = idxs q !! p.
Proof.
  intros Hwf Hne. unfold prioq_pop. destruct (items q) as [|x l] eqn:E; [done|].
  destruct (remove_item_spec cmp q 0 x Hwf) as (q' & -> & Hwf' & Hp & Hf); [by rewrite E|].
  rewrite E in Hp. exists x, q'. split_and!; try done. intros y [i Hy]%list_elem_of_lookup_1.
  rewrite <- E in Hy. eapply (heap_root cmp (keys q)); [apply Hwf| |by apply lookup_keys].
  apply lookup_keys. by rewrite E.
Qed.

Lemma put_all_spec ds : ∀ q,
  prioq_wf cmp q → Z.of_nat (n_items q + length ds) ≤ PRIOQ_MAX →
  ∃ q', put_all cmp q ds = Some q' ∧ prioq_wf cmp q' ∧ keys q' ≡ₚ ds ++ keys q.
Proof.
  induction ds as [|d ds IH]; intros q Hwf Hn; simpl in *; [by exists q|].
  destruct (put_spec cmp q d None Hwf) as (q1 & -> & Hwf1 & Hp & _); [lia|done|]. simpl.
  destruct (IH q1 Hwf1) as (q' & -> & Hwf' & Hk).
  - unfold n_items in *. rewrite Hp. simpl. lia.
  - exists q'. split_and!; try done. rewrite Hk. unfold keys. rewrite Hp. simpl.
    symmetry. apply Permutation_middle.
Qed.

Lemma pop_all_spec n : ∀ q,
  prioq_wf cmp q → n_items q = n →
  ∃ out q', pop_all cmp n q = Some (out, q') ∧ items q' = [] ∧ out ≡ₚ keys q ∧
    StronglySorted (λ x y, cmp x y ≤ 0) out.
Proof.
  induction n as [|n IH]; intros q Hwf Hn; simpl.
  - apply length_zero_iff_nil in Hn. exists [], q. unfold keys. rewrite Hn.
    split_and!; try done. constructor.
  - destruct (pop_spec q Hwf) as (x & q1 & -> & Hwf1 & Hp & Hmin & _);
      [intros E; unfold n_items in Hn; by rewrite E in Hn|].
    simpl. destruct (IH q1 Hwf1) as (out & q' & -> & Hnil & Hk & Hs).
    { unfold n_items in *. rewrite <- Hp in Hn. simpl in Hn. lia. }
    simpl. eexists _, _. split; [done|]. split_and!; [done| |].
    + rewrite Hk. unfold keys. by rewrite <- Hp.
    + constructor; [done|]. apply Forall_forall. intros y Hy. rewrite Hk in Hy.
      apply list_elem_of_fmap in Hy as (z & -> & Hz). apply Hmin. rewrite <- Hp. by right.
Qed.

End results.

Lemma prioq_new_wf cmp mem : prioq_wf cmp (prioq_new mem).
Proof. split; [apply heap_nil|by intros i x p|done..]. Qed.

(** [find_item] through a right index word, and through the data alone. *)
Lemma find_item_idx q k d p :
  idx_ok q → Z.of_nat (n_items q) ≤ PRIOQ_MAX → items q !! k = Some (mk_item d (Some p)) →
  find_item q d (Some p) = Some (Some k).
Proof.
  intros Hq Hmax Hk. pose proof (lookup_lt_Some _ _ _ Hk) as Hlt.
  unfold find_item, n_items, PRIOQ_MAX in *.
  rewrite (proj2 (Nat.eqb_neq _ _)), (Hq _ _ _ Hk eq_refl) by lia. cbn [mbind option_bind].
  rewrite (proj2 (Z.eqb_neq _ PRIOQ_IDX_NULL))
    by (change PRIOQ_IDX_NULL with (2 ^ 32 - 1); lia).
  destruct (Z.geb_spec (Z.of_nat k) (Z.of_nat (length (items q)))); [lia|].
  rewrite Nat2Z.id, Hk. simpl. by rewrite Z.eqb_refl.
Qed.

Lemma find_data_spec l d k :
  find_data l d = Some k → ∃ x, l !! k = Some x ∧ data x = d.
Proof.
  revert k. induction l as [|x l IH]; intros k; simpl; [done|].
  destruct (data x =? d) eqn:E; reflect_bools; [intros [= <-]; by exists x|].
  destruct (find_data l d) as [j|]; intros [= <-]. simpl. by apply IH.
Qed.

Lemma find_data_some l d : d ∈ data <$> l → ∃ k, find_data l d = Some k.
Proof.
  induction l as [|x l IH]; simpl; [by intros ?%elem_of_nil|].
  destruct (data x =? d) eqn:E; reflect_bools; [by eauto|].
  intros [->|H]%elem_of_cons; [done|]. destruct (IH H) as [k ->]. by exists (S k).
Qed.

(** C32. The queue is a priority queue: any data put into it comes out by
    popping in order of the comparison function, each exactly once, and
    leaves the queue empty. *)
Theorem prioq_sorts (cmp : Z → Z → Z) (mem : gmap Z Z) (ds : list Z) :
  TotalCompare cmp → Z.of_nat (length ds) ≤ PRIOQ_MAX →
  ∃ q out q', put_all cmp (prioq_new mem) ds = Some q ∧
    pop_all cmp (length ds) q = Some (out, q') ∧ out ≡ₚ ds ∧
    StronglySorted (λ x y, cmp x y ≤ 0) out ∧ prioq_isempty q' = true.
Proof.
  intros Hc Hn.
  destruct (put_all_spec cmp ds (prioq_new mem) (prioq_new_wf cmp mem)) as (q & Hq & Hwf & Hk);
    [by simpl|]. rewrite app_nil_r in Hk.
  destruct (pop_all_spec cmp (length ds) q Hwf) as (out & q' & Ho & Hnil & Hp & Hs).
  { rewrite <- Hk. unfold n_items, keys. by rewrite length_fmap. }
  exists q, out, q'. split_and!; try done; [by rewrite Hp|].
  unfold prioq_isempty, n_items. by rewrite Hnil.
Qed.

Lemma prioq_sorts_witness :
  ∃ q out q', put_all Z.sub (prioq_new ∅) [5; 3; 8; 1; 3] = Some q ∧
    pop_all Z.sub 5 q = Some (out, q') ∧ out ≡ₚ [5; 3; 8; 1; 3] ∧
    StronglySorted (λ x y, x - y ≤ 0) out ∧ prioq_isempty q' = true.
Proof. apply (prioq_sorts Z.sub ∅ [5; 3; 8; 1; 3]); [apply _|done]. Defined.

(** [prioq_put] adds the item, keeps the heap order and every index word
    equal to its item's position, and writes no index word of another object;
    when memory runs out it returns -ENOMEM and changes nothing. *)
Theorem prioq_put_correct (cmp : Z → Z → Z) (q : Prioq) (d : Z) (p : option Z) :
  TotalCompare cmp → prioq_wf cmp q → Z.of_nat (n_items q) < PRIOQ_MAX →
  (∀ r, p = Some r → Some r ∉ idx <$> items q) →
  (∃ q', prioq_put cmp q d p false = Some (0, q') ∧ prioq_wf cmp q' ∧
     items q' ≡ₚ mk_item d p :: items q ∧
     ∀ r, Some r ∉ idx <$> items q' → idxs q' !! r = idxs q !! r) ∧
  (n_allocated q = Z.of_nat (n_items q) → prioq_put cmp q d p true = Some (- ENOMEM, q)).
Proof.
  intros Hc Hwf Hn Hp. split; [by apply put_spec|]. intros Ha. unfold prioq_put.
  rewrite Ha. by replace (Z.of_nat (n_items q) >=? Z.of_nat (n_items q)) with true by lia.
Qed.

(** A queue of two items with index words at addresses 100 and 200. *)
Definition sample_queue : Prioq :=
  mk_prioq [mk_item 3 (Some 100); mk_item 7 (Some 200)] 2 {[100 := 0; 200 := 1]}.

Lemma sample_queue_wf : prioq_wf Z.sub sample_queue.
Proof.
  split; [|..|done|done].
  - intros [|[|c]] Hc x y Hx Hy; simplify_eq/=; done || lia.
  - intros [|[|i]] x p Hi Hp; simplify_eq/=; done.
Qed.

Lemma prioq_put_correct_witness :
  (∃ q', prioq_put Z.sub sample_queue 1 (Some 300) false = Some (0, q') ∧
     prioq_wf Z.sub q' ∧ items q' ≡ₚ mk_item 1 (Some 300) :: items sample_queue ∧
     ∀ r, Some r ∉ idx <$> items q' → idxs q' !! r = idxs sample_queue !! r) ∧
  (n_allocated sample_queue = 2 →
   prioq_put Z.sub sample_queue 1 (Some 300) true = Some (- ENOMEM, sample_queue)).
Proof.
  apply (prioq_put_correct Z.sub sample_queue 1 (Some 300)); [apply _|apply sample_queue_wf|done|].
  intros r [= <-]. apply (bool_decide_unpack _). by vm_compute.
Defined.

(** Removal, by index word or by data: when the item is in the queue it is
    taken out, the rest stays a queue with right index words, and the call
    returns 1; [prioq_pop] returns a least item and removes it the same way. *)
Theorem prioq_remove_correct (cmp : Z → Z → Z) (q : Prioq) (k : nat) (d p : Z) :
  TotalCompare cmp → prioq_wf cmp q → items q !! k = Some (mk_item d (Some p)) →
  (∃ q', prioq_remove cmp q d (Some p) = Some (1, q') ∧ prioq_wf cmp q' ∧
     mk_item d (Some p) :: items q' ≡ₚ items q) ∧
  (∃ x q', prioq_remove cmp q d None = Some (1, q') ∧ prioq_wf cmp q' ∧ data x = d ∧
     x :: items q' ≡ₚ items q) ∧
  (∃ x q', prioq_pop cmp q = Some (Some (data x), q') ∧ prioq_wf cmp q' ∧
     x :: items q' ≡ₚ items q ∧ ∀ y, y ∈ items q → cmp (data x) (data y) ≤ 0).
Proof.
  intros Hc Hwf Hk. split; [|split].
  - unfold prioq_remove. rewrite (find_item_idx q k) by (done || apply Hwf).
    cbn [mbind option_bind].
    destruct (remove_item_spec cmp q k _ Hwf Hk) as (q' & -> & Hwf' & Hp & _). by exists q'.
  - unfold prioq_remove, find_item. pose proof (lookup_lt_Some _ _ _ Hk).
    rewrite (proj2 (Nat.eqb_neq _ _)) by (unfold n_items; lia). simpl.
    destruct (find_data_some (items q) d) as [j Hj].
    { apply list_elem_of_fmap. eexists. split; [|by eapply list_elem_of_lookup_2]. done. }
    rewrite Hj. destruct (find_data_spec _ _ _ Hj) as (x & Hx & Hd).
    destruct (remove_item_spec cmp q j x Hwf Hx) as (q' & -> & Hwf' & Hp & _). by exists x, q'.
  - destruct (pop_spec cmp q Hwf) as (x & q' & E & Hwf' & Hp & Hmin & _);
      [intros E; by rewrite E in Hk|]. by exists x, q'.
Qed.

Lemma prioq_remove_correct_witness :
  ∃ q', prioq_remove Z.sub sample_queue 7 (Some 200) = Some (1, q') ∧ prioq_wf Z.sub q' ∧
    mk_item 7 (Some 200) :: items q' ≡ₚ items sample_queue.
Proof.
  apply (prioq_remove_correct Z.sub sample_queue 1 7 200);
    [apply _|apply sample_queue_wf|reflexivity].
Defined.

(** [prioq_reshuffle] restores the queue after the priority of one item
    has changed: the queue was ordered by the old comparison, the new one
    differs from it on [d] only, and after the call it is ordered by the new
    one, with the same items. *)
Theorem prioq_reshuffle_correct (old cmp : Z → Z → Z) (q : Prioq) (k : nat) (d p : Z) :
  TotalCompare old → TotalCompare cmp → (∀ x y, x ≠ d → y ≠ d → cmp x y = old x y) →
  prioq_wf old q → NoDup (keys q) → items q !! k = Some (mk_item d (Some p)) →
  ∃ q', prioq_reshuffle cmp q d (Some p) = Some (1, q') ∧ prioq_wf cmp q' ∧
    items q' ≡ₚ items q.
Proof.
  intros Ho Hc Hag [Hh Hx Ha Hm] Hnd Hk. unfold prioq_reshuffle.
  rewrite (find_item_idx q k) by done. cbn [mbind option_bind].
  assert (∀ i x, keys q !! i = Some x → i ≠ k → x ≠ d) as Hother.
  { intros i x Hi Hne ->. apply Hne. eapply (NoDup_lookup _ _ _ d Hnd); [done|].
    by apply (lookup_keys q k (mk_item d (Some p))). }
  destruct (shuffle_spec cmp q k) as (r1 & r2 & -> & E2 & M & Hh2); try done.
  - by apply lookup_lt_Some in Hk.
  - destruct (heap_around_heap old (keys q) k Hh) as [H1 H2]. split.
    + intros c Hc0 Hne Hp x y Hx' Hy. rewrite Hag; eauto. by eapply (H1 c).
    + intros c Hc0 Hk0 Hp x y Hx' Hy. pose proof (parent_lt k Hk0). pose proof (parent_lt c Hc0).
      rewrite Hag; [by eapply (H2 c)|eapply Hother; [done|lia]..].
  - simpl. rewrite E2. simpl. exists r2.2. split; [done|]. split; [|apply M].
    split; [done|apply M|..]; rewrite (moved_length _ _ M); [|done].
    by rewrite (mv_alloc _ _ M).
Qed.

(** The sample queue after the priority of 7 has become the least. *)
Definition key7 (x : Z) : Z := if x =? 7 then -100 else x.

Lemma prioq_reshuffle_correct_witness :
  ∃ q', prioq_reshuffle (λ x y, key7 x - key7 y) sample_queue 7 (Some 200) = Some (1, q') ∧
    prioq_wf (λ x y, key7 x - key7 y) q' ∧ items q' ≡ₚ items sample_queue.
Proof.
  apply (prioq_reshuffle_correct Z.sub (λ x y, key7 x - key7 y) sample_queue 1 7 200).
  - apply _.
  - split; intros; lia.
  - intros x y Hx Hy. unfold key7. apply Z.eqb_neq in Hx as ->, Hy as ->. done.
  - apply sample_queue_wf.
  - apply (bool_decide_unpack _). by vm_compute.
  - reflexivity.
Defined.

(** The operations of the queue together, on any well-formed queue with index
    words: [prioq_put] adds the item and changes no other object's index word, or
    returns -ENOMEM and changes nothing; [prioq_remove] and [prioq_pop] take out
    one item, the given and a least one; [prioq_reshuffle] restores the order
    after the priority of one item has changed. Each leaves a heap whose index
    words are the positions of their items. *)
Theorem prioq_operations (old cmp : Z → Z → Z) (q : Prioq) (k : nat) (d p : Z) :
  TotalCompare old → TotalCompare cmp → prioq_wf old q →
  (∀ d' p', Z.of_nat (n_items q) < PRIOQ_MAX → (∀ r, p' = Some r → Some r ∉ idx <$> items q) →
     (∃ q', prioq_put old q d' p' false = Some (0, q') ∧ prioq_wf old q' ∧ items q' ≡ₚ mk_item d' p' :: items q ∧
        ∀ r, Some r ∉ idx <$> items q' → idxs q' !! r = idxs q !! r) ∧
     (n_allocated q = Z.of_nat (n_items q) → prioq_put old q d' p' true = Some (- ENOMEM, q))) ∧
  (items q !! k = Some (mk_item d (Some p)) →
     (∃ q', prioq_remove old q d (Some p) = Some (1, q') ∧ prioq_wf old q' ∧
        mk_item d (Some p) :: items q' ≡ₚ items q) ∧
     (∃ x q', prioq_pop old q = Some (Some (data x), q') ∧ prioq_wf old q' ∧
        x :: items q' ≡ₚ items q ∧ ∀ y, y ∈ items q → old (data x) (data y) ≤ 0) ∧
     ((∀ x y, x ≠ d → y ≠ d → cmp x y = old x y) → NoDup (keys q) →
      ∃ q', prioq_reshuffle cmp q d (Some p) = Some (1, q') ∧ prioq_wf cmp q' ∧ items q' ≡ₚ items q)).
Proof.
  intros Ho Hc Hwf. split; [intros d' p' Hn Hp; by apply prioq_put_correct|]. intros Hk.
  destruct (prioq_remove_correct old q k d p Ho Hwf Hk) as (H1 & _ & H3).
  split_and!; [done..|]. intros Hag Hnd. by apply (prioq_reshuffle_correct old cmp q k d p).
Qed.

Lemma prioq_operations_witness :
  ∃ q', prioq_reshuffle (λ x y, key7 x - key7 y) sample_queue 7 (Some 200) = Some (1, q') ∧
    prioq_wf (λ x y, key7 x - key7 y) q' ∧ items q' ≡ₚ items sample_queue.
Proof.
  apply (prioq_operations Z.sub (λ x y, key7 x - key7 y) sample_queue 1 7 200).
  - apply _.
  - split; intros; lia.
  - apply sample_queue_wf.
  - reflexivity.
  - intros x y Hx Hy. unfold key7. apply Z.eqb_neq in Hx as ->, Hy as ->. done.
  - apply (bool_decide_unpack _). by vm_compute.
Defined.

(** The limit is real: with 2^31 - 1 items in a full array, the new size
    wraps to 16 slots and [prioq_put] stores past the end of the array. *)
Theorem prioq_put_overflows (cmp : Z → Z → Z) (q : Prioq) (d : Z) (p : option Z) :
  Z.of_nat (n_items q) = PRIOQ_MAX → n_allocated q = PRIOQ_MAX →
  prioq_put cmp q d p false = None.
Proof.
  intros Hn Ha. unfold prioq_put. rewrite Ha, Hn. reflexivity.
Qed.

Lemma prioq_put_overflows_witness :
  let full := mk_prioq (replicate (Z.to_nat PRIOQ_MAX) (mk_item 0 None)) PRIOQ_MAX ∅ in
  prioq_put Z.sub full 0 None false = None.
Proof.
  apply (prioq_put_overflows Z.sub (mk_prioq (replicate (Z.to_nat PRIOQ_MAX) (mk_item 0 None)) PRIOQ_MAX ∅)).
  - unfold n_items. cbn [items]. rewrite length_replicate, Z2Nat.id; [reflexivity|].
    unfold PRIOQ_MAX. lia.
  - reflexivity.
Defined.
