(* ===== verification/Hexdecoct.v ===== *)
(** * systemd: hexadecimal, base32hex and base64

    Models [src/app/multi_process/day1/systemd/src/basic/hexdecoct.c]. Buffers
    are lists of bytes; a function that fills a buffer it has allocated gives
    what it writes, and [None] when that does not fit the size it asked
    [malloc] for, the terminating NUL included. A [char] is its byte; the
    comparisons of the source only accept ASCII values, so its sign does not
    matter. The length argument is the length of the list (the value
    [(size_t) -1] stands for [strlen]). *)

From Stdlib Require Import String.
From S2P Require Import Prelude.

#[local] Open Scope Z_scope.

(** ** Digits *)

Definition octchar (x : Z) : Z := 48 + Z.land x 7.
Definition unoctchar (c : Z) : Z :=
  if (48 <=? c) && (c <=? 55) then c - 48 else - EINVAL.

(** [x % 10] truncates towards zero. *)
Definition decchar (x : Z) : Z := 48 + Z.rem x 10.
Definition undecchar (c : Z) : Z :=
  if (48 <=? c) && (c <=? 57) then c - 48 else - EINVAL.

Definition table_char (table : list Z) (i : Z) : Z := default 0 (table !! Z.to_nat i).

Definition hexchar (x : Z) : Z := table_char (bytes_of "0123456789abcdef") (Z.land x 15).
Definition unhexchar (c : Z) : Z :=
  if (48 <=? c) && (c <=? 57) then c - 48
  else if (97 <=? c) && (c <=? 102) then c - 97 + 10
  else if (65 <=? c) && (c <=? 70) then c - 65 + 10
  else - EINVAL.

Definition base32hexchar (x : Z) : Z :=
  table_char (bytes_of "0123456789ABCDEFGHIJKLMNOPQRSTUV") (Z.land x 31).
Definition unbase32hexchar (c : Z) : Z :=
  if (48 <=? c) && (c <=? 57) then c - 48
  else if (65 <=? c) && (c <=? 86) then c - 65 + (57 - 48 + 1)
  else - EINVAL.

Definition base64char (x : Z) : Z :=
  table_char (bytes_of "ABCDEFGHIJKLMNOPQRSTUVWXYZabcdefghijklmnopqrstuvwxyz0123456789+/")
    (Z.land x 63).
Definition unbase64char (c : Z) : Z :=
  if (65 <=? c) && (c <=? 90) then c - 65
  else if (97 <=? c) && (c <=? 122) then c - 97 + 26
  else if (48 <=? c) && (c <=? 57) then c - 48 + 52
  else if c =? 43 then 62
  else if c =? 47 then 63
  else - EINVAL.

(** ** Reading past white space *)

(** [strchr(WHITESPACE, c)] is not NULL: also for the NUL that ends the set. *)
Definition is_ws (c : Z) : bool :=
  (c =? 32) || (c =? 9) || (c =? 10) || (c =? 13) || (c =? 0).

Fixpoint skip_ws (s : list Z) : list Z :=
  match s with
  | [] => []
  | c :: s' => if is_ws c then skip_ws s' else s
  end.

(** The common shape of [unhex_next] and [unbase64_next]: the value of the next
    character that is not white space and what follows it, without leading
    white space. *)
Definition next_with (dec : Z → Z) (s : list Z) : Z * list Z :=
  match skip_ws s with
  | [] => (- EPIPE, [])
  | c :: s => let r := dec c in if r <? 0 then (r, c :: s) else (r, skip_ws s)
  end.

Definition unhex_next : list Z → Z * list Z := next_with unhexchar.
Definition unbase64_next : list Z → Z * list Z :=
  next_with (λ c, if c =? 61 then INT_MAX else unbase64char c).

(** What a buffer of [size] bytes holds after writing [out] and a NUL. *)
Definition filled (size : Z) (out : list Z) : option (list Z) :=
  if Z.of_nat (length out) + 1 <=? size then Some out else None.

(** ** Hexadecimal *)

Fixpoint hexmem_chars (p : list Z) : list Z :=
  match p with
  | [] => []
  | x :: p => hexchar (Z.shiftr x 4) :: hexchar (Z.land x 15) :: hexmem_chars p
  end.

Definition hexmem (p : list Z) : option (list Z) :=
  filled (Z.of_nat (length p) * 2 + 1) (hexmem_chars p).

(** The loop of [unhexmem_full]: the result and the bytes written. *)
Fixpoint unhex_loop (fuel : nat) (s : list Z) : option (Z * list Z) :=
  match fuel with
  | O => None
  | S fuel =>
      let '(a, s) := unhex_next s in
      if a =? - EPIPE then Some (0, [])
      else if a <? 0 then Some (a, [])
      else
        let '(b, s) := unhex_next s in
        if b <? 0 then Some (b, [])
        else
          r ← unhex_loop fuel s;
          Some (r.1, u8 (Z.lor (Z.shiftl (u8 a) 4) (u8 b)) :: r.2)
  end.

(** [unhexmem_full]; every round of the loop consumes a character, so the
    length bounds them. [secure] only wipes the buffer that is dropped. *)
Definition unhexmem_full (s : list Z) (oom : bool) : option (Z * list Z) :=
  let buf_size := (Z.of_nat (length s) + 1) / 2 + 1 in
  if oom then Some (- ENOMEM, [])
  else
    r ← unhex_loop (S (length s)) s;
    out ← filled buf_size r.2;
    Some (r.1, if r.1 <? 0 then [] else out).

(** ** base64 *)

Fixpoint base64_chars (p : list Z) : list Z :=
  match p with
  | x0 :: x1 :: x2 :: p =>
      base64char (Z.shiftr x0 2)
      :: base64char (Z.lor (Z.shiftl (Z.land x0 3) 4) (Z.shiftr x1 4))
      :: base64char (Z.lor (Z.shiftl (Z.land x1 15) 2) (Z.shiftr x2 6))
      :: base64char (Z.land x2 63) :: base64_chars p
  | [x0; x1] =>
      [base64char (Z.shiftr x0 2);
       base64char (Z.lor (Z.shiftl (Z.land x0 3) 4) (Z.shiftr x1 4));
       base64char (Z.shiftl (Z.land x1 15) 2); 61]
  | [x0] =>
      [base64char (Z.shiftr x0 2); base64char (Z.shiftl (Z.land x0 3) 4); 61; 61]
  | [] => []
  end.

Definition base64mem (p : list Z) : option (list Z) :=
  filled (4 * (Z.of_nat (length p) + 2) / 3 + 1) (base64_chars p).

(** One group of four values and the number of characters left: an error, or
    the bytes written and whether the loop goes on. *)
Definition unbase64_group (a b c d : Z) (l : nat) : Z + (list Z * bool) :=
  if c =? INT_MAX then
    if negb (d =? INT_MAX) then inl (- EINVAL)
    else if negb (Z.land b 15 =? 0) then inl (- EINVAL)
    else if (0 <? l)%nat then inl (- ENAMETOOLONG)
    else inr ([u8 (Z.lor (Z.shiftl (u8 a) 2) (u8 (Z.shiftr b 4)))], false)
  else if d =? INT_MAX then
    if negb (Z.land c 3 =? 0) then inl (- EINVAL)
    else if (0 <? l)%nat then inl (- ENAMETOOLONG)
    else inr ([u8 (Z.lor (Z.shiftl (u8 a) 2) (Z.shiftr (u8 b) 4));
               u8 (Z.lor (Z.shiftl (u8 b) 4) (Z.shiftr (u8 c) 2))], false)
  else
    inr ([u8 (Z.lor (Z.shiftl (u8 a) 2) (Z.shiftr (u8 b) 4));
          u8 (Z.lor (Z.shiftl (u8 b) 4) (Z.shiftr (u8 c) 2));
          u8 (Z.lor (Z.shiftl (u8 c) 6) (u8 d))], true).

Fixpoint unbase64_loop (fuel : nat) (s : list Z) : option (Z * list Z) :=
  match fuel with
  | O => None
  | S fuel =>
      let '(a, s) := unbase64_next s in
      if a =? - EPIPE then Some (0, [])
      else if a <? 0 then Some (a, [])
      else if a =? INT_MAX then Some (- EINVAL, [])
      else
      let '(b, s) := unbase64_next s in
      if b <? 0 then Some (b, [])
      else if b =? INT_MAX then Some (- EINVAL, [])
      else
      let '(c, s) := unbase64_next s in
      if c <? 0 then Some (c, [])
      else
      let '(d, s) := unbase64_next s in
      if d <? 0 then Some (d, [])
      else
        match unbase64_group a b c d (length s) with
        | inl r => Some (r, [])
        | inr (bs, false) => Some (0, bs)
        | inr (bs, true) => r ← unbase64_loop fuel s; Some (r.1, bs ++ r.2)
        end
  end.

Definition unbase64mem_full (s : list Z) (oom : bool) : option (Z * list Z) :=
  let l := Z.of_nat (length s) in
  let len := l / 4 * 3 + (if negb (l mod 4 =? 0) then l mod 4 - 1 else 0) in
  if oom then Some (- ENOMEM, [])
  else
    r ← unbase64_loop (S (length s)) s;
    out ← filled (len + 1) r.2;
    Some (r.1, if r.1 <? 0 then [] else out).

(** ** base32hex *)

(** The characters of five bytes; [x0 .. x4] as in the source. *)
Fixpoint base32hex_chars (padding : bool) (p : list Z) : list Z :=
  let pad n := if padding then replicate n 61 else [] in
  match p with
  | x0 :: x1 :: x2 :: x3 :: x4 :: p =>
      [base32hexchar (Z.shiftr x0 3);
       base32hexchar (Z.lor (Z.shiftl (Z.land x0 7) 2) (Z.shiftr x1 6));
       base32hexchar (Z.shiftr (Z.land x1 63) 1);
       base32hexchar (Z.lor (Z.shiftl (Z.land x1 1) 4) (Z.shiftr x2 4));
       base32hexchar (Z.lor (Z.shiftl (Z.land x2 15) 1) (Z.shiftr x3 7));
       base32hexchar (Z.shiftr (Z.land x3 127) 2);
       base32hexchar (Z.lor (Z.shiftl (Z.land x3 3) 3) (Z.shiftr x4 5));
       base32hexchar (Z.land x4 31)] ++ base32hex_chars padding p
  | [x0; x1; x2; x3] =>
      [base32hexchar (Z.shiftr x0 3);
       base32hexchar (Z.lor (Z.shiftl (Z.land x0 7) 2) (Z.shiftr x1 6));
       base32hexchar (Z.shiftr (Z.land x1 63) 1);
       base32hexchar (Z.lor (Z.shiftl (Z.land x1 1) 4) (Z.shiftr x2 4));
       base32hexchar (Z.lor (Z.shiftl (Z.land x2 15) 1) (Z.shiftr x3 7));
       base32hexchar (Z.shiftr (Z.land x3 127) 2);
       base32hexchar (Z.shiftl (Z.land x3 3) 3)] ++ pad 1%nat
  | [x0; x1; x2] =>
      [base32hexchar (Z.shiftr x0 3);
       base32hexchar (Z.lor (Z.shiftl (Z.land x0 7) 2) (Z.shiftr x1 6));
       base32hexchar (Z.shiftr (Z.land x1 63) 1);
       base32hexchar (Z.lor (Z.shiftl (Z.land x1 1) 4) (Z.shiftr x2 4));
       base32hexchar (Z.shiftl (Z.land x2 15) 1)] ++ pad 3%nat
  | [x0; x1] =>
      [base32hexchar (Z.shiftr x0 3);
       base32hexchar (Z.lor (Z.shiftl (Z.land x0 7) 2) (Z.shiftr x1 6));
       base32hexchar (Z.shiftr (Z.land x1 63) 1);
       base32hexchar (Z.shiftl (Z.land x1 1) 4)] ++ pad 4%nat
  | [x0] =>
      [base32hexchar (Z.shiftr x0 3);
       base32hexchar (Z.shiftl (Z.land x0 7) 2)] ++ pad 6%nat
  | [] => []
  end.

Definition base32hexmem_len (l : Z) (padding : bool) : Z :=
  if padding then 8 * (l + 4) / 5
  else
    let len := 8 * l / 5 in
    let r := l mod 5 in
    if r =? 4 then len + 7 else if r =? 3 then len + 5
    else if r =? 2 then len + 4 else if r =? 1 then len + 2 else len.

Definition base32hexmem (p : list Z) (padding : bool) : option (list Z) :=
  filled (base32hexmem_len (Z.of_nat (length p)) padding + 1) (base32hex_chars padding p).

(** [while (l > 0 && p[l - 1] == '=' && pad < 7)], on the reversed string. *)
Fixpoint strip_pad (pad : nat) (rs : list Z) : list Z :=
  match pad, rs with
  | S pad, c :: rs' => if c =? 61 then strip_pad pad rs' else rs
  | _, _ => rs
  end.

(** The bytes of a group of digits; [None] is -EINVAL. *)
Definition unbase32_byte0 (a b : Z) : Z := u8 (Z.lor (Z.shiftl (u8 a) 3) (Z.shiftr (u8 b) 2)).
Definition unbase32_byte1 (b c d : Z) : Z :=
  u8 (Z.lor (Z.lor (Z.shiftl (u8 b) 6) (Z.shiftl (u8 c) 1)) (Z.shiftr (u8 d) 4)).
Definition unbase32_byte2 (d e : Z) : Z := u8 (Z.lor (Z.shiftl (u8 d) 4) (Z.shiftr (u8 e) 1)).
Definition unbase32_byte3 (e f g : Z) : Z :=
  u8 (Z.lor (Z.lor (Z.shiftl (u8 e) 7) (Z.shiftl (u8 f) 2)) (Z.shiftr (u8 g) 3)).
Definition unbase32_byte4 (g h : Z) : Z := u8 (Z.lor (Z.shiftl (u8 g) 5) (u8 h)).

Definition digit32 (c : Z) : option Z :=
  let a := unbase32hexchar c in if a <? 0 then None else Some a.

(** The loop and the [switch] on what is left: the result and the bytes
    written. *)
Fixpoint unbase32hex_loop (s : list Z) : Z * list Z :=
  match s with
  | x0 :: x1 :: x2 :: x3 :: x4 :: x5 :: x6 :: x7 :: s =>
      match digit32 x0, digit32 x1, digit32 x2, digit32 x3,
            digit32 x4, digit32 x5, digit32 x6, digit32 x7 with
      | Some a, Some b, Some c, Some d, Some e, Some f, Some g, Some h =>
          let r := unbase32hex_loop s in
          (r.1, [unbase32_byte0 a b; unbase32_byte1 b c d; unbase32_byte2 d e;
                 unbase32_byte3 e f g; unbase32_byte4 g h] ++ r.2)
      | _, _, _, _, _, _, _, _ => (- EINVAL, [])
      end
  | [x0; x1; x2; x3; x4; x5; x6] =>
      match digit32 x0, digit32 x1, digit32 x2, digit32 x3,
            digit32 x4, digit32 x5, digit32 x6 with
      | Some a, Some b, Some c, Some d, Some e, Some f, Some g =>
          if negb (Z.land g 7 =? 0) then (- EINVAL, [])
          else (0, [unbase32_byte0 a b; unbase32_byte1 b c d; unbase32_byte2 d e;
                    unbase32_byte3 e f g])
      | _, _, _, _, _, _, _ => (- EINVAL, [])
      end
  | [x0; x1; x2; x3; x4] =>
      match digit32 x0, digit32 x1, digit32 x2, digit32 x3, digit32 x4 with
      | Some a, Some b, Some c, Some d, Some e =>
          if negb (Z.land e 1 =? 0) then (- EINVAL, [])
          else (0, [unbase32_byte0 a b; unbase32_byte1 b c d; unbase32_byte2 d e])
      | _, _, _, _, _ => (- EINVAL, [])
      end
  | [x0; x1; x2; x3] =>
      match digit32 x0, digit32 x1, digit32 x2, digit32 x3 with
      | Some a, Some b, Some c, Some d =>
          if negb (Z.land d 15 =? 0) then (- EINVAL, [])
          else (0, [unbase32_byte0 a b; unbase32_byte1 b c d])
      | _, _, _, _ => (- EINVAL, [])
      end
  | [x0; x1] =>
      match digit32 x0, digit32 x1 with
      | Some a, Some b =>
          if negb (Z.land b 3 =? 0) then (- EINVAL, [])
          else (0, [unbase32_byte0 a b])
      | _, _ => (- EINVAL, [])
      end
  | [] => (0, [])
  | _ => (- EINVAL, [])
  end.

Definition unbase32hexmem_len (l : Z) : option Z :=
  let len := l / 8 * 5 in
  let r := l mod 8 in
  if r =? 7 then Some (len + 4) else if r =? 5 then Some (len + 3)
  else if r =? 4 then Some (len + 2) else if r =? 2 then Some (len + 1)
  else if r =? 0 then Some len else None.

(** [unbase32hexmem]: the result, the bytes and the length reported. *)
Definition unbase32hexmem (s : list Z) (padding oom : bool) : option (Z * list Z * Z) :=
  if padding && negb (Z.of_nat (length s) mod 8 =? 0) then Some (- EINVAL, [], 0)
  else
    let s := if padding then reverse (strip_pad 7 (reverse s)) else s in
    match unbase32hexmem_len (Z.of_nat (length s)) with
    | None => Some (- EINVAL, [], 0)
    | Some len =>
        if oom then Some (- ENOMEM, [], 0)
        else
          let r := unbase32hex_loop s in
          out ← filled (len + 1) r.2;
          Some (if r.1 <? 0 then (r.1, [], 0) else (r.1, out, len))
    end.

(** ** Wrapped base64 *)

Definition SSIZE_MAX : Z := 2 ^ 63 - 1.

(** The lines of [base64_append_width]: [n] lines, the first indented when
    [first_indent], all but the last ended by a newline, the last by a NUL. *)
Fixpoint base64_lines (n : nat) (first_indent : bool) (indent width : Z) (x : list Z) : list Z :=
  match n with
  | O => []
  | S n =>
      let act := take (Z.to_nat width) x in
      (if first_indent then replicate (Z.to_nat indent) 32 else []) ++ act
      ++ (if (0 <? n)%nat then 10 else 0)
      :: base64_lines n true indent width (drop (Z.to_nat width) x)
  end.

(** [base64_append_width] with a separator: the result and the new string, its
    final NUL included. A division by a width of 0 and negative lengths are
    [None], as is a write past the end of the reallocated string. *)
Definition base64_append_width (prefix : list Z) (plen : Z) (sep : list Z) (indent : Z)
    (p : list Z) (width : Z) (oom : bool) : option (Z * list Z) :=
  x ← base64mem p;
  let len := Z.of_nat (length x) in
  if len <=? 0 then Some (len, prefix)
  else if (width <=? 0) || (indent <? 0) || (plen <? 0) then None
  else
    let lines := len / width + (if len mod width =? 0 then 0 else 1) in
    let slen := Z.of_nat (length sep) in
    if (plen >=? SSIZE_MAX - 1 - slen)
       || (lines >? (SSIZE_MAX - plen - 1 - slen) / (indent + width + 1))
       || oom then Some (- ENOMEM, prefix)
    else
      let size := plen + 1 + slen + (indent + width + 1) * lines in
      let t := take (Z.to_nat plen) prefix ++ sep
               ++ base64_lines (Z.to_nat lines) true indent width x in
      if Z.of_nat (length t) <=? size then Some (0, t) else None.

Definition base64_append (prefix : list Z) (plen : Z) (p : list Z) (indent width : Z)
    (oom : bool) : option (Z * list Z) :=
  if (plen >? Z.quot width 2) || (plen + indent >? width)
  then base64_append_width prefix plen [10] indent p (width - indent - 1) oom
  else base64_append_width prefix plen [32] plen p (width - plen - 1) oom.
