(* ===== verification/HexdecoctProps.v ===== *)
(** * systemd: properties of the encodings

    Each decoder of [Hexdecoct] accepts exactly the encodings of byte strings
    (up to white space and, for hexadecimal, letter case) and gives back the
    bytes encoded; no encoder or decoder writes past the buffer it allocates,
    on any input. *)

From S2P Require Import Prelude Hexdecoct.

#[local] Set Warnings "-clear-no-such-hyp".
#[local] Ltac Zify.zify_post_hook ::= Z.to_euclidean_division_equations.

(** ** Bit operations as arithmetic *)

Lemma shr x k : 0 ≤ k → Z.shiftr x k = x / 2 ^ k.
Proof. apply Z.shiftr_div_pow2. Qed.
Lemma shl x k : 0 ≤ k → Z.shiftl x k = x * 2 ^ k.
Proof. apply Z.shiftl_mul_pow2. Qed.
Lemma low_bits x m k : m = Z.ones k → 0 ≤ k → Z.land x m = x mod 2 ^ k.
Proof. intros ->. apply Z.land_ones. Qed.

Lemma land_1 x : Z.land x 1 = x mod 2. Proof. by apply (low_bits x 1 1). Qed.
Lemma land_3 x : Z.land x 3 = x mod 4. Proof. by apply (low_bits x 3 2). Qed.
Lemma land_7 x : Z.land x 7 = x mod 8. Proof. by apply (low_bits x 7 3). Qed.
Lemma land_15 x : Z.land x 15 = x mod 16. Proof. by apply (low_bits x 15 4). Qed.
Lemma land_31 x : Z.land x 31 = x mod 32. Proof. by apply (low_bits x 31 5). Qed.
Lemma land_63 x : Z.land x 63 = x mod 64. Proof. by apply (low_bits x 63 6). Qed.
Lemma land_127 x : Z.land x 127 = x mod 128. Proof. by apply (low_bits x 127 7). Qed.

Create Rewrite HintDb bits.
#[local] Hint Rewrite shr shl using lia : bits.
#[local] Hint Rewrite land_1 land_3 land_7 land_15 land_31 land_63 land_127 : bits.

(** Turns shifts, masks and byte conversions into arithmetic, then disjoint
    [or]s into sums. *)
Ltac arith_bits :=
  autorewrite with bits;
  repeat match goal with
  | |- context [u8 ?x] => rewrite (wrapu_small 8 x) by lia
  end;
  repeat match goal with
  | |- context [Z.lor (?a * 2 ^ ?k) ?b] => rewrite (lor_add a b k) by lia
  end.

(** A list of bytes, element by element. *)
Ltac forall_bytes :=
  repeat (apply Forall_cons_2; [done|]); first [done | by apply Forall_nil_2].

(** A string that fits its buffer. *)
Lemma filled_fits size out : Z.of_nat (length out) + 1 ≤ size → filled size out = Some out.
Proof. intros H. unfold filled. by rewrite (proj2 (Z.leb_le _ _) H). Qed.

(** ** Digits *)

Lemma check_range (P : Z → bool) n x :
  forallb P (seqZ 0 n) = true → 0 ≤ x < n → P x = true.
Proof.
  intros H Hx. rewrite forallb_forall in H. apply H, list_elem_of_In, elem_of_seqZ. lia.
Qed.

Lemma unhexchar_hexchar x : 0 ≤ x < 16 → unhexchar (hexchar x) = x.
Proof.
  intros Hx. apply Z.eqb_eq.
  apply (check_range (λ x, unhexchar (hexchar x) =? x) 16); [by vm_compute|done].
Qed.

Lemma unbase64char_base64char x : 0 ≤ x < 64 → unbase64char (base64char x) = x.
Proof.
  intros Hx. apply Z.eqb_eq.
  apply (check_range (λ x, unbase64char (base64char x) =? x) 64); [by vm_compute|done].
Qed.

Lemma unbase32hexchar_base32hexchar x : 0 ≤ x < 32 → unbase32hexchar (base32hexchar x) = x.
Proof.
  intros Hx. apply Z.eqb_eq.
  apply (check_range (λ x, unbase32hexchar (base32hexchar x) =? x) 32); [by vm_compute|done].
Qed.

(** The characters the encoders produce are neither white space nor padding. *)
Lemma base64char_token x :
  0 ≤ x < 64 → is_ws (base64char x) = false ∧ (base64char x =? 61) = false.
Proof.
  intros Hx.
  pose proof (check_range (λ x, negb (is_ws (base64char x)) && negb (base64char x =? 61))
    64 x ltac:(by vm_compute) Hx) as [H1%negb_true_iff H2%negb_true_iff]%andb_true_iff.
  done.
Qed.

Lemma hexchar_token x : 0 ≤ x < 16 → is_ws (hexchar x) = false.
Proof.
  intros Hx. apply negb_true_iff.
  apply (check_range (λ x, negb (is_ws (hexchar x))) 16); [by vm_compute|done].
Qed.

(** A character that decodes is the character of its value. *)
Lemma base64char_unbase64char c :
  0 ≤ unbase64char c → base64char (unbase64char c) = c ∧ unbase64char c < 64.
Proof.
  intros H. assert (0 ≤ c < 128) as Hc.
  { unfold unbase64char, EINVAL in H. repeat case_match; reflect_bools; lia. }
  pose proof (check_range (λ c, (unbase64char c <? 0) ||
    ((base64char (unbase64char c) =? c) && (unbase64char c <? 64))) 128 c
    ltac:(by vm_compute) Hc) as E.
  apply orb_true_iff in E as [E|E]; reflect_bools; lia.
Qed.

Lemma base32hexchar_unbase32hexchar c :
  0 ≤ unbase32hexchar c → base32hexchar (unbase32hexchar c) = c ∧ unbase32hexchar c < 32.
Proof.
  intros H. assert (0 ≤ c < 128) as Hc.
  { unfold unbase32hexchar, EINVAL in H. repeat case_match; reflect_bools; lia. }
  pose proof (check_range (λ c, (unbase32hexchar c <? 0) ||
    ((base32hexchar (unbase32hexchar c) =? c) && (unbase32hexchar c <? 32))) 128 c
    ltac:(by vm_compute) Hc) as E.
  apply orb_true_iff in E as [E|E]; reflect_bools; lia.
Qed.

Definition to_lower (c : Z) : Z := if (65 <=? c) && (c <=? 90) then c + 32 else c.

Lemma hexchar_unhexchar c :
  0 ≤ unhexchar c → hexchar (unhexchar c) = to_lower c ∧ unhexchar c < 16.
Proof.
  intros H. assert (0 ≤ c < 128) as Hc.
  { unfold unhexchar, EINVAL in H. repeat case_match; reflect_bools; lia. }
  pose proof (check_range (λ c, (unhexchar c <? 0) ||
    ((hexchar (unhexchar c) =? to_lower c) && (unhexchar c <? 16))) 128 c
    ltac:(by vm_compute) Hc) as E.
  apply orb_true_iff in E as [E|E]; reflect_bools; lia.
Qed.

(** ** White space *)

Definition clean (s : list Z) : list Z := filter (λ c, is_ws c = false) s.

Lemma clean_cons c s : clean (c :: s) = if is_ws c then clean s else c :: clean s.
Proof.
  unfold clean. destruct (is_ws c) eqn:E.
  - by rewrite filter_cons_False by (by rewrite E).
  - by rewrite filter_cons_True.
Qed.

Lemma length_clean s : (length (clean s) ≤ length s)%nat.
Proof. apply length_filter. Qed.

Lemma skip_ws_spec s :
  clean (skip_ws s) = clean s ∧ (length (skip_ws s) ≤ length s)%nat ∧
  match skip_ws s with [] => clean s = [] | c :: _ => is_ws c = false end.
Proof.
  induction s as [|c s (IH1 & IH2 & IH3)]; simpl; [done|]. rewrite clean_cons.
  destruct (is_ws c) eqn:E; [split_and!; try done; lia|]. rewrite clean_cons, E. done.
Qed.

Lemma skip_ws_nil s : skip_ws s = [] ↔ clean s = [].
Proof.
  pose proof (skip_ws_spec s) as (H1 & _ & H3). split; [intros E; by rewrite E in H3|].
  intros E. destruct (skip_ws s) as [|c s']; [done|]. rewrite clean_cons, H3, E in H1. done.
Qed.

(** One character of the input, white space aside. *)
Inductive next_result (dec : Z → Z) (s : list Z) : Z * list Z → Prop :=
  | next_end : clean s = [] → next_result dec s (- EPIPE, [])
  | next_fail c t s' : clean s = c :: t → dec c < 0 → next_result dec s (dec c, s')
  | next_char c s' :
      clean s = c :: clean s' → 0 ≤ dec c → (length s' < length s)%nat →
      (s' = [] ↔ clean s' = []) → next_result dec s (dec c, s').

Lemma next_with_spec dec s : next_result dec s (next_with dec s).
Proof.
  unfold next_with. pose proof (skip_ws_spec s) as (H1 & H2 & H3).
  destruct (skip_ws s) as [|c s']; [by constructor|]. rewrite clean_cons, H3 in H1.
  destruct (dec c <? 0) eqn:E; reflect_bools; [by econstructor|].
  pose proof (skip_ws_spec s') as (H4 & H5 & _). constructor; [|done|simpl in H2; lia|].
  - by rewrite H4.
  - rewrite H4. apply skip_ws_nil.
Qed.

(** ** Hexadecimal *)

Lemma hexmem_fits p : hexmem p = Some (hexmem_chars p).
Proof.
  unfold hexmem, filled.
  assert (length (hexmem_chars p) = (2 * length p)%nat) as ->.
  { induction p as [|x p IH]; simpl; [done|]. lia. }
  by rewrite (proj2 (Z.leb_le _ _)) by lia.
Qed.

Lemma unhexchar_range c : unhexchar c = - EINVAL ∨ 0 ≤ unhexchar c < 16.
Proof.
  unfold unhexchar. repeat case_match; reflect_bools; try (right; lia). by left.
Qed.

Lemma unhexchar_ne_epipe c : unhexchar c ≠ - EPIPE.
Proof. destruct (unhexchar_range c) as [->|]; [done|unfold EPIPE; lia]. Qed.

(** The decoder ends, and writes a byte for two characters. *)
Lemma unhex_loop_total fuel : ∀ s,
  (length s < fuel)%nat → ∃ r out, unhex_loop fuel s = Some (r, out) ∧
    r ≤ 0 ∧ (2 * length out ≤ length s)%nat.
Proof.
  induction fuel as [|fuel IH]; intros s Hs; [lia|]. cbn [unhex_loop]. unfold unhex_next.
  destruct (next_with_spec unhexchar s) as [Hc|c t s1 Hc Hd|c s1 Hc Hd Hl _].
  - exists 0, []. split_and!; simpl; try done; lia.
  - rewrite (proj2 (Z.eqb_neq _ _)) by apply unhexchar_ne_epipe.
    rewrite (proj2 (Z.ltb_lt _ _)) by done. eexists _, []. split_and!; [done|lia|simpl; lia].
  - rewrite (proj2 (Z.eqb_neq _ _)) by apply unhexchar_ne_epipe.
    rewrite (proj2 (Z.ltb_ge _ _)) by done.
    destruct (next_with_spec unhexchar s1) as [Hc2|c2 t2 s2 Hc2 Hd2|c2 s2 Hc2 Hd2 Hl2 _].
    + exists (- EPIPE), []. split_and!; simpl; try done; lia.
    + rewrite (proj2 (Z.ltb_lt _ _)) by done. eexists _, []. split_and!; [done|lia|simpl; lia].
    + rewrite (proj2 (Z.ltb_ge _ _)) by done.
      destruct (IH s2) as (r & out & -> & Hr & Ho); [lia|].
      eexists _, _. split_and!; [done|done|simpl; lia].
Qed.

Definition hex_byte (a b : Z) : Z := u8 (Z.lor (Z.shiftl (u8 a) 4) (u8 b)).

Lemma hex_byte_arith a b : 0 ≤ a < 16 → 0 ≤ b < 16 → hex_byte a b = a * 16 + b.
Proof. intros. unfold hex_byte. arith_bits. by rewrite (wrapu_small 8) by lia. Qed.

Lemma unhexchar_lower c x : 0 ≤ x < 16 → to_lower c = hexchar x → unhexchar c = x.
Proof.
  intros Hx E. assert (0 ≤ c < 128) as Hc.
  { pose proof (check_range (λ x, (0 <=? hexchar x) && (hexchar x <? 128)) 16 x
      ltac:(by vm_compute) Hx) as Hr. cbv beta in Hr. reflect_bools. unfold to_lower in E.
    case_match; reflect_bools; lia. }
  pose proof (check_range (λ c, forallb (λ x, negb (to_lower c =? hexchar x)
    || (unhexchar c =? x)) (seqZ 0 16)) 128 c ltac:(by vm_compute) Hc) as Hall.
  rewrite forallb_forall in Hall. specialize (Hall x).
  rewrite <- list_elem_of_In, elem_of_seqZ in Hall. specialize (Hall ltac:(lia)).
  rewrite E, Z.eqb_refl in Hall. simpl in Hall. by apply Z.eqb_eq.
Qed.

(** It accepts exactly the encodings, in either case and with white space. *)
Lemma unhex_loop_complete fuel : ∀ s p,
  (length s < fuel)%nat → to_lower <$> clean s = hexmem_chars p → Forall is_byte p →
  unhex_loop fuel s = Some (0, p).
Proof.
  induction fuel as [|fuel IH]; intros s p Hs Hp Hb; [lia|].
  cbn [unhex_loop]. unfold unhex_next.
  destruct p as [|x p].
  { apply fmap_nil_inv in Hp.
    destruct (next_with_spec unhexchar s) as [_|? ? ? E|? ? E]; [done|congruence..]. }
  apply Forall_cons in Hb as [Hx Hb]. unfold is_byte in Hx. cbn [hexmem_chars] in Hp.
  rewrite shr, land_15 in Hp by lia.
  destruct (next_with_spec unhexchar s) as [Hc|c t s1 Hc Hd|c s1 Hc Hd Hl _];
    rewrite Hc in Hp; [done|injection Hp as E1 Hp..]; apply unhexchar_lower in E1; try lia.
  rewrite (proj2 (Z.eqb_neq _ _)) by apply unhexchar_ne_epipe.
  rewrite (proj2 (Z.ltb_ge _ _)) by done.
  destruct (next_with_spec unhexchar s1) as [Hc2|c2 t2 s2 Hc2 Hd2|c2 s2 Hc2 Hd2 Hl2 _];
    rewrite Hc2 in Hp; [done|injection Hp as E2 Hp..]; apply unhexchar_lower in E2; try lia.
  rewrite (proj2 (Z.ltb_ge _ _)) by done.
  rewrite (IH s2 p) by (done || lia). simpl. fold (hex_byte (unhexchar c) (unhexchar c2)).
  rewrite hex_byte_arith, E1, E2 by lia. do 3 f_equal. change (2 ^ 4) with 16. lia.
Qed.

Lemma unhex_loop_sound fuel : ∀ s p,
  unhex_loop fuel s = Some (0, p) →
  to_lower <$> clean s = hexmem_chars p ∧ Forall is_byte p.
Proof.
  induction fuel as [|fuel IH]; intros s p; [done|]. cbn [unhex_loop]. unfold unhex_next.
  destruct (next_with_spec unhexchar s) as [Hc|c t s1 Hc Hd|c s1 Hc Hd Hl _].
  - intros [= <-]. by rewrite Hc.
  - rewrite (proj2 (Z.eqb_neq _ _)) by apply unhexchar_ne_epipe.
    rewrite (proj2 (Z.ltb_lt _ _)) by done. intros [= ? ?]. lia.
  - rewrite (proj2 (Z.eqb_neq _ _)) by apply unhexchar_ne_epipe.
    rewrite (proj2 (Z.ltb_ge _ _)) by done.
    destruct (next_with_spec unhexchar s1) as [Hc2|c2 t2 s2 Hc2 Hd2|c2 s2 Hc2 Hd2 Hl2 _].
    + done.
    + rewrite (proj2 (Z.ltb_lt _ _)) by done. intros [= ? ?]. lia.
    + rewrite (proj2 (Z.ltb_ge _ _)) by done.
      destruct (unhex_loop fuel s2) as [[r out]|] eqn:E; [|done]. intros [= -> <-].
      destruct (IH _ _ E) as [Hl' Hb']. destruct (hexchar_unhexchar c Hd) as [Hh Hr].
      destruct (hexchar_unhexchar c2 Hd2) as [Hh2 Hr2].
      fold (hex_byte (unhexchar c) (unhexchar c2)). rewrite hex_byte_arith by lia.
      rewrite Hc, Hc2. cbn [fmap list_fmap hexmem_chars]. split.
      * rewrite Hl', <- Hh, <- Hh2, shr, land_15 by lia. change (2 ^ 4) with 16.
        repeat f_equal; lia.
      * constructor; [unfold is_byte; lia|done].
Qed.

(** Decoding hexadecimal: a string is accepted exactly when, without white
    space and in lower case, it is what [hexmem] prints for some bytes, and
    those bytes are the result. *)
Theorem unhexmem_iff (s p : list Z) :
  unhexmem_full s false = Some (0, p) ↔
  hexmem p = Some (to_lower <$> clean s) ∧ Forall is_byte p.
Proof.
  rewrite hexmem_fits. unfold unhexmem_full.
  destruct (unhex_loop_total (S (length s)) s) as (r & out & E & Hr & Ho); [lia|].
  rewrite E. cbn [mbind option_bind fst snd]. unfold filled.
  rewrite (proj2 (Z.leb_le _ _)) by lia. cbn [mbind option_bind]. split.
  - intros H. assert (r = 0) as -> by congruence. injection H as ->.
    destruct (unhex_loop_sound _ _ _ E) as [-> Hb]. done.
  - intros [[= H] Hb]. rewrite (unhex_loop_complete _ s p) in E by (done || lia).
    by simplify_eq.
Qed.

(** ** base64 *)

Definition token64 (c : Z) : Z := if c =? 61 then INT_MAX else unbase64char c.

Lemma unbase64char_range c : unbase64char c = - EINVAL ∨ 0 ≤ unbase64char c < 64.
Proof.
  unfold unbase64char. repeat case_match; reflect_bools; try (right; lia). by left.
Qed.

Lemma token64_range c :
  token64 c = - EINVAL ∨ token64 c = INT_MAX ∧ c = 61 ∨
  0 ≤ token64 c < 64 ∧ base64char (token64 c) = c.
Proof.
  unfold token64. destruct (c =? 61) eqn:E; reflect_bools; [by right; left|].
  destruct (unbase64char_range c) as [?|H]; [by left|]. right; right. split; [done|].
  apply base64char_unbase64char. lia.
Qed.

Lemma token64_char x : 0 ≤ x < 64 → token64 (base64char x) = x.
Proof.
  intros Hx. unfold token64. destruct (base64char_token x Hx) as [_ ->].
  by apply unbase64char_base64char.
Qed.

(** The characters [t] start with a group the loop decodes. *)
Definition good_group (t : list Z) : Prop :=
  match t with
  | c0 :: c1 :: c2 :: c3 :: _ =>
      0 ≤ token64 c0 < 64 ∧ 0 ≤ token64 c1 < 64 ∧ 0 ≤ token64 c2 ∧ 0 ≤ token64 c3
  | _ => False
  end.

Lemma token64_ne_epipe c : token64 c ≠ - EPIPE.
Proof.
  destruct (token64_range c) as [->|[[-> _]|[? _]]]; [done|done|unfold EPIPE; lia].
Qed.

Lemma token64_not_pad c : 0 ≤ token64 c → (token64 c =? INT_MAX) = false → 0 ≤ token64 c < 64.
Proof.
  intros H1 H2. destruct (token64_range c) as [E|[[E _]|[E _]]]; [|by rewrite E in H2|done].
  unfold EINVAL in E. lia.
Qed.

(** One round of the loop. *)
Inductive round64 (fuel : nat) (s : list Z) : option (Z * list Z) → Prop :=
  | round_end : clean s = [] → round64 fuel s (Some (0, []))
  | round_fail r : clean s ≠ [] → ¬ good_group (clean s) → r < 0 →
      round64 fuel s (Some (r, []))
  | round_group c0 c1 c2 c3 s' :
      clean s = c0 :: c1 :: c2 :: c3 :: clean s' → good_group (clean s) →
      (length s' + 4 ≤ length s)%nat → (s' = [] ↔ clean s' = []) →
      round64 fuel s
        match unbase64_group (token64 c0) (token64 c1) (token64 c2) (token64 c3) (length s') with
        | inl r => Some (r, [])
        | inr (bs, false) => Some (0, bs)
        | inr (bs, true) => r ← unbase64_loop fuel s'; Some (r.1, bs ++ r.2)
        end.

Lemma unbase64_round fuel s : round64 fuel s (unbase64_loop (S fuel) s).
Proof.
  cbn [unbase64_loop]. unfold unbase64_next. fold token64.
  destruct (next_with_spec token64 s) as [Hc|c t s1 Hc Hd|c s1 Hc Hd Hl _].
  { by constructor. }
  { rewrite (proj2 (Z.eqb_neq _ _)) by apply token64_ne_epipe.
    rewrite (proj2 (Z.ltb_lt _ _)) by done. apply round_fail; [by rewrite Hc| |done].
    rewrite Hc. destruct t as [|? [|? [|? ?]]]; simpl; lia. }
  rewrite (proj2 (Z.eqb_neq _ (- EPIPE))) by apply token64_ne_epipe.
  rewrite (proj2 (Z.ltb_ge _ _)) by done.
  destruct (token64 c =? INT_MAX) eqn:Ea.
  { apply Z.eqb_eq in Ea. apply round_fail; [by rewrite Hc| |done].
    rewrite Hc. destruct (clean s1) as [|? [|? [|? ?]]]; simpl; unfold INT_MAX in *; lia. }
  apply token64_not_pad in Ea; [|done].
  destruct (next_with_spec token64 s1) as [Hc2|c2 t2 s2 Hc2 Hd2|c2 s2 Hc2 Hd2 Hl2 _].
  { change (- EPIPE <? 0) with true. apply round_fail; [by rewrite Hc|rewrite Hc, Hc2; by intros []|done]. }
  { rewrite (proj2 (Z.ltb_lt _ _)) by done. apply round_fail; [by rewrite Hc| |done].
    rewrite Hc, Hc2. destruct t2 as [|? [|? ?]]; simpl; lia. }
  rewrite (proj2 (Z.ltb_ge _ _)) by done.
  destruct (token64 c2 =? INT_MAX) eqn:Eb.
  { apply Z.eqb_eq in Eb. apply round_fail; [by rewrite Hc| |done].
    rewrite Hc, Hc2. destruct (clean s2) as [|? [|? ?]]; simpl; unfold INT_MAX in *; lia. }
  apply token64_not_pad in Eb; [|done].
  destruct (next_with_spec token64 s2) as [Hc3|c3 t3 s3 Hc3 Hd3|c3 s3 Hc3 Hd3 Hl3 _].
  { change (- EPIPE <? 0) with true. apply round_fail; [by rewrite Hc|rewrite Hc, Hc2, Hc3; by intros []|done]. }
  { rewrite (proj2 (Z.ltb_lt _ _)) by done. apply round_fail; [by rewrite Hc| |done].
    rewrite Hc, Hc2, Hc3. destruct t3 as [|? ?]; simpl; lia. }
  rewrite (proj2 (Z.ltb_ge _ _)) by done.
  destruct (next_with_spec token64 s3) as [Hc4|c4 t4 s4 Hc4 Hd4|c4 s4 Hc4 Hd4 Hl4 Hnil].
  { change (- EPIPE <? 0) with true. apply round_fail; [by rewrite Hc|rewrite Hc, Hc2, Hc3, Hc4; by intros []|done]. }
  { rewrite (proj2 (Z.ltb_lt _ _)) by done. apply round_fail; [by rewrite Hc| |done].
    rewrite Hc, Hc2, Hc3, Hc4. simpl. lia. }
  rewrite (proj2 (Z.ltb_ge _ _)) by done.
  apply round_group; [by rewrite Hc, Hc2, Hc3, Hc4| |lia|done].
  rewrite Hc, Hc2, Hc3, Hc4. simpl. lia.
Qed.

(** The three bytes of a group, as arithmetic. *)
Lemma group_bytes a b c d :
  0 ≤ a < 64 → 0 ≤ b < 64 → 0 ≤ c < 64 → 0 ≤ d < 64 →
  u8 (Z.lor (Z.shiftl (u8 a) 2) (u8 (Z.shiftr b 4))) = a * 4 + b / 16 ∧
  u8 (Z.lor (Z.shiftl (u8 a) 2) (Z.shiftr (u8 b) 4)) = a * 4 + b / 16 ∧
  u8 (Z.lor (Z.shiftl (u8 b) 4) (Z.shiftr (u8 c) 2)) = b mod 16 * 16 + c / 4 ∧
  u8 (Z.lor (Z.shiftl (u8 c) 6) (u8 d)) = c mod 4 * 64 + d.
Proof.
  intros. change (2 ^ 4) with 16. split_and!; arith_bits; unfold wrapu; lia.
Qed.

Lemma unbase64_group_bound a b c d l :
  match unbase64_group a b c d l with
  | inl r => r < 0
  | inr (bs, _) => (length bs ≤ 3)%nat
  end.
Proof.
  unfold unbase64_group.
  repeat match goal with
  | |- context [if ?t then _ else _] => match type of t with bool => destruct t end
  end; simpl; unfold EINVAL, ENAMETOOLONG; lia.
Qed.

Lemma unbase64_loop_total fuel : ∀ s,
  (length s < fuel)%nat → ∃ r out, unbase64_loop fuel s = Some (r, out) ∧
    r ≤ 0 ∧ (4 * length out ≤ 3 * length s)%nat.
Proof.
  induction fuel as [|fuel IH]; intros s Hs; [lia|].
  destruct (unbase64_round fuel s) as [_|r _ _ Hr|c0 c1 c2 c3 s' _ _ Hl _].
  - exists 0, []. split_and!; simpl; try done; lia.
  - exists r, []. split_and!; simpl; try done; lia.
  - destruct (IH s') as (r & out & E & Hr & Ho); [lia|]. rewrite E.
    pose proof (unbase64_group_bound (token64 c0) (token64 c1) (token64 c2) (token64 c3)
      (length s')) as Hg.
    destruct (unbase64_group _ _ _ _ _) as [e|[bs [|]]]; eexists _, _; (split; [done|]);
      simpl; rewrite ?length_app; lia.
Qed.

(** The characters of the bytes of a group, as arithmetic. *)
Lemma base64_chars_full x0 x1 x2 p :
  is_byte x0 → is_byte x1 → is_byte x2 →
  base64_chars (x0 :: x1 :: x2 :: p) =
    base64char (x0 / 4) :: base64char (x0 mod 4 * 16 + x1 / 16)
    :: base64char (x1 mod 16 * 4 + x2 / 64) :: base64char (x2 mod 64) :: base64_chars p.
Proof.
  unfold is_byte. intros. cbn [base64_chars]. arith_bits. repeat f_equal; lia.
Qed.
Lemma base64_chars_two x0 x1 :
  is_byte x0 → is_byte x1 →
  base64_chars [x0; x1] =
    [base64char (x0 / 4); base64char (x0 mod 4 * 16 + x1 / 16); base64char (x1 mod 16 * 4); 61].
Proof. unfold is_byte. intros. cbn [base64_chars]. arith_bits. repeat f_equal; lia. Qed.
Lemma base64_chars_one x0 :
  is_byte x0 →
  base64_chars [x0] = [base64char (x0 / 4); base64char (x0 mod 4 * 16); 61; 61].
Proof. unfold is_byte. intros. cbn [base64_chars]. arith_bits. repeat f_equal; lia. Qed.

Lemma token64_pad : token64 61 = INT_MAX.
Proof. done. Qed.

(** Decoding a group of values. *)
Lemma group_full a b c d l :
  0 ≤ a < 64 → 0 ≤ b < 64 → 0 ≤ c < 64 → 0 ≤ d < 64 →
  unbase64_group a b c d l =
    inr ([a * 4 + b / 16; b mod 16 * 16 + c / 4; c mod 4 * 64 + d], true).
Proof.
  intros. unfold unbase64_group, INT_MAX. destruct (group_bytes a b c d) as (_ & -> & -> & ->); [done..|].
  by rewrite !(proj2 (Z.eqb_neq _ _)) by lia.
Qed.
Lemma group_two a b c l :
  0 ≤ a < 64 → 0 ≤ b < 64 → 0 ≤ c < 64 →
  unbase64_group a b c INT_MAX l =
    if negb (c mod 4 =? 0) then inl (- EINVAL)
    else if (0 <? l)%nat then inl (- ENAMETOOLONG)
    else inr ([a * 4 + b / 16; b mod 16 * 16 + c / 4], false).
Proof.
  intros. unfold unbase64_group. destruct (group_bytes a b c 0) as (_ & -> & -> & _); [done..|].
  rewrite (proj2 (Z.eqb_neq c INT_MAX)) by (unfold INT_MAX; lia). by rewrite land_3.
Qed.
Lemma group_one a b l :
  0 ≤ a < 64 → 0 ≤ b < 64 →
  unbase64_group a b INT_MAX INT_MAX l =
    if negb (b mod 16 =? 0) then inl (- EINVAL)
    else if (0 <? l)%nat then inl (- ENAMETOOLONG)
    else inr ([a * 4 + b / 16], false).
Proof.
  intros. unfold unbase64_group. destruct (group_bytes a b 0 0) as (-> & _); [done..|].
  by rewrite land_15.
Qed.

(** [round64] for an input whose first group is good. *)
Lemma unbase64_good fuel s c0 c1 c2 c3 t :
  clean s = c0 :: c1 :: c2 :: c3 :: t → good_group (clean s) →
  ∃ s', clean s' = t ∧ (length s' + 4 ≤ length s)%nat ∧ (s' = [] ↔ t = []) ∧
    unbase64_loop (S fuel) s =
      match unbase64_group (token64 c0) (token64 c1) (token64 c2) (token64 c3) (length s') with
      | inl r => Some (r, [])
      | inr (bs, false) => Some (0, bs)
      | inr (bs, true) => r ← unbase64_loop fuel s'; Some (r.1, bs ++ r.2)
      end.
Proof.
  intros E G. destruct (unbase64_round fuel s) as [?|? ? ?|d0 d1 d2 d3 s' E' _ Hl Hn];
    [congruence|done|]. exists s'. rewrite E' in E. injection E as -> -> -> -> <-. done.
Qed.

Lemma unbase64_loop_complete fuel : ∀ s p,
  (length s < fuel)%nat → clean s = base64_chars p → Forall is_byte p →
  unbase64_loop fuel s = Some (0, p).
Proof.
  induction fuel as [|fuel IH]; intros s p Hs Hp Hb; [lia|].
  destruct p as [|x0 [|x1 [|x2 p]]].
  - change (base64_chars []) with (@nil Z) in Hp.
    destruct (unbase64_round fuel s) as [_|? E|? ? ? ? ? E]; [done|congruence..].
  - apply Forall_cons in Hb as [H0 _]. rewrite base64_chars_one in Hp by done.
    unfold is_byte in H0.
    destruct (unbase64_good fuel s _ _ _ _ _ Hp) as (s' & _ & _ & Hn & ->).
    { rewrite Hp. simpl. rewrite !token64_char by lia. rewrite token64_pad. unfold INT_MAX. lia. }
    rewrite (proj2 Hn eq_refl), !token64_char, token64_pad, group_one by lia.
    replace (x0 mod 4 * 16 mod 16 =? 0) with true by lia. simpl.
    do 3 f_equal. lia.
  - apply Forall_cons in Hb as [H0 Hb]. apply Forall_cons in Hb as [H1 _].
    rewrite base64_chars_two in Hp by done. unfold is_byte in *.
    destruct (unbase64_good fuel s _ _ _ _ _ Hp) as (s' & _ & _ & Hn & ->).
    { rewrite Hp. simpl. rewrite !token64_char by lia. rewrite token64_pad. unfold INT_MAX. lia. }
    rewrite (proj2 Hn eq_refl), !token64_char, token64_pad, group_two by lia.
    replace (x1 mod 16 * 4 mod 4 =? 0) with true by lia. simpl.
    do 2 f_equal; repeat f_equal; lia.
  - apply Forall_cons in Hb as [H0 Hb]. apply Forall_cons in Hb as [H1 Hb].
    apply Forall_cons in Hb as [H2 Hb].
    rewrite base64_chars_full in Hp by done. unfold is_byte in *.
    destruct (unbase64_good fuel s _ _ _ _ _ Hp) as (s' & Hc & Hl & Hn & ->).
    { rewrite Hp. simpl. rewrite !token64_char by lia. lia. }
    rewrite !token64_char, group_full by lia. rewrite (IH s' p) by (done || lia). simpl.
    do 2 f_equal. repeat f_equal; lia.
Qed.

Lemma unbase64_loop_sound fuel : ∀ s p,
  unbase64_loop fuel s = Some (0, p) → clean s = base64_chars p ∧ Forall is_byte p.
Proof.
  induction fuel as [|fuel IH]; intros s p; [done|].
  destruct (unbase64_round fuel s) as [Hc|r _ _ Hr|c0 c1 c2 c3 s' Hc G Hl Hn].
  - intros [= <-]. by rewrite Hc.
  - intros [= ? ?]. lia.
  - rewrite Hc in *. destruct G as (G0 & G1 & G2 & G3).
    destruct (token64_range c0) as [?|[[? _]|[R0 E0]]]; [unfold EINVAL in *; lia|unfold INT_MAX in *; lia|].
    destruct (token64_range c1) as [?|[[? _]|[R1 E1]]]; [unfold EINVAL in *; lia|unfold INT_MAX in *; lia|].
    destruct (token64_range c3) as [?|[[P3 E3]|[R3 E3]]]; [unfold EINVAL in *; lia|..].
    + rewrite P3. destruct (token64_range c2) as [?|[[P2 E2]|[R2 E2]]]; [unfold EINVAL in *; lia|..].
      * rewrite P2, group_one by done. destruct (_ =? 0) eqn:Eb; simpl; [|done]. reflect_bools.
        destruct s' as [|]; [|done]. intros [= <-].
        assert (is_byte (token64 c0 * 4 + token64 c1 / 16)) by (unfold is_byte; lia).
        split; [|forall_bytes]. rewrite base64_chars_one by done.
        rewrite <- E0, <- E1, E2, E3 at 1. change (clean []) with (@nil Z).
        repeat f_equal; lia.
      * rewrite group_two by done. destruct (_ =? 0) eqn:Eb; simpl; [|done]. reflect_bools.
        destruct s' as [|]; [|done]. intros [= <-].
        set (x0 := token64 c0 * 4 + _). set (x1 := token64 c1 mod 16 * 16 + _).
        assert (is_byte x0) by (unfold is_byte; lia). assert (is_byte x1) by (unfold is_byte; lia).
        split; [|forall_bytes]. rewrite base64_chars_two by done.
        rewrite <- E0, <- E1, <- E2, E3 at 1. change (clean []) with (@nil Z).
        repeat f_equal; lia.
    + destruct (token64_range c2) as [?|[[P2 E2]|[R2 E2]]]; [unfold EINVAL in *; lia|..].
      * rewrite P2. unfold unbase64_group. rewrite Z.eqb_refl.
        by rewrite (proj2 (Z.eqb_neq (token64 c3) INT_MAX)) by (unfold INT_MAX; lia).
      * rewrite group_full by done. destruct (unbase64_loop fuel s') as [[r out]|] eqn:E; [|done].
        intros [= -> <-]. destruct (IH _ _ E) as [IH1 IH2].
        set (x0 := token64 c0 * 4 + _). set (x1 := token64 c1 mod 16 * 16 + _).
        set (x2 := token64 c2 mod 4 * 64 + _).
        assert (is_byte x0) by (unfold is_byte; lia). assert (is_byte x1) by (unfold is_byte; lia).
        assert (is_byte x2) by (unfold is_byte; lia).
        split; [|forall_bytes]. cbn [app]. rewrite base64_chars_full by done.
        rewrite <- E0, <- E1, <- E2, <- E3 at 1. rewrite IH1. repeat f_equal; lia.
Qed.

Lemma base64_chars_length p : 3 * Z.of_nat (length (base64_chars p)) ≤ 4 * (Z.of_nat (length p) + 2).
Proof.
  induction p as [p IH] using list_length_ind. destruct p as [|x0 [|x1 [|x2 p]]];
    cbn [base64_chars length]; try lia. specialize (IH p). simpl in IH. lia.
Qed.

Lemma base64mem_fits p : base64mem p = Some (base64_chars p).
Proof.
  unfold base64mem, filled. pose proof (base64_chars_length p).
  by rewrite (proj2 (Z.leb_le _ _)) by lia.
Qed.

Lemma unbase64mem_accepts s p :
  clean s = base64_chars p → Forall is_byte p → unbase64mem_full s false = Some (0, p).
Proof.
  intros Hc Hb. unfold unbase64mem_full.
  destruct (unbase64_loop_total (S (length s)) s) as (r & out & E & Hr & Ho); [lia|].
  rewrite (unbase64_loop_complete _ s p) in * by (done || lia). simplify_eq.
  cbn [mbind option_bind fst snd]. unfold filled.
  rewrite (proj2 (Z.leb_le _ _)) by (destruct (_ =? 0) eqn:E4; reflect_bools; simpl; lia).
  done.
Qed.

(** Decoding base64: a string is accepted exactly when, without white
    space, it is what [base64mem] prints for some bytes, final padding
    included, and those bytes are the result. *)
Theorem unbase64mem_iff (s p : list Z) :
  unbase64mem_full s false = Some (0, p) ↔
  base64mem p = Some (clean s) ∧ Forall is_byte p.
Proof.
  rewrite base64mem_fits. split; [|intros [[= H] Hb]; by apply unbase64mem_accepts].
  unfold unbase64mem_full. destruct (unbase64_loop _ _) as [[r out]|] eqn:E; [|done].
  cbn [mbind option_bind fst snd]. destruct (filled _ out) as [o|] eqn:Ef; [|done].
  cbn [mbind option_bind]. intros H. assert (r = 0) as -> by congruence. injection H as ->.
  assert (p = out) as ->.
  { unfold filled in Ef. destruct (_ <=? _); congruence. }
  by destruct (unbase64_loop_sound _ _ _ E) as [-> Hb].
Qed.

(** No input makes [unhexmem_full] or [unbase64mem_full] write outside the
    buffer it allocated or loop for ever: each returns 0 or a negative error,
    and on an error nothing is handed out. *)
Lemma hex_base64_safe (s : list Z) (oom : bool) :
  (∃ r out, unhexmem_full s oom = Some (r, out) ∧ r ≤ 0 ∧ (r < 0 → out = [])) ∧
  (∃ r out, unbase64mem_full s oom = Some (r, out) ∧ r ≤ 0 ∧ (r < 0 → out = [])).
Proof.
  assert (∀ r (out : list Z), r < 0 → (if r <? 0 then [] else out) = []) as Hneg.
  { intros r out Hr. by rewrite (proj2 (Z.ltb_lt _ _)). }
  split; unfold unhexmem_full, unbase64mem_full; (destruct oom; [by eexists _, _|]).
  - destruct (unhex_loop_total (S (length s)) s) as (r & out & E & Hr & Ho); [lia|].
    rewrite E. cbn [mbind option_bind fst snd]. unfold filled.
    rewrite (proj2 (Z.leb_le _ _)) by lia. eexists _, _. split; [done|]. auto.
  - destruct (unbase64_loop_total (S (length s)) s) as (r & out & E & Hr & Ho); [lia|].
    rewrite E. cbn [mbind option_bind fst snd]. unfold filled.
    rewrite (proj2 (Z.leb_le _ _)) by (destruct (_ =? 0) eqn:E4; reflect_bools; simpl; lia).
    eexists _, _. split; [done|]. auto.
Qed.

(** ** Wrapped base64 *)

Lemma clean_app s t : clean (s ++ t) = clean s ++ clean t.
Proof. apply filter_app. Qed.

Lemma clean_blanks n : clean (replicate n 32) = [].
Proof. induction n as [|n IH]; simpl; [done|]. by rewrite clean_cons. Qed.

Lemma clean_id s : Forall (λ c, is_ws c = false) s → clean s = s.
Proof.
  induction 1 as [|c s Hc Hs IH]; [done|]. by rewrite clean_cons, Hc, IH.
Qed.

Lemma base64_chars_no_ws p :
  Forall is_byte p → Forall (λ c, is_ws c = false) (base64_chars p).
Proof.
  induction p as [p IH] using list_length_ind. intros Hb.
  destruct p as [|x0 [|x1 [|x2 p]]]; [by apply Forall_nil_2|..];
    repeat (match goal with H : Forall _ (_ :: _) |- _ => apply Forall_cons in H as [? H] end).
  - rewrite base64_chars_one by done. unfold is_byte in *.
    repeat constructor; apply base64char_token; lia.
  - rewrite base64_chars_two by done. unfold is_byte in *.
    repeat constructor; apply base64char_token; lia.
  - rewrite base64_chars_full by done. specialize (IH p ltac:(simpl; lia) Hb).
    unfold is_byte in *. repeat constructor; [apply base64char_token; lia..|done].
Qed.

(** The lines hold the characters, white space aside, and fit their bound. *)
Lemma base64_lines_clean n : ∀ b indent width x,
  0 < width → (length x ≤ n * Z.to_nat width)%nat → Forall (λ c, is_ws c = false) x →
  clean (base64_lines n b indent width x) = x.
Proof.
  induction n as [|n IH]; intros b indent width x Hw Hx Hf; simpl.
  - by destruct x; [|simpl in Hx; lia].
  - rewrite !clean_app, clean_cons. rewrite IH; [|done|rewrite length_drop; lia|by apply Forall_drop].
    rewrite (clean_id (take _ _)) by (by apply Forall_take).
    assert (is_ws (if (0 <? n)%nat then 10 else 0) = true) as -> by (by destruct (0 <? n)%nat).
    assert (clean (if b then replicate (Z.to_nat indent) 32 else []) = []) as ->.
    { destruct b; [apply clean_blanks|done]. }
    simpl. apply take_drop.
Qed.

Lemma base64_lines_length n : ∀ b indent width x,
  0 ≤ indent → 0 ≤ width →
  Z.of_nat (length (base64_lines n b indent width x)) ≤ (indent + width + 1) * Z.of_nat n.
Proof.
  induction n as [|n IH]; intros b indent width x Hi Hw; [simpl; lia|].
  cbn [base64_lines]. rewrite !length_app. cbn [length].
  specialize (IH true indent width (drop (Z.to_nat width) x) Hi Hw).
  assert (length (take (Z.to_nat width) x) ≤ Z.to_nat width)%nat by (rewrite length_take; lia).
  assert (length (if b then replicate (Z.to_nat indent) 32%Z else []) ≤ Z.to_nat indent)%nat
    by (destruct b; rewrite ?length_replicate; simpl; lia).
  rewrite Nat2Z.inj_succ, Z.mul_succ_r.
  lia.
Qed.

(** The number of lines is enough, and the size computation does not overflow. *)
Lemma base64_line_count len width :
  0 < len → 0 < width →
  let lines := len / width + (if len mod width =? 0 then 0 else 1) in
  0 ≤ lines ≤ len ∧ len ≤ lines * width.
Proof.
  intros Hl Hw lines. pose proof (Z.div_mod len width ltac:(lia)) as Hd.
  pose proof (Z.mod_pos_bound len width Hw) as Hm. pose proof (Z.div_pos len width).
  unfold lines. destruct (len mod width =? 0) eqn:E; reflect_bools; nia.
Qed.

Lemma base64_size_ok lines d k :
  0 ≤ lines < 2 ^ 30 → 0 < d ≤ 2 ^ 32 → k ≤ 2 ^ 32 →
  (lines >? (SSIZE_MAX - k) / d) = false.
Proof.
  intros Hl Hd Hk. rewrite Z.gtb_ltb. apply Z.ltb_ge. apply Z.div_le_lower_bound; [lia|].
  unfold SSIZE_MAX. nia.
Qed.

Lemma append_width_spec prefix plen sep indent p width :
  Forall is_byte p → p ≠ [] → 0 ≤ plen ≤ Z.of_nat (length prefix) → 0 ≤ indent → 0 < width →
  indent < 2 ^ 31 → width < 2 ^ 31 - 1 → plen < 2 ^ 31 → Z.of_nat (length p) < 2 ^ 29 →
  length sep = 1%nat → clean sep = [] →
  ∃ t, base64_append_width prefix plen sep indent p width false = Some (0, t) ∧
    take (Z.to_nat plen) t = take (Z.to_nat plen) prefix ∧
    clean (drop (Z.to_nat plen) t) = base64_chars p.
Proof.
  intros Hb Hne Hpl Hi Hw Hi31 Hw31 Hp31 Hp Hsep Hcsep.
  unfold base64_append_width. rewrite base64mem_fits, Hsep. cbn [mbind option_bind].
  pose proof (base64_chars_length p) as Hl.
  assert (0 < Z.of_nat (length (base64_chars p))) as Hpos
    by (destruct p as [|? [|? [|? ?]]]; simpl; [done|lia..]).
  set (len := Z.of_nat (length (base64_chars p))) in *.
  rewrite (proj2 (Z.leb_gt len _)) by done. rewrite (proj2 (Z.leb_gt width _)) by done.
  rewrite !(proj2 (Z.ltb_ge _ _)) by lia. cbn [orb].
  destruct (base64_line_count len width Hpos Hw) as [Hlines Hcover].
  set (lines := len / width + _) in *.
  replace (plen >=? SSIZE_MAX - 1 - Z.of_nat 1) with false
    by (symmetry; rewrite Z.geb_leb; apply Z.leb_gt; unfold SSIZE_MAX; lia).
  replace (SSIZE_MAX - plen - 1 - Z.of_nat 1) with (SSIZE_MAX - (plen + 2)) by lia.
  rewrite base64_size_ok by lia. cbn [orb].
  assert (length (take (Z.to_nat plen) prefix) = Z.to_nat plen) as Ht
    by (rewrite length_take; lia).
  pose proof (base64_lines_length (Z.to_nat lines) true indent width (base64_chars p) Hi
    ltac:(lia)) as Hll.
  rewrite (proj2 (Z.leb_le _ _)) by (rewrite !length_app, Ht, Hsep; lia).
  eexists. split; [done|]. rewrite take_app_length', drop_app_length' by done. split; [done|].
  rewrite clean_app, Hcsep. simpl. apply base64_lines_clean; [done| |by apply base64_chars_no_ws].
  apply Nat2Z.inj_le. fold len. rewrite Nat2Z.inj_mul, !Z2Nat.id by lia. done.
Qed.

(** [base64_append] breaks the encoding into indented lines after the
    prefix, within the memory it asks for, and what it appends decodes to the
    bytes: the prefix is kept and the rest is accepted by
    [unbase64mem_full], final NUL included. *)
Theorem base64_append_roundtrip (prefix p : list Z) (plen indent width : Z) :
  Forall is_byte p → p ≠ [] → Z.of_nat (length p) < 2 ^ 29 →
  0 ≤ plen ≤ Z.of_nat (length prefix) → plen < 2 ^ 31 →
  0 ≤ indent → 3 ≤ width < 2 ^ 31 → indent + 1 < width →
  ∃ t, base64_append prefix plen p indent width false = Some (0, t) ∧
    take (Z.to_nat plen) t = take (Z.to_nat plen) prefix ∧
    unbase64mem_full (drop (Z.to_nat plen) t) false = Some (0, p).
Proof.
  intros Hb Hne Hlen Hpl Hp31 Hi Hw Hiw. unfold base64_append.
  rewrite Z.quot_div_nonneg by lia.
  destruct ((plen >? width / 2) || (plen + indent >? width)) eqn:E.
  - destruct (append_width_spec prefix plen [10] indent p (width - indent - 1))
      as (t & Et & Ht & Hc); try (done || lia).
    exists t. split; [done|]. split; [done|]. by apply unbase64mem_accepts.
  - apply orb_false_iff in E as [E1 E2]. rewrite Z.gtb_ltb in E1, E2. reflect_bools.
    destruct (append_width_spec prefix plen [32] plen p (width - plen - 1))
      as (t & Et & Ht & Hc); try (done || lia).
    exists t. split; [done|]. split; [done|]. by apply unbase64mem_accepts.
Qed.

Lemma base64_append_roundtrip_witness :
  ∃ t, base64_append [107; 61] 2 [1; 2; 3; 4; 5; 6; 7] 4 10 false = Some (0, t) ∧
    take (Z.to_nat 2) t = [107; 61] ∧
    unbase64mem_full (drop (Z.to_nat 2) t) false = Some (0, [1; 2; 3; 4; 5; 6; 7]).
Proof.
  apply (base64_append_roundtrip [107; 61] [1; 2; 3; 4; 5; 6; 7] 2 4 10); try done.
  apply (bool_decide_unpack _). by vm_compute.
Defined.
