(* ===== verification/Base32Props.v ===== *)
(** * systemd: properties of base32hex

    The decoder of [Hexdecoct] accepts exactly what the encoder prints, with
    and without padding, and both stay inside their buffers. *)

From S2P Require Import Prelude Hexdecoct HexdecoctProps.

#[local] Set Warnings "-clear-no-such-hyp".
#[local] Ltac Zify.zify_post_hook ::= Z.to_euclidean_division_equations.

(** ** Digits and bytes as arithmetic *)

Definition dig0 (x0 : Z) : Z := x0 / 8.
Definition dig1 (x0 x1 : Z) : Z := x0 mod 8 * 4 + x1 / 64.
Definition dig2 (x1 : Z) : Z := x1 mod 64 / 2.
Definition dig3 (x1 x2 : Z) : Z := x1 mod 2 * 16 + x2 / 16.
Definition dig4 (x2 x3 : Z) : Z := x2 mod 16 * 2 + x3 / 128.
Definition dig5 (x3 : Z) : Z := x3 mod 128 / 4.
Definition dig6 (x3 x4 : Z) : Z := x3 mod 4 * 8 + x4 / 32.
Definition dig7 (x4 : Z) : Z := x4 mod 32.

Definition is_digit (a : Z) : Prop := 0 ≤ a < 32.

Section digits.
Context (x0 x1 x2 x3 x4 : Z).
Context (H0 : is_byte x0) (H1 : is_byte x1) (H2 : is_byte x2) (H3 : is_byte x3) (H4 : is_byte x4).

Lemma dig_range :
  is_digit (dig0 x0) ∧ is_digit (dig1 x0 x1) ∧ is_digit (dig2 x1) ∧ is_digit (dig3 x1 x2) ∧
  is_digit (dig4 x2 x3) ∧ is_digit (dig5 x3) ∧ is_digit (dig6 x3 x4) ∧ is_digit (dig7 x4).
Proof.
  clear -H0 H1 H2 H3 H4. unfold is_byte, is_digit, dig0, dig1, dig2, dig3, dig4, dig5, dig6, dig7 in *.
  split_and!; lia.
Qed.

(** The expressions of the encoder are these digits. *)
Lemma dig_bits :
  Z.shiftr x0 3 = dig0 x0 ∧
  Z.lor (Z.shiftl (Z.land x0 7) 2) (Z.shiftr x1 6) = dig1 x0 x1 ∧
  Z.shiftr (Z.land x1 63) 1 = dig2 x1 ∧
  Z.lor (Z.shiftl (Z.land x1 1) 4) (Z.shiftr x2 4) = dig3 x1 x2 ∧
  Z.lor (Z.shiftl (Z.land x2 15) 1) (Z.shiftr x3 7) = dig4 x2 x3 ∧
  Z.shiftr (Z.land x3 127) 2 = dig5 x3 ∧
  Z.lor (Z.shiftl (Z.land x3 3) 3) (Z.shiftr x4 5) = dig6 x3 x4 ∧
  Z.land x4 31 = dig7 x4.
Proof.
  clear -H0 H1 H2 H3 H4. unfold is_byte, dig0, dig1, dig2, dig3, dig4, dig5, dig6, dig7 in *.
  split_and!; rewrite ?shr, ?shl by lia;
    rewrite ?land_1, ?land_3, ?land_7, ?land_15, ?land_31, ?land_63, ?land_127;
    try (rewrite lor_add by lia); lia.
Qed.

(** Decoding the digits of bytes gives the bytes. *)
Lemma bytes_of_digits :
  dig0 x0 * 8 + dig1 x0 x1 / 4 = x0 ∧
  dig1 x0 x1 mod 4 * 64 + dig2 x1 * 2 + dig3 x1 x2 / 16 = x1 ∧
  dig3 x1 x2 mod 16 * 16 + dig4 x2 x3 / 2 = x2 ∧
  dig4 x2 x3 mod 2 * 128 + dig5 x3 * 4 + dig6 x3 x4 / 8 = x3 ∧
  dig6 x3 x4 mod 8 * 32 + dig7 x4 = x4.
Proof.
  clear -H0 H1 H2 H3 H4. unfold is_byte, dig0, dig1, dig2, dig3, dig4, dig5, dig6, dig7 in *.
  split_and!; lia.
Qed.
End digits.

Section bytes.
Context (a b c d e f g h : Z).
Context (Ha : is_digit a) (Hb : is_digit b) (Hc : is_digit c) (Hd : is_digit d)
  (He : is_digit e) (Hf : is_digit f) (Hg : is_digit g) (Hh : is_digit h).

Lemma byte_arith :
  unbase32_byte0 a b = a * 8 + b / 4 ∧
  unbase32_byte1 b c d = b mod 4 * 64 + c * 2 + d / 16 ∧
  unbase32_byte2 d e = d mod 16 * 16 + e / 2 ∧
  unbase32_byte3 e f g = e mod 2 * 128 + f * 4 + g / 8 ∧
  unbase32_byte4 g h = g mod 8 * 32 + h.
Proof.
  clear -Ha Hb Hc Hd He Hf Hg Hh. unfold is_digit in *.
  unfold unbase32_byte0, unbase32_byte1, unbase32_byte2, unbase32_byte3, unbase32_byte4.
  rewrite !(wrapu_small 8 a), !(wrapu_small 8 b), !(wrapu_small 8 c), !(wrapu_small 8 d),
    !(wrapu_small 8 e), !(wrapu_small 8 f), !(wrapu_small 8 g), !(wrapu_small 8 h) by lia.
  rewrite ?shr, ?shl by lia. split_and!.
  - rewrite lor_add by lia. unfold wrapu. lia.
  - rewrite (lor_add b) by lia.
    replace (b * 2 ^ 6 + c * 2 ^ 1) with ((b * 32 + c) * 2 ^ 1) by lia.
    rewrite lor_add by lia. unfold wrapu. lia.
  - rewrite lor_add by lia. unfold wrapu. lia.
  - rewrite (lor_add e) by lia.
    replace (e * 2 ^ 7 + f * 2 ^ 2) with ((e * 32 + f) * 2 ^ 2) by lia.
    rewrite lor_add by lia. unfold wrapu. lia.
  - rewrite lor_add by lia. unfold wrapu. lia.
Qed.

(** The digits of the decoded bytes are the digits. *)
Lemma digits_of_bytes :
  let x0 := a * 8 + b / 4 in
  let x1 := b mod 4 * 64 + c * 2 + d / 16 in
  let x2 := d mod 16 * 16 + e / 2 in
  let x3 := e mod 2 * 128 + f * 4 + g / 8 in
  let x4 := g mod 8 * 32 + h in
  (is_byte x0 ∧ is_byte x1 ∧ is_byte x2 ∧ is_byte x3 ∧ is_byte x4) ∧
  dig0 x0 = a ∧ dig1 x0 x1 = b ∧ dig2 x1 = c ∧ dig3 x1 x2 = d ∧ dig4 x2 x3 = e ∧
  dig5 x3 = f ∧ dig6 x3 x4 = g ∧ dig7 x4 = h.
Proof.
  clear -Ha Hb Hc Hd He Hf Hg Hh. unfold is_byte, is_digit, dig0, dig1, dig2, dig3, dig4, dig5, dig6, dig7 in *.
  cbv zeta. split_and!; lia.
Qed.
End bytes.

(** ** The loops *)

Lemma digit32_char a : is_digit a → digit32 (base32hexchar a) = Some a.
Proof.
  intros Ha. unfold digit32. rewrite unbase32hexchar_base32hexchar by done.
  unfold is_digit in Ha. by rewrite (proj2 (Z.ltb_ge _ _)) by lia.
Qed.

Lemma digit32_Some c a : digit32 c = Some a → is_digit a ∧ c = base32hexchar a.
Proof.
  unfold digit32. destruct (unbase32hexchar c <? 0) eqn:E; reflect_bools; [done|].
  intros [= <-]. destruct (base32hexchar_unbase32hexchar c E). unfold is_digit. done.
Qed.

Lemma byte_0 : is_byte 0.
Proof. by unfold is_byte. Qed.

(** The encoder's output by digits; the last group continues with zero bits. *)
Lemma base32_chars_full x0 x1 x2 x3 x4 p b :
  is_byte x0 → is_byte x1 → is_byte x2 → is_byte x3 → is_byte x4 →
  base32hex_chars b (x0 :: x1 :: x2 :: x3 :: x4 :: p) =
    (base32hexchar <$> [dig0 x0; dig1 x0 x1; dig2 x1; dig3 x1 x2; dig4 x2 x3; dig5 x3;
                        dig6 x3 x4; dig7 x4]) ++ base32hex_chars b p.
Proof.
  intros. destruct (dig_bits x0 x1 x2 x3 x4) as (E0 & E1 & E2 & E3 & E4 & E5 & E6 & E7);
    try done. cbn [base32hex_chars]. rewrite E0, E1, E2, E3, E4, E5, E6, E7. done.
Qed.

Definition pad32 (b : bool) (n : nat) : list Z := if b then replicate n 61 else [].

Lemma base32_chars_tail x0 x1 x2 x3 b :
  is_byte x0 → is_byte x1 → is_byte x2 → is_byte x3 →
  base32hex_chars b [x0; x1; x2; x3] =
    (base32hexchar <$> [dig0 x0; dig1 x0 x1; dig2 x1; dig3 x1 x2; dig4 x2 x3; dig5 x3;
                        dig6 x3 0]) ++ pad32 b 1 ∧
  base32hex_chars b [x0; x1; x2] =
    (base32hexchar <$> [dig0 x0; dig1 x0 x1; dig2 x1; dig3 x1 x2; dig4 x2 0]) ++ pad32 b 3 ∧
  base32hex_chars b [x0; x1] =
    (base32hexchar <$> [dig0 x0; dig1 x0 x1; dig2 x1; dig3 x1 0]) ++ pad32 b 4 ∧
  base32hex_chars b [x0] = (base32hexchar <$> [dig0 x0; dig1 x0 0]) ++ pad32 b 6.
Proof.
  intros H0 H1 H2 H3.
  destruct (dig_bits x0 x1 x2 x3 0 H0 H1 H2 H3 byte_0) as (E0 & E1 & E2 & E3 & E4 & E5 & E6 & _).
  destruct (dig_bits x0 0 x2 0 0 H0 byte_0 H2 byte_0 byte_0) as (_ & F1 & _ & _ & F4 & _ & _ & _).
  destruct (dig_bits x0 x1 0 x3 0 H0 H1 byte_0 H3 byte_0) as (_ & _ & _ & F3 & _ & _ & _ & _).
  rewrite Z.shiftr_0_l, Z.lor_0_r in E6, F1, F3, F4.
  cbn [base32hex_chars]. rewrite E0, E1, E2, E3, E4, E5, E6, F1, F3, F4. done.
Qed.

(** What the decoder makes of the encoder's digits. *)
Lemma unbase32_loop_complete p :
  Forall is_byte p → unbase32hex_loop (base32hex_chars false p) = (0, p).
Proof.
  induction p as [p IH] using list_length_ind. intros Hb.
  destruct p as [|x0 [|x1 [|x2 [|x3 [|x4 p]]]]]; [done|..];
    repeat (match goal with H : Forall _ (_ :: _) |- _ => apply Forall_cons in H as [? H] end).
  all: pose proof byte_0.
  - destruct (base32_chars_tail x0 0 0 0 false) as (_ & _ & _ & ->); try done.
    destruct (dig_range x0 0 0 0 0) as (R0 & R1 & _); try done.
    destruct (byte_arith (dig0 x0) (dig1 x0 0) 0 0 0 0 0 0) as (B0 & _); try done.
    destruct (bytes_of_digits x0 0 0 0 0) as (D0 & _); try done.
    cbn [fmap list_fmap app pad32 unbase32hex_loop]. rewrite !digit32_char by done.
    rewrite land_3, B0, D0. replace (dig1 x0 0 mod 4 =? 0) with true; [done|].
    unfold dig1. lia.
  - destruct (base32_chars_tail x0 x1 0 0 false) as (_ & _ & -> & _); try done.
    destruct (dig_range x0 x1 0 0 0) as (R0 & R1 & R2 & R3 & _); try done.
    destruct (byte_arith (dig0 x0) (dig1 x0 x1) (dig2 x1) (dig3 x1 0) 0 0 0 0)
      as (B0 & B1 & _); try done.
    destruct (bytes_of_digits x0 x1 0 0 0) as (D0 & D1 & _); try done.
    cbn [fmap list_fmap app pad32 unbase32hex_loop]. rewrite !digit32_char by done.
    rewrite land_15, B0, B1, D0, D1. replace (dig3 x1 0 mod 16 =? 0) with true; [done|].
    unfold dig3. lia.
  - destruct (base32_chars_tail x0 x1 x2 0 false) as (_ & -> & _ & _); try done.
    destruct (dig_range x0 x1 x2 0 0) as (R0 & R1 & R2 & R3 & R4 & _); try done.
    destruct (byte_arith (dig0 x0) (dig1 x0 x1) (dig2 x1) (dig3 x1 x2) (dig4 x2 0) 0 0 0)
      as (B0 & B1 & B2 & _); try done.
    destruct (bytes_of_digits x0 x1 x2 0 0) as (D0 & D1 & D2 & _); try done.
    cbn [fmap list_fmap app pad32 unbase32hex_loop]. rewrite !digit32_char by done.
    rewrite land_1, B0, B1, B2, D0, D1, D2. replace (dig4 x2 0 mod 2 =? 0) with true; [done|].
    unfold dig4. lia.
  - destruct (base32_chars_tail x0 x1 x2 x3 false) as (-> & _ & _ & _); try done.
    destruct (dig_range x0 x1 x2 x3 0) as (R0 & R1 & R2 & R3 & R4 & R5 & R6 & _); try done.
    destruct (byte_arith (dig0 x0) (dig1 x0 x1) (dig2 x1) (dig3 x1 x2) (dig4 x2 x3) (dig5 x3)
      (dig6 x3 0) 0) as (B0 & B1 & B2 & B3 & _); try done.
    destruct (bytes_of_digits x0 x1 x2 x3 0) as (D0 & D1 & D2 & D3 & _); try done.
    cbn [fmap list_fmap app pad32 unbase32hex_loop]. rewrite !digit32_char by done.
    rewrite land_7, B0, B1, B2, B3, D0, D1, D2, D3.
    replace (dig6 x3 0 mod 8 =? 0) with true; [done|]. unfold dig6. lia.
  - rewrite base32_chars_full by done.
    destruct (dig_range x0 x1 x2 x3 x4) as (R0 & R1 & R2 & R3 & R4 & R5 & R6 & R7); try done.
    destruct (byte_arith (dig0 x0) (dig1 x0 x1) (dig2 x1) (dig3 x1 x2) (dig4 x2 x3) (dig5 x3)
      (dig6 x3 x4) (dig7 x4)) as (B0 & B1 & B2 & B3 & B4); try done.
    destruct (bytes_of_digits x0 x1 x2 x3 x4) as (D0 & D1 & D2 & D3 & D4); try done.
    cbn [fmap list_fmap app unbase32hex_loop]. rewrite !digit32_char by done.
    rewrite IH by (done || simpl; lia). by rewrite B0, B1, B2, B3, B4, D0, D1, D2, D3, D4.
Qed.

Lemma digit_0 : is_digit 0.
Proof. by unfold is_digit. Qed.

(** Names the digits of the characters at hand; an invalid one is refused. *)
Ltac read_digits :=
  repeat match goal with
  | |- context [match digit32 ?x with _ => _ end] =>
      let a := fresh "a" in let E := fresh "E" in let R := fresh "R" in
      destruct (digit32 x) as [a|] eqn:E; [|by intros [=]];
      apply digit32_Some in E as [R ->]
  end.

(** What the decoder accepts is what the encoder prints, without padding. *)
Lemma unbase32_loop_sound t : ∀ p,
  unbase32hex_loop t = (0, p) → t = base32hex_chars false p ∧ Forall is_byte p.
Proof.
  pose proof digit_0 as Z0.
  induction t as [t IH] using list_length_ind. intros p.
  destruct t as [|y0 [|y1 [|y2 [|y3 [|y4 [|y5 [|y6 [|y7 t]]]]]]]];
    cbn [unbase32hex_loop]; try (by intros [=]); [by intros [= <-]|read_digits..].
  - rewrite land_3. destruct (_ =? 0) eqn:E; [|done]. reflect_bools. intros [= <-].
    destruct (byte_arith a a0 0 0 0 0 0 0) as (B0 & _); try done.
    destruct (digits_of_bytes a a0 0 0 0 0 0 0) as ((K0 & K1 & _) & D0 & D1 & _); try done.
    rewrite B0. split; [|forall_bytes].
    destruct (base32_chars_tail (a * 8 + a0 / 4) 0 0 0 false) as (_ & _ & _ & ->); try done.
    rewrite E in D1. change (dig1 (a * 8 + a0 / 4) 0 = a0) in D1. by rewrite D0, D1.
  - rewrite land_15. destruct (_ =? 0) eqn:E; [|done]. reflect_bools. intros [= <-].
    destruct (byte_arith a a0 a1 a2 0 0 0 0) as (B0 & B1 & _); try done.
    destruct (digits_of_bytes a a0 a1 a2 0 0 0 0)
      as ((K0 & K1 & K2 & _) & D0 & D1 & D2 & D3 & _); try done.
    rewrite B0, B1. split; [|forall_bytes].
    destruct (base32_chars_tail (a * 8 + a0 / 4) (a0 mod 4 * 64 + a1 * 2 + a2 / 16) 0 0 false)
      as (_ & _ & -> & _); try done.
    rewrite E in D3. change (dig3 (a0 mod 4 * 64 + a1 * 2 + a2 / 16) 0 = a2) in D3.
    by rewrite D0, D1, D2, D3.
  - rewrite land_1. destruct (_ =? 0) eqn:E; [|done]. reflect_bools. intros [= <-].
    destruct (byte_arith a a0 a1 a2 a3 0 0 0) as (B0 & B1 & B2 & _); try done.
    destruct (digits_of_bytes a a0 a1 a2 a3 0 0 0)
      as ((K0 & K1 & K2 & K3 & _) & D0 & D1 & D2 & D3 & D4 & _); try done.
    rewrite B0, B1, B2. split; [|forall_bytes].
    destruct (base32_chars_tail (a * 8 + a0 / 4) (a0 mod 4 * 64 + a1 * 2 + a2 / 16)
      (a2 mod 16 * 16 + a3 / 2) 0 false) as (_ & -> & _ & _); try done.
    rewrite E in D4. change (dig4 (a2 mod 16 * 16 + a3 / 2) 0 = a3) in D4.
    by rewrite D0, D1, D2, D3, D4.
  - rewrite land_7. destruct (_ =? 0) eqn:E; [|done]. reflect_bools. intros [= <-].
    destruct (byte_arith a a0 a1 a2 a3 a4 a5 0) as (B0 & B1 & B2 & B3 & _); try done.
    destruct (digits_of_bytes a a0 a1 a2 a3 a4 a5 0)
      as ((K0 & K1 & K2 & K3 & K4) & D0 & D1 & D2 & D3 & D4 & D5 & D6 & _); try done.
    rewrite B0, B1, B2, B3. split; [|forall_bytes].
    destruct (base32_chars_tail (a * 8 + a0 / 4) (a0 mod 4 * 64 + a1 * 2 + a2 / 16)
      (a2 mod 16 * 16 + a3 / 2) (a3 mod 2 * 128 + a4 * 4 + a5 / 8) false)
      as (-> & _ & _ & _); try done.
    rewrite E in D6. change (dig6 (a3 mod 2 * 128 + a4 * 4 + a5 / 8) 0 = a5) in D6.
    by rewrite D0, D1, D2, D3, D4, D5, D6.
  - destruct (unbase32hex_loop t) as [r out] eqn:Et. intros [= -> <-].
    destruct (IH t ltac:(simpl; lia) _ Et) as [-> Hb].
    destruct (byte_arith a a0 a1 a2 a3 a4 a5 a6) as (B0 & B1 & B2 & B3 & B4); try done.
    destruct (digits_of_bytes a a0 a1 a2 a3 a4 a5 a6)
      as ((K0 & K1 & K2 & K3 & K4) & D0 & D1 & D2 & D3 & D4 & D5 & D6 & D7); try done.
    rewrite B0, B1, B2, B3, B4. split; [|forall_bytes]. cbn [app].
    rewrite base32_chars_full by done. rewrite D0, D1, D2, D3, D4, D5, D6, D7. done.
Qed.

(** ** Lengths and padding *)

Definition pad_count (l : nat) : nat :=
  match l mod 5 with 1 => 6 | 2 => 4 | 3 => 3 | 4 => 1 | _ => 0 end%nat.

Lemma mod5_step l : ((5 + l) mod 5)%nat = (l mod 5)%nat.
Proof. rewrite Nat.add_comm. by rewrite <- (Nat.mul_1_l 5) at 1; rewrite Nat.Div0.mod_add. Qed.

Lemma base32_chars_padding p :
  base32hex_chars true p = base32hex_chars false p ++ replicate (pad_count (length p)) 61.
Proof.
  induction p as [p IH] using list_length_ind.
  destruct p as [|x0 [|x1 [|x2 [|x3 [|x4 p]]]]]; try done.
  cbn [base32hex_chars]. rewrite IH by (simpl; lia). rewrite app_assoc. do 2 f_equal.
  unfold pad_count. cbn [length]. by rewrite <- (mod5_step (length p)).
Qed.

Lemma base32_chars_length p :
  let l := Z.of_nat (length p) in
  Z.of_nat (length (base32hex_chars false p)) =
    l / 5 * 8 + (if l mod 5 =? 1 then 2 else if l mod 5 =? 2 then 4
                 else if l mod 5 =? 3 then 5 else if l mod 5 =? 4 then 7 else 0).
Proof.
  induction p as [p IH] using list_length_ind.
  destruct p as [|x0 [|x1 [|x2 [|x3 [|x4 p]]]]]; try done.
  cbn [base32hex_chars]. cbv zeta in *. rewrite length_app. cbn [length].
  rewrite Nat2Z.inj_add, IH by (simpl; lia).
  replace (Z.of_nat (S (S (S (S (S (length p))))))) with (Z.of_nat (length p) + 1 * 5) by lia.
  rewrite Z.div_add, Z.mod_add by lia. lia.
Qed.

Lemma pad_count_spec l :
  Z.of_nat (pad_count l) =
    (if Z.of_nat l mod 5 =? 1 then 6 else if Z.of_nat l mod 5 =? 2 then 4
     else if Z.of_nat l mod 5 =? 3 then 3 else if Z.of_nat l mod 5 =? 4 then 1 else 0).
Proof.
  unfold pad_count. change 5 with (Z.of_nat 5). rewrite <- (Nat2Z.inj_mod l 5).
  pose proof (Nat.mod_upper_bound l 5). by destruct (l mod 5)%nat as [|[|[|[|[|]]]]]; try lia.
Qed.

(** Splits the cases of [l mod 5] or [l mod 8]. *)
Ltac mod_cases := repeat (case_match; reflect_bools); try lia.

Lemma base32hexmem_fits p b : base32hexmem p b = Some (base32hex_chars b p).
Proof.
  unfold base32hexmem, filled, base32hexmem_len.
  pose proof (base32_chars_length p) as Hl. cbv zeta in *.
  rewrite (proj2 (Z.leb_le _ _)); [done|]. destruct b.
  - rewrite base32_chars_padding, length_app, length_replicate, Nat2Z.inj_add, Hl, pad_count_spec.
    mod_cases.
  - rewrite Hl. mod_cases.
Qed.

Lemma unbase32hexmem_len_chars p :
  unbase32hexmem_len (Z.of_nat (length (base32hex_chars false p))) = Some (Z.of_nat (length p)).
Proof.
  rewrite base32_chars_length. unfold unbase32hexmem_len. cbv zeta.
  mod_cases; try (f_equal; lia).
Qed.

(** Stripping the padding. *)
Lemma strip_pad_spec n : ∀ rs, ∃ k,
  (k ≤ n)%nat ∧ rs = replicate k 61 ++ strip_pad n rs.
Proof.
  induction n as [|n IH]; intros rs; [by exists 0%nat; destruct rs|].
  destruct rs as [|c rs]; [by exists 0%nat; split; [lia|]|]. simpl.
  destruct (c =? 61) eqn:E; reflect_bools; [|by exists 0%nat; split; [lia|]].
  destruct (IH rs) as (k & Hk & Ers). exists (S k). subst c. split; [lia|]. simpl. by f_equal.
Qed.

Lemma strip_pad_app n k rt :
  (k ≤ n)%nat → Forall (λ c, c ≠ 61) rt → strip_pad n (replicate k 61 ++ rt) = rt.
Proof.
  revert n. induction k as [|k IH]; intros n Hk Hrt; simpl.
  - destruct n as [|n], rt as [|c rt]; try done. simpl.
    apply Forall_cons in Hrt as [Hc _]. by rewrite (proj2 (Z.eqb_neq _ _)).
  - destruct n as [|n]; [lia|]. simpl. apply IH; [lia|done].
Qed.

Lemma base32hexchar_not_pad a : is_digit a → base32hexchar a ≠ 61.
Proof.
  intros Ha E. pose proof (check_range (λ a, negb (base32hexchar a =? 61)) 32 a
    ltac:(by vm_compute) Ha) as H. cbv beta in H. reflect_bools. done.
Qed.

Lemma base32_chars_not_pad p :
  Forall is_byte p → Forall (λ c, c ≠ 61) (base32hex_chars false p).
Proof.
  induction p as [p IH] using list_length_ind. intros Hb. pose proof byte_0.
  destruct p as [|x0 [|x1 [|x2 [|x3 [|x4 p]]]]]; [by apply Forall_nil_2|..];
    repeat (match goal with H : Forall _ (_ :: _) |- _ => apply Forall_cons in H as [? H] end).
  - destruct (base32_chars_tail x0 0 0 0 false) as (_ & _ & _ & ->); try done.
    destruct (dig_range x0 0 0 0 0) as (? & ? & _); try done.
    simpl. repeat constructor; by apply base32hexchar_not_pad.
  - destruct (base32_chars_tail x0 x1 0 0 false) as (_ & _ & -> & _); try done.
    destruct (dig_range x0 x1 0 0 0) as (? & ? & ? & ? & _); try done.
    simpl. repeat constructor; by apply base32hexchar_not_pad.
  - destruct (base32_chars_tail x0 x1 x2 0 false) as (_ & -> & _ & _); try done.
    destruct (dig_range x0 x1 x2 0 0) as (? & ? & ? & ? & ? & _); try done.
    simpl. repeat constructor; by apply base32hexchar_not_pad.
  - destruct (base32_chars_tail x0 x1 x2 x3 false) as (-> & _ & _ & _); try done.
    destruct (dig_range x0 x1 x2 x3 0) as (? & ? & ? & ? & ? & ? & ? & _); try done.
    simpl. repeat constructor; by apply base32hexchar_not_pad.
  - rewrite base32_chars_full by done.
    destruct (dig_range x0 x1 x2 x3 x4) as (? & ? & ? & ? & ? & ? & ? & ?); try done.
    apply Forall_app. split; [|apply IH; [simpl; lia|done]].
    simpl. repeat constructor; by apply base32hexchar_not_pad.
Qed.

(** The decoder writes no more than the length it computed. *)
Lemma unbase32_loop_bound t : ∀ len,
  unbase32hexmem_len (Z.of_nat (length t)) = Some len →
  Z.of_nat (length (unbase32hex_loop t).2) ≤ len ∧ (unbase32hex_loop t).1 ≤ 0.
Proof.
  induction t as [t IH] using list_length_ind. intros len.
  assert (∀ n l, unbase32hexmem_len (Z.of_nat (8 + n)) = Some l →
    unbase32hexmem_len (Z.of_nat n) = Some (l - 5)) as Hstep.
  { intros n l. unfold unbase32hexmem_len. cbv zeta.
    replace (Z.of_nat (8 + n)) with (Z.of_nat n + 1 * 8) by lia.
    rewrite Z.div_add, Z.mod_add by lia.
    repeat (case_match; [intros [= <-]; f_equal; lia|]). done. }
  assert (∀ m, unbase32hexmem_len m = Some len → 0 ≤ m → 0 ≤ len) as Hpos.
  { intros m. unfold unbase32hexmem_len. cbv zeta.
    repeat (case_match; [intros [= <-]; lia|]). done. }
  destruct t as [|y0 [|y1 [|y2 [|y3 [|y4 [|y5 [|y6 [|y7 t]]]]]]]]; try by (intros [= <-]).
  all: intros Hl; pose proof (Hpos _ Hl ltac:(lia)); cbn [unbase32hex_loop].
  1-4: revert Hl; intros [= <-]; repeat case_match; simpl; unfold EINVAL; lia.
  apply (Hstep (length t)) in Hl. destruct (IH t ltac:(simpl; lia) _ Hl).
  repeat case_match; simpl; unfold EINVAL; lia.
Qed.

Lemma pad_count_max l : (pad_count l ≤ 6)%nat.
Proof. unfold pad_count. repeat case_match; lia. Qed.

(** Stripping recovers the digits of a padded string, and only of one. *)
Lemma strip_iff s p :
  Z.of_nat (length s) mod 8 = 0 → Forall is_byte p →
  reverse (strip_pad 7 (reverse s)) = base32hex_chars false p ↔ s = base32hex_chars true p.
Proof.
  intros H8 Hb. rewrite base32_chars_padding. split.
  - intros E. destruct (strip_pad_spec 7 (reverse s)) as (k & Hk & Ers).
    apply (f_equal reverse) in Ers.
    rewrite reverse_involutive, reverse_app, E, reverse_replicate in Ers.
    rewrite Ers at 1. do 2 f_equal. apply Nat2Z.inj. rewrite pad_count_spec.
    rewrite Ers, length_app, length_replicate, Nat2Z.inj_add, base32_chars_length in H8.
    cbv zeta in H8. revert H8. mod_cases.
  - intros ->. rewrite reverse_app, reverse_replicate, strip_pad_app, reverse_involutive; [done| |].
    + pose proof (pad_count_max (length p)). lia.
    + apply Forall_reverse. by apply base32_chars_not_pad.
Qed.

Lemma padded_length p : Z.of_nat (length (base32hex_chars true p)) mod 8 = 0.
Proof.
  rewrite base32_chars_padding, length_app, length_replicate, Nat2Z.inj_add, pad_count_spec,
    base32_chars_length. cbv zeta. mod_cases.
Qed.

(** Decoding base32hex, with or without padding: a string is accepted
    exactly when it is what [base32hexmem] prints for some bytes in that mode,
    and the result is those bytes and their number. *)
Theorem unbase32hexmem_iff (s p : list Z) (padding : bool) (n : Z) :
  unbase32hexmem s padding false = Some (0, p, n) ↔
  base32hexmem p padding = Some s ∧ Forall is_byte p ∧ n = Z.of_nat (length p).
Proof.
  rewrite base32hexmem_fits. unfold unbase32hexmem.
  assert (∀ t, unbase32hexmem_len (Z.of_nat (length t)) ≫= (λ len,
      let r := unbase32hex_loop t in
      out ← filled (len + 1) r.2; Some (if r.1 <? 0 then (r.1, [], 0) else (r.1, out, len)))
      = Some (0, p, n) ↔ t = base32hex_chars false p ∧ Forall is_byte p ∧ n = Z.of_nat (length p))
    as Hcore.
  { intros t. split.
    - destruct (unbase32hexmem_len _) as [len|] eqn:El; [|done]. simpl.
      destruct (unbase32hex_loop t) as [r out] eqn:Et. simpl. unfold filled.
      destruct (_ <=? _) eqn:Ef; [|done]. simpl. destruct (r <? 0) eqn:Er; reflect_bools.
      + intros [= ? ? ?]. lia.
      + intros [= -> -> ->]. destruct (unbase32_loop_sound _ _ Et) as [-> Hb].
        rewrite unbase32hexmem_len_chars in El. simplify_eq. done.
    - intros (-> & Hb & ->). rewrite unbase32hexmem_len_chars. simpl.
      rewrite unbase32_loop_complete by done. simpl. unfold filled.
      by rewrite (proj2 (Z.leb_le _ _)) by lia. }
  specialize (Hcore (if padding then reverse (strip_pad 7 (reverse s)) else s)).
  set (t := if padding then _ else s) in *.
  destruct (padding && negb (Z.of_nat (length s) mod 8 =? 0)) eqn:E8.
  - split; [done|]. intros (Es & Hb & _). reflect_bools. subst padding.
    injection Es as <-. by rewrite padded_length in *.
  - assert (Forall is_byte p → t = base32hex_chars false p ↔
      Some (base32hex_chars padding p) = Some s) as Ht.
    { intros Hb. unfold t. destruct padding; [|split; congruence].
      simpl in E8. reflect_bools. rewrite strip_iff by done. split; congruence. }
    destruct (unbase32hexmem_len (Z.of_nat (length t))) as [len|] eqn:El; simpl in Hcore.
    + rewrite Hcore. split; intros (H1 & Hb & ->); by (split_and!; [apply Ht|..]).
    + split; [done|]. intros (H1 & Hb & ->). exfalso.
      assert (None = Some (0, p, Z.of_nat (length p))) by (apply Hcore; split_and!; [by apply Ht|done..]).
      done.
Qed.

(** C33. Decoding inverts encoding exactly: a string is accepted as hexadecimal
    when, without white space and in lower case, it is what [hexmem] prints, as
    base64 when, without white space, it is what [base64mem] prints, final
    padding included, and as base32hex when it is what [base32hexmem] prints in
    the same mode of padding; in each case the result is the encoded bytes. *)
Theorem decoders_iff (s p : list Z) (padding : bool) (n : Z) :
  (unhexmem_full s false = Some (0, p) ↔ hexmem p = Some (to_lower <$> clean s) ∧ Forall is_byte p) ∧
  (unbase64mem_full s false = Some (0, p) ↔ base64mem p = Some (clean s) ∧ Forall is_byte p) ∧
  (unbase32hexmem s padding false = Some (0, p, n) ↔
     base32hexmem p padding = Some s ∧ Forall is_byte p ∧ n = Z.of_nat (length p)).
Proof. split_and!; [apply unhexmem_iff|apply unbase64mem_iff|apply unbase32hexmem_iff]. Qed.

(** [unbase32hexmem] stays inside the buffer it allocates. *)
Lemma unbase32hexmem_total (s : list Z) (padding oom : bool) :
  ∃ r out n, unbase32hexmem s padding oom = Some (r, out, n) ∧ r ≤ 0 ∧ (r < 0 → out = []).
Proof.
  unfold unbase32hexmem. destruct (padding && _); [by eexists _, _, _|].
  set (t := if padding then _ else s).
  destruct (unbase32hexmem_len (Z.of_nat (length t))) as [len|] eqn:El; [|by eexists _, _, _].
  destruct oom; [by eexists _, _, _|].
  destruct (unbase32_loop_bound t len El) as [Hb Hr]. unfold filled.
  rewrite (proj2 (Z.leb_le _ _)) by lia. cbn [mbind option_bind].
  destruct (_ <? 0) eqn:E; reflect_bools; eexists _, _, _; (split; [done|]); [done|lia].
Qed.

(** No input makes one of the three decoders write outside the buffer it
    allocated or loop for ever: [unhexmem_full], [unbase64mem_full] and
    [unbase32hexmem] return 0 or a negative error, and on an error, memory
    exhaustion included, nothing is handed out. *)
Theorem decoders_safe (s : list Z) (padding oom : bool) :
  (∃ r out, unhexmem_full s oom = Some (r, out) ∧ r ≤ 0 ∧ (r < 0 → out = [])) ∧
  (∃ r out, unbase64mem_full s oom = Some (r, out) ∧ r ≤ 0 ∧ (r < 0 → out = [])) ∧
  (∃ r out n, unbase32hexmem s padding oom = Some (r, out, n) ∧ r ≤ 0 ∧ (r < 0 → out = [])).
Proof.
  destruct (hex_base64_safe s oom) as [H1 H2]. split; [done|]. split; [done|].
  apply unbase32hexmem_total.
Qed.
