(* ===== verification/Bsearch.v ===== *)
(** * Binary search

    The [bsearch] of the C library, which the code calls on sorted tables
    ([src/app/multi_process/day1/systemd/src/basic/sort-util.h] passes it on). *)

From S2P Require Import Prelude.

(** The library's [bsearch]: the index of an element that compares equal,
    between the indices [l] and [u]. *)
Fixpoint bsearch_loop {A} (fuel : nat) (compare : A → Z) (base : list A) (l u : nat) : option nat :=
  match fuel with
  | O => None
  | S fuel =>
      if (l <? u)%nat then
        let idx := ((l + u) / 2)%nat in
        x ← base !! idx;
        let comparison := compare x in
        if comparison <? 0 then bsearch_loop fuel compare base l idx
        else if 0 <? comparison then bsearch_loop fuel compare base (idx + 1) u
        else Some idx
      else None
  end.
Definition bsearch {A} (compare : A → Z) (base : list A) : option nat :=
  bsearch_loop (S (length base)) compare base 0 (length base).

Section bsearch.
Context {A : Type} (compare : A → Z) (base : list A).

(** The elements below an index compare positive, those above negative. *)
Hypothesis mono : ∀ i j x y, (i < j)%nat → base !! i = Some x → base !! j = Some y →
  (compare x <= 0 → compare y < 0) ∧ (0 <= compare y → 0 < compare x).

Lemma bsearch_loop_spec fuel : ∀ l u, (u - l < fuel)%nat → (u <= length base)%nat →
  bsearch_loop fuel compare base l u ≠ None ↔
  ∃ i x, (l <= i < u)%nat ∧ base !! i = Some x ∧ compare x = 0.
Proof.
  induction fuel as [|fuel IH]; intros l u Hf Hu; [lia|]. cbn [bsearch_loop].
  destruct (Nat.ltb_spec l u) as [Hlu|Hlu]; [|split; [done|intros (? & ? & ? & _); lia]].
  assert (l <= (l + u) / 2 < u)%nat as Hidx.
  { pose proof (Nat.div_mod_eq (l + u) 2). pose proof (Nat.mod_upper_bound (l + u) 2). lia. }
  set (idx := ((l + u) / 2)%nat) in *.
  destruct (lookup_lt_is_Some_2 base idx) as [x Ex]; [lia|]. rewrite Ex. cbn [mbind option_bind].
  destruct (Z.ltb_spec (compare x) 0) as [Hn|Hn]; [|destruct (Z.ltb_spec 0 (compare x)) as [Hp|Hp]].
  - rewrite IH by lia. split; intros (i & y & Hi & Ey & E0); exists i, y; (split; [|done]); [lia|].
    destruct (decide (i = idx)) as [->|]; [rewrite Ex in Ey; injection Ey as ->; lia|].
    destruct (decide (idx < i)%nat); [|lia]. destruct (mono idx i x y) as [H _]; [done..|]. lia.
  - rewrite IH by lia. split; intros (i & y & Hi & Ey & E0); exists i, y; (split; [|done]); [lia|].
    destruct (decide (i = idx)) as [->|]; [rewrite Ex in Ey; injection Ey as ->; lia|].
    destruct (decide (i < idx)%nat); [|lia]. destruct (mono i idx y x) as [H _]; [done..|]. lia.
  - split; [|done]. intros _. exists idx, x. split; [lia|]. split; [done|lia].
Qed.

Lemma bsearch_spec : bsearch compare base ≠ None ↔ ∃ x, x ∈ base ∧ compare x = 0.
Proof.
  unfold bsearch. rewrite bsearch_loop_spec by lia. split.
  - intros (i & x & _ & Ex & E0). exists x. split; [by eapply list_elem_of_lookup_2|done].
  - intros (x & [i Ex]%list_elem_of_lookup & E0). exists i, x.
    apply lookup_lt_Some in Ex as Hi. repeat split; [lia|done..].
Qed.
End bsearch.

Lemma bsearch_loop_sound {A} fuel (compare : A → Z) base l u i : bsearch_loop fuel compare base l u = Some i → ∃ x, base !! i = Some x ∧ compare x = 0.
Proof.
  revert l u. induction fuel as [|fuel IH]; intros l u; [done|]. cbn [bsearch_loop]. destruct (l <? u)%nat; [|done].
  destruct (base !! ((l + u) / 2)%nat) as [x|] eqn:Ex; cbn [mbind option_bind]; [|done]. destruct (Z.ltb_spec (compare x) 0); [apply IH|].
  destruct (Z.ltb_spec 0 (compare x)); [apply IH|]. intros [= <-]. exists x. split; [done|lia].
Qed.

(** What is found compares equal. *)
Lemma bsearch_sound {A} (compare : A → Z) base i : bsearch compare base = Some i → ∃ x, base !! i = Some x ∧ compare x = 0.
Proof. apply bsearch_loop_sound. Qed.
