(* ===== verification/Utf8.v ===== *)
(** * systemd: UTF-8 and UTF-16

    Models [src/app/multi_process/day1/systemd/src/basic/utf8.c], the inline
    functions of [utf8.h] and the table lookups of [gunicode.c]. A pointer is
    the list of the bytes that can be read from it on: a C string [s] is
    [s ++ [0]], a counted buffer is its bytes. [None] is a read outside these
    bytes, a failed assertion, or output that does not fit the buffer the
    function has allocated ([filled], as in [Hexdecoct]; [malloc] succeeds).
    [char] is signed, which matters where a byte is widened without a mask. *)

From Stdlib Require Import String.
From S2P Require Import Prelude Bsearch Hexdecoct.

#[local] Open Scope Z_scope.

(** ** Code points *)

Definition unichar_is_valid (ch : Z) : bool :=
  if 0x110000 <=? ch then false
  else if Z.land ch 0xFFFFF800 =? 0xD800 then false
  else if (0xFDD0 <=? ch) && (ch <=? 0xFDEF) then false
  else if Z.land ch 0xFFFE =? 0xFFFE then false
  else true.

Definition unichar_is_control (ch : Z) : bool :=
  (ch <? 32) && negb ((ch =? 9) || (ch =? 10)) || (0x7F <=? ch) && (ch <=? 0x9F).

(** ** One character *)

Definition utf8_encoded_expected_len (c : Z) : Z :=
  if c <? 0x80 then 1
  else if Z.land c 0xe0 =? 0xc0 then 2
  else if Z.land c 0xf0 =? 0xe0 then 3
  else if Z.land c 0xf8 =? 0xf0 then 4
  else if Z.land c 0xfc =? 0xf8 then 5
  else if Z.land c 0xfe =? 0xfc then 6
  else 0.

(** The continuation bytes: [n] of them, after [unichar] so far. [inl] is an
    error number, [inr] the code point. *)
Fixpoint unichar_loop (n : nat) (str : list Z) (unichar : Z) : option (Z + Z) :=
  match n with
  | O => Some (inr unichar)
  | S n =>
      c ← str !! 0%nat;
      if negb (Z.land c 0xc0 =? 0x80) then Some (inl (- EINVAL))
      else unichar_loop n (drop 1 str) (Z.lor (wrapu 32 (Z.shiftl unichar 6)) (Z.land c 0x3f))
  end.

Definition utf8_encoded_to_unichar (str : list Z) : option (Z + Z) :=
  c ← str !! 0%nat;
  let len := utf8_encoded_expected_len c in
  if len =? 1 then Some (inr c)
  else if len =? 0 then Some (inl (- EINVAL))
  else
    let unichar :=
      if len =? 2 then Z.land c 0x1f
      else if len =? 3 then Z.land c 0x0f
      else if len =? 4 then Z.land c 0x07
      else if len =? 5 then Z.land c 0x03
      else Z.land c 0x01 in
    unichar_loop (Z.to_nat (len - 1)) (drop 1 str) unichar.

Definition utf8_unichar_to_encoded_len (unichar : Z) : Z :=
  if unichar <? 0x80 then 1
  else if unichar <? 0x800 then 2
  else if unichar <? 0x10000 then 3
  else if unichar <? 0x200000 then 4
  else if unichar <? 0x4000000 then 5
  else 6.

(** Whether the next [n] bytes all have bit 7; reading stops at one that has not. *)
Fixpoint all_high (n : nat) (str : list Z) : option bool :=
  match n with
  | O => Some true
  | S n => c ← str !! 0%nat; if Z.land c 0x80 =? 0x80 then all_high n (drop 1 str) else Some false
  end.

(** [length] may be [SIZE_MAX] to disable the check. *)
Definition SIZE_MAX : Z := UINT64_MAX.

Definition utf8_encoded_valid_unichar (str : list Z) (length : Z) : option Z :=
  if length <=? 0 then None
  else
    c ← str !! 0%nat;
    let len := utf8_encoded_expected_len c in
    if len =? 0 then Some (- EINVAL)
    else if length <? len then Some (- EINVAL)
    else if len =? 1 then Some 1
    else
      ok ← all_high (Z.to_nat len) str;
      if negb ok then Some (- EINVAL)
      else
        r ← utf8_encoded_to_unichar str;
        match r with
        | inl e => Some e
        | inr unichar =>
            if negb (utf8_unichar_to_encoded_len unichar =? len) then Some (- EINVAL)
            else if negb (unichar_is_valid unichar) then Some (- EINVAL)
            else Some len
        end.

Definition utf8_encode_unichar (g : Z) : list Z :=
  if g <? Z.shiftl 1 7 then [Z.land g 0x7f]
  else if g <? Z.shiftl 1 11 then
    [Z.lor 0xc0 (Z.land (Z.shiftr g 6) 0x1f); Z.lor 0x80 (Z.land g 0x3f)]
  else if g <? Z.shiftl 1 16 then
    [Z.lor 0xe0 (Z.land (Z.shiftr g 12) 0x0f); Z.lor 0x80 (Z.land (Z.shiftr g 6) 0x3f);
     Z.lor 0x80 (Z.land g 0x3f)]
  else if g <? Z.shiftl 1 21 then
    [Z.lor 0xf0 (Z.land (Z.shiftr g 18) 0x07); Z.lor 0x80 (Z.land (Z.shiftr g 12) 0x3f);
     Z.lor 0x80 (Z.land (Z.shiftr g 6) 0x3f); Z.lor 0x80 (Z.land g 0x3f)]
  else [].

(** ** Strings

    The loops run for at most [fuel] characters; the length of the string is
    enough, since every one takes a byte at least. *)

Fixpoint printable_loop (fuel : nat) (p : list Z) (length : Z) (newline : bool) : option bool :=
  if length <=? 0 then Some true
  else
    match fuel with
    | O => None
    | S fuel =>
        encoded_len ← utf8_encoded_valid_unichar p length;
        if encoded_len <? 0 then Some false
        else if negb ((0 <? encoded_len) && (encoded_len <=? length)) then None
        else
          r ← utf8_encoded_to_unichar p;
          match r with
          | inl _ => Some false
          | inr val =>
              if unichar_is_control val || negb newline && (val =? 10) then Some false
              else printable_loop fuel (drop (Z.to_nat encoded_len) p) (length - encoded_len) newline
          end
    end.
Definition utf8_is_printable_newline (str : list Z) (length : Z) (newline : bool) : option bool :=
  printable_loop (Z.to_nat length) str length newline.

Fixpoint valid_loop (fuel : nat) (p : list Z) : option bool :=
  c ← p !! 0%nat;
  if c =? 0 then Some true
  else
    match fuel with
    | O => None
    | S fuel =>
        len ← utf8_encoded_valid_unichar p SIZE_MAX;
        if len <? 0 then Some false else valid_loop fuel (drop (Z.to_nat len) p)
    end.
Definition utf8_is_valid (str : list Z) : option bool := valid_loop (length str) str.

Definition UTF8_REPLACEMENT_CHARACTER : list Z := [0xef; 0xbf; 0xbd].

(** [strlen]. *)
Fixpoint strlen (str : list Z) : option Z :=
  match str with
  | [] => None
  | c :: str => if c =? 0 then Some 0 else n ← strlen str; Some (n + 1)
  end.

Fixpoint escape_invalid_loop (fuel : nat) (str : list Z) : option (list Z) :=
  c ← str !! 0%nat;
  if c =? 0 then Some []
  else
    match fuel with
    | O => None
    | S fuel =>
        len ← utf8_encoded_valid_unichar str SIZE_MAX;
        if 0 <? len then
          rest ← escape_invalid_loop fuel (drop (Z.to_nat len) str);
          Some (take (Z.to_nat len) str ++ rest)
        else
          rest ← escape_invalid_loop fuel (drop 1 str);
          Some (UTF8_REPLACEMENT_CHARACTER ++ rest)
    end.
Definition utf8_escape_invalid (str : list Z) : option (list Z) :=
  n ← strlen str;
  out ← escape_invalid_loop (length str) str;
  filled (wrapu 64 (n * 4 + 1)) out.

(** ** Width on a console: gunicode.c *)

Record Interval := Iv { iv_start : Z; iv_end : Z }.

Definition interval_compare (c : Z) (interval : Interval) : Z :=
  if c <? iv_start interval then -1
  else if iv_end interval <? c then 1
  else 0.

Definition wide : list Interval := [
  Iv 0x1100 0x115F; Iv 0x2329 0x232A; Iv 0x2E80 0x2E99; Iv 0x2E9B 0x2EF3;
  Iv 0x2F00 0x2FD5; Iv 0x2FF0 0x2FFB; Iv 0x3000 0x303E; Iv 0x3041 0x3096;
  Iv 0x3099 0x30FF; Iv 0x3105 0x312D; Iv 0x3131 0x318E; Iv 0x3190 0x31BA;
  Iv 0x31C0 0x31E3; Iv 0x31F0 0x321E; Iv 0x3220 0x3247; Iv 0x3250 0x32FE;
  Iv 0x3300 0x4DBF; Iv 0x4E00 0xA48C; Iv 0xA490 0xA4C6; Iv 0xA960 0xA97C;
  Iv 0xAC00 0xD7A3; Iv 0xF900 0xFAFF; Iv 0xFE10 0xFE19; Iv 0xFE30 0xFE52;
  Iv 0xFE54 0xFE66; Iv 0xFE68 0xFE6B; Iv 0xFF01 0xFF60; Iv 0xFFE0 0xFFE6;
  Iv 0x1B000 0x1B001; Iv 0x1F200 0x1F202; Iv 0x1F210 0x1F23A;
  Iv 0x1F240 0x1F248; Iv 0x1F250 0x1F251;
  Iv 0x1F300 0x1F567;
  Iv 0x20000 0x2FFFD; Iv 0x30000 0x3FFFD ].

Definition unichar_iswide (c : Z) : bool :=
  match bsearch (interval_compare c) wide with Some _ => true | None => false end.

Definition utf8_skip_data : list Z :=
  replicate 192 1 ++ replicate 32 2 ++ replicate 16 3 ++ replicate 8 4 ++ replicate 4 5 ++
  [6; 6; 1; 1].
Definition utf8_next_char (p : list Z) : option (list Z) :=
  c ← p !! 0%nat; n ← utf8_skip_data !! Z.to_nat c; Some (drop (Z.to_nat n) p).

Definition utf8_char_console_width (str : list Z) : option Z :=
  r ← utf8_encoded_to_unichar str;
  match r with
  | inl e => Some e
  | inr c => Some (if unichar_iswide c then 2 else 1)
  end.

Fixpoint console_width_loop (fuel : nat) (str : list Z) (n : Z) : option Z :=
  c ← str !! 0%nat;
  if c =? 0 then Some n
  else
    match fuel with
    | O => None
    | S fuel =>
        w ← utf8_char_console_width str;
        if w <? 0 then Some SIZE_MAX
        else str ← utf8_next_char str; console_width_loop fuel str (wrapu 64 (n + w))
    end.
Definition utf8_console_width (str : list Z) : option Z := console_width_loop (length str) str 0.

Fixpoint n_codepoints_loop (fuel : nat) (str : list Z) (n : Z) : option Z :=
  c ← str !! 0%nat;
  if c =? 0 then Some n
  else
    match fuel with
    | O => None
    | S fuel =>
        k ← utf8_encoded_valid_unichar str SIZE_MAX;
        if k <? 0 then Some SIZE_MAX
        else n_codepoints_loop fuel (drop (Z.to_nat k) str) (wrapu 64 (n + 1))
    end.
Definition utf8_n_codepoints (str : list Z) : option Z := n_codepoints_loop (length str) str 0.

(** ** Escaping what cannot be printed *)

Definition ELLIPSIS : list Z := [0xe2; 0x80; 0xa6].

(** The [len] bytes of one character that is not printable: the output, the
    width, what is left of [str], and whether the width sufficed. *)
Fixpoint escape_bytes (len : nat) (str out : list Z) (n console_width : Z) :
    option (list Z * Z * list Z * bool) :=
  match len with
  | O => Some (out, n, str, true)
  | S len =>
      if console_width <? wrapu 64 (n + 4) then Some (out, n, str, false)
      else
        c ← str !! 0%nat;
        let c := wraps 8 c in
        escape_bytes len (drop 1 str)
          (out ++ [92; 120; hexchar (Z.shiftr c 4); hexchar c]) (wrapu 64 (n + 4)) console_width
  end.

(** The code at [truncation]. *)
Definition truncation (out prev : list Z) (n console_width : Z) : list Z :=
  (if console_width <=? wrapu 64 (n + 1) then prev else out) ++ ELLIPSIS.

(** [out] is what lies below [s], [prev] what lies below [prev_s]. *)
Fixpoint escape_non_printable_loop (fuel : nat) (str out prev : list Z) (n console_width : Z) :
    option (list Z) :=
  c ← str !! 0%nat;
  if c =? 0 then Some out
  else
    match fuel with
    | O => None
    | S fuel =>
        len ← utf8_encoded_valid_unichar str SIZE_MAX;
        if 0 <? len then
          printable ← utf8_is_printable_newline str len true;
          if printable : bool then
            w ← utf8_char_console_width str;
            if w <? 0 then None
            else if console_width <? wrapu 64 (n + w) then Some (truncation out prev n console_width)
            else escape_non_printable_loop fuel (drop (Z.to_nat len) str)
                   (out ++ take (Z.to_nat len) str) out (wrapu 64 (n + w)) console_width
          else
            '(out', n', str', fits) ← escape_bytes (Z.to_nat len) str out n console_width;
            if fits : bool then escape_non_printable_loop fuel str' out' out n' console_width
            else Some (truncation out' prev n' console_width)
        else if console_width <? wrapu 64 (n + 1) then Some (truncation out prev n console_width)
        else escape_non_printable_loop fuel (drop 1 str) (out ++ UTF8_REPLACEMENT_CHARACTER) out
               (wrapu 64 (n + 1)) console_width
    end.

Definition utf8_escape_non_printable_full (str : list Z) (console_width : Z) : option (list Z) :=
  if console_width =? 0 then Some []
  else
    n ← strlen str;
    out ← escape_non_printable_loop (length str) str [] [] 0 console_width;
    filled (wrapu 64 (n * 4 + 1)) out.

(** ** ASCII *)

Fixpoint ascii_is_valid (str : list Z) : option bool :=
  match str with
  | [] => None
  | c :: str => if c =? 0 then Some true else if 128 <=? c then Some false else ascii_is_valid str
  end.

Fixpoint ascii_is_valid_n (len : nat) (str : list Z) : option bool :=
  match len with
  | O => Some true
  | S len =>
      c ← str !! 0%nat;
      if (128 <=? c) || (c =? 0) then Some false else ascii_is_valid_n len (drop 1 str)
  end.

(** ** UTF-16 *)

Definition utf16_is_surrogate (c : Z) : bool := (0xd800 <=? c) && (c <=? 0xdfff).
Definition utf16_is_trailing_surrogate (c : Z) : bool := (0xdc00 <=? c) && (c <=? 0xdfff).
Definition utf16_surrogate_pair_to_unichar (lead trail : Z) : Z :=
  wrapu 32 (wrapu 32 (Z.shiftl (wrapu 32 (lead - 0xd800)) 10) + wrapu 32 (trail - 0xdc00) + 0x10000).

(** The bytes from [f] on. *)
Fixpoint utf16_to_utf8_loop (fuel : nat) (f : list Z) : option (list Z) :=
  match f with
  | b0 :: b1 :: f =>
      match fuel with
      | O => None
      | S fuel =>
          let w1 := Z.lor (Z.shiftl b1 8) b0 in
          if negb (utf16_is_surrogate w1) then
            rest ← utf16_to_utf8_loop fuel f; Some (utf8_encode_unichar w1 ++ rest)
          else if utf16_is_trailing_surrogate w1 then utf16_to_utf8_loop fuel f
          else
            match f with
            | c0 :: c1 :: f' =>
                let w2 := Z.lor (Z.shiftl c1 8) c0 in
                if negb (utf16_is_trailing_surrogate w2) then utf16_to_utf8_loop fuel f
                else
                  rest ← utf16_to_utf8_loop fuel f';
                  Some (utf8_encode_unichar (utf16_surrogate_pair_to_unichar w1 w2) ++ rest)
            | _ => Some []
            end
      end
  | _ => Some []
  end.

(** [inl] is the NULL for a length whose double overflows. *)
Definition utf16_to_utf8 (s : list Z) : option (unit + list Z) :=
  let n := Z.of_nat (length s) in
  if wrapu 64 (n * 2) <? n then Some (inl tt)
  else
    out ← utf16_to_utf8_loop (length s) s;
    r ← filled (wrapu 64 (n * 2 + 1)) out;
    Some (inr r).

(** Words; [htole16] is the identity on a little-endian machine. *)
Definition utf16_encode_unichar (c : Z) : list Z :=
  if (c <=? 0xd7ff) || (0xe000 <=? c) && (c <=? 0xffff) then [wrapu 16 c]
  else if (0x10000 <=? c) && (c <=? 0x10ffff) then
    let c := c - 0x10000 in
    [wrapu 16 (Z.shiftr c 10 + 0xd800); wrapu 16 (Z.land c 0x3ff + 0xdc00)]
  else [].

Fixpoint utf8_to_utf16_loop (fuel : nat) (s : list Z) : option (list Z) :=
  match s with
  | [] => Some []
  | c :: s' =>
      match fuel with
      | O => None
      | S fuel =>
          let copy := rest ← utf8_to_utf16_loop fuel s'; Some (wrapu 16 (wraps 8 c) :: rest) in
          let e := utf8_encoded_expected_len c in
          if e <=? 1 then copy
          else if Z.of_nat (length s) <? e then copy
          else
            r ← utf8_encoded_to_unichar s;
            match r with
            | inl _ => copy
            | inr unichar =>
                rest ← utf8_to_utf16_loop fuel (drop (Z.to_nat e) s);
                Some (utf16_encode_unichar unichar ++ rest)
            end
      end
  end.

(** The buffer has [length + 1] words. *)
Definition utf8_to_utf16 (s : list Z) : option (list Z) :=
  out ← utf8_to_utf16_loop (length s) s;
  filled (Z.of_nat (length s) + 1) out.

(** The bytes of words in memory. *)
Definition word_bytes (ws : list Z) : list Z := ws ≫= λ w, [w mod 256; w / 256].

Definition char16_strlen (s : list Z) : option Z := strlen s.

(** The results the project's own tests expect. *)
Example unichar_tests :
  utf8_encoded_valid_unichar [0xe2; 0x84; 0xa2; 0] 2 = Some (- EINVAL) ∧
  utf8_encoded_valid_unichar [0xe2; 0x84; 0xa2; 0] 3 = Some 3 ∧
  utf8_encoded_valid_unichar [0xc2; 0xae; 0] SIZE_MAX = Some 2 ∧
  utf8_is_printable_newline [13] 1 true = Some false ∧
  utf8_escape_non_printable_full (bytes_of "goo goo goo" ++ [0]) 5 =
    Some (bytes_of "goo " ++ ELLIPSIS) ∧
  utf8_escape_invalid ([0xe1; 0x84; 0]) =
    Some (UTF8_REPLACEMENT_CHARACTER ++ UTF8_REPLACEMENT_CHARACTER).
Proof. by vm_compute. Qed.
