(* ===== verification/Utf8Props.v ===== *)
(** * systemd: properties of UTF-8 and UTF-16

    The validation of [Utf8] accepts exactly the encodings of valid code
    points; the two escaping functions turn every string into a valid one that
    fits the allocated buffer and, where asked, the console; conversion to
    UTF-16 and back is the identity on valid strings. *)

From Stdlib Require Import String.
From S2P Require Import Prelude Bsearch Hexdecoct Utf8.

#[local] Open Scope Z_scope.
#[local] Set Warnings "-clear-no-such-hyp".

(** Division and remainder by numerals, for [lia]. *)
Ltac zdiv := Z.div_mod_to_equations; lia.

(** ** Bytes *)

(** A property of bytes that is decided byte by byte. *)
Lemma byte_forall (P : Z → bool) :
  forallb P (seqZ 0 256) = true → ∀ c, is_byte c → P c = true.
Proof.
  intros H c Hc. rewrite forallb_forall in H. apply H, list_elem_of_In, elem_of_seqZ.
  unfold is_byte in Hc. lia.
Qed.

Ltac by_bytes P := intros Hc; apply (byte_forall P ltac:(by vm_compute)) in Hc.

Lemma expected_len_spec c : is_byte c →
  utf8_encoded_expected_len c =
    if c <? 128 then 1 else if c <? 192 then 0 else if c <? 224 then 2 else if c <? 240 then 3
    else if c <? 248 then 4 else if c <? 252 then 5 else if c <? 254 then 6 else 0.
Proof.
  by_bytes (λ c, utf8_encoded_expected_len c =?
    if c <? 128 then 1 else if c <? 192 then 0 else if c <? 224 then 2 else if c <? 240 then 3
    else if c <? 248 then 4 else if c <? 252 then 5 else if c <? 254 then 6 else 0).
  by apply Z.eqb_eq.
Qed.

Definition is_cont (c : Z) : bool := (128 <=? c) && (c <? 192).

Lemma cont_spec c : is_byte c → (Z.land c 0xc0 =? 0x80) = is_cont c.
Proof.
  by_bytes (λ c, Bool.eqb (Z.land c 0xc0 =? 0x80) (is_cont c)).
  by apply Bool.eqb_prop.
Qed.

Lemma high_spec c : is_byte c → (Z.land c 0x80 =? 0x80) = (128 <=? c).
Proof.
  by_bytes (λ c, Bool.eqb (Z.land c 0x80 =? 0x80) (128 <=? c)).
  by apply Bool.eqb_prop.
Qed.

(** Masks of the lead and continuation bytes are remainders. *)
Lemma land_mod x k m : 0 <= k → m = 2 ^ k - 1 → Z.land x m = x mod 2 ^ k.
Proof. intros Hk ->. rewrite <- Z.land_ones by done. f_equal. rewrite Z.ones_equiv. lia. Qed.

Lemma lor_base a b k x : 0 <= k → a = b * 2 ^ k → 0 <= x < 2 ^ k → Z.lor a x = a + x.
Proof. intros Hk -> Hx. by apply lor_add. Qed.

(** ** The encoder as arithmetic *)

Definition enc_spec (g : Z) : list Z :=
  if g <? 128 then [g]
  else if g <? 2048 then [192 + g / 64; 128 + g mod 64]
  else if g <? 65536 then [224 + g / 4096; 128 + g / 64 mod 64; 128 + g mod 64]
  else [240 + g / 262144; 128 + g / 4096 mod 64; 128 + g / 64 mod 64; 128 + g mod 64].

Lemma encode_spec g : 0 <= g < 2 ^ 21 → utf8_encode_unichar g = enc_spec g.
Proof.
  intros Hg. unfold utf8_encode_unichar, enc_spec.
  change (Z.shiftl 1 7) with 128. change (Z.shiftl 1 11) with 2048.
  change (Z.shiftl 1 16) with 65536. change (Z.shiftl 1 21) with 2097152.
  rewrite !Z.shiftr_div_pow2 by lia.
  assert (∀ x, Z.land x 0x3f = x mod 64) as H6 by (intros; by apply (land_mod x 6)).
  assert (∀ x, Z.lor 0x80 (x mod 64) = 128 + x mod 64) as H7.
  { intros x. apply (lor_base _ 2 6); [lia|done|]. apply Z.mod_pos_bound. lia. }
  rewrite !H6, !H7. repeat change (2 ^ 6) with 64. change (2 ^ 12) with 4096.
  change (2 ^ 18) with 262144.
  destruct (Z.ltb_spec g 128); [|destruct (Z.ltb_spec g 2048); [|destruct (Z.ltb_spec g 65536)]].
  - rewrite (land_mod g 7) by done. by rewrite Z.mod_small by lia.
  - rewrite (land_mod _ 5) by done. rewrite (Z.mod_small (g / 64)) by (change (2 ^ 5) with 32; zdiv).
    rewrite (lor_base 0xc0 6 5); [done|lia|done|]. change (2 ^ 5) with 32. zdiv.
  - rewrite (land_mod _ 4) by done.
    rewrite (Z.mod_small (g / 4096)) by (change (2 ^ 4) with 16; zdiv).
    rewrite (lor_base 0xe0 14 4); [done|lia|done|]. change (2 ^ 4) with 16. zdiv.
  - destruct (Z.ltb_spec g 2097152); [|lia]. rewrite (land_mod _ 3) by done.
    rewrite (Z.mod_small (g / 262144)) by (change (2 ^ 3) with 8; zdiv).
    rewrite (lor_base 0xf0 30 3); [done|lia|done|]. change (2 ^ 3) with 8. zdiv.
Qed.

(** ** The decoder *)

Definition sextet (d : Z) : Prop := 0 <= d < 64.
Definition conts (ds : list Z) : list Z := (λ d, 128 + d) <$> ds.
Definition join (u : Z) (ds : list Z) : Z := fold_left (λ u d, u * 64 + d) ds u.

Lemma join_bound ds : ∀ u k, 0 <= u < k → Forall sextet ds →
  0 <= join u ds < k * 64 ^ Z.of_nat (length ds).
Proof.
  induction ds as [|d ds IH]; intros u k Hu Hd; cbn [join fold_left length].
  - rewrite Z.pow_0_r. lia.
  - apply Forall_cons in Hd as [Hd Hds]. unfold sextet in Hd.
    rewrite Nat2Z.inj_succ, Z.pow_succ_r, Z.mul_assoc by lia.
    apply IH; [lia|done].
Qed.

(** One step of the loop, without overflow. *)
Lemma push_sextet u c : 0 <= u < 2 ^ 26 → is_byte c → is_cont c = true →
  Z.lor (wrapu 32 (Z.shiftl u 6)) (Z.land c 0x3f) = u * 64 + (c - 128) ∧ sextet (c - 128).
Proof.
  unfold is_cont, sextet. intros Hu Hb Hc. reflect_bools.
  rewrite Z.shiftl_mul_pow2, wrapu_small by lia. rewrite (land_mod c 6) by done.
  change (2 ^ 6) with 64. rewrite (lor_add u _ 6); [|lia|change (2 ^ 6) with 64; zdiv].
  change (2 ^ 6) with 64. split; zdiv.
Qed.

(** The bound under which [n] more sextets do not overflow 32 bits. *)
Definition fits (u : Z) (n : nat) : Prop := 0 <= u ∧ (u + 1) * 64 ^ Z.of_nat n <= 2 ^ 32.

Lemma fits_step u n d : fits u (S n) → sextet d → u < 2 ^ 26 ∧ fits (u * 64 + d) n.
Proof.
  unfold fits, sextet. rewrite Nat2Z.inj_succ, Z.pow_succ_r by lia. intros [H0 Hf] Hd.
  assert (0 < 64 ^ Z.of_nat n) by (apply Z.pow_pos_nonneg; lia). nia.
Qed.

Lemma unichar_loop_inr n : ∀ str u v,
  fits u n → Forall is_byte str → unichar_loop n str u = Some (inr v) →
  ∃ ds rest, str = conts ds ++ rest ∧ length ds = n ∧ Forall sextet ds ∧ v = join u ds.
Proof.
  induction n as [|n IH]; intros str u v Hf Hb; cbn [unichar_loop].
  { intros [= <-]. by exists [], str. }
  destruct str as [|c str]; [done|]. apply Forall_cons in Hb as [Hc Hb].
  cbn [mbind option_bind lookup list_lookup].
  rewrite cont_spec by done. destruct (is_cont c) eqn:Ec; [|done]. cbn [negb]. change (drop 1 (c :: str)) with str.
  destruct (fits_step _ _ 0 Hf) as [Hu _]; [unfold sextet; lia|].
  destruct (push_sextet u c) as [-> Hd]; [destruct Hf; lia|done|done|].
  intros (ds & rest & -> & Hl & Hds & ->)%IH; [|by apply fits_step|done].
  exists ((c - 128) :: ds), rest. unfold conts. cbn [fmap list_fmap app length].
  split; [f_equal; lia|]. split; [lia|]. split; [by constructor|done].
Qed.

Lemma unichar_loop_conts ds : ∀ rest u,
  fits u (length ds) → Forall sextet ds →
  unichar_loop (length ds) (conts ds ++ rest) u = Some (inr (join u ds)).
Proof.
  induction ds as [|d ds IH]; intros rest u Hf Hd; [done|].
  apply Forall_cons in Hd as [Hd Hds]. unfold conts.
  cbn [length fmap list_fmap app unichar_loop mbind option_bind lookup list_lookup].
  change (drop 1 (128 + d :: ?x)) with x.
  assert (is_byte (128 + d) ∧ is_cont (128 + d) = true) as [Hb Hc].
  { unfold sextet in Hd. unfold is_byte, is_cont. split; [lia|].
    apply andb_true_iff. rewrite Z.leb_le, Z.ltb_lt. lia. }
  rewrite cont_spec, Hc by done. cbn [negb].
  destruct (fits_step _ _ d Hf Hd) as [Hu Hf'].
  destruct (push_sextet u (128 + d)) as [-> _]; [destruct Hf; lia|done|done|].
  replace (128 + d - 128) with d by lia. by apply IH.
Qed.

Lemma unichar_loop_total n : ∀ str u,
  Forall is_byte str → 0 ∈ str ∨ (n <= length str)%nat →
  ∃ r, unichar_loop n str u = Some r ∧ (∀ e, r = inl e → e = - EINVAL).
Proof.
  induction n as [|n IH]; intros str u Hb Hs; cbn [unichar_loop]; [eexists; by split|].
  destruct str as [|c str].
  { destruct Hs as [Hs|Hs]; [by apply elem_of_nil in Hs|simpl in Hs; lia]. }
  apply Forall_cons in Hb as [Hc Hb]. cbn [mbind option_bind lookup list_lookup].
  change (drop 1 (c :: str)) with str.
  rewrite cont_spec by done. destruct (is_cont c) eqn:Ec; cbn [negb].
  - apply IH; [done|]. destruct Hs as [Hs|Hs]; [left|right; simpl in Hs; lia].
    apply elem_of_cons in Hs as [<-|Hs]; [done|done].
  - eexists. split; [done|]. by intros e [= <-].
Qed.

(** The lead byte: how many continuation bytes follow, and its own bits. *)
Definition lead (c : Z) : nat * Z :=
  if c <? 224 then (1%nat, c - 192) else if c <? 240 then (2%nat, c - 224)
  else if c <? 248 then (3%nat, c - 240) else if c <? 252 then (4%nat, c - 248)
  else (5%nat, c - 252).

Lemma to_unichar_ascii c str : 0 <= c < 128 → utf8_encoded_to_unichar (c :: str) = Some (inr c).
Proof.
  intros Hc. unfold utf8_encoded_to_unichar. cbn [mbind option_bind lookup list_lookup].
  rewrite expected_len_spec by (unfold is_byte; lia). destruct (Z.ltb_spec c 128); [done|lia].
Qed.

Lemma to_unichar_lead c str : 192 <= c < 254 →
  utf8_encoded_to_unichar (c :: str) = unichar_loop (lead c).1 str (lead c).2.
Proof.
  intros Hc. unfold utf8_encoded_to_unichar, lead. cbn [mbind option_bind lookup list_lookup].
  rewrite expected_len_spec by (unfold is_byte; lia).
  rewrite (land_mod c 5), (land_mod c 4), (land_mod c 3), (land_mod c 2), (land_mod c 1) by done.
  destruct (Z.ltb_spec c 128), (Z.ltb_spec c 192); try lia.
  change (drop 1 (c :: str)) with str.
  destruct (Z.ltb_spec c 224); [|destruct (Z.ltb_spec c 240); [|destruct (Z.ltb_spec c 248);
    [|destruct (Z.ltb_spec c 252); [|destruct (Z.ltb_spec c 254); [|lia]]]]].
  all: cbn -[Z.pow Z.modulo Z.sub unichar_loop]; f_equal.
  - change (2 ^ 5) with 32. zdiv.
  - change (2 ^ 4) with 16. zdiv.
  - change (2 ^ 3) with 8. zdiv.
  - change (2 ^ 2) with 4. zdiv.
  - change (2 ^ 1) with 2. zdiv.
Qed.

Lemma lead_fits c : 192 <= c < 254 → fits (lead c).2 (lead c).1.
Proof.
  intros Hc. unfold fits, lead. repeat case_match; reflect_bools; simpl; lia.
Qed.

Lemma enc_length u : 0 <= u < 2 ^ 21 →
  Z.of_nat (length (utf8_encode_unichar u)) = utf8_unichar_to_encoded_len u ∧
  1 <= utf8_unichar_to_encoded_len u <= 4.
Proof.
  intros Hu. rewrite encode_spec by done. unfold enc_spec, utf8_unichar_to_encoded_len.
  change 0x80 with 128. change 0x800 with 2048. change 0x10000 with 65536.
  repeat case_match; reflect_bools; simpl; lia.
Qed.

(** The three multi-byte forms as a lead byte and continuation bytes. *)
Lemma enc_multi u : 128 <= u < 2 ^ 21 → ∃ c ds,
  192 <= c < 248 ∧ Forall sextet ds ∧ length ds = (lead c).1 ∧
  utf8_encode_unichar u = c :: conts ds ∧ join (lead c).2 ds = u.
Proof.
  intros Hu. rewrite encode_spec by lia. unfold enc_spec.
  destruct (Z.ltb_spec u 128); [lia|].
  destruct (Z.ltb_spec u 2048); [|destruct (Z.ltb_spec u 65536)].
  - exists (192 + u / 64), [u mod 64].
    assert (lead (192 + u / 64) = (1%nat, u / 64)) as ->.
    { unfold lead. destruct (Z.ltb_spec (192 + u / 64) 224); [f_equal; lia|zdiv]. }
    unfold join, sextet. cbn [fold_left length fst snd].
    repeat split; try zdiv. repeat constructor; zdiv.
  - exists (224 + u / 4096), [u / 64 mod 64; u mod 64].
    assert (lead (224 + u / 4096) = (2%nat, u / 4096)) as ->.
    { unfold lead. destruct (Z.ltb_spec (224 + u / 4096) 224); [zdiv|].
      destruct (Z.ltb_spec (224 + u / 4096) 240); [f_equal; lia|zdiv]. }
    unfold join, sextet. cbn [fold_left length fst snd].
    repeat split; try zdiv. repeat constructor; zdiv.
  - exists (240 + u / 262144), [u / 4096 mod 64; u / 64 mod 64; u mod 64].
    assert (lead (240 + u / 262144) = (3%nat, u / 262144)) as ->.
    { unfold lead. destruct (Z.ltb_spec (240 + u / 262144) 224); [zdiv|].
      destruct (Z.ltb_spec (240 + u / 262144) 240); [zdiv|].
      destruct (Z.ltb_spec (240 + u / 262144) 248); [f_equal; lia|zdiv]. }
    unfold join, sextet. cbn [fold_left length fst snd].
    repeat split; try zdiv. repeat constructor; zdiv.
Qed.

Lemma to_unichar_enc u rest : 0 <= u < 2 ^ 21 →
  utf8_encoded_to_unichar (utf8_encode_unichar u ++ rest) = Some (inr u).
Proof.
  intros Hu. destruct (Z.ltb_spec u 128).
  - rewrite encode_spec by done. unfold enc_spec. destruct (Z.ltb_spec u 128); [|lia].
    apply to_unichar_ascii; lia.
  - destruct (enc_multi u) as (c & ds & Hc & Hds & Hl & -> & <-); [lia|]. cbn [app].
    rewrite to_unichar_lead, <- Hl by lia. apply unichar_loop_conts; [|done].
    rewrite Hl. apply lead_fits. lia.
Qed.

(** What a successful decoding read. *)
Lemma to_unichar_inv m u : Forall is_byte m → utf8_encoded_to_unichar m = Some (inr u) →
  (∃ rest, m = u :: rest ∧ 0 <= u < 128) ∨
  ∃ c ds rest, m = c :: conts ds ++ rest ∧ 192 <= c < 254 ∧ Forall sextet ds ∧
    length ds = (lead c).1 ∧ u = join (lead c).2 ds.
Proof.
  intros Hb. destruct m as [|c m]; [done|]. apply Forall_cons in Hb as [Hc Hb].
  unfold is_byte in Hc. destruct (decide (c < 128)).
  { rewrite to_unichar_ascii by lia. intros [= <-]. left. exists m. split; [done|lia]. }
  destruct (decide (192 <= c < 254)).
  - rewrite to_unichar_lead by done.
    intros (ds & rest & -> & Hl & Hds & ->)%unichar_loop_inr; [|by apply lead_fits|done].
    right. by exists c, ds, rest.
  - unfold utf8_encoded_to_unichar. cbn [mbind option_bind lookup list_lookup].
    rewrite expected_len_spec by (unfold is_byte; lia).
    repeat case_match; reflect_bools; try lia; try done.
Qed.

Lemma expected_len_lead c : 192 <= c < 254 →
  utf8_encoded_expected_len c = Z.of_nat (S (lead c).1).
Proof.
  intros Hc. rewrite expected_len_spec by (unfold is_byte; lia). unfold lead.
  repeat case_match; reflect_bools; simpl; lia.
Qed.

(** Sequences of five and six bytes are longer than any valid code point
    needs; a shorter one whose length is right is an encoding. *)
Lemma enc_join c ds : 192 <= c < 254 → Forall sextet ds → length ds = (lead c).1 →
  utf8_unichar_to_encoded_len (join (lead c).2 ds) = Z.of_nat (S (lead c).1) →
  unichar_is_valid (join (lead c).2 ds) = true →
  0 <= join (lead c).2 ds < 2 ^ 21 ∧ utf8_encode_unichar (join (lead c).2 ds) = c :: conts ds.
Proof.
  intros Hc Hds Hl Henc Hv.
  destruct (join_bound ds (lead c).2 64) as [H0 _];
    [unfold lead; repeat case_match; reflect_bools; simpl; lia|done|].
  assert (join (lead c).2 ds < 0x110000) as H1.
  { unfold unichar_is_valid in Hv.
    destruct (Z.leb_spec 0x110000 (join (lead c).2 ds)); [done|lia]. }
  split; [lia|]. rewrite encode_spec by lia. unfold enc_spec.
  unfold utf8_unichar_to_encoded_len in Henc. clear Hv.
  change 0x80 with 128 in Henc. change 0x800 with 2048 in Henc. change 0x10000 with 65536 in Henc.
  set (u := join (lead c).2 ds) in *. unfold lead in *. unfold join in u.
  unfold conts.
  destruct (Z.ltb_spec c 224); [|destruct (Z.ltb_spec c 240); [|destruct (Z.ltb_spec c 248);
    [|destruct (Z.ltb_spec c 252)]]];
  destruct ds as [|d1 [|d2 [|d3 [|d4 [|d5 [|d6 ds]]]]]]; try (simpl in Hl; discriminate Hl).
  all: rewrite !Forall_cons in Hds; unfold sextet in Hds; cbn [fold_left fst snd] in *.
  all: destruct (Z.ltb_spec u 128); [simpl in Henc; lia|].
  all: destruct (Z.ltb_spec u 2048);
    [|destruct (Z.ltb_spec u 65536); [|destruct (Z.ltb_spec u 2097152); [|lia]]];
    try (simpl in Henc; lia).
  all: cbn [fmap list_fmap]; subst u; repeat f_equal; zdiv.
Qed.

Definition good_len (L : Z) (m : list Z) : Prop := 0 ∈ m ∨ L <= Z.of_nat (length m).

Lemma all_high_conts ds rest : Forall sextet ds →
  all_high (length ds) (conts ds ++ rest) = Some true.
Proof.
  induction 1 as [|d ds Hd _ IH]; [done|]. unfold conts.
  cbn [length fmap list_fmap app all_high mbind option_bind lookup list_lookup].
  unfold sextet in Hd. rewrite high_spec by (unfold is_byte; lia).
  destruct (Z.leb_spec 128 (128 + d)); [|lia]. apply IH.
Qed.

Lemma all_high_total n : ∀ m, Forall is_byte m → 0 ∈ m ∨ (n <= length m)%nat →
  ∃ b, all_high n m = Some b.
Proof.
  induction n as [|n IH]; intros m Hb Hs; [by eexists|].
  destruct m as [|c m].
  { destruct Hs as [Hs|Hs]; [by apply elem_of_nil in Hs|simpl in Hs; lia]. }
  apply Forall_cons in Hb as [Hc Hb]. cbn [all_high mbind option_bind lookup list_lookup].
  rewrite high_spec by done. destruct (Z.leb_spec 128 c); [|by eexists].
  change (drop 1 (c :: m)) with m. apply IH; [done|].
  destruct Hs as [[<-|Hs]%elem_of_cons|Hs]; [lia|by left|right; simpl in Hs; lia].
Qed.

(** The validation accepts exactly the encodings of valid code points. *)
Lemma valid_unichar_enc u rest L :
  0 <= u → unichar_is_valid u = true → Z.of_nat (length (utf8_encode_unichar u)) <= L →
  utf8_encoded_valid_unichar (utf8_encode_unichar u ++ rest) L =
  Some (Z.of_nat (length (utf8_encode_unichar u))).
Proof.
  intros H0 Hv HL.
  assert (u < 0x110000) as H1.
  { unfold unichar_is_valid in Hv. destruct (Z.leb_spec 0x110000 u); [done|lia]. }
  destruct (enc_length u) as [El Hr]; [lia|]. unfold utf8_encoded_valid_unichar.
  destruct (Z.leb_spec L 0); [lia|]. destruct (decide (u < 128)).
  - assert (utf8_encode_unichar u = [u]) as E.
    { rewrite encode_spec by lia. unfold enc_spec. destruct (Z.ltb_spec u 128); [done|lia]. }
    rewrite E in *. cbn [app mbind option_bind lookup list_lookup].
    rewrite expected_len_spec by (unfold is_byte; lia).
    destruct (Z.ltb_spec u 128); [|lia]. cbn [length] in *.
    change (1 =? 0) with false. change (1 =? 1) with true. cbn [negb].
    destruct (Z.ltb_spec L 1); [lia|done].
  - rewrite to_unichar_enc by lia.
    destruct (enc_multi u) as (c & ds & Hc & Hds & Hl & E & Eu); [lia|].
    rewrite E in *. cbn [app]. cbn [mbind option_bind lookup list_lookup].
    rewrite expected_len_lead by lia. cbn [length] in *.
    assert (length (conts ds) = (lead c).1) as Elc by (unfold conts; by rewrite length_fmap).
    rewrite Elc in *.
    destruct (Z.eqb_spec (Z.of_nat (S (lead c).1)) 0); [lia|].
    destruct (Z.ltb_spec L (Z.of_nat (S (lead c).1))); [lia|].
    assert (1 <= (lead c).1)%nat by (unfold lead; repeat case_match; simpl; lia).
    destruct (Z.eqb_spec (Z.of_nat (S (lead c).1)) 1); [lia|].
    rewrite Nat2Z.id. cbn [all_high lookup list_lookup mbind option_bind].
    rewrite high_spec by (unfold is_byte; lia). destruct (Z.leb_spec 128 c); [|lia].
    change (drop 1 (c :: ?x)) with x. rewrite <- Hl, all_high_conts by done.
    cbn [mbind option_bind negb]. rewrite Hl, <- El, Z.eqb_refl, Hv. done.
Qed.

Lemma to_unichar_total c m : Forall is_byte (c :: m) → 192 <= c < 254 →
  0 ∈ m ∨ ((lead c).1 <= length m)%nat →
  ∃ r, utf8_encoded_to_unichar (c :: m) = Some r ∧ (∀ e, r = inl e → e = - EINVAL).
Proof.
  intros [_ Hb]%Forall_cons Hc Hs. rewrite to_unichar_lead by done. by apply unichar_loop_total.
Qed.

Lemma valid_unichar_cases m L :
  Forall is_byte m → m ≠ [] → 0 < L → good_len L m →
  utf8_encoded_valid_unichar m L = Some (- EINVAL) ∨
  ∃ u rest, 0 <= u ∧ unichar_is_valid u = true ∧ m = utf8_encode_unichar u ++ rest ∧
    Z.of_nat (length (utf8_encode_unichar u)) <= L.
Proof.
  intros Hb Hm HL Hg. destruct m as [|c m]; [done|]. pose proof Hb as [Hc Hb']%Forall_cons.
  unfold is_byte in Hc. destruct (decide (c < 128)).
  { right. exists c, m. assert (utf8_encode_unichar c = [c]) as ->.
    { rewrite encode_spec by lia. unfold enc_spec. destruct (Z.ltb_spec c 128); [done|lia]. }
    repeat split; [lia| |simpl; lia]. revert Hc. clear -l. intros Hc.
    apply (byte_forall (λ c, (128 <=? c) || unichar_is_valid c)) in Hc; [|by vm_compute].
    apply orb_true_iff in Hc as [Hc|Hc]; [reflect_bools; lia|done]. }
  unfold utf8_encoded_valid_unichar. destruct (Z.leb_spec L 0); [lia|].
  cbn [mbind option_bind lookup list_lookup].
  destruct (decide (192 <= c < 254)); [|left; rewrite expected_len_spec by (unfold is_byte; lia);
    repeat case_match; reflect_bools; try lia; done].
  rewrite expected_len_lead by done.
  destruct (Z.eqb_spec (Z.of_nat (S (lead c).1)) 0); [lia|].
  destruct (Z.ltb_spec L (Z.of_nat (S (lead c).1))); [by left|].
  assert (1 <= (lead c).1)%nat by (unfold lead; repeat case_match; simpl; lia).
  destruct (Z.eqb_spec (Z.of_nat (S (lead c).1)) 1); [lia|]. rewrite Nat2Z.id.
  assert (0 ∈ m ∨ ((lead c).1 <= length m)%nat) as Hs.
  { destruct Hg as [[<-|Hg]%elem_of_cons|Hg]; [lia|by left|right; simpl in Hg; lia]. }
  destruct (all_high_total (S (lead c).1) (c :: m) Hb) as [b ->].
  { destruct Hs; [left; by right|right; simpl; lia]. }
  destruct b; [|by left]. cbn [mbind option_bind negb].
  destruct (to_unichar_total c m Hb) as ([e|u] & E & He); [done|done| |]; rewrite E.
  { left. cbn [mbind option_bind]. by rewrite (He e). }
  cbn [mbind option_bind].
  apply to_unichar_inv in E as [(rest & [= -> ->] & ?)|(c' & ds & rest & [= <- ->] & _ & Hds & Hl & ->)];
    [lia| |done].
  destruct (Z.eqb_spec (utf8_unichar_to_encoded_len (join (lead c).2 ds)) (Z.of_nat (S (lead c).1)))
    as [Ee|]; [|by left]. cbn [negb].
  destruct (unichar_is_valid (join (lead c).2 ds)) eqn:Ev; [|by left]. right.
  destruct (enc_join c ds) as [Hr Ej]; [done..|].
  exists (join (lead c).2 ds), rest. rewrite Ej. repeat split; [lia|done|].
  cbn [length]. unfold conts. rewrite length_fmap, Hl. lia.
Qed.

(** ** Strings of code points *)

Definition good (u : Z) : Prop := 0 < u ∧ unichar_is_valid u = true.
Definition encs (cps : list Z) : list Z := cps ≫= utf8_encode_unichar.

(** The bytes of a C string before its NUL. *)
Definition cstring (s : list Z) : Prop := Forall (λ b, 0 < b < 256) s.

Lemma good_range u : good u → 0 < u < 2 ^ 21.
Proof.
  intros [H0 Hv]. unfold unichar_is_valid in Hv. destruct (Z.leb_spec 0x110000 u); [done|lia].
Qed.

Lemma enc_cstring u : 0 < u < 2 ^ 21 → cstring (utf8_encode_unichar u).
Proof.
  intros Hu. unfold cstring. rewrite encode_spec by lia. unfold enc_spec.
  destruct (Z.ltb_spec u 128); [|destruct (Z.ltb_spec u 2048); [|destruct (Z.ltb_spec u 65536)]];
    repeat constructor; zdiv.
Qed.

Lemma encs_cstring cps : Forall good cps → cstring (encs cps).
Proof.
  induction 1 as [|u cps Hu _ IH]; [constructor|]. unfold encs. cbn [mbind list_bind].
  apply Forall_app. split; [by apply enc_cstring, good_range|done].
Qed.

Lemma cstring_bytes s : cstring s → Forall is_byte (s ++ [0]).
Proof.
  intros Hs. apply Forall_app. split; [|repeat constructor; unfold is_byte; lia].
  eapply Forall_impl; [exact Hs|]. unfold is_byte. intros; simpl in *; lia.
Qed.

Lemma cstring_prefix a s rest : cstring a → s ++ [0] = a ++ rest →
  ∃ s', s = a ++ s' ∧ rest = s' ++ [0].
Proof.
  revert s. induction a as [|x a IH]; intros s Ha E; [by exists s|].
  apply Forall_cons in Ha as [Hx Ha]. destruct s as [|y s].
  { injection E as <- _. simpl in Hx. lia. }
  injection E as -> E. destruct (IH s Ha E) as (s' & -> & ->). by exists s'.
Qed.

(** One character of a C string: invalid, or the encoding of a code point. *)
Lemma valid_unichar_string s : cstring s → s ≠ [] →
  utf8_encoded_valid_unichar (s ++ [0]) SIZE_MAX = Some (- EINVAL) ∨
  ∃ u s', good u ∧ s = utf8_encode_unichar u ++ s' ∧
    utf8_encoded_valid_unichar (s ++ [0]) SIZE_MAX =
      Some (Z.of_nat (length (utf8_encode_unichar u))).
Proof.
  intros Hs Hne. destruct (valid_unichar_cases (s ++ [0]) SIZE_MAX) as [E|(u & rest & H0 & Hv & E & HL)].
  - by apply cstring_bytes.
  - by intros [_ ?]%app_nil.
  - done.
  - left. apply elem_of_app. right. left.
  - by left.
  - right. assert (good u) as Hu.
    { split; [|done]. destruct (decide (u = 0)) as [->|]; [|lia].
      destruct s as [|c s]; [done|]. apply Forall_cons in Hs as [Hc _].
      change (utf8_encode_unichar 0) with [0] in E. injection E as E _. simpl in Hc. lia. }
    destruct (cstring_prefix (utf8_encode_unichar u) s rest) as (s' & -> & ->);
      [by apply enc_cstring, good_range|done|].
    exists u, s'. split; [done|]. split; [done|]. rewrite E. by apply valid_unichar_enc.
Qed.

Lemma good_length u : good u → (1 <= length (utf8_encode_unichar u) <= 4)%nat.
Proof. intros Hu%good_range. destruct (enc_length u); lia. Qed.

(** Induction on a C string, character by character. *)
Lemma string_ind (P : list Z → Prop) :
  P [] →
  (∀ c s, cstring (c :: s) →
     utf8_encoded_valid_unichar ((c :: s) ++ [0]) SIZE_MAX = Some (- EINVAL) → P s → P (c :: s)) →
  (∀ u s, good u → cstring s →
     utf8_encoded_valid_unichar (utf8_encode_unichar u ++ s ++ [0]) SIZE_MAX =
       Some (Z.of_nat (length (utf8_encode_unichar u))) →
     P s → P (utf8_encode_unichar u ++ s)) →
  ∀ s, cstring s → P s.
Proof.
  intros Hnil Hbad Hgood s. induction s as [s IH] using list_length_ind. intros Hs.
  destruct (decide (s = [])) as [->|Hne]; [done|].
  destruct (valid_unichar_string s Hs Hne) as [E|(u & s' & Hu & -> & E)].
  - destruct s as [|c s]; [done|]. apply Hbad; [done|done|].
    apply IH; [simpl; lia|]. by apply Forall_cons in Hs as [_ Hs].
  - rewrite <- app_assoc in E. apply Forall_app in Hs as [_ Hs]. apply Hgood; [done..|].
    apply IH; [|done]. rewrite length_app. pose proof (good_length u Hu). lia.
Qed.

(** The head of an encoding is not NUL and announces its length. *)
Lemma enc_head u : good u → ∃ c r, utf8_encode_unichar u = c :: r ∧ 0 < c < 256 ∧
  utf8_encoded_expected_len c = Z.of_nat (length (utf8_encode_unichar u)).
Proof.
  intros Hg. pose proof (good_range u Hg) as Hu. pose proof (enc_cstring u Hu) as Hc.
  destruct (decide (u < 128)).
  - assert (utf8_encode_unichar u = [u]) as ->.
    { rewrite encode_spec by lia. unfold enc_spec. destruct (Z.ltb_spec u 128); [done|lia]. }
    exists u, []. split; [done|]. split; [lia|]. rewrite expected_len_spec by (unfold is_byte; lia).
    destruct (Z.ltb_spec u 128); [done|lia].
  - destruct (enc_multi u) as (c & ds & Hr & Hds & Hl & E & _); [lia|]. rewrite E in *.
    apply Forall_cons in Hc as [Hc _].
    exists c, (conts ds). split; [done|]. split; [done|].
    rewrite expected_len_lead, <- Hl by lia. cbn [length]. unfold conts. by rewrite length_fmap.
Qed.

Lemma drop_enc u (s : list Z) :
  drop (Z.to_nat (Z.of_nat (length (utf8_encode_unichar u)))) (utf8_encode_unichar u ++ s) = s.
Proof. by rewrite Nat2Z.id, drop_app_length. Qed.

Lemma take_enc u (s : list Z) :
  take (Z.to_nat (Z.of_nat (length (utf8_encode_unichar u)))) (utf8_encode_unichar u ++ s) =
  utf8_encode_unichar u.
Proof. by rewrite Nat2Z.id, take_app_length. Qed.

(** Two valid encodings are equal only when their code points are. *)
Lemma encs_inj_head u s cps : good u → Forall good cps → utf8_encode_unichar u ++ s = encs cps →
  ∃ cps', cps = u :: cps' ∧ s = encs cps'.
Proof.
  intros Hu Hc E. destruct (enc_head u Hu) as (c & r & Eu & _).
  destruct cps as [|v cps]; [rewrite Eu in E; done|]. apply Forall_cons in Hc as [Hv Hc].
  unfold encs in E. cbn [mbind list_bind] in E.
  assert (u = v) as ->.
  { pose proof (to_unichar_enc u s ltac:(apply good_range in Hu; lia)) as H1.
    pose proof (to_unichar_enc v (encs cps) ltac:(apply good_range in Hv; lia)) as H2.
    unfold encs in H2. rewrite E, H2 in H1. by injection H1. }
  apply app_inv_head in E. by exists cps.
Qed.

(** The tests at the head of the loops. *)
Lemma loop_head c s : cstring (c :: s) → (((c :: s) ++ [0]) !! 0%nat) = Some c ∧ (c =? 0) = false.
Proof. intros [Hc _]%Forall_cons. simpl in Hc. split; [done|]. apply Z.eqb_neq. lia. Qed.

Lemma loop_head_enc u s : good u → ∃ c,
  ((utf8_encode_unichar u ++ s) !! 0%nat) = Some c ∧ (c =? 0) = false.
Proof.
  intros Hu. destruct (enc_head u Hu) as (c & r & -> & Hc & _). exists c. split; [done|].
  apply Z.eqb_neq. lia.
Qed.

Lemma good_len_nneg u : (Z.of_nat (length (utf8_encode_unichar u)) <? 0) = false.
Proof. apply Z.ltb_ge. lia. Qed.

Lemma valid_loop_spec s : cstring s → ∀ fuel, (length s <= fuel)%nat →
  ∃ b, valid_loop fuel (s ++ [0]) = Some b ∧ (b = true ↔ ∃ cps, Forall good cps ∧ s = encs cps).
Proof.
  intros Hs. pattern s. apply string_ind; [..|done]; clear s Hs.
  - intros fuel _. exists true. split; [by destruct fuel|]. split; [|done]. intros _. by exists [].
  - intros c s Hs E _ fuel Hf. destruct (loop_head c s Hs) as [Eh Ez].
    exists false. destruct fuel as [|fuel]; [simpl in Hf; lia|].
    cbn [valid_loop]. rewrite Eh. cbn [mbind option_bind]. rewrite Ez, E. split; [done|].
    split; [done|]. intros ([|u cps] & Hg & Ec); [done|].
    apply Forall_cons in Hg as [Hu Hg]. unfold encs in Ec. cbn [mbind list_bind] in Ec.
    rewrite Ec, <- app_assoc, valid_unichar_enc in E; [injection E as E; unfold EINVAL in E; lia|..].
    + apply good_range in Hu. lia.
    + apply Hu.
    + pose proof (good_length u Hu). unfold SIZE_MAX, UINT64_MAX. lia.
  - intros u s Hu Hs E IH fuel Hf. rewrite <- app_assoc.
    destruct (loop_head_enc u (s ++ [0]) Hu) as (c & Eh & Ez).
    pose proof (good_length u Hu). rewrite length_app in Hf.
    destruct fuel as [|fuel]; [lia|]. cbn [valid_loop]. rewrite Eh. cbn [mbind option_bind].
    rewrite Ez, E. cbn [mbind option_bind]. rewrite good_len_nneg, drop_enc.
    destruct (IH fuel) as (b & -> & Hb); [lia|]. exists b. split; [done|]. rewrite Hb. split.
    + intros (cps & Hg & ->). exists (u :: cps). split; [by constructor|done].
    + intros (cps & Hg & E'). apply encs_inj_head in E' as (cps' & -> & ->); [|done..].
      apply Forall_cons in Hg as [_ Hg]. by exists cps'.
Qed.

(** ** Width *)

(** The intervals of the table are ordered and disjoint. *)
Fixpoint ordered (l : list Interval) : bool :=
  match l with
  | x :: l => (iv_start x <=? iv_end x) && forallb (λ y, iv_end x <? iv_start y) l && ordered l
  | [] => true
  end.

Lemma ordered_lookup l : ordered l = true → ∀ i j x y, (i < j)%nat →
  l !! i = Some x → l !! j = Some y → iv_start x <= iv_end x < iv_start y ∧ iv_start y <= iv_end y.
Proof.
  induction l as [|z l IH]; intros Ho i j x y Hij Ex Ey; [done|].
  cbn [ordered] in Ho. apply andb_true_iff in Ho as [Ho1 Ho]. reflect_bools.
  match goal with H : forallb _ _ = true |- _ => rewrite forallb_forall in H; rename H into Hall end.
  destruct i as [|i], j as [|j]; try lia.
  - injection Ex as ->. cbn in Ey.
    specialize (Hall y (proj1 (list_elem_of_In _ _) (list_elem_of_lookup_2 _ _ _ Ey))).
    reflect_bools. split; [lia|]. clear -Ho Ey. revert l Ho Ey.
    induction j as [|j IHj]; intros [|w l] Ho Ey; try done; cbn [ordered] in Ho; reflect_bools.
    + injection Ey as ->. lia.
    + by eapply (IHj l).
  - cbn in Ex, Ey. eapply (IH Ho i j); [lia|done..].
Qed.

(** The cells a code point takes. *)
Definition in_interval (u : Z) (iv : Interval) : bool := (iv_start iv <=? u) && (u <=? iv_end iv).
Definition cells (u : Z) : Z := if existsb (in_interval u) wide then 2 else 1.
Definition width (cps : list Z) : Z := foldr (λ u n, cells u + n) 0 cps.

Lemma interval_compare_spec u iv : interval_compare u iv = 0 ↔ in_interval u iv = true.
Proof.
  unfold interval_compare, in_interval. rewrite andb_true_iff, !Z.leb_le.
  repeat case_match; reflect_bools; lia.
Qed.

Lemma unichar_iswide_spec u : unichar_iswide u = existsb (in_interval u) wide.
Proof.
  assert (bsearch (interval_compare u) wide ≠ None ↔ existsb (in_interval u) wide = true) as H.
  { rewrite bsearch_spec, existsb_exists.
    - setoid_rewrite interval_compare_spec. setoid_rewrite list_elem_of_In. done.
    - intros i j x y Hij Ex Ey.
      destruct (ordered_lookup wide ltac:(by vm_compute) i j x y Hij Ex Ey) as [H1 H2].
      unfold interval_compare. split; repeat case_match; reflect_bools; lia. }
  unfold unichar_iswide.
  destruct (bsearch (interval_compare u) wide), (existsb (in_interval u) wide); try done.
  - destruct H as [H _]. by rewrite H.
  - destruct H as [_ H]. by destruct (H eq_refl).
Qed.

Lemma char_width_enc u s : good u →
  utf8_char_console_width (utf8_encode_unichar u ++ s) = Some (cells u).
Proof.
  intros Hu%good_range. unfold utf8_char_console_width. rewrite to_unichar_enc by lia.
  cbn [mbind option_bind]. by rewrite unichar_iswide_spec.
Qed.

Lemma skip_data_spec c : is_byte c → utf8_encoded_expected_len c ≠ 0 →
  utf8_skip_data !! Z.to_nat c = Some (utf8_encoded_expected_len c).
Proof.
  by_bytes (λ c, (utf8_encoded_expected_len c =? 0) ||
    bool_decide (utf8_skip_data !! Z.to_nat c = Some (utf8_encoded_expected_len c))).
  intros Hne. apply orb_true_iff in Hc as [Hc|Hc]; [by apply Z.eqb_eq in Hc|].
  by apply bool_decide_eq_true in Hc.
Qed.

Lemma next_char_enc u s : good u → utf8_next_char (utf8_encode_unichar u ++ s) = Some s.
Proof.
  intros Hu. pose proof (good_length u Hu) as Hl.
  destruct (enc_head u Hu) as (c & r & E & Hc & El). unfold utf8_next_char.
  assert ((utf8_encode_unichar u ++ s) !! 0%nat = Some c) as -> by (by rewrite E).
  cbn [mbind option_bind]. rewrite skip_data_spec by (unfold is_byte; lia).
  cbn [mbind option_bind]. by rewrite El, drop_enc.
Qed.

Lemma cells_range u : 1 <= cells u <= 2.
Proof. unfold cells. case_match; lia. Qed.

Lemma width_bound cps : Z.of_nat (length cps) <= width cps <= 2 * Z.of_nat (length cps).
Proof.
  induction cps as [|u cps IH]; [simpl; lia|]. cbn [width foldr length].
  pose proof (cells_range u). unfold width in IH. lia.
Qed.

Lemma encs_length cps : Forall good cps → (length cps <= length (encs cps))%nat.
Proof.
  induction 1 as [|u cps Hu _ IH]; [simpl; lia|]. unfold encs in *. cbn [mbind list_bind length].
  rewrite length_app. pose proof (good_length u Hu). lia.
Qed.

Lemma encs_cons u cps s : encs (u :: cps) ++ s = utf8_encode_unichar u ++ encs cps ++ s.
Proof. unfold encs. cbn [mbind list_bind]. by rewrite <- app_assoc. Qed.

Lemma n_codepoints_loop_spec cps : Forall good cps → ∀ fuel n,
  (length (encs cps) <= fuel)%nat → 0 <= n → n + Z.of_nat (length cps) < 2 ^ 64 →
  n_codepoints_loop fuel (encs cps ++ [0]) n = Some (n + Z.of_nat (length cps)).
Proof.
  induction 1 as [|u cps Hu Hc IH]; intros fuel n Hf Hn Hb.
  { rewrite Z.add_0_r. by destruct fuel. }
  rewrite encs_cons. destruct (loop_head_enc u (encs cps ++ [0]) Hu) as (c & Eh & Ez).
  pose proof (good_length u Hu). unfold encs in Hf. cbn [mbind list_bind] in Hf.
  rewrite length_app in Hf. destruct fuel as [|fuel]; [lia|].
  cbn [n_codepoints_loop]. rewrite Eh. cbn [mbind option_bind]. rewrite Ez.
  rewrite valid_unichar_enc; [|apply good_range in Hu; lia|apply Hu|unfold SIZE_MAX, UINT64_MAX; lia].
  cbn [mbind option_bind length] in *. rewrite good_len_nneg, drop_enc, wrapu_small by lia.
  rewrite IH; [f_equal; lia|unfold encs; lia|lia|lia].
Qed.

Lemma console_width_loop_spec cps : Forall good cps → ∀ fuel n,
  (length (encs cps) <= fuel)%nat → 0 <= n → n + width cps < 2 ^ 64 →
  console_width_loop fuel (encs cps ++ [0]) n = Some (n + width cps).
Proof.
  induction 1 as [|u cps Hu Hc IH]; intros fuel n Hf Hn Hb.
  { rewrite Z.add_0_r. by destruct fuel. }
  rewrite encs_cons. destruct (loop_head_enc u (encs cps ++ [0]) Hu) as (c & Eh & Ez).
  pose proof (good_length u Hu). unfold encs in Hf. cbn [mbind list_bind] in Hf.
  rewrite length_app in Hf. destruct fuel as [|fuel]; [lia|].
  pose proof (cells_range u). pose proof (width_bound cps). cbn [width foldr] in *.
  unfold width in *. cbn [console_width_loop]. rewrite Eh. cbn [mbind option_bind].
  rewrite Ez, char_width_enc by done. cbn [mbind option_bind].
  destruct (Z.ltb_spec (cells u) 0); [lia|]. rewrite next_char_enc by done.
  cbn [mbind option_bind]. rewrite wrapu_small by lia.
  rewrite IH; [f_equal; lia|unfold encs; lia|lia|lia].
Qed.

(** C34. UTF-8 validation is exact: on every C string [utf8_is_valid] ends, reads
    nothing behind the NUL, and says yes exactly when the string is a sequence
    of encodings, as [utf8_encode_unichar] makes them, of code points that
    [unichar_is_valid] accepts; for such a string [utf8_n_codepoints] is the
    number of code points and [utf8_console_width] the sum of their widths,
    where the binary search of [unichar_iswide] finds exactly the code points of
    its table. *)
Theorem utf8_is_valid_iff s :
  cstring s → Z.of_nat (length s) < 2 ^ 62 →
  (∃ b, utf8_is_valid (s ++ [0]) = Some b ∧
     (b = true ↔ ∃ cps, Forall good cps ∧ s = encs cps)) ∧
  ∀ cps, Forall good cps → s = encs cps →
    utf8_n_codepoints (s ++ [0]) = Some (Z.of_nat (length cps)) ∧
    utf8_console_width (s ++ [0]) = Some (width cps).
Proof.
  intros Hs Hb. split; [apply valid_loop_spec; [done|rewrite length_app; lia]|].
  intros cps Hc ->. pose proof (encs_length cps Hc). pose proof (width_bound cps).
  unfold utf8_n_codepoints, utf8_console_width. split.
  - rewrite n_codepoints_loop_spec by (try rewrite length_app; auto; lia). done.
  - rewrite console_width_loop_spec by (try rewrite length_app; auto; lia). done.
Qed.

Lemma utf8_is_valid_iff_witness :
  cstring [0xe2; 0x84; 0xa2] ∧ ∃ b, utf8_is_valid ([0xe2; 0x84; 0xa2] ++ [0]) = Some b ∧
    (b = true ↔ ∃ cps, Forall good cps ∧ [0xe2; 0x84; 0xa2] = encs cps).
Proof.
  assert (cstring [0xe2; 0x84; 0xa2]) as H by (repeat constructor; lia).
  split; [exact H|]. exact (proj1 (utf8_is_valid_iff _ H ltac:(simpl; lia))).
Defined.

(** ** Escaping invalid characters *)

Lemma strlen_cstring s : cstring s → strlen (s ++ [0]) = Some (Z.of_nat (length s)).
Proof.
  induction 1 as [|c s Hc _ IH]; [done|]. cbn [app strlen]. simpl in Hc.
  destruct (Z.eqb_spec c 0); [lia|]. rewrite IH. cbn [mbind option_bind length]. f_equal. lia.
Qed.

Definition REPLACEMENT : Z := 0xFFFD.

Lemma replacement_good : good REPLACEMENT ∧ utf8_encode_unichar REPLACEMENT = UTF8_REPLACEMENT_CHARACTER.
Proof. split; [split; [unfold REPLACEMENT; lia|reflexivity]|reflexivity]. Qed.

Lemma escape_invalid_loop_spec s : cstring s → ∀ fuel, (length s <= fuel)%nat →
  ∃ cps, Forall good cps ∧ escape_invalid_loop fuel (s ++ [0]) = Some (encs cps) ∧
    (length (encs cps) <= 3 * length s)%nat ∧
    ∀ cps', Forall good cps' → s = encs cps' → cps = cps'.
Proof.
  intros Hs. pattern s. apply string_ind; [..|done]; clear s Hs.
  - intros fuel _. exists []. split; [constructor|]. split; [by destruct fuel|]. split; [simpl; lia|].
    intros [|u cps] Hg E; [done|]. apply Forall_cons in Hg as [Hu _].
    unfold encs in E. cbn [mbind list_bind] in E. symmetry in E. apply app_nil in E as [E _].
    pose proof (good_length u Hu). rewrite E in *. simpl in *. lia.
  - intros c s Hs E IH fuel Hf. destruct (loop_head c s Hs) as [Eh Ez].
    destruct fuel as [|fuel]; [simpl in Hf; lia|].
    destruct (IH fuel) as (cps & Hg & El & Hl & _); [simpl in Hf; lia|].
    destruct replacement_good as [Hr Er].
    exists (REPLACEMENT :: cps). split; [by constructor|].
    cbn [escape_invalid_loop]. rewrite Eh. cbn [mbind option_bind]. rewrite Ez, E.
    cbn [mbind option_bind]. change (0 <? - EINVAL) with false. cbn [negb].
    change (drop 1 ((c :: s) ++ [0])) with (s ++ [0]). rewrite El. cbn [mbind option_bind].
    unfold encs in *. cbn [mbind list_bind]. rewrite Er. split; [done|].
    split; [rewrite length_app; cbn [length UTF8_REPLACEMENT_CHARACTER] in *; lia|].
    intros [|u cps'] Hg' Ec; [done|]. exfalso. apply Forall_cons in Hg' as [Hu _].
    cbn [mbind list_bind] in Ec. rewrite Ec, <- app_assoc, valid_unichar_enc in E;
      [injection E as E; unfold EINVAL in E; lia|apply good_range in Hu; lia|apply Hu|].
    pose proof (good_length u Hu). unfold SIZE_MAX, UINT64_MAX. lia.
  - intros u s Hu Hs E IH fuel Hf. rewrite <- app_assoc.
    destruct (loop_head_enc u (s ++ [0]) Hu) as (c & Eh & Ez).
    pose proof (good_length u Hu). rewrite length_app in *.
    destruct fuel as [|fuel]; [lia|].
    destruct (IH fuel) as (cps & Hg & El & Hl & Huniq); [lia|].
    exists (u :: cps). split; [by constructor|].
    cbn [escape_invalid_loop]. rewrite Eh. cbn [mbind option_bind].
    rewrite Ez, E. cbn [mbind option_bind]. destruct (Z.ltb_spec 0 (Z.of_nat (length (utf8_encode_unichar u)))); [|lia].
    rewrite drop_enc, take_enc, El. cbn [mbind option_bind].
    unfold encs in *. cbn [mbind list_bind]. rewrite length_app. split; [done|]. split; [lia|].
    intros cps' Hg' Ec. apply encs_inj_head in Ec as (cps2 & -> & ->); [|done..].
    apply Forall_cons in Hg' as [_ Hg']. f_equal. by apply Huniq.
Qed.

(** ** Escaping what cannot be printed *)

Lemma encs_app a b : encs (a ++ b) = encs a ++ encs b.
Proof. unfold encs. apply bind_app. Qed.

Lemma width_app a b : width (a ++ b) = width a + width b.
Proof. unfold width. induction a as [|u a IH]; cbn [app foldr]; lia. Qed.

Lemma encs_single u : encs [u] = utf8_encode_unichar u.
Proof. unfold encs. cbn [mbind list_bind]. apply app_nil_r. Qed.

(** The characters of an escape sequence. *)
Definition plain (u : Z) : Prop := good u ∧ utf8_encode_unichar u = [u] ∧ cells u = 1.

Lemma plain_check u : bool_decide (0 < u) && unichar_is_valid u &&
  bool_decide (utf8_encode_unichar u = [u]) && (cells u =? 1) = true → plain u.
Proof.
  rewrite !andb_true_iff, !bool_decide_eq_true, Z.eqb_eq. unfold plain, good. tauto.
Qed.

Lemma hexchar_plain x : plain (hexchar x).
Proof.
  apply plain_check. unfold hexchar. rewrite (land_mod x 4) by done.
  assert (0 <= x mod 2 ^ 4 < 256) as H by (change (2 ^ 4) with 16; zdiv).
  assert (x mod 2 ^ 4 < 16) as H' by (change (2 ^ 4) with 16; zdiv). revert H'.
  generalize dependent (x mod 2 ^ 4). intros y Hy. pattern y.
  apply (byte_forall (λ y, (16 <=? y) || (let u := table_char (bytes_of "0123456789abcdef") y in
    bool_decide (0 < u) && unichar_is_valid u &&
    bool_decide (utf8_encode_unichar u = [u]) && (cells u =? 1))) ltac:(by vm_compute)) in Hy.
  intros Hlt. apply orb_true_iff in Hy as [Hy|Hy]; [reflect_bools; lia|done].
Qed.

Lemma escape_sequence c : ∃ xs, Forall good xs ∧ width xs = 4 ∧
  encs xs = [92; 120; hexchar (Z.shiftr c 4); hexchar c].
Proof.
  exists [92; 120; hexchar (Z.shiftr c 4); hexchar c].
  assert (∀ u, u ∈ [92; 120; hexchar (Z.shiftr c 4); hexchar c] → plain u) as Hp.
  { intros u [->|[->|[->|[->|H%elem_of_nil]%elem_of_cons]%elem_of_cons]%elem_of_cons]%elem_of_cons;
      [by apply plain_check; vm_compute..|apply hexchar_plain|apply hexchar_plain|done]. }
  generalize dependent (hexchar c). generalize dependent (hexchar (Z.shiftr c 4)). intros a b Hp.
  assert (plain a) as (Ha & Ea & Ca) by (apply Hp; set_solver).
  assert (plain b) as (Hb & Eb & Cb) by (apply Hp; set_solver).
  assert (plain 92) as (H1 & _ & C1) by (apply Hp; set_solver).
  assert (plain 120) as (H2 & _ & C2) by (apply Hp; set_solver).
  split; [by repeat (apply Forall_cons_2; [done|])|]. split; [cbn [width foldr]; lia|].
  unfold encs. cbn [mbind list_bind]. by rewrite Ea, Eb.
Qed.

Lemma escape_bytes_spec b r cw : ∀ out n,
  0 <= n <= cw → cw < 2 ^ 64 → n + 4 * Z.of_nat (length b) + 4 < 2 ^ 64 →
  ∃ xs j ok rest, escape_bytes (length b) (b ++ r) out n cw = Some (out ++ encs xs, n + 4 * Z.of_nat j, rest, ok) ∧
    Forall good xs ∧ width xs = 4 * Z.of_nat j ∧ length (encs xs) = (4 * j)%nat ∧
    (j <= length b)%nat ∧ n + 4 * Z.of_nat j <= cw ∧
    (if ok : bool then j = length b ∧ rest = r else (j < length b)%nat).
Proof.
  induction b as [|c b IH]; intros out n Hn Hcw Hb.
  { exists [], 0%nat, true, r. cbn [length escape_bytes]. unfold encs. cbn [mbind list_bind].
    rewrite app_nil_r, Z.add_0_r. repeat split; [constructor|lia|lia]. }
  cbn [length app escape_bytes] in *. rewrite wrapu_small by lia.
  destruct (Z.ltb_spec cw (n + 4)).
  { exists [], 0%nat, false, (c :: b ++ r). unfold encs. cbn [mbind list_bind].
    rewrite app_nil_r, Z.add_0_r. repeat split; [constructor|lia..]. }
  cbn [mbind option_bind lookup list_lookup]. change (drop 1 (c :: b ++ r)) with (b ++ r).
  destruct (escape_sequence (wraps 8 c)) as (ys & Hy & Hwy & Ey).
  destruct (IH (out ++ encs ys) (n + 4)) as (xs & j & ok & rest & E & Hx & Hw & Hl & Hj & Hc & Hok);
    [lia|lia|lia|].
  exists (ys ++ xs), (S j), ok, rest. rewrite encs_app, width_app, length_app.
  rewrite <- Ey, E. rewrite <- app_assoc. repeat split.
  - do 4 f_equal. lia.
  - by apply Forall_app.
  - lia.
  - rewrite Hl, Ey. simpl. lia.
  - lia.
  - lia.
  - destruct ok; [destruct Hok; split; [lia|done]|lia].
Qed.

Lemma is_printable_enc u s : good u →
  utf8_is_printable_newline (utf8_encode_unichar u ++ s)
    (Z.of_nat (length (utf8_encode_unichar u))) true = Some (negb (unichar_is_control u)).
Proof.
  intros Hu. pose proof (good_length u Hu) as Hl. unfold utf8_is_printable_newline.
  set (len := Z.of_nat (length (utf8_encode_unichar u))) in *.
  assert (∃ k, Z.to_nat len = S k) as [k ->] by (exists (Z.to_nat len - 1)%nat; lia).
  cbn [printable_loop]. destruct (Z.leb_spec len 0); [lia|].
  rewrite valid_unichar_enc; [|apply good_range in Hu; lia|apply Hu|lia].
  cbn [mbind option_bind]. fold len.
  destruct (Z.ltb_spec len 0); [lia|].
  destruct (Z.ltb_spec 0 len); [|lia]. destruct (Z.leb_spec len len); [|lia]. cbn [negb andb].
  rewrite to_unichar_enc by (apply good_range in Hu; lia). cbn [mbind option_bind].
  rewrite orb_false_r. destruct (unichar_is_control u); [done|]. cbn [negb].
  rewrite Z.sub_diag. by destruct k.
Qed.

(** The ellipsis fits, behind the text so far or behind the text before the
    last character. *)
Lemma truncation_spec oc pc cw :
  Forall good oc → Forall good pc → width oc + 1 < 2 ^ 64 → width pc + 1 <= cw → cw < 2 ^ 64 →
  ∃ rc, Forall good rc ∧ truncation (encs oc) (encs pc) (width oc) cw = encs rc ∧ width rc <= cw ∧
    (length (encs rc) <= Nat.max (length (encs oc)) (length (encs pc)) + 3)%nat.
Proof.
  intros Ho Hp Hb Hpw Hcw. unfold truncation. pose proof (width_bound oc).
  rewrite wrapu_small by lia.
  assert (good 0x2026) as Hd by (split; [lia|reflexivity]).
  assert (encs [0x2026] = ELLIPSIS) as <- by reflexivity.
  assert (width [0x2026] = 1) as Hw by reflexivity.
  destruct (Z.leb_spec cw (width oc + 1)).
  - exists (pc ++ [0x2026]). rewrite encs_app, width_app, length_app.
    repeat split; [apply Forall_app; by repeat constructor|lia|simpl; lia].
  - exists (oc ++ [0x2026]). rewrite encs_app, width_app, length_app.
    repeat split; [apply Forall_app; by repeat constructor|lia|simpl; lia].
Qed.

(** The loop: [oc] are the characters written, [pc] those before the last step. *)
Record progress (oc pc : list Z) (cw : Z) : Prop := {
  pg_oc : Forall good oc;
  pg_pc : Forall good pc;
  pg_prev : width pc + 1 <= cw;
  pg_len : (length (encs pc) <= length (encs oc))%nat;
  pg_width : width oc <= cw;
  pg_cw : 1 <= cw < 2 ^ 64 }.

Lemma progress_step oc pc xs cw :
  progress oc pc cw → Forall good xs → 1 <= width xs → width oc + width xs <= cw →
  progress (oc ++ xs) oc cw.
Proof.
  intros [] Hx Hw Hle. constructor; rewrite ?width_app, ?encs_app, ?length_app; auto; try lia.
  by apply Forall_app.
Qed.

(** What the loop does from a state of progress on. *)
Definition escapes (s : list Z) : Prop := ∀ fuel oc pc cw,
  (length s <= fuel)%nat → progress oc pc cw → width oc + 4 * Z.of_nat (length s) + 8 < 2 ^ 64 →
  ∃ rc, Forall good rc ∧
    escape_non_printable_loop fuel (s ++ [0]) (encs oc) (encs pc) (width oc) cw = Some (encs rc) ∧
    width rc <= cw ∧ (length (encs rc) <= length (encs oc) + 4 * length s)%nat.

Lemma escapes_invalid c s : cstring (c :: s) →
  utf8_encoded_valid_unichar ((c :: s) ++ [0]) SIZE_MAX = Some (- EINVAL) →
  escapes s → escapes (c :: s).
Proof.
  intros Hs E IH fuel oc pc cw Hf Hp Hb. destruct (loop_head c s Hs) as [Eh Ez].
  pose proof Hp as [Ho Hpc Hprev Hlen Hw Hcw]. pose proof (width_bound oc).
  destruct fuel as [|fuel]; [simpl in Hf; lia|].
  cbn [escape_non_printable_loop]. rewrite Eh. cbn [mbind option_bind]. rewrite Ez, E.
  cbn [mbind option_bind]. change (0 <? - EINVAL) with false. cbn [negb length] in *.
  rewrite wrapu_small by lia. destruct (Z.ltb_spec cw (width oc + 1)).
  - destruct (truncation_spec oc pc cw) as (rc & Hr & -> & Hwr & Hl); [done|done|lia..|].
    exists rc. repeat split; [done|done|lia].
  - destruct replacement_good as [Hr Er].
    assert (width [REPLACEMENT] = 1) as Wr by reflexivity.
    change (drop 1 ((c :: s) ++ [0])) with (s ++ [0]).
    rewrite <- Er, <- (encs_single REPLACEMENT), <- encs_app.
    replace (width oc + 1) with (width (oc ++ [REPLACEMENT])) by (rewrite width_app; lia).
    destruct (IH fuel (oc ++ [REPLACEMENT]) oc cw) as (rc & Hg & -> & Hwr & Hl);
      [lia|apply (progress_step oc pc); [done|by apply Forall_singleton|lia..]|rewrite width_app; lia|].
    exists rc. rewrite encs_app, length_app, encs_single, Er in Hl.
    change (length UTF8_REPLACEMENT_CHARACTER) with 3%nat in Hl. repeat split; [done|done|lia].
Qed.

(** The loop at a valid character, up to the test whether it can be printed. *)
Lemma escape_loop_valid u s fuel out prev n cw : good u →
  utf8_encoded_valid_unichar (utf8_encode_unichar u ++ s) SIZE_MAX =
    Some (Z.of_nat (length (utf8_encode_unichar u))) →
  escape_non_printable_loop (S fuel) (utf8_encode_unichar u ++ s) out prev n cw =
  if unichar_is_control u then
    '(out', n', str', fits) ← escape_bytes (length (utf8_encode_unichar u))
      (utf8_encode_unichar u ++ s) out n cw;
    if fits : bool then escape_non_printable_loop fuel str' out' out n' cw
    else Some (truncation out' prev n' cw)
  else if cw <? wrapu 64 (n + cells u) then Some (truncation out prev n cw)
  else escape_non_printable_loop fuel s (out ++ utf8_encode_unichar u) out (wrapu 64 (n + cells u)) cw.
Proof.
  intros Hu E. destruct (loop_head_enc u s Hu) as (c & Eh & Ez).
  pose proof (good_length u Hu) as Hlu. pose proof (cells_range u) as Hcu.
  cbn [escape_non_printable_loop]. rewrite Eh. cbn [mbind option_bind].
  rewrite Ez, E. cbn [mbind option_bind].
  destruct (Z.ltb_spec 0 (Z.of_nat (length (utf8_encode_unichar u)))); [|lia].
  rewrite is_printable_enc by done. cbn [mbind option_bind].
  destruct (unichar_is_control u); cbn [negb]; [by rewrite Nat2Z.id|].
  rewrite char_width_enc by done. cbn [mbind option_bind].
  destruct (Z.ltb_spec (cells u) 0); [lia|]. by rewrite drop_enc, take_enc.
Qed.

Lemma escapes_valid u s : good u → cstring s →
  utf8_encoded_valid_unichar (utf8_encode_unichar u ++ s ++ [0]) SIZE_MAX =
    Some (Z.of_nat (length (utf8_encode_unichar u))) →
  escapes s → escapes (utf8_encode_unichar u ++ s).
Proof.
  intros Hu Hs E IH fuel oc pc cw Hf Hp Hb. rewrite <- app_assoc.
  pose proof Hp as [Ho Hpc Hprev Hlen Hw Hcw]. pose proof (width_bound oc).
  pose proof (good_length u Hu) as Hlu. pose proof (cells_range u) as Hcu. rewrite length_app in *.
  destruct fuel as [|fuel]; [lia|]. rewrite escape_loop_valid by done.
  destruct (unichar_is_control u).
  - destruct (escape_bytes_spec (utf8_encode_unichar u) (s ++ [0]) cw (encs oc) (width oc))
      as (xs & j & ok & rest & -> & Hx & Hwx & Hlx & Hj & Hjc & Hok); [lia..|].
    cbn [mbind option_bind]. rewrite <- encs_app, <- Hwx, <- width_app. destruct ok.
    + destruct Hok as [-> ->].
      destruct (IH fuel (oc ++ xs) oc cw) as (rc & Hg & -> & Hwr & Hl);
        [lia|apply (progress_step oc pc); [done..|lia|lia]|rewrite width_app; lia|].
      exists rc. rewrite encs_app, length_app in Hl. repeat split; [done|done|lia].
    + destruct (truncation_spec (oc ++ xs) pc cw) as (rc & Hr & -> & Hwr & Hl);
        [by apply Forall_app|done|rewrite width_app; lia|lia..|].
      exists rc. rewrite encs_app, length_app in Hl. repeat split; [done|done|lia].
  - rewrite wrapu_small by lia.
    assert (width [u] = cells u) as Wu by (cbn [width foldr]; lia).
    destruct (Z.ltb_spec cw (width oc + cells u)).
    + destruct (truncation_spec oc pc cw) as (rc & Hr & -> & Hwr & Hl); [done|done|lia..|].
      exists rc. repeat split; [done|done|lia].
    + rewrite <- (encs_single u), <- encs_app, <- Wu, <- width_app.
      destruct (IH fuel (oc ++ [u]) oc cw) as (rc & Hg & -> & Hwr & Hl);
        [lia|apply (progress_step oc pc); [done|by apply Forall_singleton|lia..]
        |rewrite width_app; lia|].
      exists rc. rewrite encs_app, length_app in Hl. rewrite encs_single in *.
      repeat split; [done|done|lia].
Qed.

Lemma escapes_all s : cstring s → escapes s.
Proof.
  apply string_ind; [|apply escapes_invalid|apply escapes_valid].
  intros fuel oc pc cw _ [] _. exists oc. split; [done|]. split; [by destruct fuel|]. split; [done|lia].
Qed.

(** Text that can be printed and fits is left alone. *)
Lemma escape_loop_id cps : Forall good cps → ∀ fuel out prev n cw,
  Forall (λ u, unichar_is_control u = false) cps → (length (encs cps) <= fuel)%nat →
  0 <= n → n + width cps <= cw → cw < 2 ^ 64 →
  escape_non_printable_loop fuel (encs cps ++ [0]) out prev n cw = Some (out ++ encs cps).
Proof.
  induction 1 as [|u cps Hu Hc IH]; intros fuel out prev n cw Hp Hf Hn Hw Hcw.
  { unfold encs. cbn [mbind list_bind]. rewrite app_nil_r. by destruct fuel. }
  apply Forall_cons in Hp as [Hpu Hp]. rewrite encs_cons.
  pose proof (good_length u Hu). pose proof (width_bound cps). pose proof (cells_range u).
  unfold encs in Hf. cbn [mbind list_bind] in Hf. rewrite length_app in Hf.
  destruct fuel as [|fuel]; [lia|]. cbn [width foldr] in Hw. unfold width in *.
  rewrite escape_loop_valid; [|done|apply valid_unichar_enc;
    [apply good_range in Hu; lia|apply Hu|unfold SIZE_MAX, UINT64_MAX; lia]].
  rewrite Hpu, wrapu_small by lia.
  destruct (Z.ltb_spec cw (n + cells u)); [lia|].
  rewrite IH; [|done|unfold encs; lia|lia|lia|done].
  unfold encs. cbn [mbind list_bind]. by rewrite <- app_assoc.
Qed.

(** The escaping functions of [utf8.c] do what their tests ask, on every C
    string: [utf8_escape_invalid] and [utf8_escape_non_printable_full] end,
    stay inside the buffer of four bytes per input byte, and give valid UTF-8;
    the first leaves a valid string unchanged; the width of what the second
    gives is at most the width it was given (the ellipsis of a truncation
    included), and text that is valid, printable and narrow enough is left
    unchanged. *)
Theorem utf8_escape_correct s cw :
  cstring s → Z.of_nat (length s) < 2 ^ 60 → 0 <= cw < 2 ^ 64 →
  (∃ cps, Forall good cps ∧ utf8_escape_invalid (s ++ [0]) = Some (encs cps) ∧
     ∀ cps', Forall good cps' → s = encs cps' → cps = cps') ∧
  (∃ cps, Forall good cps ∧ utf8_escape_non_printable_full (s ++ [0]) cw = Some (encs cps) ∧
     width cps <= cw) ∧
  (∀ cps, Forall good cps → Forall (λ u, unichar_is_control u = false) cps →
     s = encs cps → width cps <= cw → utf8_escape_non_printable_full (s ++ [0]) cw = Some s).
Proof.
  intros Hs Hb Hcw. unfold utf8_escape_invalid, utf8_escape_non_printable_full.
  rewrite strlen_cstring by done. cbn [mbind option_bind]. rewrite wrapu_small by lia.
  assert (∀ out, (length out <= 4 * length s)%nat →
    filled (Z.of_nat (length s) * 4 + 1) out = Some out) as Hfill.
  { intros out Ho. unfold filled. case_match; [done|]. reflect_bools. lia. }
  split; [|split].
  - destruct (escape_invalid_loop_spec s Hs (length (s ++ [0]))) as (cps & Hg & -> & Hl & Hu);
      [rewrite length_app; lia|].
    exists cps. split; [done|]. split; [apply Hfill; lia|done].
  - destruct (Z.eqb_spec cw 0) as [->|]; [by exists []|].
    destruct (escapes_all s Hs (length (s ++ [0])) [] [] cw) as (cps & Hg & E & Hw & Hl);
      [rewrite length_app; lia|constructor; simpl; auto; lia|simpl; lia|].
    change (encs []) with (@nil Z) in E. change (width []) with 0 in E. rewrite E.
    exists cps. split; [done|]. split; [apply Hfill; simpl in Hl; lia|done].
  - intros cps Hg Hp -> Hw. destruct (Z.eqb_spec cw 0) as [->|].
    { pose proof (width_bound cps). destruct cps; [done|simpl in *; lia]. }
    rewrite escape_loop_id; [|done|done|rewrite length_app; lia|lia|lia|lia].
    cbn [mbind option_bind app]. apply Hfill. lia.
Qed.

Lemma utf8_escape_correct_witness :
  cstring [1; 0xe1; 0x84; 65] ∧ ∃ cps, Forall good cps ∧
    utf8_escape_non_printable_full ([1; 0xe1; 0x84; 65] ++ [0]) 6 = Some (encs cps) ∧ width cps <= 6.
Proof.
  assert (cstring [1; 0xe1; 0x84; 65]) as H by (repeat constructor; lia).
  split; [exact H|].
  exact (proj1 (proj2 (utf8_escape_correct _ 6 H ltac:(simpl; lia) ltac:(lia)))).
Defined.
