(* ===== verification/Utf16Props.v ===== *)
(** * systemd: properties of the UTF-16 conversions

    Conversion of [Utf8] to UTF-16 and back is the identity on valid strings;
    on any input both conversions stay inside their buffers. *)

From Stdlib Require Import String.
From S2P Require Import Prelude Hexdecoct HexdecoctProps Utf8 Utf8Props.

#[local] Open Scope Z_scope.
#[local] Set Warnings "-clear-no-such-hyp".

(** ** Valid code points *)

Lemma land_surrogate u : 0 <= u < 2 ^ 32 → Z.land u 0xFFFFF800 = u - u mod 2048.
Proof.
  intros Hu. change 0xFFFFF800 with (wrapu 32 (- 2 ^ 11)).
  rewrite land_wrapu, land_neg_pow2 by lia. done.
Qed.

Lemma land_bom u : 0 <= u → Z.land u 0xFFFE = u mod 65536 - u mod 2.
Proof.
  intros Hu. change 0xFFFE with (Z.land 0xFFFF (wrapu 16 (- 2 ^ 1))).
  rewrite Z.land_assoc, (land_mod u 16) by done. change (2 ^ 16) with 65536.
  rewrite land_wrapu, land_neg_pow2 by (try lia; change (2 ^ 16) with 65536; zdiv).
  change (2 ^ 1) with 2. zdiv.
Qed.

(** The code points outside the surrogates and the 66 noncharacters. *)
Lemma unichar_is_valid_spec u : 0 <= u →
  unichar_is_valid u = true ↔
  u < 0x110000 ∧ ¬ 0xD800 <= u <= 0xDFFF ∧ ¬ 0xFDD0 <= u <= 0xFDEF ∧ u mod 65536 < 0xFFFE.
Proof.
  intros Hu. unfold unichar_is_valid. destruct (Z.leb_spec 0x110000 u).
  { split; [done|lia]. }
  rewrite land_surrogate, land_bom by lia.
  destruct (Z.eqb_spec (u - u mod 2048) 0xD800); [split; [done|zdiv]|].
  destruct (Z.leb_spec 0xFDD0 u), (Z.leb_spec u 0xFDEF); cbn [andb]; try (split; [done|lia]).
  all: destruct (Z.eqb_spec (u mod 65536 - u mod 2) 0xFFFE); split; try done; try zdiv.
Qed.

(** ** UTF-16 code units *)

Definition scalar (u : Z) : Prop := 0 <= u ∧ unichar_is_valid u = true.

Lemma scalar_range u : scalar u → 0 <= u < 0x110000 ∧ ¬ 0xD800 <= u <= 0xDFFF.
Proof. intros [H0 Hv]. apply unichar_is_valid_spec in Hv; [|done]. lia. Qed.

Lemma join_bytes w : 0 <= w → Z.lor (Z.shiftl (w / 256) 8) (w mod 256) = w.
Proof.
  intros Hw. rewrite Z.shiftl_mul_pow2 by lia.
  rewrite lor_add by (try lia; change (2 ^ 8) with 256; zdiv). change (2 ^ 8) with 256. zdiv.
Qed.

Lemma utf16_bmp fuel u rest : 0 <= u < 0x10000 → ¬ 0xD800 <= u <= 0xDFFF →
  utf16_to_utf8_loop (S fuel) (word_bytes [u] ++ rest) =
  (r ← utf16_to_utf8_loop fuel rest; Some (utf8_encode_unichar u ++ r)).
Proof.
  intros Hu Hs. unfold word_bytes. cbn [mbind list_bind app utf16_to_utf8_loop].
  rewrite join_bytes by lia. unfold utf16_is_surrogate.
  destruct (Z.leb_spec 0xd800 u), (Z.leb_spec u 0xdfff); try lia; done.
Qed.

Lemma utf16_pair fuel u rest : 0x10000 <= u < 0x110000 →
  utf16_to_utf8_loop (S fuel) (word_bytes (utf16_encode_unichar u) ++ rest) =
  (r ← utf16_to_utf8_loop fuel rest; Some (utf8_encode_unichar u ++ r)).
Proof.
  intros Hu. unfold utf16_encode_unichar.
  destruct (Z.leb_spec u 0xd7ff), (Z.leb_spec 0xe000 u), (Z.leb_spec u 0xffff); try lia.
  destruct (Z.leb_spec 0x10000 u), (Z.leb_spec u 0x10ffff); try lia. cbn [orb andb].
  rewrite Z.shiftr_div_pow2, (land_mod _ 10) by lia. change (2 ^ 10) with 1024.
  set (c := u - 0x10000) in *.
  assert (0 <= c / 1024 < 1024 ∧ 0 <= c mod 1024 < 1024) as [Hh Hl] by (subst c; zdiv).
  rewrite !wrapu_small by lia. unfold word_bytes. cbn [mbind list_bind app utf16_to_utf8_loop].
  rewrite !join_bytes by lia. unfold utf16_is_surrogate, utf16_is_trailing_surrogate.
  destruct (Z.leb_spec 0xd800 (c / 1024 + 0xd800)), (Z.leb_spec (c / 1024 + 0xd800) 0xdfff),
    (Z.leb_spec 0xdc00 (c / 1024 + 0xd800)), (Z.leb_spec 0xdc00 (c mod 1024 + 0xdc00)),
    (Z.leb_spec (c mod 1024 + 0xdc00) 0xdfff); try lia. cbn [andb negb].
  assert (utf16_surrogate_pair_to_unichar (c / 1024 + 0xd800) (c mod 1024 + 0xdc00) = u) as ->.
  { unfold utf16_surrogate_pair_to_unichar. rewrite Z.shiftl_mul_pow2 by lia.
    change (2 ^ 10) with 1024. rewrite (wrapu_small 32 (_ - 0xd800)), (wrapu_small 32 (_ - 0xdc00)) by lia.
    rewrite (wrapu_small 32 (_ * 1024)) by lia. rewrite wrapu_small by lia. subst c. zdiv. }
  done.
Qed.

(** A code point in UTF-16 is read back as its UTF-8 encoding. *)
Lemma utf16_unit fuel u rest : scalar u →
  utf16_to_utf8_loop (S fuel) (word_bytes (utf16_encode_unichar u) ++ rest) =
  (r ← utf16_to_utf8_loop fuel rest; Some (utf8_encode_unichar u ++ r)).
Proof.
  intros [Hu Hs]%scalar_range. destruct (decide (u < 0x10000)); [|apply utf16_pair; lia].
  rewrite <- utf16_bmp by lia. do 3 f_equal. unfold utf16_encode_unichar.
  destruct (Z.leb_spec u 0xd7ff), (Z.leb_spec 0xe000 u), (Z.leb_spec u 0xffff); try lia;
    cbn [orb andb]; by rewrite wrapu_small by lia.
Qed.

Lemma utf16_unit_length u : scalar u →
  (1 <= length (utf16_encode_unichar u) <= 2)%nat ∧
  Forall (λ w, 0 <= w < 2 ^ 16) (utf16_encode_unichar u).
Proof.
  intros [Hu Hs]%scalar_range. unfold utf16_encode_unichar.
  destruct (Z.leb_spec u 0xd7ff), (Z.leb_spec 0xe000 u), (Z.leb_spec u 0xffff),
    (Z.leb_spec 0x10000 u), (Z.leb_spec u 0x10ffff); try lia; cbn [orb andb length]; split; try lia;
    repeat constructor; apply wrapu_range; lia.
Qed.

(** ** Strings *)

Definition units (cps : list Z) : list Z := cps ≫= utf16_encode_unichar.

Lemma scalar_enc u : scalar u → ∃ c r, utf8_encode_unichar u = c :: r ∧
  utf8_encoded_expected_len c = Z.of_nat (length (utf8_encode_unichar u)) ∧
  (u < 128 → c = u ∧ r = []) ∧ (128 <= u → (1 <= length r)%nat).
Proof.
  intros Hu. pose proof (scalar_range u Hu) as [Hr _]. destruct (decide (u = 0)) as [->|].
  { by exists 0, []. }
  assert (good u) as Hg by (split; [lia|apply Hu]).
  destruct (enc_head u Hg) as (c & r & E & _ & El). exists c, r. rewrite E in *.
  split; [done|]. split; [done|]. rewrite encode_spec in E by lia. unfold enc_spec in E.
  split; intros Hlt; (destruct (Z.ltb_spec u 128); [|]); try lia.
  - by injection E as <- <-.
  - destruct (u <? 2048); [|destruct (u <? 65536)]; injection E as <- <-; simpl; lia.
Qed.

Lemma utf8_to_utf16_enc fuel u rest : scalar u →
  utf8_to_utf16_loop (S fuel) (utf8_encode_unichar u ++ rest) =
  (r ← utf8_to_utf16_loop fuel rest; Some (utf16_encode_unichar u ++ r)).
Proof.
  intros Hu. pose proof (scalar_range u Hu) as [Hr _].
  pose proof (to_unichar_enc u rest ltac:(lia)) as Hdec.
  pose proof (drop_enc u rest) as Hdrop.
  destruct (scalar_enc u Hu) as (c & r & E & El & Hlow & Hhigh). rewrite E in *. cbn [app] in *.
  cbn [utf8_to_utf16_loop]. rewrite El. cbn [length] in *.
  destruct (decide (u < 128)).
  - destruct Hlow as [-> ->]; [done|]. change (Z.of_nat (S (length (@nil Z))) <=? 1) with true.
    cbn [app]. unfold utf16_encode_unichar.
    destruct (Z.leb_spec u 0xd7ff); [|lia]. cbn [orb].
    rewrite (wraps_small 8) by (simpl; lia). done.
  - specialize (Hhigh ltac:(lia)). destruct (Z.leb_spec (Z.of_nat (S (length r))) 1); [lia|].
    rewrite length_app.
    destruct (Z.ltb_spec (Z.of_nat (S (length r + length rest))) (Z.of_nat (S (length r)))); [lia|].
    rewrite Hdec. cbn [mbind option_bind]. by rewrite Hdrop.
Qed.

Lemma utf8_to_utf16_encs cps : Forall scalar cps → ∀ fuel, (length (encs cps) <= fuel)%nat →
  utf8_to_utf16_loop fuel (encs cps) = Some (units cps).
Proof.
  induction 1 as [|u cps Hu Hc IH]; intros fuel Hf; [by destruct fuel|].
  unfold encs, units in *. cbn [mbind list_bind] in *. rewrite length_app in Hf.
  destruct (scalar_enc u Hu) as (c & r & E & _). rewrite E in Hf. cbn [length] in Hf.
  destruct fuel as [|fuel]; [lia|]. rewrite utf8_to_utf16_enc, IH by (done || lia). done.
Qed.

Lemma utf16_to_utf8_units cps : Forall scalar cps → ∀ fuel, (length cps <= fuel)%nat →
  utf16_to_utf8_loop fuel (word_bytes (units cps)) = Some (encs cps).
Proof.
  induction 1 as [|u cps Hu Hc IH]; intros fuel Hf; [by destruct fuel|].
  unfold encs, units in *. cbn [mbind list_bind length] in *.
  destruct fuel as [|fuel]; [lia|]. unfold word_bytes in *. rewrite bind_app.
  pose proof (utf16_unit fuel u ((cps ≫= utf16_encode_unichar) ≫= λ w, [w mod 256; w / 256]) Hu) as E.
  unfold word_bytes in E. rewrite E, IH by lia. done.
Qed.

(** ** Any input *)

Lemma utf16_encode_length u : (length (utf16_encode_unichar u) <= 2)%nat.
Proof. unfold utf16_encode_unichar. repeat case_match; simpl; lia. Qed.

Lemma utf8_to_utf16_loop_total s : Forall is_byte s → ∀ fuel, (length s <= fuel)%nat →
  ∃ ws, utf8_to_utf16_loop fuel s = Some ws ∧ (length ws <= length s)%nat.
Proof.
  induction s as [s IH] using list_length_ind. intros Hb fuel Hf.
  destruct s as [|c s]; [exists []; by destruct fuel|].
  pose proof Hb as [Hc Hb']%Forall_cons. cbn [length] in Hf.
  destruct fuel as [|fuel]; [lia|]. cbn [utf8_to_utf16_loop].
  destruct (IH s ltac:(simpl; lia) Hb' fuel ltac:(lia)) as (ws & Ews & Hws).
  assert (∃ ws', (rest ← utf8_to_utf16_loop fuel s; Some (wrapu 16 (wraps 8 c) :: rest)) = Some ws' ∧
    (length ws' <= length (c :: s))%nat) as Hcopy.
  { rewrite Ews. eexists. split; [done|]. simpl. lia. }
  destruct (Z.leb_spec (utf8_encoded_expected_len c) 1); [exact Hcopy|].
  destruct (Z.ltb_spec (Z.of_nat (length (c :: s))) (utf8_encoded_expected_len c)); [exact Hcopy|].
  assert (192 <= c < 254) as Hlead.
  { unfold is_byte in Hc. rewrite expected_len_spec in * by done.
    repeat case_match; reflect_bools; lia. }
  rewrite expected_len_lead in * by done.
  destruct (to_unichar_total c s Hb Hlead) as ([e|u] & -> & _); [right; simpl in *; lia| |];
    cbn [mbind option_bind]; [exact Hcopy|].
  rewrite Nat2Z.id.
  destruct (IH (drop (S (lead c).1) (c :: s))) with (fuel := fuel) as (ws' & -> & Hl).
  - rewrite length_drop. simpl. lia.
  - by apply Forall_drop.
  - rewrite length_drop. simpl in *. lia.
  - cbn [mbind option_bind]. eexists. split; [done|]. rewrite length_app.
    pose proof (utf16_encode_length u). rewrite length_drop in Hl. simpl in *. lia.
Qed.

Lemma utf8_encode_length g : (length (utf8_encode_unichar g) <= 4)%nat ∧
  (g < 0x10000 → (length (utf8_encode_unichar g) <= 3)%nat).
Proof.
  unfold utf8_encode_unichar. change (Z.shiftl 1 16) with 0x10000.
  split; repeat case_match; reflect_bools; simpl; lia.
Qed.

Lemma word_range b0 b1 : is_byte b0 → is_byte b1 → 0 <= Z.lor (Z.shiftl b1 8) b0 < 0x10000.
Proof.
  unfold is_byte. intros H0 H1. rewrite Z.shiftl_mul_pow2, lor_add by (simpl; lia).
  change (2 ^ 8) with 256. lia.
Qed.

Lemma utf16_to_utf8_loop_total f : Forall is_byte f → ∀ fuel, (length f <= fuel)%nat →
  ∃ out, utf16_to_utf8_loop fuel f = Some out ∧ (length out <= 2 * length f)%nat.
Proof.
  induction f as [f IH] using list_length_ind. intros Hb fuel Hf.
  destruct f as [|b0 [|b1 f]]; [exists []; destruct fuel; simpl; split; (done || lia)..|].
  apply Forall_cons in Hb as [H0 [H1 Hb]%Forall_cons]. cbn [length] in Hf.
  destruct fuel as [|fuel]; [lia|]. cbn [utf16_to_utf8_loop].
  pose proof (word_range b0 b1 H0 H1) as Hw. set (w1 := Z.lor (Z.shiftl b1 8) b0) in *.
  destruct (IH f ltac:(simpl; lia) Hb fuel ltac:(lia)) as (out & Eo & Ho).
  destruct (negb (utf16_is_surrogate w1)).
  { rewrite Eo. cbn [mbind option_bind]. eexists. split; [done|]. rewrite length_app.
    destruct (utf8_encode_length w1) as [_ H3]. specialize (H3 ltac:(lia)). simpl. lia. }
  destruct (utf16_is_trailing_surrogate w1).
  { exists out. split; [done|]. simpl. lia. }
  destruct f as [|c0 [|c1 f]]; [exists []; simpl; split; (done || lia)..|].
  destruct (negb (utf16_is_trailing_surrogate (Z.lor (Z.shiftl c1 8) c0))).
  { exists out. split; [done|]. simpl in *. lia. }
  apply Forall_cons in Hb as [_ [_ Hb]%Forall_cons].
  destruct (IH f ltac:(simpl; lia) Hb fuel ltac:(simpl in *; lia)) as (out' & -> & Ho').
  cbn [mbind option_bind]. eexists. split; [done|]. rewrite length_app.
  match goal with |- context [utf8_encode_unichar ?g] => destruct (utf8_encode_length g) as [H4 _] end.
  simpl in *. lia.
Qed.

Lemma word_bytes_length ws : length (word_bytes ws) = (2 * length ws)%nat.
Proof. unfold word_bytes. induction ws as [|w ws IH]; [done|]. cbn [mbind list_bind length app]. lia. Qed.

Lemma units_length cps : Forall scalar cps →
  (length cps <= length (units cps))%nat ∧ Forall (λ w, 0 <= w < 2 ^ 16) (units cps).
Proof.
  induction 1 as [|u cps Hu _ [IH1 IH2]]; [by split|]. unfold units in *. cbn [mbind list_bind length].
  destruct (utf16_unit_length u Hu) as [H1 H2]. rewrite length_app. split; [lia|].
  by apply Forall_app.
Qed.

Lemma encs_bytes cps : Forall scalar cps → Forall is_byte (encs cps).
Proof.
  intros Hc. apply Forall_bind. eapply Forall_impl; [exact Hc|]. intros u [Hr _]%scalar_range.
  destruct (decide (u = 0)) as [->|].
  { by apply Forall_singleton. }
  eapply Forall_impl; [apply enc_cstring; lia|]. unfold is_byte. intros b Hb. simpl in Hb. lia.
Qed.

Lemma word_bytes_bytes ws : Forall (λ w, 0 <= w < 2 ^ 16) ws → Forall is_byte (word_bytes ws).
Proof.
  intros Hw. apply Forall_bind. eapply Forall_impl; [exact Hw|]. intros w Hr.
  simpl in Hr. change (2 ^ 16) with 65536 in Hr.
  apply Forall_cons. split; [|apply Forall_singleton]; unfold is_byte; zdiv.
Qed.

Lemma utf16_to_utf8_total b : Forall is_byte b → Z.of_nat (length b) < 2 ^ 62 →
  ∃ out, utf16_to_utf8_loop (length b) b = Some out ∧ utf16_to_utf8 b = Some (inr out).
Proof.
  intros Hb Hl. destruct (utf16_to_utf8_loop_total b Hb (length b)) as (out & E & Ho); [lia|].
  exists out. split; [done|]. unfold utf16_to_utf8. rewrite !wrapu_small by lia.
  destruct (Z.ltb_spec (Z.of_nat (length b) * 2) (Z.of_nat (length b))); [lia|].
  rewrite E. cbn [mbind option_bind]. by rewrite filled_fits by lia.
Qed.

Lemma utf8_to_utf16_total s : Forall is_byte s →
  ∃ ws, utf8_to_utf16_loop (length s) s = Some ws ∧ utf8_to_utf16 s = Some ws ∧
    (length ws <= length s)%nat.
Proof.
  intros Hs. destruct (utf8_to_utf16_loop_total s Hs (length s)) as (ws & E & Hl); [lia|].
  exists ws. split; [done|]. split; [|done].
  unfold utf8_to_utf16. rewrite E. cbn [mbind option_bind]. apply filled_fits. lia.
Qed.

Lemma utf8_to_utf16_stray c : 128 <= c < 192 → utf8_to_utf16 [c] = Some [0xFF00 + c].
Proof.
  intros Hc. unfold utf8_to_utf16. cbn [length utf8_to_utf16_loop].
  rewrite expected_len_spec by (unfold is_byte; lia).
  destruct (Z.ltb_spec c 128); [lia|]. destruct (Z.ltb_spec c 192); [|lia].
  change (0 <=? 1) with true. cbn [mbind option_bind]. unfold filled.
  assert (wrapu 16 (wraps 8 c) = 0xFF00 + c) as ->; [|done].
  unfold wrapu, wraps. change (2 ^ (8 - 1)) with 128. change (2 ^ 8) with 256.
  change (2 ^ 16) with 65536. zdiv.
Qed.

(** C29. Valid UTF-8 survives the way through UTF-16: for a sequence of valid
    code points [utf8_to_utf16] gives 16-bit words whose bytes [utf16_to_utf8]
    turns back into the same UTF-8. On every input both conversions end and
    stay inside the buffers they allocate. A byte from 128 on that starts no
    character is not copied as it is, as the comment in [utf8_to_utf16] says,
    but with its sign extended to 16 bits. *)
Theorem utf16_roundtrip :
  (∀ cps, Forall scalar cps → Z.of_nat (length (encs cps)) < 2 ^ 60 →
     ∃ ws, utf8_to_utf16 (encs cps) = Some ws ∧ Forall (λ w, 0 <= w < 2 ^ 16) ws ∧
       utf16_to_utf8 (word_bytes ws) = Some (inr (encs cps))) ∧
  (∀ s, Forall is_byte s → ∃ ws, utf8_to_utf16 s = Some ws) ∧
  (∀ b, Forall is_byte b → Z.of_nat (length b) < 2 ^ 62 → ∃ out, utf16_to_utf8 b = Some (inr out)) ∧
  (∀ c, 128 <= c < 192 → utf8_to_utf16 [c] = Some [0xFF00 + c]).
Proof.
  split; [|split; [|split]].
  - intros cps Hc Hb. exists (units cps). destruct (units_length cps Hc) as [Hl Hw].
    destruct (utf8_to_utf16_total (encs cps) (encs_bytes cps Hc)) as (ws & E & -> & Hlw).
    rewrite utf8_to_utf16_encs in E by (done || lia). injection E as <-.
    split; [done|]. split; [done|].
    destruct (utf16_to_utf8_total (word_bytes (units cps))) as (out & E1 & ->);
      [by apply word_bytes_bytes|rewrite word_bytes_length; lia|].
    rewrite utf16_to_utf8_units in E1; [by injection E1 as <-|done|].
    rewrite word_bytes_length. lia.
  - intros s Hs. destruct (utf8_to_utf16_total s Hs) as (ws & _ & E & _). by exists ws.
  - intros b Hb Hl. destruct (utf16_to_utf8_total b Hb Hl) as (out & _ & E). by exists out.
  - apply utf8_to_utf16_stray.
Qed.

Lemma utf16_roundtrip_witness :
  Forall scalar [65; 0x20AC; 0x1F427] ∧ ∃ ws, utf8_to_utf16 (encs [65; 0x20AC; 0x1F427]) = Some ws ∧
    Forall (λ w, 0 <= w < 2 ^ 16) ws ∧
    utf16_to_utf8 (word_bytes ws) = Some (inr (encs [65; 0x20AC; 0x1F427])).
Proof.
  assert (Forall scalar [65; 0x20AC; 0x1F427]) as H.
  { repeat (apply Forall_cons_2; [split; [lia|reflexivity]|]). constructor. }
  split; [exact H|]. exact (proj1 utf16_roundtrip _ H ltac:(vm_compute; reflexivity)).
Defined.
