(* ===== verification/Escape.v ===== *)
(** * systemd: escaping of strings

    Models [src/app/multi_process/day1/systemd/src/basic/escape.c]. A C string
    is the list of its characters, and a read at its end gives the NUL; a
    counted buffer is its bytes. A character is its byte ([char] is signed,
    which matters in [octescape] alone). The outer [None] is a read or write
    outside a buffer or a failed assertion; a NULL result is an inner [None];
    [oom] says that the allocation fails. *)

From Stdlib Require Import String.
From S2P Require Import Prelude Hexdecoct Utf8.

#[local] Open Scope Z_scope.

(** [strchr(set, c)] is not NULL; the NUL that ends the set is found too. *)
Definition strchr (set : list Z) (c : Z) : bool := bool_decide (c ∈ set) || (c =? 0).

(** A fresh buffer of [size] bytes, filled with [out] and a NUL. *)
Definition new_string (oom : bool) (size : Z) (out : list Z) : option (option (list Z)) :=
  if oom then Some None else Some <$> filled size out.

(** ** C-style escaping *)

Definition cescape_char (c : Z) : list Z :=
  if c =? 7 then [92; 97]
  else if c =? 8 then [92; 98]
  else if c =? 12 then [92; 102]
  else if c =? 10 then [92; 110]
  else if c =? 13 then [92; 114]
  else if c =? 9 then [92; 116]
  else if c =? 11 then [92; 118]
  else if c =? 92 then [92; 92]
  else if c =? 34 then [92; 34]
  else if c =? 39 then [92; 39]
  else
    let sc := wraps 8 c in
    if (sc <? 32) || (127 <=? sc) then
      [92; octchar (Z.shiftr c 6); octchar (Z.shiftr c 3); octchar c]
    else [c].

Definition cescape_length (oom : bool) (s : list Z) : option (option (list Z)) :=
  new_string oom (Z.of_nat (length s) * 4 + 1) (s ≫= cescape_char).

Definition cescape : bool → list Z → option (option (list Z)) := cescape_length.

(** ** C-style unescaping *)

(** [length != (size_t) -1 && length < n] *)
Definition too_short (length n : Z) : bool := negb (length =? SIZE_MAX) && (length <? n).

(** The digits [p[0] .. p[n - 1]] of a loop that stops at the first error. *)
Fixpoint unhex_digits (n : nat) (p : list Z) : option (Z + list Z) :=
  match n with
  | O => Some (inr [])
  | S n =>
      c ← p !! 0%nat;
      let a := unhexchar c in
      if a <? 0 then Some (inl a)
      else r ← unhex_digits n (drop 1 p); Some (match r with inl e => inl e | inr l => inr (a :: l) end)
  end.

(** The digits put together, most significant first:
    [(a[0] << 4 * (n - 1)) | ... | a[n - 1]] on 32 bits. *)
Fixpoint or_digits (a : list Z) : Z :=
  match a with
  | [] => 0
  | x :: a => Z.lor (wrapu 32 (Z.shiftl x (4 * Z.of_nat (length a)))) (or_digits a)
  end.

(** [p] is the memory from the character after the backslash on. The result is
    an error, or the number of characters taken, the value of [*ret] and that
    of [*eight_bit], false when it is left alone. *)
Definition cunescape_one (p : list Z) (length : Z) : option (Z + (Z * Z * bool)) :=
  if too_short length 1 then Some (inl (- EINVAL))
  else
    p0 ← p !! 0%nat;
    let plain ret := Some (inr (1, ret, false)) in
    if p0 =? 97 then plain 7
    else if p0 =? 98 then plain 8
    else if p0 =? 102 then plain 12
    else if p0 =? 110 then plain 10
    else if p0 =? 114 then plain 13
    else if p0 =? 116 then plain 9
    else if p0 =? 118 then plain 11
    else if p0 =? 92 then plain 92
    else if p0 =? 34 then plain 34
    else if p0 =? 39 then plain 39
    else if p0 =? 115 then plain 32
    else if p0 =? 120 then
      if too_short length 3 then Some (inl (- EINVAL))
      else
        p1 ← p !! 1%nat;
        let a := unhexchar p1 in
        if a <? 0 then Some (inl (- EINVAL))
        else
          p2 ← p !! 2%nat;
          let b := unhexchar p2 in
          if b <? 0 then Some (inl (- EINVAL))
          else if (a =? 0) && (b =? 0) then Some (inl (- EINVAL))
          else Some (inr (3, Z.lor (Z.shiftl a 4) b, true))
    else if p0 =? 117 then
      if too_short length 5 then Some (inl (- EINVAL))
      else
        r ← unhex_digits 4 (drop 1 p);
        match r with
        | inl e => Some (inl e)
        | inr a =>
            let c := or_digits a in
            if c =? 0 then Some (inl (- EINVAL)) else Some (inr (5, c, false))
        end
    else if p0 =? 85 then
      if too_short length 9 then Some (inl (- EINVAL))
      else
        r ← unhex_digits 8 (drop 1 p);
        match r with
        | inl e => Some (inl e)
        | inr a =>
            let c := or_digits a in
            if c =? 0 then Some (inl (- EINVAL))
            else if negb (unichar_is_valid c) then Some (inl (- EINVAL))
            else Some (inr (9, c, false))
        end
    else if (48 <=? p0) && (p0 <=? 55) then
      if too_short length 3 then Some (inl (- EINVAL))
      else
        let a := unoctchar p0 in
        if a <? 0 then Some (inl (- EINVAL))
        else
          p1 ← p !! 1%nat;
          let b := unoctchar p1 in
          if b <? 0 then Some (inl (- EINVAL))
          else
            p2 ← p !! 2%nat;
            let c := unoctchar p2 in
            if c <? 0 then Some (inl (- EINVAL))
            else if (a =? 0) && (b =? 0) && (c =? 0) then Some (inl (- EINVAL))
            else
              let m := Z.lor (Z.lor (Z.shiftl a 6) (Z.shiftl b 3)) c in
              if 255 <? m then Some (inl (- EINVAL)) else Some (inr (3, m, true))
    else Some (inl (- EINVAL)).

(** What is put before the rest of the output. *)
Definition emit (bs : list Z) (r : option (Z + list Z)) : option (Z + list Z) :=
  r ← r; Some (match r with inl e => inl e | inr out => inr (bs ++ out) end).

(** The loop over the bytes from [f] on; every round takes one at least, so
    their number is enough [fuel]. [relax] is [flags & UNESCAPE_RELAX]. *)
Fixpoint cunescape_loop (fuel : nat) (f : list Z) (relax : bool) : option (Z + list Z) :=
  match f with
  | [] => Some (inr [])
  | c :: f' =>
      match fuel with
      | O => None
      | S fuel =>
          let remaining := Z.of_nat (length f) in
          if negb (c =? 92) then emit [c] (cunescape_loop fuel f' relax)
          else if remaining =? 1 then
            if relax then emit [c] (cunescape_loop fuel f' relax) else Some (inl (- EINVAL))
          else
            r ← cunescape_one f' (remaining - 1);
            match r with
            | inl k => if relax then emit [92] (cunescape_loop fuel f' relax) else Some (inl k)
            | inr (k, u, eight_bit) =>
                emit (if eight_bit : bool then [u8 u] else utf8_encode_unichar u)
                  (cunescape_loop fuel (drop (Z.to_nat k) f') relax)
            end
      end
  end.

(** The returned value is the length of the string, as an [int]. *)
Definition cunescape_length_with_prefix (oom : bool) (s : list Z) (prefix : option (list Z))
    (relax : bool) : option (Z + (Z * list Z)) :=
  let prefix := default [] prefix in
  if oom then Some (inl (- ENOMEM))
  else
    r ← cunescape_loop (length s) s relax;
    match r with
    | inl k => Some (inl k)
    | inr out =>
        r ← filled (Z.of_nat (length prefix) + Z.of_nat (length s) + 1) (prefix ++ out);
        Some (inr (wraps 32 (Z.of_nat (length r)), r))
    end.

Definition cunescape_length (oom : bool) (s : list Z) (relax : bool) : option (Z + (Z * list Z)) :=
  cunescape_length_with_prefix oom s None relax.
Definition cunescape (oom : bool) (s : list Z) (relax : bool) : option (Z + (Z * list Z)) :=
  cunescape_length oom s relax.

(** ** Hexadecimal escaping for a console *)

(** [out] is what has been written below [t]; [prev] and [prev2] are offsets.
    [inl] is the string that is complete, [inr] what there is when the width is
    reached. *)
Fixpoint xescape_loop (f bad : list Z) (console_width : Z) (eight_bits : bool)
    (out : list Z) (prev prev2 : Z) : list Z + (list Z * Z * Z) :=
  match f with
  | [] => inl out
  | c :: f =>
      let tmp_t := Z.of_nat (length out) in
      if (c <? 32) || negb eight_bits && (127 <=? c) || (c =? 92) || strchr bad c then
        if console_width <? wrapu 64 (tmp_t + 4) then inr (out, prev, prev2)
        else
          let sc := wraps 8 c in
          xescape_loop f bad console_width eight_bits
            (out ++ [92; 120; hexchar (Z.shiftr sc 4); hexchar sc]) tmp_t prev
      else if console_width <? wrapu 64 (tmp_t + 1) then inr (out, prev, prev2)
      else xescape_loop f bad console_width eight_bits (out ++ [c]) tmp_t prev
  end.

(** The offset of the dots. *)
Definition xescape_off (console_width c t prev prev2 : Z) : Z :=
  if t <=? console_width - c then t
  else if prev <=? console_width - c then prev
  else if prev2 <=? console_width - c then prev2
  else console_width - c.

Definition xescape_full (oom : bool) (s bad : list Z) (console_width : Z) (eight_bits : bool) :
    option (option (list Z)) :=
  if oom then Some None
  else if console_width =? 0 then Some (Some [])
  else
    let size := wrapu 64 (Z.min (Z.of_nat (length s)) console_width * 4 + 1) in
    match xescape_loop s bad console_width eight_bits [] 0 0 with
    | inl out => Some <$> filled size out
    | inr (out, prev, prev2) =>
        let t := Z.of_nat (length out) in
        if size <? t then None
        else
          let c := Z.min console_width 3 in
          let off := xescape_off console_width c t prev prev2 in
          if t <? off then None
          else Some <$> filled size (take (Z.to_nat off) out ++ replicate (Z.to_nat c) 46)
    end.

Definition xescape (oom : bool) (s bad : list Z) : option (option (list Z)) :=
  xescape_full oom s bad SIZE_MAX false.

Definition escape_non_printable_full (oom : bool) (str : list Z) (console_width : Z)
    (eight_bit : bool) : option (option (list Z)) :=
  if eight_bit then xescape_full oom str [] console_width true
  else if oom then Some None
  else Some <$> utf8_escape_non_printable_full (str ++ [0]) console_width.

(** ** Octal escaping *)

Definition octescape_char (c : Z) : list Z :=
  let f := wraps 8 c in
  if (f <? 32) || (127 <=? f) || (f =? 92) || (f =? 34) then
    [92; u8 (48 + Z.shiftr f 6); u8 (48 + Z.land (Z.shiftr f 3) 8); u8 (48 + Z.land f 8)]
  else [c].

Definition octescape (oom : bool) (s : list Z) : option (option (list Z)) :=
  new_string oom (Z.of_nat (length s) * 4 + 1) (s ≫= octescape_char).

(** ** Quoting for a shell *)

Fixpoint strcpy_backslash_escaped (s bad : list Z) (escape_tab_nl : bool) : list Z :=
  match s with
  | [] => []
  | c :: s =>
      (if escape_tab_nl && ((c =? 10) || (c =? 9)) then [92; if c =? 10 then 110 else 116]
       else if (c =? 92) || strchr bad c then [92; c] else [c])
      ++ strcpy_backslash_escaped s bad escape_tab_nl
  end.

Definition shell_escape (oom : bool) (s bad : list Z) : option (option (list Z)) :=
  new_string oom (Z.of_nat (length s) * 2 + 1) (strcpy_backslash_escaped s bad false).

Definition SHELL_NEED_ESCAPE : list Z := [34; 92; 96; 36].
Definition GLOB_CHARS : list Z := bytes_of "*?[".
Definition SHELL_NEED_QUOTES : list Z := SHELL_NEED_ESCAPE ++ GLOB_CHARS ++ bytes_of "'()<>|&;!".
Definition SHELL_NEED_ESCAPE_POSIX : list Z := [92; 39].

Inductive EscapeStyle := ESCAPE_BACKSLASH | ESCAPE_POSIX.

Definition needs_quotes (c : Z) : bool :=
  let p := wraps 8 c in (p <=? 32) || (127 <=? p) || strchr SHELL_NEED_QUOTES c.

(** The characters before [p], and those from [p] on. *)
Fixpoint quote_split (s : list Z) : list Z * list Z :=
  match s with
  | [] => ([], [])
  | c :: s' => if needs_quotes c then ([], s) else let '(a, p) := quote_split s' in (c :: a, p)
  end.

Definition shell_maybe_quote (oom : bool) (s : list Z) (style : EscapeStyle) :
    option (option (list Z)) :=
  let '(before, p) := quote_split s in
  match p with
  | [] => if oom then Some None else Some (Some s)
  | _ =>
      let posix := match style with ESCAPE_POSIX => true | ESCAPE_BACKSLASH => false end in
      new_string oom ((if posix then 1 else 0) + 1 + Z.of_nat (length s) * 2 + 1 + 1)
        ((if posix then [36; 39] else [34]) ++ before ++
         (if posix then strcpy_backslash_escaped p SHELL_NEED_ESCAPE_POSIX true
          else strcpy_backslash_escaped p SHELL_NEED_ESCAPE false) ++
         (if posix then [39] else [34]))
  end.
