(* ===== verification/EscapeProps.v ===== *)
(** * systemd: properties of the escaping functions

    C-style escaping is undone by unescaping; unescaping stays within its
    buffers, terminates and never makes a NUL; hexadecimal escaping fits the
    console and is undone by unescaping unless it is cut; what is quoted for a
    shell reads back as one word. *)

From Stdlib Require Import String.
From S2P Require Import Prelude Hexdecoct HexdecoctProps Utf8 Utf8Props Escape.

#[local] Open Scope Z_scope.
#[local] Set Warnings "-clear-no-such-hyp".

(** The results the project's own tests expect. *)
Example escape_tests :
  cescape false (bytes_of "abc\" ++ [34; 8; 12; 10; 13; 9; 11; 7; 3; 127; 156; 203]) =
    Some (Some (bytes_of "abc\\\" ++ [34] ++ bytes_of "\b\f\n\r\t\v\a\003\177\234\313")) ∧
  xescape false (bytes_of "abc\" ++ [34; 8; 12; 10; 13; 9; 11; 7; 3; 127; 156; 203]) [] =
    Some (Some (bytes_of "abc\x5c" ++ [34] ++ bytes_of "\x08\x0c\x0a\x0d\x09\x0b\x07\x03\x7f\x9c\xcb")) ∧
  cunescape false (bytes_of "\x0") true = Some (inr (3, bytes_of "\x0")) ∧
  cunescape false (bytes_of "\11") false = Some (inl (- EINVAL)) ∧
  cunescape false (bytes_of "\u00DF\U000000df\u03a0\U00000041") true =
    Some (inr (7, [0xc3; 0x9f; 0xc3; 0x9f; 0xce; 0xa0; 65])) ∧
  shell_escape false (bytes_of "foo:bar,baz") (bytes_of ",:") = Some (Some (bytes_of "foo\:bar\,baz")) ∧
  shell_maybe_quote false (bytes_of "foo bar") ESCAPE_POSIX = Some (Some (bytes_of "$'foo bar'")) ∧
  shell_maybe_quote false (bytes_of "foobar") ESCAPE_BACKSLASH = Some (Some (bytes_of "foobar")).
Proof. by vm_compute. Qed.

(** ** Unescaping one sequence *)

Lemma too_short_mono l l' n :
  n ≤ 9 → l ≤ l' → too_short l n = false → too_short l' n = false.
Proof.
  unfold too_short, SIZE_MAX, UINT64_MAX. intros Hn Hl H.
  destruct (Z.eqb_spec l' (2 ^ 64 - 1)); [done|]. cbn [negb andb].
  destruct (Z.eqb_spec l (2 ^ 64 - 1)); cbn [negb andb] in H; [|apply Z.ltb_ge in H]; apply Z.ltb_ge; lia.
Qed.

Lemma unhex_digits_app n : ∀ p q r, unhex_digits n p = Some r → unhex_digits n (p ++ q) = Some r.
Proof.
  induction n as [|n IH]; intros [|c p] q r; cbn [unhex_digits app mbind option_bind lookup list_lookup];
    [done|done|done|].
  change (drop 1 (c :: p)) with p. change (drop 1 (c :: p ++ q)) with (p ++ q).
  destruct (_ <? 0); [done|]. destruct (unhex_digits n p) eqn:E; cbn [mbind option_bind]; [|done].
  by rewrite (IH p q _ E).
Qed.

(** What follows a sequence does not matter. *)
Lemma cunescape_one_app p q l k :
  cunescape_one p l = Some (inr k) → ∀ l', l ≤ l' → cunescape_one (p ++ q) l' = Some (inr k).
Proof.
  intros H l' Hl. destruct p as [|p0 p].
  { unfold cunescape_one in H. by destruct (too_short l 1). }
  unfold cunescape_one in *. cbn [app mbind option_bind lookup list_lookup drop] in *.
  destruct (too_short l 1) eqn:E1; [done|]. rewrite (too_short_mono l l' 1 ltac:(lia) Hl E1).
  repeat (match goal with |- context [if p0 =? ?n then _ else _] => destruct (p0 =? n) end; [done||idtac|]).
  - destruct (too_short l 3) eqn:E3; [done|]. rewrite (too_short_mono l l' 3 ltac:(lia) Hl E3).
    destruct p as [|p1 [|p2 p]]; cbn in *; revert H; repeat case_match; congruence.
  - rewrite drop_0 in *. destruct (too_short l 5) eqn:E5; [done|]. rewrite (too_short_mono l l' 5 ltac:(lia) Hl E5).
    destruct (unhex_digits 4 p) eqn:E; [|done]. by rewrite (unhex_digits_app _ _ q _ E).
  - rewrite drop_0 in *. destruct (too_short l 9) eqn:E9; [done|]. rewrite (too_short_mono l l' 9 ltac:(lia) Hl E9).
    destruct (unhex_digits 8 p) eqn:E; [|done]. by rewrite (unhex_digits_app _ _ q _ E).
  - destruct (_ && _); [|done].
    destruct (too_short l 3) eqn:E3; [done|]. rewrite (too_short_mono l l' 3 ltac:(lia) Hl E3).
    destruct p as [|p1 [|p2 p]]; cbn in *; revert H; repeat case_match; congruence.
Qed.

(** The bytes written for a sequence. *)
Definition sequence_bytes (u : Z) (eight_bit : bool) : list Z :=
  if eight_bit then [u8 u] else utf8_encode_unichar u.

(** [e] is a character, or a complete sequence, that stands for [c]. *)
Definition unescapes_to (e : list Z) (c : Z) : bool :=
  match e with
  | [] => false
  | [x] => (x =? c) && negb (x =? 92)
  | x :: p =>
      (x =? 92) &&
      match cunescape_one p (Z.of_nat (length p)) with
      | Some (inr (k, u, eight_bit)) =>
          (k =? Z.of_nat (length p)) && bool_decide (sequence_bytes u eight_bit = [c])
      | _ => false
      end
  end.

Lemma cunescape_step e c rest fuel relax : unescapes_to e c = true →
  cunescape_loop (S fuel) (e ++ rest) relax = emit [c] (cunescape_loop fuel rest relax).
Proof.
  unfold unescapes_to. intros H. destruct e as [|x [|y p]]; [done| |].
  { apply andb_true_iff in H as [->%Z.eqb_eq H]. cbn [app cunescape_loop]. by rewrite H. }
  apply andb_true_iff in H as [->%Z.eqb_eq H].
  destruct (cunescape_one _ _) as [[|[[k u] eb]]|] eqn:E; [done| |done].
  apply andb_true_iff in H as [->%Z.eqb_eq H%bool_decide_eq_true].
  apply (cunescape_one_app _ rest) with (l' := Z.of_nat (length ((92 :: y :: p) ++ rest)) - 1) in E.
  2: { rewrite length_app. cbn [length]. lia. }
  cbn [app] in *. cbn [cunescape_loop].
  destruct (Z.eqb_spec 92 92); [|done]. cbn [negb].
  destruct (Z.eqb_spec (Z.of_nat (length (92 :: y :: p ++ rest))) 1) as [Hl|_]; [cbn [length] in Hl; lia|].
  rewrite E. cbn [mbind option_bind]. unfold sequence_bytes in H. rewrite H, Nat2Z.id.
  change (y :: p ++ rest) with ((y :: p) ++ rest). by rewrite drop_app_length.
Qed.

(** A string escaped character by character unescapes to itself. *)
Lemma unescape_escaped (f : Z → list Z) s relax :
  Forall (λ c, unescapes_to (f c) c = true) s → ∀ fuel, (length s ≤ fuel)%nat →
  cunescape_loop fuel (s ≫= f) relax = Some (inr s).
Proof.
  induction 1 as [|c s Hc _ IH]; intros fuel Hf; [by destruct fuel|].
  destruct fuel as [|fuel]; [simpl in Hf; lia|]. rewrite bind_cons.
  rewrite cunescape_step with (c := c) by done.
  rewrite IH by (simpl in Hf; lia). done.
Qed.

Lemma escaped_length (f : Z → list Z) s : Forall (λ c, unescapes_to (f c) c = true) s →
  (length s ≤ length (s ≫= f))%nat.
Proof.
  induction 1 as [|c s Hc _ IH]; [done|]. rewrite bind_cons, length_app.
  destruct (f c); [done|]. cbn [length]. lia.
Qed.

Lemma cunescape_escaped (f : Z → list Z) s relax :
  Forall (λ c, unescapes_to (f c) c = true) s →
  cunescape false (s ≫= f) relax = Some (inr (wraps 32 (Z.of_nat (length s)), s)).
Proof.
  intros H. unfold cunescape, cunescape_length, cunescape_length_with_prefix.
  pose proof (escaped_length f s H) as Hl.
  rewrite unescape_escaped by done. cbn [mbind option_bind default app length].
  by rewrite filled_fits by lia.
Qed.

(** ** cescape *)

Definition printable (c : Z) : bool := (32 <=? c) && (c <? 127).

Lemma cescape_char_spec c : is_byte c →
  (length (cescape_char c) ≤ 4)%nat ∧ Forall (λ x, printable x = true) (cescape_char c) ∧
  (c ≠ 0 → unescapes_to (cescape_char c) c = true).
Proof.
  by_bytes (λ c, (length (cescape_char c) <=? 4)%nat && forallb printable (cescape_char c) &&
                 ((c =? 0) || unescapes_to (cescape_char c) c)).
  apply andb_true_iff in Hc as [[Hl%Nat.leb_le Hp]%andb_true_iff Hu].
  split; [done|]. split; [by apply List.Forall_forall, forallb_forall|].
  intros H0%Z.eqb_neq. by rewrite H0 in Hu.
Qed.

Lemma bind_length_le {A B} (f : A → list B) k l :
  Forall (λ x, (length (f x) ≤ k)%nat) l → (length (l ≫= f) ≤ k * length l)%nat.
Proof.
  induction 1 as [|x l Hx _ IH]; [simpl; lia|]. rewrite bind_cons, length_app. cbn [length]. lia.
Qed.

Lemma cescape_length_spec s : Forall is_byte s →
  cescape_length false s = Some (Some (s ≫= cescape_char)).
Proof.
  intros Hs. unfold cescape_length, new_string. rewrite filled_fits; [done|].
  assert (length (s ≫= cescape_char) ≤ 4 * length s)%nat; [|lia].
  apply bind_length_le. eapply Forall_impl; [exact Hs|]. intros c Hc. by apply cescape_char_spec.
Qed.

Lemma cstring_is_bytes s : cstring s → Forall is_byte s.
Proof. intros Hs. eapply Forall_impl; [exact Hs|]. unfold is_byte. simpl. lia. Qed.

(** The sequence for a NUL is refused. *)
Lemma cunescape_nul rest fuel :
  cunescape_loop (S fuel) (cescape_char 0 ++ rest) false = Some (inl (- EINVAL)).
Proof.
  change (cescape_char 0) with [92; 48; 48; 48]. cbn [app cunescape_loop].
  destruct (Z.eqb_spec (Z.of_nat (length (92 :: 48 :: 48 :: 48 :: rest))) 1) as [Hl|_];
    [cbn [length] in Hl; lia|].
  change (92 =? 92) with true. cbn [negb].
  assert (∀ n, n ≤ 3 → too_short (Z.of_nat (length (92 :: 48 :: 48 :: 48 :: rest)) - 1) n = false) as Ht.
  { intros n Hn. unfold too_short. apply andb_false_iff. right. apply Z.ltb_ge. cbn [length]. lia. }
  unfold cunescape_one. rewrite !Ht by lia. done.
Qed.

Lemma cunescape_nul_in s : 0 ∈ s → Forall is_byte s → ∀ fuel, (length s ≤ fuel)%nat →
  cunescape_loop fuel (s ≫= cescape_char) false = Some (inl (- EINVAL)).
Proof.
  induction s as [|c s IH]; intros H0 Hb fuel Hf; [by apply elem_of_nil in H0|].
  apply Forall_cons in Hb as [Hc Hb]. destruct fuel as [|fuel]; [simpl in Hf; lia|].
  rewrite bind_cons. destruct (decide (c = 0)) as [->|Hne]; [apply cunescape_nul|].
  apply elem_of_cons in H0 as [H0|H0]; [done|].
  rewrite cunescape_step with (c := c) by (by apply cescape_char_spec).
  rewrite IH by (done || simpl in Hf; lia). done.
Qed.

(** Escaping with [cescape_length] succeeds on every buffer of bytes within
    the memory it asks for, and gives printable ASCII; unescaping the result
    gives the buffer back, relaxed or not, as long as it holds no NUL, and is
    refused with -EINVAL when it does, since the sequence of a NUL is never
    accepted. *)
Theorem cescape_roundtrip s : Forall is_byte s → ∃ e,
  cescape_length false s = Some (Some e) ∧ Forall (λ x, printable x = true) e ∧
  (0 ∉ s → ∀ relax, cunescape false e relax = Some (inr (wraps 32 (Z.of_nat (length s)), s))) ∧
  (0 ∈ s → cunescape false e false = Some (inl (- EINVAL))).
Proof.
  intros Hs. exists (s ≫= cescape_char). split; [by apply cescape_length_spec|].
  split_and!.
  - apply Forall_bind. eapply Forall_impl; [exact Hs|]. intros c Hc. by apply cescape_char_spec.
  - intros H0 relax. apply cunescape_escaped. apply Forall_forall. intros c Hc.
    apply cescape_char_spec; [by eapply Forall_forall|]. by intros ->.
  - intros H0. unfold cunescape, cunescape_length, cunescape_length_with_prefix.
    rewrite cunescape_nul_in; [done..|].
    clear H0. induction Hs as [|c s Hc _ IH]; [done|]. rewrite bind_cons, length_app.
    assert (1 ≤ length (cescape_char c))%nat; [|simpl; lia].
    revert Hc. clear. by_bytes (λ c, (1 <=? length (cescape_char c))%nat). by apply Nat.leb_le.
Qed.

Lemma cescape_roundtrip_witness :
  cunescape false (bytes_of "a\n\303") true = Some (inr (3, [97; 10; 195])).
Proof.
  destruct (cescape_roundtrip [97; 10; 195]) as (e & He & _ & H & _).
  { repeat (apply Forall_cons_2; [unfold is_byte; lia|]). apply Forall_nil_2. }
  vm_compute in He. injection He as <-. apply (H ltac:(apply (bool_decide_unpack _); reflexivity) true).
Defined.

(** ** Memory safety of unescaping *)

Lemma unoctchar_range c : unoctchar c = - EINVAL ∨ 0 ≤ unoctchar c < 8.
Proof. unfold unoctchar. case_match; [|by left]. reflect_bools. right. lia. Qed.

(** What a sequence may be: all of it within the memory, no NUL, and no more
    bytes than characters. *)
Definition sequence_ok (p : list Z) (r : Z + (Z * Z * bool)) : Prop :=
  match r with
  | inl e => e = - EINVAL
  | inr (k, u, eight_bit) =>
      1 ≤ k ≤ Z.of_nat (length p) ∧ cstring (sequence_bytes u eight_bit) ∧
      Z.of_nat (length (sequence_bytes u eight_bit)) ≤ k
  end.

Lemma unhex_digits_total n : ∀ p, good_len (Z.of_nat n) p → ∃ r,
  unhex_digits n p = Some r ∧
  match r with
  | inl e => e = - EINVAL
  | inr a => length a = n ∧ (n ≤ length p)%nat ∧ Forall (λ x, 0 ≤ x < 16) a
  end.
Proof.
  induction n as [|n IH]; intros p Hp; cbn [unhex_digits].
  { eexists. split; [done|]. split_and!; [done|lia|constructor]. }
  destruct p as [|c p].
  { destruct Hp as [Hp|Hp]; [by apply elem_of_nil in Hp|simpl in Hp; lia]. }
  cbn [mbind option_bind lookup list_lookup]. change (drop 1 (c :: p)) with p.
  destruct (Z.ltb_spec (unhexchar c) 0).
  { eexists. split; [done|]. destruct (unhexchar_range c); [done|lia]. }
  destruct (IH p) as (r & -> & Hr).
  { destruct Hp as [[<-|Hp]%elem_of_cons|Hp]; [done|by left|right; simpl in Hp; lia]. }
  eexists. split; [done|]. destruct r as [e|a]; [done|]. cbn [length].
  destruct Hr as (? & ? & ?). split_and!; [lia..|]. apply Forall_cons_2; [|done].
  destruct (unhexchar_range c); unfold EINVAL in *; lia.
Qed.

(** The value of hexadecimal digits. *)
Lemma or_digits_bound a : Forall (λ x, 0 ≤ x < 16) a → (length a ≤ 8)%nat →
  0 ≤ or_digits a < 16 ^ Z.of_nat (length a).
Proof.
  induction 1 as [|x a Hx _ IH]; intros Hl; [simpl; lia|]. cbn [or_digits length] in *.
  specialize (IH ltac:(lia)). set (n := Z.of_nat (length a)) in *.
  assert (2 ^ (4 * n) = 16 ^ n) as E by (by rewrite Z.pow_mul_r by lia).
  assert (16 ^ n ≤ 16 ^ 7) by (apply Z.pow_le_mono_r; lia).
  rewrite Z.shiftl_mul_pow2 by lia. rewrite wrapu_small by (rewrite E; nia).
  rewrite lor_add by (rewrite ?E; lia). rewrite E.
  replace (Z.of_nat (S (length a))) with (Z.succ n) by lia. rewrite Z.pow_succ_r by lia. nia.
Qed.

Lemma good_len_short L n p : n ≤ 9 → good_len L p → too_short L n = false → good_len n p.
Proof.
  unfold too_short, SIZE_MAX, UINT64_MAX. intros Hn [Hp|Hp] Ht; [by left|right].
  apply andb_false_iff in Ht as [Ht%negb_false_iff%Z.eqb_eq|Ht%Z.ltb_ge]; lia.
Qed.

Lemma good_len_head n p : 1 ≤ n → good_len n p → ∃ c q, p = c :: q ∧ (c ≠ 0 → good_len (n - 1) q).
Proof.
  intros Hn Hp. destruct p as [|c q].
  { destruct Hp as [Hp|Hp]; [by apply elem_of_nil in Hp|simpl in Hp; lia]. }
  exists c, q. split; [done|]. intros Hc.
  destruct Hp as [[<-|Hp]%elem_of_cons|Hp]; [done|by left|right; cbn [length] in Hp; lia].
Qed.

Lemma hex_nonzero c : 0 ≤ unhexchar c → c ≠ 0.
Proof. intros H ->. by vm_compute in H. Qed.
Lemma oct_nonzero c : 0 ≤ unoctchar c → c ≠ 0.
Proof. intros H ->. by vm_compute in H. Qed.

(** [if (x < 0) return -EINVAL] *)
Ltac error_case x :=
  destruct (Z.ltb_spec x 0); [by eexists; split|].

Lemma sequence_ok_byte p k m : 1 ≤ k ≤ Z.of_nat (length p) → 0 < m < 256 →
  sequence_ok p (inr (k, m, true)).
Proof.
  intros Hk Hm. unfold sequence_ok, sequence_bytes. rewrite wrapu_small by lia.
  split; [done|]. split; [by apply Forall_singleton|]. simpl. lia.
Qed.

Lemma hex_sequence_total p L : good_len L (120 :: p) → ∃ r,
  cunescape_one (120 :: p) L = Some r ∧ sequence_ok (120 :: p) r.
Proof.
  intros Hg. unfold cunescape_one. destruct (too_short L 1) eqn:?; [by eexists|].
  cbn [mbind option_bind lookup list_lookup Z.eqb Pos.eqb].
  destruct (too_short L 3) eqn:E3; [by eexists|].
  apply (good_len_short _ 3) in Hg as (? & ? & [= <- <-] & Hg)%good_len_head; [|lia..|done].
  destruct (good_len_head 2 p) as (p1 & q & -> & Hg1); [lia|by apply Hg|]. cbn [mbind option_bind lookup list_lookup].
  error_case (unhexchar p1).
  destruct (good_len_head 1 q) as (p2 & q' & -> & _); [lia|by apply Hg1, hex_nonzero|].
  cbn [mbind option_bind lookup list_lookup]. error_case (unhexchar p2).
  destruct (_ && _) eqn:E0; [by eexists|]. eexists. split; [done|].
  destruct (unhexchar_range p1), (unhexchar_range p2); unfold EINVAL in *; try lia.
  rewrite Z.shiftl_mul_pow2, (lor_add _ _ 4) by lia.
  apply sequence_ok_byte; [cbn [length]; lia|].
  apply andb_false_iff in E0 as [?%Z.eqb_neq|?%Z.eqb_neq]; lia.
Qed.

Lemma oct_sequence_total p0 p L : 48 ≤ p0 ≤ 55 → good_len L (p0 :: p) → ∃ r,
  cunescape_one (p0 :: p) L = Some r ∧ sequence_ok (p0 :: p) r.
Proof.
  intros Hp0 Hg. unfold cunescape_one. destruct (too_short L 1) eqn:?; [by eexists|].
  cbn [mbind option_bind lookup list_lookup].
  repeat (match goal with |- context [if p0 =? ?n then _ else _] => destruct (Z.eqb_spec p0 n) end; [lia|]).
  destruct (Z.leb_spec 48 p0), (Z.leb_spec p0 55); [|lia..]. cbn [andb].
  destruct (too_short L 3) eqn:E3; [by eexists|].
  apply (good_len_short _ 3) in Hg as (? & ? & [= <- <-] & Hg)%good_len_head; [|lia..|done].
  error_case (unoctchar p0).
  destruct (good_len_head 2 p) as (p1 & q & -> & Hg1); [lia|apply Hg; lia|]. cbn [mbind option_bind lookup list_lookup].
  error_case (unoctchar p1).
  destruct (good_len_head 1 q) as (p2 & q' & -> & _); [lia|by apply Hg1, oct_nonzero|].
  cbn [mbind option_bind lookup list_lookup]. error_case (unoctchar p2).
  destruct (_ && _) eqn:E0; [by eexists|].
  destruct (unoctchar_range p0), (unoctchar_range p1), (unoctchar_range p2);
    unfold EINVAL in *; try lia.
  rewrite !Z.shiftl_mul_pow2 by lia.
  rewrite (lor_base _ (unoctchar p0 * 8 + unoctchar p1) 3), (lor_base _ (unoctchar p0) 6) by
    (try rewrite (lor_base _ (unoctchar p0) 6) by lia; lia).
  destruct (Z.ltb_spec 255 (unoctchar p0 * 2 ^ 6 + unoctchar p1 * 2 ^ 3 + unoctchar p2)); [by eexists|].
  eexists. split; [done|]. apply sequence_ok_byte; [cbn [length]; lia|].
  apply andb_false_iff in E0 as [[?%Z.eqb_neq|?%Z.eqb_neq]%andb_false_iff|?%Z.eqb_neq]; lia.
Qed.

Lemma sequence_ok_unichar p k u : 0 < u < 2 ^ 21 → (u < 2 ^ 16 ∧ k = 5 ∨ k = 9) →
  k ≤ Z.of_nat (length p) → sequence_ok p (inr (k, u, false)).
Proof.
  intros Hu Hk Hl. split_and!; [lia|lia|by apply enc_cstring|]. unfold sequence_bytes.
  destruct (enc_length u) as [-> ?]; lia.
Qed.

Lemma sequence_ok_plain p0 p u : 0 < u < 128 → sequence_ok (p0 :: p) (inr (1, u, false)).
Proof.
  intros Hu. split_and!; [cbn [length]; lia..|apply enc_cstring; lia|]. unfold sequence_bytes.
  rewrite encode_spec by lia. unfold enc_spec. by rewrite (proj2 (Z.ltb_lt u 128)) by lia.
Qed.

Lemma unicode_sequence_total p0 n p L : (p0 = 117 ∧ n = 4%nat ∨ p0 = 85 ∧ n = 8%nat) →
  good_len L (p0 :: p) → ∃ r,
  cunescape_one (p0 :: p) L = Some r ∧ sequence_ok (p0 :: p) r.
Proof.
  intros Hp0 Hg. unfold cunescape_one. destruct (too_short L 1) eqn:?; [by eexists|].
  cbn [mbind option_bind lookup list_lookup]. change (drop 1 (p0 :: p)) with p.
  destruct Hp0 as [[-> ->]|[-> ->]]; cbn [Z.eqb Pos.eqb].
  all: match goal with |- context [too_short ?l ?n] => destruct (too_short l n) eqn:E; [by eexists|];
    apply (good_len_short _ n) in Hg as (? & ? & [= <- <-] & Hg)%good_len_head; [|lia..|done] end.
  all: match goal with |- context [unhex_digits ?n ?p] =>
    destruct (unhex_digits_total n p) as ([e|a] & -> & Hr); [by apply Hg|by eexists|] end.
  all: destruct Hr as (Hla & Hl & Ha); pose proof (or_digits_bound a Ha) as Hb; rewrite Hla in Hb.
  all: cbn [mbind option_bind lookup list_lookup]; destruct (Z.eqb_spec (or_digits a) 0); [by eexists|].
  - eexists. split; [done|]. apply sequence_ok_unichar; cbn [length]; lia.
  - destruct (unichar_is_valid (or_digits a)) eqn:Hv; cbn [negb]; [|by eexists].
    eexists. split; [done|]. apply sequence_ok_unichar; cbn [length]; [|lia..].
    apply good_range. split; [lia|done].
Qed.

Lemma cunescape_one_total p L : good_len L p → ∃ r,
  cunescape_one p L = Some r ∧ sequence_ok p r.
Proof.
  intros Hg. destruct (too_short L 1) eqn:E1.
  { unfold cunescape_one. rewrite E1. by eexists. }
  destruct p as [|p0 p].
  { destruct (good_len_head 1 []) as (? & ? & [=] & _); [lia|by eapply good_len_short]. }
  destruct (decide (p0 = 120)) as [->|]; [by apply hex_sequence_total|].
  destruct (decide (p0 = 117)) as [->|]; [apply (unicode_sequence_total _ 4); auto|].
  destruct (decide (p0 = 85)) as [->|]; [apply (unicode_sequence_total _ 8); auto|].
  destruct (decide (48 ≤ p0 ≤ 55)); [by apply oct_sequence_total|].
  unfold cunescape_one. rewrite E1. cbn [mbind option_bind lookup list_lookup].
  repeat (match goal with |- context [if p0 =? ?n then _ else _] => destruct (Z.eqb_spec p0 n) end;
    [first [lia | eexists; split; [done|]; apply sequence_ok_plain; lia]|]).
  destruct (Z.leb_spec 48 p0), (Z.leb_spec p0 55); [lia|eexists; by split..].
Qed.

(** The loop ends, with the characters it could not read kept when it is
    relaxed, and writes no more than it reads. *)
Lemma cunescape_loop_total relax fuel : ∀ f, (length f ≤ fuel)%nat → ∃ r,
  cunescape_loop fuel f relax = Some r ∧
  match r with
  | inl e => e = - EINVAL ∧ relax = false
  | inr out => (length out ≤ length f)%nat ∧ (cstring f → cstring out)
  end.
Proof.
  induction fuel as [|fuel IH]; intros [|c f] Hf; cbn [length] in Hf; [|lia| |].
  1,2: eexists; split; [done|]; split; [done|]; intros; constructor.
  assert (∀ bs f', (length f' ≤ length f)%nat →
    (length bs + length f' ≤ S (length f))%nat → (cstring (c :: f) → cstring f' ∧ cstring bs) → ∃ r,
    emit bs (cunescape_loop fuel f' relax) = Some r ∧
    match r with
    | inl e => e = - EINVAL ∧ relax = false
    | inr out => (length out ≤ length (c :: f))%nat ∧ (cstring (c :: f) → cstring out)
    end) as Hemit.
  { intros bs f' Hl Hs Hc. destruct (IH f' ltac:(lia)) as ([e|out] & -> & Hr); [by eexists|].
    eexists. split; [done|]. cbn [length]. rewrite length_app. destruct Hr as [Ho Hr].
    split; [lia|]. intros [Hf' Hb]%Hc. apply Forall_app. split; [done|by apply Hr]. }
  assert (cstring (c :: f) → cstring f ∧ cstring [c]) as Hself.
  { intros [Hc Hs]%Forall_cons. split; [done|by apply Forall_singleton]. }
  cbn [cunescape_loop]. destruct (Z.eqb_spec c 92) as [->|]; cbn [negb].
  2: { apply Hemit; cbn [length]; (lia || done). }
  destruct (Z.eqb_spec (Z.of_nat (length (92 :: f))) 1).
  { destruct relax; [apply Hemit; cbn [length]; (lia || done)|by eexists]. }
  destruct (cunescape_one_total f (Z.of_nat (length (92 :: f)) - 1)) as (r & -> & Hr).
  { right. cbn [length]. lia. }
  cbn [mbind option_bind]. destruct r as [e|[[k u] eb]].
  { destruct relax; [apply Hemit; cbn [length]; (lia || done)|by eexists]. }
  destruct Hr as (Hk & Hc & Hl). fold (sequence_bytes u eb).
  apply Hemit; rewrite ?length_drop; [lia|lia|].
  intros [_ Hs]%Forall_cons. split; [by apply Forall_drop|done].
Qed.

(** Unescaping is safe on every input: it ends, never reads or writes
    outside its buffers, fails with -EINVAL only when not relaxed, puts the
    prefix before no more bytes than it was given, and makes no NUL out of a
    string without one. Reading one sequence from a NUL-terminated string of
    unknown length does not run past the NUL either. *)
Theorem cunescape_safe (oom : bool) s prefix relax :
  (∃ r, cunescape_length_with_prefix oom s prefix relax = Some r ∧
    match r with
    | inl e => e = - ENOMEM ∧ oom = true ∨ e = - EINVAL ∧ oom = false ∧ relax = false
    | inr (n, out) => ∃ o, out = default [] prefix ++ o ∧ n = wraps 32 (Z.of_nat (length out)) ∧
        (length o ≤ length s)%nat ∧ (cstring s → cstring o)
    end) ∧
  (∀ rest, ∃ r, cunescape_one (s ++ 0 :: rest) SIZE_MAX = Some r ∧ sequence_ok (s ++ 0 :: rest) r).
Proof.
  split.
  2: { intros rest. apply cunescape_one_total. left. apply elem_of_app. right. by left. }
  unfold cunescape_length_with_prefix. destruct oom; [eexists; split; [done|]; by left|].
  destruct (cunescape_loop_total relax (length s) s ltac:(lia)) as ([e|o] & -> & Hr);
    cbn [mbind option_bind].
  { eexists. split; [done|]. right. naive_solver. }
  destruct Hr as [Hl Hc]. rewrite filled_fits by (rewrite length_app; lia).
  eexists. split; [done|]. by exists o.
Qed.

(** ** xescape_full *)

Definition xescape_char (bad : list Z) (eight_bits : bool) (c : Z) : list Z :=
  if (c <? 32) || negb eight_bits && (127 <=? c) || (c =? 92) || strchr bad c then
    [92; 120; hexchar (Z.shiftr (wraps 8 c) 4); hexchar (wraps 8 c)]
  else [c].

Lemma xescape_char_spec bad eight_bits c : 0 < c < 256 →
  unescapes_to (xescape_char bad eight_bits c) c = true ∧
  (1 ≤ length (xescape_char bad eight_bits c) ≤ 4)%nat.
Proof.
  intros Hb. assert (is_byte c) as Hc by (unfold is_byte; lia). revert Hc.
  by_bytes (λ c, (c =? 0) || unescapes_to [92; 120; hexchar (Z.shiftr (wraps 8 c) 4); hexchar (wraps 8 c)] c).
  rewrite (proj2 (Z.eqb_neq c 0)) in Hc by lia.
  unfold xescape_char. destruct (_ || strchr bad c) eqn:E; [split; [done|simpl; lia]|].
  split; [|simpl; lia]. reflect_bools. unfold unescapes_to. apply andb_true_iff.
  split; [by apply Z.eqb_eq|]. by apply negb_true_iff, Z.eqb_neq.
Qed.

(** The offsets of the last two rounds. *)
Definition offsets_ok (t prev prev2 : Z) : Prop := 0 ≤ prev2 ≤ prev ∧ prev ≤ t ∧ t ≤ prev + 4 ∧ prev ≤ prev2 + 4.

Lemma xescape_loop_spec bad cw eight_bits f : ∀ out prev prev2,
  cstring f → offsets_ok (Z.of_nat (length out)) prev prev2 → Z.of_nat (length out) ≤ cw →
  Z.of_nat (length out) + 4 * Z.of_nat (length f) < 2 ^ 64 →
  match xescape_loop f bad cw eight_bits out prev prev2 with
  | inl r => r = out ++ (f ≫= xescape_char bad eight_bits) ∧ Z.of_nat (length r) ≤ cw
  | inr (r, p, p2) =>
      (∃ rest, rest ≠ [] ∧ out ++ (f ≫= xescape_char bad eight_bits) = r ++ rest ∧
         cw < Z.of_nat (length (r ++ rest))) ∧
      offsets_ok (Z.of_nat (length r)) p p2 ∧
      Z.of_nat (length r) ≤ cw < Z.of_nat (length r) + 4 ∧
      Z.of_nat (length r) + 4 ≤ Z.of_nat (length out) + 4 * Z.of_nat (length f)
  end.
Proof.
  induction f as [|c f IH]; intros out prev prev2 Hs Ho Hcw Hw; cbn [xescape_loop].
  { by rewrite app_nil_r. }
  apply Forall_cons in Hs as [Hc Hs]. rewrite bind_cons. cbn [length] in Hw |- *.
  assert (∀ e, xescape_char bad eight_bits c = e → Z.of_nat (length out + length e) ≤ cw →
    (1 ≤ length e ≤ 4)%nat →
    match xescape_loop f bad cw eight_bits (out ++ e) (Z.of_nat (length out)) prev with
    | inl r => r = out ++ e ++ (f ≫= xescape_char bad eight_bits) ∧ Z.of_nat (length r) ≤ cw
    | inr (r, p, p2) =>
        (∃ rest, rest ≠ [] ∧ out ++ e ++ (f ≫= xescape_char bad eight_bits) = r ++ rest ∧
           cw < Z.of_nat (length (r ++ rest))) ∧
        offsets_ok (Z.of_nat (length r)) p p2 ∧
        Z.of_nat (length r) ≤ cw < Z.of_nat (length r) + 4 ∧
        Z.of_nat (length r) + 4 ≤ Z.of_nat (length out) + 4 * Z.of_nat (S (length f))
    end) as Hgo.
  { intros e _ Hl He. unfold offsets_ok in Ho.
    specialize (IH (out ++ e) (Z.of_nat (length out)) prev Hs).
    rewrite <- (assoc_L (++)) in IH. rewrite length_app in IH.
    ospecialize (IH _ _ _); [unfold offsets_ok; lia|lia|lia|].
    destruct (xescape_loop _ _ _ _ _ _ _) as [r|[[r p] p2]]; [done|].
    destruct IH as (? & ? & ? & ?). split_and!; (done || lia). }
  destruct (xescape_char_spec bad eight_bits c Hc) as [_ Hl].
  unfold xescape_char in *. destruct (_ || strchr bad c) eqn:E.
  - rewrite wrapu_small by lia. destruct (Z.ltb_spec cw (Z.of_nat (length out) + 4)).
    + split; [eexists; split; [|split; [done|rewrite !length_app; simpl; lia]]; done|].
      split; [done|]. lia.
    + apply Hgo; [done|simpl; lia|done].
  - rewrite wrapu_small by lia. destruct (Z.ltb_spec cw (Z.of_nat (length out) + 1)).
    + split; [eexists; split; [|split; [done|rewrite !length_app; simpl; lia]]; done|].
      split; [done|]. lia.
    + apply Hgo; [done|simpl; lia|done].
Qed.

Lemma xescape_off_bounds cw t prev prev2 : 0 < cw → offsets_ok t prev prev2 → t ≤ cw < t + 4 →
  let c := Z.min cw 3 in let off := xescape_off cw c t prev prev2 in
  0 ≤ off ≤ t ∧ off + c ≤ cw ∧ cw ≤ off + c + 3.
Proof. unfold offsets_ok, xescape_off. simpl. intros. repeat case_match; reflect_bools; lia. Qed.

(** On every string and for every console width, [xescape_full] stays within
    the buffer it allocates and passes its assertion. When the escaped string
    fits the console it is returned whole, and unescaping gives the string
    back; otherwise the result is a proper prefix of the escaped string and as
    many dots as fit, at most three, no wider than the console and at most
    three columns short of it. *)
Theorem xescape_full_correct s bad cw (eight_bits relax : bool) :
  cstring s → 0 < cw ≤ SIZE_MAX → 4 * Z.of_nat (length s) + 1 < 2 ^ 64 →
  let full := s ≫= xescape_char bad eight_bits in
  if Z.of_nat (length full) <=? cw then
    xescape_full false s bad cw eight_bits = Some (Some full) ∧
    cunescape false full relax = Some (inr (wraps 32 (Z.of_nat (length s)), s))
  else ∃ off,
    xescape_full false s bad cw eight_bits =
      Some (Some (take off full ++ replicate (Z.to_nat (Z.min cw 3)) 46)) ∧
    (off ≤ length full)%nat ∧ cw - 3 ≤ Z.of_nat off + Z.min cw 3 ≤ cw.
Proof.
  intros Hs Hcw Hlen full. unfold xescape_full. cbn [Z.eqb].
  rewrite (proj2 (Z.eqb_neq cw 0)) by lia.
  pose proof (xescape_loop_spec bad cw eight_bits s [] 0 0 Hs) as H.
  ospecialize (H _ _ _); [unfold offsets_ok; cbn; lia|cbn; lia|cbn [length]; lia|].
  assert (length full ≤ 4 * length s)%nat as Hfull.
  { apply bind_length_le. eapply Forall_impl; [exact Hs|]. intros c Hc. by apply xescape_char_spec. }
  rewrite wrapu_small by lia. cbn [app length] in H. fold full in H.
  destruct (xescape_loop _ _ _ _ _ _ _) as [r|[[r p] p2]].
  - destruct H as [-> Hr]. rewrite (proj2 (Z.leb_le _ _) Hr). split.
    + rewrite filled_fits; [done|]. lia.
    + apply cunescape_escaped. eapply Forall_impl; [exact Hs|]. intros c Hc. by apply xescape_char_spec.
  - destruct H as ((rest & Hne & E & Hbig) & Ho & Ht & Hsz). rewrite <- E in Hbig.
    rewrite (proj2 (Z.leb_gt _ _) Hbig).
    destruct (xescape_off_bounds cw _ p p2 (proj1 Hcw) Ho Ht) as (Hoff & Hfit & Hlow).
    set (off := xescape_off _ _ _ _ _) in *.
    destruct (Z.ltb_spec (Z.min (Z.of_nat (length s)) cw * 4 + 1) (Z.of_nat (length r))); [lia|].
    destruct (Z.ltb_spec (Z.of_nat (length r)) off); [lia|].
    exists (Z.to_nat off). rewrite E, take_app_le by lia. split.
    + rewrite filled_fits; [done|]. rewrite length_app, length_take, length_replicate. lia.
    + rewrite length_app. lia.
Qed.

Lemma xescape_full_correct_witness : ∃ off,
  xescape_full false [1; 97; 98; 99] [] 6 false =
    Some (Some (take off [92; 120; 48; 49; 97; 98; 99] ++ [46; 46; 46])) ∧
  (off ≤ 7)%nat ∧ 3 ≤ Z.of_nat off + 3 ≤ 6.
Proof.
  pose proof (xescape_full_correct [1; 97; 98; 99] [] 6 false false) as H.
  ospecialize (H _ _ _); [|done|done|exact H].
  repeat (apply Forall_cons_2; [lia|]). by apply Forall_nil_2.
Defined.

(** Two remembered positions are not enough to go back to the start of a
    character: after two plain ones that fill the console, the dots overwrite
    the last digit of the sequence before them. *)
Example xescape_cuts_a_sequence :
  xescape_full false [1; 97; 98; 99] [] 6 false = Some (Some (bytes_of "\x0...")).
Proof. by vm_compute. Qed.

(** [octescape] keeps bit 3 of each part, not its low three bits: a newline
    comes out as the sequence of a backspace and a DEL as one with a digit 8. *)
Example octescape_digits :
  octescape false [10] = Some (Some (bytes_of "\008")) ∧
  octescape false [127] = Some (Some (bytes_of "\188")) ∧
  cescape false [127] = Some (Some (bytes_of "\177")) ∧
  octescape false [255] = Some (Some (bytes_of "\/88")).
Proof. by vm_compute. Qed.

(** ** Shell words

    How a POSIX shell reads the three forms of a word the quoting makes: what
    is inside double quotes, what is inside [$'...'], and a bare word. [None]
    is anything that is not just one word with that text: an expansion, an
    unfinished quote, more text, a comment. *)

Fixpoint read_double (s : list Z) : option (list Z) :=
  match s with
  | [] => None
  | c :: s =>
      if c =? 34 then match s with [] => Some [] | _ => None end
      else if (c =? 36) || (c =? 96) then None
      else if c =? 92 then
        match s with
        | [] => None
        | d :: s' =>
            if bool_decide (d ∈ SHELL_NEED_ESCAPE) then r ← read_double s'; Some (d :: r)
            else if d =? 10 then read_double s'
            else r ← read_double s'; Some (92 :: d :: r)
        end
      else r ← read_double s; Some (c :: r)
  end.

Fixpoint read_dollar_single (s : list Z) : option (list Z) :=
  match s with
  | [] => None
  | c :: s =>
      if c =? 39 then match s with [] => Some [] | _ => None end
      else if c =? 92 then
        match s with
        | [] => None
        | d :: s' =>
            r ← read_dollar_single s';
            if d =? 110 then Some (10 :: r)
            else if d =? 116 then Some (9 :: r)
            else if (d =? 92) || (d =? 39) then Some (d :: r)
            else None
        end
      else r ← read_dollar_single s; Some (c :: r)
  end.

(** Characters that must be quoted to represent themselves. *)
Definition shell_special : list Z :=
  bytes_of "|&;<>()$`\'*?[" ++ [34; 32; 9; 10].

Definition read_bare (s : list Z) : option (list Z) :=
  match s with
  | [] => None
  | c :: _ =>
      if (c =? 35) || (c =? 126) then None
      else if forallb (λ c, negb (bool_decide (c ∈ shell_special))) s then Some s else None
  end.

Definition read_word (s : list Z) : option (list Z) :=
  match s with
  | c :: s' =>
      if c =? 34 then read_double s'
      else match s' with
           | d :: s'' => if (c =? 36) && (d =? 39) then read_dollar_single s'' else read_bare s
           | [] => read_bare s
           end
  | [] => None
  end.

Lemma quote_split_spec s a p : quote_split s = (a, p) →
  s = a ++ p ∧ Forall (λ c, needs_quotes c = false) a.
Proof.
  revert a p. induction s as [|c s IH]; intros a p; cbn [quote_split].
  { intros [= <- <-]. by split. }
  destruct (needs_quotes c) eqn:E; [by intros [= <- <-]|].
  destruct (quote_split s) as [a' p'] eqn:E'. intros [= <- <-].
  destruct (IH _ _ eq_refl) as [-> Ha]. split; [done|]. by apply Forall_cons.
Qed.

(** A character that needs no quotes is none of the special ones. *)
Lemma plain_char c : 0 < c < 256 → needs_quotes c = false →
  bool_decide (c ∈ shell_special) = false ∧ c ≠ 34 ∧ c ≠ 36 ∧ c ≠ 96 ∧ c ≠ 92 ∧ c ≠ 39.
Proof.
  intros Hb. assert (is_byte c) as Hc by (unfold is_byte; lia). revert Hc.
  by_bytes (λ c, needs_quotes c || negb (bool_decide (c ∈ shell_special)) &&
                 negb (c =? 34) && negb (c =? 36) && negb (c =? 96) && negb (c =? 92) && negb (c =? 39)).
  intros E. rewrite E in Hc. cbn [orb] in Hc. reflect_bools. split_and!; done.
Qed.

Lemma read_double_plain c s : c ≠ 34 → c ≠ 36 → c ≠ 96 → c ≠ 92 →
  read_double (c :: s) = (r ← read_double s; Some (c :: r)).
Proof. intros ?%Z.eqb_neq E1%Z.eqb_neq E2%Z.eqb_neq E3%Z.eqb_neq. cbn [read_double]. by rewrite H, E1, E2, E3. Qed.

Lemma read_double_escaped p : cstring p →
  read_double (strcpy_backslash_escaped p SHELL_NEED_ESCAPE false ++ [34]) = Some p.
Proof.
  induction 1 as [|c p Hc _ IH]; [done|]. cbn [strcpy_backslash_escaped andb].
  unfold strchr. rewrite (proj2 (Z.eqb_neq c 0)), orb_false_r by lia.
  destruct (decide (c ∈ SHELL_NEED_ESCAPE)) as [Hin|Hin].
  - rewrite bool_decide_eq_true_2, orb_true_r by done. cbn [app read_double].
    rewrite bool_decide_eq_true_2 by done. by rewrite IH.
  - rewrite bool_decide_eq_false_2 by done.
    assert (c ≠ 34 ∧ c ≠ 36 ∧ c ≠ 96 ∧ c ≠ 92) as (H1 & H2 & H3 & H4).
    { unfold SHELL_NEED_ESCAPE in Hin. rewrite !not_elem_of_cons in Hin. naive_solver. }
    rewrite (proj2 (Z.eqb_neq c 92) H4). cbn [orb app]. by rewrite read_double_plain, IH.
Qed.

Lemma read_dollar_plain c s : c ≠ 39 → c ≠ 92 →
  read_dollar_single (c :: s) = (r ← read_dollar_single s; Some (c :: r)).
Proof. intros H%Z.eqb_neq E%Z.eqb_neq. cbn [read_dollar_single]. by rewrite H, E. Qed.

Lemma read_dollar_escaped p : cstring p →
  read_dollar_single (strcpy_backslash_escaped p SHELL_NEED_ESCAPE_POSIX true ++ [39]) = Some p.
Proof.
  induction 1 as [|c p Hc _ IH]; [done|]. cbn [strcpy_backslash_escaped andb].
  destruct (Z.eqb_spec c 10) as [->|]; [cbn [Z.eqb Pos.eqb orb app read_dollar_single]; by rewrite IH|].
  destruct (Z.eqb_spec c 9) as [->|]; [cbn [Z.eqb Pos.eqb orb app read_dollar_single]; by rewrite IH|]. cbn [orb].
  unfold strchr. rewrite (proj2 (Z.eqb_neq c 0)), orb_false_r by lia.
  destruct (decide (c = 92)) as [->|]; [cbn [Z.eqb Pos.eqb orb app read_dollar_single]; by rewrite IH|].
  destruct (decide (c = 39)) as [->|].
  { change (bool_decide (39 ∈ SHELL_NEED_ESCAPE_POSIX)) with true.
    cbn [Z.eqb Pos.eqb orb app read_dollar_single]. by rewrite IH. }
  rewrite bool_decide_eq_false_2.
  2: { unfold SHELL_NEED_ESCAPE_POSIX. rewrite !not_elem_of_cons. repeat split; [done..|apply not_elem_of_nil]. }
  rewrite (proj2 (Z.eqb_neq c 92)) by done. cbn [orb app]. by rewrite read_dollar_plain, IH.
Qed.

(** Characters that are copied without a look at them read as themselves. *)
Lemma read_double_app a s r : cstring a → Forall (λ c, needs_quotes c = false) a →
  read_double s = Some r → read_double (a ++ s) = Some (a ++ r).
Proof.
  intros Ha Hq Hr. induction Hq as [|c a Hc _ IH]; [done|]. apply Forall_cons in Ha as [Hb Ha].
  destruct (plain_char c Hb Hc) as (_ & ? & ? & ? & ? & ?). cbn [app].
  by rewrite read_double_plain, IH.
Qed.

Lemma read_dollar_app a s r : cstring a → Forall (λ c, needs_quotes c = false) a →
  read_dollar_single s = Some r → read_dollar_single (a ++ s) = Some (a ++ r).
Proof.
  intros Ha Hq Hr. induction Hq as [|c a Hc _ IH]; [done|]. apply Forall_cons in Ha as [Hb Ha].
  destruct (plain_char c Hb Hc) as (_ & ? & ? & ? & ? & ?). cbn [app].
  by rewrite read_dollar_plain, IH.
Qed.

Lemma strcpy_length p bad nl : (length (strcpy_backslash_escaped p bad nl) ≤ 2 * length p)%nat.
Proof.
  induction p as [|c p IH]; [done|]. cbn [strcpy_backslash_escaped length]. rewrite length_app.
  repeat case_match; cbn [length]; lia.
Qed.

Lemma read_word_bare c s : Forall (λ c, needs_quotes c = false) (c :: s) → cstring (c :: s) →
  c ≠ 35 → c ≠ 126 → read_word (c :: s) = Some (c :: s).
Proof.
  intros Hq Hs H1 H2.
  assert (read_bare (c :: s) = Some (c :: s)) as Hb.
  { unfold read_bare. rewrite (proj2 (Z.eqb_neq c 35)), (proj2 (Z.eqb_neq c 126)) by done. cbn [orb].
    rewrite (proj2 (forallb_forall _ (c :: s))); [done|]. intros x Hx%list_elem_of_In.
    unfold cstring in Hs. rewrite Forall_forall in Hq, Hs. destruct (plain_char x (Hs x Hx) (Hq x Hx)) as (-> & _). done. }
  apply Forall_cons in Hq as [Hqc _], Hs as [Hc _].
  destruct (plain_char c Hc Hqc) as (_ & ? & ? & ? & ? & ?). unfold read_word.
  rewrite (proj2 (Z.eqb_neq c 34)), (proj2 (Z.eqb_neq c 36)) by done. cbn [andb]. by destruct s.
Qed.

(** [shell_maybe_quote] stays within its buffer, and a POSIX shell reads its
    result back as the one word it was given, in both styles: no expansion, no
    word splitting, no early end of the quotes. The string must not be empty,
    and must not start with a hash or a tilde: those are returned bare. *)
Theorem shell_quote_roundtrip s style :
  cstring s → s ≠ [] → head s ≠ Some 35 → head s ≠ Some 126 → ∃ q,
  shell_maybe_quote false s style = Some (Some q) ∧ read_word q = Some s.
Proof.
  intros Hs Hne H1 H2. unfold shell_maybe_quote. destruct (quote_split s) as [a p] eqn:E.
  apply quote_split_spec in E as [-> Ha]. apply Forall_app in Hs as [Hca Hcp].
  destruct p as [|c p].
  { rewrite app_nil_r in *. exists a. split; [done|]. destruct a as [|x a]; [done|].
    apply read_word_bare; [done..| |]; intros ->; done. }
  pose proof (strcpy_length (c :: p) SHELL_NEED_ESCAPE false).
  pose proof (strcpy_length (c :: p) SHELL_NEED_ESCAPE_POSIX true).
  unfold new_string. rewrite filled_fits.
  2: { destruct style; rewrite !length_app; cbn [length] in *; lia. }
  eexists. split; [done|]. destruct style.
  - change (read_double (a ++ strcpy_backslash_escaped (c :: p) SHELL_NEED_ESCAPE false ++ [34])
      = Some (a ++ c :: p)).
    apply read_double_app; [done..|by apply read_double_escaped].
  - change (read_dollar_single (a ++ strcpy_backslash_escaped (c :: p) SHELL_NEED_ESCAPE_POSIX true ++ [39])
      = Some (a ++ c :: p)).
    apply read_dollar_app; [done..|by apply read_dollar_escaped].
Qed.

Lemma shell_quote_roundtrip_witness :
  read_word [34; 92; 36; 32; 92; 34; 34] = Some [36; 32; 34].
Proof.
  destruct (shell_quote_roundtrip [36; 32; 34] ESCAPE_BACKSLASH) as (q & E & H); [|done..|].
  { repeat (apply Forall_cons_2; [lia|]). by apply Forall_nil_2. }
  vm_compute in E. injection E as <-. exact H.
Defined.

(** A leading hash or tilde is not quoted: the shell sees a comment or a home
    directory. *)
Example shell_quote_hash :
  shell_maybe_quote false (bytes_of "#foo") ESCAPE_BACKSLASH = Some (Some (bytes_of "#foo")) ∧
  shell_maybe_quote false (bytes_of "~root") ESCAPE_POSIX = Some (Some (bytes_of "~root")).
Proof. by vm_compute. Qed.
