(* ===== verification/StringUtil.v ===== *)
(** * systemd: string helpers

    Models the functions of
    [src/app/multi_process/day1/systemd/src/basic/string-util.c] and
    [string-util.h] that the modelled components call, and what those use of the
    C library. A C string is the list of its characters, none of them NUL; a
    pointer into one is the rest of the list from there on. *)

From Stdlib Require Import String.
From S2P Require Import Prelude Hexdecoct Utf8 Utf8Props Escape.

#[local] Open Scope Z_scope.
#[local] Set Warnings "-clear-no-such-hyp".

(** ** The C library *)

(** The number of leading characters that satisfy [P]: [strspn] and [strcspn]. *)
Fixpoint span (P : Z → bool) (s : list Z) : nat :=
  match s with
  | c :: s => if P c then S (span P s) else O
  | [] => O
  end.
Definition strspn (s set : list Z) : nat := span (λ c, bool_decide (c ∈ set)) s.
Definition strcspn (s set : list Z) : nat := span (λ c, negb (bool_decide (c ∈ set))) s.

(** The first and the last [c] (a character other than NUL): the string before
    it and from it on. *)
Fixpoint strchr_split (s : list Z) (c : Z) : option (list Z * list Z) :=
  match s with
  | [] => None
  | x :: s' =>
      if x =? c then Some ([], s)
      else '(a, b) ← strchr_split s' c; Some (x :: a, b)
  end.
Fixpoint strrchr_split (s : list Z) (c : Z) : option (list Z * list Z) :=
  match s with
  | [] => None
  | x :: s' =>
      match strrchr_split s' c with
      | Some (a, b) => Some (x :: a, b)
      | None => if x =? c then Some ([], s) else None
      end
  end.

(** The sign of [memcmp] on the shorter length. *)
Fixpoint memcmp (a b : list Z) : Z :=
  match a, b with
  | x :: a, y :: b => if x <? y then -1 else if y <? x then 1 else memcmp a b
  | _, _ => 0
  end.

Definition streq (a b : list Z) : bool := bool_decide (a = b).

(** [startswith]: what follows the prefix. *)
Fixpoint startswith (s prefix : list Z) {struct prefix} : option (list Z) :=
  match prefix, s with
  | [], _ => Some s
  | y :: prefix, x :: s => if x =? y then startswith s prefix else None
  | _ :: _, [] => None
  end.

(** [strstr] finds [needle]. *)
Fixpoint strstr (s needle : list Z) : bool :=
  match startswith s needle, s with
  | Some _, _ => true
  | None, [] => false
  | None, _ :: s => strstr s needle
  end.

(** ** string-util.c *)

(** The part before the postfix. *)
Definition endswith (s postfix : list Z) : option (list Z) :=
  let sl := length s in
  let pl := length postfix in
  if (pl =? 0)%nat then Some s
  else if (sl <? pl)%nat then None
  else if negb (memcmp (drop (sl - pl) s) postfix =? 0) then None
  else Some (take (sl - pl) s).

Definition in_charset (s charset : list Z) : bool :=
  match drop (strspn s charset) s with [] => true | _ => false end.

Definition skip_leading_chars (s bad : list Z) : list Z := drop (strspn s bad) s.

(** [p] counts the characters looked at, [c] is where the string will end. *)
Fixpoint trailing_loop (s bad : list Z) (p c : nat) : nat :=
  match s with
  | [] => c
  | x :: s => trailing_loop s bad (S p) (if negb (strchr bad x) then S p else c)
  end.
Definition delete_trailing_chars (s bad : list Z) : list Z := take (trailing_loop s bad 0 0) s.

(** [strjoin_real] with its arguments up to the NULL that ends them: NULL when
    the length overflows. *)
Fixpoint join_length (l : Z) (args : list (list Z)) : option Z :=
  match args with
  | [] => Some l
  | t :: args =>
      let n := Z.of_nat (length t) in
      if SIZE_MAX - l <? n then None else join_length (l + n) args
  end.
Definition strjoin (oom : bool) (args : list (list Z)) : option (option (list Z)) :=
  match join_length 0 args with
  | None => Some None
  | Some l => new_string oom (l + 1) (concat args)
  end.

(** ** Their meaning *)

Lemma span_split P s : s = take (span P s) s ++ drop (span P s) s.
Proof. by rewrite take_drop. Qed.

Lemma span_app P a b : Forall (λ c, P c = true) a →
  match b with [] => True | c :: _ => P c = false end → span P (a ++ b) = length a.
Proof.
  intros Ha Hb. induction Ha as [|c a Hc _ IH]; cbn [app length span].
  - destruct b as [|c b]; cbn [span]; [done|]. by rewrite Hb.
  - by rewrite Hc, IH.
Qed.

(** A string is a run that satisfies [P] and a rest that does not start with it. *)
Lemma span_view P s : ∃ a b, s = a ++ b ∧ span P s = length a ∧ Forall (λ c, P c = true) a ∧
  match b with [] => True | c :: _ => P c = false end.
Proof.
  induction s as [|c s IH]; [by exists [], []|]. cbn [span]. destruct (P c) eqn:E.
  - destruct IH as (a & b & -> & -> & Ha & Hb). exists (c :: a), b. by rewrite Forall_cons.
  - by exists [], (c :: s).
Qed.

Lemma in_charset_spec s charset : in_charset s charset = true ↔ Forall (.∈ charset) s.
Proof.
  unfold in_charset, strspn. destruct (span_view (λ c, bool_decide (c ∈ charset)) s) as (a & b & -> & -> & Ha & Hb).
  rewrite drop_app_length, Forall_app. split.
  - destruct b; [|done]. intros _. split; [|constructor].
    eapply Forall_impl; [exact Ha|]. simpl. intros c. by rewrite bool_decide_eq_true.
  - intros [_ H]. destruct b as [|c b]; [done|]. apply Forall_cons in H as [H _].
    apply bool_decide_eq_false in Hb. done.
Qed.

Lemma strchr_split_Some s c a b : strchr_split s c = Some (a, b) ↔
  ∃ r, b = c :: r ∧ s = a ++ b ∧ c ∉ a.
Proof.
  revert a b. induction s as [|x s IH]; intros a b; cbn [strchr_split].
  { split; [done|]. intros (r & -> & E & _). by destruct a. }
  destruct (Z.eqb_spec x c) as [->|Hx].
  - split; [intros [= <- <-]; exists s; split_and!; [done..|apply not_elem_of_nil]|].
    intros (r & -> & E & Hn). destruct a as [|y a]; [by rewrite E|]. injection E as -> ->.
    by apply not_elem_of_cons in Hn as [? _].
  - split.
    + destruct (strchr_split s c) as [[a' b']|]; [|done]. intros [= <- <-].
      destruct (proj1 (IH a' b') eq_refl) as (r & -> & -> & Hn).
      exists r. split_and!; [done..|]. apply not_elem_of_cons. by split.
    + intros (r & -> & E & Hn). destruct a as [|y a]; injection E as -> ->; [done|].
      apply not_elem_of_cons in Hn as [_ Hn].
      rewrite (proj2 (IH a (c :: r))); [done|]. by exists r.
Qed.

Lemma strchr_split_None s c : strchr_split s c = None ↔ c ∉ s.
Proof.
  induction s as [|x s IH]; cbn [strchr_split]; [split; [intros; apply not_elem_of_nil|done]|].
  rewrite not_elem_of_cons. destruct (Z.eqb_spec x c) as [->|]; [by split; [|intros []]|].
  rewrite <- IH. destruct (strchr_split s c) as [[]|]; naive_solver.
Qed.

Lemma strrchr_split_None s c : strrchr_split s c = None ↔ c ∉ s.
Proof.
  induction s as [|x s IH]; cbn [strrchr_split]; [split; [intros; apply not_elem_of_nil|done]|].
  rewrite not_elem_of_cons, <- IH. destruct (strrchr_split s c) as [[]|]; [naive_solver|].
  destruct (Z.eqb_spec x c); naive_solver.
Qed.

Lemma strrchr_split_Some s c a b : strrchr_split s c = Some (a, b) ↔
  ∃ r, b = c :: r ∧ s = a ++ b ∧ c ∉ r.
Proof.
  revert a b. induction s as [|x s IH]; intros a b; cbn [strrchr_split].
  { split; [done|]. intros (r & -> & E & _). by destruct a. }
  destruct (strrchr_split s c) as [[a' b']|] eqn:E.
  - destruct (proj1 (IH a' b') eq_refl) as (r' & -> & -> & Hn). split.
    + intros [= <- <-]. by exists r'.
    + intros (r & -> & E' & Hn'). destruct a as [|y a].
      { injection E' as -> <-. destruct Hn'. apply elem_of_app. right. by left. }
      injection E' as -> E'. f_equal. assert (Some (a', c :: r') = Some (a, c :: r)) as [= -> ->].
      { apply IH. by exists r. } done.
  - apply strrchr_split_None in E. split.
    + destruct (Z.eqb_spec x c) as [->|]; [|done]. intros [= <- <-]. by exists s.
    + intros (r & -> & E' & Hn'). destruct a as [|y a]; injection E' as -> ->.
      * by rewrite Z.eqb_refl.
      * destruct E. apply elem_of_app. right. by left.
Qed.

Lemma memcmp_eq a : ∀ b, length a = length b → memcmp a b = 0 ↔ a = b.
Proof.
  induction a as [|x a IH]; intros [|y b]; cbn [length memcmp]; [done..|]. intros [= Hl].
  destruct (Z.ltb_spec x y); [split; [done|intros [= -> ->]; lia]|].
  destruct (Z.ltb_spec y x); [split; [done|intros [= -> ->]; lia]|].
  rewrite IH by done. assert (x = y) as -> by lia. naive_solver.
Qed.

Lemma startswith_Some s prefix r : startswith s prefix = Some r ↔ s = prefix ++ r.
Proof.
  revert s. induction prefix as [|y p IH]; intros s; cbn [startswith app]; [split; congruence|].
  destruct s as [|x s]; [done|]. destruct (Z.eqb_spec x y) as [->|].
  - rewrite IH. split; [by intros ->|by intros [= ->]].
  - split; [done|]. by intros [= -> _].
Qed.

Lemma startswith_None s prefix : startswith s prefix = None ↔ ∀ r, s ≠ prefix ++ r.
Proof.
  destruct (startswith s prefix) as [r|] eqn:E.
  - apply startswith_Some in E as ->. naive_solver.
  - split; [|done]. intros _ r ->. assert (startswith (prefix ++ r) prefix = Some r) by by apply startswith_Some.
    congruence.
Qed.

Lemma endswith_Some s postfix r : endswith s postfix = Some r ↔ s = r ++ postfix.
Proof.
  unfold endswith. destruct (Nat.eqb_spec (length postfix) 0) as [H0|H0].
  { apply nil_length_inv in H0 as ->. rewrite app_nil_r. split; congruence. }
  destruct (Nat.ltb_spec (length s) (length postfix)).
  { split; [done|]. intros ->. rewrite length_app in *. lia. }
  assert (length (drop (length s - length postfix) s) = length postfix) as Hd by (rewrite length_drop; lia).
  destruct (Z.eqb_spec (memcmp (drop (length s - length postfix) s) postfix) 0) as [E|E]; cbn [negb].
  - apply memcmp_eq in E; [|done]. split.
    + intros [= <-]. rewrite <- E at 2. by rewrite take_drop.
    + intros ->. f_equal. rewrite length_app. by replace (length r + length postfix - length postfix)%nat with (length r) by lia;
        rewrite take_app_length.
  - split; [done|]. intros ->. destruct E. apply memcmp_eq; [done|].
    rewrite length_app. replace (length r + length postfix - length postfix)%nat with (length r) by lia.
    by rewrite drop_app_length.
Qed.

Lemma strstr_spec s needle : strstr s needle = true ↔ ∃ a b, s = a ++ needle ++ b.
Proof.
  induction s as [|x s IH].
  - cbn [strstr]. destruct (startswith [] needle) as [r|] eqn:E.
    + apply startswith_Some in E. split; [|done]. intros _. by exists [], r.
    + rewrite startswith_None in E. split; [done|]. intros (a & b & E'). destruct (E b).
      by destruct a.
  - cbn [strstr]. destruct (startswith (x :: s) needle) as [r|] eqn:E.
    + apply startswith_Some in E. split; [|done]. intros _. by exists [], r.
    + rewrite startswith_None in E. rewrite IH. split.
      * intros (a & b & ->). by exists (x :: a), b.
      * intros (a & b & E'). destruct a as [|y a]; [by destruct (E b)|].
        injection E' as -> ->. by exists a, b.
Qed.

Lemma trailing_loop_spec s bad : ∀ p c, trailing_loop s bad p c =
  match trailing_loop s bad 0 0 with O => c | n => p + n end%nat.
Proof.
  induction s as [|x s IH]; intros p c; cbn [trailing_loop]; [done|].
  rewrite IH, (IH 1%nat). destruct (trailing_loop s bad 0 0);
    destruct (strchr bad x); cbn [negb Nat.add]; lia.
Qed.

Lemma delete_trailing_spec s bad : cstring s → ∃ b,
  s = delete_trailing_chars s bad ++ b ∧ Forall (.∈ bad) b ∧
  match last (delete_trailing_chars s bad) with Some c => c ∉ bad | None => True end.
Proof.
  induction 1 as [|x s Hx _ IH]; [exists []; by split_and!|].
  unfold delete_trailing_chars in *. cbn [trailing_loop]. rewrite trailing_loop_spec.
  destruct IH as (b & E & Hb & Hl).
  destruct (trailing_loop s bad 0 0) as [|n] eqn:En.
  - rewrite take_0 in E. cbn [app] in E. subst b. unfold strchr. rewrite (proj2 (Z.eqb_neq x 0)) by lia. rewrite orb_false_r.
    case_bool_decide; cbn [negb take app].
    + exists (x :: s). split_and!; [done| |done]. by apply Forall_cons.
    + exists s. rewrite take_0. by split_and!.
  - exists b. change (take (1 + S n) (x :: s)) with (x :: take (S n) s).
    split_and!; [cbn [app]; by rewrite <- E|done|].
    destruct (take (S n) s) eqn:Et; [|exact Hl].
    destruct s; [cbn in En; done|done].
Qed.

Lemma strjoin_spec args : Z.of_nat (length (concat args)) < SIZE_MAX →
  strjoin false args = Some (Some (concat args)).
Proof.
  intros H. unfold strjoin.
  assert (∀ l, 0 ≤ l → l + Z.of_nat (length (concat args)) ≤ SIZE_MAX →
    join_length l args = Some (l + Z.of_nat (length (concat args)))) as Hj.
  { clear H. induction args as [|t args IH]; intros l Hl Hs; cbn [join_length concat length] in *.
    - f_equal. lia.
    - rewrite length_app in *. destruct (Z.ltb_spec (SIZE_MAX - l) (Z.of_nat (length t))); [lia|].
      rewrite IH by lia. f_equal. lia. }
  rewrite Hj by lia. unfold new_string. unfold filled.
  by rewrite (proj2 (Z.leb_le _ _)) by lia.
Qed.
