(* ===== verification/PathUtil.v ===== *)
(** * systemd: file system paths

    Models the functions of
    [src/app/multi_process/day1/systemd/src/basic/path-util.c] that work on the
    text of paths; those that ask the file system (find_binary, the resolving of
    symbolic links, fsck_exists and the like) are not modelled. Strings,
    pointers into them and [oom] are as in [StringUtil] and [Escape]; the outer
    [None] is an access outside a buffer, a failed assertion or a loop that has
    run out of its fuel. *)

From Stdlib Require Import String.
From S2P Require Import Prelude Hexdecoct Utf8 Utf8Props Escape StringUtil.

#[local] Open Scope Z_scope.

Definition slash : list Z := [47].
Definition is_slash (c : Z) : bool := c =? 47.

(** [p[0]], the NUL of an empty string included. *)
Definition char0 (p : list Z) : Z := match p with c :: _ => c | [] => 0 end.

Definition path_is_absolute (p : list Z) : bool := char0 p =? 47.
Definition is_path (p : list Z) : bool := match strchr_split p 47 with Some _ => true | None => false end.

(** [strspn(p, "/")] and [strcspn(p, "/")]. *)
Definition skip_slashes (p : list Z) : list Z := drop (span is_slash p) p.
Definition component (p : list Z) : nat := span (λ c, negb (is_slash c)) p.

(** ** Simplification *)

(** [IN_SET(f[1], 0, '/')], [f] being the string from [f + 1] on. *)
Definition at_end (f : list Z) : bool := (char0 f =? 0) || (char0 f =? 47).

(** The loop of [path_simplify], in place: [n] characters have been read and
    [out] is what lies below [t]; a write at or above the next character to
    read would change it, which [None] stands for. *)
Fixpoint simplify_loop (f : list Z) (kill_dots slash ignore_slash : bool) (n : nat) (out : list Z) :
    option (list Z) :=
  match f with
  | [] => Some out
  | c :: f' =>
      let put out ignore_slash :=
        if (S n <? length out)%nat then None
        else simplify_loop f' kill_dots false ignore_slash (S n) out in
      if c =? 47 then simplify_loop f' kill_dots true ignore_slash (S n) out
      else if slash then
        if kill_dots && (c =? 46) && at_end f' then
          simplify_loop f' kill_dots slash ignore_slash (S n) out
        else if ignore_slash then put (out ++ [c]) false
        else put (out ++ [47; c]) ignore_slash
      else put (out ++ [c]) ignore_slash
  end.

Definition path_simplify (path : list Z) (kill_dots : bool) : option (list Z) :=
  match path with
  | [] => Some []
  | c :: path' =>
      let absolute := path_is_absolute path in
      t ← (if kill_dots && (c =? 46) && at_end path' then
             simplify_loop path' kill_dots false true 1 []
           else simplify_loop path kill_dots false false 0 []);
      Some (match t with [] => if absolute then [47] else [46] | _ => t end)
  end.

(** ** Comparison *)

(** The loop of [path_startswith]; every round takes a character of [path]. *)
Fixpoint startswith_loop (fuel : nat) (path prefix : list Z) : option (option (list Z)) :=
  match fuel with
  | O => None
  | S fuel =>
      let path := skip_slashes path in
      let prefix := skip_slashes prefix in
      if char0 prefix =? 0 then Some (Some path)
      else if char0 path =? 0 then Some None
      else
        let a := component path in
        let b := component prefix in
        if negb (a =? b)%nat then Some None
        else if negb (memcmp (take a path) (take a prefix) =? 0) then Some None
        else startswith_loop fuel (drop a path) (drop b prefix)
  end.

Definition path_startswith (path prefix : list Z) : option (option (list Z)) :=
  if negb (Bool.eqb (char0 path =? 47) (char0 prefix =? 47)) then Some None
  else startswith_loop (S (length path)) path prefix.

Fixpoint path_startswith_strv (p : list Z) (set : list (list Z)) : option (option (list Z)) :=
  match set with
  | [] => Some None
  | s :: set =>
      t ← path_startswith p s;
      match t with Some _ => Some t | None => path_startswith_strv p set end
  end.

(** [(d > 0) - (d < 0)] *)
Definition sign (d : Z) : Z := (if 0 <? d then 1 else 0) - (if d <? 0 then 1 else 0).

Fixpoint compare_loop (fuel : nat) (a b : list Z) : option Z :=
  match fuel with
  | O => None
  | S fuel =>
      let a := skip_slashes a in
      let b := skip_slashes b in
      if (char0 a =? 0) && (char0 b =? 0) then Some 0
      else if char0 a =? 0 then Some (-1)
      else if char0 b =? 0 then Some 1
      else
        let j := component a in
        let k := component b in
        let d := memcmp (take (Nat.min j k) a) (take (Nat.min j k) b) in
        if negb (d =? 0) then Some (sign d)
        else
          let d := sign (Z.of_nat j - Z.of_nat k) in
          if negb (d =? 0) then Some d
          else compare_loop fuel (drop j a) (drop k b)
  end.

Definition path_compare (a b : list Z) : option Z :=
  let d := (if char0 a =? 47 then 1 else 0) - (if char0 b =? 47 then 1 else 0) in
  if negb (d =? 0) then Some d else compare_loop (S (length a)) a b.

Definition path_equal (a b : list Z) : option bool := (λ d, d =? 0) <$> path_compare a b.

(** ** Joining *)

(** [isempty] of a pointer that may be NULL. *)
Definition isempty (p : option (list Z)) : bool :=
  match p with None | Some [] => true | _ => false end.

Definition ends_in_slash (p : list Z) : bool :=
  match endswith p slash with Some _ => true | None => false end.

Fixpoint join_loop (args : list (option (list Z))) (slash : bool) (q : list Z) : list Z :=
  match args with
  | [] => q
  | p :: args =>
      if isempty p then join_loop args slash q
      else
        let p := default [] p in
        join_loop args (ends_in_slash p)
          (q ++ (if negb slash && negb (char0 p =? 47) then [47] else []) ++ p)
  end.

Definition join_size (first : option (list Z)) (args : list (option (list Z))) : Z :=
  fold_left (λ sz p, if isempty p then sz else sz + (1 + Z.of_nat (length (default [] p)))) args
    (Z.of_nat (length (default [] first))).

(** [path_join_internal], the arguments after the first up to the sentinel. *)
Definition path_join (oom : bool) (first : option (list Z)) (args : list (option (list Z))) :
    option (option (list Z)) :=
  let first' := default [] first in
  new_string oom (wrapu 64 (join_size first args + 1))
    (if negb (isempty first) then join_loop args (ends_in_slash first') first'
     else join_loop args true []).

Definition path_make_absolute (oom : bool) (p : list Z) (prefix : option (list Z)) :
    option (option (list Z)) :=
  if path_is_absolute p || isempty prefix then (if oom then Some None else Some (Some p))
  else path_join oom prefix [Some p].

(** ** The relative path *)

(** [f += *f == '/'] *)
Definition skip_slash (f : list Z) : list Z :=
  match f with c :: f' => if c =? 47 then f' else f | [] => [] end.

(** The first loop of [path_make_relative]: [inl] is the result, [inr] the two
    paths after their common part. *)
Fixpoint common_loop (fuel : nat) (f t : list Z) : option (list Z + list Z * list Z) :=
  match fuel with
  | O => None
  | S fuel =>
      let f := skip_slash f in
      let t := skip_slash t in
      if char0 f =? 0 then Some (inl (if char0 t =? 0 then [46] else t))
      else if char0 t =? 0 then Some (inr (f, t))
      else
        let a := component f in
        let b := component t in
        if negb (a =? b)%nat || negb (memcmp (take a f) (take a t) =? 0) then Some (inr (f, t))
        else common_loop fuel (drop a f) (drop b t)
  end.

(** The second: [inl] is an error, [inr] the number of elements. *)
Fixpoint parents_loop (fuel : nat) (f : list Z) (n_parents : Z) : option (Z + Z) :=
  if char0 f =? 0 then Some (inr n_parents)
  else
    match fuel with
    | O => None
    | S fuel =>
        let w := component f in
        if bool_decide (w = 2%nat ∧ f !! 0%nat = Some 46 ∧ f !! 1%nat = Some 46) then Some (inl (- EINVAL))
        else parents_loop fuel (skip_slash (drop w f)) (wrapu 32 (n_parents + 1))
    end.

Definition dotdots (n : nat) : list Z := concat (replicate n [46; 46; 47]).

Definition path_make_relative (oom : bool) (from_dir to_path : list Z) : option (Z + list Z) :=
  if negb (path_is_absolute from_dir) || negb (path_is_absolute to_path) then Some (inl (- EINVAL))
  else
    f ← path_simplify from_dir true;
    t ← path_simplify to_path true;
    r ← common_loop (S (length f)) f t;
    match r with
    | inl r => Some (if oom then inl (- ENOMEM) else inr r)
    | inr (f, t) =>
        n ← parents_loop (length f) f 0;
        match n with
        | inl e => Some (inl e)
        | inr n_parents =>
            let size := wrapu 32 (n_parents * 3) + Z.of_nat (length t) + 1 in
            let p := dotdots (Z.to_nat n_parents) in
            if oom then Some (inl (- ENOMEM))
            else if char0 t =? 0 then
              if (length p =? 0)%nat || (size <? Z.of_nat (length p)) then None
              else Some (inr (take (length p - 1) p))
            else inr <$> filled size (p ++ t)
        end
    end.

(** ** Components *)

(** [while (k > 0 && P(path[k-1])) k--] *)
Fixpoint back_while (P : Z → bool) (path : list Z) (k : nat) : option nat :=
  match k with
  | O => Some O
  | S k' => c ← path !! k'; if P c then back_while P path k' else Some k
  end.

(** The lengths are [unsigned]. *)
Definition last_path_component (path : list Z) : option (list Z) :=
  let l := Z.to_nat (wrapu 32 (Z.of_nat (length path))) in
  if (l =? 0)%nat then Some path
  else
    k ← back_while is_slash path l;
    if (k =? 0)%nat then Some (drop (l - 1) path)
    else
      k ← back_while (λ c, negb (is_slash c)) path k;
      Some (drop k path).

Definition dot_or_dot_dot (path : list Z) : bool :=
  match path with
  | [46] | [46; 46] => true
  | _ => false
  end.

Definition FILENAME_MAX : Z := 4096.
Definition PATH_MAX : Z := 4096.

Definition filename_is_valid (p : list Z) : bool :=
  match p with
  | [] => false
  | _ =>
      if dot_or_dot_dot p then false
      else match strchr_split p 47 with
           | Some _ => false
           | None => Z.of_nat (length p) <=? FILENAME_MAX
           end
  end.

Definition path_extract_filename (oom : bool) (p : option (list Z)) : option (Z + list Z) :=
  match p with
  | None => Some (inl (- EINVAL))
  | Some p =>
      c ← last_path_component p;
      let a := delete_trailing_chars c slash in
      match a with
      | [] => Some (inl (- EINVAL))
      | _ =>
          if oom then Some (inl (- ENOMEM))
          else if negb (filename_is_valid a) then Some (inl (- EINVAL))
          else Some (inr a)
      end
  end.

Definition path_is_valid (p : list Z) : bool :=
  match p with
  | [] => false
  | _ => Z.of_nat (length p) <? PATH_MAX
  end.

Definition starts (s prefix : list Z) : bool :=
  match startswith s prefix with Some _ => true | None => false end.
Definition ends (s postfix : list Z) : bool :=
  match endswith s postfix with Some _ => true | None => false end.

Definition path_is_normalized (p : list Z) : bool :=
  if negb (path_is_valid p) then false
  else if dot_or_dot_dot p then false
  else if starts p (bytes_of "../") || ends p (bytes_of "/..") || strstr p (bytes_of "/../") then false
  else if starts p (bytes_of "./") || ends p (bytes_of "/.") || strstr p (bytes_of "/./") then false
  else if strstr p (bytes_of "//") then false
  else true.

Definition file_in_same_dir (oom : bool) (path filename : list Z) : option (option (list Z)) :=
  if path_is_absolute filename then (if oom then Some None else Some (Some filename))
  else
    match strrchr_split path 47 with
    | None => if oom then Some None else Some (Some filename)
    | Some (before, _) =>
        let ret := before ++ [47] in
        new_string oom (Z.of_nat (length ret) + Z.of_nat (length filename) + 1) (ret ++ filename)
    end.

Definition hidden_or_backup_file (filename : list Z) : bool :=
  if (char0 filename =? 46) || streq filename (bytes_of "lost+found") ||
     streq filename (bytes_of "aquota.user") || streq filename (bytes_of "aquota.group") ||
     ends filename (bytes_of "~") then true
  else
    match strrchr_split filename 46 with
    | None => false
    | Some (_, p) =>
        existsb (streq (drop 1 p)) (bytes_of <$>
          ["rpmnew"; "rpmsave"; "rpmorig"; "dpkg-old"; "dpkg-new"; "dpkg-tmp"; "dpkg-dist"; "dpkg-bak";
           "dpkg-backup"; "dpkg-remove"; "ucf-new"; "ucf-old"; "ucf-dist"; "swp"; "bak"; "old"; "new"]%string)
    end.

Definition is_device_path (path : list Z) : option bool :=
  r ← path_startswith_strv path [bytes_of "/dev/"; bytes_of "/sys/"];
  Some (match r with Some _ => true | None => false end).

Definition valid_device_node_path (path : list Z) : option bool :=
  r ← path_startswith_strv path [bytes_of "/dev/"; bytes_of "/run/systemd/inaccessible/"];
  Some (match r with
        | None => false
        | Some _ => if ends path slash then false else path_is_normalized path
        end).

Definition valid_device_allow_pattern (path : list Z) : option bool :=
  if starts path (bytes_of "block-") || starts path (bytes_of "char-") then Some true
  else valid_device_node_path path.

(** NULL is modelled by the callers, which test it first. *)
Definition empty_or_root (root : list Z) : bool :=
  match skip_slashes root with [] => true | _ => false end.

(** The examples of the source's comments. *)
Example path_examples :
  path_simplify (bytes_of "///foo//./bar/.") false = Some (bytes_of "/foo/./bar/.") ∧
  path_simplify (bytes_of "///foo//./bar/.") true = Some (bytes_of "/foo/bar") ∧
  path_simplify (bytes_of ".//./foo//./bar/.") false = Some (bytes_of "././foo/./bar/.") ∧
  path_simplify (bytes_of ".//./foo//./bar/.") true = Some (bytes_of "foo/bar") ∧
  path_join false (Some (bytes_of "foo/")) [Some (bytes_of "bar")] = Some (Some (bytes_of "foo/bar")) ∧
  path_join false (Some []) [Some (bytes_of "foo"); Some []; Some (bytes_of "bar"); Some []] =
    Some (Some (bytes_of "foo/bar")) ∧
  last_path_component (bytes_of "a/b/c/") = Some (bytes_of "c/") ∧
  last_path_component (bytes_of "//") = Some (bytes_of "/") ∧
  path_make_relative false (bytes_of "/a/b/c") (bytes_of "/a/d/") = Some (inr (bytes_of "../../d")) ∧
  path_make_relative false (bytes_of "/a/b") (bytes_of "/a") = Some (inr (bytes_of "..")) ∧
  path_startswith (bytes_of "/foo/bar/barfoo/") (bytes_of "/foo") = Some (Some (bytes_of "bar/barfoo/")) ∧
  path_compare (bytes_of "/foo/a") (bytes_of "/foo/aaa") = Some (-1).
Proof. by vm_compute. Qed.
