(* ===== verification/PathUtilProps.v ===== *)
(** * systemd: properties of the path functions

    A path means a flag, whether it is absolute, and the list of its
    components. The functions of [PathUtil] are related to that meaning:
    simplification gives the canonical text of it, comparison is a total order
    on it, prefixes and joins are prefixes and concatenations of lists, and a
    relative path leads where it should. *)

From Stdlib Require Import String.
From S2P Require Import Prelude Hexdecoct HexdecoctProps Utf8 Utf8Props Escape EscapeProps StringUtil PathUtil.

#[local] Open Scope Z_scope.
#[local] Set Warnings "-clear-no-such-hyp".

(** ** Components *)

Fixpoint split_at (cur s : list Z) : list (list Z) :=
  let done := match cur with [] => [] | _ => [cur] end in
  match s with
  | [] => done
  | c :: s => if c =? 47 then done ++ split_at [] s else split_at (cur ++ [c]) s
  end.
Definition comps (s : list Z) : list (list Z) := split_at [] s.

(** A component: not empty, without slash. *)
Definition name (a : list Z) : Prop := a ≠ [] ∧ 47 ∉ a.
Definition boundary (b : list Z) : Prop := b = [] ∨ ∃ b', b = 47 :: b'.

Lemma comps_slash s : comps (47 :: s) = comps s.
Proof. done. Qed.

Lemma split_at_app a cur s : 47 ∉ a → split_at cur (a ++ s) = split_at (cur ++ a) s.
Proof.
  revert cur. induction a as [|c a IH]; intros cur Ha; [by rewrite app_nil_r|].
  apply not_elem_of_cons in Ha as [Hc Ha]. cbn [app split_at].
  destruct (Z.eqb_spec c 47); [done|]. by rewrite IH, <- (assoc_L (++)).
Qed.

Lemma comps_name a b : name a → boundary b → comps (a ++ b) = a :: comps b.
Proof.
  intros [Hne Ha] Hb. unfold comps. rewrite split_at_app by done. cbn [app].
  destruct Hb as [->|(b' & ->)]; cbn [split_at]; by destruct a.
Qed.

Lemma comps_single a : name a → comps a = [a].
Proof. intros Ha. rewrite <- (app_nil_r a) at 1. rewrite comps_name; [done..|by left]. Qed.

(** Every path is empty, or starts with a slash, or with a component. *)
Lemma path_ind (P : list Z → Prop) :
  P [] → (∀ s, P s → P (47 :: s)) →
  (∀ a b, name a → boundary b → P b → P (a ++ b)) → ∀ s, P s.
Proof.
  intros H0 H1 H2 s. induction s as [[|c s] IH] using list_length_ind; [done|].
  destruct (Z.eqb_spec c 47) as [->|Hc]; [apply H1, IH; simpl; lia|].
  destruct (span_view (λ c, negb (is_slash c)) s) as (a & b & -> & _ & Ha & Hb).
  change (c :: a ++ b) with ((c :: a) ++ b). apply H2.
  - split; [done|]. apply not_elem_of_cons. split; [done|]. intros Hin.
    rewrite Forall_forall in Ha. by specialize (Ha _ Hin).
  - destruct b as [|x b]; [by left|]. right. unfold is_slash in Hb.
    apply negb_false_iff, Z.eqb_eq in Hb as ->. by eexists.
  - apply IH. cbn [length]. rewrite length_app. lia.
Qed.

Lemma comps_app a b : (a = [] ∨ (∃ a', a = a' ++ [47])) ∨ boundary b →
  comps (a ++ b) = comps a ++ comps b.
Proof.
  intros H. induction a as [|s IH|x s Hx Hs IH] using path_ind; [done| |].
  - cbn [app]. rewrite !comps_slash. apply IH. destruct H as [[H|(a' & E)]|H]; [done| |by right].
    left. destruct a' as [|y a']; injection E as E; [by left|]. right. by eexists.
  - rewrite <- (assoc_L (++)). destruct Hs as [->|(s' & ->)].
    + cbn [app]. rewrite app_nil_r in H |- *. destruct H as [[->|(a' & ->)]|H].
      * by destruct Hx.
      * destruct Hx as [_ Hx]. destruct Hx.
        apply elem_of_app. right. by left.
      * rewrite comps_name by done. by rewrite (comps_single x) by done.
    + rewrite (comps_name x ((47 :: s') ++ b)), (comps_name x (47 :: s')) by (done || right; by eexists).
      cbn [app]. f_equal.
      apply IH. destruct H as [[E|(a' & E)]|H]; [|left|by right].
      { destruct (app_eq_nil _ _ E). done. }
      right. clear -E. assert (last (x ++ 47 :: s') = Some 47) as Hl by (by rewrite E, last_snoc).
      rewrite last_app in Hl. destruct (last (47 :: s')) eqn:El; [|by apply last_None in El].
      injection Hl as ->. apply last_Some in El as [l ->]. by eexists.
Qed.

Lemma name_char0 a b : name a → cstring a → char0 (a ++ b) ≠ 47 ∧ char0 (a ++ b) ≠ 0.
Proof.
  intros [Hne Ha] Hc. destruct a as [|c a]; [done|]. cbn.
  apply not_elem_of_cons in Ha as [? _]. apply Forall_cons in Hc as [? _]. split; [done|lia].
Qed.

Lemma component_name a b : name a → boundary b → component (a ++ b) = length a.
Proof.
  intros [_ Ha] Hb. unfold component. apply span_app.
  - apply Forall_forall. intros c Hc. unfold is_slash. apply negb_true_iff, Z.eqb_neq. by intros ->.
  - by destruct Hb as [->|(b' & ->)].
Qed.

Lemma comps_names s : Forall name (comps s).
Proof.
  induction s as [|s IH|a b Ha Hb IH] using path_ind; [constructor|done|].
  rewrite comps_name by done. by apply Forall_cons.
Qed.

Lemma comps_cstring s : cstring s → Forall cstring (comps s).
Proof.
  induction s as [|s IH|a b Ha Hb IH] using path_ind; intros Hs; [constructor| |].
  - apply Forall_cons in Hs as [_ Hs]. by apply IH.
  - apply Forall_app in Hs as [? ?]. rewrite comps_name by done. apply Forall_cons. split; [done|by apply IH].
Qed.

(** The view of a path that the loops take: past its slashes. *)
Inductive path_view (s : list Z) : Prop :=
  | view_end : skip_slashes s = [] → comps s = [] → path_view s
  | view_name a b : skip_slashes s = a ++ b → comps s = a :: comps b → name a → boundary b →
      (length (a ++ b) ≤ length s)%nat → path_view s.

Lemma path_view_all s : path_view s.
Proof.
  induction s as [|s IH|a b Ha Hb IH] using path_ind; [by apply view_end| |].
  - unfold skip_slashes in *. destruct IH as [E1 E2|a b E1 E2 Ha Hb Hl].
    + by apply view_end.
    + apply (view_name _ a b); [done|done|done|done|]. cbn [length]. lia.
  - apply (view_name _ a b); [|by apply comps_name|done|done|done].
    unfold skip_slashes. destruct Ha as [Hne Ha]. destruct a as [|c a]; [done|].
    apply not_elem_of_cons in Ha as [Hc _]. cbn [app span]. unfold is_slash.
    by rewrite (proj2 (Z.eqb_neq c 47)) by done.
Qed.

(** What the view of a NUL-free path gives to a loop. *)
Lemma skip_slashes_cstring s : cstring s → cstring (skip_slashes s).
Proof. apply Forall_drop. Qed.

(** ** The canonical text *)

Definition slashed (l : list (list Z)) : list Z := l ≫= cons 47.
Definition relative (l : list (list Z)) : list Z :=
  match l with [] => [] | a :: l => a ++ slashed l end.
Definition canon (absolute : bool) (l : list (list Z)) : list Z :=
  if absolute then 47 :: relative l else match l with [] => [46] | _ => relative l end.

(** [.] components do not count when they are killed. *)
Definition keep (kill_dots : bool) (l : list (list Z)) : list (list Z) :=
  if kill_dots then filter (.≠ [46]) l else l.

Lemma boundary_slashed l : boundary (slashed l).
Proof. destruct l as [|a l]; [by left|right; by eexists]. Qed.

Lemma comps_relative l : Forall name l → comps (relative l) = l.
Proof.
  assert (Forall name l → comps (slashed l) = l) as Hs.
  { induction 1 as [|a l Ha _ IH]; [done|]. unfold slashed. rewrite bind_cons.
    cbn [app]. rewrite comps_slash, comps_name; [by rewrite <- IH at 2|done|apply boundary_slashed]. }
  destruct l as [|a l]; [done|]. intros [Ha Hl]%Forall_cons. cbn [relative].
  rewrite comps_name by (done || apply boundary_slashed). f_equal. clear Hs.
  induction Hl as [|x l Hx _ IH]; [done|]. unfold slashed. rewrite bind_cons.
  cbn [app]. rewrite comps_slash, comps_name; [by rewrite <- IH at 2|done|apply boundary_slashed].
Qed.

(** The loop between components. *)
Lemma simplify_copy a f kill ig n out : 47 ∉ a → (length out ≤ n)%nat →
  simplify_loop (a ++ f) kill false ig n out = simplify_loop f kill false ig (n + length a) (out ++ a).
Proof.
  revert n out. induction a as [|c a IH]; intros n out Ha Hl.
  { cbn [app length]. by rewrite app_nil_r, Nat.add_0_r. }
  apply not_elem_of_cons in Ha as [Hc Ha]. cbn [app simplify_loop].
  rewrite (proj2 (Z.eqb_neq c 47)) by done.
  destruct (Nat.ltb_spec (S n) (length (out ++ [c]))) as [H|H]; rewrite length_app in H; cbn [length] in H; [lia|].
  rewrite IH; [|done|rewrite length_app; cbn [length]; lia].
  rewrite <- (assoc_L (++)). cbn [app length]. f_equal. lia.
Qed.

(** A name that is a dot before a boundary is what the source tests for. *)
Lemma dot_test c a b : name (c :: a) → boundary b → cstring (c :: a) →
  (c =? 46) && at_end (a ++ b) = bool_decide (c :: a = [46]).
Proof.
  intros [_ Ha] Hb Hc. apply not_elem_of_cons in Ha as [_ Ha]. apply Forall_cons in Hc as [_ Hc].
  unfold at_end. destruct a as [|x a].
  - destruct (Z.eqb_spec c 46) as [->|]; cbn [andb app].
    + by destruct Hb as [->|(b' & ->)].
    + symmetry. apply bool_decide_eq_false. congruence.
  - rewrite bool_decide_eq_false_2 by congruence. apply andb_false_iff. right. cbn.
    apply not_elem_of_cons in Ha as [? _]. apply Forall_cons in Hc as [? _].
    apply orb_false_iff. split; apply Z.eqb_neq; [lia|done].
Qed.

Lemma keep_cons kill a l : keep kill (a :: l) =
  if kill && bool_decide (a = [46]) then keep kill l else a :: keep kill l.
Proof.
  destruct kill; [|done]. unfold keep. cbn [andb]. rewrite filter_cons.
  do 2 case_decide || case_bool_decide; try done.
Qed.

Lemma simplify_boundary b kill ig n out : boundary b →
  simplify_loop b kill false ig n out = simplify_loop b kill true ig n out.
Proof. by intros [->|(b' & ->)]. Qed.

(** The loop after a slash. *)
Lemma simplify_slash f kill : cstring f → ∀ ig n out,
  (length out < n)%nat ∨ boundary f ∧ (length out ≤ n)%nat →
  simplify_loop f kill true ig n out =
  Some (out ++ (if ig then relative (keep kill (comps f)) else slashed (keep kill (comps f)))).
Proof.
  induction f as [|s IH|a b Ha Hb IH] using path_ind; intros Hf ig n out Hn.
  - cbn [simplify_loop]. destruct kill, ig; cbn; by rewrite app_nil_r.
  - apply Forall_cons in Hf as [_ Hf]. cbn [simplify_loop Z.eqb Pos.eqb].
    rewrite IH; [done|done|left; lia].
  - apply Forall_app in Hf as [Hfa Hfb]. rewrite comps_name by done.
    destruct a as [|c a]; [by destruct Ha|]. pose proof (dot_test c a b Ha Hb Hfa) as Hdot.
    rewrite keep_cons, <- Hdot. cbn [app simplify_loop].
    assert (c ≠ 47 ∧ 47 ∉ a) as [Hc Ha'] by (destruct Ha as [_ Ha]; by apply not_elem_of_cons in Ha as [? ?]).
    rewrite (proj2 (Z.eqb_neq c 47)) by done. rewrite andb_assoc.
    assert (length out < n)%nat as Hlt.
    { destruct Hn as [?|[[?|(? & [= ? _])] _]]; done. }
    destruct (kill && (c =? 46) && at_end (a ++ b)) eqn:E.
    { rewrite <- andb_assoc, Hdot in E. apply andb_true_iff in E as [_ E%bool_decide_eq_true].
      injection E as -> ->. cbn [app]. apply IH; [done|left; lia]. }
    assert (∀ p, (length p ≤ 1)%nat →
      (if (S n <? length (out ++ p ++ [c]))%nat then None
       else simplify_loop (a ++ b) kill false false (S n) (out ++ p ++ [c])) =
      Some (out ++ p ++ (c :: a) ++ slashed (keep kill (comps b)))) as Hput.
    { intros p Hp. assert (length (out ++ p ++ [c]) ≤ S n)%nat as Hl by (rewrite !length_app; simpl; lia).
      rewrite (proj2 (Nat.ltb_ge _ _) Hl), simplify_copy, simplify_boundary, IH; [|done|right; split; [done|]|done..].
      - by rewrite <- !(assoc_L (++)).
      - rewrite length_app. lia. }
    destruct ig; [apply (Hput []); simpl; lia|]. apply (Hput [47]). done.
Qed.

Lemma canon_slashed l : slashed l = [] ∧ l = [] ∨ slashed l ≠ [] ∧ slashed l = canon true l.
Proof. destruct l as [|a l]; [by left|by right]. Qed.

(** The text that [path_simplify] gives. *)
Lemma path_simplify_canon path kill : cstring path → path ≠ [] →
  path_simplify path kill = Some (canon (path_is_absolute path) (keep kill (comps path))).
Proof.
  intros Hs Hne. destruct path as [|c path]; [done|]. cbn [path_simplify].
  destruct (Z.eqb_spec c 47) as [->|Hc].
  { change (path_is_absolute (47 :: path)) with true. rewrite andb_false_r. cbn [andb].
    apply Forall_cons in Hs as [_ Hs]. cbn [simplify_loop Z.eqb Pos.eqb].
    rewrite simplify_slash by (done || left; simpl; lia). cbn [mbind option_bind app].
    rewrite comps_slash. destruct (canon_slashed (keep kill (comps path))) as [[-> ->]|[Hn E]]; [done|].
    rewrite E. by destruct (canon true _). }
  assert (path_is_absolute (c :: path) = false) as -> by (by apply Z.eqb_neq).
  destruct (span_view (λ c, negb (is_slash c)) path) as (a & b & -> & _ & Ha & Hb).
  assert (47 ∉ a) as Ha'.
  { intros Hin. rewrite Forall_forall in Ha. by specialize (Ha _ Hin). }
  assert (boundary b) as Hb'.
  { destruct b as [|x b]; [by left|]. unfold is_slash in Hb.
    apply negb_false_iff, Z.eqb_eq in Hb as ->. right. by eexists. }
  assert (name (c :: a)) as Hn by (split; [done|]; apply not_elem_of_cons; by split).
  apply (Forall_app _ (c :: a) b) in Hs as [Hca Hcb].
  pose proof (dot_test c a b Hn Hb' Hca) as Hdot.
  change (c :: a ++ b) with ((c :: a) ++ b). rewrite comps_name, keep_cons, <- Hdot, andb_assoc by done.
  destruct (kill && (c =? 46) && at_end (a ++ b)) eqn:E.
  - rewrite <- andb_assoc, Hdot in E. apply andb_true_iff in E as [-> E%bool_decide_eq_true].
    injection E as -> ->. cbn [app]. rewrite simplify_boundary, simplify_slash by (done || left; simpl; lia).
    cbn [mbind option_bind app]. unfold canon. destruct (keep true (comps b)) as [|x l] eqn:El; [done|].
    assert (name x) as [Hx _].
    { assert (x ∈ keep true (comps b)) as Hin by (rewrite El; by left).
      apply list_elem_of_filter in Hin as [_ Hin]. eapply Forall_forall; [apply comps_names|done]. }
    cbn [relative]. by destruct x.
  - rewrite (simplify_copy (c :: a)) by (exact (proj2 Hn) || simpl; lia).
    rewrite simplify_boundary, simplify_slash; [done|done|right; split; [done|simpl; lia]|done].
Qed.

Lemma simplify_loop_length kill f : ∀ sl ig n out r, (length out ≤ n)%nat →
  simplify_loop f kill sl ig n out = Some r → (length r ≤ n + length f)%nat.
Proof.
  induction f as [|c f IH]; intros sl ig n out r Hl; cbn [simplify_loop length].
  { intros [= <-]. lia. }
  assert (∀ out ig, (if (S n <? length out)%nat then None else simplify_loop f kill false ig (S n) out) = Some r →
    (length r ≤ n + S (length f))%nat) as Hput.
  { intros out' ig'. destruct (Nat.ltb_spec (S n) (length out')); [done|]. intros E.
    apply IH in E; lia. }
  destruct (c =? 47); [intros E; apply IH in E; lia|].
  destruct sl; [|apply Hput].
  destruct (_ && _); [intros E; apply IH in E; lia|]. destruct ig; apply Hput.
Qed.

Lemma path_simplify_length path kill q : path ≠ [] → path_simplify path kill = Some q →
  (length q ≤ length path)%nat.
Proof.
  destruct path as [|c p]; [done|]. intros _. cbn [path_simplify].
  destruct (_ && _); [destruct (simplify_loop p _ _ _ _ _) as [t|] eqn:E|
    destruct (simplify_loop (c :: p) _ _ _ _ _) as [t|] eqn:E]; [|done| |done].
  all: apply simplify_loop_length in E; [|simpl; lia]; cbn [mbind option_bind]; intros [= <-].
  all: destruct t; [destruct (path_is_absolute _); simpl; lia|cbn [length] in *; lia].
Qed.

Lemma keep_keep kill l : keep kill (keep kill l) = keep kill l.
Proof.
  destruct kill; [|done]. unfold keep. induction l as [|a l IH]; [done|].
  rewrite !filter_cons. case_decide; [|done]. rewrite filter_cons. case_decide; [by rewrite IH|done].
Qed.

Lemma keep_Forall (P : list Z → Prop) kill l : Forall P l → Forall P (keep kill l).
Proof.
  destruct kill; [|done]. rewrite !Forall_forall. intros H a [_ Ha]%list_elem_of_filter. by apply H.
Qed.

Lemma comps_canon ab l : Forall name l →
  comps (canon ab l) = (if ab then l else match l with [] => [[46]] | _ => l end).
Proof.
  intros Hl. destruct ab; cbn [canon]; [rewrite comps_slash; by apply comps_relative|].
  destruct l; [done|]. by apply comps_relative.
Qed.

Lemma canon_absolute ab l : Forall name l → path_is_absolute (canon ab l) = ab.
Proof.
  intros Hl. destruct ab; [done|]. destruct l as [|[|c a] l]; [done|by apply Forall_cons in Hl as [[? _] _]|].
  apply Forall_cons in Hl as [[_ Ha] _]. apply not_elem_of_cons in Ha as [? _]. by apply Z.eqb_neq.
Qed.

Lemma slashed_cstring l : Forall cstring l → cstring (slashed l).
Proof.
  intros Hl. apply Forall_bind. eapply Forall_impl; [exact Hl|]. intros a Ha.
  apply Forall_cons. split; [lia|done].
Qed.

Lemma relative_cstring l : Forall cstring l → cstring (relative l).
Proof.
  intros Hl. destruct l as [|a l]; [constructor|]. apply Forall_cons in Hl as [Ha Hl].
  apply Forall_app. split; [done|by apply slashed_cstring].
Qed.

Lemma canon_cstring ab l : Forall cstring l → cstring (canon ab l).
Proof.
  intros Hl. pose proof (relative_cstring l Hl). destruct ab; [by apply Forall_cons|].
  destruct l; [by apply Forall_singleton|done].
Qed.

(** [path_simplify] terminates on every path, in place: it never overwrites a
    character it has yet to read, and the result is no longer than the path.
    The result is the canonical text of the same meaning: absolute if the path
    is, with the same components joined by single slashes, without [.]
    components when they are to be killed, a dot alone when a relative path has
    none left; simplifying once more changes nothing. *)
Theorem path_simplify_correct path kill : cstring path → path ≠ [] → ∃ q,
  path_simplify path kill = Some q ∧
  q = canon (path_is_absolute path) (keep kill (comps path)) ∧
  path_is_absolute q = path_is_absolute path ∧
  comps q = (match keep kill (comps path) with
             | [] => if path_is_absolute path then [] else [[46]]
             | l => l
             end) ∧
  path_simplify q kill = Some q ∧ (length q ≤ length path)%nat.
Proof.
  intros Hs Hne. pose proof (path_simplify_canon path kill Hs Hne) as E.
  pose proof (path_simplify_length path kill _ Hne E) as Hl.
  pose proof (keep_Forall name kill _ (comps_names path)) as Hn.
  eexists. split; [done|]. split; [done|]. split; [by apply canon_absolute|].
  assert (∀ ab, comps (canon ab (keep kill (comps path))) =
    match keep kill (comps path) with [] => if ab then [] else [[46]] | l => l end) as Hc.
  { intros ab. rewrite comps_canon by done. by destruct ab, (keep kill (comps path)). }
  rewrite Hc. split; [done|]. split; [|done].
  rewrite path_simplify_canon.
  - rewrite canon_absolute by done. f_equal. rewrite Hc.
    destruct (keep kill (comps path)) as [|a l] eqn:Ek.
    + destruct (path_is_absolute path), kill; done.
    + f_equal. rewrite <- Ek. apply keep_keep.
  - apply canon_cstring. by apply keep_Forall, comps_cstring.
  - destruct (path_is_absolute path); [done|]. destruct (keep kill (comps path)) as [|[|c a] l]; [done| |done].
    by apply Forall_cons in Hn as [[? _] _].
Qed.

Lemma path_simplify_correct_witness :
  path_simplify (bytes_of "./a//./b") true = Some (bytes_of "a/b").
Proof.
  destruct (path_simplify_correct (bytes_of "./a//./b") true) as (q & E & Hq & _); [|done|].
  { apply (bool_decide_unpack _). by vm_compute. }
  rewrite E, Hq. by vm_compute.
Defined.

(** ** The order on paths *)

(** The dictionary order on strings of numbers. *)
Fixpoint lex (a b : list Z) : Z :=
  match a, b with
  | [], [] => 0
  | [], _ :: _ => -1
  | _ :: _, [] => 1
  | x :: a, y :: b => if x <? y then -1 else if y <? x then 1 else lex a b
  end.

Lemma lex_eq a : ∀ b, lex a b = 0 ↔ a = b.
Proof.
  induction a as [|x a IH]; intros [|y b]; cbn [lex]; [done..|].
  destruct (Z.ltb_spec x y); [split; [done|intros [= -> ->]; lia]|].
  destruct (Z.ltb_spec y x); [split; [done|intros [= -> ->]; lia]|].
  rewrite IH. assert (x = y) as -> by lia. split; [by intros ->|by intros [= ->]].
Qed.

Lemma lex_opp a : ∀ b, lex b a = - lex a b.
Proof.
  induction a as [|x a IH]; intros [|y b]; cbn [lex]; [done..|].
  destruct (Z.ltb_spec x y), (Z.ltb_spec y x); try lia. apply IH.
Qed.

Lemma lex_trans a : ∀ b c, lex a b ≤ 0 → lex b c ≤ 0 → lex a c ≤ 0.
Proof.
  induction a as [|x a IH]; intros [|y b] [|z c]; cbn [lex]; try lia.
  destruct (Z.ltb_spec x y), (Z.ltb_spec y x), (Z.ltb_spec y z), (Z.ltb_spec z y),
    (Z.ltb_spec x z), (Z.ltb_spec z x); try lia. apply IH.
Qed.

(** The components, each ended by a NUL, and the whole path with its flag. *)
Definition flat (l : list (list Z)) : list Z := l ≫= λ a, a ++ [0].
Definition path_key (s : list Z) : list Z := (if path_is_absolute s then 1 else 0) :: flat (comps s).

Lemma flat_cons a l : flat (a :: l) = a ++ 0 :: flat l.
Proof. unfold flat. rewrite bind_cons. by rewrite <- (assoc_L (++)). Qed.

Lemma flat_inj l : ∀ l', Forall cstring l → Forall cstring l' → flat l = flat l' → l = l'.
Proof.
  assert (∀ a b (x y : list Z), cstring a → cstring b → a ++ 0 :: x = b ++ 0 :: y → a = b ∧ x = y) as Hsep.
  { induction a as [|c a IH]; intros [|d b] x y Ha Hb E; cbn [app] in E.
    - by injection E.
    - injection E as <- _. apply Forall_cons in Hb as [? _]. lia.
    - injection E as -> _. apply Forall_cons in Ha as [? _]. lia.
    - injection E as -> E. apply Forall_cons in Ha as [_ Ha], Hb as [_ Hb].
      destruct (IH b x y Ha Hb E) as [-> ->]. done. }
  induction l as [|a l IH]; intros [|b l'] Hl Hl' E; rewrite ?flat_cons in E.
  - done.
  - by destruct b.
  - by destruct a.
  - apply Forall_cons in Hl as [Ha Hl], Hl' as [Hb Hl'].
    destruct (Hsep _ _ _ _ Ha Hb E) as [-> E']. by rewrite (IH l').
Qed.

(** One component against another, then the rest. *)
Lemma lex_component a : ∀ b x y, cstring a → cstring b →
  let m := Nat.min (length a) (length b) in
  let d := memcmp (take m a) (take m b) in
  lex (a ++ 0 :: x) (b ++ 0 :: y) =
    if negb (d =? 0) then sign d
    else let e := sign (Z.of_nat (length a) - Z.of_nat (length b)) in
         if negb (e =? 0) then e else lex x y.
Proof.
  induction a as [|c a IH]; intros [|d b] x y Ha Hb; cbn zeta in *.
  - done.
  - apply Forall_cons in Hb as [Hd _]. cbn [length Nat.min take memcmp app lex].
    rewrite (proj2 (Z.ltb_lt 0 d)) by lia. cbn [Z.eqb negb].
    assert (sign (Z.of_nat 0 - Z.of_nat (S (length b))) = -1) as ->; [|done].
    unfold sign. rewrite (proj2 (Z.ltb_ge _ _)), (proj2 (Z.ltb_lt _ _)) by lia. done.
  - apply Forall_cons in Ha as [Hc _]. cbn [length Nat.min take memcmp app lex].
    rewrite (proj2 (Z.ltb_ge c 0)), (proj2 (Z.ltb_lt 0 c)) by lia. cbn [Z.eqb negb].
    assert (sign (Z.of_nat (S (length a)) - Z.of_nat 0) = 1) as ->; [|done].
    unfold sign. rewrite (proj2 (Z.ltb_lt _ _)), (proj2 (Z.ltb_ge _ _)) by lia. done.
  - apply Forall_cons in Ha as [_ Ha], Hb as [_ Hb]. specialize (IH b x y Ha Hb).
    cbn [length Nat.min take memcmp app lex].
    destruct (c <? d); [done|]. destruct (d <? c); [done|]. rewrite IH.
    replace (Z.of_nat (S (length a)) - Z.of_nat (S (length b))) with
      (Z.of_nat (length a) - Z.of_nat (length b)) by lia. done.
Qed.

Lemma char0_nil_iff s : cstring s → (char0 s =? 0) = bool_decide (s = []).
Proof.
  intros Hs. destruct s as [|c s]; [done|]. apply Forall_cons in Hs as [Hc _].
  rewrite bool_decide_eq_false_2 by done. apply Z.eqb_neq. cbn. lia.
Qed.

Lemma boundary_cstring a b : cstring (a ++ b) → cstring a ∧ cstring b.
Proof. apply Forall_app. Qed.

Lemma compare_loop_spec fuel : ∀ a b, cstring a → cstring b → (length a < fuel)%nat →
  compare_loop fuel a b = Some (lex (flat (comps a)) (flat (comps b))).
Proof.
  induction fuel as [|fuel IH]; intros a b Ha Hb Hf; [lia|]. cbn [compare_loop].
  rewrite !char0_nil_iff by (by apply skip_slashes_cstring).
  pose proof (skip_slashes_cstring a Ha) as Hsa. pose proof (skip_slashes_cstring b Hb) as Hsb.
  destruct (path_view_all a) as [-> Ec|x a' Ea Ec Hx Ha' Hla];
  destruct (path_view_all b) as [-> Ed|y b' Eb Ed Hy Hb' Hlb]; rewrite Ec, Ed.
  - done.
  - rewrite Eb, bool_decide_eq_true_2, bool_decide_eq_false_2 by (by destruct y; [destruct Hy|]).
    cbn [andb]. rewrite flat_cons. by destruct y; [destruct Hy|].
  - rewrite Ea, bool_decide_eq_false_2, bool_decide_eq_true_2 by (by destruct x; [destruct Hx|]).
    cbn [andb]. rewrite flat_cons. by destruct x; [destruct Hx|].
  - rewrite Ea, Eb in *. rewrite !bool_decide_eq_false_2 by (by destruct x, y; destruct Hx, Hy).
    cbn [andb]. rewrite !component_name, !flat_cons by done.
    apply boundary_cstring in Hsa as [Hcx Hca], Hsb as [Hcy Hcb].
    rewrite lex_component by done. rewrite !take_app_le by lia.
    cbn zeta. destruct (negb _); [done|]. destruct (negb _) eqn:E; [done|].
    rewrite !drop_app_length. apply IH; [done..|].
    rewrite length_app in Hla. destruct x; [by destruct Hx|]. cbn [length] in Hla. lia.
Qed.

Lemma path_compare_lex a b : cstring a → cstring b →
  path_compare a b = Some (lex (path_key a) (path_key b)).
Proof.
  intros Ha Hb. unfold path_compare, path_key, path_is_absolute. cbn [lex].
  rewrite compare_loop_spec by (done || lia).
  by destruct (char0 a =? 47), (char0 b =? 47).
Qed.

(** [path_compare] terminates on all paths and is a total order on what they
    mean, independent of how they are written: it is zero exactly for two
    absolute or two relative paths with the same components, changes its sign
    when its arguments are swapped, and is transitive; it is the dictionary
    order on the components, a path before what lies below it, relative paths
    before absolute ones. *)
Theorem path_compare_order a b c : cstring a → cstring b → cstring c → ∃ d,
  path_compare a b = Some d ∧ d = lex (path_key a) (path_key b) ∧
  path_compare b a = Some (- d) ∧
  (d = 0 ↔ path_is_absolute a = path_is_absolute b ∧ comps a = comps b) ∧
  (d ≤ 0 → ∀ e, path_compare b c = Some e → e ≤ 0 →
     ∃ f, path_compare a c = Some f ∧ f ≤ 0).
Proof.
  intros Ha Hb Hc. rewrite !path_compare_lex by done.
  eexists. split; [done|]. split; [done|]. split; [by rewrite (lex_opp (path_key a))|]. split.
  - rewrite lex_eq. unfold path_key. split.
    + intros [= E1 E2]. split; [by destruct (path_is_absolute a), (path_is_absolute b)|].
      apply flat_inj in E2; [done|by apply comps_cstring..].
    + by intros [-> ->].
  - intros Hd e [= <-] He. eexists. split; [done|]. by eapply lex_trans.
Qed.

Lemma path_compare_order_witness : ∃ d,
  path_compare (bytes_of "/a//b/") (bytes_of "/a/b") = Some d ∧ d ≤ 0.
Proof.
  destruct (path_compare_order (bytes_of "/a//b/") (bytes_of "/a/b") (bytes_of "/c"))
    as (d & E & _ & _ & [_ H] & _); [apply (bool_decide_unpack _); by vm_compute..|].
  exists d. split; [exact E|]. rewrite H; [done|]. by vm_compute.
Defined.

(** ** Prefixes *)

Lemma startswith_loop_spec fuel : ∀ p q, cstring p → cstring q → (length p < fuel)%nat → ∃ r,
  startswith_loop fuel p q = Some r ∧
  match r with
  | Some r => comps p = comps q ++ comps r ∧ char0 r ≠ 47 ∧ r `suffix_of` p
  | None => ¬ comps q `prefix_of` comps p
  end.
Proof.
  induction fuel as [|fuel IH]; intros p q Hp Hq Hf; [lia|]. cbn [startswith_loop].
  rewrite !char0_nil_iff by (by apply skip_slashes_cstring).
  pose proof (skip_slashes_cstring p Hp) as Hsp. pose proof (skip_slashes_cstring q Hq) as Hsq.
  assert (skip_slashes p `suffix_of` p) as Hsuf.
  { exists (take (span is_slash p) p). unfold skip_slashes. by rewrite take_drop. }
  destruct (path_view_all q) as [-> Ed|y q' Eq Ed Hy Hq' Hlq].
  { rewrite bool_decide_eq_true_2 by done. eexists. split; [done|]. rewrite Ed. cbn [app].
    destruct (path_view_all p) as [E Ec|x p' Ep Ec Hx Hp' Hlp].
    - rewrite E in *. by rewrite Ec.
    - rewrite Ep in *. rewrite Ec, comps_name by done. split; [done|].
      split; [|done]. apply boundary_cstring in Hsp as [Hcx _]. by apply name_char0. }
  rewrite Eq in *. rewrite bool_decide_eq_false_2 by (by destruct y; destruct Hy). rewrite Ed.
  destruct (path_view_all p) as [-> Ec|x p' Ep Ec Hx Hp' Hlp]; rewrite Ec.
  { rewrite bool_decide_eq_true_2 by done. eexists. split; [done|]. by apply prefix_nil_not. }
  rewrite Ep in *. rewrite bool_decide_eq_false_2 by (by destruct x; destruct Hx).
  rewrite !component_name by done. apply boundary_cstring in Hsp as [Hcx Hcp], Hsq as [Hcy Hcq].
  destruct (decide (x = y)) as [->|Hne].
  - rewrite Nat.eqb_refl. cbn [negb]. rewrite !take_app_length, !drop_app_length.
    rewrite (proj2 (Z.eqb_eq _ 0)) by (by apply memcmp_eq). cbn [negb].
    destruct (IH p' q' Hcp Hcq) as (r & -> & Hr).
    { rewrite length_app in Hlp. destruct y; [by destruct Hy|]. cbn [length] in Hlp. lia. }
    eexists. split; [done|]. destruct r as [r|].
    + destruct Hr as (-> & Hr & Hs). split; [done|]. split; [done|].
      etrans; [exact Hs|]. etrans; [|exact Hsuf]. by exists y.
    + intros H%prefix_cons_inv_2. done.
  - assert (¬ y :: comps q' `prefix_of` x :: comps p') as Hno.
    { by intros H%prefix_cons_inv_1. }
    destruct (Nat.eqb_spec (length x) (length y)) as [El|El]; cbn [negb]; [|by eexists].
    rewrite take_app_length, El, take_app_length.
    destruct (Z.eqb_spec (memcmp x y) 0) as [E|E]; cbn [negb]; [|by eexists].
    by apply memcmp_eq in E.
Qed.

(** [path_startswith] terminates, and finds the prefix exactly when both paths
    are absolute or both relative and the components of the prefix are the
    first ones of the path; what it returns lies within the path, starts at a
    component, and has the components that are left. *)
Theorem path_startswith_correct p q : cstring p → cstring q → ∃ r,
  path_startswith p q = Some r ∧
  match r with
  | Some r => path_is_absolute p = path_is_absolute q ∧ comps p = comps q ++ comps r ∧
      char0 r ≠ 47 ∧ r `suffix_of` p
  | None => path_is_absolute p ≠ path_is_absolute q ∨ ¬ comps q `prefix_of` comps p
  end.
Proof.
  intros Hp Hq. unfold path_startswith, path_is_absolute.
  destruct (Bool.eqb (char0 p =? 47) (char0 q =? 47)) eqn:E; cbn [negb].
  - apply Bool.eqb_prop in E as ->.
    destruct (startswith_loop_spec (S (length p)) p q Hp Hq ltac:(lia)) as (r & -> & Hr).
    eexists. split; [done|]. destruct r; [by split|by right].
  - eexists. split; [done|]. left. by apply eqb_false_iff.
Qed.

Lemma path_startswith_correct_witness : ∃ r,
  path_startswith (bytes_of "/foo//bar/x") (bytes_of "//foo/bar") = Some (Some r) ∧
  r `suffix_of` bytes_of "/foo//bar/x".
Proof.
  destruct (path_startswith_correct (bytes_of "/foo//bar/x") (bytes_of "//foo/bar")) as (r & E & H);
    [apply (bool_decide_unpack _); by vm_compute..|].
  pose proof E as E'. vm_compute in E'. injection E' as <-. eexists. split; [exact E|]. apply H.
Defined.

(** ** Normalized paths *)

Lemma elem_of_comps x p : name x →
  x ∈ comps p ↔ ∃ a b, p = a ++ x ++ b ∧ (a = [] ∨ ∃ a', a = a' ++ [47]) ∧ boundary b.
Proof.
  intros Hx. split.
  - induction p as [|s IH|a b Ha Hb IH] using path_ind; intros Hin; [by apply elem_of_nil in Hin| |].
    + destruct (IH Hin) as (a & b & -> & Ha & Hb). exists (47 :: a), b. split; [done|]. split; [|done].
      right. destruct Ha as [->|(a' & ->)]; [by exists []|by exists (47 :: a')].
    + rewrite comps_name in Hin by done. apply elem_of_cons in Hin as [->|Hin].
      { exists [], b. split; [done|]. split; [by left|done]. }
      destruct (IH Hin) as (a2 & b2 & -> & Ha2 & Hb2). exists (a ++ a2), b2.
      split; [by rewrite <- (assoc_L (++))|]. split; [|done]. right.
      destruct Ha2 as [->|(a' & ->)]; [|exists (a ++ a'); by rewrite (assoc_L (++))].
      destruct Hx as [Hne Hx]. destruct x as [|c x]; [done|].
      destruct Hb as [?|(b' & [= -> _])]; [done|]. by apply not_elem_of_cons in Hx as [? _].
  - intros (a & b & -> & Ha & Hb). rewrite comps_app by (by left). rewrite comps_name by done.
    apply elem_of_app. right. by left.
Qed.

Lemma starts_spec s p : starts s p = true ↔ ∃ r, s = p ++ r.
Proof.
  unfold starts. destruct (startswith s p) as [r|] eqn:E.
  - apply startswith_Some in E. naive_solver.
  - rewrite startswith_None in E. split; [done|]. intros [r Hr]. by destruct (E r).
Qed.

Lemma ends_spec s p : ends s p = true ↔ ∃ r, s = r ++ p.
Proof.
  unfold ends. destruct (endswith s p) as [r|] eqn:E.
  - apply endswith_Some in E. naive_solver.
  - split; [done|]. intros [r Hr%endswith_Some]. congruence.
Qed.

(** The four places a component can be in. *)
Lemma component_tests x p : name x →
  x ∈ comps p ↔
  (p = x ∨ starts p (x ++ [47]) = true ∨ ends p (47 :: x) = true ∨ strstr p (47 :: x ++ [47]) = true).
Proof.
  intros Hx. rewrite elem_of_comps by done. rewrite starts_spec, ends_spec, strstr_spec. split.
  - intros (a & b & -> & [->|(a' & ->)] & [->|(b' & ->)]).
    + left. cbn [app]. by rewrite app_nil_r.
    + right; left. exists b'. cbn [app]. by rewrite <- (assoc_L (++)).
    + right; right; left. exists a'. rewrite app_nil_r. by rewrite <- (assoc_L (++)).
    + right; right; right. exists a', b'. rewrite <- !(assoc_L (++)). cbn [app]. by rewrite <- (assoc_L (++)).
  - intros [->|[(r & ->)|[(r & ->)|(a & b & ->)]]].
    + exists [], []. rewrite app_nil_r. split; [done|]. split; [by left|by left].
    + exists [], (47 :: r). rewrite <- (assoc_L (++)). split; [done|]. split; [by left|right; by eexists].
    + exists (r ++ [47]), []. rewrite app_nil_r, <- (assoc_L (++)). split; [done|].
      split; [right; by eexists|by left].
    + exists (a ++ [47]), (47 :: b). rewrite <- !(assoc_L (++)). cbn [app].
      rewrite <- (assoc_L (++)). split; [done|]. split; right; by eexists.
Qed.

Lemma name_dot : name [46].
Proof. split; [done|]. apply (bool_decide_unpack _). by vm_compute. Qed.
Lemma name_dotdot : name [46; 46].
Proof. split; [done|]. apply (bool_decide_unpack _). by vm_compute. Qed.

Lemma dot_or_dot_dot_spec p : dot_or_dot_dot p = true ↔ p = [46] ∨ p = [46; 46].
Proof.
  split; [|by intros [->| ->]]. unfold dot_or_dot_dot. repeat case_match; naive_solver.
Qed.

Lemma path_is_normalized_spec p : path_is_normalized p = true ↔
  path_is_valid p = true ∧ ([46] ∉ comps p) ∧ ([46; 46] ∉ comps p) ∧ strstr p [47; 47] = false.
Proof.
  rewrite (component_tests [46]) by apply name_dot. rewrite (component_tests [46; 46]) by apply name_dotdot.
  unfold path_is_normalized. cbn [app].
  change (bytes_of "../") with [46; 46; 47]. change (bytes_of "/..") with [47; 46; 46].
  change (bytes_of "/../") with [47; 46; 46; 47]. change (bytes_of "./") with [46; 47].
  change (bytes_of "/.") with [47; 46]. change (bytes_of "/./") with [47; 46; 47].
  change (bytes_of "//") with [47; 47].
  destruct (path_is_valid p); cbn [negb]; [|naive_solver].
  destruct (dot_or_dot_dot p) eqn:Ed; [apply dot_or_dot_dot_spec in Ed; naive_solver|].
  assert (p ≠ [46] ∧ p ≠ [46; 46]) as [H1 H2] by (split; intros ->; done).
  destruct (starts p [46; 46; 47]); cbn [orb]; [naive_solver|].
  destruct (ends p [47; 46; 46]); cbn [orb]; [naive_solver|].
  destruct (strstr p [47; 46; 46; 47]); cbn [orb]; [naive_solver|].
  destruct (starts p [46; 47]); cbn [orb]; [naive_solver|].
  destruct (ends p [47; 46]); cbn [orb]; [naive_solver|].
  destruct (strstr p [47; 46; 47]); cbn [orb]; [naive_solver|].
  destruct (strstr p [47; 47]); naive_solver.
Qed.

(** ** Joins *)

Definition arg_text (p : option (list Z)) : list Z := default [] p.

Lemma ends_in_slash_spec p : ends_in_slash p = true ↔ ∃ a, p = a ++ [47].
Proof. apply ends_spec. Qed.

Lemma join_loop_spec args : ∀ sl q, (sl = true → q = [] ∨ ∃ a, q = a ++ [47]) →
  comps (join_loop args sl q) = comps q ++ (args ≫= λ p, comps (arg_text p)).
Proof.
  induction args as [|p args IH]; intros sl q Hq; cbn [join_loop].
  { by rewrite app_nil_r. }
  rewrite bind_cons. destruct (isempty p) eqn:Ep.
  { rewrite IH by done. by destruct p as [[|]|]. }
  destruct p as [p|]; [|done]. cbn [default from_option id arg_text].
  rewrite IH.
  2: { intros (a & ->)%ends_in_slash_spec. right. exists (q ++ (if negb sl && negb (char0 (a ++ [47]) =? 47) then [47] else []) ++ a).
       by rewrite <- !(assoc_L (++)). }
  unfold arg_text at 2. cbn [default from_option id].
  rewrite (assoc_L (++) (comps q)), (assoc_L (++) q). f_equal.
  destruct sl; cbn [negb andb app].
  { rewrite app_nil_r. apply comps_app. left. by apply Hq. }
  destruct (Z.eqb_spec (char0 p) 47) as [Hc|Hc]; cbn [negb app].
  - destruct p as [|c p]; [done|]. cbn in Hc. subst c. rewrite app_nil_r. apply comps_app. right. right. by eexists.
  - rewrite <- (assoc_L (++)). cbn [app]. rewrite comps_app by (right; right; by eexists). by rewrite comps_slash.
Qed.

Lemma join_size_ge args : ∀ sl q z, Z.of_nat (length q) ≤ z →
  Z.of_nat (length (join_loop args sl q)) ≤
  fold_left (λ sz p, if isempty p then sz else sz + (1 + Z.of_nat (length (default [] p)))) args z.
Proof.
  induction args as [|p args IH]; intros sl q z Hq; cbn [join_loop fold_left]; [done|].
  destruct (isempty p); [by apply IH|]. apply IH. rewrite !length_app.
  destruct (_ && _); cbn [length]; lia.
Qed.

(** Joining paths stays within the size it computes; the components of the
    result are those of the parts one after the other, empty parts are skipped,
    and no slash is doubled: one is added only where neither side has one. A
    path made absolute under a prefix lies below it. *)
Theorem path_join_correct first args : join_size first args + 1 < 2 ^ 64 → ∃ r,
  path_join false first args = Some (Some r) ∧
  comps r = comps (arg_text first) ++ (args ≫= λ p, comps (arg_text p)) ∧
  (∀ a b, first = Some a → a ≠ [] → args = [Some b] → b ≠ [] →
     r = if ends_in_slash a || (char0 b =? 47) then a ++ b else a ++ 47 :: b) ∧
  (∀ a b, first = Some a → a ≠ [] → args = [Some b] → path_is_absolute b = false →
     path_make_absolute false b first = Some (Some r)).
Proof.
  intros Hsz.
  set (out := if negb (isempty first) then join_loop args (ends_in_slash (default [] first)) (default [] first)
              else join_loop args true []).
  assert (Z.of_nat (length out) ≤ join_size first args) as Hl.
  { subst out. destruct first as [[|c f]|]; apply join_size_ge; cbn; lia. }
  assert (path_join false first args = Some (Some out)) as Hj.
  { unfold path_join, new_string. fold out. rewrite wrapu_small by lia. by rewrite filled_fits by lia. }
  exists out. split; [done|]. split_and!.
  - subst out. destruct first as [[|c f]|]; cbn [isempty negb default];
      rewrite join_loop_spec; [done|by intros; left|done| |done|by intros; left].
    intros H%ends_in_slash_spec. by right.
  - intros a b -> Ha -> Hb. subst out. destruct a as [|x a]; [done|]. destruct b as [|y b]; [done|].
    cbn [isempty negb default from_option id join_loop].
    destruct (ends_in_slash (x :: a)); cbn [negb andb orb app]; [done|].
    by destruct (char0 (y :: b) =? 47).
  - intros a b -> Ha -> Hb. unfold path_make_absolute. rewrite Hb. destruct a as [|x a]; [done|].
    done.
Qed.

Lemma path_join_correct_witness : ∃ r,
  path_join false (Some (bytes_of "/a/")) [Some (bytes_of "b")] = Some (Some r) ∧ r = bytes_of "/a/b".
Proof.
  destruct (path_join_correct (Some (bytes_of "/a/")) [Some (bytes_of "b")]) as (r & E & _ & H & _); [done|].
  exists r. split; [exact E|]. by apply (H (bytes_of "/a/") (bytes_of "b")).
Defined.

(** ** Relative paths *)

(** Where a path leads from a directory, given as the stack of its names. *)
Fixpoint resolve (st l : list (list Z)) : list (list Z) :=
  match l with
  | [] => st
  | a :: l =>
      if bool_decide (a = [46]) then resolve st l
      else if bool_decide (a = [46; 46]) then resolve (tail st) l
      else resolve (a :: st) l
  end.

Lemma resolve_app st l l' : resolve st (l ++ l') = resolve (resolve st l) l'.
Proof. revert st. induction l as [|a l IH]; intros st; cbn [app resolve]; [done|]. repeat case_match; apply IH. Qed.

Lemma resolve_keep st l : resolve st (keep true l) = resolve st l.
Proof.
  revert st. induction l as [|a l IH]; intros st; [done|]. rewrite keep_cons. cbn [andb resolve].
  case_bool_decide; [apply IH|]. cbn [resolve]. rewrite bool_decide_eq_false_2 by done.
  case_match; apply IH.
Qed.

Lemma resolve_names l : ∀ st, [46] ∉ l → [46; 46] ∉ l → resolve st l = rev l ++ st.
Proof.
  induction l as [|a l IH]; intros st H1 H2; [done|].
  apply not_elem_of_cons in H1 as [? ?], H2 as [? ?]. cbn [resolve rev].
  rewrite !bool_decide_eq_false_2 by done. rewrite IH by done. by rewrite <- (assoc_L (++)).
Qed.

Lemma resolve_up l : ∀ st, resolve (l ++ st) (replicate (length l) [46; 46]) = st.
Proof. induction l as [|a l IH]; intros st; [done|]. cbn [length replicate]. apply IH. Qed.

Lemma skip_slash_slashed l : Forall name l → skip_slash (slashed l) = relative l.
Proof. intros _. destruct l as [|a l]; [done|]. done. Qed.

Lemma relative_char0 l : Forall name l → Forall cstring l → (char0 (relative l) =? 0) = bool_decide (l = []).
Proof.
  intros Hn Hc. destruct l as [|a l]; [done|]. apply Forall_cons in Hn as [Ha _], Hc as [Hc _].
  rewrite bool_decide_eq_false_2 by done. apply Z.eqb_neq. by apply name_char0.
Qed.

Lemma dotdot_test a b : name a → boundary b →
  bool_decide (length a = 2%nat ∧ (a ++ b) !! 0%nat = Some 46 ∧ (a ++ b) !! 1%nat = Some 46) =
  bool_decide (a = [46; 46]).
Proof.
  intros Ha Hb. apply bool_decide_ext. split; [|by intros ->].
  intros (Hl & H0 & H1). destruct a as [|x [|y [|z a]]]; [done..| |done].
  by injection H0 as ->; injection H1 as ->.
Qed.

Lemma parents_loop_spec fuel : ∀ F n, Forall name F → Forall cstring F → (length (relative F) ≤ fuel)%nat →
  0 ≤ n → n + Z.of_nat (length F) < 2 ^ 32 →
  parents_loop fuel (relative F) n =
    Some (if bool_decide ([46; 46] ∈ F) then inl (- EINVAL) else inr (n + Z.of_nat (length F))).
Proof.
  induction fuel as [|fuel IH]; intros [|a F] n HN HC Hf Hn Hb; cbn [parents_loop].
  - cbn. do 2 f_equal. lia.
  - exfalso. cbn [relative] in Hf. rewrite length_app in Hf.
    apply Forall_cons in HN as [[Hne _] _]. destruct a; [done|]. cbn [length] in Hf. lia.
  - cbn. do 2 f_equal. lia.
  - rewrite relative_char0, bool_decide_eq_false_2 by done.
    apply Forall_cons in HN as [Ha HN]. apply Forall_cons in HC as [Hc HC]. cbn [relative] in *.
    rewrite component_name, dotdot_test by (done || apply boundary_slashed).
    case_bool_decide as Hd.
    { subst a. rewrite bool_decide_eq_true_2 by by left. done. }
    rewrite drop_app_length, skip_slash_slashed by done. cbn [length] in Hb.
    rewrite wrapu_small by lia. rewrite IH; [|done|done| |lia|lia].
    + erewrite (bool_decide_ext ([46; 46] ∈ a :: F) ([46; 46] ∈ F)).
      * case_bool_decide; [done|]. cbn [length]. do 2 f_equal. lia.
      * rewrite elem_of_cons. naive_solver.
    + destruct F as [|x F]; [cbn; lia|]. rewrite length_app in Hf. unfold slashed in Hf.
      rewrite bind_cons in Hf. cbn [relative app length] in *.
      destruct a; [by destruct Ha|]. cbn [length] in Hf. unfold slashed. lia.
Qed.

Lemma common_loop_spec fuel : ∀ f t F T, skip_slash f = relative F → skip_slash t = relative T →
  Forall name F → Forall name T → Forall cstring F → Forall cstring T →
  (length F < fuel)%nat → ∃ C F' T', F = C ++ F' ∧ T = C ++ T' ∧
  common_loop fuel f t = Some (match F', T' with
    | [], [] => inl [46]
    | [], _ => inl (relative T')
    | _, _ => inr (relative F', relative T')
    end).
Proof.
  induction fuel as [|fuel IH]; intros f t F T Ef Et HN HM HC HD Hl; [lia|]. cbn [common_loop].
  rewrite Ef, Et, !relative_char0 by done.
  destruct F as [|a F]; [exists [], [], T; by destruct T|].
  rewrite bool_decide_eq_false_2 by done.
  destruct T as [|b T]; [by exists [], (a :: F), []|].
  rewrite bool_decide_eq_false_2 by done.
  destruct (decide (a = b)) as [->|Hne].
  - cbn [relative]. apply Forall_cons in HN as [Ha HN], HM as [Hb HM], HC as [Hca HC], HD as [Hcb HD].
    rewrite !component_name by (done || apply boundary_slashed). rewrite Nat.eqb_refl. cbn [negb orb].
    rewrite !take_app_length, !drop_app_length, (proj2 (Z.eqb_eq _ 0)) by (by apply memcmp_eq). cbn [negb].
    destruct (IH (slashed F) (slashed T) F T) as (C & F' & T' & -> & -> & E);
      [by apply skip_slash_slashed|by apply skip_slash_slashed|done..|cbn [length] in Hl; lia|].
    by exists (b :: C), F', T'.
  - exists [], (a :: F), (b :: T). split; [done|]. split; [done|].
    cbn [relative]. apply Forall_cons in HN as [Ha HN], HM as [Hb HM].
    rewrite !component_name by (done || apply boundary_slashed).
    destruct (Nat.eqb_spec (length a) (length b)) as [El|El]; cbn [negb orb]; [|done].
    rewrite take_app_length, El, take_app_length.
    destruct (Z.eqb_spec (memcmp a b) 0) as [E|E]; cbn [negb]; [|done].
    by apply memcmp_eq in E.
Qed.

Lemma comps_dotdots n s : comps (dotdots n ++ s) = replicate n [46; 46] ++ comps s.
Proof.
  induction n as [|n IH]; [done|]. change (dotdots (S n)) with ([46; 46] ++ 47 :: dotdots n).
  rewrite <- (assoc_L (++)). cbn [app].
  change (46 :: 46 :: 47 :: dotdots n ++ s) with ([46; 46] ++ 47 :: dotdots n ++ s).
  rewrite comps_name; [|apply name_dotdot|right; by eexists]. by rewrite comps_slash, IH.
Qed.

Lemma dotdots_relative n : dotdots (S n) = relative (replicate (S n) [46; 46]) ++ [47].
Proof.
  induction n as [|n IH]; [done|]. change (dotdots (S (S n))) with ([46; 46; 47] ++ dotdots (S n)).
  by rewrite IH.
Qed.

Lemma length_dotdots n : length (dotdots n) = (3 * n)%nat.
Proof. induction n as [|n IH]; [done|]. change (dotdots (S n)) with ([46; 46; 47] ++ dotdots n). rewrite length_app, IH. simpl. lia. Qed.

(** The length of a canonical text bounds the number of components. *)
Lemma slashed_length l : (length l ≤ length (slashed l))%nat.
Proof.
  induction l as [|a l IH]; [done|]. unfold slashed in *. rewrite bind_cons.
  cbn [app length]. rewrite length_app. lia.
Qed.

Lemma relative_length l : Forall name l → (length l ≤ length (relative l))%nat.
Proof.
  intros Hl. destruct l as [|a l]; [done|]. apply Forall_cons in Hl as [[Hne _] _].
  pose proof (slashed_length l). cbn [relative length]. rewrite length_app.
  destruct a; [done|]. cbn [length]. lia.
Qed.

(** What a relative path of [..] components and names leads to. *)
Lemma resolve_relative C F T : [46] ∉ F → [46; 46] ∉ F →
  resolve (resolve [] (C ++ F)) (replicate (length F) [46; 46] ++ T) = resolve [] (C ++ T).
Proof.
  intros H1 H2. rewrite !resolve_app, (resolve_names F) by done.
  by rewrite <- (length_rev F), resolve_up.
Qed.

Lemma relative_is_relative l : Forall name l → path_is_absolute (relative l) = false.
Proof.
  intros Hl. destruct l as [|[|c a] l]; [done|by apply Forall_cons in Hl as [[? _] _]|].
  apply Forall_cons in Hl as [[_ Ha] _]. apply not_elem_of_cons in Ha as [? _]. by apply Z.eqb_neq.
Qed.

Lemma skip_slash_canon l : Forall name l → skip_slash (canon true l) = relative l.
Proof. done. Qed.

(** What the two loops leave to do. *)
Lemma make_relative_up F T : Forall name F → Forall name T → Forall cstring F → Forall cstring T →
  F ≠ [] → Z.of_nat (length F) < 2 ^ 30 → [46; 46] ∉ F →
  let p := dotdots (Z.to_nat (Z.of_nat (length F))) in
  let size := wrapu 32 (Z.of_nat (length F) * 3) + Z.of_nat (length (relative T)) + 1 in
  ∃ r, (if char0 (relative T) =? 0 then
          if (length p =? 0)%nat || (size <? Z.of_nat (length p)) then None
          else Some (inr (take (length p - 1) p))
        else inr <$> filled size (p ++ relative T)) = Some (inr r : Z + list Z) ∧
    path_is_absolute r = false ∧ comps r = replicate (length F) [46; 46] ++ T.
Proof.
  intros HN HM HC HD Hne Hb Hdd p size. subst p size. rewrite Nat2Z.id, relative_char0 by done.
  pose proof (length_dotdots (length F)) as Hl. rewrite wrapu_small by lia.
  destruct (length F) as [|n] eqn:En; [by destruct F|].
  case_bool_decide as HT.
  - subst T. destruct (Nat.eqb_spec (length (dotdots (S n))) 0); [lia|]. cbn [orb relative length].
    destruct (Z.ltb_spec (Z.of_nat (S n) * 3 + Z.of_nat 0 + 1) (Z.of_nat (length (dotdots (S n))))); [lia|].
    eexists. split; [done|].
    assert (length (relative (replicate (S n) [46; 46]%Z)) = length (dotdots (S n)) - 1)%nat as <-.
    { rewrite dotdots_relative, length_app. cbn [length]. lia. }
    rewrite dotdots_relative, take_app_length.
    assert (Forall name (replicate (S n) [46; 46])) as Hr by (apply Forall_replicate, name_dotdot).
    split; [by apply relative_is_relative|]. rewrite comps_relative by done. by rewrite app_nil_r.
  - rewrite filled_fits by (rewrite length_app, Hl; lia). eexists. split; [done|].
    split; [done|]. by rewrite comps_dotdots, comps_relative.
Qed.

(** [path_make_relative] terminates within its buffer on all paths. The path it
    returns is relative, and from the directory it was asked for it leads where
    the target does, [.] and [..] being followed lexically. It fails only with
    -EINVAL, and only when one of the paths is not absolute or the directory
    contains [..]. *)
Theorem path_make_relative_correct from_dir to_path :
  cstring from_dir → cstring to_path → Z.of_nat (length from_dir) < 2 ^ 30 → ∃ r,
  path_make_relative false from_dir to_path = Some r ∧
  match r with
  | inr r => path_is_absolute from_dir = true ∧ path_is_absolute to_path = true ∧
      path_is_absolute r = false ∧
      resolve (resolve [] (comps from_dir)) (comps r) = resolve [] (comps to_path)
  | inl e => e = - EINVAL ∧ (path_is_absolute from_dir = false ∨ path_is_absolute to_path = false ∨
      [46; 46] ∈ comps from_dir)
  end.
Proof.
  intros Hf Ht Hb. unfold path_make_relative.
  destruct (path_is_absolute from_dir) eqn:Af; cbn [negb orb]; [|eexists; by split; [done|]; split; [done|left]].
  destruct (path_is_absolute to_path) eqn:At; cbn [negb orb].
  2: { eexists. split; [done|]. split; [done|]. by right; left. }
  assert (from_dir ≠ [] ∧ to_path ≠ []) as [Hf0 Ht0] by (split; intros ->; done).
  pose proof (path_simplify_canon _ true Hf Hf0) as E1.
  pose proof (path_simplify_length _ _ _ Hf0 E1) as Hl1. rewrite Af in *.
  pose proof (path_simplify_canon _ true Ht Ht0) as E2. rewrite At in *.
  rewrite E1, E2. cbn [mbind option_bind].
  set (F := keep true (comps from_dir)) in *. set (T := keep true (comps to_path)) in *.
  assert (Forall name F ∧ Forall name T) as [HN HM] by (split; apply keep_Forall, comps_names).
  assert (Forall cstring F ∧ Forall cstring T) as [HC HD] by (split; by apply keep_Forall, comps_cstring).
  pose proof (relative_length F HN) as HlF. cbn [canon length] in Hl1.
  destruct (common_loop_spec (S (length (canon true F))) (canon true F) (canon true T) F T)
    as (C & F' & T' & EF & ET & ->); [by apply skip_slash_canon..|done|done|done|done|cbn [canon length]; lia|].
  cbn [mbind option_bind].
  assert (resolve [] (comps from_dir) = resolve [] (C ++ F')) as RF by (rewrite <- EF; symmetry; apply resolve_keep).
  assert (resolve [] (comps to_path) = resolve [] (C ++ T')) as RT by (rewrite <- ET; symmetry; apply resolve_keep).
  rewrite RF, RT. rewrite EF in HN, HC, HlF, Hl1. rewrite ET in HM, HD. rewrite length_app in HlF.
  apply Forall_app in HN as [_ HN], HM as [_ HM], HC as [_ HC], HD as [_ HD].
  destruct F' as [|a F'].
  { destruct T' as [|b T']; eexists; (split; [done|]); (split; [done|]); (split; [done|]).
    - by rewrite app_nil_r.
    - split; [by apply relative_is_relative|]. rewrite comps_relative by done.
      by rewrite app_nil_r, resolve_app. }
  rewrite parents_loop_spec by (done || lia). cbn [mbind option_bind].
  case_bool_decide as Hdd.
  { eexists. split; [done|]. split; [done|]. right; right.
    assert ([46; 46] ∈ F) as Hin by (rewrite EF; apply elem_of_app; by right).
    by apply list_elem_of_filter in Hin as [_ ?]. }
  rewrite Z.add_0_l.
  destruct (make_relative_up (a :: F') T') as (r & -> & Hr & Hc); [done..|lia|done|].
  eexists. split; [done|]. do 3 (split; [done|]). rewrite Hc. apply resolve_relative; [|done].
  intros Hin. assert ([46] ∈ F) as Hin' by (rewrite EF; apply elem_of_app; by right).
  by apply list_elem_of_filter in Hin' as [? _].
Qed.

Lemma path_make_relative_correct_witness : ∃ r,
  path_make_relative false (bytes_of "/a/./b") (bytes_of "/a//c/d") = Some (inr r) ∧
  resolve (resolve [] (comps (bytes_of "/a/./b"))) (comps r) = resolve [] (comps (bytes_of "/a//c/d")).
Proof.
  destruct (path_make_relative_correct (bytes_of "/a/./b") (bytes_of "/a//c/d")) as (r & E & H);
    [apply (bool_decide_unpack _); by vm_compute..|by vm_compute|].
  pose proof E as E'. vm_compute in E'. injection E' as <-. eexists. split; [exact E|]. apply H.
Defined.

(** ** The last component *)

Lemma last_in_app (a k : list Z) x : last (a ++ k) = Some x → k ≠ [] → x ∈ k.
Proof.
  intros Hl Hk. rewrite last_app in Hl. destruct (last k) eqn:E; [|by apply last_None in E].
  injection Hl as ->. apply last_Some in E as [l ->]. apply elem_of_app. right. by left.
Qed.

Lemma delete_trailing_app a b bad : cstring (a ++ b) → Forall (.∈ bad) b →
  (∀ x, last a = Some x → x ∉ bad) → delete_trailing_chars (a ++ b) bad = a.
Proof.
  intros Hs Hb Ha. destruct (delete_trailing_spec (a ++ b) bad Hs) as (b' & E & Hb' & Hl).
  set (d := delete_trailing_chars (a ++ b) bad) in *.
  destruct (app_eq_inv _ _ _ _ E) as [(k & Ea & Eb)|(k & Ed & Eb)].
  - destruct k as [|x k]; [by rewrite app_nil_r in Ea|]. exfalso.
    assert (∃ y, last a = Some y) as [y Hy].
    { destruct (last a) eqn:El; [by eexists|]. apply last_None in El as ->. by destruct d. }
    apply (Ha y Hy). rewrite Ea in Hy. apply last_in_app in Hy; [|done].
    rewrite Eb in Hb'. apply Forall_app in Hb' as [Hk _]. by eapply Forall_forall in Hk.
  - destruct k as [|x k]; [by rewrite app_nil_r in Ed|]. exfalso.
    destruct (last d) as [y|] eqn:El; [|apply last_None in El; rewrite El in Ed; by destruct a].
    apply Hl. rewrite Ed in El. apply last_in_app in El; [|done].
    rewrite Eb in Hb. apply Forall_app in Hb as [Hk _]. by eapply Forall_forall in Hk.
Qed.

Lemma back_while_app P x y z : Forall (λ c, P c = true) y → (∀ c, last x = Some c → P c = false) →
  back_while P (x ++ y ++ z) (length (x ++ y)) = Some (length x).
Proof.
  intros Hy Hx. revert z. induction y as [|c y IH] using rev_ind; intros z.
  - rewrite app_nil_r. cbn [app]. destruct x as [|c x _] using rev_ind; [done|].
    rewrite length_app. cbn [length]. replace (length x + 1)%nat with (S (length x)) by lia.
    cbn [back_while]. rewrite <- (assoc_L (++)). cbn [app]. rewrite list_lookup_middle by done. cbn [mbind option_bind].
    by rewrite (Hx c) by (by rewrite last_snoc).
  - apply Forall_app in Hy as [Hy Hc]. apply Forall_cons in Hc as [Hc _].
    rewrite !(assoc_L (++)), length_app. cbn [length].
    replace (length (x ++ y) + 1)%nat with (S (length (x ++ y))) by lia. cbn [back_while].
    rewrite <- (assoc_L (++) (x ++ y)). cbn [app]. rewrite list_lookup_middle by done. cbn [mbind option_bind].
    rewrite Hc, <- (assoc_L (++)). by apply IH.
Qed.

Definition slashes (s : list Z) : Prop := Forall (λ c, is_slash c = true) s.

Lemma slashes_comps s : slashes s → comps s = [].
Proof. induction 1 as [|c s Hc _ IH]; [done|]. apply Z.eqb_eq in Hc as ->. by rewrite comps_slash. Qed.

(** A path is all slashes, or ends in a component and slashes. *)
Lemma last_view p : slashes p ∨ ∃ q a sl, p = q ++ a ++ sl ∧ name a ∧ slashes sl ∧
  (q = [] ∨ ∃ q', q = q' ++ [47]).
Proof.
  induction p as [|s IH|a b Ha Hb IH] using path_ind; [by left; constructor| |].
  - destruct IH as [Hs|(q & a & sl & -> & Ha & Hs & Hq)]; [left; by apply Forall_cons|].
    right. exists (47 :: q), a, sl. do 3 (split; [done|]). right.
    destruct Hq as [->|(q' & ->)]; [by exists []|by exists (47 :: q')].
  - right. destruct IH as [Hs|(q & a' & sl & -> & Ha' & Hs & Hq)].
    + exists [], a, b. do 3 (split; [done|]). by left.
    + exists (a ++ q), a', sl. rewrite <- (assoc_L (++)). do 3 (split; [done|]). right.
      destruct Hq as [->|(q' & ->)]; [|exists (a ++ q'); by rewrite (assoc_L (++))].
      destruct Ha' as [Hne Ha']. destruct a' as [|c a']; [done|].
      destruct Hb as [?|(b' & [= -> _])]; [done|]. by apply not_elem_of_cons in Ha' as [? _].
Qed.

Lemma slashes_boundary s : slashes s → boundary s.
Proof. intros [|c s' Hc _]; [by left|]. apply Z.eqb_eq in Hc as ->. right. by eexists. Qed.

Lemma last_path_component_spec p q a sl : Z.of_nat (length p) < 2 ^ 32 →
  p = q ++ a ++ sl → name a → slashes sl → (q = [] ∨ ∃ q', q = q' ++ [47]) →
  last_path_component p = Some (a ++ sl).
Proof.
  intros Hl -> Ha Hs Hq. unfold last_path_component. rewrite wrapu_small by lia. rewrite Nat2Z.id.
  assert (length a ≠ 0)%nat by (destruct Ha as [? _]; by destruct a).
  destruct (Nat.eqb_spec (length (q ++ a ++ sl)) 0) as [E|_]; [rewrite !length_app in E; lia|].
  pose proof (back_while_app is_slash (q ++ a) sl [] Hs) as E. rewrite app_nil_r, <- !(assoc_L (++)) in E.
  rewrite E.
  2: { intros c Hc. apply last_in_app in Hc; [|by destruct a]. destruct Ha as [_ Ha].
       apply Z.eqb_neq. by intros ->. }
  cbn [mbind option_bind].
  destruct (Nat.eqb_spec (length (q ++ a)) 0) as [E'|_]; [rewrite length_app in E'; lia|].
  rewrite back_while_app.
  - cbn [mbind option_bind]. by rewrite drop_app_length.
  - apply Forall_forall. intros c Hc. destruct Ha as [_ Ha]. apply negb_true_iff, Z.eqb_neq. by intros ->.
  - intros c Hc. destruct Hq as [->|(q' & ->)]; [done|]. rewrite last_snoc in Hc. by injection Hc as <-.
Qed.

Lemma last_path_component_root p : Z.of_nat (length p) < 2 ^ 32 → slashes p →
  ∃ c, last_path_component p = Some c ∧ slashes c.
Proof.
  intros Hl Hs. unfold last_path_component. rewrite wrapu_small by lia. rewrite Nat2Z.id.
  destruct (Nat.eqb_spec (length p) 0); [by eexists|].
  pose proof (back_while_app is_slash [] p [] Hs) as E. rewrite app_nil_r in E. cbn [app length] in E.
  rewrite E by done. cbn [mbind option_bind Nat.eqb]. eexists. split; [done|]. by apply Forall_drop.
Qed.

(** [path_extract_filename] gives the last component of the path without its
    slashes, whatever the number of slashes before and after it, when that is a
    valid file name, and -EINVAL when there is none or it is not valid; it never
    reads outside the path. *)
Theorem path_extract_filename_correct p : cstring p → Z.of_nat (length p) < 2 ^ 32 →
  path_extract_filename false (Some p) = Some (match last (comps p) with
    | Some a => if filename_is_valid a then inr a else inl (- EINVAL)
    | None => inl (- EINVAL)
    end).
Proof.
  intros Hs Hl. cbn [path_extract_filename]. destruct (last_view p) as [Hp|(q & a & sl & E & Ha & Hsl & Hq)].
  - destruct (last_path_component_root p Hl Hp) as (c & -> & Hc). cbn [mbind option_bind].
    assert (delete_trailing_chars c slash = []) as ->.
    { apply (delete_trailing_app [] c); [| |done]; (eapply Forall_impl; [exact Hc|]);
        intros x ->%Z.eqb_eq; [lia|by left]. }
    by rewrite slashes_comps.
  - rewrite (last_path_component_spec p q a sl) by done. cbn [mbind option_bind].
    assert (last (comps p) = Some a) as ->.
    { rewrite E, comps_app by (by left). rewrite comps_name by (done || by apply slashes_boundary).
      by rewrite (slashes_comps sl), last_snoc. }
    rewrite delete_trailing_app.
    + destruct a as [|x a]; [by destruct Ha|]. by destruct (filename_is_valid (x :: a)).
    + rewrite E in Hs. by apply Forall_app in Hs as [_ ?].
    + eapply Forall_impl; [exact Hsl|]. intros x ->%Z.eqb_eq. by left.
    + intros x Hx. apply last_Some in Hx as [l ->]. destruct Ha as [_ Ha].
      unfold slash. intros ->%list_elem_of_singleton. apply Ha, elem_of_app. right. by left.
Qed.

Lemma path_extract_filename_correct_witness :
  path_extract_filename false (Some (bytes_of "/foo//bar//")) = Some (inr (bytes_of "bar")).
Proof.
  rewrite (path_extract_filename_correct (bytes_of "/foo//bar//"));
    [by vm_compute|apply (bool_decide_unpack _); by vm_compute|by vm_compute].
Defined.
