(* ===== verification/UnitName.v ===== *)
(** * systemd: unit names

    Models [src/app/multi_process/day1/systemd/src/basic/unit-name.c], all of it
    but the log messages of the mangling, and the table of unit types of
    [unit-def.c]. Strings, [oom] and the outer [None] are as in [StringUtil]
    and [Escape]; [inl] is a negative error number. *)

From Stdlib Require Import String.
From S2P Require Import Prelude Hexdecoct Utf8 Utf8Props Escape StringUtil PathUtil.

#[local] Open Scope Z_scope.

(** ** Unit types *)

Inductive UnitType :=
  | UNIT_SERVICE | UNIT_MOUNT | UNIT_SWAP | UNIT_SOCKET | UNIT_TARGET | UNIT_DEVICE
  | UNIT_AUTOMOUNT | UNIT_TIMER | UNIT_PATH | UNIT_SLICE | UNIT_SCOPE.

#[global] Instance UnitType_eq_dec : EqDecision UnitType.
Proof. solve_decision. Defined.

Definition unit_type_to_string (t : UnitType) : list Z :=
  bytes_of (match t with
    | UNIT_SERVICE => "service" | UNIT_SOCKET => "socket" | UNIT_TARGET => "target"
    | UNIT_DEVICE => "device" | UNIT_MOUNT => "mount" | UNIT_AUTOMOUNT => "automount"
    | UNIT_SWAP => "swap" | UNIT_TIMER => "timer" | UNIT_PATH => "path"
    | UNIT_SLICE => "slice" | UNIT_SCOPE => "scope" end)%string.

(** In the order of the enumeration, which [string_table_lookup] goes through. *)
Definition unit_types : list UnitType :=
  [UNIT_SERVICE; UNIT_MOUNT; UNIT_SWAP; UNIT_SOCKET; UNIT_TARGET; UNIT_DEVICE; UNIT_AUTOMOUNT;
   UNIT_TIMER; UNIT_PATH; UNIT_SLICE; UNIT_SCOPE].

(** [None] is [_UNIT_TYPE_INVALID]. *)
Definition unit_type_from_string (s : list Z) : option UnitType :=
  snd <$> list_find (λ t, unit_type_to_string t = s) unit_types.

Definition type_valid (s : list Z) : bool :=
  match unit_type_from_string s with Some _ => true | None => false end.

(** ** Validity *)

Definition DIGITS : list Z := bytes_of "0123456789".
Definition LETTERS : list Z := bytes_of "abcdefghijklmnopqrstuvwxyzABCDEFGHIJKLMNOPQRSTUVWXYZ".
Definition VALID_CHARS : list Z := DIGITS ++ LETTERS ++ bytes_of ":-_.\".
Definition VALID_CHARS_WITH_AT : list Z := 64 :: VALID_CHARS.
Definition VALID_CHARS_GLOB : list Z := VALID_CHARS_WITH_AT ++ bytes_of "[]!-*?".

Definition UNIT_NAME_MAX : Z := 256.

(** The bits of [UnitNameFlags]. *)
Record UnitNameFlags := Flags { PLAIN : bool; TEMPLATE : bool; INSTANCE : bool }.
Definition UNIT_NAME_ANY : UnitNameFlags := Flags true true true.

(** The loop over the characters before the last dot: the first [@] is at [at].
    [None] is [return false]. *)
Fixpoint valid_name_loop (s : list Z) (i : nat) (at_ : option nat) : option (option nat) :=
  match s with
  | [] => Some at_
  | c :: s =>
      let at_ := match at_ with None => if c =? 64 then Some i else None | _ => at_ end in
      if negb (strchr VALID_CHARS_WITH_AT c) then None else valid_name_loop s (S i) at_
  end.

Definition unit_name_is_valid (n : list Z) (flags : UnitNameFlags) : bool :=
  if negb (PLAIN flags || TEMPLATE flags || INSTANCE flags) then false
  else match n with
  | [] => false
  | _ =>
    if UNIT_NAME_MAX <=? Z.of_nat (length n) then false
    else match strrchr_split n 46 with
    | None => false
    | Some ([], _) => false
    | Some (before, e) =>
      if negb (type_valid (drop 1 e)) then false
      else match valid_name_loop before 0 None with
      | None => false
      | Some (Some O) => false
      | Some at_ =>
        let pos := length before in
        match at_ with
        | None => PLAIN flags
        | Some at_ =>
            if INSTANCE flags && (S at_ <? pos)%nat then true
            else if TEMPLATE flags && (pos =? S at_)%nat then true
            else false
        end
      end
    end
  end.

Definition unit_prefix_is_valid (p : list Z) : bool :=
  match p with [] => false | _ => in_charset p VALID_CHARS end.

Definition unit_instance_is_valid (i : list Z) : bool :=
  match i with [] => false | _ => in_charset i VALID_CHARS_WITH_AT end.

Definition unit_suffix_is_valid (s : list Z) : bool :=
  match s with
  | [] => false
  | c :: s => if negb (c =? 46) then false else type_valid s
  end.

(** ** Taking names apart *)

(** A fresh copy of [s], as a result of a function that returns an [int]. *)
Definition dup (oom : bool) (s : list Z) : Z + list Z := if oom then inl (- ENOMEM) else inr s.

Definition unit_name_to_prefix (oom : bool) (n : list Z) : option (Z + list Z) :=
  if negb (unit_name_is_valid n UNIT_NAME_ANY) then Some (inl (- EINVAL))
  else
    '(p, _) ← match strchr_split n 64 with None => strrchr_split n 46 | r => r end;
    Some (dup oom p).

Inductive NameKind := Plain | Template | Instance_.

(** The kind, and [*ret], which is NULL for a plain name. *)
Definition unit_name_to_instance (oom : bool) (n : list Z) : Z + NameKind * option (list Z) :=
  if negb (unit_name_is_valid n UNIT_NAME_ANY) then inl (- EINVAL)
  else match strchr_split n 64 with
  | None => inr (Plain, None)
  | Some (_, p) =>
    let p := drop 1 p in
    match strrchr_split p 46 with
    | None => inl (- EINVAL)
    | Some (i, _) =>
        if oom then inl (- ENOMEM)
        else inr (match i with [] => Template | _ => Instance_ end, Some i)
    end
  end.

Definition unit_name_to_prefix_and_instance (oom : bool) (n : list Z) : Z + list Z :=
  if negb (unit_name_is_valid n UNIT_NAME_ANY) then inl (- EINVAL)
  else match strrchr_split n 46 with
  | None => inl (- EINVAL)
  | Some (s, _) => dup oom s
  end.

(** The inner [None] is [_UNIT_TYPE_INVALID]. *)
Definition unit_name_to_type (n : list Z) : option (option UnitType) :=
  if negb (unit_name_is_valid n UNIT_NAME_ANY) then Some None
  else '(_, e) ← strrchr_split n 46; Some (unit_type_from_string (drop 1 e)).

(** ** Putting names together *)

(** What [new_string] makes, for a function that returns an [int]. *)
Definition alloc (oom : bool) (size : Z) (out : list Z) : option (Z + list Z) :=
  r ← new_string oom size out;
  Some (match r with None => inl (- ENOMEM) | Some s => inr s end).
Definition join (oom : bool) (args : list (list Z)) : option (Z + list Z) :=
  r ← strjoin oom args;
  Some (match r with None => inl (- ENOMEM) | Some s => inr s end).

Definition unit_name_change_suffix (oom : bool) (n suffix : list Z) : option (Z + list Z) :=
  if negb (unit_name_is_valid n UNIT_NAME_ANY) then Some (inl (- EINVAL))
  else if negb (unit_suffix_is_valid suffix) then Some (inl (- EINVAL))
  else
    '(before, _) ← strrchr_split n 46;
    alloc oom (Z.of_nat (length before) + Z.of_nat (length suffix) + 1) (before ++ suffix).

Definition unit_name_build_from_type (oom : bool) (prefix : list Z) (instance : option (list Z))
    (type : UnitType) : option (Z + list Z) :=
  if negb (unit_prefix_is_valid prefix) then Some (inl (- EINVAL))
  else if match instance with Some i => negb (unit_instance_is_valid i) | None => false end then
    Some (inl (- EINVAL))
  else
    let ut := unit_type_to_string type in
    match instance with
    | None => join oom [prefix; [46]; ut]
    | Some i => join oom [prefix; [64]; i; [46]; ut]
    end.

Definition unit_name_build (oom : bool) (prefix : list Z) (instance : option (list Z)) (suffix : list Z) :
    option (Z + list Z) :=
  if negb (char0 suffix =? 46) then Some (inl (- EINVAL))
  else match unit_type_from_string (drop 1 suffix) with
  | None => Some (inl (- EINVAL))
  | Some type => unit_name_build_from_type oom prefix instance type
  end.

Definition unit_name_replace_instance (oom : bool) (f i : list Z) : option (Z + list Z) :=
  if negb (unit_name_is_valid f (Flags false true true)) then Some (inl (- EINVAL))
  else if negb (unit_instance_is_valid i) then Some (inl (- EINVAL))
  else
    '(p, _) ← strchr_split f 64;
    '(_, e) ← strrchr_split f 46;
    alloc oom (Z.of_nat (length p) + 1 + Z.of_nat (length i) + Z.of_nat (length e) + 1)
      (take (length p + 1) f ++ i ++ e).

Definition unit_name_template (oom : bool) (f : list Z) : option (Z + list Z) :=
  if negb (unit_name_is_valid f (Flags false true true)) then Some (inl (- EINVAL))
  else
    '(p, _) ← strchr_split f 64;
    '(_, e) ← strrchr_split f 46;
    alloc oom (Z.of_nat (length p) + 1 + Z.of_nat (length e) + 1) (take (length p + 1) f ++ e).

(** ** Escaping *)

(** [c >> 4] keeps the sign of the [char], which the mask of [hexchar] drops. *)
Definition do_escape_char (c : Z) : list Z :=
  let c := wraps 8 c in [92; 120; hexchar (Z.shiftr c 4); hexchar c].

Definition escape_name_char (c : Z) : list Z :=
  if c =? 47 then [45]
  else if (c =? 45) || (c =? 92) || negb (strchr VALID_CHARS c) then do_escape_char c
  else [c].

Definition do_escape (f : list Z) : list Z :=
  match f with
  | c :: f' => if c =? 46 then do_escape_char c ++ (f' ≫= escape_name_char) else f ≫= escape_name_char
  | [] => []
  end.

Definition unit_name_escape (oom : bool) (f : list Z) : option (option (list Z)) :=
  new_string oom (Z.of_nat (length f) * 4 + 1) (do_escape f).

(** The loop of [unit_name_unescape]. Where the string ends within a sequence,
    the NUL read there is not what is expected. *)
Fixpoint unescape_loop (f : list Z) : Z + list Z :=
  let put c r := match r with inl e => inl e | inr out => inr (c :: out) end in
  match f with
  | [] => inr []
  | c :: f' =>
      if c =? 45 then put 47 (unescape_loop f')
      else if c =? 92 then
        match f' with
        | c1 :: c2 :: c3 :: f'' =>
            if negb (c1 =? 120) then inl (- EINVAL)
            else
              let a := unhexchar c2 in
              if a <? 0 then inl (- EINVAL)
              else
                let b := unhexchar c3 in
                if b <? 0 then inl (- EINVAL)
                else put (u8 (Z.lor (u8 (Z.shiftl (u8 a) 4)) (u8 b))) (unescape_loop f'')
        | _ => inl (- EINVAL)
        end
      else put c (unescape_loop f')
  end.

(** A string as its users see it: up to the first NUL. *)
Definition c_str (s : list Z) : list Z := take (span (λ c, negb (c =? 0)) s) s.

Definition unit_name_unescape (oom : bool) (f : list Z) : option (Z + list Z) :=
  if oom then Some (inl (- ENOMEM))
  else match unescape_loop f with
  | inl e => Some (inl e)
  | inr out => r ← filled (Z.of_nat (length f) + 1) out; Some (inr (c_str r))
  end.

Definition unit_name_path_escape (oom : bool) (f : list Z) : option (Z + list Z) :=
  p ← path_simplify f false;
  if empty_or_root p then Some (dup oom [45])
  else if negb (path_is_normalized p) then Some (inl (- EINVAL))
  else
    let p := delete_trailing_chars p slash in
    let p := skip_leading_chars p slash in
    r ← unit_name_escape oom p;
    Some (match r with None => inl (- ENOMEM) | Some s => inr s end).

Definition unit_name_path_unescape (oom : bool) (f : list Z) : option (Z + list Z) :=
  match f with
  | [] => Some (inl (- EINVAL))
  | _ =>
      if streq f [45] then Some (dup oom [47])
      else
        w ← unit_name_unescape oom f;
        match w with
        | inl r => Some (inl r)
        | inr w =>
            if starts w slash || ends w slash then Some (inl (- EINVAL))
            else
              s ← join oom [[47]; w];
              match s with
              | inl r => Some (inl r)
              | inr s => if negb (path_is_normalized s) then Some (inl (- EINVAL)) else Some (inr s)
              end
        end
  end.

Definition unit_name_from_path (oom : bool) (path suffix : list Z) : option (Z + list Z) :=
  if negb (unit_suffix_is_valid suffix) then Some (inl (- EINVAL))
  else
    p ← unit_name_path_escape oom path;
    match p with
    | inl r => Some (inl r)
    | inr p => join oom [p; suffix]
    end.

Definition unit_name_from_path_instance (oom : bool) (prefix path suffix : list Z) : option (Z + list Z) :=
  if negb (unit_prefix_is_valid prefix) then Some (inl (- EINVAL))
  else if negb (unit_suffix_is_valid suffix) then Some (inl (- EINVAL))
  else
    p ← unit_name_path_escape oom path;
    match p with
    | inl r => Some (inl r)
    | inr p => join oom [prefix; [64]; p; suffix]
    end.

Definition unit_name_to_path (oom : bool) (name : list Z) : option (Z + list Z) :=
  r ← unit_name_to_prefix oom name;
  match r with
  | inl r => Some (inl r)
  | inr prefix => unit_name_path_unescape oom prefix
  end.

(** ** Mangling *)

Definition mangle_char (valid_chars : list Z) (c : Z) : list Z :=
  if c =? 47 then [45]
  else if negb (strchr valid_chars c) then do_escape_char c
  else [c].

Definition do_escape_mangle (f : list Z) (allow_globs : bool) : list Z :=
  f ≫= mangle_char (if allow_globs then VALID_CHARS_GLOB else VALID_CHARS_WITH_AT).

(** [strpbrk(p, GLOB_CHARS)] finds something. *)
Definition string_is_glob (p : list Z) : bool := existsb (λ c, bool_decide (c ∈ GLOB_CHARS)) p.

(** The two calls of [unit_name_from_path]: a result, or nothing when it gave -EINVAL. *)
Definition mangle_path (oom : bool) (name suffix : list Z) : option (option (Z + list Z)) :=
  r ← unit_name_from_path oom name suffix;
  Some (match r with
        | inr s => Some (inr s)
        | inl e => if negb (e =? - EINVAL) then Some (inl e) else None
        end).

(** The returned number says whether the name was mangled. *)
Definition unit_name_mangle_with_suffix (oom : bool) (name : list Z) (glob : bool) (suffix : list Z) :
    option (Z + (Z * list Z)) :=
  let good := Some (if oom then inl (- ENOMEM) else inr (0, name)) in
  let result (s : Z + list Z) := Some (match s with inl r => inl r | inr s => inr (1, s) end) in
  match name with
  | [] => Some (inl (- EINVAL))
  | _ =>
    if negb (unit_suffix_is_valid suffix) then Some (inl (- EINVAL))
    else if unit_name_is_valid name UNIT_NAME_ANY then good
    else if string_is_glob name && in_charset name VALID_CHARS_GLOB && glob then good
    else
      device ← is_device_path name;
      r ← (if device : bool then mangle_path oom name (bytes_of ".device") else Some None);
      match r with
      | Some r => result r
      | None =>
        r ← (if path_is_absolute name then mangle_path oom name (bytes_of ".mount") else Some None);
        match r with
        | Some r => result r
        | None =>
            let s := do_escape_mangle name glob in
            let size := Z.of_nat (length name) * 4 + Z.of_nat (length suffix) + 1 in
            if oom then Some (inl (- ENOMEM))
            else
              s ← filled size s;
              type ← unit_name_to_type s;
              let append := (negb glob || negb (string_is_glob s)) &&
                            match type with None => true | Some _ => false end in
              s ← filled size (if append then s ++ suffix else s);
              Some (inr (1, s))
        end
      end
  end.

(** ** Slices *)

Definition SPECIAL_ROOT_SLICE : list Z := bytes_of "-.slice".
Definition dot_slice : list Z := bytes_of ".slice".

(** The loop over the characters before the suffix: no dash first, none after a
    dash; the result is the last [dash]. *)
Fixpoint slice_loop (s : list Z) (first dash : bool) : option bool :=
  match s with
  | [] => Some dash
  | c :: s =>
      if c =? 45 then if first || dash then None else slice_loop s false true
      else slice_loop s false false
  end.

Definition slice_name_is_valid (name : list Z) : bool :=
  if negb (unit_name_is_valid name (Flags true false false)) then false
  else if streq name SPECIAL_ROOT_SLICE then true
  else match endswith name dot_slice with
  | None => false
  | Some p =>
      match slice_loop p true false with
      | None => false
      | Some dash => negb dash
      end
  end.

(** [inr None] is the NULL for the root slice. *)
Definition slice_build_parent_slice (oom : bool) (slice : list Z) : option (Z + option (list Z)) :=
  if negb (slice_name_is_valid slice) then Some (inl (- EINVAL))
  else if streq slice SPECIAL_ROOT_SLICE then Some (inr None)
  else if oom then Some (inl (- ENOMEM))
  else match strrchr_split slice 45 with
  | Some (before, _) =>
      s ← filled (Z.of_nat (length slice) + 1) (before ++ dot_slice);
      Some (inr (Some s))
  | None => Some (inr (Some SPECIAL_ROOT_SLICE))
  end.

Definition slice_build_subslice (oom : bool) (slice name : list Z) : option (Z + list Z) :=
  if negb (slice_name_is_valid slice) then Some (inl (- EINVAL))
  else if negb (unit_prefix_is_valid name) then Some (inl (- EINVAL))
  else if streq slice SPECIAL_ROOT_SLICE then join oom [name; dot_slice]
  else
    e ← endswith slice dot_slice;
    alloc oom (Z.of_nat (length e) + 1 + Z.of_nat (length name) + 6 + 1) (e ++ [45] ++ name ++ dot_slice).

(** Some of the results the project's own tests expect. *)
Example unit_name_tests :
  unit_name_is_valid (bytes_of "foo.service") UNIT_NAME_ANY = true ∧
  unit_name_is_valid (bytes_of "foo@.service") (Flags false true false) = true ∧
  unit_name_is_valid (bytes_of "@.service") UNIT_NAME_ANY = false ∧
  unit_name_is_valid (bytes_of "foo.waldo") UNIT_NAME_ANY = false ∧
  unit_name_from_path false (bytes_of "/waldo/quuix") (bytes_of ".mount") = Some (inr (bytes_of "waldo-quuix.mount")) ∧
  unit_name_from_path false (bytes_of "/") (bytes_of ".mount") = Some (inr (bytes_of "-.mount")) ∧
  unit_name_to_path false (bytes_of "home-foo.mount") = Some (inr (bytes_of "/home/foo")) ∧
  unit_name_mangle_with_suffix false (bytes_of "/home") false (bytes_of ".service") = Some (inr (1, bytes_of "home.mount")) ∧
  unit_name_mangle_with_suffix false (bytes_of "foo@bar") false (bytes_of ".service") = Some (inr (1, bytes_of "foo@bar.service")) ∧
  unit_name_mangle_with_suffix false (bytes_of "foo.*") true (bytes_of ".service") = Some (inr (0, bytes_of "foo.*")) ∧
  slice_build_parent_slice false (bytes_of "foo-bar.slice") = Some (inr (Some (bytes_of "foo.slice"))) ∧
  slice_build_parent_slice false (bytes_of "foo.slice") = Some (inr (Some (bytes_of "-.slice"))) ∧
  slice_build_parent_slice false (bytes_of "-.slice") = Some (inr None) ∧
  slice_build_subslice false (bytes_of "foo.slice") (bytes_of "bar") = Some (inr (bytes_of "foo-bar.slice")).
Proof. by vm_compute. Qed.
