(* ===== verification/UnitNameProps.v ===== *)
(** * systemd: properties of unit names

    Valid names are exactly those made of a prefix, perhaps an instance, and a
    type, and the functions that take names apart and put them together are
    inverse to each other; escaping is undone by unescaping, for strings and for
    paths; mangling makes valid names; slices form a tree. *)

From Stdlib Require Import String.
From S2P Require Import Prelude Hexdecoct HexdecoctProps Utf8 Utf8Props Escape EscapeProps StringUtil PathUtil PathUtilProps UnitName.

#[local] Open Scope Z_scope.
#[local] Set Warnings "-clear-no-such-hyp".

(** ** Characters and types *)

Lemma valid_with_at c : c ∈ VALID_CHARS_WITH_AT ↔ c = 64 ∨ c ∈ VALID_CHARS.
Proof. unfold VALID_CHARS_WITH_AT. apply elem_of_cons. Qed.

Lemma at_not_valid : 64 ∉ VALID_CHARS.
Proof. apply (bool_decide_unpack _). by vm_compute. Qed.

Lemma valid_chars_cstring s : Forall (.∈ VALID_CHARS_WITH_AT) s → cstring s.
Proof.
  intros Hs. eapply Forall_impl; [exact Hs|]. simpl. intros c Hc.
  assert (Forall (λ c, 0 < c < 256) VALID_CHARS_WITH_AT) as H by (apply (bool_decide_unpack _); by vm_compute).
  by eapply Forall_forall in H.
Qed.

Lemma valid_chars_at s : Forall (.∈ VALID_CHARS) s → Forall (.∈ VALID_CHARS_WITH_AT) s.
Proof. intros Hs. eapply Forall_impl; [exact Hs|]. intros c Hc. apply valid_with_at. by right. Qed.

Lemma no_at s : Forall (.∈ VALID_CHARS_WITH_AT) s → 64 ∉ s → Forall (.∈ VALID_CHARS) s.
Proof.
  intros Hs Hn. apply Forall_forall. intros c Hc. rewrite Forall_forall in Hs.
  destruct (proj1 (valid_with_at c) (Hs c Hc)) as [->|]; done.
Qed.

Lemma valid_no_at s : Forall (.∈ VALID_CHARS) s → 64 ∉ s.
Proof. intros Hs H. rewrite Forall_forall in Hs. by apply at_not_valid, Hs. Qed.

Lemma strchr_elem set c : 0 < c → strchr set c = bool_decide (c ∈ set).
Proof. intros Hc. unfold strchr. by rewrite (proj2 (Z.eqb_neq c 0)), orb_false_r by lia. Qed.

Lemma type_string t : Forall (.∈ VALID_CHARS) (unit_type_to_string t) ∧ (46 ∉ unit_type_to_string t) ∧
  unit_type_to_string t ≠ [] ∧ (45 ∉ unit_type_to_string t).
Proof. destruct t; (split_and!; [|..|done|]); apply (bool_decide_unpack _); by vm_compute. Qed.

Lemma type_roundtrip t : unit_type_from_string (unit_type_to_string t) = Some t.
Proof. by destruct t. Qed.

Lemma type_from_string s t : unit_type_from_string s = Some t ↔ s = unit_type_to_string t.
Proof.
  split; [|intros ->; apply type_roundtrip]. unfold unit_type_from_string.
  destruct (list_find _ _) as [[i t']|] eqn:E; [|done]. intros [= <-].
  apply list_find_Some in E as (_ & E & _). done.
Qed.

Lemma type_valid_spec s : type_valid s = true ↔ ∃ t, s = unit_type_to_string t.
Proof.
  unfold type_valid. destruct (unit_type_from_string s) as [t|] eqn:E.
  - apply type_from_string in E. naive_solver.
  - split; [done|]. intros [t Ht]. apply type_from_string in Ht. congruence.
Qed.

Lemma suffix_valid_spec s : unit_suffix_is_valid s = true ↔ ∃ t, s = 46 :: unit_type_to_string t.
Proof.
  destruct s as [|c s]; [split; [done|by intros (t & ?)]|]. cbn [unit_suffix_is_valid].
  destruct (Z.eqb_spec c 46) as [->|Hc]; cbn [negb].
  - rewrite type_valid_spec. split; intros (t & E); exists t; [by rewrite E|by injection E].
  - split; [done|]. intros (t & [= -> _]). done.
Qed.

Lemma prefix_valid_spec p : unit_prefix_is_valid p = true ↔ p ≠ [] ∧ Forall (.∈ VALID_CHARS) p.
Proof.
  unfold unit_prefix_is_valid. destruct p; [naive_solver|]. rewrite in_charset_spec. naive_solver.
Qed.

Lemma instance_valid_spec i : unit_instance_is_valid i = true ↔ i ≠ [] ∧ Forall (.∈ VALID_CHARS_WITH_AT) i.
Proof.
  unfold unit_instance_is_valid. destruct i; [naive_solver|]. rewrite in_charset_spec. naive_solver.
Qed.

(** ** The parts of a name *)

(** The name of a prefix, an instance (empty for a template) and a type. *)
Definition unit_text (p : list Z) (oi : option (list Z)) (t : UnitType) : list Z :=
  p ++ (match oi with None => [] | Some i => 64 :: i end) ++ 46 :: unit_type_to_string t.

Definition kind_ok (flags : UnitNameFlags) (oi : option (list Z)) : bool :=
  match oi with None => PLAIN flags | Some [] => TEMPLATE flags | Some _ => INSTANCE flags end.

Definition parts_ok (p : list Z) (oi : option (list Z)) : Prop :=
  p ≠ [] ∧ Forall (.∈ VALID_CHARS) p ∧ Forall (.∈ VALID_CHARS_WITH_AT) (default [] oi).

Definition name_body (p : list Z) (oi : option (list Z)) : list Z :=
  p ++ match oi with None => [] | Some i => 64 :: i end.

Lemma unit_text_body p oi t : unit_text p oi t = name_body p oi ++ 46 :: unit_type_to_string t.
Proof. unfold unit_text, name_body. by rewrite <- (assoc_L (++)). Qed.

Lemma body_dot p oi t : strrchr_split (unit_text p oi t) 46 = Some (name_body p oi, 46 :: unit_type_to_string t).
Proof.
  apply strrchr_split_Some. exists (unit_type_to_string t). split; [done|].
  split; [apply unit_text_body|apply type_string].
Qed.

Lemma body_chars p oi : parts_ok p oi → Forall (.∈ VALID_CHARS_WITH_AT) (name_body p oi).
Proof.
  intros (_ & Hp & Hi). apply Forall_app. split; [by apply valid_chars_at|].
  destruct oi as [i|]; [|constructor]. apply Forall_cons. split; [apply valid_with_at; by left|done].
Qed.

Lemma unit_text_cstring p oi t : parts_ok p oi → cstring (unit_text p oi t).
Proof.
  intros H. rewrite unit_text_body. apply valid_chars_cstring, Forall_app. split; [by apply body_chars|].
  apply Forall_cons. split; [apply (bool_decide_unpack _); by vm_compute|].
  apply valid_chars_at, type_string.
Qed.

Lemma body_at p oi : Forall (.∈ VALID_CHARS) p → strchr_split (name_body p oi) 64 =
  match oi with None => None | Some i => Some (p, 64 :: i) end.
Proof.
  intros Hp%valid_no_at. unfold name_body. destruct oi as [i|].
  - apply strchr_split_Some. by exists i.
  - rewrite app_nil_r. by apply strchr_split_None.
Qed.

Lemma text_at p oi t : Forall (.∈ VALID_CHARS) p → strchr_split (unit_text p oi t) 64 =
  match oi with None => None | Some i => Some (p, 64 :: i ++ 46 :: unit_type_to_string t) end.
Proof.
  intros Hp%valid_no_at. unfold unit_text. destruct oi as [i|].
  - apply strchr_split_Some. eexists. split; [done|]. done.
  - apply strchr_split_None. cbn [app]. rewrite elem_of_app, elem_of_cons.
    intros [?|[?|H]]; [done..|]. apply (valid_no_at (unit_type_to_string t)); [apply type_string|done].
Qed.

(** The loop looks for the first [@]. *)
Lemma valid_name_loop_spec s : cstring s → ∀ i at_,
  valid_name_loop s i at_ =
  if forallb (λ c, bool_decide (c ∈ VALID_CHARS_WITH_AT)) s then
    Some (match at_ with
          | Some _ => at_
          | None => match strchr_split s 64 with Some (a, _) => Some (i + length a)%nat | None => None end
          end)
  else None.
Proof.
  induction 1 as [|c s Hc _ IH]; intros i at_; cbn [valid_name_loop forallb strchr_split].
  { by destruct at_. }
  rewrite strchr_elem by lia. case_bool_decide; cbn [negb andb]; [|done]. rewrite IH.
  destruct (forallb _ _); [|done]. f_equal. destruct at_ as [a|]; [done|].
  destruct (Z.eqb_spec c 64); [by rewrite Nat.add_0_r|].
  destruct (strchr_split s 64) as [[a b]|]; cbn [mbind option_bind length]; [|done]. f_equal. lia.
Qed.

Lemma forallb_charset s : forallb (λ c, bool_decide (c ∈ VALID_CHARS_WITH_AT)) s = true ↔
  Forall (.∈ VALID_CHARS_WITH_AT) s.
Proof.
  rewrite forallb_forall, Forall_forall. setoid_rewrite bool_decide_eq_true.
  split; intros H c Hc; apply H; by apply list_elem_of_In.
Qed.

(** Which flags accept a name made of good parts. *)
Lemma unit_text_valid p oi t flags : parts_ok p oi →
  unit_name_is_valid (unit_text p oi t) flags =
  (Z.of_nat (length (unit_text p oi t)) <? UNIT_NAME_MAX) && kind_ok flags oi.
Proof.
  intros H. pose proof H as (Hne & Hp & Hi). unfold unit_name_is_valid. rewrite body_dot.
  destruct (PLAIN flags || TEMPLATE flags || INSTANCE flags) eqn:Ef; cbn [negb].
  2: { apply orb_false_iff in Ef as [[E1 E2]%orb_false_iff E3]. symmetry. apply andb_false_iff. right.
       by destruct oi as [[|]|]; cbn [kind_ok]. }
  destruct (unit_text p oi t) as [|c0 n0] eqn:En; [rewrite unit_text_body in En; by destruct (name_body p oi)|].
  rewrite <- En. clear En c0 n0.
  rewrite Z.ltb_antisym. destruct (UNIT_NAME_MAX <=? _); cbn [negb andb]; [done|].
  assert (type_valid (drop 1 (46 :: unit_type_to_string t)) = true) as -> by (apply type_valid_spec; by eexists).
  cbn [negb]. rewrite valid_name_loop_spec by (by apply valid_chars_cstring, body_chars).
  rewrite (proj2 (forallb_charset _)) by (by apply body_chars). rewrite body_at by done. cbn [Nat.add].
  destruct (name_body p oi) as [|x body] eqn:Eb; [by destruct p|]. rewrite <- Eb. clear Eb x body.
  destruct oi as [i|]; [|done]. destruct (length p) as [|k] eqn:El; [by destruct p|].
  unfold name_body. rewrite length_app, El. cbn [length].
  destruct i as [|c i]; cbn [kind_ok length].
  - destruct (Nat.ltb_spec (S (S k)) (S k + 1)); [lia|]. rewrite andb_false_r.
    destruct (Nat.eqb_spec (S k + 1) (S (S k))); [|lia]. rewrite andb_true_r. by destruct (TEMPLATE flags).
  - destruct (Nat.ltb_spec (S (S k)) (S k + S (S (length i)))); [|lia]. rewrite andb_true_r.
    destruct (Nat.eqb_spec (S k + S (S (length i))) (S (S k))); [lia|]. rewrite andb_false_r.
    by destruct (INSTANCE flags).
Qed.

(** A valid name has good parts. *)
Lemma unit_name_parts n flags : cstring n → unit_name_is_valid n flags = true →
  ∃ p oi t, n = unit_text p oi t ∧ parts_ok p oi.
Proof.
  intros Hn. unfold unit_name_is_valid. destruct (negb _); [done|]. destruct n as [|c0 n0]; [done|].
  destruct (UNIT_NAME_MAX <=? _); [done|].
  destruct (strrchr_split (c0 :: n0) 46) as [[before e]|] eqn:E; [|done].
  apply strrchr_split_Some in E as (r & -> & E & Hr). rewrite E in *. clear E c0 n0.
  destruct before as [|x b] eqn:Eb; [done|]. rewrite <- Eb in *. change (drop 1 (46 :: r)) with r.
  destruct (type_valid r) eqn:Et; cbn [negb]; [|done]. apply type_valid_spec in Et as (t & ->).
  apply Forall_app in Hn as [Hn _]. rewrite valid_name_loop_spec by done.
  destruct (forallb _ before) eqn:Ef; [|done]. apply forallb_charset in Ef.
  destruct (strchr_split before 64) as [[a e]|] eqn:Ea.
  - apply strchr_split_Some in Ea as (i & -> & -> & Ha). cbn [Nat.add].
    destruct (length a) eqn:El; [done|]. intros _. exists a, (Some i), t.
    apply Forall_app in Ef as [Hfa Hfi]. apply Forall_cons in Hfi as [_ Hfi].
    split; [unfold unit_text; by rewrite <- (assoc_L (++))|]. split_and!; [by intros ->|by apply no_at|done].
  - apply strchr_split_None in Ea. intros _. exists before, None, t. split; [done|].
    split_and!; [by rewrite Eb|by apply no_at|constructor].
Qed.

Lemma to_prefix_text p oi t : parts_ok p oi → Z.of_nat (length (unit_text p oi t)) < UNIT_NAME_MAX →
  unit_name_to_prefix false (unit_text p oi t) = Some (inr p).
Proof.
  intros H Hl. unfold unit_name_to_prefix. rewrite unit_text_valid, (proj2 (Z.ltb_lt _ _) Hl) by done.
  assert (kind_ok UNIT_NAME_ANY oi = true) as -> by (by destruct oi as [[|]|]). cbn [negb andb].
  destruct H as (_ & Hp & _). rewrite text_at by done. destruct oi as [i|]; [done|].
  rewrite body_dot. cbn [mbind option_bind]. unfold name_body. by rewrite app_nil_r.
Qed.

Definition kind_of (oi : option (list Z)) : NameKind :=
  match oi with None => Plain | Some [] => Template | Some _ => Instance_ end.

Lemma to_instance_text p oi t : parts_ok p oi → Z.of_nat (length (unit_text p oi t)) < UNIT_NAME_MAX →
  unit_name_to_instance false (unit_text p oi t) = inr (kind_of oi, oi).
Proof.
  intros H Hl. unfold unit_name_to_instance. rewrite unit_text_valid, (proj2 (Z.ltb_lt _ _) Hl) by done.
  assert (kind_ok UNIT_NAME_ANY oi = true) as -> by (by destruct oi as [[|]|]). cbn [negb andb].
  destruct H as (_ & Hp & _). rewrite text_at by done. destruct oi as [i|]; [|done].
  change (drop 1 (64 :: i ++ 46 :: unit_type_to_string t)) with (i ++ 46 :: unit_type_to_string t).
  rewrite (proj2 (strrchr_split_Some _ 46 i (46 :: unit_type_to_string t))); [by destruct i|].
  eexists. split; [done|]. split; [done|]. apply type_string.
Qed.



(** ** Putting names together *)

Lemma name_join_spec args : Z.of_nat (length (concat args)) < SIZE_MAX → join false args = Some (inr (concat args)).
Proof. intros H. unfold join. by rewrite strjoin_spec. Qed.

Lemma alloc_spec size out : Z.of_nat (length out) + 1 ≤ size → alloc false size out = Some (inr out).
Proof. intros H. unfold alloc, new_string. by rewrite filled_fits. Qed.

Definition buildable (prefix : list Z) (instance : option (list Z)) : Prop :=
  unit_prefix_is_valid prefix = true ∧
  match instance with Some i => unit_instance_is_valid i = true | None => True end.

Lemma buildable_parts p oi : buildable p oi → parts_ok p oi ∧ kind_of oi ≠ Template.
Proof.
  intros [Hp%prefix_valid_spec Hi]. destruct oi as [i|]; [|by split; [split_and!; [naive_solver..|constructor]|]].
  apply instance_valid_spec in Hi as [Hne Hi]. split; [split_and!; naive_solver|]. by destruct i.
Qed.

Lemma text_length p oi t : (length (unit_text p oi t) =
  length p + (match oi with None => 0 | Some i => S (length i) end) + 1 + length (unit_type_to_string t))%nat.
Proof. unfold unit_text. rewrite !length_app. destruct oi; cbn [length]; lia. Qed.

Lemma build_text p oi t : buildable p oi → Z.of_nat (length (unit_text p oi t)) < SIZE_MAX →
  unit_name_build_from_type false p oi t = Some (inr (unit_text p oi t)).
Proof.
  intros [Hp Hi] Hl. unfold unit_name_build_from_type. rewrite Hp. cbn [negb].
  assert (concat [p; [46]; unit_type_to_string t] = unit_text p None t) as E1.
  { cbn. by rewrite app_nil_r. }
  assert (∀ i, concat [p; [64]; i; [46]; unit_type_to_string t] = unit_text p (Some i) t) as E2.
  { intros i. cbn. by rewrite app_nil_r. }
  destruct oi as [i|]; [rewrite Hi; cbn [negb]; rewrite name_join_spec, E2 by (by rewrite E2)|
    rewrite name_join_spec, E1 by (by rewrite E1)]; done.
Qed.

(** [unit_name_build] succeeds exactly on a valid prefix, no or a valid
    instance and a valid suffix, with -EINVAL otherwise; the name it builds is,
    unless it has reached 256 characters, valid as a plain name or an instance,
    and taking it apart gives back what it was built from. *)
Theorem unit_name_build_roundtrip prefix instance suffix :
  Z.of_nat (length prefix + length (default [] instance) + length suffix + 1) < SIZE_MAX →
  (buildable prefix instance → ∀ t, suffix = 46 :: unit_type_to_string t → ∃ n,
     unit_name_build false prefix instance suffix = Some (inr n) ∧
     (Z.of_nat (length n) < UNIT_NAME_MAX →
        unit_name_is_valid n (Flags true false true) = true ∧
        unit_name_to_prefix false n = Some (inr prefix) ∧
        unit_name_to_instance false n = inr (kind_of instance, instance) ∧
        unit_name_to_type n = Some (Some t))) ∧
  ((¬ buildable prefix instance ∨ unit_suffix_is_valid suffix = false) →
     unit_name_build false prefix instance suffix = Some (inl (- EINVAL))).
Proof.
  intros Hl. split.
  - intros Hb t ->. destruct (buildable_parts _ _ Hb) as [Hp Hk].
    exists (unit_text prefix instance t). split.
    { unfold unit_name_build. change (char0 (46 :: unit_type_to_string t) =? 46) with true. cbn [negb].
      change (drop 1 (46 :: unit_type_to_string t)) with (unit_type_to_string t). rewrite type_roundtrip.
      apply build_text; [done|]. rewrite text_length. cbn [length] in Hl.
      destruct instance; cbn [default from_option id length] in Hl; lia. }
    intros Hn. split; [|split; [by apply to_prefix_text|split; [by apply to_instance_text|]]].
    { rewrite unit_text_valid, (proj2 (Z.ltb_lt _ _) Hn) by done. by destruct instance as [[|]|]. }
    unfold unit_name_to_type. rewrite unit_text_valid, (proj2 (Z.ltb_lt _ _) Hn), body_dot by done.
    assert (kind_ok UNIT_NAME_ANY instance = true) as -> by (by destruct instance as [[|]|]).
    cbn [negb andb mbind option_bind]. change (drop 1 (46 :: unit_type_to_string t)) with (unit_type_to_string t).
    by rewrite type_roundtrip.
  - intros H. unfold unit_name_build. destruct suffix as [|c s]; [done|]. cbn [char0].
    destruct (Z.eqb_spec c 46) as [->|]; [|done]. cbn [negb]. change (drop 1 (46 :: s)) with s.
    destruct (unit_type_from_string s) as [t|] eqn:Et; [|done].
    destruct H as [H|H]; [|cbn in H; unfold type_valid in H; by rewrite Et in H].
    unfold unit_name_build_from_type. destruct (unit_prefix_is_valid prefix) eqn:Ep; [|done]. cbn [negb].
    destruct instance as [i|]; [|by destruct H].
    destruct (unit_instance_is_valid i) eqn:Ei; [by destruct H|done].
Qed.

Lemma unit_name_build_roundtrip_witness : ∃ n,
  unit_name_build false (bytes_of "getty") (Some (bytes_of "tty1")) (bytes_of ".service") = Some (inr n) ∧
  unit_name_to_prefix false n = Some (inr (bytes_of "getty")).
Proof.
  destruct (unit_name_build_roundtrip (bytes_of "getty") (Some (bytes_of "tty1")) (bytes_of ".service"))
    as [H _]; [by vm_compute|].
  destruct (H ltac:(by split; vm_compute) UNIT_SERVICE eq_refl) as (n & E & Hn).
  exists n. split; [exact E|]. apply Hn. vm_compute in E. injection E as <-. by vm_compute.
Defined.

(** Nothing checks the length of what is built: a valid prefix of 250
    characters gives a name that is not valid. *)
Example unit_name_build_too_long : ∃ n,
  unit_name_build false (replicate 250 97) None (bytes_of ".service") = Some (inr n) ∧
  unit_name_is_valid n UNIT_NAME_ANY = false.
Proof. eexists. split; [vm_compute; reflexivity|by vm_compute]. Qed.

Lemma take_prefix_at p i t : take (length p + 1) (unit_text p (Some i) t) = p ++ [64].
Proof.
  unfold unit_text. cbn [app]. change (64 :: i ++ 46 :: unit_type_to_string t) with ([64] ++ i ++ 46 :: unit_type_to_string t).
  rewrite (assoc_L (++)). replace (length p + 1)%nat with (length (p ++ [64])) by (rewrite length_app; simpl; lia).
  by rewrite take_app_length.
Qed.

(** On a valid name, changing the suffix, taking the template and replacing
    the instance change exactly that part and keep the others, and fit the
    buffers they allocate; the last two are refused for a plain name. The
    template of a valid name is valid. *)
Theorem unit_name_edit_correct p oi t i t' :
  parts_ok p oi → Z.of_nat (length (unit_text p oi t)) < UNIT_NAME_MAX → unit_instance_is_valid i = true →
  let n := unit_text p oi t in
  unit_name_change_suffix false n (46 :: unit_type_to_string t') = Some (inr (unit_text p oi t')) ∧
  (oi = None → unit_name_template false n = Some (inl (- EINVAL)) ∧
     unit_name_replace_instance false n i = Some (inl (- EINVAL))) ∧
  (oi ≠ None →
     unit_name_template false n = Some (inr (unit_text p (Some []) t)) ∧
     unit_name_is_valid (unit_text p (Some []) t) (Flags false true false) = true ∧
     unit_name_replace_instance false n i = Some (inr (unit_text p (Some i) t))).
Proof.
  intros Hp Hl Hi n. subst n. pose proof Hp as (Hne & Hpc & _).
  assert (oi ≠ None → unit_name_is_valid (unit_text p (Some []) t) (Flags false true false) = true) as Ht.
  { intros Ho. rewrite unit_text_valid by (split_and!; [done..|constructor]).
    apply andb_true_iff. split; [|done]. apply Z.ltb_lt. rewrite text_length in Hl |- *.
    destruct oi; [|done]. cbn [length]. lia. }
  unfold unit_name_change_suffix, unit_name_template, unit_name_replace_instance.
  rewrite !unit_text_valid, !(proj2 (Z.ltb_lt _ _) Hl), !body_dot, !text_at, Hi by done. cbn [andb negb].
  assert (kind_ok UNIT_NAME_ANY oi = true) as -> by (by destruct oi as [[|]|]). cbn [negb].
  rewrite (proj2 (suffix_valid_spec (46 :: unit_type_to_string t'))) by (by eexists).
  cbn [negb mbind option_bind]. split.
  { rewrite alloc_spec by (rewrite length_app; lia). by rewrite unit_text_body. }
  split; [by intros ->|]. destruct oi as [j|]; [|done]. intros Ho. specialize (Ht Ho).
  rewrite unit_text_valid in Ht by (split_and!; [done..|constructor]).
  assert (kind_ok (Flags false true true) (Some j) = true) as -> by (by destruct j).
  cbn [negb mbind option_bind]. rewrite take_prefix_at.
  rewrite !alloc_spec by (rewrite !length_app; cbn [length]; lia).
  split; [|split; [done|]]; unfold unit_text; by rewrite <- (assoc_L (++)).
Qed.

Lemma unit_name_edit_correct_witness :
  unit_name_template false (bytes_of "a@b.service") = Some (inr (bytes_of "a@.service")).
Proof.
  pose proof (unit_name_edit_correct (bytes_of "a") (Some (bytes_of "b")) UNIT_SERVICE (bytes_of "c") UNIT_SOCKET) as H.
  ospecialize (H _ _ _); [split_and!; [done|..]; apply (bool_decide_unpack _); by vm_compute|by vm_compute|by vm_compute|].
  by apply H.
Defined.

(** ** Escaping *)

Definition put_char (c : Z) (r : Z + list Z) : Z + list Z :=
  match r with inl e => inl e | inr out => inr (c :: out) end.

(** [e] is what stands for [c] in an escaped name. *)
Definition name_escape_of (e : list Z) (c : Z) : bool :=
  match e with
  | [x] => (x =? 45) && (c =? 47) || negb (x =? 45) && negb (x =? 92) && (x =? c)
  | [x; y; a; b] =>
      (x =? 92) && (y =? 120) && (0 <=? unhexchar a) && (0 <=? unhexchar b) &&
      (u8 (Z.lor (u8 (Z.shiftl (u8 (unhexchar a)) 4)) (u8 (unhexchar b))) =? c)
  | _ => false
  end.

Lemma unescape_step e c rest : name_escape_of e c = true →
  unescape_loop (e ++ rest) = put_char c (unescape_loop rest).
Proof.
  unfold name_escape_of. intros H. destruct e as [|x [|y [|a [|b [|]]]]]; try done.
  - apply orb_true_iff in H as [H|H]; reflect_bools; subst.
    + done.
    + cbn [app unescape_loop]. by rewrite (proj2 (Z.eqb_neq c 45)), (proj2 (Z.eqb_neq c 92)).
  - reflect_bools. subst x y. cbn [app unescape_loop Z.eqb Pos.eqb negb].
    destruct (Z.ltb_spec (unhexchar a) 0); [lia|]. destruct (Z.ltb_spec (unhexchar b) 0); [lia|].
    by match goal with H : _ = c |- _ => rewrite H end.
Qed.

Lemma do_escape_char_spec c : 0 < c < 256 →
  name_escape_of (do_escape_char c) c = true ∧ Forall (.∈ VALID_CHARS) (do_escape_char c).
Proof.
  intros Hb. assert (is_byte c) as Hc by (unfold is_byte; lia). revert Hc.
  by_bytes (λ c, name_escape_of (do_escape_char c) c &&
                 forallb (λ x, bool_decide (x ∈ VALID_CHARS)) (do_escape_char c)).
  apply andb_true_iff in Hc as [H1 H2]. split; [done|]. apply Forall_forall. intros x Hx.
  rewrite forallb_forall in H2. by apply list_elem_of_In, H2, bool_decide_eq_true in Hx.
Qed.

Lemma escape_name_char_spec c : 0 < c < 256 →
  name_escape_of (escape_name_char c) c = true ∧ Forall (.∈ VALID_CHARS) (escape_name_char c) ∧
  (1 ≤ length (escape_name_char c) ≤ 4)%nat.
Proof.
  intros Hc. destruct (do_escape_char_spec c Hc) as [H1 H2]. unfold escape_name_char.
  destruct (Z.eqb_spec c 47) as [->|].
  { split; [done|]. split; [apply (bool_decide_unpack _); by vm_compute|simpl; lia]. }
  rewrite strchr_elem by lia. destruct (_ || _) eqn:E; [split_and!; [done|done|simpl; lia..]|].
  reflect_bools. rewrite bool_decide_eq_true in *. split_and!; [|by apply Forall_singleton|simpl; lia..].
  cbn [name_escape_of]. apply orb_true_iff. right.
  rewrite (proj2 (Z.eqb_neq c 45)), (proj2 (Z.eqb_neq c 92)) by done. by apply Z.eqb_eq.
Qed.

Lemma do_escape_spec f : cstring f →
  unescape_loop (do_escape f) = inr f ∧ Forall (.∈ VALID_CHARS) (do_escape f) ∧
  (length f ≤ length (do_escape f) ≤ 4 * length f)%nat.
Proof.
  intros Hf.
  assert (∀ s, cstring s → unescape_loop (s ≫= escape_name_char) = inr s ∧
    Forall (.∈ VALID_CHARS) (s ≫= escape_name_char) ∧
    (length s ≤ length (s ≫= escape_name_char) ≤ 4 * length s)%nat) as H.
  { induction 1 as [|c s Hc _ (IH1 & IH2 & IH3)]; [split_and!; [done|constructor|simpl; lia..]|].
    destruct (escape_name_char_spec c Hc) as (H1 & H2 & H3). rewrite bind_cons.
    rewrite (unescape_step _ c) by done. rewrite IH1, length_app. cbn [length].
    split_and!; [done|by apply Forall_app|lia..]. }
  destruct f as [|c f]; [split_and!; [done|constructor|simpl; lia..]|]. cbn [do_escape].
  destruct (Z.eqb_spec c 46) as [->|]; [|by apply H].
  apply Forall_cons in Hf as [_ Hf]. destruct (H f Hf) as (H1 & H2 & H3).
  destruct (do_escape_char_spec 46) as [H4 H5]; [lia|].
  rewrite (unescape_step _ 46) by done. rewrite H1, length_app. cbn [length do_escape_char].
  split_and!; [done|by apply Forall_app|lia..].
Qed.

Lemma c_str_cstring s : cstring s → c_str s = s.
Proof.
  intros Hs. unfold c_str. rewrite <- (app_nil_r s) at 1. rewrite span_app; [|
    eapply Forall_impl; [exact Hs|]; simpl; intros c Hc; apply negb_true_iff, Z.eqb_neq; lia|done].
  by rewrite take_ge.
Qed.

Lemma unescape_escape f : cstring f → unit_name_unescape false (do_escape f) = Some (inr f).
Proof.
  intros Hf. destruct (do_escape_spec f Hf) as (H1 & _ & H3). unfold unit_name_unescape.
  rewrite H1, filled_fits by lia. cbn [mbind option_bind]. by rewrite c_str_cstring.
Qed.

(** Escaping a string for a unit name fits its buffer and gives valid
    characters only, so that the result for a non-empty string is a valid prefix
    and a valid instance; unescaping gives the string back. *)
Theorem unit_name_escape_roundtrip f : cstring f → ∃ e,
  unit_name_escape false f = Some (Some e) ∧ unit_name_unescape false e = Some (inr f) ∧
  (f ≠ [] → unit_prefix_is_valid e = true ∧ unit_instance_is_valid e = true).
Proof.
  intros Hf. destruct (do_escape_spec f Hf) as (H1 & H2 & H3). exists (do_escape f). split.
  { unfold unit_name_escape, new_string. by rewrite filled_fits by lia. }
  split; [by apply unescape_escape|]. intros Hne.
  assert (do_escape f ≠ []) by (intros E; rewrite E in H3; destruct f; [done|simpl in H3; lia]).
  split; [by apply prefix_valid_spec|]. apply instance_valid_spec. split; [done|by apply valid_chars_at].
Qed.

Lemma unit_name_escape_roundtrip_witness :
  unit_name_unescape false (bytes_of "\x2efoo\x2dbar-\xc3") = Some (inr (bytes_of ".foo-bar/" ++ [195])).
Proof.
  destruct (unit_name_escape_roundtrip (bytes_of ".foo-bar/" ++ [195])) as (e & E & H & _).
  { apply (bool_decide_unpack _). by vm_compute. }
  vm_compute in E. injection E as <-. exact H.
Defined.

(** ** Paths *)

(** The canonical text of an absolute path has no two slashes in a row. *)
Lemma canon_no_double l : Forall name l → Forall cstring l → strstr (canon true l) [47; 47] = false.
Proof.
  intros Hn Hc. destruct (strstr _ _) eqn:E; [|done]. exfalso.
  apply strstr_spec in E as (a & b & E).
  assert (cstring (a ++ 47 :: b)) as Hs.
  { pose proof (canon_cstring true l Hc) as H. rewrite E in H. apply Forall_app in H as [Ha Hb].
    apply Forall_app. split; [done|]. by apply Forall_cons in Hb as [_ ?]. }
  assert (comps (a ++ 47 :: b) = l) as El.
  { rewrite <- (comps_canon true l Hn), E. cbn [app].
    rewrite !comps_app by (right; right; by eexists). by rewrite !comps_slash. }
  assert (path_is_absolute (a ++ 47 :: b) = true) as Ea.
  { destruct a as [|c a]; [done|]. injection E as <- _. done. }
  pose proof (path_simplify_canon (a ++ 47 :: b) false Hs) as Hq. rewrite Ea, El in Hq.
  assert (a ++ 47 :: b ≠ []) as Hne by (by destruct a). specialize (Hq Hne).
  apply path_simplify_length in Hq; [|done]. cbn [keep] in Hq. rewrite E in Hq.
  rewrite !length_app in Hq. cbn [length] in Hq. lia.
Qed.

Lemma relative_no_double l : Forall name l → Forall cstring l → strstr (relative l) [47; 47] = false.
Proof.
  intros Hn Hc. destruct (strstr (relative l) _) eqn:E; [|done]. apply strstr_spec in E as (a & b & E).
  rewrite <- (canon_no_double l) by done. symmetry. apply strstr_spec. exists (47 :: a), b. cbn [canon]. by rewrite E.
Qed.

Lemma canon_normalized ab l : Forall name l → Forall cstring l → l ≠ [] →
  path_is_normalized (canon ab l) =
  (Z.of_nat (length (canon ab l)) <? PATH_MAX) && bool_decide ([46] ∉ l) && bool_decide ([46; 46] ∉ l).
Proof.
  intros Hn Hc Hne. apply Bool.eq_iff_eq_true.
  rewrite path_is_normalized_spec, !andb_true_iff, !bool_decide_eq_true.
  assert (path_is_valid (canon ab l) = (Z.of_nat (length (canon ab l)) <? PATH_MAX)) as ->.
  { unfold path_is_valid. destruct (canon ab l) eqn:E; [|done]. destruct ab; [done|].
    destruct l as [|[|] l]; [done| |done]. by apply Forall_cons in Hn as [[? _] _]. }
  assert (strstr (canon ab l) [47; 47] = false) as ->.
  { destruct ab; [by apply canon_no_double|]. destruct l; [done|]. by apply relative_no_double. }
  assert (comps (canon ab l) = l) as -> by (rewrite comps_canon by done; by destruct ab, l).
  naive_solver.
Qed.

(** The text of a relative path ends in a name. *)
Lemma relative_ends l : l ≠ [] → ∃ q a, relative l = q ++ a ∧ a ∈ l.
Proof.
  destruct l as [|b l]; [done|]. intros _. destruct l as [|x l _] using rev_ind.
  - exists [], b. cbn. rewrite app_nil_r. split; [done|by left].
  - exists (b ++ slashed l ++ [47]), x. cbn [relative]. unfold slashed. rewrite bind_app.
    rewrite <- !(assoc_L (++)). cbn. rewrite app_nil_r. split; [done|]. right. apply elem_of_app. right. by left.
Qed.

Lemma relative_last l x : Forall name l → last (relative l) = Some x → x ≠ 47.
Proof.
  intros Hn Hx ->. destruct l as [|b l]; [done|].
  destruct (relative_ends (b :: l)) as (q & a & E & Ha); [done|]. rewrite E in Hx.
  assert (name a) as [Hne Hs] by (by eapply Forall_forall in Hn).
  by apply last_in_app in Hx.
Qed.

Lemma canon_comps_cases p : cstring p → comps p ≠ [] → path_simplify p false =
  Some (canon (path_is_absolute p) (comps p)).
Proof. intros Hs Hne. rewrite path_simplify_canon; [done|done|by intros ->]. Qed.

Lemma path_root p : cstring p → comps p = [] → ∃ q, path_simplify p false = Some q ∧ empty_or_root q = true.
Proof.
  intros Hs Hc. destruct p as [|c p]; [by exists []|]. rewrite path_simplify_canon by done.
  eexists. split; [done|]. cbn [keep]. rewrite Hc.
  destruct (path_is_absolute (c :: p)) eqn:E; [done|]. exfalso.
  destruct (path_view_all (c :: p)) as [E1 _|a b _ E1 _ _ _]; [|congruence].
  unfold skip_slashes in E1. cbn [span] in E1. unfold path_is_absolute in E. cbn in E.
  unfold is_slash in E1. by rewrite E in E1.
Qed.

Lemma empty_or_root_canon ab l : Forall name l → l ≠ [] → empty_or_root (canon ab l) = false.
Proof.
  intros Hn Hne. unfold empty_or_root. destruct (path_view_all (canon ab l)) as [_ E|a b -> _ [Ha _] _ _].
  - rewrite comps_canon in E by done. by destruct ab, l.
  - by destruct a.
Qed.

(** Without its slashes at either end. *)
Lemma canon_strip ab l : Forall name l → Forall cstring l → l ≠ [] →
  skip_leading_chars (delete_trailing_chars (canon ab l) slash) slash = relative l.
Proof.
  intros Hn Hc Hne.
  assert (delete_trailing_chars (canon ab l) slash = canon ab l) as ->.
  { rewrite <- (app_nil_r (canon ab l)) at 1. apply delete_trailing_app; [rewrite app_nil_r; by apply canon_cstring|constructor|].
    intros x Hx. unfold slash. rewrite list_elem_of_singleton. destruct l as [|a l]; [done|].
    destruct ab; [|by eapply relative_last].
    apply relative_last with (a :: l); [done|]. cbn [canon] in Hx.
    destruct (relative (a :: l)) eqn:E; [|done]. cbn in E. apply Forall_cons in Hn as [[? _] _]. by destruct a. }
  assert (strspn (relative l) slash = 0%nat) as E0.
  { pose proof (relative_is_relative l Hn) as Hr. unfold path_is_absolute in Hr.
    destruct (relative l) as [|c r]; [done|]. cbn in Hr |- *. rewrite bool_decide_eq_false_2; [done|].
    unfold slash. rewrite list_elem_of_singleton. by apply Z.eqb_neq. }
  unfold skip_leading_chars. destruct ab; cbn [canon].
  - unfold strspn in *. cbn [span]. rewrite bool_decide_eq_true_2 by by left. cbn [drop]. by rewrite E0.
  - destruct l; [done|]. by rewrite E0.
Qed.

Definition has_dots (p : list Z) : Prop := [46] ∈ comps p ∨ [46; 46] ∈ comps p.

Lemma path_escape_spec p : cstring p → Z.of_nat (length p) < PATH_MAX → ∃ r,
  unit_name_path_escape false p = Some r ∧
  match r with
  | inl e => e = - EINVAL ∧ has_dots p
  | inr e => ¬ has_dots p ∧ e = match comps p with [] => [45] | l => do_escape (relative l) end
  end.
Proof.
  intros Hs Hl. unfold unit_name_path_escape. destruct (decide (comps p = [])) as [Hc|Hc].
  { destruct (path_root p Hs Hc) as (q & -> & Hq). cbn [mbind option_bind]. rewrite Hq.
    eexists. split; [done|]. cbn. unfold has_dots. rewrite Hc.
    split; [|done]. intros [H|H]; by apply elem_of_nil in H. }
  pose proof (canon_comps_cases p Hs Hc) as E.
  assert (length (canon (path_is_absolute p) (comps p)) ≤ length p)%nat as Hlq.
  { eapply path_simplify_length; [|exact E]. by intros ->. }
  pose proof (comps_names p) as Hn. pose proof (comps_cstring p Hs) as Hcs.
  rewrite E. cbn [mbind option_bind]. rewrite empty_or_root_canon, canon_normalized by done.
  rewrite (proj2 (Z.ltb_lt _ _)) by lia. cbn [andb]. unfold has_dots.
  destruct (decide ([46] ∈ comps p)) as [H1|H1].
  { rewrite (bool_decide_eq_false_2 ([46] ∉ comps p)) by (by intros H). cbn [andb negb].
    eexists. split; [done|]. split; [done|]. by left. }
  destruct (decide ([46; 46] ∈ comps p)) as [H2|H2].
  { rewrite (bool_decide_eq_false_2 ([46; 46] ∉ comps p)), andb_false_r by (by intros H). cbn [negb].
    eexists. split; [done|]. split; [done|]. by right. }
  rewrite !bool_decide_eq_true_2 by done. cbn [andb negb].
  rewrite canon_strip by done. unfold unit_name_escape, new_string.
  destruct (do_escape_spec (relative (comps p))) as (_ & _ & Hd); [by apply relative_cstring|].
  rewrite filled_fits by lia. eexists. split; [done|]. cbn. split; [naive_solver|]. by destruct (comps p).
Qed.

Lemma path_unescape_escape l : Forall name l → Forall cstring l → l ≠ [] →
  [46] ∉ l → [46; 46] ∉ l → Z.of_nat (length (canon true l)) < PATH_MAX →
  unit_name_path_unescape false (do_escape (relative l)) = Some (inr (canon true l)).
Proof.
  intros Hn Hc Hne H1 H2 Hl. pose proof (relative_cstring l Hc) as Hr.
  destruct (do_escape_spec (relative l) Hr) as (Hu & _ & Hlen).
  assert (relative l ≠ []) as Hrne.
  { destruct l as [|[|] l]; [done| |done]. by apply Forall_cons in Hn as [[? _] _]. }
  unfold unit_name_path_unescape. destruct (do_escape (relative l)) as [|c e] eqn:E.
  { destruct (relative l); [done|simpl in Hlen; lia]. }
  rewrite <- E in *. unfold streq. rewrite bool_decide_eq_false_2.
  2: { intros E'. rewrite E' in Hu. cbn in Hu. injection Hu as Hu.
       pose proof (relative_is_relative l Hn) as H. by rewrite <- Hu in H. }
  rewrite unescape_escape by done. cbn [mbind option_bind].
  assert (starts (relative l) slash = false) as ->.
  { apply not_true_iff_false. intros (r & Er)%starts_spec.
    pose proof (relative_is_relative l Hn) as H. by rewrite Er in H. }
  assert (ends (relative l) slash = false) as ->.
  { apply not_true_iff_false. intros (r & Er)%ends_spec.
    apply (relative_last l 47); [done| |done]. rewrite Er; apply last_snoc. }
  cbn [orb]. assert (concat [[47]; relative l] = canon true l) as Ec by (cbn; by rewrite app_nil_r).
  rewrite name_join_spec, Ec by (rewrite Ec; unfold PATH_MAX, SIZE_MAX, UINT64_MAX in *; lia).
  cbn [mbind option_bind]. rewrite canon_normalized by done.
  rewrite (proj2 (Z.ltb_lt _ _) Hl), !bool_decide_eq_true_2 by done. done.
Qed.

Lemma from_path_text p e t : unit_name_path_escape false p = Some (inr e) →
  Z.of_nat (length e) < 2 ^ 32 →
  unit_name_from_path false p (46 :: unit_type_to_string t) = Some (inr (unit_text e None t)).
Proof.
  intros E Hl. unfold unit_name_from_path. rewrite (proj2 (suffix_valid_spec _)) by (by eexists). cbn [negb].
  rewrite E. cbn [mbind option_bind].
  assert (concat [e; 46 :: unit_type_to_string t] = unit_text e None t) as Ec by (cbn; by rewrite app_nil_r).
  rewrite name_join_spec, Ec; [done|]. rewrite Ec, text_length.
  assert (length (unit_type_to_string t) ≤ 9)%nat by (destruct t; by apply Nat.leb_le).
  unfold SIZE_MAX, UINT64_MAX in *. lia.
Qed.

(** C31. Escaping a path succeeds exactly when no component of it is [.] or [..];
    the result is a valid prefix, and unescaping it gives the canonical absolute
    text of the path, whether it was absolute or not. The unit named after a
    path, when the name is not too long, is a valid plain name of the type asked
    for, and its path is again the canonical text. *)
Theorem unit_path_roundtrip p t : cstring p → Z.of_nat (length p) < PATH_MAX - 1 → ∃ r,
  unit_name_path_escape false p = Some r ∧
  match r with
  | inl e => e = - EINVAL ∧ has_dots p
  | inr e =>
      ¬ has_dots p ∧ unit_prefix_is_valid e = true ∧
      unit_name_path_unescape false e = Some (inr (canon true (comps p))) ∧
      ∃ n, unit_name_from_path false p (46 :: unit_type_to_string t) = Some (inr n) ∧
        (Z.of_nat (length n) < UNIT_NAME_MAX →
         unit_name_is_valid n (Flags true false false) = true ∧ unit_name_to_type n = Some (Some t) ∧
         unit_name_to_path false n = Some (inr (canon true (comps p))))
  end.
Proof.
  intros Hs Hl. destruct (path_escape_spec p Hs ltac:(lia)) as (r & E & Hr).
  exists r. split; [done|]. destruct r as [e|e]; [done|]. destruct Hr as [Hd He].
  assert (length (relative (comps p)) ≤ length p)%nat as Hlr.
  { destruct (decide (comps p = [])) as [->|Hc]; [simpl; lia|].
    pose proof (path_simplify_length p false _ ltac:(by intros ->) (canon_comps_cases p Hs Hc)) as H.
    destruct (path_is_absolute p), (comps p); cbn [canon length] in *; (done || lia). }
  pose proof (relative_cstring _ (comps_cstring p Hs)) as Hrc.
  destruct (do_escape_spec _ Hrc) as (_ & Hv & Hlen).
  assert (e ≠ [] ∧ Forall (.∈ VALID_CHARS) e ∧ (length e ≤ 4 * length p + 1)%nat ∧
    unit_name_path_unescape false e = Some (inr (canon true (comps p)))) as (He0 & Hev & Hle & Hun).
  { destruct (comps p) as [|a l] eqn:Ec; subst e.
    - split_and!; [done|apply (bool_decide_unpack _); by vm_compute|simpl; lia|done].
    - rewrite <- Ec in *. split_and!; [|done|lia|].
      + intros E0. rewrite E0 in Hlen. assert (relative (comps p) = []) as Er by (destruct (relative _); [done|simpl in Hlen; lia]).
        pose proof (comps_relative _ (comps_names p)) as Hcr. rewrite Er in Hcr. rewrite Ec in Hcr. done.
      + apply path_unescape_escape; [apply comps_names|by apply comps_cstring|by rewrite Ec|..].
        * intros H. apply Hd. by left.
        * intros H. apply Hd. by right.
        * cbn [canon length]. lia. }
  split; [done|]. split; [by apply prefix_valid_spec|]. split; [done|].
  assert (parts_ok e None) as Hp by (split_and!; [done..|constructor]).
  exists (unit_text e None t). split.
  { apply from_path_text; [done|]. unfold PATH_MAX in *. lia. }
  intros Hn. split; [by rewrite unit_text_valid, (proj2 (Z.ltb_lt _ _) Hn)|]. split.
  - unfold unit_name_to_type. rewrite unit_text_valid, (proj2 (Z.ltb_lt _ _) Hn), body_dot by done.
    cbn [kind_ok UNIT_NAME_ANY PLAIN negb andb mbind option_bind].
    change (drop 1 (46 :: unit_type_to_string t)) with (unit_type_to_string t). by rewrite type_roundtrip.
  - unfold unit_name_to_path. by rewrite to_prefix_text.
Qed.

Lemma unit_path_roundtrip_witness :
  unit_name_path_unescape false (bytes_of "home-lennart\x2dp") = Some (inr (bytes_of "/home/lennart-p")).
Proof.
  destruct (unit_path_roundtrip (bytes_of "home//lennart-p/") UNIT_MOUNT) as (r & E & H);
    [apply (bool_decide_unpack _); by vm_compute|by vm_compute|].
  vm_compute in E. injection E as <-. exact (proj1 (proj2 (proj2 H))).
Defined.

(** ** Mangling *)

Lemma path_escape_chars p e : cstring p → Z.of_nat (length p) < PATH_MAX →
  unit_name_path_escape false p = Some (inr e) → parts_ok e None ∧ Z.of_nat (length e) < 2 ^ 32.
Proof.
  intros Hs Hl E. destruct (path_escape_spec p Hs Hl) as (r & E' & Hr). rewrite E in E'. injection E' as <-.
  destruct Hr as [_ He]. destruct (decide (comps p = [])) as [Hc|Hc].
  { rewrite Hc in He. subst e. split; [split_and!; [done|apply (bool_decide_unpack _); by vm_compute|constructor]|done]. }
  assert (e = do_escape (relative (comps p))) as -> by (by destruct (comps p)). clear He.
  pose proof (canon_comps_cases p Hs Hc) as Hq. apply path_simplify_length in Hq; [|by intros ->].
  destruct (do_escape_spec (relative (comps p))) as (_ & Hv & Hlen); [by apply relative_cstring, comps_cstring|].
  assert (length (relative (comps p)) ≤ length p)%nat.
  { destruct (path_is_absolute p), (comps p); cbn [canon length] in *; (done || lia). }
  split; [|unfold PATH_MAX in *; lia]. split_and!; [|done|constructor]. intros E0.
  pose proof (relative_length _ (comps_names p)). rewrite E0 in Hlen. destruct (comps p); [done|]. cbn [length] in *. lia.
Qed.

(** A path becomes a name with good parts, or nothing. *)
Lemma mangle_path_spec name t : cstring name → Z.of_nat (length name) < PATH_MAX → ∃ r,
  mangle_path false name (46 :: unit_type_to_string t) = Some r ∧
  match r with None => True | Some r => ∃ e, r = inr (unit_text e None t) ∧ parts_ok e None end.
Proof.
  intros Hs Hl. unfold mangle_path. destruct (path_escape_spec name Hs Hl) as ([e|e] & E & Hr).
  - destruct Hr as [-> _]. unfold unit_name_from_path. rewrite (proj2 (suffix_valid_spec _)) by (by eexists).
    rewrite E. by eexists.
  - destruct (path_escape_chars name e Hs Hl E) as [Hp He].
    rewrite (from_path_text _ e) by done. eexists. split; [done|]. by exists e.
Qed.

Lemma is_device_path_total p : cstring p → ∃ b, is_device_path p = Some b.
Proof.
  intros Hp. unfold is_device_path. cbn [path_startswith_strv].
  destruct (path_startswith_correct p (bytes_of "/dev/") Hp) as (r & -> & _).
  { apply (bool_decide_unpack _). by vm_compute. }
  destruct (path_startswith_correct p (bytes_of "/sys/") Hp) as (r' & -> & _).
  { apply (bool_decide_unpack _). by vm_compute. }
  destruct r, r'; by eexists.
Qed.

Lemma mangle_char_spec c : 0 < c < 256 →
  Forall (.∈ VALID_CHARS_WITH_AT) (mangle_char VALID_CHARS_WITH_AT c) ∧
  (1 ≤ length (mangle_char VALID_CHARS_WITH_AT c) ≤ 4)%nat.
Proof.
  intros Hc. destruct (do_escape_char_spec c Hc) as [_ H]. unfold mangle_char.
  destruct (Z.eqb_spec c 47) as [->|].
  { split; [apply (bool_decide_unpack _); by vm_compute|simpl; lia]. }
  rewrite strchr_elem by lia. case_bool_decide; cbn [negb].
  - split; [by apply Forall_singleton|simpl; lia].
  - split; [by apply valid_chars_at|simpl; lia].
Qed.

Lemma do_escape_mangle_spec f : cstring f →
  Forall (.∈ VALID_CHARS_WITH_AT) (do_escape_mangle f false) ∧
  (length f ≤ length (do_escape_mangle f false) ≤ 4 * length f)%nat.
Proof.
  unfold do_escape_mangle. induction 1 as [|c f Hc _ [IH1 IH2]]; [split; [constructor|simpl; lia]|].
  destruct (mangle_char_spec c Hc) as [H1 H2]. rewrite bind_cons, length_app. cbn [length].
  split; [by apply Forall_app|lia].
Qed.

(** A suffix makes a name of any string of valid characters that does not start
    with an [@]. *)
Lemma append_suffix s t : s ≠ [] → Forall (.∈ VALID_CHARS_WITH_AT) s → char0 s ≠ 64 →
  ∃ p oi, s ++ 46 :: unit_type_to_string t = unit_text p oi t ∧ parts_ok p oi.
Proof.
  intros Hne Hs Hat. destruct (strchr_split s 64) as [[a e]|] eqn:E.
  - apply strchr_split_Some in E as (i & -> & -> & Ha). exists a, (Some i). unfold unit_text.
    rewrite <- (assoc_L (++)). split; [done|]. apply Forall_app in Hs as [Hsa Hsi].
    apply Forall_cons in Hsi as [_ Hsi]. split_and!; [by intros ->|by apply no_at|done].
  - apply strchr_split_None in E. exists s, None. split; [done|]. split_and!; [done|by apply no_at|constructor].
Qed.

Lemma to_type_total n : cstring n → ∃ r, unit_name_to_type n = Some r ∧
  (r ≠ None ↔ unit_name_is_valid n UNIT_NAME_ANY = true).
Proof.
  intros Hn. unfold unit_name_to_type. destruct (unit_name_is_valid n UNIT_NAME_ANY) eqn:Hv; cbn [negb].
  - destruct (unit_name_parts n _ Hn Hv) as (p & oi & t & -> & Hp). rewrite body_dot. cbn [mbind option_bind].
    change (drop 1 (46 :: unit_type_to_string t)) with (unit_type_to_string t). rewrite type_roundtrip.
    by eexists.
  - eexists. split; [done|]. by split.
Qed.

Lemma text_chars p oi t : parts_ok p oi → Forall (.∈ VALID_CHARS_WITH_AT) (unit_text p oi t).
Proof.
  intros H. rewrite unit_text_body. apply Forall_app. split; [by apply body_chars|].
  apply Forall_cons. split; [apply (bool_decide_unpack _); by vm_compute|apply valid_chars_at, type_string].
Qed.

Definition valid_if_short (n : list Z) : Prop :=
  char0 n ≠ 64 → Z.of_nat (length n) < UNIT_NAME_MAX → unit_name_is_valid n UNIT_NAME_ANY = true.

Lemma text_valid_if_short p oi t : parts_ok p oi → valid_if_short (unit_text p oi t).
Proof.
  intros Hp _ Hl. rewrite unit_text_valid, (proj2 (Z.ltb_lt _ _) Hl) by done. by destruct oi as [[|]|].
Qed.

(** The last part of the mangling: escaping, and a suffix where it is missing. *)
Lemma mangle_append name t : cstring name → name ≠ [] →
  let s := do_escape_mangle name false in
  let size := Z.of_nat (length name) * 4 + Z.of_nat (length (46 :: unit_type_to_string t)) + 1 in
  ∃ n, (s ← filled size s; type ← unit_name_to_type s;
        s ← filled size (if match type with None => true | Some _ => false end then s ++ 46 :: unit_type_to_string t else s);
        Some (inr (1, s))) = Some (inr (1, n) : Z + Z * list Z) ∧
    Forall (.∈ VALID_CHARS_WITH_AT) n ∧ valid_if_short n.
Proof.
  intros Hs Hne s size. subst s size. destruct (do_escape_mangle_spec name Hs) as [Hc Hl].
  set (s := do_escape_mangle name false) in *. rewrite filled_fits by (cbn [length]; lia). cbn [mbind option_bind].
  destruct (to_type_total s (valid_chars_cstring s Hc)) as (r & -> & Hr). cbn [mbind option_bind].
  destruct r as [t'|].
  - rewrite filled_fits by (cbn [length]; lia). exists s. split; [done|]. split; [done|].
    intros _ _. by apply Hr.
  - rewrite filled_fits by (rewrite length_app; cbn [length]; lia). eexists. split; [done|]. split.
    + apply Forall_app. split; [done|]. apply Forall_cons.
      split; [apply (bool_decide_unpack _); by vm_compute|apply valid_chars_at, type_string].
    + assert (s ≠ []) as Hsne by (destruct name; [done|]; destruct s; [simpl in Hl; lia|done]).
      intros Hat. destruct (append_suffix s t Hsne Hc) as (p & oi & E & Hp).
      { by destruct s. }
      rewrite E in *. by apply text_valid_if_short.
Qed.

(** Mangling, when globs are not allowed, always gives a name for a
    non-empty string and a valid suffix, within its buffers: a valid name is
    returned as it is, with 0; anything else becomes, with 1, a string of valid
    characters only, which is a valid unit name unless it starts with an [@] or
    has reached 256 characters. *)
Theorem unit_name_mangle_correct name suffix : cstring name → Z.of_nat (length name) < PATH_MAX → ∃ r,
  unit_name_mangle_with_suffix false name false suffix = Some r ∧
  match r with
  | inl e => e = - EINVAL ∧ (name = [] ∨ unit_suffix_is_valid suffix = false)
  | inr (k, n) => name ≠ [] ∧ unit_suffix_is_valid suffix = true ∧
      Forall (.∈ VALID_CHARS_WITH_AT) n ∧ valid_if_short n ∧
      (if unit_name_is_valid name UNIT_NAME_ANY then k = 0 ∧ n = name else k = 1)
  end.
Proof.
  intros Hs Hl. unfold unit_name_mangle_with_suffix. destruct name as [|c0 n0] eqn:En; [eexists; split; [done|]; by split; [|left]|].
  rewrite <- En in *. assert (name ≠ []) as Hne by (by rewrite En). clear En c0 n0.
  destruct (unit_suffix_is_valid suffix) eqn:Esuf; cbn [negb]; [|eexists; split; [done|]; by split; [|right]].
  apply suffix_valid_spec in Esuf as Ht. destruct Ht as (t & ->).
  destruct (unit_name_is_valid name UNIT_NAME_ANY) eqn:Hv.
  { eexists. split; [done|]. destruct (unit_name_parts name _ Hs Hv) as (p & oi & t' & -> & Hp).
    do 2 (split; [done|]). split; [by apply text_chars|]. split; [by apply text_valid_if_short|done]. }
  rewrite andb_false_r. destruct (is_device_path_total name Hs) as (dev & ->). cbn [mbind option_bind].
  assert (∀ t (b : bool), ∃ r, (if b then mangle_path false name (46 :: unit_type_to_string t) else Some None) = Some r ∧
    match r with None => True | Some r => ∃ e, r = inr (unit_text e None t) ∧ parts_ok e None end) as Hm.
  { intros t' b. destruct b; [by apply mangle_path_spec|by eexists]. }
  change (bytes_of ".device") with (46 :: unit_type_to_string UNIT_DEVICE).
  change (bytes_of ".mount") with (46 :: unit_type_to_string UNIT_MOUNT).
  destruct (Hm UNIT_DEVICE dev) as (r & -> & Hr). cbn [mbind option_bind]. destruct r as [r|].
  { destruct Hr as (e & -> & He). eexists. split; [done|]. do 2 (split; [done|]).
    split; [by apply text_chars|]. split; [by apply text_valid_if_short|done]. }
  destruct (Hm UNIT_MOUNT (path_is_absolute name)) as (r & -> & Hr'). cbn [mbind option_bind]. destruct r as [r|].
  { destruct Hr' as (e & -> & He). eexists. split; [done|]. do 2 (split; [done|]).
    split; [by apply text_chars|]. split; [by apply text_valid_if_short|done]. }
  cbn [negb orb andb]. destruct (mangle_append name t Hs Hne) as (n & E & Hc & Hvs). cbn zeta in E.
  rewrite E. eexists. split; [done|]. by split_and!.
Qed.

Lemma unit_name_mangle_correct_witness : ∃ k n,
  unit_name_mangle_with_suffix false (bytes_of "foo bar") false (bytes_of ".service") = Some (inr (k, n)) ∧
  unit_name_is_valid n UNIT_NAME_ANY = true.
Proof.
  destruct (unit_name_mangle_correct (bytes_of "foo bar") (bytes_of ".service")) as (r & E & H);
    [apply (bool_decide_unpack _); by vm_compute|by vm_compute|].
  pose proof E as E'. vm_compute in E'. injection E' as <-. eexists _, _. split; [exact E|].
  destruct H as (_ & _ & _ & Hv & _). by apply Hv.
Defined.

(** ** Slices *)

(** A slice is named after the list of the segments on its way from the root. *)
Definition segment (a : list Z) : Prop := a ≠ [] ∧ Forall (.∈ VALID_CHARS) a ∧ 45 ∉ a.
Definition dashes (l : list (list Z)) : list Z := l ≫= cons 45.
Definition dashed (l : list (list Z)) : list Z :=
  match l with [] => [] | a :: l => a ++ dashes l end.
Definition slice_of (l : list (list Z)) : list Z :=
  match l with [] => SPECIAL_ROOT_SLICE | _ => dashed l ++ dot_slice end.

Lemma dashed_snoc l x : l ≠ [] → dashed (l ++ [x]) = dashed l ++ 45 :: x.
Proof.
  destruct l as [|a l]; [done|]. intros _. cbn [app dashed]. unfold dashes. rewrite bind_app.
  rewrite (assoc_L (++)). cbn. by rewrite app_nil_r.
Qed.

Lemma dashes_dashed l : l ≠ [] → dashes l = 45 :: dashed l.
Proof. by destruct l. Qed.

Lemma slice_loop_copy a s : 45 ∉ a → slice_loop (a ++ s) false false = slice_loop s false false.
Proof.
  induction a as [|c a IH]; intros Ha; [done|]. apply not_elem_of_cons in Ha as [Hc Ha].
  cbn [app slice_loop]. by rewrite (proj2 (Z.eqb_neq c 45)), IH.
Qed.

(** Past a whole segment. *)
Lemma slice_loop_segment a s first dash : a ≠ [] → 45 ∉ a →
  slice_loop (a ++ s) first dash = slice_loop s false false.
Proof.
  intros Hne Ha. destruct a as [|c a]; [done|]. apply not_elem_of_cons in Ha as [Hc Ha].
  cbn [app slice_loop]. rewrite (proj2 (Z.eqb_neq c 45)) by done. by apply slice_loop_copy.
Qed.

Lemma slice_loop_dashed l first dash : Forall segment l → l ≠ [] →
  slice_loop (dashed l) first dash = Some false.
Proof.
  intros Hl Hne. revert first dash. induction Hl as [|a l (Ha0 & _ & Ha) Hl IH]; intros first dash; [done|].
  cbn [dashed]. rewrite slice_loop_segment by done. destruct l as [|b l]; [done|].
  rewrite dashes_dashed by done. cbn [slice_loop]. by apply IH.
Qed.

Lemma slice_loop_inv s : ∀ first dash, first || dash = true → Forall (.∈ VALID_CHARS) s → s ≠ [] →
  slice_loop s first dash = Some false → ∃ l, Forall segment l ∧ l ≠ [] ∧ s = dashed l.
Proof.
  induction s as [s IH] using list_length_ind. intros first dash Hfd Hv Hne.
  destruct (span_view (λ c, negb (c =? 45)) s) as (a & b & -> & _ & Ha & Hb).
  assert (45 ∉ a) as Ha' by (intros Hin; rewrite Forall_forall in Ha; by specialize (Ha _ Hin)).
  apply Forall_app in Hv as [Hva Hvb].
  destruct (decide (a = [])) as [->|Hane].
  { destruct b as [|c b]; [done|]. apply negb_false_iff, Z.eqb_eq in Hb as ->. cbn [app slice_loop].
    by rewrite Hfd. }
  rewrite slice_loop_segment by done.
  destruct b as [|c b].
  { intros _. exists [a]. cbn [dashed]. split; [by apply Forall_singleton|]. by split. }
  apply negb_false_iff, Z.eqb_eq in Hb as ->. cbn [slice_loop]. intros Hloop.
  apply Forall_cons in Hvb as [_ Hvb].
  destruct (IH b) with (first := false) (dash := true) as (l & Hl & Hlne & ->);
    [rewrite length_app; cbn [length]; lia|done|done|by intros ->|done|].
  exists (a :: l). split; [apply Forall_cons; by split|]. split; [done|].
  cbn [dashed]. by rewrite dashes_dashed.
Qed.

Lemma segment_chars l : Forall segment l → Forall (.∈ VALID_CHARS) (dashed l).
Proof.
  intros Hl. destruct l as [|a l]; [constructor|]. apply Forall_cons in Hl as [(_ & Ha & _) Hl].
  apply Forall_app. split; [done|]. apply Forall_bind. eapply Forall_impl; [exact Hl|].
  intros b (_ & Hb & _). apply Forall_cons. split; [apply (bool_decide_unpack _); by vm_compute|done].
Qed.

Lemma slice_of_text l : Forall segment l → ∃ p, slice_of l = unit_text p None UNIT_SLICE ∧ parts_ok p None ∧
  p = match l with [] => [45] | _ => dashed l end.
Proof.
  intros Hl. eexists. split; [|split; [|reflexivity]]; [by destruct l|].
  destruct l as [|a l]; [split_and!; [done|apply (bool_decide_unpack _); by vm_compute|constructor]|].
  split_and!; [|by apply segment_chars|constructor].
  apply Forall_cons in Hl as [(Ha & _) _]. cbn. by destruct a.
Qed.

Lemma slice_of_valid_plain l : Forall segment l → Z.of_nat (length (slice_of l)) < UNIT_NAME_MAX →
  unit_name_is_valid (slice_of l) (Flags true false false) = true.
Proof.
  intros Hl Hn. destruct (slice_of_text l Hl) as (p & E & Hp & _). rewrite E in *.
  by rewrite unit_text_valid, (proj2 (Z.ltb_lt _ _) Hn).
Qed.

Lemma root_slice_iff l : Forall segment l → streq (slice_of l) SPECIAL_ROOT_SLICE = bool_decide (l = []).
Proof.
  intros Hl. unfold streq. apply bool_decide_ext. split; [|by intros ->]. intros E.
  destruct l as [|a l]; [done|]. apply Forall_cons in Hl as [(Ha & _ & Hd) _]. destruct a as [|c a]; [done|].
  injection E as -> _. by apply not_elem_of_cons in Hd as [? _].
Qed.

Lemma slice_of_valid l : Forall segment l → Z.of_nat (length (slice_of l)) < UNIT_NAME_MAX →
  slice_name_is_valid (slice_of l) = true.
Proof.
  intros Hl Hn. unfold slice_name_is_valid. rewrite slice_of_valid_plain by done. cbn [negb].
  rewrite root_slice_iff by done. case_bool_decide as E; [done|].
  rewrite (proj2 (endswith_Some (slice_of l) dot_slice (dashed l))) by (by destruct l).
  by rewrite slice_loop_dashed.
Qed.

Lemma slice_valid_inv n : cstring n → slice_name_is_valid n = true → ∃ l, Forall segment l ∧ n = slice_of l.
Proof.
  intros Hn. unfold slice_name_is_valid. destruct (unit_name_is_valid n _) eqn:Hv; cbn [negb]; [|done].
  unfold streq. case_bool_decide as Hr; [intros _; exists []; split; [constructor|done]|].
  destruct (unit_name_parts n _ Hn Hv) as (p & oi & t & E & Hp). rewrite E in Hv.
  rewrite unit_text_valid in Hv by done. apply andb_true_iff in Hv as [_ Hk].
  destruct oi as [[|]|]; [done..|]. destruct (endswith n dot_slice) as [q|] eqn:Ee; [|done].
  apply endswith_Some in Ee. destruct (slice_loop q true false) as [d|] eqn:El; [|done].
  intros Hd%negb_true_iff. subst d. destruct Hp as (Hne & Hpc & _).
  assert (Some (p, 46 :: unit_type_to_string t) = Some (q, dot_slice)) as [= -> Et].
  { transitivity (strrchr_split n 46); [rewrite E, body_dot; unfold name_body; by rewrite app_nil_r|].
    apply strrchr_split_Some. eexists. split; [reflexivity|]. split; [done|].
    apply (bool_decide_unpack _). by vm_compute. }
  destruct (slice_loop_inv q true false) as (l & Hl & Hlne & ->); [done..|].
  exists l. split; [done|]. rewrite Ee. by destruct l.
Qed.

(** Slices are a tree of paths of segments. The valid slice names are exactly
    those of lists of non-empty segments of valid characters without dashes,
    joined by dashes, the root being the empty list; the parent of a slice drops
    the last segment, the root has none, and adding a segment gives a slice whose
    parent it was added to. *)
Theorem slice_tree n l x : cstring n → Forall segment l → segment x →
  Z.of_nat (length (slice_of (l ++ [x]))) < UNIT_NAME_MAX →
  (slice_name_is_valid n = true ↔
   Z.of_nat (length n) < UNIT_NAME_MAX ∧ ∃ l, Forall segment l ∧ n = slice_of l) ∧
  slice_build_parent_slice false (slice_of []) = Some (inr None) ∧
  slice_build_parent_slice false (slice_of (l ++ [x])) = Some (inr (Some (slice_of l))) ∧
  (Z.of_nat (length (slice_of l)) < UNIT_NAME_MAX →
   slice_build_subslice false (slice_of l) x = Some (inr (slice_of (l ++ [x])))).
Proof.
  intros Hn Hl Hx Hlen. assert (Forall segment (l ++ [x])) as Hlx by (apply Forall_app; split; [done|by apply Forall_singleton]).
  split; [split|split; [by vm_compute|split]].
  - intros Hv. split; [|by apply slice_valid_inv]. unfold slice_name_is_valid, unit_name_is_valid in Hv.
    destruct n; [done|]. destruct (Z.leb_spec UNIT_NAME_MAX (Z.of_nat (length (z :: n)))); done.
  - intros (Hnl & l' & Hl' & ->). by apply slice_of_valid.
  - unfold slice_build_parent_slice. rewrite slice_of_valid, root_slice_iff by done. cbn [negb].
    rewrite bool_decide_eq_false_2 by (by destruct l).
    assert (slice_of (l ++ [x]) = dashed (l ++ [x]) ++ dot_slice) as E by (by destruct l). rewrite E.
    assert (45 ∉ dot_slice) as Hds by (apply (bool_decide_unpack _); by vm_compute).
    destruct Hx as (_ & _ & Hx). destruct l as [|a l].
    + change (dashed ([] ++ [x])) with (x ++ []). rewrite app_nil_r.
      rewrite (proj2 (strrchr_split_None (x ++ dot_slice) 45)); [done|]. rewrite elem_of_app. naive_solver.
    + rewrite dashed_snoc by done.
      rewrite (proj2 (strrchr_split_Some _ 45 (dashed (a :: l)) (45 :: x ++ dot_slice))).
      2: { eexists. split; [reflexivity|]. rewrite <- (assoc_L (++)). split; [done|]. rewrite elem_of_app. naive_solver. }
      rewrite filled_fits; [done|]. rewrite !length_app. cbn [length]. lia.
  - intros Hls. unfold slice_build_subslice. rewrite slice_of_valid, root_slice_iff by done. cbn [negb].
    destruct Hx as (Hx0 & Hxc & _). rewrite (proj2 (prefix_valid_spec x)) by done. cbn [negb].
    case_bool_decide as E0.
    + subst l. assert (concat [x; dot_slice] = slice_of [x]) as E by (cbn; by rewrite !app_nil_r).
      rewrite name_join_spec, E; [done|]. rewrite E. unfold UNIT_NAME_MAX, SIZE_MAX, UINT64_MAX in *. cbn [app] in Hlen. lia.
    + rewrite (proj2 (endswith_Some (slice_of l) dot_slice (dashed l))) by (by destruct l). cbn [mbind option_bind].
      rewrite alloc_spec; [|rewrite !length_app; change (length dot_slice) with 6%nat; cbn [length]; lia].
      assert (slice_of (l ++ [x]) = dashed (l ++ [x]) ++ dot_slice) as -> by (by destruct l).
      by rewrite dashed_snoc, <- (assoc_L (++)).
Qed.

Lemma slice_tree_witness :
  slice_build_parent_slice false (bytes_of "a-b.slice") = Some (inr (Some (bytes_of "a.slice"))).
Proof.
  apply (slice_tree (bytes_of "a.slice") [bytes_of "a"] (bytes_of "b"));
    [apply (bool_decide_unpack _); by vm_compute| | |by vm_compute].
  - apply Forall_singleton. split_and!; [done|..]; apply (bool_decide_unpack _); by vm_compute.
  - split_and!; [done|..]; apply (bool_decide_unpack _); by vm_compute.
Defined.

(** [slice_build_subslice] takes any valid prefix for a segment: a dash below
    the root gives the root again, and a leading dash a name that is not a valid
    slice. *)
Example subslice_dash :
  slice_build_subslice false SPECIAL_ROOT_SLICE (bytes_of "-") = Some (inr SPECIAL_ROOT_SLICE) ∧
  slice_build_subslice false (bytes_of "a.slice") (bytes_of "-b") = Some (inr (bytes_of "a--b.slice")) ∧
  slice_name_is_valid (bytes_of "a--b.slice") = false.
Proof. by vm_compute. Qed.
