(* ===== verification/BusSignature.v ===== *)
(** * systemd: D-Bus types and signatures

    Models [src/app/multi_process/day1/systemd/src/libsystemd/sd-bus/bus-type.c] and
    [bus-signature.c]: the type codes of D-Bus and the recognizer of type
    signatures, and shows that the recognizer accepts exactly the grammar of D-Bus
    with its limits on nesting and length.

    A signature is the list of its characters without the NUL; reading at its end
    gives the NUL. The recursion and its loops take fuel; twice the length and one
    more is enough. *)

From Stdlib Require Import String.
From S2P Require Import Prelude Hexdecoct Utf8 Utf8Props Escape StringUtil PathUtil.

#[local] Open Scope Z_scope.
#[local] Set Warnings "-clear-no-such-hyp".

(** ** Type codes *)

Definition SD_BUS_TYPE_BYTE : Z := 121.
Definition SD_BUS_TYPE_BOOLEAN : Z := 98.
Definition SD_BUS_TYPE_INT16 : Z := 110.
Definition SD_BUS_TYPE_UINT16 : Z := 113.
Definition SD_BUS_TYPE_INT32 : Z := 105.
Definition SD_BUS_TYPE_UINT32 : Z := 117.
Definition SD_BUS_TYPE_INT64 : Z := 120.
Definition SD_BUS_TYPE_UINT64 : Z := 116.
Definition SD_BUS_TYPE_DOUBLE : Z := 100.
Definition SD_BUS_TYPE_STRING : Z := 115.
Definition SD_BUS_TYPE_OBJECT_PATH : Z := 111.
Definition SD_BUS_TYPE_SIGNATURE : Z := 103.
Definition SD_BUS_TYPE_UNIX_FD : Z := 104.
Definition SD_BUS_TYPE_ARRAY : Z := 97.
Definition SD_BUS_TYPE_VARIANT : Z := 118.
Definition SD_BUS_TYPE_STRUCT : Z := 114.
Definition SD_BUS_TYPE_STRUCT_BEGIN : Z := 40.
Definition SD_BUS_TYPE_STRUCT_END : Z := 41.
Definition SD_BUS_TYPE_DICT_ENTRY : Z := 101.
Definition SD_BUS_TYPE_DICT_ENTRY_BEGIN : Z := 123.
Definition SD_BUS_TYPE_DICT_ENTRY_END : Z := 125.

Definition SD_BUS_MAXIMUM_SIGNATURE_LENGTH : nat := 255.

Definition trivial_types : list Z := [SD_BUS_TYPE_BYTE; SD_BUS_TYPE_BOOLEAN; SD_BUS_TYPE_INT16; SD_BUS_TYPE_UINT16;
  SD_BUS_TYPE_INT32; SD_BUS_TYPE_UINT32; SD_BUS_TYPE_INT64; SD_BUS_TYPE_UINT64; SD_BUS_TYPE_DOUBLE].

Definition basic_types : list Z := trivial_types ++ [SD_BUS_TYPE_STRING; SD_BUS_TYPE_OBJECT_PATH; SD_BUS_TYPE_SIGNATURE; SD_BUS_TYPE_UNIX_FD].

Definition container_types : list Z := [SD_BUS_TYPE_ARRAY; SD_BUS_TYPE_VARIANT; SD_BUS_TYPE_STRUCT; SD_BUS_TYPE_DICT_ENTRY].

Definition bus_type_is_trivial (c : Z) : bool := bool_decide (c ∈ trivial_types).
Definition bus_type_is_basic (c : Z) : bool := bool_decide (c ∈ basic_types).
Definition bus_type_is_container (c : Z) : bool := bool_decide (c ∈ container_types).
Definition bus_type_is_valid (c : Z) : bool := bool_decide (c ∈ basic_types ++ container_types).

Definition bus_type_get_alignment (c : Z) : Z :=
  if bool_decide (c ∈ [SD_BUS_TYPE_BYTE; SD_BUS_TYPE_SIGNATURE; SD_BUS_TYPE_VARIANT]) then 1
  else if bool_decide (c ∈ [SD_BUS_TYPE_INT16; SD_BUS_TYPE_UINT16]) then 2
  else if bool_decide (c ∈ [SD_BUS_TYPE_BOOLEAN; SD_BUS_TYPE_INT32; SD_BUS_TYPE_UINT32; SD_BUS_TYPE_STRING; SD_BUS_TYPE_OBJECT_PATH; SD_BUS_TYPE_ARRAY; SD_BUS_TYPE_UNIX_FD]) then 4
  else if bool_decide (c ∈ [SD_BUS_TYPE_INT64; SD_BUS_TYPE_UINT64; SD_BUS_TYPE_DOUBLE; SD_BUS_TYPE_STRUCT; SD_BUS_TYPE_STRUCT_BEGIN; SD_BUS_TYPE_DICT_ENTRY; SD_BUS_TYPE_DICT_ENTRY_BEGIN]) then 8
  else - EINVAL.

Definition bus_type_get_size (c : Z) : Z :=
  if c =? SD_BUS_TYPE_BYTE then 1
  else if bool_decide (c ∈ [SD_BUS_TYPE_INT16; SD_BUS_TYPE_UINT16]) then 2
  else if bool_decide (c ∈ [SD_BUS_TYPE_BOOLEAN; SD_BUS_TYPE_INT32; SD_BUS_TYPE_UINT32; SD_BUS_TYPE_UNIX_FD]) then 4
  else if bool_decide (c ∈ [SD_BUS_TYPE_INT64; SD_BUS_TYPE_UINT64; SD_BUS_TYPE_DOUBLE]) then 8
  else - EINVAL.

(** ** The recognizer *)

(** The error, or the number of characters of the element at the start of [s].
    [members] is the loop over the elements up to the closing character: how many
    characters they have and how many they are. *)
Fixpoint signature_element_length_internal (fuel : nat) (s : list Z) (allow_dict_entry : bool) (array_depth struct_depth : Z) : option (Z + nat) :=
  match fuel with
  | O => None
  | S fuel =>
      let c := char0 s in
      if bus_type_is_basic c || (c =? SD_BUS_TYPE_VARIANT) then Some (inr 1%nat)
      else if c =? SD_BUS_TYPE_ARRAY then
        if 32 <=? array_depth then Some (inl (- EINVAL))
        else
          r ← signature_element_length_internal fuel (drop 1 s) true (array_depth + 1) struct_depth;
          Some (match r with inl e => inl e | inr t => inr (t + 1)%nat end)
      else if c =? SD_BUS_TYPE_STRUCT_BEGIN then
        if 32 <=? struct_depth then Some (inl (- EINVAL))
        else
          r ← members fuel (drop 1 s) SD_BUS_TYPE_STRUCT_END false 0 array_depth (struct_depth + 1);
          Some (match r with inl e => inl e | inr (t, _) => if (t + 1 <? 2)%nat then inl (- EINVAL) else inr (t + 2)%nat end)
      else if (c =? SD_BUS_TYPE_DICT_ENTRY_BEGIN) && allow_dict_entry then
        if 32 <=? struct_depth then Some (inl (- EINVAL))
        else
          r ← members fuel (drop 1 s) SD_BUS_TYPE_DICT_ENTRY_END true 0 array_depth (struct_depth + 1);
          Some (match r with inl e => inl e | inr (t, n) => if negb (n =? 2)%nat then inl (- EINVAL) else inr (t + 2)%nat end)
      else Some (inl (- EINVAL))
  end
with members (fuel : nat) (p : list Z) (close : Z) (dict : bool) (n : nat) (array_depth struct_depth : Z) : option (Z + nat * nat) :=
  match fuel with
  | O => None
  | S fuel =>
      if char0 p =? close then Some (inr (0%nat, n))
      else if dict && (n =? 0)%nat && negb (bus_type_is_basic (char0 p)) then Some (inl (- EINVAL))
      else
        r ← signature_element_length_internal fuel p false array_depth struct_depth;
        match r with
        | inl e => Some (inl e)
        | inr t =>
            r ← members fuel (drop t p) close dict (n + 1) array_depth struct_depth;
            Some (match r with inl e => inl e | inr (t', n) => inr ((t + t')%nat, n) end)
        end
  end.

Definition signature_fuel (s : list Z) : nat := 2 * length s + 1.

Definition signature_element_length (s : list Z) : option (Z + nat) := signature_element_length_internal (signature_fuel s) s true 0 0.

Definition signature_is_single (s : list Z) (allow_dict_entry : bool) : option bool :=
  r ← signature_element_length_internal (signature_fuel s) s allow_dict_entry 0 0;
  Some (match r with inl _ => false | inr t => char0 (drop t s) =? 0 end).

Definition signature_is_pair (s : list Z) : option bool :=
  if negb (bus_type_is_basic (char0 s)) then Some false else signature_is_single (drop 1 s) false.

(** The loop over the elements of a signature: whether they are all good. *)
Fixpoint elements_loop (fuel : nat) (p : list Z) (allow_dict_entry : bool) : option bool :=
  match fuel with
  | O => None
  | S fuel =>
      if char0 p =? 0 then Some true
      else
        r ← signature_element_length_internal (signature_fuel p) p allow_dict_entry 0 0;
        match r with inl _ => Some false | inr t => elements_loop fuel (drop t p) allow_dict_entry end
  end.

Definition signature_is_valid (s : list Z) (allow_dict_entry : bool) : option bool :=
  ok ← elements_loop (S (length s)) s allow_dict_entry;
  Some (ok && (length s <=? SD_BUS_MAXIMUM_SIGNATURE_LENGTH)%nat).

Example signature_ex : map (λ s, (signature_is_valid (bytes_of s) false, signature_is_single (bytes_of s) false)) ["a{sv}"; "(i(ss))au"; "()"; "a{vs}"; "a"; "{sv}"]%string =
  [(Some true, Some true); (Some true, Some false); (Some false, Some false); (Some false, Some false); (Some false, Some false); (Some false, Some false)].
Proof. by vm_compute. Qed.

(** ** The grammar *)

(** A single complete type at a depth of arrays and of structures. *)
Inductive element : bool → Z → Z → list Z → Prop :=
  | el_basic allow ad sd c : bus_type_is_basic c = true → element allow ad sd [c]
  | el_variant allow ad sd : element allow ad sd [SD_BUS_TYPE_VARIANT]
  | el_array allow ad sd e : ad < 32 → element true (ad + 1) sd e → element allow ad sd (SD_BUS_TYPE_ARRAY :: e)
  | el_struct allow ad sd es : sd < 32 → es ≠ [] → (∀ e, e ∈ es → element false ad (sd + 1) e) →
      element allow ad sd (SD_BUS_TYPE_STRUCT_BEGIN :: concat es ++ [SD_BUS_TYPE_STRUCT_END])
  | el_dict ad sd k e : sd < 32 → bus_type_is_basic k = true → element false ad (sd + 1) e →
      element true ad sd (SD_BUS_TYPE_DICT_ENTRY_BEGIN :: k :: e ++ [SD_BUS_TYPE_DICT_ENTRY_END]).

(** Characters that start an element. *)
Definition opens (c : Z) : bool := bool_decide (c ∈ basic_types ++ [SD_BUS_TYPE_VARIANT; SD_BUS_TYPE_ARRAY; SD_BUS_TYPE_STRUCT_BEGIN; SD_BUS_TYPE_DICT_ENTRY_BEGIN]).

Lemma opens_basic c : bus_type_is_basic c = true → opens c = true.
Proof. unfold bus_type_is_basic, opens. rewrite !bool_decide_eq_true. set_solver. Qed.

Lemma element_opens allow ad sd e : element allow ad sd e → ∃ c e', e = c :: e' ∧ opens c = true.
Proof. destruct 1; eexists _, _; (split; [reflexivity|]); first [by apply opens_basic|done]. Qed.

(** None of these closes a container or ends the string. *)
Lemma opens_not c : opens c = true → c ≠ SD_BUS_TYPE_STRUCT_END ∧ c ≠ SD_BUS_TYPE_DICT_ENTRY_END ∧ c ≠ 0.
Proof. intros Hc. split_and!; intros ->; by vm_compute in Hc. Qed.

(** *** The recognizer accepts elements *)

Lemma members_accept close dict ad sd es rest : (∀ e, e ∈ es → element false ad sd e ∧ ∀ rest f, (2 * length (e ++ rest) + 1 ≤ f)%nat → signature_element_length_internal f (e ++ rest) false ad sd = Some (inr (length e))) →
  (∀ c, opens c = true → c ≠ close) → ∀ f n, (dict = true → n = 0%nat → ∀ e es', es = e :: es' → bus_type_is_basic (char0 e) = true) →
  (2 * length (concat es ++ close :: rest) + 2 ≤ f)%nat → members f (concat es ++ close :: rest) close dict n ad sd = Some (inr (length (concat es), (n + length es)%nat)).
Proof.
  intros HE Hclose. induction es as [|e es IH]; intros f n Hd Hf; (destruct f as [|f]; [lia|]); cbn [concat app members].
  - cbn [char0]. rewrite Z.eqb_refl, Nat.add_0_r. done.
  - destruct (HE e ltac:(left)) as [He Hacc]. destruct (element_opens _ _ _ _ He) as (c & e' & Ee & Hc). rewrite <- app_assoc.
    assert (char0 (e ++ concat es ++ close :: rest) = c) as -> by (by rewrite Ee). rewrite (proj2 (Z.eqb_neq c close)) by auto.
    assert (dict && (n =? 0)%nat && negb (bus_type_is_basic c) = false) as ->.
    { destruct dict, n; cbn; try done. specialize (Hd eq_refl eq_refl e es eq_refl). rewrite Ee in Hd. cbn in Hd. by rewrite Hd. }
    cbn [concat] in Hf. rewrite <- app_assoc in Hf. rewrite Hacc by lia. cbn [mbind option_bind]. rewrite drop_app_length.
    rewrite IH; [cbn; do 3 f_equal; [by rewrite length_app|lia]|intros; apply HE; by right|by intros _ H; lia|]. rewrite length_app in Hf. subst e. cbn [length] in Hf. lia.
Qed.

Lemma element_accept allow ad sd e : element allow ad sd e →
  ∀ rest f, (2 * length (e ++ rest) + 1 ≤ f)%nat → signature_element_length_internal f (e ++ rest) allow ad sd = Some (inr (length e)).
Proof.
  induction 1 as [allow ad sd c Hc|allow ad sd|allow ad sd e Hd He IH|allow ad sd es Hd Hne He IH|ad sd k e Hd Hk He IH]; intros rest f Hf;
    (destruct f as [|f]; [lia|]); cbn [app signature_element_length_internal char0].
  - by rewrite Hc.
  - done.
  - cbn -[Z.leb]. rewrite (proj2 (Z.leb_gt 32 ad)) by lia. change (drop 0 (e ++ rest)) with (e ++ rest). rewrite IH by (cbn [app length] in Hf; lia). cbn. do 2 f_equal. lia.
  - cbn -[Z.leb members Nat.ltb]. rewrite (proj2 (Z.leb_gt 32 sd)) by lia. change (drop 0 ?x) with x. rewrite <- app_assoc. cbn [app].
    rewrite (members_accept _ false ad (sd + 1) es rest); [|by intros e Hin; split; [apply He|apply IH]|intros c Hc; apply opens_not in Hc; tauto|done|].
    + cbn [mbind option_bind]. assert (1 ≤ length (concat es))%nat as Hl.
      { destruct es as [|e es]; [done|]. destruct (element_opens _ _ _ _ (He e ltac:(left))) as (c & e' & -> & _). cbn. lia. }
      rewrite (proj2 (Nat.ltb_ge _ 2)) by lia. do 2 f_equal. cbn [length]. rewrite length_app. cbn. lia.
    + cbn [app length] in Hf. rewrite <- app_assoc in Hf. cbn [app] in Hf. lia.
  - cbn -[Z.leb members Nat.ltb]. rewrite (proj2 (Z.leb_gt 32 sd)) by lia. change (drop 0 ?x) with x. rewrite <- app_assoc. cbn [app].
    change (k :: e ++ SD_BUS_TYPE_DICT_ENTRY_END :: rest) with ([k] ++ e ++ SD_BUS_TYPE_DICT_ENTRY_END :: rest).
    replace ([k] ++ e ++ SD_BUS_TYPE_DICT_ENTRY_END :: rest) with (concat [[k]; e] ++ SD_BUS_TYPE_DICT_ENTRY_END :: rest) by (cbn; by rewrite app_nil_r).
    rewrite (members_accept _ true ad (sd + 1) [[k]; e] rest).
    + cbn. rewrite app_nil_r, length_app. cbn. do 2 f_equal. lia.
    + intros x [->|[->|[]%not_elem_of_nil]%elem_of_cons]%elem_of_cons; [|by split]. split; [by constructor|]. intros r [|f'] Hf'; [lia|]. cbn. by rewrite Hk.
    + intros c Hc. apply opens_not in Hc. tauto.
    + intros _ _ x es' [= <- _]. done.
    + cbn [app length] in Hf |- *. cbn. rewrite app_nil_r. rewrite <- app_assoc in Hf. cbn [app] in Hf. lia.
Qed.

(** *** What it accepts are elements *)

Lemma basic_head allow ad sd e : element allow ad sd e → bus_type_is_basic (char0 e) = true → ∃ c, e = [c] ∧ bus_type_is_basic c = true.
Proof. destruct 1; intros Hb; [by eexists|by vm_compute in Hb..]. Qed.

Lemma char0_cons s c : char0 s = c → c ≠ 0 → ∃ s', s = c :: s'.
Proof. destruct s as [|x s]; cbn; [by intros <-|]. intros -> _. by exists s. Qed.

Lemma take_closed {A} (x y : A) l rest : take (length l + 2) (x :: l ++ y :: rest) = x :: l ++ [y].
Proof.
  replace (length l + 2)%nat with (S (length (l ++ [y]))) by (rewrite length_app; cbn; lia). cbn. f_equal.
  replace (l ++ y :: rest) with ((l ++ [y]) ++ rest) by (by rewrite <- app_assoc). apply take_app_length.
Qed.

Definition good_element (s : list Z) (allow : bool) (ad sd : Z) (r : Z + nat) : Prop :=
  match r with inl e => e = - EINVAL | inr t => (1 ≤ t ≤ length s)%nat ∧ element allow ad sd (take t s) end.

Definition good_members (p : list Z) (close : Z) (dict : bool) (n : nat) (ad sd : Z) (r : Z + nat * nat) : Prop :=
  match r with
  | inl e => e = - EINVAL
  | inr (t, m) => ∃ es rest, p = concat es ++ close :: rest ∧ t = length (concat es) ∧ m = (n + length es)%nat ∧ (∀ e, e ∈ es → element false ad sd e) ∧
      (dict = true → n = 0%nat → ∀ e es', es = e :: es' → bus_type_is_basic (char0 e) = true)
  end.

Lemma struct_good s sd ad allow r : sd < 32 → good_members s SD_BUS_TYPE_STRUCT_END false 0 ad (sd + 1) r →
  good_element (SD_BUS_TYPE_STRUCT_BEGIN :: s) allow ad sd (match r with inl e => inl e | inr (t, _) => if (t + 1 <? 2)%nat then inl (- EINVAL) else inr (t + 2)%nat end).
Proof.
  intros Hd. destruct r as [e|[t m]]; [done|]. intros (es & rest & -> & -> & _ & He & _). destruct (Nat.ltb_spec (length (concat es) + 1) 2) as [|Hl]; [done|].
  split; [cbn [length]; rewrite length_app; cbn; lia|]. rewrite take_closed. apply el_struct; [done| |done]. intros ->. cbn in Hl. lia.
Qed.

Lemma dict_good s sd ad r : sd < 32 → good_members s SD_BUS_TYPE_DICT_ENTRY_END true 0 ad (sd + 1) r →
  good_element (SD_BUS_TYPE_DICT_ENTRY_BEGIN :: s) true ad sd (match r with inl e => inl e | inr (t, n) => if negb (n =? 2)%nat then inl (- EINVAL) else inr (t + 2)%nat end).
Proof.
  intros Hd. destruct r as [e|[t m]]; [done|]. intros (es & rest & -> & -> & -> & He & Hb). destruct (Nat.eqb_spec (0 + length es) 2) as [Hl|]; [|done]. cbn [negb].
  destruct es as [|k [|e [|]]]; try done. destruct (basic_head _ _ _ k (He k ltac:(left)) (Hb eq_refl eq_refl _ _ eq_refl)) as (c & -> & Hc).
  split; [cbn [length]; rewrite length_app; cbn; lia|]. rewrite take_closed. cbn. rewrite app_nil_r. constructor; [done|done|]. apply He. right. left.
Qed.

Lemma recognizer_good f :
  (∀ s allow ad sd, (2 * length s + 1 ≤ f)%nat → ∃ r, signature_element_length_internal f s allow ad sd = Some r ∧ good_element s allow ad sd r) ∧
  (∀ p close dict n ad sd, (2 * length p + 2 ≤ f)%nat → close ≠ 0 → ∃ r, members f p close dict n ad sd = Some r ∧ good_members p close dict n ad sd r).
Proof.
  induction f as [|f [IHe IHm]]; [split; intros; lia|]. split.
  - intros s allow ad sd Hf. cbn [signature_element_length_internal]. destruct (bus_type_is_basic (char0 s) || (char0 s =? SD_BUS_TYPE_VARIANT)) eqn:Eb.
    { eexists. split; [done|]. assert (char0 s ≠ 0) as Hne by (intros E; by rewrite E in Eb). destruct s as [|c s]; [done|]. cbn in Eb |- *. rewrite take_0. split; [lia|].
      apply orb_true_iff in Eb as [Eb|Eb%Z.eqb_eq]; [by constructor|]. rewrite Eb. apply el_variant. }
    destruct (Z.eqb_spec (char0 s) SD_BUS_TYPE_ARRAY) as [Ea|_].
    { apply char0_cons in Ea as [s' ->]; [|done]. destruct (Z.leb_spec 32 ad); [by eexists|]. change (drop 1 (SD_BUS_TYPE_ARRAY :: s')) with s'. cbn [length] in Hf.
      destruct (IHe s' true (ad + 1) sd) as (r & -> & G); [lia|]. eexists. split; [done|]. destruct r as [e|t]; [done|]. destruct G as [Hl He]. split; [cbn; lia|]. rewrite Nat.add_1_r. by constructor. }
    destruct (Z.eqb_spec (char0 s) SD_BUS_TYPE_STRUCT_BEGIN) as [Ea|_].
    { apply char0_cons in Ea as [s' ->]; [|done]. destruct (Z.leb_spec 32 sd); [by eexists|]. change (drop 1 (SD_BUS_TYPE_STRUCT_BEGIN :: s')) with s'. cbn [length] in Hf.
      destruct (IHm s' SD_BUS_TYPE_STRUCT_END false 0%nat ad (sd + 1)) as (r & -> & G); [lia|done|]. eexists. split; [done|]. by apply struct_good. }
    destruct ((char0 s =? SD_BUS_TYPE_DICT_ENTRY_BEGIN) && allow) eqn:Ed; [|by eexists].
    apply andb_true_iff in Ed as [Ea%Z.eqb_eq ->]. apply char0_cons in Ea as [s' ->]; [|done]. destruct (Z.leb_spec 32 sd); [by eexists|]. change (drop 1 (SD_BUS_TYPE_DICT_ENTRY_BEGIN :: s')) with s'. cbn [length] in Hf.
    destruct (IHm s' SD_BUS_TYPE_DICT_ENTRY_END true 0%nat ad (sd + 1)) as (r & -> & G); [lia|done|]. eexists. split; [done|]. by apply dict_good.
  - intros p close dict n ad sd Hf Hc. cbn [members]. destruct (Z.eqb_spec (char0 p) close) as [Ep|Ep].
    { apply char0_cons in Ep as [p' ->]; [|done]. eexists. split; [done|]. exists [], p'. rewrite Nat.add_0_r. by split_and!; [..|intros e ?%not_elem_of_nil|]. }
    destruct (dict && (n =? 0)%nat && negb (bus_type_is_basic (char0 p))) eqn:Eb; [by eexists|].
    destruct (IHe p false ad sd) as (r & -> & G); [lia|]. cbn [mbind option_bind]. destruct r as [e|t]; [by eexists|]. destruct G as [Hl He].
    destruct (IHm (drop t p) close dict (n + 1)%nat ad sd) as (r & -> & G); [rewrite length_drop; lia|done|]. eexists. split; [done|]. destruct r as [e|[t' m]]; [done|].
    destruct G as (es & rest & Ep' & -> & -> & Hes & _). exists (take t p :: es), rest. cbn [concat length]. rewrite length_app, length_take, Nat.min_l by lia.
    split; [by rewrite <- app_assoc, <- Ep', take_drop|]. split; [done|]. split; [lia|]. split; [intros e [->|Hin]%elem_of_cons; auto|].
    intros -> -> e es' [= <- _]. apply negb_false_iff in Eb. destruct p; [by cbn in Hl; lia|]. by destruct t; [lia|].
Qed.

(** ** Theorems *)

Lemma internal_exact s allow : ∃ r, signature_element_length_internal (signature_fuel s) s allow 0 0 = Some r ∧ good_element s allow 0 0 r ∧
  ∀ t, (t ≤ length s)%nat → element allow 0 0 (take t s) → r = inr t.
Proof.
  destruct (proj1 (recognizer_good (signature_fuel s)) s allow 0 0) as (r & E & G); [unfold signature_fuel; lia|]. exists r. split; [done|]. split; [done|].
  intros t Ht He. pose proof (element_accept _ _ _ _ He (drop t s) (signature_fuel s)) as HA. rewrite take_drop, length_take, Nat.min_l in HA by done.
  rewrite HA in E by (unfold signature_fuel; lia). by injection E.
Qed.

Lemma char0_end s : cstring s → (char0 s =? 0) = true ↔ s = [].
Proof. intros Hs. destruct s as [|c s]; [done|]. apply Forall_cons in Hs as [Hc _]. cbn. split; [intros E%Z.eqb_eq; lia|done]. Qed.

Lemma single_exact s allow : cstring s → ∃ b, signature_is_single s allow = Some b ∧ (b = true ↔ element allow 0 0 s).
Proof.
  intros Hs. destruct (internal_exact s allow) as (r & E & G & U). unfold signature_is_single. rewrite E. cbn [mbind option_bind]. eexists. split; [done|]. split.
  - destruct r as [e|t]; [done|]. destruct G as [Hl He]. intros Hd. apply char0_end in Hd; [|by apply Forall_drop].
    pose proof (take_drop t s) as Et. rewrite Hd, app_nil_r in Et. by rewrite Et in He.
  - intros He. specialize (U (length s)). rewrite firstn_all in U. rewrite (U ltac:(lia) He). by rewrite drop_all.
Qed.

Lemma elements_exact f p allow : cstring p → (length p < f)%nat → ∃ b, elements_loop f p allow = Some b ∧ (b = true ↔ ∃ es, p = concat es ∧ ∀ e, e ∈ es → element allow 0 0 e).
Proof.
  revert p. induction f as [|f IH]; intros p Hp Hf; [lia|]. cbn [elements_loop]. destruct (char0 p =? 0) eqn:E0.
  { apply char0_end in E0; [|done]. subst p. exists true. split; [done|]. split; [|done]. intros _. exists []. by split; [|intros e ?%not_elem_of_nil]. }
  destruct (internal_exact p allow) as (r & -> & G & U). cbn [mbind option_bind].
  assert (∀ e es, p = concat (e :: es) → element allow 0 0 e → r = inr (length e) ∧ drop (length e) p = concat es) as HF.
  { intros e es -> He. cbn [concat] in *. rewrite drop_app_length. split; [|done]. apply U; [rewrite length_app; lia|]. by rewrite take_app_length. }
  assert (∀ es, p = concat es → es ≠ []) as HN by (intros es -> ->; done). destruct r as [x|t].
  - exists false. split; [done|]. split; [done|]. intros ([|e es] & Ep & He); [by destruct (HN _ Ep)|]. by destruct (HF e es Ep (He e ltac:(left))).
  - destruct G as [Hl He]. destruct (IH (drop t p)) as (b & -> & Hb); [by apply Forall_drop|rewrite length_drop; lia|]. exists b. split; [done|]. rewrite Hb. split.
    + intros (es & Ed & Hes). exists (take t p :: es). cbn. rewrite <- Ed, take_drop. split; [done|]. intros e [->|Hin]%elem_of_cons; auto.
    + intros ([|e es] & Ep & Hes); [by destruct (HN _ Ep)|]. destruct (HF e es Ep (Hes e ltac:(left))) as [[= ->] Ed]. exists es. split; [done|]. intros x Hx. apply Hes. by right.
Qed.

(** C19. The functions on signatures end on every C string and accept exactly the
    grammar of D-Bus types: the length of the first element is that of the only
    prefix that is a single complete type, and an error means that there is none; a
    single signature is one such type, a pair one after a basic type, and a valid
    signature a sequence of them of at most 255 characters. *)
Theorem signature_exact (s : list Z) (allow : bool) (Hs : cstring s) :
  (∃ r, signature_element_length s = Some r ∧
     match r with
     | inr t => (t ≤ length s)%nat ∧ element true 0 0 (take t s) ∧ ∀ t', (t' ≤ length s)%nat → element true 0 0 (take t' s) → t' = t
     | inl e => e = - EINVAL ∧ ∀ t, ¬ element true 0 0 (take t s)
     end) ∧
  (∃ b, signature_is_single s allow = Some b ∧ (b = true ↔ element allow 0 0 s)) ∧
  (∃ b, signature_is_pair s = Some b ∧ (b = true ↔ ∃ k e, s = k :: e ∧ bus_type_is_basic k = true ∧ element false 0 0 e)) ∧
  (∃ b, signature_is_valid s allow = Some b ∧ (b = true ↔ (∃ es, s = concat es ∧ ∀ e, e ∈ es → element allow 0 0 e) ∧ (length s ≤ SD_BUS_MAXIMUM_SIGNATURE_LENGTH)%nat)).
Proof.
  split; [|split; [by apply single_exact|split]].
  - destruct (internal_exact s true) as (r & E & G & U). exists r. split; [done|]. destruct r as [e|t].
    + split; [done|]. intros t He. destruct (decide (t ≤ length s)%nat) as [Ht|Ht]; [by specialize (U t Ht He)|].
      rewrite take_ge in He by lia. specialize (U (length s)). rewrite firstn_all in U. by specialize (U ltac:(lia) He).
    + destruct G as [Hl He]. split; [lia|]. split; [done|]. intros t' Ht' He'. specialize (U t' Ht' He'). congruence.
  - unfold signature_is_pair. destruct s as [|k e]; [exists false; by split; [|split; [|intros (? & ? & ? & _)]]|]. change (char0 (k :: e)) with k. change (drop 1 (k :: e)) with e.
    destruct (bus_type_is_basic k) eqn:Ek; cbn [negb].
    + apply Forall_cons in Hs as [_ Hs]. destruct (single_exact e false Hs) as (b & -> & Hb). exists b. split; [done|]. rewrite Hb. split; [by exists k, e|]. by intros (? & ? & [= <- <-] & _ & ?).
    + exists false. split; [done|]. split; [done|]. intros (? & ? & [= <- <-] & Hk & _). congruence.
  - unfold signature_is_valid. destruct (elements_exact (S (length s)) s allow Hs) as (b & -> & Hb); [lia|]. cbn [mbind option_bind]. eexists. split; [done|].
    rewrite andb_true_iff, Nat.leb_le, Hb. done.
Qed.

Lemma signature_exact_witness : ∃ b, signature_is_valid (bytes_of "a{sv}(ii)") false = Some b ∧
  (b = true ↔ (∃ es, bytes_of "a{sv}(ii)" = concat es ∧ ∀ e, e ∈ es → element false 0 0 e) ∧ (length (bytes_of "a{sv}(ii)") ≤ SD_BUS_MAXIMUM_SIGNATURE_LENGTH)%nat).
Proof. apply (signature_exact (bytes_of "a{sv}(ii)") false). apply (bool_decide_unpack _). by vm_compute. Defined.
