(* ===== verification/BusNames.v ===== *)
(** * systemd: D-Bus names, object paths and labels

    Models, under [src/app/multi_process/day1/systemd/src/]:
    - [basic/bus-label.c]: a string as a label of an object path and back;
    - [libsystemd/sd-bus/bus-internal.c]: which object paths and names of interfaces,
      services and members are valid, the patterns of match rules, and the escaping
      of addresses;
    - of [libsystemd/sd-bus/sd-bus.c]: the keys of addresses, [sd_bus_path_encode],
      [sd_bus_path_decode] and their variants with templates;
    - of [basic/unit-def.c]: object paths and interfaces of units.

    A string is the list of its characters without the NUL. An allocation that fails
    is the argument [oom], one for each; in the functions with templates and for
    address keys a failing allocation is not modelled. A [char] may be signed: that
    makes no difference to comparisons with ASCII characters, and in shifts it is
    written out. *)

From Stdlib Require Import String.
From S2P Require Import Prelude Hexdecoct Utf8 Escape StringUtil PathUtil UnitName.

#[local] Open Scope Z_scope.

Definition lower_char (c : Z) : bool := (97 <=? c) && (c <=? 122).
Definition upper_char (c : Z) : bool := (65 <=? c) && (c <=? 90).
Definition digit_char (c : Z) : bool := (48 <=? c) && (c <=? 57).

(** ** Labels *)

Definition label_char (first : bool) (f : Z) : list Z :=
  if negb (upper_char f) && negb (lower_char f) && negb (negb first && digit_char f) then
    let f := wraps 8 f in [95; hexchar (Z.shiftr f 4); hexchar f]
  else [f].

Definition label_chars (s : list Z) : list Z :=
  match s with [] => [] | c :: s => label_char true c ++ (s ≫= label_char false) end.

Definition bus_label_escape (oom : bool) (s : list Z) : option (option (list Z)) :=
  match s with
  | [] => Some (if oom then None else Some [95])
  | _ => new_string oom (Z.of_nat (length s) * 3 + 1) (label_chars s)
  end.

(** The loop over the [l] characters at [f]; [l - i] is what is left of them. *)
Fixpoint label_unescape_loop (f : list Z) : list Z :=
  match f with
  | [] => []
  | c :: f' =>
      if c =? 95 then
        match f' with
        | c1 :: c2 :: f'' =>
            if (unhexchar c1 <? 0) || (unhexchar c2 <? 0) then 95 :: label_unescape_loop f'
            else u8 (Z.lor (Z.shiftl (unhexchar c1) 4) (unhexchar c2)) :: label_unescape_loop f''
        | _ => 95 :: label_unescape_loop f'
        end
      else c :: label_unescape_loop f'
  end.

(** [f] are the [l] characters. The result is a C string, which ends at a NUL that
    was escaped. *)
Definition bus_label_unescape_n (oom : bool) (f : list Z) : option (option (list Z)) :=
  if oom then Some None
  else if (length f =? 1)%nat && (char0 f =? 95) then Some (Some [])
  else r ← filled (Z.of_nat (length f) + 1) (label_unescape_loop f); Some (Some (c_str r)).

Definition bus_label_unescape (oom : bool) (f : list Z) : option (option (list Z)) := bus_label_unescape_n oom f.

(** ** Object paths *)

Definition BUS_PATH_SIZE_MAX : Z := 64 * 1024.
Definition SD_BUS_MAXIMUM_NAME_LENGTH : nat := 255.

Definition path_char (q : Z) : bool := lower_char q || upper_char q || digit_char q || (q =? 95).

(** The loop and the test after it. *)
Fixpoint object_path_loop (slash : bool) (q : list Z) : bool :=
  match q with
  | [] => negb slash
  | c :: q =>
      if c =? 47 then if slash then false else object_path_loop true q
      else if negb (path_char c) then false else object_path_loop false q
  end.

Definition object_path_is_valid (p : list Z) : bool :=
  if negb (char0 p =? 47) then false
  else if char0 (drop 1 p) =? 0 then true
  else object_path_loop true (drop 1 p) && (Z.of_nat (length p) <=? BUS_PATH_SIZE_MAX).

Definition object_path_startswith (a b : list Z) : option (list Z) :=
  if negb (object_path_is_valid a) || negb (object_path_is_valid b) then None
  else if streq b [47] then Some (drop 1 a)
  else
    p ← startswith a b;
    if char0 p =? 0 then Some p else if char0 p =? 47 then Some (drop 1 p) else None.

(** ** Names *)

(** The loops of [interface_name_is_valid] and [service_name_is_valid], which differ
    in the characters that are good, and the tests on [dot] and [found_dot]. *)
Fixpoint name_loop (good : bool → Z → bool) (dot found_dot : bool) (q : list Z) : bool :=
  match q with
  | [] => negb dot && found_dot
  | c :: q =>
      if c =? 46 then if dot then false else name_loop good true true q
      else if negb (good dot c) then false else name_loop good false found_dot q
  end.

Definition interface_char (dot : bool) (q : Z) : bool :=
  lower_char q || upper_char q || (negb dot && digit_char q) || (q =? 95).

Definition interface_name_is_valid (p : list Z) : bool :=
  match p with [] => false | _ => name_loop interface_char true false p && (length p <=? SD_BUS_MAXIMUM_NAME_LENGTH)%nat end.

Definition service_char (unique dot : bool) (q : Z) : bool :=
  lower_char q || upper_char q || ((negb dot || unique) && digit_char q) || (q =? 95) || (q =? 45).

Definition service_name_is_valid (p : list Z) : bool :=
  match p with
  | [] => false
  | _ =>
      let unique := char0 p =? 58 in
      name_loop (service_char unique) true false (if unique then drop 1 p else p) && (length p <=? SD_BUS_MAXIMUM_NAME_LENGTH)%nat
  end.

Definition member_name_is_valid (p : list Z) : bool :=
  match p with [] => false | _ => forallb path_char p && (length p <=? SD_BUS_MAXIMUM_NAME_LENGTH)%nat end.

(** ** Patterns *)

Fixpoint complex_pattern_loop (c : Z) (separator : bool) (a b : list Z) : bool :=
  match a, b with
  | [], [] => true
  | x :: a, y :: b => if x =? y then complex_pattern_loop c (x =? c) a b else false
  | _, _ => separator
  end.

Definition complex_pattern_check (c : Z) (a b : option (list Z)) : bool :=
  match a, b with None, None => true | Some a, Some b => complex_pattern_loop c false a b | _, _ => false end.

Definition namespace_complex_pattern (pattern value : option (list Z)) : bool := complex_pattern_check 46 pattern value.
Definition path_complex_pattern (pattern value : option (list Z)) : bool := complex_pattern_check 47 pattern value.

Fixpoint simple_pattern_loop (c : Z) (separator : bool) (a b : list Z) : bool :=
  match a, b with
  | [], [] => true
  | x :: a, y :: b => if x =? y then simple_pattern_loop c (x =? c) a b else false
  | [], y :: _ => (y =? c) || separator
  | _ :: _, [] => false
  end.

Definition simple_pattern_check (c : Z) (a b : option (list Z)) : bool :=
  match a, b with None, None => true | Some a, Some b => simple_pattern_loop c false a b | _, _ => false end.

Definition namespace_simple_pattern (pattern value : option (list Z)) : bool := simple_pattern_check 46 pattern value.
Definition path_simple_pattern (pattern value : option (list Z)) : bool := simple_pattern_check 47 pattern value.

(** ** Message types *)

Definition SD_BUS_MESSAGE_METHOD_CALL : Z := 1.
Definition SD_BUS_MESSAGE_METHOD_RETURN : Z := 2.
Definition SD_BUS_MESSAGE_METHOD_ERROR : Z := 3.
Definition SD_BUS_MESSAGE_SIGNAL : Z := 4.

Definition bus_message_type_from_string (s : list Z) : Z + Z :=
  if streq s (bytes_of "signal") then inr SD_BUS_MESSAGE_SIGNAL
  else if streq s (bytes_of "method_call") then inr SD_BUS_MESSAGE_METHOD_CALL
  else if streq s (bytes_of "error") then inr SD_BUS_MESSAGE_METHOD_ERROR
  else if streq s (bytes_of "method_return") then inr SD_BUS_MESSAGE_METHOD_RETURN
  else inl (- EINVAL).

Definition bus_message_type_to_string (u : Z) : option (list Z) :=
  if u =? SD_BUS_MESSAGE_SIGNAL then Some (bytes_of "signal")
  else if u =? SD_BUS_MESSAGE_METHOD_CALL then Some (bytes_of "method_call")
  else if u =? SD_BUS_MESSAGE_METHOD_ERROR then Some (bytes_of "error")
  else if u =? SD_BUS_MESSAGE_METHOD_RETURN then Some (bytes_of "method_return")
  else None.

(** ** Addresses *)

Definition address_char (a : Z) : list Z :=
  if digit_char a || lower_char a || upper_char a || strchr (bytes_of "_-/.") a then [a]
  else let a := wraps 8 a in [37; hexchar (Z.shiftr a 4); hexchar (Z.land a 15)].

Definition bus_address_escape (oom : bool) (v : list Z) : option (option (list Z)) :=
  new_string oom (Z.of_nat (length v) * 3 + 1) (v ≫= address_char).

(** The loop of [parse_address_key]: the error, or the characters of the value and
    where it ends. *)
Fixpoint address_value_loop (a : list Z) : Z + list Z * list Z :=
  let put c r := match r with inl e => inl e | inr (v, a) => inr (c :: v, a) end in
  match a with
  | [] => inr ([], [])
  | c :: a' =>
      if (c =? 59) || (c =? 44) then inr ([], a)
      else if c =? 37 then
        let x := unhexchar (char0 a') in
        if x <? 0 then inl x
        else
          let y := unhexchar (char0 (drop 1 a')) in
          if y <? 0 then inl y
          else match a' with _ :: _ :: a'' => put (u8 (Z.lor (Z.shiftl x 4) y)) (address_value_loop a'') | _ => inl (- EINVAL) end
      else put c (address_value_loop a')
  end.

(** The return value, the new [*p] and the new [*value]. *)
Definition parse_address_key (p : list Z) (key : option (list Z)) (value : option (list Z)) : Z * list Z * option (list Z) :=
  let parse a :=
    match address_value_loop a with
    | inl e => (e, p, value)
    | inr (r, a) => (1, if char0 a =? 44 then drop 1 a else a, Some (c_str r))
    end in
  match key with
  | None => parse p
  | Some key =>
      match startswith p key with
      | None => (0, p, value)
      | Some q =>
          if negb (char0 q =? 61) then (0, p, value)
          else match value with Some _ => (- EINVAL, p, value) | None => parse (drop 1 q) end
      end
  end.

Definition skip_address_key (p : list Z) : list Z :=
  let p := drop (strcspn p [44]) p in if char0 p =? 44 then drop 1 p else p.

(** ** Object paths of things *)

Definition sd_bus_path_encode (oom oom' : bool) (prefix external_id : list Z) : option (Z + list Z) :=
  if negb (object_path_is_valid prefix) then Some (inl (- EINVAL))
  else
    e ← bus_label_escape oom external_id;
    match e with
    | None => Some (inl (- ENOMEM))
    | Some e => ret ← path_join oom' (Some prefix) [Some e]; Some (match ret with None => inl (- ENOMEM) | Some ret => inr ret end)
    end.

(** The error, or the identifier when the return value is 1. *)
Definition sd_bus_path_decode (oom : bool) (path prefix : list Z) : option (Z + option (list Z)) :=
  if negb (object_path_is_valid path) then Some (inl (- EINVAL))
  else if negb (object_path_is_valid prefix) then Some (inl (- EINVAL))
  else match object_path_startswith path prefix with
  | None => Some (inr None)
  | Some e => ret ← bus_label_unescape oom e; Some (match ret with None => inl (- ENOMEM) | Some ret => inr (Some ret) end)
  end.

(** The first loop of [sd_bus_path_encode_many], over the percent signs of the
    template: there must be an argument for each. *)
Fixpoint template_labels (template : list Z) (args : list (option (list Z))) : option (Z + list (list Z)) :=
  match template with
  | [] => Some (inr [])
  | c :: template =>
      if c =? 37 then
        match args with
        | [] => None
        | None :: _ => Some (inl (- EINVAL))
        | Some arg :: args =>
            label ← bus_label_escape false arg ≫= id;
            r ← template_labels template args;
            Some (match r with inl e => inl e | inr labels => inr (label :: labels) end)
        end
      else template_labels template args
  end.

(** The second loop. *)
Fixpoint fill_template (template : list Z) (labels : list (list Z)) : option (list Z) :=
  match template with
  | [] => Some []
  | c :: template =>
      if c =? 37 then match labels with [] => None | l :: labels => app l <$> fill_template template labels end
      else cons c <$> fill_template template labels
  end.

Definition sd_bus_path_encode_many (path_template : list Z) (args : list (option (list Z))) : option (Z + list Z) :=
  r ← template_labels path_template args;
  match r with
  | inl e => Some (inl e)
  | inr labels =>
      let path_length := Z.of_nat (length path_template) + foldr (λ l n, Z.of_nat (length l) - 1 + n) 0 labels in
      path ← fill_template path_template labels;
      path ← filled (path_length + 1) path;
      Some (inr path)
  end.

(** Where [c] is in [s], or where [s] ends. *)
Definition strchrnul (s : list Z) (c : Z) : nat := span (λ x, negb (x =? c)) s.

(** The loop over the template: no match, or the labels and what is left of the path. *)
Fixpoint decode_many_loop (fuel : nat) (path_pos template_pos : list Z) : option (option (list (list Z) * list Z)) :=
  match template_pos, fuel with
  | [], _ => Some (Some ([], path_pos))
  | _, O => None
  | _, S fuel =>
      let length_ := strchrnul template_pos 37 in
      match startswith path_pos (take length_ template_pos) with
      | None => Some None
      | Some path_pos =>
          match drop length_ template_pos with
          | [] => Some (Some ([], path_pos))
          | _ :: template_pos =>
              let length_ := strchrnul template_pos 47 in
              let sep := strchrnul path_pos 47 in
              if (sep <? length_)%nat then Some None
              else if negb (bool_decide (take length_ (drop (sep - length_) path_pos) = take length_ template_pos)) then Some None
              else
                label ← bus_label_unescape_n false (take (sep - length_) path_pos) ≫= id;
                r ← decode_many_loop fuel (drop sep path_pos) (drop length_ template_pos);
                Some (match r with None => None | Some (labels, path_pos) => Some (label :: labels, path_pos) end)
          end
      end
  end.

(** The labels, in the order of the variables that the caller passes, when the
    return value is 1. *)
Definition sd_bus_path_decode_many (path path_template : list Z) : option (option (list (list Z))) :=
  r ← decode_many_loop (length path_template) path path_template;
  Some (match r with Some (labels, []) => Some labels | _ => None end).

(** ** Units *)

Definition unit_prefix : list Z := bytes_of "/org/freedesktop/systemd1/unit/".

Definition unit_dbus_path_from_name (oom oom' : bool) (name : list Z) : option (option (list Z)) :=
  e ← bus_label_escape oom name;
  match e with None => Some None | Some e => strjoin oom' [unit_prefix; e] end.

Definition unit_name_from_dbus_path (oom : bool) (path : list Z) : option (Z + list Z) :=
  match startswith path unit_prefix with
  | None => Some (inl (- EINVAL))
  | Some e => n ← bus_label_unescape oom e; Some (match n with None => inl (- ENOMEM) | Some n => inr n end)
  end.

Definition unit_dbus_interface_from_type (t : UnitType) : list Z :=
  bytes_of (match t with
  | UNIT_SERVICE => "org.freedesktop.systemd1.Service"
  | UNIT_SOCKET => "org.freedesktop.systemd1.Socket"
  | UNIT_TARGET => "org.freedesktop.systemd1.Target"
  | UNIT_DEVICE => "org.freedesktop.systemd1.Device"
  | UNIT_MOUNT => "org.freedesktop.systemd1.Mount"
  | UNIT_AUTOMOUNT => "org.freedesktop.systemd1.Automount"
  | UNIT_SWAP => "org.freedesktop.systemd1.Swap"
  | UNIT_TIMER => "org.freedesktop.systemd1.Timer"
  | UNIT_PATH => "org.freedesktop.systemd1.Path"
  | UNIT_SLICE => "org.freedesktop.systemd1.Slice"
  | UNIT_SCOPE => "org.freedesktop.systemd1.Scope"
  end).

(** NULL when the name is not one of a unit. *)
Definition unit_dbus_interface_from_name (name : list Z) : option (option (list Z)) :=
  t ← unit_name_to_type name;
  Some (match t with None => None | Some t => Some (unit_dbus_interface_from_type t) end).

(** ** Examples *)

Example unit_path_ex : unit_dbus_path_from_name false false (bytes_of "getty@tty1.service") =
  Some (Some (bytes_of "/org/freedesktop/systemd1/unit/getty_40tty1_2eservice")).
Proof. by vm_compute. Qed.

Example path_many_ex :
  sd_bus_path_encode_many (bytes_of "/a/%/b%x/c") [Some (bytes_of "1.0"); Some []] = Some (inr (bytes_of "/a/_31_2e0/b_x/c")) ∧
  sd_bus_path_decode_many (bytes_of "/a/_31_2e0/b_x/c") (bytes_of "/a/%/b%x/c") = Some (Some [bytes_of "1.0"; []]).
Proof. by vm_compute. Qed.

Example address_ex : parse_address_key (bytes_of "path=/run/%41%2c,x") (Some (bytes_of "path")) None = (1, bytes_of "x", Some (bytes_of "/run/A,")).
Proof. by vm_compute. Qed.
