(* ===== verification/BusNamesProps.v ===== *)
(** * Properties of D-Bus names, object paths and labels

    Labels and whole object paths are decoded to what they were made from, also with
    templates and for units; the functions that check names accept exactly what the
    D-Bus specification allows, and patterns match as their comments say. *)

From Stdlib Require Import String.
From S2P Require Import Prelude Hexdecoct HexdecoctProps Utf8 Utf8Props Escape EscapeProps StringUtil PathUtil PathUtilProps UnitName UnitNameProps BusNames.

#[local] Open Scope Z_scope.
#[local] Set Warnings "-clear-no-such-hyp".

(** ** Labels *)

(** What stands for the character [c] in a label. *)
Definition label_escape_of (e : list Z) (c : Z) : bool :=
  match e with
  | [x] => (x =? c) && negb (x =? 95)
  | [x; a; b] => (x =? 95) && (0 <=? unhexchar a) && (0 <=? unhexchar b) && (u8 (Z.lor (Z.shiftl (unhexchar a) 4) (unhexchar b)) =? c)
  | _ => false
  end.

Lemma label_unescape_step e c rest : label_escape_of e c = true → label_unescape_loop (e ++ rest) = c :: label_unescape_loop rest.
Proof.
  unfold label_escape_of. intros H. destruct e as [|x [|a [|b [|]]]]; try done; reflect_bools; subst; cbn [app label_unescape_loop].
  - by rewrite (proj2 (Z.eqb_neq c 95)).
  - cbn [Z.eqb Pos.eqb]. rewrite !(proj2 (Z.ltb_ge _ 0)) by lia. done.
Qed.

Definition label_char_check (first : bool) (c : Z) : bool := label_escape_of (label_char first c) c && forallb path_char (label_char first c) &&
  (1 <=? length (label_char first c))%nat && (length (label_char first c) <=? 3)%nat && (negb first || negb (digit_char (char0 (label_char first c)))).

Lemma label_char_checked first c : 0 < c < 256 → label_char_check first c = true.
Proof.
  intros Hb. assert (is_byte c) as Hc by (unfold is_byte; lia). revert Hc.
  by_bytes (λ c, (c =? 0) || label_char_check true c && label_char_check false c). rewrite (proj2 (Z.eqb_neq c 0)) in Hc by lia.
  apply andb_true_iff in Hc as [? ?]. by destruct first.
Qed.

Lemma label_char_spec first c : 0 < c < 256 → label_escape_of (label_char first c) c = true ∧
  Forall (λ x, path_char x = true) (label_char first c) ∧ (1 ≤ length (label_char first c) ≤ 3)%nat ∧ (first = true → digit_char (char0 (label_char first c)) = false).
Proof.
  intros Hc. pose proof (label_char_checked first c Hc) as H. unfold label_char_check in H. apply andb_true_iff in H as [H Hf]. reflect_bools.
  rewrite forallb_forall in *. split_and!; [done|apply Forall_forall; intros x Hx; by apply list_elem_of_In in Hx; auto|by apply Nat.leb_le..|].
  intros ->. by apply negb_true_iff in Hf.
Qed.

(** The characters of a label: what they are decoded to, which they are, how many,
    and that the first is no digit. *)
Lemma label_chars_spec s : cstring s → label_unescape_loop (label_chars s) = s ∧ Forall (λ x, path_char x = true) (label_chars s) ∧
  (length s ≤ length (label_chars s) ≤ 3 * length s)%nat ∧ digit_char (char0 (label_chars s)) = false.
Proof.
  assert (∀ s, cstring s → label_unescape_loop (s ≫= label_char false) = s ∧ Forall (λ x, path_char x = true) (s ≫= label_char false) ∧
    (length s ≤ length (s ≫= label_char false) ≤ 3 * length s)%nat) as HL.
  { clear. induction 1 as [|c s Hc _ (IH1 & IH2 & IH3)]; [split_and!; [done|constructor|cbn; lia..]|]. rewrite bind_cons.
    destruct (label_char_spec false c Hc) as (H1 & H2 & H3 & _). rewrite (label_unescape_step _ c) by done. rewrite IH1, length_app. cbn [length].
    split_and!; [done|by apply Forall_app|lia..]. }
  intros Hs. destruct s as [|c s]; [split_and!; [done|constructor|cbn; lia..|done]|]. apply Forall_cons in Hs as [Hc Hs].
  destruct (label_char_spec true c Hc) as (H1 & H2 & H3 & H4), (HL s Hs) as (H5 & H6 & H7). cbn [label_chars]. rewrite (label_unescape_step _ c) by done.
  rewrite H5, length_app. cbn [length]. split_and!; [done|by apply Forall_app|lia..|]. specialize (H4 eq_refl). by destruct (label_char true c); [cbn in H3; lia|].
Qed.

(** A label that stands for a string. *)
Definition label_text (s : list Z) : list Z := match s with [] => [95] | _ => label_chars s end.

(** One element of an object path. *)
Definition path_element (l : list Z) : Prop := l ≠ [] ∧ Forall (λ x, path_char x = true) l.

Lemma label_text_ok s : cstring s → path_element (label_text s) ∧ digit_char (char0 (label_text s)) = false ∧ (length (label_text s) ≤ 3 * length s + 1)%nat.
Proof.
  intros Hs. destruct (label_chars_spec s Hs) as (_ & H2 & H3 & H4). destruct s as [|c s]; [split; [split; [done|by apply Forall_singleton]|split; [done|cbn; lia]]|].
  split; [split; [|done]|split; [done|cbn [label_text length] in *; lia]]. intros E. cbn [label_text] in E. rewrite E in H3. cbn in H3. lia.
Qed.

Lemma bus_label_escape_ok s : cstring s → bus_label_escape false s = Some (Some (label_text s)).
Proof.
  intros Hs. destruct s as [|c s]; [done|]. unfold bus_label_escape, new_string. destruct (label_chars_spec _ Hs) as (_ & _ & H3 & _).
  by rewrite filled_fits by lia.
Qed.

Lemma unescape_length f : (length (label_unescape_loop f) ≤ length f)%nat.
Proof.
  induction f as [f IH] using list_length_ind. destruct f as [|c f]; [done|]. cbn [label_unescape_loop]. destruct (c =? 95).
  - destruct f as [|c1 [|c2 f]]; [done|..].
    + pose proof (IH [c1] ltac:(cbn; lia)). cbn [length] in *. lia.
    + destruct (_ || _); [pose proof (IH (c1 :: c2 :: f) ltac:(cbn; lia))|pose proof (IH f ltac:(cbn; lia))]; cbn [length] in *; lia.
  - pose proof (IH f ltac:(cbn; lia)). cbn [length]. lia.
Qed.

(** Unescaping is safe for every label. *)
Lemma unescape_total f : ∃ s, bus_label_unescape_n false f = Some (Some s).
Proof.
  unfold bus_label_unescape_n. destruct (_ && _); [by eexists|]. pose proof (unescape_length f). rewrite filled_fits by lia. by eexists.
Qed.

Lemma bus_label_unescape_ok s : cstring s → bus_label_unescape_n false (label_text s) = Some (Some s).
Proof.
  intros Hs. destruct s as [|c s]; [done|]. destruct (label_chars_spec _ Hs) as (H1 & _ & H3 & _). unfold bus_label_unescape_n. cbn [label_text].
  assert ((length (label_chars (c :: s)) =? 1)%nat && (char0 (label_chars (c :: s)) =? 95) = false) as ->.
  { destruct (Nat.eqb_spec (length (label_chars (c :: s))) 1) as [E|]; [|done]. cbn [andb]. apply Forall_cons in Hs as [Hc _]. destruct (label_char_spec true c Hc) as (He & _ & Hl & _).
    cbn [label_chars] in *. rewrite length_app in E. destruct (label_char true c) as [|x [|y l]]; [cbn in Hl; lia| |cbn in E; lia].
    cbn in He |- *. by apply andb_true_iff in He as [_ He%negb_true_iff]. }
  pose proof (unescape_length (label_chars (c :: s))). rewrite filled_fits by lia. cbn [mbind option_bind]. by rewrite H1, c_str_cstring.
Qed.

(** ** Parts between separators *)

Definition separated (sep : Z) (ls : list (list Z)) : list Z := match ls with [] => [] | l :: ls => l ++ (ls ≫= λ l, sep :: l) end.

(** A part starts with a character that is good at the start. *)
Definition part_ok (good : bool → Z → bool) (l : list Z) : Prop :=
  match l with [] => False | c :: l => good true c = true ∧ Forall (λ c, good false c = true) l end.

(** The loops over object paths and names. *)
Fixpoint scan (sep : Z) (good : bool → Z → bool) (start : bool) (q : list Z) : bool :=
  match q with
  | [] => negb start
  | c :: q => if c =? sep then if start then false else scan sep good true q else if negb (good start c) then false else scan sep good false q
  end.

Lemma object_path_scan slash q : object_path_loop slash q = scan 47 (λ _, path_char) slash q.
Proof. revert slash. induction q as [|c q IH]; intros slash; [done|]. cbn. by rewrite !IH. Qed.

Lemma name_loop_scan good dot found q : name_loop good dot found q = scan 46 good dot q && (found || bool_decide (46 ∈ q)).
Proof.
  revert dot found. induction q as [|c q IH]; intros dot found; cbn [name_loop scan].
  { rewrite bool_decide_eq_false_2 by apply not_elem_of_nil. by rewrite orb_false_r. }
  destruct (Z.eqb_spec c 46) as [->|Hc].
  - destruct dot; [done|]. rewrite IH, (bool_decide_eq_true_2 (46 ∈ 46 :: q)) by left. by rewrite orb_true_r.
  - destruct (negb _); [done|]. rewrite IH. do 2 f_equal. apply bool_decide_ext. rewrite elem_of_cons. naive_solver.
Qed.

Section Scan.
Context (sep : Z) (good : bool → Z → bool).
Hypothesis sep_bad : ∀ start, good start sep = false.

Lemma good_not_sep start c : good start c = true → c ≠ sep.
Proof. intros Hg ->. by rewrite sep_bad in Hg. Qed.

Lemma scan_both q :
  (scan sep good true q = true ↔ ∃ l ls, q = separated sep (l :: ls) ∧ part_ok good l ∧ Forall (part_ok good) ls) ∧
  (scan sep good false q = true ↔ ∃ l ls, q = separated sep (l :: ls) ∧ Forall (λ c, good false c = true) l ∧ Forall (part_ok good) ls).
Proof.
  induction q as [|c q [IHt IHf]]; cbn [scan].
  { split; [split; [done|by intros ([|] & ls & E & Hl & _)]|]. split; [|done]. intros _. by exists [], []. }
  destruct (Z.eqb_spec c sep) as [->|Hc].
  - split; [split; [done|]|].
    + intros ([|x l] & ls & E & Hl & _); [done|]. injection E as <- _. destruct Hl as [Hl _]. by rewrite sep_bad in Hl.
    + rewrite IHt. split.
      * intros (l & ls & -> & Hl & Hls). exists [], (l :: ls). by rewrite Forall_cons.
      * intros ([|x l] & ls & E & Hl & Hls); [|injection E as <- _; apply Forall_cons in Hl as [Hl _]; by rewrite sep_bad in Hl].
        destruct ls as [|l ls]; [done|]. apply Forall_cons in Hls as [Hl' Hls]. injection E as ->. by exists l, ls.
  - assert (∀ l ls, c :: q = separated sep (l :: ls) → ∃ l', l = c :: l' ∧ q = separated sep (l' :: ls)) as HI.
    { intros [|x l] ls E; [destruct ls; [done|]; by injection E as -> _|]. injection E as <- ->. by exists l. }
    split; (destruct (good _ c) eqn:Eg; cbn [negb]; [rewrite IHf|split; [done|]; intros (l & ls & (l' & -> & _)%HI & Hl & _)]).
    + split; intros (l & ls & E & Hl & Hls); [exists (c :: l), ls; by rewrite E|]. apply HI in E as (l' & -> & ->). destruct Hl as [_ Hl]. by exists l', ls.
    + destruct Hl as [Hl _]. congruence.
    + split; intros (l & ls & E & Hl & Hls); [exists (c :: l), ls; rewrite E, Forall_cons; done|]. apply HI in E as (l' & -> & ->). apply Forall_cons in Hl as [_ Hl]. by exists l', ls.
    + apply Forall_cons in Hl as [Hl _]. congruence.
Qed.

Lemma scan_parts q : scan sep good true q = true ↔ ∃ ls, ls ≠ [] ∧ q = separated sep ls ∧ Forall (part_ok good) ls.
Proof.
  rewrite (proj1 (scan_both q)). split.
  - intros (l & ls & -> & Hl & Hls). exists (l :: ls). by rewrite Forall_cons.
  - intros ([|l ls] & Hn & -> & H); [done|]. apply Forall_cons in H as [? ?]. by exists l, ls.
Qed.

(** There is a separator when there are two parts or more. *)
Lemma separated_elem ls : Forall (part_ok good) ls → ls ≠ [] → sep ∈ separated sep ls ↔ (2 ≤ length ls)%nat.
Proof.
  intros H Hn. destruct ls as [|l [|l' ls]]; [done|..]; cbn [separated length]; (split; [|first [lia|intros _; set_solver]]); [|lia].
  apply Forall_cons in H as [H _]. cbn. rewrite app_nil_r. intros Hin. destruct l as [|c l]; [done|]. destruct H as [Hc Hl]. apply elem_of_cons in Hin as [->|Hin].
  - by rewrite sep_bad in Hc.
  - rewrite Forall_forall in Hl. specialize (Hl _ Hin). cbn in Hl. by rewrite sep_bad in Hl.
Qed.

End Scan.

Lemma name_parts good q : (∀ start, good start 46 = false) →
  name_loop good true false q = true ↔ ∃ ls, (2 ≤ length ls)%nat ∧ q = separated 46 ls ∧ Forall (part_ok good) ls.
Proof.
  intros Hg. rewrite name_loop_scan, andb_true_iff, (scan_parts 46 good Hg). cbn [orb]. rewrite bool_decide_eq_true. split.
  - intros ((ls & Hn & -> & H) & Hin). exists ls. apply (separated_elem 46 good Hg) in Hin; done.
  - intros (ls & Hn & -> & H). assert (ls ≠ []) as Hn' by (intros ->; cbn in Hn; lia). split; [by exists ls|]. by apply (separated_elem 46 good Hg).
Qed.

(** ** Names *)

Lemma path_part l : part_ok (λ _, path_char) l ↔ path_element l.
Proof.
  unfold path_element. destruct l as [|c l]; [by split; [|intros [? _]]|]. cbn [part_ok]. rewrite Forall_cons. naive_solver.
Qed.

Lemma path_parts ls : Forall (part_ok (λ _, path_char)) ls ↔ Forall path_element ls.
Proof. split; intros H; (eapply Forall_impl; [done|]); intros l; by rewrite path_part. Qed.

Lemma separated_slash ls : ls ≠ [] → (ls ≫= cons 47) = 47 :: separated 47 ls.
Proof. destruct ls as [|l ls]; [done|]. intros _. by rewrite bind_cons. Qed.

(** An object path is the root, or elements with a slash before each. *)
Definition object_path (p : list Z) : Prop :=
  p = [47] ∨ ∃ ls, ls ≠ [] ∧ p = (ls ≫= cons 47) ∧ Forall path_element ls ∧ Z.of_nat (length p) ≤ BUS_PATH_SIZE_MAX.

Lemma object_path_exact p : cstring p → object_path_is_valid p = true ↔ object_path p.
Proof.
  intros Hp. unfold object_path_is_valid, object_path. destruct p as [|c [|c' p]]; cbn [char0].
  - split; [done|]. intros [|(ls & Hn & E & _)]; [done|]. by rewrite separated_slash in E.
  - change (drop 1 [c]) with (@nil Z). destruct (Z.eqb_spec c 47) as [->|Hc]; cbn [negb char0 Z.eqb]; [split; [by left|done]|].
    split; [done|]. intros [[= ->]|(ls & Hn & E & _)]; [done|]. rewrite separated_slash in E by done. congruence.
  - change (drop 1 (c :: c' :: p)) with (c' :: p). apply Forall_cons in Hp as [_ [Hc' _]%Forall_cons]. cbn [char0]. rewrite (proj2 (Z.eqb_neq c' 0)) by lia.
    destruct (Z.eqb_spec c 47) as [->|Hc]; cbn [negb]; [|split; [done|]; intros [|(ls & Hn & E & _)]; [done|]; rewrite separated_slash in E by done; congruence].
    rewrite object_path_scan, andb_true_iff, Z.leb_le, scan_parts by done. split.
    + intros ((ls & Hn & E & H) & Hl). right. exists ls. rewrite separated_slash, <- E by done. by apply path_parts in H.
    + intros [|(ls & Hn & E & H & Hl)]; [done|]. rewrite separated_slash in E by done. injection E as E. split; [|done]. exists ls. by rewrite path_parts.
Qed.

(** The parts of the name of an interface. *)
Definition interface_part (l : list Z) : Prop := path_element l ∧ digit_char (char0 l) = false.

(** The parts of the names of services; in a unique name one may start with a digit. *)
Definition service_part (unique : bool) (l : list Z) : Prop :=
  l ≠ [] ∧ Forall (λ x, path_char x || (x =? 45) = true) l ∧ (unique = false → digit_char (char0 l) = false).

Lemma digit_exclusive c : digit_char c = true → lower_char c = false ∧ upper_char c = false ∧ (c =? 95) = false ∧ (c =? 45) = false.
Proof. unfold digit_char, lower_char, upper_char. intros H. reflect_bools. repeat split; lia. Qed.

Lemma interface_char_start c : interface_char true c = true ↔ path_char c = true ∧ digit_char c = false.
Proof.
  unfold interface_char, path_char. cbn [negb andb]. destruct (digit_char c) eqn:E; [|rewrite !orb_false_r; tauto].
  destruct (digit_exclusive c E) as (-> & -> & -> & _). cbn. split; [done|by intros [_ ?]].
Qed.

Lemma interface_part_ok l : part_ok interface_char l ↔ interface_part l.
Proof.
  unfold interface_part, path_element. destruct l as [|c l]; [by split; [|intros [[? _] _]]|]. cbn [part_ok char0]. rewrite Forall_cons, interface_char_start.
  change (interface_char false) with path_char. split; [intros ([? ?] & ?)|intros ((? & ? & ?) & ?)]; done.
Qed.

Lemma service_char_start unique c : service_char unique true c = true ↔ path_char c || (c =? 45) = true ∧ (unique = false → digit_char c = false).
Proof.
  unfold service_char, path_char. destruct unique; cbn [negb andb orb].
  - split; [intros H; by split|by intros [? _]].
  - destruct (digit_char c) eqn:E; [|rewrite !orb_false_r; split; [intros H; by split|by intros [? _]]].
    destruct (digit_exclusive c E) as (-> & -> & -> & ->). cbn. split; [done|]. intros [_ H]. by specialize (H eq_refl).
Qed.

Lemma service_part_ok unique l : part_ok (service_char unique) l ↔ service_part unique l.
Proof.
  unfold service_part. destruct l as [|c l]; [by split; [|intros [? _]]|]. cbn [part_ok char0]. rewrite Forall_cons, service_char_start.
  assert (∀ c, service_char unique false c = path_char c || (c =? 45)) as E by (intros x; by unfold service_char, path_char).
  setoid_rewrite E. split; [intros ((? & ?) & ?)|intros (? & (? & ?) & ?)]; done.
Qed.

Lemma interface_name_exact p : interface_name_is_valid p = true ↔
  ∃ ls, (2 ≤ length ls)%nat ∧ p = separated 46 ls ∧ Forall interface_part ls ∧ (length p ≤ SD_BUS_MAXIMUM_NAME_LENGTH)%nat.
Proof.
  assert (interface_name_is_valid p = name_loop interface_char true false p && (length p <=? SD_BUS_MAXIMUM_NAME_LENGTH)%nat) as -> by (by destruct p).
  rewrite andb_true_iff, Nat.leb_le, name_parts by (by intros []). split.
  - intros ((ls & Hl & E & H) & Hm). exists ls. split_and!; [done..| |done]. eapply Forall_impl; [done|]. intros l. by rewrite interface_part_ok.
  - intros (ls & Hl & E & H & Hm). split; [|done]. exists ls. split_and!; [done..|]. eapply Forall_impl; [done|]. intros l. by rewrite interface_part_ok.
Qed.

(** The text of a service name: a unique one starts with a colon. *)
Definition service_text (unique : bool) (ls : list (list Z)) : list Z := if unique then 58 :: separated 46 ls else separated 46 ls.

Lemma service_name_exact p : service_name_is_valid p = true ↔
  ∃ unique ls, (2 ≤ length ls)%nat ∧ p = service_text unique ls ∧ Forall (service_part unique) ls ∧ (length p ≤ SD_BUS_MAXIMUM_NAME_LENGTH)%nat.
Proof.
  assert (service_name_is_valid p = name_loop (service_char (char0 p =? 58)) true false (if char0 p =? 58 then drop 1 p else p) && (length p <=? SD_BUS_MAXIMUM_NAME_LENGTH)%nat) as -> by (by destruct p).
  rewrite andb_true_iff, Nat.leb_le, name_parts by (by intros []; destruct (char0 p =? 58)). split.
  - intros ((ls & Hl & E & H) & Hm). exists (char0 p =? 58), ls. split_and!; [done| | |done].
    + destruct (char0 p =? 58) eqn:Ec; [|done]. destruct p as [|c p]; [done|]. cbn in E, Ec. apply Z.eqb_eq in Ec. subst c. cbn. by f_equal.
    + eapply Forall_impl; [done|]. intros l. by rewrite service_part_ok.
  - intros (unique & ls & Hl & -> & H & Hm). split; [|done]. assert ((char0 (service_text unique ls) =? 58) = unique) as ->.
    { destruct unique; [done|]. destruct ls as [|[|c l] ls]; [cbn in Hl; lia|by apply Forall_cons in H as [[? _] _]|]. apply Forall_cons in H as [(_ & Hc & _) _]. apply Forall_cons in Hc as [Hc _].
      cbn. apply Z.eqb_neq. intros ->. done. }
    exists ls. split_and!; [done|by destruct unique|]. eapply Forall_impl; [done|]. intros l. by rewrite service_part_ok.
Qed.

Lemma member_name_exact p : member_name_is_valid p = true ↔ path_element p ∧ (length p ≤ SD_BUS_MAXIMUM_NAME_LENGTH)%nat.
Proof.
  unfold path_element. destruct p as [|c p]; [by split; [|intros [[? _] _]]|]. unfold member_name_is_valid. rewrite andb_true_iff, Nat.leb_le, forallb_forall, Forall_forall.
  setoid_rewrite list_elem_of_In. naive_solver.
Qed.

(** ** Patterns *)

(** The text before ends in the separator; [separator] says so of what was before. *)
Definition ends_with (c : Z) (separator : bool) (a : list Z) : Prop := match last a with None => separator = true | Some x => x = c end.

Lemma ends_with_cons c separator x a : ends_with c separator (x :: a) ↔ ends_with c (x =? c) a.
Proof. unfold ends_with. rewrite last_cons. destruct (last a); [done|]. by rewrite Z.eqb_eq. Qed.

Lemma complex_pattern_loop_spec c separator a b : complex_pattern_loop c separator a b = true ↔
  a = b ∨ (∃ y, b = a ++ y ∧ ends_with c separator a) ∨ (∃ y, a = b ++ y ∧ ends_with c separator b).
Proof.
  revert separator b. induction a as [|x a IH]; intros separator [|y b]; cbn [complex_pattern_loop].
  - split; [by left|done].
  - split; [intros ->; right; left; by exists (y :: b)|]. intros [|[(z & _ & H)|(z & ? & _)]]; done.
  - split; [intros ->; right; right; by exists (x :: a)|]. intros [|[(z & ? & _)|(z & _ & H)]]; done.
  - destruct (Z.eqb_spec x y) as [<-|Hx].
    + rewrite IH. split; (intros [E|[(z & E & H)|(z & E & H)]]; [left; congruence|right; left; exists z|right; right; exists z]); simplify_eq/=; (split; [done|]); by apply (ends_with_cons c separator).
    + split; [done|]. intros [E|[(z & E & _)|(z & E & _)]]; simplify_eq/=.
Qed.

Lemma simple_pattern_loop_spec c separator a b : simple_pattern_loop c separator a b = true ↔
  a = b ∨ ∃ x y, b = a ++ x :: y ∧ (x = c ∨ ends_with c separator a).
Proof.
  revert separator b. induction a as [|x a IH]; intros separator [|y b]; cbn [simple_pattern_loop].
  - split; [by left|done].
  - rewrite orb_true_iff, Z.eqb_eq. split; [intros H; right; by exists y, b|]. intros [|(x & z & [= <- <-] & H)]; done.
  - split; [done|]. by intros [|(? & ? & ? & _)].
  - destruct (Z.eqb_spec x y) as [<-|Hx].
    + rewrite IH. split; (intros [E|(z & w & E & H)]; [left; congruence|right; exists z, w]); simplify_eq/=; (split; [done|]);
        (destruct H as [H|H]; [by left|right]); by apply (ends_with_cons c separator).
    + split; [done|]. intros [E|(z & w & E & _)]; simplify_eq/=.
Qed.

(** ** Paths below others *)

Lemma element_no_slash l : path_element l → Forall (λ c, negb (c =? 47) = true) l.
Proof. intros [_ H]. eapply Forall_impl; [exact H|]. intros c Hc. apply negb_true_iff, Z.eqb_neq. by intros ->. Qed.

(** What follows an element of a path. *)
Definition after_element (r : list Z) : Prop := match r with [] => True | c :: _ => negb (c =? 47) = false end.

Lemma elements_after ls : after_element (ls ≫= cons 47).
Proof. by destruct ls. Qed.

Lemma element_split l l' r r' : path_element l → path_element l' → after_element r → after_element r' → l ++ r = l' ++ r' → l = l' ∧ r = r'.
Proof.
  intros Hl%element_no_slash Hl'%element_no_slash Hr Hr' E. apply app_inj_1; [|done].
  by rewrite <- (span_app _ l r Hl Hr), E, (span_app _ l' r').
Qed.

Lemma elements_prefix lb : ∀ la r, Forall path_element la → Forall path_element lb → after_element r → (la ≫= cons 47) = (lb ≫= cons 47) ++ r →
  ∃ rest, la = lb ++ rest ∧ r = (rest ≫= cons 47).
Proof.
  induction lb as [|l lb IH]; intros la r Ha Hb Hr E; [by exists la|]. apply Forall_cons in Hb as [Hl Hb]. destruct la as [|l' la]; [done|].
  apply Forall_cons in Ha as [Hl' Ha]. rewrite !bind_cons in E. cbn [app] in E. injection E as E. rewrite <- app_assoc in E.
  apply element_split in E as [-> E]; [|done|done|apply elements_after|destruct lb; [done|done]].
  destruct (IH la r Ha Hb Hr E) as (rest & -> & ->). by exists rest.
Qed.

(** The object path with these elements. *)
Definition path_of (ls : list (list Z)) : list Z := match ls with [] => [47] | _ => ls ≫= cons 47 end.

Lemma element_cstring l : path_element l → cstring l.
Proof.
  intros [_ Hc]. eapply Forall_impl; [exact Hc|]. intros c. unfold path_char, lower_char, upper_char, digit_char. intros E.
  repeat (apply orb_true_iff in E as [E|E]); reflect_bools; lia.
Qed.

Lemma elements_cstring ls : Forall path_element ls → cstring (ls ≫= cons 47).
Proof.
  induction 1 as [|l L Hl _ IH]; [by apply Forall_nil|]. rewrite bind_cons. cbn [app]. apply Forall_cons. split; [lia|]. apply Forall_app. split; [by apply element_cstring|done].
Qed.

Lemma path_of_valid ls : Forall path_element ls → Z.of_nat (length (path_of ls)) ≤ BUS_PATH_SIZE_MAX → object_path_is_valid (path_of ls) = true.
Proof.
  intros H Hl. apply object_path_exact; [destruct ls; [by apply Forall_singleton|by apply elements_cstring]|].
  destruct ls as [|l ls]; [by left|]. right. exists (l :: ls). by split_and!.
Qed.

Lemma path_of_drop ls : drop 1 (path_of ls) = separated 47 ls.
Proof. destruct ls as [|l ls]; [done|]. cbn [path_of]. by rewrite separated_slash. Qed.

(** [object_path_startswith] is the prefix relation on elements, and gives the others. *)
Lemma startswith_elements la lb : Forall path_element la → Forall path_element lb → object_path_is_valid (path_of la) = true → object_path_is_valid (path_of lb) = true →
  match object_path_startswith (path_of la) (path_of lb) with
  | Some r => ∃ rest, la = lb ++ rest ∧ r = separated 47 rest
  | None => ∀ rest, la ≠ lb ++ rest
  end.
Proof.
  intros Ha Hb Va Vb. unfold object_path_startswith. rewrite Va, Vb. cbn [negb orb]. destruct lb as [|l lb].
  { cbn [path_of]. unfold streq. rewrite bool_decide_eq_true_2 by done. exists la. by rewrite path_of_drop. }
  assert (streq (path_of (l :: lb)) [47] = false) as ->.
  { unfold streq. apply bool_decide_eq_false. cbn [path_of]. rewrite bind_cons. apply Forall_cons in Hb as [[Hl _] _]. by destruct l. }
  destruct la as [|l' la].
  { cbn [path_of]. assert (startswith [47] ((l :: lb) ≫= cons 47) = None) as ->; [|by intros rest]. rewrite bind_cons. cbn. apply Forall_cons in Hb as [[Hl _] _]. by destruct l. }
  cbn [path_of]. destruct (startswith _ _) as [r|] eqn:E; cbn [mbind option_bind].
  - apply startswith_Some in E. assert (after_element r → ∃ rest, l' :: la = (l :: lb) ++ rest ∧ r = (rest ≫= cons 47)) as HR by (intros Hr; by apply elements_prefix).
    destruct r as [|c r]; cbn [char0].
    + destruct (HR I) as (rest & ? & ?). exists rest. split; [done|]. by destruct rest.
    + destruct (Z.eqb_spec c 0) as [->|H0]; [exfalso|destruct (Z.eqb_spec c 47) as [->|H47]].
      * apply elements_cstring in Ha. rewrite E in Ha. apply Forall_app in Ha as [_ Ha]. apply Forall_cons in Ha as [Ha _]. lia.
      * destruct (HR eq_refl) as (rest & ? & Er). exists rest. split; [done|]. destruct rest as [|x rest]; [done|]. rewrite separated_slash in Er by done. by injection Er.
      * intros rest Erest. rewrite Erest, bind_app in E. apply app_inv_head in E. destruct rest; [done|]. rewrite bind_cons in E. by injection E as <- _.
  - intros rest Erest. rewrite startswith_None in E. apply (E (rest ≫= cons 47)). by rewrite Erest, bind_app.
Qed.

(** ** Encoding and decoding *)

Lemma bind_empty {A B} (f : A → list B) : ([] ≫= f) = [].
Proof. done. Qed.

Lemma path_of_snoc lp e : Forall path_element lp → path_element e →
  path_of (lp ++ [e]) = if ends_in_slash (path_of lp) || (char0 e =? 47) then path_of lp ++ e else path_of lp ++ 47 :: e.
Proof.
  intros Hp He. assert ((char0 e =? 47) = false) as ->.
  { destruct e as [|c e]; [done|]. apply element_no_slash, Forall_cons in He as [He%negb_true_iff _]. done. }
  rewrite orb_false_r. destruct lp as [|l lp].
  { cbn [path_of app]. rewrite bind_cons, bind_empty, app_nil_r. assert (ends_in_slash [47] = true) as -> by done. done. }
  assert (ends_in_slash (path_of (l :: lp)) = false) as ->.
  { apply not_true_is_false. intros [a Ea]%ends_in_slash_spec. cbn [path_of] in Ea. destruct (exists_last (l := l :: lp)) as (lp' & l' & El); [done|]. rewrite El in Ea, Hp.
    apply Forall_app in Hp as [_ [Hl' _]%Forall_cons]. rewrite bind_app, bind_cons, bind_empty, app_nil_r in Ea. pose proof (proj1 Hl') as Hn. apply element_no_slash in Hl'.
    destruct (exists_last Hn) as (l0 & c & ->). change (47 :: l0 ++ [c]) with ((47 :: l0) ++ [c]) in Ea. rewrite app_assoc in Ea. apply app_inj_tail in Ea as [_ ->].
    apply Forall_app in Hl' as [_ [Hc _]%Forall_cons]. done. }
  change (((l :: lp) ++ [e]) ≫= cons 47 = ((l :: lp) ≫= cons 47) ++ 47 :: e). rewrite bind_app. f_equal. by rewrite bind_cons, bind_empty, app_nil_r.
Qed.

Lemma encode_path lp ext : Forall path_element lp → cstring ext → object_path_is_valid (path_of lp) = true → Z.of_nat (length (path_of lp) + 3 * length ext) + 4 < 2 ^ 64 →
  sd_bus_path_encode false false (path_of lp) ext = Some (inr (path_of (lp ++ [label_text ext]))).
Proof.
  intros Hp Hi V Hl. unfold sd_bus_path_encode. rewrite V, bus_label_escape_ok by done. cbn [negb mbind option_bind]. destruct (label_text_ok ext Hi) as (He & _ & Hle).
  destruct (path_join_correct (Some (path_of lp)) [Some (label_text ext)]) as (r & -> & _ & Hr & _).
  { unfold join_size. cbn [fold_left]. destruct (isempty _); cbn [default from_option id]; lia. }
  cbn [mbind option_bind]. rewrite path_of_snoc by done. rewrite (Hr (path_of lp) (label_text ext)); [done|done| |done|apply He].
  destruct lp as [|l lp]; [done|]. cbn [path_of]. by rewrite bind_cons.
Qed.

Lemma decode_path lp ext : Forall path_element lp → cstring ext → object_path_is_valid (path_of lp) = true → object_path_is_valid (path_of (lp ++ [label_text ext])) = true →
  sd_bus_path_decode false (path_of (lp ++ [label_text ext])) (path_of lp) = Some (inr (Some ext)).
Proof.
  intros Hp Hi V V'. destruct (label_text_ok ext Hi) as (He & _). unfold sd_bus_path_decode. rewrite V, V'. cbn [negb].
  pose proof (startswith_elements (lp ++ [label_text ext]) lp) as HS. specialize (HS ltac:(apply Forall_app; split; [done|by apply Forall_singleton]) Hp V' V).
  destruct (object_path_startswith _ _) as [r|]; [|by destruct (HS [label_text ext])]. destruct HS as (rest & <-%app_inv_head & ->). cbn [separated]. rewrite bind_empty, app_nil_r.
  unfold bus_label_unescape. by rewrite bus_label_unescape_ok.
Qed.

(** *** Templates *)

(** A template is a literal, and a literal after each percent sign. *)
Definition template_of (lit : list Z) (lits : list (list Z)) : list Z := lit ++ (lits ≫= cons 37).

(** The path that it stands for. *)
Fixpoint template_path (lit : list Z) (lits args : list (list Z)) : list Z :=
  match lits, args with
  | l :: lits, a :: args => lit ++ label_text a ++ template_path l lits args
  | _, _ => lit
  end.

Definition literal (l : list Z) : Prop := Forall (λ c, negb (c =? 37) = true) l.

(** There is one percent sign in a label at most. *)
Fixpoint one_per_label (lits : list (list Z)) : Prop :=
  match lits with l :: (_ :: _) as lits => 47 ∈ l ∧ one_per_label lits | _ => True end.

Lemma template_labels_skip lit t args : literal lit → template_labels (lit ++ t) args = template_labels t args.
Proof. induction 1 as [|c lit Hc _ IH]; [done|]. apply negb_true_iff in Hc. cbn. by rewrite Hc. Qed.

Lemma fill_template_skip lit t labels : literal lit → fill_template (lit ++ t) labels = app lit <$> fill_template t labels.
Proof.
  induction 1 as [|c lit Hc _ IH]; [by cbn; destruct (fill_template t labels)|]. apply negb_true_iff in Hc. cbn [app fill_template]. rewrite Hc, IH.
  by destruct (fill_template t labels).
Qed.

Lemma encode_many_ok lits : ∀ lit args, literal lit → Forall literal lits → length args = length lits → Forall cstring args →
  template_labels (template_of lit lits) (map Some args) = Some (inr (map label_text args)) ∧
  fill_template (template_of lit lits) (map label_text args) = Some (template_path lit lits args) ∧
  Z.of_nat (length (template_path lit lits args)) = Z.of_nat (length (template_of lit lits)) + foldr (λ l n, Z.of_nat (length l) - 1 + n) 0 (map label_text args).
Proof.
  unfold template_of. induction lits as [|l lits IH]; intros lit [|a args] Hl Hls E Ha; try done.
  - rewrite bind_empty, template_labels_skip, fill_template_skip, app_nil_r by done. cbn. rewrite app_nil_r. split_and!; [done|done|lia].
  - apply Forall_cons in Hls as [Hl' Hls], Ha as [Ha Has]. injection E as E. destruct (IH l args Hl' Hls E Has) as (H1 & H2 & H3).
    rewrite bind_cons, template_labels_skip, fill_template_skip by done. cbn [app template_labels fill_template map]. change (37 =? 37) with true. cbn iota.
    rewrite bus_label_escape_ok by done. cbn [mbind option_bind id]. rewrite H1, H2. cbn [mbind option_bind fmap option_map template_path foldr].
    split_and!; [done|done|]. rewrite !length_app in *. cbn [length]. rewrite length_app in *. lia.
Qed.

Lemma split_label l lits : one_per_label (l :: lits) → ∃ l1 l2, l = l1 ++ l2 ∧ Forall (λ c, negb (c =? 47) = true) l1 ∧ ((∃ r, l2 = 47 :: r) ∨ l2 = [] ∧ lits = []).
Proof.
  intros H. destruct (span_view (λ c, negb (c =? 47)) l) as (l1 & l2 & -> & _ & H1 & H2). exists l1, l2. split_and!; [done|done|].
  destruct l2 as [|c r]; [|left; exists r; by apply negb_false_iff, Z.eqb_eq in H2 as ->]. right. split; [done|]. destruct lits as [|l' lits]; [done|]. destruct H as [H _].
  rewrite app_nil_r, list_elem_of_In in H. rewrite Forall_forall in H1. apply list_elem_of_In, H1 in H. done.
Qed.

Lemma template_path_app l1 l2 lits args : template_path (l1 ++ l2) lits args = l1 ++ template_path l2 lits args.
Proof. destruct lits, args; cbn; [done..|by rewrite <- app_assoc]. Qed.

Lemma template_head l2 lits args : (∃ r, l2 = 47 :: r) ∨ l2 = [] ∧ lits = [] → after_element (template_of l2 lits) ∧ after_element (template_path l2 lits args).
Proof. intros [[r ->]|[-> ->]]; [|by split]. split; [done|]. by destruct lits, args. Qed.

Lemma decode_many_ok lits : ∀ fuel lit args, literal lit → Forall literal lits → one_per_label lits → length args = length lits → Forall cstring args →
  (length (template_of lit lits) ≤ fuel)%nat → decode_many_loop fuel (template_path lit lits args) (template_of lit lits) = Some (Some (args, [])).
Proof.
  induction lits as [|l lits IH]; intros fuel lit [|a args] Hl Hls Ho E Ha Hf; try done.
  - unfold template_of in *. rewrite bind_empty, app_nil_r in *. cbn [template_path]. destruct lit as [|c lit]; [by destruct fuel|]. destruct fuel as [|fuel]; [cbn in Hf; lia|].
    cbn [decode_many_loop]. unfold strchrnul. pose proof (span_app _ (c :: lit) [] Hl I) as Es. rewrite app_nil_r in Es. rewrite Es, take_ge, drop_ge by done.
    by rewrite (proj2 (startswith_Some (c :: lit) (c :: lit) [])) by (by rewrite app_nil_r).
  - apply Forall_cons in Hls as [Hl' Hls], Ha as [Ha Has]. injection E as E. destruct (split_label l lits Ho) as (l1 & l2 & -> & H1 & H2). destruct (template_head l2 lits args H2) as [HT HP].
    unfold template_of in Hf. unfold template_of at 1. rewrite bind_cons in Hf |- *. cbn [template_path app] in Hf |- *. rewrite length_app in Hf. cbn [length] in Hf.
    destruct fuel as [|fuel]; [lia|]. assert (strchrnul (lit ++ 37 :: (l1 ++ l2) ++ (lits ≫= cons 37)) 37 = length lit) as Es by (by apply span_app).
    assert (∃ c t, lit ++ 37 :: (l1 ++ l2) ++ (lits ≫= cons 37) = c :: t) as (c & t & Et) by (destruct lit; by eexists _, _). 
    cbn [decode_many_loop]. rewrite Et. rewrite <- Et, Es, take_app_length, drop_app_length. rewrite (proj2 (startswith_Some _ lit _)) by done.
    rewrite <- app_assoc. fold (template_of l2 lits). rewrite template_path_app. destruct (label_text_ok a Ha) as [He _].
    assert (strchrnul (l1 ++ template_of l2 lits) 47 = length l1) as -> by (by apply span_app).
    assert (strchrnul (label_text a ++ l1 ++ template_path l2 lits args) 47 = length (label_text a ++ l1)) as ->.
    { rewrite app_assoc. apply span_app; [|done]. apply Forall_app. split; [by apply element_no_slash|done]. }
    rewrite length_app, (proj2 (Nat.ltb_ge _ _)) by lia. rewrite Nat.add_sub, drop_app_length, !take_app_length. rewrite bool_decide_eq_true_2 by done. cbn [negb].
    rewrite bus_label_unescape_ok by done. cbn [mbind option_bind id]. rewrite <- length_app, app_assoc, drop_app_length, drop_app_length.
    unfold literal in Hl'. apply Forall_app in Hl' as [_ Hl'].
    rewrite IH; [done|done|done| |done|done|]; [by destruct lits as [|? []]; [|done|destruct Ho as [_ ?]]|].
    unfold template_of. rewrite !length_app in *. lia.
Qed.

(** *** Addresses *)

Definition address_escape_of (e : list Z) (c : Z) : bool :=
  match e with
  | [x] => (x =? c) && negb ((x =? 59) || (x =? 44)) && negb (x =? 37)
  | [x; a; b] => (x =? 37) && (0 <=? unhexchar a) && (0 <=? unhexchar b) && (u8 (Z.lor (Z.shiftl (unhexchar a) 4) (unhexchar b)) =? c)
  | _ => false
  end.

Lemma address_char_spec c : 0 < c < 256 → address_escape_of (address_char c) c = true ∧ (length (address_char c) ≤ 3)%nat.
Proof.
  intros Hb. assert (is_byte c) as Hc by (unfold is_byte; lia). revert Hc.
  by_bytes (λ c, (c =? 0) || address_escape_of (address_char c) c && (length (address_char c) <=? 3)%nat). rewrite (proj2 (Z.eqb_neq c 0)) in Hc by lia.
  apply andb_true_iff in Hc as [? ?%Nat.leb_le]. done.
Qed.

Lemma address_value_ok v rest : cstring v → match rest with [] => True | c :: _ => c = 59 ∨ c = 44 end →
  address_value_loop ((v ≫= address_char) ++ rest) = inr (v, rest) ∧ (length (v ≫= address_char) ≤ 3 * length v)%nat.
Proof.
  intros Hv Hr. induction Hv as [|c v Hc _ [IH Hl]].
  { destruct rest as [|c rest]; [by split|]. split; [|done]. cbn. by destruct Hr as [-> | ->]. }
  destruct (address_char_spec c Hc) as [He Hl']. rewrite bind_cons, <- app_assoc, length_app. cbn [length]. split; [|lia].
  unfold address_escape_of in He. destruct (address_char c) as [|x [|a [|b [|]]]]; try done; apply andb_true_iff in He as [He He'].
  - apply andb_true_iff in He as [->%Z.eqb_eq He]. apply negb_true_iff in He, He'. cbn [app address_value_loop]. by rewrite He, He', IH.
  - reflect_bools. subst x. cbn [app address_value_loop]. change ((37 =? 59) || (37 =? 44)) with false. change (37 =? 37) with true. cbn [char0].
    change (drop 1 (a :: b :: (v ≫= address_char) ++ rest)) with (b :: (v ≫= address_char) ++ rest). cbn [char0]. rewrite !(proj2 (Z.ltb_ge _ 0)) by lia. rewrite IH. by subst c.
Qed.

(** An address with an escaped value is parsed to the value. *)
Lemma address_roundtrip key v rest : cstring v → match rest with [] => True | c :: _ => c = 59 ∨ c = 44 end → ∃ e,
  bus_address_escape false v = Some (Some e) ∧
  parse_address_key (key ++ 61 :: e ++ rest) (Some key) None = (1, if char0 rest =? 44 then drop 1 rest else rest, Some v).
Proof.
  intros Hv Hr. destruct (address_value_ok v rest Hv Hr) as [E Hl]. eexists. unfold bus_address_escape, new_string. rewrite filled_fits by lia. split; [done|].
  unfold parse_address_key. rewrite (proj2 (startswith_Some _ key _)) by done. cbn [char0 negb]. change (61 =? 61) with true. cbn [negb].
  change (drop 1 (61 :: ?x)) with x. rewrite E. by rewrite c_str_cstring.
Qed.

(** *** Units *)

Definition unit_elements : list (list Z) := [bytes_of "org"; bytes_of "freedesktop"; bytes_of "systemd1"; bytes_of "unit"].

Lemma unit_elements_ok : Forall path_element unit_elements.
Proof. repeat (apply Forall_cons; split; [split; [done|apply (bool_decide_unpack _); by vm_compute]|]). by apply Forall_nil. Qed.

Lemma unit_prefix_elements e : unit_prefix ++ e = path_of (unit_elements ++ [e]).
Proof. cbn [unit_elements app path_of]. rewrite !bind_cons, bind_empty, app_nil_r. done. Qed.

Lemma unit_interface t : interface_name_is_valid (unit_dbus_interface_from_type t) = true.
Proof. by destruct t; vm_compute. Qed.

(** ** Theorems *)

(** C21. The functions that check names accept exactly these: an object path is the
    root or elements of letters, digits and underscores with a slash before each,
    of [BUS_PATH_SIZE_MAX] characters at most; the name of an interface has two
    parts or more with dots between them, none of which starts with a digit, and
    at most 255 characters; so has the name of a service, where parts may have
    dashes, and after a colon may start with digits; a member is one element of at
    most 255 characters, which may start with a digit. These are the rules of the
    code. Those of D-Bus differ in two places: D-Bus sets no limit on the length
    of a path, as [bus-internal.h] says, and forbids a member to start with a
    digit. And a pattern matches what its comment says, for every separator. *)
Theorem bus_names_exact (p : list Z) (Hp : cstring p) :
  (object_path_is_valid p = true ↔ object_path p) ∧
  (interface_name_is_valid p = true ↔
     ∃ ls, (2 ≤ length ls)%nat ∧ p = separated 46 ls ∧ Forall interface_part ls ∧ (length p ≤ SD_BUS_MAXIMUM_NAME_LENGTH)%nat) ∧
  (service_name_is_valid p = true ↔
     ∃ unique ls, (2 ≤ length ls)%nat ∧ p = service_text unique ls ∧ Forall (service_part unique) ls ∧ (length p ≤ SD_BUS_MAXIMUM_NAME_LENGTH)%nat) ∧
  (member_name_is_valid p = true ↔ path_element p ∧ (length p ≤ SD_BUS_MAXIMUM_NAME_LENGTH)%nat) ∧
  (∀ c b, complex_pattern_check c (Some p) (Some b) = true ↔
     p = b ∨ (∃ y, b = p ++ y ∧ last p = Some c) ∨ (∃ y, p = b ++ y ∧ last b = Some c)) ∧
  (∀ c b, simple_pattern_check c (Some p) (Some b) = true ↔ p = b ∨ ∃ x y, b = p ++ x :: y ∧ (x = c ∨ last p = Some c)).
Proof.
  assert (∀ c a, ends_with c false a ↔ last a = Some c) as HE by (intros c a; unfold ends_with; destruct (last a); [split; [by intros ->|by intros [= ->]]|done]).
  split; [by apply object_path_exact|]. split; [apply interface_name_exact|]. split; [apply service_name_exact|]. split; [apply member_name_exact|]. split; intros c b; cbn [complex_pattern_check simple_pattern_check].
  - rewrite complex_pattern_loop_spec. by setoid_rewrite HE.
  - rewrite simple_pattern_loop_spec. by setoid_rewrite HE.
Qed.

(** A member that D-Bus does not allow, and an interface of the same form. *)
Example member_name_digit :
  member_name_is_valid (bytes_of "1st") = true ∧ interface_name_is_valid (bytes_of "a.1st") = false.
Proof. by vm_compute. Qed.

Lemma bus_names_exact_witness : object_path_is_valid (bytes_of "/org/x_1") = true ↔ object_path (bytes_of "/org/x_1").
Proof. apply (bus_names_exact (bytes_of "/org/x_1")). apply (bool_decide_unpack _). by vm_compute. Defined.

(** Object paths are decoded to what they were made from: an identifier that
    [sd_bus_path_encode] puts below a path is what [sd_bus_path_decode] finds there,
    as long as the path is not longer than an object path may be, else it is refused;
    and the identifiers that [sd_bus_path_encode_many] fills into a template with one
    percent sign in a label at most are those that [sd_bus_path_decode_many] finds
    with the same template. Identifiers may be empty and have any characters. *)
Theorem object_paths_roundtrip (prefix ext lit : list Z) (lits args : list (list Z)) (Hp : cstring prefix) (Hv : object_path_is_valid prefix = true)
    (He : cstring ext) (Hl : Z.of_nat (length prefix + 3 * length ext) + 4 < 2 ^ 64)
    (Hlit : Forall literal (lit :: lits)) (Hone : one_per_label lits) (Hn : length args = length lits) (Ha : Forall cstring args) :
  (∃ path, sd_bus_path_encode false false prefix ext = Some (inr path) ∧
     sd_bus_path_decode false path prefix = Some (if Z.of_nat (length path) <=? BUS_PATH_SIZE_MAX then inr (Some ext) else inl (- EINVAL))) ∧
  (∃ path, sd_bus_path_encode_many (template_of lit lits) (map Some args) = Some (inr path) ∧
     sd_bus_path_decode_many path (template_of lit lits) = Some (Some args)).
Proof.
  split.
  - assert (∃ lp, prefix = path_of lp ∧ Forall path_element lp) as (lp & -> & HF).
    { apply object_path_exact in Hv as [->|(ls & Hne & -> & HF & _)]; [by exists []; split; [|apply Forall_nil]| |done]. exists ls. split; [|done]. by destruct ls. }
    eexists. split; [by apply encode_path|]. destruct (label_text_ok ext He) as [Hle _].
    assert (Forall path_element (lp ++ [label_text ext])) as HF' by (apply Forall_app; split; [done|by apply Forall_singleton]).
    destruct (Z.leb_spec (Z.of_nat (length (path_of (lp ++ [label_text ext])))) BUS_PATH_SIZE_MAX) as [Hb|Hb]; [apply decode_path; [done..|by apply path_of_valid]|].
    unfold sd_bus_path_decode. assert (object_path_is_valid (path_of (lp ++ [label_text ext])) = false) as ->; [|done]. apply not_true_is_false. intros V.
    assert (∃ l L, lp ++ [label_text ext] = l :: L) as (l & L & EL) by (destruct lp; by eexists _, _). rewrite EL in *. cbn [path_of] in *.
    apply object_path_exact in V as [V|(ls & _ & _ & _ & ?)]; [rewrite V in Hb; cbn in Hb; unfold BUS_PATH_SIZE_MAX in Hb; lia|lia|by apply elements_cstring].
  - apply Forall_cons in Hlit as [H1 H2]. destruct (encode_many_ok lits lit args H1 H2 Hn Ha) as (E1 & E2 & E3). exists (template_path lit lits args).
    unfold sd_bus_path_encode_many. rewrite E1. cbn [mbind option_bind]. rewrite E2. cbn [mbind option_bind]. rewrite filled_fits by lia. split; [done|].
    unfold sd_bus_path_decode_many. by rewrite decode_many_ok.
Qed.

Lemma object_paths_roundtrip_witness : ∃ path, sd_bus_path_encode_many (bytes_of "/a/%/b%x") (map Some [bytes_of "1.0"; []]) = Some (inr path) ∧
  sd_bus_path_decode_many path (bytes_of "/a/%/b%x") = Some (Some [bytes_of "1.0"; []]).
Proof.
  apply (object_paths_roundtrip (bytes_of "/") [] (bytes_of "/a/") [bytes_of "/b"; bytes_of "x"] [bytes_of "1.0"; []]);
    first [by vm_compute|apply (bool_decide_unpack _); by vm_compute|split; [apply (bool_decide_unpack _); by vm_compute|done]].
Defined.

(** C20. Every valid name of a unit has an object path, which is a valid one, is what
    [sd_bus_path_encode] makes below the path of all units, and gives the name back
    in both ways; and it has an interface, whose name is valid. *)
Theorem unit_object_path (n : list Z) (Hn : cstring n) (Hv : unit_name_is_valid n UNIT_NAME_ANY = true) :
  ∃ path i, unit_dbus_path_from_name false false n = Some (Some path) ∧ object_path_is_valid path = true ∧
    sd_bus_path_encode false false (path_of unit_elements) n = Some (inr path) ∧
    unit_name_from_dbus_path false path = Some (inr n) ∧ sd_bus_path_decode false path (path_of unit_elements) = Some (inr (Some n)) ∧
    unit_dbus_interface_from_name n = Some (Some i) ∧ interface_name_is_valid i = true.
Proof.
  destruct (unit_name_parts n UNIT_NAME_ANY Hn Hv) as (p & oi & t & En & Hparts). pose proof Hv as Hlen. rewrite En, unit_text_valid in Hlen by done.
  apply andb_true_iff in Hlen as [Hlen%Z.ltb_lt _]. rewrite <- En in Hlen. unfold UNIT_NAME_MAX in Hlen. destruct (label_text_ok n Hn) as (He & _ & Hle).
  assert (Forall path_element (unit_elements ++ [label_text n])) as HF by (apply Forall_app; split; [apply unit_elements_ok|by apply Forall_singleton]).
  assert (object_path_is_valid (path_of (unit_elements ++ [label_text n])) = true) as V.
  { apply path_of_valid; [done|]. rewrite <- unit_prefix_elements, length_app. change (length unit_prefix) with 31%nat. unfold BUS_PATH_SIZE_MAX. lia. }
  exists (path_of (unit_elements ++ [label_text n])), (unit_dbus_interface_from_type t). split_and!; [|done| | | | |apply unit_interface].
  - unfold unit_dbus_path_from_name. rewrite bus_label_escape_ok by done. cbn [mbind option_bind]. rewrite strjoin_spec; cbn [concat]; rewrite app_nil_r.
    + by rewrite unit_prefix_elements.
    + rewrite length_app. change (length unit_prefix) with 31%nat. unfold SIZE_MAX, UINT64_MAX. lia.
  - apply encode_path; [apply unit_elements_ok|done|done|]. change (length (path_of unit_elements)) with 30%nat. lia.
  - unfold unit_name_from_dbus_path. rewrite <- unit_prefix_elements, (proj2 (startswith_Some _ unit_prefix (label_text n))) by done.
    unfold bus_label_unescape. by rewrite bus_label_unescape_ok.
  - by apply decode_path; [apply unit_elements_ok|..].
  - unfold unit_dbus_interface_from_name, unit_name_to_type. rewrite Hv. cbn [negb]. rewrite En, body_dot. cbn [mbind option_bind].
    change (drop 1 (46 :: unit_type_to_string t)) with (unit_type_to_string t). by rewrite type_roundtrip.
Qed.

Lemma unit_object_path_witness : ∃ path i, unit_dbus_path_from_name false false (bytes_of "getty@tty1.service") = Some (Some path) ∧ object_path_is_valid path = true ∧
    sd_bus_path_encode false false (path_of unit_elements) (bytes_of "getty@tty1.service") = Some (inr path) ∧
    unit_name_from_dbus_path false path = Some (inr (bytes_of "getty@tty1.service")) ∧ sd_bus_path_decode false path (path_of unit_elements) = Some (inr (Some (bytes_of "getty@tty1.service"))) ∧
    unit_dbus_interface_from_name (bytes_of "getty@tty1.service") = Some (Some i) ∧ interface_name_is_valid i = true.
Proof. apply (unit_object_path (bytes_of "getty@tty1.service")); [apply (bool_decide_unpack _); by vm_compute|by vm_compute]. Defined.
