(* ===== verification/ExtractWord.v ===== *)
(** * systemd: words of a line

    Models [src/app/multi_process/day1/systemd/src/basic/extract-word.c]: the parser
    that takes configuration lines apart into words, with quotes and escape
    sequences. The loops of [extract_first_word] are one loop here that reads a
    character in each round, with the variables [quote] and [backslash] of the
    source; [p] is the rest of the string without its NUL, [None] when the pointer is
    NULL, and [s] is what was written to the buffer so far. [separators] is the set of
    separators; a caller that passes NULL means [WHITESPACE].

    The buffer is at least as long as was asked for last, [cap]: a write beyond is
    [None], as is reading past the NUL. A failing allocation is not modelled, nor are
    the messages of [extract_first_word_and_warn]. *)

From Stdlib Require Import String.
From S2P Require Import Prelude Hexdecoct HexdecoctProps Utf8 Utf8Props Escape EscapeProps StringUtil.

#[local] Open Scope Z_scope.
#[local] Set Warnings "-clear-no-such-hyp".

Record ExtractFlags := mk_flags { EXTRACT_RELAX : bool; EXTRACT_CUNESCAPE : bool; EXTRACT_CUNESCAPE_RELAX : bool;
  EXTRACT_UNQUOTE : bool; EXTRACT_DONT_COALESCE_SEPARATORS : bool; EXTRACT_RETAIN_ESCAPE : bool }.

Definition WHITESPACE : list Z := [32; 9; 10; 13].

(** The return value, the new [*p] and [*ret]. *)
Definition extracted : Type := Z * option (list Z) * option (list Z).

Definition put (cap : nat) (s x : list Z) : option (list Z) := if (length (s ++ x) <=? cap)%nat then Some (s ++ x) else None.

(** [finish_force_next] *)
Definition finish (cap : nat) (s : list Z) (p : option (list Z)) : option extracted :=
  if (length s <? cap)%nat then Some (1, p, Some s) else None.

(** [strchr(separators, c)] for a character that is not NUL. *)
Definition is_separator (separators : list Z) (c : Z) : bool := bool_decide (c ∈ separators).

Section Flags.
Context (separators : list Z) (flags : ExtractFlags).

(** At the NUL. *)
Definition word_end (quote : Z) (backslash : bool) (cap : nat) (s : list Z) : option extracted :=
  if backslash then
    let cap := Nat.max cap (length s + 7) in
    if EXTRACT_CUNESCAPE_RELAX flags && ((quote =? 0) || EXTRACT_RELAX flags) then s ← put cap s [92]; finish cap s None
    else if EXTRACT_RELAX flags then finish cap s None
    else Some (- EINVAL, Some [], None)
  else if negb (quote =? 0) then
    if EXTRACT_RELAX flags then finish cap s None else Some (- EINVAL, Some [], None)
  else finish cap s None.

Fixpoint word_loop (fuel : nat) (quote : Z) (backslash : bool) (p : list Z) (cap : nat) (s : list Z) : option extracted :=
  match p, fuel with
  | [], _ => word_end quote backslash cap s
  | _, O => None
  | c :: p', S fuel =>
      if backslash then
        let cap := Nat.max cap (length s + 7) in
        if EXTRACT_CUNESCAPE flags then
          r ← cunescape_one (p ++ [0]) SIZE_MAX;
          match r with
          | inl _ => if EXTRACT_CUNESCAPE_RELAX flags then s ← put cap s [92; c]; word_loop fuel quote false p' cap s else Some (- EINVAL, Some p, None)
          | inr (k, u, eight_bit) =>
              s ← put cap s (if eight_bit : bool then [u8 u] else utf8_encode_unichar u);
              if Z.of_nat (length p) <? k then None else word_loop fuel quote false (drop (Z.to_nat k) p) cap s
          end
        else s ← put cap s [c]; word_loop fuel quote false p' cap s
      else if negb (quote =? 0) then
        if c =? quote then word_loop fuel 0 false p' cap s
        else if (c =? 92) && negb (EXTRACT_RETAIN_ESCAPE flags) then word_loop fuel quote true p' cap s
        else let cap := Nat.max cap (length s + 2) in s ← put cap s [c]; word_loop fuel quote false p' cap s
      else if ((c =? 39) || (c =? 34)) && EXTRACT_UNQUOTE flags then word_loop fuel c false p' cap s
      else if (c =? 92) && negb (EXTRACT_RETAIN_ESCAPE flags) then word_loop fuel 0 true p' cap s
      else if is_separator separators c then
        if EXTRACT_DONT_COALESCE_SEPARATORS flags then finish cap s (Some p')
        else match drop (span (is_separator separators) p) p with [] => finish cap s None | q => finish cap s (Some q) end
      else let cap := Nat.max cap (length s + 2) in s ← put cap s [c]; word_loop fuel 0 false p' cap s
  end.

(** The loop over the separators before the word. *)
Fixpoint leading_loop (p : list Z) : option extracted :=
  match p with
  | [] => if EXTRACT_DONT_COALESCE_SEPARATORS flags then finish 1 [] None else Some (0, None, None)
  | c :: p' =>
      if is_separator separators c then
        if EXTRACT_DONT_COALESCE_SEPARATORS flags then finish 1 [] (Some p') else leading_loop p'
      else word_loop (length p) 0 false p 1 []
  end.

Definition extract_first_word (p : option (list Z)) : option extracted :=
  match p with None => Some (0, None, None) | Some p => leading_loop p end.

(** The loop of [extract_many_words]: an error, or how many words there were. *)
Fixpoint many_words_loop (n : nat) (p : option (list Z)) : option (Z * option (list Z) * list (option (list Z))) :=
  match n with
  | O => Some (0, p, [])
  | S n =>
      '(r, p, w) ← extract_first_word p;
      if r <? 0 then Some (r, p, [])
      else if r =? 0 then Some (0, p, replicate (S n) None)
      else
        '(c, p, l) ← many_words_loop n p;
        Some (if c <? 0 then (c, p, []) else (c + 1, p, w :: l))
  end.

(** The words are stored in [n] variables, unless there is an error. *)
Definition extract_many_words (n : nat) (p : option (list Z)) : option (Z * option (list Z) * list (option (list Z))) := many_words_loop n p.

End Flags.

Definition with_cunescape_relax (f : ExtractFlags) : ExtractFlags :=
  mk_flags (EXTRACT_RELAX f) (EXTRACT_CUNESCAPE f) true (EXTRACT_UNQUOTE f) (EXTRACT_DONT_COALESCE_SEPARATORS f) (EXTRACT_RETAIN_ESCAPE f).

Definition extract_first_word_and_warn (p : option (list Z)) (separators : list Z) (flags : ExtractFlags) : option extracted :=
  '(r, q, w) ← extract_first_word separators flags p;
  if (r =? - EINVAL) && negb (EXTRACT_CUNESCAPE_RELAX flags) then extract_first_word separators (with_cunescape_relax flags) p else Some (r, q, w).

Definition no_flags : ExtractFlags := mk_flags false false false false false false.
Definition unquote_flags : ExtractFlags := mk_flags false true false true false false.

Example extract_ex : extract_many_words WHITESPACE unquote_flags 4 (Some (bytes_of "  foo 'a b' x\n  ")) =
  Some (3, None, [Some (bytes_of "foo"); Some (bytes_of "a b"); Some [120; 10]; None]).
Proof. by vm_compute. Qed.

(** ** Safety *)

Lemma unhex_digits_nonzero n : ∀ p a, unhex_digits n p = Some (inr a) → 0 ∉ take n p.
Proof.
  induction n as [|n IH]; intros [|c p] a; cbn [unhex_digits lookup list_lookup mbind option_bind take]; [by intros _ ?%not_elem_of_nil..|done|].
  change (drop 1 (c :: p)) with p. destruct (Z.ltb_spec (unhexchar c) 0); [done|]. destruct (unhex_digits n p) as [[|b]|] eqn:E; [done| |done]. intros _.
  apply not_elem_of_cons. split; [|by eapply IH]. intros <-. by apply (hex_nonzero 0).
Qed.

(** The characters of a sequence are none of them NUL. *)
Lemma sequence_nonzero p0 p L k u b : cunescape_one (p0 :: p) L = Some (inr (k, u, b)) → p0 ≠ 0 → 0 ≤ k ∧ 0 ∉ take (Z.to_nat k) (p0 :: p).
Proof.
  unfold cunescape_one. intros E H0. destruct (too_short L 1); [done|]. cbn [lookup list_lookup mbind option_bind] in E.
  assert (0 ∉ [p0]) as H1 by (intros Hp%list_elem_of_singleton; done).
  repeat match type of E with (if p0 =? ?n then Some (inr _) else _) = _ => destruct (p0 =? n); [by injection E as <- _ _|] end.
  assert (∀ n : nat, 0 ∉ take n p → 0 ∉ take (S n) (p0 :: p)) as HT by (intros n Hn; cbn; by apply not_elem_of_cons).
  assert (∀ p1 p2, p1 ≠ 0 → p2 ≠ 0 → 0 ∉ [p0; p1; p2]) as H3 by (intros p1 p2 ? ?; rewrite !not_elem_of_cons; split_and!; try done; apply not_elem_of_nil).
  change (drop 1 (p0 :: p)) with p in E. repeat match type of E with (if p0 =? ?n then _ else _) = _ => destruct (p0 =? n) end.
  - destruct (too_short L 3); [done|]. destruct p as [|p1 [|p2 p]]; cbn [lookup list_lookup mbind option_bind] in E; [done|by destruct (_ <? 0)|].
    destruct (Z.ltb_spec (unhexchar p1) 0), (Z.ltb_spec (unhexchar p2) 0); try done. destruct (_ && _); [done|]. injection E as <- _ _. split; [done|]. by apply H3; apply hex_nonzero.
  - destruct (too_short L 5); [done|]. destruct (unhex_digits 4 p) as [[|a]|] eqn:Ea; [done| |done]. cbn [mbind option_bind] in E. destruct (_ =? 0); [done|]. injection E as <- _ _.
    split; [done|]. apply HT. by eapply unhex_digits_nonzero.
  - destruct (too_short L 9); [done|]. destruct (unhex_digits 8 p) as [[|a]|] eqn:Ea; [done| |done]. cbn [mbind option_bind] in E. destruct (_ =? 0); [done|]. destruct (negb _); [done|]. injection E as <- _ _.
    split; [done|]. apply HT. by eapply unhex_digits_nonzero.
  - destruct (_ && _); [|done]. destruct (too_short L 3); [done|]. destruct (_ <? 0); [done|]. destruct p as [|p1 [|p2 p]]; cbn [lookup list_lookup mbind option_bind] in E; [done|by destruct (_ <? 0)|].
    destruct (Z.ltb_spec (unoctchar p1) 0), (Z.ltb_spec (unoctchar p2) 0); try done. destruct (_ && _); [done|]. destruct (255 <? _); [done|]. injection E as <- _ _. split; [done|]. by apply H3; apply oct_nonzero.
Qed.

(** A sequence in a C string ends before the NUL. *)
Lemma sequence_within c p : cstring (c :: p) → ∃ r, cunescape_one ((c :: p) ++ [0]) SIZE_MAX = Some r ∧
  match r with inl e => e = - EINVAL | inr (k, u, b) => 1 ≤ k ≤ Z.of_nat (length (c :: p)) ∧ cstring (sequence_bytes u b) ∧ (length (sequence_bytes u b) ≤ 6)%nat end.
Proof.
  intros Hp. destruct (cunescape_one_total ((c :: p) ++ [0]) SIZE_MAX) as (r & E & Hr); [left; set_solver|]. exists r. split; [done|]. destruct r as [e|[[k u] b]]; [done|].
  destruct Hr as (Hk & Hc & Hl). apply Forall_cons in Hp as [Hc0 _]. destruct (sequence_nonzero c (p ++ [0]) SIZE_MAX k u b E) as [_ Hz]; [lia|]. split; [|split; [done|]].
  - rewrite length_app in Hk. cbn [length] in *. split; [lia|]. destruct (decide (k = Z.of_nat (S (length p)) + 1)); [|lia]. destruct Hz. rewrite take_ge by (cbn; rewrite length_app; cbn; lia). set_solver.
  - unfold sequence_bytes. destruct b; [cbn; lia|]. unfold utf8_encode_unichar. repeat case_match; cbn; lia.
Qed.

Lemma put_within cap s x : (length s + length x ≤ cap)%nat → put cap s x = Some (s ++ x).
Proof. intros H. unfold put. rewrite length_app. by rewrite (proj2 (Nat.leb_le _ _)). Qed.

Lemma finish_ok cap s p : (length s < cap)%nat → finish cap s p = Some (1, p, Some s).
Proof. intros H. unfold finish. by rewrite (proj2 (Nat.ltb_lt _ _)). Qed.

(** Flags that forgive everything. *)
Definition lenient (f : ExtractFlags) : bool := EXTRACT_RELAX f && (negb (EXTRACT_CUNESCAPE f) || EXTRACT_CUNESCAPE_RELAX f).

(** A word and what is left, which is shorter; or an error at some point. *)
Inductive sane (flags : ExtractFlags) (p : list Z) : extracted → Prop :=
  | sane_last s : cstring s → sane flags p (1, None, Some s)
  | sane_more s q : cstring s → q `suffix_of` p → (length q < length p)%nat → sane flags p (1, Some q, Some s)
  | sane_error q : q `suffix_of` p → lenient flags = false → sane flags p (- EINVAL, Some q, None).

Lemma sane_suffix flags p p' r : p' `suffix_of` p → sane flags p' r → sane flags p r.
Proof.
  intros Hp. pose proof (suffix_length _ _ Hp). destruct 1; constructor; try done; [by etrans|lia|by etrans].
Qed.

Section Safety.
Context (separators : list Z) (flags : ExtractFlags).

Lemma word_end_ok quote backslash cap s : (length s < cap)%nat → cstring s → ∃ r, word_end flags quote backslash cap s = Some r ∧ sane flags [] r.
Proof.
  intros Hc Hs. assert (∀ s', cstring s' → sane flags [] (1, None, Some s')) as HL by (intros; by apply sane_last).
  assert (EXTRACT_RELAX flags = false → sane flags [] (- EINVAL, Some [], None)) as HE by (intros E; constructor; [done|unfold lenient; by rewrite E]).
  unfold word_end. destruct backslash; [|destruct (negb _); [destruct (EXTRACT_RELAX flags); [|by eauto]|]; rewrite finish_ok by done; eauto].
  destruct (_ && _).
  - rewrite put_within by (cbn; lia). cbn [mbind option_bind]. rewrite finish_ok by (rewrite length_app; cbn; lia). eexists. split; [done|]. apply HL. apply Forall_app. split; [done|by apply Forall_singleton].
  - destruct (EXTRACT_RELAX flags); [|by eauto]. rewrite finish_ok by lia. eauto.
Qed.

Lemma word_loop_ok fuel : ∀ quote backslash p cap s, (length p ≤ fuel)%nat → cstring p → (length s < cap)%nat → cstring s →
  ∃ r, word_loop separators flags fuel quote backslash p cap s = Some r ∧ sane flags p r.
Proof.
  induction fuel as [|fuel IH]; intros quote backslash [|c p] cap s Hf Hp Hc Hs; [by apply word_end_ok|cbn in Hf; lia|by apply word_end_ok|]. cbn [length] in Hf.
  pose proof Hp as [Hc0 Hp']%Forall_cons. cbn [word_loop].
  assert (∀ q, q `suffix_of` c :: p → ∀ x quote backslash cap', cstring x → (length (s ++ x) < cap')%nat → (length q ≤ fuel)%nat → ∃ r, word_loop separators flags fuel quote backslash q cap' (s ++ x) = Some r ∧ sane flags (c :: p) r) as HN.
  { intros q Hq x qu bs cap' Hx Hl Hfq. destruct (IH qu bs q cap' (s ++ x)) as (r & E & R); [done| |done|by apply Forall_app|].
    - destruct Hq as [u Hu]. rewrite Hu in Hp. by apply Forall_app in Hp as [_ ?].
    - exists r. split; [done|]. by apply (sane_suffix flags _ q). }
  assert (p `suffix_of` c :: p) as Hpp by (by exists [c]). assert (cstring [c]) as Hcc by (by apply Forall_singleton).
  assert (∀ qu bs, ∃ r, word_loop separators flags fuel qu bs p cap s = Some r ∧ sane flags (c :: p) r) as HS.
  { intros qu bs. rewrite <- (app_nil_r s). apply HN; [done|by apply Forall_nil|by rewrite app_nil_r|lia]. }
  assert (∀ qu n, (2 ≤ n)%nat → ∃ r, (s' ← put (Nat.max cap (length s + n)) s [c]; word_loop separators flags fuel qu false p (Nat.max cap (length s + n)) s') = Some r ∧ sane flags (c :: p) r) as HC.
  { intros qu n Hn. rewrite put_within by (cbn; lia). cbn [mbind option_bind]. apply HN; [done|done|rewrite length_app; cbn; lia|lia]. }
  destruct backslash.
  - destruct (EXTRACT_CUNESCAPE flags) eqn:Ecu; [|by apply HC; lia]. destruct (sequence_within c p Hp) as (r & E & Hr). rewrite E. cbn [mbind option_bind]. destruct r as [e|[[k u] b]].
    + destruct (EXTRACT_CUNESCAPE_RELAX flags) eqn:Er; [|eexists; split; [done|]; constructor; [done|unfold lenient; by rewrite Ecu, Er, andb_false_r]].
      rewrite put_within by (cbn; lia). cbn [mbind option_bind]. apply HN; [done|apply Forall_cons; split; [lia|done]|rewrite length_app; cbn; lia|lia].
    + destruct Hr as (Hk & Hcs & Hl6). fold (sequence_bytes u b). rewrite put_within by lia. cbn [mbind option_bind]. rewrite (proj2 (Z.ltb_ge _ _)) by lia.
      apply HN; [exists (take (Z.to_nat k) (c :: p)); by rewrite take_drop|done|rewrite length_app; lia|rewrite length_drop; cbn [length] in *; lia].
  - destruct (negb (quote =? 0)).
    + destruct (c =? quote); [apply HS|]. destruct (_ && _); [apply HS|]. apply HC. lia.
    + destruct (_ && EXTRACT_UNQUOTE flags); [apply HS|]. destruct (_ && negb _); [apply HS|]. destruct (is_separator separators c) eqn:Esep; [|apply HC; lia].
      destruct (EXTRACT_DONT_COALESCE_SEPARATORS flags); [rewrite finish_ok by done; eexists; split; [done|]; constructor; [done|done|cbn; lia]|].
      set (q := drop _ _). assert (q `suffix_of` c :: p ∧ (length q < length (c :: p))%nat) as [Hq Hql].
      { subst q. split; [eexists; symmetry; apply take_drop|]. rewrite length_drop. cbn [span]. rewrite Esep. cbn [length]. lia. }
      destruct q as [|x q]; rewrite finish_ok by done; eexists; (split; [done|]); by constructor.
Qed.

(** Every word of a C string, for every set of separators and all flags. *)
Lemma extract_ok p : cstring p → ∃ r, extract_first_word separators flags (Some p) = Some r ∧
  ((r = (0, None, None) ∧ Forall (λ c, is_separator separators c = true) p ∧ EXTRACT_DONT_COALESCE_SEPARATORS flags = false) ∨ sane flags p r).
Proof.
  unfold extract_first_word. induction p as [|c p IH]; intros Hp; cbn [leading_loop].
  { destruct (EXTRACT_DONT_COALESCE_SEPARATORS flags); eexists; (split; [done|]); [right; apply sane_last; by apply Forall_nil|by left]. }
  destruct (is_separator separators c) eqn:E.
  - apply Forall_cons in Hp as [Hc Hp]. destruct (EXTRACT_DONT_COALESCE_SEPARATORS flags) eqn:Ed.
    + eexists. split; [done|]. right. constructor; [by apply Forall_nil|by exists [c]|cbn; lia].
    + destruct (IH Hp) as (r & -> & R). exists r. split; [done|]. destruct R as [(-> & HF & _)|R]; [left; split_and!; [done|by constructor|done]|right]. apply (sane_suffix _ _ p); [by exists [c]|done].
  - destruct (word_loop_ok (length (c :: p)) 0 false (c :: p) 1 []) as (r & -> & R); [lia|done|cbn; lia|by apply Forall_nil|]. exists r. split; [done|]. by right.
Qed.

End Safety.

(** ** Words that were quoted *)

(** A word in double quotes, with its special characters escaped. *)
Definition quoted (w : list Z) : list Z := 34 :: (w ≫= cescape_char) ++ [34].

Definition line (sep : list Z) (ws : list (list Z)) : list Z :=
  match ws with [] => [] | w :: ws => quoted w ++ (ws ≫= λ w, sep ++ quoted w) end.

Definition keeps_quote (e : list Z) : bool := match e with [x] => negb (x =? 34) | _ => true end.

Lemma cescape_char_quoted c : is_byte c → c ≠ 0 → unescapes_to (cescape_char c) c = true ∧ keeps_quote (cescape_char c) = true.
Proof.
  intros Hc H0. assert ((c =? 0) || unescapes_to (cescape_char c) c && keeps_quote (cescape_char c) = true) as E.
  { revert Hc. clear. by_bytes (λ c, (c =? 0) || unescapes_to (cescape_char c) c && keeps_quote (cescape_char c)). done. }
  rewrite (proj2 (Z.eqb_neq c 0) H0) in E. by apply andb_true_iff in E.
Qed.

Section Quoted.
Context (separators : list Z).

Lemma quoted_char fuel c rest cap s : 0 < c < 256 → (length (cescape_char c ++ rest) ≤ fuel)%nat → (length s < cap)%nat →
  ∃ fuel' cap', word_loop separators unquote_flags fuel 34 false (cescape_char c ++ rest) cap s = word_loop separators unquote_flags fuel' 34 false rest cap' (s ++ [c]) ∧
    (length rest ≤ fuel')%nat ∧ (length (s ++ [c]) < cap')%nat.
Proof.
  intros Hc Hf Hcap. destruct (cescape_char_quoted c) as [Hu Hk]; [unfold is_byte; lia|lia|]. destruct (cescape_char_spec c) as [H4 _]; [unfold is_byte; lia|]. unfold unescapes_to in Hu.
  destruct (cescape_char c) as [|x [|y e]]; [done|..]; (destruct fuel as [|fuel]; [cbn in Hf; lia|]).
  - apply andb_true_iff in Hu as [->%Z.eqb_eq Hx]. cbn in Hk. cbn [app word_loop]. change (negb (34 =? 0)) with true. apply negb_true_iff in Hk, Hx. rewrite Hk, Hx. cbn [andb].
    rewrite put_within by (cbn; lia). cbn [mbind option_bind]. eexists fuel, _. split; [done|]. cbn [app length] in Hf. rewrite length_app. cbn. lia.
  - apply andb_true_iff in Hu as [->%Z.eqb_eq Hu]. destruct (cunescape_one (y :: e) _) as [[|[[k u] b]]|] eqn:E; [done| |done]. apply andb_true_iff in Hu as [->%Z.eqb_eq Hb%bool_decide_eq_true].
    cbn [app length] in Hf. rewrite length_app in Hf. destruct fuel as [|fuel]; [lia|]. cbn [app word_loop]. change (negb (34 =? 0)) with true. change (92 =? 34) with false.
    change ((92 =? 92) && negb (EXTRACT_RETAIN_ESCAPE unquote_flags)) with true. change (EXTRACT_CUNESCAPE unquote_flags) with true. cbn iota.
    apply (cunescape_one_app _ (rest ++ [0])) with (l' := SIZE_MAX) in E.
    2:{ cbn [length] in *. unfold SIZE_MAX, UINT64_MAX. lia. }
    replace (y :: (e ++ rest) ++ [0]) with ((y :: e) ++ rest ++ [0]) by (cbn; by rewrite app_assoc). rewrite E. cbn [mbind option_bind]. fold (sequence_bytes u b). rewrite Hb.
    rewrite put_within by (cbn; lia). cbn [mbind option_bind]. rewrite (proj2 (Z.ltb_ge _ _)) by (cbn [length]; rewrite length_app; lia).
    rewrite Nat2Z.id. change (y :: e ++ rest) with ((y :: e) ++ rest). rewrite drop_app_length. eexists fuel, _. split; [done|]. rewrite length_app. cbn. lia.
Qed.

Lemma quoted_chars w : ∀ fuel rest cap s, cstring w → (length ((w ≫= cescape_char) ++ rest) ≤ fuel)%nat → (length s < cap)%nat →
  ∃ fuel' cap', word_loop separators unquote_flags fuel 34 false ((w ≫= cescape_char) ++ rest) cap s = word_loop separators unquote_flags fuel' 34 false rest cap' (s ++ w) ∧
    (length rest ≤ fuel')%nat ∧ (length (s ++ w) < cap')%nat.
Proof.
  induction w as [|c w IH]; intros fuel rest cap s Hw Hf Hcap; [exists fuel, cap; by rewrite app_nil_r|]. apply Forall_cons in Hw as [Hc Hw].
  rewrite bind_cons, <- app_assoc in *. destruct (quoted_char fuel c ((w ≫= cescape_char) ++ rest) cap s Hc Hf Hcap) as (f1 & c1 & -> & Hf1 & Hc1).
  destruct (IH f1 rest c1 (s ++ [c]) Hw Hf1 Hc1) as (f2 & c2 & -> & Hf2 & Hc2). exists f2, c2. rewrite <- app_assoc in *. done.
Qed.

Hypothesis separators_ok : Forall (λ c, c ∉ [34; 39; 92]) separators.

Lemma separator_no_quote c : is_separator separators c = true → (c =? 39) || (c =? 34) = false ∧ (c =? 92) = false.
Proof.
  unfold is_separator. rewrite bool_decide_eq_true. intros Hc. rewrite Forall_forall in separators_ok. specialize (separators_ok c Hc).
  rewrite !not_elem_of_cons in separators_ok. destruct separators_ok as (? & ? & ? & _). by rewrite (proj2 (Z.eqb_neq c 39)), (proj2 (Z.eqb_neq c 34)), (proj2 (Z.eqb_neq c 92)).
Qed.

Lemma quote_no_separator : is_separator separators 34 = false.
Proof. destruct (is_separator separators 34) eqn:E; [|done]. by destruct (separator_no_quote 34 E). Qed.

(** The first word of a line of quoted words. *)
Lemma first_quoted w rest : cstring w → (rest = [] ∨ ∃ sep q, rest = sep ++ 34 :: q ∧ sep ≠ [] ∧ Forall (λ c, is_separator separators c = true) sep) →
  extract_first_word separators unquote_flags (Some (quoted w ++ rest)) = Some (1, match rest with [] => None | _ => Some (drop (span (is_separator separators) rest) rest) end, Some w).
Proof.
  intros Hw Hrest. unfold extract_first_word, quoted. rewrite <- app_comm_cons, <- app_assoc. cbn [leading_loop]. rewrite quote_no_separator. cbn [length word_loop app]. cbn -[word_loop span app].
  destruct (quoted_chars w (length ((w ≫= cescape_char) ++ 34 :: rest)) (34 :: rest) 1 [] Hw) as (f & cap & -> & Hf & Hcap); [done|cbn; lia|]. cbn [app length] in *.
  destruct f as [|f]; [lia|]. cbn [word_loop]. cbn -[word_loop span]. destruct Hrest as [->|(sep & q & -> & Hne & Hsep)].
  { destruct f; cbn [word_loop]; unfold word_end; cbn -[finish]; by rewrite finish_ok. }
  destruct sep as [|c sep]; [done|]. apply Forall_cons in Hsep as [Hc Hsep]. destruct (separator_no_quote c Hc) as [H1 H2]. cbn [app length] in *. destruct f as [|f]; [lia|].
  cbn [word_loop]. cbn -[word_loop span finish]. rewrite H1, H2, Hc. cbn [andb]. set (d := drop _ _). assert (d ≠ []) as Hd.
  { subst d. change (c :: sep ++ 34 :: q) with ((c :: sep) ++ 34 :: q). rewrite span_app; [by rewrite drop_app_length|by constructor|apply quote_no_separator]. }
  destruct d; [done|]. by rewrite finish_ok.
Qed.

End Quoted.

Lemma line_cons sep w w' ws : line sep (w :: w' :: ws) = quoted w ++ sep ++ line sep (w' :: ws).
Proof. unfold line. by rewrite bind_cons, <- !app_assoc. Qed.

Lemma many_quoted separators sep ws : Forall (λ c, c ∉ [34; 39; 92]) separators → sep ≠ [] → Forall (.∈ separators) sep → Forall cstring ws → ws ≠ [] →
  many_words_loop separators unquote_flags (length ws) (Some (line sep ws)) = Some (Z.of_nat (length ws), None, map Some ws).
Proof.
  intros Hseps Hne Hsep Hws Hn. assert (Forall (λ c, is_separator separators c = true) sep) as Hs by (eapply Forall_impl; [done|]; intros c Hc; by apply bool_decide_eq_true).
  induction Hws as [|w ws Hw Hws IH]; [done|]. destruct ws as [|w' ws].
  - cbn [length many_words_loop line]. rewrite (first_quoted separators Hseps w _ Hw) by (by left). done.
  - rewrite line_cons. cbn [length many_words_loop] in *. assert (∃ q, line sep (w' :: ws) = 34 :: q) as [q Eq] by (unfold line, quoted; by eexists).
    rewrite (first_quoted separators Hseps w _ Hw) by (right; exists sep, q; by rewrite Eq). cbn [mbind option_bind].
    assert (drop (span (is_separator separators) (sep ++ line sep (w' :: ws))) (sep ++ line sep (w' :: ws)) = line sep (w' :: ws)) as Ed.
    { rewrite span_app; [apply drop_app_length|done|]. rewrite Eq. by apply quote_no_separator. }
    destruct (sep ++ line sep (w' :: ws)) as [|x l] eqn:El; [by destruct sep|]. rewrite Ed. change (1 <? 0) with false. change (1 =? 0) with false. cbn iota.
    rewrite (IH ltac:(done)). cbn [mbind option_bind]. rewrite (proj2 (Z.ltb_ge _ 0)) by lia. do 3 f_equal. lia.
Qed.

(** ** Theorems *)

(** C25. Words that are written in double quotes, with their special characters
    escaped by [cescape], and with separators between them, are read back by
    [extract_many_words], all of them and nothing else, for any separators but
    quotes and the backslash; words may be empty or contain any characters. *)
Theorem extract_words_roundtrip (separators sep : list Z) (ws : list (list Z)) (Hseps : Forall (λ c, c ∉ [34; 39; 92]) separators)
    (Hne : sep ≠ []) (Hsep : Forall (.∈ separators) sep) (Hws : Forall cstring ws) (Hn : ws ≠ []) :
  extract_many_words separators unquote_flags (length ws) (Some (line sep ws)) = Some (Z.of_nat (length ws), None, map Some ws).
Proof. by apply many_quoted. Qed.

Lemma extract_words_roundtrip_witness : extract_many_words WHITESPACE unquote_flags 3 (Some (line [32; 9] [bytes_of "a b"; []; [34; 92; 10; 200]])) =
  Some (3, None, map Some [bytes_of "a b"; []; [34; 92; 10; 200]]).
Proof. apply (extract_words_roundtrip WHITESPACE [32; 9] [bytes_of "a b"; []; [34; 92; 10; 200]]); [apply (bool_decide_unpack _); by vm_compute|done|apply (bool_decide_unpack _); by vm_compute..|done]. Defined.

(** On every C string, with any separators and flags, [extract_first_word] ends,
    reads nothing after the NUL and writes nothing outside its buffer; it finds no
    word exactly when there are only separators, else gives a word without NUL and a
    rest that is shorter, or fails with -EINVAL at a place in the string, which the
    relaxed flags never do; [extract_first_word_and_warn] then tries again with
    relaxed escapes. *)
Theorem extract_first_word_safe (separators : list Z) (flags : ExtractFlags) (p : list Z) (Hp : cstring p) :
  (∃ r, extract_first_word separators flags (Some p) = Some r ∧
    ((r = (0, None, None) ∧ Forall (λ c, is_separator separators c = true) p ∧ EXTRACT_DONT_COALESCE_SEPARATORS flags = false) ∨ sane flags p r)) ∧
  (∃ r, extract_first_word_and_warn (Some p) separators flags = Some r ∧
    (r.1.1 = - EINVAL → lenient flags = false ∧ lenient (with_cunescape_relax flags) = false)).
Proof.
  split; [by apply extract_ok|]. unfold extract_first_word_and_warn. destruct (extract_ok separators flags p Hp) as ([[r q] w] & -> & R). cbn [mbind option_bind].
  assert (r = - EINVAL → lenient flags = false) as HL by (intros ->; destruct R as [([=] & _)|R]; by inversion R).
  destruct (Z.eqb_spec r (- EINVAL)) as [->|Hr]; cbn [andb]; [|eexists; split; [done|]; by intros ?].
  destruct (EXTRACT_CUNESCAPE_RELAX flags) eqn:Er; cbn [negb].
  - eexists. split; [done|]. intros _. split; [by apply HL|]. rewrite <- (HL eq_refl). unfold lenient, with_cunescape_relax. cbn. by rewrite Er.
  - destruct (extract_ok separators (with_cunescape_relax flags) p Hp) as (r' & -> & R'). exists r'. split; [done|]. intros E. split; [by apply HL|]. destruct R' as [(-> & _)|R']; [done|]. by inversion R'; subst.
Qed.

Lemma extract_first_word_safe_witness : ∃ r, extract_first_word WHITESPACE unquote_flags (Some (bytes_of " 'a b")) = Some r ∧
  ((r = (0, None, None) ∧ Forall (λ c, is_separator WHITESPACE c = true) (bytes_of " 'a b") ∧ EXTRACT_DONT_COALESCE_SEPARATORS unquote_flags = false) ∨ sane unquote_flags (bytes_of " 'a b") r).
Proof. apply (extract_first_word_safe WHITESPACE unquote_flags (bytes_of " 'a b")). apply (bool_decide_unpack _). by vm_compute. Defined.
