(* ===== verification/TimeUtil.v ===== *)
(** * systemd: time spans

    Models, of [src/app/multi_process/day1/systemd/src/basic/time-util.c] and
    [time-util.h]: printing and parsing of time spans ([format_timespan], [parse_time],
    [parse_sec], [parse_nsec] and their variants), arithmetic on times that may be
    infinite, and conversions from and to [struct timespec] and [struct timeval].

    Times are 64-bit unsigned numbers. A string is the list of its characters without
    the NUL, and a pointer the rest of it, so that two pointers into the same string are
    equal when as much is left. *)

From Stdlib Require Import String.
From S2P Require Import Prelude Hexdecoct Utf8 Escape StringUtil PathUtil.

#[local] Open Scope Z_scope.

Definition USEC_INFINITY : Z := 2 ^ 64 - 1.
Definition NSEC_INFINITY : Z := 2 ^ 64 - 1.
Definition USEC_PER_SEC : Z := 1000000.
Definition USEC_PER_MSEC : Z := 1000.
Definition NSEC_PER_SEC : Z := 1000000000.
Definition NSEC_PER_MSEC : Z := 1000000.
Definition NSEC_PER_USEC : Z := 1000.
Definition USEC_PER_MINUTE : Z := 60 * USEC_PER_SEC.
Definition NSEC_PER_MINUTE : Z := 60 * NSEC_PER_SEC.
Definition USEC_PER_HOUR : Z := 60 * USEC_PER_MINUTE.
Definition NSEC_PER_HOUR : Z := 60 * NSEC_PER_MINUTE.
Definition USEC_PER_DAY : Z := 24 * USEC_PER_HOUR.
Definition NSEC_PER_DAY : Z := 24 * NSEC_PER_HOUR.
Definition USEC_PER_WEEK : Z := 7 * USEC_PER_DAY.
Definition NSEC_PER_WEEK : Z := 7 * NSEC_PER_DAY.
Definition USEC_PER_MONTH : Z := 2629800 * USEC_PER_SEC.
Definition NSEC_PER_MONTH : Z := 2629800 * NSEC_PER_SEC.
Definition USEC_PER_YEAR : Z := 31557600 * USEC_PER_SEC.
Definition NSEC_PER_YEAR : Z := 31557600 * NSEC_PER_SEC.
Definition FORMAT_TIMESPAN_MAX : nat := 64.
Definition TIME_T_MAX : Z := 2 ^ 63 - 1.

(** ** The C library *)

Definition is_dec (c : Z) : bool := (48 <=? c) && (c <=? 57).

(** [%lu]; 20 digits are enough for 64 bits. *)
Fixpoint dec_digits (fuel : nat) (n : Z) : list Z :=
  match fuel with
  | O => []
  | S fuel => if n <? 10 then [48 + n] else dec_digits fuel (n / 10) ++ [48 + n mod 10]
  end.
Definition dec (n : Z) : list Z := dec_digits 20 n.

(** [%0*lu] *)
Definition dec_padded (width : nat) (n : Z) : list Z := replicate (width - length (dec n)) 48 ++ dec n.

(** The digits at [p]: their value after [acc], and the rest. *)
Fixpoint digits_value (acc : Z) (p : list Z) : Z * list Z :=
  match p with c :: p' => if is_dec c then digits_value (acc * 10 + (c - 48)) p' else (acc, p) | [] => (acc, []) end.

(** [strtoll] in base 10: the number, whether it is out of range, and the end. *)
Definition strtoll (p : list Z) : Z * bool * list Z :=
  let q := drop (strspn p [32; 9; 10; 11; 12; 13]) p in
  let minus := char0 q =? 45 in
  let q := if minus || (char0 q =? 43) then drop 1 q else q in
  if negb (is_dec (char0 q)) then (0, false, p)
  else
    let '(v, e) := digits_value 0 q in
    let v := if minus then - v else v in
    if 2 ^ 63 <=? v then (2 ^ 63 - 1, true, e) else if v <? - 2 ^ 63 then (- 2 ^ 63, true, e) else (v, false, e).

(** ** Parsing *)

Definition time_whitespace : list Z := [32; 9; 10; 13].
Definition skip_white (p : list Z) : list Z := drop (strspn p time_whitespace) p.

Definition extract_table : list (list Z * Z) :=
  [(bytes_of "seconds", USEC_PER_SEC); (bytes_of "second", USEC_PER_SEC); (bytes_of "sec", USEC_PER_SEC); (bytes_of "s", USEC_PER_SEC);
   (bytes_of "minutes", USEC_PER_MINUTE); (bytes_of "minute", USEC_PER_MINUTE); (bytes_of "min", USEC_PER_MINUTE);
   (bytes_of "months", USEC_PER_MONTH); (bytes_of "month", USEC_PER_MONTH); (bytes_of "M", USEC_PER_MONTH);
   (bytes_of "msec", USEC_PER_MSEC); (bytes_of "ms", USEC_PER_MSEC); (bytes_of "m", USEC_PER_MINUTE);
   (bytes_of "hours", USEC_PER_HOUR); (bytes_of "hour", USEC_PER_HOUR); (bytes_of "hr", USEC_PER_HOUR); (bytes_of "h", USEC_PER_HOUR);
   (bytes_of "days", USEC_PER_DAY); (bytes_of "day", USEC_PER_DAY); (bytes_of "d", USEC_PER_DAY);
   (bytes_of "weeks", USEC_PER_WEEK); (bytes_of "week", USEC_PER_WEEK); (bytes_of "w", USEC_PER_WEEK);
   (bytes_of "years", USEC_PER_YEAR); (bytes_of "year", USEC_PER_YEAR); (bytes_of "y", USEC_PER_YEAR);
   (bytes_of "usec", 1); (bytes_of "us", 1); ([194; 181; 115], 1)].

Definition extract_nsec_table : list (list Z * Z) :=
  [(bytes_of "seconds", NSEC_PER_SEC); (bytes_of "second", NSEC_PER_SEC); (bytes_of "sec", NSEC_PER_SEC); (bytes_of "s", NSEC_PER_SEC);
   (bytes_of "minutes", NSEC_PER_MINUTE); (bytes_of "minute", NSEC_PER_MINUTE); (bytes_of "min", NSEC_PER_MINUTE);
   (bytes_of "months", NSEC_PER_MONTH); (bytes_of "month", NSEC_PER_MONTH); (bytes_of "M", NSEC_PER_MONTH);
   (bytes_of "msec", NSEC_PER_MSEC); (bytes_of "ms", NSEC_PER_MSEC); (bytes_of "m", NSEC_PER_MINUTE);
   (bytes_of "hours", NSEC_PER_HOUR); (bytes_of "hour", NSEC_PER_HOUR); (bytes_of "hr", NSEC_PER_HOUR); (bytes_of "h", NSEC_PER_HOUR);
   (bytes_of "days", NSEC_PER_DAY); (bytes_of "day", NSEC_PER_DAY); (bytes_of "d", NSEC_PER_DAY);
   (bytes_of "weeks", NSEC_PER_WEEK); (bytes_of "week", NSEC_PER_WEEK); (bytes_of "w", NSEC_PER_WEEK);
   (bytes_of "years", NSEC_PER_YEAR); (bytes_of "year", NSEC_PER_YEAR); (bytes_of "y", NSEC_PER_YEAR);
   (bytes_of "usec", NSEC_PER_USEC); (bytes_of "us", NSEC_PER_USEC); ([194; 181; 115], NSEC_PER_USEC);
   (bytes_of "nsec", 1); (bytes_of "ns", 1); ([], 1)].

(** The loops of [extract_multiplier] and [extract_nsec_multiplier]. *)
Fixpoint extract_loop (table : list (list Z * Z)) (p : list Z) (multiplier : Z) : list Z * Z :=
  match table with
  | [] => (p, multiplier)
  | (suffix, unit) :: table => match startswith p suffix with Some e => (e, unit) | None => extract_loop table p multiplier end
  end.

Definition extract_multiplier : list Z → Z → list Z * Z := extract_loop extract_table.
Definition extract_nsec_multiplier : list Z → Z → list Z * Z := extract_loop extract_nsec_table.

(** The digits after the dot; [None] is -ERANGE. *)
Fixpoint fraction_loop (b : list Z) (m r : Z) : option Z :=
  match b with
  | c :: b =>
      if is_dec c then
        let k := wrapu 64 ((c - 48) * m) in
        if USEC_INFINITY - r <=? k then None else fraction_loop b (m / 10) (r + k)
      else Some r
  | [] => Some r
  end.

Section Parse.
Context (extract : list Z → Z → list Z * Z) (default_unit : Z).

(** The loops of [parse_time] and [parse_nsec], which differ in the table of units and in the
    default: an error, or the sum. *)
Fixpoint parse_loop (fuel : nat) (p : list Z) (r : Z) (something : bool) : option (Z + Z) :=
  match fuel with
  | O => None
  | S fuel =>
      let p := skip_white p in
      if char0 p =? 0 then Some (if something then inr r else inl (- EINVAL))
      else if char0 p =? 45 then Some (inl (- ERANGE))
      else
        let '(l, err, e) := strtoll p in
        if err : bool then Some (inl (- ERANGE))
        else if l <? 0 then Some (inl (- ERANGE))
        else
          let dot := char0 e =? 46 in
          if negb dot && (length e =? length p)%nat then Some (inl (- EINVAL))
          else
            let p := if dot then drop (span is_dec (drop 1 e)) (drop 1 e) else e in
            let '(s, multiplier) := extract (skip_white p) default_unit in
            if (length s =? length p)%nat && negb (char0 s =? 0) then Some (inl (- EINVAL))
            else if USEC_INFINITY / multiplier <=? l then Some (inl (- ERANGE))
            else
              let k := wrapu 64 (l * multiplier) in
              if USEC_INFINITY - r <=? k then Some (inl (- ERANGE))
              else if dot then
                match fraction_loop (drop 1 e) (multiplier / 10) (r + k) with
                | None => Some (inl (- ERANGE))
                | Some r => if negb (is_dec (char0 (drop 1 e))) then Some (inl (- EINVAL)) else parse_loop fuel s r true
                end
              else parse_loop fuel s (r + k) true
  end.

Definition parse_units (t : list Z) : option (Z + Z) :=
  let p := skip_white t in
  match startswith p (bytes_of "infinity") with
  | Some s => Some (match skip_white s with [] => inr USEC_INFINITY | _ => inl (- EINVAL) end)
  | None => parse_loop (S (length p)) p 0 false
  end.

End Parse.

Definition parse_time (t : list Z) (default_unit : Z) : option (Z + Z) := parse_units extract_multiplier default_unit t.
Definition parse_sec (t : list Z) : option (Z + Z) := parse_time t USEC_PER_SEC.
Definition parse_sec_fix_0 (t : list Z) : option (Z + Z) :=
  r ← parse_sec t; Some (match r with inl e => inl e | inr k => inr (if k =? 0 then USEC_INFINITY else k) end).
Definition parse_sec_def_infinity (t : list Z) : option (Z + Z) :=
  let t := skip_white t in match t with [] => Some (inr USEC_INFINITY) | _ => parse_sec t end.
Definition parse_nsec (t : list Z) : option (Z + Z) := parse_units extract_nsec_multiplier 1 t.

(** ** Printing *)

Definition timespan_table : list (list Z * Z) :=
  [(bytes_of "y", USEC_PER_YEAR); (bytes_of "month", USEC_PER_MONTH); (bytes_of "w", USEC_PER_WEEK); (bytes_of "d", USEC_PER_DAY);
   (bytes_of "h", USEC_PER_HOUR); (bytes_of "min", USEC_PER_MINUTE); (bytes_of "s", USEC_PER_SEC); (bytes_of "ms", USEC_PER_MSEC); (bytes_of "us", 1)].

(** How often [for (cc = ...; cc > 1; cc /= 10)] goes round. *)
Fixpoint ten_steps (fuel : nat) (cc : Z) : nat :=
  match fuel with O => 0 | S fuel => if 1 <? cc then S (ten_steps fuel (cc / 10)) else 0 end.

(** [b /= 10], so many times. *)
Fixpoint tenths (n : nat) (b : Z) : Z := match n with O => b | S n => tenths n (b / 10) end.

(** The loop: [L] is the size of the buffer, [l] what is left of it, and [out] the text so
    far. The second result is what is left at the end. *)
Fixpoint format_loop (L : nat) (accuracy : Z) (table : list (list Z * Z)) (l : nat) (t : Z) (something : bool) (out : list Z) : list Z * nat :=
  match table with
  | [] => (out, l)
  | (suffix, usec) :: table =>
      if t <=? 0 then (out, l)
      else if (t <? accuracy) && something then (out, l)
      else if t <? usec then format_loop L accuracy table l t something out
      else if (l <=? 1)%nat then (out, l)
      else
        let a := t / usec in
        let b := t mod usec in
        let space := if (l <? L)%nat then [32] else [] in
        let '(x, t) :=
          if (t <? USEC_PER_MINUTE) && (0 <? b) then
            let j := Z.of_nat (ten_steps 64 usec) - Z.of_nat (ten_steps 64 accuracy) in
            let b := tenths (ten_steps 64 accuracy) b in
            if 0 <? j then (space ++ dec a ++ [46] ++ dec_padded (Z.to_nat j) b ++ suffix, 0)
            else (space ++ dec a ++ suffix, b)
          else (space ++ dec a ++ suffix, b) in
        let n := Nat.min (length x) l in
        format_loop L accuracy table (l - n) t true (out ++ take (l - 1) x)
  end.

(** The text in the buffer of [l] bytes; [None] when the final NUL is written behind it. *)
Definition format_timespan (l : nat) (t accuracy : Z) : option (list Z) :=
  if (l =? 0)%nat then None
  else if t =? USEC_INFINITY then Some (take (l - 1) (bytes_of "infinity"))
  else if t <=? 0 then Some (take (l - 1) (bytes_of "0"))
  else let '(out, rest) := format_loop l accuracy timespan_table l t false [] in if (rest =? 0)%nat then None else Some out.

(** ** Arithmetic *)

Definition usec_add (a b : Z) : Z :=
  let c := wrapu 64 (a + b) in if (c <? a) || (c <? b) then USEC_INFINITY else c.

Definition usec_sub_unsigned (timestamp delta : Z) : Z :=
  if timestamp =? USEC_INFINITY then USEC_INFINITY else if timestamp <? delta then 0 else timestamp - delta.

(** [delta] is a signed 64-bit number; [None] is the overflow of its negation. *)
Definition usec_sub_signed (timestamp delta : Z) : option Z :=
  if delta <? 0 then if delta =? - 2 ^ 63 then None else Some (usec_add timestamp (- delta))
  else Some (usec_sub_unsigned timestamp delta).

Definition timespec_load (tv_sec tv_nsec : Z) : Z :=
  if (tv_sec <? 0) || (tv_nsec <? 0) then USEC_INFINITY
  else if (USEC_INFINITY - tv_nsec / NSEC_PER_USEC) / USEC_PER_SEC <? tv_sec then USEC_INFINITY
  else wrapu 64 (tv_sec * USEC_PER_SEC + tv_nsec / NSEC_PER_USEC).

Definition timespec_load_nsec (tv_sec tv_nsec : Z) : Z :=
  if (tv_sec <? 0) || (tv_nsec <? 0) then NSEC_INFINITY
  else if (NSEC_INFINITY - tv_nsec) / NSEC_PER_SEC <=? tv_sec then NSEC_INFINITY
  else wrapu 64 (tv_sec * NSEC_PER_SEC + tv_nsec).

Definition timespec_store (u : Z) : Z * Z :=
  if (u =? USEC_INFINITY) || (TIME_T_MAX <=? u / USEC_PER_SEC) then (-1, -1)
  else (u / USEC_PER_SEC, u mod USEC_PER_SEC * NSEC_PER_USEC).

Definition timeval_load (tv_sec tv_usec : Z) : Z :=
  if (tv_sec <? 0) || (tv_usec <? 0) then USEC_INFINITY
  else if (USEC_INFINITY - tv_usec) / USEC_PER_SEC <? tv_sec then USEC_INFINITY
  else wrapu 64 (tv_sec * USEC_PER_SEC + tv_usec).

Definition timeval_store (u : Z) : Z * Z :=
  if (u =? USEC_INFINITY) || (TIME_T_MAX <? u / USEC_PER_SEC) then (-1, -1) else (u / USEC_PER_SEC, u mod USEC_PER_SEC).

(** ** Examples *)

Example parse_ex : map (λ s, parse_sec (bytes_of s)) ["5"; "1.5h 2s"; " infinity "; "1y 3"; "-0"; "12.34.56"; "3."; ""; "999999999y"]%string =
  [Some (inr 5000000); Some (inr (5400000000 + 2000000)); Some (inr USEC_INFINITY); Some (inr (USEC_PER_YEAR + 3000000));
   Some (inl (-34)); Some (inl (-22)); Some (inl (-22)); Some (inl (-22)); Some (inl (-34))].
Proof. by vm_compute. Qed.

Example format_ex : map (λ t, format_timespan 64 t 1) [90061000000; 1500; 59123456; USEC_INFINITY - 1] =
  map (λ s, Some (bytes_of s)) ["1d 1h 1min 1s"; "1.500ms"; "59.123456s"; "584542y 2w 2d 20h 1min 49.551614s"]%string.
Proof. by vm_compute. Qed.
