(* ===== verification/TimeUtilProps.v ===== *)
(** * Properties of time spans

    What [format_timespan] prints is read back by [parse_sec], up to the accuracy that was
    asked for, unless it is close to infinity; the buffer that callers use is large enough,
    and smaller ones are overrun by one byte. Parsing ends on every string. *)

From Stdlib Require Import String.
From S2P Require Import Prelude Hexdecoct HexdecoctProps Utf8 Utf8Props Escape StringUtil PathUtil TimeUtil.

#[local] Open Scope Z_scope.
#[local] Set Warnings "-clear-no-such-hyp".

(** ** Decimal numbers *)

(** The value of digits. *)
Fixpoint dval (ds : list Z) : Z := match ds with [] => 0 | d :: ds => (d - 48) * 10 ^ Z.of_nat (length ds) + dval ds end.

Definition digits (ds : list Z) : Prop := Forall (λ c, is_dec c = true) ds.

Definition no_digit (rest : list Z) : Prop := is_dec (char0 rest) = false.

Lemma dval_app ds ds' : dval (ds ++ ds') = dval ds * 10 ^ Z.of_nat (length ds') + dval ds'.
Proof.
  induction ds as [|d ds IH]; [cbn; lia|]. cbn [app dval]. rewrite IH, length_app, Nat2Z.inj_add, Z.pow_add_r by lia. lia.
Qed.

Lemma dec_digits_ok fuel n : (0 < fuel)%nat → 0 ≤ n < 10 ^ Z.of_nat fuel → digits (dec_digits fuel n) ∧ dval (dec_digits fuel n) = n ∧ dec_digits fuel n ≠ [].
Proof.
  revert n. induction fuel as [|fuel IH]; intros n Hf Hn; [lia|]. cbn [dec_digits]. destruct (Z.ltb_spec n 10).
  - split_and!; [apply Forall_singleton; unfold is_dec; lia|cbn; lia|done].
  - rewrite Nat2Z.inj_succ, Z.pow_succ_r in Hn by lia. assert (0 < fuel)%nat by (destruct fuel; [cbn in Hn; lia|lia]).
    destruct (IH (n / 10)) as (H1 & H2 & _); [done|split; [apply Z.div_pos; lia|apply Z.div_lt_upper_bound; lia]|]. pose proof (Z.mod_pos_bound n 10).
    split_and!; [apply Forall_app; split; [done|]; apply Forall_singleton; unfold is_dec; lia| |by destruct (dec_digits fuel (n / 10))].
    rewrite dval_app, H2. cbn. pose proof (Z.div_mod n 10). lia.
Qed.

Lemma dec_ok n : 0 ≤ n < 2 ^ 64 → digits (dec n) ∧ dval (dec n) = n ∧ dec n ≠ [].
Proof. intros Hn. apply dec_digits_ok; [lia|]. change (10 ^ Z.of_nat 20) with 100000000000000000000. lia. Qed.

Lemma dec_digits_length fuel n m : 0 ≤ n ≤ m → (length (dec_digits fuel n) ≤ length (dec_digits fuel m))%nat.
Proof.
  revert n m. induction fuel as [|fuel IH]; intros n m H; [done|]. cbn [dec_digits]. destruct (Z.ltb_spec n 10), (Z.ltb_spec m 10); rewrite ?length_app; cbn [length]; [lia|lia|lia|].
  pose proof (IH (n / 10) (m / 10)) as HI. specialize (HI ltac:(split; [apply Z.div_pos; lia|apply Z.div_le_mono; lia])). lia.
Qed.

(** A number of at most [j] digits, padded to [j]. *)
Lemma dec_digits_bound fuel j n : 0 ≤ n < 10 ^ Z.of_nat j → (0 < j)%nat → (length (dec_digits fuel n) ≤ j)%nat.
Proof.
  revert j n. induction fuel as [|fuel IH]; intros j n Hn Hj; [cbn; lia|]. cbn [dec_digits]. destruct (Z.ltb_spec n 10); [cbn; lia|].
  destruct j as [|[|j]]; [lia|cbn in Hn; lia|]. rewrite length_app. cbn [length]. specialize (IH (S j) (n / 10)).
  rewrite Nat2Z.inj_succ, Z.pow_succ_r in Hn by lia. specialize (IH ltac:(split; [apply Z.div_pos; lia|apply Z.div_lt_upper_bound; lia]) ltac:(lia)). lia.
Qed.

Lemma padded_ok j n : 0 ≤ n < 10 ^ Z.of_nat j → n < 2 ^ 64 → (0 < j)%nat → digits (dec_padded j n) ∧ dval (dec_padded j n) = n ∧ length (dec_padded j n) = j.
Proof.
  intros Hn H64 Hj. destruct (dec_ok n) as (H1 & H2 & _); [lia|]. pose proof (dec_digits_bound 20 j n Hn Hj) as Hl. fold (dec n) in Hl. unfold dec_padded. split_and!.
  - apply Forall_app. split; [by apply Forall_replicate|done].
  - rewrite dval_app, H2. assert (∀ k, dval (replicate k 48) = 0) as Hz by (induction k; cbn; lia). rewrite Hz. lia.
  - rewrite length_app, length_replicate. lia.
Qed.

(** *** Reading them *)

Lemma digits_value_app ds acc rest : digits ds → no_digit rest → digits_value acc (ds ++ rest) = (acc * 10 ^ Z.of_nat (length ds) + dval ds, rest).
Proof.
  intros Hd Hr. revert acc. induction Hd as [|d ds Hd _ IH]; intros acc.
  - cbn [app]. assert (digits_value acc rest = (acc, rest)) as -> by (destruct rest as [|c rest]; [done|]; unfold no_digit in Hr; cbn in Hr |- *; by rewrite Hr).
    cbn. f_equal. lia.
  - cbn [app digits_value]. rewrite Hd, IH. cbn [length dval]. rewrite Nat2Z.inj_succ, Z.pow_succ_r by lia. f_equal. lia.
Qed.

Lemma strtoll_dec n rest : 0 ≤ n < 2 ^ 63 → no_digit rest → strtoll (dec n ++ rest) = (n, false, rest).
Proof.
  intros Hn Hr. destruct (dec_ok n) as (Hd & Hv & Hne); [lia|]. unfold strtoll. destruct (dec n) as [|d ds] eqn:E; [done|]. rewrite <- E in Hv, Hd. pose proof Hd as Hd'. rewrite E in Hd'.
  apply Forall_cons in Hd' as [Hdd _]. assert (48 ≤ d ≤ 57) as Hrange by (unfold is_dec in Hdd; lia).
  assert (strspn ((d :: ds) ++ rest) [32; 9; 10; 11; 12; 13] = 0%nat) as ->.
  { cbn. rewrite bool_decide_eq_false_2; [done|]. rewrite !elem_of_cons. rewrite elem_of_nil. lia. }
  change (drop 0 ?l) with l. cbn [app char0]. rewrite (proj2 (Z.eqb_neq d 45)), (proj2 (Z.eqb_neq d 43)) by lia. cbn [orb char0]. rewrite Hdd. cbn [negb].
  change (d :: ds ++ rest) with ((d :: ds) ++ rest). rewrite <- E, digits_value_app, Hv by done. rewrite Z.mul_0_l, Z.add_0_l.
  rewrite (proj2 (Z.leb_gt _ _)), (proj2 (Z.ltb_ge _ _)) by lia. done.
Qed.

Lemma fraction_digits ds : ∀ n r rest, digits ds → no_digit rest → 0 ≤ r → r + dval ds * 10 ^ Z.of_nat n < USEC_INFINITY →
  fraction_loop (ds ++ rest) (10 ^ Z.of_nat (length ds + n) / 10) r = Some (r + dval ds * 10 ^ Z.of_nat n).
Proof.
  induction ds as [|d ds IH]; intros n r rest Hd Hr H0 Hlt; cbn [app fraction_loop].
  - destruct rest as [|c rest]; cbn; [f_equal; lia|]. unfold no_digit in Hr. cbn in Hr. rewrite Hr. f_equal. lia.
  - apply Forall_cons in Hd as [Hd Hds]. rewrite Hd. cbn [length dval] in *. rewrite Nat.add_succ_l, Nat2Z.inj_succ, Z.pow_succ_r by lia.
    rewrite (Z.mul_comm 10), Z.div_mul by lia. assert (48 ≤ d ≤ 57) by (unfold is_dec in Hd; lia). assert (∀ ds, digits ds → 0 ≤ dval ds) as Hpos.
    { clear. induction 1 as [|x l Hx _ IH]; cbn; [lia|]. unfold is_dec in Hx. pose proof (Z.pow_nonneg 10 (Z.of_nat (length l)) ltac:(lia)). nia. }
    specialize (Hpos ds Hds). pose proof (Z.pow_pos_nonneg 10 (Z.of_nat n) ltac:(lia) ltac:(lia)). pose proof (Z.pow_pos_nonneg 10 (Z.of_nat (length ds)) ltac:(lia) ltac:(lia)).
    assert (10 ^ Z.of_nat (length ds + n) = 10 ^ Z.of_nat (length ds) * 10 ^ Z.of_nat n) as HPQ by (rewrite Nat2Z.inj_add, Z.pow_add_r by lia; done).
    set (P := 10 ^ Z.of_nat (length ds)) in *. set (Q := 10 ^ Z.of_nat n) in *. unfold USEC_INFINITY in *.
    rewrite wrapu_small by (rewrite HPQ; nia). rewrite (proj2 (Z.leb_gt _ _)) by (rewrite HPQ; nia). rewrite IH; rewrite ?HPQ; [f_equal; nia|done|done|nia|fold Q; nia].
Qed.

(** ** The pieces of a time span *)

(** A number with an optional fraction of some digits, and its unit. *)
Record piece := mk_piece { p_a : Z; p_frac : option (nat * Z); p_suffix : list Z; p_usec : Z }.

Definition piece_text (p : piece) : list Z :=
  dec (p_a p) ++ (match p_frac p with None => [] | Some (j, b) => 46 :: dec_padded j b end) ++ p_suffix p.

Fixpoint text (lead : bool) (ps : list piece) : list Z :=
  match ps with [] => [] | p :: ps => (if lead then [32] else []) ++ piece_text p ++ text true ps end.

(** What is printed, without the buffer; the accuracy is [n] digits. *)
Fixpoint pieces (n : nat) (accuracy : Z) (table : list (list Z * Z)) (t : Z) (something : bool) : list piece :=
  match table with
  | [] => []
  | (suffix, usec) :: table =>
      if t <=? 0 then []
      else if (t <? accuracy) && something then []
      else if t <? usec then pieces n accuracy table t something
      else
        let a := t / usec in
        let b := t mod usec in
        if (t <? USEC_PER_MINUTE) && (0 <? b) then
          let j := Z.of_nat (ten_steps 64 usec) - Z.of_nat n in
          if 0 <? j then [mk_piece a (Some (Z.to_nat j, tenths n b)) suffix usec]
          else mk_piece a None suffix usec :: pieces n accuracy table (tenths n b) true
        else mk_piece a None suffix usec :: pieces n accuracy table b true
  end.

Lemma format_loop_zero L accuracy table l something out : format_loop L accuracy table l 0 something out = (out, l).
Proof. by destruct table as [|[]]. Qed.

Lemma dec_length n : (1 ≤ length (dec n))%nat.
Proof. unfold dec. cbn [dec_digits]. destruct (n <? 10); [cbn; lia|]. rewrite length_app. cbn. lia. Qed.

Lemma format_pieces L accuracy table : ∀ l t something out, (l ≤ L)%nat →
  let T := text (l <? L)%nat (pieces (ten_steps 64 accuracy) accuracy table t something) in
  (length T < l)%nat → format_loop L accuracy table l t something out = (out ++ T, l - length T)%nat.
Proof.
  induction table as [|[suffix usec] table IH]; intros l t something out HL T HT; subst T; cbn [format_loop pieces] in *; [by rewrite app_nil_r, Nat.sub_0_r|].
  destruct (t <=? 0); [by rewrite app_nil_r, Nat.sub_0_r|]. destruct (_ && something); [by rewrite app_nil_r, Nat.sub_0_r|]. destruct (t <? usec); [by apply IH|].
  assert (∀ p ps t', (length (text (l <? L)%nat (p :: ps)) < l)%nat → ps = pieces (ten_steps 64 accuracy) accuracy table t' true →
    let x := (if (l <? L)%nat then [32] else []) ++ piece_text p in
    (if (l <=? 1)%nat then (out, l) else format_loop L accuracy table (l - Nat.min (length x) l) t' true (out ++ take (l - 1) x)) =
    (out ++ text (l <? L)%nat (p :: ps), (l - length (text (l <? L)%nat (p :: ps)))%nat)) as HP.
  { intros p ps t' Hl -> x. cbn [text] in Hl |- *. rewrite !app_assoc in Hl |- *. fold x in Hl |- *. rewrite length_app in Hl.
    assert (1 ≤ length x)%nat as Hx by (subst x; unfold piece_text; rewrite !length_app; pose proof (dec_length (p_a p)); lia).
    rewrite (proj2 (Nat.leb_gt _ _)) by lia. rewrite Nat.min_l, take_ge by lia. assert ((l - length x <? L)%nat = true) as El by (apply Nat.ltb_lt; lia).
    rewrite IH; rewrite ?El; [|lia|lia].
    apply (f_equal2 pair); [subst x; by rewrite <- !app_assoc|subst x; rewrite !length_app; lia]. }
  destruct (_ && (0 <? t mod usec)).
  - destruct (0 <? _) eqn:Ej.
    + refine (HP _ [] 0 HT _). by destruct table as [|[]].
    + exact (HP _ _ (tenths (ten_steps 64 accuracy) (t mod usec)) HT eq_refl).
  - exact (HP _ _ (t mod usec) HT eq_refl).
Qed.

(** ** Reading a piece *)

(** What follows a piece. *)
Definition tail_ok (rest : list Z) : Prop := rest = [] ∨ ∃ r, rest = 32 :: r.

(** A unit whose suffix is found in the table for parsing, and which is a power of ten when it
    may have a fraction. *)
Record unit_ok (suffix : list Z) (usec : Z) : Prop := {
  unit_pos : 0 < usec ≤ USEC_PER_YEAR;
  unit_first : ∃ c s, suffix = c :: s ∧ (c ∉ time_whitespace) ∧ is_dec c = false ∧ c ≠ 46;
  unit_found : ∀ rest d, tail_ok rest → extract_multiplier (suffix ++ rest) d = (rest, usec);
  unit_ten : usec < USEC_PER_MINUTE → usec = 10 ^ Z.of_nat (ten_steps 64 usec) }.

(** The value of a piece; the digits of a fraction stand for [10 ^ n]. *)
Definition piece_value (n : nat) (p : piece) : Z :=
  p_a p * p_usec p + match p_frac p with None => 0 | Some (_, b) => b * 10 ^ Z.of_nat n end.

Record piece_ok (n : nat) (p : piece) : Prop := {
  piece_unit : unit_ok (p_suffix p) (p_usec p);
  piece_a : 0 ≤ p_a p < 2 ^ 63;
  piece_frac : match p_frac p with
    | None => True
    | Some (j, b) => (0 < j)%nat ∧ 0 ≤ b < 10 ^ Z.of_nat j ∧ b < 2 ^ 64 ∧ p_usec p = 10 ^ Z.of_nat (j + n)
    end }.

Lemma skip_white_id c s : c ∉ time_whitespace → skip_white (c :: s) = c :: s.
Proof. intros H. unfold skip_white, strspn. cbn [span]. by rewrite bool_decide_eq_false_2. Qed.

Lemma skip_white_lead (lead : bool) c s : c ∉ time_whitespace → skip_white ((if lead then [32] else []) ++ c :: s) = c :: s.
Proof.
  intros H. destruct lead; [|by apply skip_white_id]. unfold skip_white, strspn. cbn [app span]. rewrite bool_decide_eq_true_2 by (apply (bool_decide_unpack _); by vm_compute).
  by rewrite bool_decide_eq_false_2.
Qed.

Lemma digit_not_white c : is_dec c = true → (c ∉ time_whitespace) ∧ (c =? 0) = false ∧ (c =? 45) = false.
Proof. unfold is_dec. intros H. reflect_bools. unfold time_whitespace. rewrite !not_elem_of_cons. split_and!; try lia; [by apply not_elem_of_nil|apply Z.eqb_neq; lia..]. Qed.

Lemma tail_start suffix usec rest : unit_ok suffix usec → tail_ok rest → no_digit (suffix ++ rest) ∧ (char0 (suffix ++ rest) =? 46) = false ∧ skip_white (suffix ++ rest) = suffix ++ rest ∧ (0 < length suffix)%nat.
Proof.
  intros [_ (c & s & -> & Hw & Hd & H46) _ _] _. cbn [app char0]. split_and!; [done|by apply Z.eqb_neq|by apply skip_white_id|cbn; lia].
Qed.

Lemma span_digits ds rest : digits ds → no_digit rest → span is_dec (ds ++ rest) = length ds.
Proof. intros Hd Hr. apply span_app; [done|]. by destruct rest. Qed.

Lemma parse_piece n (lead : bool) p rest fuel r something d : piece_ok n p → tail_ok rest → 0 ≤ r → r + piece_value n p < USEC_INFINITY →
  parse_loop extract_multiplier d (S fuel) ((if lead then [32] else []) ++ piece_text p ++ rest) r something =
  if USEC_INFINITY / p_usec p <=? p_a p then Some (inl (- ERANGE)) else parse_loop extract_multiplier d fuel rest (r + piece_value n p) true.
Proof.
  intros [Hu Ha Hf] Ht Hr Hv. destruct (dec_ok (p_a p)) as (Hd & Hdv & Hne); [lia|]. destruct (tail_start _ _ _ Hu Ht) as (Hs1 & Hs2 & Hs3 & Hs4).
  pose proof (unit_pos _ _ Hu) as Hpos. pose proof (unit_found _ _ Hu rest d Ht) as Hfound.
  assert (0 ≤ match p_frac p with None => 0 | Some (_, b) => b * 10 ^ Z.of_nat n end) as Hfr.
  { destruct (p_frac p) as [[j b]|]; [|done]. destruct Hf as (_ & Hb & _). pose proof (Z.pow_nonneg 10 (Z.of_nat n)). nia. }
  destruct (dec (p_a p)) as [|c ds] eqn:Ed; [done|]. pose proof Hd as [Hc _]%Forall_cons. destruct (digit_not_white c Hc) as (Hw & H0 & H45).
  cbn [parse_loop]. unfold piece_text. rewrite Ed. cbn [app]. rewrite skip_white_lead by done. cbn [char0]. rewrite H0, H45. clear Hw H0 H45. rewrite <- !app_assoc.
  set (F := match p_frac p with None => [] | Some (j, b) => 46 :: dec_padded j b end).
  assert (no_digit (F ++ p_suffix p ++ rest)) as HnF by (subst F; destruct (p_frac p) as [[]|]; done).
  change (c :: ds ++ F ++ p_suffix p ++ rest) with ((c :: ds) ++ F ++ p_suffix p ++ rest). rewrite <- Ed, strtoll_dec by done. rewrite (proj2 (Z.ltb_ge _ 0)) by lia.
  pose proof (dec_length (p_a p)) as Hl1. unfold piece_value in *. unfold USEC_INFINITY in *. 
  assert (∀ k, k = p_a p * p_usec p → r + k + match p_frac p with None => 0 | Some (_, b) => b * 10 ^ Z.of_nat n end < 2 ^ 64 - 1 → wrapu 64 k = k) as Hw by (intros; apply wrapu_small; nia).
  subst F. destruct (p_frac p) as [[j b]|].
  - destruct Hf as (Hj & Hb & Hb64 & Hten). destruct (padded_ok j b Hb Hb64 Hj) as (Hp1 & Hp2 & Hp3). cbn [app char0]. change (46 =? 46) with true. cbn [negb andb].
    change (drop 1 (46 :: ?l)) with l. rewrite span_digits, drop_app_length, Hs3, Hfound by done. rewrite length_app.
    rewrite (proj2 (Nat.eqb_neq _ _)) by lia. cbn [andb]. destruct (_ <=? p_a p); [done|]. rewrite (Hw (p_a p * p_usec p)) by lia.
    rewrite (proj2 (Z.leb_gt _ _)) by nia. 
    pose proof (fraction_digits (dec_padded j b) n (r + p_a p * p_usec p) (p_suffix p ++ rest) Hp1 Hs1) as HF. rewrite Hp2, Hp3, <- Hten in HF. unfold USEC_INFINITY in HF. rewrite HF by nia.
    assert (is_dec (char0 (dec_padded j b ++ p_suffix p ++ rest)) = true) as ->.
    { destruct (dec_padded j b) as [|x l] eqn:Ep; [cbn in Hp3; lia|]. by apply Forall_cons in Hp1 as [? _]. }
    cbn [negb]. f_equal. lia.
  - cbn [app]. rewrite Hs2. cbn [negb andb]. rewrite !length_app, (proj2 (Nat.eqb_neq _ _)) by lia. rewrite Hs3, Hfound. rewrite ?length_app, (proj2 (Nat.eqb_neq _ _)) by lia. cbn [andb].
    destruct (_ <=? p_a p); [done|]. rewrite (Hw (p_a p * p_usec p)) by lia. rewrite (proj2 (Z.leb_gt _ _)) by nia. f_equal. lia.
Qed.

(** ** Reading all of them *)

Fixpoint total (n : nat) (ps : list piece) : Z := match ps with [] => 0 | p :: ps => piece_value n p + total n ps end.

Lemma piece_value_nonneg n p : piece_ok n p → 0 ≤ piece_value n p.
Proof.
  intros [[Hp _ _ _] Ha Hf]. unfold piece_value. pose proof (Z.pow_nonneg 10 (Z.of_nat n)). destruct (p_frac p) as [[j b]|]; [destruct Hf as (_ & Hb & _)|]; nia.
Qed.

Lemma total_nonneg n ps : Forall (piece_ok n) ps → 0 ≤ total n ps.
Proof. induction 1 as [|p ps Hp _ IH]; cbn; [done|]. pose proof (piece_value_nonneg n p Hp). lia. Qed.

Lemma text_tail ps : tail_ok (text true ps).
Proof. destruct ps; [by left|]. right. by eexists. Qed.

Lemma parse_pieces n d ps : ∀ lead fuel r something, Forall (piece_ok n) ps → Forall (λ p, p_a p < USEC_INFINITY / p_usec p) ps → 0 ≤ r → r + total n ps < USEC_INFINITY →
  (length ps < fuel)%nat → ps ≠ [] ∨ something = true → parse_loop extract_multiplier d fuel (text lead ps) r something = Some (inr (r + total n ps)).
Proof.
  induction ps as [|p ps IH]; intros lead fuel r something Hok Ha Hr Ht Hf Hs; (destruct fuel as [|fuel]; [cbn in Hf; lia|]).
  - destruct Hs as [?| ->]; [done|]. cbn. do 2 f_equal. lia.
  - apply Forall_cons in Hok as [Hp Hok], Ha as [Hpa Ha]. cbn [text total length] in *. pose proof (piece_value_nonneg n p Hp). pose proof (total_nonneg n ps Hok).
    rewrite (parse_piece n) by (try done; try lia; apply text_tail). rewrite (proj2 (Z.leb_gt _ _)) by done. rewrite IH; [do 2 f_equal; lia|done|done|lia|lia|lia|by right].
Qed.

(** ** What the pieces are *)

Lemma tenths_div n b : 0 ≤ b → tenths n b = b / 10 ^ Z.of_nat n.
Proof.
  revert b. induction n as [|n IH]; intros b Hb; cbn [tenths]; [by rewrite Z.div_1_r|]. rewrite IH by (apply Z.div_pos; lia).
  rewrite Nat2Z.inj_succ, Z.pow_succ_r, Z.div_div by lia. done.
Qed.

(** Units from large to small, the last of which is 1; [lim] is the unit before. *)
Fixpoint chain (lim : Z) (table : list (list Z * Z)) : Prop :=
  match table with
  | [] => lim = 1
  | (suffix, usec) :: table => unit_ok suffix usec ∧ lim ≤ usec * 2 ^ 62 ∧ (lim mod usec = 0 ∧ lim ≤ USEC_INFINITY ∨ lim + usec ≤ USEC_INFINITY) ∧ chain usec table
  end.

Lemma pieces_zero n accuracy table something : pieces n accuracy table 0 something = [].
Proof. by destruct table as [|[]]. Qed.

(** A number of units below the limit is accepted. *)
Lemma units_accepted lim usec t : 0 < usec → 0 ≤ t < lim → (lim mod usec = 0 ∧ lim ≤ USEC_INFINITY ∨ lim + usec ≤ USEC_INFINITY) → t / usec < USEC_INFINITY / usec.
Proof.
  intros Hu Ht Hl. apply Z.div_lt_upper_bound; [done|]. destruct Hl as [[Hm Hl]|Hl].
  - apply (Z.lt_le_trans _ lim); [lia|]. rewrite (Z.div_mod lim usec), Hm, Z.add_0_r by lia. apply Z.mul_le_mono_nonneg_l; [lia|]. apply Z.div_le_mono; lia.
  - pose proof (Z.mod_pos_bound USEC_INFINITY usec Hu). pose proof (Z.div_mod USEC_INFINITY usec ltac:(lia)). lia.
Qed.

(** A piece with a fraction: what it loses is below the accuracy. *)
Lemma dotted_piece n suffix usec t : unit_ok suffix usec → usec ≤ t < USEC_PER_MINUTE → 0 < Z.of_nat (ten_steps 64 usec) - Z.of_nat n → t / usec < 2 ^ 63 →
  let p := mk_piece (t / usec) (Some (Z.to_nat (Z.of_nat (ten_steps 64 usec) - Z.of_nat n), tenths n (t mod usec))) suffix usec in
  piece_ok n p ∧ piece_value n p ≤ t < piece_value n p + 10 ^ Z.of_nat n.
Proof.
  intros Hu Ht Hj Ha p. pose proof (unit_pos _ _ Hu) as Hpos. pose proof (unit_ten _ _ Hu ltac:(lia)) as Hten. set (k := ten_steps 64 usec) in *. set (j := Z.to_nat (Z.of_nat k - Z.of_nat n)) in *.
  assert (k = j + n)%nat as Ek by lia. pose proof (Z.mod_pos_bound t usec ltac:(lia)) as Hb. pose proof (Z.div_mod t usec ltac:(lia)). pose proof (Z.pow_pos_nonneg 10 (Z.of_nat n) ltac:(lia) ltac:(lia)) as Hn.
  pose proof (Z.div_mod (t mod usec) (10 ^ Z.of_nat n) ltac:(lia)). pose proof (Z.mod_pos_bound (t mod usec) (10 ^ Z.of_nat n) Hn).
  subst p. unfold piece_value. cbn [p_a p_frac p_usec]. rewrite tenths_div by lia. split; [|lia]. split; cbn [p_a p_frac p_suffix p_usec]; [done|split; [apply Z.div_pos; lia|done]|].
  assert (0 ≤ t mod usec / 10 ^ Z.of_nat n < 10 ^ Z.of_nat j) as Hb'.
  { split; [apply Z.div_pos; lia|]. apply Z.div_lt_upper_bound; [lia|]. rewrite <- Z.pow_add_r, <- Nat2Z.inj_add, (Nat.add_comm n), <- Ek by lia. lia. }
  split_and!; [lia|lia|lia| |congruence]. apply (Z.le_lt_trans _ (t mod usec)); [apply Z.div_le_upper_bound; nia|]. unfold USEC_PER_YEAR, USEC_PER_SEC in Hpos. lia.
Qed.

Lemma pieces_spec n accuracy table : accuracy = 10 ^ Z.of_nat n ∨ accuracy = 0 ∧ n = 0%nat → ∀ lim t something, chain lim table → 0 ≤ t < lim →
  let ps := pieces n accuracy table t something in
  Forall (piece_ok n) ps ∧ Forall (λ p, p_a p < USEC_INFINITY / p_usec p) ps ∧ total n ps ≤ t < total n ps + 10 ^ Z.of_nat n ∧ (0 < t → something = false → ps ≠ []).
Proof.
  intros Hacc. induction table as [|[suffix usec] table IH]; intros lim t something HC Ht ps; subst ps; cbn [pieces chain] in *; pose proof (Z.pow_pos_nonneg 10 (Z.of_nat n) ltac:(lia) ltac:(lia)) as Hn.
  { subst lim. split_and!; [constructor|constructor|cbn; lia..|lia]. }
  destruct HC as (Hu & H62 & Hlim & HC). pose proof (unit_pos _ _ Hu) as Hpos. destruct (Z.leb_spec t 0).
  { split_and!; [constructor|constructor|cbn; lia..|lia]. }
  destruct (_ && something) eqn:Es.
  { apply andb_true_iff in Es as [Es%Z.ltb_lt ->]. split_and!; [constructor|constructor|cbn; lia..|done]. }
  destruct (Z.ltb_spec t usec); [apply (IH usec); [done|lia]|].
  assert (t / usec < 2 ^ 63) as Ha by (apply Z.div_lt_upper_bound; nia). pose proof (units_accepted lim usec t ltac:(lia) Ht Hlim) as Hacc'. pose proof (Z.mod_pos_bound t usec ltac:(lia)) as Hb. pose proof (Z.div_mod t usec ltac:(lia)).
  assert (piece_ok n (mk_piece (t / usec) None suffix usec)) as Hp by (split; [done|split; [apply Z.div_pos; lia|done]|done]).
  assert (∀ b, b = t mod usec → let ps := mk_piece (t / usec) None suffix usec :: pieces n accuracy table b true in
    Forall (piece_ok n) ps ∧ Forall (λ p, p_a p < USEC_INFINITY / p_usec p) ps ∧ total n ps ≤ t < total n ps + 10 ^ Z.of_nat n ∧ (0 < t → something = false → ps ≠ [])) as HN.
  { intros b -> ps. subst ps. destruct (IH usec (t mod usec) true HC Hb) as (HQ1 & HQ2 & HQ3 & _). rewrite !Forall_cons. cbn [total]. unfold piece_value. cbn [p_a p_frac p_usec]. split_and!; [done..|lia|lia|done]. }
  destruct (_ && (0 <? t mod usec)) eqn:Ed; [|by apply HN]. apply andb_true_iff in Ed as [Ed%Z.ltb_lt Eb%Z.ltb_lt]. destruct (Z.ltb_spec 0 (Z.of_nat (ten_steps 64 usec) - Z.of_nat n)) as [Hj|Hj].
  - destruct (dotted_piece n suffix usec t Hu ltac:(lia) Hj Ha) as [HP1 HP2]. rewrite !Forall_singleton. cbn [total]. split_and!; [done|done|lia|lia|done].
  - pose proof (unit_ten _ _ Hu ltac:(lia)) as Hten. assert (usec ≤ 10 ^ Z.of_nat n) by (rewrite Hten; apply Z.pow_le_mono_r; lia).
    rewrite tenths_div, (Z.div_small (t mod usec)), pieces_zero by lia. rewrite !Forall_singleton. cbn [total]. unfold piece_value. cbn [p_a p_frac p_usec]. split_and!; [done|done|lia|lia|done].
Qed.

(** ** The size of the text *)

(** The most characters that units below a limit take. *)
Fixpoint size_bound (lim : Z) (table : list (list Z * Z)) : nat :=
  match table with
  | [] => 0
  | (suffix, usec) :: table =>
      1 + length (dec ((lim - 1) / usec)) + (if usec <? USEC_PER_MINUTE then S (ten_steps 64 usec) else 0) + length suffix + size_bound usec table
  end.

Lemma piece_length lead suffix usec t lim frac : 0 < usec → 0 ≤ t < lim →
  (length ((if lead : bool then [32%Z] else []) ++ piece_text (mk_piece (t / usec) frac suffix usec)) ≤
   1 + length (dec ((lim - 1) / usec)) + match frac with None => 0 | Some (j, b) => S (length (dec_padded j b)) end + length suffix)%nat.
Proof.
  intros Hu Ht. unfold piece_text. cbn [p_a p_frac p_suffix]. rewrite !length_app. pose proof (dec_digits_length 20 (t / usec) ((lim - 1) / usec)) as HL.
  specialize (HL ltac:(split; [apply Z.div_pos; lia|apply Z.div_le_mono; lia])). fold (dec (t / usec)) (dec ((lim - 1) / usec)) in HL. destruct lead, frac as [[]|]; cbn [length]; lia.
Qed.

Lemma span_text_length n accuracy table : Forall (λ u, unit_ok u.1 u.2) table → ∀ lim t something lead, 0 ≤ t < lim → (length (text lead (pieces n accuracy table t something)) ≤ size_bound lim table)%nat.
Proof.
  induction 1 as [|[suffix usec] table Hu _ IH]; intros lim t something lead Ht; cbn [pieces size_bound]; [done|]. cbn [fst snd] in Hu. pose proof (unit_pos _ _ Hu) as Hpos.
  destruct (t <=? 0); [cbn; lia|]. destruct (_ && something); [cbn; lia|]. destruct (Z.ltb_spec t usec); [specialize (IH usec t something lead ltac:(lia)); lia|].
  pose proof (Z.mod_pos_bound t usec ltac:(lia)) as Hb. assert (∀ b, 0 ≤ b < usec → (length (text lead (mk_piece (t / usec) None suffix usec :: pieces n accuracy table b true)) ≤
    1 + length (dec ((lim - 1) / usec)) + (if (usec <? USEC_PER_MINUTE)%Z then S (ten_steps 64 usec) else 0) + length suffix + size_bound usec table)%nat) as HN.
  { intros b Hb'. cbn [text]. rewrite app_assoc, length_app. pose proof (piece_length lead suffix usec t lim None ltac:(lia) Ht) as HPL. cbn beta iota in HPL. specialize (IH usec b true true Hb'). lia. }
  destruct (_ && (0 <? t mod usec)) eqn:Ed; [|by apply HN]. apply andb_true_iff in Ed as [Ed%Z.ltb_lt _]. destruct (Z.ltb_spec 0 (Z.of_nat (ten_steps 64 usec) - Z.of_nat n)) as [Hj|Hj].
  - cbn [text]. rewrite app_nil_r. pose proof (piece_length lead suffix usec t lim (Some (Z.to_nat (Z.of_nat (ten_steps 64 usec) - Z.of_nat n), tenths n (t mod usec))) ltac:(lia) Ht) as HP. cbn beta iota in HP.
    destruct (dotted_piece n suffix usec t Hu ltac:(lia) Hj) as [[_ _ Hf] _]; [apply Z.div_lt_upper_bound; unfold USEC_PER_MINUTE, USEC_PER_SEC in Ed; lia|]. cbn [p_frac] in Hf.
    destruct Hf as (Hj' & Hb1 & Hb2 & _). destruct (padded_ok _ _ Hb1 Hb2 Hj') as (_ & _ & Hpl). rewrite Hpl in HP. rewrite (proj2 (Z.ltb_lt usec _)) by lia. lia.
  - apply HN. rewrite tenths_div by lia. split; [apply Z.div_pos; [lia|]; apply Z.pow_pos_nonneg; lia|]. apply (Z.le_lt_trans _ (t mod usec)); [|lia].
    apply Z.div_le_upper_bound; [apply Z.pow_pos_nonneg; lia|]. pose proof (Z.pow_pos_nonneg 10 (Z.of_nat n) ltac:(lia) ltac:(lia)). nia.
Qed.

(** ** The table *)

Ltac prove_unit := split; [by vm_compute|
  eexists _, _; split; [reflexivity|]; split; [apply (bool_decide_unpack _); by vm_compute|by vm_compute]|
  intros ? ? [->|[? ->]]; reflexivity|
  intros H; first [reflexivity|by vm_compute in H]].

Lemma table_units : Forall (λ u, unit_ok u.1 u.2) timespan_table.
Proof. repeat (apply Forall_cons; split; [cbn [fst snd]; prove_unit|]). by apply Forall_nil. Qed.

(** The first time that cannot be read back. *)
Definition parse_limit : Z := 584542 * USEC_PER_YEAR.

Lemma table_chain : chain parse_limit timespan_table.
Proof.
  pose proof table_units as H. unfold timespan_table in *. cbn [chain]. rewrite !Forall_cons in H. cbn [fst snd] in H. destruct H as (? & ? & ? & ? & ? & ? & ? & ? & ? & _).
  split_and!; try done; try (by vm_compute); first [left; by vm_compute|right; by vm_compute].
Qed.

Lemma ten_steps_pow fuel n : (n < fuel)%nat → ten_steps fuel (10 ^ Z.of_nat n) = n.
Proof.
  revert n. induction fuel as [|fuel IH]; intros n Hn; [lia|]. destruct n as [|n]; [done|]. cbn [ten_steps]. rewrite Nat2Z.inj_succ, Z.pow_succ_r by lia.
  pose proof (Z.pow_pos_nonneg 10 (Z.of_nat n) ltac:(lia) ltac:(lia)). rewrite (proj2 (Z.ltb_lt _ _)) by lia. by rewrite (Z.mul_comm 10), Z.div_mul, IH by lia.
Qed.

(** ** Parsing is total *)

Lemma digits_value_shorter p : ∀ acc v e, 0 ≤ acc → digits_value acc p = (v, e) → (length e ≤ length p)%nat ∧ 0 ≤ v ∧ (is_dec (char0 p) = true → length e < length p)%nat.
Proof.
  induction p as [|c p IH]; intros acc v e Ha; cbn [digits_value]; [by intros [= <- <-]|]. destruct (is_dec c) eqn:Ec.
  - assert (48 ≤ c) by (unfold is_dec in Ec; lia). intros E. destruct (IH (acc * 10 + (c - 48)) v e ltac:(lia) E) as (H1 & H2 & _). cbn [length]. split_and!; [lia|lia|intros _; lia].
  - intros [= <- <-]. split_and!; [lia|lia|]. cbn. by rewrite Ec.
Qed.

Lemma strtoll_end p v err e : strtoll p = (v, err, e) → (length e ≤ length p)%nat.
Proof.
  unfold strtoll. set (q := drop (strspn p _) p). set (q' := if (char0 q =? 45) || (char0 q =? 43) then drop 1 q else q). destruct (negb _) eqn:En; [by intros [= _ _ <-]|].
  destruct (digits_value 0 q') as [w f] eqn:E. pose proof (digits_value_shorter _ _ _ _ (Z.le_refl 0) E) as (Hl & _).
  assert (length q' ≤ length p)%nat as Hq by (subst q' q; destruct (_ || _); rewrite ?length_drop; lia). destruct (2 ^ 63 <=? _); [intros [= _ _ <-]; lia|]. destruct (_ <? - 2 ^ 63); intros [= _ _ <-]; lia.
Qed.

Lemma fraction_bounds b : ∀ m r r', 0 ≤ r < USEC_INFINITY → fraction_loop b m r = Some r' → 0 ≤ r' < USEC_INFINITY.
Proof.
  induction b as [|c b IH]; intros m r r' Hr; cbn [fraction_loop]; [by intros [= <-]|]. destruct (is_dec c); [|by intros [= <-]].
  destruct (Z.leb_spec (USEC_INFINITY - r) (wrapu 64 ((c - 48) * m))); [done|]. apply IH. pose proof (wrapu_range 64 ((c - 48) * m) ltac:(lia)). lia.
Qed.

(** A function that finds units leaves a rest. *)
Definition extract_good (extract : list Z → Z → list Z * Z) : Prop := ∀ p d s m, 0 < d → extract p d = (s, m) → (length s ≤ length p)%nat ∧ 0 < m.

Lemma extract_loop_good table : Forall (λ u, 0 < u.2) table → extract_good (extract_loop table).
Proof.
  intros H p d s m Hd. induction H as [|[suffix unit] table Hu _ IH]; cbn [extract_loop]; [by intros [= <- <-]|].
  destruct (startswith p suffix) as [e|] eqn:E; [|done]. intros [= <- <-]. apply startswith_Some in E as ->. rewrite length_app. split; [lia|done].
Qed.

Definition parsed_ok (r : Z + Z) : Prop := match r with inl e => e = - EINVAL ∨ e = - ERANGE | inr v => 0 ≤ v < USEC_INFINITY end.

Lemma parse_loop_total extract d : extract_good extract → 0 < d → ∀ fuel p r something, (length p < fuel)%nat → 0 ≤ r < USEC_INFINITY →
  ∃ res, parse_loop extract d fuel p r something = Some res ∧ parsed_ok res.
Proof.
  intros HX Hd. induction fuel as [|fuel IH]; intros p r something Hf Hr; [lia|]. cbn [parse_loop].
  assert (length (skip_white p) ≤ length p)%nat as Hsk by (unfold skip_white; rewrite length_drop; lia). set (q := skip_white p) in *. clearbody q.
  assert (∀ e, e = - EINVAL ∨ e = - ERANGE → ∃ res, Some (inl e) = Some res ∧ parsed_ok res) as HE by (intros e He; by eexists).
  destruct (char0 q =? 0); [destruct something; [by eexists|by apply HE; left]|]. destruct (char0 q =? 45); [by apply HE; right|].
  destruct (strtoll q) as [[v err] e] eqn:Es. pose proof (strtoll_end _ _ _ _ Es) as Hle. destruct err; [by apply HE; right|]. destruct (Z.ltb_spec v 0); [by apply HE; right|].
  destruct (negb (char0 e =? 46) && (length e =? length q)%nat) eqn:Ee; [by apply HE; left|]. set (p2 := if char0 e =? 46 then _ else e). assert (length p2 < length q)%nat as Hp2.
  { subst p2. destruct (char0 e =? 46) eqn:E46; cbn [negb andb] in Ee; [|apply Nat.eqb_neq in Ee; lia]. destruct e as [|c e]; [done|]. rewrite !length_drop. cbn [length] in *. lia. }
  clearbody p2. destruct (extract (skip_white p2) d) as [s m] eqn:Ex. destruct (HX _ _ _ _ Hd Ex) as [Hs Hm]. assert (length s < fuel)%nat as Hsf.
  { unfold skip_white in Hs. rewrite length_drop in Hs. lia. }
  destruct ((length s =? length p2)%nat && negb (char0 s =? 0)); [by apply HE; left|]. destruct (_ <=? v); [by apply HE; right|]. destruct (Z.leb_spec (USEC_INFINITY - r) (wrapu 64 (v * m))); [by apply HE; right|].
  pose proof (wrapu_range 64 (v * m) ltac:(lia)). destruct (char0 e =? 46); [|apply IH; lia].
  destruct (fraction_loop _ _ _) as [r'|] eqn:Ef; [|by apply HE; right]. destruct (negb (is_dec _)); [by apply HE; left|]. apply IH; [done|]. apply (fraction_bounds _ _ _ _) in Ef; [done|lia].
Qed.

(** Parsing gives a finite time, infinity for exactly that word, or one of two errors. *)
Lemma parse_units_total extract d t : extract_good extract → 0 < d → ∃ res, parse_units extract d t = Some res ∧
  match res with inl e => e = - EINVAL ∨ e = - ERANGE | inr v => 0 ≤ v ≤ USEC_INFINITY ∧ (v = USEC_INFINITY → ∃ s, skip_white t = bytes_of "infinity" ++ s ∧ skip_white s = []) end.
Proof.
  intros HX Hd. unfold parse_units. destruct (startswith _ _) as [s|] eqn:Es.
  - apply startswith_Some in Es. eexists. split; [done|]. destruct (skip_white s) eqn:E; [|by left]. split; [done|]. intros _. by exists s.
  - destruct (parse_loop_total extract d HX Hd (S (length (skip_white t))) (skip_white t) 0 false) as (res & -> & H); [lia|done|]. exists res. split; [done|]. destruct res as [e|v]; [done|]. cbn in H. lia.
Qed.

Lemma parse_time_total t d : 0 < d → ∃ res, parse_time t d = Some res ∧
  match res with inl e => e = - EINVAL ∨ e = - ERANGE | inr v => 0 ≤ v ≤ USEC_INFINITY ∧ (v = USEC_INFINITY → ∃ s, skip_white t = bytes_of "infinity" ++ s ∧ skip_white s = []) end.
Proof. intros Hd. apply parse_units_total; [|done]. apply extract_loop_good. by repeat constructor. Qed.

Lemma parse_nsec_total t : ∃ res, parse_nsec t = Some res ∧
  match res with inl e => e = - EINVAL ∨ e = - ERANGE | inr v => 0 ≤ v ≤ USEC_INFINITY ∧ (v = USEC_INFINITY → ∃ s, skip_white t = bytes_of "infinity" ++ s ∧ skip_white s = []) end.
Proof. apply parse_units_total; [|done]. apply extract_loop_good. by repeat constructor. Qed.

(** ** Reading what was printed *)

Lemma pieces_count ps lead : (length ps ≤ length (text lead ps))%nat.
Proof.
  revert lead. induction ps as [|p ps IH]; intros lead; cbn [text length]; [lia|]. unfold piece_text. rewrite !length_app. specialize (IH true). pose proof (dec_length (p_a p)). lia.
Qed.

(** The start of a text is a digit. *)
Lemma parse_text n ps : Forall (piece_ok n) ps → ps ≠ [] → parse_sec (text false ps) = parse_loop extract_multiplier USEC_PER_SEC (S (length (text false ps))) (text false ps) 0 false.
Proof.
  intros Hok Hne. destruct ps as [|p ps]; [done|]. apply Forall_cons in Hok as [[_ Ha _] _]. destruct (dec_ok (p_a p)) as (Hd & _ & Hdn); [lia|].
  assert (∃ c s, text false (p :: ps) = c :: s ∧ is_dec c = true) as (c & s & E & Hc).
  { cbn [text app]. unfold piece_text. destruct (dec (p_a p)) as [|c ds]; [done|]. apply Forall_cons in Hd as [Hc _]. by eexists _, _. }
  unfold parse_sec, parse_time, parse_units. rewrite E. destruct (digit_not_white c Hc) as [Hw _]. rewrite skip_white_id by done.
  assert (startswith (c :: s) (bytes_of "infinity") = None) as ->; [|done]. change (bytes_of "infinity") with (105 :: bytes_of "nfinity"). cbn [startswith].
  rewrite (proj2 (Z.eqb_neq c 105)); [done|]. unfold is_dec in Hc. lia.
Qed.

Lemma printed_text l t accuracy n : (FORMAT_TIMESPAN_MAX ≤ l)%nat → 0 < t < USEC_INFINITY → ten_steps 64 accuracy = n →
  format_timespan l t accuracy = Some (text false (pieces n accuracy timespan_table t false)) ∧ (length (text false (pieces n accuracy timespan_table t false)) < FORMAT_TIMESPAN_MAX)%nat.
Proof.
  intros Hl Ht Hn. pose proof (span_text_length n accuracy timespan_table table_units USEC_INFINITY t false false ltac:(lia)) as HT. assert (size_bound USEC_INFINITY timespan_table = 60%nat) as Hb by (by vm_compute).
  rewrite Hb in HT. unfold FORMAT_TIMESPAN_MAX in *. split; [|lia]. unfold format_timespan. rewrite (proj2 (Nat.eqb_neq l 0)), (proj2 (Z.eqb_neq t USEC_INFINITY)), (proj2 (Z.leb_gt t 0)) by lia.
  pose proof (format_pieces l accuracy timespan_table l t false [] (Nat.le_refl l)) as HF. cbn zeta in HF. rewrite Nat.ltb_irrefl, Hn in HF. rewrite HF by lia. by rewrite (proj2 (Nat.eqb_neq _ 0)) by lia.
Qed.

Lemma ten_steps_accuracy accuracy n : accuracy = 10 ^ Z.of_nat n ∨ accuracy = 0 ∧ n = 0%nat → (n ≤ 19)%nat → ten_steps 64 accuracy = n.
Proof. intros [->|[-> ->]] Hn; [apply ten_steps_pow; lia|done]. Qed.

Lemma pieces_whole n accuracy suffix usec table t : 0 < t → usec ≤ t → USEC_PER_MINUTE ≤ t →
  pieces n accuracy ((suffix, usec) :: table) t false = mk_piece (t / usec) None suffix usec :: pieces n accuracy table (t mod usec) true.
Proof. intros H0 Hu Hm. cbn [pieces]. by rewrite (proj2 (Z.leb_gt t 0)), andb_false_r, (proj2 (Z.ltb_ge t usec)), (proj2 (Z.ltb_ge t USEC_PER_MINUTE)) by lia. Qed.

(** Above the limit there are too many years. *)
Lemma parse_above t accuracy n : parse_limit ≤ t < USEC_INFINITY → parse_sec (text false (pieces n accuracy timespan_table t false)) = Some (inl (- ERANGE)).
Proof.
  intros Ht. unfold parse_limit in Ht. assert (t / USEC_PER_YEAR = 584542) as Ha.
  { apply Z.le_antisymm; [apply Z.lt_succ_r, Z.div_lt_upper_bound|apply Z.div_le_lower_bound]; unfold USEC_INFINITY, USEC_PER_YEAR, USEC_PER_SEC in *; lia. }
  pose proof table_units as HU. unfold timespan_table in *. apply Forall_cons in HU as [Hu _]. cbn [fst snd] in Hu. unfold USEC_PER_YEAR, USEC_PER_SEC in Ht.
  rewrite pieces_whole by (unfold USEC_PER_YEAR, USEC_PER_MINUTE, USEC_PER_SEC; lia).
  rewrite Ha. set (ps := pieces n accuracy _ _ true). clearbody ps. set (p := mk_piece 584542 None (bytes_of "y") USEC_PER_YEAR). assert (piece_ok 0 p) as Hp by (split; [done|done|done]).
  unfold parse_sec, parse_time, parse_units. change (text false (p :: ps)) with (piece_text p ++ text true ps). set (T := piece_text p ++ text true ps).
  assert (∃ s, T = 53 :: s) as [s Es] by (by eexists). rewrite Es. rewrite skip_white_id by (apply (bool_decide_unpack _); by vm_compute). cbn [startswith].
  change (startswith (53 :: s) (bytes_of "infinity")) with (@None (list Z)). rewrite <- Es. pose proof (parse_piece 0 false p (text true ps) (length T) 0 false USEC_PER_SEC Hp (text_tail ps) (Z.le_refl 0)) as HP.
  cbn [app] in HP. fold T in HP. rewrite HP; [done|]. by vm_compute.
Qed.

(** C24. A time span that [format_timespan] prints into a buffer of the usual size fits, and
    [parse_sec] reads it back: exactly, or up to the accuracy of 10^n microseconds that was
    asked for, rounded down; infinity is read back as infinity. Only times of 584542 years and
    more, which are too close to infinity, are refused with -ERANGE, although a comment says
    that the result can be parsed. *)
Theorem timespan_roundtrip (l : nat) (t accuracy : Z) (n : nat) (Hl : (FORMAT_TIMESPAN_MAX ≤ l)%nat) (Ht : 0 ≤ t ≤ USEC_INFINITY)
    (Hacc : accuracy = 10 ^ Z.of_nat n ∨ accuracy = 0 ∧ n = 0%nat) (Hn : (n ≤ 19)%nat) :
  ∃ s, format_timespan l t accuracy = Some s ∧ (length s < FORMAT_TIMESPAN_MAX)%nat ∧
    if t =? USEC_INFINITY then parse_sec s = Some (inr USEC_INFINITY)
    else if t <? parse_limit then ∃ r, parse_sec s = Some (inr r) ∧ r ≤ t < r + 10 ^ Z.of_nat n
    else parse_sec s = Some (inl (- ERANGE)).
Proof.
  destruct (Z.eqb_spec t USEC_INFINITY) as [->|Hi].
  { unfold FORMAT_TIMESPAN_MAX in *. exists (bytes_of "infinity"). unfold format_timespan. rewrite (proj2 (Nat.eqb_neq l 0)), Z.eqb_refl, take_ge by (cbn; lia).
    split_and!; [done|cbn; lia|by vm_compute]. }
  destruct (decide (t = 0)) as [->|H0].
  { unfold FORMAT_TIMESPAN_MAX in *. exists (bytes_of "0"). unfold format_timespan. change (0 =? USEC_INFINITY) with false. change (0 <=? 0) with true. cbn iota. rewrite (proj2 (Nat.eqb_neq l 0)), take_ge by (cbn; lia). split_and!; [done|cbn; lia|]. change (0 <? parse_limit) with true. cbn iota.
    exists 0. split; [by vm_compute|]. pose proof (Z.pow_pos_nonneg 10 (Z.of_nat n) ltac:(lia) ltac:(lia)). lia. }
  destruct (printed_text l t accuracy n Hl ltac:(lia) (ten_steps_accuracy _ _ Hacc Hn)) as [HF HL]. eexists. split; [done|]. split; [done|].
  destruct (Z.ltb_spec t parse_limit) as [Hp|Hp]; [|apply parse_above; lia].
  destruct (pieces_spec n accuracy timespan_table Hacc parse_limit t false table_chain ltac:(lia)) as (H1 & H2 & H3 & H4). specialize (H4 ltac:(lia) eq_refl).
  rewrite (parse_text n) by done. exists (0 + total n (pieces n accuracy timespan_table t false)). pose proof (pieces_count (pieces n accuracy timespan_table t false) false).
  rewrite (parse_pieces n); [split; [done|lia]|done|done|lia| |lia|by left]. unfold parse_limit, USEC_INFINITY, USEC_PER_YEAR, USEC_PER_SEC in *. lia.
Qed.

Lemma timespan_roundtrip_witness : ∃ s, format_timespan 64 59123456 1000 = Some s ∧ (length s < FORMAT_TIMESPAN_MAX)%nat ∧
  ∃ r, parse_sec s = Some (inr r) ∧ r ≤ 59123456 < r + 10 ^ Z.of_nat 3.
Proof. apply (timespan_roundtrip 64 59123456 1000 3); [apply Nat.le_refl|by vm_compute|by left|lia]. Defined.

(** In a buffer that is too small for a piece the final NUL is written behind its end. *)
Example timespan_overrun : format_timespan 4 120000000 0 = None ∧ format_timespan 5 120000000 0 = Some (bytes_of "2min").
Proof. by vm_compute. Qed.

(** ** Arithmetic *)

(** Sums stop at infinity, and infinity stays. *)
Theorem usec_add_saturates (a b : Z) : 0 ≤ a ≤ USEC_INFINITY → 0 ≤ b ≤ USEC_INFINITY → usec_add a b = Z.min (a + b) USEC_INFINITY.
Proof.
  unfold usec_add, USEC_INFINITY. intros Ha Hb. destruct (decide (a + b < 2 ^ 64)).
  - rewrite wrapu_small by lia. rewrite !(proj2 (Z.ltb_ge _ _)) by lia. cbn [orb]. lia.
  - assert (wrapu 64 (a + b) = a + b - 2 ^ 64) as ->; [|rewrite (proj2 (Z.ltb_lt _ _)) by lia; cbn [orb]; lia].
    unfold wrapu. symmetry. apply (Z.mod_unique _ _ 1); lia.
Qed.

(** A time that is stored in a structure is loaded again, for every time. *)
Theorem time_store_load (u : Z) : 0 ≤ u ≤ USEC_INFINITY →
  timespec_load (timespec_store u).1 (timespec_store u).2 = u ∧ timeval_load (timeval_store u).1 (timeval_store u).2 = u.
Proof.
  intros Hu. pose proof (Z.mod_pos_bound u 1000000 ltac:(lia)) as Hm. pose proof (Z.div_mod u 1000000 ltac:(lia)) as Hd. assert (0 ≤ u / 1000000) by (apply Z.div_pos; lia).
  unfold timespec_load, timespec_store, timeval_load, timeval_store, USEC_PER_SEC, NSEC_PER_USEC, TIME_T_MAX, USEC_INFINITY in *.
  destruct (Z.eqb_spec u (2 ^ 64 - 1)) as [->|Hi]; [by vm_compute|]. cbn [orb]. rewrite (proj2 (Z.leb_gt _ _)), (proj2 (Z.ltb_ge (2 ^ 63 - 1) _)) by lia. cbn [fst snd].
  rewrite !(proj2 (Z.ltb_ge _ 0)), Z.div_mul by lia. cbn [orb]. assert (u / 1000000 ≤ (2 ^ 64 - 1 - u mod 1000000) / 1000000) by (apply Z.div_le_lower_bound; lia).
  rewrite !(proj2 (Z.ltb_ge _ _)) by lia. rewrite !wrapu_small by lia. lia.
Qed.
