(* ===== verification/EnvUtil.v ===== *)
(** * systemd: environment blocks

    Models [src/app/multi_process/day1/systemd/src/basic/env-util.c] with
    [string_has_cc] and [strnappend] of [string-util.c] and [strv_split_extract] of
    [strv.c]: environment blocks as lists of assignments NAME=VALUE, and the
    expansion of variables in a text.

    A string list is the list of its strings (NULL, which all functions treat like an
    empty list, is the empty list), an array that is edited in place is a list with the
    indices of the source, and a write outside an array is [None], as is a failed
    assertion. [ARG_MAX] is what [sysconf(_SC_ARG_MAX)] returns and [environ] the
    environment of the process. Allocations succeed; the counter [nest], an int, is not
    wrapped, since a text with that many braces does not fit in memory with its
    copies. *)

From Stdlib Require Import String.
From S2P Require Import Prelude Hexdecoct Utf8 Utf8Props Escape StringUtil UnitName ExtractWord.

#[local] Open Scope Z_scope.

Definition VALID_CHARS_ENV_NAME : list Z := DIGITS ++ LETTERS ++ bytes_of "_".

(** [strneq]: the first [n] characters are the same, or both strings are and end
    before. *)
Definition strneq (a b : list Z) (n : nat) : bool := bool_decide (take n a = take n b).

(** [s[k] == '='] for [k] up to the length of [s]. *)
Definition equals_at (s : list Z) (k : nat) : bool := default 0 (s !! k) =? 61.

(** ** Valid names and assignments *)

Fixpoint string_has_cc (p : list Z) (ok : option (list Z)) : bool :=
  match p with
  | [] => false
  | t :: p =>
      if match ok with Some ok => strchr ok t | None => false end then string_has_cc p ok
      else if (0 <? t) && (t <? 32) then true
      else if t =? 127 then true
      else string_has_cc p ok
  end.

Section Validity.
Context (ARG_MAX : Z).

Definition sc_arg_max : option Z := if 0 <? ARG_MAX then Some (u64 ARG_MAX) else None.

Definition env_name_is_valid_n (e : list Z) (n : nat) : bool :=
  if (n <=? 0)%nat then false
  else if (48 <=? default 0 (e !! 0%nat)) && (default 0 (e !! 0%nat) <=? 57) then false
  else if u64 (u64 ARG_MAX - 2) <? Z.of_nat n then false
  else forallb (strchr VALID_CHARS_ENV_NAME) (take n e).

Definition env_name_is_valid (e : list Z) : bool := env_name_is_valid_n e (length e).

Definition env_value_is_valid (e : list Z) : option bool :=
  u ← utf8_is_valid (e ++ [0]);
  if negb u then Some false
  else if string_has_cc e (Some [9; 10]) then Some false
  else
    l ← sc_arg_max;
    if u64 (l - 3) <? Z.of_nat (length e) then Some false else Some true.

Definition env_assignment_is_valid (e : list Z) : option bool :=
  match strchr_split e 61 with
  | None => Some false
  | Some (name, eq) =>
      if negb (env_name_is_valid_n e (length name)) then Some false
      else
        v ← env_value_is_valid (drop 1 eq);
        if negb v then Some false
        else
          l ← sc_arg_max;
          if u64 (l - 1) <? Z.of_nat (length e) then Some false else Some true
  end.

(** The inner loops of [strv_env_is_valid] and [strv_env_clean_with_callback]: a later
    assignment to the name of [p]. *)
Definition assigned_later (p : list Z) (rest : list (list Z)) : bool :=
  let k := strcspn p [61] in existsb (λ q, strneq p q k && equals_at q k) rest.

Fixpoint strv_env_is_valid (e : list (list Z)) : option bool :=
  match e with
  | [] => Some true
  | p :: rest =>
      v ← env_assignment_is_valid p;
      if negb v then Some false
      else if assigned_later p rest then Some false
      else strv_env_is_valid rest
  end.

Definition strv_contains (l : list (list Z)) (s : list Z) : bool := existsb (λ i, streq i s) l.

Fixpoint strv_env_name_is_valid (l : list (list Z)) : bool :=
  match l with
  | [] => true
  | p :: rest =>
      if negb (env_name_is_valid p) then false
      else if strv_contains rest p then false
      else strv_env_name_is_valid rest
  end.

Fixpoint strv_env_name_or_assignment_is_valid (l : list (list Z)) : option bool :=
  match l with
  | [] => Some true
  | p :: rest =>
      v ← env_assignment_is_valid p;
      if negb v && negb (env_name_is_valid p) then Some false
      else if strv_contains rest p then Some false
      else strv_env_name_or_assignment_is_valid rest
  end.

End Validity.

(** ** Merging *)

(** The first entry of [r] that is about the same variable as [a]. *)
Fixpoint first_match (r : list (list Z)) (a : list Z) (n : nat) : option nat :=
  match r with
  | [] => None
  | j :: r => if strneq j a n then Some O else S <$> first_match r a n
  end.

(** [r] holds the entries before the NULL to which [*k] points, [cap] is the size of
    the array. *)
Fixpoint env_append (cap : nat) (r a : list (list Z)) : option (list (list Z)) :=
  match a with
  | [] => Some r
  | c :: a =>
      let n := strcspn c [61] in
      let n := if equals_at c n then S n else n in
      match first_match r c n with
      | None => if (length r + 2 <=? cap)%nat then env_append cap (r ++ [c]) a else None
      | Some j => env_append cap (<[j:=c]> r) a
      end
  end.

(** The second loop of [strv_env_merge]. *)
Fixpoint env_merge_loop (cap : nat) (ret : list (list Z)) (lists : list (list (list Z))) : option (list (list Z)) :=
  match lists with
  | [] => Some ret
  | l :: lists => ret ← env_append cap ret l; env_merge_loop cap ret lists
  end.

Definition strv_env_merge (lists : list (list (list Z))) : option (list (list Z)) :=
  let n := foldl (λ n l, n + length l)%nat 0%nat lists in
  env_merge_loop (n + 1) [] lists.

Definition strv_env_set (x : list (list Z)) (p : list Z) : option (list (list Z)) :=
  let m := (length x + 2)%nat in
  ret ← env_append m [] x;
  env_append m ret [p].

(** ** Removing *)

Definition env_match (t pattern : list Z) : bool :=
  if streq t pattern then true
  else match strchr_split pattern 61 with
       | None => let l := length pattern in strneq t pattern l && equals_at t l
       | Some _ => false
       end.

Definition env_entry_has_name (entry name : list Z) : bool :=
  match startswith entry name with
  | None => false
  | Some t => equals_at t 0
  end.

Fixpoint strv_env_delete (x : list (list Z)) (lists : list (list (list Z))) : list (list Z) :=
  match x with
  | [] => []
  | k :: x =>
      if existsb (existsb (env_match k)) lists then strv_env_delete x lists
      else k :: strv_env_delete x lists
  end.

(** The loops that drop entries in place: entries are read at [f], those that are kept
    are moved to [t], and the NULL is written there in the end. [skip] looks at an entry
    and the part of the array behind it; [n] counts the rounds left. *)
Fixpoint compact_loop (skip : list Z → list (list Z) → option bool) (n : nat) (l : list (list Z)) (f t : nat) : option (list (list Z)) :=
  match n, l !! f with
  | O, _ | _, None => Some (take t l)
  | S n, Some x =>
      b ← skip x (drop (S f) l);
      if b : bool then compact_loop skip n l (S f) t else compact_loop skip n (<[t:=x]> l) (S f) (S t)
  end.

Definition strv_env_unset (l : list (list Z)) (p : list Z) : option (list (list Z)) :=
  compact_loop (λ f _, Some (env_match f p)) (length l) l 0 0.

Definition strv_env_unset_many (l ps : list (list Z)) : option (list (list Z)) :=
  compact_loop (λ f _, Some (existsb (env_match f) ps)) (length l) l 0 0.

(** The loop of [strv_env_replace]: [before] has the entries already passed. *)
Fixpoint replace_entry (before l : list (list Z)) (name p : list Z) : option (Z * list (list Z)) :=
  match l with
  | [] => Some (1, before ++ [p])
  | f :: l =>
      if env_entry_has_name f name then
        rest ← strv_env_unset l p;
        Some (0, before ++ p :: rest)
      else replace_entry (before ++ [f]) l name p
  end.

Definition strv_env_replace (l : list (list Z)) (p : list Z) : option (Z * list (list Z)) :=
  match strchr_split p 61 with
  | None => Some (- EINVAL, l)
  | Some (name, _) => replace_entry [] l name p
  end.

(** The new list, and the entries for which the callback was called. *)
Definition strv_env_clean_with_callback (ARG_MAX : Z) (e : list (list Z)) : option (list (list Z) * list (list Z)) :=
  r ← compact_loop (λ p rest,
        v ← env_assignment_is_valid ARG_MAX p;
        if negb v then Some true else Some (assigned_later p rest)) (length e) e 0 0;
  Some (r, filter (λ p, env_assignment_is_valid ARG_MAX p = Some false) e).

(** ** Looking up *)

Record ReplaceFlags := mk_replace { REPLACE_ENV_USE_ENVIRONMENT : bool; REPLACE_ENV_ALLOW_BRACELESS : bool; REPLACE_ENV_ALLOW_EXTENDED : bool }.

(** [STRV_FOREACH_BACKWARDS]. *)
Fixpoint get_backwards (l : list (list Z)) (name : list Z) (k : nat) : option (list Z) :=
  match l with
  | [] => None
  | i :: l =>
      match get_backwards l name k with
      | Some v => Some v
      | None => if strneq i name k && equals_at i k then Some (drop (k + 1) i) else None
      end
  end.

Section Lookup.
Context (environ : list (list Z)).

(** The first entry of the environment with the name. *)
Fixpoint getenv_loop (l : list (list Z)) (name : list Z) : option (list Z) :=
  match l with
  | [] => None
  | i :: l => if env_entry_has_name i name then Some (drop (length name + 1) i) else getenv_loop l name
  end.
Definition getenv (name : list Z) : option (list Z) := getenv_loop environ name.

(** [k] is at most the length of [name]. *)
Definition strv_env_get_n (l : list (list Z)) (name : list Z) (k : nat) (flags : ReplaceFlags) : option (list Z) :=
  if (k <=? 0)%nat then None
  else match get_backwards l name k with
       | Some v => Some v
       | None => if REPLACE_ENV_USE_ENVIRONMENT flags then getenv (take k name) else None
       end.

Definition strv_env_get (l : list (list Z)) (name : list Z) : option (list Z) :=
  strv_env_get_n l name (length name) (mk_replace false false false).

(** ** Expanding variables *)

Inductive replace_state := WORD | CURLY | VARIABLE | VARIABLE_RAW | TEST | DEFAULT_VALUE | ALTERNATE_VALUE.

#[export] Instance replace_state_eq : EqDecision replace_state.
Proof. solve_decision. Defined.

(** The variables of [replace_env_n]. [word] is the text from where the pointer of this
    name points up to [e], the character of the round; [test_value] is how far behind
    [word] that pointer is. *)
Record replace_vars := mk_vars { state : replace_state; r : option (list Z); word : list Z; nest : Z; len : nat; test_value : nat }.

Definition strnappend (s : option (list Z)) (suffix : list Z) (b : nat) : list Z := default [] s ++ take b suffix.

(** [strjoin] of two strings that may be NULL: the first NULL ends the list. *)
Definition strjoin2 (s t : option (list Z)) : list Z := match s with None => [] | Some s => s ++ default [] t end.

Section Replace.
Context (env : list (list Z)) (flags : ReplaceFlags) (replace_text : list Z → option (list Z)).

(** The case WORD, for the character [e]. *)
Definition word_round (v : replace_vars) (e : Z) : replace_vars :=
  mk_vars (if e =? 36 then CURLY else WORD) (r v) (word v ++ [e]) (nest v) (len v) (test_value v).

(** A round of the loop. *)
Definition replace_round (v : replace_vars) (e : Z) : option replace_vars :=
  let next st := mk_vars st (r v) (word v ++ [e]) (nest v) (len v) (test_value v) in
  match state v with
  | WORD => Some (word_round v e)
  | CURLY =>
      if e =? 123 then
        let k := strnappend (r v) (word v) (length (word v) - 1) in
        Some (mk_vars VARIABLE (Some k) (drop (length (word v) - 1) (word v) ++ [e]) (nest v + 1) (len v) (test_value v))
      else if e =? 36 then
        let k := strnappend (r v) (word v) (length (word v)) in
        Some (mk_vars WORD (Some k) [] (nest v) (len v) (test_value v))
      else if REPLACE_ENV_ALLOW_BRACELESS flags && strchr VALID_CHARS_ENV_NAME e then
        let k := strnappend (r v) (word v) (length (word v) - 1) in
        Some (mk_vars VARIABLE_RAW (Some k) (drop (length (word v) - 1) (word v) ++ [e]) (nest v) (len v) (test_value v))
      else Some (next WORD)
  | VARIABLE =>
      if e =? 125 then
        let t := strv_env_get_n env (drop 2 (word v)) (length (word v) - 2) flags in
        Some (mk_vars WORD (Some (strjoin2 (r v) t)) [] (nest v) (len v) (test_value v))
      else if e =? 58 then
        if negb (REPLACE_ENV_ALLOW_EXTENDED flags) then Some (next WORD)
        else Some (mk_vars TEST (r v) (word v ++ [e]) (nest v) (length (word v) - 2) (test_value v))
      else Some (next VARIABLE)
  | TEST =>
      if e =? 45 then Some (mk_vars DEFAULT_VALUE (r v) (word v ++ [e]) (nest v) (len v) (length (word v) + 1))
      else if e =? 43 then Some (mk_vars ALTERNATE_VALUE (r v) (word v ++ [e]) (nest v) (len v) (length (word v) + 1))
      else Some (next WORD)
  | DEFAULT_VALUE | ALTERNATE_VALUE =>
      if negb (REPLACE_ENV_ALLOW_EXTENDED flags) then None
      else if e =? 123 then Some (mk_vars (state v) (r v) (word v ++ [e]) (nest v + 1) (len v) (test_value v))
      else if negb (e =? 125) then Some (next (state v))
      else if nest v - 1 =? 0 then
        let t := strv_env_get_n env (drop 2 (word v)) (len v) flags in
        t ← match t with
            | Some _ => if decide (state v = ALTERNATE_VALUE) then Some <$> replace_text (drop (test_value v) (word v)) else Some t
            | None => if decide (state v = DEFAULT_VALUE) then Some <$> replace_text (drop (test_value v) (word v)) else Some t
            end;
        Some (mk_vars WORD (Some (strjoin2 (r v) t)) [] 0 (len v) (test_value v))
      else Some (mk_vars (state v) (r v) (word v ++ [e]) (nest v - 1) (len v) (test_value v))
  | VARIABLE_RAW =>
      if negb (REPLACE_ENV_ALLOW_BRACELESS flags) then None
      else if negb (strchr VALID_CHARS_ENV_NAME e) then
        let t := strv_env_get_n env (drop 1 (word v)) (length (word v) - 1) flags in
        (* the character is looked at again, in the state WORD *)
        Some (word_round (mk_vars WORD (Some (strjoin2 (r v) t)) [] (nest v) (len v) (test_value v)) e)
      else Some (next VARIABLE_RAW)
  end.

Fixpoint replace_loop (v : replace_vars) (text : list Z) : option (list Z) :=
  match text with
  | e :: text => v ← replace_round v e; replace_loop v text
  | [] =>
      if decide (state v = VARIABLE_RAW) then
        if negb (REPLACE_ENV_ALLOW_BRACELESS flags) then None
        else
          let t := strv_env_get_n env (drop 1 (word v)) (length (word v) - 1) flags in
          Some (strjoin2 (r v) t)
      else Some (strnappend (r v) (word v) (length (word v)))
  end.

End Replace.

(** The recursion: the text of a default or alternative value is shorter. *)
Fixpoint replace_text (env : list (list Z)) (flags : ReplaceFlags) (fuel : nat) (text : list Z) : option (list Z) :=
  match fuel with
  | O => None
  | S fuel => replace_loop env flags (replace_text env flags fuel) (mk_vars WORD None [] 0 0 0) text
  end.

Definition replace_env_n (format : list Z) (n : nat) (env : list (list Z)) (flags : ReplaceFlags) : option (list Z) :=
  replace_text env flags (S n) (take n format).

Definition replace_env (format : list Z) (env : list (list Z)) (flags : ReplaceFlags) : option (list Z) :=
  replace_env_n format (length format) env flags.

End Lookup.

(** ** Command lines *)

(** The loop of [strv_split_extract]; [l] has the words so far. *)
Fixpoint split_loop (separators : list Z) (flags : ExtractFlags) (fuel : nat) (s : option (list Z)) (l : list (list Z)) : option (Z * list (list Z)) :=
  match fuel with
  | O => None
  | S fuel =>
      '(r, s, word) ← extract_first_word separators flags s;
      if r <? 0 then Some (r, [])
      else if r =? 0 then Some (Z.of_nat (length l), l)
      else word ← word; split_loop separators flags fuel s (l ++ [word])
  end.

Definition strv_split_extract (s separators : list Z) (flags : ExtractFlags) : option (Z * list (list Z)) :=
  split_loop separators flags (length s + 2) (Some s) [].

Definition argv_flags : ExtractFlags := mk_flags true false false true false false.

(** The loop of [replace_env_argv]: [ret] has the [k] words so far, the array has
    [l + 1] places. [Some None] is the result NULL. *)
Fixpoint argv_loop (environ : list (list Z)) (argv env : list (list Z)) (l : nat) (ret : list (list Z)) : option (option (list (list Z))) :=
  match argv with
  | [] => if (length ret <? l + 1)%nat then Some (Some ret) else None
  | i :: argv =>
      if (default 0 (i !! 0%nat) =? 36) && negb (bool_decide (default 0 (i !! 1%nat) ∈ [123; 36])) then
        '(r, m) ← match strv_env_get environ env (drop 1 i) with
                  | Some e => strv_split_extract e WHITESPACE argv_flags
                  | None => Some (0, [])
                  end;
        if r <? 0 then if (length ret <? l + 1)%nat then Some None else None
        else
          let q := length m in
          let l := (l + q - 1)%nat in
          if (length ret + q <=? l + 1)%nat then argv_loop environ argv env l (ret ++ m) else None
      else
        e ← replace_env environ i env (mk_replace false false false);
        if (length ret <? l + 1)%nat then argv_loop environ argv env l (ret ++ [e]) else None
  end.

Definition replace_env_argv (environ : list (list Z)) (argv env : list (list Z)) : option (option (list (list Z))) :=
  argv_loop environ argv env (length argv) [].
