(* ===== verification/EnvUtilProps.v ===== *)
(** * systemd: environment blocks are maps

    An environment block of [EnvUtil] stands for the map from the names to the values
    that are assigned to them last. On valid blocks the operations are those of the map,
    and they keep the block valid. *)

From Stdlib Require Import String.
From S2P Require Import Prelude Hexdecoct Utf8 Utf8Props Escape StringUtil UnitName ExtractWord EnvUtil.

#[local] Open Scope Z_scope.
#[local] Set Warnings "-clear-no-such-hyp".

(** ** Assignments *)

Definition assignment (name value : list Z) : list Z := name ++ 61 :: value.

(** The name and the value of an entry. *)
Definition entry (e : list Z) : option (list Z * list Z) :=
  match strchr_split e 61 with
  | Some (name, _ :: value) => Some (name, value)
  | _ => None
  end.

(** What a block means: the last assignment to a name counts. *)
Definition env_map (l : list (list Z)) : gmap (list Z) (list Z) := list_to_map (reverse (omap entry l)).

(** The names that are assigned to. *)
Definition env_names (l : list (list Z)) : list (list Z) := (omap entry l).*1.

Lemma entry_Some e k v : entry e = Some (k, v) ↔ e = assignment k v ∧ 61 ∉ k.
Proof.
  unfold entry, assignment. split.
  - destruct (strchr_split e 61) as [[a b]|] eqn:E; [|done]. apply strchr_split_Some in E as (w & -> & -> & Hn). by intros [= <- <-].
  - intros [-> Hn]. by rewrite (proj2 (strchr_split_Some _ _ k (61 :: v))) by (by exists v).
Qed.

Lemma entry_None e : entry e = None ↔ 61 ∉ e.
Proof.
  unfold entry. rewrite <- strchr_split_None. destruct (strchr_split e 61) as [[a b]|] eqn:E; [|done].
  apply strchr_split_Some in E as (w & -> & _). done.
Qed.

Lemma entry_assignment k v : 61 ∉ k → entry (assignment k v) = Some (k, v).
Proof. intros. by apply entry_Some. Qed.

Lemma take_prefix (a b : list Z) : take (length a) b = a → ∃ r, b = a ++ r.
Proof. intros <-. exists (drop (length a) b). by rewrite take_drop. Qed.

(** [strneq(t, name, strlen(name)) && t[strlen(name)] == '=']. *)
Lemma names_spec t name : strneq t name (length name) && equals_at t (length name) = true ↔ ∃ v, t = assignment name v.
Proof.
  unfold strneq, equals_at, assignment. rewrite andb_true_iff, bool_decide_eq_true, Z.eqb_eq, (firstn_all name). split.
  - intros [Et E]. destruct (take_prefix name t Et) as [w ->]. rewrite lookup_app_r, Nat.sub_diag in E by lia.
    destruct w as [|x w]; cbn in E; [done|]. subst x. by exists w.
  - intros [v ->]. by rewrite take_app_length, lookup_app_r, Nat.sub_diag by lia.
Qed.

Lemma strneq_sym a b n : strneq a b n = strneq b a n.
Proof. unfold strneq. by apply bool_decide_ext. Qed.

Lemma strcspn_name k v : 61 ∉ k → strcspn (assignment k v) [61] = length k.
Proof.
  intros Hk. unfold strcspn, assignment. apply span_app; [|by rewrite bool_decide_eq_true_2 by (by left)].
  apply Forall_forall. intros c Hc. apply negb_true_iff, bool_decide_eq_false. rewrite list_elem_of_singleton. by intros ->.
Qed.

Lemma strneq_take t a n : (n ≤ length a)%nat → strneq t a n = strneq t (take n a) n.
Proof. intros. unfold strneq. by rewrite take_take, Nat.min_id. Qed.

(** An entry for the same variable as an assignment. *)
Lemma same_name k v q : 61 ∉ k → strneq (assignment k v) q (length k) && equals_at q (length k) = true ↔ ∃ v', q = assignment k v'.
Proof.
  intros Hk. rewrite strneq_sym, (strneq_take q) by (unfold assignment; rewrite length_app; lia). unfold assignment at 1. rewrite take_app_length. apply names_spec.
Qed.

Lemma equals_at_name k v : equals_at (assignment k v) (length k) = true.
Proof. unfold equals_at, assignment. by rewrite lookup_app_r, Nat.sub_diag by lia. Qed.

Lemma strneq_name k v q : strneq q (assignment k v) (S (length k)) = true ↔ ∃ v', q = assignment k v'.
Proof.
  unfold strneq, assignment. rewrite bool_decide_eq_true.
  assert (take (S (length k)) (k ++ 61 :: v) = k ++ [61]) as ->.
  { replace (k ++ 61 :: v) with ((k ++ [61]) ++ v) by by rewrite <- app_assoc. apply take_app_length'. rewrite length_app. simpl. lia. }
  split.
  - intros E. destruct (take_prefix (k ++ [61]) q) as [w ->]; [by rewrite length_app, Nat.add_1_r|]. exists w. by rewrite <- app_assoc.
  - intros [v' ->]. replace (k ++ 61 :: v') with ((k ++ [61]) ++ v') by by rewrite <- app_assoc. apply take_app_length'. rewrite length_app. simpl. lia.
Qed.

Lemma assigned_later_spec k v rest : 61 ∉ k → assigned_later (assignment k v) rest = true ↔ k ∈ env_names rest.
Proof.
  intros Hk. unfold assigned_later, env_names. rewrite strcspn_name by done. rewrite existsb_exists, list_elem_of_fmap. split.
  - intros (q & Hq & E). apply same_name in E as [v' ->]; [|done]. exists (k, v'). split; [done|].
    apply list_elem_of_omap. exists (assignment k v'). split; [by apply list_elem_of_In|by apply entry_assignment].
  - intros ([k' v'] & -> & (q & Hq & E)%list_elem_of_omap). apply entry_Some in E as [-> _]. exists (assignment k' v').
    split; [by apply list_elem_of_In|]. apply same_name; [done|]. by exists v'.
Qed.

(** ** The map of a block *)

Lemma omap_entry e l : omap entry (e :: l) = match entry e with Some kv => kv :: omap entry l | None => omap entry l end.
Proof. done. Qed.

Lemma env_map_app l l' : env_map (l ++ l') = env_map l' ∪ env_map l.
Proof. unfold env_map. by rewrite omap_app, reverse_app, list_to_map_app. Qed.

Lemma env_map_entry e k v : entry e = Some (k, v) → env_map [e] = {[k := v]}.
Proof. intros E. unfold env_map. by rewrite omap_entry, E. Qed.

Lemma lookup_env_map_cons e l k : env_map (e :: l) !! k =
  match env_map l !! k with
  | Some v => Some v
  | None => match entry e with Some (k', v) => if decide (k' = k) then Some v else None | None => None end
  end.
Proof.
  change (e :: l) with ([e] ++ l). rewrite env_map_app, lookup_union. unfold env_map at 2. rewrite omap_entry.
  destruct (env_map l !! k) as [v|]; [by rewrite union_Some_l|]. rewrite option_union_left_id.
  destruct (entry e) as [[k' v]|]; [|done]. change (omap entry []) with (@nil (list Z * list Z)). rewrite reverse_singleton. cbn. rewrite lookup_insert. case_decide; [done|]. apply lookup_empty.
Qed.

Lemma env_names_map l k : k ∈ env_names l ↔ is_Some (env_map l !! k).
Proof.
  unfold env_names, env_map. rewrite <- elem_of_dom, dom_list_to_map_L, elem_of_list_to_set, fmap_reverse. split; rewrite elem_of_reverse; done.
Qed.

Lemma get_backwards_spec l k : 61 ∉ k → get_backwards l k (length k) = env_map l !! k.
Proof.
  intros Hk. induction l as [|e l IH]; [done|]. rewrite lookup_env_map_cons. cbn [get_backwards]. rewrite IH.
  destruct (env_map l !! k); [done|]. destruct (_ && _) eqn:E.
  - apply names_spec in E as [v ->]. rewrite entry_assignment, decide_True by done. unfold assignment. f_equal.
    rewrite Nat.add_1_r. replace (k ++ 61 :: v) with ((k ++ [61]) ++ v) by by rewrite <- app_assoc. apply drop_app_length'. rewrite length_app. simpl. lia.
  - destruct (entry e) as [[k' v]|] eqn:Ee; [|done]. apply entry_Some in Ee as [-> _]. case_decide as Hkk; [|done]. subst k'.
    rewrite (proj2 (names_spec _ _)) in E; [done|by exists v].
Qed.

Lemma env_names_app l l' : env_names (l ++ l') = env_names l ++ env_names l'.
Proof. unfold env_names. by rewrite omap_app, fmap_app. Qed.

Lemma env_names_cons k v l : 61 ∉ k → env_names (assignment k v :: l) = k :: env_names l.
Proof. intros Hk. unfold env_names. by rewrite omap_entry, entry_assignment. Qed.

Lemma fresh_name l k : k ∉ env_names l → env_map l !! k = None.
Proof. rewrite env_names_map. apply eq_None_not_Some. Qed.

Lemma env_map_cons k v l : 61 ∉ k → k ∉ env_names l → env_map (assignment k v :: l) = <[k:=v]> (env_map l).
Proof.
  intros Hk Hl%fresh_name. change (assignment k v :: l) with ([assignment k v] ++ l).
  rewrite env_map_app, (env_map_entry _ k v) by by apply entry_assignment.
  apply map_eq. intros i. rewrite lookup_union, lookup_insert, lookup_singleton. case_decide; simplify_eq; [by rewrite Hl|]. apply option_union_right_id.
Qed.

(** An assignment in the middle that is the last one to its name. *)
Lemma env_map_middle a k v b : 61 ∉ k → k ∉ env_names b → env_map (a ++ assignment k v :: b) = <[k:=v]> (env_map (a ++ b)).
Proof. intros Hk Hb. by rewrite !env_map_app, env_map_cons, insert_union_l. Qed.

(** ** Merging *)

Lemma first_match_spec k v r : 61 ∉ k →
  match first_match r (assignment k v) (S (length k)) with
  | None => k ∉ env_names r
  | Some j => ∃ a v' b, r = a ++ assignment k v' :: b ∧ j = length a
  end.
Proof.
  intros Hk. induction r as [|e r IH]; cbn [first_match]; [apply not_elem_of_nil|]. destruct (strneq e _ _) eqn:E.
  - apply strneq_name in E as [v' ->]. by exists [], v', r.
  - destruct (first_match r _ _) as [j|]; cbn [fmap option_fmap option_map].
    + destruct IH as (a & v' & b & -> & ->). by exists (e :: a), v', b.
    + change (e :: r) with ([e] ++ r). rewrite env_names_app, elem_of_app. intros [H|H]; [|done].
      unfold env_names in H. rewrite omap_entry in H. destruct (entry e) as [[k' v']|] eqn:Ee; [|by apply not_elem_of_nil in H].
      apply entry_Some in Ee as [-> _]. apply list_elem_of_singleton in H. simpl in H. subst k'.
      by rewrite (proj2 (strneq_name k v _)) in E by (by exists v').
Qed.

Lemma env_append_spec (P : list Z → Prop) cap a : ∀ r, Forall (λ e, is_Some (entry e)) a → NoDup (env_names r) →
  (length r + length a + 1 ≤ cap)%nat → Forall P r → Forall P a →
  ∃ r', env_append cap r a = Some r' ∧ NoDup (env_names r') ∧ env_map r' = env_map a ∪ env_map r ∧
    (length r' ≤ length r + length a)%nat ∧ Forall P r'.
Proof.
  induction a as [|c a IH]; intros r Ha Hr Hc HP HPa; cbn [env_append length].
  { exists r. rewrite Nat.add_0_r. split_and!; try done. unfold env_map at 2. cbn. by rewrite (left_id_L ∅ (∪)). }
  apply Forall_cons in Ha as [[[k v] (-> & Hk)%entry_Some] Ha]. apply Forall_cons in HPa as [HPc HPa]. cbn [length] in Hc.
  rewrite strcspn_name, equals_at_name by done. pose proof (first_match_spec k v r Hk) as Hm.
  assert (∀ r1, NoDup (env_names r1) → env_map r1 = <[k:=v]> (env_map r) → (length r1 ≤ S (length r))%nat → Forall P r1 →
    ∃ r', env_append cap r1 a = Some r' ∧ NoDup (env_names r') ∧ env_map r' = env_map (assignment k v :: a) ∪ env_map r ∧
      (length r' ≤ length r + S (length a))%nat ∧ Forall P r') as Hstep.
  { intros r1 Hn E Hl HP1. destruct (IH r1) as (r' & -> & Hn' & E' & Hl' & HP'); try done; [lia|]. exists r'. split_and!; try done; [|lia].
    rewrite E', E. change (assignment k v :: a) with ([assignment k v] ++ a). rewrite env_map_app, (env_map_entry _ k v) by by apply entry_assignment.
    by rewrite insert_union_singleton_l, (assoc_L (∪)). }
  destruct (first_match r _ _) as [j|].
  - destruct Hm as (x & v' & y & -> & ->). rewrite insert_app_r_alt, Nat.sub_diag by lia. cbn [insert list_insert].
    rewrite env_names_app, env_names_cons in Hr by done. pose proof Hr as Hr'. apply NoDup_app in Hr as (_ & _ & [Hy _]%NoDup_cons).
    apply Hstep; [by rewrite env_names_app, env_names_cons| |rewrite !length_app; simpl; lia|].
    + by rewrite !env_map_middle, insert_insert_eq.
    + apply Forall_app in HP as [HPx [_ HPy]%Forall_cons]. apply Forall_app. split; [done|by apply Forall_cons].
  - rewrite (proj2 (Nat.leb_le _ _)) by lia. apply Hstep; [| |rewrite length_app; simpl; lia|by apply Forall_app; split; [|apply Forall_singleton]].
    + rewrite env_names_app, env_names_cons by done. apply NoDup_app. split_and!; [done| |by apply NoDup_singleton].
      intros x Hx Hxk. apply list_elem_of_singleton in Hxk as ->. done.
    + rewrite env_map_middle by (try done; apply not_elem_of_nil). by rewrite app_nil_r.
Qed.

Lemma env_merge_loop_spec P cap lists : ∀ r, Forall (Forall (λ e, is_Some (entry e))) lists → NoDup (env_names r) →
  (length r + length (concat lists) + 1 ≤ cap)%nat → Forall P r → Forall (Forall P) lists →
  ∃ r', env_merge_loop cap r lists = Some r' ∧ NoDup (env_names r') ∧ env_map r' = env_map (concat lists) ∪ env_map r ∧ Forall P r'.
Proof.
  induction lists as [|l lists IH]; intros r Ha Hr Hc HP HPa; cbn [env_merge_loop concat].
  { exists r. split_and!; try done. unfold env_map at 2. cbn. by rewrite (left_id_L ∅ (∪)). }
  apply Forall_cons in Ha as [Hl Ha]. apply Forall_cons in HPa as [HPl HPa]. cbn [concat] in Hc. rewrite length_app in Hc.
  destruct (env_append_spec P cap l r) as (r1 & -> & Hn1 & E1 & Hl1 & HP1); try done; [lia|]. cbn [mbind option_bind].
  destruct (IH r1) as (r' & -> & Hn' & E' & HP'); try done; [lia|]. exists r'. split_and!; try done.
  by rewrite E', E1, env_map_app, (assoc_L (∪)).
Qed.

Lemma total_length (lists : list (list (list Z))) n : foldl (λ n l, n + length l)%nat n lists = (n + length (concat lists))%nat.
Proof. revert n. induction lists as [|l lists IH]; intros n; cbn [foldl concat]; [simpl; lia|]. rewrite IH, length_app. lia. Qed.

Lemma strv_env_merge_spec P lists : Forall (Forall (λ e, is_Some (entry e))) lists → Forall (Forall P) lists →
  ∃ r, strv_env_merge lists = Some r ∧ NoDup (env_names r) ∧ env_map r = env_map (concat lists) ∧ Forall P r.
Proof.
  intros Ha HP. unfold strv_env_merge. rewrite total_length.
  destruct (env_merge_loop_spec P (0 + length (concat lists) + 1) lists []) as (r & -> & Hn & E & HPr); try done; [by apply NoDup_nil|].
  exists r. split_and!; try done. rewrite E. unfold env_map at 2. cbn. by rewrite (right_id_L ∅ (∪)).
Qed.

Lemma strv_env_set_spec P x k v : Forall (λ e, is_Some (entry e)) x → 61 ∉ k → Forall P x → P (assignment k v) →
  ∃ r, strv_env_set x (assignment k v) = Some r ∧ NoDup (env_names r) ∧ env_map r = <[k:=v]> (env_map x) ∧ Forall P r.
Proof.
  intros Hx Hk HP HPp. unfold strv_env_set.
  destruct (env_append_spec P (length x + 2) x []) as (r1 & -> & Hn1 & E1 & Hl1 & HP1); try done; [by apply NoDup_nil|simpl; lia|].
  cbn [mbind option_bind length] in *. destruct (env_append_spec P (length x + 2) [assignment k v] r1) as (r' & -> & Hn' & E' & _ & HP'); try done.
  - apply Forall_singleton. rewrite entry_assignment by done. by eexists.
  - cbn [length]. lia.
  - by apply Forall_singleton.
  - exists r'. split_and!; try done. rewrite E', E1, (env_map_entry _ k v) by by apply entry_assignment. unfold env_map at 2. cbn. by rewrite (right_id_L ∅ (∪)), insert_union_singleton_l.
Qed.

(** ** Dropping entries in place *)

(** What the loop leaves, entry by entry. *)
Fixpoint kept (skip : list Z → list (list Z) → option bool) (l : list (list Z)) : option (list (list Z)) :=
  match l with
  | [] => Some []
  | x :: l => b ← skip x l; k ← kept skip l; Some (if b : bool then k else x :: k)
  end.

Lemma compact_loop_spec skip n : ∀ l f t, (t ≤ f)%nat → (length l - f ≤ n)%nat →
  compact_loop skip n l f t = (k ← kept skip (drop f l); Some (take t l ++ k)).
Proof.
  induction n as [|n IH]; intros l f t Ht Hn.
  { rewrite drop_ge by lia. cbn. by rewrite app_nil_r. }
  cbn [compact_loop]. destruct (l !! f) as [x|] eqn:Ex.
  2:{ apply lookup_ge_None in Ex. rewrite drop_ge by done. cbn. by rewrite app_nil_r. }
  pose proof (lookup_lt_Some _ _ _ Ex) as Hf. rewrite (drop_S l x f Ex). cbn [kept].
  destruct (skip x (drop (S f) l)) as [[]|]; cbn [mbind option_bind]; [| |done].
  - rewrite IH by lia. by destruct (kept skip (drop (S f) l)).
  - rewrite IH by (rewrite ?length_insert; lia). rewrite drop_insert_lt by lia.
    destruct (kept skip (drop (S f) l)); [|done]. cbn [mbind option_bind]. f_equal.
    rewrite (take_S_r _ _ x) by (apply list_lookup_insert_eq; lia). by rewrite take_insert_ge, <- app_assoc by lia.
Qed.

Lemma compact_spec skip l : compact_loop skip (length l) l 0 0 = kept skip l.
Proof. rewrite compact_loop_spec by lia. rewrite drop_0. by destruct (kept skip l). Qed.

Lemma kept_filter (P : list Z → bool) l : kept (λ f _, Some (P f)) l = Some (filter (λ f, P f = false) l).
Proof.
  induction l as [|x l IH]; [done|]. cbn [kept mbind option_bind]. rewrite IH. cbn [mbind option_bind].
  rewrite filter_cons. destruct (P x); [by rewrite decide_False by done|by rewrite decide_True by done].
Qed.

Lemma unset_filter l p : strv_env_unset l p = Some (filter (λ f, env_match f p = false) l).
Proof. unfold strv_env_unset. by rewrite compact_spec, (kept_filter (λ f, env_match f p)). Qed.

Lemma unset_many_filter l ps : strv_env_unset_many l ps = Some (filter (λ f, existsb (env_match f) ps = false) l).
Proof. unfold strv_env_unset_many. by rewrite compact_spec, (kept_filter (λ f, existsb (env_match f) ps)). Qed.

Lemma delete_filter x lists : strv_env_delete x lists = filter (λ f, existsb (existsb (env_match f)) lists = false) x.
Proof.
  induction x as [|k x IH]; [done|]. cbn [strv_env_delete]. rewrite filter_cons, IH.
  destruct (existsb (existsb (env_match k)) lists); [by rewrite decide_False by done|by rewrite decide_True by done].
Qed.

(** What a pattern stands for: a variable, or a variable with a value. *)
Definition matches (pats : list (list Z)) (kv : list Z * list Z) : Prop := kv.1 ∈ pats ∨ assignment kv.1 kv.2 ∈ pats.

#[export] Instance matches_dec pats kv : Decision (matches pats kv).
Proof. unfold matches. apply _. Defined.

Lemma env_match_spec k v pat : 61 ∉ k → env_match (assignment k v) pat = true ↔ pat = k ∨ pat = assignment k v.
Proof.
  intros Hk. unfold env_match, streq. case_bool_decide as Es; [naive_solver|].
  destruct (strchr_split pat 61) as [[a b]|] eqn:E.
  - apply strchr_split_Some in E as (w & -> & -> & Ha). split; [done|]. intros [H|H]; [|congruence].
    destruct Hk. rewrite <- H. apply elem_of_app. right. by left.
  - apply strchr_split_None in E. rewrite names_spec. split.
    + intros [v' H]. left. assert (entry (assignment k v) = entry (assignment pat v')) as H' by by f_equal.
      rewrite !entry_assignment in H' by done. by injection H' as ->.
    + intros [->|H]; [by exists v|congruence].
Qed.

Lemma exists_match k v pats : 61 ∉ k → existsb (env_match (assignment k v)) pats = true ↔ matches pats (k, v).
Proof.
  intros Hk. rewrite existsb_exists. unfold matches. cbn [fst snd]. setoid_rewrite env_match_spec; [|done]. setoid_rewrite <- list_elem_of_In. naive_solver.
Qed.

Lemma exists_matches k v lists : 61 ∉ k → existsb (existsb (env_match (assignment k v))) lists = true ↔ matches (concat lists) (k, v).
Proof.
  intros Hk. rewrite existsb_exists. setoid_rewrite exists_match; [|done]. unfold matches. cbn [fst snd]. setoid_rewrite <- list_elem_of_In.
  rewrite !list_elem_of_In, !in_concat. setoid_rewrite <- list_elem_of_In. naive_solver.
Qed.

Lemma names_filter (P : list Z → Prop) `{!∀ x, Decision (P x)} l : env_names (filter P l) `sublist_of` env_names l.
Proof.
  unfold env_names. induction l as [|e l IH]; [done|]. rewrite filter_cons, omap_entry. case_decide.
  - rewrite omap_entry. destruct (entry e); [cbn; by constructor|done].
  - destruct (entry e); [cbn; by constructor|done].
Qed.

(** Dropping entries is dropping variables, when no name occurs twice. *)
Lemma env_map_filter (P : list Z → Prop) (Q : list Z * list Z → Prop) `{!∀ x, Decision (P x)} `{!∀ x, Decision (Q x)} l :
  (∀ k v, 61 ∉ k → P (assignment k v) ↔ Q (k, v)) → NoDup (env_names l) → env_map (filter P l) = filter Q (env_map l).
Proof.
  intros HPQ. induction l as [|e l IH]; intros Hn; [done|]. rewrite filter_cons. destruct (entry e) as [[k v]|] eqn:Ee.
  - apply entry_Some in Ee as [-> Hk]. rewrite env_names_cons in Hn by done. apply NoDup_cons in Hn as [Hkl Hn]. specialize (IH Hn).
    rewrite (env_map_cons k v l), map_filter_insert by done. destruct (decide (P (assignment k v))) as [HP|HP].
    + rewrite decide_True by by apply HPQ. rewrite env_map_cons, IH; [done|done|]. intros Hin. apply Hkl. eapply elem_of_sublist; [done|]. apply names_filter.
    + rewrite decide_False by by rewrite <- HPQ. rewrite IH, delete_id by by apply fresh_name. done.
  - assert (env_map (e :: l) = env_map l ∧ env_names (e :: l) = env_names l) as [-> E] by (unfold env_map, env_names; by rewrite omap_entry, Ee).
    rewrite E in Hn. rewrite <- IH by done. case_decide; [|done]. unfold env_map. by rewrite omap_entry, Ee.
Qed.

(** ** Replacing an entry *)

Lemma has_name_spec f name : env_entry_has_name f name = true ↔ ∃ v, f = assignment name v.
Proof.
  unfold env_entry_has_name, assignment. destruct (startswith f name) as [t|] eqn:E.
  - apply startswith_Some in E as ->. unfold equals_at. rewrite Z.eqb_eq. split.
    + destruct t as [|x t]; cbn; [done|]. intros ->. by exists t.
    + intros [v H]. apply (inj (name ++.)) in H as ->. done.
  - rewrite startswith_None in E. split; [done|]. intros [v ->]. by destruct (E (61 :: v)).
Qed.

(** The first entry with the name gets the new value, and of the entries behind it those
    that are already equal to the new one are dropped. *)
Lemma replace_entry_spec k p l : ∀ before,
  ((k ∉ env_names l) ∧ replace_entry before l k p = Some (1, before ++ l ++ [p])) ∨
  (∃ a v b, l = a ++ assignment k v :: b ∧ replace_entry before l k p = Some (0, before ++ a ++ p :: filter (λ f, env_match f p = false) b)).
Proof.
  induction l as [|f l IH]; intros before; cbn [replace_entry].
  { left. split; [apply not_elem_of_nil|done]. }
  destruct (env_entry_has_name f k) eqn:E.
  - apply has_name_spec in E as [v ->]. right. exists [], v, l. by rewrite unset_filter.
  - destruct (IH (before ++ [f])) as [[Hk ->]|(a & v & b & -> & ->)].
    + left. rewrite <- !app_assoc. split; [|done]. unfold env_names. rewrite omap_entry. destruct (entry f) as [[k' v']|] eqn:Ee; [|done].
      cbn. apply not_elem_of_cons. split; [|done]. intros ->. apply entry_Some in Ee as [-> _]. by rewrite (proj2 (has_name_spec _ _)) in E by (by exists v').
    + right. exists (f :: a), v, b. by rewrite <- !app_assoc.
Qed.

Lemma filter_id_all (P : list Z → Prop) `{!∀ x, Decision (P x)} l : Forall P l → filter P l = l.
Proof. induction 1 as [|x l Hx _ IH]; [done|]. by rewrite filter_cons, decide_True, IH. Qed.

Lemma filter_other k v l : 61 ∉ k → k ∉ env_names l → filter (λ f, env_match f (assignment k v) = false) l = l.
Proof.
  intros Hk Hl. apply filter_id_all. apply Forall_forall. intros f Hf. apply not_true_is_false. unfold env_match, streq.
  case_bool_decide as E; [|by rewrite (proj2 (strchr_split_Some _ _ k (61 :: v))) by (by exists v)].
  intros _. apply Hl. subst f. unfold env_names. apply list_elem_of_fmap. exists (k, v). split; [done|].
  apply list_elem_of_omap. exists (assignment k v). split; [done|by apply entry_assignment].
Qed.

Lemma strv_env_replace_spec P l k v : 61 ∉ k → NoDup (env_names l) → Forall P l → P (assignment k v) →
  ∃ r l', strv_env_replace l (assignment k v) = Some (r, l') ∧ (r = 0 ∨ r = 1) ∧ NoDup (env_names l') ∧
    env_map l' = <[k:=v]> (env_map l) ∧ Forall P l'.
Proof.
  intros Hk Hn HP HPp. unfold strv_env_replace. rewrite (proj2 (strchr_split_Some _ _ k (61 :: v))) by (by exists v).
  destruct (replace_entry_spec k (assignment k v) l []) as [[Hl ->]|(a & v' & b & -> & ->)].
  - eexists _, _. split; [done|]. split; [by right|]. cbn [app]. rewrite env_names_app, env_names_cons by done. split_and!.
    + apply NoDup_app. split_and!; [done| |by apply NoDup_singleton]. intros x Hx ->%list_elem_of_singleton. done.
    + rewrite env_map_middle by (try done; apply not_elem_of_nil). by rewrite app_nil_r.
    + apply Forall_app. split; [done|by apply Forall_singleton].
  - rewrite env_names_app, env_names_cons in Hn by done. pose proof Hn as Hn'. apply NoDup_app in Hn' as (_ & _ & [Hb _]%NoDup_cons).
    rewrite filter_other by done. eexists _, _. split; [done|]. split; [by left|]. cbn [app]. rewrite env_names_app, env_names_cons by done.
    split_and!; [done|by rewrite !env_map_middle, insert_insert_eq|].
    apply Forall_app in HP as [HPa [_ HPb]%Forall_cons]. apply Forall_app. split; [done|by apply Forall_cons].
Qed.

(** ** Valid blocks *)

Section Valid.
Context (ARG_MAX : Z).

Definition valid_entry (p : list Z) : Prop := env_assignment_is_valid ARG_MAX p = Some true.

Lemma valid_entry_view p : valid_entry p → ∃ k v, p = assignment k v ∧ (61 ∉ k) ∧ k ≠ [].
Proof.
  unfold valid_entry, env_assignment_is_valid. destruct (strchr_split p 61) as [[a b]|] eqn:E; [|done].
  apply strchr_split_Some in E as (v & -> & -> & Ha). destruct (env_name_is_valid_n _ _ _) eqn:En; [|done]. intros _.
  exists a, v. split_and!; [done..|]. intros ->. done.
Qed.

Lemma valid_entries l : Forall valid_entry l → Forall (λ e, is_Some (entry e)) l.
Proof. intros H. eapply Forall_impl; [exact H|]. intros p (k & v & -> & Hk & _)%valid_entry_view. rewrite entry_assignment by done. by eexists. Qed.

(** Every entry is a valid assignment, and no two are about the same variable. *)
Lemma strv_env_is_valid_spec l : strv_env_is_valid ARG_MAX l = Some true ↔ Forall valid_entry l ∧ NoDup (env_names l).
Proof.
  induction l as [|p l IH]; cbn [strv_env_is_valid].
  { split; [|done]. intros _. split; [by apply Forall_nil|by apply NoDup_nil]. }
  rewrite Forall_cons. fold (valid_entry p). unfold valid_entry at 1. destruct (env_assignment_is_valid ARG_MAX p) as [[]|] eqn:E; cbn [mbind option_bind negb]; [|naive_solver..].
  destruct (valid_entry_view p E) as (k & v & -> & Hk & _). rewrite env_names_cons, NoDup_cons by done.
  pose proof (assigned_later_spec k v l Hk). destruct (assigned_later _ _); naive_solver.
Qed.

Lemma valid_no_empty l : strv_env_is_valid ARG_MAX l = Some true → env_map l !! [] = None.
Proof.
  intros [Hv _]%strv_env_is_valid_spec. apply fresh_name. unfold env_names. intros ([k v] & E & (p & Hp & He)%list_elem_of_omap)%list_elem_of_fmap.
  rewrite Forall_forall in Hv. destruct (valid_entry_view p (Hv p Hp)) as (k' & v' & -> & Hk & Hne). rewrite entry_assignment in He by done. by simplify_eq/=.
Qed.

(** On a valid block a look-up is a look-up in the map. *)
Lemma strv_env_get_spec environ l name : strv_env_is_valid ARG_MAX l = Some true → 61 ∉ name → strv_env_get environ l name = env_map l !! name.
Proof.
  intros Hl Hn. unfold strv_env_get, strv_env_get_n. rewrite get_backwards_spec by done. destruct name as [|c name]; [|by destruct (env_map l !! _)].
  by rewrite (valid_no_empty l Hl).
Qed.

End Valid.

(** ** Cleaning *)

Section Clean.
Context (ARG_MAX : Z) (Harg : 0 < ARG_MAX).

(** On C strings the check gives an answer. *)
Lemma assignment_decided p : cstring p → is_Some (env_assignment_is_valid ARG_MAX p).
Proof.
  intros Hp. unfold env_assignment_is_valid. destruct (strchr_split p 61) as [[a b]|] eqn:E; [|by eexists].
  apply strchr_split_Some in E as (v & -> & -> & Ha). destruct (negb _); [by eexists|]. change (drop 1 (61 :: v)) with v.
  assert (cstring v) as Hv by (by apply Forall_app in Hp as [_ [_ Hv]%Forall_cons]).
  unfold env_value_is_valid. destruct (valid_loop_spec v Hv (length (v ++ [0]))) as (u & Eu & _); [rewrite length_app; lia|].
  unfold utf8_is_valid. rewrite Eu. cbn [mbind option_bind]. unfold sc_arg_max. rewrite (proj2 (Z.ltb_lt _ _)) by done.
  repeat (cbn [mbind option_bind]; case_match); by eexists.
Qed.

Lemma kept_sublist skip l r : kept skip l = Some r → r `sublist_of` l.
Proof.
  revert r. induction l as [|x l IH]; intros r; cbn [kept]; [by intros [= <-]|].
  destruct (skip x l) as [[]|]; [| |done]; cbn [mbind option_bind]; (destruct (kept skip l) as [k|]; [|done]); intros [= <-]; constructor; by apply IH.
Qed.

Lemma names_sublist r l : r `sublist_of` l → env_names r `sublist_of` env_names l.
Proof.
  unfold env_names. induction 1 as [|e r l _ IH|e r l _ IH]; [done|..]; rewrite ?omap_entry; destruct (entry e); cbn; by constructor || done.
Qed.

Lemma env_map_shadowed k v l : 61 ∉ k → k ∈ env_names l → env_map (assignment k v :: l) = env_map l.
Proof.
  intros Hk [w Hw]%env_names_map. apply map_eq. intros i. rewrite lookup_env_map_cons, entry_assignment by done.
  destruct (env_map l !! i) eqn:E; [done|]. case_decide; [|done]. subst i. congruence.
Qed.

Lemma env_map_skip e l : entry e = None → env_map (e :: l) = env_map l.
Proof. intros E. unfold env_map. by rewrite omap_entry, E. Qed.

Definition valid_pair (kv : list Z * list Z) : Prop := valid_entry ARG_MAX (assignment kv.1 kv.2).

#[export] Instance valid_pair_dec kv : Decision (valid_pair kv).
Proof. unfold valid_pair, valid_entry. apply _. Defined.

(** Cleaning a block leaves a valid one, with the variables whose last assignment is
    valid. *)
Lemma clean_spec e : Forall cstring e → ∃ r,
  strv_env_clean_with_callback ARG_MAX e = Some (r, filter (λ p, env_assignment_is_valid ARG_MAX p = Some false) e) ∧
  strv_env_is_valid ARG_MAX r = Some true ∧ env_map r = filter valid_pair (env_map e).
Proof.
  intros He. unfold strv_env_clean_with_callback. rewrite compact_spec. set (skip := λ p rest, _).
  enough (∃ r, kept skip e = Some r ∧ strv_env_is_valid ARG_MAX r = Some true ∧ env_map r = filter valid_pair (env_map e)) as (r & -> & H) by by exists r.
  setoid_rewrite strv_env_is_valid_spec. induction He as [|p l Hp Hl (r & E & [Hv Hn] & Em)]; cbn [kept].
  { exists []. split_and!; [done|by apply Forall_nil|by apply NoDup_nil|done]. }
  destruct (assignment_decided p Hp) as [[] Eb]; replace (skip p l) with (v ← env_assignment_is_valid ARG_MAX p; if negb v then Some true else Some (assigned_later p l)) by done; rewrite Eb; cbn [mbind option_bind negb]; rewrite E; cbn [mbind option_bind].
  - destruct (valid_entry_view ARG_MAX p Eb) as (k & v & -> & Hk & _). pose proof (assigned_later_spec k v l Hk) as Hlat.
    destruct (assigned_later _ _).
    + exists r. rewrite env_map_shadowed by (try done; by apply Hlat). done.
    + assert (k ∉ env_names l) as Hkl by (intros ?; by assert (false = true) by by apply Hlat).
      assert (k ∉ env_names r) as Hkr by (intros ?; apply Hkl; eapply elem_of_sublist; [done|]; by apply names_sublist, (kept_sublist skip)).
      exists (assignment k v :: r). rewrite env_names_cons, !env_map_cons, map_filter_insert, decide_True, Em by done.
      split_and!; [done|by apply Forall_cons|by apply NoDup_cons|done].
  - exists r. split_and!; [done..|]. rewrite Em. destruct (entry p) as [[k v]|] eqn:Ee; [|by rewrite env_map_skip].
    apply entry_Some in Ee as [-> Hk]. destruct (decide (k ∈ env_names l)) as [Hin|Hin]; [by rewrite env_map_shadowed|].
    rewrite env_map_cons, map_filter_insert, decide_False by (try done; unfold valid_pair, valid_entry; simpl; congruence). by rewrite delete_id by by apply fresh_name.
Qed.

End Clean.

(** ** What is a valid assignment *)

Definition printable (c : Z) : Prop := c ∈ [9; 10] ∨ 32 ≤ c ∧ c ≠ 127.

Lemma string_has_cc_spec p : cstring p → string_has_cc p (Some [9; 10]) = false ↔ Forall printable p.
Proof.
  induction 1 as [|c p Hc _ IH]; cbn [string_has_cc]; [split; [by constructor|done]|]. rewrite Forall_cons, <- IH. unfold printable, strchr.
  rewrite (proj2 (Z.eqb_neq c 0)), orb_false_r by lia. case_bool_decide as H9; [naive_solver|].
  destruct (_ && _) eqn:E; reflect_bools; [split; [done|]; intros [[?|?] _]; [done|lia]|].
  destruct (Z.eqb_spec c 127); [split; [done|]; intros [[?|?] _]; [done|lia]|].
  apply andb_false_iff in E as [E|E]; reflect_bools; [lia|]. naive_solver.
Qed.

Lemma name_chars_spec a : cstring a → forallb (strchr VALID_CHARS_ENV_NAME) a = true ↔ Forall (.∈ VALID_CHARS_ENV_NAME) a.
Proof.
  induction 1 as [|x l Hx _ IH]; [split; [by constructor|done]|]. cbn [forallb]. rewrite andb_true_iff, IH, Forall_cons. unfold strchr.
  by rewrite (proj2 (Z.eqb_neq x 0)), orb_false_r, bool_decide_eq_true by lia.
Qed.

Section Exact.
Context (ARG_MAX : Z) (Harg : 3 < ARG_MAX < 2 ^ 63).

Lemma name_valid_spec a e : cstring a → env_name_is_valid_n ARG_MAX (a ++ e) (length a) = true ↔
  Forall (.∈ VALID_CHARS_ENV_NAME) a ∧ Z.of_nat (length a) ≤ ARG_MAX - 2 ∧ ∃ c k, a = c :: k ∧ ¬ (48 ≤ c ≤ 57).
Proof.
  intros Ha. unfold env_name_is_valid_n. rewrite (wrapu_small 64 ARG_MAX), wrapu_small, take_app_length by lia. rewrite <- name_chars_spec by done.
  destruct a as [|c k]; [cbn; naive_solver|]. cbn [app lookup list_lookup default from_option id length Nat.leb].
  destruct (_ && _) eqn:Ed; [reflect_bools; split; [done|]; intros (_ & _ & ? & ? & [= <- <-] & ?); lia|].
  destruct (Z.ltb_spec (ARG_MAX - 2) (Z.of_nat (S (length k)))); [split; [done|]; lia|]. split; [|by intros [? _]]. intros Hf. split_and!; [done..|].
  exists c, k. split; [done|]. apply andb_false_iff in Ed as [Ed|Ed]; reflect_bools; lia.
Qed.

Lemma value_valid_spec v : cstring v → ∃ b, env_value_is_valid ARG_MAX v = Some b ∧
  (b = true ↔ (∃ cps, Forall good cps ∧ v = encs cps) ∧ Forall printable v ∧ Z.of_nat (length v) ≤ ARG_MAX - 3).
Proof.
  intros Hv. unfold env_value_is_valid, utf8_is_valid, sc_arg_max. destruct (valid_loop_spec v Hv (length (v ++ [0]))) as (u & -> & Hu); [rewrite length_app; lia|].
  cbn [mbind option_bind]. rewrite (proj2 (Z.ltb_lt 0 ARG_MAX)) by lia. cbn [mbind option_bind]. rewrite (wrapu_small 64 ARG_MAX), wrapu_small by lia.
  pose proof (string_has_cc_spec v Hv) as Hc. destruct u; cbn [negb]; [|exists false; naive_solver]. destruct (string_has_cc v _); [exists false; naive_solver|].
  destruct (Z.ltb_spec (ARG_MAX - 3) (Z.of_nat (length v))); [exists false; split; [done|]; split; [done|lia]|exists true; naive_solver].
Qed.

(** A name of letters, digits and underscores that does not start with a digit, and a
    value of valid UTF-8 without control characters but tabs and newlines, both together
    shorter than the limit of the system. *)
Theorem env_assignment_exact p : cstring p → env_assignment_is_valid ARG_MAX p = Some true ↔
  ∃ c k v, p = assignment (c :: k) v ∧ Forall (.∈ VALID_CHARS_ENV_NAME) (c :: k) ∧ ¬ (48 ≤ c ≤ 57) ∧
    (∃ cps, Forall good cps ∧ v = encs cps) ∧ Forall printable v ∧ Z.of_nat (length p) < ARG_MAX.
Proof.
  intros Hp. unfold env_assignment_is_valid, sc_arg_max. destruct (strchr_split p 61) as [[a b]|] eqn:E.
  2:{ apply strchr_split_None in E. split; [done|]. intros (c & k & v & -> & _). destruct E. unfold assignment. apply elem_of_app. right. by left. }
  apply strchr_split_Some in E as (v & -> & -> & Ha). pose proof Hp as [Hca [_ Hcv]%Forall_cons]%Forall_app. change (drop 1 (61 :: v)) with v.
  pose proof (name_valid_spec a (61 :: v) Hca) as Hn. destruct (value_valid_spec v Hcv) as (b & -> & Hb). cbn [mbind option_bind].
  rewrite (proj2 (Z.ltb_lt 0 ARG_MAX)), (wrapu_small 64 ARG_MAX) by lia. cbn [mbind option_bind]. rewrite wrapu_small by lia. rewrite length_app. cbn [length].
  assert (∀ c k w, a ++ 61 :: v = assignment (c :: k) w → Forall (.∈ VALID_CHARS_ENV_NAME) (c :: k) → a = c :: k ∧ v = w) as Hinj.
  { intros c k w Ew Hk. assert (entry (assignment a v) = entry (assignment (c :: k) w)) as H by (by rewrite <- Ew).
    rewrite !entry_assignment in H; [by simplify_eq|..|done]. rewrite Forall_forall in Hk. intros Hin%Hk. revert Hin. apply (bool_decide_unpack (61 ∉ VALID_CHARS_ENV_NAME)). by vm_compute. }
  split.
  - destruct (env_name_is_valid_n _ _ _); [|done]. destruct b; [|done]. cbn [negb]. destruct (Z.ltb_spec (ARG_MAX - 1) (Z.of_nat (length a + S (length v)))); [done|]. intros _.
    destruct Hn as [Hn _], Hb as [Hb _]. destruct (Hn eq_refl) as (H1 & _ & c & k & -> & H2), (Hb eq_refl) as (H3 & H4 & _). exists c, k, v. split_and!; try done. lia.
  - intros (c & k & w & Ew & Hk & Hd & Hv & Hpr & Hl). destruct (Hinj c k w Ew Hk) as [-> <-]. cbn [length] in *.
    rewrite (proj2 Hn) by (split_and!; [done|lia|by exists c, k]). rewrite (proj2 Hb) by (split_and!; [done|done|lia]). cbn [negb]. by rewrite (proj2 (Z.ltb_ge _ _)) by lia.
Qed.

End Exact.

(** ** Sequences of operations *)

Inductive env_op :=
  | OSet (p : list Z) | OReplace (p : list Z) | OMerge (lists : list (list (list Z)))
  | OUnset (p : list Z) | OUnsetMany (ps : list (list Z)) | ODelete (lists : list (list (list Z))) | OClean.

Definition run_op (ARG_MAX : Z) (l : list (list Z)) (o : env_op) : option (list (list Z)) :=
  match o with
  | OSet p => strv_env_set l p
  | OReplace p => snd <$> strv_env_replace l p
  | OMerge lists => strv_env_merge (l :: lists)
  | OUnset p => strv_env_unset l p
  | OUnsetMany ps => strv_env_unset_many l ps
  | ODelete lists => Some (strv_env_delete l lists)
  | OClean => fst <$> strv_env_clean_with_callback ARG_MAX l
  end.

Fixpoint run_ops (ARG_MAX : Z) (l : list (list Z)) (ops : list env_op) : option (list (list Z)) :=
  match ops with
  | [] => Some l
  | o :: ops => l ← run_op ARG_MAX l o; run_ops ARG_MAX l ops
  end.

(** The same on maps. *)
Definition spec_op (m : gmap (list Z) (list Z)) (o : env_op) : gmap (list Z) (list Z) :=
  match o with
  | OSet p | OReplace p => env_map [p] ∪ m
  | OMerge lists => env_map (concat lists) ∪ m
  | OUnset p => filter (λ kv, ¬ matches [p] kv) m
  | OUnsetMany ps => filter (λ kv, ¬ matches ps kv) m
  | ODelete lists => filter (λ kv, ¬ matches (concat lists) kv) m
  | OClean => m
  end.

(** What is added is valid; what is removed may be anything. *)
Definition op_valid (ARG_MAX : Z) (o : env_op) : Prop :=
  match o with
  | OSet p | OReplace p => valid_entry ARG_MAX p
  | OMerge lists => Forall (Forall (valid_entry ARG_MAX)) lists
  | _ => True
  end.

Section Ops.
Context (ARG_MAX : Z).

Lemma insert_entry k v m : 61 ∉ k → env_map [assignment k v] ∪ m = <[k:=v]> m.
Proof. intros Hk. by rewrite (env_map_entry _ k v), insert_union_singleton_l by by apply entry_assignment. Qed.

Lemma drop_valid (P : list Z → Prop) (Q : list Z * list Z → Prop) `{!∀ x, Decision (P x)} `{!∀ x, Decision (Q x)} l :
  (∀ k v, 61 ∉ k → P (assignment k v) ↔ Q (k, v)) → strv_env_is_valid ARG_MAX l = Some true →
  strv_env_is_valid ARG_MAX (filter P l) = Some true ∧ env_map (filter P l) = filter Q (env_map l).
Proof.
  intros HPQ [Hv Hn]%strv_env_is_valid_spec. rewrite strv_env_is_valid_spec. split_and!.
  - rewrite Forall_forall in *. intros x [_ Hx]%list_elem_of_filter. by apply Hv.
  - eapply sublist_NoDup; [done|apply names_filter].
  - by apply env_map_filter.
Qed.

(** A valid block is clean. *)
Lemma clean_valid l : strv_env_is_valid ARG_MAX l = Some true → fst <$> strv_env_clean_with_callback ARG_MAX l = Some l.
Proof.
  intros Hl. unfold strv_env_clean_with_callback. rewrite compact_spec. set (skip := λ p rest, _).
  enough (kept skip l = Some l) as -> by done. induction l as [|p l IH]; [done|]. cbn [strv_env_is_valid kept] in *.
  replace (skip p l) with (v ← env_assignment_is_valid ARG_MAX p; if negb v then Some true else Some (assigned_later p l)) by done.
  destruct (env_assignment_is_valid ARG_MAX p) as [[]|]; [|done..]. cbn [mbind option_bind negb] in *.
  destruct (assigned_later p l); [done|]. by rewrite IH.
Qed.

Lemma run_op_spec l o : strv_env_is_valid ARG_MAX l = Some true → op_valid ARG_MAX o →
  ∃ l', run_op ARG_MAX l o = Some l' ∧ strv_env_is_valid ARG_MAX l' = Some true ∧ env_map l' = spec_op (env_map l) o.
Proof.
  intros Hl Ho. pose proof Hl as [Hv Hn]%strv_env_is_valid_spec. pose proof (valid_entries ARG_MAX l Hv) as He.
  destruct o as [p|p|lists|p|ps|lists|]; cbn [run_op spec_op op_valid] in *.
  - destruct (valid_entry_view ARG_MAX p Ho) as (k & v & -> & Hk & _). destruct (strv_env_set_spec (valid_entry ARG_MAX) l k v) as (r & -> & Hn' & E & HP); try done.
    exists r. by rewrite strv_env_is_valid_spec, insert_entry.
  - destruct (valid_entry_view ARG_MAX p Ho) as (k & v & -> & Hk & _). destruct (strv_env_replace_spec (valid_entry ARG_MAX) l k v) as (x & r & -> & _ & Hn' & E & HP); try done.
    exists r. by rewrite strv_env_is_valid_spec, insert_entry.
  - destruct (strv_env_merge_spec (valid_entry ARG_MAX) (l :: lists)) as (r & -> & Hn' & E & HP).
    + apply Forall_cons. split; [done|]. eapply Forall_impl; [exact Ho|]. intros. by apply (valid_entries ARG_MAX).
    + by apply Forall_cons.
    + exists r. rewrite strv_env_is_valid_spec. split_and!; try done. rewrite E. cbn [concat]. apply env_map_app.
  - rewrite unset_filter. eexists. split; [done|]. apply drop_valid; [|done]. intros k v Hk. rewrite <- not_true_iff_false, env_match_spec by done.
    unfold matches. cbn [fst snd]. rewrite !list_elem_of_singleton. naive_solver.
  - rewrite unset_many_filter. eexists. split; [done|]. apply drop_valid; [|done]. intros k v Hk. by rewrite <- not_true_iff_false, exists_match.
  - rewrite delete_filter. eexists. split; [done|]. apply drop_valid; [|done]. intros k v Hk. by rewrite <- not_true_iff_false, exists_matches.
  - rewrite clean_valid by done. by exists l.
Qed.

Lemma run_ops_spec ops : ∀ l, strv_env_is_valid ARG_MAX l = Some true → Forall (op_valid ARG_MAX) ops →
  ∃ l', run_ops ARG_MAX l ops = Some l' ∧ strv_env_is_valid ARG_MAX l' = Some true ∧ env_map l' = foldl spec_op (env_map l) ops.
Proof.
  induction ops as [|o ops IH]; intros l Hl Ho; cbn [run_ops foldl]; [by exists l|]. apply Forall_cons in Ho as [Ho Hops].
  destruct (run_op_spec l o Hl Ho) as (l1 & -> & Hl1 & E). cbn [mbind option_bind]. rewrite <- E. by apply IH.
Qed.

End Ops.

(** C22. An environment block is a map from names to values. For every list of C strings
    [strv_env_clean_with_callback] leaves a block that [strv_env_is_valid] accepts, with
    the variables whose last assignment is valid, and reports the invalid entries. From
    there every sequence of calls of [strv_env_set], [strv_env_replace],
    [strv_env_merge], [strv_env_unset], [strv_env_unset_many], [strv_env_delete] and
    cleaning, in which only valid assignments are added and anything is removed, writes
    inside its arrays and keeps the block valid: every name occurs once. The block then
    has the variables of the map that the same sequence of insertions, unions and
    deletions makes, a pattern NAME=VALUE removing the variable only with this value, and
    [strv_env_get] is the look-up in this map. *)
Theorem env_block_refines_map (ARG_MAX : Z) (environ e : list (list Z)) (ops : list env_op)
    (Harg : 0 < ARG_MAX) (He : Forall cstring e) (Hops : Forall (op_valid ARG_MAX) ops) :
  ∃ l l', strv_env_clean_with_callback ARG_MAX e = Some (l, filter (λ p, env_assignment_is_valid ARG_MAX p = Some false) e) ∧
    run_ops ARG_MAX l ops = Some l' ∧ strv_env_is_valid ARG_MAX l' = Some true ∧
    env_map l' = foldl spec_op (filter (valid_pair ARG_MAX) (env_map e)) ops ∧
    ∀ name, 61 ∉ name → strv_env_get environ l' name = env_map l' !! name.
Proof.
  destruct (clean_spec ARG_MAX Harg e He) as (l & E & Hl & Em). destruct (run_ops_spec ARG_MAX ops l Hl Hops) as (l' & E' & Hl' & Em').
  exists l, l'. rewrite Em', Em. split_and!; try done. intros name Hn. rewrite <- Em, <- Em'. by apply (strv_env_get_spec ARG_MAX).
Qed.

Lemma env_block_refines_map_witness :
  let e := [bytes_of "A=1"; bytes_of "=x"; bytes_of "B=2"; bytes_of "A=3"] in
  let ops := [OSet (bytes_of "C=4"); OUnset (bytes_of "B"); OUnset (bytes_of "A=1"); OMerge [[bytes_of "A=5"; bytes_of "A=6"]]] in
  ∃ l l', strv_env_clean_with_callback 2097152 e = Some (l, [bytes_of "=x"]) ∧ run_ops 2097152 l ops = Some l' ∧
    l' = [bytes_of "A=6"; bytes_of "C=4"] ∧ strv_env_get [] l' (bytes_of "A") = Some (bytes_of "6").
Proof.
  intros e ops. destruct (env_block_refines_map 2097152 [] e ops ltac:(lia)) as (l & l' & E & E' & _ & Em & Hg).
  - repeat constructor; simpl; lia.
  - repeat constructor; by vm_compute.
  - assert (l = [bytes_of "B=2"; bytes_of "A=3"]) as -> by (vm_compute in E; by injection E as <-).
    assert (l' = [bytes_of "A=6"; bytes_of "C=4"]) as -> by (vm_compute in E'; by injection E' as <-).
    exists [bytes_of "B=2"; bytes_of "A=3"], [bytes_of "A=6"; bytes_of "C=4"]. split_and!; [by vm_compute|done|done|].
    rewrite Hg; [by vm_compute|]. apply (bool_decide_unpack (61 ∉ bytes_of "A")). by vm_compute.
Defined.

(** ** Where the code does not do what it says *)

(** [strv_env_replace] passes the new entry to [strv_env_unset], not its name: of the
    other assignments to the variable only those to the same value are dropped, and
    since the last one counts the variable keeps its old value. *)
Example replace_keeps_others :
  strv_env_replace [bytes_of "A=1"; bytes_of "B=2"; bytes_of "A=3"] (bytes_of "A=4") =
    Some (0, [bytes_of "A=4"; bytes_of "B=2"; bytes_of "A=3"]) ∧
  strv_env_get [] [bytes_of "A=4"; bytes_of "B=2"; bytes_of "A=3"] (bytes_of "A") = Some (bytes_of "3").
Proof. by vm_compute. Qed.

(** A valid assignment is dropped when a later one to the same variable follows, which is
    then dropped itself if it is invalid: nothing is left of the variable. *)
Example clean_loses_variable :
  strv_env_clean_with_callback 2097152 [bytes_of "A=1"; bytes_of "A=" ++ [1]] = Some ([], [bytes_of "A=" ++ [1]]).
Proof. by vm_compute. Qed.

(** An entry that is only a name overrides the first entry that starts with its letters,
    and so does the empty string with any entry. *)
Example merge_prefix : strv_env_merge [[bytes_of "PATH=/bin"; bytes_of "B=2"]; [bytes_of "PA"]; [[]]] = Some [[]; bytes_of "B=2"].
Proof. by vm_compute. Qed.
