(* ===== verification/EnvExpand.v ===== *)
(** * systemd: expansion of variables

    What [replace_env] and [replace_env_argv] of [EnvUtil] make of a text: they return
    for every text, and a text that is put together from the forms of the syntax is
    replaced piece by piece. *)

From Stdlib Require Import String.
From S2P Require Import Prelude Hexdecoct Utf8 Utf8Props Escape StringUtil UnitName ExtractWord EnvUtil EnvUtilProps.

#[local] Open Scope Z_scope.
#[local] Set Warnings "-clear-no-such-hyp".

(** ** Termination *)

Section Total.
Context (environ env : list (list Z)) (flags : ReplaceFlags).

(** Some states are entered only when the flags allow them; the word is part of what was
    read. *)
Definition vars_ok (n : nat) (v : replace_vars) : Prop :=
  (length (word v) ≤ n)%nat ∧
  match state v with
  | VARIABLE_RAW => REPLACE_ENV_ALLOW_BRACELESS flags = true
  | TEST | DEFAULT_VALUE | ALTERNATE_VALUE => REPLACE_ENV_ALLOW_EXTENDED flags = true
  | _ => True
  end.

(** Closes a branch that is a plain assignment to the variables. *)
Ltac settle := eexists; split; [reflexivity|]; split; cbn [word state test_value length]; [first [done|by rewrite ?length_app, ?length_drop; simpl; lia]|by repeat case_match].

Lemma round_total rec n v e : (∀ t, (length t < S n)%nat → is_Some (rec t)) → vars_ok n v →
  ∃ v', replace_round environ env flags rec v e = Some v' ∧ vars_ok (S n) v'.
Proof.
  intros Hrec [Hw Hs]. destruct v as [st r0 w ne le tv]. cbn [word state test_value] in *.
  unfold replace_round, word_round. cbn [word state test_value r nest len].
  assert (is_Some (rec (drop tv w))) as [t Et] by (apply Hrec; rewrite length_drop; lia).
  destruct st; [settle|..].
  - destruct (e =? 123); [settle|]. destruct (e =? 36); [settle|].
    destruct (REPLACE_ENV_ALLOW_BRACELESS flags && _) eqn:E; [|settle]. apply andb_true_iff in E as [E _]. settle.
  - destruct (e =? 125); [settle|]. destruct (e =? 58); [|settle]. destruct (REPLACE_ENV_ALLOW_EXTENDED flags) eqn:E; settle.
  - rewrite Hs. cbn [negb]. destruct (strchr _ _); cbn [negb]; settle.
  - destruct (e =? 45); [settle|]. destruct (e =? 43); settle.
  - rewrite Hs. cbn [negb]. destruct (e =? 123); [settle|]. destruct (e =? 125); cbn [negb]; [|settle].
    destruct (ne - 1 =? 0); [|settle]. destruct (strv_env_get_n _ _ _ _ _); cbn; rewrite ?Et; settle.
  - rewrite Hs. cbn [negb]. destruct (e =? 123); [settle|]. destruct (e =? 125); cbn [negb]; [|settle].
    destruct (ne - 1 =? 0); [|settle]. destruct (strv_env_get_n _ _ _ _ _); cbn; rewrite ?Et; settle.
Qed.

Lemma loop_total rec text : ∀ n v, (∀ t, (length t < n + length text)%nat → is_Some (rec t)) → vars_ok n v →
  is_Some (replace_loop environ env flags rec v text).
Proof.
  induction text as [|e text IH]; intros n v Hrec Hv; cbn [replace_loop].
  - destruct Hv as [_ Hs]. case_decide as E; [|by eexists]. rewrite E in Hs. rewrite Hs. by eexists.
  - cbn [length] in Hrec. destruct (round_total rec n v e) as (v' & -> & Hv'); [intros; apply Hrec; lia|done|]. cbn [mbind option_bind].
    apply (IH (S n)); [|done]. intros t Ht. apply Hrec. lia.
Qed.

Lemma text_total fuel : ∀ text, (length text < fuel)%nat → is_Some (replace_text environ env flags fuel text).
Proof.
  induction fuel as [|fuel IH]; intros text Hl; [lia|]. cbn [replace_text]. apply (loop_total _ _ 0); [|by split].
  intros t Ht. apply IH. lia.
Qed.

(** More fuel changes nothing. *)
Lemma loop_mono (rec rec' : list Z → option (list Z)) text : (∀ t x, rec t = Some x → rec' t = Some x) → ∀ v x,
  replace_loop environ env flags rec v text = Some x → replace_loop environ env flags rec' v text = Some x.
Proof.
  intros Hrec. induction text as [|e text IH]; intros v x; cbn [replace_loop]; [done|].
  assert (∀ v', replace_round environ env flags rec v e = Some v' → replace_round environ env flags rec' v e = Some v') as Hr.
  { intros v'. unfold replace_round. destruct (state v); try done;
      (destruct (negb _); [done|]; destruct (e =? 123); [done|]; destruct (negb _); [done|]; destruct (_ =? 0); [|done]);
      destruct (strv_env_get_n _ _ _ _ _); cbn; try done;
      (destruct (rec (drop _ _)) as [y|] eqn:E; [|done]); by rewrite (Hrec _ _ E). }
  destruct (replace_round environ env flags rec v e) as [v'|]; [|done]. rewrite (Hr v' eq_refl). cbn [mbind option_bind]. apply IH.
Qed.

Lemma text_mono fuel : ∀ fuel' text x, (fuel ≤ fuel')%nat → replace_text environ env flags fuel text = Some x → replace_text environ env flags fuel' text = Some x.
Proof.
  induction fuel as [|fuel IH]; intros [|fuel'] text x Hf; cbn [replace_text]; [done..|lia|].
  apply loop_mono. intros t y. apply IH. lia.
Qed.

End Total.

(** ** Texts in the syntax of the expansion *)

(** Literal text, [$$], a dollar sign before something that is no variable, [${NAME}],
    [$NAME], and [${NAME:-TEXT}] or [${NAME:+TEXT}]. *)
Inductive template :=
  | Done
  | Lit (s : list Z) (t : template)
  | Dollar (t : template)
  | Plain (c : Z) (t : template)
  | Var (name : list Z) (t : template)
  | Raw (name : list Z) (t : template)
  | Ext (alternate : bool) (name : list Z) (text : template) (t : template).

Fixpoint print (t : template) : list Z :=
  match t with
  | Done => []
  | Lit s t => s ++ print t
  | Dollar t => 36 :: 36 :: print t
  | Plain c t => 36 :: c :: print t
  | Var name t => 36 :: 123 :: name ++ 125 :: print t
  | Raw name t => 36 :: name ++ print t
  | Ext alternate name text t => 36 :: 123 :: name ++ 58 :: (if alternate then 43 else 45) :: print text ++ 125 :: print t
  end.

Fixpoint has_ext (t : template) : bool :=
  match t with
  | Done => false
  | Lit _ t | Dollar t | Plain _ t | Var _ t | Raw _ t => has_ext t
  | Ext _ _ _ _ => true
  end.

Definition is_name (n : list Z) : Prop := n ≠ [] ∧ Forall (.∈ VALID_CHARS_ENV_NAME) n.

Definition no_brace (c : Z) : Prop := c ≠ 123 ∧ c ≠ 125.

Section Templates.
Context (environ env : list (list Z)) (flags : ReplaceFlags).

(** The value of a variable: the last assignment of the block, or that of the process. *)
Definition value (name : list Z) : option (list Z) :=
  match env_map env !! name with
  | Some v => Some v
  | None => if REPLACE_ENV_USE_ENVIRONMENT flags then getenv environ name else None
  end.

Fixpoint eval (t : template) : list Z :=
  match t with
  | Done => []
  | Lit s t => s ++ eval t
  | Dollar t => 36 :: eval t
  | Plain c t => 36 :: c :: eval t
  | Var name t | Raw name t => default [] (value name) ++ eval t
  | Ext alternate name text t =>
      match value name with
      | Some v => if alternate then eval text else v
      | None => if alternate then [] else eval text
      end ++ eval t
  end.

(** The same, but behind a [${NAME}] ([seen]) a default or alternative value is not
    recognized, and the text is copied from there on. *)
Fixpoint eval_code (seen : bool) (t : template) : list Z :=
  match t with
  | Done => []
  | Lit s t => s ++ eval_code seen t
  | Dollar t => 36 :: eval_code seen t
  | Plain c t => 36 :: c :: eval_code seen t
  | Var name t => default [] (value name) ++ eval_code true t
  | Raw name t => default [] (value name) ++ eval_code seen t
  | Ext alternate name text t' =>
      if seen then print t
      else match value name with
           | Some v => if alternate then eval_code false text else v
           | None => if alternate then [] else eval_code false text
           end ++ eval_code seen t'
  end.

(** No default or alternative value behind a [${NAME}] of the same text. *)
Fixpoint ordered (t : template) : Prop :=
  match t with
  | Done => True
  | Lit _ t | Dollar t | Plain _ t | Raw _ t => ordered t
  | Var _ t => has_ext t = false ∧ ordered t
  | Ext _ _ text t => ordered text ∧ ordered t
  end.

Lemma eval_code_plain seen t : has_ext t = false → eval_code seen t = eval t.
Proof. revert seen. induction t; intros seen; cbn; try done; intros; f_equal; auto; f_equal; auto. Qed.

Lemma eval_code_ordered t : ordered t → eval_code false t = eval t.
Proof.
  induction t as [|s t IH|t IH|c t IH|n t IH|n t IH|alt n u IHu t IH]; cbn; try done; intros H; try (by rewrite IH).
  - destruct H as [H _]. by rewrite eval_code_plain.
  - destruct H as [Hu H]. by rewrite IH, IHu.
Qed.

(** [nested] says that the text is that of a value, in which braces are counted. *)
Fixpoint wf (nested : bool) (t : template) : Prop :=
  match t with
  | Done => True
  | Lit s t => (36 ∉ s) ∧ (nested = true → Forall no_brace s) ∧ wf nested t
  | Dollar t => wf nested t
  | Plain c t => c ≠ 36 ∧ c ≠ 123 ∧ (nested = true → c ≠ 125) ∧
      REPLACE_ENV_ALLOW_BRACELESS flags && strchr VALID_CHARS_ENV_NAME c = false ∧ wf nested t
  | Var name t => is_name name ∧ wf nested t
  | Raw name t => REPLACE_ENV_ALLOW_BRACELESS flags = true ∧ is_name name ∧
      match print t with [] => True | c :: _ => strchr VALID_CHARS_ENV_NAME c = false end ∧ wf nested t
  | Ext _ name text t => REPLACE_ENV_ALLOW_EXTENDED flags = true ∧ is_name name ∧ wf true text ∧ wf nested t
  end.

Lemma name_char c : c ∈ VALID_CHARS_ENV_NAME → strchr VALID_CHARS_ENV_NAME c = true ∧ c ≠ 36 ∧ c ≠ 58 ∧ c ≠ 61 ∧ no_brace c.
Proof.
  intros Hc. split; [unfold strchr; by rewrite bool_decide_eq_true_2|].
  assert (Forall (λ c, c ≠ 36 ∧ c ≠ 58 ∧ c ≠ 61 ∧ no_brace c) VALID_CHARS_ENV_NAME) as H; [|rewrite Forall_forall in H; by apply H].
  apply (bool_decide_unpack _). by vm_compute.
Qed.

Lemma name_no_equals n : is_name n → 61 ∉ n.
Proof. intros [_ Hn] H. rewrite Forall_forall in Hn. by apply Hn, name_char in H as (_ & _ & _ & ? & _). Qed.

Lemma get_value n x : is_name n → strv_env_get_n environ env (n ++ x) (length n) flags = value n.
Proof.
  intros Hn. pose proof (name_no_equals n Hn) as He. destruct Hn as [Hn _]. unfold strv_env_get_n, value.
  rewrite take_app_length. assert (get_backwards env (n ++ x) (length n) = get_backwards env n (length n)) as ->.
  { clear Hn He. induction env as [|e l IH]; [done|]. cbn [get_backwards]. rewrite IH. unfold strneq. by rewrite take_app_length, firstn_all. }
  rewrite get_backwards_spec by done. destruct n; [done|]. by destruct (env_map env !! _).
Qed.

Section Scan.
Context (rec : list Z → option (list Z)).
#[local] Abbreviation loop := (replace_loop environ env flags rec).

Lemma scan_word s q rr w ne le tv : 36 ∉ s → loop (mk_vars WORD rr w ne le tv) (s ++ q) = loop (mk_vars WORD rr (w ++ s) ne le tv) q.
Proof.
  revert w. induction s as [|c s IH]; intros w Hs; [by rewrite app_nil_r|]. apply not_elem_of_cons in Hs as [Hc Hs].
  cbn [app replace_loop replace_round state mbind option_bind]. unfold word_round. cbn [r word nest len test_value].
  rewrite (proj2 (Z.eqb_neq c 36)), IH by done. by rewrite <- app_assoc.
Qed.

Lemma scan_name n q rr w ne le tv : Forall (.∈ VALID_CHARS_ENV_NAME) n →
  loop (mk_vars VARIABLE rr w ne le tv) (n ++ q) = loop (mk_vars VARIABLE rr (w ++ n) ne le tv) q.
Proof.
  intros Hn. revert w. induction Hn as [|c n Hc _ IH]; intros w; [by rewrite app_nil_r|].
  apply name_char in Hc as (_ & _ & H58 & _ & _ & H125).
  cbn [app replace_loop]. unfold replace_round. cbn [state r word nest len test_value mbind option_bind].
  rewrite (proj2 (Z.eqb_neq c 125)), (proj2 (Z.eqb_neq c 58)) by done. cbn [mbind option_bind]. rewrite IH. by rewrite <- app_assoc.
Qed.

Lemma scan_raw n q rr w ne le tv : REPLACE_ENV_ALLOW_BRACELESS flags = true → Forall (.∈ VALID_CHARS_ENV_NAME) n →
  loop (mk_vars VARIABLE_RAW rr w ne le tv) (n ++ q) = loop (mk_vars VARIABLE_RAW rr (w ++ n) ne le tv) q.
Proof.
  intros Hb Hn. revert w. induction Hn as [|c n Hc _ IH]; intros w; [by rewrite app_nil_r|].
  apply name_char in Hc as (Hc & _).
  cbn [app replace_loop]. unfold replace_round. cbn [state r word nest len test_value mbind option_bind].
  rewrite Hb, Hc. cbn [negb mbind option_bind]. rewrite IH. by rewrite <- app_assoc.
Qed.

(** The states in which the text of a value is passed over. *)
Definition passing (st : replace_state) : Prop := st = DEFAULT_VALUE ∨ st = ALTERNATE_VALUE.

Context (Hext : REPLACE_ENV_ALLOW_EXTENDED flags = true).

Lemma pass_char st c q rr w ne le tv : passing st → no_brace c →
  loop (mk_vars st rr w ne le tv) (c :: q) = loop (mk_vars st rr (w ++ [c]) ne le tv) q.
Proof.
  intros [-> | ->] [H1 H2]; cbn [replace_loop]; unfold replace_round; cbn [state r word nest len test_value];
    by rewrite Hext, (proj2 (Z.eqb_neq c 123)), (proj2 (Z.eqb_neq c 125)) by done.
Qed.

Lemma pass_open st q rr w ne le tv : passing st → loop (mk_vars st rr w ne le tv) (123 :: q) = loop (mk_vars st rr (w ++ [123]) (ne + 1) le tv) q.
Proof. intros [-> | ->]; cbn [replace_loop]; unfold replace_round; cbn [state r word nest len test_value]; by rewrite Hext. Qed.

Lemma pass_close st q rr w ne le tv : passing st → ne ≠ 1 → loop (mk_vars st rr w ne le tv) (125 :: q) = loop (mk_vars st rr (w ++ [125]) (ne - 1) le tv) q.
Proof.
  intros [-> | ->] Hne; cbn [replace_loop]; unfold replace_round; cbn [state r word nest len test_value]; rewrite Hext, (proj2 (Z.eqb_neq (ne - 1) 0)) by lia; done.
Qed.

Lemma pass_chars st s q rr w ne le tv : passing st → Forall no_brace s →
  loop (mk_vars st rr w ne le tv) (s ++ q) = loop (mk_vars st rr (w ++ s) ne le tv) q.
Proof.
  intros Hst Hs. revert w. induction Hs as [|c s Hc _ IH]; intros w; [by rewrite app_nil_r|].
  cbn [app]. rewrite pass_char, IH by done. by rewrite <- app_assoc.
Qed.

Lemma name_no_brace n : is_name n → Forall no_brace n.
Proof. intros [_ Hn]. eapply Forall_impl; [exact Hn|]. by intros c (_ & _ & _ & _ & ?)%name_char. Qed.

Lemma pass_text st t : passing st → ∀ q rr w ne le tv, wf true t → 1 ≤ ne →
  loop (mk_vars st rr w ne le tv) (print t ++ q) = loop (mk_vars st rr (w ++ print t) ne le tv) q.
Proof.
  intros Hst. assert (no_brace 36 ∧ no_brace 58 ∧ no_brace 43 ∧ no_brace 45) as (H36 & H58 & H43 & H45) by (unfold no_brace; lia).
  induction t as [|s t IH|t IH|c t IH|n t IH|n t IH|alt n u IHu t IH]; intros q rr w ne le tv Hwf Hne; cbn [wf print] in *.
  - by rewrite app_nil_r.
  - destruct Hwf as (_ & Hs & Hwf). rewrite <- app_assoc, pass_chars, IH by auto. by rewrite <- app_assoc.
  - cbn [app]. rewrite !pass_char, IH by done. by rewrite <- !app_assoc.
  - destruct Hwf as (_ & H1 & H2 & _ & Hwf). assert (no_brace c) by (split; auto). cbn [app]. rewrite !pass_char, IH by done. by rewrite <- !app_assoc.
  - destruct Hwf as (Hn & Hwf). pose proof (name_no_brace n Hn). cbn [app]. rewrite pass_char, pass_open, <- (app_assoc n) by done.
    rewrite pass_chars by done. cbn [app]. rewrite pass_close by (try done; lia).
    replace (ne + 1 - 1) with ne by lia. rewrite IH by done. by rewrite <- !app_assoc.
  - destruct Hwf as (_ & Hn & _ & Hwf). pose proof (name_no_brace n Hn). cbn [app]. rewrite pass_char, <- (app_assoc n) by done.
    rewrite pass_chars by done. rewrite IH by done. by rewrite <- !app_assoc.
  - destruct Hwf as (_ & Hn & Hu & Hwf). pose proof (name_no_brace n Hn). cbn [app]. rewrite pass_char, pass_open, <- (app_assoc n) by done.
    rewrite pass_chars by done. cbn [app]. rewrite pass_char by done.
    rewrite pass_char by (try done; by destruct alt). rewrite <- (app_assoc (print u)), IHu by (try done; lia). cbn [app]. rewrite pass_close by (try done; lia).
    replace (ne + 1 - 1) with ne by lia. rewrite IH by done. by rewrite <- !app_assoc.
Qed.

End Scan.

(** ** Expansion of a template *)

Section Expand.
Context (rec : list Z → option (list Z)) (N : nat).
Context (Hrec : ∀ t, wf true t → (length (print t) < N)%nat → rec (print t) = Some (eval_code false t)).
#[local] Abbreviation loop := (replace_loop environ env flags rec).

Lemma last_part (w : list Z) c : take (length (w ++ [c]) - 1) (w ++ [c]) = w ∧ drop (length (w ++ [c]) - 1) (w ++ [c]) = [c].
Proof. rewrite length_app. cbn [length]. rewrite Nat.add_sub. by rewrite take_app_length, drop_app_length. Qed.

Lemma drop_open (n : list Z) : drop 2 ([36; 123]%Z ++ n) = n ∧ (length ([36; 123]%Z ++ n) - 2)%nat = length n.
Proof. split; [done|]. simpl. lia. Qed.

Lemma drop_dollar (n : list Z) : drop 1 ([36]%Z ++ n) = n ∧ (length ([36]%Z ++ n) - 1)%nat = length n.
Proof. split; [done|]. simpl. lia. Qed.

Lemma enter_dollar q rr w ne le tv : loop (mk_vars WORD rr w ne le tv) (36 :: q) = loop (mk_vars CURLY rr (w ++ [36]) ne le tv) q.
Proof. done. Qed.

(** A variable in braces, up to the end of its name. *)
Lemma enter_curly n q rr w ne le tv : is_name n →
  loop (mk_vars WORD rr w ne le tv) (36 :: 123 :: n ++ q) = loop (mk_vars VARIABLE (Some (default [] rr ++ w)) ([36; 123] ++ n) (ne + 1) le tv) q.
Proof.
  intros [_ Hn]. rewrite enter_dollar. cbn [replace_loop]. unfold replace_round, strnappend. cbn [state r word nest len test_value mbind option_bind Z.eqb Pos.eqb].
  destruct (last_part w 36) as [-> ->]. by rewrite scan_name.
Qed.

Lemma leave_variable n q rr ne le tv : is_name n →
  loop (mk_vars VARIABLE (Some rr) ([36; 123] ++ n) ne le tv) (125 :: q) = loop (mk_vars WORD (Some (rr ++ default [] (value n))) [] ne le tv) q.
Proof.
  intros Hn. cbn [replace_loop]. unfold replace_round. cbn [state r word nest len test_value mbind option_bind Z.eqb Pos.eqb strjoin2].
  destruct (drop_open n) as [-> ->].
  rewrite <- (get_value n []) by done. by rewrite app_nil_r.
Qed.

(** The value of a variable without braces is put at the end of its name, where the
    character behind it is looked at again. *)
Lemma leave_raw n q rr ne le tv : REPLACE_ENV_ALLOW_BRACELESS flags = true → is_name n →
  match q with [] => True | c :: _ => strchr VALID_CHARS_ENV_NAME c = false end →
  loop (mk_vars VARIABLE_RAW (Some rr) ([36] ++ n) ne le tv) q = loop (mk_vars WORD (Some (rr ++ default [] (value n))) [] ne le tv) q.
Proof.
  intros Hb Hn Hq. pose proof (get_value n [] Hn) as Hg. rewrite app_nil_r in Hg.
  destruct q as [|c q]; cbn [replace_loop]; unfold replace_round; cbn [state r word nest len test_value mbind option_bind].
  - rewrite decide_True, decide_False, Hb by done. cbn [negb]. destruct (drop_dollar n) as [-> ->].
    rewrite Hg. unfold strnappend. cbn. by rewrite app_nil_r.
  - rewrite Hb, Hq. cbn [negb mbind option_bind]. destruct (drop_dollar n) as [-> ->]. by rewrite Hg.
Qed.

(** The state for the text of a value and the character before it. *)
Definition value_state (alt : bool) : replace_state := if alt then ALTERNATE_VALUE else DEFAULT_VALUE.
Definition value_char (alt : bool) : Z := if alt then 43 else 45.

Lemma enter_value alt n q rr ne le tv : REPLACE_ENV_ALLOW_EXTENDED flags = true →
  loop (mk_vars VARIABLE rr ([36; 123] ++ n) ne le tv) (58 :: value_char alt :: q) =
  loop (mk_vars (value_state alt) rr (([36; 123] ++ n) ++ [58; value_char alt]) ne (length n) (length (([36; 123] ++ n) ++ [58; value_char alt]))) q.
Proof.
  intros Hx. assert (length (([36; 123] ++ n) ++ [58; value_char alt]) = Nat.add (length (([36; 123] ++ n) ++ [58])) 1) as -> by (rewrite !length_app; simpl; lia).
  cbn [replace_loop]. unfold replace_round. cbn [state r word nest len test_value Z.eqb Pos.eqb]. rewrite Hx. cbn [negb mbind option_bind]. cbn [state r word nest len test_value].
  rewrite (proj2 (drop_open n)). replace (([36; 123]%Z ++ n) ++ [58; value_char alt]) with ((([36; 123]%Z ++ n) ++ [58]) ++ [value_char alt]) by by rewrite <- !app_assoc.
  by destruct alt.
Qed.

Lemma leave_value alt n u q rr : REPLACE_ENV_ALLOW_EXTENDED flags = true → is_name n → wf true u → (length (print u) < N)%nat →
  loop (mk_vars (value_state alt) (Some rr) (([36; 123] ++ n) ++ [58; value_char alt]) 1 (length n) (length (([36; 123] ++ n) ++ [58; value_char alt]))) (print u ++ 125 :: q) =
  loop (mk_vars WORD (Some (rr ++ match value n with Some v => if alt then eval_code false u else v | None => if alt then [] else eval_code false u end)) [] 0
    (length n) (length (([36; 123] ++ n) ++ [58; value_char alt]))) q.
Proof.
  intros Hx Hn Hu Hl. assert (passing (value_state alt)) by (destruct alt; [by right|by left]). rewrite pass_text by (done || lia).
  cbn [replace_loop]. unfold replace_round. cbn [state r word nest len test_value]. rewrite drop_app_length.
  replace (drop 2 ((([36; 123]%Z ++ n) ++ [58; value_char alt]) ++ print u)) with (n ++ [58; value_char alt] ++ print u) by by rewrite <- !app_assoc.
  rewrite get_value by done. rewrite Hx. destruct alt; cbn [value_state]; destruct (value n); cbn; by rewrite ?Hrec.
Qed.

Lemma expand_ext alt n u q rr w le tv : REPLACE_ENV_ALLOW_EXTENDED flags = true → is_name n → wf true u → (length (print u) < N)%nat →
  ∃ le' tv', loop (mk_vars WORD rr w 0 le tv) (36 :: 123 :: n ++ 58 :: value_char alt :: print u ++ 125 :: q) =
    loop (mk_vars WORD (Some ((default [] rr ++ w) ++ match value n with Some v => if alt then eval_code false u else v | None => if alt then [] else eval_code false u end)) [] 0 le' tv') q.
Proof. intros. rewrite enter_curly, enter_value, leave_value by done. by eexists _, _. Qed.

(** Behind a [${NAME}]: the count of braces does not come down to 0 again. *)
Lemma expand_seen alt n u t rr w ne le tv : REPLACE_ENV_ALLOW_EXTENDED flags = true → is_name n → wf true u → wf true t → 1 ≤ ne →
  loop (mk_vars WORD rr w ne le tv) (print (Ext alt n u t)) = Some (default [] rr ++ w ++ print (Ext alt n u t)).
Proof.
  intros Hx Hn Hu Ht Hne. cbn [print]. fold (value_char alt). rewrite enter_curly, enter_value by done.
  assert (passing (value_state alt)) as Hst by (destruct alt; [by right|by left]).
  rewrite pass_text by (done || lia). rewrite pass_close by (done || lia).
  rewrite <- (app_nil_r (print t)) at 1. rewrite pass_text by (done || lia). cbn [replace_loop state].
  rewrite decide_False by (by destruct alt). unfold strnappend. cbn [r word default from_option id]. rewrite firstn_all.
  f_equal. rewrite <- !app_assoc. done.
Qed.

Lemma expand_loop nested t : ∀ rr w ne le tv, wf nested t → (nested = true ∨ ((ne = 0 ∨ has_ext t = false) ∧ ordered t)) → 0 ≤ ne → (length (print t) ≤ N)%nat →
  loop (mk_vars WORD rr w ne le tv) (print t) = Some (default [] rr ++ w ++ eval_code (bool_decide (ne ≠ 0)) t).
Proof.
  induction t as [|s t IH|t IH|c t IH|n t IH|n t IH|alt n u _ t IH]; intros rr w ne le tv Hwf Ho Hne Hl; cbn [wf print eval_code has_ext ordered length] in *; rewrite ?length_app in Hl; cbn [length] in Hl.
  - cbn [replace_loop state]. rewrite decide_False by done. unfold strnappend. cbn [r word]. by rewrite firstn_all, app_nil_r.
  - destruct Hwf as (Hs & _ & Hwf). rewrite scan_word, IH by (try done; lia). by rewrite <- app_assoc.
  - rewrite enter_dollar. cbn [replace_loop]. unfold replace_round, strnappend. cbn [state r word nest len test_value mbind option_bind Z.eqb Pos.eqb].
    rewrite firstn_all, IH by (try done; lia). cbn [default from_option id app]. by rewrite <- !app_assoc.
  - destruct Hwf as (H36 & H123 & _ & Hc & Hwf). rewrite enter_dollar. cbn [replace_loop]. unfold replace_round. cbn [state r word nest len test_value].
    rewrite (proj2 (Z.eqb_neq c 123)), (proj2 (Z.eqb_neq c 36)), Hc by done. cbn [mbind option_bind]. rewrite IH by (try done; lia). by rewrite <- !app_assoc.
  - destruct Hwf as (Hn & Hwf). rewrite enter_curly, leave_variable by done. rewrite IH; [|done|destruct Ho as [?|(_ & ? & ?)]; [by left|right; split; [by right|done]]|lia|lia].
    rewrite bool_decide_eq_true_2 by lia. cbn [default from_option id app]. by rewrite <- !app_assoc.
  - destruct Hwf as (Hb & Hn & Hq & Hwf). pose proof Hn as [Hne' Hv]. destruct n as [|c n]; [done|]. pose proof Hv as [Hc Hv']%Forall_cons. apply name_char in Hc as (Hc & H36 & _ & _ & H123 & _).
    rewrite enter_dollar. cbn [app replace_loop]. unfold replace_round, strnappend. cbn [state r word nest len test_value].
    rewrite (proj2 (Z.eqb_neq c 123)), (proj2 (Z.eqb_neq c 36)), Hb, Hc by done. cbn [andb mbind option_bind]. destruct (last_part w 36) as [-> ->].
    rewrite scan_raw by done. rewrite <- (app_assoc [36] [c] n). cbn [app] in Hl. rewrite (leave_raw (c :: n)), IH by (try done; lia). cbn [default from_option id app]. by rewrite <- !app_assoc.
  - destruct Hwf as (Hx & Hn & Hu & Hwf). case_bool_decide as H0.
    { destruct Ho as [->|[[?|?] _]]; [|done..]. fold (print (Ext alt n u t)). by apply expand_seen; try done; lia. }
    assert (ne = 0) as -> by lia. fold (value_char alt). rewrite ?length_app in Hl. cbn [length] in Hl.
    destruct (expand_ext alt n u (print t) rr w le tv) as (le' & tv' & ->); try done; [lia|].
    rewrite IH; [|done|destruct Ho as [?|(_ & _ & ?)]; [by left|right; split; [by left|done]]|lia|lia]. cbn [default from_option id app]. by rewrite <- !app_assoc.
Qed.

End Expand.

Lemma expand_text fuel : ∀ nested t, wf nested t → (nested = true ∨ ordered t) → (length (print t) < fuel)%nat →
  replace_text environ env flags fuel (print t) = Some (eval_code false t).
Proof.
  induction fuel as [|fuel IH]; intros nested t Hwf Ho Hl; [lia|]. cbn [replace_text].
  rewrite (expand_loop _ fuel) with (nested := nested); [done| |done|destruct Ho; [by left|right; split; [by left|done]]|lia|lia].
  intros u Hu Hlu. apply (IH true); [done|by left|done].
Qed.

End Templates.

(** ** Command lines *)

Lemma split_ok fuel : ∀ s l, match s with Some p => cstring p ∧ (length p + 2 ≤ fuel)%nat | None => (1 ≤ fuel)%nat end →
  ∃ ws, split_loop WHITESPACE argv_flags fuel s l = Some (Z.of_nat (length (l ++ ws)), l ++ ws) ∧ Forall cstring ws.
Proof.
  induction fuel as [|fuel IH]; intros [p|] l Hs; [lia|lia|..]; cbn [split_loop].
  2:{ exists []. by rewrite app_nil_r. }
  destruct Hs as [Hp Hf]. destruct (extract_ok WHITESPACE argv_flags p Hp) as (x & -> & [(-> & _)|H]); [exists []; by rewrite app_nil_r|].
  destruct H as [s Hs|s q Hs Hq Hlq|q _ Hlen]; [| |done]; cbn [mbind option_bind].
  - destruct (IH None (l ++ [s])) as (ws & E & Hws); [lia|]. exists (s :: ws). cbn. rewrite E, <- app_assoc. split; [done|by constructor].
  - destruct (IH (Some q) (l ++ [s])) as (ws & E & Hws).
    { split; [|lia]. destruct Hq as [u ->]. by apply Forall_app in Hp as [_ ?]. }
    exists (s :: ws). cbn. rewrite E, <- app_assoc. split; [done|by constructor].
Qed.

Lemma split_words s : cstring s → ∃ ws, strv_split_extract s WHITESPACE argv_flags = Some (Z.of_nat (length ws), ws) ∧ Forall cstring ws.
Proof. intros Hs. unfold strv_split_extract. destruct (split_ok (length s + 2) (Some s) []) as (ws & E & Hws); [by split|]. by exists ws. Qed.

Lemma get_cstring l name k v : Forall cstring l → get_backwards l name k = Some v → cstring v.
Proof.
  induction 1 as [|i l Hi _ IH]; cbn [get_backwards]; [done|]. destruct (get_backwards l name k); [done|]. destruct (_ && _); [|done].
  intros [= <-]. by apply Forall_drop.
Qed.

(** What a word of the command line becomes: [$NAME] as a whole word is replaced by the
    words of the variable, and in any other word variables are replaced in place. *)
Definition whole_word (i : list Z) : bool := (default 0 (i !! 0%nat) =? 36) && negb (bool_decide (default 0 (i !! 1%nat) ∈ [123; 36])).

Definition argument_words (environ env : list (list Z)) (i : list Z) : list (list Z) :=
  if whole_word i then
    match strv_env_get environ env (drop 1 i) with
    | Some e => from_option snd [] (strv_split_extract e WHITESPACE argv_flags)
    | None => []
    end
  else option_list (replace_env environ i env (mk_replace false false false)).

Lemma argv_loop_ok environ env argv : Forall cstring env → ∀ l ret, (length ret + length argv ≤ l)%nat →
  argv_loop environ argv env l ret = Some (Some (ret ++ (argv ≫= argument_words environ env))).
Proof.
  intros He. induction argv as [|i argv IH]; intros l ret Hl; cbn [argv_loop mbind list_bind length] in *.
  { rewrite (proj2 (Nat.ltb_lt _ _)) by lia. by rewrite app_nil_r. }
  unfold argument_words at 1. fold (whole_word i). destruct (whole_word i).
  - assert (∃ n ws, match strv_env_get environ env (drop 1 i) with Some e => strv_split_extract e WHITESPACE argv_flags | None => Some (0, []) end = Some (n, ws) ∧ 0 ≤ n ∧
      match strv_env_get environ env (drop 1 i) with Some e => from_option snd [] (strv_split_extract e WHITESPACE argv_flags) | None => [] end = ws) as (n & ws & -> & Hn & ->).
    { unfold strv_env_get, strv_env_get_n. destruct (_ <=? 0)%nat; [by exists 0, []|].
      destruct (get_backwards env _ _) as [v|] eqn:E; [|by exists 0, []]. destruct (split_words v) as (ws & -> & _); [by eapply get_cstring|]. eexists _, ws. split_and!; [done|lia|done]. }
    cbn [mbind option_bind]. rewrite (proj2 (Z.ltb_ge _ _)) by done. rewrite (proj2 (Nat.leb_le _ _)) by lia.
    rewrite IH by (rewrite length_app; lia). by rewrite <- app_assoc.
  - destruct (text_total environ env (mk_replace false false false) (S (length i)) i) as [e E]; [lia|].
    assert (replace_env environ i env (mk_replace false false false) = Some e) as -> by (unfold replace_env, replace_env_n; by rewrite firstn_all).
    cbn [mbind option_bind option_list]. rewrite (proj2 (Nat.ltb_lt _ _)) by lia. rewrite IH by (rewrite length_app; simpl; lia). by rewrite <- app_assoc.
Qed.

(** ** The theorems *)



(** [replace_env_argv] returns a list for every command line and every block of C strings
    and writes inside its array, which it makes larger or smaller on the way: the words
    that each argument becomes, one after the other. *)
Theorem replace_env_argv_words environ argv env : Forall cstring env →
  replace_env_argv environ argv env = Some (Some (argv ≫= argument_words environ env)).
Proof. intros He. unfold replace_env_argv. by rewrite argv_loop_ok by (simpl; lia || done). Qed.

Example argv_example :
  replace_env_argv [] (bytes_of <$> ["/bin/echo"; "$FOO"; "$NONE"; "$$HOME"; "${FOO} x"; "$"]%string) [bytes_of "FOO='a b'  c"] =
    Some (Some (bytes_of <$> ["/bin/echo"; "a b"; "c"; "$HOME"; "'a b'  c x"]%string)).
Proof. by vm_compute. Qed.

(** The counter of braces is not taken back at the end of [${NAME}]: behind one, the end of
    a default value is not recognized, and it is copied as it is. *)
Example default_after_variable :
  replace_env [] (bytes_of "${A}${B:-x}") [bytes_of "A=1"] (mk_replace false true true) = Some (bytes_of "1${B:-x}") ∧
  replace_env [] (bytes_of "${B:-x}${A}") [bytes_of "A=1"] (mk_replace false true true) = Some (bytes_of "x1").
Proof. by vm_compute. Qed.
