(* ===== verification/SipHash.v ===== *)
(** * systemd: SipHash-2-4

    Models [src/app/multi_process/day1/systemd/src/basic/siphash24.c], the keyed
    hash behind the hash maps, and [unaligned_read_le64] of
    [src/basic/unaligned.h]. Words are [uint64_t]; the input is the list of its
    bytes, and [None] is a read behind it. The debugging output is not
    modelled. *)

From S2P Require Import Prelude.

#[local] Set Warnings "-clear-no-such-hyp".
#[local] Open Scope c_scope.
#[local] Open Scope Z_scope.

(** [struct siphash]. *)
Record siphash := Siphash { v0 : Z; v1 : Z; v2 : Z; v3 : Z; padding : Z; inlen : Z }.

(** Little-endian numbers. *)
Definition le (bs : list Z) : Z := foldr (λ b a, b + 256 * a) 0 bs.
Definition unaligned_read_le64 (p : list Z) : option Z :=
  if (8 <=? length p)%nat then Some (le (take 8 p)) else None.

(** Called with constants below 64 only, as the assertion asks. *)
Definition rotate_left (x b : Z) : Z := (x <<u64 b) |u64 (x >>u64 (64 - b)).

Definition sipround (state : siphash) : siphash :=
  let '(Siphash v0 v1 v2 v3 padding inlen) := state in
  let v0 := v0 +u64 v1 in
  let v1 := rotate_left v1 13 in
  let v1 := v1 ^u64 v0 in
  let v0 := rotate_left v0 32 in
  let v2 := v2 +u64 v3 in
  let v3 := rotate_left v3 16 in
  let v3 := v3 ^u64 v2 in
  let v0 := v0 +u64 v3 in
  let v3 := rotate_left v3 21 in
  let v3 := v3 ^u64 v0 in
  let v2 := v2 +u64 v1 in
  let v1 := rotate_left v1 17 in
  let v1 := v1 ^u64 v2 in
  let v2 := rotate_left v2 32 in
  Siphash v0 v1 v2 v3 padding inlen.

Definition siphash24_init (k : list Z) : option siphash :=
  k0 ← unaligned_read_le64 k;
  k1 ← unaligned_read_le64 (drop 8 k);
  Some (Siphash (0x736f6d6570736575 ^u64 k0) (0x646f72616e646f6d ^u64 k1)
                (0x6c7967656e657261 ^u64 k0) (0x7465646279746573 ^u64 k1) 0 0).

(** The two rounds on one word, as they are in the two places of
    [siphash24_compress] and in [siphash24_finalize]. *)
Definition absorb (m : Z) (state : siphash) : siphash :=
  let '(Siphash v0 v1 v2 v3 padding inlen) := state in
  let '(Siphash v0 v1 v2 v3 padding inlen) :=
    sipround (sipround (Siphash v0 v1 v2 (v3 ^u64 m) padding inlen)) in
  Siphash (v0 ^u64 m) v1 v2 v3 padding inlen.

(** [for ( ; in < end && left < 8; in ++, left ++)]: what is left of the input,
    [left] and the padding. *)
Fixpoint fill_padding (inp : list Z) (left padding : Z) : list Z * Z * Z :=
  match inp with
  | b :: inp' =>
      if left <? 8 then fill_padding inp' (left + 1) (padding |u64 (b <<u64 (left * 8)))
      else (inp, left, padding)
  | [] => (inp, left, padding)
  end.

(** [for ( ; in < end; in += 8)], with [end - in] as [avail]. *)
Fixpoint words_loop (fuel : nat) (inp : list Z) (avail : Z) (state : siphash) :
    option (list Z * siphash) :=
  if 0 <? avail then
    match fuel with
    | O => None
    | S fuel =>
        m ← unaligned_read_le64 inp;
        words_loop fuel (drop 8 inp) (avail - 8) (absorb m state)
    end
  else Some (inp, state).

(** The [switch]: the case [i] adds the byte [i - 1] and falls through. *)
Fixpoint switch_padding (left : nat) (inp : list Z) (padding : Z) : option Z :=
  match left with
  | O => Some padding
  | S i => b ← inp !! i; switch_padding i inp (padding |u64 (b <<u64 (8 * Z.of_nat i)))
  end.

Definition set_inlen (n : Z) (state : siphash) : siphash :=
  let '(Siphash v0 v1 v2 v3 padding _) := state in Siphash v0 v1 v2 v3 padding n.
Definition set_padding (p : Z) (state : siphash) : siphash :=
  let '(Siphash v0 v1 v2 v3 _ inlen) := state in Siphash v0 v1 v2 v3 p inlen.

(** From [end -= (state->inlen % sizeof(uint64_t))] on. *)
Definition compress_words (inp : list Z) (state : siphash) : option siphash :=
  '(inp, state) ← words_loop (length inp) inp
    (Z.of_nat (length inp) - inlen state mod 8) state;
  p ← switch_padding (Z.to_nat (Z.land (inlen state) 7)) inp (padding state);
  Some (set_padding p state).

Definition siphash24_compress (inp : list Z) (state : siphash) : option siphash :=
  let left := Z.land (inlen state) 7 in
  let state := set_inlen (inlen state +u64 Z.of_nat (length inp)) state in
  if 0 <? left then
    let '(inp, n, p) := fill_padding inp left (padding state) in
    let state := set_padding p state in
    if (length inp =? 0)%nat && (n <? 8) then Some state
    else compress_words inp (set_padding 0 (absorb p state))
  else compress_words inp state.

(** An [int] of four little-endian bytes. *)
Definition siphash24_compress_boolean (inp : bool) (state : siphash) : option siphash :=
  siphash24_compress [if inp then 1 else 0; 0; 0; 0] state.

Definition siphash24_finalize (state : siphash) : Z :=
  let b := padding state |u64 (inlen state <<u64 56) in
  let '(Siphash v0 v1 v2 v3 p n) := absorb b state in
  let '(Siphash v0 v1 v2 v3 _ _) :=
    sipround (sipround (sipround (sipround (Siphash v0 v1 (v2 ^u64 0xff) v3 p n)))) in
  v0 ^u64 v1 ^u64 v2 ^u64 v3.

Definition siphash24 (inp k : list Z) : option Z :=
  state ← siphash24_init k;
  state ← siphash24_compress inp state;
  Some (siphash24_finalize state).

(** The result of the test program. *)
Example siphash24_test :
  siphash24 (seqZ 0 15) (seqZ 0 16) = Some 0xa129ca6149be45e5.
Proof. by vm_compute. Qed.

(** ** The reference

    SipHash-2-4 of a whole message: its 8-byte words in order, then the
    remaining bytes with the length in the top byte. *)
Fixpoint blocks (n : nat) (m : list Z) (state : siphash) : siphash :=
  match n with
  | O => state
  | S n => blocks n (drop 8 m) (absorb (le (take 8 m)) state)
  end.

Definition full (m : list Z) : nat := (length m / 8)%nat.
Definition rest (m : list Z) : list Z := drop (8 * full m) m.

Definition siphash_reference (m k : list Z) : option Z :=
  state ← siphash24_init k;
  Some (siphash24_finalize
    (set_padding (le (rest m)) (set_inlen (Z.of_nat (length m) mod 2 ^ 64) (blocks (full m) m state)))).

(** ** Little-endian numbers *)

Lemma le_range bs : Forall is_byte bs → 0 <= le bs < 2 ^ (8 * Z.of_nat (length bs)).
Proof.
  induction 1 as [|b bs Hb _ IH]; [done|]. cbn [le foldr length]. unfold le, is_byte in *.
  rewrite Nat2Z.inj_succ, Z.mul_succ_r, Z.pow_add_r by lia. change (2 ^ 8) with 256. lia.
Qed.

Lemma le_app a b : le (a ++ b) = le a + 2 ^ (8 * Z.of_nat (length a)) * le b.
Proof.
  induction a as [|x a IH]; [unfold le; cbn [app foldr length]; lia|].
  unfold le in *. cbn [app foldr length]. rewrite IH, Nat2Z.inj_succ, Z.mul_succ_r, Z.pow_add_r by lia.
  change (2 ^ 8) with 256. lia.
Qed.

(** Adding a byte above a padding of [n] bytes. *)
Lemma or_byte p b n : is_byte b → 0 <= n < 8 → 0 <= p < 2 ^ (8 * n) →
  (p |u64 (b <<u64 (n * 8))) = p + 2 ^ (8 * n) * b.
Proof.
  unfold is_byte. intros Hb Hn Hp. rewrite Z.shiftl_mul_pow2 by lia.
  replace (n * 8) with (8 * n) by lia.
  assert (2 ^ (8 * n) * 256 <= 2 ^ 64).
  { change 256 with (2 ^ 8). rewrite <- Z.pow_add_r by lia. apply Z.pow_le_mono_r; lia. }
  rewrite wrapu_small by nia. rewrite Z.lor_comm, lor_add by lia. lia.
Qed.

Lemma fill_padding_spec inp : ∀ n p, Forall is_byte inp → 0 <= n <= 8 → 0 <= p < 2 ^ (8 * n) →
  let j := Nat.min (Z.to_nat (8 - n)) (length inp) in
  fill_padding inp n p = (drop j inp, n + Z.of_nat j, p + 2 ^ (8 * n) * le (take j inp)).
Proof.
  induction inp as [|b inp IH]; intros n p Hb Hn Hp; cbn [fill_padding length].
  { rewrite Nat.min_0_r. simpl. f_equal; [f_equal; lia|]. unfold le. simpl. lia. }
  apply Forall_cons in Hb as [Hb Hbs]. destruct (Z.ltb_spec n 8).
  - rewrite or_byte by (done || lia). rewrite IH; [|done|lia|].
    + assert (Nat.min (Z.to_nat (8 - n)) (S (length inp)) =
        S (Nat.min (Z.to_nat (8 - (n + 1))) (length inp))) as -> by lia.
      cbn [drop take]. unfold le. cbn [foldr]. f_equal; [f_equal; lia|].
      replace (8 * (n + 1)) with (8 * n + 8) by lia. rewrite Z.pow_add_r by lia.
      change (2 ^ 8) with 256. lia.
    + replace (8 * (n + 1)) with (8 * n + 8) by lia. rewrite Z.pow_add_r by lia.
      change (2 ^ 8) with 256. unfold is_byte in Hb. nia.
  - assert (n = 8) as -> by lia. rewrite Nat.min_0_l. simpl. unfold le. simpl. f_equal. lia.
Qed.

Lemma switch_padding_spec n inp : ∀ p, Forall is_byte inp → (n <= length inp)%nat → (n <= 7)%nat →
  (∃ q, p = 2 ^ (8 * Z.of_nat n) * q) → switch_padding n inp p = Some (p + le (take n inp)).
Proof.
  induction n as [|i IH]; intros p Hb Hn Hi [q ->]; cbn [switch_padding].
  { unfold le. simpl. f_equal. lia. }
  destruct (lookup_lt_is_Some_2 inp i) as [b Eb]; [lia|]. rewrite Eb. cbn [mbind option_bind].
  assert (is_byte b) as Hbb by (by eapply Forall_lookup_1). unfold is_byte in Hbb.
  set (k := 8 * Z.of_nat i). replace (8 * Z.of_nat (S i)) with (k + 8) by lia.
  assert (0 < 2 ^ k) by (apply Z.pow_pos_nonneg; lia).
  assert (2 ^ k * 256 <= 2 ^ 64).
  { change 256 with (2 ^ 8). rewrite <- Z.pow_add_r by lia. apply Z.pow_le_mono_r; lia. }
  assert (2 ^ (k + 8) = 2 ^ k * 256) as Ek by (by rewrite Z.pow_add_r by lia).
  rewrite Z.shiftl_mul_pow2, wrapu_small by nia. rewrite Z.mul_comm, lor_add by nia.
  rewrite IH; [|done|lia|lia|exists (256 * q + b); rewrite Ek; fold k; ring].
  rewrite (take_S_r inp i b) by done. rewrite le_app, length_take, Nat.min_l by lia.
  f_equal. fold k. unfold le at 3. cbn [foldr]. ring.
Qed.

(** ** Words *)

Lemma read_le64 inp : (8 <= length inp)%nat → unaligned_read_le64 inp = Some (le (take 8 inp)).
Proof. intros H. unfold unaligned_read_le64. by rewrite (proj2 (Nat.leb_le _ _) H). Qed.

Lemma words_loop_spec n : ∀ fuel inp avail state,
  avail = 8 * Z.of_nat n → (8 * n <= length inp)%nat → (n <= fuel)%nat →
  words_loop fuel inp avail state = Some (drop (8 * n) inp, blocks n inp state).
Proof.
  induction n as [|n IH]; intros fuel inp avail state -> Hl Hf; [by destruct fuel|].
  destruct fuel as [|fuel]; [lia|]. cbn [words_loop].
  destruct (Z.ltb_spec 0 (8 * Z.of_nat (S n))); [|lia].
  rewrite read_le64 by lia. cbn [mbind option_bind blocks].
  rewrite IH by (try rewrite length_drop; lia). rewrite drop_drop. do 3 f_equal. lia.
Qed.

Lemma blocks_app n m : ∀ x state, (8 * n <= length m)%nat → blocks n (m ++ x) state = blocks n m state.
Proof.
  revert m. induction n as [|n IH]; intros m x state Hl; [done|]. cbn [blocks].
  rewrite take_app_le, drop_app_le by lia. apply IH. rewrite length_drop. lia.
Qed.

Lemma blocks_add a : ∀ b m state, blocks (a + b) m state = blocks b (drop (8 * a) m) (blocks a m state).
Proof.
  induction a as [|a IH]; intros b m state; [done|]. cbn [Nat.add blocks]. rewrite IH, drop_drop.
  do 2 f_equal. lia.
Qed.

(** The rounds do not look at the padding and the length. *)
Lemma absorb_tail m p n state :
  absorb m (set_padding p (set_inlen n state)) = set_padding p (set_inlen n (absorb m state)).
Proof. by destruct state. Qed.

Lemma blocks_tail k : ∀ m p n state,
  blocks k m (set_padding p (set_inlen n state)) = set_padding p (set_inlen n (blocks k m state)).
Proof. induction k as [|k IH]; intros m p n state; [done|]. cbn [blocks]. by rewrite absorb_tail, IH. Qed.

(** ** The state after a message

    [rep k m]: the words of [m] absorbed, the rest of [m] in the padding, the
    length counted modulo [2 ^ 64]. *)
Definition rep (init : siphash) (m : list Z) : siphash :=
  set_padding (le (rest m)) (set_inlen (Z.of_nat (length m) mod 2 ^ 64) (blocks (full m) m init)).

Lemma rep_fields init m : inlen (rep init m) = Z.of_nat (length m) mod 2 ^ 64 ∧
  padding (rep init m) = le (rest m).
Proof. unfold rep. by destruct (blocks (full m) m init). Qed.

Lemma full_mod m : length m = (8 * full m + length (rest m))%nat ∧ (length (rest m) < 8)%nat ∧
  (Z.of_nat (length m) mod 2 ^ 64) mod 8 = Z.of_nat (length (rest m)).
Proof.
  unfold rest, full. rewrite length_drop. pose proof (Nat.div_mod_eq (length m) 8).
  pose proof (Nat.mod_upper_bound (length m) 8). split; [lia|]. split; [lia|].
  rewrite Z.mod_mod_divide by (by exists (2 ^ 61)).
  rewrite Nat2Z.inj_sub by lia. Z.div_mod_to_equations. lia.
Qed.

Lemma aligned_app m x : rest m = [] → full (m ++ x) = (full m + full x)%nat ∧ rest (m ++ x) = rest x.
Proof.
  intros E. destruct (full_mod m) as [Hl _]. rewrite E, Nat.add_0_r in Hl.
  assert (full (m ++ x) = (full m + full x)%nat) as Ef.
  { unfold full at 1. rewrite length_app, Hl, Nat.mul_comm, Nat.div_add_l by done. done. }
  split; [done|]. unfold rest at 1. rewrite Ef, Nat.mul_add_distr_l.
  rewrite <- drop_drop, drop_app_length' by done. done.
Qed.

Lemma land_7_mod x : Z.land x 7 = x mod 8.
Proof. change 7 with (Z.ones 3). by rewrite Z.land_ones. Qed.

Lemma Forall_rest m : Forall is_byte m → Forall is_byte (rest m).
Proof. apply Forall_drop. Qed.

(** The second half of the function, on a message of whole words. *)
Lemma compress_words_spec init m inp : rest m = [] → Forall is_byte inp →
  compress_words inp (set_padding 0 (set_inlen (Z.of_nat (length (m ++ inp)) mod 2 ^ 64)
    (blocks (full m) m init))) = Some (rep init (m ++ inp)).
Proof.
  intros E Hb. destruct (aligned_app m inp E) as [Ef Er].
  destruct (full_mod (m ++ inp)) as (Hl & Hlt & Hmod). destruct (full_mod inp) as (Hi & _ & _).
  destruct (full_mod m) as (Hm & _ & _). rewrite Er in *.
  unfold compress_words. set (st := blocks (full m) m init).
  set (n := Z.of_nat (length (m ++ inp)) mod 2 ^ 64) in *.
  assert (inlen (set_padding 0 (set_inlen n st)) = n) as -> by (by destruct st).
  rewrite Hmod, (words_loop_spec (full inp)) by lia. cbn [mbind option_bind].
  rewrite blocks_tail.
  assert (inlen (set_padding 0 (set_inlen n (blocks (full inp) inp st))) = n ∧
    padding (set_padding 0 (set_inlen n (blocks (full inp) inp st))) = 0) as [-> ->]
    by (by destruct (blocks (full inp) inp st)).
  rewrite land_7_mod, Hmod, Nat2Z.id. fold (rest inp).
  rewrite switch_padding_spec; [|by apply Forall_rest|lia|lia|by exists 0; rewrite Z.mul_0_r].
  cbn [mbind option_bind]. rewrite take_ge by lia. f_equal. unfold rep. fold n.
  rewrite Ef, Er, blocks_add, blocks_app, drop_app_length' by (rewrite E in Hm; simpl in Hm; lia).
  fold st. by destruct (blocks (full inp) inp st).
Qed.

(** A message and bytes that do not complete its last word. *)
Lemma partial_app m x : (length (rest m) + length x < 8)%nat →
  full (m ++ x) = full m ∧ rest (m ++ x) = rest m ++ x.
Proof.
  intros H. destruct (full_mod m) as [Hl _].
  assert (full (m ++ x) = full m) as Ef.
  { unfold full at 1. rewrite length_app, Hl. symmetry.
    apply (Nat.div_unique _ _ _ (length (rest m) + length x)); lia. }
  split; [done|]. unfold rest. by rewrite Ef, drop_app_le by lia.
Qed.

(** Bytes that complete the last word. *)
Lemma complete_app m x : (length (rest m) + length x = 8)%nat → ∀ init,
  rest (m ++ x) = [] ∧ blocks (full (m ++ x)) (m ++ x) init =
    absorb (le (rest m ++ x)) (blocks (full m) m init).
Proof.
  intros H init. destruct (full_mod m) as [Hl _].
  assert (full (m ++ x) = (full m + 1)%nat) as Ef.
  { unfold full at 1. rewrite length_app, Hl. symmetry. apply (Nat.div_unique _ _ _ 0); lia. }
  split.
  - unfold rest. rewrite Ef. apply drop_ge. rewrite length_app. lia.
  - rewrite Ef, blocks_add. cbn [blocks]. rewrite blocks_app by lia. do 2 f_equal.
    rewrite drop_app_le by lia. fold (rest m). apply take_ge. rewrite length_app. lia.
Qed.

(** The first half: the padding completed to a word, which is absorbed. *)
Lemma compress_padding init m inp j :
  (length (rest m) + j = 8)%nat → (j <= length inp)%nat → Forall is_byte inp →
  compress_words (drop j inp) (set_padding 0 (absorb (le (rest m ++ take j inp))
    (set_padding (le (rest m ++ take j inp)) (set_inlen (Z.of_nat (length (m ++ inp)) mod 2 ^ 64)
      (blocks (full m) m init))))) = Some (rep init (m ++ inp)).
Proof.
  intros Hj Hi Hb. rewrite absorb_tail.
  destruct (complete_app m (take j inp)) with (init := init) as [Er <-];
    [rewrite length_take; lia|].
  assert (m ++ inp = (m ++ take j inp) ++ drop j inp) as -> by (by rewrite <- app_assoc, take_drop).
  rewrite <- compress_words_spec by (try done; by apply Forall_drop).
  f_equal. by destruct (blocks (full (m ++ take j inp)) (m ++ take j inp) init).
Qed.

Lemma compress_rep init m inp : Forall is_byte m → Forall is_byte inp →
  siphash24_compress inp (rep init m) = Some (rep init (m ++ inp)).
Proof.
  intros Hm Hi. destruct (full_mod m) as (Hl & Hlt & Hmod). unfold siphash24_compress.
  destruct (rep_fields init m) as [En Ep]. rewrite land_7_mod, En, Hmod.
  set (st := blocks (full m) m init).
  assert (wrapu 64 (Z.of_nat (length m) mod 2 ^ 64 + Z.of_nat (length inp)) =
    Z.of_nat (length (m ++ inp)) mod 2 ^ 64) as ->.
  { unfold wrapu. rewrite Z.add_mod_idemp_l, length_app, Nat2Z.inj_add by lia. done. }
  set (n := Z.of_nat (length (m ++ inp)) mod 2 ^ 64).
  assert (set_inlen n (rep init m) = set_padding (le (rest m)) (set_inlen n st)) as ->
    by (unfold rep; fold st; by destruct st).
  assert (padding (set_padding (le (rest m)) (set_inlen n st)) = le (rest m)) as ->
    by (by destruct st).
  destruct (Z.ltb_spec 0 (Z.of_nat (length (rest m)))) as [Hp|Hz].
  2:{ assert (rest m = []) as E by (apply length_zero_iff_nil; lia). rewrite E.
      by apply compress_words_spec. }
  pose proof (le_range (rest m) (Forall_rest m Hm)) as Hr.
  rewrite fill_padding_spec by (done || lia). cbv zeta.
  set (j := Nat.min (Z.to_nat (8 - Z.of_nat (length (rest m)))) (length inp)).
  rewrite <- le_app, length_drop.
  assert (∀ p, set_padding p (set_padding (le (rest m)) (set_inlen n st)) =
    set_padding p (set_inlen n st)) as -> by (intros p; by destruct st).
  destruct (Nat.eqb_spec (length inp - j) 0) as [Ej|Ej]; cbn [andb];
    [destruct (Z.ltb_spec (Z.of_nat (length (rest m)) + Z.of_nat j) 8)|].
  - rewrite take_ge by lia. destruct (partial_app m inp) as [Ef Er]; [lia|].
    unfold rep. fold n. by rewrite Ef, Er, blocks_app by lia.
  - apply compress_padding; [lia|lia|done].
  - apply compress_padding; [lia|lia|done].
Qed.

Lemma init_total k : (16 <= length k)%nat → ∃ init, siphash24_init k = Some init ∧ rep init [] = init.
Proof.
  intros Hk. unfold siphash24_init. rewrite !read_le64 by (try rewrite length_drop; lia).
  eexists. split; [reflexivity|]. reflexivity.
Qed.

Lemma compress_chunks init chunks : ∀ m, Forall is_byte m → Forall (Forall is_byte) chunks →
  foldl (λ s c, s ≫= siphash24_compress c) (Some (rep init m)) chunks =
  Some (rep init (m ++ concat chunks)).
Proof.
  induction chunks as [|c chunks IH]; intros m Hm Hc; [by rewrite app_nil_r|].
  apply Forall_cons in Hc as [Hc Hcs]. cbn [foldl mbind option_bind concat].
  rewrite compress_rep, IH by (try apply Forall_app; done). by rewrite app_assoc.
Qed.

(** C35. Hashing in pieces is hashing the whole: whatever the pieces a message is
    passed in to [siphash24_compress], of any lengths and also none, the
    function reads only the pieces, and [siphash24_finalize] gives the SipHash
    of the message as a whole, its words in order and then the remaining bytes
    with the length in the top byte; so does [siphash24] in one call. *)
Theorem siphash24_streaming k chunks :
  (16 <= length k)%nat → Forall (Forall is_byte) chunks →
  ∃ h, siphash_reference (concat chunks) k = Some h ∧
    siphash24 (concat chunks) k = Some h ∧
    ∃ state, foldl (λ s c, s ≫= siphash24_compress c) (siphash24_init k) chunks = Some state ∧
      siphash24_finalize state = h.
Proof.
  intros Hk Hc. destruct (init_total k Hk) as (init & E & Er).
  exists (siphash24_finalize (rep init (concat chunks))).
  unfold siphash_reference, siphash24. rewrite E. cbn [mbind option_bind]. split; [done|].
  pose proof (compress_rep init [] (concat chunks)) as H1.
  pose proof (compress_chunks init chunks []) as H2. rewrite Er in H1, H2. split.
  - rewrite H1 by (try constructor; by apply Forall_concat). done.
  - exists (rep init (concat chunks)). split; [|done]. by apply H2.
Qed.

Lemma siphash24_streaming_witness :
  Forall (Forall is_byte) [[1; 2; 3]; []; [4; 5; 6; 7; 8; 9; 10]] ∧
  ∃ h, siphash_reference (concat [[1; 2; 3]; []; [4; 5; 6; 7; 8; 9; 10]]) (seqZ 0 16) = Some h ∧
    siphash24 (concat [[1; 2; 3]; []; [4; 5; 6; 7; 8; 9; 10]]) (seqZ 0 16) = Some h ∧
    ∃ state, foldl (λ s c, s ≫= siphash24_compress c) (siphash24_init (seqZ 0 16))
      [[1; 2; 3]; []; [4; 5; 6; 7; 8; 9; 10]] = Some state ∧ siphash24_finalize state = h.
Proof.
  assert (Forall (Forall is_byte) [[1; 2; 3]; []; [4; 5; 6; 7; 8; 9; 10]]) as H.
  { by repeat (apply Forall_cons_2; [|]; try apply Forall_nil_2). }
  split; [exact H|]. apply siphash24_streaming; [vm_compute; lia|exact H].
Defined.
