(* ===== verification/HashMap.v ===== *)
(** * systemd: hash maps

    Models [src/app/multi_process/day1/systemd/src/basic/hashmap.c]: plain and
    ordered hash maps and sets, in an open-addressed table with linear probing,
    Robin Hood insertion and backward-shift deletion.

    Pointers to keys and values are numbers, NULL is 0. The buckets are the
    entries of [store] below [n_buckets], the distance bytes those of [dibs]; the
    swap entries are further entries of [store], at the indexes the code gives
    them, and mean nothing between two calls. The table knows the keys through
    [hash_ops] only. The sizes are those of a 64-bit build. [Crash] is a failed
    assertion, an access outside the table or undefined behaviour.

    Parameters: the result of [realloc], and the key that [get_hash_key] gives a
    new table, which is random or that of the last table. Not modelled: the
    debugging fields, memory pools, the allocation of the head of a map, and the
    destructors of keys and values. *)

From S2P Require Import Prelude Outcome SipHash.

#[local] Open Scope Z_scope.

(** ** Constants *)

Definition INV_KEEP_FREE : Z := 5.

Definition IDX_SWAP_BEGIN : Z := UINT32_MAX - 3.
Definition IDX_PUT : Z := IDX_SWAP_BEGIN + 0.
Definition IDX_TMP : Z := IDX_SWAP_BEGIN + 1.
Definition IDX_SWAP_END : Z := IDX_SWAP_BEGIN + 2.
Definition IDX_FIRST : Z := UINT32_MAX - 1.
Definition IDX_NIL : Z := UINT32_MAX.

Definition DIB_RAW_OVERFLOW : Z := 253.
Definition DIB_RAW_REHASH : Z := 254.
Definition DIB_RAW_FREE : Z := 255.
Definition DIB_FREE : Z := UINT32_MAX.

(** ** Data *)

Record Entry := mk_entry { e_key : Z; e_value : Z; iterate_next : Z; iterate_previous : Z }.

Definition zero_entry : Entry := mk_entry 0 0 0 0.

Inductive HashmapType := HASHMAP_TYPE_PLAIN | HASHMAP_TYPE_ORDERED | HASHMAP_TYPE_SET.

#[export] Instance HashmapType_eq_dec : EqDecision HashmapType.
Proof. solve_decision. Defined.

(** [hashmap_type_info] *)
Definition entry_size (t : HashmapType) : Z :=
  match t with HASHMAP_TYPE_PLAIN => 16 | HASHMAP_TYPE_ORDERED => 24 | HASHMAP_TYPE_SET => 8 end.

Definition sizeof_direct_storage : Z := 39.

Definition n_direct_buckets (t : HashmapType) : Z := sizeof_direct_storage / (entry_size t + 1).

Record HashmapBase := mk_hashmap {
  h_type : HashmapType; has_indirect : bool; n_direct_entries : Z;
  i_hash_key : list Z; i_n_entries : Z; i_n_buckets : Z; idx_lowest_entry : Z;
  store : gmap Z Entry; dibs : gmap Z Z;
  iterate_list_head : Z; iterate_list_tail : Z; dirty : bool; cached : bool }.

(** Assignments to fields. *)
Definition set_count n h := mk_hashmap (h_type h) (has_indirect h)
  (if has_indirect h then n_direct_entries h else wrapu 3 n) (i_hash_key h)
  (if has_indirect h then wrapu 32 n else i_n_entries h) (i_n_buckets h) (idx_lowest_entry h)
  (store h) (dibs h) (iterate_list_head h) (iterate_list_tail h) (dirty h) (cached h).
Definition set_lowest i h := mk_hashmap (h_type h) (has_indirect h) (n_direct_entries h) (i_hash_key h)
  (i_n_entries h) (i_n_buckets h) i (store h) (dibs h) (iterate_list_head h) (iterate_list_tail h) (dirty h) (cached h).
Definition set_store s h := mk_hashmap (h_type h) (has_indirect h) (n_direct_entries h) (i_hash_key h)
  (i_n_entries h) (i_n_buckets h) (idx_lowest_entry h) s (dibs h) (iterate_list_head h) (iterate_list_tail h) (dirty h) (cached h).
Definition set_dibs d h := mk_hashmap (h_type h) (has_indirect h) (n_direct_entries h) (i_hash_key h)
  (i_n_entries h) (i_n_buckets h) (idx_lowest_entry h) (store h) d (iterate_list_head h) (iterate_list_tail h) (dirty h) (cached h).
Definition set_ends hd tl h := mk_hashmap (h_type h) (has_indirect h) (n_direct_entries h) (i_hash_key h)
  (i_n_entries h) (i_n_buckets h) (idx_lowest_entry h) (store h) (dibs h) hd tl (dirty h) (cached h).
Definition base_set_dirty h := mk_hashmap (h_type h) (has_indirect h) (n_direct_entries h) (i_hash_key h)
  (i_n_entries h) (i_n_buckets h) (idx_lowest_entry h) (store h) (dibs h) (iterate_list_head h) (iterate_list_tail h) true (cached h).

Definition set_cached b h := mk_hashmap (h_type h) (has_indirect h) (n_direct_entries h) (i_hash_key h)
  (i_n_entries h) (i_n_buckets h) (idx_lowest_entry h) (store h) (dibs h) (iterate_list_head h) (iterate_list_tail h) (dirty h) b.
Definition set_clean h := mk_hashmap (h_type h) (has_indirect h) (n_direct_entries h) (i_hash_key h)
  (i_n_entries h) (i_n_buckets h) (idx_lowest_entry h) (store h) (dibs h) (iterate_list_head h) (iterate_list_tail h) false (cached h).

Definition with_next i e := mk_entry (e_key e) (e_value e) i (iterate_previous e).
Definition with_previous i e := mk_entry (e_key e) (e_value e) (iterate_next e) i.

(** ** What the table uses

    The hash and comparison functions of the keys, the key for tables in direct
    storage, and the environment of [resize_buckets]. *)

Class HashEnv := {
  hash_func : Z → siphash → siphash;
  compare_func : Z → Z → Z;
  shared_hash_key : list Z;
  new_hash_key : HashmapBase → bool → list Z;
  realloc_ok : HashmapBase → Z → bool }.

Section Table.
Context `{HashEnv}.

Definition n_buckets (h : HashmapBase) : Z :=
  if has_indirect h then i_n_buckets h else n_direct_buckets (h_type h).
Definition n_entries (h : HashmapBase) : Z :=
  if has_indirect h then i_n_entries h else n_direct_entries h.
Definition n_entries_inc (h : HashmapBase) : HashmapBase := set_count (n_entries h + 1) h.
Definition n_entries_dec (h : HashmapBase) : HashmapBase := set_count (n_entries h - 1) h.

Definition hash_key (h : HashmapBase) : list Z := if has_indirect h then i_hash_key h else shared_hash_key.

Definition base_bucket_hash (h : HashmapBase) (p : Z) : option Z :=
  state ← siphash24_init (hash_key h);
  assert 0 <? n_buckets h;
  Some (siphash24_finalize (hash_func p state) mod n_buckets h).

Definition bucket_at (h : HashmapBase) (idx : Z) : option Entry :=
  assert (0 <=? idx) && (idx <? n_buckets h);
  store h !! idx.

(** [bucket_at_virtual] *)
Definition is_virtual (h : HashmapBase) (idx : Z) : bool :=
  if idx <? IDX_SWAP_BEGIN then (0 <=? idx) && (idx <? n_buckets h) else idx <? IDX_SWAP_END.

Definition bucket_at_virtual (h : HashmapBase) (idx : Z) : option Entry :=
  assert is_virtual h idx;
  store h !! idx.

Definition modify_entry (f : Entry → Entry) (idx : Z) (h : HashmapBase) : option HashmapBase :=
  e ← bucket_at_virtual h idx;
  Some (set_store (<[idx := f e]> (store h)) h).

Definition bucket_distance (h : HashmapBase) (idx from : Z) : Z :=
  if from <=? idx then idx - from else wrapu 32 (n_buckets h + idx - from).

Definition bucket_calculate_dib (h : HashmapBase) (idx raw_dib : Z) : option Z :=
  if raw_dib =? DIB_RAW_FREE then Some DIB_FREE
  else if raw_dib <? DIB_RAW_OVERFLOW then Some raw_dib
  else
    e ← bucket_at h idx;
    initial_bucket ← base_bucket_hash h (e_key e);
    Some (bucket_distance h idx initial_bucket).

Definition bucket_set_dib (idx dib : Z) (h : HashmapBase) : option HashmapBase :=
  _ ← dibs h !! idx;
  Some (set_dibs (<[idx := if dib =? DIB_FREE then DIB_RAW_FREE else Z.min dib DIB_RAW_OVERFLOW]> (dibs h)) h).

(** The first occupied bucket from [idx] on; [n] bounds the loop. *)
Fixpoint skip_free_loop (n : nat) (h : HashmapBase) (idx : Z) : outcome Z :=
  match n with
  | O => OutOfFuel
  | S n =>
      if n_buckets h <=? idx then Ret IDX_NIL
      else d ←! dibs h !! idx; if d =? DIB_RAW_FREE then skip_free_loop n h (idx + 1) else Ret idx
  end.

Definition skip_free_buckets (h : HashmapBase) (idx : Z) : outcome Z :=
  skip_free_loop (S (Z.to_nat (n_buckets h - idx))) h idx.

Definition bucket_mark_free (idx : Z) (h : HashmapBase) : option HashmapBase :=
  _ ← bucket_at h idx;
  bucket_set_dib idx DIB_FREE (set_store (<[idx := zero_entry]> (store h)) h).

Definition bucket_move_entry (from to : Z) (h : HashmapBase) : option HashmapBase :=
  assert negb (from =? to);
  e ← bucket_at_virtual h from;
  assert is_virtual h to;
  let h := set_store (<[to := e]> (store h)) h in
  if decide (h_type h = HASHMAP_TYPE_ORDERED) then
    h ← (if iterate_next e =? IDX_NIL then Some h else modify_entry (with_previous to) (iterate_next e) h);
    h ← (if iterate_previous e =? IDX_NIL then Some h else modify_entry (with_next to) (iterate_previous e) h);
    Some (set_ends (if iterate_list_head h =? from then to else iterate_list_head h)
                   (if iterate_list_tail h =? from then to else iterate_list_tail h) h)
  else Some h.

Definition next_idx (h : HashmapBase) (idx : Z) : Z := (idx + 1) mod n_buckets h.
Definition prev_idx (h : HashmapBase) (idx : Z) : Z := (n_buckets h + idx - 1) mod n_buckets h.

Definition entry_value (h : HashmapBase) (e : Entry) : Z :=
  if decide (h_type h = HASHMAP_TYPE_SET) then e_key e else e_value e.

(** ** Removal *)

(** The stop bucket: free, or with distance 0. *)
Fixpoint find_right (n : nat) (h : HashmapBase) (left right : Z) : outcome Z :=
  match n with
  | O => OutOfFuel
  | S n =>
      raw_dib ←! dibs h !! right;
      if (raw_dib =? 0) || (raw_dib =? DIB_RAW_FREE) then Ret right
      else require negb (left =? right); find_right n h left (next_idx h right)
  end.

(** Shifts the buckets from [left] up to [right] one step backwards, and gives
    the last one that was left. *)
Fixpoint shift_back (n : nat) (prev left right : Z) (h : HashmapBase) : outcome (Z * HashmapBase) :=
  match n with
  | O => OutOfFuel
  | S n =>
      if left =? right then Ret (prev, h)
      else
        raw_dib ←! dibs h !! left;
        dib ←! bucket_calculate_dib h left raw_dib;
        require negb (dib =? 0);
        h ←! bucket_move_entry left prev h;
        h ←! bucket_set_dib prev (dib - 1) h;
        shift_back n left (next_idx h left) right h
  end.

(** Takes the entry at [idx] out of the list of an ordered map. *)
Definition unlink_entry (idx : Z) (h : HashmapBase) : option HashmapBase :=
  if decide (h_type h = HASHMAP_TYPE_ORDERED) then
    le ← bucket_at h idx;
    h ← (if iterate_next le =? IDX_NIL then Some (set_ends (iterate_list_head h) (iterate_previous le) h)
         else _ ← bucket_at h (iterate_next le); modify_entry (with_previous (iterate_previous le)) (iterate_next le) h);
    (if iterate_previous le =? IDX_NIL then Some (set_ends (iterate_next le) (iterate_list_tail h) h)
     else _ ← bucket_at h (iterate_previous le); modify_entry (with_next (iterate_next le)) (iterate_previous le) h)
  else Some h.

Definition fuel_of (h : HashmapBase) : nat := S (Z.to_nat (n_buckets h)).

Definition base_remove_entry (idx : Z) (h : HashmapBase) : outcome HashmapBase :=
  d ←! dibs h !! idx;
  require negb (d =? DIB_RAW_FREE);
  right ← find_right (fuel_of h) h idx (next_idx h idx);
  h ←! unlink_entry idx h;
  '(prev, h) ← shift_back (fuel_of h) idx (next_idx h idx) right h;
  h ←! bucket_mark_free prev h;
  Ret (base_set_dirty (n_entries_dec h)).

(** ** Iteration *)

Record Iterator := mk_iterator { it_idx : Z; next_key : Z }.

Definition ITERATOR_FIRST : Iterator := mk_iterator IDX_FIRST 0.

(** The end of both kinds of iteration. *)
Definition at_end (i : Iterator) : Z * Iterator := (IDX_NIL, mk_iterator IDX_NIL (next_key i)).

Definition hashmap_iterate_in_insertion_order (h : HashmapBase) (i : Iterator) : option (Z * Iterator) :=
  if it_idx i =? IDX_NIL then Some (at_end i)
  else if (it_idx i =? IDX_FIRST) && (iterate_list_head h =? IDX_NIL) then Some (at_end i)
  else
    '(idx, e) ← (if it_idx i =? IDX_FIRST then
                   e ← bucket_at h (iterate_list_head h); Some (iterate_list_head h, e)
                 else
                   e ← bucket_at h (it_idx i);
                   '(idx, e) ← (if e_key e =? next_key i then Some (it_idx i, e)
                                else let idx := prev_idx h (it_idx i) in e ← bucket_at h idx; Some (idx, e));
                   assert e_key e =? next_key i;
                   Some (idx, e));
    if iterate_next e =? IDX_NIL then Some (idx, mk_iterator IDX_NIL (next_key i))
    else n ← bucket_at h (iterate_next e); Some (idx, mk_iterator (iterate_next e) (e_key n)).

(** The lowest index of an indirect table is remembered. *)
Definition hashmap_iterate_in_internal_order (h : HashmapBase) (i : Iterator) : outcome (Z * Iterator * HashmapBase) :=
  if it_idx i =? IDX_NIL then Ret (at_end i, h)
  else
    '(idx, h) ← (if it_idx i =? IDX_FIRST then
                   if has_indirect h then
                     idx ← skip_free_buckets h (idx_lowest_entry h); Ret (idx, set_lowest idx h)
                   else idx ← skip_free_buckets h 0; Ret (idx, h)
                 else
                   require 0 <? it_idx i;
                   e ←! bucket_at h (it_idx i);
                   '(idx, e) ← (if e_key e =? next_key i then Ret (it_idx i, e)
                                else e ←! bucket_at h (it_idx i - 1); Ret (it_idx i - 1, e));
                   require e_key e =? next_key i;
                   Ret (idx, h));
    if idx =? IDX_NIL then Ret (at_end i, h)
    else
      next ← skip_free_buckets h (idx + 1);
      if next =? IDX_NIL then Ret (idx, mk_iterator IDX_NIL (next_key i), h)
      else n ←! bucket_at h next; Ret (idx, mk_iterator next (e_key n), h).

Definition hashmap_iterate_entry (h : HashmapBase) (i : Iterator) : outcome (Z * Iterator * HashmapBase) :=
  if decide (h_type h = HASHMAP_TYPE_ORDERED) then r ←! hashmap_iterate_in_insertion_order h i; Ret (r, h)
  else hashmap_iterate_in_internal_order h i.

(** [HASHMAP_FOREACH] of a hash map that the body does not change: the keys and
    values in the order they come. *)
Fixpoint iterate_loop (n : nat) (h : HashmapBase) (i : Iterator) : outcome (list (Z * Z) * HashmapBase) :=
  match n with
  | O => OutOfFuel
  | S n =>
      '(idx, i, h) ← hashmap_iterate_entry h i;
      if idx =? IDX_NIL then Ret ([], h)
      else
        e ←! bucket_at h idx;
        '(l, h) ← iterate_loop n h i;
        Ret ((e_key e, entry_value h e) :: l, h)
  end.

Definition hashmap_entries (h : HashmapBase) : outcome (list (Z * Z) * HashmapBase) :=
  iterate_loop (fuel_of h) h ITERATOR_FIRST.

(** ** Insertion *)

(** The result is whether an entry was displaced that must be rehashed. *)
Fixpoint hashmap_put_robin_hood (n : nat) (idx distance : Z) (h : HashmapBase) : outcome (bool * HashmapBase) :=
  match n with
  | O => OutOfFuel
  | S n =>
      raw_dib ←! dibs h !! idx;
      if (raw_dib =? DIB_RAW_FREE) || (raw_dib =? DIB_RAW_REHASH) then
        h ←! (if raw_dib =? DIB_RAW_REHASH then bucket_move_entry idx IDX_TMP h else Some h);
        let h := if has_indirect h && (idx <? idx_lowest_entry h) then set_lowest idx h else h in
        h ←! bucket_set_dib idx distance h;
        h ←! bucket_move_entry IDX_PUT idx h;
        if raw_dib =? DIB_RAW_REHASH then h ←! bucket_move_entry IDX_TMP IDX_PUT h; Ret (true, h)
        else Ret (false, h)
      else
        dib ←! bucket_calculate_dib h idx raw_dib;
        if dib <? distance then
          h ←! bucket_set_dib idx distance h;
          h ←! bucket_move_entry idx IDX_TMP h;
          h ←! bucket_move_entry IDX_PUT idx h;
          h ←! bucket_move_entry IDX_TMP IDX_PUT h;
          hashmap_put_robin_hood n (next_idx h idx) (wrapu 32 (dib + 1)) h
        else hashmap_put_robin_hood n (next_idx h idx) (wrapu 32 (distance + 1)) h
  end.

(** [log2u_round_up] *)
Definition log2u_round_up (x : Z) : option Z :=
  assert 0 <? x;
  Some (if x =? 1 then 0 else Z.log2 (x - 1) + 1).

(** The table after [realloc] to [new_n] buckets with a new hash key: all
    entries are to be rehashed, the new buckets are free. *)
Definition grow (new_n : Z) (h : HashmapBase) : HashmapBase :=
  let old_n := n_buckets h in
  let fresh := map (λ i, old_n + Z.of_nat i) (seq 0 (Z.to_nat (new_n - old_n))) in
  mk_hashmap (h_type h) true (if has_indirect h then n_direct_entries h else 0)
    (new_hash_key h (negb (has_indirect h)))
    (n_entries h) new_n (if has_indirect h then idx_lowest_entry h else 0)
    (list_to_map (map (λ i, (i, zero_entry)) fresh) ∪ store h)
    (list_to_map (map (λ i, (i, DIB_RAW_FREE)) fresh) ∪
     ((λ d, if d =? DIB_RAW_FREE then DIB_RAW_FREE else DIB_RAW_REHASH) <$> dibs h))
    (iterate_list_head h) (iterate_list_tail h) (dirty h) (cached h).

(** The [do] loop: places the entry in the swap slot and those it displaces; the
    number counts them. *)
Fixpoint rehash_chain (n : nat) (optimal_idx n_rehashed : Z) (h : HashmapBase) : outcome (Z * HashmapBase) :=
  match n with
  | O => OutOfFuel
  | S n =>
      '(rehash_next, h) ← hashmap_put_robin_hood (fuel_of h) optimal_idx 0 h;
      let n_rehashed := wrapu 32 (n_rehashed + 1) in
      if rehash_next : bool then
        e ←! bucket_at_virtual h IDX_PUT;
        optimal_idx ←! base_bucket_hash h (e_key e);
        rehash_chain n optimal_idx n_rehashed h
      else Ret (n_rehashed, h)
  end.

Definition rehash_bucket (idx n_rehashed : Z) (h : HashmapBase) : outcome (Z * HashmapBase) :=
  d ←! dibs h !! idx;
  if negb (d =? DIB_RAW_REHASH) then Ret (n_rehashed, h)
  else
    e ←! bucket_at h idx;
    optimal_idx ←! base_bucket_hash h (e_key e);
    if optimal_idx =? idx then Ret (wrapu 32 (n_rehashed + 1), set_dibs (<[idx := 0]> (dibs h)) h)
    else
      let h := set_dibs (<[idx := DIB_RAW_FREE]> (dibs h)) h in
      h ←! bucket_move_entry idx IDX_PUT h;
      rehash_chain (fuel_of h) optimal_idx n_rehashed (set_store (<[idx := zero_entry]> (store h)) h).

Fixpoint rehash_loop (k : nat) (idx n_rehashed : Z) (h : HashmapBase) : outcome (Z * HashmapBase) :=
  match k with
  | O => Ret (n_rehashed, h)
  | S k => '(n_rehashed, h) ← rehash_bucket idx n_rehashed h; rehash_loop k (idx + 1) n_rehashed h
  end.

Definition UINT_MAX : Z := UINT32_MAX.

(** [1U << new_shift] is undefined from a shift of 32 on. *)
Definition resize_buckets (entries_add : Z) (h : HashmapBase) : outcome (Z * HashmapBase) :=
  let size := entry_size (h_type h) + 1 in
  let new_n_entries := wrapu 32 (n_entries h + entries_add) in
  if new_n_entries <? entries_add then Ret (- ENOMEM, h)
  else if negb (has_indirect h) && (new_n_entries <=? n_direct_buckets (h_type h)) then Ret (0, h)
  else
    let new_n_buckets := wrapu 32 (new_n_entries + new_n_entries / (INV_KEEP_FREE - 1)) in
    if new_n_buckets <? new_n_entries then Ret (- ENOMEM, h)
    else if UINT_MAX / size <? new_n_buckets then Ret (- ENOMEM, h)
    else
      let old_n_buckets := n_buckets h in
      if new_n_buckets <=? old_n_buckets then Ret (0, h)
      else
        new_shift ←! log2u_round_up (Z.max (new_n_buckets * size) (2 * sizeof_direct_storage));
        require new_shift <? 32;
        if negb (realloc_ok h (2 ^ new_shift)) then Ret (- ENOMEM, h)
        else
          require forallb (λ d, negb (d =? DIB_RAW_REHASH)) (map_to_list (dibs h)).*2;
          '(n_rehashed, h) ← rehash_loop (Z.to_nat old_n_buckets) 0 0 (grow (2 ^ new_shift / size) h);
          require n_rehashed =? n_entries h;
          Ret (1, h).

(** Puts the entry of the swap slot at the end of the list of an ordered map. *)
Definition link_entry (h : HashmapBase) : option HashmapBase :=
  if decide (h_type h = HASHMAP_TYPE_ORDERED) then
    h ← modify_entry (λ e, with_next IDX_NIL (with_previous (iterate_list_tail h) e)) IDX_PUT h;
    h ← (if iterate_list_tail h =? IDX_NIL then Some h
         else
           old_tail ← bucket_at h (iterate_list_tail h);
           assert iterate_next old_tail =? IDX_NIL;
           modify_entry (with_next IDX_PUT) (iterate_list_tail h) h);
    Some (set_ends (if iterate_list_head h =? IDX_NIL then IDX_PUT else iterate_list_head h) IDX_PUT h)
  else Some h.

(** Each call has its own swap entries: the new entry is in the slot only after
    the table was resized. *)
Definition hashmap_base_put_boldly (idx key value : Z) (may_resize : bool) (h : HashmapBase) :
    outcome (Z * HashmapBase) :=
  require (0 <=? idx) && (idx <? n_buckets h);
  '(r, h) ← (if may_resize then resize_buckets 1 h else Ret (0, h));
  if r <? 0 then Ret (r, h)
  else
    idx ← (if 0 <? r then lift (base_bucket_hash h key) else Ret idx);
    require n_entries h <? n_buckets h;
    h ←! link_entry (set_store (<[IDX_PUT := mk_entry key value 0 0]> (store h)) h);
    '(displaced, h) ← hashmap_put_robin_hood (fuel_of h) idx 0 h;
    require negb displaced;
    Ret (1, base_set_dirty (n_entries_inc h)).

(** ** Search *)

Fixpoint bucket_scan_loop (n : nat) (h : HashmapBase) (idx distance key : Z) : outcome Z :=
  match n with
  | O => OutOfFuel
  | S n =>
      raw_dib ←! dibs h !! idx;
      if raw_dib =? DIB_RAW_FREE then Ret IDX_NIL
      else
        dib ←! bucket_calculate_dib h idx raw_dib;
        if dib <? distance then Ret IDX_NIL
        else
          found ← (if dib =? distance then e ←! bucket_at h idx; Ret (compare_func (e_key e) key =? 0) else Ret false);
          if found : bool then Ret idx
          else bucket_scan_loop n h (next_idx h idx) (wrapu 32 (distance + 1)) key
  end.

Definition base_bucket_scan (h : HashmapBase) (idx key : Z) : outcome Z :=
  require (0 <=? idx) && (idx <? n_buckets h);
  bucket_scan_loop (fuel_of h) h idx 0 key.

(** The bucket of the key and where its entry is. *)
Definition find_entry (h : HashmapBase) (key : Z) : outcome (Z * Z) :=
  hash ←! base_bucket_hash h key;
  idx ← base_bucket_scan h hash key;
  Ret (hash, idx).

(** ** Operations

    A hash map that may be NULL is an option. *)

Definition NULL : Z := 0.

Definition hashmap_base_new (type : HashmapType) : HashmapBase :=
  let idxs := map Z.of_nat (seq 0 (Z.to_nat (n_direct_buckets type))) in
  mk_hashmap type false 0 [] 0 0 0 (list_to_map (map (λ i, (i, zero_entry)) idxs))
    (list_to_map (map (λ i, (i, DIB_RAW_FREE)) idxs)) IDX_NIL IDX_NIL false false.

Definition internal_hashmap_clear (h : HashmapBase) : HashmapBase :=
  base_set_dirty (set_cached (cached h) (hashmap_base_new (h_type h))).

Definition hashmap_put (key value : Z) (h : HashmapBase) : outcome (Z * HashmapBase) :=
  '(hash, idx) ← find_entry h key;
  if idx =? IDX_NIL then hashmap_base_put_boldly hash key value true h
  else e ←! bucket_at h idx; Ret (if e_value e =? value then 0 else - EEXIST, h).

Definition set_put (key : Z) (h : HashmapBase) : outcome (Z * HashmapBase) :=
  '(hash, idx) ← find_entry h key;
  if idx =? IDX_NIL then hashmap_base_put_boldly hash key 0 true h else Ret (0, h).

Definition hashmap_replace (key value : Z) (h : HashmapBase) : outcome (Z * HashmapBase) :=
  '(hash, idx) ← find_entry h key;
  if idx =? IDX_NIL then hashmap_base_put_boldly hash key value true h
  else
    e ←! bucket_at h idx;
    Ret (0, base_set_dirty (set_store (<[idx := mk_entry key value (iterate_next e) (iterate_previous e)]> (store h)) h)).

Definition hashmap_update (key value : Z) (h : HashmapBase) : outcome (Z * HashmapBase) :=
  '(_, idx) ← find_entry h key;
  if idx =? IDX_NIL then Ret (- ENOENT, h)
  else
    e ←! bucket_at h idx;
    Ret (0, base_set_dirty (set_store (<[idx := mk_entry (e_key e) value (iterate_next e) (iterate_previous e)]> (store h)) h)).

Definition internal_hashmap_get (h : option HashmapBase) (key : Z) : outcome Z :=
  match h with
  | None => Ret NULL
  | Some h =>
      '(_, idx) ← find_entry h key;
      if idx =? IDX_NIL then Ret NULL else e ←! bucket_at h idx; Ret (entry_value h e)
  end.

(** The value, and the key of the entry when there is one. *)
Definition hashmap_get2 (h : option HashmapBase) (key : Z) : outcome (Z * option Z) :=
  match h with
  | None => Ret (NULL, None)
  | Some h =>
      '(_, idx) ← find_entry h key;
      if idx =? IDX_NIL then Ret (NULL, None) else e ←! bucket_at h idx; Ret (e_value e, Some (e_key e))
  end.

Definition internal_hashmap_contains (h : option HashmapBase) (key : Z) : outcome bool :=
  match h with
  | None => Ret false
  | Some h => '(_, idx) ← find_entry h key; Ret (negb (idx =? IDX_NIL))
  end.

Definition internal_hashmap_remove (h : option HashmapBase) (key : Z) : outcome (Z * option HashmapBase) :=
  match h with
  | None => Ret (NULL, None)
  | Some h =>
      '(_, idx) ← find_entry h key;
      if idx =? IDX_NIL then Ret (NULL, Some h)
      else e ←! bucket_at h idx; h' ← base_remove_entry idx h; Ret (entry_value h e, Some h')
  end.

Definition hashmap_remove2 (h : option HashmapBase) (key : Z) : outcome (Z * Z * option HashmapBase) :=
  match h with
  | None => Ret (NULL, NULL, None)
  | Some h =>
      '(_, idx) ← find_entry h key;
      if idx =? IDX_NIL then Ret (NULL, NULL, Some h)
      else e ←! bucket_at h idx; h ← base_remove_entry idx h; Ret (e_value e, e_key e, Some h)
  end.

Definition internal_hashmap_remove_value (h : option HashmapBase) (key value : Z) : outcome (Z * option HashmapBase) :=
  match h with
  | None => Ret (NULL, None)
  | Some h =>
      '(_, idx) ← find_entry h key;
      if idx =? IDX_NIL then Ret (NULL, Some h)
      else
        e ←! bucket_at h idx;
        if entry_value h e =? value then h ← base_remove_entry idx h; Ret (value, Some h) else Ret (NULL, Some h)
  end.

Definition hashmap_remove_and_put (old_key new_key value : Z) (h : option HashmapBase) : outcome (Z * option HashmapBase) :=
  match h with
  | None => Ret (- ENOENT, None)
  | Some h =>
      '(_, idx) ← find_entry h old_key;
      if idx =? IDX_NIL then Ret (- ENOENT, Some h)
      else
        '(new_hash, idx') ← find_entry h new_key;
        if negb (idx' =? IDX_NIL) then Ret (- EEXIST, Some h)
        else
          h ← base_remove_entry idx h;
          '(r, h) ← hashmap_base_put_boldly new_hash new_key value false h;
          require r =? 1;
          Ret (0, Some h)
  end.

Definition set_remove_and_put (old_key new_key : Z) : option HashmapBase → outcome (Z * option HashmapBase) :=
  hashmap_remove_and_put old_key new_key 0.

Definition hashmap_remove_and_replace (old_key new_key value : Z) (h : option HashmapBase) : outcome (Z * option HashmapBase) :=
  match h with
  | None => Ret (- ENOENT, None)
  | Some h =>
      '(_, idx_old) ← find_entry h old_key;
      if idx_old =? IDX_NIL then Ret (- ENOENT, Some h)
      else
        e_old ←! bucket_at h idx_old;
        let old_key := e_key e_old in
        '(new_hash, idx_new) ← find_entry h new_key;
        '(idx_old, h) ← (if negb (idx_new =? IDX_NIL) && negb (idx_old =? idx_new) then
                           h ← base_remove_entry idx_new h;
                           e ←! bucket_at h idx_old;
                           let idx_old := if old_key =? e_key e then idx_old else prev_idx h idx_old in
                           e ←! bucket_at h idx_old;
                           require old_key =? e_key e;
                           Ret (idx_old, h)
                         else Ret (idx_old, h));
        h ← base_remove_entry idx_old h;
        '(r, h) ← hashmap_base_put_boldly new_hash new_key value false h;
        require r =? 1;
        Ret (0, Some h)
  end.

Definition find_first_entry (h : HashmapBase) : outcome (Z * HashmapBase) :=
  if n_entries h =? 0 then Ret (IDX_NIL, h)
  else '(idx, _, h) ← hashmap_iterate_entry h ITERATOR_FIRST; Ret (idx, h).

(** The value and key of the first entry, which [remove] takes out. *)
Definition internal_hashmap_first_key_and_value (remove : bool) (h : option HashmapBase) : outcome (Z * Z * option HashmapBase) :=
  match h with
  | None => Ret (NULL, NULL, None)
  | Some h =>
      '(idx, h) ← find_first_entry h;
      if idx =? IDX_NIL then Ret (NULL, NULL, Some h)
      else
        e ←! bucket_at h idx;
        h' ← (if remove then base_remove_entry idx h else Ret h);
        Ret (entry_value h e, e_key e, Some h')
  end.

Definition internal_hashmap_size (h : option HashmapBase) : Z := from_option n_entries 0 h.
Definition internal_hashmap_buckets (h : option HashmapBase) : Z := from_option n_buckets 0 h.

Definition internal_hashmap_reserve (entries_add : Z) (h : HashmapBase) : outcome (Z * HashmapBase) :=
  '(r, h) ← resize_buckets entries_add h; Ret (if r <? 0 then r else 0, h).

(** The loops over the entries of another map. *)
Fixpoint merge_entries (put : Z * Z → HashmapBase → outcome (Z * HashmapBase)) (ignored : Z → bool)
    (l : list (Z * Z)) (h : HashmapBase) : outcome (Z * HashmapBase) :=
  match l with
  | [] => Ret (0, h)
  | p :: l =>
      '(r, h) ← put p h;
      if (r <? 0) && negb (ignored r) then Ret (r, h) else merge_entries put ignored l h
  end.

Definition internal_hashmap_merge (h other : HashmapBase) : outcome (Z * HashmapBase * HashmapBase) :=
  '(l, other) ← hashmap_entries other;
  '(r, h) ← merge_entries (λ p, hashmap_put p.1 p.2) (λ r, r =? - EEXIST) l h;
  Ret (r, h, other).

Definition set_merge (h other : HashmapBase) : outcome (Z * HashmapBase * HashmapBase) :=
  '(l, other) ← hashmap_entries other;
  '(r, h) ← merge_entries (λ p, set_put p.1) (λ _, false) l h;
  Ret (r, h, other).

Definition internal_hashmap_copy (h : HashmapBase) : outcome (option HashmapBase * HashmapBase) :=
  let copy := hashmap_base_new (h_type h) in
  '(r, copy, h) ← (if decide (h_type h = HASHMAP_TYPE_SET) then set_merge copy h else internal_hashmap_merge copy h);
  Ret (if r <? 0 then None else Some copy, h).

(** The values, in the order of the iteration. *)
Definition internal_hashmap_get_strv (h : HashmapBase) : outcome (list Z * HashmapBase) :=
  '(l, h) ← hashmap_entries h; Ret (l.*2, h).

Definition ordered_hashmap_next (h : option HashmapBase) (key : Z) : outcome Z :=
  match h with
  | None => Ret NULL
  | Some h =>
      '(_, idx) ← find_entry h key;
      if idx =? IDX_NIL then Ret NULL
      else
        e ←! bucket_at h idx;
        if iterate_next e =? IDX_NIL then Ret NULL
        else n ←! bucket_at h (iterate_next e); Ret (e_value n)
  end.

(** [HASHMAP_FOREACH_IDX] over the other map, whose current entry is removed. *)
Fixpoint move_loop (n : nat) (i : Iterator) (h other : HashmapBase) : outcome (HashmapBase * HashmapBase) :=
  match n with
  | O => OutOfFuel
  | S n =>
      '(idx, i, other) ← hashmap_iterate_entry other i;
      if idx =? IDX_NIL then Ret (h, other)
      else
        e ←! bucket_at other idx;
        '(h_hash, idx') ← find_entry h (e_key e);
        if negb (idx' =? IDX_NIL) then move_loop n i h other
        else
          '(r, h) ← hashmap_base_put_boldly h_hash (e_key e) (e_value e) false h;
          require r =? 1;
          other ← base_remove_entry idx other;
          move_loop n i h other
  end.

Definition internal_hashmap_move (h other : HashmapBase) : outcome (Z * HashmapBase * HashmapBase) :=
  require bool_decide (h_type other = h_type h);
  '(r, h) ← resize_buckets (n_entries other) h;
  if r <? 0 then Ret (r, h, other)
  else '(h, other) ← move_loop (2 * fuel_of other) ITERATOR_FIRST h other; Ret (0, h, other).

Definition internal_hashmap_move_one (key : Z) (h other : HashmapBase) : outcome (Z * HashmapBase * HashmapBase) :=
  '(h_hash, idx) ← find_entry h key;
  if negb (idx =? IDX_NIL) then Ret (- EEXIST, h, other)
  else
    require bool_decide (h_type other = h_type h);
    '(_, idx) ← find_entry other key;
    if idx =? IDX_NIL then Ret (- ENOENT, h, other)
    else
      e ←! bucket_at other idx;
      '(r, h) ← hashmap_base_put_boldly h_hash (e_key e) (e_value e) true h;
      if r <? 0 then Ret (r, h, other) else other ← base_remove_entry idx other; Ret (0, h, other).

End Table.
