(* ===== verification/HashMapLinks.v ===== *)
(** * systemd: the lists of ordered hash maps

    The entries of an ordered hash map are a doubly linked list by indexes; moving
    an entry to another bucket, unlinking it and appending one keep the list. *)

From S2P Require Import Prelude Outcome SipHash HashMap.

#[local] Open Scope Z_scope.
#[local] Set Warnings "-clear-no-such-hyp".

(** ** Chains of entries *)

(** The entries at [X] follow each other, the first after [p], the last before
    [nx]. *)
Fixpoint chain (s : gmap Z Entry) (p : Z) (X : list Z) (nx : Z) : Prop :=
  match X with
  | [] => True
  | i :: X => (∃ e, s !! i = Some e ∧ iterate_previous e = p ∧ iterate_next e = hd nx X) ∧ chain s i X nx
  end.

Definition last_of (p : Z) (X : list Z) : Z := default p (last X).

Lemma last_of_cons p i X : last_of p (i :: X) = last_of i X.
Proof. unfold last_of. by destruct X as [|j X]; [|rewrite last_cons_cons; destruct (last (j :: X)) eqn:E; [|apply last_None in E]]. Qed.

Lemma last_of_snoc p X i : last_of p (X ++ [i]) = i.
Proof. unfold last_of. by rewrite last_snoc. Qed.

Lemma last_of_app p A x B : last_of p (A ++ x :: B) = last_of x B.
Proof. unfold last_of. rewrite last_app_cons. destruct B as [|y B]; [done|]. rewrite last_cons_cons. by destruct (last (y :: B)) eqn:E; [|apply last_None in E]. Qed.

Lemma chain_app s p A B nx : chain s p (A ++ B) nx ↔ chain s p A (hd nx B) ∧ chain s (last_of p A) B nx.
Proof.
  revert p. induction A as [|i A IH]; intros p; [by rewrite app_nil_l; naive_solver|]. rewrite last_of_cons. cbn. rewrite IH.
  assert (hd nx (A ++ B) = hd (hd nx B) A) as -> by (by destruct A). tauto.
Qed.

Lemma chain_frame s s' p X nx : (∀ i, i ∈ X → s' !! i = s !! i) → chain s p X nx → chain s' p X nx.
Proof.
  revert p. induction X as [|i X IH]; intros p HX; [done|]. cbn. intros [(e & E & He) C]. split.
  - exists e. by rewrite HX by left.
  - apply IH; [|done]. intros j Hj. apply HX. by right.
Qed.

(** The entry after or before a gap gets a new neighbour. *)
Definition patch_previous (b p : Z) (s : gmap Z Entry) : gmap Z Entry := if b =? IDX_NIL then s else alter (with_previous p) b s.
Definition patch_next (a nx : Z) (s : gmap Z Entry) : gmap Z Entry := if a =? IDX_NIL then s else alter (with_next nx) a s.

Lemma chain_previous s p p' B nx : NoDup B → IDX_NIL ∉ B → chain s p B nx → chain (patch_previous (hd IDX_NIL B) p' s) p' B nx.
Proof.
  destruct B as [|b B]; [done|]. intros [Hb N]%NoDup_cons [Hn _]%not_elem_of_cons. unfold patch_previous. cbn [hd].
  rewrite (proj2 (Z.eqb_neq b IDX_NIL)) by congruence. cbn. intros [(e & E & _ & He) C]. split.
  - exists (with_previous p' e). by rewrite lookup_alter_eq, E.
  - apply (chain_frame s); [|done]. intros i Hi. rewrite lookup_alter_ne; [done|]. by intros ->.
Qed.

Lemma chain_next s p A nx nx' : NoDup A → IDX_NIL ∉ A → chain s p A nx → chain (patch_next (last_of IDX_NIL A) nx' s) p A nx'.
Proof.
  destruct A as [|a A _] using rev_ind; [done|]. intros (N & Ha & _)%NoDup_app Hn. rewrite last_of_snoc. unfold patch_next.
  assert (a ≠ IDX_NIL) as Hn' by (intros ->; set_solver). rewrite (proj2 (Z.eqb_neq a IDX_NIL)) by done.
  rewrite !chain_app. cbn. intros [CA [(e & E & Hp & _) _]]. split.
  - apply (chain_frame s); [|done]. intros i Hi. rewrite lookup_alter_ne; [done|]. intros ->. apply (Ha i Hi). left.
  - split; [|done]. exists (with_next nx' e). by rewrite lookup_alter_eq, E.
Qed.

Lemma patch_previous_ne b p s i : i ≠ b → patch_previous b p s !! i = s !! i.
Proof. intros Hi. unfold patch_previous. destruct (b =? IDX_NIL); [done|]. by rewrite lookup_alter_ne. Qed.

Lemma patch_next_ne a nx s i : i ≠ a → patch_next a nx s !! i = s !! i.
Proof. intros Hi. unfold patch_next. destruct (a =? IDX_NIL); [done|]. by rewrite lookup_alter_ne. Qed.

Definition data (e : Entry) : Z * Z := (e_key e, e_value e).

Lemma patch_previous_data b p s i : data <$> patch_previous b p s !! i = data <$> s !! i.
Proof. unfold patch_previous. destruct (b =? IDX_NIL); [done|]. rewrite lookup_alter. case_decide; [subst|done]. by destruct (s !! i). Qed.

Lemma patch_next_data a nx s i : data <$> patch_next a nx s !! i = data <$> s !! i.
Proof. unfold patch_next. destruct (a =? IDX_NIL); [done|]. rewrite lookup_alter. case_decide; [subst|done]. by destruct (s !! i). Qed.

Lemma chain_mem s p X nx i : chain s p X nx → i ∈ X → is_Some (s !! i).
Proof.
  revert p. induction X as [|j X IH]; intros p; [by intros _ ?%not_elem_of_nil|]. cbn. intros [(e & E & _) C] [->|Hi]%elem_of_cons; [by exists e|eauto].
Qed.

(** ** Lists *)

(** All but the links is the same. *)
Definition bare (h : HashmapBase) : HashmapBase := set_ends 0 0 (set_store ∅ h).

(** Key and value of the entry at an index. *)
Definition kv (h : HashmapBase) (i : Z) : option (Z * Z) := data <$> store h !! i.

(** The list of the map has the entries at the indexes [X], in this order; a map
    without list has no links. *)
Definition linked (h : HashmapBase) (X : list Z) : Prop :=
  h_type h = HASHMAP_TYPE_ORDERED →
  iterate_list_head h = hd IDX_NIL X ∧ iterate_list_tail h = last_of IDX_NIL X ∧ chain (store h) IDX_NIL X IDX_NIL.

(** Another index in place of one. *)
Definition rename (a b : Z) (X : list Z) : list Z := map (λ i, if decide (i = a) then b else i) X.

Lemma rename_split a b A B : a ∉ A → a ∉ B → rename a b (A ++ a :: B) = A ++ b :: B.
Proof.
  assert (∀ X, a ∉ X → rename a b X = X) as HX.
  { induction X as [|i X IH]; [done|]. intros [Ha HX]%not_elem_of_cons. cbn. rewrite decide_False by congruence. f_equal. by apply IH. }
  intros HA HB. unfold rename. rewrite map_app. cbn. rewrite decide_True by done. f_equal; [by apply HX|]. f_equal. by apply HX.
Qed.

Lemma rename_length a b X : length (rename a b X) = length X.
Proof. apply length_map. Qed.

Lemma rename_elem a b X i : i ∈ rename a b X ↔ (i = b ∧ a ∈ X) ∨ (i ≠ a ∧ i ∈ X).
Proof.
  unfold rename. rewrite list_elem_of_fmap. split.
  - intros (j & -> & Hj). destruct (decide (j = a)) as [->|]; auto.
  - intros [[-> Ha]|[Hi Hx]]; [exists a; by rewrite decide_True|exists i; by rewrite decide_False].
Qed.

Lemma rename_nodup a b X : NoDup X → b ∉ X → NoDup (rename a b X).
Proof.
  intros N Hb. apply NoDup_fmap_2_strong; [|done]. intros x y Hx Hy. repeat case_decide; subst; intros E; subst; try done.
Qed.

(** ** Moves *)

Section Links.
Context `{HashEnv}.

Lemma bare_virtual h h' : bare h' = bare h → ∀ i, is_virtual h' i = is_virtual h i.
Proof.
  intros E i. unfold is_virtual, n_buckets. rewrite (f_equal has_indirect E : has_indirect h' = _).
  rewrite (f_equal i_n_buckets E : i_n_buckets h' = _). by rewrite (f_equal h_type E : h_type h' = _).
Qed.

Lemma insert_alter (s : gmap Z Entry) i f e : s !! i = Some e → <[i := f e]> s = alter f i s.
Proof.
  intros E. apply map_eq. intros j. rewrite lookup_insert, lookup_alter. case_decide; [subst; by rewrite E|done].
Qed.

Lemma modify_previous_ok h b p : (b ≠ IDX_NIL → is_virtual h b = true ∧ is_Some (store h !! b)) →
  (if b =? IDX_NIL then Some h else modify_entry (with_previous p) b h) = Some (set_store (patch_previous b p (store h)) h).
Proof.
  unfold patch_previous. destruct (b =? IDX_NIL) eqn:Eb; intros Hb; [by destruct h|]. apply Z.eqb_neq in Eb. destruct (Hb Eb) as [Hv [e E]].
  unfold modify_entry, bucket_at_virtual. rewrite Hv. cbn. rewrite E. cbn. by rewrite insert_alter.
Qed.

Lemma modify_next_ok h a nx : (a ≠ IDX_NIL → is_virtual h a = true ∧ is_Some (store h !! a)) →
  (if a =? IDX_NIL then Some h else modify_entry (with_next nx) a h) = Some (set_store (patch_next a nx (store h)) h).
Proof.
  unfold patch_next. destruct (a =? IDX_NIL) eqn:Ea; intros Ha; [by destruct h|]. apply Z.eqb_neq in Ea. destruct (Ha Ea) as [Hv [e E]].
  unfold modify_entry, bucket_at_virtual. rewrite Hv. cbn. rewrite E. cbn. by rewrite insert_alter.
Qed.

Lemma hd_elem X : hd IDX_NIL X ≠ IDX_NIL → hd IDX_NIL X ∈ X.
Proof. destruct X; [done|]. left. Qed.

Lemma last_elem X : last_of IDX_NIL X ≠ IDX_NIL → last_of IDX_NIL X ∈ X.
Proof. destruct X as [|x X _] using rev_ind; [done|]. rewrite last_of_snoc. set_solver. Qed.

Lemma nil_not_virtual h : is_virtual h IDX_NIL = false.
Proof. done. Qed.

(** What a move leaves: the entry is at [to], all else has its key and value. *)
Record moved (from to : Z) (h h' : HashmapBase) : Prop := {
  m_bare : bare h' = bare h;
  m_to : kv h' to = kv h from;
  m_other : ∀ i, i ≠ to → kv h' i = kv h i }.

Lemma move_ok h from to X : NoDup X → from ∈ X → to ∉ X → (∀ i, i ∈ X → is_virtual h i = true) → is_virtual h to = true →
  linked h X → is_Some (store h !! from) →
  ∃ h', bucket_move_entry from to h = Some h' ∧ moved from to h h' ∧ linked h' (rename from to X).
Proof.
  intros N Hf Ht HV Hto L [e E]. assert (from ≠ to) as Hne by set_solver.
  assert (IDX_NIL ∉ X) as Hnil by (intros Hi%HV; done).
  unfold bucket_move_entry. rewrite (proj2 (Z.eqb_neq from to)) by done. cbn [negb assert_ mbind option_bind].
  unfold bucket_at_virtual. rewrite (HV from Hf), Hto. cbn [assert_ mbind option_bind]. rewrite E. cbn [mbind option_bind].
  change (h_type (set_store (<[to:=e]> (store h)) h)) with (h_type h). case_decide as Hty.
  2: { eexists. split; [done|]. split; [|done]. split; [done| |].
       - unfold kv. cbn. by rewrite lookup_insert_eq, E.
       - intros i Hi. unfold kv. cbn. by rewrite lookup_insert_ne. }
  destruct (L Hty) as (Lh & Lt & LC). apply list_elem_of_split in Hf as (A & B & ->).
  rewrite NoDup_app, NoDup_cons in N. destruct N as (NA & Hd & HfB & NB).
  assert (from ∉ A) as HfA by (intros Hi; apply (Hd from Hi); left).
  rewrite chain_app in LC. cbn in LC. destruct LC as (CA & (e' & E' & Ep & En) & CB). rewrite E in E'. injection E' as <-.
  set (h1 := set_store (<[to:=e]> (store h)) h). rewrite En, Ep.
  assert (∀ i, i ∈ A ++ B → is_virtual h1 i = true ∧ is_Some (store h1 !! i)) as HS.
  { intros i Hi. split; [apply HV; set_solver|]. cbn. rewrite lookup_insert_ne by set_solver.
    apply elem_of_app in Hi as [Hi|Hi]; [by apply (chain_mem _ _ _ _ i CA)|by apply (chain_mem _ _ _ _ i CB)]. }
  rewrite (modify_previous_ok h1). 2: { intros Hb. apply HS. pose proof (hd_elem B Hb). set_solver. }
  cbn [mbind option_bind]. set (h2 := set_store (patch_previous (hd IDX_NIL B) to (store h1)) h1).
  rewrite (modify_next_ok h2). 2: { intros Ha. pose proof (last_elem A Ha) as Hi. destruct (HS (last_of IDX_NIL A)) as [H1 H2]; [set_solver|].
    split; [done|]. cbn. apply fmap_is_Some with data. rewrite patch_previous_data. by apply fmap_is_Some. }
  cbn [mbind option_bind]. eexists. split; [done|]. split.
  - split; [done| |].
    + unfold kv. cbn. rewrite patch_next_data, patch_previous_data, lookup_insert_eq. by rewrite E.
    + intros i Hi. unfold kv. cbn. by rewrite patch_next_data, patch_previous_data, lookup_insert_ne.
  - intros _. rewrite rename_split by done.
    assert (last_of IDX_NIL A ≠ to ∧ hd IDX_NIL B ≠ to) as [Hla Hhb].
    { split; intros Heq.
      - destruct (decide (last_of IDX_NIL A = IDX_NIL)) as [En'|En']; [rewrite En' in Heq; subst to; done|]. pose proof (last_elem A En'). set_solver.
      - destruct (decide (hd IDX_NIL B = IDX_NIL)) as [En'|En']; [rewrite En' in Heq; subst to; done|]. pose proof (hd_elem B En'). set_solver. }
    cbn. rewrite Lh, Lt, !last_of_app. split_and!.
    + destruct A as [|a A]; cbn; [by rewrite Z.eqb_refl|]. rewrite (proj2 (Z.eqb_neq a from)); [done|]. set_solver.
    + destruct B as [|b B _] using rev_ind; [cbn; by rewrite Z.eqb_refl|]. rewrite !last_of_snoc.
      rewrite (proj2 (Z.eqb_neq b from)); [done|]. set_solver.
    + rewrite chain_app. cbn. split; [|split].
      * apply (chain_next _ _ A from); [done|set_solver|]. apply (chain_frame (store h)); [|done]. intros i Hi.
        rewrite patch_previous_ne, lookup_insert_ne; [done|set_solver|]. intros ->.
        destruct (decide (hd IDX_NIL B = IDX_NIL)) as [En'|En']; [rewrite En' in Hi; set_solver|]. apply (Hd _ Hi). right. by apply hd_elem.
      * exists e. rewrite patch_next_ne, patch_previous_ne, lookup_insert_eq by done. done.
      * apply (chain_frame (patch_previous (hd IDX_NIL B) to (<[to:=e]> (store h)))).
        -- intros i Hi. apply patch_next_ne. intros ->. destruct (decide (last_of IDX_NIL A = IDX_NIL)) as [En'|En']; [rewrite En' in Hi; set_solver|].
           apply (Hd _ (last_elem A En')). by right.
        -- apply (chain_previous _ from); [done|set_solver|]. apply (chain_frame (store h)); [|done]. intros i Hi. rewrite lookup_insert_ne; [done|set_solver].
Qed.

(** ** Removal and insertion *)

(** All keys and values are the same. *)
Record relinked (h h' : HashmapBase) : Prop := {
  l_bare : bare h' = bare h;
  l_kv : ∀ i, kv h' i = kv h i }.

(** The index of a bucket. *)
Definition real (h : HashmapBase) (i : Z) : Prop := 0 ≤ i < n_buckets h.

Lemma real_bucket h i e : real h i → store h !! i = Some e → bucket_at h i = Some e.
Proof. intros [H1 H2] E. unfold bucket_at. rewrite (proj2 (Z.leb_le 0 i)), (proj2 (Z.ltb_lt i _)) by done. done. Qed.

Lemma real_virtual h i : real h i → n_buckets h < IDX_SWAP_BEGIN → is_virtual h i = true.
Proof.
  intros [H1 H2] Hn. unfold is_virtual. rewrite (proj2 (Z.ltb_lt i IDX_SWAP_BEGIN)) by lia.
  by rewrite (proj2 (Z.leb_le 0 i)), (proj2 (Z.ltb_lt i _)) by done.
Qed.

Lemma real_not_nil h i : real h i → n_buckets h < IDX_SWAP_BEGIN → i ≠ IDX_NIL.
Proof. unfold real, IDX_NIL, IDX_SWAP_BEGIN. lia. Qed.

Lemma filter_split (a : Z) (A B : list Z) : a ∉ A → a ∉ B → filter (.≠ a) (A ++ a :: B) = A ++ B.
Proof. intros HA HB. rewrite filter_app, filter_cons_False by naive_solver. by rewrite !filter_ne_id. Qed.

Lemma unlink_ok h idx X : n_buckets h < IDX_SWAP_BEGIN → NoDup X → idx ∈ X → (∀ i, i ∈ X → real h i ∧ is_Some (store h !! i)) → linked h X →
  ∃ h', unlink_entry idx h = Some h' ∧ relinked h h' ∧ linked h' (filter (.≠ idx) X).
Proof.
  intros Hn N Hx HR L. unfold unlink_entry. case_decide as Hty; [|exists h; split; [done|]; split; [by split|]; by intros ?].
  destruct (L Hty) as (Lh & Lt & LC). assert (IDX_NIL ∉ X) as Hnil by (intros Hi; apply (real_not_nil h IDX_NIL); [by apply HR|done|done]).
  destruct (HR idx Hx) as [Ri [e E]]. rewrite (real_bucket h idx e Ri E). cbn [mbind option_bind].
  apply list_elem_of_split in Hx as (A & B & ->). rewrite NoDup_app, NoDup_cons in N. destruct N as (NA & Hd & HiB & NB).
  assert (idx ∉ A) as HiA by (intros Hi; apply (Hd idx Hi); left). rewrite filter_split by done.
  rewrite chain_app in LC. cbn in LC. destruct LC as (CA & (e' & E' & Ep & En) & CB). rewrite E in E'. injection E' as <-. rewrite En, Ep.
  assert (∀ h1 b p, bare h1 = bare h → is_Some (store h1 !! b) → b ≠ IDX_NIL → b ∈ A ++ B →
    (_ ← bucket_at h1 b; modify_entry (with_previous p) b h1) = Some (set_store (patch_previous b p (store h1)) h1) ∧
    (_ ← bucket_at h1 b; modify_entry (with_next p) b h1) = Some (set_store (patch_next b p (store h1)) h1)) as HM.
  { intros h1 b p Hb [eb Eb] Hnb Hin. assert (real h b) as Rb by (apply HR; set_solver).
    assert (real h1 b) as Rb1. { unfold real, n_buckets in *. by rewrite (f_equal has_indirect Hb : has_indirect h1 = _),
      (f_equal i_n_buckets Hb : i_n_buckets h1 = _), (f_equal h_type Hb : h_type h1 = _). }
    assert (is_virtual h1 b = true) as Hv by (rewrite (bare_virtual h h1 Hb); by apply real_virtual).
    rewrite (real_bucket h1 b eb Rb1 Eb). cbn [mbind option_bind]. rewrite <- modify_previous_ok, <- modify_next_ok by (intros _; split; [done|by exists eb]).
    by rewrite (proj2 (Z.eqb_neq b IDX_NIL)). }
  set (tl := if hd IDX_NIL B =? IDX_NIL then last_of IDX_NIL A else iterate_list_tail h).
  set (s1 := patch_previous (hd IDX_NIL B) (last_of IDX_NIL A) (store h)).
  assert ((if hd IDX_NIL B =? IDX_NIL then Some (set_ends (iterate_list_head h) (last_of IDX_NIL A) h)
    else _ ← bucket_at h (hd IDX_NIL B); modify_entry (with_previous (last_of IDX_NIL A)) (hd IDX_NIL B) h)
    = Some (set_ends (iterate_list_head h) tl (set_store s1 h))) as ->.
  { unfold tl, s1. destruct (hd IDX_NIL B =? IDX_NIL) eqn:Eb.
    - unfold patch_previous. rewrite Eb. by destruct h.
    - apply Z.eqb_neq in Eb. pose proof (hd_elem B Eb) as Hin. destruct (HR (hd IDX_NIL B)) as [_ Hs]; [set_solver|].
      rewrite (proj1 (HM h _ _ eq_refl Hs Eb ltac:(set_solver))). by destruct h. }
  cbn [mbind option_bind]. set (h1 := set_ends (iterate_list_head h) tl (set_store s1 h)).
  set (hd' := if last_of IDX_NIL A =? IDX_NIL then hd IDX_NIL B else iterate_list_head h).
  set (s2 := patch_next (last_of IDX_NIL A) (hd IDX_NIL B) s1).
  assert ((if last_of IDX_NIL A =? IDX_NIL then Some (set_ends (hd IDX_NIL B) (iterate_list_tail h1) h1)
    else _ ← bucket_at h1 (last_of IDX_NIL A); modify_entry (with_next (hd IDX_NIL B)) (last_of IDX_NIL A) h1)
    = Some (set_ends hd' tl (set_store s2 h1))) as ->.
  { unfold hd', s2. destruct (last_of IDX_NIL A =? IDX_NIL) eqn:Ea.
    - unfold patch_next. rewrite Ea. done.
    - apply Z.eqb_neq in Ea. pose proof (last_elem A Ea) as Hin. destruct (HR (last_of IDX_NIL A)) as [_ Hs]; [set_solver|].
      rewrite (proj2 (HM h1 _ _ eq_refl ltac:(unfold h1, s1; cbn; apply fmap_is_Some with data; rewrite patch_previous_data; by apply fmap_is_Some) Ea ltac:(set_solver))).
      done. }
  eexists. split; [done|]. split; [split; [done|]|].
  - intros i. unfold kv. cbn. unfold s2, s1. by rewrite patch_next_data, patch_previous_data.
  - intros _. unfold hd', tl. cbn. assert ((IDX_NIL ∉ A) ∧ (IDX_NIL ∉ B)) as [HnA HnB] by set_solver. split_and!.
    + destruct A as [|a A]; [done|]. cbn. destruct (Z.eqb_spec (last_of IDX_NIL (a :: A)) IDX_NIL) as [Ea|]; [|by rewrite Lh].
      rewrite last_of_cons in Ea. destruct A as [|b A _] using rev_ind; [cbn in Ea; set_solver|]. rewrite last_of_snoc in Ea. set_solver.
    + destruct B as [|b B]; cbn; [by rewrite app_nil_r|]. rewrite (proj2 (Z.eqb_neq b IDX_NIL)) by set_solver.
      by rewrite Lt, !last_of_app, last_of_cons.
    + rewrite chain_app. split.
      * apply (chain_next _ _ A idx); [done|done|]. apply (chain_frame (store h)); [|done]. intros i Hi. apply patch_previous_ne. intros ->.
        destruct (decide (hd IDX_NIL B = IDX_NIL)) as [En'|En']; [rewrite En' in Hi; done|]. apply (Hd _ Hi). right. by apply hd_elem.
      * apply (chain_frame s1).
        -- intros i Hi. apply patch_next_ne. intros ->. destruct (decide (last_of IDX_NIL A = IDX_NIL)) as [En'|En']; [rewrite En' in Hi; done|].
           apply (Hd _ (last_elem A En')). by right.
        -- by apply (chain_previous _ idx).
Qed.

(** A new entry at the end of the list. *)
Lemma swap_link_ok h X e : n_buckets h < IDX_SWAP_BEGIN → NoDup X → (∀ i, i ∈ X → real h i ∧ is_Some (store h !! i)) → linked h X →
  let h0 := set_store (<[IDX_PUT := e]> (store h)) h in
  ∃ h', link_entry h0 = Some h' ∧ relinked h0 h' ∧ linked h' (X ++ [IDX_PUT]).
Proof.
  intros Hn N HR L h0. unfold link_entry. change (h_type h0) with (h_type h). case_decide as Hty; [|exists h0; split; [done|]; split; [by split|]; by intros ?].
  destruct (L Hty) as (Lh & Lt & LC). assert (IDX_NIL ∉ X) as Hnil by (intros Hi; apply (real_not_nil h IDX_NIL); [by apply HR|done|done]).
  assert (IDX_PUT ∉ X) as Hput. { intros Hi. destruct (HR _ Hi) as [[_ Hi'] _]. unfold IDX_PUT in Hi'. lia. }
  change (iterate_list_tail h0) with (iterate_list_tail h). rewrite Lt.
  set (e' := with_next IDX_NIL (with_previous (last_of IDX_NIL X) e)). set (h1 := set_store (<[IDX_PUT := e']> (store h0)) h0).
  assert (modify_entry (λ e, with_next IDX_NIL (with_previous (last_of IDX_NIL X) e)) IDX_PUT h0 = Some h1) as ->.
  { unfold modify_entry, bucket_at_virtual. change (is_virtual h0 IDX_PUT) with true. cbn [assert_ mbind option_bind]. unfold h0 at 1. cbn. by rewrite lookup_insert_eq. }
  cbn [mbind option_bind]. change (iterate_list_tail h1) with (iterate_list_tail h). rewrite Lt.
  assert (∀ i, i ∈ X → store h1 !! i = store h !! i) as Hold by (intros i Hi; cbn; rewrite !lookup_insert_ne by set_solver; done).
  assert ((if last_of IDX_NIL X =? IDX_NIL then Some h1
    else old_tail ← bucket_at h1 (last_of IDX_NIL X); assert iterate_next old_tail =? IDX_NIL; modify_entry (with_next IDX_PUT) (last_of IDX_NIL X) h1)
    = Some (set_store (patch_next (last_of IDX_NIL X) IDX_PUT (store h1)) h1)) as ->.
  { rewrite <- modify_next_ok.
    - destruct (Z.eqb_spec (last_of IDX_NIL X) IDX_NIL) as [|Ea]; [done|]. pose proof (last_elem X Ea) as Hin. destruct (HR _ Hin) as [Rl [el El]].
      rewrite (real_bucket h1 _ el) by (done || by rewrite Hold). cbn [mbind option_bind].
      destruct X as [|x X _] using rev_ind; [done|]. rewrite last_of_snoc in El. rewrite chain_app in LC. destruct LC as [_ [(ex & Ex & _ & Hx) _]].
      rewrite El in Ex. injection Ex as <-. cbn in Hx. rewrite Hx, Z.eqb_refl. done.
    - intros Ea. pose proof (last_elem X Ea) as Hin. destruct (HR _ Hin) as [Rl Hs]. split; [by apply real_virtual|by rewrite Hold]. }
  cbn [mbind option_bind]. eexists. split; [done|]. split; [split; [done|]|].
  - intros i. unfold kv. cbn. rewrite patch_next_data, !lookup_insert. repeat case_decide; done.
  - intros _. cbn. rewrite Lh, last_of_snoc. split_and!; [|done|].
    + destruct X as [|x X]; [done|]. cbn. rewrite (proj2 (Z.eqb_neq x IDX_NIL)); [done|]. set_solver.
    + rewrite chain_app. split.
      * apply (chain_next _ _ X IDX_NIL); [done|done|]. apply (chain_frame (store h)); [|done]. intros i Hi. by apply Hold.
      * cbn. split; [|done]. exists e'. rewrite patch_next_ne, lookup_insert_eq; [done|]. intros Hp.
        destruct (decide (last_of IDX_NIL X = IDX_NIL)) as [En'|En']; [rewrite En' in Hp; done|]. apply Hput. rewrite Hp. by apply last_elem.
Qed.

End Links.
