(* ===== verification/HashMapProps.v ===== *)
(** * systemd: Robin Hood hashing

    The table of a hash map: the distance byte of a full bucket is the distance of
    its key from the bucket the key hashes to, and the bucket before an entry that
    is away from home is full with an entry at least as far away but one. From
    this, search finds every entry, insertion and removal keep it. *)

From S2P Require Import Prelude Outcome SipHash HashMap HashMapLinks.

#[local] Open Scope Z_scope.
#[local] Set Warnings "-clear-no-such-hyp".

#[local] Ltac rlia := unfold real, IDX_PUT, IDX_TMP, IDX_SWAP_BEGIN, IDX_NIL, UINT32_MAX, DIB_RAW_REHASH, DIB_RAW_FREE, DIB_RAW_OVERFLOW in *; lia.

(** ** Circular distance *)

Lemma mod_step n a : 0 < n → (a + 1) mod n = if decide (a mod n = n - 1) then 0 else a mod n + 1.
Proof.
  intros Hn. pose proof (Z.mod_pos_bound a n Hn). rewrite <- Zplus_mod_idemp_l. case_decide as E.
  - rewrite E. replace (n - 1 + 1) with n by lia. by apply Z_mod_same_full.
  - apply Z.mod_small. lia.
Qed.

Lemma mod_back n a : 0 < n → 0 < a mod n → (a - 1) mod n = a mod n - 1.
Proof.
  intros Hn Ha. pose proof (Z.mod_pos_bound a n Hn). rewrite <- Zminus_mod_idemp_l. apply Z.mod_small. lia.
Qed.

Lemma mod_eq0 n a b : 0 < n → 0 ≤ a < n → 0 ≤ b < n → (a - b) mod n = 0 → a = b.
Proof.
  intros Hn Ha Hb E. apply Z.mod_divide in E as [k E]; [|lia]. assert (k = 0) by nia. lia.
Qed.

Section Table.
Context `{HashEnv}.

(** ** Buckets *)

(** The bucket of a key, the key in a bucket, and how far it is from home. *)
Definition home (h : HashmapBase) (k : Z) : Z := default 0 (base_bucket_hash h k).
Definition key (h : HashmapBase) (i : Z) : Z := default 0 (fst <$> kv h i).
Definition dist (h : HashmapBase) (i : Z) : Z := (i - home h (key h i)) mod n_buckets h.

(** Placed, and still to be rehashed. *)
Definition full (h : HashmapBase) (i : Z) : Prop := ∃ d, dibs h !! i = Some d ∧ d < DIB_RAW_REHASH.
Definition stale (h : HashmapBase) (i : Z) : Prop := dibs h !! i = Some DIB_RAW_REHASH.

Record buckets (h : HashmapBase) : Prop := {
  t_n : 0 < n_buckets h < IDX_SWAP_BEGIN;
  t_key : is_Some (siphash24_init (hash_key h));
  t_dibs : ∀ i, is_Some (dibs h !! i) ↔ real h i;
  t_store : ∀ i, real h i → is_Some (store h !! i);
  t_byte : ∀ i d, dibs h !! i = Some d → 0 ≤ d ≤ DIB_RAW_FREE;
  t_raw : ∀ i d, dibs h !! i = Some d → d < DIB_RAW_REHASH → d = Z.min (dist h i) DIB_RAW_OVERFLOW }.

Record table (h : HashmapBase) : Prop := {
  t_buckets :> buckets h;
  t_robin : ∀ i, real h i → full h (next_idx h i) → 0 < dist h (next_idx h i) →
    full h i ∧ dist h (next_idx h i) ≤ dist h i + 1 }.

Lemma full_real h i : buckets h → full h i → real h i.
Proof. intros T (d & E & _). apply (t_dibs h T). by exists d. Qed.

Lemma hash_ok h k : buckets h → base_bucket_hash h k = Some (home h k) ∧ real h (home h k).
Proof.
  intros T. unfold home, base_bucket_hash. destruct (t_key h T) as [st ->]. pose proof (t_n h T) as Hn. cbn.
  rewrite (proj2 (Z.ltb_lt 0 _)) by lia. cbn. split; [done|]. unfold real. apply Z.mod_pos_bound. lia.
Qed.

Lemma next_real h i : buckets h → real h (next_idx h i).
Proof. intros T. apply Z.mod_pos_bound. apply (t_n h T). Qed.

Lemma dist_bound h i : buckets h → 0 ≤ dist h i < n_buckets h.
Proof. intros T. apply Z.mod_pos_bound. apply (t_n h T). Qed.

(** The distance of [next_idx] from a bucket. *)
Lemma next_dist h i j : buckets h → (next_idx h i - j) mod n_buckets h =
  if decide ((i - j) mod n_buckets h = n_buckets h - 1) then 0 else (i - j) mod n_buckets h + 1.
Proof.
  intros T. pose proof (t_n h T). unfold next_idx. rewrite Zminus_mod_idemp_l. replace (i + 1 - j) with (i - j + 1) by lia.
  apply mod_step. lia.
Qed.

(** What is left to a bucket. *)
Lemma next_left h i f : buckets h → real h i → real h f → i ≠ f →
  (f - next_idx h i) mod n_buckets h = (f - i) mod n_buckets h - 1.
Proof.
  intros T Ri Rf Hne. pose proof (t_n h T). unfold next_idx. rewrite Zminus_mod_idemp_r. replace (f - (i + 1)) with (f - i - 1) by lia.
  apply mod_back; [lia|]. pose proof (Z.mod_pos_bound (f - i) (n_buckets h)). destruct (decide ((f - i) mod n_buckets h = 0)) as [E|]; [|lia].
  by apply mod_eq0 in E; [|rlia..].
Qed.

Lemma dib_ok h i d : buckets h → dibs h !! i = Some d → d < DIB_RAW_REHASH → bucket_calculate_dib h i d = Some (dist h i).
Proof.
  intros T E Hd. unfold bucket_calculate_dib. assert (full h i) as F by (by exists d). pose proof (full_real h i T F) as R.
  pose proof (t_raw h T i d E Hd) as Hr. pose proof (dist_bound h i T) as Hb. pose proof (t_n h T) as Hn.
  rewrite (proj2 (Z.eqb_neq d DIB_RAW_FREE)) by rlia.
  destruct (Z.ltb_spec d DIB_RAW_OVERFLOW) as [Ho|Ho]; [f_equal; lia|].
  destruct (t_store h T i R) as [e Ee]. rewrite (real_bucket h i e R Ee). cbn. destruct (hash_ok h (e_key e) T) as [-> [R1 R2]]. cbn. f_equal.
  unfold dist, key, kv. rewrite Ee. cbn. unfold bucket_distance. destruct R as [Ri1 Ri2]. destruct (Z.leb_spec (home h (e_key e)) i).
  - symmetry. apply Z.mod_small. lia.
  - rewrite wrapu_small by rlia. replace (n_buckets h + i - home h (e_key e)) with (i - home h (e_key e) + 1 * n_buckets h) by lia.
    rewrite <- (Z.mod_small (i - home h (e_key e) + 1 * n_buckets h) (n_buckets h)) at 1 by lia. by rewrite Z_mod_plus_full.
Qed.

(** ** Runs *)

(** An entry for [k] fits into bucket [idx] as far as the bucket before goes. *)
Definition fits (h : HashmapBase) (idx distance : Z) : Prop :=
  0 < distance → ∀ p, real h p → next_idx h p = idx → full h p ∧ distance ≤ dist h p + 1.

Definition back (h : HashmapBase) (idx j : Z) : Z := (idx - j) mod n_buckets h.

Lemma back_real h idx j : buckets h → real h (back h idx j).
Proof. intros T. apply Z.mod_pos_bound. apply (t_n h T). Qed.

Lemma next_back h idx j : buckets h → next_idx h (back h idx (j + 1)) = back h idx j.
Proof.
  intros T. unfold next_idx, back. rewrite Zplus_mod_idemp_l. f_equal. lia.
Qed.

Lemma back_dist h idx j : buckets h → 0 ≤ j < n_buckets h → (idx - back h idx j) mod n_buckets h = j.
Proof. intros T Hj. unfold back. rewrite Zminus_mod_idemp_r. replace (idx - (idx - j)) with j by lia. by apply Z.mod_small. Qed.

Lemma back_ne h idx j : buckets h → 0 < j < n_buckets h → back h idx j ≠ idx.
Proof. intros T Hj E. pose proof (back_dist h idx j T ltac:(lia)) as Hb. rewrite E, Z.sub_diag, Zmod_0_l in Hb. lia. Qed.

Lemma back_0 h idx : real h idx → back h idx 0 = idx.
Proof. intros R. unfold back. rewrite Z.sub_0_r. by apply Z.mod_small. Qed.

(** The buckets from home to where an entry fits are full, with entries at least as
    far away. *)
Lemma run_ok h idx distance : table h → real h idx → fits h idx distance →
  ∀ j : nat, (0 < j)%nat → Z.of_nat j ≤ distance →
  full h (back h idx (Z.of_nat j)) ∧ distance - Z.of_nat j ≤ dist h (back h idx (Z.of_nat j)).
Proof.
  intros T R F j Hj. induction j as [|j IH]; [lia|]. intros Hd. destruct (decide (j = 0)%nat) as [->|Hj0].
  - destruct (F ltac:(lia) (back h idx 1) (back_real h idx 1 T)) as [H1 H2].
    + replace 1 with (0 + 1) by lia. rewrite next_back by apply T. unfold back. rewrite Z.sub_0_r. apply Z.mod_small, R.
    + split; [done|]. change (Z.of_nat 1) with 1. lia.
  - destruct IH as [F1 D1]; [lia|lia|]. replace (Z.of_nat (S j)) with (Z.of_nat j + 1) by lia.
    destruct (t_robin h T (back h idx (Z.of_nat j + 1)) (back_real h idx _ T)) as [F2 D2]; rewrite next_back in * by apply T; [done|lia|].
    split; [done|lia].
Qed.

Lemma full_fits h i : table h → full h i → fits h i (dist h i).
Proof. intros T F Hd p Rp <-. by apply (t_robin h T). Qed.

(** A bucket that is not full stops every run short of a circle. *)
Lemma short_run h idx distance f : table h → real h idx → fits h idx distance → full h idx → 0 ≤ distance < n_buckets h →
  real h f → ¬ full h f → distance + 1 < n_buckets h.
Proof.
  intros T R F Fi Hd Rf Hf. destruct (decide (distance + 1 = n_buckets h)) as [E|]; [|lia]. destruct Hf.
  assert (idx ≠ f ∨ idx = f) as [Hne|<-] by lia; [|done]. pose proof (t_n h T) as Hn.
  pose proof (Z.mod_pos_bound (idx - f) (n_buckets h)) as Hb.
  destruct (run_ok h idx distance T R F (Z.to_nat ((idx - f) mod n_buckets h))) as [Hf _].
  - destruct (decide ((idx - f) mod n_buckets h = 0)) as [E0|]; [by apply mod_eq0 in E0; [|rlia..]|lia].
  - lia.
  - revert Hf. rewrite Z2Nat.id by lia. unfold back. rewrite Zminus_mod_idemp_r. replace (idx - (idx - f)) with f by lia.
    rewrite Z.mod_small by done. done.
Qed.

End Table.

(** ** Search *)

(** What the table relies on: [compare] is an equivalence of keys when it gives
    0, which [hash] respects, and the hash keys have their length. *)
Class LawfulHash `{HashEnv} : Prop := {
  compare_refl a : compare_func a a = 0;
  compare_sym a b : compare_func a b = 0 → compare_func b a = 0;
  compare_trans a b c : compare_func a b = 0 → compare_func b c = 0 → compare_func a c = 0;
  hash_compare a b st : compare_func a b = 0 → hash_func a st = hash_func b st;
  shared_key_ok : is_Some (siphash24_init shared_hash_key);
  new_key_ok h b : is_Some (siphash24_init (new_hash_key h b)) }.

Section Search.
Context `{LawfulHash}.

Lemma home_same h a b : compare_func a b = 0 → home h a = home h b.
Proof. intros E. unfold home, base_bucket_hash. destruct (siphash24_init _) as [st|]; [|done]. cbn. by rewrite (hash_compare a b st E). Qed.

Lemma scan_loop_found h k i : table h → full h i → compare_func (key h i) k = 0 →
  (∀ j, full h j → compare_func (key h j) k = 0 → j = i) →
  ∀ n distance, 0 ≤ distance ≤ dist h i → (Z.to_nat (dist h i - distance) < n)%nat →
  bucket_scan_loop n h (back h i (dist h i - distance)) distance k = Ret i.
Proof.
  intros T F Ek Hu. pose proof (full_real h i T F) as R. pose proof (dist_bound h i T) as Hb. pose proof (t_n h T) as Hn.
  induction n as [|n IH]; intros distance Hd Hfuel; [lia|]. cbn [bucket_scan_loop]. set (idx := back h i (dist h i - distance)).
  assert (distance = dist h i → idx = i) as Ei by (intros ->; unfold idx; rewrite Z.sub_diag; by apply back_0).
  assert (full h idx ∧ distance ≤ dist h idx) as [(d & Ed & Hd') Hle].
  { destruct (decide (distance = dist h i)) as [Eq|Hne]; [rewrite (Ei Eq); split; [done|lia]|].
    destruct (run_ok h i (dist h i) T R (full_fits h i T F) (Z.to_nat (dist h i - distance))) as [H1 H2]; [lia|lia|].
    rewrite Z2Nat.id in * by lia. split; [done|]. fold idx in H2. lia. }
  rewrite Ed. cbn [lift mbind outcome_bind]. rewrite (proj2 (Z.eqb_neq d DIB_RAW_FREE)) by rlia.
  rewrite (dib_ok h idx d T Ed Hd'). cbn [lift mbind outcome_bind]. rewrite (proj2 (Z.ltb_ge (dist h idx) distance)) by done.
  assert (real h idx) as Ri by (by apply back_real, T). destruct (t_store h T idx Ri) as [e Ee]. rewrite (real_bucket h idx e Ri Ee).
  assert (key h idx = e_key e) as Eke by (unfold key, kv; by rewrite Ee).
  destruct (decide (distance = dist h i)) as [Eq|Hne].
  - rewrite (Ei Eq) in *. rewrite (proj2 (Z.eqb_eq _ _)) by done. cbn. by rewrite <- Eke, Ek.
  - assert ((if dist h idx =? distance then e ←! Some e; Ret (compare_func (e_key e) k =? 0) else Ret false) = Ret false) as ->.
    { destruct (dist h idx =? distance); [|done]. cbn. rewrite (proj2 (Z.eqb_neq _ _)); [done|]. intros Hc. rewrite <- Eke in Hc.
      apply (back_ne h i (dist h i - distance) T); [lia|]. apply Hu; [by exists d|done]. }
    cbn [mbind outcome_bind]. rewrite wrapu_small by rlia. replace (next_idx h idx) with (back h i (dist h i - (distance + 1))); [apply IH; lia|].
    unfold idx. replace (dist h i - distance) with (dist h i - (distance + 1) + 1) by lia. symmetry. by apply next_back, T.
Qed.

Lemma scan_loop_missing h k : table h → (∀ i, ¬ stale h i) → (∀ j, full h j → compare_func (key h j) k ≠ 0) →
  ∀ n idx distance, real h idx → 0 ≤ distance ≤ n_buckets h → (Z.to_nat (n_buckets h - distance) < n)%nat →
  bucket_scan_loop n h idx distance k = Ret IDX_NIL.
Proof.
  intros T Hs Hm. pose proof (t_n h T) as Hn. induction n as [|n IH]; intros idx distance R Hd Hfuel; [lia|]. cbn [bucket_scan_loop].
  destruct (proj2 (t_dibs h T idx) R) as [d Ed]. rewrite Ed. cbn [lift mbind outcome_bind]. destruct (Z.eqb_spec d DIB_RAW_FREE) as [|Hfree]; [done|].
  assert (d < DIB_RAW_REHASH) as Hlt.
  { pose proof (t_byte h T idx d Ed). destruct (decide (d = DIB_RAW_REHASH)) as [->|]; [by destruct (Hs idx)|rlia]. }
  assert (full h idx) as F by (by exists d). rewrite (dib_ok h idx d T Ed Hlt). cbn [lift mbind outcome_bind].
  destruct (Z.ltb_spec (dist h idx) distance) as [|Hle]; [done|]. pose proof (dist_bound h idx T) as Hb.
  destruct (t_store h T idx R) as [e Ee]. rewrite (real_bucket h idx e R Ee).
  assert ((if dist h idx =? distance then e ←! Some e; Ret (compare_func (e_key e) k =? 0) else Ret false) = Ret false) as ->.
  { destruct (dist h idx =? distance); [|done]. cbn. rewrite (proj2 (Z.eqb_neq _ _)); [done|]. specialize (Hm idx F). unfold key, kv in Hm. by rewrite Ee in Hm. }
  cbn [mbind outcome_bind]. rewrite wrapu_small by rlia. apply IH; [by apply next_real, T|lia|lia].
Qed.

(** Where the entry of the key is. *)
Lemma find_found h k i : table h → full h i → compare_func (key h i) k = 0 →
  (∀ j, full h j → compare_func (key h j) k = 0 → j = i) → find_entry h k = Ret (home h k, i).
Proof.
  intros T F Ek Hu. unfold find_entry. destruct (hash_ok h k T) as [-> Rh]. cbn [lift mbind outcome_bind]. unfold base_bucket_scan.
  destruct Rh as [R1 R2]. rewrite (proj2 (Z.leb_le 0 _)), (proj2 (Z.ltb_lt _ _)) by done. cbn [lift mbind outcome_bind assert_ andb].
  pose proof (dist_bound h i T) as Hb. pose proof (full_real h i T F) as R.
  assert (home h k = back h i (dist h i - 0)) as ->; [|rewrite (scan_loop_found h k i); [done|done|done|done|done|lia|unfold fuel_of; lia]].
  rewrite Z.sub_0_r. unfold back, dist. rewrite Zminus_mod_idemp_r, (home_same h (key h i) k Ek).
  replace (i - (i - home h k)) with (home h k) by lia. symmetry. by apply Z.mod_small.
Qed.

Lemma find_missing h k : table h → (∀ i, ¬ stale h i) → (∀ j, full h j → compare_func (key h j) k ≠ 0) →
  find_entry h k = Ret (home h k, IDX_NIL).
Proof.
  intros T Hs Hm. unfold find_entry. destruct (hash_ok h k T) as [-> Rh]. cbn [lift mbind outcome_bind]. unfold base_bucket_scan.
  rewrite (proj2 (Z.leb_le 0 _)), (proj2 (Z.ltb_lt _ _)) by apply Rh. cbn [lift mbind outcome_bind assert_ andb]. pose proof (t_n h T).
  rewrite (scan_loop_missing h k); [done|done|done|done|done|lia|unfold fuel_of; lia].
Qed.

End Search.
