(* ===== verification/HashMapInsert.v ===== *)
(** * systemd: insertion into hash maps

    The loop of [hashmap_put_robin_hood]: it ends at the first bucket without a
    placed entry, keeps the table and the list, and loses no entry; during a
    resize it may displace an entry that waits for its turn. *)

From S2P Require Import Prelude Outcome SipHash HashMap HashMapLinks HashMapProps.

#[local] Open Scope Z_scope.
#[local] Set Warnings "-clear-no-such-hyp".
#[local] Ltac rlia := unfold real, IDX_PUT, IDX_TMP, IDX_SWAP_BEGIN, IDX_NIL, UINT32_MAX, DIB_RAW_REHASH, DIB_RAW_FREE, DIB_RAW_OVERFLOW in *; lia.

Section Insert.
Context `{HashEnv}.

(** ** The entries of a map *)

(** The indexes [X] hold the keys and values [L], in the order of the list. *)
Record listing (h : HashmapBase) (X : list Z) (L : list (Z * Z)) : Prop := {
  li_nodup : NoDup X;
  li_virtual : ∀ i, i ∈ X → is_virtual h i = true;
  li_linked : linked h X;
  li_kv : Forall2 (λ i p, kv h i = Some p) X L }.

Lemma listing_kv h X L i : listing h X L → i ∈ X → ∃ p, kv h i = Some p ∧ p ∈ L.
Proof.
  intros G Hi. apply list_elem_of_lookup in Hi as [n En]. destruct (Forall2_lookup_l _ _ _ _ _ (li_kv h X L G) En) as (p & Ep & Hp).
  exists p. split; [done|]. by apply list_elem_of_lookup_2 in Ep.
Qed.

Lemma kv_store h i p : kv h i = Some p → is_Some (store h !! i).
Proof. unfold kv. destruct (store h !! i); [by eexists|done]. Qed.

Lemma move_listing h from to X L : listing h X L → from ∈ X → to ∉ X → is_virtual h to = true →
  ∃ h', bucket_move_entry from to h = Some h' ∧ moved from to h h' ∧ listing h' (rename from to X) L.
Proof.
  intros G Hf Ht Hv. destruct (listing_kv h X L from G Hf) as (p & Ep & _).
  destruct (move_ok h from to X (li_nodup _ _ _ G) Hf Ht (li_virtual _ _ _ G) Hv (li_linked _ _ _ G) (kv_store h from p Ep)) as (h' & E & M & L').
  exists h'. split; [done|]. split; [done|]. split.
  - apply rename_nodup; [apply G|done].
  - intros i. rewrite rename_elem, (bare_virtual h h' (m_bare _ _ _ _ M)). intros [[-> _]|[_ Hi]]; [done|by apply G].
  - done.
  - apply Forall2_fmap_l, Forall2_same_length_lookup. split; [by apply (Forall2_length _ _ _ (li_kv h X L G))|]. intros n i q Ei Eq.
    pose proof (Forall2_lookup_lr _ _ _ _ _ _ (li_kv h X L G) Ei Eq) as Hq. cbn in *. apply list_elem_of_lookup_2 in Ei.
    case_decide as Hi; [subst i; by rewrite (m_to _ _ _ _ M)|]. rewrite (m_other _ _ _ _ M); [done|]. by intros ->.
Qed.

(** Moves touch neither distance bytes nor the lowest index. *)
Definition over (d : gmap Z Z) (l : Z) (h : HashmapBase) : HashmapBase := set_lowest l (set_dibs d h).

Lemma move_over from to d l h : bucket_move_entry from to (over d l h) = over d l <$> bucket_move_entry from to h.
Proof.
  unfold bucket_move_entry. destruct (from =? to); [done|]. cbn [negb assert_ mbind option_bind]. unfold bucket_at_virtual.
  change (is_virtual (over d l h)) with (is_virtual h). change (store (over d l h)) with (store h).
  destruct (is_virtual h from); [|done]. cbn [assert_ mbind option_bind]. destruct (store h !! from) as [e|]; [|done]. cbn [mbind option_bind].
  destruct (is_virtual h to); [|done]. cbn [assert_ mbind option_bind]. 
  change (h_type (set_store (<[to:=e]> (store h)) (over d l h))) with (h_type h). change (h_type (set_store (<[to:=e]> (store h)) h)) with (h_type h).
  destruct (decide (h_type h = HASHMAP_TYPE_ORDERED)); [|done].
  assert (∀ f i h, modify_entry f i (over d l h) = over d l <$> modify_entry f i h) as HM.
  { intros f i h1. unfold modify_entry, bucket_at_virtual. change (is_virtual (over d l h1)) with (is_virtual h1). change (store (over d l h1)) with (store h1).
    destruct (is_virtual h1 i); [|done]. cbn. by destruct (store h1 !! i). }
  change (set_store (<[to:=e]> (store h)) (over d l h)) with (over d l (set_store (<[to:=e]> (store h)) h)). rewrite HM.
  set (h1 := set_store (<[to:=e]> (store h)) h). destruct (iterate_next e =? IDX_NIL); cbn [mbind option_bind].
  - rewrite HM. destruct (iterate_previous e =? IDX_NIL); [done|]. by destruct (modify_entry _ _ h1).
  - destruct (modify_entry _ _ h1) as [h2|]; [|done]. cbn [fmap option_fmap option_map mbind option_bind]. rewrite HM.
    destruct (iterate_previous e =? IDX_NIL); [done|]. by destruct (modify_entry _ _ h2).
Qed.

(** ** What stays *)

(** What the buckets depend on, and all but buckets, distance bytes and links. *)
Definition frame (h : HashmapBase) := (h_type h, has_indirect h, i_hash_key h, i_n_buckets h).
Definition shell (h : HashmapBase) : HashmapBase := set_lowest 0 (set_dibs ∅ (bare h)).

Lemma frame_n h h' : frame h' = frame h → n_buckets h' = n_buckets h.
Proof. intros [= E1 E2 E3 E4]. unfold n_buckets. by rewrite E1, E2, E4. Qed.

Lemma frame_home h h' k : frame h' = frame h → home h' k = home h k.
Proof. intros E. unfold home, base_bucket_hash. rewrite (frame_n h h' E). injection E as E1 E2 E3 E4. unfold hash_key. by rewrite E2, E3. Qed.

Lemma frame_next h h' i : frame h' = frame h → next_idx h' i = next_idx h i.
Proof. intros E. unfold next_idx. by rewrite (frame_n h h' E). Qed.

Lemma frame_real h h' i : frame h' = frame h → real h' i ↔ real h i.
Proof. intros E. unfold real. by rewrite (frame_n h h' E). Qed.

Lemma frame_virtual h h' i : frame h' = frame h → is_virtual h' i = is_virtual h i.
Proof. intros E. unfold is_virtual. by rewrite (frame_n h h' E). Qed.

Lemma frame_key h h' : frame h' = frame h → hash_key h' = hash_key h.
Proof. intros [= E1 E2 E3 E4]. unfold hash_key. by rewrite E2, E3. Qed.

Lemma shell_frame h h' : shell h' = shell h → frame h' = frame h.
Proof.
  intros E. unfold frame. by rewrite (f_equal h_type E : h_type h' = _), (f_equal has_indirect E : has_indirect h' = _),
    (f_equal i_hash_key E : i_hash_key h' = _), (f_equal i_n_buckets E : i_n_buckets h' = _).
Qed.

Lemma bare_shell h h' : bare h' = bare h → shell h' = shell h.
Proof. unfold shell. by intros ->. Qed.

Lemma shell_over d l h : shell (over d l h) = shell h.
Proof. done. Qed.

Lemma bare_dibs h h' : bare h' = bare h → dibs h' = dibs h.
Proof. intros E. exact (f_equal dibs E). Qed.

Lemma listing_frame h h' X L : frame h' = frame h → store h' = store h → iterate_list_head h' = iterate_list_head h →
  iterate_list_tail h' = iterate_list_tail h → listing h X L → listing h' X L.
Proof.
  intros E Es Eh Et [G1 G2 G3 G4]. split; [done| | |].
  - intros i Hi. rewrite (frame_virtual h h' i E). by apply G2.
  - unfold linked. rewrite Es, Eh, Et. injection E as -> _ _ _. done.
  - unfold kv. by rewrite Es.
Qed.

Lemma buckets_frame h h' : buckets h → frame h' = frame h → (∀ i, is_Some (dibs h' !! i) ↔ is_Some (dibs h !! i)) →
  (∀ i, real h i → is_Some (store h' !! i)) →
  (∀ i d, real h i → dibs h' !! i = Some d → 0 ≤ d ≤ DIB_RAW_FREE ∧ (d < DIB_RAW_REHASH → d = Z.min (dist h' i) DIB_RAW_OVERFLOW)) → buckets h'.
Proof.
  intros T E Hd Hs Hb. assert (∀ i d, dibs h' !! i = Some d → real h i) as HR.
  { intros i d Ei. apply (t_dibs h T), Hd. by exists d. }
  split.
  - by rewrite (frame_n h h' E); apply T.
  - rewrite (frame_key h h' E). apply T.
  - intros i. rewrite (frame_real h h' i E), Hd. apply T.
  - intros i Ri%(frame_real h h' i E). by apply Hs.
  - intros i d Ei. by apply (Hb i d (HR i d Ei)).
  - intros i d Ei. by apply (Hb i d (HR i d Ei)).
Qed.

(** ** Swaps *)

Lemma put_virtual h : is_virtual h IDX_PUT = true.
Proof. done. Qed.
Lemma tmp_virtual h : is_virtual h IDX_TMP = true.
Proof. done. Qed.

(** The entries of a bucket and of the swap slot change places. *)
Lemma swap_ok h idx X L : listing h X L → idx ∈ X → IDX_PUT ∈ X → IDX_TMP ∉ X → idx ≠ IDX_PUT →
  ∃ h1 h2 h3 X', bucket_move_entry idx IDX_TMP h = Some h1 ∧ bucket_move_entry IDX_PUT idx h1 = Some h2 ∧
    bucket_move_entry IDX_TMP IDX_PUT h2 = Some h3 ∧ bare h1 = bare h ∧ bare h3 = bare h ∧ kv h3 idx = kv h IDX_PUT ∧ kv h3 IDX_PUT = kv h idx ∧
    (∀ i, i ≠ idx → i ≠ IDX_PUT → i ≠ IDX_TMP → kv h3 i = kv h i) ∧ listing h3 X' L ∧ (∀ i, i ∈ X' ↔ i ∈ X).
Proof.
  intros G Hi Hp Ht Hne. assert (idx ≠ IDX_TMP) as Hnt by congruence. pose proof (li_virtual _ _ _ G idx Hi) as Hv.
  destruct (move_listing h idx IDX_TMP X L G Hi Ht (tmp_virtual h)) as (h1 & E1 & M1 & G1). pose proof (m_bare _ _ _ _ M1) as B1.
  destruct (move_listing h1 IDX_PUT idx _ L G1) as (h2 & E2 & M2 & G2); [rewrite rename_elem; by right|rewrite rename_elem; naive_solver| |].
  { by rewrite (bare_virtual h h1 B1). }
  pose proof (m_bare _ _ _ _ M2) as B2.
  destruct (move_listing h2 IDX_TMP IDX_PUT _ L G2) as (h3 & E3 & M3 & G3); [| |done|].
  { rewrite !rename_elem. right. split; [done|]. by left. }
  { rewrite !rename_elem. naive_solver. }
  pose proof (m_bare _ _ _ _ M3) as B3. eexists h1, h2, h3, _. split_and!; [done|done|done|done|congruence| | | |exact G3|].
  - rewrite (m_other _ _ _ _ M3), (m_to _ _ _ _ M2), (m_other _ _ _ _ M1) by done. done.
  - rewrite (m_to _ _ _ _ M3), (m_other _ _ _ _ M2), (m_to _ _ _ _ M1) by done. done.
  - intros i H1 H2 H3. rewrite (m_other _ _ _ _ M3), (m_other _ _ _ _ M2), (m_other _ _ _ _ M1) by done. done.
  - clear - Hi Hp Ht Hne Hnt. intros i. rewrite !rename_elem. destruct (decide (i = IDX_PUT)) as [->|]; [naive_solver|]. destruct (decide (i = idx)) as [->|]; [naive_solver|].
    destruct (decide (i = IDX_TMP)) as [->|]; naive_solver.
Qed.

(** ** Placing an entry *)

Lemma dibs_full h h' idx d : dibs h' = <[idx := d]> (dibs h) → d < DIB_RAW_REHASH →
  ∀ i, full h' i ↔ i = idx ∨ full h i.
Proof.
  intros E Hd i. unfold full. rewrite E. destruct (decide (i = idx)) as [->|Hne].
  - rewrite lookup_insert_eq. split; [by left|]. intros _. by exists d.
  - rewrite lookup_insert_ne by done. naive_solver.
Qed.

Lemma dibs_stale h h' idx d : dibs h' = <[idx := d]> (dibs h) → d ≠ DIB_RAW_REHASH → ∀ i, stale h' i ↔ i ≠ idx ∧ stale h i.
Proof.
  intros E Hd i. unfold stale. rewrite E. destruct (decide (i = idx)) as [->|Hne].
  - rewrite lookup_insert_eq. naive_solver.
  - rewrite lookup_insert_ne by done. naive_solver.
Qed.

Lemma kv_key h h' i : kv h' i = kv h i → key h' i = key h i.
Proof. unfold key. by intros ->. Qed.

Lemma kv_dist h h' i : frame h' = frame h → kv h' i = kv h i → dist h' i = dist h i.
Proof. intros E K. unfold dist. by rewrite (frame_home h h' _ E), (frame_n h h' E), (kv_key h h' i K). Qed.

(** The entry for the swap slot at a bucket where it fits, in place of none or of
    one nearer to its home. *)
Lemma place_table h h' idx distance : table h → frame h' = frame h → real h idx →
  dibs h' = <[idx := Z.min distance DIB_RAW_OVERFLOW]> (dibs h) → (∀ i, real h i → i ≠ idx → kv h' i = kv h i) → is_Some (kv h' idx) →
  distance = (idx - home h (key h' idx)) mod n_buckets h → fits h idx distance → (full h idx → dist h idx ≤ distance) → table h'.
Proof.
  intros T E R Ed HK Hs Edist F Hf. pose proof (t_n h T) as Hn. assert (0 ≤ distance) as Hpos by (subst distance; apply Z.mod_pos_bound; lia).
  assert (∀ i, full h' i ↔ i = idx ∨ full h i) as HF by (apply (dibs_full h h' idx _ Ed); rlia).
  assert (dist h' idx = distance) as Edi by (unfold dist; by rewrite (frame_home h h' _ E), (frame_n h h' E)).
  assert (∀ i, real h i → i ≠ idx → dist h' i = dist h i) as HD by (intros i Ri Hi; apply kv_dist; auto).
  split.
  - apply (buckets_frame h h' T E).
    + intros i. rewrite Ed. destruct (decide (i = idx)) as [->|]; [|by rewrite lookup_insert_ne].
      rewrite lookup_insert_eq. split; [intros _; by apply (t_dibs h T)|by eexists].
    + intros i Ri. destruct (decide (i = idx)) as [->|Hi]; [by apply fmap_is_Some in Hs|].
      eapply fmap_is_Some. unfold kv in HK. rewrite HK by done. apply fmap_is_Some. by apply T.
    + intros i d Ri. rewrite Ed. destruct (decide (i = idx)) as [->|Hi].
      * rewrite lookup_insert_eq. intros [= <-]. split; [rlia|]. by rewrite Edi.
      * rewrite lookup_insert_ne by done. intros Ei. rewrite HD by done. split; [by apply (t_byte h T i)|by apply (t_raw h T)].
  - intros i Ri%(frame_real h h' i E). rewrite (frame_next h h' i E), !HF. pose proof (next_real h i T) as Rn.
    destruct (decide (next_idx h i = idx)) as [En|Hne].
    + intros _. rewrite En, Edi. intros Hd. destruct (F Hd i Ri En) as [F1 F2]. split; [by right|].
      destruct (decide (i = idx)) as [->|]; [rewrite Edi|rewrite HD by done]; lia.
    + intros [|Fn]; [done|]. rewrite HD by done. intros Hd. destruct (t_robin h T i Ri Fn Hd) as [F1 F2]. split; [by right|].
      destruct (decide (i = idx)) as [->|]; [rewrite Edi; specialize (Hf F1); lia|by rewrite HD].
Qed.

(** ** The invariant of insertion *)

(** [X] has the buckets in use and maybe the swap slot. *)
Record rh (h : HashmapBase) (X : list Z) (L : list (Z * Z)) : Prop := {
  rh_table : table h;
  rh_listing : listing h X L;
  rh_in : ∀ i, i ∈ X → i = IDX_PUT ∨ full h i ∨ stale h i;
  rh_used : ∀ i, full h i ∨ stale h i → i ∈ X;
  rh_low : has_indirect h = true → 0 ≤ idx_lowest_entry h ∧ ∀ i, full h i ∨ stale h i → idx_lowest_entry h ≤ i }.

Lemma used_real h i : buckets h → full h i ∨ stale h i → real h i.
Proof. intros T [F|S]; [by apply full_real|]. apply (t_dibs h T). by exists DIB_RAW_REHASH. Qed.

Lemma real_swap h i : buckets h → real h i → i ≠ IDX_PUT ∧ i ≠ IDX_TMP.
Proof. intros T R. pose proof (t_n h T). rlia. Qed.

Lemma rh_tmp h X L : rh h X L → IDX_TMP ∉ X.
Proof.
  intros G Hi. destruct (rh_in _ _ _ G _ Hi) as [E|U]; [done|]. pose proof (rh_table _ _ _ G) as T.
  by destruct (real_swap h _ T (used_real h _ T U)).
Qed.

Lemma place_rh h h3 idx distance l X X' L : rh h X L → bare h3 = bare h → real h idx → listing h3 X' L →
  (∀ i, real h i → i ≠ idx → kv h3 i = kv h i) → distance = (idx - home h (key h3 idx)) mod n_buckets h → fits h idx distance →
  (full h idx → dist h idx ≤ distance) → idx ∈ X' → (∀ i, real h i → i ∈ X → i ∈ X') → (∀ i, i ∈ X' → i = idx ∨ i ∈ X) →
  (has_indirect h = true → 0 ≤ l ≤ idx ∧ l ≤ idx_lowest_entry h) →
  rh (over (<[idx := Z.min distance DIB_RAW_OVERFLOW]> (dibs h)) l h3) X' L.
Proof.
  intros G B R GL HK Edist F Hf Hi Hin Hout Hl. pose proof (rh_table _ _ _ G) as T. set (h' := over _ l h3).
  assert (frame h3 = frame h) as E by apply shell_frame, bare_shell, B. assert (frame h' = frame h) as E' by done.
  set (d := Z.min distance DIB_RAW_OVERFLOW) in *. assert (d < DIB_RAW_REHASH) as Hd by (unfold d; rlia).
  pose proof (dibs_full h h' idx d eq_refl Hd) as HF. pose proof (dibs_stale h h' idx d eq_refl ltac:(rlia)) as HS. split.
  - apply (place_table h h' idx distance); try done. destruct (listing_kv h3 X' L idx GL Hi) as (p & Ep & _). by exists p.
  - by apply (listing_frame h3).
  - intros i Hx. rewrite HF, HS. destruct (Hout i Hx) as [->|Hx']; [auto|]. destruct (rh_in _ _ _ G i Hx') as [|[|]]; [auto..|].
    destruct (decide (i = idx)); auto.
  - intros i. rewrite HF, HS. intros U. destruct (decide (i = idx)) as [->|Hne]; [done|]. assert (full h i ∨ stale h i) as U' by naive_solver.
    apply Hin; [by apply (used_real h i T)|]. by apply (rh_used _ _ _ G).
  - intros Hind. assert (has_indirect h = true) as Hind' by (injection E as _ <- _ _; done). destruct (Hl Hind') as [H1 H2].
    change (idx_lowest_entry h') with l. split; [lia|]. intros i. rewrite HF, HS. intros U. destruct (decide (i = idx)) as [->|Hne]; [lia|].
    assert (full h i ∨ stale h i) as U' by naive_solver. pose proof (proj2 (rh_low _ _ _ G Hind') i U'). lia.
Qed.

(** ** The loop *)

Lemma over_id h : over (dibs h) (idx_lowest_entry h) h = h.
Proof. by destruct h. Qed.

Lemma set_dib_over h idx distance : is_Some (dibs h !! idx) → 0 ≤ distance < DIB_FREE →
  bucket_set_dib idx distance h = Some (over (<[idx := Z.min distance DIB_RAW_OVERFLOW]> (dibs h)) (idx_lowest_entry h) h).
Proof.
  intros [d Ed] Hd. unfold bucket_set_dib. rewrite Ed. cbn. rewrite (proj2 (Z.eqb_neq distance DIB_FREE)) by lia. by destruct h.
Qed.

(** What the loop leaves: bucket [g] is filled, and the entry that waited there is
    in the swap slot. *)
Record put_done (h h' : HashmapBase) (X' : list Z) (L : list (Z * Z)) (b : bool) (g : Z) : Prop := {
  pd_shell : shell h' = shell h;
  pd_rh : rh h' X' L;
  pd_real : real h g;
  pd_hole : ¬ full h g;
  pd_full : ∀ i, full h' i ↔ i = g ∨ full h i;
  pd_stale : ∀ i, stale h' i ↔ i ≠ g ∧ stale h i;
  pd_displaced : b = true ↔ stale h g;
  pd_put : b = true ↔ IDX_PUT ∈ X';
  pd_stop : full h' (next_idx h g) → dist h' (next_idx h g) = 0 }.

Lemma next_self h i : buckets h → next_idx h i = i → n_buckets h = 1.
Proof.
  intros T E. pose proof (next_dist h i i T) as Hd. rewrite E, Z.sub_diag, Zmod_0_l in Hd. pose proof (t_n h T). case_decide; lia.
Qed.

(** The bucket after a free one is the start of a run. *)
Lemma hole_stop h i : table h → real h i → ¬ full h i → full h (next_idx h i) → dist h (next_idx h i) = 0.
Proof.
  intros T R Hf Fn. pose proof (dist_bound h (next_idx h i) T). destruct (decide (0 < dist h (next_idx h i))) as [Hd|]; [|lia].
  by destruct Hf, (t_robin h T i R Fn Hd).
Qed.

Lemma put_end n h X L idx distance : rh h X L → IDX_PUT ∈ X → real h idx → ¬ full h idx →
  distance = (idx - home h (key h IDX_PUT)) mod n_buckets h → fits h idx distance →
  ∃ b h' X', hashmap_put_robin_hood (S n) idx distance h = Ret (b, h') ∧ put_done h h' X' L b idx.
Proof.
  intros G Hp R Hf Edist F. pose proof (rh_table _ _ _ G) as T. destruct (real_swap h idx T R) as [Hnp Hnt]. pose proof (t_n h T) as Hn.
  assert (0 ≤ distance < n_buckets h) as Hd by (subst distance; apply Z.mod_pos_bound; lia).
  assert (distance < DIB_FREE) as Hd' by (unfold DIB_FREE; rlia).
  destruct (proj2 (t_dibs h T idx) R) as [raw Er]. cbn [hashmap_put_robin_hood]. rewrite Er. cbn [lift mbind outcome_bind].
  assert (raw = DIB_RAW_REHASH ∨ raw = DIB_RAW_FREE) as Hraw.
  { pose proof (t_byte h T idx raw Er). destruct (decide (raw < DIB_RAW_REHASH)); [destruct Hf; by exists raw|rlia]. }
  set (l := if has_indirect h && (idx <? idx_lowest_entry h) then idx else idx_lowest_entry h).
  assert (has_indirect h = true → 0 ≤ l ≤ idx ∧ l ≤ idx_lowest_entry h) as Hl.
  { intros Hind. pose proof (rh_low _ _ _ G Hind) as [H1 _]. unfold l. rewrite Hind. cbn. destruct (Z.ltb_spec idx (idx_lowest_entry h)); rlia. }
  assert (∀ h1, bare h1 = bare h → bucket_set_dib idx distance (if has_indirect h1 && (idx <? idx_lowest_entry h1) then set_lowest idx h1 else h1) =
    Some (over (<[idx := Z.min distance DIB_RAW_OVERFLOW]> (dibs h)) l h1)) as HS.
  { intros h1 B. assert (is_Some (dibs h1 !! idx)) as Hs by (rewrite (bare_dibs h h1 B), Er; by eexists).
    assert (idx_lowest_entry h1 = idx_lowest_entry h) as El by exact (f_equal idx_lowest_entry B).
    assert (has_indirect h1 = has_indirect h) as Ei by exact (f_equal has_indirect B).
    rewrite El, Ei, <- (bare_dibs h h1 B). unfold l. destruct (has_indirect h && _); rewrite set_dib_over by (exact Hs || lia); [done|by rewrite El]. }
  assert (∀ h3 X' b, bare h3 = bare h → listing h3 X' L → (∀ i, real h i → i ≠ idx → kv h3 i = kv h i) → kv h3 idx = kv h IDX_PUT →
    (∀ i, i ∈ X' ↔ i = idx ∨ (i ∈ X ∧ (i = IDX_PUT → b = true))) → (b = true ↔ stale h idx) →
    put_done h (over (<[idx := Z.min distance DIB_RAW_OVERFLOW]> (dibs h)) l h3) X' L b idx) as HD.
  { intros h3 X' b B GL HK Ki HX Hb. set (d := Z.min distance DIB_RAW_OVERFLOW). set (h' := over _ l h3).
    assert (frame h' = frame h) as E by exact (shell_frame h h3 (bare_shell h h3 B)).
    assert (rh h' X' L) as G'.
    { apply (place_rh h h3 idx distance l X X' L G B R GL HK); [unfold key; rewrite Ki; exact Edist|exact F|by intros ?| | | |exact Hl].
      - rewrite HX. by left.
      - intros i Ri Hi. rewrite HX. right. split; [done|]. intros ->. by destruct (real_swap h IDX_PUT T Ri).
      - intros i. rewrite HX. tauto. }
    assert (d < DIB_RAW_REHASH) as Hdr by (unfold d; rlia). pose proof (dibs_full h h' idx d eq_refl Hdr) as HF.
    split; [exact (bare_shell h h3 B)|exact G'|exact R|exact Hf|exact HF| |exact Hb| |].
    - apply (dibs_stale h h' idx d eq_refl). rlia.
    - rewrite HX. split; [auto|]. intros [Ei|[_ Hi]]; [by rewrite <- Ei in Hnp|auto].
    - intros Fn. destruct (decide (next_idx h idx = idx)) as [En|Hne].
      + apply (next_self h idx T) in En. pose proof (dist_bound h' (next_idx h idx) (rh_table _ _ _ G')) as Hdb. rewrite (frame_n h h' E) in Hdb. lia.
      + apply HF in Fn as [|Fn]; [done|]. rewrite (kv_dist h h' _ E); [by apply hole_stop|]. apply HK; [by apply next_real, T|done]. }
  destruct Hraw as [-> | ->].
  - assert (idx ∈ X) as Hix by (apply (rh_used _ _ _ G); by right).
    destruct (swap_ok h idx X L (rh_listing _ _ _ G) Hix Hp (rh_tmp _ _ _ G) Hnp) as (h1 & h2 & h3 & X' & E1 & E2 & E3 & B1 & B3 & K1 & K2 & K3 & GL & HX).
    change (DIB_RAW_REHASH =? DIB_RAW_FREE) with false. rewrite Z.eqb_refl. cbn [orb]. rewrite E1. cbn [lift mbind outcome_bind].
    rewrite (HS h1 B1). cbn [lift mbind outcome_bind]. rewrite move_over, E2. cbn [fmap option_fmap option_map lift mbind outcome_bind].
    rewrite move_over, E3. cbn [fmap option_fmap option_map lift mbind outcome_bind]. eexists true, _, X'. split; [done|]. apply HD; try done.
    + intros i Ri Hi. destruct (real_swap h i T Ri). by apply K3.
    + intros i. rewrite HX. split; [auto|]. by intros [->|[? _]].
  - assert (¬ stale h idx) as Hst by (unfold stale; rewrite Er; done).
    assert (idx ∉ X) as Hix by (intros Hi; destruct (rh_in _ _ _ G _ Hi) as [|[|]]; done).
    destruct (move_listing h IDX_PUT idx X L (rh_listing _ _ _ G) Hp Hix (real_virtual h idx R (proj2 Hn))) as (h3 & E3 & M & GL).
    cbn [Z.eqb orb]. change (DIB_RAW_FREE =? DIB_RAW_REHASH) with false. cbn [lift mbind outcome_bind].
    rewrite (HS h eq_refl). cbn [lift mbind outcome_bind]. rewrite move_over, E3. cbn [fmap option_fmap option_map lift mbind outcome_bind].
    eexists false, _, _. split; [done|]. apply HD; [apply M|done| |apply M| |done].
    + intros i Ri Hi. by apply (m_other _ _ _ _ M).
    + clear - Hp Hnp. intros i. rewrite rename_elem. split; [intros [[-> _]|[? ?]]|intros [->|[? Hb]]]; [by left|by right|by left|].
      right. split; [|done]. by intros ?%Hb.
Qed.

(** The entry that goes on takes the bucket, and the one there goes on. *)
Lemma put_swap h X L idx distance : rh h X L → IDX_PUT ∈ X → full h idx → dist h idx < distance →
  distance = (idx - home h (key h IDX_PUT)) mod n_buckets h → fits h idx distance →
  ∃ h' X', (∀ K : HashmapBase → outcome (bool * HashmapBase), (h ←! bucket_set_dib idx distance h; h ←! bucket_move_entry idx IDX_TMP h;
      h ←! bucket_move_entry IDX_PUT idx h; h ←! bucket_move_entry IDX_TMP IDX_PUT h; K h) = K h') ∧ shell h' = shell h ∧ rh h' X' L ∧ IDX_PUT ∈ X' ∧
    key h' IDX_PUT = key h idx ∧ dist h' idx = distance ∧ (∀ i, full h' i ↔ full h i) ∧ (∀ i, stale h' i ↔ stale h i).
Proof.
  intros G Hp Fi Hlt Edist F. pose proof (rh_table _ _ _ G) as T. pose proof (full_real h idx T Fi) as R.
  destruct (real_swap h idx T R) as [Hnp Hnt]. pose proof (t_n h T) as Hn.
  assert (0 ≤ distance < n_buckets h) as Hd by (subst distance; apply Z.mod_pos_bound; lia).
  assert (distance < DIB_FREE) as Hd' by (unfold DIB_FREE; rlia).
  assert (idx ∈ X) as Hix by (apply (rh_used _ _ _ G); by left).
  destruct (swap_ok h idx X L (rh_listing _ _ _ G) Hix Hp (rh_tmp _ _ _ G) Hnp) as (h1 & h2 & h3 & X' & E1 & E2 & E3 & B1 & B3 & K1 & K2 & K3 & GL & HX).
  set (d := Z.min distance DIB_RAW_OVERFLOW) in *. set (h' := over (<[idx := d]> (dibs h)) (idx_lowest_entry h) h3).
  assert (frame h' = frame h) as E by exact (shell_frame h h3 (bare_shell h h3 B3)).
  exists h', X'. split_and!.
  - intros K. rewrite set_dib_over by (by apply (t_dibs h T) || lia). cbn [lift mbind outcome_bind]. fold d.
    do 3 (rewrite move_over; rewrite ?E1, ?E2, ?E3; cbn [fmap option_fmap option_map lift mbind outcome_bind]). done.
  - exact (bare_shell h h3 B3).
  - apply (place_rh h h3 idx distance _ X X' L G B3 R GL).
    + intros i Ri Hi. destruct (real_swap h i T Ri). by apply K3.
    + unfold key. rewrite K1. exact Edist.
    + exact F.
    + lia.
    + by apply HX.
    + intros i _ Hi. by apply HX.
    + intros i Hi. right. by apply HX.
    + intros Hind. destruct (rh_low _ _ _ G Hind) as [H1 H2]. specialize (H2 idx (or_introl Fi)). lia.
  - by apply HX.
  - unfold key, h'. change (kv (over _ _ h3)) with (kv h3). by rewrite K2.
  - unfold dist. rewrite (frame_home h h' _ E), (frame_n h h' E), Edist. unfold key. change (kv h') with (kv h3). by rewrite K1.
  - intros i. rewrite (dibs_full h h' idx d eq_refl) by (unfold d; rlia). split; [|auto]. by intros [->|].
  - intros i. rewrite (dibs_stale h h' idx d eq_refl) by (unfold d; rlia). split; [tauto|]. intros S. split; [|done]. intros ->.
    destruct Fi as (r & Er & Hr). unfold stale in S. rewrite Er in S. injection S as ->. lia.
Qed.

Lemma next_inj h p q : buckets h → real h p → real h q → next_idx h p = next_idx h q → p = q.
Proof.
  intros T Rp Rq E. pose proof (t_n h T). apply (mod_eq0 (n_buckets h)); [lia|apply Rp|apply Rq|]. replace (p - q) with (p + 1 - (q + 1)) by lia.
  rewrite Zminus_mod. unfold next_idx in E. by rewrite E, Z.sub_diag, Zmod_0_l.
Qed.

(** The loop ends at the latest at bucket [f], which is not full. *)
Lemma put_ok L n h X idx distance f : rh h X L → IDX_PUT ∈ X → real h idx → distance = (idx - home h (key h IDX_PUT)) mod n_buckets h →
  fits h idx distance → real h f → ¬ full h f → (Z.to_nat ((f - idx) mod n_buckets h) < n)%nat →
  ∃ b h' X' g, hashmap_put_robin_hood n idx distance h = Ret (b, h') ∧ put_done h h' X' L b g.
Proof.
  revert h X idx distance. induction n as [|n IH]; intros h X idx distance G Hp R Edist F Rf Hf Hn; [lia|].
  pose proof (rh_table _ _ _ G) as T. pose proof (t_n h T) as Hb. destruct (proj2 (t_dibs h T idx) R) as [raw Er].
  pose proof (t_byte h T idx raw Er) as Hbyte. destruct (decide (raw < DIB_RAW_REHASH)) as [Hlt|Hge].
  2: { destruct (put_end n h X L idx distance G Hp R) as (b & h' & X' & E & D); [|done|done|by exists b, h', X', idx].
       intros (d & Ed & Hd). rewrite Er in Ed. injection Ed as <-. lia. }
  assert (full h idx) as Fi by (by exists raw). assert (idx ≠ f) as Hne by (intros ->; done).
  assert (0 ≤ distance < n_buckets h) as Hd by (subst distance; apply Z.mod_pos_bound; lia).
  pose proof (dist_bound h idx T) as Hdb. pose proof (short_run h idx distance f T R F Fi Hd Rf Hf) as Hs.
  pose proof (short_run h idx (dist h idx) f T R (full_fits h idx T Fi) Fi Hdb Rf Hf) as Hs'.
  pose proof (next_left h idx f T R Rf Hne) as Hleft. pose proof (Z.mod_pos_bound (f - next_idx h idx) (n_buckets h)) as Hpos. rewrite Hleft in Hpos.
  cbn [hashmap_put_robin_hood]. rewrite Er. cbn [lift mbind outcome_bind].
  rewrite (proj2 (Z.eqb_neq raw DIB_RAW_FREE)), (proj2 (Z.eqb_neq raw DIB_RAW_REHASH)) by rlia. cbn [orb].
  rewrite (dib_ok h idx raw T Er Hlt). cbn [lift mbind outcome_bind]. rewrite !wrapu_small by rlia. destruct (Z.ltb_spec (dist h idx) distance) as [Hlt'|Hge'].
  - destruct (put_swap h X L idx distance G Hp Fi Hlt' Edist F) as (h2 & X2 & EK & ES & G2 & Hp2 & Ek & Ed & HF & HS). rewrite EK.
    pose proof (shell_frame h h2 ES) as E. pose proof (rh_table _ _ _ G2) as T2. rewrite (frame_next h h2 idx E).
    assert (home h2 (key h2 IDX_PUT) = home h (key h idx)) as Eh by (by rewrite Ek, (frame_home h h2 _ E)).
    destruct (IH h2 X2 (next_idx h idx) (dist h idx + 1)) as (b & h' & X' & g & E' & D); rewrite ?(frame_n h h2 E), ?Eh, ?Hleft, ?HF; try done.
    + apply (frame_real h h2 _ E). by apply next_real, T.
    + rewrite next_dist by apply T. fold (dist h idx). by rewrite decide_False by lia.
    + intros _ q Rq%(frame_real h h2 q E). rewrite (frame_next h h2 q E). intros ->%(next_inj h q idx T Rq R). rewrite HF, Ed. split; [done|lia].
    + by apply (frame_real h h2 _ E).
    + lia.
    + exists b, h', X', g. split; [done|]. destruct D as [D1 D2 D3 D4 D5 D6 D7 D8 D9]. setoid_rewrite HF in D5. setoid_rewrite HS in D6. rewrite HS in D7.
      rewrite HF in D4. rewrite (frame_next h h2 g E) in D9. split; [congruence|done|by apply (frame_real h h2 _ E)|done..].
  - apply (IH h X); try done.
    + by apply next_real, T.
    + rewrite next_dist, <- Edist by apply T. rewrite decide_False by lia. done.
    + intros _ q Rq ->%(next_inj h q idx T Rq R). split; [done|lia].
    + rewrite Hleft. lia.
Qed.

End Insert.
