(* ===== verification/HashMapRemove.v ===== *)
(** * systemd: removal from hash maps

    [base_remove_entry]: the search for the end of the run finds one, the entries
    after the removed one move one bucket back, and the table and the list of the
    other entries are kept. *)

From S2P Require Import Prelude Outcome SipHash HashMap HashMapLinks HashMapProps HashMapInsert.

#[local] Open Scope Z_scope.
#[local] Set Warnings "-clear-no-such-hyp".
#[local] Ltac rlia := unfold real, IDX_PUT, IDX_TMP, IDX_SWAP_BEGIN, IDX_NIL, UINT32_MAX, DIB_RAW_REHASH, DIB_RAW_FREE, DIB_RAW_OVERFLOW in *; lia.

Section Remove.
Context `{HashEnv}.

(** ** The end of a run *)

(** No run goes over such a bucket. *)
Definition stop (h : HashmapBase) (s : Z) : Prop := real h s ∧ (full h s → dist h s = 0).

(** The buckets from [a] up to [b] belong to a run that started before. *)
Definition within (h : HashmapBase) (a b : Z) : Prop :=
  ∀ i, real h i → (i - a) mod n_buckets h < (b - a) mod n_buckets h → full h i ∧ 0 < dist h i.

Lemma within_cons h a b : buckets h → real h a → real h b → a ≠ b → full h a → 0 < dist h a → within h (next_idx h a) b → within h a b.
Proof.
  intros T Ra Rb Hne F Hd W i Ri Hi. destruct (decide (i = a)) as [->|Hia]; [done|]. apply W; [done|].
  rewrite (next_left h a b) by done. rewrite (next_left h a i) by done || congruence. lia.
Qed.

Lemma within_tail h a b : buckets h → real h a → real h b → a ≠ b → within h a b → within h (next_idx h a) b.
Proof.
  intros T Ra Rb Hne W i Ri. rewrite (next_left h a b) by done. intros Hi. pose proof (t_n h T).
  apply W; [done|]. destruct (decide (i = a)) as [->|Hia].
  - rewrite Z.sub_diag, Zmod_0_l. pose proof (Z.mod_pos_bound (a - next_idx h a) (n_buckets h)). lia.
  - rewrite (next_left h a i) in Hi by done || congruence. lia.
Qed.

(** The search ends at the latest at the bucket [s]. *)
Lemma find_right_ok h left s : buckets h → (∀ i, ¬ stale h i) → stop h s → ∀ n right, real h right →
  (s - right) mod n_buckets h ≤ (left - right) mod n_buckets h → (Z.to_nat ((s - right) mod n_buckets h) < n)%nat →
  ∃ r, find_right n h left right = Ret r ∧ stop h r ∧ within h right r.
Proof.
  intros T Hst [Rs Hs]. pose proof (t_n h T) as Hn. induction n as [|n IH]; intros right R Hle Hfuel; [lia|]. cbn [find_right].
  destruct (proj2 (t_dibs h T right) R) as [d Ed]. rewrite Ed. cbn [lift mbind outcome_bind]. pose proof (t_byte h T right d Ed) as Hb.
  assert (within h right right) as W0 by (intros i Ri; rewrite Z.sub_diag, Zmod_0_l; pose proof (Z.mod_pos_bound (i - right) (n_buckets h)); lia).
  pose proof (dist_bound h right T) as Hdb. destruct (Z.eqb_spec d DIB_RAW_FREE) as [->|Hfree].
  { rewrite orb_true_r. exists right. split; [done|]. split; [|done]. split; [done|]. intros (d & Ed' & Hd). rewrite Ed in Ed'. injection Ed' as <-. rlia. }
  assert (d < DIB_RAW_REHASH) as Hlt. { destruct (decide (d = DIB_RAW_REHASH)) as [->|]; [by destruct (Hst right)|rlia]. }
  assert (full h right) as F by (by exists d). pose proof (t_raw h T right d Ed Hlt) as Hraw.
  destruct (Z.eqb_spec d 0) as [->|Hd0]; cbn [orb]. { exists right. split; [done|]. split; [|done]. split; [done|]. intros _. rlia. }
  assert (0 < dist h right) as Hpos by rlia. assert (right ≠ s) as Hne by (intros ->; rewrite (Hs F) in Hpos; lia).
  pose proof (next_left h right s T R Rs Hne) as Hleft. pose proof (Z.mod_pos_bound (s - next_idx h right) (n_buckets h)) as Hm.
  destruct (Z.eqb_spec left right) as [->|Hlr]; [rewrite Z.sub_diag, Zmod_0_l in Hle; lia|]. cbn [negb assert_ lift mbind outcome_bind].
  destruct (IH (next_idx h right)) as (r & Er & Sr & Wr); [by apply next_real| |lia|].
  - rewrite Hleft. unfold next_idx. rewrite Zminus_mod_idemp_r. replace (left - (right + 1)) with (left - right - 1) by lia.
    rewrite mod_back by lia. lia.
  - exists r. split; [done|]. split; [done|]. destruct (decide (right = r)) as [->|Hr]; [done|]. apply within_cons; try done. apply Sr.
Qed.

(** ** The shift *)

(** A table with a hole at [x], which an entry [D] buckets away from home had. *)
Record holed (h : HashmapBase) (x D : Z) (X : list Z) (L : list (Z * Z)) : Prop := {
  ho_buckets : buckets h;
  ho_listing : listing h X L;
  ho_used : ∀ i, i ∈ X ↔ full h i;
  ho_stale : ∀ i, ¬ stale h i;
  ho_low : has_indirect h = true → 0 ≤ idx_lowest_entry h ∧ ∀ i, full h i → idx_lowest_entry h ≤ i;
  ho_lowx : has_indirect h = true → idx_lowest_entry h ≤ x;
  ho_real : real h x;
  ho_hole : ¬ full h x;
  ho_fits : fits h x D;
  ho_next : full h (next_idx h x) → dist h (next_idx h x) ≤ D + 1;
  ho_robin : ∀ i, real h i → i ≠ x → full h (next_idx h i) → 0 < dist h (next_idx h i) →
    full h i ∧ dist h (next_idx h i) ≤ dist h i + 1 }.

Definition freed (x : Z) (h : HashmapBase) : HashmapBase := set_dibs (<[x := DIB_RAW_FREE]> (dibs h)) h.

(** The bytes after a step of the shift. *)
Lemma shift_dibs h h' x y m : dibs h' = <[y := DIB_RAW_FREE]> (<[x := m]> (dibs h)) → x ≠ y → m < DIB_RAW_REHASH → ∀ i,
  (full h' i ↔ i = x ∨ (i ≠ y ∧ full h i)) ∧ (stale h' i → stale h i).
Proof.
  intros E Hxy Hm i. unfold full, stale. rewrite E. destruct (decide (i = y)) as [->|Hy].
  - rewrite lookup_insert_eq. split; [|done]. split; [intros (d & [= <-] & Hd); rlia|]. intros [->|[? _]]; done.
  - rewrite lookup_insert_ne by done. destruct (decide (i = x)) as [->|Hx].
    + rewrite lookup_insert_eq. split; [split; [by left|]; intros _; by exists m|]. intros [= ->]. lia.
    + rewrite lookup_insert_ne by done. split; [|done]. split; [by right|]. by intros [->|[_ ?]].
Qed.

Lemma dist_before h x j d : buckets h → (next_idx h x - j) mod n_buckets h = d → 0 < d → (x - j) mod n_buckets h = d - 1.
Proof. intros T E Hd. rewrite (next_dist h x j T) in E. case_decide; lia. Qed.

Lemma shift_buckets h h' x y m : buckets h → frame h' = frame h → dibs h' = <[y := DIB_RAW_FREE]> (<[x := Z.min m DIB_RAW_OVERFLOW]> (dibs h)) →
  real h x → real h y → x ≠ y → 0 ≤ m → dist h' x = m → is_Some (kv h' x) → (∀ i, i ≠ x → kv h' i = kv h i) → buckets h'.
Proof.
  intros T E Ed Rx Ry Hxy Hm Edx Hs HK. apply (buckets_frame h h' T E).
  - intros i. rewrite Ed. destruct (decide (i = y)) as [->|Hy]; [rewrite lookup_insert_eq|rewrite lookup_insert_ne by done; destruct (decide (i = x)) as [->|Hx]].
    + split; [intros _; by apply (t_dibs h T)|by eexists].
    + rewrite lookup_insert_eq. split; [intros _; by apply (t_dibs h T)|by eexists].
    + by rewrite lookup_insert_ne.
  - intros i Ri. destruct (decide (i = x)) as [->|Hi]; [by apply fmap_is_Some in Hs|].
    eapply fmap_is_Some. unfold kv in HK. rewrite HK by done. apply fmap_is_Some. by apply T.
  - intros i d Ri. rewrite Ed. destruct (decide (i = y)) as [->|Hy]; [rewrite lookup_insert_eq; intros [= <-]; rlia|]. rewrite lookup_insert_ne by done.
    destruct (decide (i = x)) as [->|Hx]; [rewrite lookup_insert_eq; intros [= <-]; rewrite Edx; rlia|]. rewrite lookup_insert_ne by done. intros Ei.
    rewrite (kv_dist h h' i E) by auto. split; [by apply (t_byte h T i)|by apply (t_raw h T)].
Qed.

Lemma holed_step h h1 x D X L : holed h x D X L → let y := next_idx h x in x ≠ y → full h y → 0 < dist h y →
  moved y x h h1 → listing h1 (rename y x X) L →
  let h' := set_dibs (<[y := DIB_RAW_FREE]> (<[x := Z.min (dist h y - 1) DIB_RAW_OVERFLOW]> (dibs h))) h1 in
  holed h' y (dist h y) (rename y x X) L ∧ dist h' x = dist h y - 1 ∧ (∀ i, real h i → i ≠ x → i ≠ y → kv h' i = kv h i) ∧
  (∀ i, full h' i ↔ i = x ∨ (i ≠ y ∧ full h i)).
Proof.
  intros HO y Hxy Fy Hd M GL h'. pose proof (ho_buckets _ _ _ _ _ HO) as T. pose proof (ho_real _ _ _ _ _ HO) as Rx. pose proof (t_n h T) as Hn.
  assert (real h y) as Ry by (by apply next_real). assert (frame h' = frame h) as E by exact (shell_frame h h1 (bare_shell h h1 (m_bare _ _ _ _ M))).
  pose proof (shift_dibs h h' x y _ eq_refl Hxy ltac:(rlia)) as HF.
  assert (∀ i, i ≠ x → kv h' i = kv h i) as HK by apply M.
  assert (∀ i, i ≠ x → dist h' i = dist h i) as HD by (intros i Hi; apply kv_dist; auto).
  assert (dist h' x = dist h y - 1) as Hdx.
  { unfold dist at 1. rewrite (frame_home h h' _ E), (frame_n h h' E). unfold key. rewrite (m_to _ _ _ _ M : kv h' x = _).
    apply (dist_before h x (home h (key h y)) (dist h y)); done. }
  split; [|split; [done|split; [by intros i _ Hi _; apply HK|by intros i; apply HF]]].
  assert (idx_lowest_entry h' = idx_lowest_entry h) as El by exact (f_equal idx_lowest_entry (m_bare _ _ _ _ M)).
  assert (has_indirect h' = has_indirect h) as Ei by exact (f_equal has_indirect (m_bare _ _ _ _ M)).
  assert (is_Some (kv h' x)) as Hs by (rewrite (m_to _ _ _ _ M : kv h' x = _); unfold kv; apply fmap_is_Some; by apply (t_store h T)).
  split.
  - apply (shift_buckets h h' x y (dist h y - 1)); [done|done|done|done|done|done|lia|done..].
  - by apply (listing_frame h1).
  - intros i. rewrite rename_elem, (proj1 (HF i)), !(ho_used _ _ _ _ _ HO). naive_solver.
  - intros i S%(HF i). by apply (ho_stale _ _ _ _ _ HO i).
  - rewrite Ei, El. intros Hind. destruct (ho_low _ _ _ _ _ HO Hind) as [H1 H2]. split; [done|]. intros i [->|[_ Fi]]%HF; [|auto].
    by apply (ho_lowx _ _ _ _ _ HO).
  - rewrite Ei, El. intros Hind. by apply (ho_low _ _ _ _ _ HO Hind).
  - by apply (frame_real h h' y E).
  - rewrite (proj1 (HF y)). naive_solver.
  - intros _ p Rp%(frame_real h h' p E). rewrite (frame_next h h' p E). intros Ep%(next_inj h p x T Rp Rx). subst p. rewrite (proj1 (HF x)), Hdx. split; [by left|lia].
  - rewrite (frame_next h h' y E), (proj1 (HF _)). destruct (decide (next_idx h y = x)) as [->|Hne]; [rewrite Hdx; lia|].
    intros [|[_ Fn]]; [done|]. rewrite HD by done. pose proof (dist_bound h (next_idx h y) T). destruct (decide (dist h (next_idx h y) = 0)) as [|]; [lia|].
    by apply (ho_robin _ _ _ _ _ HO y); [..|lia].
  - intros i Ri%(frame_real h h' i E) Hiy. rewrite (frame_next h h' i E), !(proj1 (HF _)). destruct (decide (next_idx h i = x)) as [En|Hne].
    + intros _. rewrite En, Hdx. intros Hd1. pose proof (ho_next _ _ _ _ _ HO Fy) as Hle. fold y in Hle.
      destruct (ho_fits _ _ _ _ _ HO ltac:(lia) i Ri En) as [Fi Di].
      assert (i ≠ x) as Hix by (intros ->; by apply (ho_hole _ _ _ _ _ HO)). rewrite HD by done. split; [by right|lia].
    + intros [|[Hny Fn]]; [done|]. rewrite HD by done. intros Hd1. assert (i ≠ x) as Hix by (by intros ->).
      destruct (ho_robin _ _ _ _ _ HO i Ri Hix Fn Hd1) as [Fi Di]. rewrite HD by done. split; [by right|done].
Qed.

(** The bucket itself is the last after the one behind it. *)
Lemma last_left h y : buckets h → (y - next_idx h y) mod n_buckets h = n_buckets h - 1.
Proof.
  intros T. pose proof (t_n h T). unfold next_idx. rewrite Zminus_mod_idemp_r. replace (y - (y + 1)) with (n_buckets h - 1 + -1 * n_buckets h) by lia.
  rewrite Z_mod_plus_full. apply Z.mod_small. lia.
Qed.

(** The buckets in use are the same but for the hole; entries after the hole and
    before bucket [r] moved one bucket back. *)
Record shifted (x p r : Z) (h h' : HashmapBase) : Prop := {
  sh_used : ∀ i, full (freed p h') i ∨ i = p ↔ full (freed x h) i ∨ i = x;
  sh_moved : ∀ i j, full (freed x h) i → real h j → next_idx h j = i → (i - next_idx h x) mod n_buckets h < (r - next_idx h x) mod n_buckets h → kv h' j = kv h i;
  sh_same : ∀ i, full (freed x h) i → ¬ (i - next_idx h x) mod n_buckets h < (r - next_idx h x) mod n_buckets h → kv h' i = kv h i }.

Lemma shift_back_ok L r n h x D X : holed (freed x h) x D X L → is_Some (dibs h !! x) → stop (freed x h) r → (x = r → D = 0) →
  within (freed x h) (next_idx h x) r → (Z.to_nat ((r - next_idx h x) mod n_buckets h) < n)%nat →
  ∃ p h' X' D', shift_back n x (next_idx h x) r h = Ret (p, h') ∧ shell h' = shell h ∧ is_Some (dibs h' !! p) ∧ holed (freed p h') p D' X' L ∧
    next_idx h' p = r ∧ stop (freed p h') r ∧ shifted x p r h h'.
Proof.
  revert h x D X. induction n as [|n IH]; intros h x D X HO Hx Hr HD W Hfuel; [lia|]. cbn [shift_back].
  pose proof (ho_buckets _ _ _ _ _ HO) as T. pose proof (ho_real _ _ _ _ _ HO : real h x) as Rx. pose proof (t_n _ T : 0 < n_buckets h < _) as Hn.
  destruct (Z.eqb_spec (next_idx h x) r) as [Er|Hne].
  { exists x, h, X, D. split_and!; try done. split; [done| |done]. intros i j _ _ _. rewrite Er, Z.sub_diag, Zmod_0_l.
    pose proof (Z.mod_pos_bound (i - r) (n_buckets h)). lia. }
  set (y := next_idx h x) in *.
  assert (real h y) as Ry by exact (next_real (freed x h) x T). assert (real h r) as Rr by apply Hr.
  pose proof (next_left (freed x h) y r T Ry Rr Hne) as Hl. change (next_idx (freed x h)) with (next_idx h) in Hl. change (n_buckets (freed x h)) with (n_buckets h) in Hl.
  pose proof (Z.mod_pos_bound (r - next_idx h y) (n_buckets h)) as Hm.
  destruct (W y Ry) as [Fy Dy]. { rewrite Z.sub_diag, Zmod_0_l. change (n_buckets (freed x h)) with (n_buckets h). lia. }
  assert (x ≠ y) as Hxy by (intros Exy; apply (ho_hole _ _ _ _ _ HO); by rewrite Exy at 2).
  destruct (Fy) as (d & Ed & Hd). pose proof (dib_ok (freed x h) y d T Ed Hd) as Hdib.
  assert (dibs h !! y = Some d) as Ed' by (rewrite <- Ed; cbn; by rewrite lookup_insert_ne). rewrite Ed'. cbn [lift mbind outcome_bind].
  change (bucket_calculate_dib (freed x h)) with (bucket_calculate_dib h) in Hdib. rewrite Hdib. cbn [lift mbind outcome_bind].
  rewrite (proj2 (Z.eqb_neq (dist (freed x h) y) 0)) by lia. cbn [negb assert_ lift mbind outcome_bind].
  set (dy := dist (freed x h) y) in *. pose proof (dist_bound (freed x h) y T : 0 ≤ dy < n_buckets h) as Hdb.
  assert (listing h X L) as GL0 by (apply (listing_frame (freed x h)); [done..|apply HO]).
  destruct (move_listing h y x X L GL0) as (h1 & Em & M & GL1).
  { by apply (ho_used _ _ _ _ _ HO). } { intros Hi%(ho_used _ _ _ _ _ HO). by apply (ho_hole _ _ _ _ _ HO). } { apply real_virtual; [done|lia]. }
  rewrite Em. cbn [lift mbind outcome_bind]. pose proof (bare_dibs h h1 (m_bare _ _ _ _ M)) as Edib.
  rewrite set_dib_over; [|by rewrite Edib|unfold DIB_FREE; rlia]. cbn [lift mbind outcome_bind].
  set (h2 := over (<[x := Z.min (dy - 1) DIB_RAW_OVERFLOW]> (dibs h1)) (idx_lowest_entry h1) h1).
  assert (frame h2 = frame h) as E by exact (shell_frame h h1 (bare_shell h h1 (m_bare _ _ _ _ M))).
  assert (moved y x (freed x h) (freed x h1)) as M1 by (split; [exact (f_equal (freed x) (m_bare _ _ _ _ M))|apply M|apply M]).
  destruct (holed_step (freed x h) (freed x h1) x D X L HO Hxy Fy Dy M1) as (HO2 & Dx & HK & HF); [by apply (listing_frame h1)|].
  change (next_idx (freed x h) x) with y in *. fold dy in HO2, Dx, HK, HF.
  assert (set_dibs (<[y := DIB_RAW_FREE]> (<[x := Z.min (dy - 1) DIB_RAW_OVERFLOW]> (dibs (freed x h)))) (freed x h1) = freed y h2) as Eq.
  { unfold freed, h2. cbn. by rewrite insert_insert_eq, Edib. }
  rewrite Eq in HO2, Dx, HK, HF. replace (next_idx h2 y) with (next_idx h y) by (symmetry; by apply frame_next).
  destruct (IH h2 y dy (rename y x X)) as (p & h' & X' & D' & E1 & E2 & E3 & E4 & E5 & E6 & [V1 V2 V3]).
  - exact HO2.
  - change (is_Some (dibs h2 !! y)). cbn. rewrite lookup_insert_ne, Edib, Ed' by done. by eexists.
  - split; [by apply (frame_real h h2 r E)|]. intros [->|[_ Fr]]%HF.
    + rewrite Dx. pose proof (ho_next _ _ _ _ _ HO Fy) as Hle. change (dy ≤ D + 1) in Hle. rewrite (HD eq_refl) in Hle. lia.
    + assert (r ≠ x) as Hrx by (intros ->; by apply (ho_hole _ _ _ _ _ HO)). rewrite (kv_dist (freed x h) (freed y h2) r); [by apply Hr|exact E|by apply HK].
  - intros Eyr. by destruct Hne.
  - rewrite (frame_next h h2 y E). intros i Ri%(frame_real h h2 i E) Hi. change (n_buckets (freed y h2)) with (n_buckets h2) in Hi. rewrite (frame_n h h2 E) in Hi.
    destruct (within_tail (freed x h) y r T Ry Rr Hne W i Ri Hi) as [Fi Di].
    assert (i ≠ x) as Hix by (intros ->; by apply (ho_hole _ _ _ _ _ HO)).
    assert (i ≠ y) as Hiy. { intros ->. pose proof (last_left (freed x h) y T : (y - next_idx h y) mod n_buckets h = _) as Hll. change (n_buckets (freed x h)) with (n_buckets h) in Hll. lia. }
    rewrite HF, (kv_dist (freed x h) (freed y h2) i); [|exact E|by apply HK]. split; [by right|done].
  - rewrite (frame_next h h2 y E), (frame_n h h2 E). lia.
  - rewrite (frame_next h h2 y E) in E1. exists p, h', X', D'. split; [exact E1|]. split; [rewrite E2; exact (bare_shell h h1 (m_bare _ _ _ _ M))|].
    split_and!; try done. rewrite (frame_n h h2 E), (frame_next h h2 y E) in V2, V3.
    assert (∀ i, i ≠ x → kv h2 i = kv h i) as HK2 by apply M. pose proof (last_left (freed x h) y T : (y - next_idx h y) mod n_buckets h = n_buckets h - 1) as Hll.
    split; fold y.
    + intros i. rewrite V1, HF. destruct (decide (i = y)) as [->|]; tauto.
    + intros i j Fi Rj Ej Hi. destruct (decide (i = y)) as [->|Hiy].
      * assert (j = x) as -> by (by apply (next_inj (freed x h) j x T Rj Rx)). rewrite V3; [apply M|apply HF; by left|].
        assert ((x - y) mod n_buckets h = n_buckets h - 1) as Hxl by exact (last_left (freed x h) x T).
        pose proof (next_left (freed x h) y x T Ry Rx (not_eq_sym Hxy) : (x - next_idx h y) mod n_buckets h = (x - y) mod n_buckets h - 1) as Hx1. 
        pose proof (Z.mod_pos_bound (r - y) (n_buckets h)). lia.
      * assert (i ≠ x) as Hix by (intros ->; by apply (ho_hole _ _ _ _ _ HO)). assert (real h i) as Ri by exact (full_real (freed x h) i T Fi).
        pose proof (next_left (freed x h) y i T Ry Ri (not_eq_sym Hiy) : (i - next_idx h y) mod n_buckets h = (i - y) mod n_buckets h - 1) as Hi1.
        rewrite <- (HK2 i Hix). apply V2; [apply HF; by right|by apply (frame_real h h2 j E)|by rewrite (frame_next h h2 j E)|lia].
    + intros i Fi Hi. destruct (decide (i = y)) as [->|Hiy]; [rewrite Z.sub_diag, Zmod_0_l in Hi; lia|].
      assert (i ≠ x) as Hix by (intros ->; by apply (ho_hole _ _ _ _ _ HO)). assert (real h i) as Ri by exact (full_real (freed x h) i T Fi).
      pose proof (next_left (freed x h) y i T Ry Ri (not_eq_sym Hiy) : (i - next_idx h y) mod n_buckets h = (i - y) mod n_buckets h - 1) as Hi1.
      rewrite <- (HK2 i Hix). apply V3; [apply HF; by right|lia].
Qed.

(** ** The whole operation *)

Lemma freed_dibs h h' x : dibs h' = <[x := DIB_RAW_FREE]> (dibs h) → ∀ i, (full h' i ↔ i ≠ x ∧ full h i) ∧ (stale h' i ↔ i ≠ x ∧ stale h i).
Proof.
  intros E i. unfold full, stale. rewrite E. destruct (decide (i = x)) as [->|Hx].
  - rewrite lookup_insert_eq. split; [|naive_solver]. split; [intros (d & [= <-] & Hd); rlia|naive_solver].
  - rewrite lookup_insert_ne by done. naive_solver.
Qed.

Lemma freed_buckets h h' x : buckets h → frame h' = frame h → dibs h' = <[x := DIB_RAW_FREE]> (dibs h) → real h x →
  is_Some (store h' !! x) → (∀ i, real h i → i ≠ x → kv h' i = kv h i) → buckets h'.
Proof.
  intros T E Ed Rx Hs HK. apply (buckets_frame h h' T E).
  - intros i. rewrite Ed. destruct (decide (i = x)) as [->|Hx]; [|by rewrite lookup_insert_ne].
    rewrite lookup_insert_eq. split; [intros _; by apply (t_dibs h T)|by eexists].
  - intros i Ri. destruct (decide (i = x)) as [->|Hi]; [done|]. apply (fmap_is_Some data). fold (kv h' i). rewrite HK by done. apply fmap_is_Some. by apply T.
  - intros i d Ri. rewrite Ed. destruct (decide (i = x)) as [->|Hy]; [rewrite lookup_insert_eq; intros [= <-]; rlia|]. rewrite lookup_insert_ne by done.
    intros Ei. rewrite (kv_dist h h' i E) by auto. split; [by apply (t_byte h T i)|by apply (t_raw h T)].
Qed.

Lemma listing_split h X L idx : listing h X L → idx ∈ X → ∃ A B LA p LB, X = A ++ idx :: B ∧ L = LA ++ p :: LB ∧ kv h idx = Some p ∧
  (idx ∉ A) ∧ (idx ∉ B) ∧ Forall2 (λ i p, kv h i = Some p) (A ++ B) (LA ++ LB) ∧ Forall2 (λ i p, kv h i = Some p) B LB.
Proof.
  intros G (A & B & ->)%list_elem_of_split. pose proof (li_nodup _ _ _ G) as N. rewrite NoDup_app, NoDup_cons in N. destruct N as (NA & Hd & HB & NB).
  pose proof (li_kv _ _ _ G) as F. apply Forall2_app_inv_l in F as (LA & L2 & FA & FB & ->). apply Forall2_cons_inv_l in FB as (p & LB & Hp & FB & ->).
  exists A, B, LA, p, LB. split_and!; try done; [|by apply Forall2_app]. intros Hi. apply (Hd idx Hi). left.
Qed.

(** A bucket that is not in the list does not matter to it. *)
Lemma listing_other h X L x e : listing h X L → x ∉ X → listing (set_store (<[x := e]> (store h)) h) X L.
Proof.
  intros [G1 G2 G3 G4] Hx. split; [done|done| |].
  - intros Hty. destruct (G3 Hty) as (H1 & H2 & H3). split; [done|]. split; [done|]. apply (chain_frame (store h)); [|done].
    intros i Hi. cbn. rewrite lookup_insert_ne; [done|]. by intros ->.
  - apply Forall2_same_length_lookup. split; [by apply (Forall2_length _ _ _ G4)|]. intros n i q Ei Eq. unfold kv. cbn.
    rewrite lookup_insert_ne; [by apply (Forall2_lookup_lr _ _ _ _ _ _ G4 Ei Eq)|]. intros ->. by apply list_elem_of_lookup_2 in Ei.
Qed.

(** The state between two operations. *)
Record steady (h : HashmapBase) (X : list Z) (L : list (Z * Z)) : Prop := {
  s_rh : rh h X L;
  s_put : IDX_PUT ∉ X;
  s_stale : ∀ i, ¬ stale h i;
  s_stop : ∃ s, stop h s }.

Lemma steady_used h X L i : steady h X L → i ∈ X ↔ full h i.
Proof.
  intros G. split.
  - intros Hi. destruct (rh_in _ _ _ (s_rh _ _ _ G) i Hi) as [->|[|S]]; [by destruct (s_put _ _ _ G)|done|by destruct (s_stale _ _ _ G i)].
  - intros Fi. apply (rh_used _ _ _ (s_rh _ _ _ G)). by left.
Qed.

(** Unlinking leaves a hole. *)
Lemma unlink_holed h X L idx : steady h X L → full h idx →
  ∃ h1 LA p LB, unlink_entry idx h = Some h1 ∧ relinked h h1 ∧ L = LA ++ p :: LB ∧ kv h idx = Some p ∧
    holed (freed idx h1) idx (dist h idx) (filter (.≠ idx) X) (LA ++ LB).
Proof.
  intros G Fi. pose proof (s_rh _ _ _ G) as GR. pose proof (rh_table _ _ _ GR) as T. pose proof (t_n h T) as Hn. pose proof (full_real h idx T Fi) as R.
  pose proof (rh_listing _ _ _ GR) as GL. assert (idx ∈ X) as Hi by (by apply (steady_used h X L)).
  destruct (listing_split h X L idx GL Hi) as (A & B & LA & p & LB & EX & EL & Ep & HA & HB & F2 & _).
  destruct (unlink_ok h idx X) as (h1 & E1 & M & L1); [lia|apply GL|done| |apply GL|].
  { intros i Hx%(steady_used h X L i G). pose proof (full_real h i T Hx) as Ri. split; [done|]. by apply T. }
  exists h1, LA, p, LB. split; [done|]. split; [done|]. split; [done|]. split; [done|].
  set (h' := freed idx h1). assert (frame h' = frame h) as E by exact (shell_frame h h1 (bare_shell h h1 (l_bare _ _ M))).
  assert (dibs h' = <[idx := DIB_RAW_FREE]> (dibs h)) as Ed by (cbn; by rewrite (bare_dibs h h1 (l_bare _ _ M))).
  pose proof (freed_dibs h h' idx Ed) as HF. assert (∀ i, kv h' i = kv h i) as HK by apply M.
  assert (∀ i, dist h' i = dist h i) as HD by (intros i; by apply kv_dist).
  assert (idx_lowest_entry h' = idx_lowest_entry h) as El by exact (f_equal idx_lowest_entry (l_bare _ _ M)).
  assert (has_indirect h' = has_indirect h) as Ei by exact (f_equal has_indirect (l_bare _ _ M)).
  split.
  - apply (freed_buckets h h' idx T E Ed R); [|auto]. apply (fmap_is_Some data). fold (kv h' idx). rewrite HK, Ep. by eexists.
  - apply (listing_frame h1); try done. split; [apply NoDup_filter, GL| |done|].
    + intros i [_ Hx]%list_elem_of_filter. rewrite (bare_virtual h h1 (l_bare _ _ M)). by apply GL.
    + rewrite EX, filter_split by done. eapply Forall2_impl; [exact F2|]. cbn. intros i q Hq. by rewrite (l_kv _ _ M).
  - intros i. rewrite list_elem_of_filter, (steady_used h X L i G), (proj1 (HF i)). done.
  - intros i [_ S]%(HF i). by apply (s_stale _ _ _ G i).
  - rewrite Ei, El. intros Hind. destruct (rh_low _ _ _ GR Hind) as [H1 H2]. split; [done|]. intros i [_ Hx]%(HF i). auto.
  - rewrite Ei, El. intros Hind. apply (rh_low _ _ _ GR Hind). by left.
  - by apply (frame_real h h' idx E).
  - rewrite (proj1 (HF idx)). naive_solver.
  - intros Hd q Rq%(frame_real h h' q E). rewrite (frame_next h h' q E). intros En. rewrite (proj1 (HF q)), HD.
    destruct (full_fits h idx T Fi Hd q Rq En) as [Fq Dq]. split; [split; [|done]|done]. intros ->. pose proof (next_self h idx T En). pose proof (dist_bound h idx T). lia.
  - rewrite (frame_next h h' idx E), HD, (proj1 (HF _)). intros [_ Fn]. pose proof (dist_bound h (next_idx h idx) T). pose proof (dist_bound h idx T).
    destruct (decide (dist h (next_idx h idx) = 0)); [lia|]. apply (t_robin h T idx R Fn). lia.
  - intros i Ri%(frame_real h h' i E) Hx. rewrite (frame_next h h' i E), !HD, !(proj1 (HF _)). intros [_ Fn] Hd.
    destruct (t_robin h T i Ri Fn Hd) as [H1 H2]. done.
Qed.

(** A hole at the end of its run is a free bucket. *)
Lemma close_hole h x D X L : holed (freed x h) x D X L → is_Some (dibs h !! x) → stop (freed x h) (next_idx h x) →
  ∃ h', bucket_mark_free x h = Some h' ∧ shell h' = shell h ∧ steady h' X L ∧ dibs h' = dibs (freed x h) ∧
    store h' !! x = Some zero_entry ∧ ∀ i, i ≠ x → kv h' i = kv h i.
Proof.
  intros HO [d Ed] [Rr Hr]. pose proof (ho_buckets _ _ _ _ _ HO) as T. pose proof (ho_real _ _ _ _ _ HO : real h x) as Rx.
  pose proof (ho_listing _ _ _ _ _ HO) as GL. assert (x ∉ X) as HxX by (intros Hi%(ho_used _ _ _ _ _ HO); by apply (ho_hole _ _ _ _ _ HO)).
  unfold bucket_mark_free. destruct (t_store _ T x Rx) as [e Ee]. change (store (freed x h)) with (store h) in Ee. rewrite (real_bucket h x e Rx Ee). cbn [mbind option_bind].
  unfold bucket_set_dib. change (dibs (set_store ?s h)) with (dibs h). cbn [dibs set_store]. rewrite Ed. cbn [mbind option_bind].
  change (DIB_FREE =? DIB_FREE) with true. cbn [Z.eqb]. eexists. split; [done|]. split; [done|]. cbn [Z.eqb].
  set (h' := set_dibs _ _). assert (frame h' = frame (freed x h)) as E by done.
  assert (dibs h' = dibs (freed x h)) as Ed' by done.
  assert (∀ i, i ≠ x → kv h' i = kv (freed x h) i) as HK by (intros i Hi; unfold kv; cbn; by rewrite lookup_insert_ne).
  assert (∀ i, full h' i ↔ full (freed x h) i) as HF by done. assert (∀ i, stale h' i ↔ stale (freed x h) i) as HS by done.
  assert (∀ i, full h' i → dist h' i = dist (freed x h) i) as HD. { intros i Fi. apply kv_dist; [done|]. apply HK. intros ->. by apply (ho_hole _ _ _ _ _ HO). }
  assert (rh h' X L) as GR.
  { split; [split| | | |].
    - apply (freed_buckets (freed x h) h' x T E); [cbn; by rewrite insert_insert_eq|done|cbn; rewrite lookup_insert_eq; by eexists|auto].
    - intros i Ri Fn. rewrite (HD _ Fn). intros Hd. change (next_idx h' i) with (next_idx (freed x h) i) in *. destruct (decide (i = x)) as [->|Hne].
      + change (next_idx (freed x h) x) with (next_idx h x) in *. rewrite Hr in Hd by done. lia.
      + destruct (ho_robin _ _ _ _ _ HO i Ri Hne Fn Hd) as [Fi Di]. rewrite HD by done. done.
    - by apply (listing_other (freed x h)).
    - intros i Hi%(ho_used _ _ _ _ _ HO). right. by left.
    - intros i [Fi|S]; [by apply (ho_used _ _ _ _ _ HO)|by destruct (ho_stale _ _ _ _ _ HO i)].
    - intros Hind. destruct (ho_low _ _ _ _ _ HO Hind) as [H1 H2]. split; [done|]. intros i [Fi|S]; [by apply H2|by destruct (ho_stale _ _ _ _ _ HO i)]. }
  split; [|split; [done|split; [cbn; by rewrite lookup_insert_eq|exact HK]]]. split; [done| |exact (ho_stale _ _ _ _ _ HO)|].
  - intros Hi%(ho_used _ _ _ _ _ HO). by destruct (real_swap (freed x h) IDX_PUT T (full_real _ _ T Hi)).
  - exists x. split; [done|]. intros Fx. by destruct (ho_hole _ _ _ _ _ HO).
Qed.

(** Bucket [q] is free now; the other entries are where they were or one bucket
    before. *)
Record removal (idx q : Z) (h h' : HashmapBase) : Prop := {
  rm_used : ∀ i, full h' i ↔ i ≠ q ∧ full h i;
  rm_zero : store h' !! q = Some zero_entry;
  rm_entry : ∀ i, full h i → i ≠ idx →
    (i ≠ q ∧ kv h' i = kv h i) ∨ (∀ j, real h j → next_idx h j = i → j ≠ q ∧ full h' j ∧ kv h' j = kv h i) }.

Lemma shifted_removal h h1 h2 h3 idx q r : buckets h → full h idx → relinked h h1 → frame h2 = frame h → shifted idx q r h1 h2 → real h q → next_idx h q = r →
  real h r → within h (next_idx h idx) r → dibs h3 = dibs (freed q h2) → store h3 !! q = Some zero_entry → (∀ i, i ≠ q → kv h3 i = kv h2 i) → removal idx q h h3.
Proof.
  intros T Fi M E2 V Rq Nq Rr W Ed Ez HK. pose proof (shell_frame h h1 (bare_shell h h1 (l_bare _ _ M))) as E. pose proof (t_n h T) as Hn.
  assert (∀ i, full (freed idx h1) i ↔ i ≠ idx ∧ full h i) as HF by (intros i; apply (freed_dibs h (freed idx h1) idx); cbn; by rewrite (bare_dibs h h1 (l_bare _ _ M))).
  assert (∀ i, full h3 i ↔ i ≠ q ∧ full h i) as HU.
  { intros i. assert (full h3 i ↔ full (freed q h2) i) as -> by (unfold full; by rewrite Ed). pose proof (sh_used _ _ _ _ _ V i) as Hi. rewrite HF in Hi.
    assert (¬ full (freed q h2) q) as Hq by (intros [Hq _]%(freed_dibs h2 (freed q h2) q eq_refl); done).
    destruct (decide (i = q)) as [->|]; [tauto|]. destruct (decide (i = idx)) as [->|]; tauto. }
  destruct V as [V1 V2 V3]. rewrite (frame_n h h1 E), (frame_next h h1 idx E) in V2, V3. set (y := next_idx h idx) in *. assert (real h y) as Ry by (by apply next_real).
  split; [done|done|]. intros i Hi Hne. assert (full (freed idx h1) i) as Hi1 by (by apply HF). assert (real h i) as Ri by (by apply full_real).
  destruct (decide ((i - y) mod n_buckets h < (r - y) mod n_buckets h)) as [Hin|Hout]; [right|left].
  - intros j Rj Ej. assert (j ≠ q) as Hjq by (intros ->; rewrite Nq in Ej; subst i; lia). split; [done|]. rewrite HK by done.
    rewrite (V2 i j) by (done || (by apply (frame_real h h1 j E)) || (by rewrite (frame_next h h1 j E))). rewrite (l_kv _ _ M). split; [|done]. apply HU. split; [done|].
    destruct (decide (j = idx)) as [->|Hji]; [done|]. pose proof (next_dist h j y T) as Hd. rewrite Ej in Hd.
    apply (W j Rj). case_decide as Hj; [|fold y; lia]. destruct Hji. apply (next_inj h j idx T Rj); [by apply full_real|]. fold y. rewrite Ej.
    apply (mod_eq0 (n_buckets h)); [lia|apply Ri|apply Ry|done].
  - assert (i ≠ q) as Hiq. { intros ->. pose proof (next_dist h q y T) as Hd. rewrite Nq in Hd. case_decide; [|lia].
      assert (r = y) as Ery by (apply (mod_eq0 (n_buckets h)); [lia|apply Rr|apply Ry|lia]). apply Hne. apply (next_inj h q idx T Rq); [by apply full_real|]. by rewrite Nq, Ery. }
    split; [done|]. rewrite HK, V3 by done. apply (l_kv _ _ M).
Qed.

Lemma remove_ok h X L idx : steady h X L → full h idx →
  ∃ h' X' LA p LB, base_remove_entry idx h = Ret (base_set_dirty (n_entries_dec h')) ∧ shell h' = shell h ∧
    L = LA ++ p :: LB ∧ kv h idx = Some p ∧ steady h' X' (LA ++ LB) ∧ ∃ q, removal idx q h h'.
Proof.
  intros G Fi. pose proof (s_rh _ _ _ G) as GR. pose proof (rh_table _ _ _ GR) as T. pose proof (t_n h T) as Hn. pose proof (full_real h idx T Fi) as R.
  unfold base_remove_entry. pose proof Fi as (d & Ed & Hd). rewrite Ed. cbn [lift mbind outcome_bind].
  rewrite (proj2 (Z.eqb_neq d DIB_RAW_FREE)) by rlia. cbn [negb assert_ lift mbind outcome_bind]. destruct (s_stop _ _ _ G) as [s Hs].
  pose proof (last_left h idx T) as Hll. pose proof (Z.mod_pos_bound (s - next_idx h idx) (n_buckets h)) as Hm.
  destruct (find_right_ok h idx s T (s_stale _ _ _ G) Hs (fuel_of h) (next_idx h idx)) as (r & Er & Sr & W); [by apply next_real, T|lia|unfold fuel_of; lia|].
  rewrite Er. cbn [mbind outcome_bind]. destruct (unlink_holed h X L idx G Fi) as (h1 & LA & p & LB & E1 & M & EL & Ep & HO).
  rewrite E1. cbn [lift mbind outcome_bind]. pose proof (bare_shell h h1 (l_bare _ _ M)) as S1. pose proof (shell_frame h h1 S1) as E.
  pose proof (bare_dibs h h1 (l_bare _ _ M)) as Edib.
  assert (∀ i, full (freed idx h1) i ↔ i ≠ idx ∧ full h i) as HF by (intros i; apply (freed_dibs h (freed idx h1) idx); cbn; by rewrite Edib).
  assert (∀ i, dist (freed idx h1) i = dist h i) as HD by (intros i; apply kv_dist; [exact E|apply M]).
  pose proof (frame_n h h1 E) as En. assert (∀ i, next_idx h1 i = next_idx h i) as Ex by (intros i; by apply frame_next).
  pose proof (Z.mod_pos_bound (r - next_idx h idx) (n_buckets h)) as Hm'.
  destruct (shift_back_ok (LA ++ LB) r (fuel_of h1) h1 idx (dist h idx) (filter (.≠ idx) X)) as (q & h2 & X2 & D2 & E2 & S2 & Hq & HO2 & Nq & Sq & V).
  - exact HO.
  - rewrite Edib, Ed. by eexists.
  - split; [apply (frame_real h h1 r E), Sr|]. intros [_ Fr]%HF. rewrite HD. by apply Sr.
  - intros <-. by apply Sr.
  - rewrite Ex. intros i Ri%(frame_real h h1 i E). change (n_buckets (freed idx h1)) with (n_buckets h1). rewrite En. intros Hi.
    destruct (W i Ri Hi) as [F1 D1]. rewrite HF, HD. split; [split; [|done]|done]. intros ->. lia.
  - rewrite Ex, En. unfold fuel_of. rewrite En. lia.
  - rewrite E2. cbn [mbind outcome_bind]. destruct (close_hole h2 q D2 X2 (LA ++ LB) HO2 Hq) as (h3 & E3 & S3 & G3 & Ed3 & Ez & HK3); [by rewrite Nq|].
    rewrite E3. cbn [lift mbind outcome_bind]. exists h3, X2, LA, p, LB. split; [done|]. split; [congruence|]. split; [done|]. split; [done|]. split; [done|].
    assert (frame h2 = frame h) as Ef by (rewrite <- E; by apply shell_frame).
    exists q. apply (shifted_removal h h1 h2 h3 idx q r T Fi M Ef V); [|by rewrite <- (frame_next h h2 q Ef)|apply Sr|exact W|done..].
    apply (frame_real h h2 q Ef). exact (ho_real _ _ _ _ _ HO2).
Qed.

End Remove.
