(* ===== verification/HashMapResize.v ===== *)
(** * systemd: growth of hash maps

    [resize_buckets]: every entry of the old table is placed once in the new one,
    in the same order of the list; the loops end, and the count at the end is that
    of the entries. *)

From S2P Require Import Prelude Outcome SipHash HashMap HashMapLinks HashMapProps HashMapInsert HashMapRemove.

#[local] Open Scope Z_scope.
#[local] Set Warnings "-clear-no-such-hyp".
#[local] Ltac rlia := unfold real, IDX_PUT, IDX_TMP, IDX_SWAP_BEGIN, IDX_NIL, UINT32_MAX, DIB_RAW_REHASH, DIB_RAW_FREE, DIB_RAW_OVERFLOW in *; lia.

Section Resize.
Context `{HashEnv}.

(** ** Counting *)

Lemma listing_length h X L : listing h X L → length X = length L.
Proof. intros G. apply (Forall2_length _ _ _ (li_kv _ _ _ G)). Qed.

(** The buckets that are still to be rehashed. *)
Definition stale_set (h : HashmapBase) : gset Z := dom (filter (λ p, p.2 = DIB_RAW_REHASH) (dibs h)).

Lemma stale_elem h i : i ∈ stale_set h ↔ stale h i.
Proof.
  unfold stale_set, stale. rewrite elem_of_dom. split.
  - intros [d [E1 E2]%map_lookup_filter_Some]. cbn in E2. by subst d.
  - intros E. exists DIB_RAW_REHASH. by apply map_lookup_filter_Some.
Qed.

(** With fewer entries than buckets, or as many and one of them in the swap slot,
    a bucket is not full. *)
Lemma hole_exists h X L : rh h X L → Z.of_nat (length L) < n_buckets h ∨ (IDX_PUT ∈ X ∧ Z.of_nat (length L) ≤ n_buckets h) →
  ∃ f, real h f ∧ ¬ full h f.
Proof.
  intros G Hc. pose proof (rh_table _ _ _ G) as T. pose proof (t_n h T) as Hn. rewrite <- (listing_length h X L (rh_listing _ _ _ G)) in Hc.
  set (Y := filter (.≠ IDX_PUT) X). assert (Z.of_nat (length Y) < n_buckets h) as Hlen.
  { destruct Hc as [Hc|[Hp Hc]]; [pose proof (length_filter (.≠ IDX_PUT) X); unfold Y; lia|].
    pose proof (li_nodup _ _ _ (rh_listing _ _ _ G)) as N. revert Hc. unfold Y. apply list_elem_of_split in Hp as (A & B & ->).
    rewrite NoDup_app, NoDup_cons in N. destruct N as (_ & Hd & HB & _). rewrite filter_split; [|intros Hi; apply (Hd _ Hi); left|done].
    rewrite !length_app. cbn. lia. }
  destruct (decide (Forall (λ i, i ∈ Y) (seqZ 0 (n_buckets h)))) as [Fa|Ex].
  - rewrite Forall_forall in Fa. assert (seqZ 0 (n_buckets h) ⊆+ Y) as Hs%submseteq_length by (apply NoDup_submseteq; [apply NoDup_seqZ|done]).
    rewrite length_seqZ in Hs. lia.
  - apply not_Forall_Exists in Ex; [|intros i; apply _]. apply Exists_exists in Ex as (i & Hi & Hy). apply elem_of_seqZ in Hi.
    exists i. assert (real h i) as Ri by rlia. split; [done|]. intros Fi. apply Hy, list_elem_of_filter. split; [by apply (real_swap h i T Ri)|].
    apply (rh_used _ _ _ G). by left.
Qed.

Lemma entries_fit h X L : steady h X L → Z.of_nat (length L) ≤ n_buckets h.
Proof.
  intros G. pose proof (s_rh _ _ _ G) as GR. pose proof (rh_table _ _ _ GR) as T. rewrite <- (listing_length h X L (rh_listing _ _ _ GR)).
  assert (X ⊆+ seqZ 0 (n_buckets h)) as Hs%submseteq_length.
  { apply NoDup_submseteq; [apply GR|]. intros i Hi%(steady_used h X L i G)%full_real; [|apply T]. apply elem_of_seqZ. rlia. }
  rewrite length_seqZ in Hs. pose proof (t_n h T). lia.
Qed.

(** ** Rehashing *)

(** A step of the rehash: what was placed stays placed, [n] counts. *)
Record rehashed (h h' : HashmapBase) (X' : list Z) (L : list (Z * Z)) (n n' : Z) : Prop := {
  r_shell : shell h' = shell h;
  r_rh : rh h' X' L;
  r_put : IDX_PUT ∉ X';
  r_stale : ∀ i, stale h' i → stale h i;
  r_count : n' + Z.of_nat (size (stale_set h')) = n }.

Lemma rehash_chain_ok L m h X n : rh h X L → IDX_PUT ∈ X → Z.of_nat (length L) ≤ n_buckets h → (size (stale_set h) < m)%nat →
  0 ≤ n → n + Z.of_nat (size (stale_set h)) + 1 < 2 ^ 32 →
  ∃ n' h' X', rehash_chain m (home h (key h IDX_PUT)) n h = Ret (n', h') ∧ rehashed h h' X' L (n + Z.of_nat (size (stale_set h)) + 1) n'.
Proof.
  revert h X n. induction m as [|m IH]; intros h X n G Hp Hlen Hm Hn0 Hn; [lia|]. cbn [rehash_chain]. pose proof (rh_table _ _ _ G) as T. pose proof (t_n h T) as Hb.
  destruct (hole_exists h X L G) as (f & Rf & Hf); [by right|]. destruct (hash_ok h (key h IDX_PUT) T) as [Eh Rh].
  pose proof (Z.mod_pos_bound (f - home h (key h IDX_PUT)) (n_buckets h)) as Hmod.
  destruct (put_ok L (fuel_of h) h X (home h (key h IDX_PUT)) 0 f) as (b & h1 & X1 & g & E1 & D); [done|done|done| |by intros ?|done|done|unfold fuel_of; lia|].
  { by rewrite Z.sub_diag, Zmod_0_l. }
  rewrite E1. cbn [mbind outcome_bind]. rewrite wrapu_small by lia. pose proof (shell_frame h h1 (pd_shell _ _ _ _ _ _ D)) as E.
  pose proof (pd_rh _ _ _ _ _ _ D) as G1. assert (stale_set h1 = stale_set h ∖ {[g]}) as ES.
  { apply set_eq. intros i. rewrite elem_of_difference, elem_of_singleton, !stale_elem, (pd_stale _ _ _ _ _ _ D). tauto. }
  destruct b.
  - assert (IDX_PUT ∈ X1) as Hp1 by (by apply (pd_put _ _ _ _ _ _ D)). assert (g ∈ stale_set h) as Hg by (apply stale_elem; by apply (pd_displaced _ _ _ _ _ _ D)).
    assert (size (stale_set h) = S (size (stale_set h1))) as Hsz.
    { rewrite ES, size_difference, size_singleton by set_solver. assert (size (stale_set h) ≠ 0%nat); [|lia]. intros Hz%size_empty_inv. set_solver. }
    destruct (listing_kv h1 X1 L IDX_PUT (rh_listing _ _ _ G1) Hp1) as (p & Ep & _). unfold kv in Ep. destruct (store h1 !! IDX_PUT) as [e|] eqn:Ee; [|done].
    unfold bucket_at_virtual. rewrite put_virtual. cbn [assert_ mbind option_bind]. rewrite Ee. cbn [lift mbind outcome_bind].
    destruct (hash_ok h1 (e_key e) (rh_table _ _ _ G1)) as [-> _]. cbn [lift mbind outcome_bind].
    assert (e_key e = key h1 IDX_PUT) as -> by (unfold key, kv; by rewrite Ee).
    destruct (IH h1 X1 (n + 1) G1 Hp1) as (n' & h' & X' & E' & R); [by rewrite (frame_n h h1 E)|lia..|].
    exists n', h', X'. split; [done|]. destruct R as [R1 R2 R3 R4 R5]. split; [rewrite R1; apply D|done|done| |lia].
    intros i Hi%R4%(pd_stale _ _ _ _ _ _ D). tauto.
  - exists (n + 1), h1, X1. split; [done|]. assert (g ∉ stale_set h) as Hg by (rewrite stale_elem; intros Hs%(pd_displaced _ _ _ _ _ _ D); done).
    split; [apply D|done| | |].
    + intros Hp1%(pd_put _ _ _ _ _ _ D). done.
    + intros i Hi%(pd_stale _ _ _ _ _ _ D). tauto.
    + rewrite ES. replace (stale_set h ∖ {[g]}) with (stale_set h) by set_solver. lia.
Qed.

(** The entry of a bucket goes to the swap slot. *)
Lemma take_out_ok h X L idx : rh h X L → IDX_PUT ∉ X → stale h idx →
  ∃ h1, bucket_move_entry idx IDX_PUT (freed idx h) = Some h1 ∧
    let h' := set_store (<[idx := zero_entry]> (store h1)) h1 in
    shell h' = shell h ∧ rh h' (rename idx IDX_PUT X) L ∧ key h' IDX_PUT = key h idx ∧ (∀ i, stale h' i ↔ i ≠ idx ∧ stale h i).
Proof.
  intros G Hp S. pose proof (rh_table _ _ _ G) as T. pose proof (t_n h T) as Hn. assert (real h idx) as R by (apply (used_real h idx T); by right).
  destruct (real_swap h idx T R) as [Hne _]. assert (idx ∈ X) as Hi by (apply (rh_used _ _ _ G); by right).
  destruct (move_listing h idx IDX_PUT X L (rh_listing _ _ _ G) Hi Hp (put_virtual h)) as (h1 & E1 & M & GL).
  pose proof (bare_dibs h h1 (m_bare _ _ _ _ M)) as Ed. exists (freed idx h1). split.
  { rewrite (move_over idx IDX_PUT (<[idx := DIB_RAW_FREE]> (dibs h)) (idx_lowest_entry h) h : bucket_move_entry _ _ (freed idx h) = _), E1.
    cbn. unfold freed, over. rewrite <- Ed, <- (f_equal idx_lowest_entry (m_bare _ _ _ _ M) : idx_lowest_entry h1 = idx_lowest_entry h). done. }
  intros h'. assert (frame h' = frame h) as E by exact (shell_frame h h1 (bare_shell h h1 (m_bare _ _ _ _ M))).
  assert (dibs h' = <[idx := DIB_RAW_FREE]> (dibs h)) as Ed' by (cbn; by rewrite Ed).
  pose proof (freed_dibs h h' idx Ed') as HF. assert (∀ i, i ≠ idx → kv h' i = kv h1 i) as HK by (intros i Hx; unfold kv; cbn; by rewrite lookup_insert_ne).
  assert (∀ i, real h i → i ≠ idx → kv h' i = kv h i) as HK'.
  { intros i Ri Hx. rewrite HK by done. apply (m_other _ _ _ _ M). by apply (real_swap h i T). }
  assert (¬ full h idx) as Hnf by (intros (d & Ei & Hd); unfold stale in S; rewrite Ei in S; injection S as ->; rlia).
  split; [exact (bare_shell h h1 (m_bare _ _ _ _ M))|]. split; [|split; [|intros i; apply HF]].
  - split; [split| | | |].
    + apply (freed_buckets h h' idx T E Ed' R); [cbn; rewrite lookup_insert_eq; by eexists|done].
    + intros i Ri%(frame_real h h' i E). rewrite (frame_next h h' i E), !(proj1 (HF _)). intros [Hx Fn].
      rewrite (kv_dist h h' _ E) by (apply HK'; [by apply next_real, T|done]). intros Hd. destruct (t_robin h T i Ri Fn Hd) as [Fi Di].
      assert (i ≠ idx) as Hx' by (by intros ->). rewrite (kv_dist h h' i E) by auto. done.
    + apply (listing_other (freed idx h1)); [by apply (listing_frame h1)|]. rewrite rename_elem. naive_solver.
    + intros i [[-> _]|[Hx Hin]]%rename_elem; [by left|]. destruct (rh_in _ _ _ G i Hin) as [->|[|]]; [done|right; left; by apply HF|right; right; by apply HF].
    + intros i U. apply rename_elem. right. split; [by destruct U as [[? _]%(HF i)|[? _]%(HF i)]|]. apply (rh_used _ _ _ G).
      destruct U as [[_ U]%(HF i)|[_ U]%(HF i)]; auto.
    + assert (idx_lowest_entry h' = idx_lowest_entry h) as -> by exact (f_equal idx_lowest_entry (m_bare _ _ _ _ M)).
      assert (has_indirect h' = has_indirect h) as -> by exact (f_equal has_indirect (m_bare _ _ _ _ M)). intros Hind. destruct (rh_low _ _ _ G Hind) as [H1 H2].
      split; [done|]. intros i U. apply H2. destruct U as [[_ U]%(HF i)|[_ U]%(HF i)]; auto.
  - unfold key. by rewrite HK, (m_to _ _ _ _ M) by done.
Qed.

Lemma stale_bound h X L : rh h X L → (size (stale_set h) ≤ length L)%nat.
Proof.
  intros G. rewrite <- (listing_length h X L (rh_listing _ _ _ G)), <- (size_list_to_set (C := gset Z) X) by apply G.
  apply subseteq_size. intros i Hi%stale_elem. apply elem_of_list_to_set, (rh_used _ _ _ G). by right.
Qed.

Lemma rehash_bucket_ok L h X n idx : rh h X L → IDX_PUT ∉ X → Z.of_nat (length L) ≤ n_buckets h → real h idx → 0 ≤ n →
  n + Z.of_nat (size (stale_set h)) < 2 ^ 32 →
  ∃ n' h' X', rehash_bucket idx n h = Ret (n', h') ∧ rehashed h h' X' L (n + Z.of_nat (size (stale_set h))) n' ∧ ¬ stale h' idx ∧ 0 ≤ n'.
Proof.
  intros G Hp Hlen R Hn0 Hn. pose proof (rh_table _ _ _ G) as T. pose proof (t_n h T) as Hb. unfold rehash_bucket.
  destruct (proj2 (t_dibs h T idx) R) as [d Ed]. rewrite Ed. cbn [lift mbind outcome_bind]. destruct (Z.eqb_spec d DIB_RAW_REHASH) as [->|Hd]; cbn [negb].
  2: { exists n, h, X. split; [done|]. split; [|split; [unfold stale; rewrite Ed; naive_solver|done]]. split; [done..|auto|done]. }
  assert (stale h idx) as St by done. destruct (t_store h T idx R) as [e Ee]. rewrite (real_bucket h idx e R Ee). cbn [lift mbind outcome_bind].
  assert (key h idx = e_key e) as Ek by (unfold key, kv; by rewrite Ee). destruct (hash_ok h (e_key e) T) as [-> Rh]. cbn [lift mbind outcome_bind].
  assert (size (stale_set h) ≠ 0%nat) as Hz. { intros Hz%size_empty_inv. apply (not_elem_of_empty (C := gset Z) idx). rewrite <- Hz. by apply stale_elem. }
  assert (∀ h', (∀ i, stale h' i ↔ i ≠ idx ∧ stale h i) → size (stale_set h) = S (size (stale_set h'))) as Hsz.
  { intros h' HS. replace (stale_set h') with (stale_set h ∖ {[idx]}). 2: { apply set_eq. intros i. rewrite elem_of_difference, elem_of_singleton, !stale_elem, HS. tauto. }
    rewrite size_difference, size_singleton; [lia|]. apply singleton_subseteq_l. by apply stale_elem. }
  destruct (Z.eqb_spec (home h (e_key e)) idx) as [Eh|Hne].
  - set (h' := set_dibs (<[idx:=0]> (dibs h)) h). pose proof (dibs_stale h h' idx 0 eq_refl ltac:(done)) as HS. exists (n + 1), h', X. rewrite wrapu_small by lia. split; [done|].
    split; [split|]; [done| |done| | |].
    + assert (idx ∈ X) as Hi by (apply (rh_used _ _ _ G); by right). apply (place_rh h h idx 0 (idx_lowest_entry h) X X L); try done.
      * apply G.
      * by rewrite Ek, Eh, Z.sub_diag, Zmod_0_l.
      * intros (d & Ei & Hd). rewrite Ed in Ei. injection Ei as <-. lia.
      * auto.
      * intros Hind. destruct (rh_low _ _ _ G Hind) as [H1 H2]. specialize (H2 idx (or_intror St)). lia.
    + intros i [_ Hi]%HS. done.
    + pose proof (Hsz h' HS). lia.
    + split; [|lia]. intros [? _]%HS. done.
  - destruct (take_out_ok h X L idx G Hp St) as (h1 & E1 & T1). cbn zeta in T1. destruct T1 as (S1 & G1 & K1 & HS). fold (freed idx h). rewrite E1.
    cbn [lift mbind outcome_bind]. set (h2 := set_store _ h1) in *. pose proof (Hsz h2 HS) as Hs2. pose proof (shell_frame h h2 S1) as E.
    assert (home h (e_key e) = home h2 (key h2 IDX_PUT)) as -> by (by rewrite K1, Ek, (frame_home h h2 _ E)).
    destruct (rehash_chain_ok L (fuel_of h1) h2 (rename idx IDX_PUT X) n G1) as (n' & h' & X' & E' & R').
    + rewrite rename_elem. left. split; [done|]. apply (rh_used _ _ _ G). by right.
    + by rewrite (frame_n h h2 E).
    + unfold fuel_of. change (n_buckets h1) with (n_buckets h2). rewrite (frame_n h h2 E). pose proof (stale_bound h X L G). lia.
    + done.
    + lia.
    + exists n', h', X'. split; [done|]. destruct R' as [R1 R2 R3 R4 R5]. split; [split|]; [congruence|done|done| |lia|].
      * intros i [_ Hi]%R4%HS. done.
      * assert (stale_set h' ⊆ stale_set h) as Hsub%subseteq_size.
        { intros i. rewrite !stale_elem. intros [_ Hi]%R4%HS. done. }
        split; [|lia]. intros [? _]%R4%HS. done.
Qed.

Lemma rehash_loop_ok L k idx n h X : rh h X L → IDX_PUT ∉ X → Z.of_nat (length L) ≤ n_buckets h → 0 ≤ idx → idx + Z.of_nat k ≤ n_buckets h → 0 ≤ n →
  n + Z.of_nat (size (stale_set h)) < 2 ^ 32 → (∀ i, stale h i → idx ≤ i < idx + Z.of_nat k) →
  ∃ h' X', rehash_loop k idx n h = Ret (n + Z.of_nat (size (stale_set h)), h') ∧ shell h' = shell h ∧ rh h' X' L ∧ (IDX_PUT ∉ X') ∧ ∀ i, ¬ stale h' i.
Proof.
  revert idx n h X. induction k as [|k IH]; intros idx n h X G Hp Hlen Hi Hk Hn0 Hn Hs; cbn [rehash_loop].
  - assert (stale_set h = ∅) as Hz. { apply set_eq. intros i. rewrite stale_elem. split; [|done]. intros St%Hs. lia. }
    exists h, X. rewrite Hz, size_empty, Z.add_0_r. split_and!; try done. intros i St%Hs. lia.
  - destruct (rehash_bucket_ok L h X n idx G Hp Hlen) as (n1 & h1 & X1 & E1 & [R1 R2 R3 R4 R5] & Hx & Hn1); [split; lia|done|done|].
    rewrite E1. cbn [mbind outcome_bind]. pose proof (shell_frame h h1 R1) as E.
    destruct (IH (idx + 1) n1 h1 X1 R2 R3) as (h' & X' & E' & S' & G' & P' & N'); [rewrite ?(frame_n h h1 E); lia..| |].
    + intros i St. pose proof (Hs i (R4 i St)). assert (i ≠ idx) by (by intros ->). lia.
    + exists h', X'. split; [rewrite E', R5; done|]. split; [congruence|done].
Qed.

(** ** The new table *)

Lemma lookup_const {A} (l : list Z) (v : A) j : (list_to_map (map (λ i, (i, v)) l) : gmap Z A) !! j = if decide (j ∈ l) then Some v else None.
Proof.
  induction l as [|i l IH]; [done|]. cbn. rewrite lookup_insert, IH. destruct (decide (i = j)) as [->|Hne].
  - by rewrite decide_True by left.
  - apply decide_ext. set_solver.
Qed.

Lemma fresh_elem old n j : 0 ≤ old ≤ n → j ∈ map (λ i, old + Z.of_nat i) (seq 0 (Z.to_nat (n - old))) ↔ old ≤ j < n.
Proof.
  intros Hn. rewrite list_elem_of_fmap. split.
  - intros (i & -> & Hi%elem_of_seq). lia.
  - intros Hj. exists (Z.to_nat (j - old)). rewrite elem_of_seq. lia.
Qed.

Lemma grow_dibs h n i : 0 ≤ n_buckets h ≤ n → dibs (grow n h) !! i =
  if decide (n_buckets h ≤ i < n) then Some DIB_RAW_FREE else (λ d, if d =? DIB_RAW_FREE then DIB_RAW_FREE else DIB_RAW_REHASH) <$> dibs h !! i.
Proof.
  intros Hn. cbn. rewrite lookup_union, lookup_const, lookup_fmap. destruct (decide (n_buckets h ≤ i < n)) as [Hi|Hi].
  - rewrite decide_True by (by apply fresh_elem). by destruct (dibs h !! i).
  - rewrite decide_False by (by rewrite fresh_elem). by destruct (dibs h !! i).
Qed.

Lemma grow_store h n i : 0 ≤ n_buckets h ≤ n → store (grow n h) !! i = if decide (n_buckets h ≤ i < n) then Some zero_entry else store h !! i.
Proof.
  intros Hn. cbn. rewrite lookup_union, lookup_const. destruct (decide (n_buckets h ≤ i < n)) as [Hi|Hi].
  - rewrite decide_True by (by apply fresh_elem). by destruct (store h !! i).
  - rewrite decide_False by (by rewrite fresh_elem). by destruct (store h !! i).
Qed.

Lemma grow_ok h X L n : steady h X L → is_Some (siphash24_init (new_hash_key h (negb (has_indirect h)))) → n_buckets h ≤ n < IDX_SWAP_BEGIN →
  rh (grow n h) X L ∧ ∀ i, stale (grow n h) i ↔ i ∈ X.
Proof.
  intros G Hkey Hn. pose proof (s_rh _ _ _ G) as GR. pose proof (rh_table _ _ _ GR) as T. pose proof (t_n h T) as Hb. set (h' := grow n h).
  assert (∀ i, dibs h' !! i = if decide (n_buckets h ≤ i < n) then Some DIB_RAW_FREE else _) as HD by (intros i; apply grow_dibs; lia).
  assert (∀ i, store h' !! i = if decide (n_buckets h ≤ i < n) then Some zero_entry else _) as HS by (intros i; apply grow_store; lia).
  assert (∀ i, ¬ full h' i) as HF.
  { intros i (d & Ed & Hd). rewrite HD in Ed. case_decide; [injection Ed as <-; rlia|]. destruct (dibs h !! i) as [d'|]; [|done]. cbn in Ed.
    destruct (d' =? DIB_RAW_FREE); injection Ed as <-; rlia. }
  assert (∀ i, i ∈ X → real h i) as HX by (intros i Hi%(steady_used h X L i G); by apply (full_real h i T)).
  assert (∀ i, stale h' i ↔ i ∈ X) as HSt.
  { intros i. rewrite (steady_used h X L i G). unfold stale. rewrite HD. case_decide as Hi.
    - split; [done|]. intros Fi%full_real; [rlia|apply T].
    - unfold full. destruct (dibs h !! i) as [d|] eqn:Ed; [|naive_solver]. cbn. pose proof (t_byte h T i d Ed).
      destruct (Z.eqb_spec d DIB_RAW_FREE) as [->|Hne]; [split; [done|intros (d & [= <-] & Hd); rlia]|]. split; [|done]. intros _. exists d. split; [done|].
      assert (d ≠ DIB_RAW_REHASH) by (intros ->; by apply (s_stale _ _ _ G i)). rlia. }
  split; [|done]. split; [split; [split|]| | | |].
  - change (0 < n < IDX_SWAP_BEGIN). lia.
  - done.
  - intros i. rewrite HD. unfold real. change (n_buckets h') with n. case_decide as Hi; [split; [lia|by eexists]|]. rewrite fmap_is_Some, (t_dibs h T i). unfold real. lia.
  - intros i. unfold real. change (n_buckets h') with n. rewrite HS. intros Ri. case_decide as Hi; [by eexists|]. apply T. rlia.
  - intros i d. rewrite HD. case_decide as Hi; [intros [= <-]; rlia|]. destruct (dibs h !! i) as [d'|]; [|done]. cbn. destruct (d' =? _); intros [= <-]; rlia.
  - intros i d Ed Hd. destruct (HF i). by exists d.
  - intros i _ Fn. by destruct (HF _ Fn).
  - destruct (rh_listing _ _ _ GR) as [G1 G2 G3 G4]. assert (∀ i, i ∈ X → store h' !! i = store h !! i) as HSX.
    { intros i Hi%HX. rewrite HS, decide_False; [done|]. rlia. }
    split; [done| | |].
    + intros i Hi%HX. apply real_virtual; [|change (n < IDX_SWAP_BEGIN); lia]. unfold real in *. change (n_buckets h') with n. lia.
    + intros Hty. destruct (G3 Hty) as (H1 & H2 & H3). split; [done|]. split; [done|]. by apply (chain_frame (store h)).
    + apply Forall2_same_length_lookup. split; [by apply (Forall2_length _ _ _ G4)|]. intros m i q Ei Eq. unfold kv.
      rewrite HSX by (by apply list_elem_of_lookup_2 in Ei). by apply (Forall2_lookup_lr _ _ _ _ _ _ G4 Ei Eq).
  - intros i Hi. right. right. by apply HSt.
  - intros i [Fi|St]; [by destruct (HF i)|by apply HSt].
  - intros _. change (idx_lowest_entry h') with (if has_indirect h then idx_lowest_entry h else 0). destruct (has_indirect h) eqn:Hind.
    + destruct (rh_low _ _ _ GR Hind) as [H1 H2]. split; [done|]. intros i [Fi|St]; [by destruct (HF i)|]. apply H2. left. by apply (steady_used h X L i G), HSt.
    + split; [done|]. intros i [Fi|St]; [by destruct (HF i)|]. apply HSt, HX in St. rlia.
Qed.

End Resize.

(** ** The whole operation *)

Section Whole.
Context `{LawfulHash}.

(** The buckets that a table for [m] entries is to have. *)
Definition wanted (m : Z) : Z := m + m / (INV_KEEP_FREE - 1).

(** The size in bytes above which the code cannot compute the table. *)
Definition oversized (t : HashmapType) (m : Z) : Prop := 2 ^ 31 < wanted m * (entry_size t + 1) ≤ UINT_MAX.

(** What [resize_buckets] gives to a map. *)
Inductive resized (h : HashmapBase) (add : Z) : Z → HashmapBase → Prop :=
  | resized_fails : UINT_MAX < wanted (n_entries h + add) * (entry_size (h_type h) + 1) ∨ (∃ size, realloc_ok h size = false) →
      resized h add (- ENOMEM) h
  | resized_not : n_entries h + add ≤ n_buckets h → resized h add 0 h
  | resized_more h' : has_indirect h' = true → n_buckets h < n_buckets h' → n_entries h + add ≤ n_buckets h' → h_type h' = h_type h →
      n_entries h' = n_entries h → dirty h' = dirty h → resized h add 1 h'.

Lemma no_stale_check h X L : steady h X L → forallb (λ d, negb (d =? DIB_RAW_REHASH)) (map_to_list (dibs h)).*2 = true.
Proof.
  intros G. apply Is_true_true, forallb_True, Forall_forall. intros d ([i d'] & -> & Hd)%list_elem_of_fmap. apply elem_of_map_to_list in Hd. cbn.
  destruct (Z.eqb_spec d' DIB_RAW_REHASH) as [->|]; [|done]. by apply (s_stale _ _ _ G i).
Qed.

Lemma log2u_ok x : 78 ≤ x → ∃ k, log2u_round_up x = Some k ∧ 0 ≤ k ∧ x ≤ 2 ^ k ∧ (x ≤ 2 ^ 31 → k < 32).
Proof.
  intros Hx. unfold log2u_round_up. rewrite (proj2 (Z.ltb_lt 0 x)), (proj2 (Z.eqb_neq x 1)) by lia. eexists. split; [done|].
  pose proof (Z.log2_spec (x - 1) ltac:(lia)) as Hs. pose proof (Z.log2_nonneg (x - 1)). split; [lia|]. split; [rewrite <- Z.add_1_r in Hs; lia|].
  intros Hle. assert (Z.log2 (x - 1) < 31); [|lia]. apply Z.log2_lt_pow2; lia.
Qed.

Lemma wrapu_once x : 2 ^ 32 ≤ x < 2 * 2 ^ 32 → wrapu 32 x = x - 2 ^ 32.
Proof.
  intros Hx. unfold wrapu. replace x with (x - 2 ^ 32 + 1 * 2 ^ 32) at 1 by lia. rewrite Z_mod_plus_full. apply Z.mod_small. lia.
Qed.

Lemma entry_size_bounds t : 8 ≤ entry_size t ≤ 24.
Proof. destruct t; cbn; lia. Qed.

(** The old table of [n] buckets is rehashed into one of [2 ^ k] bytes. *)
Lemma rehash_ok h X L n : steady h X L → n_entries h = Z.of_nat (length L) → n_buckets h < n < IDX_SWAP_BEGIN →
  ∃ h' X', rehash_loop (Z.to_nat (n_buckets h)) 0 0 (grow n h) = Ret (n_entries h, h') ∧ shell h' = shell (grow n h) ∧ steady h' X' L.
Proof.
  intros G Hc Hn. destruct (grow_ok h X L n G (new_key_ok h _)) as [GR HS]; [lia|]. pose proof (entries_fit h X L G) as Hfit.
  pose proof (rh_table _ _ _ (s_rh _ _ _ G)) as T. pose proof (t_n h T) as Hb.
  assert (stale_set (grow n h) = list_to_set X) as Eset by (apply set_eq; intros i; by rewrite stale_elem, HS, elem_of_list_to_set).
  assert (size (stale_set (grow n h)) = length L) as Esz.
  { rewrite Eset, size_list_to_set by apply GR. apply (listing_length (grow n h)), GR. }
  destruct (rehash_loop_ok L (Z.to_nat (n_buckets h)) 0 0 (grow n h) X GR (s_put _ _ _ G)) as (h' & X' & E' & S' & G' & P' & N').
  - change (n_buckets (grow n h)) with n. lia.
  - lia.
  - change (n_buckets (grow n h)) with n. lia.
  - lia.
  - rewrite Esz. rlia.
  - intros i Hi%HS%(steady_used h X L i G)%full_real; [rlia|apply T].
  - exists h', X'. rewrite E', Esz, Hc. split; [done|]. split; [done|]. split; [done..|].
    destruct (hole_exists h' X' L G') as (f & Rf & Hf); [|exists f; split; [done|by intros ?]].
    left. rewrite (frame_n (grow n h) h') by (by apply shell_frame). change (n_buckets (grow n h)) with n. lia.
Qed.

Lemma resize_ok h X L add : steady h X L → n_entries h = Z.of_nat (length L) → 0 ≤ add < 2 ^ 32 → ¬ oversized (h_type h) (n_entries h + add) →
  ∃ r h' X', resize_buckets add h = Ret (r, h') ∧ steady h' X' L ∧ resized h add r h'.
Proof.
  intros G Hc Ha Hov. pose proof (entries_fit h X L G) as Hfit. pose proof (rh_table _ _ _ (s_rh _ _ _ G)) as T. pose proof (t_n h T) as Hb.
  pose proof (entry_size_bounds (h_type h)) as Hsz. unfold resize_buckets. set (size := entry_size (h_type h) + 1) in *. unfold oversized, wanted in Hov. fold size in Hov.
  set (m := n_entries h + add) in *. assert (0 ≤ m) as Hm by lia. assert (INV_KEEP_FREE - 1 = 4) as E4 by done. rewrite E4 in *.
  assert (UINT_MAX = 2 ^ 32 - 1) as EU by done. rewrite EU in *. assert (0 ≤ m / 4 ≤ m) as Hq by (split; [apply Z.div_pos; lia|apply Z.div_le_upper_bound; lia]).
  assert (2 ^ 32 - 1 < (m + m / 4) * size → resized h add (- ENOMEM) h) as HE by (intros Hlt; apply resized_fails; left; unfold wanted; fold size; by rewrite E4).
  destruct (decide (m < 2 ^ 32)) as [Hm32|Hm32].
  2: { rewrite (wrapu_once m) by rlia. rewrite (proj2 (Z.ltb_lt _ _)) by rlia. exists (- ENOMEM), h, X. split; [done|]. split; [done|]. apply HE. nia. }
  rewrite (wrapu_small 32 m) by lia. rewrite (proj2 (Z.ltb_ge m add)) by lia.
  destruct (negb (has_indirect h) && (m <=? n_direct_buckets (h_type h))) eqn:Edir.
  { exists 0, h, X. split; [done|]. split; [done|]. apply resized_not. apply andb_true_iff in Edir as [E1%negb_true_iff E2%Z.leb_le]. unfold n_buckets. by rewrite E1. }
  destruct (decide (m + m / 4 < 2 ^ 32)) as [Hw|Hw].
  2: { rewrite (wrapu_once (m + m / 4)) by lia. rewrite (proj2 (Z.ltb_lt _ _)) by lia. exists (- ENOMEM), h, X. split; [done|]. split; [done|]. apply HE. nia. }
  rewrite (wrapu_small 32 (m + m / 4)) by lia. rewrite (proj2 (Z.ltb_ge (m + m / 4) m)) by lia.
  destruct (Z.ltb_spec ((2 ^ 32 - 1) / size) (m + m / 4)) as [Hl|Hl].
  { exists (- ENOMEM), h, X. split; [done|]. split; [done|]. apply HE. apply (Z.lt_le_trans _ (size * (((2 ^ 32 - 1) / size) + 1))); [|nia].
    pose proof (Z.mul_succ_div_gt (2 ^ 32 - 1) size). lia. }
  destruct (Z.leb_spec (m + m / 4) (n_buckets h)) as [Hle|Hgt].
  { exists 0, h, X. split; [done|]. split; [done|]. apply resized_not. fold m. lia. }
  assert ((m + m / 4) * size ≤ 2 ^ 31) as H31.
  { assert ((m + m / 4) * size ≤ 2 ^ 32 - 1) as Hu; [|lia]. pose proof (Z.mul_div_le (2 ^ 32 - 1) size). nia. }
  destruct (log2u_ok (Z.max ((m + m / 4) * size) (2 * sizeof_direct_storage))) as (k & Ek & Hk & Hx & Hlt); [unfold sizeof_direct_storage; lia|].
  rewrite Ek. cbn [lift mbind outcome_bind]. assert (k < 32) as Hk32 by (apply Hlt; unfold sizeof_direct_storage; lia). 
  rewrite (proj2 (Z.ltb_lt k 32)) by done. cbn [assert_ lift mbind outcome_bind].
  destruct (realloc_ok h (2 ^ k)) eqn:Er; cbn [negb].
  2: { exists (- ENOMEM), h, X. split; [done|]. split; [done|]. apply resized_fails. right. by eexists. }
  rewrite (no_stale_check h X L G). cbn [assert_ lift mbind outcome_bind].
  assert (2 ^ k ≤ 2 ^ 31) as Hk31 by (apply Z.pow_le_mono_r; lia).
  assert (m + m / 4 ≤ 2 ^ k / size) as Hn1 by (apply Z.div_le_lower_bound; lia).
  assert (2 ^ k / size ≤ 2 ^ 31) as Hn2 by (apply Z.div_le_upper_bound; nia).
  destruct (rehash_ok h X L (2 ^ k / size) G Hc) as (h' & X' & E' & S' & G'); [rlia|]. rewrite E'. cbn [mbind outcome_bind].
  pose proof (shell_frame _ h' S') as E. assert (n_entries h' = n_entries h) as En.
  { unfold n_entries at 1. rewrite (f_equal has_indirect S' : has_indirect h' = true). exact (f_equal i_n_entries S'). }
  rewrite (proj2 (Z.eqb_eq (n_entries h) (n_entries h'))) by done. cbn [assert_ lift mbind outcome_bind]. exists 1, h', X'. split; [done|]. split; [done|].
  pose proof (frame_n _ h' E : n_buckets h' = 2 ^ k / size) as En'.
  apply resized_more; [exact (f_equal has_indirect S')|lia|fold m; lia|exact (f_equal h_type S')|done|exact (f_equal dirty S')].
Qed.

End Whole.
