(* ===== verification/HashMapSpec.v ===== *)
(** * systemd: what a hash map promises

    The abstract hash map: the list of its keys and values, in the order of
    insertion, without two keys that compare equal. [map_of] relates a table to it;
    finding, inserting, changing and removing an entry of the table do to the list
    what they say. *)

From S2P Require Import Prelude Outcome SipHash HashMap HashMapLinks HashMapProps HashMapInsert HashMapRemove HashMapResize.

#[local] Open Scope Z_scope.
#[local] Set Warnings "-clear-no-such-hyp".
#[local] Ltac rlia := unfold real, IDX_PUT, IDX_TMP, IDX_SWAP_BEGIN, IDX_NIL, UINT32_MAX, DIB_RAW_REHASH, DIB_RAW_FREE, DIB_RAW_OVERFLOW in *; lia.

Section Spec.
Context `{LawfulHash}.

(** ** Association lists *)

Fixpoint assoc (k : Z) (L : list (Z * Z)) : option (Z * Z) :=
  match L with
  | [] => None
  | p :: L => if decide (compare_func p.1 k = 0) then Some p else assoc k L
  end.

Definition without (k : Z) (L : list (Z * Z)) : list (Z * Z) := filter (λ p, compare_func p.1 k ≠ 0) L.

Definition rebind (k : Z) (f : Z * Z → Z * Z) (L : list (Z * Z)) : list (Z * Z) :=
  map (λ p, if decide (compare_func p.1 k = 0) then f p else p) L.

(** No two keys compare equal. *)
Fixpoint distinct (L : list (Z * Z)) : Prop :=
  match L with
  | [] => True
  | p :: L => (∀ q, q ∈ L → compare_func q.1 p.1 ≠ 0) ∧ distinct L
  end.

Lemma assoc_None k L : assoc k L = None ↔ ∀ q, q ∈ L → compare_func q.1 k ≠ 0.
Proof.
  induction L as [|p L IH]; cbn; [split; [by intros _ q ?%not_elem_of_nil|done]|]. case_decide as E.
  - split; [done|]. intros Hq. destruct (Hq p); [by left|done].
  - rewrite IH. split; [intros Hq q [->|?]%elem_of_cons; auto|]. intros Hq q Hin. apply Hq. by right.
Qed.

Lemma distinct_app A B : distinct (A ++ B) ↔ distinct A ∧ distinct B ∧ ∀ p q, p ∈ A → q ∈ B → compare_func q.1 p.1 ≠ 0.
Proof.
  induction A as [|a A IH]; cbn; [split; [intros D; split_and!; [done|done|by intros p q ?%not_elem_of_nil]|tauto]|].
  rewrite IH. setoid_rewrite elem_of_app. setoid_rewrite elem_of_cons. naive_solver.
Qed.

(** The entry of a key, and the others. *)
Lemma assoc_split k L p : distinct L → assoc k L = Some p →
  ∃ A B, L = A ++ p :: B ∧ compare_func p.1 k = 0 ∧ ∀ q, q ∈ A ++ B → compare_func q.1 k ≠ 0.
Proof.
  induction L as [|x L IH]; cbn; [done|]. intros [Hx D]. case_decide as E.
  - intros [= <-]. exists [], L. split; [done|]. split; [done|]. intros q Hq Eq. apply (Hx q Hq). apply (compare_trans _ k); [done|by apply compare_sym].
  - intros (A & B & -> & Ep & HAB)%IH; [|done]. exists (x :: A), B. split; [done|]. split; [done|]. intros q. cbn. rewrite elem_of_cons. intros [->|Hq]; auto.
Qed.

Lemma without_split k A p B : compare_func p.1 k = 0 → (∀ q, q ∈ A ++ B → compare_func q.1 k ≠ 0) → without k (A ++ p :: B) = A ++ B.
Proof.
  intros E HAB. unfold without. rewrite filter_app, filter_cons_False by naive_solver. rewrite <- filter_app. induction (A ++ B) as [|q l IH]; [done|].
  rewrite filter_cons_True by (apply HAB; left). f_equal. apply IH. intros r Hr. apply HAB. by right.
Qed.

Lemma rebind_split k f A p B : compare_func p.1 k = 0 → (∀ q, q ∈ A ++ B → compare_func q.1 k ≠ 0) → rebind k f (A ++ p :: B) = A ++ f p :: B.
Proof.
  intros E HAB. assert (∀ l, (∀ q, q ∈ l → compare_func q.1 k ≠ 0) → rebind k f l = l) as Hid.
  { induction l as [|q l IH]; intros Hq; [done|]. cbn. rewrite decide_False by (apply Hq; left). f_equal. apply IH. intros r Hr. apply Hq. by right. }
  unfold rebind. rewrite map_app. cbn. rewrite decide_True by done. f_equal; [apply Hid; set_solver|]. f_equal. apply Hid. set_solver.
Qed.

Lemma distinct_delete A p B : distinct (A ++ p :: B) → distinct (A ++ B).
Proof. rewrite !distinct_app. cbn. intros (D1 & [D2 D3] & D4). split_and!; [done..|]. intros a b Ha Hb. apply D4; [done|]. by right. Qed.

Lemma distinct_replace A p p' B : compare_func p'.1 p.1 = 0 → distinct (A ++ p :: B) → distinct (A ++ p' :: B).
Proof.
  intros E. rewrite !distinct_app. cbn. intros (D1 & [D2 D3] & D4). split_and!; [done| |done|].
  - intros q Hq Eq. apply (D2 q Hq). by apply (compare_trans _ p'.1).
  - intros a b Ha [->|Hb]%elem_of_cons; [|apply D4; [done|by right]]. intros Eq. apply (D4 a p Ha); [by left|].
    apply (compare_trans _ p'.1); [by apply compare_sym|done].
Qed.

Lemma distinct_snoc L k v : distinct L → assoc k L = None → distinct (L ++ [(k, v)]).
Proof.
  rewrite assoc_None, distinct_app. cbn. intros D Hk. split_and!; [done|by intros q ?%not_elem_of_nil|done|]. intros p q Hp ->%list_elem_of_singleton. cbn.
  intros E%compare_sym. by apply (Hk p Hp).
Qed.

Lemma distinct_lookup L a b p q : distinct L → L !! a = Some p → L !! b = Some q → compare_func p.1 q.1 = 0 → a = b.
Proof.
  revert a b. induction L as [|x L IH]; [done|]. intros a b [Hx D] Ea Eb E. destruct a as [|a], b as [|b]; cbn in *.
  - done.
  - injection Ea as ->. destruct (Hx q); [by apply list_elem_of_lookup_2 in Eb|by apply compare_sym].
  - injection Eb as ->. destruct (Hx p); [by apply list_elem_of_lookup_2 in Ea|done].
  - f_equal. by apply IH.
Qed.

Lemma distinct_split L A B A' B' p : distinct L → L = A ++ p :: B → L = A' ++ p :: B' → A = A' ∧ B = B'.
Proof.
  intros D E E'. assert (length A = length A') as Hlen.
  { apply (distinct_lookup L _ _ p p D); [rewrite E; by apply list_lookup_middle|rewrite E'; by apply list_lookup_middle|apply compare_refl]. }
  rewrite E in E'. apply app_inj_1 in E' as [-> E']; [|done]. by injection E' as ->.
Qed.

(** ** The relation *)

Record map_of (h : HashmapBase) (L : list (Z * Z)) : Prop := {
  mo_steady : ∃ X, steady h X L;
  mo_count : n_entries h = Z.of_nat (length L);
  mo_distinct : distinct L }.

Lemma map_table h L : map_of h L → table h.
Proof. intros [[X G] _ _]. apply G. Qed.

Lemma listing_lookup h X L i p : listing h X L → i ∈ X → kv h i = Some p → ∃ a, X !! a = Some i ∧ L !! a = Some p.
Proof.
  intros G Hi Ep. apply list_elem_of_lookup in Hi as [a Ea]. exists a. split; [done|].
  destruct (Forall2_lookup_l _ _ _ _ _ (li_kv _ _ _ G) Ea) as (q & Eq & Hq). cbn in Hq. congruence.
Qed.

Lemma full_kv h L i : map_of h L → full h i → ∃ p, kv h i = Some p ∧ p ∈ L ∧ key h i = p.1.
Proof.
  intros [[X G] _ _] Fi. apply (steady_used h X L i G) in Fi. destruct (listing_kv h X L i (rh_listing _ _ _ (s_rh _ _ _ G)) Fi) as (p & Ep & Hp).
  exists p. split; [done|]. split; [done|]. unfold key. by rewrite Ep.
Qed.

Lemma find_some h L k p : map_of h L → assoc k L = Some p → ∃ i, find_entry h k = Ret (home h k, i) ∧ full h i ∧ kv h i = Some p.
Proof.
  intros M E. destruct (assoc_split k L p (mo_distinct _ _ M) E) as (A & B & EL & Ep & HAB). pose proof (mo_distinct _ _ M) as D.
  destruct M as [[X G] _ _]. pose proof (rh_listing _ _ _ (s_rh _ _ _ G)) as GL.
  assert (L !! length A = Some p) as Ea by (rewrite EL; by apply list_lookup_middle). destruct (Forall2_lookup_r _ _ _ _ _ (li_kv _ _ _ GL) Ea) as (i & Ei & Hi).
  assert (full h i) as Fi by (apply (steady_used h X L i G); by apply list_elem_of_lookup_2 in Ei). exists i. split; [|done].
  apply find_found; [apply (s_rh _ _ _ G)|done|unfold key; by rewrite Hi|]. intros j Fj Ej. apply (steady_used h X L j G) in Fj.
  destruct (listing_kv h X L j GL Fj) as (q & Eq & _). destruct (listing_lookup h X L j q GL Fj Eq) as (b & Eb & Eb'). unfold key in Ej. rewrite Eq in Ej. cbn in Ej.
  assert (length A = b) as <-. { apply (distinct_lookup L _ _ p q D Ea Eb'). apply (compare_trans _ k); [done|by apply compare_sym]. }
  congruence.
Qed.

Lemma find_none h L k : map_of h L → assoc k L = None → find_entry h k = Ret (home h k, IDX_NIL).
Proof.
  intros M E. apply find_missing; [by apply (map_table h L)|destruct M as [[X G] _ _]; apply G|]. intros j Fj. destruct (full_kv h L j M Fj) as (p & _ & Hp & ->).
  by apply (proj1 (assoc_None k L) E).
Qed.

(** ** Changes that keep the buckets *)

Lemma steady_ext h h' X L L' : steady h X L → frame h' = frame h → dibs h' = dibs h → (∀ i, real h i → is_Some (store h' !! i)) → listing h' X L' →
  (∀ i, full h i → home h (key h' i) = home h (key h i)) →
  (has_indirect h' = true → 0 ≤ idx_lowest_entry h' ∧ ∀ i, full h i → idx_lowest_entry h' ≤ i) → steady h' X L'.
Proof.
  intros G E Ed Hs GL HK Hlow. pose proof (s_rh _ _ _ G) as GR. pose proof (rh_table _ _ _ GR) as T.
  assert (∀ i, full h' i ↔ full h i) as HF by (intros i; unfold full; by rewrite Ed). assert (∀ i, stale h' i ↔ stale h i) as HS by (intros i; unfold stale; by rewrite Ed).
  assert (∀ i, full h i → dist h' i = dist h i) as HD by (intros i Fi; unfold dist; by rewrite (frame_home h h' _ E), (frame_n h h' E), HK).
  split; [split; [split| | | |]| | |].
  - apply (buckets_frame h h' T E); [intros i; by rewrite Ed|done|]. intros i d _. rewrite Ed. intros Ei. split; [by apply (t_byte h T i)|]. intros Hd.
    rewrite HD by (by exists d). by apply (t_raw h T).
  - intros i Ri%(frame_real h h' i E). rewrite (frame_next h h' i E), !HF. intros Fn. rewrite (HD _ Fn). intros Hd. destruct (t_robin h T i Ri Fn Hd) as [F1 D1].
    by rewrite (HD i F1).
  - done.
  - intros i Hi. rewrite HF, HS. by apply GR.
  - intros i. rewrite HF, HS. apply GR.
  - intros Hind. destruct (Hlow Hind) as [H1 H2]. split; [done|]. intros i [Fi%HF|St%HS]; [auto|by destruct (s_stale _ _ _ G i)].
  - apply G.
  - intros i. rewrite HS. apply G.
  - destruct (s_stop _ _ _ G) as (s & Rs & Hs'). exists s. split; [by apply (frame_real h h' s E)|]. intros Fs%HF. rewrite HD by done. auto.
Qed.

(** Counters and flags, and a lower bound of the buckets in use. *)
Lemma steady_same h h' X L : steady h X L → frame h' = frame h → dibs h' = dibs h → store h' = store h →
  iterate_list_head h' = iterate_list_head h → iterate_list_tail h' = iterate_list_tail h →
  (has_indirect h' = true → 0 ≤ idx_lowest_entry h' ∧ ∀ i, full h i → idx_lowest_entry h' ≤ i) → steady h' X L.
Proof.
  intros G E Ed Es Eh Et Hlow. apply (steady_ext h h' X L L G E Ed); [|by apply (listing_frame h), G| |done].
  - intros i Ri. rewrite Es. by apply (rh_table _ _ _ (s_rh _ _ _ G)).
  - intros i _. unfold key, kv. by rewrite Es.
Qed.

Lemma n_direct_bound t : 0 < n_direct_buckets t < 8.
Proof. by destruct t. Qed.

(** The entry of a new count. *)
Lemma count_ok h n : 0 ≤ n ≤ n_buckets h → n_buckets h < IDX_SWAP_BEGIN → n_entries (set_count n h) = n.
Proof.
  intros Hn Hb. unfold n_entries, set_count. cbn. unfold n_buckets in *. pose proof (n_direct_bound (h_type h)). destruct (has_indirect h); apply wrapu_small; rlia.
Qed.

Lemma map_of_count h X L n : steady h X L → distinct L → n = Z.of_nat (length L) → map_of (base_set_dirty (set_count n h)) L.
Proof.
  intros G D ->. pose proof (entries_fit h X L G) as Hfit. pose proof (t_n h (rh_table _ _ _ (s_rh _ _ _ G))) as Hb. split; [|by apply count_ok; lia|done].
  exists X. apply (steady_same h); try done. intros Hind. destruct (rh_low _ _ _ (s_rh _ _ _ G) Hind) as [H1 H2]. split; [done|]. auto.
Qed.

(** ** Removal *)

Lemma map_remove h L k p i : map_of h L → assoc k L = Some p → full h i → kv h i = Some p →
  ∃ h' q, base_remove_entry i h = Ret h' ∧ map_of h' (without k L) ∧ frame h' = frame h ∧ removal i q h h'.
Proof.
  intros M E Fi Ei. pose proof (mo_distinct _ _ M) as D. destruct (assoc_split k L p D E) as (A & B & EL & Ep & HAB). pose proof M as [[X G] Hc _].
  destruct (remove_ok h X L i G Fi) as (h' & X' & LA & q & LB & Er & Es & EL' & Eq & G' & g & V). assert (q = p) as -> by congruence.
  destruct (distinct_split L A B LA LB p D EL EL') as [<- <-].
  exists (base_set_dirty (n_entries_dec h')), g. split; [done|]. pose proof (shell_frame h h' Es) as Ef. split.
  - rewrite EL, without_split by done. apply (map_of_count h' X'); [done|rewrite EL in D; by apply distinct_delete in D|].
    assert (n_entries h' = n_entries h) as ->.
    { unfold n_entries. rewrite (f_equal has_indirect Es : has_indirect h' = has_indirect h). destruct (has_indirect h); [exact (f_equal i_n_entries Es)|exact (f_equal n_direct_entries Es)]. }
    rewrite Hc, EL, !length_app. cbn. lia.
  - split; [by rewrite <- Ef|]. by destruct V as [V1 V2 V3].
Qed.

(** ** Overwriting an entry *)

Lemma chain_keep s P X nx i e k v : s !! i = Some e → chain s P X nx → chain (<[i := mk_entry k v (iterate_next e) (iterate_previous e)]> s) P X nx.
Proof.
  intros Ee. revert P. induction X as [|j X IH]; intros P; [done|]. cbn. intros [(e' & Ej & Hp & Hn) C]. split; [|by apply IH].
  destruct (decide (i = j)) as [->|Hne]; [|exists e'; by rewrite lookup_insert_ne]. rewrite Ee in Ej. injection Ej as <-. eexists. rewrite lookup_insert_eq. done.
Qed.

(** The entry gets a key that compares equal and a new value. *)
Lemma map_rebind h L k k' v p i e : map_of h L → assoc k L = Some p → full h i → kv h i = Some p → store h !! i = Some e → compare_func k' p.1 = 0 →
  map_of (base_set_dirty (set_store (<[i := mk_entry k' v (iterate_next e) (iterate_previous e)]> (store h)) h)) (rebind k (λ _, (k', v)) L).
Proof.
  intros M E Fi Ei Ee Hk. pose proof (mo_distinct _ _ M) as D. destruct (assoc_split k L p D E) as (A & B & EL & Ep & HAB). pose proof M as [[X G] Hc _].
  rewrite EL, rebind_split by done. pose proof (s_rh _ _ _ G) as GR. set (h' := base_set_dirty _).
  assert (∀ j, j ≠ i → kv h' j = kv h j) as HK by (intros j Hj; unfold kv; cbn; by rewrite lookup_insert_ne).
  assert (kv h' i = Some (k', v)) as Ki by (unfold kv; cbn; by rewrite lookup_insert_eq).
  split; [exists X| |rewrite EL in D; by apply (distinct_replace A p)].
  - apply (steady_ext h h' X L); try done.
    + intros j Rj. cbn. rewrite lookup_insert. case_decide; [by eexists|]. by apply (rh_table _ _ _ GR).
    + destruct (rh_listing _ _ _ GR) as [G1 G2 G3 G4]. split; [done|done| |].
      * intros Hty. destruct (G3 Hty) as (C1 & C2 & C3). split; [done|]. split; [done|]. by apply chain_keep.
      * assert (X !! length A = Some i) as Xi.
        { assert (i ∈ X) as Hx by (by apply (steady_used h X L i G)). destruct (listing_lookup h X L i p (rh_listing _ _ _ GR) Hx Ei) as (a & Ea & Eb).
          assert (length A = a) as ->; [|done]. apply (distinct_lookup L _ _ p p D); [rewrite EL; by apply list_lookup_middle|done|apply compare_refl]. }
        apply Forall2_same_length_lookup. split; [rewrite (Forall2_length _ _ _ G4), EL, !length_app; done|]. intros a j q Ej Eq.
        destruct (decide (a = length A)) as [->|Ha].
        -- rewrite list_lookup_middle in Eq by done. rewrite Xi in Ej. by injection Ej as <-; injection Eq as <-.
        -- rewrite HK. 2: { intros ->. apply Ha. apply (NoDup_lookup X _ _ i G1 Ej Xi). }
           apply (Forall2_lookup_lr _ _ _ _ _ _ G4 Ej). rewrite EL. rewrite <- Eq. destruct (decide (a < length A)%nat).
           ++ by rewrite !lookup_app_l.
           ++ rewrite !lookup_app_r by lia. by destruct (a - length A)%nat eqn:Es; [lia|].
    + intros j Fj. unfold key. destruct (decide (j = i)) as [->|Hj]; [|by rewrite HK]. rewrite Ki, Ei. by apply home_same.
    + intros Hind. destruct (rh_low _ _ _ GR Hind) as [H1 H2]. split; [done|]. auto.
  - rewrite EL, length_app in Hc. rewrite length_app. exact Hc.
Qed.

(** ** Insertion *)

(** The new entry in the swap slot, at the end of the list. *)
Lemma link_rh h X L k v : steady h X L → ∃ h1, link_entry (set_store (<[IDX_PUT := mk_entry k v 0 0]> (store h)) h) = Some h1 ∧ shell h1 = shell h ∧
  rh h1 (X ++ [IDX_PUT]) (L ++ [(k, v)]) ∧ key h1 IDX_PUT = k ∧ dibs h1 = dibs h.
Proof.
  intros G. pose proof (s_rh _ _ _ G) as GR. pose proof (rh_table _ _ _ GR) as T. pose proof (t_n h T) as Hn. pose proof (rh_listing _ _ _ GR) as [G1 G2 G3 G4].
  destruct (swap_link_ok h X (mk_entry k v 0 0)) as (h1 & E1 & M & L1); [lia|done| |done|].
  { intros i Hx%(steady_used h X L i G). pose proof (full_real h i T Hx) as Ri. split; [done|]. by apply T. }
  assert (∀ i, i ≠ IDX_PUT → kv h1 i = kv h i) as HK. { intros i Hi. rewrite (l_kv _ _ M). unfold kv. cbn. by rewrite lookup_insert_ne. }
  assert (kv h1 IDX_PUT = Some (k, v)) as Kp. { rewrite (l_kv _ _ M). unfold kv. cbn. by rewrite lookup_insert_eq. }
  exists h1. split; [done|]. assert (shell h1 = shell h) as Es by exact (bare_shell _ h1 (l_bare _ _ M)). split; [done|].
  pose proof (shell_frame h h1 Es) as E. assert (dibs h1 = dibs h) as Ed by exact (bare_dibs _ h1 (l_bare _ _ M)).
  assert (∀ i, full h1 i ↔ full h i) as HF by (intros i; unfold full; by rewrite Ed). assert (∀ i, stale h1 i ↔ stale h i) as HS by (intros i; unfold stale; by rewrite Ed).
  assert (∀ i, real h i → dist h1 i = dist h i) as HD by (intros i Ri; apply (kv_dist h h1 i E), HK; by apply (real_swap h i T)).
  split; [|split; [unfold key; by rewrite Kp|done]]. split; [split| | | |].
  - apply (buckets_frame h h1 T E); [intros i; by rewrite Ed| |].
    + intros i Ri. apply (fmap_is_Some data). fold (kv h1 i). rewrite HK by (by apply (real_swap h i T)). apply fmap_is_Some. by apply T.
    + intros i d Ri. rewrite Ed. intros Ei. split; [by apply (t_byte h T i)|]. rewrite HD by done. by apply (t_raw h T).
  - intros i Ri%(frame_real h h1 i E). rewrite (frame_next h h1 i E), !HF, (HD _ (next_real h i T)), HD by done. by apply (t_robin h T).
  - split; [apply NoDup_app; split; [done|]; split; [|apply NoDup_singleton]; intros i Hi ->%list_elem_of_singleton; by apply (s_put _ _ _ G)| |done|].
    + intros i [Hi| ->%list_elem_of_singleton]%elem_of_app; [|apply put_virtual]. rewrite (frame_virtual h h1 i E). by apply G2.
    + apply Forall2_app; [|by repeat constructor]. apply Forall2_same_length_lookup. split; [by apply (Forall2_length _ _ _ G4)|]. intros a j q Ej Eq.
      rewrite HK; [by apply (Forall2_lookup_lr _ _ _ _ _ _ G4 Ej Eq)|]. intros ->. apply (s_put _ _ _ G). by apply list_elem_of_lookup_2 in Ej.
  - intros i [Hi| ->%list_elem_of_singleton]%elem_of_app; [|by left]. rewrite HF, HS. by apply GR.
  - intros i. rewrite HF, HS. intros U. apply elem_of_app. left. by apply GR.
  - assert (idx_lowest_entry h1 = idx_lowest_entry h) as -> by exact (f_equal idx_lowest_entry (l_bare _ _ M)).
    assert (has_indirect h1 = has_indirect h) as -> by exact (f_equal has_indirect (l_bare _ _ M)). setoid_rewrite HF. setoid_rewrite HS. apply GR.
Qed.

Lemma shell_count h h' : shell h' = shell h → n_entries h' = n_entries h.
Proof.
  intros Es. unfold n_entries. rewrite (f_equal has_indirect Es : has_indirect h' = has_indirect h).
  destruct (has_indirect h); [exact (f_equal i_n_entries Es)|exact (f_equal n_direct_entries Es)].
Qed.

(** The part of [hashmap_base_put_boldly] after the resize. *)
Lemma map_insert h L k v : map_of h L → assoc k L = None → n_entries h < n_buckets h →
  ∃ h1 h2, link_entry (set_store (<[IDX_PUT := mk_entry k v 0 0]> (store h)) h) = Some h1 ∧
    hashmap_put_robin_hood (fuel_of h1) (home h k) 0 h1 = Ret (false, h2) ∧
    map_of (base_set_dirty (n_entries_inc h2)) (L ++ [(k, v)]) ∧ frame h2 = frame h.
Proof.
  intros M E Hlt. pose proof M as [[X G] Hc D]. destruct (link_rh h X L k v G) as (h1 & E1 & Es & G1 & K1 & Ed). pose proof (shell_frame h h1 Es) as Ef.
  assert (IDX_PUT ∈ X ++ [IDX_PUT]) as Hp by (apply elem_of_app; right; left). pose proof (rh_table _ _ _ G1) as T. pose proof (t_n h1 T) as Hn.
  assert (Z.of_nat (length (L ++ [(k, v)])) ≤ n_buckets h1) as Hlen by (rewrite (frame_n h h1 Ef), length_app; cbn; lia).
  destruct (hole_exists h1 _ _ G1) as (f & Rf & Hf); [by right|].
  assert (home h k = home h1 (key h1 IDX_PUT)) as Eh by (by rewrite K1, (frame_home h h1 k Ef)).
  destruct (hash_ok h1 k T) as [_ Rh]. rewrite <- K1 in Rh. pose proof (Z.mod_pos_bound (f - home h k) (n_buckets h1)) as Hm.
  destruct (put_ok (L ++ [(k, v)]) (fuel_of h1) h1 (X ++ [IDX_PUT]) (home h k) 0 f) as (b & h2 & X2 & g & E2 & PD); [done|done|by rewrite Eh| |by intros ?|done|done|unfold fuel_of; lia|].
  { by rewrite Eh, Z.sub_diag, Zmod_0_l. }
  assert (∀ i, ¬ stale h1 i) as Hst. { intros i. unfold stale. rewrite Ed. apply (s_stale _ _ _ G i). }
  destruct PD as [P1 P2 P3 P4 P5 P6 P7 P8 P9]. assert (b = false) as ->. { destruct b; [|done]. exfalso. apply (Hst g). by apply P7. }
  exists h1, h2. split; [done|]. split; [done|]. assert (frame h2 = frame h) as Ef2 by (rewrite <- Ef; by apply shell_frame). split; [|done].
  apply (map_of_count h2 X2); [|by apply distinct_snoc|].
  - split; [done| | |].
    + intros Hx%P8. done.
    + intros i [_ St]%P6. by apply (Hst i).
    + exists (next_idx h1 g). split; [|done]. apply (frame_real h1 h2); [by apply shell_frame|]. by apply next_real, T.
  - rewrite (shell_count h1 h2 P1), (shell_count h h1 Es), Hc, length_app. cbn. lia.
Qed.

(** A table that was resized is the same map. *)
Lemma map_resize h L add : map_of h L → 0 ≤ add < 2 ^ 32 → ¬ oversized (h_type h) (n_entries h + add) →
  ∃ r h', resize_buckets add h = Ret (r, h') ∧ map_of h' L ∧ resized h add r h'.
Proof.
  intros M Ha Hov. pose proof M as [[X G] Hc D]. destruct (resize_ok h X L add G Hc Ha Hov) as (r & h' & X' & E & G' & R). exists r, h'. split; [done|]. split; [|done].
  split; [by exists X'| |done]. rewrite <- Hc. by destruct R.
Qed.

(** What an insertion leaves. *)
Inductive inserted (h : HashmapBase) (L : list (Z * Z)) (k v : Z) : Z → HashmapBase → Prop :=
  | inserted_fails : UINT_MAX < wanted (n_entries h + 1) * (entry_size (h_type h) + 1) ∨ (∃ size, realloc_ok h size = false) → inserted h L k v (- ENOMEM) h
  | inserted_ok h' : map_of h' (L ++ [(k, v)]) → h_type h' = h_type h → inserted h L k v 1 h'.

Lemma frame_type h h' : frame h' = frame h → h_type h' = h_type h.
Proof. by intros [= ? _ _ _]. Qed.

Lemma put_boldly_ok h L k v : map_of h L → assoc k L = None → ¬ oversized (h_type h) (n_entries h + 1) →
  ∃ r h', hashmap_base_put_boldly (home h k) k v true h = Ret (r, h') ∧ inserted h L k v r h'.
Proof.
  intros M E Hov. unfold hashmap_base_put_boldly. destruct (hash_ok h k (map_table h L M)) as [_ [R1 R2]].
  rewrite (proj2 (Z.leb_le 0 _)), (proj2 (Z.ltb_lt _ _)) by done. cbn [andb assert_ lift mbind outcome_bind].
  destruct (map_resize h L 1 M ltac:(lia) Hov) as (r & h1 & E1 & M1 & R). rewrite E1. cbn [mbind outcome_bind].
  destruct R as [Hf|Hle|h1 Hi Hn Hle Ht Hc Hd].
  - cbn. exists (- ENOMEM), h. split; [done|]. by apply inserted_fails.
  - cbn [Z.ltb Z.compare mbind outcome_bind]. rewrite (proj2 (Z.ltb_lt (n_entries h) (n_buckets h))) by lia. cbn [assert_ lift mbind outcome_bind].
    destruct (map_insert h L k v M E) as (h2 & h3 & E2 & E3 & M3 & Ef); [lia|]. rewrite E2. cbn [lift mbind outcome_bind]. rewrite E3. cbn [mbind outcome_bind negb assert_ lift].
    eexists _, _. split; [done|]. apply inserted_ok; [done|]. by apply frame_type.
  - cbn [Z.ltb Z.compare mbind outcome_bind]. destruct (hash_ok h1 k (map_table h1 L M1)) as [-> _]. cbn [lift mbind outcome_bind].
    rewrite (proj2 (Z.ltb_lt (n_entries h1) (n_buckets h1))) by lia. cbn [assert_ lift mbind outcome_bind].
    destruct (map_insert h1 L k v M1 E) as (h2 & h3 & E2 & E3 & M3 & Ef); [lia|]. rewrite E2. cbn [lift mbind outcome_bind]. rewrite E3. cbn [mbind outcome_bind negb assert_ lift].
    eexists _, _. split; [done|]. apply inserted_ok; [done|]. rewrite <- Ht. by apply frame_type.
Qed.

(** In place of an entry that was removed, or in room that was reserved. *)
Lemma put_reserved_ok h L k v : map_of h L → assoc k L = None → n_entries h < n_buckets h →
  ∃ h', hashmap_base_put_boldly (home h k) k v false h = Ret (1, h') ∧ map_of h' (L ++ [(k, v)]) ∧ frame h' = frame h.
Proof.
  intros M E Hlt. unfold hashmap_base_put_boldly. destruct (hash_ok h k (map_table h L M)) as [_ [R1 R2]].
  rewrite (proj2 (Z.leb_le 0 _)), (proj2 (Z.ltb_lt (home h k) _)) by done. cbn [andb assert_ lift mbind outcome_bind Z.ltb Z.compare].
  rewrite (proj2 (Z.ltb_lt (n_entries h) (n_buckets h))) by lia. cbn [assert_ lift mbind outcome_bind].
  destruct (map_insert h L k v M E Hlt) as (h2 & h3 & E2 & E3 & M3 & Ef). rewrite E2. cbn [lift mbind outcome_bind]. rewrite E3. cbn [mbind outcome_bind negb assert_ lift].
  by eexists.
Qed.

End Spec.
