(* ===== verification/HashMapIter.v ===== *)
(** * systemd: iteration over hash maps

    The iteration of a plain map or set gives every entry once, in the order of
    the buckets; that of an ordered map follows its list. *)

From S2P Require Import Prelude Outcome SipHash HashMap HashMapLinks HashMapProps HashMapInsert HashMapRemove HashMapResize HashMapSpec.

#[local] Open Scope Z_scope.
#[local] Set Warnings "-clear-no-such-hyp".
#[local] Ltac rlia := unfold real, IDX_PUT, IDX_TMP, IDX_SWAP_BEGIN, IDX_NIL, UINT32_MAX, DIB_RAW_REHASH, DIB_RAW_FREE, DIB_RAW_OVERFLOW in *; lia.

Section Iter.
Context `{LawfulHash}.

(** ** The buckets in use *)

Definition occupied (h : HashmapBase) (i : Z) : bool := match dibs h !! i with Some d => negb (d =? DIB_RAW_FREE) | None => false end.

Definition used_from (h : HashmapBase) (i : Z) : list Z := filter (λ i, occupied h i = true) (seqZ i (n_buckets h - i)).

Lemma occupied_full h i : buckets h → (∀ i, ¬ stale h i) → occupied h i = true ↔ full h i.
Proof.
  intros T Hs. unfold occupied, full. destruct (dibs h !! i) as [d|] eqn:Ed; [|naive_solver]. pose proof (t_byte h T i d Ed) as Hb. rewrite negb_true_iff, Z.eqb_neq. split.
  - intros Hd. exists d. split; [done|]. assert (d ≠ DIB_RAW_REHASH) by (intros ->; by apply (Hs i)). rlia.
  - intros (d' & [= <-] & Hd). rlia.
Qed.

Lemma used_from_step h i : i < n_buckets h → used_from h i = (if occupied h i then [i] else []) ++ used_from h (i + 1).
Proof.
  intros Hi. unfold used_from. rewrite seqZ_cons by lia. rewrite filter_cons. replace (Z.pred (n_buckets h - i)) with (n_buckets h - (i + 1)) by lia.
  rewrite <- Z.add_1_r. by destruct (occupied h i).
Qed.

Lemma used_from_end h i : n_buckets h ≤ i → used_from h i = [].
Proof. intros Hi. unfold used_from. by rewrite seqZ_nil by lia. Qed.

Lemma used_from_elem h i j : buckets h → (∀ i, ¬ stale h i) → j ∈ used_from h i ↔ i ≤ j ∧ full h j.
Proof.
  intros T Hs. unfold used_from. rewrite list_elem_of_filter, elem_of_seqZ, occupied_full by done. split; [naive_solver lia|]. intros [Hi Hj].
  pose proof (full_real h j T Hj) as Rj. split; [done|rlia].
Qed.

Lemma skip_free_ok h n i : buckets h → 0 ≤ i → (Z.to_nat (n_buckets h - i) < n)%nat → skip_free_loop n h i = Ret (hd IDX_NIL (used_from h i)).
Proof.
  intros T. revert i. induction n as [|n IH]; intros i Hi Hn; [lia|]. cbn [skip_free_loop]. destruct (Z.leb_spec (n_buckets h) i) as [Hge|Hlt].
  - by rewrite used_from_end.
  - destruct (proj2 (t_dibs h T i)) as [d Ed]; [done|]. rewrite Ed. cbn [lift mbind outcome_bind]. rewrite used_from_step by done. unfold occupied. rewrite Ed.
    destruct (d =? DIB_RAW_FREE); cbn [negb app hd]; [apply IH; lia|done].
Qed.

Lemma skip_ok h i : buckets h → 0 ≤ i → skip_free_buckets h i = Ret (hd IDX_NIL (used_from h i)).
Proof. intros T Hi. apply skip_free_ok; [done|done|lia]. Qed.

(** ** Iterators *)

(** Where the iterator is with the buckets [Y] to come. *)
Definition iter_of (h : HashmapBase) (Y : list Z) (k : Z) : Iterator :=
  match Y with [] => mk_iterator IDX_NIL k | i :: _ => mk_iterator i (key h i) end.

Lemma key_at h i e : store h !! i = Some e → key h i = e_key e.
Proof. intros E. unfold key, kv. by rewrite E. Qed.

(** Bucket [i] is where the iterator was told [j], or it was shifted back since. *)
Definition near (h : HashmapBase) (i j : Z) : Prop := j = i ∨ (prev_idx h j = i ∧ key h j ≠ key h i).

Section Insertion.
Context (h : HashmapBase) (X : list Z) (L : list (Z * Z)) (G : steady h X L) (Hty : h_type h = HASHMAP_TYPE_ORDERED).

Lemma list_bucket A i B : X = A ++ i :: B → ∃ e, bucket_at h i = Some e ∧ e_key e = key h i ∧ iterate_next e = hd IDX_NIL B ∧ i ≠ IDX_NIL ∧ i ≠ IDX_FIRST.
Proof.
  pose proof (s_rh _ _ _ G) as GR. pose proof (rh_table _ _ _ GR) as T. pose proof (t_n h T) as Hn. destruct (li_linked _ _ _ (rh_listing _ _ _ GR) Hty) as (_ & _ & LC).
  intros EX. assert (i ∈ X) as Hi by (rewrite EX; set_solver). rewrite EX, chain_app in LC. cbn in LC. destruct LC as (_ & (e & Ee & _ & En) & _). exists e.
  apply (steady_used h X L i G), full_real in Hi; [|apply T]. split; [by apply real_bucket|]. split; [by rewrite (key_at h i e)|]. split; [done|]. unfold IDX_FIRST. rlia.
Qed.

(** The iterator for what follows. *)
Lemma list_next A i B k e : X = A ++ i :: B → iterate_next e = hd IDX_NIL B →
  (if iterate_next e =? IDX_NIL then Some (i, mk_iterator IDX_NIL k) else n ← bucket_at h (iterate_next e); Some (i, mk_iterator (iterate_next e) (e_key n)))
  = Some (i, iter_of h B k).
Proof.
  intros EX ->. destruct B as [|j B]; [done|]. cbn [hd]. destruct (list_bucket (A ++ [i]) j B) as (n & En & Ek & _ & Hj & _); [by rewrite <- app_assoc|].
  rewrite (proj2 (Z.eqb_neq j IDX_NIL)) by done. rewrite En. cbn. by rewrite Ek.
Qed.

Lemma insertion_first : hashmap_iterate_in_insertion_order h ITERATOR_FIRST = Some (hd IDX_NIL X, iter_of h (tail X) 0).
Proof.
  destruct (li_linked _ _ _ (rh_listing _ _ _ (s_rh _ _ _ G)) Hty) as (Lh & _). unfold hashmap_iterate_in_insertion_order, ITERATOR_FIRST. cbn [it_idx next_key].
  change (IDX_FIRST =? IDX_NIL) with false. rewrite Z.eqb_refl, Lh. pose proof (list_next [] (hd IDX_NIL X) (tail X) 0) as HN. pose proof (list_bucket [] (hd IDX_NIL X) (tail X)) as HB.
  destruct X as [|i B]; [done|]. cbn [hd tl andb] in *. destruct (HB eq_refl) as (e & -> & _ & En & Hi & _). rewrite (proj2 (Z.eqb_neq i IDX_NIL)) by done.
  cbn [mbind option_bind]. by rewrite (HN e eq_refl En).
Qed.

Lemma insertion_next A i B j : X = A ++ i :: B → real h j → near h i j →
  hashmap_iterate_in_insertion_order h (mk_iterator j (key h i)) = Some (i, iter_of h B (key h i)).
Proof.
  intros EX Rj Hnear. pose proof (rh_table _ _ _ (s_rh _ _ _ G)) as T. pose proof (t_n h T) as Hn. unfold hashmap_iterate_in_insertion_order. cbn [it_idx next_key].
  rewrite (proj2 (Z.eqb_neq j IDX_NIL)), (proj2 (Z.eqb_neq j IDX_FIRST)) by (unfold IDX_FIRST; rlia). cbn [andb]. destruct (list_bucket A i B EX) as (e & Ee & Ek & En & _).
  pose proof (list_next A i B (key h i) e EX En) as HN. destruct Hnear as [->|[Ep Hk]].
  - rewrite Ee. cbn [mbind option_bind]. rewrite Ek, Z.eqb_refl. cbn [mbind option_bind]. rewrite Ek, Z.eqb_refl. cbn [assert_ mbind option_bind]. by rewrite HN.
  - destruct (t_store h T j Rj) as [e1 E1]. rewrite (real_bucket h j e1 Rj E1). cbn [mbind option_bind]. rewrite (key_at h j e1 E1) in Hk.
    rewrite (proj2 (Z.eqb_neq _ _)) by done. cbv zeta. rewrite Ep, Ee. cbn [mbind option_bind]. rewrite Ek, Z.eqb_refl. cbn [assert_ mbind option_bind]. by rewrite HN.
Qed.

End Insertion.

(** The table with the lowest index remembered. *)
Definition remembered (h : HashmapBase) : HashmapBase := if has_indirect h then set_lowest (hd IDX_NIL (used_from h 0)) h else h.

Lemma used_from_low h i : buckets h → (∀ i, ¬ stale h i) → 0 ≤ i → (∀ j, full h j → i ≤ j) → used_from h i = used_from h 0.
Proof.
  intros T Hs Hi Hlow. replace i with (0 + i) in * by lia. rewrite <- (Z2Nat.id i) in * by lia. clear Hi. induction (Z.to_nat i) as [|n IH]; [done|].
  replace (0 + Z.of_nat (S n)) with (0 + Z.of_nat n + 1) in * by lia. destruct (decide (0 + Z.of_nat n < n_buckets h)) as [Hlt|Hge].
  - rewrite <- IH by (intros j Fj; specialize (Hlow j Fj); lia). rewrite (used_from_step h (0 + Z.of_nat n)) by done.
    destruct (occupied h (0 + Z.of_nat n)) eqn:Eo; [|done]. apply occupied_full, Hlow in Eo; [lia|done|done].
  - rewrite used_from_end by lia. rewrite <- IH by (intros j Fj; specialize (Hlow j Fj); lia). by rewrite used_from_end by lia.
Qed.

Lemma used_from_suffix h n A i B : used_from h n = A ++ i :: B → occupied h i = true ∧ n ≤ i < n_buckets h ∧ B = used_from h (i + 1) ∧ (A ≠ [] → n < i).
Proof.
  remember (Z.to_nat (n_buckets h - n)) as m eqn:Em. revert n A Em. induction m as [|m IH]; intros n A Em E.
  - rewrite used_from_end in E by lia. by destruct A.
  - rewrite used_from_step in E by lia. destruct (occupied h n) eqn:Eo.
    + destruct A as [|a A]; cbn in E.
      * injection E as <- <-. split_and!; [done|lia|lia|done|done].
      * injection E as <- E. apply IH in E as (E1 & E2 & E3 & _); [|lia]. split_and!; [done|lia|lia|done|lia].
    + apply IH in E as (E1 & E2 & E3 & _); [|lia]. split_and!; [done|lia|lia|done|lia].
Qed.

Lemma remembered_skip h i : skip_free_buckets (remembered h) i = skip_free_buckets h i.
Proof.
  unfold remembered. destruct (has_indirect h); [|done]. set (l := hd _ _). unfold skip_free_buckets. change (n_buckets (set_lowest l h)) with (n_buckets h).
  generalize (S (Z.to_nat (n_buckets h - i))) as n. intros n. revert i. induction n as [|n IH]; intros i; [done|]. cbn [skip_free_loop].
  change (n_buckets (set_lowest l h)) with (n_buckets h). change (dibs (set_lowest l h)) with (dibs h). destruct (_ <=? i); [done|].
  destruct (dibs h !! i) as [d|]; [|done]. cbn [lift mbind outcome_bind]. destruct (_ =? _); [apply IH|done].
Qed.

Lemma remembered_used h i : used_from (remembered h) i = used_from h i.
Proof. unfold remembered. by destruct (has_indirect h). Qed.

Section Internal.
Context (h : HashmapBase) (X : list Z) (L : list (Z * Z)) (G : steady h X L).

Lemma used_bucket A i B : used_from h 0 = A ++ i :: B → real h i ∧ i ≠ IDX_NIL ∧ (A ≠ [] → 0 < i) ∧ B = used_from h (i + 1) ∧ ∃ e, bucket_at h i = Some e ∧ e_key e = key h i.
Proof.
  pose proof (rh_table _ _ _ (s_rh _ _ _ G)) as T. pose proof (t_n h T) as Hn. intros E. apply used_from_suffix in E as (_ & E2 & E3 & E4). assert (real h i) as Ri by done.
  split; [done|]. split; [rlia|]. split; [done|]. split; [done|]. destruct (t_store h T i Ri) as [e Ee]. exists e. split; [by apply real_bucket|by rewrite (key_at h i e)].
Qed.

(** The iterator for what follows. *)
Lemma used_next A i B k h' : used_from h 0 = A ++ i :: B → bucket_at h' = bucket_at h → (∀ i, skip_free_buckets h' i = skip_free_buckets h i) →
  (next ← skip_free_buckets h' (i + 1); if next =? IDX_NIL then Ret (i, mk_iterator IDX_NIL k, h')
   else n ←! bucket_at h' next; Ret (i, mk_iterator next (e_key n), h')) = Ret (i, iter_of h B k, h').
Proof.
  intros E Hbk Hsk. pose proof (rh_table _ _ _ (s_rh _ _ _ G)) as T. destruct (used_bucket A i B E) as ([Ri _] & _ & _ & EB & _).
  rewrite Hsk, Hbk, skip_ok by (exact (t_buckets h T) || lia). cbn [mbind outcome_bind]. rewrite <- EB. destruct B as [|j B']; [done|]. cbn [hd iter_of].
  destruct (used_bucket (A ++ [i]) j B') as (_ & Hj & _ & _ & e & Ee & Ek); [by rewrite E, <- app_assoc|].
  rewrite (proj2 (Z.eqb_neq j IDX_NIL)) by done. rewrite Ee. cbn [lift mbind outcome_bind]. by rewrite Ek.
Qed.

Lemma internal_first : hashmap_iterate_in_internal_order h ITERATOR_FIRST = Ret (hd IDX_NIL (used_from h 0), iter_of h (tail (used_from h 0)) 0, remembered h).
Proof.
  pose proof (s_rh _ _ _ G) as GR. pose proof (rh_table _ _ _ GR) as T. unfold hashmap_iterate_in_internal_order, ITERATOR_FIRST. cbn [it_idx next_key].
  change (IDX_FIRST =? IDX_NIL) with false. rewrite Z.eqb_refl. assert ((if has_indirect h then idx ← skip_free_buckets h (idx_lowest_entry h); Ret (idx, set_lowest idx h)
    else idx ← skip_free_buckets h 0; Ret (idx, h)) = Ret (hd IDX_NIL (used_from h 0), remembered h)) as ->.
  { unfold remembered. destruct (has_indirect h) eqn:Hind.
    - destruct (rh_low _ _ _ GR Hind) as [Hl1 Hl2]. rewrite skip_ok, used_from_low by (exact (t_buckets h T) || exact (s_stale _ _ _ G) || auto). done.
    - by rewrite skip_ok by (exact (t_buckets h T) || lia). }
  cbn [mbind outcome_bind]. pose proof (used_next [] (hd IDX_NIL (used_from h 0)) (tail (used_from h 0)) 0 (remembered h)) as HN.
  pose proof (used_bucket [] (hd IDX_NIL (used_from h 0)) (tail (used_from h 0))) as HB. destruct (used_from h 0) as [|i B] eqn:EY; [done|]. cbn [hd tl] in *.
  destruct (HB eq_refl) as (_ & Hi & _). rewrite (proj2 (Z.eqb_neq i IDX_NIL)) by done. apply HN; [done|unfold remembered; by destruct (has_indirect h)|apply remembered_skip].
Qed.

Lemma internal_next A i B j : used_from h 0 = A ++ i :: B → real h j → 0 < j → near h i j →
  hashmap_iterate_in_internal_order h (mk_iterator j (key h i)) = Ret (i, iter_of h B (key h i), h).
Proof.
  intros EY Rj Hpos Hnear. pose proof (rh_table _ _ _ (s_rh _ _ _ G)) as T. pose proof (t_n h T) as Hn. destruct (used_bucket A i B EY) as (Ri & Hi & _ & EB & e & Ee & Ek).
  unfold hashmap_iterate_in_internal_order. cbn [it_idx next_key]. rewrite (proj2 (Z.eqb_neq j IDX_NIL)), (proj2 (Z.eqb_neq j IDX_FIRST)) by (unfold IDX_FIRST; rlia).
  rewrite (proj2 (Z.ltb_lt 0 j)) by done. cbn [assert_ lift mbind outcome_bind]. pose proof (used_next A i B (key h i) h EY eq_refl (λ _, eq_refl)) as HN. destruct Hnear as [->|[Ep Hk]].
  - rewrite Ee. cbn [lift mbind outcome_bind]. rewrite Ek, Z.eqb_refl. cbn [mbind outcome_bind]. rewrite Ek, Z.eqb_refl. cbn [assert_ lift mbind outcome_bind].
    by rewrite (proj2 (Z.eqb_neq i IDX_NIL)), HN by done.
  - assert (j - 1 = i) as Eji. { rewrite <- Ep. unfold prev_idx. replace (n_buckets h + j - 1) with (j - 1 + 1 * n_buckets h) by lia. rewrite Z_mod_plus_full. symmetry. apply Z.mod_small. rlia. }
    destruct (t_store h T j Rj) as [e1 E1]. rewrite (real_bucket h j e1 Rj E1). cbn [lift mbind outcome_bind]. rewrite (key_at h j e1 E1) in Hk.
    rewrite (proj2 (Z.eqb_neq _ _)) by done. rewrite Eji, Ee. cbn [lift mbind outcome_bind]. rewrite Ek, Z.eqb_refl. cbn [assert_ lift mbind outcome_bind].
    by rewrite (proj2 (Z.eqb_neq i IDX_NIL)), HN by done.
Qed.

End Internal.

(** ** Both orders *)

(** The buckets in the order of the iteration, and the table after its first call. *)
Definition visiting (h : HashmapBase) (X : list Z) : list Z := if decide (h_type h = HASHMAP_TYPE_ORDERED) then X else used_from h 0.
Definition noted (h : HashmapBase) : HashmapBase := if decide (h_type h = HASHMAP_TYPE_ORDERED) then h else remembered h.

Lemma iterate_first h X L : steady h X L → hashmap_iterate_entry h ITERATOR_FIRST = Ret (hd IDX_NIL (visiting h X), iter_of h (tail (visiting h X)) 0, noted h).
Proof.
  intros G. unfold hashmap_iterate_entry, visiting, noted. case_decide; [by rewrite (insertion_first h X L)|by apply (internal_first h X L)].
Qed.

Lemma iterate_next_ok h X L A i B j : steady h X L → visiting h X = A ++ i :: B → real h j → (h_type h ≠ HASHMAP_TYPE_ORDERED → 0 < j) → near h i j →
  hashmap_iterate_entry h (mk_iterator j (key h i)) = Ret (i, iter_of h B (key h i), h).
Proof.
  intros G. unfold hashmap_iterate_entry, visiting. case_decide as Hty; intros EX Rj Hpos Hnear.
  - by rewrite (insertion_next h X L G Hty A i B j EX Rj Hnear).
  - apply (internal_next h X L G A); auto.
Qed.

Lemma iterate_end h k : hashmap_iterate_entry h (mk_iterator IDX_NIL k) = Ret (IDX_NIL, mk_iterator IDX_NIL k, h).
Proof. unfold hashmap_iterate_entry. by case_decide. Qed.

Lemma visiting_perm h X L : steady h X L → visiting h X ≡ₚ X.
Proof.
  intros G. unfold visiting. case_decide; [done|]. pose proof (rh_table _ _ _ (s_rh _ _ _ G)) as T.
  apply NoDup_Permutation; [apply NoDup_filter, NoDup_seqZ|apply G|]. intros i. rewrite used_from_elem, (steady_used h X L i G) by (exact (t_buckets h T) || apply G).
  split; [tauto|]. intros Fi. split; [|done]. apply (full_real h i T) in Fi. rlia.
Qed.

Lemma visiting_later h X L A i B : steady h X L → visiting h X = A ++ i :: B → A ≠ [] → h_type h ≠ HASHMAP_TYPE_ORDERED → 0 < i.
Proof. intros G. unfold visiting. case_decide; [done|]. intros E HA _. by apply (used_bucket h X L G A i B E). Qed.

Lemma noted_same h : store (noted h) = store h ∧ dibs (noted h) = dibs h ∧ frame (noted h) = frame h ∧ n_entries (noted h) = n_entries h.
Proof. unfold noted, remembered. case_decide; [done|]. by destruct (has_indirect h). Qed.

(** ** All entries *)

(** Key and value as the iteration shows them; the value of a set is its key. *)
Definition value_of (t : HashmapType) (p : Z * Z) : Z := if decide (t = HASHMAP_TYPE_SET) then p.1 else p.2.
Definition shown (t : HashmapType) (p : Z * Z) : Z * Z := (p.1, value_of t p).

Definition at_bucket (h : HashmapBase) (i : Z) : Z * Z := default (0, 0) (kv h i).

Lemma noted_steady h X L : steady h X L → steady (noted h) X L.
Proof.
  intros G. unfold noted. case_decide; [done|]. unfold remembered. destruct (has_indirect h) eqn:Hind; [|done].
  apply (steady_same h); try done. intros _. cbn. pose proof (rh_table _ _ _ (s_rh _ _ _ G)) as T. pose proof (s_stale _ _ _ G) as Hs. destruct (used_from h 0) as [|i B] eqn:E; cbn [hd].
  - split; [done|]. intros i Fi. assert (i ∈ used_from h 0) as Hi; [|rewrite E in Hi; by apply not_elem_of_nil in Hi].
    apply used_from_elem; [apply T|done|]. split; [|done]. apply (full_real h i T) in Fi. rlia.
  - destruct (used_from_suffix h 0 [] i B E) as (_ & Hi & EB & _). split; [lia|]. intros j Fj. assert (j ∈ used_from h 0) as Hj.
    { apply used_from_elem; [apply T|done|]. split; [|done]. apply (full_real h j T) in Fj. rlia. }
    rewrite E, EB in Hj. apply elem_of_cons in Hj as [->|Hj]; [lia|]. apply used_from_elem in Hj as [Hj _]; [lia|apply T|done].
Qed.

Lemma noted_map h L : map_of h L → map_of (noted h) L.
Proof. intros [[X G] Hc D]. split; [exists X; by apply noted_steady| |done]. rewrite <- Hc. apply noted_same. Qed.

Lemma noted_visiting h X : visiting (noted h) X = visiting h X.
Proof. unfold visiting, noted. destruct (decide (h_type h = HASHMAP_TYPE_ORDERED)) as [Hty|Hty]; [by rewrite decide_True|]. rewrite decide_False; [apply remembered_used|]. unfold remembered. by destruct (has_indirect h). Qed.

Lemma noted_key h i : key (noted h) i = key h i.
Proof. unfold key, kv. by rewrite (proj1 (noted_same h)). Qed.

Lemma noted_iter h Y k : iter_of (noted h) Y k = iter_of h Y k.
Proof. destruct Y as [|i Y]; [done|]. cbn. by rewrite noted_key. Qed.

(** What is read at a bucket in use. *)
Lemma read_bucket h X L i : steady h X L → i ∈ X → ∃ e, bucket_at h i = Some e ∧ store h !! i = Some e ∧ shown (h_type h) (at_bucket h i) = (e_key e, entry_value h e) ∧ i ≠ IDX_NIL.
Proof.
  intros G Hi%(steady_used h X L i G). pose proof (rh_table _ _ _ (s_rh _ _ _ G)) as T. pose proof (t_n h T) as Hn. pose proof (full_real h i T Hi) as Ri.
  destruct (t_store h T i Ri) as [e Ee]. exists e. split; [by apply real_bucket|]. split; [done|]. split; [|rlia]. unfold shown, at_bucket, value_of, kv, entry_value. by rewrite Ee.
Qed.

Lemma iterate_loop_ok h X L : steady h X L → ∀ B A k n, visiting h X = A ++ B → A ≠ [] → (length B < n)%nat →
  iterate_loop n h (iter_of h B k) = Ret (map (λ i, shown (h_type h) (at_bucket h i)) B, h).
Proof.
  intros G. induction B as [|i B IH]; intros A k n EY HA Hn; (destruct n as [|n]; cbn [length] in Hn; [lia|]); cbn [iterate_loop iter_of].
  - by rewrite iterate_end.
  - assert (i ∈ X) as Hi by (rewrite <- (visiting_perm h X L G), EY; set_solver). pose proof (rh_table _ _ _ (s_rh _ _ _ G)) as T.
    rewrite (iterate_next_ok h X L A i B i G EY); [|apply (full_real h i T); by apply (steady_used h X L i G)|by apply (visiting_later h X L A i B)|by left].
    cbn [mbind outcome_bind]. destruct (read_bucket h X L i G Hi) as (e & Ee & _ & Es & Hi'). rewrite (proj2 (Z.eqb_neq i IDX_NIL)) by done. rewrite Ee. cbn [lift mbind outcome_bind].
    rewrite (IH (A ++ [i]) (key h i) n); [|by rewrite EY, <- app_assoc|by destruct A|lia]. cbn [mbind outcome_bind map]. by rewrite Es.
Qed.

Lemma listing_at h X L t : listing h X L → map (λ i, shown t (at_bucket h i)) X = map (shown t) L.
Proof.
  intros G. pose proof (li_kv _ _ _ G) as F. clear G. induction F as [|i p X' L' Ep F IH]; [done|]. cbn [map]. rewrite IH. unfold at_bucket at 1. by rewrite Ep.
Qed.

(** The order of the entries [l] that the iteration gives, for the entries [L] of
    the map. *)
Definition in_order (t : HashmapType) (L l : list (Z * Z)) : Prop :=
  if decide (t = HASHMAP_TYPE_ORDERED) then l = map (shown t) L else l ≡ₚ map (shown t) L.

Lemma entries_run h X L : steady h X L → hashmap_entries h = Ret (map (λ i, shown (h_type h) (at_bucket h i)) (visiting h X), noted h).
Proof.
  intros G. unfold hashmap_entries. pose proof (noted_steady h X L G) as G'. assert (length (visiting h X) < fuel_of h)%nat as Hf.
  { rewrite (Permutation_length (visiting_perm h X L G)), (listing_length h X L) by apply G. pose proof (entries_fit h X L G). unfold fuel_of. lia. }
  destruct (fuel_of h) as [|n]; [lia|]. cbn [iterate_loop]. rewrite (iterate_first h X L G). cbn [mbind outcome_bind]. pose proof (visiting_perm h X L G) as HP. pose proof (noted_visiting h X) as EN.
  destruct (visiting h X) as [|i B] eqn:EY; [done|]. cbn [hd tl length] in *. assert (i ∈ X) as Hi by (rewrite <- HP; left).
  destruct (noted_same h) as (Es & _ & Ef & _). pose proof (frame_type h (noted h) Ef) as Et.
  destruct (read_bucket (noted h) X L i G' Hi) as (e & Ee & _ & Er & Hi'). rewrite (proj2 (Z.eqb_neq i IDX_NIL)) by done. rewrite Ee. cbn [lift mbind outcome_bind].
  rewrite <- (noted_iter h B 0), (iterate_loop_ok (noted h) X L G' B [i] 0 n EN) by (done || lia). cbn [mbind outcome_bind map]. rewrite <- Er, Et.
  assert (∀ j, at_bucket (noted h) j = at_bucket h j) as Eat by (intros j; unfold at_bucket, kv; by rewrite Es). rewrite Eat.
  do 2 f_equal. f_equal. apply map_ext. intros j. by rewrite Eat.
Qed.

Lemma entries_ok h L : map_of h L → ∃ l h', hashmap_entries h = Ret (l, h') ∧ in_order (h_type h) L l ∧ map_of h' L ∧ h_type h' = h_type h.
Proof.
  intros M. pose proof M as [[X G] Hc D]. rewrite (entries_run h X L G). eexists _, (noted h). split; [done|]. split; [|split; [by apply noted_map|apply frame_type, noted_same]].
  pose proof (visiting_perm h X L G) as HP. unfold in_order, visiting in *. case_decide; [by apply listing_at, G|]. rewrite <- (listing_at h X L) by apply G. by rewrite HP.
Qed.

End Iter.
