(* ===== verification/HashMapOps.v ===== *)
(** * systemd: the operations of hash maps

    Each operation does to the list of keys and values what its name says, with
    the results on every branch; no assertion fails. *)

From S2P Require Import Prelude Outcome SipHash HashMap HashMapLinks HashMapProps HashMapInsert HashMapRemove HashMapResize HashMapSpec HashMapIter.

#[local] Open Scope Z_scope.
#[local] Set Warnings "-clear-no-such-hyp".
#[local] Ltac rlia := unfold real, IDX_PUT, IDX_TMP, IDX_SWAP_BEGIN, IDX_NIL, UINT32_MAX, DIB_RAW_REHASH, DIB_RAW_FREE, DIB_RAW_OVERFLOW in *; lia.

Section Ops.
Context `{LawfulHash}.

(** ** Finding *)

(** The entry of a key, or none. *)
Inductive found (h : HashmapBase) (L : list (Z * Z)) (k : Z) : option (Z * Entry) → Prop :=
  | found_some i e : assoc k L = Some (data e) → find_entry h k = Ret (home h k, i) → full h i → bucket_at h i = Some e → store h !! i = Some e →
      i ≠ IDX_NIL → found h L k (Some (i, e))
  | found_none : assoc k L = None → find_entry h k = Ret (home h k, IDX_NIL) → found h L k None.

Lemma find_cases h L k : map_of h L → ∃ r, found h L k r.
Proof.
  intros M. pose proof (map_table h L M) as T. pose proof (t_n h T). destruct (assoc k L) as [p|] eqn:E.
  - destruct (find_some h L k p M E) as (i & Ef & Fi & Ei). unfold kv in Ei. destruct (store h !! i) as [e|] eqn:Ee; [|done]. injection Ei as Ei.
    pose proof (full_real h i T Fi) as Ri. exists (Some (i, e)). apply found_some; try done; [by rewrite Ei|by apply real_bucket|rlia].
  - exists None. apply found_none; [done|]. by apply (find_none h L).
Qed.

Lemma entry_kv h i e : store h !! i = Some e → kv h i = Some (data e).
Proof. intros E. unfold kv. by rewrite E. Qed.

Ltac found_step h L k M :=
  let r := fresh "r" in let F := fresh "F" in
  destruct (find_cases h L k M) as [r F]; destruct F as [i e Ea Ef Fi Eb Es Hi|Ea Ef]; rewrite Ef; cbn [mbind outcome_bind];
  [rewrite (proj2 (Z.eqb_neq i IDX_NIL)) by done; try (rewrite Eb; cbn [lift mbind outcome_bind]) | change (IDX_NIL =? IDX_NIL) with true; cbv iota].

(** The value that a search gives. *)
Definition found_value (t : HashmapType) (k : Z) (L : list (Z * Z)) : Z := from_option (value_of t) NULL (assoc k L).

Lemma entry_shown h e : entry_value h e = value_of (h_type h) (data e).
Proof. done. Qed.

Lemma get_ok h L k : map_of h L → internal_hashmap_get (Some h) k = Ret (found_value (h_type h) k L).
Proof. intros M. unfold internal_hashmap_get, found_value. found_step h L k M; by rewrite Ea. Qed.

Lemma get2_ok h L k : map_of h L →
  hashmap_get2 (Some h) k = Ret (from_option snd NULL (assoc k L), fst <$> assoc k L).
Proof. intros M. unfold hashmap_get2. found_step h L k M; by rewrite Ea. Qed.

Lemma contains_ok h L k : map_of h L → internal_hashmap_contains (Some h) k = Ret (bool_decide (is_Some (assoc k L))).
Proof.
  intros M. unfold internal_hashmap_contains. destruct (find_cases h L k M) as [r F]. destruct F as [i e Ea Ef Fi Eb Es Hi|Ea Ef]; rewrite Ef, Ea; cbn [mbind outcome_bind].
  - by rewrite (proj2 (Z.eqb_neq i IDX_NIL)) by done.
  - done.
Qed.

(** ** Inserting and changing *)

Lemma hashmap_put_ok h L k v : map_of h L → ¬ oversized (h_type h) (n_entries h + 1) →
  ∃ r h', hashmap_put k v h = Ret (r, h') ∧
    match assoc k L with
    | Some p => r = (if p.2 =? v then 0 else - EEXIST) ∧ h' = h
    | None => inserted h L k v r h'
    end.
Proof.
  intros M Hov. unfold hashmap_put. found_step h L k M; rewrite Ea.
  - by eexists _, _.
  - by apply put_boldly_ok.
Qed.

Lemma set_put_ok h L k : map_of h L → ¬ oversized (h_type h) (n_entries h + 1) →
  ∃ r h', set_put k h = Ret (r, h') ∧
    match assoc k L with
    | Some p => r = 0 ∧ h' = h
    | None => inserted h L k 0 r h'
    end.
Proof.
  intros M Hov. unfold set_put. found_step h L k M; rewrite Ea.
  - by eexists _, _.
  - by apply put_boldly_ok.
Qed.

Lemma replace_ok h L k v : map_of h L → ¬ oversized (h_type h) (n_entries h + 1) →
  ∃ r h', hashmap_replace k v h = Ret (r, h') ∧
    match assoc k L with
    | Some p => r = 0 ∧ map_of h' (rebind k (λ _, (k, v)) L) ∧ h_type h' = h_type h
    | None => inserted h L k v r h'
    end.
Proof.
  intros M Hov. unfold hashmap_replace. found_step h L k M; rewrite Ea; [|by apply put_boldly_ok]. eexists _, _. split; [done|]. split; [done|]. split; [|done].
  destruct (assoc_split k L (data e) (mo_distinct _ _ M) Ea) as (_ & _ & _ & Ek & _). apply (map_rebind h L k k v (data e)); [done|done|done|by apply entry_kv|done|by apply compare_sym].
Qed.

Lemma update_ok h L k v : map_of h L →
  ∃ r h', hashmap_update k v h = Ret (r, h') ∧
    match assoc k L with
    | Some p => r = 0 ∧ map_of h' (rebind k (λ _, (p.1, v)) L) ∧ h_type h' = h_type h
    | None => r = - ENOENT ∧ h' = h
    end.
Proof.
  intros M. unfold hashmap_update. found_step h L k M; rewrite Ea; [|by eexists _, _]. eexists _, _. split; [done|]. split; [done|]. split; [|done].
  apply (map_rebind h L k (e_key e) v (data e)); [done|done|done|by apply entry_kv|done|apply compare_refl].
Qed.

(** ** Removing *)

Lemma remove_found h L k i e : map_of h L → assoc k L = Some (data e) → full h i → store h !! i = Some e →
  ∃ h' q, base_remove_entry i h = Ret h' ∧ map_of h' (without k L) ∧ frame h' = frame h ∧ removal i q h h'.
Proof. intros M Ea Fi Es. apply (map_remove h L k (data e)); [done|done|done|by apply entry_kv]. Qed.

Lemma assoc_without_None k L : assoc k L = None → without k L = L.
Proof.
  rewrite assoc_None. unfold without. induction L as [|q l IH]; intros Hq; [done|]. rewrite filter_cons_True by (apply Hq; left). f_equal. apply IH. intros r Hr. apply Hq. by right.
Qed.

Lemma hashmap_remove_ok h L k : map_of h L →
  ∃ h', internal_hashmap_remove (Some h) k = Ret (found_value (h_type h) k L, Some h') ∧ map_of h' (without k L) ∧ h_type h' = h_type h.
Proof.
  intros M. unfold internal_hashmap_remove, found_value. found_step h L k M; rewrite Ea.
  - destruct (remove_found h L k i e M Ea Fi Es) as (h' & q & -> & M' & Ef' & _). cbn [mbind outcome_bind]. exists h'. split; [done|]. split; [done|]. by apply frame_type.
  - exists h. split; [done|]. by rewrite assoc_without_None.
Qed.

Lemma remove2_ok h L k : map_of h L →
  ∃ h', hashmap_remove2 (Some h) k = Ret (from_option snd NULL (assoc k L), from_option fst NULL (assoc k L), Some h') ∧ map_of h' (without k L) ∧ h_type h' = h_type h.
Proof.
  intros M. unfold hashmap_remove2. found_step h L k M; rewrite Ea.
  - destruct (remove_found h L k i e M Ea Fi Es) as (h' & q & -> & M' & Ef' & _). cbn [mbind outcome_bind]. exists h'. split; [done|]. split; [done|]. by apply frame_type.
  - exists h. split; [done|]. by rewrite assoc_without_None.
Qed.

(** Only an entry with this value goes. *)
Lemma remove_value_ok h L k v : map_of h L →
  ∃ r h', internal_hashmap_remove_value (Some h) k v = Ret (r, Some h') ∧ h_type h' = h_type h ∧
    if bool_decide (value_of (h_type h) <$> assoc k L = Some v) then r = v ∧ map_of h' (without k L) else r = NULL ∧ h' = h.
Proof.
  intros M. unfold internal_hashmap_remove_value. found_step h L k M; rewrite Ea.
  - rewrite entry_shown. destruct (Z.eqb_spec (value_of (h_type h) (data e)) v) as [Ev|Hv].
    + destruct (remove_found h L k i e M Ea Fi Es) as (h' & q & -> & M' & Ef' & _). cbn [mbind outcome_bind]. exists v, h'. split; [done|]. split; [by apply frame_type|].
      rewrite bool_decide_eq_true_2; [done|]. cbn. by rewrite Ev.
    + exists NULL, h. split; [done|]. split; [done|]. rewrite bool_decide_eq_false_2; [done|]. cbn. congruence.
  - exists NULL, h. split; [done|]. split; [done|]. by rewrite bool_decide_eq_false_2.
Qed.

(** ** Removing and inserting at once *)

Lemma assoc_without k k' L : assoc k (without k' L) = if decide (compare_func k' k = 0) then None else assoc k L.
Proof.
  induction L as [|p L IH]; [by case_decide|]. unfold without in *. destruct (decide (compare_func p.1 k' = 0)) as [E|E].
  - rewrite filter_cons_False by naive_solver. rewrite IH. cbn. case_decide as Ek; [done|]. rewrite decide_False; [done|]. intros Ep. apply Ek.
    apply (compare_trans _ p.1); [by apply compare_sym|done].
  - rewrite filter_cons_True by done. cbn. rewrite IH. destruct (decide (compare_func p.1 k = 0)) as [Ep|Ep]; [|done].
    rewrite decide_False; [done|]. intros Ek. apply E. apply (compare_trans _ k); [done|by apply compare_sym].
Qed.

Lemma without_same k k' L : compare_func k k' = 0 → without k (without k' L) = without k L.
Proof.
  intros E. unfold without. induction L as [|p L IH]; [done|]. destruct (decide (compare_func p.1 k = 0)) as [Ep|Ep].
  - rewrite (filter_cons_False _ p) by (intros Hp; apply Hp; by apply (compare_trans _ k)). rewrite IH, filter_cons_False by naive_solver. done.
  - rewrite (filter_cons_True (λ p, compare_func p.1 k' ≠ 0) p), !(filter_cons_True (λ p, compare_func p.1 k ≠ 0) p), IH by
      (done || (intros Hp; apply Ep; apply (compare_trans _ k'); [done|by apply compare_sym])). done.
Qed.

Lemma without_shorter k L p : distinct L → assoc k L = Some p → length L = S (length (without k L)).
Proof.
  intros D E. destruct (assoc_split k L p D E) as (A & B & -> & Ep & HAB). rewrite without_split by done. rewrite !length_app. cbn. lia.
Qed.

(** An entry was removed, so that there is room. *)
Lemma put_freed_ok h h' L k k' v p : map_of h L → assoc k L = Some p → map_of h' (without k L) → frame h' = frame h → assoc k' (without k L) = None →
  ∃ h'', hashmap_base_put_boldly (home h k') k' v false h' = Ret (1, h'') ∧ map_of h'' (without k L ++ [(k', v)]) ∧ frame h'' = frame h.
Proof.
  intros M E M' Ef E'. rewrite <- (frame_home h h' k' Ef). destruct (put_reserved_ok h' (without k L) k' v M' E') as (h'' & E1 & M'' & Ef'').
  - rewrite (mo_count _ _ M'), (frame_n h h' Ef). destruct M as [[X G] Hc D]. pose proof (entries_fit h X L G) as Hfit. rewrite (without_shorter k L p D E) in Hfit. lia.
  - exists h''. split; [done|]. split; [done|]. congruence.
Qed.

Lemma remove_and_put_ok h L old new v : map_of h L →
  ∃ r h', hashmap_remove_and_put old new v (Some h) = Ret (r, Some h') ∧ h_type h' = h_type h ∧
    match assoc old L, assoc new L with
    | None, _ => r = - ENOENT ∧ h' = h
    | Some _, Some _ => r = - EEXIST ∧ h' = h
    | Some _, None => r = 0 ∧ map_of h' (without old L ++ [(new, v)])
    end.
Proof.
  intros M. unfold hashmap_remove_and_put. destruct (find_cases h L old M) as [r F]. destruct F as [i e Ea Ef Fi Eb Es Hi|Ea Ef]; rewrite Ef, Ea; cbn [mbind outcome_bind].
  2: { by eexists _, _. }
  rewrite (proj2 (Z.eqb_neq i IDX_NIL)) by done. destruct (find_cases h L new M) as [r' F]. destruct F as [i' e' Ea' Ef' Fi' Eb' Es' Hi'|Ea' Ef']; rewrite Ef', Ea'; cbn [mbind outcome_bind].
  { rewrite (proj2 (Z.eqb_neq i' IDX_NIL)) by done. by eexists _, _. }
  change (IDX_NIL =? IDX_NIL) with true. cbn [negb]. destruct (remove_found h L old i e M Ea Fi Es) as (h1 & q & -> & M1 & Ef1 & _). cbn [mbind outcome_bind].
  destruct (put_freed_ok h h1 L old new v (data e) M Ea M1 Ef1) as (h2 & -> & M2 & Ef2); [rewrite assoc_without, Ea'; by case_decide|].
  cbn. eexists _, _. split; [done|]. split; [by apply frame_type|done].
Qed.

Lemma full_unique h L i j : map_of h L → full h i → full h j → compare_func (key h i) (key h j) = 0 → i = j.
Proof.
  intros M Fi Fj E. pose proof (mo_distinct _ _ M) as D. destruct (full_kv h L i M Fi) as (p & Ep & _ & Ki), (full_kv h L j M Fj) as (q & Eq & _ & Kj).
  destruct M as [[X G] _ _]. pose proof (rh_listing _ _ _ (s_rh _ _ _ G)) as GL. apply (steady_used h X L i G) in Fi. apply (steady_used h X L j G) in Fj.
  destruct (listing_lookup h X L i p GL Fi Ep) as (a & Ea & La), (listing_lookup h X L j q GL Fj Eq) as (b & Eb & Lb).
  assert (a = b) as <- by (apply (distinct_lookup L a b p q D La Lb); congruence). congruence.
Qed.

Lemma prev_next h i : buckets h → real h i → real h (prev_idx h i) ∧ next_idx h (prev_idx h i) = i.
Proof.
  intros T R. pose proof (t_n h T) as Hn. split; [apply Z.mod_pos_bound; lia|]. unfold next_idx, prev_idx. rewrite Zplus_mod_idemp_l.
  replace (n_buckets h + i - 1 + 1) with (i + 1 * n_buckets h) by lia. rewrite Z_mod_plus_full. apply Z.mod_small, R.
Qed.

(** The entry that was at bucket [j] before the removal of another is found at [j]
    or before it, unless its key is NULL. *)
Lemma relocate_ok h h' L' i q j e : map_of h' L' → frame h' = frame h → buckets h → removal i q h h' → full h j → j ≠ i → store h !! j = Some e → e_key e ≠ NULL →
  ∃ e1 j' e2, bucket_at h' j = Some e1 ∧ j' = (if e_key e =? e_key e1 then j else prev_idx h' j) ∧ bucket_at h' j' = Some e2 ∧ data e2 = data e ∧
    full h' j' ∧ store h' !! j' = Some e2.
Proof.
  intros M' Ef T V Fj Hne Ej Hk. pose proof (map_table h' L' M') as T'. pose proof (full_real h j T Fj) as Rj. assert (real h' j) as Rj' by (by apply (frame_real h h' j Ef)).
  destruct (t_store h' T' j Rj') as [e1 E1]. assert (∀ j', full h' j' → kv h' j' = kv h j → ∃ e2, bucket_at h' j' = Some e2 ∧ data e2 = data e ∧ full h' j' ∧ store h' !! j' = Some e2) as HE.
  { intros j' Fj' Ek. unfold kv in Ek. rewrite Ej in Ek. destruct (store h' !! j') as [e2|] eqn:E2; [|done]. injection Ek as Ek1 Ek2. exists e2.
    split; [apply real_bucket; [by apply (full_real h' j' T')|done]|]. split; [unfold data; congruence|done]. }
  assert (full h' j → kv h' j = kv h j → e_key e1 = e_key e) as Hsame by (intros _; unfold kv; rewrite E1, Ej; by intros [= ? _]).
  destruct (prev_next h' j T' Rj') as [Rp Np]. exists e1. set (p := prev_idx h' j) in *.
  destruct (rm_entry _ _ _ _ V j Fj Hne) as [[Hq Ek]|Hp].
  - assert (full h' j) as Fj' by (by apply (rm_used _ _ _ _ V)). exists j. destruct (HE j Fj' Ek) as (e2 & He2). exists e2. split; [by apply real_bucket|].
    rewrite (Hsame Fj' Ek), Z.eqb_refl. done.
  - destruct (Hp p) as (Hpq & Fp & Ek); [by apply (frame_real h h' p Ef)|by rewrite <- (frame_next h h' p Ef)|]. destruct (Z.eqb_spec (e_key e) (e_key e1)) as [Ee|Hee].
    + assert (j ≠ q) as Hjq by (intros ->; rewrite (rm_zero _ _ _ _ V) in E1; injection E1 as <-; done).
      assert (full h' j) as Fj' by (by apply (rm_used _ _ _ _ V)).
      assert (j = p) as Ejp. { apply (full_unique h' L' j p M' Fj' Fp). rewrite (key_at h' j e1 E1), <- Ee. unfold key. rewrite Ek. unfold kv. rewrite Ej. apply compare_refl. }
      exists j. rewrite <- Ejp in Ek. destruct (HE j Fj' Ek) as (e2 & He2). exists e2. split; [by apply real_bucket|done].
    + exists p. destruct (HE p Fp Ek) as (e2 & He2). exists e2. split; [by apply real_bucket|done].
Qed.

Lemma remove_and_replace_ok h L old new v : map_of h L → (∀ p, assoc old L = Some p → p.1 ≠ NULL) →
  ∃ r h', hashmap_remove_and_replace old new v (Some h) = Ret (r, Some h') ∧ h_type h' = h_type h ∧
    match assoc old L with
    | None => r = - ENOENT ∧ h' = h
    | Some _ => r = 0 ∧ map_of h' (without old (without new L) ++ [(new, v)])
    end.
Proof.
  intros M Hnull. pose proof (map_table h L M) as T. unfold hashmap_remove_and_replace.
  destruct (find_cases h L old M) as [r F]. destruct F as [i e Ea Ef Fi Eb Es Hi|Ea Ef]; rewrite Ef, Ea; cbn [mbind outcome_bind]; [|by eexists _, _].
  rewrite (proj2 (Z.eqb_neq i IDX_NIL)) by done. rewrite Eb. cbn [lift mbind outcome_bind].
  assert (∀ h1 L1 i1 e1, map_of h1 L1 → frame h1 = frame h → assoc old L1 = Some (data e1) → full h1 i1 → store h1 !! i1 = Some e1 → assoc new (without old L1) = None →
    ∃ h', (h' ← base_remove_entry i1 h1; '(r, h'') ← hashmap_base_put_boldly (home h new) new v false h'; require r =? 1; Ret (0, Some h'')) = Ret (0, Some h') ∧
      h_type h' = h_type h ∧ map_of h' (without old L1 ++ [(new, v)])) as HR.
  { intros h1 L1 i1 e1 M1 Ef1 Ea1 Fi1 Es1 En1. destruct (remove_found h1 L1 old i1 e1 M1 Ea1 Fi1 Es1) as (h2 & q & -> & M2 & Ef2 & _). cbn [mbind outcome_bind].
    rewrite <- (frame_home h h1 new Ef1). destruct (put_freed_ok h1 h2 L1 old new v (data e1) M1 Ea1 M2 Ef2 En1) as (h3 & -> & M3 & Ef3). cbn.
    exists h3. split; [done|]. split; [|done]. apply frame_type. congruence. }
  destruct (find_cases h L new M) as [r' F]. destruct F as [i' e' Ea' Ef' Fi' Eb' Es' Hi'|Ea' Ef']; rewrite Ef'; cbn [mbind outcome_bind].
  - rewrite (proj2 (Z.eqb_neq i' IDX_NIL)) by done. cbn [negb andb]. destruct (Z.eqb_spec i i') as [<-|Hne]; cbn [negb].
    + assert (e' = e) as -> by congruence. destruct (assoc_split old L (data e) (mo_distinct _ _ M) Ea) as (A & B & EL & Eo & HAB).
      destruct (assoc_split new L (data e) (mo_distinct _ _ M) Ea') as (_ & _ & _ & En & _). assert (compare_func old new = 0) as Eon by (apply (compare_trans _ (data e).1); [by apply compare_sym|done]).
      cbn [mbind outcome_bind]. destruct (HR h L i e M eq_refl Ea Fi Es) as (h' & E' & Ht & M'); [by rewrite assoc_without, decide_True|]. exists 0, h'. split; [done|]. split; [done|]. split; [done|].
      by rewrite without_same.
    + destruct (remove_found h L new i' e' M Ea' Fi' Es') as (h1 & q & -> & M1 & Ef1 & V). cbn [mbind outcome_bind].
      destruct (relocate_ok h h1 _ i' q i e M1 Ef1 T V Fi Hne Es) as (e1 & j & e2 & B1 & Ej & B2 & Ed & Fj & Es2); [by apply (Hnull (data e))|].
      rewrite B1. cbn [lift mbind outcome_bind]. rewrite <- Ej, B2. cbn [lift mbind outcome_bind].
      rewrite (proj2 (Z.eqb_eq (e_key e) (e_key e2))) by (by injection Ed). cbn [assert_ lift mbind outcome_bind].
      assert (compare_func new old ≠ 0) as Hno.
      { intros Eno. apply Hne, (full_unique h L i i' M Fi Fi'). rewrite (key_at h i e Es), (key_at h i' e' Es').
        destruct (assoc_split old L (data e) (mo_distinct _ _ M) Ea) as (_ & _ & _ & Eo & _), (assoc_split new L (data e') (mo_distinct _ _ M) Ea') as (_ & _ & _ & En & _).
        apply (compare_trans _ old); [done|]. apply (compare_trans _ new); by apply compare_sym. }
      destruct (HR h1 (without new L) j e2 M1 Ef1) as (h' & E' & Ht & M'); [by rewrite assoc_without, decide_False, Ea, Ed|done|done| |by exists 0, h'].
      rewrite !assoc_without. case_decide; [done|]. by rewrite decide_True by apply compare_refl.
  - change (IDX_NIL =? IDX_NIL) with true. cbn [negb andb mbind outcome_bind]. destruct (HR h L i e M eq_refl Ea Fi Es) as (h' & E' & Ht & M'); [rewrite assoc_without, Ea'; by case_decide|].
    exists 0, h'. split; [done|]. split; [done|]. split; [done|]. by rewrite (assoc_without_None new L).
Qed.

(** ** New maps *)

Lemma new_ok t : map_of (hashmap_base_new t) [].
Proof.
  set (h := hashmap_base_new t). assert (n_buckets h = n_direct_buckets t) as En by done. pose proof (n_direct_bound t) as Hn.
  assert (∀ i, i ∈ map Z.of_nat (seq 0 (Z.to_nat (n_direct_buckets t))) ↔ real h i) as Hin.
  { intros i. rewrite list_elem_of_fmap. unfold real. rewrite En. split; [intros (j & -> & Hj%elem_of_seq); lia|]. intros Hi. exists (Z.to_nat i). rewrite elem_of_seq. lia. }
  assert (∀ i d, dibs h !! i = Some d → d = DIB_RAW_FREE ∧ real h i) as Hd.
  { intros i d. cbn. rewrite lookup_const. case_decide as Hi; [|done]. intros [= <-]. split; [done|]. by apply Hin. }
  assert (∀ i, ¬ full h i ∧ ¬ stale h i) as Hf.
  { intros i. split; [intros (d & [-> _]%Hd & Hlt); rlia|]. intros [E _]%Hd. done. }
  split; [exists []|done|done]. split; [split; [split; [split|]| | | |]| | |].
  - rewrite En. rlia.
  - apply shared_key_ok.
  - intros i. split; [intros [d [_ R]%Hd]; done|]. intros R%Hin. cbn. rewrite lookup_const, decide_True by done. by eexists.
  - intros i R%Hin. cbn. rewrite lookup_const, decide_True by done. by eexists.
  - intros i d [-> _]%Hd. done.
  - intros i d [-> _]%Hd Hlt. rlia.
  - intros i _ F. by destruct (proj1 (Hf _) F).
  - split; [constructor|by intros i ?%not_elem_of_nil| |constructor]. by intros _.
  - by intros i ?%not_elem_of_nil.
  - intros i [F|S]; by destruct (Hf i).
  - done.
  - by intros ?%not_elem_of_nil.
  - intros i. apply Hf.
  - exists 0. split; [unfold real; rewrite En; lia|]. intros F. by destruct (Hf 0).
Qed.

Lemma map_of_flags h h' L : frame h' = frame h → dibs h' = dibs h → store h' = store h → iterate_list_head h' = iterate_list_head h →
  iterate_list_tail h' = iterate_list_tail h → idx_lowest_entry h' = idx_lowest_entry h → n_entries h' = n_entries h → map_of h L → map_of h' L.
Proof.
  intros Ef Ed Es Eh Et El En [[X G] Hc D]. split; [exists X|congruence|done]. apply (steady_same h); try done. rewrite El. injection Ef as _ -> _ _. intros Hind.
  destruct (rh_low _ _ _ (s_rh _ _ _ G) Hind) as [? ?]. auto.
Qed.

Lemma map_of_dirty h L : map_of h L → map_of (base_set_dirty h) L.
Proof. by apply map_of_flags. Qed.

Lemma clear_ok h : map_of (internal_hashmap_clear h) [].
Proof. apply map_of_dirty. apply (map_of_flags (hashmap_base_new (h_type h))); [done..|apply new_ok]. Qed.

(** ** The first entry *)

(** An entry that the iteration may give first. *)
Definition may_be_first (t : HashmapType) (L : list (Z * Z)) (p : Z * Z) : Prop := p ∈ L ∧ (t = HASHMAP_TYPE_ORDERED → head L = Some p).

Lemma find_first_ok h L : map_of h L → ∃ i h', find_first_entry h = Ret (i, h') ∧ map_of h' L ∧ h_type h' = h_type h ∧
  if bool_decide (L = []) then i = IDX_NIL
  else ∃ e, bucket_at h' i = Some e ∧ store h' !! i = Some e ∧ full h' i ∧ may_be_first (h_type h) L (data e) ∧ i ≠ IDX_NIL.
Proof.
  intros M. pose proof M as [[X G] Hc D]. pose proof (map_table h L M) as T. pose proof (t_n h T) as Hn. unfold find_first_entry. rewrite Hc. destruct L as [|p L]; [by eexists _, _|].
  rewrite (proj2 (Z.eqb_neq _ 0)) by (cbn; lia). rewrite bool_decide_eq_false_2 by done. rewrite (iterate_first h X (p :: L) G).
  cbn [mbind outcome_bind]. pose proof (visiting_perm h X _ G) as HP. pose proof (noted_steady h X _ G) as G'. destruct (visiting h X) as [|i Y] eqn:EY.
  { apply Permutation_nil in HP. pose proof (listing_length h X _ (rh_listing _ _ _ (s_rh _ _ _ G))) as Hlen. by rewrite HP in Hlen. }
  cbn [hd]. exists i, (noted h). split; [done|]. split; [by apply noted_map|]. split; [apply frame_type, noted_same|]. assert (i ∈ X) as Hi by (rewrite <- HP; left).
  destruct (read_bucket (noted h) X _ i G' Hi) as (e & Ee & Es & _ & Hi'). exists e. split; [done|]. split; [done|]. split; [by apply (steady_used (noted h) X _ i G')|]. split; [|done].
  destruct (listing_lookup (noted h) X _ i (data e) (rh_listing _ _ _ (s_rh _ _ _ G')) Hi (entry_kv (noted h) i e Es)) as (a & Ea & La). split; [by apply list_elem_of_lookup_2 in La|].
  intros Hty. unfold visiting in EY. rewrite decide_True in EY by done. assert (a = 0%nat) as ->; [|done]. apply (NoDup_lookup X a 0 i); [apply G|done|by rewrite EY].
Qed.

Lemma assoc_in L p : distinct L → p ∈ L → assoc p.1 L = Some p.
Proof.
  induction L as [|x L IH]; [by intros _ ?%not_elem_of_nil|]. cbn. intros [Hx D] [->|Hp]%elem_of_cons; [by rewrite decide_True by apply compare_refl|].
  rewrite decide_False; [auto|]. intros E%compare_sym. by apply (Hx p).
Qed.

Lemma first_ok h L remove : map_of h L → ∃ v k h', internal_hashmap_first_key_and_value remove (Some h) = Ret (v, k, Some h') ∧ h_type h' = h_type h ∧
  if bool_decide (L = []) then v = NULL ∧ k = NULL ∧ map_of h' L
  else ∃ p, may_be_first (h_type h) L p ∧ v = value_of (h_type h) p ∧ k = p.1 ∧ map_of h' (if remove then without p.1 L else L).
Proof.
  intros M. unfold internal_hashmap_first_key_and_value. destruct (find_first_ok h L M) as (i & h1 & -> & M1 & Et & Hr). cbn [mbind outcome_bind]. case_bool_decide.
  { rewrite Hr. by eexists _, _, _. }
  destruct Hr as (e & Eb & Es & Fi & Hm & Hi). rewrite (proj2 (Z.eqb_neq i IDX_NIL)) by done. rewrite Eb. cbn [lift mbind outcome_bind]. rewrite (entry_shown h1 e), Et. destruct remove.
  - destruct (remove_found h1 L (e_key e) i e M1 (assoc_in L (data e) (mo_distinct _ _ M1) (proj1 Hm)) Fi Es) as (h2 & q & -> & M2 & Ef & _). cbn [mbind outcome_bind].
    eexists _, _, h2. split; [done|]. split; [rewrite <- Et; by apply frame_type|]. by exists (data e).
  - cbn [mbind outcome_bind]. eexists _, _, h1. split; [done|]. split; [done|]. by exists (data e).
Qed.

(** ** The entry after a key *)

Fixpoint next_of (k : Z) (L : list (Z * Z)) : Z :=
  match L with
  | [] => NULL
  | p :: L => if decide (compare_func p.1 k = 0) then from_option snd NULL (head L) else next_of k L
  end.

Lemma next_of_split k A p B : compare_func p.1 k = 0 → (∀ q, q ∈ A ++ B → compare_func q.1 k ≠ 0) → next_of k (A ++ p :: B) = from_option snd NULL (head B).
Proof.
  intros E. induction A as [|a A IH]; intros HAB; cbn; [by rewrite decide_True|]. rewrite decide_False by (apply HAB; left). apply IH. intros q Hq. apply HAB. by right.
Qed.

Lemma next_ok h L k : map_of h L → h_type h = HASHMAP_TYPE_ORDERED → ordered_hashmap_next (Some h) k = Ret (next_of k L).
Proof.
  intros M Hty. pose proof (map_table h L M) as T. pose proof (t_n h T) as Hn. unfold ordered_hashmap_next. found_step h L k M.
  2: { f_equal. clear - Ea. induction L as [|p L IH]; [done|]. cbn in *. case_decide; [done|auto]. }
  destruct (assoc_split k L _ (mo_distinct _ _ M) Ea) as (A & B & EL & Ek & HAB). pose proof (mo_distinct _ _ M) as D. destruct M as [[X G] _ _].
  pose proof (rh_listing _ _ _ (s_rh _ _ _ G)) as GL. assert (i ∈ X) as Hx by (by apply (steady_used h X L i G)).
  destruct (listing_split h X L i GL Hx) as (XA & XB & LA & p & LB & EX & EL' & Ep & _ & _ & _ & F2). rewrite (entry_kv h i e Es) in Ep. injection Ep as <-.
  destruct (distinct_split L A B LA LB (data e) D EL EL') as [<- <-].
  destruct (li_linked _ _ _ GL Hty) as (_ & _ & LC). rewrite EX, chain_app in LC. cbn in LC. destruct LC as (_ & (e' & Ee' & _ & En) & _).
  assert (e' = e) as -> by congruence. rewrite En.
  rewrite EL, next_of_split by done. destruct F2 as [|j q XB B Ej F2]; [done|]. cbn [hd head from_option].
  assert (real h j) as Rj. { apply (full_real h j T). apply (steady_used h X L j G). rewrite EX. set_solver. }
  rewrite (proj2 (Z.eqb_neq j IDX_NIL)) by rlia. unfold kv in Ej. destruct (store h !! j) as [n|] eqn:En'; [|done]. injection Ej as <-.
  by rewrite (real_bucket h j n Rj En').
Qed.

(** ** Room *)

(** Small enough for the code to compute the size of the table. *)
Definition roomy (t : HashmapType) (m : Z) : Prop := wanted m * (entry_size t + 1) ≤ 2 ^ 31.

Lemma roomy_fits t m : roomy t m → ¬ oversized t m ∧ ¬ UINT_MAX < wanted m * (entry_size t + 1).
Proof. unfold roomy, oversized, UINT_MAX, UINT32_MAX. lia. Qed.

Lemma roomy_le t m m' : 0 ≤ m' ≤ m → roomy t m → roomy t m'.
Proof.
  unfold roomy, wanted. intros Hm Hr. pose proof (entry_size_bounds t). assert (m' / (INV_KEEP_FREE - 1) ≤ m / (INV_KEEP_FREE - 1)) by (apply Z.div_le_mono; [done|lia]). nia.
Qed.

Lemma reserve_ok h L n : map_of h L → 0 ≤ n → roomy (h_type h) (n_entries h + n) →
  ∃ r h', internal_hashmap_reserve n h = Ret (r, h') ∧ map_of h' L ∧ h_type h' = h_type h ∧
    ((r = - ENOMEM ∧ h' = h ∧ ∃ size, realloc_ok h size = false) ∨ (r = 0 ∧ n_entries h + n ≤ n_buckets h')).
Proof.
  intros M Hn Hr. destruct (roomy_fits _ _ Hr) as [Hov Hlt]. pose proof (mo_count _ _ M) as Hc. assert (n < 2 ^ 32) as Hn32.
  { unfold roomy, wanted in Hr. pose proof (entry_size_bounds (h_type h)). assert (0 ≤ (n_entries h + n) / (INV_KEEP_FREE - 1)) by (apply Z.div_pos; [lia|done]). nia. }
  destruct (map_resize h L n M ltac:(lia) Hov) as (r & h' & E & M' & R). unfold internal_hashmap_reserve. rewrite E. cbn [mbind outcome_bind].
  destruct R as [Hf|Hle|h' Hi Hb Hle Ht Hc' Hd].
  - eexists _, _. split; [done|]. split; [done|]. split; [done|]. left. destruct Hf as [|Hf]; done.
  - eexists _, _. split; [done|]. split; [done|]. split; [done|]. by right.
  - eexists _, _. split; [done|]. split; [done|]. split; [done|]. by right.
Qed.

(** ** Merging *)

Definition add_new (p : Z * Z) (L : list (Z * Z)) : list (Z * Z) := if decide (assoc p.1 L = None) then L ++ [p] else L.

Fixpoint merged (L l : list (Z * Z)) : list (Z * Z) := match l with [] => L | p :: l => merged (add_new p L) l end.

(** The allocator refused to grow some table. *)
Definition no_memory : Prop := ∃ h size, realloc_ok h size = false.

Lemma add_new_length p L : (length (add_new p L) ≤ length L + 1)%nat.
Proof. unfold add_new. case_decide; [rewrite length_app; cbn|]; lia. Qed.

(** What a merge of the entries [l] leaves: all of them, or those before the
    allocation that failed. *)
Inductive merge_result (L l : list (Z * Z)) : Z → HashmapBase → Prop :=
  | merge_all h' : map_of h' (merged L l) → merge_result L l 0 h'
  | merge_some l1 l2 h' : l = l1 ++ l2 → map_of h' (merged L l1) → no_memory → merge_result L l (- ENOMEM) h'.

Lemma merge_entries_ok t put ignored f :
  (∀ h L p, map_of h L → h_type h = t → roomy t (n_entries h + 1) → ∃ r h', put p h = Ret (r, h') ∧ h_type h' = t ∧
    ((r = - ENOMEM ∧ h' = h ∧ no_memory) ∨ ((0 ≤ r ∨ ignored r = true) ∧ map_of h' (add_new (f p) L)))) → ignored (- ENOMEM) = false →
  ∀ l h L, map_of h L → h_type h = t → roomy t (Z.of_nat (length L + length l)) →
  ∃ r h', merge_entries put ignored l h = Ret (r, h') ∧ h_type h' = t ∧ merge_result L (map f l) r h'.
Proof.
  intros HP Hig. induction l as [|p l IH]; intros h L M Ht Hr; cbn [merge_entries map].
  - eexists _, _. split; [done|]. split; [done|]. by apply merge_all.
  - cbn [length] in Hr. destruct (HP h L p M Ht) as (r & h1 & E1 & Ht1 & Hc).
    { rewrite (mo_count _ _ M). by apply (roomy_le t (Z.of_nat (length L + S (length l)))); [lia|]. }
    rewrite E1. cbn [mbind outcome_bind]. destruct Hc as [(-> & -> & Hf)|[Hok M1]].
    + change (- ENOMEM <? 0) with true. rewrite Hig. cbn. eexists _, _. split; [done|]. split; [done|]. by apply (merge_some _ _ [] (f p :: map f l)).
    + rewrite (proj2 (andb_false_iff _ _)). 2: { destruct Hok as [Hok|Hok]; [left; by apply Z.ltb_ge|right; by rewrite Hok]. }
      destruct (IH h1 (add_new (f p) L) M1 Ht1) as (r' & h' & E' & Ht' & R).
      { apply (roomy_le t (Z.of_nat (length L + S (length l)))); [|done]. pose proof (add_new_length (f p) L). lia. }
      exists r', h'. split; [done|]. split; [done|]. destruct R as [h' R|l1 l2 h' El R Hf]; [by apply merge_all|]. apply (merge_some _ _ (f p :: l1) l2); [by rewrite El|done|done].
Qed.

Lemma merge_put_ok h L p : map_of h L → roomy (h_type h) (n_entries h + 1) → ∃ r h', hashmap_put p.1 p.2 h = Ret (r, h') ∧ h_type h' = h_type h ∧
    ((r = - ENOMEM ∧ h' = h ∧ no_memory) ∨ ((0 ≤ r ∨ (r =? - EEXIST) = true) ∧ map_of h' (add_new p L))).
Proof.
  intros M [Hov Hlt]%roomy_fits. destruct (hashmap_put_ok h L p.1 p.2 M Hov) as (r & h' & E & Hr). exists r, h'. split; [done|]. unfold add_new. destruct (assoc p.1 L) as [q|].
  - destruct Hr as [-> ->]. split; [done|]. right. split; [|done]. destruct (q.2 =? p.2); [by left|by right].
  - rewrite decide_True by done. destruct Hr as [[Hf|(sz & Hf)]|h' M' Ht]; [done| |].
    + split; [done|]. left. split; [done|]. split; [done|]. by exists h, sz.
    + split; [done|]. right. split; [left; lia|]. by destruct p.
Qed.

Lemma merge_set_put_ok h L (p : Z * Z) : map_of h L → roomy (h_type h) (n_entries h + 1) → ∃ r h', set_put p.1 h = Ret (r, h') ∧ h_type h' = h_type h ∧
    ((r = - ENOMEM ∧ h' = h ∧ no_memory) ∨ ((0 ≤ r ∨ false = true) ∧ map_of h' (add_new (p.1, 0) L))).
Proof.
  intros M [Hov Hlt]%roomy_fits. destruct (set_put_ok h L p.1 M Hov) as (r & h' & E & Hr). exists r, h'. split; [done|]. unfold add_new. cbn [fst]. destruct (assoc p.1 L) as [q|].
  - destruct Hr as [-> ->]. split; [done|]. right. split; [by left|done].
  - rewrite decide_True by done. destruct Hr as [[Hf|(sz & Hf)]|h' M' Ht]; [done| |].
    + split; [done|]. left. split; [done|]. split; [done|]. by exists h, sz.
    + split; [done|]. right. split; [left; lia|done].
Qed.

Lemma in_order_length t L l : in_order t L l → length l = length L.
Proof. unfold in_order. case_decide; [intros ->; apply length_map|]. intros HP. by rewrite HP, length_map. Qed.

(** The entries that the iteration of the other map gives. *)
Lemma merge_ok h L other L' : map_of h L → map_of other L' → roomy (h_type h) (Z.of_nat (length L + length L')) →
  ∃ l r h' other', internal_hashmap_merge h other = Ret (r, h', other') ∧ in_order (h_type other) L' l ∧ merge_result L l r h' ∧ map_of other' L' ∧
    h_type h' = h_type h ∧ h_type other' = h_type other.
Proof.
  intros M M' Hr. unfold internal_hashmap_merge. destruct (entries_ok other L' M') as (l & o' & -> & Hl & Mo & Ht). cbn [mbind outcome_bind].
  destruct (merge_entries_ok (h_type h) (λ p, hashmap_put p.1 p.2) (λ r, r =? - EEXIST) id) with (l := l) (h := h) (L := L) as (r & h' & -> & Ht' & R); [|done|done|done| |].
  - intros h1 L1 p M1 Ht1 Hr1. rewrite <- Ht1 in *. by apply merge_put_ok.
  - by rewrite (in_order_length _ _ _ Hl).
  - rewrite map_id in R. cbn [mbind outcome_bind]. exists l, r, h', o'. done.
Qed.

Lemma set_merge_ok h L other L' : map_of h L → map_of other L' → roomy (h_type h) (Z.of_nat (length L + length L')) →
  ∃ l r h' other', set_merge h other = Ret (r, h', other') ∧ in_order (h_type other) L' l ∧ merge_result L (map (λ p, (p.1, 0)) l) r h' ∧ map_of other' L' ∧
    h_type h' = h_type h ∧ h_type other' = h_type other.
Proof.
  intros M M' Hr. unfold set_merge. destruct (entries_ok other L' M') as (l & o' & -> & Hl & Mo & Ht). cbn [mbind outcome_bind].
  destruct (merge_entries_ok (h_type h) (λ p, set_put p.1) (λ _, false) (λ p, (p.1, 0))) with (l := l) (h := h) (L := L) as (r & h' & -> & Ht' & R); [|done|done|done| |].
  - intros h1 L1 p M1 Ht1 Hr1. rewrite <- Ht1 in *. by apply merge_set_put_ok.
  - by rewrite (in_order_length _ _ _ Hl).
  - cbn [mbind outcome_bind]. exists l, r, h', o'. done.
Qed.

(** ** Copying *)

Lemma distinct_perm l L : l ≡ₚ L → distinct L → distinct l.
Proof.
  intros HP. induction HP as [|x l l' HP IH|x y l|l l' l'' _ IH1 _ IH2]; cbn; [done| | |auto].
  - intros [Hx D]. split; [|auto]. intros q Hq. apply Hx. by rewrite <- HP.
  - setoid_rewrite elem_of_cons. intros [Hx [Hy D]]. split; [|split; [|done]].
    + intros q [->|Hq]; [|auto]. intros E%compare_sym. apply (Hx y); [by left|done].
    + intros q Hq. auto.
Qed.

Lemma merged_distinct L l : distinct (L ++ l) → merged L l = L ++ l.
Proof.
  revert L. induction l as [|p l IH]; intros L D; cbn [merged]; [by rewrite app_nil_r|]. assert (add_new p L = L ++ [p]) as ->.
  { unfold add_new. rewrite decide_True; [done|]. apply assoc_None. intros q Hq E%compare_sym. rewrite distinct_app in D. destruct D as (_ & _ & D). apply (D q p); [done|left|done]. }
  rewrite IH by (by rewrite <- app_assoc). by rewrite <- app_assoc.
Qed.

Lemma distinct_keys (L L' : list (Z * Z)) : L.*1 = L'.*1 → distinct L → distinct L'.
Proof.
  revert L'. induction L as [|p L IH]; intros [|p' L'] E; try done. cbn in E. injection E as Ep E. intros [Hp D]. split; [|by apply IH].
  intros q Hq. rewrite <- Ep. assert (q.1 ∈ L.*1) as Hq1 by (rewrite E; by apply list_elem_of_fmap_2). apply list_elem_of_fmap in Hq1 as (q' & -> & Hq'). by apply Hp.
Qed.

(** What the copy has: the same keys and values, in the same order when the map is
    ordered; a set has no values. *)
Definition copy_of (t : HashmapType) (L l : list (Z * Z)) : Prop :=
  match t with HASHMAP_TYPE_ORDERED => l = L | HASHMAP_TYPE_PLAIN => l ≡ₚ L | HASHMAP_TYPE_SET => l.*1 ≡ₚ L.*1 end.

Lemma copy_ok h L : map_of h L → roomy (h_type h) (Z.of_nat (length L)) →
  ∃ c h', internal_hashmap_copy h = Ret (c, h') ∧ map_of h' L ∧ h_type h' = h_type h ∧
    match c with
    | Some copy => h_type copy = h_type h ∧ ∃ l, map_of copy l ∧ copy_of (h_type h) L l
    | None => no_memory
    end.
Proof.
  intros M Hr. unfold internal_hashmap_copy. pose proof (new_ok (h_type h)) as Mn. pose proof (mo_distinct _ _ M) as D. destruct (decide (h_type h = HASHMAP_TYPE_SET)) as [Hty|Hty].
  - destruct (set_merge_ok _ [] h L Mn M Hr) as (l & r & c & h' & -> & Hl & R & M' & Ht & Ht'). cbn [mbind outcome_bind]. eexists _, h'. split; [done|]. split; [done|]. split; [done|].
    destruct R as [c R|l1 l2 c El R Hf]; [|done]. split; [done|]. unfold in_order in Hl. rewrite Hty in *. rewrite decide_False in Hl by done. assert (map (λ p, (p.1, 0)) l ≡ₚ map (λ p, (p.1, 0)) L) as HP.
    { rewrite Hl, map_map. done. }
    rewrite merged_distinct in R.
    + eexists. split; [exact R|]. cbn. rewrite HP. apply reflexive_eq. clear. induction L as [|p L IH]; [done|]. cbn. by f_equal.
    + cbn. apply (distinct_perm _ _ HP). apply (distinct_keys L); [|done]. clear. induction L as [|p L IH]; [done|]. cbn. by f_equal.
  - destruct (merge_ok _ [] h L Mn M Hr) as (l & r & c & h' & -> & Hl & R & M' & Ht & Ht'). cbn [mbind outcome_bind]. eexists _, h'. split; [done|]. split; [done|]. split; [done|].
    assert (map (shown (h_type h)) L = L) as Es. { clear - Hty. induction L as [|p L IH]; [done|]. cbn. rewrite IH. unfold shown, value_of. rewrite decide_False by done. by destruct p. }
    unfold in_order in Hl. rewrite Es in Hl.
    destruct R as [c R|l1 l2 c El R Hf]; [|done]. split; [done|]. assert (l ≡ₚ L) as HP by (case_decide; [by rewrite Hl|done]). rewrite merged_distinct in R by (by apply (distinct_perm l L)).
    exists l. split; [done|]. destruct (h_type h); [done| |done]. exact Hl.
Qed.

Lemma get_strv_ok h L : map_of h L → ∃ l h', internal_hashmap_get_strv h = Ret (l.*2, h') ∧ in_order (h_type h) L l ∧ map_of h' L ∧ h_type h' = h_type h.
Proof. intros M. unfold internal_hashmap_get_strv. destruct (entries_ok h L M) as (l & h' & -> & Hl & M' & Ht). by exists l, h'. Qed.

(** ** Moving one entry *)

Lemma move_one_ok h L other L' k : map_of h L → map_of other L' → h_type other = h_type h → roomy (h_type h) (n_entries h + 1) →
  ∃ r h' other', internal_hashmap_move_one k h other = Ret (r, h', other') ∧
    match assoc k L, assoc k L' with
    | Some _, _ => r = - EEXIST ∧ h' = h ∧ other' = other
    | None, None => r = - ENOENT ∧ h' = h ∧ other' = other
    | None, Some p => (r = - ENOMEM ∧ h' = h ∧ other' = other ∧ no_memory) ∨ (r = 0 ∧ map_of h' (L ++ [p]) ∧ map_of other' (without k L'))
    end.
Proof.
  intros M M' Ht [Hov Hlt]%roomy_fits. unfold internal_hashmap_move_one.
  destruct (find_cases h L k M) as [r F]. destruct F as [i e Ea Ef Fi Eb Es Hi|Ea Ef]; rewrite Ef, Ea; cbn [mbind outcome_bind].
  { rewrite (proj2 (Z.eqb_neq i IDX_NIL)) by done. by eexists _, _, _. }
  change (IDX_NIL =? IDX_NIL) with true. cbn [negb]. rewrite bool_decide_eq_true_2 by done. cbn [assert_ lift mbind outcome_bind].
  destruct (find_cases other L' k M') as [r' F]. destruct F as [j n Ea' Ef' Fj Eb' Es' Hj|Ea' Ef']; rewrite Ef', Ea'; cbn [mbind outcome_bind]; [|by eexists _, _, _].
  rewrite (proj2 (Z.eqb_neq j IDX_NIL)) by done. rewrite Eb'. cbn [lift mbind outcome_bind].
  destruct (assoc_split k L' _ (mo_distinct _ _ M') Ea') as (_ & _ & _ & Ek & _). rewrite <- (home_same h (e_key n) k Ek).
  assert (assoc (e_key n) L = None) as Ean.
  { apply assoc_None. intros q Hq E. apply (proj1 (assoc_None k L) Ea q Hq). by apply (compare_trans _ (e_key n)). }
  destruct (put_boldly_ok h L (e_key n) (e_value n) M Ean Hov) as (r2 & h2 & -> & R). cbn [mbind outcome_bind]. destruct R as [[Hf|(sz & Hf)]|h2 M2 Ht2].
  - done.
  - eexists _, _, _. split; [done|]. left. split_and!; [done..|]. by exists h, sz.
  - change (1 <? 0) with false. destruct (remove_found other L' k j n M' Ea' Fj Es') as (o2 & q & -> & Mo & _). cbn [mbind outcome_bind].
    eexists _, _, _. split; [done|]. right. split; [done|]. split; [exact M2|done].
Qed.

End Ops.
