(* ===== verification/HashMapMove.v ===== *)
(** * systemd: moving the entries of a hash map

    [internal_hashmap_move] removes entries of the map it iterates over. The
    iterator finds the next entry although the removal may have shifted it one
    bucket back; every entry is moved unless its key is there already. *)

From S2P Require Import Prelude Outcome SipHash HashMap HashMapLinks HashMapProps HashMapInsert HashMapRemove HashMapResize HashMapSpec HashMapIter HashMapOps.

#[local] Open Scope Z_scope.
#[local] Set Warnings "-clear-no-such-hyp".
#[local] Ltac rlia := unfold real, IDX_PUT, IDX_TMP, IDX_SWAP_BEGIN, IDX_NIL, UINT32_MAX, DIB_RAW_REHASH, DIB_RAW_FREE, DIB_RAW_OVERFLOW in *; lia.

Section Move.
Context `{LawfulHash}.

(** ** Iterators in a map that changes *)

(** The iterator gives the buckets [B]; those of [A] are behind it. *)
Definition poised (o : HashmapBase) (X : list Z) (it : Iterator) (A B : list Z) : Prop :=
  visiting o X = A ++ B ∧ ∃ k o1, hashmap_iterate_entry o it = Ret (hd IDX_NIL B, iter_of o (tail B) k, o1) ∧ (o1 = o ∨ o1 = noted o).

Lemma poised_first o X L : steady o X L → poised o X ITERATOR_FIRST [] (visiting o X).
Proof. intros G. split; [done|]. exists 0, (noted o). split; [by apply (iterate_first o X L)|by right]. Qed.

Lemma poised_end o X k : poised o X (mk_iterator IDX_NIL k) (visiting o X) [].
Proof. split; [by rewrite app_nil_r|]. exists k, o. split; [apply iterate_end|by left]. Qed.

Lemma poised_near o X L A i B j : steady o X L → visiting o X = A ++ i :: B → real o j → (h_type o ≠ HASHMAP_TYPE_ORDERED → 0 < j) → near o i j →
  poised o X (mk_iterator j (key o i)) A (i :: B).
Proof. intros G EY Rj Hpos Hn. split; [done|]. exists (key o i), o. split; [by apply (iterate_next_ok o X L A)|by left]. Qed.

Lemma visited_real o X L i : steady o X L → i ∈ visiting o X → real o i ∧ full o i.
Proof.
  intros G Hi. rewrite (visiting_perm o X L G) in Hi. apply (steady_used o X L i G) in Hi. split; [|done]. apply (full_real o i); [apply (rh_table _ _ _ (s_rh _ _ _ G))|done].
Qed.

(** The entry stays. *)
Lemma keep_step o X L A i B k : steady o X L → visiting o X = A ++ i :: B → poised o X (iter_of o B k) (A ++ [i]) B.
Proof.
  intros G EY. destruct B as [|j B].
  - pose proof (poised_end o X k) as HP. by rewrite EY in HP.
  - assert (visiting o X = (A ++ [i]) ++ j :: B) as EY' by (by rewrite EY, <- app_assoc). apply (poised_near o X L _ j B j G EY'); [|by apply (visiting_later o X L (A ++ [i]) j B G EY'); destruct A|by left].
    apply (visited_real o X L j G). rewrite EY'. set_solver.
Qed.

(** The entry is removed. *)
Lemma drop_step o X L A i B p : map_of o L → steady o X L → (∀ q, q ∈ L → q.1 ≠ NULL) → visiting o X = A ++ i :: B → kv o i = Some p →
  ∃ o' X' q, base_remove_entry i o = Ret o' ∧ map_of o' (without p.1 L) ∧ steady o' X' (without p.1 L) ∧ frame o' = frame o ∧ removal i q o o' ∧
    match B with
    | [] => ∀ k, poised o' X' (iter_of o B k) (visiting o' X') []
    | j :: _ => ∃ i' A' B', near o' i' j ∧ kv o' i' = kv o j ∧ ∀ k, poised o' X' (iter_of o B k) A' (i' :: B')
    end.
Proof.
  intros M G Hnull EY Ei. assert (i ∈ visiting o X) as Hi by (rewrite EY; set_solver). destruct (visited_real o X L i G Hi) as [Ri Fi]. pose proof (rh_table _ _ _ (s_rh _ _ _ G)) as T.
  destruct (full_kv o L i M Fi) as (p' & Ep' & Hp & Ek). assert (p' = p) as -> by congruence.
  destruct (map_remove o L p.1 p i M (assoc_in L p (mo_distinct _ _ M) Hp) Fi Ei) as (o' & q & Er & M' & Ef & V). destruct (mo_steady _ _ M') as [X' G'].
  exists o', X', q. split; [done|]. split; [done|]. split; [done|]. split; [done|]. split; [done|]. destruct B as [|j B]; [intros k; apply poised_end|].
  assert (visiting o X = (A ++ [i]) ++ j :: B) as EY' by (by rewrite EY, <- app_assoc). assert (j ∈ visiting o X) as Hj by (rewrite EY'; set_solver). destruct (visited_real o X L j G Hj) as [Rj Fj].
  assert (j ≠ i) as Hne.
  { intros ->. assert (NoDup (visiting o X)) as N by (rewrite (visiting_perm o X L G); apply G). rewrite EY in N. apply NoDup_app in N as (_ & _ & [N _]%NoDup_cons). apply N. left. }
  destruct (full_kv o L j M Fj) as (pj & Epj & Hpj & Ekj). unfold kv in Epj. destruct (store o !! j) as [e|] eqn:Ee; [|done]. injection Epj as Epj.
  destruct (relocate_ok o o' _ i q j e M' Ef T V Fj Hne Ee) as (e1 & i' & e2 & B1 & Ei' & B2 & Ed & Fi' & Es2); [specialize (Hnull pj Hpj); by rewrite <- Epj in Hnull|].
  assert (key o' i' = key o j) as Ekk by (rewrite (key_at o' i' e2 Es2), (key_at o j e Ee); by injection Ed).
  assert (near o' i' j) as Hnear.
  { assert (e_key e1 = key o' j) as E1. { unfold bucket_at in B1. destruct (_ && _); [|done]. cbn in B1. by rewrite (key_at o' j e1 B1). }
    destruct (Z.eqb_spec (e_key e) (e_key e1)) as [Ee1|Hee]; [by left|]. right. split; [done|]. rewrite Ekk, (key_at o j e Ee), <- E1. done. }
  assert (i' ∈ visiting o' X') as Hv by (rewrite (visiting_perm o' X' _ G'); by apply (steady_used o' X' _ i' G')). apply list_elem_of_split in Hv as (A' & B' & EV).
  exists i', A', B'. split; [done|]. split; [by rewrite (entry_kv o' i' e2 Es2), (entry_kv o j e Ee), Ed|]. intros k. cbn [iter_of]. rewrite <- Ekk.
  apply (poised_near o' X' (without p.1 L)); [done|done|by apply (frame_real o o' j Ef)| |done]. rewrite (frame_type o o' Ef). apply (visiting_later o X L (A ++ [i]) j B G EY'). by destruct A.
Qed.

(** The next entry, in the map as the iteration leaves it. *)
Lemma poised_step o X L it A i B : map_of o L → steady o X L → poised o X it A (i :: B) →
  ∃ k o1 e, hashmap_iterate_entry o it = Ret (i, iter_of o1 B k, o1) ∧ map_of o1 L ∧ steady o1 X L ∧ frame o1 = frame o ∧ visiting o1 X = A ++ i :: B ∧
    (∀ j, kv o1 j = kv o j) ∧ bucket_at o1 i = Some e ∧ kv o1 i = Some (data e) ∧ data e ∈ L ∧ i ≠ IDX_NIL.
Proof.
  intros M G [EY (k & o1 & Ei & Ho)]. assert (map_of o1 L ∧ steady o1 X L ∧ frame o1 = frame o ∧ visiting o1 X = A ++ i :: B ∧ (∀ j, kv o1 j = kv o j) ∧ iter_of o1 B k = iter_of o B k) as (M1 & G1 & Ef & EY1 & EK & EI).
  { destruct Ho as [->| ->]; [done|]. split; [by apply noted_map|]. split; [by apply noted_steady|]. split; [apply noted_same|]. split; [by rewrite noted_visiting|].
    split; [intros j; unfold kv; by rewrite (proj1 (noted_same o))|apply noted_iter]. }
  assert (i ∈ X) as Hi by (rewrite <- (visiting_perm o1 X L G1), EY1; set_solver). destruct (read_bucket o1 X L i G1 Hi) as (e & Eb & Es & _ & Hn).
  exists k, o1, e. cbn [hd tail] in Ei. rewrite EI. split_and!; try done; [by apply entry_kv|]. destruct (full_kv o1 L i M1 (proj1 (steady_used o1 X L i G1) Hi)) as (p & Ep & Hp & _).
  rewrite (entry_kv o1 i e Es) in Ep. by injection Ep as ->.
Qed.

Lemma move_loop_keep n it h o i it' o1 e Lh : map_of h Lh → hashmap_iterate_entry o it = Ret (i, it', o1) → i ≠ IDX_NIL → bucket_at o1 i = Some e → assoc (e_key e) Lh ≠ None →
  move_loop (S n) it h o = move_loop n it' h o1.
Proof.
  intros M Ei Hi Eb Ha. cbn [move_loop]. rewrite Ei. cbn [mbind outcome_bind]. rewrite (proj2 (Z.eqb_neq i IDX_NIL)) by done. rewrite Eb. cbn [lift mbind outcome_bind].
  destruct (find_cases h Lh (e_key e) M) as [r F]. destruct F as [j ej Ea Ef Fj Ebj Esj Hj|Ea Ef]; [|done]. rewrite Ef. cbn [mbind outcome_bind]. by rewrite (proj2 (Z.eqb_neq j IDX_NIL)) by done.
Qed.

Lemma move_loop_take n it h o i it' o1 o2 e Lh : map_of h Lh → hashmap_iterate_entry o it = Ret (i, it', o1) → i ≠ IDX_NIL → bucket_at o1 i = Some e → assoc (e_key e) Lh = None →
  n_entries h < n_buckets h → base_remove_entry i o1 = Ret o2 →
  ∃ h', move_loop (S n) it h o = move_loop n it' h' o2 ∧ map_of h' (Lh ++ [data e]) ∧ frame h' = frame h.
Proof.
  intros M Ei Hi Eb Ha Hlt Er. cbn [move_loop]. rewrite Ei. cbn [mbind outcome_bind]. rewrite (proj2 (Z.eqb_neq i IDX_NIL)) by done. rewrite Eb. cbn [lift mbind outcome_bind].
  rewrite (find_none h Lh (e_key e) M Ha). cbn [mbind outcome_bind]. change (IDX_NIL =? IDX_NIL) with true. cbn [negb].
  destruct (put_reserved_ok h Lh (e_key e) (e_value e) M Ha Hlt) as (h' & -> & M' & Ef). cbn [mbind outcome_bind]. change (1 =? 1) with true. cbn [assert_ lift mbind outcome_bind].
  rewrite Er. cbn [mbind outcome_bind]. by exists h'.
Qed.

Lemma move_loop_end n it h o X A : poised o X it A [] → ∃ o', move_loop (S n) it h o = Ret (h, o') ∧ (o' = o ∨ o' = noted o).
Proof. intros [_ (k & o1 & Ei & Ho)]. exists o1. split; [|done]. cbn [move_loop]. rewrite Ei. done. Qed.

(** ** What is moved *)

(** The entries whose keys are not in the other list, and those whose are. *)
Definition news (L l : list (Z * Z)) : list (Z * Z) := filter (λ p, assoc p.1 L = None) l.
Definition dups (L l : list (Z * Z)) : list (Z * Z) := filter (λ p, assoc p.1 L ≠ None) l.

Lemma assoc_append k A B : assoc k (A ++ B) = match assoc k A with Some p => Some p | None => assoc k B end.
Proof. induction A as [|p A IH]; [done|]. cbn. by case_decide. Qed.

(** The map that entries [M] were moved to, and the others [Lc]. *)
Definition apart (M Lc : list (Z * Z)) : Prop := ∀ m p, m ∈ M → p ∈ Lc → compare_func m.1 p.1 ≠ 0.

Lemma assoc_apart L M Lc p : apart M Lc → p ∈ Lc → assoc p.1 (L ++ M) = assoc p.1 L.
Proof. intros HA Hp. rewrite assoc_append. destruct (assoc p.1 L); [done|]. apply assoc_None. intros m Hm. by apply HA. Qed.

Lemma apart_take M Lc p : distinct Lc → apart M Lc → p ∈ Lc → apart (M ++ [p]) (without p.1 Lc).
Proof.
  intros D HA Hp m r [Hm| ->%list_elem_of_singleton]%elem_of_app [Hr Hin]%list_elem_of_filter; [by apply HA|]. intros E. apply Hr. by apply compare_sym.
Qed.

Lemma news_take L Lc p : distinct Lc → p ∈ Lc → assoc p.1 L = None → ∃ A B, Lc = A ++ p :: B ∧ without p.1 Lc = A ++ B ∧ news L Lc = news L A ++ p :: news L B ∧ dups L Lc = dups L (A ++ B).
Proof.
  intros D Hp Ha. destruct (assoc_split p.1 Lc p D (assoc_in Lc p D Hp)) as (A & B & EL & Ep & HAB). exists A, B. split; [done|]. rewrite EL, without_split by done. split; [done|].
  unfold news, dups. rewrite !filter_app, filter_cons_True, filter_cons_False by naive_solver. done.
Qed.

(** ** Ordered maps *)

Lemma visiting_entries o X Lo A B D R : steady o X Lo → h_type o = HASHMAP_TYPE_ORDERED → visiting o X = A ++ B → Lo = D ++ R → length A = length D →
  Forall2 (λ i p, kv o i = Some p) B R.
Proof.
  intros G Hty EX EL Hlen. unfold visiting in EX. rewrite decide_True in EX by done. pose proof (li_kv _ _ _ (rh_listing _ _ _ (s_rh _ _ _ G))) as F. rewrite EX, EL in F.
  by apply Forall2_app_inv in F as [_ F].
Qed.

Lemma position o X Lo A i B D r R : map_of o Lo → steady o X Lo → h_type o = HASHMAP_TYPE_ORDERED → visiting o X = A ++ i :: B → kv o i = Some r → Lo = D ++ r :: R → length A = length D.
Proof.
  intros M G Hty EX Ei EL. unfold visiting in EX. rewrite decide_True in EX by done. pose proof (li_kv _ _ _ (rh_listing _ _ _ (s_rh _ _ _ G))) as F.
  assert (X !! length A = Some i) as Ex by (rewrite EX; by apply list_lookup_middle). destruct (Forall2_lookup_l _ _ _ _ _ F Ex) as (r' & Er & Hr). assert (r' = r) as -> by (cbn in Hr; congruence).
  apply (distinct_lookup Lo _ _ r r (mo_distinct _ _ M) Er); [rewrite EL; by apply list_lookup_middle|apply compare_refl].
Qed.

Lemma move_ordered L n R D M h o X A B it : h_type o = HASHMAP_TYPE_ORDERED → map_of o (D ++ R) → steady o X (D ++ R) → poised o X it A B → length A = length D →
  (∀ q, q ∈ D ++ R → q.1 ≠ NULL) → map_of h (L ++ M) → apart M (D ++ R) → Z.of_nat (length (L ++ M) + length R) ≤ n_buckets h → (length R < n)%nat →
  ∃ h' o', move_loop n it h o = Ret (h', o') ∧ map_of h' (L ++ M ++ news L R) ∧ map_of o' (D ++ dups L R) ∧ frame h' = frame h ∧ frame o' = frame o.
Proof.
  revert n D M h o X A B it. induction R as [|p R IH]; intros n D M h o X A B it Hty Mo Go HP Hlen Hnull Mh Hap Hroom Hn; (destruct n as [|n]; [cbn [length] in Hn; lia|]); pose proof HP as [EX _];
    pose proof (visiting_entries o X _ A B D _ Go Hty EX eq_refl Hlen) as F.
  - apply Forall2_nil_inv_r in F as ->. destruct (move_loop_end n it h o X A HP) as (o' & -> & Ho). exists h, o'. split; [done|]. cbn. rewrite !app_nil_r in *. split; [done|].
    destruct Ho as [->| ->]; [done|]. split; [by apply noted_map|]. split; [done|apply noted_same].
  - apply Forall2_cons_inv_r in F as (i & B' & Ei & F & ->). destruct (poised_step o X _ it A i B' Mo Go HP) as (k & o1 & e & Eit & M1 & G1 & Ef1 & EX1 & EK & Eb & Ee & _ & Hi).
    assert (data e = p) as Ep by (rewrite EK, Ei in Ee; by injection Ee). assert (p ∈ D ++ p :: R) as Hp by set_solver.
    assert (h_type o1 = HASHMAP_TYPE_ORDERED) as Hty1 by (rewrite <- Hty; by apply frame_type). assert (e_key e = p.1) as Ekey by (by rewrite <- Ep).
    pose proof (assoc_apart L M _ p Hap Hp) as Ea. cbn [length] in *. destruct (decide (assoc p.1 L = None)) as [Hnew|Hdup].
    + assert (without p.1 (D ++ p :: R) = D ++ R) as EW.
      { destruct (news_take L _ p (mo_distinct _ _ Mo) Hp Hnew) as (A0 & B0 & E0 & -> & _). by destruct (distinct_split _ _ _ _ _ p (mo_distinct _ _ Mo) eq_refl E0) as [-> ->]. }
      destruct (drop_step o1 X _ A i B' p M1 G1 Hnull EX1) as (o2 & X2 & q & Er & M2 & G2 & Ef2 & V & HB); [by rewrite EK|]. rewrite EW in M2, G2.
      destruct (move_loop_take n it h o i _ o1 o2 e (L ++ M) Mh Eit Hi Eb) as (h1 & Eloop & Mh1 & Efh); [by rewrite Ekey, Ea|rewrite (mo_count _ _ Mh); lia|done|]. rewrite Eloop, Ep in *.
      assert (h_type o2 = HASHMAP_TYPE_ORDERED) as Hty2 by (rewrite <- Hty1; by apply frame_type).
      assert (∃ A2 B2, poised o2 X2 (iter_of o1 B' k) A2 B2 ∧ length A2 = length D) as (A2 & B2 & HP2 & Hlen2).
      { destruct F as [|j r B' R' Ej F].
        - eexists _, []. split; [apply HB|]. unfold visiting. rewrite decide_True by done. rewrite (listing_length o2 X2 _ (rh_listing _ _ _ (s_rh _ _ _ G2))), app_nil_r. done.
        - destruct HB as (i' & A' & B2 & _ & Ei' & HP2). exists A', (i' :: B2). split; [apply HP2|].
          apply (position o2 X2 _ A' i' B2 D r R' M2 G2 Hty2); [apply (HP2 0)|by rewrite Ei', EK|done]. }
      rewrite <- app_assoc in Mh1. destruct (IH n D (M ++ [p]) h1 o2 X2 A2 B2 (iter_of o1 B' k)) as (h' & o' & E' & Mh' & Mo' & Efh' & Efo'); try done.
      * intros r Hr. apply Hnull. set_solver.
      * rewrite <- EW. apply apart_take; [apply Mo|done|done].
      * rewrite (frame_n h h1 Efh). rewrite !length_app in *. cbn. lia.
      * lia.
      * exists h', o'. split; [done|]. unfold news, dups. rewrite filter_cons_True, filter_cons_False by (done || naive_solver). fold (news L R) (dups L R). rewrite <- app_assoc in Mh'. split_and!; [done|done|congruence|congruence].
    + rewrite (move_loop_keep n it h o i _ o1 e (L ++ M) Mh Eit Hi Eb) by (by rewrite Ekey, Ea). pose proof (keep_step o1 X _ A i B' k G1 EX1) as HP1.
      rewrite (cons_middle p D R) in *. rewrite (app_assoc D [p] R) in *.
      destruct (IH n (D ++ [p]) M h o1 X (A ++ [i]) B' (iter_of o1 B' k)) as (h' & o' & E' & Mh' & Mo' & Efh' & Efo'); try done.
      * rewrite !length_app. cbn. lia.
      * lia.
      * lia.
      * exists h', o'. split; [done|]. unfold news, dups. rewrite filter_cons_False, filter_cons_True by (done || naive_solver). fold (news L R) (dups L R). rewrite <- app_assoc in Mo'. split_and!; [done|done|done|congruence].
Qed.

(** ** Plain maps and sets *)

(** Where an entry was before a removal. *)
Lemma removal_back o o' L i q p a r : map_of o L → map_of o' (without p.1 L) → frame o' = frame o → removal i q o o' → full o i → kv o i = Some p → full o' a → kv o' a = Some r →
  ∃ c, full o c ∧ kv o c = Some r ∧ c ≠ i ∧ (a = c ∨ next_idx o a = c).
Proof.
  intros M M' Ef V Fi Ei Fa Ea. destruct (full_kv o' _ a M' Fa) as (r' & Er & Hr & Ka). assert (r' = r) as -> by congruence. apply list_elem_of_filter in Hr as [Hrp Hr].
  pose proof (map_table o L M) as T. destruct (find_some o L r.1 r M (assoc_in L r (mo_distinct _ _ M) Hr)) as (c & _ & Fc & Ec). exists c. split; [done|]. split; [done|].
  assert (c ≠ i) as Hci by (intros ->; rewrite Ei in Ec; injection Ec as ->; apply Hrp, compare_refl). split; [done|].
  assert (∀ b, full o' b → kv o' b = kv o c → a = b) as Hu.
  { intros b Fb Eb. apply (full_unique o' _ a b M' Fa Fb). rewrite Ka. unfold key. rewrite Eb, Ec. apply compare_refl. }
  destruct (rm_entry _ _ _ _ V c Fc Hci) as [[Hq Ek]|Hp].
  - left. apply Hu; [|done]. by apply (rm_used _ _ _ _ V).
  - right. destruct (prev_next o c T (full_real o c T Fc)) as [Rp Np]. destruct (Hp (prev_idx o c) Rp Np) as (_ & Fp & Ek). by rewrite (Hu _ Fp Ek).
Qed.

Lemma used_from_sorted h n A i B : used_from h n = A ++ i :: B → ∀ a, a ∈ A → a < i.
Proof.
  intros E a (A1 & A2 & ->)%list_elem_of_split. rewrite <- app_assoc in E. cbn in E. pose proof (used_from_suffix h n A1 a (A2 ++ i :: B) E) as (_ & _ & E2 & _).
  pose proof (used_from_suffix h (a + 1) A2 i B (eq_sym E2)) as (_ & Hi & _). lia.
Qed.

(** The keys of the entries that were visited and stay are in the other map. *)
Definition settled (L : list (Z * Z)) (o : HashmapBase) (A : list Z) : Prop := ∀ a p, a ∈ A → kv o a = Some p → assoc p.1 L ≠ None.

Section Drop.
Context (L Lc : list (Z * Z)) (o o' : HashmapBase) (X X' : list Z) (A B : list Z) (i q : Z) (p : Z * Z).
Context (Hty : h_type o ≠ HASHMAP_TYPE_ORDERED) (M : map_of o Lc) (G : steady o X Lc) (M' : map_of o' (without p.1 Lc)) (G' : steady o' X' (without p.1 Lc)).
Context (Ef : frame o' = frame o) (V : removal i q o o') (Ei : kv o i = Some p) (HS : settled L o A).

Lemma settled_last : visiting o X = A ++ [i] → settled L o' (visiting o' X').
Proof.
  intros EX a r Ha Ea. destruct (visited_real o' X' _ a G' Ha) as [_ Fa]. assert (full o i) as Fi by (apply (visited_real o X Lc i G); rewrite EX; set_solver).
  destruct (removal_back o o' Lc i q p a r M M' Ef V Fi Ei Fa Ea) as (c & Fc & Ec & Hci & _). apply (HS c r); [|done].
  assert (c ∈ visiting o X) as Hc by (rewrite (visiting_perm o X Lc G); by apply (steady_used o X Lc c G)). rewrite EX in Hc. set_solver.
Qed.

Lemma settled_next j i' A' B' : visiting o X = A ++ i :: j :: B → visiting o' X' = A' ++ i' :: B' → near o' i' j → kv o' i' = kv o j →
  settled L o' A' ∧ (length (i' :: B') ≤ length (i :: j :: B))%nat.
Proof.
  unfold visiting. rewrite (frame_type o o' Ef), !decide_False by done. intros EX EX' Hnear Ek. pose proof (map_table o Lc M) as T. pose proof (map_table o' _ M') as T'. pose proof (t_n o T) as Hn.
  pose proof (used_from_suffix o 0 A i (j :: B) EX) as (Oi & Hi & EB & _). pose proof (used_from_suffix o (i + 1) [] j B (eq_sym EB)) as (Oj & Hj & _).
  pose proof (used_from_suffix o' 0 A' i' B' EX') as (Oi' & Hi' & EB' & _). assert (∀ b, occupied o b = true ↔ full o b) as HO by (intros b; apply occupied_full; [apply T|apply G]).
  assert (∀ b, occupied o' b = true ↔ full o' b) as HO' by (intros b; apply occupied_full; [apply T'|apply G']).
  assert (j - 1 ≤ i' ≤ j) as Hij. { destruct Hnear as [->|[Ep _]]; [lia|]. unfold prev_idx in Ep. rewrite (frame_n o o' Ef) in Ep.
    replace (n_buckets o + j - 1) with (j - 1 + 1 * n_buckets o) in Ep by lia. rewrite Z_mod_plus_full, Z.mod_small in Ep by lia. lia. }
  split.
  - intros a r Ha Ea. assert (full o' a) as Fa. { apply (used_from_elem o' 0 a); [apply T'|apply G'|]. rewrite EX'. set_solver. }
    pose proof (used_from_sorted o' 0 A' i' B' EX' a Ha) as Hai. assert (full o i) as Fi by (by apply HO).
    destruct (removal_back o o' Lc i q p a r M M' Ef V Fi Ei Fa Ea) as (c & Fc & Ec & Hci & Hac). assert (c ∈ used_from o 0) as Hc.
    { apply (used_from_elem o 0 c); [apply T|apply G|]. split; [|done]. apply (full_real o c T) in Fc. rlia. }
    rewrite EX in Hc. apply elem_of_app in Hc as [Hc|[->|[->|Hc]%elem_of_cons]%elem_of_cons]; [by apply (HS c r)|done| |].
    + assert (a = i') as ->; [|lia]. apply (full_unique o' _ a i' M' Fa); [by apply HO'|]. unfold key. rewrite Ea, Ek, Ec. apply compare_refl.
    + assert (j < c) as Hjc. { pose proof (used_from_suffix o (i + 1) [] j B (eq_sym EB)) as (_ & _ & E3 & _).
        rewrite E3 in Hc. apply (used_from_elem o (j + 1) c) in Hc as [Hc _]; [lia|apply T|apply G]. }
      destruct Hac as [->|Hac]; [lia|]. pose proof (full_real o' a T' Fa) as Ra. apply (frame_real o o' a Ef) in Ra. unfold next_idx in Hac.
      destruct (decide (a + 1 = n_buckets o)) as [En|En]; [rewrite En, Z_mod_same_full in Hac; lia|]. rewrite Z.mod_small in Hac by rlia. lia.
  - assert (i' :: B' = used_from o' i') as -> by (rewrite used_from_step, Oi', <- EB' by lia; done). assert (i :: j :: B = used_from o i) as -> by (rewrite used_from_step, Oi, <- EB by lia; done).
    apply submseteq_length, NoDup_submseteq; [apply NoDup_filter, NoDup_seqZ|]. intros b [Hb Fb]%(used_from_elem o' i' b); [|apply T'|apply G'].
    apply (used_from_elem o i b); [apply T|apply G|]. split; [lia|]. by apply (rm_used _ _ _ _ V).
Qed.

End Drop.

Lemma settled_all L Lc o X : map_of o Lc → steady o X Lc → settled L o (visiting o X) → news L Lc = [] ∧ dups L Lc = Lc.
Proof.
  intros M G HS. assert (∀ p, p ∈ Lc → assoc p.1 L ≠ None) as Hall.
  { intros p Hp. destruct (find_some o Lc p.1 p M (assoc_in Lc p (mo_distinct _ _ M) Hp)) as (c & _ & Fc & Ec). apply (HS c p); [|done].
    rewrite (visiting_perm o X Lc G). by apply (steady_used o X Lc c G). }
  clear - Hall. unfold news, dups. induction Lc as [|p l IH]; [done|]. destruct IH as [E1 E2]; [intros q Hq; apply Hall; by right|].
  specialize (Hall p (list_elem_of_here p l)). rewrite filter_cons_False, filter_cons_True, E1, E2 by done. done.
Qed.

Lemma move_internal L n Lc M h o X A B it : h_type o ≠ HASHMAP_TYPE_ORDERED → map_of o Lc → steady o X Lc → poised o X it A B → settled L o A →
  (∀ q, q ∈ Lc → q.1 ≠ NULL) → map_of h (L ++ M) → apart M Lc → Z.of_nat (length (L ++ M) + length (news L Lc)) ≤ n_buckets h → (length Lc + length B < n)%nat →
  ∃ h' o' N, move_loop n it h o = Ret (h', o') ∧ N ≡ₚ news L Lc ∧ map_of h' (L ++ M ++ N) ∧ map_of o' (dups L Lc) ∧ frame h' = frame h ∧ frame o' = frame o.
Proof.
  revert Lc M h o X A B it. induction n as [|n IH]; intros Lc M h o X A B it Hty Mo Go HP HS Hnull Mh Hap Hroom Hn; [lia|]. pose proof HP as [EX _]. destruct B as [|i B].
  - rewrite app_nil_r in EX. rewrite <- EX in HS. destruct (settled_all L Lc o X Mo Go HS) as [-> ->]. destruct (move_loop_end n it h o X A HP) as (o' & -> & Ho). exists h, o', [].
    rewrite app_nil_r. split_and!; [done|done|done|destruct Ho as [->| ->]; [done|by apply noted_map]|done|destruct Ho as [->| ->]; [done|apply noted_same]].
  - destruct (poised_step o X _ it A i B Mo Go HP) as (k & o1 & e & Eit & M1 & G1 & Ef1 & EX1 & EK & Eb & Ee & Hp & Hi). set (p := data e) in *.
    assert (h_type o1 ≠ HASHMAP_TYPE_ORDERED) as Hty1 by (by rewrite (frame_type o o1 Ef1)). assert (settled L o1 A) as HS1 by (intros a r Ha Er; rewrite EK in Er; by apply (HS a r)).
    pose proof (assoc_apart L M _ p Hap Hp) as Ea. cbn [length] in *. destruct (decide (assoc p.1 L = None)) as [Hnew|Hdup].
    + destruct (news_take L Lc p (mo_distinct _ _ Mo) Hp Hnew) as (LA & LB & EL & EW & En & Ed). destruct (drop_step o1 X _ A i B p M1 G1 Hnull EX1 Ee) as (o2 & X2 & q & Er & M2 & G2 & Ef2 & V & HB).
      assert (news L (LA ++ LB) = news L LA ++ news L LB) as Enn by apply filter_app. rewrite En, !length_app in Hroom. cbn [length] in Hroom.
      destruct (move_loop_take n it h o i _ o1 o2 e (L ++ M) Mh Eit Hi Eb) as (h1 & Eloop & Mh1 & Efh); [exact (eq_trans Ea Hnew)|rewrite (mo_count _ _ Mh), length_app; lia|done|]. rewrite Eloop.
      assert (∃ A2 B2, poised o2 X2 (iter_of o1 B k) A2 B2 ∧ settled L o2 A2 ∧ (length B2 ≤ S (length B))%nat) as (A2 & B2 & HP2 & HS2 & Hlen2).
      { destruct B as [|j B].
        - eexists _, []. split; [apply HB|]. split; [|cbn; lia]. by apply (settled_last L Lc o1 o2 X X2 A i q p).
        - destruct HB as (i' & A' & B' & Hnear & Ei' & HP2). exists A', (i' :: B'). split; [apply HP2|].
          by apply (settled_next L Lc o1 o2 X X2 A B i q p Hty1 M1 G1 M2 G2 Ef2 V Ee HS1 j i' A' B' EX1 (proj1 (HP2 0)) Hnear Ei'). }
      pose proof (without_shorter p.1 Lc p (mo_distinct _ _ Mo) (assoc_in Lc p (mo_distinct _ _ Mo) Hp)) as Hsh. rewrite <- app_assoc in Mh1.
      destruct (IH (without p.1 Lc) (M ++ [p]) h1 o2 X2 A2 B2 (iter_of o1 B k)) as (h' & o' & N & E' & HN & Mh' & Mo' & Efh' & Efo'); try done.
      * by rewrite (frame_type o1 o2 Ef2).
      * intros r [_ Hr]%list_elem_of_filter. auto.
      * apply apart_take; [apply Mo|done|done].
      * rewrite (frame_n h h1 Efh), EW, Enn. rewrite !length_app in *. cbn. lia.
      * lia.
      * exists h', o', (p :: N). rewrite EW in *. rewrite En, Ed. rewrite Enn in HN. rewrite <- app_assoc in Mh'.
        split_and!; [done|rewrite HN; by apply Permutation_middle|done|done|congruence|congruence].
    + rewrite (move_loop_keep n it h o i _ o1 e (L ++ M) Mh Eit Hi Eb) by (intros E0; apply Hdup; by rewrite <- Ea). pose proof (keep_step o1 X _ A i B k G1 EX1) as HP1.
      destruct (IH Lc M h o1 X (A ++ [i]) B (iter_of o1 B k)) as (h' & o' & N & E' & HN & Mh' & Mo' & Efh' & Efo'); try done.
      * intros a r [Ha| ->%list_elem_of_singleton]%elem_of_app Er; [by apply (HS1 a r)|]. rewrite Ee in Er. by injection Er as <-.
      * lia.
      * exists h', o', N. split_and!; [done..|congruence].
Qed.

(** ** The whole operation *)

Lemma map_move_ok h L o Lo : map_of h L → map_of o Lo → h_type o = h_type h → (∀ q, q ∈ Lo → q.1 ≠ NULL) → roomy (h_type h) (Z.of_nat (length L + length Lo)) →
  ∃ r h' o', internal_hashmap_move h o = Ret (r, h', o') ∧ h_type h' = h_type h ∧ h_type o' = h_type o ∧
    ((r = - ENOMEM ∧ h' = h ∧ o' = o ∧ no_memory) ∨
     (r = 0 ∧ map_of o' (dups L Lo) ∧ ∃ N, N ≡ₚ news L Lo ∧ (h_type h = HASHMAP_TYPE_ORDERED → N = news L Lo) ∧ map_of h' (L ++ N))).
Proof.
  intros M Mo Ht Hnull Hr. unfold internal_hashmap_move. rewrite bool_decide_eq_true_2 by done. cbn [assert_ lift mbind outcome_bind]. rewrite Nat2Z.inj_add, <- (mo_count _ _ M), <- (mo_count _ _ Mo) in Hr.
  pose proof (mo_count _ _ Mo) as Hco. pose proof Mo as [[X G] _ _]. pose proof (entries_fit o X Lo G) as Hfit. pose proof (t_n o (map_table o Lo Mo)) as Hb.
  destruct (roomy_fits _ _ Hr) as [Hov Hlt]. destruct (map_resize h L (n_entries o) M ltac:(rlia) Hov) as (r & h1 & -> & M1 & R). cbn [mbind outcome_bind].
  assert (r = - ENOMEM ∧ h1 = h ∧ no_memory ∨ 0 ≤ r ∧ h_type h1 = h_type h ∧ Z.of_nat (length L) + n_entries o ≤ n_buckets h1) as [(-> & -> & Hf)|(Hr0 & Ht1 & Hroom)].
  { rewrite <- (mo_count _ _ M). destruct R as [[Hf|(sz & Hf)]|Hle|h1 Hi Hb' Hle Ht1 Hc1 Hd1]; [done|left; split; [done|]; split; [done|]; by exists h, sz|right; split; [lia|done]|right; split; [lia|done]]. }
  { change (- ENOMEM <? 0) with true. eexists _, _, _. split; [done|]. split; [done|]. split; [done|]. by left. }
  rewrite (proj2 (Z.ltb_ge r 0)) by done. rewrite <- (app_nil_r L) in M1 at 1. pose proof (poised_first o X Lo G) as HP.
  assert (apart [] Lo) as Hap by (by intros m p ?%not_elem_of_nil). pose proof (length_filter (λ p, assoc p.1 L = None) Lo : (length (news L Lo) ≤ length Lo)%nat) as Hlf.
  destruct (decide (h_type h = HASHMAP_TYPE_ORDERED)) as [Hty|Hty].
  - destruct (move_ordered L (2 * fuel_of o) Lo [] [] h1 o X [] (visiting o X) ITERATOR_FIRST) as (h' & o' & -> & Mh' & Mo' & Efh & Efo); try done.
    + congruence.
    + rewrite app_nil_r. lia.
    + unfold fuel_of. lia.
    + cbn [mbind outcome_bind]. eexists _, _, _. split; [done|]. split; [rewrite <- Ht1; by apply frame_type|]. split; [by apply frame_type|]. right. split; [done|]. split; [done|]. by exists (news L Lo).
  - destruct (move_internal L (2 * fuel_of o) Lo [] h1 o X [] (visiting o X) ITERATOR_FIRST) as (h' & o' & N & -> & HN & Mh' & Mo' & Efh & Efo); try done.
    + congruence.
    + by intros a p ?%not_elem_of_nil.
    + rewrite app_nil_r. lia.
    + rewrite (Permutation_length (visiting_perm o X Lo G)), (listing_length o X Lo) by apply G. unfold fuel_of. lia.
    + cbn [mbind outcome_bind]. eexists _, _, _. split; [done|]. split; [rewrite <- Ht1; by apply frame_type|]. split; [by apply frame_type|]. right. split; [done|]. split; [done|]. by exists N.
Qed.

End Move.
