(* ===== verification/HashMapSystem.v ===== *)
(** * systemd: hash maps as seen by their users

    Any sequence of operations on a new map gives the results that the list of its
    keys and values gives, and ends without a failed assertion. *)

From S2P Require Import Prelude Outcome SipHash HashMap HashMapLinks HashMapProps HashMapInsert HashMapRemove HashMapResize HashMapSpec HashMapIter HashMapOps HashMapMove.

#[local] Open Scope Z_scope.
#[local] Set Warnings "-clear-no-such-hyp".

(** ** Calls and their results *)

Inductive call :=
  | Put (k v : Z) | SetPut (k : Z) | Replace (k v : Z) | Update (k v : Z) | Get (k : Z) | Get2 (k : Z) | Contains (k : Z) | Next (k : Z)
  | Remove (k : Z) | Remove2 (k : Z) | RemoveValue (k v : Z) | RemoveAndPut (old new v : Z) | RemoveAndReplace (old new v : Z)
  | First (remove : bool) | Size | Reserve (n : Z) | Iterate | GetStrv | Clear.

Inductive result := RInt (z : Z) | RBool (b : bool) | RPair (value key : Z) | RFound (value : Z) (key : option Z) | RList (l : list (Z * Z)) | RStrv (l : list Z) | RVoid.

Section System.
Context `{LawfulHash}.

(** A call that takes a pointer gives it back. *)
Definition with_map {A} (f : A → result) (m : outcome (A * option HashmapBase)) : outcome (result * HashmapBase) :=
  '(r, h) ← m; h ←! h; Ret (f r, h).

Definition run_call (c : call) (h : HashmapBase) : outcome (result * HashmapBase) :=
  match c with
  | Put k v => '(r, h) ← hashmap_put k v h; Ret (RInt r, h)
  | SetPut k => '(r, h) ← set_put k h; Ret (RInt r, h)
  | Replace k v => '(r, h) ← hashmap_replace k v h; Ret (RInt r, h)
  | Update k v => '(r, h) ← hashmap_update k v h; Ret (RInt r, h)
  | Get k => v ← internal_hashmap_get (Some h) k; Ret (RInt v, h)
  | Get2 k => '(v, k) ← hashmap_get2 (Some h) k; Ret (RFound v k, h)
  | Contains k => b ← internal_hashmap_contains (Some h) k; Ret (RBool b, h)
  | Next k => v ← ordered_hashmap_next (Some h) k; Ret (RInt v, h)
  | Remove k => with_map RInt (internal_hashmap_remove (Some h) k)
  | Remove2 k => with_map (λ r, RPair r.1 r.2) (hashmap_remove2 (Some h) k)
  | RemoveValue k v => with_map RInt (internal_hashmap_remove_value (Some h) k v)
  | RemoveAndPut old new v => with_map RInt (hashmap_remove_and_put old new v (Some h))
  | RemoveAndReplace old new v => with_map RInt (hashmap_remove_and_replace old new v (Some h))
  | First remove => with_map (λ r, RPair r.1 r.2) (internal_hashmap_first_key_and_value remove (Some h))
  | Size => Ret (RInt (internal_hashmap_size (Some h)), h)
  | Reserve n => '(r, h) ← internal_hashmap_reserve n h; Ret (RInt r, h)
  | Iterate => '(l, h) ← hashmap_entries h; Ret (RList l, h)
  | GetStrv => '(l, h) ← internal_hashmap_get_strv h; Ret (RStrv l, h)
  | Clear => Ret (RVoid, internal_hashmap_clear h)
  end.

(** The table of the map [h] cannot be made larger. *)
Definition no_memory_for (h : HashmapBase) : Prop := ∃ size, realloc_ok h size = false.

(** A new entry, unless there is no memory for a larger table. *)
Definition adds (h : HashmapBase) (k v : Z) (L : list (Z * Z)) (r : result) (L' : list (Z * Z)) : Prop :=
  (r = RInt 1 ∧ L' = L ++ [(k, v)]) ∨ (r = RInt (- ENOMEM) ∧ L' = L ∧ no_memory_for h).

(** What a call on the map [h] does to the list of its keys and values. *)
Definition spec_call (t : HashmapType) (h : HashmapBase) (c : call) (L : list (Z * Z)) (r : result) (L' : list (Z * Z)) : Prop :=
  match c with
  | Put k v => match assoc k L with Some p => r = RInt (if p.2 =? v then 0 else - EEXIST) ∧ L' = L | None => adds h k v L r L' end
  | SetPut k => match assoc k L with Some _ => r = RInt 0 ∧ L' = L | None => adds h k 0 L r L' end
  | Replace k v => match assoc k L with Some _ => r = RInt 0 ∧ L' = rebind k (λ _, (k, v)) L | None => adds h k v L r L' end
  | Update k v => match assoc k L with Some p => r = RInt 0 ∧ L' = rebind k (λ _, (p.1, v)) L | None => r = RInt (- ENOENT) ∧ L' = L end
  | Get k => r = RInt (found_value t k L) ∧ L' = L
  | Get2 k => r = RFound (from_option snd NULL (assoc k L)) (fst <$> assoc k L) ∧ L' = L
  | Contains k => r = RBool (bool_decide (is_Some (assoc k L))) ∧ L' = L
  | Next k => r = RInt (next_of k L) ∧ L' = L
  | Remove k => r = RInt (found_value t k L) ∧ L' = without k L
  | Remove2 k => r = RPair (from_option snd NULL (assoc k L)) (from_option fst NULL (assoc k L)) ∧ L' = without k L
  | RemoveValue k v => if bool_decide (value_of t <$> assoc k L = Some v) then r = RInt v ∧ L' = without k L else r = RInt NULL ∧ L' = L
  | RemoveAndPut old new v =>
      match assoc old L, assoc new L with
      | None, _ => r = RInt (- ENOENT) ∧ L' = L
      | Some _, Some _ => r = RInt (- EEXIST) ∧ L' = L
      | Some _, None => r = RInt 0 ∧ L' = without old L ++ [(new, v)]
      end
  | RemoveAndReplace old new v =>
      match assoc old L with
      | None => r = RInt (- ENOENT) ∧ L' = L
      | Some _ => r = RInt 0 ∧ L' = without old (without new L) ++ [(new, v)]
      end
  | First remove =>
      if bool_decide (L = []) then r = RPair NULL NULL ∧ L' = L
      else ∃ p, may_be_first t L p ∧ r = RPair (value_of t p) p.1 ∧ L' = if remove then without p.1 L else L
  | Size => r = RInt (Z.of_nat (length L)) ∧ L' = L
  | Reserve _ => (r = RInt 0 ∨ (r = RInt (- ENOMEM) ∧ no_memory_for h)) ∧ L' = L
  | Iterate => ∃ l, in_order t L l ∧ r = RList l ∧ L' = L
  | GetStrv => ∃ l, in_order t L l ∧ r = RStrv l.*2 ∧ L' = L
  | Clear => r = RVoid ∧ L' = []
  end.

(** The call suits the type of the map. Sets have no values, and only ordered maps
    a next entry. *)
Definition suits (t : HashmapType) (c : call) : Prop :=
  match c with
  | SetPut _ => t = HASHMAP_TYPE_SET
  | Put _ _ | Replace _ _ | Update _ _ | Get2 _ | Remove2 _ => t ≠ HASHMAP_TYPE_SET
  | RemoveAndPut _ _ v => t = HASHMAP_TYPE_SET → v = 0
  | RemoveAndReplace _ _ _ => t ≠ HASHMAP_TYPE_SET
  | Next _ => t = HASHMAP_TYPE_ORDERED
  | Reserve n => 0 ≤ n
  | _ => True
  end.

(** How many entries a call may ask room for. *)
Definition asks (c : call) : Z := match c with Reserve n => n | _ => 1 end.

(** [hashmap_remove_and_replace] takes no entry with a NULL key. *)
Definition not_null (c : call) (L : list (Z * Z)) : Prop :=
  match c with RemoveAndReplace old _ _ => ∀ p, assoc old L = Some p → p.1 ≠ NULL | _ => True end.

Lemma adds_ok h L k v r h' : roomy (h_type h) (n_entries h + 1) → inserted h L k v r h' → map_of h L →
  ∃ L', map_of h' L' ∧ h_type h' = h_type h ∧ adds h k v L (RInt r) L'.
Proof.
  intros [_ Hlt]%roomy_fits [[Hf|(sz & Hf)]|h1 M1 Ht] M; [done| |].
  - exists L. split; [done|]. split; [done|]. right. split; [done|]. split; [done|]. by exists sz.
  - exists (L ++ [(k, v)]). split; [done|]. split; [done|]. by left.
Qed.

Lemma call_ok h L c : map_of h L → suits (h_type h) c → not_null c L → roomy (h_type h) (n_entries h + asks c) →
  ∃ r h' L', run_call c h = Ret (r, h') ∧ map_of h' L' ∧ h_type h' = h_type h ∧ spec_call (h_type h) h c L r L'.
Proof.
  intros M Hs Hnn Hr. destruct (roomy_fits _ _ Hr) as [Hov _]. destruct c; cbn [run_call spec_call asks suits not_null] in *.
  - destruct (hashmap_put_ok h L k v M Hov) as (r & h' & -> & R). cbn [mbind outcome_bind]. destruct (assoc k L) as [p|].
    + destruct R as [-> ->]. by eexists _, h, L.
    + destruct (adds_ok h L k v r h' Hr R M) as (L' & M' & Ht & HA). by eexists _, h', L'.
  - destruct (set_put_ok h L k M Hov) as (r & h' & -> & R). cbn [mbind outcome_bind]. destruct (assoc k L) as [p|].
    + destruct R as [-> ->]. by eexists _, h, L.
    + destruct (adds_ok h L k 0 r h' Hr R M) as (L' & M' & Ht & HA). by eexists _, h', L'.
  - destruct (replace_ok h L k v M Hov) as (r & h' & -> & R). cbn [mbind outcome_bind]. destruct (assoc k L) as [p|].
    + destruct R as (-> & M' & Ht). by eexists _, h', _.
    + destruct (adds_ok h L k v r h' Hr R M) as (L' & M' & Ht & HA). by eexists _, h', L'.
  - destruct (update_ok h L k v M) as (r & h' & -> & R). cbn [mbind outcome_bind]. destruct (assoc k L) as [p|].
    + destruct R as (-> & M' & Ht). by eexists _, h', _.
    + destruct R as [-> ->]. by eexists _, h, L.
  - rewrite (get_ok h L k M). by eexists _, h, L.
  - rewrite (get2_ok h L k M). by eexists _, h, L.
  - rewrite (contains_ok h L k M). by eexists _, h, L.
  - rewrite (next_ok h L k M Hs). by eexists _, h, L.
  - destruct (hashmap_remove_ok h L k M) as (h' & -> & M' & Ht). by eexists _, h', _.
  - destruct (remove2_ok h L k M) as (h' & -> & M' & Ht). by eexists _, h', _.
  - destruct (remove_value_ok h L k v M) as (r & h' & -> & Ht & R). case_bool_decide; destruct R as [-> R]; [by eexists _, h', _|]. subst h'. by eexists _, h, L.
  - destruct (remove_and_put_ok h L old new v M) as (r & h' & -> & Ht & R). destruct (assoc old L) as [p|]; [destruct (assoc new L) as [q|]|]; destruct R as [-> R]; [subst h'; by eexists _, h, L|by eexists _, h', _|subst h'; by eexists _, h, L].
  - destruct (remove_and_replace_ok h L old new v M Hnn) as (r & h' & -> & Ht & R). destruct (assoc old L) as [p|]; destruct R as [-> R]; [by eexists _, h', _|subst h'; by eexists _, h, L].
  - destruct (first_ok h L remove M) as (v & k & h' & -> & Ht & R). case_bool_decide.
    + destruct R as (-> & -> & M'). by eexists _, h', L.
    + destruct R as (p & Hp & -> & -> & M'). eexists _, h', _. split; [done|]. split; [exact M'|]. split; [done|]. by exists p.
  - exists (RInt (n_entries h)), h, L. split; [done|]. split; [done|]. split; [done|]. by rewrite (mo_count _ _ M).
  - destruct (reserve_ok h L n M Hs Hr) as (r & h' & -> & M' & Ht & R). eexists _, h', L. split; [done|]. split; [done|]. split; [done|]. split; [|done].
    destruct R as [(-> & _ & sz & Hf)|[-> _]]; [right; split; [done|]; by exists sz|by left].
  - destruct (entries_ok h L M) as (l & h' & -> & Hl & M' & Ht). eexists _, h', L. split; [done|]. split; [done|]. split; [done|]. by exists l.
  - destruct (get_strv_ok h L M) as (l & h' & -> & Hl & M' & Ht). eexists _, h', L. split; [done|]. split; [done|]. split; [done|]. by exists l.
  - eexists _, _, []. split; [done|]. split; [apply clear_ok|done].
Qed.

(** ** Sequences of calls *)

Fixpoint run_calls (cs : list call) (h : HashmapBase) : outcome (list result * HashmapBase) :=
  match cs with
  | [] => Ret ([], h)
  | c :: cs => '(r, h) ← run_call c h; '(rs, h) ← run_calls cs h; Ret (r :: rs, h)
  end.

(** The results of the calls one after the other, each on the map that the calls before
    it left. *)
Fixpoint spec_calls (t : HashmapType) (h : HashmapBase) (cs : list call) (L : list (Z * Z)) (rs : list result) (L' : list (Z * Z)) : Prop :=
  match cs, rs with
  | [], [] => L' = L
  | c :: cs, r :: rs => ∃ h1 L1, run_call c h = Ret (r, h1) ∧ spec_call t h c L r L1 ∧ spec_calls t h1 cs L1 rs L'
  | _, _ => False
  end.

(** The keys that a call may insert. *)
Definition new_keys (c : call) : list Z :=
  match c with Put k _ | SetPut k | Replace k _ | RemoveAndPut _ k _ | RemoveAndReplace _ k _ => [k] | _ => [] end.

Definition proper (t : HashmapType) (c : call) : Prop := suits t c ∧ NULL ∉ new_keys c.

(** No call makes the list longer by more than one, and its keys come from calls. *)
Definition follows (c : call) (L L' : list (Z * Z)) : Prop :=
  (length L' ≤ length L + 1)%nat ∧ ∀ p, p ∈ L' → p.1 ∈ L.*1 ∨ p.1 ∈ new_keys c.

Lemma follows_part c L K : K `sublist_of` L → follows c L K.
Proof. intros HK. split; [apply sublist_length in HK; lia|]. intros p Hp. left. apply list_elem_of_fmap_2. apply sublist_submseteq in HK. by apply (elem_of_submseteq K L). Qed.

Lemma follows_snoc c L K k v : K `sublist_of` L → k ∈ new_keys c → follows c L (K ++ [(k, v)]).
Proof.
  intros HK Hk. destruct (follows_part c L K HK) as [_ Hp]. split; [apply sublist_length in HK; rewrite length_app; cbn; lia|].
  intros p [Hin| ->%list_elem_of_singleton]%elem_of_app; [auto|by right].
Qed.

Lemma follows_rebind c L k x v : x ∈ L.*1 ∨ x ∈ new_keys c → follows c L (rebind k (λ _, (x, v)) L).
Proof.
  intros Hx. unfold rebind. split; [rewrite length_map; lia|]. intros p (q & -> & Hq)%list_elem_of_fmap. case_decide; [done|]. left. by apply list_elem_of_fmap_2.
Qed.

Lemma assoc_key k L p : assoc k L = Some p → p.1 ∈ L.*1.
Proof. induction L as [|q L IH]; [done|]. cbn. case_decide; [intros [= ->]; left|]. intros E. right. auto. Qed.

Lemma without_part k L : without k L `sublist_of` L.
Proof. apply sublist_filter. Qed.

Lemma spec_follows t h c L r L' : spec_call t h c L r L' → follows c L L'.
Proof.
  assert (follows c L L) as Hsame by (by apply follows_part). assert (∀ k, follows c L (without k L)) as Hw by (intros k; apply follows_part, without_part).
  assert (∀ k v, k ∈ new_keys c → adds h k v L r L' → follows c L L') as HA by (intros k v Hk [[_ ->]|(_ & -> & _)]; [by apply follows_snoc|done]).
  destruct c; cbn [spec_call new_keys] in *.
  - destruct (assoc k L); [by intros [_ ->]|]. apply HA. left.
  - destruct (assoc k L); [by intros [_ ->]|]. apply HA. left.
  - destruct (assoc k L); [|apply HA; left]. intros [_ ->]. apply follows_rebind. right. left.
  - destruct (assoc k L) as [p|] eqn:E; [|by intros [_ ->]]. intros [_ ->]. apply follows_rebind. left. by apply (assoc_key k).
  - by intros [_ ->].
  - by intros [_ ->].
  - by intros [_ ->].
  - by intros [_ ->].
  - by intros [_ ->].
  - by intros [_ ->].
  - case_bool_decide; by intros [_ ->].
  - destruct (assoc old L); [destruct (assoc new L)|]; intros [_ ->]; [done| |done]. apply follows_snoc; [apply without_part|left].
  - destruct (assoc old L); intros [_ ->]; [|done]. apply follows_snoc; [|left]. etrans; apply without_part.
  - case_bool_decide; [by intros [_ ->]|]. intros (p & _ & _ & ->). by destruct remove.
  - by intros [_ ->].
  - by intros [_ ->].
  - by intros (l & _ & _ & ->).
  - by intros (l & _ & _ & ->).
  - intros [_ ->]. apply follows_part. apply sublist_nil_l.
Qed.

Lemma calls_ok t N cs h L : map_of h L → h_type h = t → Forall (proper t) cs → NULL ∉ L.*1 → Forall (λ c, asks c ≤ N) cs → 1 ≤ N →
  roomy t (Z.of_nat (length L + length cs) + N) →
  ∃ rs h' L', run_calls cs h = Ret (rs, h') ∧ map_of h' L' ∧ h_type h' = t ∧ spec_calls t h cs L rs L'.
Proof.
  intros M Ht HP Hnull HN H1 Hr. revert h L M Ht Hnull Hr. induction cs as [|c cs IH]; intros h L M Ht Hnull Hr; cbn [run_calls].
  { by exists [], h, L. }
  apply Forall_cons in HP as [[Hs Hk] HP]. apply Forall_cons in HN as [Hc HN]. cbn [length] in Hr. assert (0 ≤ asks c) as Hc0 by (destruct c; cbn in *; lia).
  destruct (call_ok h L c M) as (r & h1 & L1 & E1 & M1 & Ht1 & S1).
  - by rewrite Ht.
  - destruct c; cbn; try done. intros p E Hp. apply Hnull. rewrite <- Hp. by apply (assoc_key old).
  - rewrite Ht, (mo_count _ _ M). by apply (roomy_le t (Z.of_nat (length L + S (length cs)) + N)); [lia|].
  - rewrite E1. cbn [mbind outcome_bind]. destruct (spec_follows _ _ _ _ _ _ S1) as [Hlen Hkeys]. destruct (IH HP HN h1 L1 M1) as (rs & h' & L' & -> & M' & Ht' & S').
    + congruence.
    + intros (p & Ep & Hp)%list_elem_of_fmap. destruct (Hkeys p Hp) as [Hin|Hin]; rewrite <- Ep in Hin; done.
    + apply (roomy_le t (Z.of_nat (length L + S (length cs)) + N)); [lia|done].
    + cbn [mbind outcome_bind]. exists (r :: rs), h', L'. split; [done|]. split; [done|]. split; [done|]. exists h1, L1. split; [done|]. split; [by rewrite <- Ht|done].
Qed.

(** ** Well-formed maps *)

(** What holds of the fields of a map: the bytes of the buckets are distances or
    the mark of a free bucket, their number is that of the entries, and the list of
    an ordered map starts and ends at buckets in use. *)
Record well_formed (h : HashmapBase) : Prop := {
  wf_buckets : 0 < n_buckets h < IDX_SWAP_BEGIN;
  wf_entries : 0 ≤ n_entries h ≤ n_buckets h;
  wf_bytes : ∀ i, 0 ≤ i < n_buckets h → ∃ d, dibs h !! i = Some d ∧ (d = DIB_RAW_FREE ∨ d = Z.min (dist h i) DIB_RAW_OVERFLOW);
  wf_outside : ∀ i, ¬ 0 ≤ i < n_buckets h → dibs h !! i = None;
  wf_count : n_entries h = Z.of_nat (length (used_from h 0));
  wf_ends : h_type h = HASHMAP_TYPE_ORDERED →
    (iterate_list_head h = IDX_NIL ∧ iterate_list_tail h = IDX_NIL ∧ n_entries h = 0) ∨ (occupied h (iterate_list_head h) = true ∧ occupied h (iterate_list_tail h) = true) }.

Lemma map_well_formed h L : map_of h L → well_formed h.
Proof.
  intros M. pose proof M as [[X G] Hc D]. pose proof (s_rh _ _ _ G) as GR. pose proof (rh_table _ _ _ GR) as T. pose proof (entries_fit h X L G) as Hfit.
  assert (∀ i, occupied h i = true ↔ i ∈ X) as HO by (intros i; rewrite occupied_full by (apply T || apply G); by rewrite (steady_used h X L i G)).
  split.
  - apply T.
  - lia.
  - intros i Ri. destruct (proj2 (t_dibs h T i) Ri) as [d Ed]. exists d. split; [done|]. pose proof (t_byte h T i d Ed) as Hb. destruct (decide (d = DIB_RAW_FREE)) as [|Hf]; [by left|]. right.
    apply (t_raw h T i d Ed). assert (d ≠ DIB_RAW_REHASH) by (intros ->; by apply (s_stale _ _ _ G i)). unfold DIB_RAW_FREE, DIB_RAW_REHASH in *. lia.
  - intros i Hi. destruct (dibs h !! i) as [d|] eqn:Ed; [|done]. destruct Hi. apply (t_dibs h T i). by exists d.
  - rewrite Hc, <- (listing_length h X L) by apply GR. f_equal. apply Permutation_length, NoDup_Permutation; [apply GR|apply NoDup_filter, NoDup_seqZ|].
    intros i. rewrite used_from_elem by (apply T || apply G). rewrite (steady_used h X L i G). split; [|tauto]. intros Fi. split; [|done]. pose proof (full_real h i T Fi) as Ri. unfold real in Ri. lia.
  - intros Hty. destruct (li_linked _ _ _ (rh_listing _ _ _ GR) Hty) as (-> & -> & _). rewrite Hc, <- (listing_length h X L) by apply GR. destruct X as [|x X]; [by left|]. right. rewrite !HO. cbn [hd].
    split; [left|]. rewrite last_of_cons. destruct X as [|y X _] using rev_ind; [left|]. rewrite last_of_snoc. set_solver.
Qed.

(** ** Sizes that the code cannot compute *)

Lemma oversized_crash h L add : map_of h L → 0 ≤ add < 2 ^ 32 → oversized (h_type h) (n_entries h + add) → n_buckets h < wanted (n_entries h + add) → resize_buckets add h = Crash.
Proof.
  intros M Ha [Hlo Hhi] Hb. pose proof (mo_count _ _ M) as Hc. pose proof (entry_size_bounds (h_type h)) as Hsz. pose proof (n_direct_bound (h_type h)) as Hdir.
  unfold resize_buckets. set (size := entry_size (h_type h) + 1) in *. unfold wanted in *. change (INV_KEEP_FREE - 1) with 4 in *. set (m := n_entries h + add) in *. change UINT_MAX with (2 ^ 32 - 1) in *.
  assert (0 ≤ m) as Hm by lia. assert (0 ≤ m / 4 ≤ m) as Hq by (split; [apply Z.div_pos; lia|apply Z.div_le_upper_bound; lia]). assert (m + m / 4 < 2 ^ 32) as Hw by nia.
  rewrite (wrapu_small 32 m) by lia. rewrite (proj2 (Z.ltb_ge m add)) by lia. rewrite (proj2 (Z.leb_gt m (n_direct_buckets (h_type h)))) by nia. rewrite andb_false_r.
  rewrite (wrapu_small 32 (m + m / 4)) by lia. rewrite (proj2 (Z.ltb_ge (m + m / 4) m)) by lia.
  rewrite (proj2 (Z.ltb_ge ((2 ^ 32 - 1) / size) (m + m / 4))) by (apply Z.div_le_lower_bound; lia). rewrite (proj2 (Z.leb_gt (m + m / 4) (n_buckets h))) by done.
  rewrite Z.max_l by (unfold sizeof_direct_storage; lia). unfold log2u_round_up. rewrite (proj2 (Z.ltb_lt 0 _)), (proj2 (Z.eqb_neq _ 1)) by lia. cbn [assert_ lift mbind outcome_bind option_bind].
  assert (31 ≤ Z.log2 ((m + m / 4) * size - 1)) as Hlog by (apply Z.log2_le_pow2; lia). rewrite (proj2 (Z.ltb_ge _ 32)) by lia. done.
Qed.

End System.

(** ** Theorems *)

Section Theorems.
Context `{LawfulHash}.


(** C15. After any such sequence of calls (at most 2^25 of them, no key NULL, no
    reservation above 2^25) the fields of the map are well-formed. *)
Theorem hashmap_well_formed (t : HashmapType) (cs : list call) (Hp : Forall (proper t) cs) (Hn : Forall (λ c, asks c ≤ 2 ^ 25) cs) (Hl : Z.of_nat (length cs) ≤ 2 ^ 25) :
  ∃ rs h, run_calls cs (hashmap_base_new t) = Ret (rs, h) ∧ well_formed h ∧ h_type h = t.
Proof.
  destruct (calls_ok t (2 ^ 25) cs (hashmap_base_new t) [] (new_ok t) eq_refl Hp) as (rs & h & L & E & M & Ht & S); [by intros ?%not_elem_of_nil|done|done| |].
  - apply (roomy_le t (2 ^ 26)); [cbn [length]; lia|]. destruct t; vm_compute; done.
  - exists rs, h. split; [done|]. split; [by apply (map_well_formed h L)|done].
Qed.

(** Insertion of a key that is not there, with a bucket to spare: the loop of
    [hashmap_put_robin_hood] ends within a round through the buckets, displaces no
    entry that waits for a rehash, and the map has the new entry at the end of its
    list; distances and their order stay those of Robin Hood hashing. *)
Theorem hashmap_put_robin_hood_correct (h : HashmapBase) (L : list (Z * Z)) (k v : Z) (M : map_of h L) (Ha : assoc k L = None) (Hlt : n_entries h < n_buckets h) :
  ∃ h1 h2, link_entry (set_store (<[IDX_PUT := mk_entry k v 0 0]> (store h)) h) = Some h1 ∧
    hashmap_put_robin_hood (fuel_of h1) (home h k) 0 h1 = Ret (false, h2) ∧ map_of (base_set_dirty (n_entries_inc h2)) (L ++ [(k, v)]) ∧ frame h2 = frame h.
Proof. exact (map_insert h L k v M Ha Hlt). Qed.

(** Removal of an entry: the end of its run is found, the entries after it move one
    bucket back at most, its bucket or another becomes free and zero, and the map
    has all other entries. *)
Theorem base_remove_entry_correct (h : HashmapBase) (L : list (Z * Z)) (k : Z) (p : Z * Z) (i : Z) (M : map_of h L) (Ha : assoc k L = Some p) (Hf : full h i) (Hi : kv h i = Some p) :
  ∃ h' q, base_remove_entry i h = Ret h' ∧ map_of h' (without k L) ∧ frame h' = frame h ∧ removal i q h h'.
Proof. exact (map_remove h L k p i M Ha Hf Hi). Qed.

(** Growing a map, when its size can be computed: the table stays as it is when
    there is room or no memory; else all entries are placed in a larger table, each
    once, and the loops end. *)
Theorem resize_buckets_correct (h : HashmapBase) (L : list (Z * Z)) (add : Z) (M : map_of h L) (Ha : 0 ≤ add < 2 ^ 32) (Hov : ¬ oversized (h_type h) (n_entries h + add)) :
  ∃ r h', resize_buckets add h = Ret (r, h') ∧ map_of h' L ∧ resized h add r h'.
Proof. exact (map_resize h L add M Ha Hov). Qed.

(** When the new table is to have more than 2^31 bytes, but less than 2^32, its size
    is computed by a shift of an [unsigned int] by 32. *)
Theorem resize_buckets_oversized (h : HashmapBase) (L : list (Z * Z)) (add : Z) (M : map_of h L) (Ha : 0 ≤ add < 2 ^ 32)
    (Hov : oversized (h_type h) (n_entries h + add)) (Hb : n_buckets h < wanted (n_entries h + add)) : resize_buckets add h = Crash.
Proof. exact (oversized_crash h L add M Ha Hov Hb). Qed.

(** Moving the entries of a map into another of its type: the iteration reaches
    every entry although the current one is removed from under it; exactly the
    entries whose keys are in the other map stay, and an ordered map receives the
    others in their order. *)
Theorem internal_hashmap_move_correct (h other : HashmapBase) (L Lo : list (Z * Z)) (M : map_of h L) (Mo : map_of other Lo) (Ht : h_type other = h_type h)
    (Hk : ∀ q, q ∈ Lo → q.1 ≠ NULL) (Hr : roomy (h_type h) (Z.of_nat (length L + length Lo))) :
  ∃ r h' o', internal_hashmap_move h other = Ret (r, h', o') ∧
    ((r = - ENOMEM ∧ h' = h ∧ o' = other ∧ no_memory) ∨
     (r = 0 ∧ map_of o' (dups L Lo) ∧ ∃ N, N ≡ₚ news L Lo ∧ (h_type h = HASHMAP_TYPE_ORDERED → N = news L Lo) ∧ map_of h' (L ++ N))).
Proof.
  destruct (map_move_ok h L other Lo M Mo Ht Hk Hr) as (r & h' & o' & E & _ & _ & R). by exists r, h', o'.
Qed.

(** A copy has the keys and values of the map, in the same order when it is
    ordered, and the map keeps them. *)
Theorem internal_hashmap_copy_correct (h : HashmapBase) (L : list (Z * Z)) (M : map_of h L) (Hr : roomy (h_type h) (Z.of_nat (length L))) :
  ∃ c h', internal_hashmap_copy h = Ret (c, h') ∧ map_of h' L ∧
    match c with Some copy => h_type copy = h_type h ∧ ∃ l, map_of copy l ∧ copy_of (h_type h) L l | None => no_memory end.
Proof. destruct (copy_ok h L M Hr) as (c & h' & E & M' & _ & R). by exists c, h'. Qed.

End Theorems.
