(* ===== verification/HashMapExamples.v ===== *)
(** * systemd: hash maps with integer keys

    [trivial_hash_ops] of [src/app/multi_process/day1/systemd/src/basic/hash-funcs.c],
    which are lawful, the theorems of hash maps at concrete maps, and what goes
    wrong with the key NULL. *)

From S2P Require Import Prelude Outcome SipHash HashMap HashMapLinks HashMapProps HashMapInsert HashMapRemove HashMapResize HashMapSpec HashMapIter HashMapOps HashMapMove HashMapSystem.

#[local] Open Scope Z_scope.

(** ** Hash functions of pointers *)

(** The bytes of a pointer, little endian. *)
Definition pointer_bytes (p : Z) : list Z := map (λ i, (p / 2 ^ (8 * Z.of_nat i)) mod 256) (seq 0 8).

Definition trivial_hash_func (p : Z) (state : siphash) : siphash := default state (siphash24_compress (pointer_bytes p) state).

Definition trivial_compare_func (a b : Z) : Z := if a <? b then -1 else if b <? a then 1 else 0.

(** The tables of these examples get all the memory they want, and fixed keys. *)
#[export] Instance trivial_hash_ops : HashEnv := {|
  hash_func := trivial_hash_func; compare_func := trivial_compare_func;
  shared_hash_key := repeat 0 16; new_hash_key _ _ := repeat 7 16; realloc_ok _ _ := true |}.

#[export] Instance trivial_lawful : LawfulHash.
Proof.
  assert (∀ a b, trivial_compare_func a b = 0 → a = b) as HE.
  { intros a b. unfold trivial_compare_func. destruct (Z.ltb_spec a b), (Z.ltb_spec b a); done || lia. }
  split; cbn.
  - intros a. unfold trivial_compare_func. by rewrite Z.ltb_irrefl.
  - intros a b E%HE. subst b. unfold trivial_compare_func. by rewrite Z.ltb_irrefl.
  - intros a b c E%HE. by subst b.
  - intros a b st E%HE. by subst b.
  - by eexists.
  - intros _ _. by eexists.
Qed.

Example compare_ex : map (λ p, trivial_compare_func p.1 p.2) [(1, 2); (2, 1); (3, 3)] = [-1; 1; 0].
Proof. done. Qed.

(** ** Runs *)

Definition script : list call := [Put 1 10; Put 2 20; Put 3 30; Put 2 21; Remove 2; Get 3; Replace 4 40; RemoveAndReplace 3 4 50; Size; Iterate].

Example script_ex : ('(rs, _) ← run_calls script (hashmap_base_new HASHMAP_TYPE_ORDERED); Ret rs) =
  Ret [RInt 1; RInt 1; RInt 1; RInt (- EEXIST); RInt 20; RInt 30; RInt 1; RInt 0; RInt 2; RList [(1, 10); (4, 50)]].
Proof. by vm_compute. Qed.

Lemma script_proper t : t ≠ HASHMAP_TYPE_SET → Forall (proper t) script.
Proof.
  intros Ht. unfold script. repeat (apply Forall_cons; split; [split; [done|cbn; (by intros ?%list_elem_of_singleton) || by intros ?%not_elem_of_nil]|]). apply Forall_nil. done.
Qed.

Lemma script_small : Forall (λ c, asks c ≤ 2 ^ 25) script ∧ Z.of_nat (length script) ≤ 2 ^ 25.
Proof. split; [|cbn; lia]. unfold script. repeat (apply Forall_cons; split; [cbn; lia|]). by apply Forall_nil. Qed.


Lemma hashmap_well_formed_witness : ∃ rs h, run_calls script (hashmap_base_new HASHMAP_TYPE_ORDERED) = Ret (rs, h) ∧ well_formed h ∧ h_type h = HASHMAP_TYPE_ORDERED.
Proof. apply hashmap_well_formed; [by apply script_proper|apply script_small|apply script_small]. Defined.

Lemma hashmap_put_robin_hood_witness : let h := hashmap_base_new HASHMAP_TYPE_PLAIN in
  ∃ h1 h2, link_entry (set_store (<[IDX_PUT := mk_entry 5 50 0 0]> (store h)) h) = Some h1 ∧
    hashmap_put_robin_hood (fuel_of h1) (home h 5) 0 h1 = Ret (false, h2) ∧ map_of (base_set_dirty (n_entries_inc h2)) ([] ++ [(5, 50)]) ∧ frame h2 = frame h.
Proof. intros h. apply (hashmap_put_robin_hood_correct h [] 5 50); [apply new_ok|done|done]. Defined.

(** A map with one entry. *)
Definition one : HashmapBase := match hashmap_put 5 50 (hashmap_base_new HASHMAP_TYPE_PLAIN) with Ret (_, h) => h | _ => hashmap_base_new HASHMAP_TYPE_PLAIN end.

Lemma one_map : map_of one [(5, 50)].
Proof.
  destruct (hashmap_put_ok (hashmap_base_new HASHMAP_TYPE_PLAIN) [] 5 50 (new_ok _)) as (r & h & E & R); [by vm_compute; intros [? _]|].
  unfold one. rewrite E. cbn in R. inversion R as [Hf Hr|h' M Ht Hr]; [|done]. exfalso. subst. by vm_compute in E.
Qed.

Lemma base_remove_entry_witness : ∃ i h' q, base_remove_entry i one = Ret h' ∧ map_of h' (without 5 [(5, 50)]) ∧ frame h' = frame one ∧ removal i q one h'.
Proof.
  destruct (find_some one [(5, 50)] 5 (5, 50) one_map eq_refl) as (i & _ & Fi & Ei). exists i.
  apply (base_remove_entry_correct one [(5, 50)] 5 (5, 50) i); [apply one_map|done|done|done].
Defined.

Lemma resize_buckets_witness : ∃ r h', resize_buckets 100 one = Ret (r, h') ∧ map_of h' [(5, 50)] ∧ resized one 100 r h'.
Proof. apply (resize_buckets_correct one [(5, 50)] 100); [apply one_map|lia|]. by vm_compute; intros [? _]. Defined.

(** Room for 110 million entries. *)
Lemma resize_buckets_oversized_witness : resize_buckets 110000000 one = Crash.
Proof. apply (resize_buckets_oversized one [(5, 50)] 110000000); [apply one_map|lia|by vm_compute|by vm_compute]. Defined.

Lemma internal_hashmap_move_witness : ∃ r h' o', internal_hashmap_move (hashmap_base_new HASHMAP_TYPE_PLAIN) one = Ret (r, h', o') ∧
    ((r = - ENOMEM ∧ h' = hashmap_base_new HASHMAP_TYPE_PLAIN ∧ o' = one ∧ no_memory) ∨
     (r = 0 ∧ map_of o' (dups [] [(5, 50)]) ∧ ∃ N, N ≡ₚ news [] [(5, 50)] ∧ (HASHMAP_TYPE_PLAIN = HASHMAP_TYPE_ORDERED → N = news [] [(5, 50)]) ∧ map_of h' ([] ++ N))).
Proof.
  apply (internal_hashmap_move_correct (hashmap_base_new HASHMAP_TYPE_PLAIN) one [] [(5, 50)]); [apply new_ok|apply one_map|by vm_compute| |by vm_compute].
  intros q ->%list_elem_of_singleton. done.
Defined.

Lemma internal_hashmap_copy_witness : ∃ c h', internal_hashmap_copy one = Ret (c, h') ∧ map_of h' [(5, 50)] ∧
    match c with Some copy => h_type copy = h_type one ∧ ∃ l, map_of copy l ∧ copy_of (h_type one) [(5, 50)] l | None => no_memory end.
Proof. apply (internal_hashmap_copy_correct one [(5, 50)]); [apply one_map|by vm_compute]. Defined.

(** ** The key NULL *)

(** Keys 3, 14, 100, 101 and NULL in a set. *)
Definition null_set : list call := [SetPut 3; SetPut 14; SetPut 0; SetPut 100; SetPut 101].

(** A NULL pointer is a key like others for insertion and search, as integers
    are keys by way of pointers. But a removal that shifts its entry back leaves a
    zero bucket where it was, which is mistaken for it: replacing it then fails an
    assertion, and so does moving the entries of a set that has it. *)
Theorem null_key_mistaken :
  ('(rs, _) ← run_calls [Put 2 10; Put 0 20; Get 0] (hashmap_base_new HASHMAP_TYPE_PLAIN); Ret rs) = Ret [RInt 1; RInt 1; RInt 20] ∧
  run_calls [Put 2 10; Put 0 20; RemoveAndReplace 0 2 30] (hashmap_base_new HASHMAP_TYPE_PLAIN) = Crash ∧
  ('(rs, _) ← run_calls null_set (hashmap_base_new HASHMAP_TYPE_SET); Ret rs) = Ret (repeat (RInt 1) 5) ∧
  ('(_, s) ← run_calls null_set (hashmap_base_new HASHMAP_TYPE_SET); internal_hashmap_move (hashmap_base_new HASHMAP_TYPE_SET) s) = Crash.
Proof. split_and!; by vm_compute. Qed.
