(* ===== verification/HashMapCache.v ===== *)
(** * systemd: the iterated cache of a hash map

    The end of [hashmap.c]: arrays of the keys and values of a map in the order of
    its iteration, which are filled again when the map has changed since. The map
    says so with a flag that each change sets.

    An array is the list of its words, [None] where nothing was written since it
    was allocated. Whether [realloc] succeeds, and how many words more than asked
    for the memory has, is an argument. *)

From S2P Require Import Prelude Outcome SipHash HashMap HashMapLinks HashMapProps HashMapInsert HashMapRemove HashMapResize HashMapSpec HashMapIter HashMapOps HashMapMove HashMapSystem HashMapExamples.

#[local] Open Scope Z_scope.
#[local] Set Warnings "-clear-no-such-hyp".

Record CacheMem := mk_cachemem { ptr : list (option Z); active : bool }.

Record IteratedCache := mk_cache { keys : CacheMem; values : CacheMem }.

Definition inactive (m : CacheMem) : CacheMem := mk_cachemem (ptr m) false.

(** [GREEDY_REALLOC]: at least 64 bytes, or twice what is needed. *)
Definition greedy_realloc (memory : option nat) (need : nat) (p : list (option Z)) : option (list (option Z)) :=
  if (need <=? length p)%nat then Some p
  else extra ← memory; Some (p ++ replicate (Nat.max (need * 2) 8 + extra - length p) None).

Definition cachemem_maintain (memory : option nat) (mem : CacheMem) (size : nat) : Z * CacheMem :=
  match greedy_realloc memory size (ptr mem) with
  | None => (- ENOMEM, mem)
  | Some p => (if active mem then 0 else 1, mk_cachemem p true)
  end.

(** Writes at the start of an array. *)
Fixpoint fill (l : list Z) (p : list (option Z)) : option (list (option Z)) :=
  match l, p with
  | [], _ => Some p
  | x :: l, _ :: p => p ← fill l p; Some (Some x :: p)
  | _ :: _, [] => None
  end.

Section Cache.
Context `{HashEnv}.

(** The cache, when there is memory for it. *)
Definition internal_hashmap_iterated_cache_new (memory : bool) (h : HashmapBase) : outcome (option IteratedCache * HashmapBase) :=
  require negb (cached h);
  Ret (if memory then (Some (mk_cache (mk_cachemem [] false) (mk_cachemem [] false)), set_cached true h) else (None, h)).

(** [res_keys] and [res_values] say which arrays the caller wants. Their pointers
    are those of the cache, and their length is the number of entries. *)
Definition iterated_cache_get (res_keys res_values : bool) (memory_keys memory_values : option nat)
    (c : IteratedCache) (h : HashmapBase) : outcome (Z * IteratedCache * HashmapBase) :=
  let size := Z.to_nat (n_entries h) in
  let '(r, ks) := if res_keys then cachemem_maintain memory_keys (keys c) size else (0, inactive (keys c)) in
  if r <? 0 then Ret (r, mk_cache ks (values c), h)
  else
    let sync_keys := negb (r =? 0) in
    let '(r, vs) := if res_values then cachemem_maintain memory_values (values c) size else (0, inactive (values c)) in
    if r <? 0 then Ret (r, mk_cache ks vs, h)
    else
      let sync_values := negb (r =? 0) in
      let sync_keys := sync_keys || (dirty h && active ks) in
      let sync_values := sync_values || (dirty h && active vs) in
      let h := if dirty h then set_clean h else h in
      if sync_keys || sync_values then
        '(l, h) ← hashmap_entries h;
        kp ←! (if sync_keys then fill l.*1 (ptr ks) else Some (ptr ks));
        vp ←! (if sync_values then fill l.*2 (ptr vs) else Some (ptr vs));
        Ret (0, mk_cache (mk_cachemem kp (active ks)) (mk_cachemem vp (active vs)), h)
      else Ret (0, mk_cache ks vs, h).

(** What the caller of a successful call reads in the arrays it asked for. *)
Definition read_array (wanted : bool) (m : CacheMem) (size : nat) : option (list (option Z)) :=
  if wanted then Some (take size (ptr m)) else None.

(** ** Requests: calls on the map, and looks at the cache *)

Inductive request := Call (c : call) | CacheGet (want_keys want_values : bool) (memory_keys memory_values : option nat).

Inductive answer := Answer (r : result) | Arrays (ks vs : option (list (option Z))) | NoMemory.

Definition run_request (q : request) (c : IteratedCache) (h : HashmapBase) : outcome (answer * IteratedCache * HashmapBase) :=
  match q with
  | Call k => '(r, h) ← run_call k h; Ret (Answer r, c, h)
  | CacheGet wk wv mk mv =>
      let size := Z.to_nat (n_entries h) in
      '(r, c, h) ← iterated_cache_get wk wv mk mv c h;
      Ret (if r =? 0 then Arrays (read_array wk (keys c) size) (read_array wv (values c) size) else NoMemory, c, h)
  end.

Fixpoint run_requests (qs : list request) (c : IteratedCache) (h : HashmapBase) : outcome (list answer * IteratedCache * HashmapBase) :=
  match qs with
  | [] => Ret ([], c, h)
  | q :: qs => '(a, c, h) ← run_request q c h; '(l, c, h) ← run_requests qs c h; Ret (a :: l, c, h)
  end.

(** What the caller is promised: the arrays have the keys and values of the map in
    one order, that of insertion for an ordered map. *)
Definition spec_request (t : HashmapType) (q : request) (L : list (Z * Z)) (a : answer) (L' : list (Z * Z)) : Prop :=
  match q with
  | Call k => ∃ r h, a = Answer r ∧ spec_call t h k L r L'
  | CacheGet wk wv mk mv => L' = L ∧
      ((∃ l, in_order t L l ∧ a = Arrays (if wk then Some (Some <$> l.*1) else None) (if wv then Some (Some <$> l.*2) else None)) ∨
       (a = NoMemory ∧ ((wk = true ∧ mk = None) ∨ (wv = true ∧ mv = None))))
  end.

Fixpoint spec_requests (t : HashmapType) (qs : list request) (L : list (Z * Z)) (l : list answer) (L' : list (Z * Z)) : Prop :=
  match qs, l with
  | [], [] => L' = L
  | q :: qs, a :: l => ∃ L1, spec_request t q L a L1 ∧ spec_requests t qs L1 l L'
  | _, _ => False
  end.

(** ** Every change sets the flag *)

Lemma remove_dirty i h h' : base_remove_entry i h = Ret h' → dirty h' = true.
Proof. unfold base_remove_entry. intros E. returned E. by injection E as <-. Qed.

Lemma resize_failed n h r h' : resize_buckets n h = Ret (r, h') → r < 0 → h' = h.
Proof. unfold resize_buckets. intros E Hr. returned E; by injection E as <- <-. Qed.

Lemma put_dirty i k v may_resize h r h' : hashmap_base_put_boldly i k v may_resize h = Ret (r, h') → dirty h' = true ∨ h' = h.
Proof.
  unfold hashmap_base_put_boldly. intros E. apply bind_returned in E as (_ & _ & E). apply bind_returned in E as ([r1 h1] & E1 & E).
  destruct (r1 <? 0) eqn:Hr; [right|left].
  - injection E as _ <-. destruct may_resize; [|by injection E1 as _ <-]. by apply (resize_failed 1 h r1 h1 E1), Z.ltb_lt.
  - returned E. by injection E as _ <-.
Qed.

Lemma lift_returned {A} (o : option A) a : lift o = Ret a → o = Some a.
Proof. destruct o; [|done]. by intros [= ->]. Qed.

End Cache.

(** Inverts all steps, and finds what set the flag. *)
#[local] Ltac marks :=
  repeat match goal with
  | E : mbind _ _ = Ret _ |- _ => returned E
  | E : (if ?b then _ else _) = Ret _ |- _ => returned E
  | E : match _ with pair _ _ => _ end = Ret _ |- _ => returned E
  | E : lift ?o = Ret _ |- _ => apply lift_returned in E
  | E : Ret _ = Ret _ |- _ => injection E as ?; subst
  | E : Some _ = Some _ |- _ => injection E as ?; subst
  end;
  try match goal with E : None = Some _ |- _ => discriminate E end;
  try first [left; reflexivity | right; left; reflexivity | left; by eapply remove_dirty].

Section Marks.
Context `{LawfulHash}.

Definition is_reserve (c : call) : bool := match c with Reserve _ => true | _ => false end.

(** A call that does not set the flag leaves the map as it is, or remembers its
    first entry. *)
Lemma call_dirty c h L r h' : map_of h L → is_reserve c = false → run_call c h = Ret (r, h') → dirty h' = true ∨ h' = h ∨ h' = noted h.
Proof.
  intros [[X G] _ _] Hc E. assert (∀ b l, hashmap_entries h = Ret (l, b) → b = noted h) as HI by (intros b l; rewrite (entries_run h X L G); by intros [= _ <-]).
  assert (∀ i b, find_first_entry h = Ret (i, b) → b = h ∨ b = noted h) as HF.
  { intros i b Ef. unfold find_first_entry in Ef. rewrite (iterate_first h X L G) in Ef. case_match; injection Ef as _ <-; auto. }
  destruct c; cbn [run_call] in E; try done.
  all: unfold with_map, hashmap_put, set_put, hashmap_replace, hashmap_update, internal_hashmap_remove, hashmap_remove2, internal_hashmap_remove_value,
    hashmap_remove_and_put, hashmap_remove_and_replace, internal_hashmap_first_key_and_value, internal_hashmap_get_strv in E; marks.
  all: try match goal with E : hashmap_base_put_boldly _ _ _ _ _ = Ret _ |- _ => destruct (put_dirty _ _ _ _ _ _ _ E) as [| ->]; [by left|]; first [by auto | left; by eapply remove_dirty] end.
  all: right; eauto.
Qed.

(** ** The arrays show the map *)

Lemma entries_same h h' X L l : steady h X L → steady h' X L → frame h' = frame h → dibs h' = dibs h → store h' = store h →
  hashmap_entries h = Ret (l, noted h) → hashmap_entries h' = Ret (l, noted h').
Proof.
  intros G G' Ef Ed Es. rewrite (entries_run h X L G), (entries_run h' X L G'). intros [= <-]. pose proof (frame_type h h' Ef) as Et.
  pose proof (frame_n h h' Ef) as En. f_equal. f_equal. rewrite Et.
  replace (visiting h' X) with (visiting h X) by (unfold visiting, used_from, occupied; by rewrite Et, En, Ed).
  apply map_ext. intros i. unfold at_bucket, kv. by rewrite Es.
Qed.

Lemma entries_shape h L : map_of h L → ∃ l, hashmap_entries h = Ret (l, noted h) ∧ in_order (h_type h) L l ∧ length l = Z.to_nat (n_entries h).
Proof.
  intros M. destruct (entries_ok h L M) as (l & h' & E & Hl & _). pose proof M as [[X G] Hc _]. exists l. rewrite (entries_run h X L G) in E |- *.
  injection E as E _. rewrite E. split; [done|]. split; [done|]. rewrite (in_order_length _ _ _ Hl), Hc. lia.
Qed.

Lemma fill_ok l p : (length l ≤ length p)%nat → ∃ p', fill l p = Some p' ∧ take (length l) p' = Some <$> l.
Proof.
  revert p. induction l as [|x l IH]; intros p Hp; [by exists p|]. destruct p as [|y p]; cbn [length] in *; [lia|].
  destruct (IH p) as (p' & E & Et); [lia|]. cbn [fill]. rewrite E. exists (Some x :: p'). split; [done|]. cbn. by rewrite Et.
Qed.

Lemma greedy_ok memory n p : match greedy_realloc memory n p with Some p' => (n ≤ length p')%nat ∧ ∃ x, p' = p ++ x | None => memory = None end.
Proof.
  unfold greedy_realloc. destruct (n <=? length p)%nat eqn:E; [apply Nat.leb_le in E; split; [done|]; exists []; by rewrite app_nil_r|].
  apply Nat.leb_gt in E. destruct memory as [extra|]; [|done]. cbn. split; [|by eexists]. rewrite length_app, length_replicate. lia.
Qed.

(** One array of a call, and what it has when it is filled if necessary. *)
Lemma array_ok (d w : bool) memory m l : (d = false → active m = true → take (length l) (ptr m) = Some <$> l) →
  let '(r, m') := if w then cachemem_maintain memory m (length l) else (0, inactive m) in
  (r = - ENOMEM ∧ w = true ∧ memory = None ∧ m' = m) ∨
  (0 ≤ r ∧ active m' = w ∧ ∃ p, (if negb (r =? 0) || d && active m' then fill l (ptr m') else Some (ptr m')) = Some p ∧ (w = true → take (length l) p = Some <$> l)).
Proof.
  intros Hm. destruct w; [|right; cbn; rewrite andb_false_r; split_and!; [done|done|by eexists]]. unfold cachemem_maintain. pose proof (greedy_ok memory (length l) (ptr m)) as HG.
  destruct (greedy_realloc _ _ _) as [p|]; [|by left]. destruct HG as [Hlen [x Hx]]. right. split; [by destruct (active m)|]. split; [done|]. cbn [ptr active].
  destruct (fill_ok l p Hlen) as (p' & Ep & Et). destruct (active m) eqn:Ea; cbn; [|by eauto]. destruct d; cbn; [by eauto|]. exists p. split; [done|]. intros _.
  assert (length l ≤ length (ptr m))%nat as Hl.
  { pose proof (f_equal length (Hm eq_refl eq_refl)) as HL. rewrite length_take, length_fmap in HL. lia. }
  rewrite Hx, take_app_le by done. by apply Hm.
Qed.

(** The arrays in use are right unless the map has changed. *)
Definition coherent (c : IteratedCache) (h : HashmapBase) : Prop := dirty h = false → ∃ l, hashmap_entries h = Ret (l, noted h) ∧
  (active (keys c) = true → take (length l) (ptr (keys c)) = Some <$> l.*1) ∧ (active (values c) = true → take (length l) (ptr (values c)) = Some <$> l.*2).

Lemma coherent_noted c h L : map_of h L → coherent c h → coherent c (noted h).
Proof.
  intros [[X G] _ _] C Hd. destruct (noted_same h) as (Es & Ed & Ef & _). destruct C as (l & E & HC).
  - rewrite <- Hd. unfold noted, remembered. case_decide; [done|]. by case_match.
  - exists l. split; [|done]. by apply (entries_same h (noted h) X L); [| apply noted_steady | | | |].
Qed.

Lemma entries_clean h L l : map_of h L → hashmap_entries h = Ret (l, noted h) → map_of (set_clean h) L ∧ hashmap_entries (set_clean h) = Ret (l, noted (set_clean h)).
Proof.
  intros M E. assert (map_of (set_clean h) L) as M' by (by apply (map_of_flags h)). split; [done|]. pose proof M as [[X G] _ _].
  apply (entries_same h (set_clean h) X L); try done. apply (steady_same h); try done.
  intros Hind. destruct (rh_low _ _ _ (s_rh _ _ _ G) Hind). auto.
Qed.

(** What a look at the cache gives. *)
Definition shows (t : HashmapType) (L : list (Z * Z)) (wk wv : bool) (c : IteratedCache) : Prop := ∃ l, in_order t L l ∧
  (wk = true → take (length l) (ptr (keys c)) = Some <$> l.*1) ∧ (wv = true → take (length l) (ptr (values c)) = Some <$> l.*2).

Lemma cache_get_ok c h L wk wv mk mv : map_of h L → coherent c h → (wk = true → wv = true → mv ≠ None) →
  ∃ r c' h', iterated_cache_get wk wv mk mv c h = Ret (r, c', h') ∧ map_of h' L ∧ h_type h' = h_type h ∧ coherent c' h' ∧
    ((r = 0 ∧ shows (h_type h) L wk wv c') ∨ (r = - ENOMEM ∧ ((wk = true ∧ mk = None) ∨ (wv = true ∧ mv = None)))).
Proof.
  intros M C Hm. destruct (entries_shape h L M) as (l & E & Hl & Hn). unfold iterated_cache_get. rewrite <- Hn.
  assert (dirty h = false → (active (keys c) = true → take (length l) (ptr (keys c)) = Some <$> l.*1) ∧ (active (values c) = true → take (length l) (ptr (values c)) = Some <$> l.*2)) as HC.
  { intros Hd. destruct (C Hd) as (l' & E' & ?). rewrite E in E'. by injection E' as <-. }
  set (h1 := if dirty h then set_clean h else h). assert (map_of h1 L ∧ hashmap_entries h1 = Ret (l, noted h1) ∧ h_type h1 = h_type h ∧ dirty h1 = false) as (M1 & E1 & Ht1 & Hd1).
  { subst h1. destruct (dirty h) eqn:Hd; [|done]. by destruct (entries_clean h L l M E). }
  assert (∀ c', (wk = active (keys c') ∧ (wk = true → take (length l) (ptr (keys c')) = Some <$> l.*1)) → (wv = active (values c') ∧ (wv = true → take (length l) (ptr (values c')) = Some <$> l.*2)) →
    coherent c' h1 ∧ shows (h_type h) L wk wv c') as HR.
  { intros c' [-> Hk] [-> Hv]. split; [|by exists l]. intros _. by exists l. }
  pose proof (array_ok (dirty h) wk mk (keys c) l.*1) as AK. rewrite length_fmap in AK. specialize (AK (λ Hd, proj1 (HC Hd))).
  pose proof (array_ok (dirty h) wv mv (values c) l.*2) as AV. rewrite length_fmap in AV. specialize (AV (λ Hd, proj2 (HC Hd))).
  destruct (if wk then _ else _) as [r ks]. destruct (if wv then _ else _) as [r' vs]. fold h1.
  destruct AK as [(-> & -> & -> & ->)|(Hr & Ek & kp & EK & HK)].
  { eexists _, _, h. split; [done|]. split; [done|]. split; [done|]. split; [by destruct c|]. right. auto. }
  rewrite (proj2 (Z.ltb_ge r 0)) by lia. destruct AV as [(-> & -> & -> & ->)|(Hr' & Ev & vp & EV & HV)].
  { destruct wk; [by destruct Hm|]. eexists _, _, h. split; [done|]. split; [done|]. split; [done|]. split; [|by right; auto].
    intros Hd. exists l. split; [done|]. split; [by cbn; rewrite Ek|]. by apply HC. }
  rewrite (proj2 (Z.ltb_ge r' 0)) by lia. destruct (_ || _ || _) eqn:Es.
  - rewrite E1. cbn [mbind outcome_bind]. rewrite EK, EV. cbn [lift mbind outcome_bind].
    destruct (HR (mk_cache (mk_cachemem kp (active ks)) (mk_cachemem vp (active vs)))) as [C' S]; [done..|].
    eexists _, _, (noted h1). split; [done|]. split; [by apply noted_map|]. split; [rewrite <- Ht1; apply frame_type, noted_same|]. split; [by apply (coherent_noted _ h1 L)|by left].
  - apply orb_false_iff in Es as [Es1 Es2]. rewrite Es1 in EK. rewrite Es2 in EV. injection EK as <-. injection EV as <-.
    destruct (HR (mk_cache ks vs)) as [C' S]; [done..|]. eexists _, _, h1. split; [done|]. split; [done|]. split; [done|]. split; [done|by left].
Qed.

(** Calls keep the arrays right: changes set the flag, and the order of an ordered
    map is that of its list. *)
Lemma call_coherent k c h L r h' L' : map_of h L → coherent c h → suits (h_type h) k → roomy (h_type h) (n_entries h + asks k) → (is_reserve k = true → h_type h = HASHMAP_TYPE_ORDERED) →
  run_call k h = Ret (r, h') → map_of h' L' → h_type h' = h_type h → spec_call (h_type h) h k L r L' → coherent c h'.
Proof.
  intros M C Hs Hr Hk E M' Ht S. destruct (is_reserve k) eqn:Ek; [|destruct (call_dirty k h L r h' M Ek E) as [Hd|[-> | ->]]; [|done|by apply (coherent_noted c h L)]; by intros Hd'; rewrite Hd in Hd'].
  specialize (Hk eq_refl). destruct k; try done. cbn [spec_call run_call suits asks] in *. destruct S as [_ ->]. intros Hd.
  destruct (entries_shape h' L M') as (l & El & Hl & _). destruct (entries_shape h L M) as (l' & El' & Hl' & _). exists l. split; [done|].
  rewrite Ht in Hl. unfold in_order in Hl, Hl'. rewrite decide_True in Hl, Hl' by done. assert (dirty h = false) as Hd0.
  { destruct (roomy_fits _ _ Hr) as [Hov _]. destruct (map_resize h L n M) as (r1 & h1 & E1 & _ & R); [|done|].
    - pose proof (mo_count _ _ M). unfold roomy, wanted in Hr. pose proof (entry_size_bounds (h_type h)). assert (0 ≤ (n_entries h + n) / (INV_KEEP_FREE - 1)) by (apply Z.div_pos; [lia|done]). nia.
    - unfold internal_hashmap_reserve in E. rewrite E1 in E. injection E as _ <-. by destruct R; congruence. }
  destruct (C Hd0) as (l0 & El0 & HC). rewrite El' in El0. injection El0 as <-. congruence.
Qed.

(** Requests that the cache can bear: no reservation on a map without an order of
    its own, and no failure to get memory for the second array of a call. *)
Definition bearable (t : HashmapType) (q : request) : Prop :=
  match q with
  | Call k => proper t k ∧ asks k ≤ 2 ^ 25 ∧ (is_reserve k = true → t = HASHMAP_TYPE_ORDERED)
  | CacheGet wk wv _ mv => wk = true → wv = true → mv ≠ None
  end.

Definition keys_of (q : request) : list Z := match q with Call k => new_keys k | _ => [] end.

Lemma read_shown w m (l : list (Z * Z)) n (f : list Z) : length l = n → (w = true → take (length l) (ptr m) = Some <$> f) → read_array w m n = if w then Some (Some <$> f) else None.
Proof. intros <- Hw. unfold read_array. destruct w; [|done]. by rewrite Hw. Qed.

Lemma request_ok q c h L : map_of h L → coherent c h → bearable (h_type h) q → NULL ∉ L.*1 → roomy (h_type h) (n_entries h + 2 ^ 25) →
  ∃ a c' h' L', run_request q c h = Ret (a, c', h') ∧ map_of h' L' ∧ h_type h' = h_type h ∧ coherent c' h' ∧ spec_request (h_type h) q L a L'.
Proof.
  intros M C Hq Hn Hr. pose proof (mo_count _ _ M) as Hc. destruct q as [k|wk wv mk mv]; cbn [run_request bearable spec_request] in *.
  - destruct Hq as ([Hs Hk] & Ha & Ho). assert (0 ≤ asks k) by (destruct k; cbn in *; lia). assert (roomy (h_type h) (n_entries h + asks k)) as Hr' by (apply (roomy_le _ (n_entries h + 2 ^ 25)); [lia|done]).
    destruct (call_ok h L k M Hs) as (r & h' & L' & E & M' & Ht & S); [|done|].
    + destruct k; cbn; try done. intros p Ep Hp. apply Hn. rewrite <- Hp. by apply (assoc_key old).
    + rewrite E. cbn [mbind outcome_bind]. eexists _, c, h', L'. split; [done|]. split; [done|]. split; [done|]. split; [by apply (call_coherent k c h L r h' L')|by exists r, h].
  - destruct (cache_get_ok c h L wk wv mk mv M C Hq) as (r & c' & h' & -> & M' & Ht & C' & R). cbn [mbind outcome_bind]. eexists _, c', h', L. split; [done|].
    split; [done|]. split; [done|]. split; [done|]. split; [done|]. destruct R as [(-> & l & Hl & Hks & Hvs)|[-> R]]; [left|by right]. exists l. split; [done|].
    pose proof (in_order_length _ _ _ Hl) as HL. cbn. by rewrite (read_shown wk (keys c') l _ l.*1), (read_shown wv (values c') l _ l.*2) by (done || lia).
Qed.

Lemma request_follows t q L a L' : spec_request t q L a L' → (length L' ≤ length L + 1)%nat ∧ ∀ p, p ∈ L' → p.1 ∈ L.*1 ∨ p.1 ∈ keys_of q.
Proof.
  destruct q as [k|]; cbn; [intros (r & h & _ & S); by apply (spec_follows t h k L r L')|]. intros [-> _]. split; [lia|]. intros p Hp. left. by apply list_elem_of_fmap_2.
Qed.

Lemma requests_ok t qs c h L : map_of h L → coherent c h → h_type h = t → Forall (bearable t) qs → NULL ∉ L.*1 → roomy t (Z.of_nat (length L + length qs) + 2 ^ 25) →
  ∃ l c' h' L', run_requests qs c h = Ret (l, c', h') ∧ map_of h' L' ∧ h_type h' = t ∧ spec_requests t qs L l L'.
Proof.
  intros M C Ht HB Hnull Hr. revert c h L M C Ht Hnull Hr. induction qs as [|q qs IH]; intros c h L M C Ht Hnull Hr; cbn [run_requests].
  { by exists [], c, h, L. }
  apply Forall_cons in HB as [Hq HB]. cbn [length] in Hr. destruct (request_ok q c h L M C) as (a & c1 & h1 & L1 & -> & M1 & Ht1 & C1 & S1).
  - by rewrite Ht.
  - done.
  - rewrite Ht, (mo_count _ _ M). by apply (roomy_le t (Z.of_nat (length L + S (length qs)) + 2 ^ 25)); [lia|].
  - cbn [mbind outcome_bind]. destruct (request_follows _ _ _ _ _ S1) as [Hlen Hkeys]. destruct (IH HB c1 h1 L1 M1 C1) as (l & c' & h' & L' & -> & M' & Ht' & S').
    + congruence.
    + intros (p & Ep & Hp)%list_elem_of_fmap. destruct (Hkeys p Hp) as [Hin|Hin]; rewrite <- Ep in Hin; [done|]. destruct q as [k|]; cbn in Hin; [by destruct Hq as [[_ ?] _]|by apply not_elem_of_nil in Hin].
    + apply (roomy_le t (Z.of_nat (length L + S (length qs)) + 2 ^ 25)); [lia|done].
    + cbn [mbind outcome_bind]. exists (a :: l), c', h', L'. split; [done|]. split; [done|]. split; [done|]. exists L1. split; [by rewrite <- Ht|done].
Qed.

(** C17. A cache shows its map: after any sequence of calls on a new map and of looks
    at its cache, with the limits of the sequences of calls above, no reservation on a map
    without order, and memory for the values whenever a look asks for both arrays: the
    arrays of each look have the keys and the values that the map
    has then, in one order, which is that of insertion for an ordered map, or the
    look fails because memory for the first array it asked for is missing, and later
    looks are right again. *)
Theorem iterated_cache_coherent (t : HashmapType) (qs : list request) (Hq : Forall (bearable t) qs) (Hl : Z.of_nat (length qs) ≤ 2 ^ 25) :
  ∃ c h l c' h' L, internal_hashmap_iterated_cache_new true (hashmap_base_new t) = Ret (Some c, h) ∧ run_requests qs c h = Ret (l, c', h') ∧ spec_requests t qs [] l L.
Proof.
  destruct (requests_ok t qs (mk_cache (mk_cachemem [] false) (mk_cachemem [] false)) (set_cached true (hashmap_base_new t)) []) as (l & c' & h' & L & E & _ & _ & S).
  - by apply (map_of_flags (hashmap_base_new t)); [..|apply new_ok].
  - intros _. destruct (entries_shape (set_cached true (hashmap_base_new t)) []) as (l & El & _); [by apply (map_of_flags (hashmap_base_new t)); [..|apply new_ok]|]. by exists l.
  - done.
  - done.
  - by apply not_elem_of_nil.
  - apply (roomy_le t (2 ^ 26)); [cbn [length]; lia|]. destruct t; vm_compute; done.
  - by eexists _, _, l, c', h', L.
Qed.

End Marks.

(** ** Where it does not hold *)

(** The map is reordered after the keys were looked at. *)
Definition reserved : list request :=
  map Call [Put 1 10; Put 7 20] ++ [CacheGet true false (Some 0%nat) None; Call (Reserve 100); CacheGet true true None (Some 0%nat)].

(** The second array of a look cannot be allocated. *)
Definition failing : list request := [Call (Put 1 10); CacheGet false false None None; CacheGet true true (Some 0%nat) None; CacheGet true false None None].

Definition answers (qs : list request) : outcome (list answer) :=
  '(c, h) ← internal_hashmap_iterated_cache_new true (hashmap_base_new HASHMAP_TYPE_PLAIN); c ←! c; '(l, _, _) ← run_requests qs c h; Ret l.

(** A reservation moves the entries of a plain map and does not set the flag: the
    key 1 then stands with the value of 7, and 7 with that of 1. And when memory for
    the values is missing, the array of keys counts as filled although it was not:
    the next look returns a word that was never written. *)
Theorem iterated_cache_stale :
  answers reserved = Ret [Answer (RInt 1); Answer (RInt 1); Arrays (Some [Some 1; Some 7]) None; Answer (RInt 0); Arrays (Some [Some 1; Some 7]) (Some [Some 20; Some 10])] ∧
  answers failing = Ret [Answer (RInt 1); Arrays None None; NoMemory; Arrays (Some [None]) None].
Proof. split; by vm_compute. Qed.

(** A sequence to which the theorem applies. *)
Definition looks : list request :=
  [Call (Put 1 10); CacheGet true true (Some 0%nat) (Some 0%nat); Call (Put 2 20); CacheGet true false None None; Call (Reserve 100); Call (Remove 1); CacheGet false true None None].

Lemma looks_bearable : Forall (bearable HASHMAP_TYPE_ORDERED) looks.
Proof. unfold looks, bearable, proper. repeat constructor; cbn; try done; set_solver. Qed.

Lemma iterated_cache_coherent_witness : ∃ c h l c' h' L, internal_hashmap_iterated_cache_new true (hashmap_base_new HASHMAP_TYPE_ORDERED) = Ret (Some c, h) ∧
  run_requests looks c h = Ret (l, c', h') ∧ spec_requests HASHMAP_TYPE_ORDERED looks [] l L.
Proof.
  apply (iterated_cache_coherent HASHMAP_TYPE_ORDERED looks); [apply looks_bearable|done].
Defined.
