(* ===== verification/HashFuncs.v ===== *)
(** * systemd: hash functions of strings and paths

    Models [src/app/multi_process/day1/systemd/src/basic/hash-funcs.c], the pairs of
    hash and comparison functions that hash maps are made with, and shows that they
    fit together: equal keys hash alike. For paths this takes the loops of
    [path_hash_func] and [path_compare] together, which both read a path as its
    components. A hash map with paths as keys then finds a path however it is
    written.

    Keys of a map are pointers; [mem] is the string that a pointer leads to, which
    does not change while it is a key. *)

From Stdlib Require Import String.
From S2P Require Import Prelude Outcome SipHash Hexdecoct Utf8 Utf8Props Escape EscapeProps StringUtil PathUtil PathUtilProps HashMap HashMapProps HashMapSpec HashMapIter HashMapOps HashMapMove HashMapSystem.

#[local] Open Scope Z_scope.
#[local] Set Warnings "-clear-no-such-hyp".

Definition string_hash_func (p : list Z) (state : siphash) : option siphash := siphash24_compress (p ++ [0]) state.

(** [string_compare_func] *)
Definition strcmp (a b : list Z) : Z := memcmp (a ++ [0]) (b ++ [0]).

(** The loop over the components. *)
Fixpoint path_hash_loop (fuel : nat) (q : list Z) (state : siphash) : option siphash :=
  match fuel with
  | O => None
  | S fuel =>
      let n := component q in
      if (n =? 0)%nat then Some state
      else
        state ← siphash24_compress (take n q) state;
        let q := drop n q in
        let n := span is_slash q in
        if char0 (drop n q) =? 0 then Some state
        else
          state ← siphash24_compress (take 1 q) state;
          path_hash_loop fuel (drop n q) state
  end.

Definition path_hash_func (q : list Z) (state : siphash) : option siphash :=
  let n := span is_slash q in
  state ← (if (0 <? n)%nat then siphash24_compress (take 1 q) state else Some state);
  path_hash_loop (S (length q)) (drop n q) state.

(** The bytes of a number, little endian. *)
Definition uint64_bytes (x : Z) : list Z := map (λ i, (x / 2 ^ (8 * Z.of_nat i)) mod 256) (seq 0 8).

Definition uint64_hash_func (p : Z) (state : siphash) : option siphash := siphash24_compress (uint64_bytes p) state.
Definition uint64_compare_func (a b : Z) : Z := if a <? b then -1 else if b <? a then 1 else 0.

(** ** What is hashed of a path *)

(** The components with single slashes between them, piece by piece. *)
Definition pieces (l : list (list Z)) : list (list Z) := match l with [] => [] | a :: l => a :: (l ≫= λ b, [[47]; b]) end.

Definition all_pieces (s : list Z) : list (list Z) := (if path_is_absolute s then [[47]] else []) ++ pieces (comps s).

(** The text of a path with single slashes. *)
Definition path_text (s : list Z) : list Z := (if path_is_absolute s then [47] else []) ++ relative (comps s).

Definition compress_all (chunks : list (list Z)) (state : option siphash) : option siphash := foldl (λ s c, s ≫= siphash24_compress c) state chunks.

Lemma compress_all_None chunks : compress_all chunks None = None.
Proof. by induction chunks. Qed.

Lemma compress_all_cons c chunks st : compress_all (c :: chunks) (Some st) = st ← siphash24_compress c st; compress_all chunks (Some st).
Proof. cbn. destruct (siphash24_compress c st); [done|]. apply compress_all_None. Qed.

Lemma concat_pieces l : concat (pieces l) = relative l.
Proof.
  destruct l as [|a l]; [done|]. cbn. f_equal. unfold slashed. induction l as [|b l IH]; [done|]. rewrite !bind_cons. cbn. by rewrite IH.
Qed.

Lemma all_pieces_text s : concat (all_pieces s) = path_text s.
Proof. unfold all_pieces, path_text. rewrite concat_app, concat_pieces. by destruct (path_is_absolute s). Qed.

Lemma path_hash_loop_spec fuel : ∀ q st, cstring q → (length q < fuel)%nat → q = [] ∨ path_is_absolute q = false →
  path_hash_loop fuel q st = compress_all (pieces (comps q)) (Some st).
Proof.
  induction fuel as [|fuel IH]; intros q st Hq Hf Ha; [lia|]. cbn [path_hash_loop]. pose proof (path_view_all q) as V.
  assert (skip_slashes q = q) as Es.
  { destruct Ha as [->|Ha]; [done|]. unfold path_is_absolute in Ha. destruct q as [|c q]; [done|]. unfold skip_slashes. cbn in *. unfold is_slash. by rewrite Ha. }
  destruct V as [E Ec|a b E Ec Hn Hb Hl]; rewrite Es in E.
  { subst q. done. }
  rewrite Ec, E, component_name by done. destruct (Nat.eqb_spec (length a) 0) as [H0|_]; [apply nil_length_inv in H0; by destruct Hn|].
  rewrite take_app_length, drop_app_length. cbn [pieces]. rewrite compress_all_cons. destruct (siphash24_compress a st) as [st1|]; [|done]. cbn [mbind option_bind].
  rewrite E in Hq. apply boundary_cstring in Hq as [Hca Hcb]. fold (skip_slashes b). rewrite char0_nil_iff by (by apply skip_slashes_cstring).
  destruct (path_view_all b) as [Eb Ecb|x b' Eb Ecb Hx Hb' Hlb].
  { by rewrite Eb, Ecb. }
  destruct Hb as [->|[b1 ->]]; [by destruct x; [destruct Hx|]|]. rewrite Eb, bool_decide_false by (destruct x; [by destruct Hx|done]).
  change (take 1 (47 :: b1)) with [47]. rewrite Ecb, bind_cons. change ([[47]; x] ++ (comps b' ≫= λ b, [[47]; b])) with ([47] :: pieces (x :: comps b')).
  rewrite compress_all_cons. destruct (siphash24_compress [47] st1) as [st2|]; [|done]. cbn [mbind option_bind].
  assert (comps (x ++ b') = x :: comps b') as <- by (by apply comps_name). apply IH.
  - rewrite <- Eb. by apply skip_slashes_cstring.
  - rewrite E, length_app in Hf. destruct a; [by destruct Hn|]. cbn [length] in Hf, Hlb. lia.
  - right. unfold path_is_absolute. apply Z.eqb_neq. apply name_char0; [done|]. pose proof (skip_slashes_cstring _ Hcb) as Hc. rewrite Eb in Hc. by apply boundary_cstring in Hc as [? _].
Qed.

Lemma path_hash_spec s st : cstring s → path_hash_func s st = compress_all (all_pieces s) (Some st).
Proof.
  intros Hs. unfold path_hash_func, all_pieces. pose proof (path_view_all s) as V. assert (comps (skip_slashes s) = comps s ∧ (skip_slashes s = [] ∨ path_is_absolute (skip_slashes s) = false)) as [Ec Ha].
  { pose proof (skip_slashes_cstring s Hs) as Hc. destruct V as [E ->|a b E -> Hn Hb _]; rewrite E in *; [by split; [|left]|]. split; [by apply comps_name|]. right.
    apply boundary_cstring in Hc as [Hc _]. unfold path_is_absolute. apply Z.eqb_neq. by apply name_char0. }
  assert ((0 <? span is_slash s)%nat = path_is_absolute s) as -> by (destruct s as [|c s]; [done|]; cbn; unfold is_slash, path_is_absolute; cbn; by destruct (c =? 47)).
  assert (length (skip_slashes s) ≤ length s)%nat as Hl by (unfold skip_slashes; rewrite length_drop; lia). fold (skip_slashes s).
  destruct (path_is_absolute s) eqn:Eab; cbn [app].
  - assert (take 1 s = [47]) as -> by (destruct s as [|c s]; [done|]; unfold path_is_absolute in Eab; cbn in Eab; apply Z.eqb_eq in Eab as ->; done). rewrite compress_all_cons.
    destruct (siphash24_compress [47] st) as [st1|]; [|done]. cbn [mbind option_bind]. rewrite path_hash_loop_spec, Ec by (done || lia || by apply skip_slashes_cstring). done.
  - cbn [mbind option_bind]. rewrite path_hash_loop_spec, Ec by (done || lia || by apply skip_slashes_cstring). done.
Qed.

Lemma path_compare_zero a b : cstring a → cstring b → path_compare a b = Some 0 ↔ path_is_absolute a = path_is_absolute b ∧ comps a = comps b.
Proof.
  intros Ha Hb. rewrite path_compare_lex by done. transitivity (lex (path_key a) (path_key b) = 0); [split; [congruence|by intros ->]|]. rewrite lex_eq. unfold path_key. split.
  - intros [= E1 E2]. split; [by destruct (path_is_absolute a), (path_is_absolute b)|]. apply flat_inj in E2; [done|by apply comps_cstring..].
  - by intros [-> ->].
Qed.

Lemma path_text_eq a b : path_text a = path_text b ↔ path_is_absolute a = path_is_absolute b ∧ comps a = comps b.
Proof.
  assert (∀ s, comps (path_text s) = comps s) as HC.
  { intros s. unfold path_text. pose proof (comps_relative (comps s) (comps_names s)) as Hr. destruct (path_is_absolute s); [cbn [app]; by rewrite comps_slash|done]. }
  assert (∀ s, path_is_absolute (path_text s) = path_is_absolute s) as HA.
  { intros s. unfold path_text. destruct (path_is_absolute s); [done|]. cbn [app]. apply relative_is_relative, comps_names. }
  split; [|unfold path_text; by intros [-> ->]]. intros E. by rewrite <- (HA a), <- (HA b), <- (HC a), <- (HC b), E.
Qed.

(** [path_hash_func] and [path_compare] fit together: two paths that compare
    equal are those with the same text once slashes are single, and what is hashed
    of a path is this text and nothing else, whatever the number of calls of
    [siphash24_compress]; so paths that compare equal hash alike. *)
Theorem path_hash_correct (a b k : list Z) (Ha : cstring a) (Hb : cstring b) (Hk : (16 ≤ length k)%nat) :
  (path_compare a b = Some 0 ↔ path_text a = path_text b) ∧ (path_compare a b = Some 0 → ∀ state, path_hash_func a state = path_hash_func b state) ∧
  ∃ init state, siphash24_init k = Some init ∧ path_hash_func a init = Some state ∧ siphash_reference (path_text a) k = Some (siphash24_finalize state).
Proof.
  split; [by rewrite path_compare_zero, path_text_eq|]. split.
  - intros [E1 E2]%path_compare_zero state; [|done..]. rewrite !path_hash_spec by done. unfold all_pieces. by rewrite E1, E2.
  - destruct (init_total k Hk) as (init & Ei & Er). exists init, (rep init (path_text a)). split; [done|]. split; [|unfold siphash_reference; by rewrite Ei].
    rewrite path_hash_spec, <- Er, <- all_pieces_text by done. unfold compress_all. rewrite compress_chunks; [by rewrite Er|done|]. unfold all_pieces.
    apply Forall_app. split; [destruct (path_is_absolute a); by repeat constructor|]. pose proof (comps_cstring a Ha) as HC. unfold pieces.
    assert (∀ l, Forall cstring l → Forall (Forall is_byte) (l ≫= λ b, [[47]; b])) as HP.
    { induction l as [|x l IH]; intros Hl; [constructor|]. apply Forall_cons in Hl as [Hx Hl]. rewrite bind_cons. repeat constructor; try done; [by apply cstring_is_bytes|by apply IH]. }
    destruct (comps a) as [|x l]; [constructor|]. apply Forall_cons in HC as [Hx HC]. constructor; [by apply cstring_is_bytes|by apply HP].
Qed.

Lemma path_hash_correct_witness : ∃ init state, siphash24_init (replicate 16 0) = Some init ∧ path_hash_func (bytes_of "//usr///lib/") init = Some state ∧
  siphash_reference (path_text (bytes_of "//usr///lib/")) (replicate 16 0) = Some (siphash24_finalize state).
Proof. apply (path_hash_correct (bytes_of "//usr///lib/") (bytes_of "/usr/lib")); [apply (bool_decide_unpack _); by vm_compute..|by vm_compute]. Defined.

(** ** Maps with such keys *)

Lemma assoc_same `{LawfulHash} k q L : compare_func k q = 0 → assoc k L = assoc q L.
Proof.
  intros E. induction L as [|p L IH]; [done|]. cbn. destruct (decide (compare_func p.1 k = 0)) as [E1|E1], (decide (compare_func p.1 q = 0)) as [E2|E2]; [done|..|done].
  - destruct E2. by apply (compare_trans _ k).
  - destruct E1. apply (compare_trans _ q); [done|]. by apply compare_sym.
Qed.

Section Maps.
Context (mem : Z → list Z) (shared : list Z) (new_key : HashmapBase → bool → list Z) (alloc : HashmapBase → Z → bool).

(** A hash function without its failures, which there are none of in the states of a
    table. *)
Definition total_hash (f : list Z → siphash → option siphash) (p : Z) (state : siphash) : siphash := default state (f (mem p) state).

Definition string_hash_ops : HashEnv := {|
  hash_func := total_hash string_hash_func; compare_func a b := strcmp (mem a) (mem b); shared_hash_key := shared; new_hash_key := new_key; realloc_ok := alloc |}.

Definition path_hash_ops : HashEnv := {|
  hash_func := total_hash path_hash_func; compare_func a b := default 1 (path_compare (mem a) (mem b)); shared_hash_key := shared; new_hash_key := new_key; realloc_ok := alloc |}.

Hypothesis mem_strings : ∀ p, cstring (mem p).
Hypothesis shared_ok : length shared = 16%nat.
Hypothesis new_ok : ∀ h b, length (new_key h b) = 16%nat.

Lemma strcmp_zero a b : cstring a → cstring b → strcmp a b = 0 ↔ a = b.
Proof.
  unfold strcmp. revert b. induction a as [|x a IH]; intros [|y b] Ha Hb; cbn [app memcmp].
  - done.
  - apply Forall_cons in Hb as [Hy _]. split; [|done]. destruct (Z.ltb_spec 0 y); [done|lia].
  - apply Forall_cons in Ha as [Hx _]. split; [|done]. destruct (Z.ltb_spec x 0), (Z.ltb_spec 0 x); done || lia.
  - apply Forall_cons in Ha as [_ Ha], Hb as [_ Hb]. destruct (Z.ltb_spec x y); [split; [done|intros [= -> ->]; lia]|].
    destruct (Z.ltb_spec y x); [split; [done|intros [= -> ->]; lia]|]. rewrite IH by done. assert (x = y) as -> by lia. split; [by intros ->|by intros [= ->]].
Qed.

Lemma string_lawful : @LawfulHash string_hash_ops.
Proof.
  split; cbn.
  - intros a. by apply strcmp_zero.
  - intros a b E. apply strcmp_zero in E; [|done..]. by apply strcmp_zero.
  - intros a b c E E'. apply strcmp_zero in E, E'; [|done..]. apply strcmp_zero; [done..|congruence].
  - intros a b st E. apply strcmp_zero in E; [|done..]. unfold total_hash. by rewrite E.
  - destruct (init_total shared) as (i & -> & _); [lia|by eexists].
  - intros h b. destruct (init_total (new_key h b)) as (i & -> & _); [rewrite new_ok; lia|by eexists].
Qed.

Lemma path_zero a b : default 1 (path_compare (mem a) (mem b)) = 0 ↔ path_text (mem a) = path_text (mem b).
Proof.
  rewrite path_text_eq, <- path_compare_zero by done. rewrite path_compare_lex by done. split; intros E; [f_equal; exact E|by rewrite E].
Qed.

Lemma path_lawful : @LawfulHash path_hash_ops.
Proof.
  split; cbn [hash_func compare_func shared_hash_key new_hash_key path_hash_ops].
  - intros a. by apply path_zero.
  - intros a b E. apply path_zero in E. by apply path_zero.
  - intros a b c E E'. apply path_zero in E, E'. apply path_zero. congruence.
  - intros a b st E. apply path_zero, path_text_eq in E as [E1 E2]. unfold total_hash. rewrite !path_hash_spec by done. unfold all_pieces. by rewrite E1, E2.
  - destruct (init_total shared) as (i & -> & _); [lia|by eexists].
  - intros h b. destruct (init_total (new_key h b)) as (i & -> & _); [rewrite new_ok; lia|by eexists].
Qed.

(** The value of the first of some paths that is the same path as [q]. *)
Fixpoint first_match (q : Z) (ps : list (Z * Z)) : Z :=
  match ps with
  | [] => NULL
  | (p, v) :: ps => if decide (path_text (mem p) = path_text (mem q)) then v else first_match q ps
  end.

Definition puts (ps : list (Z * Z)) : list call := map (λ p, Put p.1 p.2) ps.

#[local] Existing Instance path_hash_ops.

Lemma puts_get q ps h L rs L' : (∀ h n, alloc h n = true) → spec_calls HASHMAP_TYPE_PLAIN h (puts ps ++ [Get q]) L rs L' →
  last rs = Some (RInt (match assoc q L with Some p => p.2 | None => first_match q ps end)).
Proof.
  intros Hal. pose proof path_lawful as LH. revert h L rs. induction ps as [|[k v] ps IH]; intros h L rs S; destruct rs as [|r rs]; try done.
  - destruct S as (h1 & L1 & _ & [-> _] & S). destruct rs; [|done]. cbn. unfold found_value. by destruct (assoc q L).
  - destruct S as (h1 & L1 & _ & S1 & S). apply IH in S. rewrite last_cons, S. f_equal. f_equal. clear S IH. cbn [spec_call first_match fst snd] in *. destruct (assoc k L) as [p|] eqn:Ek.
    + destruct S1 as [_ ->]. destruct (assoc q L) eqn:Eq; [done|]. rewrite decide_False; [done|]. intros E%path_zero. rewrite (@assoc_same path_hash_ops LH k q L E) in Ek. congruence.
    + destruct S1 as [[_ ->]|(_ & _ & n & Hno)]; [|cbn in Hno; by rewrite Hal in Hno]. rewrite assoc_append. destruct (assoc q L); [done|]. cbn.
      destruct (decide (path_text (mem k) = path_text (mem q))) as [E|E]; rewrite <- path_zero in E; by case_decide.
Qed.

(** C16. A hash map with paths as keys: after any paths were put into a new map, with
    memory to grow, a look-up gives the value of the first of them that is the same
    path, however both are written, or NULL; two spellings of a path share one
    entry. *)
Theorem path_map_correct (ps : list (Z * Z)) (q : Z) (Hps : Forall (λ p, p.1 ≠ NULL) ps) (Hn : Z.of_nat (length ps) < 2 ^ 25) (Hal : ∀ h n, alloc h n = true) :
  ∃ rs h, run_calls (puts ps ++ [Get q]) (hashmap_base_new HASHMAP_TYPE_PLAIN) = Ret (rs, h) ∧ last rs = Some (RInt (first_match q ps)).
Proof.
  pose proof path_lawful as LH. destruct (calls_ok HASHMAP_TYPE_PLAIN 1 (puts ps ++ [Get q]) (hashmap_base_new HASHMAP_TYPE_PLAIN) []) as (rs & h & L & E & _ & _ & S).
  - apply HashMapOps.new_ok.
  - done.
  - apply Forall_app. split; [|repeat constructor; apply not_elem_of_nil]. apply Forall_map. eapply Forall_impl; [done|]. intros [k v] Hk. split; [done|]. cbn in *. intros E%list_elem_of_singleton. by rewrite E in Hk.
  - by apply not_elem_of_nil.
  - apply Forall_app. split; [by apply Forall_map, Forall_true|by repeat constructor].
  - done.
  - unfold puts. rewrite length_app, length_map. apply (roomy_le _ (2 ^ 26)); [cbn [length]; lia|by vm_compute].
  - exists rs, h. split; [done|]. by rewrite (puts_get q ps (hashmap_base_new HASHMAP_TYPE_PLAIN) [] rs L).
Qed.

End Maps.

(** Three spellings of a path, and another. *)
Definition some_paths (p : Z) : list Z :=
  if p =? 1 then bytes_of "/usr/lib" else if p =? 2 then bytes_of "//usr///lib/" else if p =? 3 then bytes_of "/usr/lib/" else bytes_of "usr/lib".

Lemma some_paths_ok p : cstring (some_paths p).
Proof. unfold some_paths. repeat case_match; apply (bool_decide_unpack _); by vm_compute. Qed.

Lemma path_map_correct_witness : ∃ rs h, @run_calls (path_hash_ops some_paths (replicate 16 1) (λ _ _, replicate 16 2) (λ _ _, true)) (puts [(1, 10); (2, 20); (4, 40)] ++ [Get 3])
    (hashmap_base_new HASHMAP_TYPE_PLAIN) = Ret (rs, h) ∧ last rs = Some (RInt 10).
Proof.
  destruct (path_map_correct some_paths (replicate 16 1) (λ _ _, replicate 16 2) (λ _ _, true) some_paths_ok eq_refl (λ _ _, eq_refl) [(1, 10); (2, 20); (4, 40)] 3) as (rs & h & E & El);
    [by repeat constructor|done|done|]. exists rs, h. split; [exact E|]. rewrite El. by vm_compute.
Defined.
