(* ===== verification/StrBuf.v ===== *)
(** * systemd: string buffers

    Models [src/app/multi_process/day1/systemd/src/basic/strbuf.c]: strings in one
    buffer, each followed by a NUL, where a string that is the tail of another is
    stored once. A trie of the strings read backwards finds the tails.

    The buffer is the list of its bytes and [len] its length. A node is the tree
    below it; the pointer to a node that the search ends at is the list of the
    positions of the children that lead to it. Of the array of children the list
    has the part that [children_count], an 8-bit number, counts. Whether the three
    allocations of [strbuf_add_string] succeed is an argument. The release of the
    memory is not modelled. *)

From S2P Require Import Prelude Bsearch.

#[local] Open Scope Z_scope.
#[local] Set Warnings "-register-all".

Inductive strbuf_node := mk_node (value_off value_len : Z) (children : list (Z * strbuf_node)).

Definition value_off (n : strbuf_node) : Z := let '(mk_node o _ _) := n in o.
Definition value_len (n : strbuf_node) : Z := let '(mk_node _ l _) := n in l.
Definition children (n : strbuf_node) : list (Z * strbuf_node) := let '(mk_node _ _ c) := n in c.

Record strbuf := mk_strbuf { buf : list Z; root : option strbuf_node;
  nodes_count : Z; in_count : Z; in_len : Z; dedup_len : Z; dedup_count : Z }.

Definition len (str : strbuf) : Z := Z.of_nat (length (buf str)).

Definition strbuf_new : strbuf := mk_strbuf [0] (Some (mk_node 0 0 [])) 1 0 0 0 0.

Definition strbuf_complete (str : strbuf) : strbuf :=
  mk_strbuf (buf str) None (nodes_count str) (in_count str) (in_len str) (dedup_len str) (dedup_count str).

(** [n] bytes at [off], if the buffer has them. *)
Definition slice (b : list Z) (off : Z) (n : nat) : option (list Z) :=
  if (0 <=? off) && (off + Z.of_nat n <=? Z.of_nat (length b)) then Some (take n (drop (Z.to_nat off) b)) else None.

(** Of the characters of two children. *)
Definition strbuf_children_cmp (c1 c2 : Z) : Z := c1 - c2.

(** The position after all children up to [c]. *)
Fixpoint bisect (fuel : nat) (c : Z) (l : list (Z * strbuf_node)) (left right : nat) : option nat :=
  match fuel with
  | O => None
  | S fuel =>
      if (left <? right)%nat then
        let middle := ((right + left) / 2)%nat in
        e ← l !! middle;
        if strbuf_children_cmp e.1 c <=? 0 then bisect fuel c l (middle + 1) right else bisect fuel c l left middle
      else Some left
  end.

Definition bubbleinsert (c : Z) (node_child : strbuf_node) (node : strbuf_node) : option strbuf_node :=
  let l := children node in
  left ← bisect (S (length l)) c l 0 (length l);
  Some (mk_node (value_off node) (value_len node)
    (take (Z.to_nat (wrapu 8 (Z.of_nat (length l) + 1))) (take left l ++ (c, node_child) :: drop left l))).

(** Changes the node at a position. *)
Fixpoint at_node (f : strbuf_node → option strbuf_node) (path : list nat) (n : strbuf_node) : option strbuf_node :=
  match path with
  | [] => f n
  | i :: path =>
      '(c, child) ← children n !! i;
      child ← at_node f path child;
      Some (mk_node (value_off n) (value_len n) (<[i := (c, child)]> (children n)))
  end.

(** The loop over the characters of [s] from the last on: the offset of the string,
    or where a child for which character is missing. *)
Fixpoint search_node (b s todo : list Z) (node : strbuf_node) : option (Z + list nat * Z) :=
  let off := wraps 64 (value_off node + value_len node - Z.of_nat (length s)) in
  match todo with
  | [] => Some (inl off)
  | c :: todo =>
      found ← (if Z.of_nat (length s) <=? value_len node then v ← slice b off (length s); Some (bool_decide (v = s)) else Some false);
      if found : bool then Some (inl off)
      else
        match bsearch (λ e, strbuf_children_cmp c e.1) (children node) with
        | None => Some (inr ([], c))
        | Some i =>
            '(_, child) ← children node !! i;
            r ← search_node b s todo child;
            Some (match r with inl off => inl off | inr (path, c) => inr (i :: path, c) end)
        end
  end.

(** Which allocations succeed: the buffer, the node, the array of children. *)
Record memory := mk_memory { buf_new : bool; node_new : bool; children_new : bool }.

Definition all_memory (m : memory) : bool := buf_new m && node_new m && children_new m.

Definition strbuf_add_string (m : memory) (s : list Z) (str : strbuf) : option (Z * strbuf) :=
  match root str with
  | None => Some (- EINVAL, str)
  | Some node =>
      let n := Z.of_nat (length s) in
      let in_count := wrapu 64 (in_count str + 1) in
      if n =? 0 then Some (0, mk_strbuf (buf str) (root str) (nodes_count str) in_count (in_len str) (dedup_len str) (wrapu 64 (dedup_count str + 1)))
      else
        let in_len := wrapu 64 (in_len str + n) in
        r ← search_node (buf str) s (rev s) node;
        match r with
        | inl off => Some (off, mk_strbuf (buf str) (root str) (nodes_count str) in_count in_len (wrapu 64 (dedup_len str + n)) (wrapu 64 (dedup_count str + 1)))
        | inr (path, c) =>
            if negb (buf_new m) then Some (- ENOMEM, mk_strbuf (buf str) (root str) (nodes_count str) in_count in_len (dedup_len str) (dedup_count str))
            else
              let off := wraps 64 (len str) in
              let b := buf str ++ s ++ [0] in
              if negb (node_new m && children_new m) then Some (- ENOMEM, mk_strbuf b (root str) (nodes_count str) in_count in_len (dedup_len str) (dedup_count str))
              else
                node ← at_node (bubbleinsert c (mk_node (len str) n [])) path node;
                Some (off, mk_strbuf b (Some node) (wrapu 64 (nodes_count str + 1)) in_count in_len (dedup_len str) (dedup_count str))
        end
  end.

(** ** Runs *)

Fixpoint add_strings (l : list (memory * list Z)) (str : strbuf) : option (list Z * strbuf) :=
  match l with
  | [] => Some ([], str)
  | (m, s) :: l => '(r, str) ← strbuf_add_string m s str; '(rs, str) ← add_strings l str; Some (r :: rs, str)
  end.

Definition enough_memory : memory := mk_memory true true true.
