(* ===== verification/StrBufProps.v ===== *)
(** * systemd: string buffers keep every string once

    The trie of a string buffer leads to every string that was added and to all
    tails of them; an insertion changes no offset that was given out. *)

From S2P Require Import Prelude Bsearch StrBuf.

#[local] Open Scope Z_scope.

(** ** Parts of the buffer *)

Lemma slice_Some b off n v : slice b off n = Some v ↔ 0 ≤ off ∧ off + Z.of_nat n ≤ Z.of_nat (length b) ∧ v = take n (drop (Z.to_nat off) b).
Proof.
  unfold slice. destruct (Z.leb_spec 0 off), (Z.leb_spec (off + Z.of_nat n) (Z.of_nat (length b))); cbn; split; try done; try lia.
  - by intros [= <-].
  - by intros (_ & _ & ->).
Qed.

Lemma slice_length b off n v : slice b off n = Some v → length v = n.
Proof. intros (H0 & H1 & ->)%slice_Some. rewrite length_take, length_drop. lia. Qed.

Lemma slice_app b x off n v : slice b off n = Some v → slice (b ++ x) off n = Some v.
Proof.
  intros (H0 & H1 & ->)%slice_Some. apply slice_Some. split; [done|]. rewrite length_app. split; [lia|].
  rewrite drop_app_le, take_app_le by (rewrite ?length_drop; lia). done.
Qed.

Lemma slice_tail b off u w : slice b off (length (u ++ w)) = Some (u ++ w) → slice b (off + Z.of_nat (length u)) (length w) = Some w.
Proof.
  intros (H0 & H1 & E)%slice_Some. rewrite length_app in *. apply slice_Some. split; [lia|]. split; [lia|].
  replace (Z.to_nat (off + Z.of_nat (length u))) with (Z.to_nat off + length u)%nat by lia. rewrite <- drop_drop, take_drop_commute.
  by rewrite <- E, drop_app_length.
Qed.

Lemma slice_new b w : slice (b ++ w) (Z.of_nat (length b)) (length w) = Some w.
Proof. apply slice_Some. rewrite length_app, Nat2Z.id, drop_app_length. split; [lia|]. split; [lia|]. by rewrite firstn_all. Qed.

(** ** Children *)

Definition ascending (l : list (Z * strbuf_node)) : Prop := ∀ i j x y, (i < j)%nat → l !! i = Some x → l !! j = Some y → x.1 < y.1.

Lemma ascending_key l i j x y : ascending l → l !! i = Some x → l !! j = Some y → x.1 = y.1 → i = j.
Proof.
  intros HA Ex Ey E. destruct (Nat.lt_total i j) as [Hlt|[|Hlt]]; [|done|].
  - pose proof (HA i j x y Hlt Ex Ey). lia.
  - pose proof (HA j i y x Hlt Ey Ex). lia.
Qed.

Lemma child_found l c i : ascending l → bsearch (λ e, strbuf_children_cmp c e.1) l = Some i ↔ ∃ n, l !! i = Some (c, n).
Proof.
  intros HA. unfold strbuf_children_cmp. split.
  - intros ([c' n] & E & Hc)%bsearch_sound. exists n. rewrite E. cbn in Hc. do 2 f_equal. lia.
  - intros [n E]. destruct (bsearch (λ n2, c - n2.1) l) as [j|] eqn:Ej.
    + apply bsearch_sound in Ej as ([c' n'] & E' & Hc). cbn in Hc. f_equal. eapply (ascending_key l j i); [done..|]. cbn. lia.
    + exfalso. revert Ej. apply bsearch_spec.
      * intros a b x y Hab Ex Ey. pose proof (HA a b x y Hab Ex Ey). lia.
      * exists (c, n). split; [by eapply list_elem_of_lookup_2|cbn; lia].
Qed.

Lemma bisect_ok l c fuel left right : ascending l → (∀ x, x ∈ l → x.1 ≠ c) → (right - left < fuel)%nat → (left ≤ right ≤ length l)%nat →
  (∀ i x, (i < left)%nat → l !! i = Some x → x.1 < c) → (∀ i x, (right ≤ i)%nat → l !! i = Some x → c < x.1) →
  ∃ p, bisect fuel c l left right = Some p ∧ (p ≤ length l)%nat ∧ (∀ i x, (i < p)%nat → l !! i = Some x → x.1 < c) ∧ (∀ i x, (p ≤ i)%nat → l !! i = Some x → c < x.1).
Proof.
  intros HA Hc. revert left right. induction fuel as [|fuel IH]; intros left right Hf Hb Hl Hr; [lia|]. cbn [bisect].
  destruct (Nat.ltb_spec left right) as [Hlt|Hge].
  2:{ exists left. split; [done|]. split; [lia|]. split; [done|]. intros i x Hi. apply Hr. lia. }
  assert (left ≤ (right + left) / 2 < right)%nat as Hm.
  { pose proof (Nat.div_mod_eq (right + left) 2). pose proof (Nat.mod_upper_bound (right + left) 2). lia. }
  set (m := ((right + left) / 2)%nat) in *. destruct (lookup_lt_is_Some_2 l m) as [e Ee]; [lia|]. rewrite Ee. cbn [mbind option_bind]. unfold strbuf_children_cmp.
  pose proof (Hc e (list_elem_of_lookup_2 _ _ _ Ee)). destruct (Z.leb_spec (e.1 - c) 0) as [Hle|Hgt].
  - apply IH; [lia|lia| |done]. intros i x Hi Ex. destruct (decide (i = m)) as [->|]; [simplify_eq; lia|]. pose proof (HA i m x e ltac:(lia) Ex Ee). lia.
  - apply IH; [lia|lia|done|]. intros i x Hi Ex. destruct (decide (i = m)) as [->|]; [simplify_eq; lia|]. pose proof (HA m i e x ltac:(lia) Ee Ex). lia.
Qed.

Lemma lookup_inserted {A} (l : list A) p e i : (p ≤ length l)%nat →
  (take p l ++ e :: drop p l) !! i = if decide (i < p)%nat then l !! i else if decide (i = p) then Some e else l !! (i - 1)%nat.
Proof.
  intros Hp. case_decide; [rewrite lookup_app_l by (rewrite length_take; lia); by rewrite lookup_take_lt|].
  rewrite lookup_app_r, length_take, Nat.min_l by (rewrite ?length_take; lia). case_decide as E.
  - subst. by rewrite Nat.sub_diag.
  - replace (i - p)%nat with (S (i - p - 1)) by lia. change ((e :: drop p l) !! S (i - p - 1)) with (drop p l !! (i - p - 1)%nat). rewrite lookup_drop. f_equal. lia.
Qed.

(** Keys that are characters of C strings are fewer than 256. *)
Lemma ascending_length l : ascending l → (∀ x, x ∈ l → 0 < x.1 < 256) → (length l ≤ 255)%nat.
Proof.
  intros HA Hk. assert (∀ i x, l !! i = Some x → Z.of_nat i < x.1) as HI.
  { induction i as [|i IH]; intros x Ex; [by apply Hk; eapply list_elem_of_lookup_2|].
    destruct (lookup_lt_is_Some_2 l i) as [y Ey]; [apply lookup_lt_Some in Ex; lia|]. pose proof (IH y Ey). pose proof (HA i (S i) y x ltac:(lia) Ey Ex). lia. }
  destruct (decide (length l = 0)%nat); [lia|]. destruct (lookup_lt_is_Some_2 l (length l - 1)) as [x Ex]; [lia|].
  pose proof (HI _ x Ex). pose proof (Hk x (list_elem_of_lookup_2 _ _ _ Ex)). lia.
Qed.

Lemma bubbleinsert_ok off n l c child : ascending l → (∀ x, x ∈ l → 0 < x.1 < 256) → 0 < c < 256 → (∀ x, x ∈ l → x.1 ≠ c) →
  ∃ l', bubbleinsert c child (mk_node off n l) = Some (mk_node off n l') ∧ ascending l' ∧ l' ≡ₚ (c, child) :: l.
Proof.
  intros HA Hk Hc Hn. destruct (bisect_ok l c (S (length l)) 0 (length l) HA Hn) as (p & Ep & Hp & Hlo & Hhi); [lia|lia|intros; lia|by intros i x Hi Ex%lookup_lt_Some; lia|].
  unfold bubbleinsert. cbn [children value_off value_len]. rewrite Ep. cbn [mbind option_bind]. set (l' := take p l ++ (c, child) :: drop p l).
  assert (l' ≡ₚ (c, child) :: l) as HP by (subst l'; by rewrite <- Permutation_middle, take_drop).
  assert (ascending l') as HA'.
  { intros i j x y Hij. subst l'. rewrite !lookup_inserted by done. intros Ex Ey.
    repeat case_decide; simplify_eq; try lia; cbn; [by apply (HA i j)|by apply (Hlo i)|by apply (HA i (j - 1)%nat); [lia|..]|by apply (Hhi (j - 1)%nat); [lia|]|by apply (HA (i - 1)%nat (j - 1)%nat); [lia|..]]. }
  exists l'. split; [|done]. do 2 f_equal. assert (length l' ≤ 255)%nat as Hl.
  { apply ascending_length; [done|]. intros x. rewrite HP. intros [->|Hx]%elem_of_cons; [done|by apply Hk]. }
  rewrite (Permutation_length HP) in Hl. cbn [length] in Hl. rewrite wrapu_small by lia. apply take_ge. rewrite (Permutation_length HP). cbn. lia.
Qed.

(** ** The trie *)

(** A node below the characters [p]: its string is in the buffer, with its NUL, and
    ends with them. *)
Inductive trie (b : list Z) : list Z → strbuf_node → Prop :=
  | trie_node p off v l : slice b off (S (length v)) = Some (v ++ [0]) → p `suffix_of` v → ascending l →
      (∀ c n, (c, n) ∈ l → 0 < c < 256) → (∀ c n, (c, n) ∈ l → trie b (c :: p) n) → trie b p (mk_node off (Z.of_nat (length v)) l).

Lemma trie_app b x p n : trie b p n → trie (b ++ x) p n.
Proof. induction 1 as [p off v l Es Hp Ha Hk _ IH]. constructor; try done. by apply slice_app. Qed.

(** The buffer fits into the address space. *)
Definition small (b : list Z) : Prop := Z.of_nat (length b) < 2 ^ 62.

Definition chars (s : list Z) : Prop := Forall (λ c, 0 < c < 256) s.

(** The offset of a tail [s] of the string at [off]. *)
Lemma tail_at b off v s : slice b off (S (length v)) = Some (v ++ [0]) → small b → s `suffix_of` v →
  let o := wraps 64 (off + Z.of_nat (length v) - Z.of_nat (length s)) in 0 ≤ o ∧ slice b o (length s) = Some s ∧ slice b o (S (length s)) = Some (s ++ [0]).
Proof.
  unfold small. intros Es Hb [u ->]. pose proof Es as (H0 & H1 & _)%slice_Some. rewrite length_app in *. cbn zeta. replace (off + Z.of_nat (length u + length s) - Z.of_nat (length s)) with (off + Z.of_nat (length u)) by lia.
  rewrite wraps_small by lia. split; [lia|]. rewrite <- app_assoc in Es. replace (S (length u + length s)) with (length (u ++ s ++ [0])) in Es by (rewrite !length_app; cbn; lia).
  apply slice_tail in Es. rewrite length_app, Nat.add_comm in Es. cbn in Es. split; [|done].
  apply slice_Some in Es as (H2 & H3 & E). apply slice_Some. split; [lia|]. split; [lia|]. rewrite <- (take_app_length s [0]) at 1. rewrite E, take_take. f_equal. lia.
Qed.

(** The comparison at a node. *)
Lemma match_at b off v s : slice b off (S (length v)) = Some (v ++ [0]) → small b →
  (if Z.of_nat (length s) <=? Z.of_nat (length v) then x ← slice b (wraps 64 (off + Z.of_nat (length v) - Z.of_nat (length s))) (length s); Some (bool_decide (x = s)) else Some false)
  = Some (bool_decide (s `suffix_of` v)).
Proof.
  intros Es Hb. destruct (Z.leb_spec (Z.of_nat (length s)) (Z.of_nat (length v))) as [Hle|Hgt].
  - assert (drop (length v - length s) v `suffix_of` v) as Ht by (exists (take (length v - length s) v); by rewrite take_drop).
    destruct (tail_at b off v _ Es Hb Ht) as (_ & E & _). rewrite length_drop in E. replace (length v - (length v - length s))%nat with (length s) in E by lia. rewrite E. cbn.
    f_equal. apply bool_decide_ext. split; [by intros <-|]. intros [u ->]. rewrite length_app. replace (length u + length s - length s)%nat with (length u) by lia. by rewrite drop_app_length.
  - rewrite bool_decide_false; [done|]. intros Hs%suffix_length. lia.
Qed.

Lemma search_step b s c todo p off v l : trie b p (mk_node off (Z.of_nat (length v)) l) → slice b off (S (length v)) = Some (v ++ [0]) → small b →
  search_node b s (c :: todo) (mk_node off (Z.of_nat (length v)) l) =
  if bool_decide (s `suffix_of` v) then Some (inl (wraps 64 (off + Z.of_nat (length v) - Z.of_nat (length s))))
  else match bsearch (λ e, strbuf_children_cmp c e.1) l with
       | None => Some (inr ([], c))
       | Some i => '(_, child) ← l !! i; r ← search_node b s todo child; Some (match r with inl off => inl off | inr (path, c) => inr (i :: path, c) end)
       end.
Proof. intros _ Es Hb. cbn [search_node value_off value_len children]. rewrite (match_at b off v s Es Hb). done. Qed.

Lemma trie_child b p off vl l i c n : trie b p (mk_node off vl l) → l !! i = Some (c, n) → trie b (c :: p) n.
Proof. inversion 1; subst. intros E%list_elem_of_lookup_2. auto. Qed.

(** What the search returns. *)
Lemma search_ok b s todo p n : trie b p n → s = rev todo ++ p → small b →
  ∃ r, search_node b s todo n = Some r ∧ ∀ off, r = inl off → 0 ≤ off ∧ slice b off (S (length s)) = Some (s ++ [0]).
Proof.
  intros T Hs Hb. revert p n T Hs. induction todo as [|c todo IH]; intros p n T Hs; inversion T as [p' off v l Es Hp Ha Hk Hc]; subst p' n.
  - cbn [search_node value_off value_len]. eexists. split; [done|]. intros o [= <-]. cbn in Hs. subst s. by destruct (tail_at b off v p Es Hb Hp) as (? & _ & ?).
  - rewrite (search_step b s c todo p off v l T Es Hb). case_bool_decide as Hv.
    + eexists. split; [done|]. intros o [= <-]. by destruct (tail_at b off v s Es Hb Hv) as (? & _ & ?).
    + destruct (bsearch _ l) as [i|] eqn:Ei; [|by eexists]. apply child_found in Ei as [n E]; [|done]. rewrite E. cbn [mbind option_bind].
      destruct (IH (c :: p) n) as (r & -> & Hr); [by eapply (trie_child b p off _ l i)|by rewrite Hs; cbn; rewrite <- app_assoc|]. cbn [mbind option_bind].
      eexists. split; [done|]. destruct r as [o|[path c']]; [done|]. done.
Qed.

(** Tails of what is found are found. *)
Lemma search_tail b s t todo todo' p n off : trie b p n → small b → s = rev todo ++ p → t = rev todo' ++ p → todo' `prefix_of` todo →
  search_node b s todo n = Some (inl off) → ∃ off', search_node b t todo' n = Some (inl off').
Proof.
  intros T Hb Hs Ht [x Hx]. revert todo p n x T Hs Ht Hx. induction todo' as [|c todo' IH]; intros todo p n x T Hs Ht Hx E; [by eexists|].
  destruct todo as [|c' todo]; [done|]. injection Hx as -> Hx. inversion T as [p' o v l Es Hp Ha Hk Hc]; subst p' n.
  rewrite (search_step b s c todo p o v l T Es Hb) in E. rewrite (search_step b t c todo' p o v l T Es Hb).
  destruct (bool_decide (t `suffix_of` v)) eqn:Et; [by eexists|]. apply bool_decide_eq_false in Et. case_bool_decide as Hv.
  - destruct Et. rewrite <- Hv. subst. exists (rev x). cbn. by rewrite rev_app_distr, !app_assoc.
  - destruct (bsearch _ l) as [i|] eqn:Ei; [|done]. apply child_found in Ei as [n En]; [|done]. rewrite En in E |- *. cbn [mbind option_bind] in *.
    destruct (search_node b s todo n) as [r|] eqn:Er; [|done]. destruct r as [o'|[? ?]]; [|done].
    destruct (IH todo (c :: p) n x) as [off' ->]; [by eapply (trie_child b p o _ l i)|by rewrite Hs; cbn; rewrite <- app_assoc|by rewrite Ht; cbn; rewrite <- app_assoc|done|by injection E as <-|by eexists].
Qed.

(** ** Insertion *)

Lemma alter_perm {A} (l : list A) i x y : l !! i = Some x → ∃ r, l ≡ₚ x :: r ∧ <[i := y]> l ≡ₚ y :: r.
Proof.
  intros E. exists (take i l ++ drop (S i) l). rewrite insert_take_drop by (by eapply lookup_lt_Some). rewrite <- Permutation_middle. split; [|done].
  rewrite <- (take_drop_middle l i x E) at 1. by rewrite <- Permutation_middle.
Qed.

Lemma ascending_insert l i c n n' : ascending l → l !! i = Some (c, n) → ascending (<[i := (c, n')]> l).
Proof.
  intros HA E a b x y Hab. assert (∀ j z, <[i := (c, n')]> l !! j = Some z → ∃ z', l !! j = Some z' ∧ z'.1 = z.1) as HL.
  { intros j z [(-> & <- & _)|[_ ?]]%list_lookup_insert_Some; eauto. }
  intros (x' & Ex & <-)%HL (y' & Ey & <-)%HL. by apply (HA a b).
Qed.

(** The search of [s] ended below [n] for want of a child: with the new node, the
    trie leads to [s] too, and to all that it led to before. *)
Definition extends (b b' : list Z) (p : list Z) (n n' : strbuf_node) : Prop :=
  ∀ t todo off, t = rev todo ++ p → search_node b t todo n = Some (inl off) → search_node b' t todo n' = Some (inl off).

Lemma search_app b x t todo p n : trie b p n → small (b ++ x) → search_node (b ++ x) t todo n = search_node b t todo n.
Proof.
  intros T Hb. assert (small b) as Hb0 by (unfold small in *; rewrite length_app in Hb; lia). revert p n T. induction todo as [|c todo IH]; intros p n T; [done|].
  inversion T as [p' off v l Es Hp Ha Hk Hc]; subst p' n. rewrite (search_step b t c todo p off v l T Es Hb0).
  rewrite (search_step (b ++ x) t c todo p off v l (trie_app b x p _ T) (slice_app b x off _ _ Es) Hb). destruct (bool_decide _); [done|].
  destruct (bsearch _ l) as [i|] eqn:Ei; [|done]. apply child_found in Ei as [n En]; [|done]. rewrite En. cbn [mbind option_bind].
  by rewrite (IH (c :: p) n) by (by eapply trie_child).
Qed.

Section Insert.
Context (b s : list Z) (Hb : small (b ++ s ++ [0])).

Abbreviation b' := (b ++ s ++ [0]).
Abbreviation leaf := (mk_node (Z.of_nat (length b)) (Z.of_nat (length s)) []).

Lemma slice_leaf : slice b' (Z.of_nat (length b)) (S (length s)) = Some (s ++ [0]).
Proof. replace (S (length s)) with (length (s ++ [0])) by (rewrite length_app; cbn; lia). apply slice_new. Qed.

Lemma trie_leaf p : p `suffix_of` s → trie b' p leaf.
Proof. intros Hp. constructor; [apply slice_leaf|done|done|by intros ?? ?%not_elem_of_nil|by intros ?? ?%not_elem_of_nil]. Qed.

Lemma search_leaf todo p : p `suffix_of` s → search_node b' s todo leaf = Some (inl (Z.of_nat (length b))).
Proof.
  intros Hp. assert (wraps 64 (Z.of_nat (length b) + Z.of_nat (length s) - Z.of_nat (length s)) = Z.of_nat (length b)) as Eo.
  { unfold small in Hb. rewrite length_app in Hb. rewrite wraps_small by lia. lia. }
  destruct todo as [|c todo]; [cbn; by rewrite Eo|].
  rewrite (search_step b' s c todo p _ s [] (trie_leaf p Hp) slice_leaf Hb), bool_decide_true by done. by rewrite Eo.
Qed.

(** A node keeps what it found if its children do. *)
Lemma extends_node p off v l l' : trie b p (mk_node off (Z.of_nat (length v)) l) → trie b' p (mk_node off (Z.of_nat (length v)) l') → slice b off (S (length v)) = Some (v ++ [0]) →
  ascending l → ascending l' → (∀ c n, (c, n) ∈ l → ∃ n', (c, n') ∈ l' ∧ extends b b' (c :: p) n n') →
  extends b b' p (mk_node off (Z.of_nat (length v)) l) (mk_node off (Z.of_nat (length v)) l').
Proof.
  intros T T' Es Ha Ha' HC t todo o Ht. assert (small b) as Hb0 by (unfold small in *; rewrite length_app in Hb; lia). destruct todo as [|c todo]; [done|].
  rewrite (search_step b t c todo p off v l T Es Hb0), (search_step b' t c todo p off v l' T' (slice_app _ _ _ _ _ Es) Hb). destruct (bool_decide _); [done|].
  destruct (bsearch _ l) as [i|] eqn:Ei; [|done]. apply child_found in Ei as [n En]; [|done]. rewrite En. cbn [mbind option_bind].
  destruct (HC c n (list_elem_of_lookup_2 _ _ _ En)) as (n' & [j Ej]%list_elem_of_lookup & HE). rewrite (proj2 (child_found l' c j Ha')) by eauto. rewrite Ej. cbn [mbind option_bind].
  destruct (search_node b t todo n) as [[o'|[? ?]]|] eqn:Er; [|done..]. cbn. intros [= ->]. rewrite (HE t todo o); [done| |done]. rewrite Ht. cbn. by rewrite <- app_assoc.
Qed.

Lemma extends_same p n : trie b p n → extends b b' p n n.
Proof. intros T t todo off _ E. by rewrite (search_app b (s ++ [0]) t todo p n T Hb). Qed.

Lemma insert_ok todo p n path c : trie b p n → s = rev todo ++ p → chars todo → search_node b s todo n = Some (inr (path, c)) →
  ∃ n', at_node (bubbleinsert c leaf) path n = Some n' ∧ trie b' p n' ∧ search_node b' s todo n' = Some (inl (Z.of_nat (length b))) ∧ extends b b' p n n'.
Proof.
  assert (small b) as Hb0 by (unfold small in *; rewrite length_app in Hb; lia).
  revert p n path. induction todo as [|c0 todo IH]; intros p n path T Hs Hc E; [done|]. apply Forall_cons in Hc as [Hc0 Hc].
  inversion T as [p' off v l Es Hp Ha Hk Hch]; subst p' n. rewrite (search_step b s c0 todo p off v l T Es Hb0) in E. destruct (bool_decide _) eqn:Ev; [done|].
  assert (s = rev todo ++ c0 :: p) as Hs' by (rewrite Hs; cbn; by rewrite <- app_assoc). assert (c0 :: p `suffix_of` s) as Hsuf by (by exists (rev todo)).
  destruct (bsearch _ l) as [i|] eqn:Ei.
  - apply child_found in Ei as [n En]; [|done]. rewrite En in E. cbn [mbind option_bind] in E. destruct (search_node b s todo n) as [[?|[path' c']]|] eqn:Er; [done| |done].
    injection E as <- <-. destruct (IH (c0 :: p) n path') as (n' & Ea & T' & E' & X'); [by eapply trie_child|done|done|done|]. cbn [at_node children]. rewrite En. cbn [mbind option_bind]. rewrite Ea.
    cbn [mbind option_bind value_off value_len]. set (l' := <[i := (c0, n')]> l). assert (ascending l') as Ha' by (by eapply ascending_insert).
    assert (∀ c n, (c, n) ∈ l' → (c, n) = (c0, n') ∨ (c, n) ∈ l) as HE by (intros c n1 [k [(_ & -> & _)|[_ E1]]%list_lookup_insert_Some]%list_elem_of_lookup; [by left|right; by eapply list_elem_of_lookup_2]).
    assert (l' !! i = Some (c0, n')) as Ei' by (apply list_lookup_insert_eq; by eapply lookup_lt_Some).
    eexists. split; [done|]. assert (trie b' p (mk_node off (Z.of_nat (length v)) l')) as T1.
    { constructor; [by apply slice_app|done|done| |]; intros c n1 [[= -> ->]|Hin]%HE; [done|by eapply Hk|done|by apply trie_app, Hch]. }
    split; [done|]. split.
    + rewrite (search_step b' s c0 todo p off v l' T1 (slice_app _ _ _ _ _ Es) Hb), Ev, (proj2 (child_found l' c0 i Ha')) by eauto. rewrite Ei'. cbn [mbind option_bind]. by rewrite E'.
    + apply extends_node; try done. intros c n1 [k Ek]%list_elem_of_lookup. destruct (decide (k = i)) as [->|Hki].
      * rewrite En in Ek. injection Ek as <- <-. exists n'. split; [by eapply list_elem_of_lookup_2|done].
      * exists n1. split; [|apply extends_same, Hch; by eapply list_elem_of_lookup_2]. eapply list_elem_of_lookup_2 with k. subst l'. by rewrite list_lookup_insert_ne.
  - injection E as <- <-. cbn [at_node]. assert (∀ x, x ∈ l → x.1 ≠ c0) as Hno.
    { intros [c n] [k Ek]%list_elem_of_lookup Hx. cbn in Hx. subst c. by rewrite (proj2 (child_found l c0 k Ha)) in Ei by eauto. }
    destruct (bubbleinsert_ok off (Z.of_nat (length v)) l c0 leaf Ha) as (l' & -> & Ha' & HP); [intros [c n]; by apply Hk|done|done|].
    eexists. split; [done|]. assert (trie b' p (mk_node off (Z.of_nat (length v)) l')) as T1.
    { constructor; [by apply slice_app|done|done| |]; intros c n1; rewrite HP; intros [[= -> ->]|Hin]%elem_of_cons; [done|by eapply Hk|by apply trie_leaf|by apply trie_app, Hch]. }
    split; [done|]. assert ((c0, leaf) ∈ l') as [i Ei']%list_elem_of_lookup by (rewrite HP; left). split.
    + rewrite (search_step b' s c0 todo p off v l' T1 (slice_app _ _ _ _ _ Es) Hb), Ev, (proj2 (child_found l' c0 i Ha')) by eauto. rewrite Ei'. cbn [mbind option_bind]. by rewrite (search_leaf todo (c0 :: p)).
    + apply extends_node; try done. intros c n1 Hin. exists n1. split; [rewrite HP; by right|by apply extends_same, Hch].
Qed.

End Insert.

(** ** Buffers *)

(** Where a buffer has a string, by its trie. *)
Definition offset (str : strbuf) (s : list Z) : option Z :=
  if decide (s = []) then Some 0
  else r ← root str; match search_node (buf str) s (rev s) r with Some (inl off) => Some off | _ => None end.

Record sound (str : strbuf) : Prop := {
  so_first : slice (buf str) 0 1 = Some [0];
  so_trie : ∃ r, root str = Some r ∧ trie (buf str) [] r;
  so_small : small (buf str) }.

Lemma new_sound : sound strbuf_new.
Proof.
  split; [done| |done]. eexists. split; [done|]. apply (trie_node [0] [] 0 []); [done|done|by intros i j x y _ ?|by intros ?? ?%not_elem_of_nil|by intros ?? ?%not_elem_of_nil].
Qed.

Lemma offset_ok str s o : sound str → offset str s = Some o → 0 ≤ o ∧ slice (buf str) o (S (length s)) = Some (s ++ [0]).
Proof.
  intros [H0 (r & Er & T) Hb]. unfold offset. case_decide as Hs; [intros [= <-]; by subst s|]. rewrite Er. cbn [mbind option_bind].
  destruct (search_ok (buf str) s (rev s) [] r T) as (x & E & HX); [by rewrite rev_involutive, app_nil_r|done|]. rewrite E. destruct x as [off|]; [|done]. intros [= <-]. by apply HX.
Qed.

Lemma offset_tail str s t o : sound str → offset str s = Some o → t `suffix_of` s → is_Some (offset str t).
Proof.
  intros [_ (r & Er & T) Hb] E Ht. unfold offset in *. destruct (decide (t = [])); [by eexists|]. rewrite decide_False in E by (intros ->; by apply suffix_nil_inv in Ht).
  rewrite Er in *. cbn [mbind option_bind] in *. destruct (search_node _ s _ r) as [[off|]|] eqn:Es; [|done..].
  destruct (search_tail (buf str) s t (rev s) (rev t) [] r off) as [off' ->]; [done|done|by rewrite rev_involutive, app_nil_r|by rewrite rev_involutive, app_nil_r| |done|by eexists].
  destruct Ht as [u ->]. exists (rev u). apply rev_app_distr.
Qed.

(** Adding a string keeps all offsets, and gives it one, which is new only when it
    had none. *)
Lemma add_string_ok str s m : sound str → chars s → small (buf str ++ s ++ [0]) →
  ∃ r str', strbuf_add_string m s str = Some (r, str') ∧ sound str' ∧ (∀ t o, offset str t = Some o → offset str' t = Some o) ∧
    (length (buf str') ≤ length (buf str) + S (length s))%nat ∧ ((r = - ENOMEM ∧ all_memory m = false ∧ offset str s = None) ∨ (0 ≤ r ∧ offset str' s = Some r)).
Proof.
  intros [H0 (r & Er & T) Hb] Hc Hs. unfold strbuf_add_string. rewrite Er. destruct (Z.eqb_spec (Z.of_nat (length s)) 0) as [Hz|Hz].
  { assert (s = []) as -> by (destruct s; [done|cbn in Hz; lia]). eexists _, _. split; [done|]. split; [split; cbn; eauto|]. split; [intros t o; unfold offset; cbn; by rewrite Er|]. split; [cbn; lia|by right]. }
  assert (s ≠ []) as Hne by (by intros ->). assert (Forall (λ c, 0 < c < 256) (rev s)) as Hc' by (by apply Forall_rev).
  assert (s = rev (rev s) ++ []) as Hrev by (by rewrite rev_involutive, app_nil_r).
  destruct (search_ok (buf str) s (rev s) [] r T Hrev Hb) as (x & Ex & HX). rewrite Ex. cbn [mbind option_bind]. destruct x as [off|[path c]].
  { eexists _, _. split; [done|]. split; [split; cbn; eauto|]. split; [intros t o; unfold offset; cbn; by rewrite Er|]. split; [cbn; lia|]. right. destruct (HX off eq_refl). split; [done|].
    unfold offset. cbn. rewrite decide_False, Ex by done. done. }
  assert (offset str s = None) as Hno by (unfold offset; rewrite decide_False, Er by done; cbn; by rewrite Ex).
  destruct (buf_new m) eqn:Em; cbn [negb].
  2:{ eexists _, _. split; [done|]. split; [split; cbn; eauto|]. split; [intros t o; unfold offset; cbn; by rewrite Er|]. split; [cbn; lia|]. left. unfold all_memory. by rewrite Em. }
  assert (∀ t o, offset str t = Some o → ∀ r', extends (buf str) (buf str ++ s ++ [0]) [] r r' → ∀ n a b c d, offset (mk_strbuf (buf str ++ s ++ [0]) (Some r') n a b c d) t = Some o) as HM.
  { intros t o E r' HE n a b' c' d. unfold offset in *. case_decide; [done|]. rewrite Er in E. cbn [mbind option_bind root buf] in *.
    destruct (search_node _ t _ r) as [[off|]|] eqn:Et; [|done..]. injection E as ->. by rewrite (HE t (rev t) o) by (by rewrite ?rev_involutive, ?app_nil_r). }
  assert (length (buf str ++ s ++ [0]) = (length (buf str) + S (length s))%nat) as Hlen by (rewrite !length_app; cbn; lia).
  destruct (node_new m && children_new m) eqn:Em'; cbn [negb].
  2:{ eexists _, _. split; [done|]. split; [split; [by apply slice_app|exists r; split; [done|by apply trie_app]|done]|]. split; [intros t o E; apply (HM t o E), extends_same; done|].
      split; [cbn [buf]; lia|]. left. split; [done|]. split; [|done]. unfold all_memory. rewrite Em. exact Em'. }
  destruct (insert_ok (buf str) s Hs (rev s) [] r path c T Hrev Hc' Ex) as (r' & Ea & T' & E' & X'). unfold len. rewrite Ea. cbn [mbind option_bind].
  eexists _, _. split; [done|]. split; [split; [by apply slice_app|exists r'; split; [done|done]|done]|]. split; [intros t o E; by apply (HM t o E)|]. split; [cbn [buf]; lia|]. right.
  unfold small in Hb. rewrite wraps_small by lia. split; [lia|]. unfold offset. rewrite decide_False by done. cbn [root buf mbind option_bind]. by rewrite E'.
Qed.

(** ** Sequences of strings *)

Definition total (l : list (memory * list Z)) : nat := sum_list (map (λ x, S (length x.2)) l).

Lemma add_strings_ok l str : sound str → Forall (λ x, chars x.2) l → Z.of_nat (length (buf str) + total l) < 2 ^ 62 →
  ∃ rs str', add_strings l str = Some (rs, str') ∧ sound str' ∧ (∀ t o, offset str t = Some o → offset str' t = Some o) ∧
    (∀ i m s, l !! i = Some (m, s) → ∃ r, rs !! i = Some r ∧ ((r = - ENOMEM ∧ all_memory m = false) ∨ (0 ≤ r ∧ offset str' s = Some r))) ∧
    (∀ i m s o, l !! i = Some (m, s) → offset str s = Some o → rs !! i = Some o) ∧
    (∀ i j m m' s t r, (i < j)%nat → l !! i = Some (m, s) → rs !! i = Some r → 0 ≤ r → l !! j = Some (m', t) → t `suffix_of` s →
       ∃ r', rs !! j = Some r' ∧ 0 ≤ r' ∧ (t = s → r' = r)).
Proof.
  revert str. induction l as [|[m s] l IH]; intros str S Hc Hl; cbn [add_strings].
  { eexists _, _. split; [done|]. split; [done|]. split; [done|]. split; [|split]; by intros. }
  apply Forall_cons in Hc as [Hc HF]. cbn [total map sum_list] in Hl. unfold total in Hl. cbn in Hl, Hc.
  destruct (add_string_ok str s m S Hc) as (r & str1 & -> & S1 & HM & HL & HR); [unfold small; rewrite !length_app; cbn; lia|]. cbn [mbind option_bind].
  destruct (IH str1 S1 HF) as (rs & str' & -> & S' & HM' & HA & HB & HC); [unfold total; lia|]. cbn [mbind option_bind].
  eexists _, _. split; [done|]. split; [done|]. split; [eauto|]. split; [|split].
  - intros [|i] m' s' E; [injection E as <- <-|by apply (HA i)]. exists r. split; [done|]. destruct HR as [(-> & Hm & _)|[? ?]]; [by left|right]. eauto.
  - intros [|i] m' s' o E Eo; [injection E as <- <-|by apply (HB i m' s' o E), HM]. destruct HR as [(_ & _ & Hn)|[_ Hr]]; [congruence|].
    cbn. apply HM in Eo. congruence.
  - intros [|i] [|j] m1 m2 s1 t r1 Hij E1 Er H0 E2 Ht; [lia| |lia|by apply (HC i j m1 m2 s1 t r1); [lia|..]]. injection E1 as <- <-. injection Er as <-. cbn in E2.
    destruct HR as [(-> & _)|[_ Ho]]; [done|]. destruct (offset_tail str1 s t r S1 Ho Ht) as [o Eo]. exists o. split; [by apply (HB j m2 t)|].
    split; [by apply (offset_ok str1 t o S1)|]. intros ->. congruence.
Qed.

(** C18. Strings of any characters but NUL that are added to a new buffer, where each
    allocation may fail: every call returns; it fails only for lack of memory, or
    gives an offset at which the final buffer has the string with its NUL. A string
    that is the tail of one added before needs no memory, and the string itself has
    the same offset again. *)
Theorem strbuf_strings (l : list (memory * list Z)) (Hc : Forall (λ x, chars x.2) l) (Hl : Z.of_nat (total l) < 2 ^ 61) :
  ∃ rs str, add_strings l strbuf_new = Some (rs, str) ∧
    (∀ i m s, l !! i = Some (m, s) → ∃ r, rs !! i = Some r ∧
       ((r = - ENOMEM ∧ all_memory m = false) ∨ (0 ≤ r ∧ slice (buf str) r (S (length s)) = Some (s ++ [0])))) ∧
    (∀ i j m m' s t r, (i < j)%nat → l !! i = Some (m, s) → rs !! i = Some r → 0 ≤ r → l !! j = Some (m', t) → t `suffix_of` s →
       ∃ r', rs !! j = Some r' ∧ 0 ≤ r' ∧ (t = s → r' = r)).
Proof.
  destruct (add_strings_ok l strbuf_new new_sound Hc) as (rs & str & E & S & _ & HA & _ & HC); [cbn [length buf strbuf_new]; lia|].
  exists rs, str. split; [done|]. split; [|done]. intros i m s Ei. destruct (HA i m s Ei) as (r & Er & HR). exists r. split; [done|].
  destruct HR as [?|[_ Ho]]; [by left|right]. by apply offset_ok.
Qed.

Definition some_strings : list (memory * list Z) := [(enough_memory, [97; 98; 99]); (mk_memory false false false, [98; 99]); (mk_memory true false true, [120]); (enough_memory, [120])].

Lemma strbuf_strings_witness : ∃ rs str, add_strings some_strings strbuf_new = Some (rs, str) ∧
    (∀ i m s, some_strings !! i = Some (m, s) → ∃ r, rs !! i = Some r ∧
       ((r = - ENOMEM ∧ all_memory m = false) ∨ (0 ≤ r ∧ slice (buf str) r (S (length s)) = Some (s ++ [0])))) ∧
    (∀ i j m m' s t r, (i < j)%nat → some_strings !! i = Some (m, s) → rs !! i = Some r → 0 ≤ r → some_strings !! j = Some (m', t) → t `suffix_of` s →
       ∃ r', rs !! j = Some r' ∧ 0 ≤ r' ∧ (t = s → r' = r)).
Proof. apply (strbuf_strings some_strings); [by repeat constructor|by vm_compute]. Defined.

(** After strings that end with each of the 256 bytes, NUL included, the root has
    256 children, which its counter takes for none: all strings are forgotten, and
    the first one is stored a second time. *)
Theorem strbuf_forgets : ('(rs, _) ← add_strings (map (λ c, (enough_memory, [c])) (seqZ 1 255 ++ [0; 1])) strbuf_new; Some (head rs, last rs)) = Some (Some 1, Some 513).
Proof. by vm_compute. Qed.

(** Tails are shared. *)
Example add_strings_ex : ('(rs, str) ← add_strings (map (pair enough_memory) [[97; 98; 99]; [98; 99]; [120; 98; 99]; [97; 98; 99]; []; [99]]) strbuf_new; Some (rs, buf str)) =
  Some ([1; 2; 5; 1; 0; 3], [0; 97; 98; 99; 0; 120; 98; 99; 0]).
Proof. by vm_compute. Qed.
