(* ===== verification/Bitmap.v ===== *)
(** * systemd: growable bitmaps

    Models [src/app/multi_process/day1/systemd/src/shared/bitmap.c], sets of
    small numbers as arrays of 64-bit words that grow on demand (udev, the
    resolver's type bitmaps), with the [GREEDY_REALLOC0] of
    [src/basic/alloc-util.c] they grow by. [bitmaps] holds all the allocated
    words, of which the first [n_bitmaps] are in use. An access outside the
    allocated words is [None].

    The specification is one number: a bitmap stands for the integer whose
    bit [n] says whether [n] is in the set ([bitmap_value]), and each
    operation is the corresponding operation on that integer. *)

From S2P Require Import Prelude.

#[local] Set Warnings "-clear-no-such-hyp".

(** ** Model *)

Record Bitmap := mk_bitmap {
  bitmaps : list Z;
  n_bitmaps : nat;
}.

Definition BITMAPS_MAX_ENTRY : Z := 0xffff.
Definition BITMAP_END : Z := u32 (-1).
Definition BITMAP_NUM_TO_OFFSET (n : Z) : Z := n / 64.
Definition BITMAP_NUM_TO_REM (n : Z) : Z := n mod 64.
Definition BITMAP_OFFSET_TO_NUM (offset rem : Z) : Z := u32 (offset * 64 + rem).

Definition bitmap_new : Bitmap := mk_bitmap [] 0.

(** [GREEDY_REALLOC0(b->bitmaps, b->bitmaps_allocated, need)]: [extra] is what
    [malloc_usable_size] finds beyond the words asked for. *)
Definition greedy_realloc0 (l : list Z) (need extra : nat) : list Z :=
  if (need <=? length l)%nat then l
  else
    let newalloc := (Nat.max (need * 2) 8 + extra)%nat in
    l ++ replicate (newalloc - length l) 0.

Definition bitmap_set (b : Bitmap) (n : Z) (oom : bool) (extra : nat) : option (Z * Bitmap) :=
  if n >? BITMAPS_MAX_ENTRY then Some (- ERANGE, b)
  else
    let offset := Z.to_nat (BITMAP_NUM_TO_OFFSET n) in
    let grow := (n_bitmaps b <=? offset)%nat in
    if grow && oom then Some (- ENOMEM, b)
    else
      let b := if grow then mk_bitmap (greedy_realloc0 (bitmaps b) (offset + 1) extra) (offset + 1)
               else b in
      let bitmask := u64 (Z.shiftl 1 (BITMAP_NUM_TO_REM n)) in
      w ← bitmaps b !! offset;
      Some (0, mk_bitmap (<[offset := Z.lor w bitmask]> (bitmaps b)) (n_bitmaps b)).

Definition bitmap_unset (b : Bitmap) (n : Z) : option Bitmap :=
  let offset := Z.to_nat (BITMAP_NUM_TO_OFFSET n) in
  if (n_bitmaps b <=? offset)%nat then Some b
  else
    let bitmask := u64 (Z.shiftl 1 (BITMAP_NUM_TO_REM n)) in
    w ← bitmaps b !! offset;
    Some (mk_bitmap (<[offset := Z.land w (u64 (Z.lnot bitmask))]> (bitmaps b)) (n_bitmaps b)).

Definition bitmap_isset (b : Bitmap) (n : Z) : option bool :=
  let offset := Z.to_nat (BITMAP_NUM_TO_OFFSET n) in
  if (n_bitmaps b <=? offset)%nat then Some false
  else
    let bitmask := u64 (Z.shiftl 1 (BITMAP_NUM_TO_REM n)) in
    w ← bitmaps b !! offset;
    Some (negb (Z.land w bitmask =? 0)).

Definition bitmap_isclear (b : Bitmap) : bool :=
  forallb (λ w, w =? 0) (take (n_bitmaps b) (bitmaps b)).

Definition bitmap_clear (b : Bitmap) : Bitmap := mk_bitmap [] 0.

Definition bitmap_copy (b : Bitmap) : Bitmap := mk_bitmap (take (n_bitmaps b) (bitmaps b)) (n_bitmaps b).

(** The inner loop of [bitmap_iterate]: the mask is shifted out after at most
    64 rounds. *)
Fixpoint iterate_word (fuel : nat) (w bitmask rem : Z) : option Z :=
  match fuel with
  | O => None
  | S fuel =>
      if bitmask =? 0 then None
      else if negb (Z.land w bitmask =? 0) then Some rem
      else iterate_word fuel w (u64 (Z.shiftl bitmask 1)) (rem + 1)
  end.

(** The outer loop, over the words from [offset] on. *)
Fixpoint iterate_words (ws : list Z) (offset bitmask rem : Z) : option Z :=
  match ws with
  | [] => None
  | w :: ws =>
      match (if w =? 0 then None else iterate_word 65 w bitmask rem) with
      | Some r => Some (BITMAP_OFFSET_TO_NUM offset r)
      | None => iterate_words ws (offset + 1) 1 0
      end
  end.

(** [bitmap_iterate]: the number found, if any, and the iterator's new index. *)
Definition bitmap_iterate (b : Bitmap) (idx : Z) : option Z * Z :=
  if idx =? BITMAP_END then (None, idx)
  else
    let offset := BITMAP_NUM_TO_OFFSET idx in
    let rem := BITMAP_NUM_TO_REM idx in
    let bitmask := u64 (Z.shiftl 1 rem) in
    match iterate_words (drop (Z.to_nat offset) (take (n_bitmaps b) (bitmaps b))) offset bitmask rem with
    | Some n => (Some n, u32 (n + 1))
    | None => (None, BITMAP_END)
    end.

(** [memcmp] of the common words, then zero words in the longer one. *)
Definition bitmap_equal (a b : Bitmap) : bool :=
  let common := Nat.min (n_bitmaps a) (n_bitmaps b) in
  if negb (bool_decide (take common (bitmaps a) = take common (bitmaps b))) then false
  else
    let c := if (n_bitmaps b <? n_bitmaps a)%nat then a else b in
    forallb (λ w, w =? 0) (drop common (take (n_bitmaps c) (bitmaps c))).

(** ** Specification *)

Fixpoint words_value (ws : list Z) : Z :=
  match ws with
  | [] => 0
  | w :: ws => w + 2 ^ 64 * words_value ws
  end.

Definition words (b : Bitmap) : list Z := take (n_bitmaps b) (bitmaps b).
Definition bitmap_value (b : Bitmap) : Z := words_value (words b).

Definition is_word (w : Z) : Prop := 0 ≤ w < 2 ^ 64.

(** Words in use are allocated and are words; words not yet in use are zero. *)
Record bitmap_wf (b : Bitmap) : Prop := {
  bm_len : (n_bitmaps b ≤ length (bitmaps b))%nat;
  bm_words : Forall is_word (bitmaps b);
  bm_spare : Forall (λ w, w = 0) (drop (n_bitmaps b) (bitmaps b));
  bm_max : (n_bitmaps b ≤ 1024)%nat;
}.

Lemma is_word_0 : is_word 0.
Proof. by unfold is_word. Qed.

(** Bit [n] of the number is bit [n mod 64] of word [n / 64]. *)
Lemma words_value_testbit ws : ∀ n,
  Forall is_word ws → 0 ≤ n →
  Z.testbit (words_value ws) n = Z.testbit (default 0 (ws !! Z.to_nat (n / 64))) (n mod 64).
Proof.
  induction ws as [|w ws IH]; intros n Hws Hn; [by rewrite !Z.bits_0|].
  apply Forall_cons in Hws as [Hw Hws]. unfold is_word in Hw.
  cbn [words_value]. replace (w + 2 ^ 64 * words_value ws) with (words_value ws * 2 ^ 64 + w) by lia.
  rewrite <- lor_add, Z.lor_spec, <- Z.shiftl_mul_pow2, Z.shiftl_spec by lia.
  destruct (decide (n < 64)).
  - rewrite Z.testbit_neg_r, Z.div_small, Z.mod_small by lia. done.
  - rewrite (testbit_small 64 w n), orb_false_r, IH by (done || lia).
    replace (n / 64) with ((n - 64) / 64 + 1)
      by (rewrite <- (Z.div_add (n - 64) 1 64) by lia; f_equal; lia).
    replace (n mod 64) with ((n - 64) mod 64)
      by (rewrite <- (Z.mod_add (n - 64) 1 64) by lia; f_equal; lia).
    pose proof (Z.div_pos (n - 64) 64). rewrite Z2Nat.inj_add by lia.
    replace (Z.to_nat ((n - 64) / 64) + Z.to_nat 1)%nat with (S (Z.to_nat ((n - 64) / 64))) by lia.
    done.
Qed.

(** The word that holds a number, 0 where none is in use. *)
Definition word (b : Bitmap) (k : nat) : Z := default 0 (words b !! k).

Lemma words_wf b : bitmap_wf b → Forall is_word (words b).
Proof. intros [_ Hw _ _]. by apply Forall_take. Qed.

Lemma bitmap_testbit b n :
  bitmap_wf b → 0 ≤ n →
  Z.testbit (bitmap_value b) n = Z.testbit (word b (Z.to_nat (n / 64))) (n mod 64).
Proof. intros Hb Hn. apply words_value_testbit; [by apply words_wf|done]. Qed.

Lemma word_lookup b k :
  bitmap_wf b → (k < n_bitmaps b)%nat → bitmaps b !! k = Some (word b k).
Proof.
  intros [Hl _ _ _] Hk. unfold word, words. rewrite lookup_take_lt by done.
  by destruct (lookup_lt_is_Some_2 (bitmaps b) k) as [w ->]; [lia|].
Qed.

Lemma word_out b k : (n_bitmaps b ≤ k)%nat → word b k = 0.
Proof. intros Hk. unfold word, words. by rewrite lookup_take_ge. Qed.

Lemma mask_pow2 r : 0 ≤ r < 64 → u64 (Z.shiftl 1 r) = 2 ^ r.
Proof.
  intros Hr. rewrite Z.shiftl_1_l. apply wrapu_small. split; [lia|].
  apply Z.pow_lt_mono_r; lia.
Qed.

Lemma rem_range n : 0 ≤ n mod 64 < 64.
Proof. apply Z.mod_pos_bound. lia. Qed.

(** Two numbers in the same word at the same bit are equal. *)
Lemma same_place n m : Z.to_nat (n / 64) = Z.to_nat (m / 64) → 0 ≤ n → 0 ≤ m →
  n mod 64 = m mod 64 → n = m.
Proof.
  intros H1 Hn Hm H2. pose proof (Z.div_pos n 64). pose proof (Z.div_pos m 64).
  pose proof (Z.div_mod n 64). pose proof (Z.div_mod m 64). lia.
Qed.

(** Growing adds zero words only. *)
Lemma grow_spec b offset extra :
  bitmap_wf b → (n_bitmaps b ≤ offset < 1024)%nat →
  let b' := mk_bitmap (greedy_realloc0 (bitmaps b) (offset + 1) extra) (offset + 1) in
  bitmap_wf b' ∧ ∀ k, word b' k = word b k.
Proof.
  intros [Hl Hw Hs Hx] Ho b'.
  assert (∃ m, bitmaps b' = bitmaps b ++ replicate m 0 ∧
    (offset + 1 ≤ length (bitmaps b) + m)%nat) as (m & Em & Hm).
  { simpl. unfold greedy_realloc0. destruct (_ <=? _)%nat eqn:E.
    - apply Nat.leb_le in E. exists 0%nat. rewrite app_nil_r. split; [done|lia].
    - apply Nat.leb_gt in E. eexists. split; [done|]. lia. }
  assert (Forall (λ w, w = 0) (drop (n_bitmaps b) (bitmaps b) ++ replicate m 0)) as Hz.
  { apply Forall_app. split; [done|]. by apply Forall_replicate. }
  split.
  - split; rewrite ?Em; simpl.
    + rewrite length_app, length_replicate. lia.
    + apply Forall_app. split; [done|]. apply Forall_replicate, is_word_0.
    + replace (offset + 1)%nat with (n_bitmaps b + (offset + 1 - n_bitmaps b))%nat by lia.
      rewrite <- drop_drop, drop_app_le by done. by apply Forall_drop.
    + lia.
  - intros k. unfold word, words. rewrite Em. cbn [n_bitmaps b'].
    destruct (decide (k < n_bitmaps b)%nat).
    + rewrite !lookup_take_lt, lookup_app_l by lia. done.
    + rewrite (lookup_take_ge _ (n_bitmaps b)) by lia. simpl.
      destruct (take (offset + 1) (bitmaps b ++ replicate m 0) !! k) as [w|] eqn:Ek; [|done].
      apply lookup_take_Some in Ek as [Ek _]. simpl.
      rewrite <- (take_drop (n_bitmaps b) (bitmaps b)), <- app_assoc in Ek.
      rewrite lookup_app_r in Ek by (rewrite length_take; lia).
      by eapply (Forall_lookup_1 _ _ _ _ Hz) in Ek.
Qed.

(** Replacing a word in use. *)
Lemma update_word_spec b k w :
  bitmap_wf b → (k < n_bitmaps b)%nat → is_word w →
  let b' := mk_bitmap (<[k := w]> (bitmaps b)) (n_bitmaps b) in
  bitmap_wf b' ∧ ∀ j, word b' j = if decide (j = k) then w else word b j.
Proof.
  intros [Hl Hw Hs Hx] Hk Hwd b'. split.
  - split; simpl.
    + by rewrite length_insert.
    + by apply Forall_insert.
    + by rewrite drop_insert_lt by done.
    + done.
  - intros j. unfold word, words. simpl.
    case_decide as Hj; [subst j|].
    + rewrite lookup_take_lt, list_lookup_insert_eq by lia. done.
    + destruct (decide (j < n_bitmaps b)%nat).
      * by rewrite !lookup_take_lt, list_lookup_insert_ne by done.
      * by rewrite !lookup_take_ge by lia.
Qed.

Lemma is_word_word b k : bitmap_wf b → is_word (word b k).
Proof.
  intros Hb. unfold word. destruct (words b !! k) as [w|] eqn:E; [|apply is_word_0].
  by eapply (Forall_lookup_1 _ _ _ _ (words_wf b Hb)).
Qed.

Lemma is_word_lor w r : is_word w → 0 ≤ r < 64 → is_word (Z.lor w (2 ^ r)).
Proof.
  unfold is_word. intros Hw Hr. split; [apply Z.lor_nonneg; lia|].
  destruct (decide (0 < Z.lor w (2 ^ r))); [|lia]. apply Z.log2_lt_pow2; [done|].
  rewrite Z.log2_lor by lia. apply Z.max_lub_lt; [|rewrite Z.log2_pow2; lia].
  destruct (decide (w = 0)) as [->|]; [by vm_compute|]. apply Z.log2_lt_pow2; lia.
Qed.

Lemma is_word_land w m : is_word w → is_word (Z.land w (u64 m)).
Proof.
  unfold is_word. intros Hw. pose proof (wrapu_range 64 m). split; [apply Z.land_nonneg; lia|].
  destruct (decide (0 < Z.land w (u64 m))); [|lia]. apply Z.log2_lt_pow2; [done|].
  eapply Z.le_lt_trans; [apply Z.log2_land; lia|].
  destruct (decide (w = 0)) as [->|]; [by rewrite Z.land_0_l in *|].
  eapply Z.le_lt_trans; [apply Z.le_min_l|]. apply Z.log2_lt_pow2; lia.
Qed.

Lemma bitmap_set_spec b n extra :
  bitmap_wf b → 0 ≤ n ≤ BITMAPS_MAX_ENTRY →
  ∃ b', bitmap_set b n false extra = Some (0, b') ∧ bitmap_wf b' ∧
    bitmap_value b' = Z.setbit (bitmap_value b) n.
Proof.
  intros Hb Hn. unfold bitmap_set, BITMAP_NUM_TO_OFFSET, BITMAP_NUM_TO_REM.
  rewrite Z.gtb_ltb, (proj2 (Z.ltb_ge _ _)), andb_false_r by lia.
  pose proof (rem_range n). rewrite mask_pow2 by done.
  set (b1 := if (_ <=? _)%nat then _ else b).
  assert (bitmap_wf b1 ∧ (Z.to_nat (n / 64) < n_bitmaps b1)%nat ∧ ∀ k, word b1 k = word b k)
    as (Hb1 & Hlt & Hsame).
  { unfold b1. destruct (_ <=? _)%nat eqn:E.
    - apply Nat.leb_le in E.
      assert (n / 64 < 1024) by (apply Z.div_lt_upper_bound; unfold BITMAPS_MAX_ENTRY in *; lia).
      pose proof (Z.div_pos n 64).
      destruct (grow_spec b (Z.to_nat (n / 64)) extra Hb) as [Hg1 Hg2]; [lia|].
      split_and!; [done|simpl; lia|done].
    - apply Nat.leb_gt in E. done. }
  rewrite (word_lookup b1 _ Hb1 Hlt). cbn [mbind option_bind].
  destruct (update_word_spec b1 _ (Z.lor (word b1 (Z.to_nat (n / 64))) (2 ^ (n mod 64))) Hb1 Hlt)
    as [Hb2 Hw2]; [by apply is_word_lor; [apply is_word_word|]|].
  eexists. split; [done|]. split; [done|]. apply Z.bits_inj'. intros m Hm.
  rewrite Z.setbit_eqb, !bitmap_testbit, Hw2, !Hsame by (done || lia). pose proof (rem_range m).
  case_decide as Hk.
  - rewrite Z.lor_spec, Z.pow2_bits_eqb, Hk by lia. rewrite orb_comm. f_equal.
    apply eq_true_iff_eq. rewrite !Z.eqb_eq. split; [|congruence].
    intros. symmetry. apply same_place; [done|lia..|done].
  - rewrite (proj2 (Z.eqb_neq n m)) by congruence. done.
Qed.

Lemma bitmap_unset_spec b n :
  bitmap_wf b → 0 ≤ n →
  ∃ b', bitmap_unset b n = Some b' ∧ bitmap_wf b' ∧
    bitmap_value b' = Z.clearbit (bitmap_value b) n.
Proof.
  intros Hb Hn. unfold bitmap_unset, BITMAP_NUM_TO_OFFSET, BITMAP_NUM_TO_REM.
  pose proof (rem_range n). rewrite mask_pow2 by done.
  destruct (_ <=? _)%nat eqn:E.
  - apply Nat.leb_le in E. exists b. split; [done|]. split; [done|].
    apply Z.bits_inj'. intros m Hm. rewrite Z.clearbit_eqb by lia.
    destruct (n =? m) eqn:Em; reflect_bools; [subst m|by rewrite andb_true_r].
    by rewrite andb_false_r, bitmap_testbit, word_out, Z.bits_0 by done.
  - apply Nat.leb_gt in E. rewrite (word_lookup b _ Hb E). cbn [mbind option_bind].
    destruct (update_word_spec b _
      (Z.land (word b (Z.to_nat (n / 64))) (u64 (Z.lnot (2 ^ (n mod 64))))) Hb E)
      as [Hb2 Hw2]; [by apply is_word_land, is_word_word|].
    eexists. split; [done|]. split; [done|]. apply Z.bits_inj'. intros m Hm.
    rewrite Z.clearbit_eqb, !bitmap_testbit, Hw2 by (done || lia). pose proof (rem_range m).
    case_decide as Hk.
    + rewrite Z.land_spec, wrapu_testbit, Z.lnot_spec, Z.pow2_bits_eqb, Hk by lia.
      rewrite (proj2 (Z.ltb_lt _ _)) by lia. simpl. do 2 f_equal.
      apply eq_true_iff_eq. rewrite !Z.eqb_eq. split; [|congruence].
      intros. symmetry. apply same_place; [done|lia..|done].
    + by rewrite (proj2 (Z.eqb_neq n m)), andb_true_r by congruence.
Qed.

Lemma bitmap_isset_spec b n :
  bitmap_wf b → 0 ≤ n → bitmap_isset b n = Some (Z.testbit (bitmap_value b) n).
Proof.
  intros Hb Hn. unfold bitmap_isset, BITMAP_NUM_TO_OFFSET, BITMAP_NUM_TO_REM.
  pose proof (rem_range n). rewrite mask_pow2, bitmap_testbit by done.
  destruct (_ <=? _)%nat eqn:E.
  - apply Nat.leb_le in E. by rewrite word_out, Z.bits_0 by done.
  - apply Nat.leb_gt in E. rewrite (word_lookup b _ Hb E). cbn [mbind option_bind].
    by rewrite land_pow2_eqb, negb_involutive by lia.
Qed.

(** ** Iteration *)

(** The least number from [k] on in the set of bits of [v]. *)
Definition least_from (v k m : Z) : Prop :=
  k ≤ m ∧ Z.testbit v m = true ∧ ∀ j, k ≤ j < m → Z.testbit v j = false.
Definition none_from (v k : Z) : Prop := ∀ j, k ≤ j → Z.testbit v j = false.

(** The mask at bit [r], and its next value. *)
Definition mask (r : Z) : Z := if r <? 64 then 2 ^ r else 0.

Lemma mask_next r : 0 ≤ r < 64 → u64 (Z.shiftl (mask r) 1) = mask (r + 1).
Proof.
  intros Hr. unfold mask. rewrite (proj2 (Z.ltb_lt r 64)) by lia.
  rewrite Z.shiftl_mul_pow2, <- Z.pow_add_r by lia.
  destruct (r + 1 <? 64) eqn:E; reflect_bools.
  - apply wrapu_small. split; [lia|]. apply Z.pow_lt_mono_r; lia.
  - by replace (r + 1) with 64 by lia.
Qed.

Lemma iterate_word_spec w : is_word w → ∀ fuel r,
  0 ≤ r ≤ 64 → 64 - r < Z.of_nat fuel →
  match iterate_word fuel w (mask r) r with
  | Some m => least_from w r m ∧ m < 64
  | None => none_from w r
  end.
Proof.
  intros Hw. induction fuel as [|fuel IH]; intros r Hr Hf; [lia|]. cbn [iterate_word].
  destruct (decide (r = 64)) as [->|].
  { simpl. intros j Hj. by apply (testbit_small 64). }
  assert (mask r = 2 ^ r) as Em by (unfold mask; by rewrite (proj2 (Z.ltb_lt r 64)) by lia).
  rewrite (proj2 (Z.eqb_neq (mask r) 0)) by (rewrite Em; apply Z.pow_nonzero; lia).
  assert ((Z.land w (mask r) =? 0) = negb (Z.testbit w r)) as ->
    by (rewrite Em; apply land_pow2_eqb; lia).
  rewrite negb_involutive.
  destruct (Z.testbit w r) eqn:Eb.
  - split; [|lia]. split_and!; [lia|done|]. intros. lia.
  - rewrite mask_next by lia. specialize (IH (r + 1) ltac:(lia) ltac:(lia)).
    destruct (iterate_word fuel w (mask (r + 1)) (r + 1)) as [m|].
    + destruct IH as [(Hk & Hb & Hlow) Hm]. split; [|done]. split_and!; [lia|done|].
      intros j Hj. destruct (decide (j = r)) as [->|]; [done|]. apply Hlow. lia.
    + intros j Hj. destruct (decide (j = r)) as [->|]; [done|]. apply IH. lia.
Qed.

Lemma value_cons_testbit w ws m :
  is_word w → 0 ≤ m →
  Z.testbit (words_value (w :: ws)) m =
    if m <? 64 then Z.testbit w m else Z.testbit (words_value ws) (m - 64).
Proof.
  intros Hw Hm. unfold is_word in Hw. cbn [words_value].
  replace (w + 2 ^ 64 * words_value ws) with (words_value ws * 2 ^ 64 + w) by lia.
  rewrite <- lor_add, Z.lor_spec, <- Z.shiftl_mul_pow2, Z.shiftl_spec by lia.
  destruct (m <? 64) eqn:E; reflect_bools; [by rewrite Z.testbit_neg_r by lia|].
  by rewrite (testbit_small 64 w m), orb_false_r by lia.
Qed.

Lemma iterate_words_spec ws : Forall is_word ws → ∀ offset r,
  0 ≤ r < 64 →
  match iterate_words ws offset (mask r) r with
  | Some n => ∃ m, n = BITMAP_OFFSET_TO_NUM offset m ∧ least_from (words_value ws) r m
  | None => none_from (words_value ws) r
  end.
Proof.
  induction 1 as [|w ws Hw Hws IH]; intros offset r Hr; cbn [iterate_words].
  { intros j Hj. apply Z.bits_0. }
  assert (match (if w =? 0 then None else iterate_word 65 w (mask r) r) with
          | Some m => least_from w r m ∧ m < 64
          | None => none_from w r
          end) as Hfirst.
  { destruct (w =? 0) eqn:E; reflect_bools.
    - subst w. intros j Hj. apply Z.bits_0.
    - apply iterate_word_spec; [done|lia..]. }
  destruct (if w =? 0 then None else iterate_word 65 w (mask r) r) as [m|].
  - destruct Hfirst as [(Hk & Hb & Hlow) Hm]. exists m. split; [done|]. split_and!; [done|..].
    + rewrite value_cons_testbit, (proj2 (Z.ltb_lt _ _)) by (done || lia). done.
    + intros j Hj. rewrite value_cons_testbit, (proj2 (Z.ltb_lt _ _)) by (done || lia).
      by apply Hlow.
  - change 1 with (mask 0) at 2. specialize (IH (offset + 1) 0 ltac:(lia)).
    destruct (iterate_words ws (offset + 1) (mask 0) 0) as [n|].
    + destruct IH as (m & -> & Hk & Hb & Hlow). exists (m + 64). split.
      { unfold BITMAP_OFFSET_TO_NUM. f_equal. lia. }
      split_and!; [lia|..].
      * rewrite value_cons_testbit, (proj2 (Z.ltb_ge _ _)) by (done || lia).
        by replace (m + 64 - 64) with m by lia.
      * intros j Hj. rewrite value_cons_testbit by (done || lia).
        destruct (j <? 64) eqn:E; reflect_bools; [apply Hfirst; lia|apply Hlow; lia].
    + intros j Hj. rewrite value_cons_testbit by (done || lia).
      destruct (j <? 64) eqn:E; reflect_bools; [apply Hfirst; lia|apply IH; lia].
Qed.

Lemma value_drop ws k m :
  Forall is_word ws → 0 ≤ m →
  Z.testbit (words_value (drop k ws)) m = Z.testbit (words_value ws) (m + 64 * Z.of_nat k).
Proof.
  intros Hws Hm. rewrite !words_value_testbit by (done || lia || by apply Forall_drop).
  rewrite lookup_drop. replace (64 * Z.of_nat k) with (Z.of_nat k * 64) by lia.
  rewrite Z.div_add, Z.mod_add by lia. pose proof (Z.div_pos m 64).
  do 3 f_equal. lia.
Qed.

(** No number is in a bitmap past its words. *)
Lemma bitmap_bound b n : bitmap_wf b → 65536 ≤ n → Z.testbit (bitmap_value b) n = false.
Proof.
  intros Hb Hn. pose proof (bm_max b Hb).
  assert (1024 ≤ n / 64) by (apply Z.div_le_lower_bound; lia).
  by rewrite bitmap_testbit, word_out, Z.bits_0 by (done || lia).
Qed.

Lemma bitmap_iterate_spec b idx :
  bitmap_wf b → 0 ≤ idx < BITMAP_END →
  match bitmap_iterate b idx with
  | (Some n, idx') => least_from (bitmap_value b) idx n ∧ idx' = n + 1
  | (None, idx') => none_from (bitmap_value b) idx ∧ idx' = BITMAP_END
  end.
Proof.
  intros Hb Hi. unfold bitmap_iterate. rewrite (proj2 (Z.eqb_neq _ _)) by lia.
  unfold BITMAP_NUM_TO_OFFSET, BITMAP_NUM_TO_REM. pose proof (rem_range idx).
  rewrite mask_pow2 by done. pose proof (Z.div_mod idx 64). pose proof (Z.div_pos idx 64).
  pose proof (words_wf b Hb) as Hw. fold (words b).
  assert (mask (idx mod 64) = 2 ^ (idx mod 64)) as <-
    by (unfold mask; by rewrite (proj2 (Z.ltb_lt _ 64)) by lia).
  pose proof (iterate_words_spec (drop (Z.to_nat (idx / 64)) (words b))
    (Forall_drop _ _ _ Hw) (idx / 64) (idx mod 64) ltac:(lia)) as Hs.
  destruct (iterate_words _ _ _ _) as [n|].
  - destruct Hs as (m & En & Hk & Hbit & Hlow).
    rewrite value_drop, Z2Nat.id in Hbit by (done || lia).
    assert (m + 64 * (idx / 64) < 65536) as Hmax.
    { destruct (decide (m + 64 * (idx / 64) < 65536)); [done|].
      fold (bitmap_value b) in Hbit. by rewrite bitmap_bound in Hbit by (done || lia). }
    unfold BITMAP_OFFSET_TO_NUM in En. rewrite wrapu_small in En by lia. subst n.
    replace (idx / 64 * 64 + m) with (m + 64 * (idx / 64)) by lia.
    split; [|apply wrapu_small; lia]. split_and!; [lia|done|].
    intros j Hj. specialize (Hlow (j - 64 * (idx / 64)) ltac:(lia)).
    rewrite value_drop, Z2Nat.id in Hlow by (done || lia).
    by replace (j - 64 * (idx / 64) + 64 * (idx / 64)) with j in Hlow by lia.
  - split; [|done]. intros j Hj. specialize (Hs (j - 64 * (idx / 64)) ltac:(lia)).
    rewrite value_drop, Z2Nat.id in Hs by (done || lia).
    by replace (j - 64 * (idx / 64) + 64 * (idx / 64)) with j in Hs by lia.
Qed.

(** ** Comparison *)

Lemma words_value_zero ws :
  Forall is_word ws → words_value ws = 0 ↔ Forall (λ w, w = 0) ws.
Proof.
  induction 1 as [|w ws Hw Hws IH]; [by split|]. cbn [words_value]. unfold is_word in Hw.
  assert (0 ≤ words_value ws).
  { clear IH. induction Hws as [|v vs Hv Hvs IH]; [done|]. cbn [words_value].
    unfold is_word in Hv. lia. }
  rewrite Forall_cons, <- IH. lia.
Qed.

Lemma forallb_zero ws : forallb (λ w, w =? 0) ws = true ↔ Forall (λ w, w = 0) ws.
Proof.
  induction ws as [|w ws IH]; simpl; [by split|].
  by rewrite andb_true_iff, Z.eqb_eq, IH, Forall_cons.
Qed.

Lemma words_value_app ws vs :
  words_value (ws ++ vs) = words_value ws + 2 ^ (64 * Z.of_nat (length ws)) * words_value vs.
Proof.
  induction ws as [|w ws IH]; cbn [words_value app length]; [lia|]. rewrite IH.
  replace (64 * Z.of_nat (S (length ws))) with (64 + 64 * Z.of_nat (length ws)) by lia.
  rewrite Z.pow_add_r by lia. lia.
Qed.

Lemma words_value_range ws :
  Forall is_word ws → 0 ≤ words_value ws < 2 ^ (64 * Z.of_nat (length ws)).
Proof.
  induction 1 as [|w ws Hw Hws IH]; cbn [words_value length]; [done|]. unfold is_word in Hw.
  replace (64 * Z.of_nat (S (length ws))) with (64 + 64 * Z.of_nat (length ws)) by lia.
  rewrite Z.pow_add_r by lia. nia.
Qed.

(** Words of the same number are determined by it. *)
Lemma words_value_inj ws vs :
  Forall is_word ws → Forall is_word vs → length ws = length vs →
  words_value ws = words_value vs → ws = vs.
Proof.
  intros Hws. revert vs. induction Hws as [|w ws Hw Hws IH]; intros vs Hvs Hl E.
  { by destruct vs. }
  destruct vs as [|v vs]; [done|]. apply Forall_cons in Hvs as [Hv Hvs].
  cbn [words_value length] in *. unfold is_word in *.
  assert (w = v ∧ words_value ws = words_value vs) as [-> Hrest]; [|f_equal; auto].
  lia.
Qed.

(** A shorter array against a longer one: equal numbers exactly when the
    longer one starts with the shorter and goes on with zeros. *)
Lemma words_value_prefix ws vs :
  Forall is_word ws → Forall is_word vs → (length ws ≤ length vs)%nat →
  words_value ws = words_value vs ↔
  ws = take (length ws) vs ∧ Forall (λ w, w = 0) (drop (length ws) vs).
Proof.
  intros Hws Hvs Hl. set (n := length ws).
  assert (length (take n vs) = n) as Hn by (rewrite length_take; lia).
  pose proof (words_value_app (take n vs) (drop n vs)) as E. rewrite take_drop, Hn in E.
  rewrite <- (words_value_zero (drop n vs)) by (by apply Forall_drop).
  pose proof (words_value_range _ Hws) as R1. fold n in R1.
  pose proof (words_value_range _ (Forall_take _ n _ Hvs)) as R2. rewrite Hn in R2.
  pose proof (words_value_range _ (Forall_drop _ n _ Hvs)) as R3. rewrite E.
  set (P := 2 ^ (64 * Z.of_nat n)) in *. split.
  - intros Heq. assert (words_value (drop n vs) = 0) as Hz by nia. split; [|done].
    apply words_value_inj; [done|by apply Forall_take|done|]. rewrite Hz in Heq. lia.
  - intros [Heq ->]. rewrite <- Heq. lia.
Qed.

Lemma bitmap_equal_spec a b :
  bitmap_wf a → bitmap_wf b →
  bitmap_equal a b = true ↔ bitmap_value a = bitmap_value b.
Proof.
  intros Ha Hb. pose proof (words_wf a Ha) as Wa. pose proof (words_wf b Hb) as Wb.
  assert (length (words a) = n_bitmaps a) as La
    by (unfold words; rewrite length_take; pose proof (bm_len a Ha); lia).
  assert (length (words b) = n_bitmaps b) as Lb
    by (unfold words; rewrite length_take; pose proof (bm_len b Hb); lia).
  unfold bitmap_equal, bitmap_value.
  destruct (n_bitmaps b <? n_bitmaps a)%nat eqn:E.
  - apply Nat.ltb_lt in E. rewrite Nat.min_r by lia. fold (words a).
    assert (take (n_bitmaps b) (bitmaps a) = take (n_bitmaps b) (words a)) as ->
      by (unfold words; by rewrite take_take, Nat.min_l by lia). fold (words b).
    split.
    + case_bool_decide as Hc; [|done]. simpl. rewrite forallb_zero. intros Hz. symmetry.
      apply words_value_prefix; [done|done|lia|]. by rewrite Lb.
    + intros Heq. symmetry in Heq. apply words_value_prefix in Heq; [|done|done|lia].
      rewrite Lb in Heq. destruct Heq as [H1 H2]. rewrite bool_decide_true by done. simpl.
      by apply forallb_zero.
  - apply Nat.ltb_ge in E. rewrite Nat.min_l by lia. fold (words b).
    assert (take (n_bitmaps a) (bitmaps b) = take (n_bitmaps a) (words b)) as ->
      by (unfold words; by rewrite take_take, Nat.min_l by lia). fold (words a).
    split.
    + case_bool_decide as Hc; [|done]. simpl. rewrite forallb_zero. intros Hz.
      apply words_value_prefix; [done|done|lia|]. by rewrite La.
    + intros Heq. apply words_value_prefix in Heq; [|done|done|lia].
      rewrite La in Heq. destruct Heq as [H1 H2]. rewrite bool_decide_true by done. simpl.
      by apply forallb_zero.
Qed.

(** ** Properties *)

(** A run of updates from the empty bitmap: [true] sets, [false] unsets. *)
Fixpoint updates (b : Bitmap) (us : list (bool * Z)) : option Bitmap :=
  match us with
  | [] => Some b
  | (true, n) :: us => r ← bitmap_set b n false 0; updates r.2 us
  | (false, n) :: us => b ← bitmap_unset b n; updates b us
  end.

(** The same run on a finite set. *)
Fixpoint set_updates (s : gset Z) (us : list (bool * Z)) : gset Z :=
  match us with
  | [] => s
  | (true, n) :: us => set_updates (if n >? BITMAPS_MAX_ENTRY then s else {[n]} ∪ s) us
  | (false, n) :: us => set_updates (s ∖ {[n]}) us
  end.

Definition stands_for (b : Bitmap) (s : gset Z) : Prop :=
  ∀ n, 0 ≤ n → Z.testbit (bitmap_value b) n = bool_decide (n ∈ s).

Lemma bitmap_new_wf : bitmap_wf bitmap_new.
Proof. split; simpl; [lia|by apply Forall_nil_2|by apply Forall_nil_2|lia]. Qed.

Lemma updates_spec us : ∀ b s,
  bitmap_wf b → stands_for b s → Forall (λ u, 0 ≤ u.2) us →
  ∃ b', updates b us = Some b' ∧ bitmap_wf b' ∧ stands_for b' (set_updates s us).
Proof.
  induction us as [|[[] n] us IH]; intros b s Hb Hs Hu; simpl; [by exists b|..];
    apply Forall_cons in Hu as [Hn Hu]; simpl in Hn.
  - destruct (n >? BITMAPS_MAX_ENTRY) eqn:E.
    + unfold bitmap_set. rewrite E. simpl. by apply IH.
    + rewrite Z.gtb_ltb in E. reflect_bools.
      destruct (bitmap_set_spec b n 0 Hb) as (b1 & -> & Hb1 & Hv); [lia|]. simpl.
      apply IH; [done| |done]. intros m Hm. rewrite Hv, Z.setbit_eqb, (Hs m Hm) by lia.
      repeat case_bool_decide; destruct (n =? m) eqn:Em; reflect_bools; set_solver.
  - destruct (bitmap_unset_spec b n Hb Hn) as (b1 & -> & Hb1 & Hv). simpl.
    apply IH; [done| |done]. intros m Hm. rewrite Hv, Z.clearbit_eqb, (Hs m Hm) by lia.
    repeat case_bool_decide; destruct (n =? m) eqn:Em; reflect_bools; set_solver.
Qed.

(** A bitmap is a set of numbers: after any sequence of [bitmap_set] and
    [bitmap_unset] from the empty bitmap, [bitmap_isset] answers membership in
    the set built by the same sequence, where [bitmap_set] ignores the numbers
    above the limit it returns -ERANGE for, and no access is outside the
    allocated words. *)
Theorem bitmap_is_set (us : list (bool * Z)) (n : Z) :
  Forall (λ u, 0 ≤ u.2) us → 0 ≤ n →
  ∃ b, updates bitmap_new us = Some b ∧
    bitmap_isset b n = Some (bool_decide (n ∈ set_updates ∅ us)).
Proof.
  intros Hu Hn. destruct (updates_spec us bitmap_new ∅ bitmap_new_wf) as (b & E & Hb & Hs).
  - intros m Hm. unfold bitmap_value, words. simpl. by rewrite Z.bits_0.
  - done.
  - exists b. split; [done|]. by rewrite bitmap_isset_spec, Hs.
Qed.

Lemma bitmap_is_set_witness :
  ∃ b, updates bitmap_new [(true, 5); (true, 700); (false, 5); (true, 64); (true, 70000)] = Some b ∧
    bitmap_isset b 700 = Some (bool_decide (700 ∈ set_updates ∅
      [(true, 5); (true, 700); (false, 5); (true, 64); (true, 70000)])).
Proof.
  apply (bitmap_is_set [(true, 5); (true, 700); (false, 5); (true, 64); (true, 70000)] 700); [|done].
  apply (bool_decide_unpack _). by vm_compute.
Defined.

(** [BITMAP_FOREACH]: the numbers [bitmap_iterate] gives until it stops. *)
Fixpoint foreach (fuel : nat) (b : Bitmap) (idx : Z) : option (list Z) :=
  match fuel with
  | O => None
  | S fuel =>
      match bitmap_iterate b idx with
      | (None, _) => Some []
      | (Some n, idx) => cons n <$> foreach fuel b idx
      end
  end.

Lemma filter_false (v : Z) l :
  Forall (λ m, Z.testbit v m = false) l → filter (λ m, Z.testbit v m = true) l = [].
Proof.
  induction 1 as [|m l Hm Hl IH]; [done|]. by rewrite filter_cons_False by congruence.
Qed.

Lemma foreach_spec b : bitmap_wf b → ∀ fuel idx,
  0 ≤ idx ≤ 65536 → 65536 - idx < Z.of_nat fuel →
  foreach fuel b idx =
    Some (filter (λ m, Z.testbit (bitmap_value b) m = true) (seqZ idx (65536 - idx))).
Proof.
  intros Hb. induction fuel as [|fuel IH]; intros idx Hi Hf; [lia|]. cbn [foreach].
  pose proof (bitmap_iterate_spec b idx Hb) as Hs.
  change BITMAP_END with (2 ^ 32 - 1) in Hs. specialize (Hs ltac:(lia)).
  destruct (bitmap_iterate b idx) as [[n|] idx'].
  - destruct Hs as [(Hk & Hbit & Hlow) ->].
    assert (n < 65536).
    { destruct (decide (n < 65536)); [done|]. by rewrite bitmap_bound in Hbit by (done || lia). }
    rewrite IH by lia.
    replace (65536 - idx) with ((n - idx) + (65536 - n)) by lia.
    rewrite seqZ_app by lia. replace (idx + (n - idx)) with n by lia.
    rewrite filter_app, (filter_false _ (seqZ idx (n - idx)))
      by (apply Forall_forall; intros j Hj%elem_of_seqZ; apply Hlow; lia).
    rewrite (seqZ_cons n) by lia. rewrite filter_cons_True by done. simpl.
    by replace (Z.pred (65536 - n)) with (65536 - (n + 1)) by lia.
  - destruct Hs as [Hn _]. rewrite filter_false; [done|].
    apply Forall_forall. intros j Hj%elem_of_seqZ. apply Hn. lia.
Qed.

(** [BITMAP_FOREACH] over a well-formed bitmap ends and visits exactly
    the numbers in it, each once and in ascending order; [bitmap_equal] holds
    exactly when two bitmaps contain the same numbers, whatever their sizes,
    and [bitmap_isclear] exactly when there are none. *)
Theorem bitmap_iterate_equal (a b : Bitmap) :
  bitmap_wf a → bitmap_wf b →
  foreach (Z.to_nat 65537) a 0 =
    Some (filter (λ n, Z.testbit (bitmap_value a) n = true) (seqZ 0 65536)) ∧
  (bitmap_equal a b = true ↔
     ∀ n, 0 ≤ n → Z.testbit (bitmap_value a) n = Z.testbit (bitmap_value b) n) ∧
  (bitmap_isclear a = true ↔ ∀ n, 0 ≤ n → Z.testbit (bitmap_value a) n = false).
Proof.
  intros Ha Hb. split; [|split].
  - apply (foreach_spec a Ha); lia.
  - rewrite bitmap_equal_spec by done. split; [by intros ->|].
    intros H. apply Z.bits_inj'. exact H.
  - unfold bitmap_isclear. fold (words a).
    rewrite forallb_zero, <- words_value_zero by (by apply words_wf). split.
    + intros H n Hn. unfold bitmap_value. by rewrite H, Z.bits_0.
    + intros H. apply Z.bits_inj'. intros n Hn. rewrite Z.bits_0. by apply H.
Qed.

Lemma bitmap_iterate_equal_witness :
  bitmap_equal (mk_bitmap [5; 0] 2) (mk_bitmap [5] 1) = true ∧
  foreach (Z.to_nat 65537) (mk_bitmap [5; 0] 2) 0 =
    Some (filter (λ n, Z.testbit (bitmap_value (mk_bitmap [5; 0] 2)) n = true) (seqZ 0 65536)).
Proof.
  assert (bitmap_wf (mk_bitmap [5; 0] 2)) as Ha.
  { split; simpl; [lia|by repeat constructor|by repeat constructor|lia]. }
  assert (bitmap_wf (mk_bitmap [5] 1)) as Hb.
  { split; simpl; [lia|by repeat constructor|by repeat constructor|lia]. }
  pose proof (bitmap_iterate_equal _ _ Ha Hb) as (H1 & H2 & H3).
  split; [reflexivity|exact H1].
Defined.

Lemma filter_agree {A} (P Q : A → Prop) `{∀ x, Decision (P x)} `{∀ x, Decision (Q x)} (l : list A) :
  Forall (λ x, P x ↔ Q x) l → filter P l = filter Q l.
Proof.
  induction 1 as [|x l Hx _ IH]; [done|]. rewrite !filter_cons, IH.
  repeat case_decide; naive_solver.
Qed.

(** C36. A bitmap is a set of numbers. After any sequence of [bitmap_set] and
    [bitmap_unset] from the empty bitmap, [bitmap_isset] answers membership in
    the set built by the same sequence, without numbers above the limit that
    [bitmap_set] refuses with -ERANGE; [BITMAP_FOREACH] visits exactly the
    members, in ascending order; and two bitmaps are [bitmap_equal], whatever
    their sizes, exactly when they contain the same numbers. *)
Theorem bitmap_refines_set (us vs : list (bool * Z)) :
  Forall (λ u, 0 ≤ u.2) us → Forall (λ u, 0 ≤ u.2) vs →
  ∃ a b, updates bitmap_new us = Some a ∧ updates bitmap_new vs = Some b ∧
    (∀ n, 0 ≤ n → bitmap_isset a n = Some (bool_decide (n ∈ set_updates ∅ us))) ∧
    foreach (Z.to_nat 65537) a 0 = Some (filter (.∈ set_updates ∅ us) (seqZ 0 65536)) ∧
    (bitmap_equal a b = true ↔ ∀ n, 0 ≤ n → n ∈ set_updates ∅ us ↔ n ∈ set_updates ∅ vs).
Proof.
  assert (∀ us, Forall (λ u, 0 ≤ u.2) us → ∃ b, updates bitmap_new us = Some b ∧ bitmap_wf b ∧
    ∀ n, 0 ≤ n → Z.testbit (bitmap_value b) n = bool_decide (n ∈ set_updates ∅ us)) as Hup.
  { intros l Hl. destruct (updates_spec l bitmap_new ∅ bitmap_new_wf) as (b & E & Hb & Hs); [|done|by exists b].
    intros m Hm. unfold bitmap_value, words. simpl. by rewrite Z.bits_0. }
  intros Hu Hv. destruct (Hup us Hu) as (a & Ea & Wa & Sa). destruct (Hup vs Hv) as (b & Eb & Wb & Sb).
  destruct (bitmap_iterate_equal a b Wa Wb) as (Hf & He & _).
  exists a, b. split_and!; [done..| | |].
  - intros n Hn. rewrite bitmap_isset_spec by done. by rewrite Sa.
  - rewrite Hf. f_equal. apply filter_agree, Forall_forall. intros n Hn%elem_of_seqZ.
    rewrite Sa by lia. by rewrite bool_decide_eq_true.
  - rewrite He. split; intros H n Hn; specialize (H n Hn); rewrite ?Sa, ?Sb in * by done.
    + by rewrite <- (bool_decide_eq_true (n ∈ _)), H, bool_decide_eq_true.
    + by apply bool_decide_ext.
Qed.

Lemma bitmap_refines_set_witness : ∃ a b,
  updates bitmap_new [(true, 5); (true, 700); (false, 5)] = Some a ∧ updates bitmap_new [(true, 700)] = Some b ∧
  foreach (Z.to_nat 65537) a 0 =
    Some (filter (.∈ set_updates ∅ [(true, 5); (true, 700); (false, 5)]) (seqZ 0 65536)).
Proof.
  destruct (bitmap_refines_set [(true, 5); (true, 700); (false, 5)] [(true, 700)])
    as (a & b & Ea & Eb & _ & Hf & _); [by apply (bool_decide_unpack _); vm_compute..|]. by exists a, b.
Defined.
