(* ===== verification/UidRange.v ===== *)
(** * systemd: sets of user IDs as ranges

    Models [src/app/multi_process/day1/systemd/src/shared/uid-range.c]: an
    array of ranges that [uid_range_add] keeps sorted and coalesced. The array
    and its length are one list; the empty list is the NULL pointer with which a caller
    starts, since an array that was allocated never becomes empty. A [uid_t] is 32 bits wide and its arithmetic
    wraps; [None] is a failed assertion. *)

From stdpp Require Import sorting.
From S2P Require Import Prelude.

#[local] Open Scope Z_scope.

#[local] Set Warnings "-clear-no-such-hyp".

(** ** Model *)

Record UidRange := mk_range {
  start : Z;
  nr : Z;
}.

#[export] Instance UidRange_eq_dec : EqDecision UidRange.
Proof. solve_decision. Defined.

Definition UID_INVALID : Z := u32 (-1).

Definition uid_range_intersect (range : UidRange) (s n : Z) : bool :=
  (start range <=? u32 (s + n)) && (u32 (start range + nr range) >=? s).

(** The range from the smaller begin to the larger end. *)
Definition uid_range_join (x : UidRange) (s n : Z) : UidRange :=
  let begin := Z.min (start x) s in
  let end_ := Z.max (u32 (start x + nr x)) (u32 (s + n)) in
  mk_range begin (u32 (end_ - begin)).

(** The inner loop of [uid_range_coalesce]: a range that intersects is joined
    into slot [i] and removed, and the loop stays at [j]. *)
Fixpoint coalesce_inner (fuel : nat) (l : list UidRange) (i j : nat) : list UidRange :=
  match fuel with
  | O => l
  | S fuel =>
      match l !! i, l !! j with
      | Some x, Some y =>
          if uid_range_intersect x (start y) (nr y)
          then coalesce_inner fuel (delete j (<[i := uid_range_join x (start y) (nr y)]> l)) i j
          else coalesce_inner fuel l i (S j)
      | _, _ => l
      end
  end.

Fixpoint coalesce_outer (fuel : nat) (l : list UidRange) (i : nat) : list UidRange :=
  match fuel with
  | O => l
  | S fuel =>
      if (i <? length l)%nat
      then coalesce_outer fuel (coalesce_inner (length l) l i (S i)) (S i) else l
  end.

Definition uid_range_coalesce (l : list UidRange) : list UidRange :=
  coalesce_outer (length l) l 0.

(** [uid_range_compare(a, b) <= 0]. *)
Definition uid_range_le (a b : UidRange) : Prop :=
  start a < start b ∨ start a = start b ∧ nr a ≤ nr b.

#[export] Instance uid_range_le_dec : RelDecision uid_range_le.
Proof. intros a b. unfold uid_range_le. apply _. Defined.

(** The search for a range to extend: the first that intersects. *)
Fixpoint add_to_first (l : list UidRange) (s n : Z) : option (list UidRange) :=
  match l with
  | [] => None
  | x :: l =>
      if uid_range_intersect x s n then Some (uid_range_join x s n :: l)
      else cons x <$> add_to_first l s n
  end.

(** [uid_range_add]; [oom] is whether [reallocarray] fails. *)
Definition uid_range_add (l : list UidRange) (s n : Z) (oom : bool) : Z * list UidRange :=
  if n <=? 0 then (0, l)
  else
    let found := add_to_first l s n in
    match found with
    | None => if oom then (- ENOMEM, l)
              else let l := uid_range_coalesce (merge_sort uid_range_le (l ++ [mk_range s n])) in
                   (Z.of_nat (length l), l)
    | Some l => let l := uid_range_coalesce (merge_sort uid_range_le l) in
                (Z.of_nat (length l), l)
    end.

(** [uid_range_add_str]; [parse_uid] is the parser of [user-util.c]: the
    result and the value. *)
Section add_str.
Context (parse_uid : list Z → Z * Z).

(** [strchr(s, '-')]: what is before and after the first dash. *)
Fixpoint split_dash (s : list Z) : option (list Z * list Z) :=
  match s with
  | [] => None
  | c :: s => if c =? 45 then Some ([], s)
              else r ← split_dash s; Some (c :: r.1, r.2)
  end.

Definition uid_range_add_str (l : list UidRange) (s : list Z) (oom : bool) : Z * list UidRange :=
  match split_dash s with
  | Some (b, t) =>
      let '(r, st) := parse_uid b in
      if r <? 0 then (r, l)
      else
        let '(r, end_) := parse_uid t in
        if r <? 0 then (r, l)
        else if end_ <? st then (- EINVAL, l)
        else uid_range_add l st (u32 (end_ - st + 1)) oom
  | None =>
      let '(r, st) := parse_uid s in
      if r <? 0 then (r, l) else uid_range_add l st 1 oom
  end.
End add_str.

(** The loop of [uid_range_next_lower]: a range with the candidate, or the end
    of the last range below it. *)
Fixpoint next_lower_loop (l : list UidRange) (candidate closest : Z) : bool * Z :=
  match l with
  | [] => (false, closest)
  | x :: l =>
      let begin := start x in
      let end_ := u32 (start x + nr x - 1) in
      if (candidate >=? begin) && (candidate <=? end_) then (true, candidate)
      else next_lower_loop l candidate (if end_ <? candidate then end_ else closest)
  end.

(** [uid_range_next_lower], with its [assert(p)]: the result and the new [*uid]. *)
Definition uid_range_next_lower (l : list UidRange) (uid : Z) : option (Z * Z) :=
  if bool_decide (l = []) then None
  else
    let candidate := u32 (uid - 1) in
    match next_lower_loop l candidate UID_INVALID with
    | (true, c) => Some (1, c)
    | (false, closest) => Some (if closest =? UID_INVALID then (- EBUSY, uid) else (1, closest))
    end.

(** [uid_range_contains], with its [assert(p)] and its [assert(uid)]. *)
Definition uid_range_contains (l : list UidRange) (uid : Z) : option bool :=
  if bool_decide (l = []) then None
  else if uid =? 0 then None
  else Some (existsb (λ x, (uid >=? start x) && (uid <? u32 (start x + nr x))) l).

(** ** Specification *)

Definition in_range (u : Z) (x : UidRange) : Prop := start x ≤ u < start x + nr x.
Definition in_ranges (u : Z) (l : list UidRange) : Prop := ∃ x, x ∈ l ∧ in_range u x.

(** A range that is not empty and ends below the largest [uid_t]. *)
Definition range_ok (x : UidRange) : Prop :=
  0 ≤ start x ∧ 0 < nr x ∧ start x + nr x ≤ UINT32_MAX.

(** Sorted ranges with a gap between any two. *)
Definition apart (x y : UidRange) : Prop := start x + nr x < start y.
Record ranges_wf (l : list UidRange) : Prop := {
  rw_ok : Forall range_ok l;
  rw_apart : StronglySorted apart l;
}.

(** ** Joining *)

Lemma intersect_spec x y :
  range_ok x → range_ok y →
  uid_range_intersect x (start y) (nr y) = true ↔
  start x ≤ start y + nr y ∧ start y ≤ start x + nr x.
Proof.
  unfold range_ok, UINT32_MAX. intros Hx Hy. unfold uid_range_intersect.
  rewrite !wrapu_small by lia. rewrite andb_true_iff, Z.leb_le, Z.geb_le. done.
Qed.

Lemma join_spec x y :
  range_ok x → range_ok y →
  let z := uid_range_join x (start y) (nr y) in
  range_ok z ∧ start z = Z.min (start x) (start y) ∧
  start z + nr z = Z.max (start x + nr x) (start y + nr y).
Proof.
  unfold range_ok, UINT32_MAX. intros Hx Hy. unfold uid_range_join. cbv zeta. simpl.
  rewrite (wrapu_small 32 (start x + nr x)), (wrapu_small 32 (start y + nr y)) by lia.
  rewrite wrapu_small by lia. lia.
Qed.

(** Ranges that touch join into their union. *)
Lemma join_union x y u :
  range_ok x → range_ok y → uid_range_intersect x (start y) (nr y) = true →
  in_range u (uid_range_join x (start y) (nr y)) ↔ in_range u x ∨ in_range u y.
Proof.
  intros Hx Hy Ht. apply intersect_spec in Ht; [|done..].
  destruct (join_spec x y Hx Hy) as (_ & E1 & E2). unfold in_range, range_ok in *. lia.
Qed.

Lemma in_ranges_cons u x l : in_ranges u (x :: l) ↔ in_range u x ∨ in_ranges u l.
Proof.
  unfold in_ranges. split.
  - intros (y & Hy & Hu). apply elem_of_cons in Hy as [->|Hy]; [by left|right; eauto].
  - intros [H|(y & Hy & Hu)]; [exists x|exists y]; split; try done; [left|by right].
Qed.

Lemma in_ranges_app u l k : in_ranges u (l ++ k) ↔ in_ranges u l ∨ in_ranges u k.
Proof. unfold in_ranges. set_solver. Qed.

Lemma in_ranges_perm u l k : l ≡ₚ k → in_ranges u l ↔ in_ranges u k.
Proof. intros H. unfold in_ranges. by setoid_rewrite H. Qed.

(** ** Coalescing *)

(** What the inner loop does to a range and the ones after it. *)
Fixpoint absorb (x : UidRange) (ys : list UidRange) : UidRange * list UidRange :=
  match ys with
  | [] => (x, [])
  | y :: ys =>
      if uid_range_intersect x (start y) (nr y)
      then absorb (uid_range_join x (start y) (nr y)) ys
      else let r := absorb x ys in (r.1, y :: r.2)
  end.

Lemma coalesce_inner_absorb ys : ∀ fuel pre x mid,
  (length ys < fuel)%nat →
  coalesce_inner fuel (pre ++ x :: mid ++ ys) (length pre) (S (length pre + length mid)) =
  pre ++ (absorb x ys).1 :: mid ++ (absorb x ys).2.
Proof.
  induction ys as [|y ys IH]; intros fuel pre x mid Hf; (destruct fuel as [|fuel]; [simpl in Hf; lia|]);
    cbn [coalesce_inner absorb]; rewrite (list_lookup_middle pre _ x) by done.
  - replace ((pre ++ x :: mid ++ []) !! S (length pre + length mid)) with (@None UidRange); [done|].
    symmetry. apply lookup_ge_None. rewrite app_nil_r, length_app. simpl. lia.
  - assert ((pre ++ x :: mid ++ y :: ys) !! S (length pre + length mid) = Some y) as ->.
    { replace (pre ++ x :: mid ++ y :: ys) with ((pre ++ x :: mid) ++ y :: ys)
        by (by rewrite <- app_assoc).
      apply list_lookup_middle. rewrite length_app. simpl. lia. }
    simpl in Hf. destruct (uid_range_intersect x (start y) (nr y)).
    + rewrite insert_app_r_alt, Nat.sub_diag by lia. cbn [insert list_insert].
      set (z := uid_range_join x (start y) (nr y)).
      replace (pre ++ z :: mid ++ y :: ys) with ((pre ++ z :: mid) ++ y :: ys)
        by (by rewrite <- app_assoc).
      replace (S (length pre + length mid)) with (length (pre ++ z :: mid)) at 1
        by (rewrite length_app; simpl; lia).
      rewrite delete_middle, <- app_assoc. apply IH. lia.
    + cbn [fst snd]. specialize (IH fuel pre x (mid ++ [y]) ltac:(lia)).
      rewrite <- !app_assoc, length_app in IH. cbn [app length] in IH. rewrite <- IH.
      f_equal. lia.
Qed.

(** Coalescing as a function of the list, with the length as fuel. *)
Fixpoint coalesce_list (fuel : nat) (l : list UidRange) : list UidRange :=
  match fuel, l with
  | S fuel, x :: ys => (absorb x ys).1 :: coalesce_list fuel (absorb x ys).2
  | _, _ => l
  end.

Lemma absorb_length x ys : (length (absorb x ys).2 ≤ length ys)%nat.
Proof.
  revert x. induction ys as [|y ys IH]; intros x; simpl; [lia|].
  destruct (uid_range_intersect _ _ _); [|simpl; specialize (IH x); lia].
  specialize (IH (uid_range_join x (start y) (nr y))). lia.
Qed.

Lemma coalesce_outer_list fuel : ∀ pre l,
  (length l ≤ fuel)%nat → coalesce_outer fuel (pre ++ l) (length pre) = pre ++ coalesce_list fuel l.
Proof.
  induction fuel as [|fuel IH]; intros pre l Hf; [done|]. destruct l as [|x ys].
  { cbn [coalesce_outer coalesce_list]. rewrite app_nil_r, Nat.ltb_irrefl. done. }
  cbn [coalesce_outer coalesce_list].
  rewrite (proj2 (Nat.ltb_lt _ _)) by (rewrite length_app; simpl; lia).
  pose proof (coalesce_inner_absorb ys (length (pre ++ x :: ys)) pre x []) as E.
  cbn [app length] in E. rewrite Nat.add_0_r in E. rewrite E by (rewrite length_app; simpl; lia).
  pose proof (absorb_length x ys). simpl in Hf.
  specialize (IH (pre ++ [(absorb x ys).1]) (absorb x ys).2 ltac:(lia)).
  rewrite <- !app_assoc, length_app in IH. cbn [app length] in IH.
  by rewrite Nat.add_1_r in IH.
Qed.

Lemma coalesce_is_list l : uid_range_coalesce l = coalesce_list (length l) l.
Proof. apply (coalesce_outer_list (length l) [] l). done. Qed.

(** Absorbing keeps the union and the ranges' form. *)
Lemma absorb_spec ys : ∀ x,
  range_ok x → Forall range_ok ys →
  range_ok (absorb x ys).1 ∧ Forall range_ok (absorb x ys).2 ∧
  ∀ u, in_ranges u ((absorb x ys).1 :: (absorb x ys).2) ↔ in_ranges u (x :: ys).
Proof.
  induction ys as [|y ys IH]; intros x Hx Hys; simpl; [done|].
  apply Forall_cons in Hys as [Hy Hys].
  destruct (uid_range_intersect x (start y) (nr y)) eqn:E.
  - destruct (join_spec x y Hx Hy) as [Hz _].
    destruct (IH _ Hz Hys) as (H1 & H2 & H3). split_and!; [done..|].
    intros u. rewrite H3, !in_ranges_cons, join_union by done. tauto.
  - destruct (IH _ Hx Hys) as (H1 & H2 & H3). simpl. split_and!; [done|by constructor|].
    intros u. specialize (H3 u). rewrite !in_ranges_cons in *. tauto.
Qed.

(** On ranges sorted by their start, what is left lies apart on the right. *)
Lemma absorb_apart_id x ys :
  range_ok x → Forall range_ok ys → Forall (apart x) ys → absorb x ys = (x, ys).
Proof.
  intros Hx Hys. induction ys as [|y ys IH]; intros Hap; simpl; [done|].
  apply Forall_cons in Hys as [Hy Hys], Hap as [Ha Hap].
  destruct (uid_range_intersect x (start y) (nr y)) eqn:E.
  - apply intersect_spec in E; [|done..]. unfold apart in Ha. lia.
  - by rewrite IH.
Qed.

Definition starts_le (x y : UidRange) : Prop := start x ≤ start y.

Lemma absorb_sorted ys : ∀ x,
  range_ok x → Forall range_ok ys → Forall (starts_le x) ys → StronglySorted starts_le ys →
  start (absorb x ys).1 = start x ∧ Forall (apart (absorb x ys).1) (absorb x ys).2 ∧
  StronglySorted starts_le (absorb x ys).2.
Proof.
  induction ys as [|y ys IH]; intros x Hx Hys Hxy Hs; simpl; [done|].
  apply Forall_cons in Hys as [Hy Hys], Hxy as [Hle Hxy].
  apply StronglySorted_inv in Hs as [Hs Hys'].
  destruct (uid_range_intersect x (start y) (nr y)) eqn:E.
  - destruct (join_spec x y Hx Hy) as (Hz & E1 & E2).
    assert (start (uid_range_join x (start y) (nr y)) = start x) as Est
      by (unfold starts_le in Hle; lia).
    destruct (IH _ Hz Hys) as (H1 & H2 & H3); [|done|by rewrite H1].
    eapply Forall_impl; [exact Hxy|]. intros w Hw. unfold starts_le in *. lia.
  - assert (apart x y) as Hap.
    { destruct (decide (start y ≤ start x + nr x)); [|unfold apart; lia].
      exfalso. apply not_true_iff_false in E. apply E, intersect_spec; [done..|].
      unfold starts_le, range_ok in *. lia. }
    assert (Forall (apart x) ys) as Hall.
    { eapply Forall_impl; [exact Hys'|]. intros w Hw. unfold apart, starts_le in *. lia. }
    rewrite absorb_apart_id by done. simpl. split_and!; [done|by constructor|by constructor].
Qed.

Lemma coalesce_list_spec fuel : ∀ l,
  (length l ≤ fuel)%nat → Forall range_ok l → StronglySorted starts_le l →
  ranges_wf (coalesce_list fuel l) ∧ (∀ u, in_ranges u (coalesce_list fuel l) ↔ in_ranges u l) ∧
  ∀ k, Forall (λ y, k < start y) l → Forall (λ y, k < start y) (coalesce_list fuel l).
Proof.
  induction fuel as [|fuel IH]; intros l Hf Hok Hs.
  - destruct l; [|simpl in Hf; lia]. simpl. split_and!; [by split; constructor|done..].
  - destruct l as [|x ys]; [simpl; split_and!; [by split; constructor|done..]|].
    cbn [coalesce_list]. apply Forall_cons in Hok as [Hx Hys].
    apply StronglySorted_inv in Hs as [Hs Hle].
    destruct (absorb_spec ys x Hx Hys) as (O1 & O2 & Hu).
    destruct (absorb_sorted ys x Hx Hys Hle Hs) as (E1 & Hap & Hs2).
    pose proof (absorb_length x ys). simpl in Hf.
    destruct (IH (absorb x ys).2 ltac:(lia) O2 Hs2) as ([K1 K2] & K3 & K4).
    split_and!.
    + split; [by constructor|]. constructor; [done|].
      exact (K4 (start (absorb x ys).1 + nr (absorb x ys).1) Hap).
    + intros u. rewrite in_ranges_cons, K3, <- in_ranges_cons. apply Hu.
    + intros k Hk. apply Forall_cons in Hk as [Hk1 Hk2]. constructor; [lia|].
      apply K4. eapply Forall_impl; [exact Hap|]. intros y Hy. unfold apart, range_ok in *. lia.
Qed.

(** ** Adding *)

#[export] Instance uid_range_le_trans : Transitive uid_range_le.
Proof. intros x y z. unfold uid_range_le. lia. Qed.
#[export] Instance uid_range_le_total : Total uid_range_le.
Proof. intros x y. unfold uid_range_le. lia. Qed.

Lemma StronglySorted_weaken {A} (R S : relation A) l :
  (∀ x y, R x y → S x y) → StronglySorted R l → StronglySorted S l.
Proof.
  intros HRS. induction 1 as [|x l Hl IH Hx]; constructor; [done|].
  eapply Forall_impl; eauto.
Qed.

Lemma sort_and_coalesce l :
  Forall range_ok l →
  ranges_wf (uid_range_coalesce (merge_sort uid_range_le l)) ∧
  ∀ u, in_ranges u (uid_range_coalesce (merge_sort uid_range_le l)) ↔ in_ranges u l.
Proof.
  intros Hok. pose proof (merge_sort_Permutation uid_range_le l) as Hp.
  rewrite coalesce_is_list.
  destruct (coalesce_list_spec (length (merge_sort uid_range_le l)) (merge_sort uid_range_le l))
    as (H1 & H2 & _); [done|by rewrite Hp| |].
  - eapply StronglySorted_weaken; [|apply StronglySorted_merge_sort; apply _].
    intros x y. unfold uid_range_le, starts_le. lia.
  - split; [done|]. intros u. rewrite H2. by apply in_ranges_perm.
Qed.

Lemma add_to_first_spec l s n l' :
  Forall range_ok l → range_ok (mk_range s n) → add_to_first l s n = Some l' →
  Forall range_ok l' ∧ ∀ u, in_ranges u l' ↔ in_ranges u l ∨ in_range u (mk_range s n).
Proof.
  intros Hok Hr. revert l'. induction Hok as [|x l Hx Hl IH]; intros l'; simpl; [done|].
  destruct (uid_range_intersect x s n) eqn:E.
  - intros [= <-]. destruct (join_spec x (mk_range s n) Hx Hr) as [Hz _].
    split; [by constructor|]. intros u. rewrite !in_ranges_cons.
    rewrite (join_union x (mk_range s n) u Hx Hr E). tauto.
  - destruct (add_to_first l s n) as [k|]; intros [= <-].
    destruct (IH k eq_refl) as [H1 H2]. split; [by constructor|].
    intros u. rewrite !in_ranges_cons, H2. tauto.
Qed.

Lemma contains_spec l u :
  Forall range_ok l → l ≠ [] →
  if decide (u = 0) then uid_range_contains l u = None
  else ∃ b, uid_range_contains l u = Some b ∧ (b = true ↔ in_ranges u l).
Proof.
  intros Hok Hl. unfold uid_range_contains. rewrite bool_decide_eq_false_2 by done.
  case_decide as Hu; [by subst|]. rewrite (proj2 (Z.eqb_neq _ _)) by done.
  eexists. split; [done|]. rewrite existsb_exists. unfold in_ranges. split.
  - intros (x & Hx & Hb). apply list_elem_of_In in Hx. exists x. split; [done|].
    eapply Forall_forall in Hok; [|done]. unfold range_ok, UINT32_MAX in Hok.
    rewrite wrapu_small in Hb by lia. reflect_bools. by unfold in_range.
  - intros (x & Hx & Hb). exists x. split; [by apply list_elem_of_In|].
    eapply Forall_forall in Hok; [|done]. unfold range_ok, UINT32_MAX in Hok.
    unfold in_range in Hb. rewrite wrapu_small, andb_true_iff, Z.geb_le, Z.ltb_lt by lia. lia.
Qed.

(** [uid_range_add] computes a union: the result is again a sorted list
    of ranges with gaps between them, it contains exactly the old user IDs and
    the new ones, as [uid_range_contains] tells for every ID but 0, for which it aborts,
    and the call returns the number of ranges. *)
Theorem uid_range_add_union (l : list UidRange) (s n u : Z) :
  ranges_wf l → 0 ≤ s → 0 < n → s + n ≤ UINT32_MAX →
  let r := uid_range_add l s n false in
  r.1 = Z.of_nat (length r.2) ∧ ranges_wf r.2 ∧
  if decide (u = 0) then uid_range_contains r.2 u = None
  else ∃ b, uid_range_contains r.2 u = Some b ∧ (b = true ↔ in_ranges u l ∨ s ≤ u < s + n).
Proof.
  intros [Hok Hap] Hs Hn Hmax r.
  assert (range_ok (mk_range s n)) as Hr by (unfold range_ok; simpl; lia).
  assert (∃ k, Forall range_ok k ∧
    r = (Z.of_nat (length (uid_range_coalesce (merge_sort uid_range_le k))),
         uid_range_coalesce (merge_sort uid_range_le k)) ∧
    ∀ u, in_ranges u k ↔ in_ranges u l ∨ in_range u (mk_range s n)) as (k & Hk & -> & Hun).
  { unfold r, uid_range_add. rewrite (proj2 (Z.leb_gt _ _)) by done.
    destruct (add_to_first l s n) as [k|] eqn:E.
    - destruct (add_to_first_spec _ _ _ _ Hok Hr E) as [H1 H2]. by exists k.
    - exists (l ++ [mk_range s n]). split_and!; [|done|].
      + apply Forall_app. split; [done|]. by apply Forall_singleton.
      + intros v. rewrite in_ranges_app. unfold in_ranges at 2. set_solver. }
  destruct (sort_and_coalesce k Hk) as [Hwf Hsame]. simpl. split_and!; [done..|].
  assert (uid_range_coalesce (merge_sort uid_range_le k) ≠ []) as Hne.
  { intros E. assert (in_ranges s k) as (x & Hx & _)%Hsame by (apply Hun; right; unfold in_range; simpl; lia).
    rewrite E in Hx. by apply not_elem_of_nil in Hx. }
  pose proof (contains_spec _ u (rw_ok _ Hwf) Hne) as Hc. case_decide; [done|]. destruct Hc as (b & Hb & Hiff).
  exists b. split; [done|]. rewrite Hiff, Hsame, Hun. done.
Qed.

Lemma uid_range_add_union_witness :
  let r := uid_range_add [mk_range 10 5; mk_range 100 1] 15 85 false in
  r = (1, [mk_range 10 91]) ∧ r.1 = Z.of_nat (length r.2) ∧ ranges_wf r.2 ∧
  ∃ b, uid_range_contains r.2 50 = Some b ∧
    (b = true ↔ in_ranges 50 [mk_range 10 5; mk_range 100 1] ∨ 15 ≤ 50 < 15 + 85).
Proof.
  intros r. split; [reflexivity|].
  apply (uid_range_add_union [mk_range 10 5; mk_range 100 1] 15 85 50); try done.
  split.
  - repeat constructor; unfold range_ok; simpl; unfold UINT32_MAX; lia.
  - repeat constructor; unfold apart; simpl; lia.
Defined.

(** ** The next lower ID *)

Lemma next_lower_loop_spec l : ∀ cand closest,
  ranges_wf l → 0 ≤ cand →
  match next_lower_loop l cand closest with
  | (true, c) => c = cand ∧ in_ranges cand l
  | (false, c) => ¬ in_ranges cand l ∧
      (c = closest ∧ (∀ u, in_ranges u l → cand < u) ∨
       in_ranges c l ∧ c < cand ∧ ∀ u, in_ranges u l → u < cand → u ≤ c)
  end.
Proof.
  induction l as [|x l IH]; intros cand closest [Hok Hap] Hc; cbn [next_lower_loop].
  { split; [by intros (? & ?%elem_of_nil & _)|]. left. split; [done|].
    by intros u (? & ?%elem_of_nil & _). }
  apply Forall_cons in Hok as [Hx Hok]. apply StronglySorted_inv in Hap as [Hap Hxl].
  assert (∀ u, in_ranges u l → start x + nr x < u) as Hright.
  { intros u (y & Hy & Hu). rewrite Forall_forall in Hxl. specialize (Hxl y Hy).
    unfold apart, in_range in *. lia. }
  unfold range_ok, UINT32_MAX in Hx. rewrite wrapu_small by lia.
  destruct ((cand >=? start x) && (cand <=? start x + nr x - 1)) eqn:E.
  { reflect_bools. split; [done|]. apply in_ranges_cons. left. unfold in_range. lia. }
  assert (¬ in_range cand x) as Hnot.
  { unfold in_range. intros ?. apply not_true_iff_false in E. apply E.
    rewrite andb_true_iff, Z.geb_le, Z.leb_le. lia. }
  specialize (IH cand (if start x + nr x - 1 <? cand then start x + nr x - 1 else closest)
    (Build_ranges_wf _ Hok Hap) Hc).
  destruct (next_lower_loop _ _ _) as [[] c].
  - destruct IH as [-> H]. split; [done|]. apply in_ranges_cons. by right.
  - destruct IH as [H1 H2]. split; [rewrite in_ranges_cons; tauto|].
    destruct (start x + nr x - 1 <? cand) eqn:El; reflect_bools; [right|].
    + destruct H2 as [[-> Hall]|(Hin & Hlt & Hmax)].
      * split_and!; [apply in_ranges_cons; left; unfold in_range; lia|done|].
        intros u Hu Hlt. apply in_ranges_cons in Hu as [Hu|Hu]; [unfold in_range in Hu; lia|].
        specialize (Hall u Hu). lia.
      * split_and!; [apply in_ranges_cons; by right|done|].
        intros u Hu Hlt'. apply in_ranges_cons in Hu as [Hu|Hu]; [|by apply Hmax].
        specialize (Hright c Hin). unfold in_range in Hu. lia.
    + left. assert (cand < start x) by (unfold in_range in Hnot; lia).
      assert (∀ u, in_ranges u l → cand < u) as Hall
        by (intros u Hu; specialize (Hright u Hu); lia).
      split; [|intros u Hu; apply in_ranges_cons in Hu as [Hu|Hu];
                 [unfold in_range in Hu; lia|by apply Hall]].
      destruct H2 as [[-> _]|(Hin & Hlt & _)]; [done|]. specialize (Hall c Hin). lia.
Qed.

(** [uid_range_next_lower] returns 1 and the greatest ID of the set below
    the one given, or -EBUSY, with the ID unchanged, exactly when the set has
    no lower one; without any range it aborts. *)
Theorem uid_range_next_lower_correct (l : list UidRange) (uid : Z) :
  ranges_wf l → 0 < uid ≤ UINT32_MAX →
  if decide (l = []) then uid_range_next_lower l uid = None else
  ∃ r, uid_range_next_lower l uid = Some r ∧ (
  (r.1 = 1 ∧ in_ranges r.2 l ∧ r.2 < uid ∧ ∀ u, in_ranges u l → u < uid → u ≤ r.2) ∨
  (r = (- EBUSY, uid) ∧ ∀ u, in_ranges u l → uid ≤ u)).
Proof.
  intros Hwf Hu. unfold uid_range_next_lower, UINT32_MAX in *. case_decide as Hl; [by rewrite Hl|].
  rewrite bool_decide_eq_false_2, wrapu_small by (done || lia).
  pose proof (next_lower_loop_spec l (uid - 1) UID_INVALID Hwf ltac:(lia)) as Hs.
  destruct (next_lower_loop l (uid - 1) UID_INVALID) as [[] c].
  - destruct Hs as [-> Hin]. eexists. split; [done|]. left. split_and!; try done; simpl; intros; lia.
  - eexists. split; [done|]. destruct Hs as [Hnot [[-> Hall]|(Hin & Hlt & Hmax)]].
    + rewrite Z.eqb_refl. right. split; [done|]. intros u Hin. specialize (Hall u Hin). lia.
    + assert (c ≠ UID_INVALID) as Hne.
      { destruct Hin as (x & Hx & Hc). pose proof (rw_ok _ Hwf) as Hok.
        rewrite Forall_forall in Hok. specialize (Hok x Hx).
        unfold in_range, range_ok, UINT32_MAX in *. change UID_INVALID with (2 ^ 32 - 1). lia. }
      rewrite (proj2 (Z.eqb_neq _ _)) by done. left. split_and!; try done; simpl; [lia|].
      intros u Hinu Hltu. destruct (decide (u = uid - 1)) as [->|]; [done|].
      apply Hmax; [done|lia].
Qed.

Lemma uid_range_next_lower_correct_witness :
  let l := [mk_range 10 5; mk_range 100 1] in
  ∃ r, uid_range_next_lower l 100 = Some r ∧
  ((r.1 = 1 ∧ in_ranges r.2 l ∧ r.2 < 100 ∧ ∀ u, in_ranges u l → u < 100 → u ≤ r.2) ∨
   (r = (- EBUSY, 100) ∧ ∀ u, in_ranges u l → 100 ≤ u)).
Proof.
  intros l. refine (uid_range_next_lower_correct [mk_range 10 5; mk_range 100 1] 100 _ _); [|by vm_compute].
  split.
  - repeat constructor; unfold range_ok; simpl; unfold UINT32_MAX; lia.
  - repeat constructor; unfold apart; simpl; lia.
Defined.


