(* ===== verification/JobMerge.v ===== *)
(** * systemd: merging of jobs

    Models the job types of [src/app/multi_process/day1/systemd/src/core/job.h]
    and the merging functions of [core/job.c]: the triangular merging table,
    the collapse of state-dependent types and the late-merge rule. A type's
    number is its position in the enumeration; [None] is a failed assertion or
    an access outside the table. *)

From S2P Require Import Prelude.

(** ** Types *)

Inductive JobType :=
  | JOB_START | JOB_VERIFY_ACTIVE | JOB_STOP | JOB_RELOAD | JOB_RESTART
  | JOB_NOP
  | JOB_TRY_RESTART | JOB_TRY_RELOAD | JOB_RELOAD_OR_START.

#[export] Instance JobType_eq_dec : EqDecision JobType.
Proof. solve_decision. Defined.

Definition job_type_code (t : JobType) : Z :=
  match t with
  | JOB_START => 0 | JOB_VERIFY_ACTIVE => 1 | JOB_STOP => 2 | JOB_RELOAD => 3 | JOB_RESTART => 4
  | JOB_NOP => 5 | JOB_TRY_RESTART => 6 | JOB_TRY_RELOAD => 7 | JOB_RELOAD_OR_START => 8
  end.

Definition JOB_TYPE_MAX_MERGING : Z := 5.
Definition JOB_TYPE_MAX_IN_TRANSACTION : Z := 6.

Inductive UnitActiveState :=
  | UNIT_ACTIVE | UNIT_RELOADING | UNIT_INACTIVE | UNIT_FAILED
  | UNIT_ACTIVATING | UNIT_DEACTIVATING | UNIT_MAINTENANCE.

#[export] Instance UnitActiveState_eq_dec : EqDecision UnitActiveState.
Proof. solve_decision. Defined.

Definition UNIT_IS_ACTIVE_OR_RELOADING (s : UnitActiveState) : bool :=
  match s with UNIT_ACTIVE | UNIT_RELOADING => true | _ => false end.

(** ** Merging *)

(** The lower triangle, row by row; [None] is -1. *)
Definition job_merging_table : list (option JobType) :=
  [ Some JOB_START;
    None; None;
    Some JOB_RELOAD_OR_START; Some JOB_RELOAD; None;
    Some JOB_RESTART; Some JOB_RESTART; None; Some JOB_RESTART ].

Definition job_type_lookup_merge (a b : JobType) : option (option JobType) :=
  if (job_type_code a <? JOB_TYPE_MAX_MERGING) && (job_type_code b <? JOB_TYPE_MAX_MERGING) then
    if decide (a = b) then Some (Some a)
    else
      let '(x, y) := if job_type_code a <? job_type_code b
                     then (job_type_code b, job_type_code a)
                     else (job_type_code a, job_type_code b) in
      job_merging_table !! Z.to_nat ((x - 1) * x / 2 + y)
  else None.

Definition job_type_is_mergeable (a b : JobType) : option bool :=
  t ← job_type_lookup_merge a b; Some (match t with Some _ => true | None => false end).

Definition job_type_is_conflicting (a b : JobType) : option bool :=
  if decide (a = JOB_NOP) then Some false
  else if decide (b = JOB_NOP) then Some false
  else negb <$> job_type_is_mergeable a b.

Definition job_type_is_superset (a b : JobType) : option bool :=
  if decide (b = JOB_NOP) then Some true
  else if decide (a = JOB_NOP) then Some false
  else t ← job_type_lookup_merge a b; Some (bool_decide (t = Some a)).

Definition job_type_collapse (t : JobType) (s : UnitActiveState) : JobType :=
  match t with
  | JOB_TRY_RESTART => if UNIT_IS_ACTIVE_OR_RELOADING s then JOB_RESTART else JOB_NOP
  | JOB_TRY_RELOAD => if UNIT_IS_ACTIVE_OR_RELOADING s then JOB_RELOAD else JOB_NOP
  | JOB_RELOAD_OR_START => if UNIT_IS_ACTIVE_OR_RELOADING s then JOB_RELOAD else JOB_START
  | t => t
  end.

(** [job_type_merge_and_collapse]: the result and the new [*a]. *)
Definition job_type_merge_and_collapse (a b : JobType) (s : UnitActiveState) : option (Z * JobType) :=
  t ← job_type_lookup_merge a b;
  Some (match t with
        | None => (- EEXIST, a)
        | Some t => (0, job_type_collapse t s)
        end).

Definition job_type_allows_late_merge (t : JobType) : bool := negb (bool_decide (t = JOB_RELOAD)).

(** ** Properties *)

Definition merging (t : JobType) : Prop := job_type_code t < JOB_TYPE_MAX_MERGING.

#[export] Instance merging_dec t : Decision (merging t).
Proof. unfold merging. apply _. Defined.

(** The merge as an operation that may fail. *)
Definition merge (s : UnitActiveState) (a b : JobType) : option JobType :=
  match job_type_merge_and_collapse a b s with Some (0, t) => Some t | _ => None end.

(** What the comment on the merging table claims: on the types that can
    merge the lookup stays inside the table, merging with collapse gives such
    a type again, is commutative and associative, conflicts included, and
    mergeability is transitive; a merge that cannot be merged with a third
    type has an operand that cannot. *)
Theorem job_merging_algebra (s : UnitActiveState) (a b c : JobType) :
  merging a → merging b → merging c →
  (∃ r t, job_type_merge_and_collapse a b s = Some (r, t) ∧ (r = 0 ∨ r = - EEXIST) ∧ merging t) ∧
  job_type_lookup_merge a b = job_type_lookup_merge b a ∧
  merge s a a = Some a ∧
  (ab ← merge s a b; merge s ab c) = (bc ← merge s b c; merge s a bc) ∧
  (is_Some (merge s a b) → is_Some (merge s b c) → is_Some (merge s a c)) ∧
  (∀ ab, merge s a b = Some ab → merge s ab c = None → merge s a c = None ∨ merge s b c = None).
Proof.
  unfold merging. intros Ha Hb Hc.
  destruct a; try done; destruct b; try done; destruct c; try done; destruct s;
    (split_and!; [eexists _, _; split; [reflexivity|split; [auto|done]]|reflexivity|reflexivity
      |reflexivity|by intros [? ?] [? ?]|]);
    cbn; intros ? [= <-]; cbn; auto; done.
Qed.

Lemma job_merging_algebra_witness :
  (ab ← merge UNIT_INACTIVE JOB_START JOB_RELOAD; merge UNIT_INACTIVE ab JOB_VERIFY_ACTIVE)
  = (bc ← merge UNIT_INACTIVE JOB_RELOAD JOB_VERIFY_ACTIVE; merge UNIT_INACTIVE JOB_START bc).
Proof.
  apply (job_merging_algebra UNIT_INACTIVE JOB_START JOB_RELOAD JOB_VERIFY_ACTIVE); by vm_compute.
Defined.
