(* ===== verification/Job.v ===== *)
(** * systemd: the job engine

    Models the life of jobs in [src/app/multi_process/day1/systemd/src/core/job.c]:
    creation, installation with merging or replacement, the queues, ordering,
    running, finishing with the failure of dependent jobs, and the dispatch loop
    of [core/manager.c]. Jobs are objects of a store, a pointer is its key; the
    hash table of the manager, the slots of the units and the queues hold
    pointers. [None], or [Crash] where a recursion has fuel, is a failed assertion
    or the use of a pointer to a freed object.

    Not modelled: log and bus messages, event sources and timers, and
    [manager_check_finished], which changes nothing of the state here but the
    status output, the first-boot flag, time stamps and control-group masks. What
    the engine calls in other components is the class [JobEnv]: the operations of
    the unit types, the request of a job for an [OnFailure=] unit, the reaction of
    a triggering unit, memory for the run queue, and the choice of the priority
    queue, which [Prioq] models. *)

From S2P Require Import Prelude Outcome JobMerge.

#[local] Open Scope Z_scope.

(** ** Data *)

Inductive JobState := JOB_WAITING | JOB_RUNNING.

#[export] Instance JobState_eq_dec : EqDecision JobState.
Proof. solve_decision. Defined.

Inductive JobResult :=
  | JOB_DONE | JOB_CANCELED | JOB_TIMEOUT | JOB_FAILED | JOB_DEPENDENCY | JOB_SKIPPED
  | JOB_INVALID | JOB_ASSERT | JOB_UNSUPPORTED | JOB_COLLECTED | JOB_ONCE.

#[export] Instance JobResult_eq_dec : EqDecision JobResult.
Proof. solve_decision. Defined.

(** A job; [j_tracked] is the count of its bus track. *)
Record Job := mk_job {
  j_id : Z; j_unit : nat; j_type : JobType; j_state : JobState; j_result : JobResult;
  j_installed : bool; j_in_run_queue : bool; j_in_dbus_queue : bool; j_in_gc_queue : bool;
  j_ignore_order : bool; j_irreversible : bool;
  j_tracked : Z; j_ref_by_private_bus : bool }.

(** What the job engine uses of a unit; [u_gc_jobs] is of its vtable. *)
Record Unit := mk_unit {
  u_job : option nat; u_nop_job : option nat;
  u_active_state : UnitActiveState; u_gc_jobs : bool;
  u_after : list nat; u_before : list nat;
  u_required_by : list nat; u_requisite_of : list nat; u_bound_by : list nat; u_conflicted_by : list nat }.

Record Manager := mk_manager {
  objects : gmap nat Job; jobs : gmap Z nat; units : gmap nat Unit;
  run_queue : list nat; dbus_job_queue : list nat; gc_job_queue : list nat;
  n_running_jobs : Z; n_installed_jobs : Z; n_failed_jobs : Z; current_job_id : Z;
  private_buses : bool }.

(** Assignments to fields. *)
Definition set_type t j := mk_job (j_id j) (j_unit j) t (j_state j) (j_result j) (j_installed j)
  (j_in_run_queue j) (j_in_dbus_queue j) (j_in_gc_queue j) (j_ignore_order j) (j_irreversible j)
  (j_tracked j) (j_ref_by_private_bus j).
Definition set_state s j := mk_job (j_id j) (j_unit j) (j_type j) s (j_result j) (j_installed j)
  (j_in_run_queue j) (j_in_dbus_queue j) (j_in_gc_queue j) (j_ignore_order j) (j_irreversible j)
  (j_tracked j) (j_ref_by_private_bus j).
Definition set_result r j := mk_job (j_id j) (j_unit j) (j_type j) (j_state j) r (j_installed j)
  (j_in_run_queue j) (j_in_dbus_queue j) (j_in_gc_queue j) (j_ignore_order j) (j_irreversible j)
  (j_tracked j) (j_ref_by_private_bus j).
Definition set_installed b j := mk_job (j_id j) (j_unit j) (j_type j) (j_state j) (j_result j) b
  (j_in_run_queue j) (j_in_dbus_queue j) (j_in_gc_queue j) (j_ignore_order j) (j_irreversible j)
  (j_tracked j) (j_ref_by_private_bus j).
Definition set_queues rq dq gq j := mk_job (j_id j) (j_unit j) (j_type j) (j_state j) (j_result j)
  (j_installed j) rq dq gq (j_ignore_order j) (j_irreversible j) (j_tracked j) (j_ref_by_private_bus j).
Definition set_flags io ir j := mk_job (j_id j) (j_unit j) (j_type j) (j_state j) (j_result j)
  (j_installed j) (j_in_run_queue j) (j_in_dbus_queue j) (j_in_gc_queue j) io ir
  (j_tracked j) (j_ref_by_private_bus j).
Definition set_private b j := mk_job (j_id j) (j_unit j) (j_type j) (j_state j) (j_result j)
  (j_installed j) (j_in_run_queue j) (j_in_dbus_queue j) (j_in_gc_queue j) (j_ignore_order j)
  (j_irreversible j) (j_tracked j) b.

Definition set_slots (job nop : option nat) (u : Unit) := mk_unit job nop (u_active_state u) (u_gc_jobs u)
  (u_after u) (u_before u) (u_required_by u) (u_requisite_of u) (u_bound_by u) (u_conflicted_by u).

Definition with_objects o m := mk_manager o (jobs m) (units m) (run_queue m) (dbus_job_queue m)
  (gc_job_queue m) (n_running_jobs m) (n_installed_jobs m) (n_failed_jobs m) (current_job_id m) (private_buses m).
Definition with_jobs js m := mk_manager (objects m) js (units m) (run_queue m) (dbus_job_queue m)
  (gc_job_queue m) (n_running_jobs m) (n_installed_jobs m) (n_failed_jobs m) (current_job_id m) (private_buses m).
Definition with_units us m := mk_manager (objects m) (jobs m) us (run_queue m) (dbus_job_queue m)
  (gc_job_queue m) (n_running_jobs m) (n_installed_jobs m) (n_failed_jobs m) (current_job_id m) (private_buses m).
Definition with_queues rq dq gq m := mk_manager (objects m) (jobs m) (units m) rq dq gq
  (n_running_jobs m) (n_installed_jobs m) (n_failed_jobs m) (current_job_id m) (private_buses m).
Definition with_counts run inst failed m := mk_manager (objects m) (jobs m) (units m) (run_queue m)
  (dbus_job_queue m) (gc_job_queue m) run inst failed (current_job_id m) (private_buses m).

Definition modify_job (r : nat) (f : Job → Job) (m : Manager) : Manager :=
  with_objects (alter f r (objects m)) m.

(** The types that jobs of transactions have. *)
Definition in_transaction (t : JobType) : bool := job_type_code t <? JOB_TYPE_MAX_IN_TRANSACTION.

(** ** Creation *)

(** [job_new] at a free address [r]. *)
Definition job_new (r : nat) (unit : nat) (type : JobType) (m : Manager) : Manager :=
  let j := mk_job (current_job_id m) unit type JOB_WAITING JOB_DONE false false false false false false 0 false in
  mk_manager (<[r := j]> (objects m)) (jobs m) (units m) (run_queue m) (dbus_job_queue m) (gc_job_queue m)
    (n_running_jobs m) (n_installed_jobs m) (n_failed_jobs m) (wrapu 32 (current_job_id m + 1)) (private_buses m).

(** Takes a pointer out of a list, wherever it is. *)
Definition list_remove (r : nat) (l : list nat) : list nat := filter (.≠ r) l.

Definition job_unlink (r : nat) (m : Manager) : option Manager :=
  j ← objects m !! r;
  assert negb (j_installed j);
  Some (modify_job r (set_queues false false false)
    (with_queues (if j_in_run_queue j then list_remove r (run_queue m) else run_queue m)
       (if j_in_dbus_queue j then list_remove r (dbus_job_queue m) else dbus_job_queue m)
       (if j_in_gc_queue j then list_remove r (gc_job_queue m) else gc_job_queue m) m)).

Definition job_free (r : nat) (m : Manager) : option Manager :=
  j ← objects m !! r;
  assert negb (j_installed j);
  m ← job_unlink r m;
  Some (with_objects (delete r (objects m)) m).

(** ** State *)

Definition job_set_state (r : nat) (state : JobState) (m : Manager) : option Manager :=
  j ← objects m !! r;
  if decide (j_state j = state) then Some m
  else
    let m := modify_job r (set_state state) m in
    if negb (j_installed j) then Some m
    else match state with
    | JOB_RUNNING =>
        Some (with_counts (wrapu 32 (n_running_jobs m + 1)) (n_installed_jobs m) (n_failed_jobs m) m)
    | JOB_WAITING =>
        assert 0 <? n_running_jobs m;
        Some (with_counts (n_running_jobs m - 1) (n_installed_jobs m) (n_failed_jobs m) m)
    end.

(** The slot of the unit for a type, [*pj]. *)
Definition get_slot (t : JobType) (u : Unit) : option nat :=
  if decide (t = JOB_NOP) then u_nop_job u else u_job u.
Definition put_slot (t : JobType) (r : option nat) (u : Unit) : Unit :=
  if decide (t = JOB_NOP) then set_slots (u_job u) r u else set_slots r (u_nop_job u) u.

Definition job_uninstall (r : nat) (m : Manager) : option Manager :=
  j ← objects m !! r;
  assert j_installed j;
  m ← job_set_state r JOB_WAITING m;
  u ← units m !! j_unit j;
  assert bool_decide (get_slot (j_type j) u = Some r);
  let m := with_units (<[j_unit j := put_slot (j_type j) None u]> (units m)) m in
  let m := with_jobs (if decide (jobs m !! j_id j = Some r) then delete (j_id j) (jobs m) else jobs m) m in
  Some (modify_job r (set_installed false) m).

(** ** Ordering *)

Inductive OrderDep := UNIT_AFTER | UNIT_BEFORE.

Definition stops_first (t : JobType) : bool :=
  match t with JOB_STOP | JOB_RESTART => true | _ => false end.

Definition job_compare (a b : Job) (assume_dep : OrderDep) : option Z :=
  assert in_transaction (j_type a) && in_transaction (j_type b);
  let before a b := if stops_first (j_type b) then 1 else -1 in
  if decide (j_type a = JOB_NOP ∨ j_type b = JOB_NOP) then Some 0
  else if j_ignore_order a || j_ignore_order b then Some 0
  else Some (match assume_dep with UNIT_AFTER => - before b a | UNIT_BEFORE => before a b end).

(** Goes through the jobs of the units of a list, in the slot [job]: the first
    one for which [stop] holds of the comparison ends it with [false]. *)
Fixpoint scan_jobs (m : Manager) (j : Job) (dep : OrderDep) (stop : Z → bool) (others : list nat) :
    option bool :=
  match others with
  | [] => Some true
  | other :: others =>
      u ← units m !! other;
      match u_job u with
      | None => scan_jobs m j dep stop others
      | Some r =>
          o ← objects m !! r;
          d ← job_compare j o dep;
          if stop d then Some false else scan_jobs m j dep stop others
      end
  end.

Definition job_is_runnable (r : nat) (m : Manager) : option bool :=
  j ← objects m !! r;
  assert j_installed j;
  if j_ignore_order j then Some true
  else if decide (j_type j = JOB_NOP) then Some true
  else
    u ← units m !! j_unit j;
    a ← scan_jobs m j UNIT_AFTER (λ d, 0 <? d) (u_after u);
    if negb a then Some false
    else scan_jobs m j UNIT_BEFORE (λ d, 0 <? d) (u_before u).

(** The answer, and the flag that it may reset. *)
Definition job_may_gc (r : nat) (m : Manager) : option (bool * Manager) :=
  j ← objects m !! r;
  u ← units m !! j_unit j;
  if negb (u_gc_jobs u) then Some (false, m)
  else if 0 <? j_tracked j then Some (false, m)
  else if j_ref_by_private_bus j && private_buses m then Some (false, m)
  else
    let m := if j_ref_by_private_bus j then modify_job r (set_private false) m else m in
    if decide (j_type j = JOB_NOP) then Some (false, m)
    else
      a ← scan_jobs m j UNIT_BEFORE (λ d, d <? 0) (u_before u);
      if negb a then Some (false, m)
      else b ← scan_jobs m j UNIT_AFTER (λ d, d <? 0) (u_after u); Some (b, m).

(** ** Queues *)

(** What other components do for the job engine. *)
Class JobEnv := {
  (** [unit_start], [unit_stop] and [unit_reload], with the returned value. *)
  unit_start : nat → Manager → Z * Manager;
  unit_stop : nat → Manager → Z * Manager;
  unit_reload : nat → Manager → Z * Manager;
  (** The units of [OnFailure=], and those that trigger a unit. *)
  u_on_failure : nat → list nat;
  u_triggered_by : nat → list nat;
  (** [manager_add_job] for a start of the second unit in the mode that the first
      has for [OnFailure=]; its failure is only logged. *)
  add_failure_job : nat → nat → Manager → Manager;
  (** [UNIT_VTABLE(other)->trigger_notify(other, u)], nothing for a type without it. *)
  trigger_notify : nat → nat → Manager → Manager;
  (** [prioq_put] finds the memory it needs; [prioq_peek]. *)
  prioq_put_ok : Manager → bool;
  prioq_peek : Manager → option nat }.

Section Engine.
Context `{JobEnv}.

Definition job_add_to_run_queue (r : nat) (m : Manager) : option Manager :=
  j ← objects m !! r;
  assert j_installed j;
  if j_in_run_queue j then Some m
  else if prioq_put_ok m then
    Some (modify_job r (λ j, set_queues true (j_in_dbus_queue j) (j_in_gc_queue j) j)
      (with_queues (r :: run_queue m) (dbus_job_queue m) (gc_job_queue m) m))
  else Some m.

Definition job_add_to_dbus_queue (r : nat) (m : Manager) : option Manager :=
  j ← objects m !! r;
  assert j_installed j;
  if j_in_dbus_queue j then Some m
  else
    Some (modify_job r (λ j, set_queues (j_in_run_queue j) true (j_in_gc_queue j) j)
      (with_queues (run_queue m) (r :: dbus_job_queue m) (gc_job_queue m) m)).

Definition job_add_to_gc_queue (r : nat) (m : Manager) : option Manager :=
  j ← objects m !! r;
  if j_in_gc_queue j then Some m
  else
    '(may, m) ← job_may_gc r m;
    if may : bool then
      Some (modify_job r (λ j, set_queues (j_in_run_queue j) (j_in_dbus_queue j) true j)
        (with_queues (run_queue m) (dbus_job_queue m) (r :: gc_job_queue m) m))
    else Some m.

(** ** Finishing *)

Definition unit_start_on_failure (u : nat) (m : Manager) : Manager :=
  foldl (λ m other, add_failure_job u other m) m (u_on_failure u).

Definition unit_trigger_notify (u : nat) (m : Manager) : Manager :=
  foldl (λ m other, trigger_notify other u m) m (u_triggered_by u).

(** The step of a loop over units, for the job in the slot of each. *)
Fixpoint for_jobs (f : nat → Job → Manager → outcome Manager) (others : list nat) (m : Manager) :
    outcome Manager :=
  match others with
  | [] => Ret m
  | other :: others =>
      u ←! units m !! other;
      m ← match u_job u with None => Ret m | Some r => j ←! objects m !! r; f r j m end;
      for_jobs f others m
  end.

Definition starts_or_verifies (t : JobType) : bool :=
  match t with JOB_START | JOB_VERIFY_ACTIVE => true | _ => false end.

Definition fail_dependencies (finish : nat → Manager → outcome Manager) (others : list nat) :=
  for_jobs (λ r j m, if starts_or_verifies (j_type j) then finish r m else Ret m) others.

(** [u->dependencies[d]], read when the loop over it starts. *)
Definition with_deps (u : nat) (deps : Unit → list nat)
    (loop : list nat → Manager → outcome Manager) (m : Manager) : outcome Manager :=
  U ←! units m !! u; loop (deps U) m.

Definition wake_job (r : nat) (m : Manager) : outcome Manager :=
  m ←! job_add_to_run_queue r m; lift (job_add_to_gc_queue r m).

(** The part of [job_finish_and_invalidate] after the job is gone, but for the
    code at [finish]. *)
Definition finish_effects (fail : list nat → Manager → outcome Manager) (u : nat) (t : JobType)
    (result : JobResult) (recursive : bool) (m : Manager) : outcome Manager :=
  m ← (if negb (bool_decide (result = JOB_DONE)) && recursive then
         if starts_or_verifies t then
           m ← with_deps u u_required_by fail m;
           m ← with_deps u u_requisite_of fail m;
           with_deps u u_bound_by fail m
         else if bool_decide (t = JOB_STOP) then with_deps u u_conflicted_by fail m
         else Ret m
       else Ret m);
  U ←! units m !! u;
  m ← (if bool_decide (result = JOB_DONE) && recursive &&
          negb (UNIT_IS_ACTIVE_OR_RELOADING (u_active_state U)) &&
          (bool_decide (t = JOB_START) || bool_decide (t = JOB_RELOAD))
       then with_deps u u_requisite_of fail m
       else Ret m);
  let m := if bool_decide (result = JOB_TIMEOUT) || bool_decide (result = JOB_DEPENDENCY)
           then unit_start_on_failure u m else m in
  Ret (unit_trigger_notify u m).

(** The code at [finish], but for [manager_check_finished]. *)
Definition wake_neighbours (u : nat) (m : Manager) : outcome Manager :=
  m ← with_deps u u_after (for_jobs (λ r _ m, wake_job r m)) m;
  with_deps u u_before (for_jobs (λ r _ m, wake_job r m)) m.

Fixpoint job_finish_and_invalidate (fuel : nat) (r : nat) (result : JobResult) (recursive : bool)
    (m : Manager) : outcome Manager :=
  match fuel with
  | O => OutOfFuel
  | S fuel =>
      j ←! objects m !! r;
      require j_installed j && in_transaction (j_type j);
      let u := j_unit j in
      let t := j_type j in
      let m := modify_job r (set_result result) m in
      m ← (if bool_decide (result = JOB_DONE) && bool_decide (t = JOB_RESTART) then
             let m := modify_job r (set_type JOB_START) m in
             m ←! job_set_state r JOB_WAITING m;
             m ←! job_add_to_dbus_queue r m;
             m ←! job_add_to_run_queue r m;
             lift (job_add_to_gc_queue r m)
           else
             let m := if bool_decide (result = JOB_FAILED) || bool_decide (result = JOB_INVALID)
                      then with_counts (n_running_jobs m) (n_installed_jobs m)
                             (wrapu 32 (n_failed_jobs m + 1)) m else m in
             m ←! job_uninstall r m;
             m ←! job_free r m;
             finish_effects
               (fail_dependencies (λ r m, job_finish_and_invalidate fuel r JOB_DEPENDENCY true m))
               u t result recursive m);
      wake_neighbours u m
  end.

(** ** Installation *)

Definition job_merge_into_installed (r other : nat) (m : Manager) : option Manager :=
  j ← objects m !! r;
  o ← objects m !! other;
  assert j_installed j && bool_decide (j_unit j = j_unit o);
  u ← units m !! j_unit j;
  t ← (if decide (j_type j = JOB_NOP) then
         assert bool_decide (j_type o = JOB_NOP); Some JOB_NOP
       else
         '(res, t) ← job_type_merge_and_collapse (j_type j) (j_type o) (u_active_state u);
         assert res =? 0; Some t);
  Some (modify_job r (λ j, set_flags (j_ignore_order j || j_ignore_order o)
                             (j_irreversible j || j_irreversible o) (set_type t j)) m).

(** The returned pointer is that of the installed job. *)
Definition job_install (fuel : nat) (r : nat) (m : Manager) : outcome (nat * Manager) :=
  j ←! objects m !! r;
  require negb (j_installed j) && in_transaction (j_type j) && bool_decide (j_state j = JOB_WAITING);
  u ←! units m !! j_unit j;
  step ← match get_slot (j_type j) u with
         | None => Ret (inr m)
         | Some uj =>
             o ←! objects m !! uj;
             conflict ←! job_type_is_conflicting (j_type o) (j_type j);
             if conflict : bool then m ← job_finish_and_invalidate fuel uj JOB_CANCELED false m; Ret (inr m)
             else
               superset ←! job_type_is_superset (j_type o) (j_type j);
               m ←! job_merge_into_installed uj r m;
               if bool_decide (j_state o = JOB_WAITING) || job_type_allows_late_merge (j_type j) && superset
               then Ret (inl (uj, m))
               else m ←! job_set_state uj JOB_WAITING m; Ret (inl (uj, m))
         end;
  match step with
  | inl res => Ret res
  | inr m =>
      u ←! units m !! j_unit j;
      let m := with_units (<[j_unit j := put_slot (j_type j) (Some r) u]> (units m)) m in
      let m := modify_job r (set_installed true) m in
      let m := with_counts (n_running_jobs m) (wrapu 32 (n_installed_jobs m + 1)) (n_failed_jobs m) m in
      m ←! job_add_to_gc_queue r m;
      m ←! job_add_to_dbus_queue r m;
      Ret (r, m)
  end.

(** [hashmap_put] finds the memory it needs when [put_ok]. *)
Definition job_install_deserialized (put_ok : bool) (r : nat) (m : Manager) : option (Z * Manager) :=
  j ← objects m !! r;
  assert negb (j_installed j);
  if negb (in_transaction (j_type j)) then Some (- EINVAL, m)
  else
    u ← units m !! j_unit j;
    match get_slot (j_type j) u with
    | Some _ => Some (- EEXIST, m)
    | None =>
        match jobs m !! j_id j with
        | Some r' =>
            if decide (r' = r) then
              let m := with_units (<[j_unit j := put_slot (j_type j) (Some r) u]> (units m)) m in
              let m := modify_job r (set_installed true) m in
              Some (0, match j_state j with
                       | JOB_RUNNING => with_counts (wrapu 32 (n_running_jobs m + 1)) (n_installed_jobs m) (n_failed_jobs m) m
                       | JOB_WAITING => m end)
            else Some (- EEXIST, m)
        | None =>
            if negb put_ok then Some (- ENOMEM, m)
            else
              let m := with_jobs (<[j_id j := r]> (jobs m)) m in
              let m := with_units (<[j_unit j := put_slot (j_type j) (Some r) u]> (units m)) m in
              let m := modify_job r (set_installed true) m in
              Some (0, match j_state j with
                       | JOB_RUNNING => with_counts (wrapu 32 (n_running_jobs m + 1)) (n_installed_jobs m) (n_failed_jobs m) m
                       | JOB_WAITING => m end)
        end
    end.

(** ** Running *)

Definition EALREADY : Z := 114.
Definition EBADR : Z := 53.
Definition ECOMM : Z := 70.
Definition ENOEXEC : Z := 8.
Definition EPROTO : Z := 71.
Definition EOPNOTSUPP : Z := 95.
Definition ENOLINK : Z := 67.
Definition ESTALE : Z := 116.

(** The value of the operation, and the job if the manager still knows it by its
    id: [manager_get_job]. *)
Definition job_perform_on_unit (r : nat) (m : Manager) : option (Z * option nat * Manager) :=
  j ← objects m !! r;
  '(res, m) ← match j_type j with
              | JOB_START => Some (unit_start (j_unit j) m)
              | JOB_RESTART | JOB_STOP => Some (unit_stop (j_unit j) m)
              | JOB_RELOAD => Some (unit_reload (j_unit j) m)
              | _ => None
              end;
  Some (res, jobs m !! j_id j, m).

(** The result a value stands for, if it ends the job. *)
Definition result_of (r : Z) : option JobResult :=
  if r =? - EALREADY then Some JOB_DONE
  else if r =? - ECOMM then Some JOB_DONE
  else if r =? - EBADR then Some JOB_SKIPPED
  else if r =? - ENOEXEC then Some JOB_INVALID
  else if r =? - EPROTO then Some JOB_ASSERT
  else if r =? - EOPNOTSUPP then Some JOB_UNSUPPORTED
  else if r =? - ENOLINK then Some JOB_DEPENDENCY
  else if r =? - ESTALE then Some JOB_ONCE
  else if r <? 0 then Some JOB_FAILED
  else None.

Definition job_run_and_invalidate (fuel : nat) (r : nat) (m : Manager) : outcome (Z * Manager) :=
  j ←! objects m !! r;
  require j_installed j && in_transaction (j_type j) && j_in_run_queue j;
  let m := modify_job r (λ j, set_queues false (j_in_dbus_queue j) (j_in_gc_queue j) j)
             (with_queues (list_remove r (run_queue m)) (dbus_job_queue m) (gc_job_queue m) m) in
  if negb (bool_decide (j_state j = JOB_WAITING)) then Ret (0, m)
  else
    runnable ←! job_is_runnable r m;
    if negb runnable then Ret (- EAGAIN, m)
    else
      m ←! job_set_state r JOB_RUNNING m;
      m ←! job_add_to_dbus_queue r m;
      '(res, jr, m) ←
        match j_type j with
        | JOB_VERIFY_ACTIVE =>
            u ←! units m !! j_unit j;
            let t := u_active_state u in
            Ret (if UNIT_IS_ACTIVE_OR_RELOADING t then - EALREADY
                  else if decide (t = UNIT_ACTIVATING) then - EAGAIN else - EBADR, Some r, m)
        | JOB_START | JOB_STOP | JOB_RESTART =>
            '(res, jr, m) ←! job_perform_on_unit r m;
            Ret (if res =? - EBADR then 0 else res, jr, m)
        | JOB_RELOAD => lift (job_perform_on_unit r m)
        | JOB_NOP => Ret (- EALREADY, Some r, m)
        | _ => Crash
        end;
      match jr with
      | None => Ret (res, m)
      | Some r =>
          if res =? - EAGAIN then m ←! job_set_state r JOB_WAITING m; Ret (res, m)
          else match result_of res with
          | Some result => m ← job_finish_and_invalidate fuel r result true m; Ret (0, m)
          | None => Ret (res, m)
          end
      end.

(** The loop of [manager_dispatch_run_queue], for [n] rounds at most; the flag
    says whether the queue is empty. *)
Fixpoint manager_dispatch_run_queue (n fuel : nat) (m : Manager) : outcome (bool * Manager) :=
  match prioq_peek m with
  | None => Ret (true, m)
  | Some r =>
      match n with
      | O => Ret (false, m)
      | S n =>
          j ←! objects m !! r;
          require j_installed j && j_in_run_queue j;
          '(_, m) ← job_run_and_invalidate fuel r m;
          manager_dispatch_run_queue n fuel m
      end
  end.

End Engine.
