(* ===== verification/JobProps.v ===== *)
(** * systemd: properties of the job engine

    The consistency of the manager (every slot of a unit holds an installed job
    of that unit and the other way round, the table of jobs has no dangling
    pointer, the queues and counters agree with the jobs) is kept by every
    operation of [Job], for all environments that keep it; finishing a job
    ends; ordering is what its comment says, and jobs that are not ordered in a
    circle never block each other for good. *)

From S2P Require Import Prelude Outcome JobMerge Job.

#[local] Open Scope Z_scope.
#[local] Set Warnings "-clear-no-such-hyp".

(** ** Counting *)

Definition b2z (b : bool) : Z := if b then 1 else 0.

(** The number of jobs in the store for which [P] holds. *)
Definition count (P : Job → bool) (o : gmap nat Job) : Z := map_fold (λ _ j n, b2z (P j) + n) 0 o.

Lemma count_delete P o r j : o !! r = Some j → count P o = b2z (P j) + count P (delete r o).
Proof. intros E. unfold count. apply (map_fold_delete_L (λ _ j n, b2z (P j) + n)); [intros; lia|done]. Qed.

Lemma count_insert P o r j : o !! r = None → count P (<[r := j]> o) = b2z (P j) + count P o.
Proof. intros E. unfold count. apply (map_fold_insert_L (λ _ j n, b2z (P j) + n)); [intros; lia|done]. Qed.

Lemma count_alter P o r j f : o !! r = Some j →
  count P (alter f r o) = count P o - b2z (P j) + b2z (P (f j)).
Proof.
  intros E. rewrite (count_delete P (alter f r o) r (f j)) by (by rewrite lookup_alter_eq, E).
  rewrite (count_delete P o r j) by done.
  assert (delete r (alter f r o) = delete r o) as ->; [|lia].
  apply map_eq. intros i. rewrite !lookup_delete. repeat case_decide; [done|]. by rewrite lookup_alter_ne.
Qed.

Lemma count_bounds P o : 0 ≤ count P o ≤ Z.of_nat (size o).
Proof.
  unfold count. apply (map_fold_weak_ind (λ n m, 0 ≤ n ≤ Z.of_nat (size m))).
  - rewrite map_size_empty. lia.
  - intros i x m n E IH. rewrite map_size_insert_None by done. destruct (P x); simpl; lia.
Qed.

Lemma count_pos_inv P o : 0 < count P o → ∃ r j, o !! r = Some j ∧ P j = true.
Proof.
  unfold count. apply (map_fold_weak_ind (λ n m, 0 < n → ∃ r j, m !! r = Some j ∧ P j = true)); [lia|].
  intros i x m n E IH Hn. destruct (P x) eqn:Px.
  - exists i, x. by rewrite lookup_insert_eq.
  - destruct IH as (r & j & Ej & Pj); [simpl in Hn; lia|]. exists r, j. split; [|done].
    rewrite lookup_insert_ne; [done|congruence].
Qed.

Definition is_running (j : Job) : bool := j_installed j && bool_decide (j_state j = JOB_RUNNING).

Definition n_installed (m : Manager) : Z := count j_installed (objects m).

(** ** Consistency *)

Definition deps_of (u : Unit) : list (list nat) :=
  [u_after u; u_before u; u_required_by u; u_requisite_of u; u_bound_by u; u_conflicted_by u].

(** A queue holds each of the jobs with its flag once. *)
Definition queue_ok (q : list nat) (flag : Job → bool) (o : gmap nat Job) : Prop :=
  NoDup q ∧ ∀ r, r ∈ q ↔ ∃ j, o !! r = Some j ∧ flag j = true.

Record consistent (m : Manager) : Prop := {
  (** A slot of a unit holds an installed job of the unit, of the slot's type. *)
  c_slot : ∀ u U t r, units m !! u = Some U → get_slot t U = Some r →
    ∃ j, objects m !! r = Some j ∧ j_installed j = true ∧ j_unit j = u ∧ (j_type j = JOB_NOP ↔ t = JOB_NOP);
  (** An installed job is in the slot of its unit and in the table. *)
  c_installed : ∀ r j, objects m !! r = Some j → j_installed j = true →
    in_transaction (j_type j) = true ∧ jobs m !! j_id j = Some r ∧
    ∃ U, units m !! j_unit j = Some U ∧ get_slot (j_type j) U = Some r;
  c_jobs : ∀ id r, jobs m !! id = Some r → ∃ j, objects m !! r = Some j ∧ j_id j = id;
  c_deps : ∀ u U, units m !! u = Some U → Forall (Forall (λ v, is_Some (units m !! v))) (deps_of U);
  c_running : n_running_jobs m = count is_running (objects m);
  c_small : Z.of_nat (size (objects m)) < 2 ^ 32;
  c_run_queue : queue_ok (run_queue m) j_in_run_queue (objects m);
  c_dbus_queue : queue_ok (dbus_job_queue m) j_in_dbus_queue (objects m);
  c_gc_queue : queue_ok (gc_job_queue m) j_in_gc_queue (objects m);
  c_queued : ∀ r j, objects m !! r = Some j →
    j_in_run_queue j || j_in_dbus_queue j || j_in_gc_queue j = true → j_installed j = true }.

(** A unit has at most one job other than a no-op. *)
Lemma one_job_per_unit m r1 r2 j1 j2 : consistent m →
  objects m !! r1 = Some j1 → objects m !! r2 = Some j2 → j_installed j1 = true → j_installed j2 = true →
  j_unit j1 = j_unit j2 → j_type j1 ≠ JOB_NOP → j_type j2 ≠ JOB_NOP → r1 = r2.
Proof.
  intros C E1 E2 I1 I2 Eu T1 T2.
  destruct (c_installed m C r1 j1 E1 I1) as (_ & _ & U1 & EU1 & S1).
  destruct (c_installed m C r2 j2 E2 I2) as (_ & _ & U2 & EU2 & S2).
  rewrite Eu, EU2 in EU1. injection EU1 as <-. unfold get_slot in *.
  rewrite decide_False in S1 by done. rewrite decide_False in S2 by done. congruence.
Qed.

(** What an operation leaves alone: the units with their dependencies, the jobs
    that are not installed, and the latter's entries in the table. *)
Definition frame (m m' : Manager) : Prop :=
  (∀ u U, units m !! u = Some U → ∃ U', units m' !! u = Some U' ∧ deps_of U' = deps_of U) ∧
  (∀ r j, objects m !! r = Some j → j_installed j = false →
     objects m' !! r = Some j ∧ (jobs m !! j_id j = Some r → jobs m' !! j_id j = Some r)) ∧
  (∀ id r j, jobs m' !! id = Some r → objects m' !! r = Some j → j_installed j = false →
     jobs m !! id = Some r ∧ objects m !! r = Some j).

#[export] Instance frame_preorder : PreOrder frame.
Proof.
  split.
  - intros m. split_and!; [intros u U E; by exists U|done|done].
  - intros m1 m2 m3 (A1 & B1 & C1) (A2 & B2 & C2). split_and!.
    + intros u U E. destruct (A1 u U E) as (U' & E' & D'). destruct (A2 u U' E') as (U'' & E'' & D'').
      exists U''. split; [done|congruence].
    + intros r j E I. destruct (B1 r j E I) as [E' J']. destruct (B2 r j E' I) as [E'' J'']. auto.
    + intros id r j J E I. destruct (C2 id r j J E I) as [J' E']. by apply C1.
Qed.

Lemma frame_unit m m' u : frame m m' → is_Some (units m !! u) → is_Some (units m' !! u).
Proof. intros (A & _) [U E]. destruct (A u U E) as (U' & E' & _). by exists U'. Qed.

(** *** Changes of one job *)

Lemma modify_lookup_eq r f m j : objects m !! r = Some j → objects (modify_job r f m) !! r = Some (f j).
Proof. intros E. unfold modify_job, with_objects. cbn. by rewrite lookup_alter_eq, E. Qed.

(** What changes of a job that stays installed leave alone. *)
Definition stable (j j' : Job) : Prop :=
  j_id j' = j_id j ∧ j_unit j' = j_unit j ∧ j_installed j' = j_installed j ∧
  (j_type j' = JOB_NOP ↔ j_type j = JOB_NOP) ∧
  (in_transaction (j_type j) = true → in_transaction (j_type j') = true).

#[export] Instance stable_preorder : PreOrder stable.
Proof. split; unfold stable; [intros j; by split_and!|intros j1 j2 j3; intuition congruence]. Qed.

(** An operation that only changes jobs that stay where they are. *)
Record keeps (m m' : Manager) : Prop := {
  k_consistent : consistent m';
  k_frame : frame m m';
  k_units : units m' = units m;
  k_jobs : jobs m' = jobs m;
  k_job : ∀ r j, objects m !! r = Some j → ∃ j', objects m' !! r = Some j' ∧ stable j j';
  k_back : ∀ r, is_Some (objects m' !! r) → is_Some (objects m !! r);
  k_count : n_installed m' = n_installed m }.

Lemma keeps_refl m : consistent m → keeps m m.
Proof. intros C. split; try done. intros r j E. by exists j. Qed.

Lemma keeps_trans m1 m2 m3 : keeps m1 m2 → keeps m2 m3 → keeps m1 m3.
Proof.
  intros [C1 F1 U1 J1 K1 B1 N1] [C2 F2 U2 J2 K2 B2 N2]. split; try congruence; auto.
  - by transitivity m2.
  - intros r j E. destruct (K1 r j E) as (j' & E' & S'). destruct (K2 r j' E') as (j'' & E'' & S'').
    exists j''. split; [done|]. by transitivity j'.
Qed.

Lemma get_slot_nop t t' U : (t = JOB_NOP ↔ t' = JOB_NOP) → get_slot t U = get_slot t' U.
Proof. intros E. unfold get_slot. repeat case_decide; naive_solver. Qed.

Lemma queue_alter q flag o r f j : o !! r = Some j → flag (f j) = flag j →
  queue_ok q flag o → queue_ok q flag (alter f r o).
Proof.
  intros E Ef [Hn Hq]. split; [done|]. intros i. rewrite Hq, lookup_alter. case_decide as Ei; [|done].
  subst i. rewrite E. cbn. split; intros (j' & [= <-] & H); eexists; (split; [done|]); congruence.
Qed.

Lemma queue_push q flag o r f j : o !! r = Some j → flag j = false → flag (f j) = true →
  queue_ok q flag o → queue_ok (r :: q) flag (alter f r o).
Proof.
  intros E Ej Ef [Hn Hq]. split.
  - constructor; [|done]. rewrite Hq. intros (j' & E' & Hj). congruence.
  - intros i. rewrite elem_of_cons, Hq, lookup_alter. case_decide as Ei.
    + subst i. rewrite E. split; [intros _; by exists (f j)|by left].
    + split; [by intros [->|?]|by right].
Qed.

Lemma elem_of_list_remove r i q : i ∈ list_remove r q ↔ i ∈ q ∧ i ≠ r.
Proof. unfold list_remove. rewrite list_elem_of_filter. naive_solver. Qed.

Lemma queue_pop q flag o r f j : o !! r = Some j → flag (f j) = false →
  queue_ok q flag o → queue_ok (list_remove r q) flag (alter f r o).
Proof.
  intros E Ef [Hn Hq]. split; [by apply NoDup_filter|].
  intros i. rewrite elem_of_list_remove, Hq, lookup_alter. case_decide as Ei.
  - subst i. rewrite E. split; [naive_solver|]. intros (j' & [= <-] & H). congruence.
  - naive_solver.
Qed.

Lemma queue_delete q flag o r j : o !! r = Some j → queue_ok q flag o →
  queue_ok (if flag j then list_remove r q else q) flag (delete r o).
Proof.
  intros E [Hn Hq]. assert (NoDup (if flag j then list_remove r q else q)).
  { destruct (flag j); [by apply NoDup_filter|done]. }
  split; [done|]. intros i. rewrite lookup_delete. case_decide as Ei.
  - subst i. split; [|naive_solver]. destruct (flag j) eqn:Ef.
    + rewrite elem_of_list_remove. naive_solver.
    + rewrite Hq. intros (j' & E' & H'). congruence.
  - rewrite <- Hq. destruct (flag j); [|done]. rewrite elem_of_list_remove. naive_solver.
Qed.

Lemma alter_stable r f (o : gmap nat Job) j i : o !! r = Some j → stable j (f j) →
  (∀ j', alter f r o !! i = Some j' → ∃ j0, o !! i = Some j0 ∧ stable j0 j') ∧
  (∀ j0, o !! i = Some j0 → ∃ j', alter f r o !! i = Some j' ∧ stable j0 j').
Proof.
  intros E S. rewrite lookup_alter. case_decide as Ei.
  - subst i. rewrite E. split; intros ? [= <-]; by eexists.
  - split; intros j0 E0; exists j0; by split.
Qed.

(** A change of an installed job, with the counter and queues to match. *)
Lemma update_keeps m m' r f j : consistent m → objects m !! r = Some j → j_installed j = true →
  stable j (f j) → objects m' = alter f r (objects m) → units m' = units m → jobs m' = jobs m →
  n_running_jobs m' = n_running_jobs m - b2z (is_running j) + b2z (is_running (f j)) →
  queue_ok (run_queue m') j_in_run_queue (objects m') →
  queue_ok (dbus_job_queue m') j_in_dbus_queue (objects m') →
  queue_ok (gc_job_queue m') j_in_gc_queue (objects m') →
  keeps m m'.
Proof.
  intros C E I S Eo Eu Ej Er Q1 Q2 Q3.
  assert (∀ i j', objects m' !! i = Some j' → ∃ j0, objects m !! i = Some j0 ∧ stable j0 j') as Hback.
  { intros i. rewrite Eo. by apply (alter_stable r f _ j i). }
  assert (∀ i j0, objects m !! i = Some j0 → ∃ j', objects m' !! i = Some j' ∧ stable j0 j') as Hforth.
  { intros i. rewrite Eo. by apply (alter_stable r f _ j i). }
  assert (j_installed (f j) = true) as If by (destruct S as (_ & _ & -> & _); done).
  assert (consistent m') as C'.
  { split; rewrite ?Eu, ?Ej; try done.
    - intros u U t i EU ES. destruct (c_slot m C u U t i EU ES) as (j0 & E0 & I0 & U0 & T0).
      destruct (Hforth i j0 E0) as (j' & E' & S1 & S2 & S3 & S4 & _).
      exists j'. rewrite S2, S3, S4. done.
    - intros i j' E' I'. destruct (Hback i j' E') as (j0 & E0 & S1 & S2 & S3 & S4 & S5).
      rewrite S3 in I'. destruct (c_installed m C i j0 E0 I') as (T0 & J0 & U & EU & ES).
      rewrite S1, S2. split_and!; [auto|done|]. exists U. by rewrite (get_slot_nop (j_type j') (j_type j0)).
    - intros id i Ei. destruct (c_jobs m C id i Ei) as (j0 & E0 & <-).
      destruct (Hforth i j0 E0) as (j' & E' & S1 & _). by exists j'.
    - apply (c_deps m C).
    - rewrite Er, Eo, (count_alter _ _ _ j) by done. by rewrite (c_running m C).
    - rewrite Eo, <- size_dom, dom_alter_L, size_dom. apply (c_small m C).
    - intros i j' E' Q. destruct (Hback i j' E') as (j0 & E0 & S1 & S2 & S3 & _). rewrite S3.
      destruct (decide (i = r)) as [->|Hi]; [congruence|].
      rewrite Eo, lookup_alter_ne in E' by done. rewrite E0 in E'. injection E' as ->.
      by apply (c_queued m C i j'). }
  split; try done.
  - split_and!; [intros u U EU; exists U; by rewrite Eu|..].
    + intros i j0 E0 I0. rewrite Ej. split; [|done]. rewrite Eo, lookup_alter_ne; [done|congruence].
    + intros id i j' J' E' I'. rewrite Ej in J'. split; [done|]. rewrite Eo, lookup_alter in E'.
      case_decide as Ei; [|done]. subst i. rewrite E in E'. cbn in E'. congruence.
  - intros i [j' E']. destruct (Hback i j' E') as (j0 & E0 & _). by exists j0.
  - unfold n_installed. rewrite Eo, (count_alter _ _ _ j) by done. rewrite I, If. lia.
Qed.

(** The change of [update_keeps] when it is none for counter and queues. *)
Lemma modify_keeps m r f j : consistent m → objects m !! r = Some j → j_installed j = true →
  stable j (f j) → j_state (f j) = j_state j → j_in_run_queue (f j) = j_in_run_queue j →
  j_in_dbus_queue (f j) = j_in_dbus_queue j → j_in_gc_queue (f j) = j_in_gc_queue j →
  keeps m (modify_job r f m).
Proof.
  intros C E I S Es E1 E2 E3. apply (update_keeps m _ r f j); try done.
  - unfold is_running. rewrite Es. destruct S as (_ & _ & -> & _). cbn. lia.
  - by apply (queue_alter _ _ _ _ _ j); [..|apply (c_run_queue m C)].
  - by apply (queue_alter _ _ _ _ _ j); [..|apply (c_dbus_queue m C)].
  - by apply (queue_alter _ _ _ _ _ j); [..|apply (c_gc_queue m C)].
Qed.

Lemma count_pos P o r j : o !! r = Some j → P j = true → 0 < count P o.
Proof. intros E Hp. rewrite (count_delete P o r j), Hp by done. pose proof (count_bounds P (delete r o)). simpl. lia. Qed.

Lemma set_state_keeps m r j s : consistent m → objects m !! r = Some j → j_installed j = true →
  ∃ m', job_set_state r s m = Some m' ∧ keeps m m' ∧
    ∃ n, m' = with_counts n (n_installed_jobs m) (n_failed_jobs m) (modify_job r (set_state s) m).
Proof.
  intros C E I. unfold job_set_state. rewrite E. cbn.
  assert (keeps m (with_counts (n_running_jobs m - b2z (is_running j) + b2z (is_running (set_state s j)))
    (n_installed_jobs m) (n_failed_jobs m) (modify_job r (set_state s) m))) as K.
  { apply (update_keeps m _ r (set_state s) j); try done.
    - by apply (queue_alter _ _ _ _ _ j); [..|apply (c_run_queue m C)].
    - by apply (queue_alter _ _ _ _ _ j); [..|apply (c_dbus_queue m C)].
    - by apply (queue_alter _ _ _ _ _ j); [..|apply (c_gc_queue m C)]. }
  case_decide as Es.
  - assert (m = with_counts (n_running_jobs m) (n_installed_jobs m) (n_failed_jobs m)
              (modify_job r (set_state s) m)) as Em.
    { destruct m. unfold with_counts, modify_job, with_objects; cbn. f_equal.
      symmetry. apply alter_id. cbn in E. intros j' E'. rewrite E in E'. injection E' as <-.
      destruct j; cbn in *. by subst. }
    eexists. split; [done|]. split; [by apply keeps_refl|]. by eexists.
  - rewrite I. cbn [negb]. unfold is_running in K. rewrite I in K. cbn in K.
    pose proof (count_bounds is_running (objects m)) as B1. pose proof (c_small m C) as B2.
    pose proof (c_running m C) as B3.
    destruct s; cbn in *.
    + destruct (j_state j) eqn:Ej; [done|]. cbn in K.
      assert (0 < count is_running (objects m)).
      { apply (count_pos _ _ r j); [done|]. unfold is_running. by rewrite I, Ej. }
      rewrite (proj2 (Z.ltb_lt _ _)) by lia. cbn. eexists. split; [done|].
      replace (n_running_jobs m - 1) with (n_running_jobs m - 1 + 0) by lia.
      rewrite I in K. split; [exact K|by eexists].
    + destruct (j_state j) eqn:Ej; [|done]. cbn in K.
      assert (count is_running (objects m) < Z.of_nat (size (objects m))).
      { rewrite (count_delete _ _ r j) by done. unfold is_running at 1. rewrite I, Ej. cbn.
        pose proof (count_bounds is_running (delete r (objects m))) as B4.
        rewrite map_size_delete_Some in B4 by (by exists j).
        assert (size (objects m) ≠ 0%nat).
        2: { rewrite bool_decide_false by done. cbn [b2z]. lia. }
        intros Hz%map_size_empty_inv. by rewrite Hz, lookup_empty in E. }
      rewrite wrapu_small by lia. eexists. split; [done|].
      replace (n_running_jobs m + 1) with (n_running_jobs m - 0 + 1) by lia.
      rewrite I in K. split; [exact K|by eexists].
Qed.

(** *** Queues *)

Lemma scan_total m j dep stop l : consistent m → in_transaction (j_type j) = true →
  Forall (λ v, is_Some (units m !! v)) l → is_Some (scan_jobs m j dep stop l).
Proof.
  intros C T. induction 1 as [|v l [V EV] _ IH]; cbn; [by eexists|].
  rewrite EV. cbn. destruct (u_job V) as [r|] eqn:ES; [|done].
  destruct (c_slot m C v V JOB_START r EV ES) as (o & Eo & Io & _ & _). rewrite Eo. cbn.
  destruct (c_installed m C r o Eo Io) as (To & _). unfold job_compare. rewrite T, To. cbn.
  repeat case_decide; repeat case_match; cbn; repeat case_match; done || by eexists.
Qed.

Lemma deps_exist m u U (deps : Unit → list nat) : consistent m → units m !! u = Some U →
  deps U ∈ deps_of U → Forall (λ v, is_Some (units m !! v)) (deps U).
Proof. intros C E D. pose proof (c_deps m C u U E) as H. rewrite Forall_forall in H. by apply H. Qed.

Lemma may_gc_keeps m r j : consistent m → objects m !! r = Some j → j_installed j = true →
  ∃ b m', job_may_gc r m = Some (b, m') ∧ keeps m m' ∧
    (m' = m ∨ m' = modify_job r (set_private false) m).
Proof.
  intros C E I. destruct (c_installed m C r j E I) as (T & _ & U & EU & _).
  assert (keeps m (modify_job r (set_private false) m)) as K by (by apply (modify_keeps m r _ j)).
  unfold job_may_gc. rewrite E. cbn. rewrite EU. cbn.
  destruct (u_gc_jobs U); cbn; [|eexists _, _; split; [done|]; split; [by apply keeps_refl|by left]].
  destruct (0 <? j_tracked j); [eexists _, _; split; [done|]; split; [by apply keeps_refl|by left]|].
  destruct (j_ref_by_private_bus j && private_buses m);
    [eexists _, _; split; [done|]; split; [by apply keeps_refl|by left]|].
  set (m' := if j_ref_by_private_bus j then _ else m).
  assert (keeps m m' ∧ (m' = m ∨ m' = modify_job r (set_private false) m)) as [K' D'].
  { unfold m'. destruct (j_ref_by_private_bus j); [by split; [|right]|split; [by apply keeps_refl|by left]]. }
  case_decide; [by eexists _, _|].
  assert (units m' !! j_unit j = Some U) as EU' by (by rewrite (k_units m m' K')).
  destruct (scan_total m' j UNIT_BEFORE (λ d, d <? 0) (u_before U)) as [a ->];
    [apply K'|done|apply (deps_exist m' (j_unit j) U u_before); [apply K'|done|set_solver]|].
  cbn. destruct a; cbn; [|by eexists _, _].
  destruct (scan_total m' j UNIT_AFTER (λ d, d <? 0) (u_after U)) as [b ->];
    [apply K'|done|apply (deps_exist m' (j_unit j) U u_after); [apply K'|done|set_solver]|].
  cbn. by eexists _, _.
Qed.

(** *** Insertion *)

Lemma put_slot_get t t' v U :
  get_slot t (put_slot t' v U) = if decide (t = JOB_NOP ↔ t' = JOB_NOP) then v else get_slot t U.
Proof. unfold get_slot, put_slot. repeat case_decide; naive_solver. Qed.

Lemma put_slot_deps t v U : deps_of (put_slot t v U) = deps_of U.
Proof. unfold put_slot. by case_decide. Qed.

(** A job goes into the empty slot of its unit. *)
Lemma install_consistent m m' r j U : consistent m → objects m !! r = Some j → j_installed j = false →
  in_transaction (j_type j) = true → units m !! j_unit j = Some U → get_slot (j_type j) U = None →
  jobs m !! j_id j = None ∨ jobs m !! j_id j = Some r →
  objects m' = alter (set_installed true) r (objects m) → jobs m' = <[j_id j := r]> (jobs m) →
  units m' = <[j_unit j := put_slot (j_type j) (Some r) U]> (units m) →
  n_running_jobs m' = n_running_jobs m + b2z (is_running (set_installed true j)) →
  run_queue m' = run_queue m → dbus_job_queue m' = dbus_job_queue m → gc_job_queue m' = gc_job_queue m →
  consistent m'.
Proof.
  intros C E I T EU ES J Eo Ej Eu Er Q1 Q2 Q3.
  assert (∀ i j0, objects m !! i = Some j0 → j_installed j0 = true → i ≠ r) as Hne by (intros i j0 E0 I0 ->; congruence).
  split; rewrite ?Eo, ?Ej, ?Eu.
  - intros v V t i EV EV'. rewrite lookup_insert in EV.
    destruct (decide (i = r ∧ v = j_unit j ∧ (t = JOB_NOP ↔ j_type j = JOB_NOP))) as [(-> & -> & Et)|Hd].
    { rewrite lookup_alter_eq, E. exists (set_installed true j). split_and!; [done..|]. cbn. naive_solver. }
    assert (∃ V', units m !! v = Some V' ∧ get_slot t V' = Some i) as (V' & E1 & E2).
    { case_decide as Ev; [|by exists V]. injection EV as <-. subst v. exists U. split; [done|].
      rewrite put_slot_get in EV'. case_decide; [|done]. injection EV' as <-. by destruct Hd. }
    destruct (c_slot m C v V' t i E1 E2) as (j0 & E0 & I0 & U0 & T0). exists j0.
    rewrite lookup_alter_ne; [by split_and!|]. specialize (Hne i j0 E0 I0). done.
  - intros i j0 E0 I0. rewrite lookup_alter in E0. case_decide as Ei.
    + subst i. rewrite E in E0. injection E0 as <-. cbn in *. split; [done|]. rewrite !lookup_insert_eq.
      split; [done|]. eexists. split; [done|]. rewrite put_slot_get, decide_True; done.
    + destruct (c_installed m C i j0 E0 I0) as (T0 & J0 & U0 & EU0 & ES0). split; [done|].
      rewrite lookup_insert_ne by (intros Eid; rewrite <- Eid in J0; destruct J; congruence). split; [done|].
      rewrite lookup_insert. destruct (decide (j_unit j = j_unit j0)) as [Ev|]; [|by exists U0].
      eexists. split; [done|].
      rewrite put_slot_get. rewrite <- Ev, EU in EU0. injection EU0 as <-.
      case_decide as Et; [|done]. rewrite (get_slot_nop _ _ U Et) in ES0. congruence.
  - intros id i Ei. rewrite lookup_insert in Ei. case_decide as Hid.
    + injection Ei as <-. subst id. rewrite lookup_alter_eq, E. by eexists.
    + destruct (c_jobs m C id i Ei) as (j0 & E0 & <-). rewrite lookup_alter. case_decide as Hi; [|by exists j0].
      subst i. rewrite E0. by eexists.
  - intros v V EV. assert (∃ V', units m !! v = Some V' ∧ deps_of V = deps_of V') as (V' & EV' & ->).
    { rewrite lookup_insert in EV. case_decide as Ev; [|by exists V]. injection EV as <-. subst v.
      exists U. by rewrite put_slot_deps. }
    pose proof (c_deps m C v V' EV') as D. eapply Forall_impl; [exact D|]. intros l Hl.
    eapply Forall_impl; [exact Hl|]. cbn. intros w [W EW]. rewrite lookup_insert. case_decide; by eexists.
  - rewrite Er, (c_running m C), (count_alter _ _ r j) by done.
    assert (is_running j = false) as -> by (unfold is_running; by rewrite I). cbn [b2z]. lia.
  - rewrite <- size_dom, dom_alter_L, size_dom. apply (c_small m C).
  - rewrite Q1. by apply (queue_alter _ _ _ _ _ j); [..|apply (c_run_queue m C)].
  - rewrite Q2. by apply (queue_alter _ _ _ _ _ j); [..|apply (c_dbus_queue m C)].
  - rewrite Q3. by apply (queue_alter _ _ _ _ _ j); [..|apply (c_gc_queue m C)].
  - intros i j0 E0 Q. rewrite lookup_alter in E0. case_decide as Ei; [|by apply (c_queued m C i)].
    subst i. rewrite E in E0. by injection E0 as <-.
Qed.

(** *** Removal *)

Lemma delete_alter r f (o : gmap nat Job) : delete r (alter f r o) = delete r o.
Proof. apply map_eq. intros i. rewrite !lookup_delete. case_decide; [done|]. by rewrite lookup_alter_ne. Qed.

(** [job_uninstall] and [job_free] in the state they leave. *)
Lemma uninstall_free m r j : consistent m → objects m !! r = Some j → j_installed j = true →
  ∃ m1 m' U, job_uninstall r m = Some m1 ∧ job_free r m1 = Some m' ∧
    units m !! j_unit j = Some U ∧ get_slot (j_type j) U = Some r ∧
    objects m' = delete r (objects m) ∧ jobs m' = delete (j_id j) (jobs m) ∧
    units m' = <[j_unit j := put_slot (j_type j) None U]> (units m) ∧
    run_queue m' = (if j_in_run_queue j then list_remove r (run_queue m) else run_queue m) ∧
    dbus_job_queue m' = (if j_in_dbus_queue j then list_remove r (dbus_job_queue m) else dbus_job_queue m) ∧
    gc_job_queue m' = (if j_in_gc_queue j then list_remove r (gc_job_queue m) else gc_job_queue m) ∧
    n_running_jobs m' = count is_running (delete r (objects m)).
Proof.
  intros C E I. destruct (c_installed m C r j E I) as (T & J & U & EU & ES).
  destruct (set_state_keeps m r j JOB_WAITING C E I) as (m1 & Es & K & n & Em1).
  assert (n_running_jobs m1 = count is_running (delete r (objects m))) as Hn.
  { rewrite (c_running m1 (k_consistent _ _ K)), Em1. cbn.
    rewrite (count_delete _ _ r (set_state JOB_WAITING j)) by (by rewrite lookup_alter_eq, E).
    rewrite delete_alter. unfold is_running at 1. cbn. rewrite andb_false_r. cbn. done. }
  unfold job_uninstall. rewrite E. cbn. rewrite I. cbn. rewrite Es. cbn.
  rewrite (k_units _ _ K), EU. cbn. rewrite bool_decide_true by done. cbn.
  rewrite (k_jobs _ _ K), decide_True by done.
  eexists _, _, U. split; [done|]. split.
  { unfold job_free, job_unlink. cbn. rewrite Em1. cbn. rewrite !lookup_alter_eq, E. cbn. done. }
  cbn. rewrite !delete_alter.
  split_and!; try done. rewrite <- Hn, Em1. done.
Qed.

Lemma uninstall_free_ok m r j : consistent m → objects m !! r = Some j → j_installed j = true →
  ∃ m1 m', job_uninstall r m = Some m1 ∧ job_free r m1 = Some m' ∧ consistent m' ∧ frame m m' ∧
    n_installed m' = n_installed m - 1 ∧ objects m' = delete r (objects m) ∧
    ∃ U, units m !! j_unit j = Some U ∧ units m' = <[j_unit j := put_slot (j_type j) None U]> (units m).
Proof.
  intros C E I. destruct (c_installed m C r j E I) as (T & J & _).
  destruct (uninstall_free m r j C E I) as (m1 & m' & U & E1 & E2 & EU & ES & Eo & Ej & Eu & Q1 & Q2 & Q3 & Er).
  exists m1, m'. split; [done|]. split; [done|]. split; [|split; [|split; [|split; [done|by exists U]]]].
  - split; rewrite ?Eo, ?Ej, ?Eu.
    + intros v V t i EV EV'. rewrite lookup_insert in EV. case_decide as Ev.
      * injection EV as <-. subst v. rewrite put_slot_get in EV'. case_decide as Et; [done|].
        destruct (c_slot m C (j_unit j) U t i EU EV') as (j0 & E0 & I0 & U0 & T0). exists j0.
        rewrite lookup_delete_ne; [by split_and!|]. intros <-. rewrite E in E0. injection E0 as <-. naive_solver.
      * destruct (c_slot m C v V t i EV EV') as (j0 & E0 & I0 & U0 & T0). exists j0.
        rewrite lookup_delete_ne; [by split_and!|]. intros <-. rewrite E in E0. injection E0 as <-. done.
    + intros i j0 E0 I0. rewrite lookup_delete in E0. case_decide as Ei; [done|].
      destruct (c_installed m C i j0 E0 I0) as (T0 & J0 & U0 & EU0 & ES0).
      split; [done|]. split.
      * rewrite lookup_delete_ne; [done|]. intros Eid. rewrite <- Eid in J0. congruence.
      * rewrite lookup_insert. case_decide as Ev; [|by exists U0]. eexists. split; [done|].
        rewrite put_slot_get. rewrite <- Ev, EU in EU0. injection EU0 as <-.
        case_decide as Et; [|done]. rewrite (get_slot_nop _ _ U Et) in ES0. congruence.
    + intros id i Ei. rewrite lookup_delete in Ei. case_decide as Hid; [done|].
      destruct (c_jobs m C id i Ei) as (j0 & E0 & <-). exists j0. split; [|done].
      rewrite lookup_delete_ne; [done|]. intros <-. congruence.
    + intros v V EV. assert (∃ V', units m !! v = Some V' ∧ deps_of V = deps_of V') as (V' & EV' & ->).
      { rewrite lookup_insert in EV. case_decide as Ev; [|by exists V]. injection EV as <-. subst v.
        exists U. by rewrite put_slot_deps. }
      pose proof (c_deps m C v V' EV') as D. eapply Forall_impl; [exact D|]. intros l Hl.
      eapply Forall_impl; [exact Hl|]. cbn. intros w [W EW]. rewrite lookup_insert. case_decide; by eexists.
    + done.
    + pose proof (c_small m C). rewrite map_size_delete, E. lia.
    + rewrite Q1. apply queue_delete; [done|apply (c_run_queue m C)].
    + rewrite Q2. apply queue_delete; [done|apply (c_dbus_queue m C)].
    + rewrite Q3. apply queue_delete; [done|apply (c_gc_queue m C)].
    + intros i j0 E0. rewrite lookup_delete in E0. case_decide; [done|]. by apply (c_queued m C i).
  - split_and!.
    + intros v V EV. rewrite Eu, lookup_insert. case_decide as Ev; [|by exists V]. subst v.
      rewrite EU in EV. injection EV as <-. eexists. split; [done|]. by rewrite put_slot_deps.
    + intros i j0 E0 I0. rewrite Eo, lookup_delete_ne by congruence. split; [done|].
      intros J0. rewrite Ej, lookup_delete_ne; [done|]. intros Eid. rewrite <- Eid in J0. congruence.
    + intros id i j0 J0 E0 I0. rewrite Ej, lookup_delete in J0. case_decide; [done|].
      rewrite Eo, lookup_delete in E0. case_decide; [done|]. done.
  - unfold n_installed. rewrite Eo, (count_delete j_installed (objects m) r j), I by done. cbn. lia.
Qed.

Section Env.
Context `{JobEnv}.

(** What the queue operations leave of a job, besides its place. *)
Definition queued (j j' : Job) : Prop :=
  stable j j' ∧ j_type j' = j_type j ∧ j_state j' = j_state j ∧ j_ignore_order j' = j_ignore_order j ∧
  (j_in_run_queue j = true → j_in_run_queue j' = true).

Definition queues (m m' : Manager) : Prop :=
  keeps m m' ∧ ∀ i j, objects m !! i = Some j → ∃ j', objects m' !! i = Some j' ∧ queued j j'.

Lemma queued_trans j1 j2 j3 : queued j1 j2 → queued j2 j3 → queued j1 j3.
Proof.
  intros (A1 & B1 & C1 & D1 & E1) (A2 & B2 & C2 & D2 & E2).
  split; [by transitivity j2|]. split_and!; [congruence..|auto].
Qed.

Lemma queues_refl m : consistent m → queues m m.
Proof. intros C. split; [by apply keeps_refl|]. intros i j E. exists j. by split_and!. Qed.

Lemma queues_trans m1 m2 m3 : queues m1 m2 → queues m2 m3 → queues m1 m3.
Proof.
  intros [K1 Q1] [K2 Q2]. split; [by apply (keeps_trans m1 m2 m3)|].
  intros i j E. destruct (Q1 i j E) as (j' & E' & S'). destruct (Q2 i j' E') as (j'' & E'' & S'').
  exists j''. split; [done|]. by apply (queued_trans _ j').
Qed.

Lemma keeps_alter m m' r f j : keeps m m' → objects m' = alter f r (objects m) →
  objects m !! r = Some j → queued j (f j) → queues m m'.
Proof.
  intros K Eo E Q. split; [done|]. intros i j0 E0. rewrite Eo, lookup_alter. case_decide as Ei.
  - subst i. rewrite E in E0. injection E0 as ->. rewrite E. by eexists.
  - exists j0. by split_and!.
Qed.

Lemma add_to_run_queue_ok m r j : consistent m → objects m !! r = Some j → j_installed j = true →
  ∃ m', job_add_to_run_queue r m = Some m' ∧ queues m m' ∧
    (prioq_put_ok m = true → ∃ j', objects m' !! r = Some j' ∧ j_in_run_queue j' = true).
Proof.
  intros C E I. unfold job_add_to_run_queue. rewrite E. cbn. rewrite I. cbn.
  destruct (j_in_run_queue j) eqn:Eq.
  { eexists. split; [done|]. split; [by apply queues_refl|]. intros _. by exists j. }
  destruct (prioq_put_ok m); [|eexists; split; [done|]; split; [by apply queues_refl|done]].
  eexists. split; [done|]. split.
  - eapply (keeps_alter m _ r _ j); [|done|done|by split_and!].
    apply (update_keeps m _ r (λ j, set_queues true (j_in_dbus_queue j) (j_in_gc_queue j) j) j); try done.
    + unfold is_running. cbn. lia.
    + by apply (queue_push _ _ _ _ _ j); [..|apply (c_run_queue m C)].
    + by apply (queue_alter _ _ _ _ _ j); [..|apply (c_dbus_queue m C)].
    + by apply (queue_alter _ _ _ _ _ j); [..|apply (c_gc_queue m C)].
  - intros _. eexists. cbn. rewrite lookup_alter_eq, E. by split.
Qed.

Lemma add_to_dbus_queue_ok m r j : consistent m → objects m !! r = Some j → j_installed j = true →
  ∃ m', job_add_to_dbus_queue r m = Some m' ∧ queues m m'.
Proof.
  intros C E I. unfold job_add_to_dbus_queue. rewrite E. cbn. rewrite I. cbn.
  destruct (j_in_dbus_queue j) eqn:Eq; [eexists; split; [done|by apply queues_refl]|].
  eexists. split; [done|]. eapply (keeps_alter m _ r _ j); [|done|done|by split_and!].
  apply (update_keeps m _ r (λ j, set_queues (j_in_run_queue j) true (j_in_gc_queue j) j) j); try done.
  - unfold is_running. cbn. lia.
  - by apply (queue_alter _ _ _ _ _ j); [..|apply (c_run_queue m C)].
  - by apply (queue_push _ _ _ _ _ j); [..|apply (c_dbus_queue m C)].
  - by apply (queue_alter _ _ _ _ _ j); [..|apply (c_gc_queue m C)].
Qed.

Lemma add_to_gc_queue_ok m r j : consistent m → objects m !! r = Some j → j_installed j = true →
  ∃ m', job_add_to_gc_queue r m = Some m' ∧ queues m m'.
Proof.
  intros C E I. unfold job_add_to_gc_queue. rewrite E. cbn.
  destruct (j_in_gc_queue j) eqn:Eq; [eexists; split; [done|by apply queues_refl]|].
  destruct (may_gc_keeps m r j C E I) as (b & m' & -> & K & D). cbn.
  assert (queues m m' ∧ ∃ j', objects m' !! r = Some j' ∧ j_installed j' = true ∧ j_in_gc_queue j' = false)
    as [Q (j' & E' & I' & G')].
  { destruct D as [->| ->]; (split; [|]).
    - by apply queues_refl.
    - by exists j.
    - by apply (keeps_alter m _ r (set_private false) j).
    - eexists. cbn. rewrite lookup_alter_eq, E. by split_and!. }
  destruct b; [|by eexists]. eexists. split; [done|]. apply (queues_trans m m'); [done|].
  pose proof (k_consistent m m' K) as C'.
  eapply (keeps_alter m' _ r _ j'); [|done|done|by split_and!].
  apply (update_keeps m' _ r (λ j, set_queues (j_in_run_queue j) (j_in_dbus_queue j) true j) j'); try done.
  - unfold is_running. cbn. lia.
  - by apply (queue_alter _ _ _ _ _ j'); [..|apply (c_run_queue m' C')].
  - by apply (queue_alter _ _ _ _ _ j'); [..|apply (c_dbus_queue m' C')].
  - by apply (queue_push _ _ _ _ _ j'); [..|apply (c_gc_queue m' C')].
Qed.

(** ** Finishing *)

(** What the engine relies on in its environment: the operations of units, the
    requests for [OnFailure=] units and the reactions of triggering units may do
    anything, install and finish jobs too, but leave a consistent manager. *)
Definition benign (f : Manager → Manager) : Prop := ∀ m, consistent m → consistent (f m) ∧ frame m (f m).

Class LawfulEnv : Prop := {
  start_benign u : benign (λ m, (unit_start u m).2);
  stop_benign u : benign (λ m, (unit_stop u m).2);
  reload_benign u : benign (λ m, (unit_reload u m).2);
  on_failure_benign u v : v ∈ u_on_failure u → benign (add_failure_job u v);
  notify_benign u v : v ∈ u_triggered_by u → benign (trigger_notify v u);
  peek_queued m r : prioq_peek m = Some r → r ∈ run_queue m;
  peek_empty m : prioq_peek m = None → run_queue m = [] }.

(** The end of a job makes its unit install no job. *)
Definition calm : Prop := ∀ u v m, consistent m →
  (v ∈ u_on_failure u → n_installed (add_failure_job u v m) ≤ n_installed m) ∧
  (v ∈ u_triggered_by u → n_installed (trigger_notify v u m) ≤ n_installed m).

(** Nor do the operations of units. *)
Definition calm_units : Prop := calm ∧ ∀ u m, consistent m →
  n_installed (unit_start u m).2 ≤ n_installed m ∧
  n_installed (unit_stop u m).2 ≤ n_installed m ∧
  n_installed (unit_reload u m).2 ≤ n_installed m.

Lemma benign_foldl (f : nat → Manager → Manager) l : (∀ v, v ∈ l → benign (f v)) →
  benign (λ m, foldl (λ m v, f v m) m l).
Proof.
  induction l as [|v l IH]; intros B m C; [done|]. cbn. destruct (B v) with m as [C1 F1]; [set_solver|done|].
  destruct (IH (λ w Hw, B w (list_elem_of_further w v l Hw)) (f v m) C1) as [C2 F2]. split; [done|by transitivity (f v m)].
Qed.

Lemma calm_foldl (f : nat → Manager → Manager) l : (∀ v, v ∈ l → benign (f v)) →
  (∀ v m, v ∈ l → consistent m → n_installed (f v m) ≤ n_installed m) →
  ∀ m, consistent m → n_installed (foldl (λ m v, f v m) m l) ≤ n_installed m.
Proof.
  induction l as [|v l IH]; intros B N m C; [done|]. cbn.
  transitivity (n_installed (f v m)); [|apply N; [set_solver|done]].
  apply IH; [set_solver..|]. apply B; [set_solver|done].
Qed.

(** No assertion fails, the result is consistent, and in a calm environment the
    fuel is enough when it is the number of installed jobs. *)
Definition fine (fuel : nat) (m : Manager) (o : outcome Manager) : Prop :=
  match o with
  | Ret m' => consistent m' ∧ frame m m' ∧ (calm → n_installed m' ≤ n_installed m)
  | Crash => False
  | OutOfFuel => calm → Z.of_nat fuel < n_installed m
  end.

Lemma fine_bind fuel m o k : fine fuel m o →
  (∀ m', consistent m' → frame m m' → (calm → n_installed m' ≤ n_installed m) → fine fuel m' (k m')) →
  fine fuel m (o ≫= k).
Proof.
  intros F K. destruct o as [m'| |]; cbn; [|done..]. destruct F as (C' & F' & N').
  specialize (K m' C' F' N'). destruct (k m') as [m''| |]; cbn in *; [|done|].
  - destruct K as (C'' & F'' & N''). split_and!; [done|by transitivity m'|].
    intros Q. specialize (N' Q). specialize (N'' Q). lia.
  - intros Q. specialize (N' Q). specialize (K Q). lia.
Qed.

Lemma fine_ind fuel m o k : fine fuel m o → 
  (∀ m', consistent m' → frame m m' → fine fuel m' (k m')) → fine fuel m (o ≫= k).
Proof. intros F K. apply fine_bind; [done|]. intros m' C' F' _. by apply K. Qed.

Lemma fine_ret fuel m : consistent m → fine fuel m (Ret m).
Proof. intros C. split_and!; [done..|lia]. Qed.

Lemma fine_keeps fuel m o : (∃ m', o = Some m' ∧ keeps m m') → fine fuel m (lift o).
Proof. intros (m' & -> & K). split_and!; [apply K..|]. rewrite (k_count _ _ K). lia. Qed.

Lemma fine_queues fuel m o : (∃ m', o = Some m' ∧ queues m m') → fine fuel m (lift o).
Proof. intros (m' & -> & K & _). apply fine_keeps. by eexists. Qed.

Lemma fine_benign fuel m f : consistent m → benign f → (calm → n_installed (f m) ≤ n_installed m) →
  fine fuel m (Ret (f m)).
Proof. intros C B N. destruct (B m C). by split_and!. Qed.

Lemma installed_slot m u U r : consistent m → units m !! u = Some U → u_job U = Some r →
  ∃ j, objects m !! r = Some j ∧ j_installed j = true ∧ j_unit j = u ∧ j_type j ≠ JOB_NOP.
Proof.
  intros C E S. destruct (c_slot m C u U JOB_START r E S) as (j & Ej & I & Eu & T).
  exists j. split_and!; [done..|]. naive_solver.
Qed.

Lemma for_jobs_fine fuel f l : (∀ r j m, consistent m → objects m !! r = Some j → j_installed j = true →
    fine fuel m (f r j m)) →
  ∀ m, consistent m → Forall (λ v, is_Some (units m !! v)) l → fine fuel m (for_jobs f l m).
Proof.
  intros Hf. induction l as [|v l IH]; intros m C D; [by apply fine_ret|].
  apply Forall_cons in D as [[V EV] D]. cbn [for_jobs]. rewrite EV. cbn.
  apply fine_bind.
  - destruct (u_job V) as [r|] eqn:S; [|by apply fine_ret].
    destruct (installed_slot m v V r C EV S) as (j & Ej & I & _). rewrite Ej. by apply Hf.
  - intros m' C' F' _. apply IH; [done|]. eapply Forall_impl; [exact D|]. intros w. by apply frame_unit.
Qed.

Lemma with_deps_fine fuel u deps loop m : consistent m → is_Some (units m !! u) →
  (∀ U, deps U ∈ deps_of U) →
  (∀ l, Forall (λ v, is_Some (units m !! v)) l → fine fuel m (loop l m)) →
  fine fuel m (with_deps u deps loop m).
Proof.
  intros C [U EU] D L. unfold with_deps. rewrite EU. cbn. apply L. by apply (deps_exist m u U deps).
Qed.

Lemma wake_job_ok m r j : consistent m → objects m !! r = Some j → j_installed j = true →
  ∃ m', wake_job r m = Ret m' ∧ queues m m' ∧
    (prioq_put_ok m = true → ∃ j', objects m' !! r = Some j' ∧ j_in_run_queue j' = true).
Proof.
  intros C E I. unfold wake_job.
  destruct (add_to_run_queue_ok m r j C E I) as (m1 & -> & Q1 & R1). cbn.
  destruct (k_job _ _ (proj1 Q1) r j E) as (j1 & E1 & _ & _ & I1 & _).
  destruct (add_to_gc_queue_ok m1 r j1) as (m2 & -> & Q2); [apply Q1|done|congruence|].
  exists m2. split; [done|]. split; [by apply (queues_trans m m1)|].
  intros P. destruct (R1 P) as (j' & E' & R'). destruct (proj2 Q2 r j' E') as (j'' & E'' & Qd).
  exists j''. split; [done|]. by apply Qd.
Qed.

(** The run queue never lacks memory. *)
Definition put_always : Prop := ∀ m, prioq_put_ok m = true.

(** The jobs of the units are in the run queue. *)
Definition all_queued (l : list nat) (m : Manager) : Prop := ∀ v V r, v ∈ l →
  units m !! v = Some V → u_job V = Some r → ∃ j, objects m !! r = Some j ∧ j_in_run_queue j = true.

Lemma all_queued_queues l m m' : queues m m' → all_queued l m → all_queued l m'.
Proof.
  intros [K Q] A v V r Hv EV S. rewrite (k_units _ _ K) in EV. destruct (A v V r Hv EV S) as (j & E & R).
  destruct (Q r j E) as (j' & E' & Q'). exists j'. split; [done|]. by apply Q'.
Qed.

Lemma wake_loop_ok l : ∀ m, consistent m → Forall (λ v, is_Some (units m !! v)) l →
  ∃ m', for_jobs (λ r _ m, wake_job r m) l m = Ret m' ∧ queues m m' ∧ (put_always → all_queued l m').
Proof.
  induction l as [|v l IH]; intros m C D.
  { exists m. split_and!; [done|by apply queues_refl|]. intros _ v V r Hv. by apply not_elem_of_nil in Hv. }
  apply Forall_cons in D as [[V EV] D]. cbn [for_jobs]. rewrite EV. cbn.
  assert (∃ m1, match u_job V with None => Ret m | Some r => j ←! objects m !! r; wake_job r m end = Ret m1 ∧
    queues m m1 ∧ (put_always → all_queued [v] m1)) as (m1 & E1 & Q1 & A1).
  { destruct (u_job V) as [r|] eqn:S.
    - destruct (installed_slot m v V r C EV S) as (j & Ej & I & _). rewrite Ej. cbn.
      destruct (wake_job_ok m r j C Ej I) as (m1 & -> & Q & R). exists m1. split_and!; [done..|].
      intros P w W r' ->%list_elem_of_singleton EW S'. rewrite (k_units _ _ (proj1 Q)), EV in EW.
      injection EW as <-. rewrite S in S'. injection S' as <-. by apply R.
    - exists m. split_and!; [done|by apply queues_refl|]. intros _ w W r' ->%list_elem_of_singleton. congruence. }
  rewrite E1. cbn. destruct (IH m1) as (m' & -> & Q & A).
  { apply Q1. } { by rewrite (k_units _ _ (proj1 Q1)). }
  exists m'. split; [done|]. split; [by apply (queues_trans m m1)|]. intros P w W r [->|Hw]%elem_of_cons.
  - by apply (all_queued_queues [v] m1 m' Q (A1 P)), list_elem_of_singleton.
  - by apply A.
Qed.

Lemma wake_neighbours_ok m u U : consistent m → units m !! u = Some U →
  ∃ m', wake_neighbours u m = Ret m' ∧ queues m m' ∧
    (put_always → all_queued (u_after U ++ u_before U) m').
Proof.
  intros C EU. unfold wake_neighbours, with_deps. rewrite EU. cbn.
  destruct (wake_loop_ok (u_after U) m) as (m1 & -> & Q1 & A1);
    [done|apply (deps_exist m u U u_after); [done..|set_solver]|]. cbn.
  rewrite (k_units _ _ (proj1 Q1)), EU. cbn.
  destruct (wake_loop_ok (u_before U) m1) as (m2 & -> & Q2 & A2);
    [apply Q1|apply (deps_exist m1 u U u_before); [apply Q1|by rewrite (k_units _ _ (proj1 Q1))|set_solver]|].
  exists m2. split; [done|]. split; [by apply (queues_trans m m1)|]. intros P v V r [Hv|Hv]%elem_of_app.
  - by apply (all_queued_queues (u_after U) m1 m2 Q2 (A1 P)).
  - by apply (A2 P).
Qed.

Context `{!LawfulEnv}.

Lemma wake_neighbours_fine fuel m u : consistent m → is_Some (units m !! u) →
  fine fuel m (wake_neighbours u m).
Proof.
  intros C [U EU]. destruct (wake_neighbours_ok m u U C EU) as (m' & -> & Q & _).
  apply (fine_queues _ _ (Some m')). by eexists.
Qed.

Lemma start_on_failure_fine fuel u m : consistent m → fine fuel m (Ret (unit_start_on_failure u m)).
Proof.
  intros C. apply fine_benign; [done|by apply benign_foldl, on_failure_benign|]. intros N.
  apply calm_foldl; [apply on_failure_benign| |done]. intros v m' Hv C'. by apply (N u v m' C').
Qed.

Lemma trigger_notify_benign u : benign (unit_trigger_notify u).
Proof. apply (benign_foldl (λ v, trigger_notify v u)), notify_benign. Qed.

Lemma trigger_notify_fine fuel u m : consistent m → fine fuel m (Ret (unit_trigger_notify u m)).
Proof.
  intros C. apply fine_benign; [done|apply trigger_notify_benign|]. intros N.
  apply (calm_foldl (λ v, trigger_notify v u)); [apply notify_benign| |done]. intros v m' Hv C'. by apply (N u v m' C').
Qed.

Lemma finish_effects_fine fuel fail u t result recursive m :
  (∀ l m, consistent m → Forall (λ v, is_Some (units m !! v)) l → fine fuel m (fail l m)) →
  consistent m → is_Some (units m !! u) → fine fuel m (finish_effects fail u t result recursive m).
Proof.
  intros Hf C D. unfold finish_effects.
  assert (∀ m deps, consistent m → is_Some (units m !! u) → (∀ U, deps U ∈ deps_of U) →
    fine fuel m (with_deps u deps fail m)) as Hd.
  { intros m1 deps C1 D1 H1. apply with_deps_fine; [done..|]. intros l Hl. by apply Hf. }
  apply fine_bind.
  { destruct (negb _ && recursive); [|by apply fine_ret]. destruct (starts_or_verifies t).
    - apply fine_bind; [apply Hd; [done..|set_solver]|]. intros m1 C1 F1 _.
      apply fine_bind; [apply Hd; [done|by apply (frame_unit m)|set_solver]|]. intros m2 C2 F2 _.
      apply Hd; [done| |set_solver]. apply (frame_unit m1); [done|by apply (frame_unit m)].
    - case_match; [apply Hd; [done..|set_solver]|by apply fine_ret]. }
  intros m1 C1 F1 _. destruct (frame_unit m m1 u F1 D) as [U EU]. rewrite EU. cbn.
  apply fine_bind; [case_match; [apply Hd; [done|by eexists|set_solver]|by apply fine_ret]|].
  intros m2 C2 _ _.
  apply (fine_bind fuel m2 (Ret (if _ : bool then _ else _)) (λ m, Ret (unit_trigger_notify u m))).
  - case_match; [by apply start_on_failure_fine|by apply fine_ret].
  - intros m3 C3 _ _. by apply trigger_notify_fine.
Qed.

(** A state with a job less needs less fuel. *)
Lemma fine_pre fuel fuel' m m0 o : frame m m0 → n_installed m0 - n_installed m ≤ Z.of_nat fuel - Z.of_nat fuel' ≤ 0 →
  fine fuel m0 o → fine fuel' m o.
Proof.
  intros F N. destruct o as [m'| |]; cbn; [|done|].
  - intros (C' & F' & N'). split_and!; [done|by transitivity m0|]. intros Q. specialize (N' Q). lia.
  - intros N' Q. specialize (N' Q). lia.
Qed.

Lemma consistent_counts m a b : consistent m → consistent (with_counts (n_running_jobs m) a b m).
Proof. by intros []. Qed.

(** The end of a restart job is the beginning of a start job. *)
Lemma finish_restart_fine fuel m r j : consistent m → objects m !! r = Some j → j_installed j = true →
  j_type j = JOB_RESTART →
  fine fuel m (m ←! job_set_state r JOB_WAITING (modify_job r (set_type JOB_START) m);
               m ←! job_add_to_dbus_queue r m; m ←! job_add_to_run_queue r m; lift (job_add_to_gc_queue r m)).
Proof.
  intros C E I T.
  assert (keeps m (modify_job r (set_type JOB_START) m)) as K0.
  { apply (modify_keeps m r _ j); try done. split_and!; cbn; rewrite ?T; done. }
  assert (objects (modify_job r (set_type JOB_START) m) !! r = Some (set_type JOB_START j)) as E0.
  { cbn. by rewrite lookup_alter_eq, E. }
  destruct (set_state_keeps _ r _ JOB_WAITING (k_consistent _ _ K0) E0 I) as (m1 & -> & K1 & _). cbn.
  destruct (k_job _ _ K1 r _ E0) as (j1 & E1 & _ & _ & I1 & _). cbn in I1. rewrite I in I1.
  destruct (add_to_dbus_queue_ok m1 r j1) as (m2 & -> & Q2); [apply K1|done..|]. cbn.
  destruct (k_job _ _ (proj1 Q2) r j1 E1) as (j2 & E2 & _ & _ & I2 & _). rewrite I1 in I2.
  destruct (add_to_run_queue_ok m2 r j2) as (m3 & -> & Q3 & _); [apply Q2|done..|]. cbn.
  destruct (k_job _ _ (proj1 Q3) r j2 E2) as (j3 & E3 & _ & _ & I3 & _). rewrite I2 in I3.
  destruct (add_to_gc_queue_ok m3 r j3) as (m4 & -> & Q4); [apply Q3|done..|].
  apply (fine_keeps _ _ (Some m4)). eexists. split; [done|].
  apply (keeps_trans m _ m4 K0), (keeps_trans _ m1 m4 K1), (keeps_trans m1 m2 m4 (proj1 Q2)).
  by apply (keeps_trans m2 m3 m4 (proj1 Q3)), Q4.
Qed.

Lemma finish_fine fuel : ∀ r j result recursive m, consistent m → objects m !! r = Some j →
  j_installed j = true → fine fuel m (job_finish_and_invalidate fuel r result recursive m).
Proof.
  induction fuel as [|fuel IH]; intros r j result recursive m C E I.
  { intros _. apply (count_pos _ _ r j); done. }
  destruct (c_installed m C r j E I) as (T & _ & U & EU & _).
  cbn [job_finish_and_invalidate]. rewrite E. cbn -[job_add_to_gc_queue]. rewrite I, T. cbn -[job_add_to_gc_queue].
  assert (keeps m (modify_job r (set_result result) m)) as K by (by apply (modify_keeps m r _ j)).
  set (m0 := modify_job r (set_result result) m) in *. pose proof (k_consistent _ _ K) as C0.
  assert (objects m0 !! r = Some (set_result result j)) as E0 by (unfold m0; cbn; by rewrite lookup_alter_eq, E).
  apply (fine_pre (S fuel) _ m m0); [apply K|rewrite (k_count _ _ K); lia|].
  assert (is_Some (units m0 !! j_unit j)) as D0 by (by exists U).
  apply fine_ind; [|intros m1 C1 F1; apply wake_neighbours_fine; [done|by apply (frame_unit m0)]].
  destruct (bool_decide (result = JOB_DONE) && bool_decide (j_type j = JOB_RESTART)) eqn:Er.
  - apply andb_true_iff in Er as [_ Er%bool_decide_eq_true]. by apply (finish_restart_fine _ m0 r (set_result result j)).
  - set (m1 := if _ || _ then _ else m0).
    assert (consistent m1 ∧ objects m1 = objects m0 ∧ units m1 = units m0 ∧ frame m0 m1) as (C1 & Eo & Eu & F1).
    { unfold m1. case_match; [|by split_and!]. split_and!; [exact (consistent_counts m0 _ _ C0)|done..|].
      split_and!; [intros v V ?; by exists V|done|done]. }
    rewrite <- Eo in E0. destruct (uninstall_free_ok m1 r _ C1 E0 I) as (m2 & m3 & -> & E3 & C3 & F3 & N3 & _).
    cbn. rewrite E3. cbn.
    assert (frame m0 m3) as F03 by (by transitivity m1).
    apply (fine_pre fuel _ m0 m3); [done|unfold n_installed in *; rewrite Eo in N3; lia|].
    apply finish_effects_fine; [|done|by apply (frame_unit m0)].
    intros l m4 C4 D4. apply for_jobs_fine; [|done..]. intros r' j' m5 C5 E5 I5.
    case_match; [|by apply fine_ret]. by apply (IH r' j').
Qed.

(** ** Installation *)

(** The reactions to a cancelled job leave the empty slots of units empty. *)
Definition keeps_empty (f : Manager → Manager) : Prop := ∀ m u U t, consistent m →
  units m !! u = Some U → get_slot t U = None → ∃ U', units (f m) !! u = Some U' ∧ get_slot t U' = None.

Definition quiet : Prop := ∀ u v, v ∈ u_triggered_by u → keeps_empty (trigger_notify v u).

Lemma quiet_notify u : quiet → keeps_empty (unit_trigger_notify u).
Proof.
  intros Q. unfold unit_trigger_notify. pose proof (Q u) as Hq. pose proof (notify_benign u) as B.
  induction (u_triggered_by u) as [|v l IH]; intros m w U t C EU ES; cbn; [by exists U|].
  destruct (Hq v) with m w U t as (U1 & EU1 & ES1); [set_solver|done..|].
  apply (IH) with U1; [set_solver..| |done|done]. apply B; [set_solver|done].
Qed.

(** Cancelling a job without recursion. *)
Lemma cancel_ok fuel m r j : consistent m → objects m !! r = Some j → j_installed j = true → quiet →
  ∃ m' U', job_finish_and_invalidate (S fuel) r JOB_CANCELED false m = Ret m' ∧ consistent m' ∧ frame m m' ∧
    units m' !! j_unit j = Some U' ∧ get_slot (j_type j) U' = None.
Proof.
  intros C E I Hn. pose proof (finish_fine (S fuel) r j JOB_CANCELED false m C E I) as F.
  assert (∃ m' U', job_finish_and_invalidate (S fuel) r JOB_CANCELED false m = Ret m' ∧
    units m' !! j_unit j = Some U' ∧ get_slot (j_type j) U' = None) as (m' & U' & Em & EU & ES).
  { destruct (c_installed m C r j E I) as (T & _ & U & EU & _).
    cbn [job_finish_and_invalidate]. rewrite E. cbn. rewrite I, T. cbn.
    assert (keeps m (modify_job r (set_result JOB_CANCELED) m)) as K by (by apply (modify_keeps m r _ j)).
    set (m0 := modify_job r (set_result JOB_CANCELED) m) in *.
    assert (objects m0 !! r = Some (set_result JOB_CANCELED j)) as E0 by (unfold m0; cbn; by rewrite lookup_alter_eq, E).
    rewrite (bool_decide_false (JOB_CANCELED = JOB_DONE)), (bool_decide_false (JOB_CANCELED = JOB_FAILED)),
      (bool_decide_false (JOB_CANCELED = JOB_INVALID)) by done. cbn.
    destruct (uninstall_free_ok m0 r _ (k_consistent _ _ K) E0 I)
      as (m1 & m2 & -> & E2 & C2 & F2 & _ & _ & U1 & EU1 & Eu2). cbn. rewrite E2. cbn in *.
    assert (units m2 !! j_unit j = Some (put_slot (j_type j) None U1)) as EU2 by (by rewrite Eu2, lookup_insert_eq).
    unfold finish_effects. rewrite !andb_false_r. cbn. rewrite EU2. cbn.
    rewrite (bool_decide_false (JOB_CANCELED = JOB_TIMEOUT)), (bool_decide_false (JOB_CANCELED = JOB_DEPENDENCY)) by done.
    cbn. destruct (trigger_notify_benign (j_unit j) m2 C2) as [C3 _].
    destruct (quiet_notify (j_unit j) Hn m2 _ _ (j_type j) C2 EU2) as (U3 & EU3 & ES3).
    { by rewrite put_slot_get, decide_True. }
    destruct (wake_neighbours_ok _ _ U3 C3 EU3) as (m4 & -> & Q4 & _).
    eexists _, U3. by rewrite (k_units _ _ (proj1 Q4)). }
  rewrite Em in F |- *. destruct F as (C' & F' & _). by eexists _, _.
Qed.

Lemma merge_cases a b st : in_transaction a = true → in_transaction b = true → (a = JOB_NOP ↔ b = JOB_NOP) →
  (job_type_is_conflicting a b = Some true ∧ merge st a b = None ∧ a ≠ JOB_NOP) ∨
  (job_type_is_conflicting a b = Some false ∧ is_Some (job_type_is_superset a b) ∧
   ∃ t, (if decide (a = JOB_NOP) then t = JOB_NOP
         else job_type_merge_and_collapse a b st = Some (0, t) ∧ merge st a b = Some t) ∧
     (t = JOB_NOP ↔ a = JOB_NOP) ∧ in_transaction t = true).
Proof.
  intros A B N. destruct a; try done; destruct b; try done; try (exfalso; naive_solver); destruct st;
    ((by left) || (right; split; [done|]; split; [by eexists|]; eexists; split; [by vm_compute|by split])).
Qed.

(** What becomes of an installed job that another is merged into. *)
Definition merged_into (j o : Job) (t : JobType) : Job :=
  let late := job_type_allows_late_merge (j_type j) &&
              bool_decide (job_type_is_superset (j_type o) (j_type j) = Some true) in
  let o' := set_flags (j_ignore_order o || j_ignore_order j) (j_irreversible o || j_irreversible j) (set_type t o) in
  if late then o' else set_state JOB_WAITING o'.

Lemma install_merge m r j uj o U t : consistent m → objects m !! r = Some j →
  objects m !! uj = Some o → j_installed o = true → j_unit o = j_unit j → units m !! j_unit j = Some U →
  (j_type o = JOB_NOP ↔ j_type j = JOB_NOP) → is_Some (job_type_is_superset (j_type o) (j_type j)) →
  (if decide (j_type o = JOB_NOP) then t = JOB_NOP
   else job_type_merge_and_collapse (j_type o) (j_type j) (u_active_state U) = Some (0, t) ∧
        merge (u_active_state U) (j_type o) (j_type j) = Some t) →
  (t = JOB_NOP ↔ j_type o = JOB_NOP) → in_transaction t = true →
  ∃ m', (superset ←! job_type_is_superset (j_type o) (j_type j);
         m ←! job_merge_into_installed uj r m;
         if bool_decide (j_state o = JOB_WAITING) || job_type_allows_late_merge (j_type j) && superset
         then Ret (inl (uj, m)) else m ←! job_set_state uj JOB_WAITING m; Ret (inl (uj, m)))
        = Ret (inl (uj, m') : (nat * Manager) + Manager) ∧
    keeps m m' ∧ objects m' !! uj = Some (merged_into j o t).
Proof.
  intros C E Eo Io Euo EU N [sup Es] M Nt Tt. rewrite Es. cbn [lift mbind outcome_bind].
  set (f := λ o0, set_flags (j_ignore_order o0 || j_ignore_order j) (j_irreversible o0 || j_irreversible j) (set_type t o0)).
  assert (job_merge_into_installed uj r m = Some (modify_job uj f m)) as ->.
  { unfold job_merge_into_installed. rewrite Eo, E. cbn. rewrite Io, (bool_decide_true (j_unit o = j_unit j)) by done. cbn. rewrite Euo, EU. cbn.
    destruct (decide (j_type o = JOB_NOP)) as [En|En].
    - rewrite bool_decide_true by (by apply N). by subst t.
    - destruct M as [-> _]. done. }
  cbn [lift mbind outcome_bind].
  assert (keeps m (modify_job uj f m)) as K by (apply (modify_keeps m uj f o); [done|done|done|by split_and!|done..]).
  assert (objects (modify_job uj f m) !! uj = Some (f o)) as E1 by (cbn; by rewrite lookup_alter_eq, Eo).
  unfold merged_into. rewrite Es. change (set_flags _ _ (set_type t o)) with (f o).
  destruct (job_type_allows_late_merge (j_type j) && bool_decide (Some sup = Some true)) eqn:Late.
  { apply andb_true_iff in Late as [-> L%bool_decide_eq_true]. injection L as ->. rewrite orb_true_r.
    by eexists. }
  assert (job_type_allows_late_merge (j_type j) && sup = false) as ->.
  { destruct sup; [|by rewrite andb_false_r]. by rewrite bool_decide_true in Late. }
  clear Late. rewrite orb_false_r. case_bool_decide as Ew.
  { eexists. split; [done|]. split; [done|]. rewrite E1. f_equal. unfold f, set_state, set_flags, set_type. cbn. by rewrite Ew. }
  destruct (set_state_keeps _ uj (f o) JOB_WAITING (k_consistent _ _ K) E1 Io) as (m2 & -> & K2 & n & ->). cbn.
  eexists. split; [done|]. split; [by apply (keeps_trans m _ _ K)|]. cbn. by rewrite !lookup_alter_eq, Eo.
Qed.

(** [frame], but for the job [r]. *)
Definition frame_but (r : nat) (m m' : Manager) : Prop :=
  (∀ u U, units m !! u = Some U → ∃ U', units m' !! u = Some U' ∧ deps_of U' = deps_of U) ∧
  (∀ i j, i ≠ r → objects m !! i = Some j → j_installed j = false →
     objects m' !! i = Some j ∧ (jobs m !! j_id j = Some i → jobs m' !! j_id j = Some i)) ∧
  (∀ id i j, i ≠ r → jobs m' !! id = Some i → objects m' !! i = Some j → j_installed j = false →
     jobs m !! id = Some i ∧ objects m !! i = Some j).

Lemma frame_frame_but r m m' : frame m m' → frame_but r m m'.
Proof. intros (A & B & C). split_and!; [done|by intros; apply B|by intros; apply C]. Qed.

Lemma frame_but_trans r m1 m2 m3 : frame_but r m1 m2 → frame_but r m2 m3 → frame_but r m1 m3.
Proof.
  intros (A1 & B1 & C1) (A2 & B2 & C2). split_and!.
  - intros u U E. destruct (A1 u U E) as (U' & E' & D'). destruct (A2 u U' E') as (U'' & E'' & D'').
    exists U''. split; [done|congruence].
  - intros i j Hi E I. destruct (B1 i j Hi E I) as [E' J']. destruct (B2 i j Hi E' I) as [E'' J'']. auto.
  - intros id i j Hi J E I. destruct (C2 id i j Hi J E I) as [J' E']. by apply C1.
Qed.

(** The job of the address goes into its unit's empty slot. *)
Lemma install_new m r j U : consistent m → objects m !! r = Some j → j_installed j = false →
  in_transaction (j_type j) = true → j_state j = JOB_WAITING → jobs m !! j_id j = Some r →
  units m !! j_unit j = Some U → get_slot (j_type j) U = None →
  ∃ m' j', (u ←! units m !! j_unit j;
    let m := with_units (<[j_unit j := put_slot (j_type j) (Some r) u]> (units m)) m in
    let m := modify_job r (set_installed true) m in
    let m := with_counts (n_running_jobs m) (wrapu 32 (n_installed_jobs m + 1)) (n_failed_jobs m) m in
    m ←! job_add_to_gc_queue r m; m ←! job_add_to_dbus_queue r m; Ret (r, m)) = Ret (r, m') ∧
    consistent m' ∧ units m' = <[j_unit j := put_slot (j_type j) (Some r) U]> (units m) ∧
    objects m' !! r = Some j' ∧ queued (set_installed true j) j' ∧ frame_but r m m'.
Proof.
  intros C E I T S J EU ES. rewrite EU. cbn -[job_add_to_gc_queue].
  set (m1 := with_counts _ _ _ _).
  assert (consistent m1) as C1.
  { apply (install_consistent m m1 r j U); try done; [by right|cbn; by rewrite insert_id|].
    unfold is_running. cbn. rewrite S, bool_decide_false by done. cbn. lia. }
  assert (objects m1 !! r = Some (set_installed true j)) as E1 by (cbn; by rewrite lookup_alter_eq, E).
  destruct (add_to_gc_queue_ok m1 r _ C1 E1) as (m2 & -> & Q2); [done|]. cbn.
  destruct (proj2 Q2 r _ E1) as (j2 & E2 & S2).
  destruct (add_to_dbus_queue_ok m2 r j2) as (m3 & -> & Q3); [apply Q2|done|by apply S2|]. cbn.
  destruct (proj2 Q3 r _ E2) as (j3 & E3 & S3).
  exists m3, j3. split; [done|]. split; [apply Q3|]. split; [by rewrite (k_units _ _ (proj1 Q3)), (k_units _ _ (proj1 Q2))|].
  split; [done|]. split; [by apply (queued_trans _ j2)|]. apply (frame_but_trans r m m1).
  - split_and!; cbn.
    + intros u V EV. rewrite lookup_insert. case_decide as Eu; [|by exists V]. subst u.
      eexists. split; [done|]. rewrite put_slot_deps. congruence.
    + intros i j0 Hi E0 I0. by rewrite lookup_alter_ne.
    + intros id i j0 Hi J0 E0 I0. by rewrite lookup_alter_ne in E0.
  - apply frame_frame_but. transitivity m2; [apply Q2|apply Q3].
Qed.

(** [job_install], with what it leaves alone. *)
Lemma job_install_ok fuel m r j U : consistent m → objects m !! r = Some j → j_installed j = false →
  in_transaction (j_type j) = true → j_state j = JOB_WAITING → jobs m !! j_id j = Some r →
  units m !! j_unit j = Some U → quiet →
  ∃ r' m' j' U', job_install (S fuel) r m = Ret (r', m') ∧ consistent m' ∧
    units m' !! j_unit j = Some U' ∧ get_slot (j_type j) U' = Some r' ∧ objects m' !! r' = Some j' ∧
    frame_but r m m' ∧ (r' ≠ r → objects m' !! r = Some j ∧ jobs m' !! j_id j = Some r) ∧
    match get_slot (j_type j) U with
    | None => r' = r ∧ j_type j' = j_type j
    | Some uj => ∃ o, objects m !! uj = Some o ∧
        if decide (j_type j = JOB_NOP) then r' = uj ∧ j_type j' = JOB_NOP
        else match merge (u_active_state U) (j_type o) (j_type j) with
             | None => r' = r ∧ j_type j' = j_type j
             | Some t => r' = uj ∧ j' = merged_into j o t
             end
    end.
Proof.
  intros C E I T S J EU Hq. unfold job_install. rewrite E. cbn [lift mbind outcome_bind].
  rewrite I, T, bool_decide_true by done. cbn [assert_ negb andb lift mbind outcome_bind]. rewrite EU.
  cbn [lift mbind outcome_bind].
  destruct (get_slot (j_type j) U) as [uj|] eqn:ES.
  - destruct (c_slot m C (j_unit j) U (j_type j) uj EU ES) as (o & Eo & Io & Euo & N). rewrite Eo.
    cbn [lift mbind outcome_bind]. destruct (c_installed m C uj o Eo Io) as (To & _).
    destruct (merge_cases (j_type o) (j_type j) (u_active_state U) To T N)
      as [(-> & Em & Nn)|(-> & Hsup & t & Mt & Nt & Tt)]; cbn [lift mbind outcome_bind].
    + destruct (cancel_ok fuel m uj o C Eo Io Hq) as (m1 & U1 & -> & C1 & F1 & EU1 & ES1).
      cbn [lift mbind outcome_bind]. pose proof F1 as (_ & F2 & _). destruct (F2 r j E I) as [E1 J1].
      rewrite Euo in EU1. rewrite (get_slot_nop _ (j_type j)) in ES1 by done.
      destruct (install_new m1 r j U1 C1 E1 I T S (J1 J) EU1 ES1) as (m' & j' & Ei & C' & Eu' & E' & Q' & Fb).
      exists r, m', j'. eexists. rewrite Eu', lookup_insert_eq. split; [exact Ei|]. split; [done|]. split; [done|].
      split; [by rewrite put_slot_get, decide_True|]. split; [done|].
      split; [apply (frame_but_trans r m m1); [by apply frame_frame_but|done]|]. split; [done|].
      exists o. split; [done|]. rewrite decide_False by naive_solver. rewrite Em. split; [done|]. by apply Q'.
    + destruct (install_merge m r j uj o U t C E Eo Io Euo EU N Hsup Mt Nt Tt) as (m' & -> & K & E').
      cbn [lift mbind outcome_bind]. exists uj, m', (merged_into j o t), U. rewrite (k_units _ _ K).
      split; [done|]. split; [apply K|]. split; [done|]. split; [done|]. split; [done|].
      split; [by apply frame_frame_but, K|]. split.
      { intros _. destruct (k_frame _ _ K) as (_ & F & _). destruct (F r j E I). auto. }
      exists o. split; [done|].
      destruct (decide (j_type o = JOB_NOP)) as [En|En].
      * rewrite decide_True by (by apply N). split; [done|]. subst t. unfold merged_into. by case_match.
      * rewrite decide_False by naive_solver. destruct Mt as [_ ->]. done.
  - destruct (install_new m r j U C E I T S J EU ES) as (m' & j' & Ei & C' & Eu' & E' & Q' & Fb).
    exists r, m', j'. eexists. rewrite Eu', lookup_insert_eq. split; [exact Ei|]. split; [done|]. split; [done|].
    split; [by rewrite put_slot_get, decide_True|]. split; [done|]. split; [done|]. split; [done|]. split; [done|]. by apply Q'.
Qed.

(** [job_install] of a job that is in the manager's table keeps the manager
    consistent and fails no assertion. When the unit's slot is empty, or its job
    conflicts and is cancelled, the job itself is installed there; otherwise it
    is merged into the installed one, which gets the merged type and flags, and
    a job that is running goes back to waiting unless its type covers the new
    one's and may be merged late. The reactions to the cancelled job must not
    fill the slot again ([quiet]). *)
Theorem job_install_correct fuel m r j U : consistent m → objects m !! r = Some j → j_installed j = false →
  in_transaction (j_type j) = true → j_state j = JOB_WAITING → jobs m !! j_id j = Some r →
  units m !! j_unit j = Some U → quiet →
  ∃ r' m' j' U', job_install (S fuel) r m = Ret (r', m') ∧ consistent m' ∧
    units m' !! j_unit j = Some U' ∧ get_slot (j_type j) U' = Some r' ∧ objects m' !! r' = Some j' ∧
    match get_slot (j_type j) U with
    | None => r' = r ∧ j_type j' = j_type j
    | Some uj => ∃ o, objects m !! uj = Some o ∧
        if decide (j_type j = JOB_NOP) then r' = uj ∧ j_type j' = JOB_NOP
        else match merge (u_active_state U) (j_type o) (j_type j) with
             | None => r' = r ∧ j_type j' = j_type j
             | Some t => r' = uj ∧ j' = merged_into j o t
             end
    end.
Proof.
  intros C E I T S J EU Hq. destruct (job_install_ok fuel m r j U C E I T S J EU Hq)
    as (r' & m' & j' & U' & H1 & H2 & H3 & H4 & H5 & _ & _ & H6). by exists r', m', j', U'.
Qed.

(** ** Running *)

(** [fine] for a function that returns more than the manager. *)
Definition fine_at {A} (π : A → Manager) (fuel : nat) (m : Manager) (o : outcome A) : Prop :=
  match o with
  | Ret a => consistent (π a) ∧ frame m (π a) ∧ (calm_units → n_installed (π a) ≤ n_installed m)
  | Crash => False
  | OutOfFuel => calm_units → Z.of_nat fuel < n_installed m
  end.

Lemma fine_fine_at fuel m o : fine fuel m o → fine_at (λ m, m) fuel m o.
Proof.
  destruct o as [m'| |]; cbn; [|done|by intros F [N _]; apply F].
  intros (C & F & N). split_and!; [done..|]. by intros [N' _]; apply N.
Qed.

Lemma fine_at_bind {A B} (π : A → Manager) (π' : B → Manager) fuel m o k : fine_at π fuel m o →
  (∀ a, o = Ret a → consistent (π a) → frame m (π a) → fine_at π' fuel (π a) (k a)) →
  fine_at π' fuel m (o ≫= k).
Proof.
  intros F K. destruct o as [a| |]; cbn; [|done..]. destruct F as (C' & F' & N').
  specialize (K a eq_refl C' F'). destruct (k a) as [b| |]; cbn in *; [|done|].
  - destruct K as (C'' & F'' & N''). split_and!; [done|by transitivity (π a)|].
    intros Q. specialize (N' Q). specialize (N'' Q). lia.
  - intros Q. specialize (N' Q). specialize (K Q). lia.
Qed.

Lemma keeps_fine_at {A} (π : A → Manager) fuel m a : keeps m (π a) → fine_at π fuel m (Ret a).
Proof. intros K. split_and!; [apply K..|]. rewrite (k_count _ _ K). lia. Qed.

Lemma fine_at_pre {A} (π : A → Manager) fuel m m0 o : keeps m m0 → fine_at π fuel m0 o → fine_at π fuel m o.
Proof.
  intros K F. apply (fine_at_bind (λ m, m) π fuel m (Ret m0) (λ _, o)); [by apply keeps_fine_at|].
  intros m1 [= <-] _ _. done.
Qed.

(** The job that the manager knows by the id after an operation is installed. *)
Lemma known_job_installed m m' r j r' : consistent m → consistent m' → frame m m' →
  objects m !! r = Some j → j_installed j = true → jobs m' !! j_id j = Some r' →
  ∃ j', objects m' !! r' = Some j' ∧ j_installed j' = true.
Proof.
  intros C C' (_ & _ & F) E I J'. destruct (c_installed m C r j E I) as (_ & J & _).
  destruct (c_jobs m' C' _ r' J') as (j' & E' & _). exists j'. split; [done|].
  destruct (j_installed j') eqn:I'; [done|]. destruct (F _ r' j' J' E' I'). congruence.
Qed.

Definition op_result (a : Z * option nat * Manager) : Manager := a.2.

(** What follows the operation: the job, if there still is one, is installed. *)
Definition job_alive (a : Z * option nat * Manager) : Prop :=
  ∀ r, a.1.2 = Some r → ∃ j, objects a.2 !! r = Some j ∧ j_installed j = true.

Lemma perform_fine fuel m r j : consistent m → objects m !! r = Some j → j_installed j = true →
  match j_type j with JOB_START | JOB_STOP | JOB_RESTART | JOB_RELOAD => True | _ => False end →
  ∃ a, job_perform_on_unit r m = Some a ∧ fine_at op_result fuel m (Ret a) ∧ job_alive a.
Proof.
  intros C E I Ht. unfold job_perform_on_unit. rewrite E. cbn.
  assert (∀ f : Manager → Z * Manager, benign (λ m, (f m).2) → (calm_units → n_installed (f m).2 ≤ n_installed m) →
    ∃ a, ('(res, m) ← Some (f m); Some (res, jobs m !! j_id j, m)) = Some a ∧
      fine_at op_result fuel m (Ret a) ∧ job_alive a) as Hop.
  { intros f B N. destruct (B m C) as [C' F']. cbn. destruct (f m) as [res m'] eqn:Ef. cbn in *.
    eexists. split; [done|]. split; [done|]. intros r' Er. cbn in *. by apply (known_job_installed m m' r j r'). }
  destruct (j_type j); try done; apply Hop; auto using start_benign, stop_benign, reload_benign;
    intros [_ N]; apply (N (j_unit j) m C).
Qed.

Lemma run_tail_fine fuel a : consistent a.2 → job_alive a →
  fine_at snd fuel a.2
    (let '(res, jr, m) := a in
     match jr with
     | None => Ret (res, m)
     | Some r =>
         if res =? - EAGAIN then m ←! job_set_state r JOB_WAITING m; Ret (res, m)
         else match result_of res with
              | Some result => m ← job_finish_and_invalidate fuel r result true m; Ret (0, m)
              | None => Ret (res, m)
              end
     end).
Proof.
  destruct a as [[res jr] m]. cbn. intros C A.
  destruct jr as [r|]; [|by apply keeps_fine_at, keeps_refl].
  destruct (A r eq_refl) as (j & E & I). cbn in *. case_match.
  - destruct (set_state_keeps m r j JOB_WAITING C E I) as (m' & -> & K & _). by apply keeps_fine_at.
  - case_match; [|by apply keeps_fine_at, keeps_refl].
    apply (fine_at_bind (λ m, m) snd); [apply fine_fine_at, (finish_fine fuel r j); done|].
    intros m' _ C' _. by apply keeps_fine_at, keeps_refl.
Qed.

Lemma runnable_total m r j : consistent m → objects m !! r = Some j → j_installed j = true →
  is_Some (job_is_runnable r m).
Proof.
  intros C E I. destruct (c_installed m C r j E I) as (T & _ & U & EU & _).
  unfold job_is_runnable. rewrite E. cbn. rewrite I. cbn. case_match; [by eexists|]. case_decide; [by eexists|].
  rewrite EU. cbn.
  destruct (scan_total m j UNIT_AFTER (λ d, 0 <? d) (u_after U)) as [a ->];
    [done..|apply (deps_exist m (j_unit j) U u_after); [done..|set_solver]|]. cbn.
  destruct a; cbn; [|by eexists].
  apply scan_total; [done..|apply (deps_exist m (j_unit j) U u_before); [done..|set_solver]].
Qed.

Lemma pop_run_queue_keeps m r j : consistent m → objects m !! r = Some j → j_installed j = true →
  keeps m (modify_job r (λ j, set_queues false (j_in_dbus_queue j) (j_in_gc_queue j) j)
    (with_queues (list_remove r (run_queue m)) (dbus_job_queue m) (gc_job_queue m) m)).
Proof.
  intros C E I.
  apply (update_keeps m _ r (λ j, set_queues false (j_in_dbus_queue j) (j_in_gc_queue j) j) j); try done.
  - unfold is_running. cbn. lia.
  - by apply (queue_pop _ _ _ _ _ j); [..|apply (c_run_queue m C)].
  - by apply (queue_alter _ _ _ _ _ j); [..|apply (c_dbus_queue m C)].
  - by apply (queue_alter _ _ _ _ _ j); [..|apply (c_gc_queue m C)].
Qed.

(** Marking the job as running and announcing it. *)
Lemma mark_running_keeps m r j : consistent m → objects m !! r = Some j → j_installed j = true →
  ∃ m' j', (m ← job_set_state r JOB_RUNNING m; job_add_to_dbus_queue r m) = Some m' ∧ keeps m m' ∧
    objects m' !! r = Some j' ∧ j_installed j' = true ∧ j_type j' = j_type j ∧ j_unit j' = j_unit j.
Proof.
  intros C E I. destruct (set_state_keeps m r j JOB_RUNNING C E I) as (m1 & -> & K1 & n & Em1). cbn.
  assert (objects m1 !! r = Some (set_state JOB_RUNNING j)) as E1 by (rewrite Em1; cbn; by rewrite lookup_alter_eq, E).
  destruct (add_to_dbus_queue_ok m1 r _ (k_consistent _ _ K1) E1 I) as (m2 & -> & K2 & Q2).
  destruct (Q2 r _ E1) as (j2 & E2 & (_ & Eu & I2 & _) & T2 & _). exists m2, j2.
  split; [done|]. split; [by apply (keeps_trans m m1)|]. cbn in *. split_and!; [done|congruence|done|done].
Qed.

Lemma run_fine fuel m r j : consistent m → objects m !! r = Some j → j_in_run_queue j = true →
  fine_at snd fuel m (job_run_and_invalidate fuel r m).
Proof.
  intros C E Rq. assert (j_installed j = true) as I by (apply (c_queued m C r j E); by rewrite Rq).
  destruct (c_installed m C r j E I) as (T & _ & U & EU & _).
  pose proof (pop_run_queue_keeps m r j C E I) as K1.
  unfold job_run_and_invalidate. rewrite E. cbn [lift mbind outcome_bind]. rewrite I, T, Rq.
  cbn [assert_ andb lift mbind outcome_bind].
  set (m1 := modify_job r _ _) in *. set (f := λ j, set_queues false (j_in_dbus_queue j) (j_in_gc_queue j) j) in *.
  apply (fine_at_pre snd fuel m m1); [done|]. pose proof (k_consistent _ _ K1) as C1.
  assert (objects m1 !! r = Some (f j)) as E1 by (unfold m1; cbn; by rewrite lookup_alter_eq, E).
  case_match; [by apply keeps_fine_at, keeps_refl|].
  destruct (runnable_total m1 r (f j) C1 E1 I) as [runnable ->]. cbn [lift mbind outcome_bind].
  destruct runnable; cbn [negb]; [|by apply keeps_fine_at, keeps_refl].
  destruct (mark_running_keeps m1 r (f j) C1 E1 I) as (m3 & j3 & E13 & K3 & E3 & I3 & T3 & U3).
  apply bind_Some in E13 as (m2 & -> & E23). cbn [lift mbind outcome_bind]. rewrite E23.
  cbn [lift mbind outcome_bind]. apply (fine_at_pre snd fuel m1 m3); [done|].
  pose proof (k_consistent _ _ K3) as C3. cbn in T3, U3.
  match goal with |- fine_at _ _ _ (?o ≫= ?k) => set (op := o) end.
  assert (fine_at op_result fuel m3 op ∧ ∀ a, op = Ret a → job_alive a) as [Hop Halive].
  { assert (∀ v, fine_at op_result fuel m3 (Ret (v, Some r, m3)) ∧
      ∀ a, Ret (v, Some r, m3) = Ret a → job_alive a) as Hnow.
    { intros v. split; [by apply keeps_fine_at, keeps_refl|]. intros a [= <-] r' [= <-]. by exists j3. }
    assert (match j_type j with JOB_START | JOB_STOP | JOB_RESTART | JOB_RELOAD => True | _ => False end →
      ∃ a, job_perform_on_unit r m3 = Some a ∧ fine_at op_result fuel m3 (Ret a) ∧ job_alive a) as Hp.
    { intros Ht. apply (perform_fine fuel m3 r j3); try done. by rewrite T3. }
    unfold op. destruct (j_type j); try done; try (destruct Hp as ([[res jr] m4] & -> & F4 & A4); [done|]).
    all: try (cbn [lift mbind outcome_bind]; split; [exact F4|intros a [= <-]; exact A4]).
    rewrite <- U3. destruct (c_installed m3 C3 r j3 E3 I3) as (_ & _ & U' & EU' & _). rewrite EU'.
    cbn [lift mbind outcome_bind]. apply Hnow. }
  apply (fine_at_bind op_result snd); [done|]. intros a Ea Ca _.
  apply (run_tail_fine fuel a Ca (Halive a Ea)).
Qed.

Lemma dispatch_fine n fuel : ∀ m, consistent m → fine_at snd fuel m (manager_dispatch_run_queue n fuel m).
Proof.
  induction n as [|n IH]; intros m C; cbn [manager_dispatch_run_queue].
  - case_match; by apply keeps_fine_at, keeps_refl.
  - destruct (prioq_peek m) as [r|] eqn:P; [|by apply keeps_fine_at, keeps_refl].
    destruct (proj1 (proj2 (c_run_queue m C) r) (peek_queued m r P)) as (j & E & Rq). rewrite E.
    cbn [lift mbind outcome_bind].
    assert (j_installed j = true) as -> by (apply (c_queued m C r j E); by rewrite Rq). rewrite Rq.
    cbn [assert_ andb lift mbind outcome_bind].
    apply (fine_at_bind snd snd); [by apply (run_fine fuel m r j)|]. intros [v m'] _ C' _. by apply IH.
Qed.

End Env.
