(* ===== verification/JobFinish.v ===== *)
(** * systemd: how jobs fail, wake and progress

    On top of the invariant of [JobProps]: consistency is decidable, creation
    of jobs keeps it, a failed job takes exactly the jobs with it that need it,
    a job that becomes runnable when another ends is put into the run queue,
    and jobs whose order has no circle never wait for each other for good. The
    last section shows what an environment that fills the slot of a cancelled
    job does to [job_install]. *)

From S2P Require Import Prelude Outcome JobMerge Job JobProps.

#[local] Open Scope Z_scope.
#[local] Set Warnings "-clear-no-such-hyp".

(** ** Deciding consistency *)

Definition slot_ok (m : Manager) (u : nat) (U : Unit) (t : JobType) : Prop :=
  match get_slot t U with
  | None => True
  | Some r => match objects m !! r with
              | None => False
              | Some j => j_installed j = true ∧ j_unit j = u ∧ (j_type j = JOB_NOP ↔ t = JOB_NOP)
              end
  end.

Definition job_ok (m : Manager) (r : nat) (j : Job) : Prop :=
  (j_installed j = true → in_transaction (j_type j) = true ∧ jobs m !! j_id j = Some r ∧
    match units m !! j_unit j with None => False | Some U => get_slot (j_type j) U = Some r end) ∧
  (j_in_run_queue j || j_in_dbus_queue j || j_in_gc_queue j = true → j_installed j = true).

Definition entry_ok (m : Manager) (id : Z) (r : nat) : Prop :=
  match objects m !! r with None => False | Some j => j_id j = id end.

Definition listed (q : list nat) (flag : Job → bool) (o : gmap nat Job) : Prop :=
  NoDup q ∧ Forall (λ r, match o !! r with None => False | Some j => flag j = true end) q ∧
  map_Forall (λ r j, flag j = true → r ∈ q) o.

(** [consistent] by going through the maps. *)
Definition checked (m : Manager) : Prop :=
  map_Forall (λ u U, slot_ok m u U JOB_START ∧ slot_ok m u U JOB_NOP ∧
    Forall (Forall (λ v, is_Some (units m !! v))) (deps_of U)) (units m) ∧
  map_Forall (job_ok m) (objects m) ∧ map_Forall (entry_ok m) (jobs m) ∧
  n_running_jobs m = count is_running (objects m) ∧ Z.of_nat (size (objects m)) < 2 ^ 32 ∧
  listed (run_queue m) j_in_run_queue (objects m) ∧ listed (dbus_job_queue m) j_in_dbus_queue (objects m) ∧
  listed (gc_job_queue m) j_in_gc_queue (objects m).

#[export] Instance checked_dec m : Decision (checked m).
Proof.
  unfold checked, slot_ok, job_ok, entry_ok, listed.
  repeat first [apply and_dec | apply map_Forall_dec; intros | apply Forall_dec; intros
    | apply impl_dec | case_match | apply _].
Defined.

Lemma listed_queue_ok q flag o : listed q flag o → queue_ok q flag o.
Proof.
  intros (N & F & M). split; [done|]. intros r. split.
  - intros Hr. rewrite Forall_forall in F. specialize (F r Hr). cbn in F. case_match; [by eexists|done].
  - intros (j & E & H). by apply (M r j E).
Qed.

Lemma checked_consistent m : checked m → consistent m.
Proof.
  intros (HU & HJ & HE & Hr & Hs & Q1 & Q2 & Q3). split; auto using listed_queue_ok.
  - intros u U t r EU ES. destruct (HU u U EU) as (S1 & S2 & _).
    assert (slot_ok m u U t) as H.
    { destruct (decide (t = JOB_NOP)) as [->|Ht]; [done|]. unfold slot_ok in *.
      rewrite (get_slot_nop t JOB_START) by naive_solver. repeat case_match; naive_solver. }
    unfold slot_ok in H. rewrite ES in H. case_match; [|done]. by eexists.
  - intros r j E I. destruct (HJ r j E) as [H _]. destruct (H I) as (T & J & HU'). split_and!; [done..|].
    case_match; [by eexists|done].
  - intros id r J. specialize (HE id r J). unfold entry_ok in HE. case_match; [|done]. by eexists.
  - intros u U EU. by apply (HU u U EU).
  - intros r j E. by apply (HJ r j E).
Qed.

(** ** Creation *)

(** [job_new] at a free address keeps the manager consistent. *)
Lemma job_new_consistent r u t m : consistent m → objects m !! r = None →
  Z.of_nat (size (objects m)) < 2 ^ 32 - 1 → consistent (job_new r u t m).
Proof.
  intros C E Hs. set (j := mk_job (current_job_id m) u t JOB_WAITING JOB_DONE false false false false false false 0 false).
  assert (∀ i j0, objects m !! i = Some j0 → <[r := j]> (objects m) !! i = Some j0) as Hold.
  { intros i j0 E0. rewrite lookup_insert_ne; [done|congruence]. }
  assert (∀ q flag, flag j = false → queue_ok q flag (objects m) → queue_ok q flag (<[r := j]> (objects m))) as Hq.
  { intros q flag Hj [N Q]. split; [done|]. intros i. rewrite Q, lookup_insert. case_decide as Ei; [|done].
    subst i. rewrite E. split; [by intros (? & ? & _)|]. intros (? & [= <-] & ?). congruence. }
  destruct C. split; cbn; auto.
  - intros v V t' i EV ES. destruct (c_slot v V t' i EV ES) as (j0 & E0 & H0). exists j0. auto.
  - intros i j0 E0 I0. rewrite lookup_insert in E0. case_decide; [by injection E0 as <-|auto].
  - intros id i J. destruct (c_jobs id i J) as (j0 & E0 & H0). exists j0. auto.
  - rewrite count_insert by done. unfold is_running at 1. cbn. lia.
  - rewrite map_size_insert_None by done. lia.
  - intros i j0 E0 Q. rewrite lookup_insert in E0. case_decide; [by injection E0 as <-|eauto].
Qed.

(** [hashmap_put] of a job that is not installed yet. *)
Lemma jobs_put_consistent r j m : consistent m → objects m !! r = Some j → j_installed j = false →
  jobs m !! j_id j = None → consistent (with_jobs (<[j_id j := r]> (jobs m)) m).
Proof.
  intros C E I J. destruct C. split; cbn; auto.
  - intros i j0 E0 I0. destruct (c_installed i j0 E0 I0) as (T & J0 & H0). split_and!; [done| |done].
    rewrite lookup_insert_ne; [done|]. congruence.
  - intros id i Ji. rewrite lookup_insert in Ji. case_decide; [|auto]. injection Ji as <-. subst id. by exists j.
Qed.

(** ** Failure *)

Section Failure.
Context `{JobEnv}.

(** The end of a job makes no unit change the jobs of others: the request for an
    [OnFailure=] unit and the reaction of a triggering unit, where the job's unit
    has such, leave the jobs alone. *)
Definition inert : Prop := ∀ u v m,
  (v ∈ u_on_failure u → add_failure_job u v m = m) ∧ (v ∈ u_triggered_by u → trigger_notify v u m = m).

(** So it is when no unit has [OnFailure=] and none is triggered by another. *)
Lemma unreactive_inert : (∀ u, u_on_failure u = [] ∧ u_triggered_by u = []) → inert.
Proof. intros E u v m. destruct (E u) as [-> ->]. split; by intros ?%not_elem_of_nil. Qed.

Lemma foldl_idle (f : nat → Manager → Manager) l m : (∀ v, v ∈ l → f v m = m) → foldl (λ m v, f v m) m l = m.
Proof. induction l as [|v l IH]; intros E; [done|]. cbn. rewrite E by set_solver. apply IH. set_solver. Qed.

Lemma inert_reactions u m : inert → unit_start_on_failure u m = m ∧ unit_trigger_notify u m = m.
Proof.
  intros Hin. split; [apply (foldl_idle (add_failure_job u))|apply (foldl_idle (λ v, trigger_notify v u))];
    intros v; apply (Hin u v m).
Qed.

Lemma inert_calm : inert → calm.
Proof. intros Hin u v m _. destruct (Hin u v m) as [Hf Ht]. split; intros Hv; [rewrite Hf|rewrite Ht]; done. Qed.

(** The units whose jobs fail with a job of the type. *)
Definition failing_deps (t : JobType) (U : Unit) : list nat :=
  match t with
  | JOB_START | JOB_VERIFY_ACTIVE => u_required_by U ++ u_requisite_of U ++ u_bound_by U
  | JOB_STOP => u_conflicted_by U
  | _ => []
  end.

Lemma failing_deps_eq t U : failing_deps t U =
  if starts_or_verifies t then u_required_by U ++ u_requisite_of U ++ u_bound_by U
  else if bool_decide (t = JOB_STOP) then u_conflicted_by U else [].
Proof. by destruct t. Qed.

Lemma fails_spec t : starts_or_verifies t = true ↔ t = JOB_START ∨ t = JOB_VERIFY_ACTIVE.
Proof. destruct t; cbn; naive_solver. Qed.

(** The job at [i'] fails when the one at [i] does. *)
Definition drags (m : Manager) (i i' : nat) : Prop := ∃ j j' U,
  objects m !! i = Some j ∧ objects m !! i' = Some j' ∧ units m !! j_unit j = Some U ∧
  j_unit j' ∈ failing_deps (j_type j) U ∧ (j_type j' = JOB_START ∨ j_type j' = JOB_VERIFY_ACTIVE) ∧
  j_installed j' = true.

(** Jobs may go, those that stay keep all but their queues. *)
Record shrinks (m m' : Manager) : Prop := {
  s_consistent : consistent m';
  s_job : ∀ i j', objects m' !! i = Some j' → ∃ j, objects m !! i = Some j ∧ queued j j';
  s_unit : ∀ u U, units m !! u = Some U → ∃ U', units m' !! u = Some U' ∧ deps_of U' = deps_of U }.

Lemma shrinks_refl m : consistent m → shrinks m m.
Proof. intros C. split; [done|..]; intros i j E; exists j; by split_and!. Qed.

Lemma shrinks_trans m1 m2 m3 : shrinks m1 m2 → shrinks m2 m3 → shrinks m1 m3.
Proof.
  intros [C1 J1 U1] [C2 J2 U2]. split; [done|..].
  - intros i j3 E3. destruct (J2 i j3 E3) as (j2 & E2 & Q2). destruct (J1 i j2 E2) as (j1 & E1 & Q1).
    exists j1. split; [done|]. by apply (queued_trans _ j2).
  - intros u U E. destruct (U1 u U E) as (U' & E' & D'). destruct (U2 u U' E') as (U'' & E'' & D'').
    exists U''. split; [done|congruence].
Qed.

Lemma shrinks_gone m m' i : shrinks m m' → objects m !! i = None → objects m' !! i = None.
Proof.
  intros S E. destruct (objects m' !! i) as [j'|] eqn:E'; [|done].
  destruct (s_job _ _ S i j' E') as (j & Ej & _). congruence.
Qed.

Lemma queues_shrinks m m' : queues m m' → shrinks m m'.
Proof.
  intros [K Q]. split; [apply K| |intros u U E; exists U; by rewrite (k_units _ _ K)].
  intros i j' E'. destruct (k_back _ _ K i) as [j E]; [by eexists|].
  destruct (Q i j E) as (j'' & E'' & Qj). exists j. split; [done|]. congruence.
Qed.

(** The job of a unit that is still there is still in the unit's slot. *)
Lemma slot_of_job m i j : consistent m → objects m !! i = Some j → j_installed j = true → j_type j ≠ JOB_NOP →
  ∃ U, units m !! j_unit j = Some U ∧ u_job U = Some i.
Proof.
  intros C E I T. destruct (c_installed m C i j E I) as (_ & _ & U & EU & S). exists U. split; [done|].
  unfold get_slot in S. by rewrite decide_False in S.
Qed.

(** What removes jobs from [m1] on the way to [m2]: only jobs that [P] allows go,
    and a job that goes takes those along that it drags. *)
Record removes (P : nat → Prop) (m m1 m2 : Manager) : Prop := {
  r_shrinks : shrinks m1 m2;
  r_only : ∀ i, is_Some (objects m1 !! i) → objects m2 !! i = None → P i;
  r_closed : ∀ i i', is_Some (objects m1 !! i) → objects m2 !! i = None → drags m i i' → objects m2 !! i' = None }.

Lemma removes_refl P m m1 : consistent m1 → removes P m m1 m1.
Proof. intros C. split; [by apply shrinks_refl|..]; intros i; [intros [? ?]|intros i' [? ?]]; congruence. Qed.

Lemma removes_trans P m m1 m2 m3 : removes P m m1 m2 → removes P m m2 m3 → removes P m m1 m3.
Proof.
  intros [S1 O1 C1] [S2 O2 C2]. split; [by apply (shrinks_trans m1 m2)|..].
  - intros i E1 E3. destruct (objects m2 !! i) eqn:E2; [apply O2; [by eexists|done]|by apply O1].
  - intros i i' E1 E3 D. destruct (objects m2 !! i) eqn:E2; [apply (C2 i); [by eexists|done..]|].
    apply (shrinks_gone m2); [done|]. by apply (C1 i).
Qed.

Lemma queues_removes P m m1 m2 : queues m1 m2 → removes P m m1 m2.
Proof.
  intros Q. assert (∀ i, is_Some (objects m1 !! i) → objects m2 !! i ≠ None) as Hno.
  { intros i [j E]. destruct (proj2 Q i j E) as (j' & -> & _). done. }
  split; [by apply queues_shrinks|..]; intros i; [intros E1 E2|intros i' E1 E2]; by apply Hno in E1.
Qed.

(** The loop over the units in [l] that may need the job. *)
Lemma fail_loop_removes (fin : nat → Manager → outcome Manager) P m l :
  consistent m →
  (∀ r j m1 m2, shrinks m m1 → objects m1 !! r = Some j → j_installed j = true →
     starts_or_verifies (j_type j) = true → j_unit j ∈ l → fin r m1 = Ret m2 →
     removes P m m1 m2 ∧ objects m2 !! r = None) →
  ∀ l' m1 m2, l' ⊆ l → shrinks m m1 → fail_dependencies fin l' m1 = Ret m2 →
  removes P m m1 m2 ∧
  ∀ i j, objects m !! i = Some j → j_installed j = true → starts_or_verifies (j_type j) = true →
    j_unit j ∈ l' → objects m2 !! i = None.
Proof.
  intros C Hfin. induction l' as [|v l' IH]; intros m1 m2 Hl S E; cbn in E.
  { injection E as <-. split; [apply removes_refl, S|]. intros i j _ _ _ Hi. by apply not_elem_of_nil in Hi. }
  destruct (units m1 !! v) as [V|] eqn:EV; [|done]. cbn in E.
  match type of E with context [?o ≫= _] => destruct o as [m1'| |] eqn:E1 end; [|done..]. cbn in E.
  assert (removes P m m1 m1' ∧ ∀ i j, objects m !! i = Some j → j_installed j = true →
    starts_or_verifies (j_type j) = true → j_unit j = v → objects m1' !! i = None) as [R1 G1].
  { assert (∀ i j1, objects m !! i = Some j1 → j_installed j1 = true → starts_or_verifies (j_type j1) = true →
      j_unit j1 = v → objects m1 !! i = None ∨ (u_job V = Some i ∧ ∃ j, objects m1 !! i = Some j ∧ j_type j = j_type j1)) as Hslot.
    { intros i j1 Ei Ii Ti Ui. destruct (objects m1 !! i) as [j|] eqn:Ej; [right|by left].
      destruct (s_job _ _ S i j Ej) as (j' & Ej' & (Hs & Ht & _)). rewrite Ei in Ej'. injection Ej' as <-.
      destruct Hs as (_ & Hu & Hi & _).
      destruct (slot_of_job m1 i j) as (V' & EV' & S'); [apply S|done|congruence|rewrite Ht; by destruct (j_type j1)|].
      rewrite Hu, Ui, EV in EV'. injection EV' as <-. split; [done|]. by exists j. }
    destruct (u_job V) as [r|] eqn:Sr.
    - destruct (installed_slot m1 v V r (s_consistent _ _ S) EV Sr) as (j & Ej & Ij & Uj & Tj). rewrite Ej in E1. cbn in E1.
      destruct (starts_or_verifies (j_type j)) eqn:Tsv.
      + destruct (Hfin r j m1 m1' S Ej Ij Tsv) as [R G]; [set_solver|done|]. split; [done|].
        intros i j1 Ei Ii Ti Ui. destruct (Hslot i j1 Ei Ii Ti Ui) as [Hn|[[= <-] _]]; [|done].
        by apply (shrinks_gone m1); [apply R|].
      + injection E1 as <-. split; [apply removes_refl, S|]. intros i j1 Ei Ii Ti Ui.
        destruct (Hslot i j1 Ei Ii Ti Ui) as [Hn|([= <-] & j0 & E0 & T0)]; [done|]. congruence.
    - injection E1 as <-. split; [apply removes_refl, S|]. intros i j1 Ei Ii Ti Ui.
      by destruct (Hslot i j1 Ei Ii Ti Ui) as [Hn|[? _]]. }
  destruct (IH m1' m2) as [R2 G2]; [set_solver|apply (shrinks_trans m m1); [done|apply R1]|done|].
  split; [by apply (removes_trans _ _ _ m1')|]. intros i j Ei Ii Ti [Hv|Hi]%elem_of_cons.
  - apply (shrinks_gone m1'); [apply R2|]. by apply (G1 i j).
  - by apply (G2 i j).
Qed.

Lemma deps_of_eq U U' : deps_of U' = deps_of U →
  u_after U' = u_after U ∧ u_before U' = u_before U ∧ u_required_by U' = u_required_by U ∧
  u_requisite_of U' = u_requisite_of U ∧ u_bound_by U' = u_bound_by U ∧ u_conflicted_by U' = u_conflicted_by U.
Proof. intros E. injection E. auto 10. Qed.

(** The jobs that go with the units in [l]. *)
Definition all_gone (m m2 : Manager) (l : list nat) : Prop :=
  ∀ i j, objects m !! i = Some j → j_installed j = true → starts_or_verifies (j_type j) = true →
    j_unit j ∈ l → objects m2 !! i = None.

Lemma all_gone_shrinks m m1 m2 l : shrinks m1 m2 → all_gone m m1 l → all_gone m m2 l.
Proof. intros S G i j E I T Hi. apply (shrinks_gone m1); [done|]. by apply (G i j). Qed.

Lemma all_gone_app m m2 l1 l2 : all_gone m m2 l1 → all_gone m m2 l2 → all_gone m m2 (l1 ++ l2).
Proof. intros G1 G2 i j E I T [Hi|Hi]%elem_of_app; [by apply (G1 i j)|by apply (G2 i j)]. Qed.

(** The loops over dependencies at the end of a failed job. *)
Lemma failing_removes fin P m m1 m2 u U t : consistent m → units m !! u = Some U → shrinks m m1 →
  (∀ r j m1 m2, shrinks m m1 → objects m1 !! r = Some j → j_installed j = true →
     starts_or_verifies (j_type j) = true → j_unit j ∈ failing_deps t U → fin r m1 = Ret m2 →
     removes P m m1 m2 ∧ objects m2 !! r = None) →
  (if starts_or_verifies t then
     m ← with_deps u u_required_by (fail_dependencies fin) m1;
     m ← with_deps u u_requisite_of (fail_dependencies fin) m;
     with_deps u u_bound_by (fail_dependencies fin) m
   else if bool_decide (t = JOB_STOP) then with_deps u u_conflicted_by (fail_dependencies fin) m1
   else Ret m1) = Ret m2 →
  removes P m m1 m2 ∧ all_gone m m2 (failing_deps t U).
Proof.
  intros C EU S Hfin.
  assert (∀ deps mX mY, (∀ U', deps_of U' = deps_of U → deps U' = deps U) → deps U ⊆ failing_deps t U →
    shrinks m mX → with_deps u deps (fail_dependencies fin) mX = Ret mY →
    removes P m mX mY ∧ all_gone m mY (deps U)) as Hloop.
  { intros deps mX mY Hd Hsub SX E. unfold with_deps in E. destruct (s_unit _ _ SX u U EU) as (U' & EU' & D').
    rewrite EU' in E. cbn [lift mbind outcome_bind] in E. rewrite (Hd U' D') in E.
    by apply (fail_loop_removes fin P m (failing_deps t U) C Hfin). }
  rewrite !failing_deps_eq in *. destruct (starts_or_verifies t).
  - intros E. destruct (with_deps u u_required_by _ m1) as [ma| |] eqn:Ea; [|done..]. cbn in E.
    destruct (Hloop u_required_by m1 ma) as [Ra Ga]; [intros U' D'; by apply deps_of_eq|set_solver|done..|].
    assert (shrinks m ma) as Sa by (apply (shrinks_trans m m1); [done|apply Ra]).
    destruct (with_deps u u_requisite_of _ ma) as [mb| |] eqn:Eb; [|done..]. cbn in E.
    destruct (Hloop u_requisite_of ma mb) as [Rb Gb]; [intros U' D'; by apply deps_of_eq|set_solver|done..|].
    assert (shrinks m mb) as Sb by (apply (shrinks_trans m ma); [done|apply Rb]).
    destruct (Hloop u_bound_by mb m2) as [Rc Gc]; [intros U' D'; by apply deps_of_eq|set_solver|done..|].
    split; [by apply (removes_trans _ _ _ ma), (removes_trans _ _ _ mb)|].
    apply all_gone_app; [|apply all_gone_app; [|done]].
    + apply (all_gone_shrinks _ mb); [apply Rc|]. apply (all_gone_shrinks _ ma); [apply Rb|done].
    + apply (all_gone_shrinks _ mb); [apply Rc|done].
  - case_bool_decide.
    + apply (Hloop u_conflicted_by); [intros U' D'; by apply deps_of_eq|set_solver|done].
    + intros [= <-]. split; [apply removes_refl, S|]. intros i j _ _ _ Hi. by apply not_elem_of_nil in Hi.
Qed.

(** A job that is not restarted is gone before anything else happens. *)
Lemma finish_unfold fuel r j result recursive m : consistent m → objects m !! r = Some j → j_installed j = true →
  ¬ (result = JOB_DONE ∧ j_type j = JOB_RESTART) →
  ∃ m', job_finish_and_invalidate (S fuel) r result recursive m =
    (m ← finish_effects (fail_dependencies (λ r m, job_finish_and_invalidate fuel r JOB_DEPENDENCY true m))
           (j_unit j) (j_type j) result recursive m'; wake_neighbours (j_unit j) m) ∧
    shrinks m m' ∧ objects m' = delete r (objects m) ∧
    (∃ U, units m !! j_unit j = Some U ∧ units m' = <[j_unit j := put_slot (j_type j) None U]> (units m)).
Proof.
  intros C E I Hr. destruct (c_installed m C r j E I) as (T & _ & _).
  cbn [job_finish_and_invalidate]. rewrite E. cbn [lift mbind outcome_bind]. rewrite I, T.
  cbn [assert_ andb lift mbind outcome_bind].
  assert (bool_decide (result = JOB_DONE) && bool_decide (j_type j = JOB_RESTART) = false) as ->.
  { apply not_true_is_false. rewrite andb_true_iff, !bool_decide_eq_true. done. }
  assert (keeps m (modify_job r (set_result result) m)) as K by (by apply (modify_keeps m r _ j)).
  set (m1 := if _ || _ then _ else _).
  assert (consistent m1 ∧ objects m1 = alter (set_result result) r (objects m) ∧ units m1 = units m) as (C1 & Eo & Eu).
  { unfold m1. case_match; (split_and!; [|done..]); [|apply K].
    exact (consistent_counts (modify_job r (set_result result) m) _ _ (k_consistent _ _ K)). }
  assert (objects m1 !! r = Some (set_result result j)) as E1 by (by rewrite Eo, lookup_alter_eq, E).
  destruct (uninstall_free_ok m1 r _ C1 E1 I) as (m2 & m' & -> & E2 & C' & F' & _ & Eo' & U & EU & Eu').
  cbn [lift mbind outcome_bind]. rewrite E2. cbn [lift mbind outcome_bind]. cbn in EU, Eu'.
  rewrite Eu in EU, Eu'. rewrite Eo, delete_alter in Eo'.
  exists m'. split_and!; [done| |done|by exists U]. split; [done|..].
  - intros i j' E'. rewrite Eo', lookup_delete in E'. case_decide; [done|]. exists j'. by split_and!.
  - intros v V EV. rewrite <- Eu in EV. by apply F'.
Qed.

Lemma finish_removes fuel P m : inert → consistent m → (∀ i i', P i → drags m i i' → P i') →
  ∀ r j result m1 m2, result ≠ JOB_DONE → shrinks m m1 → objects m1 !! r = Some j → j_installed j = true → P r →
  job_finish_and_invalidate fuel r result true m1 = Ret m2 →
  removes P m m1 m2 ∧ objects m2 !! r = None.
Proof.
  intros Hin C HP. induction fuel as [|fuel IH]; intros r j result m1 m2 Hres S E I Pr Ef; [done|].
  destruct (finish_unfold fuel r j result true m1 (s_consistent _ _ S) E I) as (m' & Eq & S' & Eo' & _); [by intros [? _]|].
  rewrite Eq in Ef. clear Eq. destruct (s_job _ _ S r j E) as (j0 & E0 & Qj).
  destruct Qj as ((_ & Hu & Hi & _) & Ht & _). rewrite Hi in I. 
  destruct (c_installed m C r j0 E0 I) as (_ & _ & U & EU & _). rewrite Hu, Ht in Ef. clear Hu Hi Ht.
  assert (shrinks m m') as Sm' by (by apply (shrinks_trans m m1)).
  unfold finish_effects in Ef. rewrite (bool_decide_false (result = JOB_DONE)) in Ef by done. cbn [negb andb] in Ef.
  match type of Ef with (?o ≫= _) ≫= _ = _ => destruct o as [m3| |] eqn:E3 end; [|done..].
  apply (failing_removes _ P m m' m3 (j_unit j0) U) in E3 as [R3 G3]; [|done..|].
  - assert (shrinks m m3) as S3 by (apply (shrinks_trans m m'); [done|apply R3]).
    destruct (s_unit _ _ S3 (j_unit j0) U EU) as (U3 & EU3 & _).
    cbn [lift mbind outcome_bind] in Ef. rewrite EU3 in Ef. cbn [lift mbind outcome_bind] in Ef.
    assert ((if bool_decide (result = JOB_TIMEOUT) || bool_decide (result = JOB_DEPENDENCY)
             then unit_start_on_failure (j_unit j0) m3 else m3) = m3) as Hof
      by (case_match; [by apply inert_reactions|done]).
    rewrite Hof, (proj2 (inert_reactions (j_unit j0) m3 Hin)) in Ef.
    destruct (wake_neighbours_ok m3 (j_unit j0) U3 (s_consistent _ _ S3) EU3) as (m4 & Ew & Q4 & _).
    rewrite Ew in Ef. injection Ef as <-.
    assert (removes P m m' m4) as R by (by apply (removes_trans _ _ _ m3), queues_removes).
    assert (objects m4 !! r = None) as Hr.
    { apply (shrinks_gone m'); [apply R|]. by rewrite Eo', lookup_delete_eq. }
    assert (∀ i, is_Some (objects m1 !! i) → i = r ∨ is_Some (objects m' !! i)) as Hi.
    { intros i Ei. destruct (decide (i = r)); [by left|]. right. by rewrite Eo', lookup_delete_ne. }
    split; [|done]. split; [apply (shrinks_trans m1 m'); [done|apply R]|..].
    + intros i Ei Ei'. destruct (Hi i Ei) as [->|Ei2]; [done|]. by apply (r_only _ _ _ _ R).
    + intros i i' Ei Ei' D. destruct (Hi i Ei) as [->|Ei2]; [|by apply (r_closed _ _ _ _ R i)].
      destruct D as (j1 & j' & U' & E1 & Ej' & EU' & Hd & Tj'%fails_spec & Ij'). rewrite E0 in E1. injection E1 as <-.
      rewrite EU in EU'. injection EU' as <-.
      apply (all_gone_shrinks m m3 m4 (failing_deps (j_type j0) U) (queues_shrinks _ _ Q4) G3 i' j'); done.
  - intros r' j' mX mY SX EX IX TX UX Ef'. apply (IH r' j' JOB_DEPENDENCY mX mY); try done.
    apply (HP r); [done|]. destruct (s_job _ _ SX r' j' EX) as (j1 & E1 & (_ & Hu1 & Hi1 & _) & Ht1 & _).
    exists j0, j1, U. rewrite <- Hu1, <- Ht1, <- Hi1, <- fails_spec. done.
Qed.

(** The jobs that fail with the one at [r]. *)
Definition dragged (m : Manager) (r i : nat) : Prop := rtc (drags m) r i.

(** C27. A job that ends with a failure takes exactly the jobs with it that need
    it, directly or through others: the start and verify-active jobs of the units
    that require a unit that is not started, or that conflict with one that is
    not stopped. All other jobs stay as they are but for their queues, and as
    many steps as there are installed jobs are enough. This is for a consistent
    manager in which the units that the failed ones have for [OnFailure=] or are
    triggered by leave the jobs alone ([inert]), as when there are none. *)
Theorem job_failure_exact `{!LawfulEnv} fuel m r j result :
  inert → consistent m → objects m !! r = Some j → j_installed j = true → result ≠ JOB_DONE →
  n_installed m ≤ Z.of_nat fuel →
  ∃ m', job_finish_and_invalidate fuel r result true m = Ret m' ∧ consistent m' ∧
    ∀ i ji, objects m !! i = Some ji →
      (objects m' !! i = None ↔ dragged m r i) ∧ (∀ ji', objects m' !! i = Some ji' → queued ji ji').
Proof.
  intros Hin C E I Hres Hf. pose proof (finish_fine fuel r j result true m C E I) as F.
  destruct (job_finish_and_invalidate fuel r result true m) as [m'| |] eqn:Ef; [|done|specialize (F (inert_calm Hin)); lia].
  destruct F as (C' & _). exists m'. split_and!; [done..|].
  destruct (finish_removes fuel (dragged m r) m Hin C) with (r := r) (j := j) (result := result) (m1 := m) (m2 := m')
    as [[S O Cl] G]; [intros i i' Hi Hd; by apply (rtc_r _ i)|done|by apply shrinks_refl|done|done|constructor|done|].
  intros i ji Ei. split; [split|].
  - intros En. apply O; [by exists ji|done].
  - intros D. clear Ei ji. revert i D. apply rtc_ind_r; [done|]. intros y z _ D Ey.
    apply (Cl y); [|done..]. destruct D as (jy & _ & _ & Ejy & _). by exists jy.
  - intros ji' Ei'. destruct (S.(s_job _ _) i ji' Ei') as (j0 & E0 & Q0). congruence.
Qed.

End Failure.

(** ** Ordering *)

(** The other job must end first: [job_is_runnable] finds it. *)
Definition waits_for (m : Manager) (j o : Job) : Prop := ∃ U, units m !! j_unit j = Some U ∧
  ((j_unit o ∈ u_after U ∧ ∃ d, job_compare j o UNIT_AFTER = Some d ∧ 0 < d) ∨
   (j_unit o ∈ u_before U ∧ ∃ d, job_compare j o UNIT_BEFORE = Some d ∧ 0 < d)).

Definition unblocked (m : Manager) (j : Job) : Prop :=
  ∀ i o, objects m !! i = Some o → j_installed o = true → ¬ waits_for m j o.

(** [job_compare] is what its comment says: jobs of units without order, with
    [ignore_order] or without operation do not wait; when the first unit is to
    come after the second, the second job comes first unless the first job
    stops its unit, which it then does before the second starts or stops; and
    seen from the other unit the answer is the opposite. *)
Theorem job_compare_correct (a b : Job) :
  in_transaction (j_type a) = true → in_transaction (j_type b) = true →
  job_compare a b UNIT_AFTER =
    Some (if decide (j_type a = JOB_NOP ∨ j_type b = JOB_NOP ∨ j_ignore_order a = true ∨ j_ignore_order b = true) then 0
          else if stops_first (j_type a) then -1 else 1) ∧
  job_compare b a UNIT_BEFORE = (λ d, - d) <$> job_compare a b UNIT_AFTER.
Proof.
  intros Ta Tb. unfold job_compare. rewrite Ta, Tb. cbn. destruct (j_ignore_order a), (j_ignore_order b);
    destruct (j_type a); try done; destruct (j_type b); done.
Qed.

Lemma job_compare_correct_witness :
  let j t := mk_job 1 1 t JOB_WAITING JOB_DONE true false false false false false 0 false in
  job_compare (j JOB_START) (j JOB_STOP) UNIT_AFTER = Some 1 ∧
  job_compare (j JOB_STOP) (j JOB_START) UNIT_BEFORE = (λ d, - d) <$> job_compare (j JOB_START) (j JOB_STOP) UNIT_AFTER.
Proof.
  intros j. destruct (job_compare_correct (j JOB_START) (j JOB_STOP)) as [A B]; [done..|].
  split; [|exact B]. rewrite A. done.
Defined.

Lemma compare_cases j o dep d : job_compare j o dep = Some d → d ≠ 0 →
  j_type j ≠ JOB_NOP ∧ j_type o ≠ JOB_NOP ∧ j_ignore_order j = false ∧ j_ignore_order o = false.
Proof.
  unfold job_compare. destruct (in_transaction (j_type j) && in_transaction (j_type o)); [|done]. cbn.
  case_decide as N; [naive_solver|]. destruct (j_ignore_order j), (j_ignore_order o); cbn; naive_solver.
Qed.

Lemma waits_for_nop m j o : waits_for m j o →
  j_type j ≠ JOB_NOP ∧ j_type o ≠ JOB_NOP ∧ j_ignore_order j = false ∧ j_ignore_order o = false.
Proof. intros (U & _ & [(_ & d & E & Hd)|(_ & d & E & Hd)]); eapply compare_cases; [done|lia|done|lia]. Qed.

Lemma scan_spec m j dep stop l : consistent m → in_transaction (j_type j) = true →
  Forall (λ v, is_Some (units m !! v)) l → stop 0 = false →
  scan_jobs m j dep stop l = Some true ↔
  ∀ i o, objects m !! i = Some o → j_installed o = true → j_unit o ∈ l →
    ∀ d, job_compare j o dep = Some d → stop d = false.
Proof.
  intros C T D Hs. induction D as [|v l [V EV] D IH]; cbn.
  { split; [|done]. intros _ i o _ _ Hi. by apply not_elem_of_nil in Hi. }
  rewrite EV. cbn.
  assert (∀ i o, objects m !! i = Some o → j_installed o = true → j_unit o = v → j_type o ≠ JOB_NOP → u_job V = Some i) as HV.
  { intros i o E I U N. destruct (slot_of_job m i o C E I N) as (V' & EV' & S). congruence. }
  destruct (u_job V) as [r|] eqn:S.
  - destruct (installed_slot m v V r C EV S) as (o & Eo & Io & Uo & To). rewrite Eo. cbn.
    assert (is_Some (job_compare j o dep)) as [d Ed].
    { destruct (c_installed m C r o Eo Io) as (To' & _). unfold job_compare. rewrite T, To'. cbn. repeat case_decide; eauto.
      case_match; eauto. }
    rewrite Ed. cbn. destruct (stop d) eqn:Sd.
    + split; [done|]. intros Ha. specialize (Ha r o Eo Io). rewrite Ha in Sd; [done|set_solver|done].
    + rewrite IH. split; [|intros Ha i o' E I Hi; apply (Ha i o' E I); set_solver].
      intros Ha i o' E I [Hv|Hl]%elem_of_cons d' Ed'; [|by apply (Ha i o')].
      destruct (decide (d' = 0)) as [->|Hd]; [done|]. destruct (compare_cases _ _ _ _ Ed' Hd) as (_ & No & _).
      specialize (HV i o' E I Hv No). injection HV as ->. congruence.
  - rewrite IH. split; [|intros Ha i o' E I Hi; apply (Ha i o' E I); set_solver].
    intros Ha i o' E I [Hv|Hl]%elem_of_cons d' Ed'; [|by apply (Ha i o')].
    destruct (decide (d' = 0)) as [->|Hd]; [done|]. destruct (compare_cases _ _ _ _ Ed' Hd) as (_ & No & _).
    by specialize (HV i o' E I Hv No).
Qed.

(** [job_is_runnable] is whether the job waits for none. *)
Lemma runnable_spec m r j : consistent m → objects m !! r = Some j → j_installed j = true →
  job_is_runnable r m = Some true ↔ unblocked m j.
Proof.
  intros C E I. destruct (c_installed m C r j E I) as (T & _ & U & EU & _).
  unfold job_is_runnable. rewrite E. cbn. rewrite I. cbn.
  destruct (j_ignore_order j) eqn:Ig.
  { split; [|done]. intros _ i o _ _ W. destruct (waits_for_nop m j o W) as (? & _ & ? & _). congruence. }
  destruct (decide (j_type j = JOB_NOP)) as [N|N].
  { split; [|done]. intros _ i o _ _ W. destruct (waits_for_nop m j o W) as (? & _ & ? & _). congruence. }
  rewrite EU. cbn.
  assert (Forall (λ v, is_Some (units m !! v)) (u_after U)) as Da by (apply (deps_exist m (j_unit j) U u_after); [done..|set_solver]).
  assert (Forall (λ v, is_Some (units m !! v)) (u_before U)) as Db by (apply (deps_exist m (j_unit j) U u_before); [done..|set_solver]).
  pose proof (scan_spec m j UNIT_AFTER (λ d, 0 <? d) (u_after U) C T Da eq_refl) as Sa.
  pose proof (scan_spec m j UNIT_BEFORE (λ d, 0 <? d) (u_before U) C T Db eq_refl) as Sb.
  destruct (scan_total m j UNIT_AFTER (λ d, 0 <? d) (u_after U) C T Da) as [a Ea]. rewrite Ea in *. cbn.
  assert (unblocked m j ↔
    (∀ i o, objects m !! i = Some o → j_installed o = true → j_unit o ∈ u_after U →
       ∀ d, job_compare j o UNIT_AFTER = Some d → (0 <? d) = false) ∧
    (∀ i o, objects m !! i = Some o → j_installed o = true → j_unit o ∈ u_before U →
       ∀ d, job_compare j o UNIT_BEFORE = Some d → (0 <? d) = false)) as ->.
  { split.
    - intros Hb. split; intros i o Ei Ii Hi d Ed; apply Z.ltb_ge, Z.nlt_ge; intros Hd; apply (Hb i o Ei Ii);
        exists U; (split; [done|]); [left|right]; eauto.
    - intros [Ha Hb] i o Ei Ii (U' & EU' & W). rewrite EU in EU'. injection EU' as <-.
      destruct W as [(Hi & d & Ed & Hd)|(Hi & d & Ed & Hd)];
        [specialize (Ha i o Ei Ii Hi d Ed)|specialize (Hb i o Ei Ii Hi d Ed)]; lia. }
  rewrite <- Sb. destruct a; cbn; [|naive_solver]. rewrite <- Sa. naive_solver.
Qed.

(** ** Waking *)

(** [Before=] is the inverse of [After=], as [unit_add_dependency] makes them. *)
Definition mirrored (m : Manager) : Prop := ∀ u U v V, units m !! u = Some U → units m !! v = Some V →
  v ∈ u_after U ↔ u ∈ u_before V.

(** Every job that waits and could run is in the run queue, but for the
    neighbours of the units in [S], which are to be woken. *)
Definition awake_except (S : list nat) (m : Manager) : Prop := ∀ i j, objects m !! i = Some j →
  j_installed j = true → j_state j = JOB_WAITING → unblocked m j →
  j_in_run_queue j = true ∨
  j_type j ≠ JOB_NOP ∧ ∃ u U, u ∈ S ∧ units m !! u = Some U ∧ j_unit j ∈ u_after U ++ u_before U.

Definition awake : Manager → Prop := awake_except [].

Lemma mirrored_deps m m' : (∀ u U', units m' !! u = Some U' → ∃ U, units m !! u = Some U ∧ deps_of U' = deps_of U) →
  mirrored m → mirrored m'.
Proof.
  intros H M u U' v V' EU EV. destruct (H u U' EU) as (U & EU0 & DU). destruct (H v V' EV) as (V & EV0 & DV).
  destruct (deps_of_eq _ _ DU) as (-> & _). destruct (deps_of_eq _ _ DV) as (_ & -> & _). by apply M.
Qed.

(** Who waits for whom is a matter of units, types and flags. *)
Lemma waits_for_mono m m' j j' o o' : waits_for m j o →
  (∀ u U, units m !! u = Some U → ∃ U', units m' !! u = Some U' ∧ deps_of U' = deps_of U) →
  j_unit j' = j_unit j → j_type j' = j_type j → j_ignore_order j' = j_ignore_order j →
  j_unit o' = j_unit o → j_type o' = j_type o → j_ignore_order o' = j_ignore_order o →
  waits_for m' j' o'.
Proof.
  intros (U & EU & W) HU Uj Tj Ij Uo To Io. destruct (HU _ _ EU) as (U' & EU' & D).
  destruct (deps_of_eq _ _ D) as (Ea & Eb & _). exists U'. rewrite Uj. split; [done|].
  assert (∀ dep, job_compare j' o' dep = job_compare j o dep) as Hc.
  { intros dep. unfold job_compare. by rewrite Tj, Ij, To, Io. }
  rewrite Ea, Eb, Uo, !Hc. done.
Qed.

(** A neighbour in both directions. *)
Lemma waits_for_neighbour m j o V : mirrored m → waits_for m j o → units m !! j_unit o = Some V →
  j_unit j ∈ u_after V ++ u_before V.
Proof.
  intros M (U & EU & [(Hi & _)|(Hi & _)]) EV; apply elem_of_app.
  - right. by apply (M (j_unit j) U (j_unit o) V).
  - left. by apply (M (j_unit o) V (j_unit j) U).
Qed.

Lemma queues_awake S m m' : queues m m' → awake_except S m → awake_except S m'.
Proof.
  intros [K Q] A i j' E' I' W' B'. destruct (k_back _ _ K i) as [j E]; [by eexists|].
  destruct (Q i j E) as (j2 & E2 & Qj). assert (j2 = j') as -> by congruence.
  destruct Qj as ((_ & Hu & Hi & _) & Ht & Hs & Hg & Hr). rewrite Hu, Ht, (k_units _ _ K).
  destruct (A i j E) as [R|R]; [congruence|congruence| |left; by apply Hr|by right].
  intros i' o Eo Io Wo. destruct (Q i' o Eo) as (o' & Eo' & (_ & Hu' & Hi' & _) & Ht' & _ & Hg' & _).
  apply (B' i' o' Eo'); [congruence|]. apply (waits_for_mono m m' j j' o o'); try done.
  intros u U EU. exists U. by rewrite (k_units _ _ K).
Qed.

Lemma queues_mirrored m m' : queues m m' → mirrored m → mirrored m'.
Proof. intros [K _]. apply mirrored_deps. intros u U E. exists U. by rewrite <- (k_units _ _ K). Qed.

(** A change at the job of unit [u] may free the neighbours of [u]. *)
Lemma change_awake S m m' r jr : consistent m → mirrored m → awake_except S m →
  objects m !! r = Some jr → j_installed jr = true →
  (∀ i j', i ≠ r → objects m' !! i = Some j' → ∃ j, objects m !! i = Some j ∧ queued j j') →
  (∀ i j, i ≠ r → objects m !! i = Some j → ∃ j', objects m' !! i = Some j' ∧ queued j j') →
  (∀ j', objects m' !! r = Some j' → j_in_run_queue j' = true) →
  (∀ u U, units m !! u = Some U → ∃ U', units m' !! u = Some U' ∧ deps_of U' = deps_of U) →
  awake_except (j_unit jr :: S) m'.
Proof.
  intros C M A Er Ir Hb Hf Hr HU i j' E' I' W' B. destruct (decide (i = r)) as [->|Hi]; [left; by apply Hr|].
  destruct (Hb i j' Hi E') as (j & E & (_ & Hu & Hin & _) & Ht & Hs & Hg & Hq).
  destruct (c_installed m C r jr Er Ir) as (_ & _ & U & EU & _). destruct (HU _ _ EU) as (U' & EU' & D').
  destruct (deps_of_eq _ _ D') as (Ea & Eb & _). rewrite Hu, Ht.
  destruct (decide (j_unit j ∈ u_after U ++ u_before U ∧ j_type j ≠ JOB_NOP)) as [[N T]|N].
  { right. split; [done|]. exists (j_unit jr), U'. rewrite Ea, Eb. split_and!; [set_solver|done..]. }
  destruct (A i j E) as [R|(T & u & V & Hv & EV & Hj)]; [congruence|congruence| |left; by apply Hq|].
  - intros i' o Eo Io Wo. destruct (decide (i' = r)) as [->|Hi'].
    + assert (o = jr) as -> by congruence. apply N. split; [by apply (waits_for_neighbour m j jr)|].
      by apply (waits_for_nop m j jr).
    + destruct (Hf i' o Hi' Eo) as (o' & Eo' & (_ & Huo & Hio & _) & Hto & _ & Hgo & _).
      apply (B i' o' Eo'); [congruence|]. by apply (waits_for_mono m m' j j' o o').
  - right. split; [done|]. destruct (HU _ _ EV) as (V' & EV' & DV). destruct (deps_of_eq _ _ DV) as (Ea' & Eb' & _).
    exists u, V'. rewrite Ea', Eb'. split_and!; [set_solver|done..].
Qed.

Lemma queued_refl j : queued j j.
Proof. by split_and!. Qed.

Section Wake.
Context `{JobEnv} `{!LawfulEnv}.
Context (Hin : inert) (Hput : put_always).

(** The neighbours of [u] are queued. *)
Lemma wake_awake S m m' u : consistent m → is_Some (units m !! u) → awake_except (u :: S) m →
  wake_neighbours u m = Ret m' → queues m m' ∧ awake_except S m'.
Proof.
  intros C [U EU] A E. destruct (wake_neighbours_ok m u U C EU) as (m1 & E1 & Q & Hq).
  rewrite E1 in E. injection E as <-. split; [done|].
  intros i j Ei I W B. destruct (queues_awake _ _ _ Q A i j Ei I W B) as [R|(T & v & V & Hv & EV & Hj)]; [by left|].
  apply elem_of_cons in Hv as [->|Hv]; [|right; split; [done|]; by exists v, V].
  left. rewrite (k_units _ _ (proj1 Q)), EU in EV. injection EV as <-.
  destruct (slot_of_job m1 i j (k_consistent _ _ (proj1 Q)) Ei I T) as (V & EV & SV).
  destruct (Hq Hput (j_unit j) V i Hj EV SV) as (j' & E' & R). congruence.
Qed.

(** What a loop over jobs keeps when its step does. *)
Lemma for_jobs_inv (Q : Manager → Prop) f : (∀ m, Q m → consistent m) →
  (∀ r j m m', Q m → objects m !! r = Some j → j_installed j = true → f r j m = Ret m' → Q m') →
  ∀ l m m', Q m → for_jobs f l m = Ret m' → Q m'.
Proof.
  intros HC Hf. induction l as [|v l IH]; intros m m' HQ E; cbn in E; [by injection E as <-|].
  destruct (units m !! v) as [V|] eqn:EV; [|done]. cbn in E.
  match type of E with context [?o ≫= _] => destruct o as [m1| |] eqn:E1 end; [|done..]. cbn in E.
  apply (IH m1); [|done]. destruct (u_job V) as [r|] eqn:S; [|by injection E1 as <-].
  destruct (installed_slot m v V r (HC m HQ) EV S) as (j & Ej & Ij & _). rewrite Ej in E1. by apply (Hf r j m).
Qed.

(** The same for what a finished job does to others. *)
Lemma finish_effects_inv (Q : Manager → Prop) fin u t result recursive m m' : (∀ m, Q m → consistent m) →
  (∀ r j m m', Q m → objects m !! r = Some j → j_installed j = true → fin r m = Ret m' → Q m') →
  Q m → finish_effects (fail_dependencies fin) u t result recursive m = Ret m' → Q m'.
Proof.
  intros HC Hf HQ.
  assert (∀ deps m m', Q m → with_deps u deps (fail_dependencies fin) m = Ret m' → Q m') as Hd.
  { intros deps m1 m2 H1 E. unfold with_deps in E. destruct (units m1 !! u); [|done]. cbn in E.
    eapply for_jobs_inv; [exact HC| |exact H1|exact E]. cbn. intros r j m3 m4 H3 E3 I3 E4.
    case_match; [by apply (Hf r j m3)|by injection E4 as <-]. }
  unfold finish_effects. intros E.
  match type of E with ?o ≫= _ = _ => destruct o as [m1| |] eqn:E1 end; [|done..]. cbn [mbind outcome_bind] in E.
  assert (Q m1) as H1.
  { clear E. case_match; [|by injection E1 as <-]. case_match; [|case_match; [by apply (Hd _ _ _ HQ E1)|by injection E1 as <-]].
    destruct (with_deps u u_required_by _ m) as [ma| |] eqn:Ea; [|done..]. cbn in E1.
    destruct (with_deps u u_requisite_of _ ma) as [mb| |] eqn:Eb; [|done..]. cbn in E1. eauto. }
  destruct (units m1 !! u); [|done]. cbn [lift mbind outcome_bind] in E.
  match type of E with ?o ≫= _ = _ => destruct o as [m2| |] eqn:E2 end; [|done..]. cbn [mbind outcome_bind] in E.
  assert (Q m2) as H2 by (clear E E1; case_match; [by apply (Hd _ _ _ H1 E2)|by injection E2 as <-]).
  injection E as <-. clear E1 E2. rewrite (proj2 (inert_reactions u _ Hin)).
  case_match; [|done]. by rewrite (proj1 (inert_reactions u m2 Hin)).
Qed.

(** Consistent, mirrored and awake but for some neighbours. *)
Definition orderly (S : list nat) (m : Manager) : Prop := consistent m ∧ mirrored m ∧ awake_except S m.

Lemma wake_orderly S m m' u : orderly (u :: S) m → is_Some (units m !! u) → wake_neighbours u m = Ret m' → orderly S m'.
Proof.
  intros (C & M & A) U E. destruct (wake_awake S m m' u C U A E) as [Q A'].
  split_and!; [apply Q|by apply (queues_mirrored m)|done].
Qed.

(** The job is there and will run again: a restart that has stopped the unit. *)
Lemma restart_orderly S m m' r j : orderly S m → objects m !! r = Some j → j_installed j = true →
  j_type j = JOB_RESTART →
  (m ←! job_set_state r JOB_WAITING (modify_job r (set_type JOB_START) (modify_job r (set_result JOB_DONE) m));
   m ←! job_add_to_dbus_queue r m; m ←! job_add_to_run_queue r m; lift (job_add_to_gc_queue r m)) = Ret m' →
  orderly (j_unit j :: S) m' ∧ units m' = units m.
Proof.
  intros (C & M & A) E I T Em.
  assert (keeps m (modify_job r (set_result JOB_DONE) m)) as Ka by (by apply (modify_keeps m r _ j)).
  set (ma := modify_job r (set_result JOB_DONE) m) in *.
  assert (objects ma !! r = Some (set_result JOB_DONE j)) as Ea by (by apply modify_lookup_eq).
  assert (keeps ma (modify_job r (set_type JOB_START) ma)) as Kb.
  { apply (modify_keeps ma r _ (set_result JOB_DONE j)); try done; [apply Ka|]. split_and!; cbn; rewrite ?T; done. }
  set (mb := modify_job r (set_type JOB_START) ma) in *.
  assert (objects mb !! r = Some (set_type JOB_START (set_result JOB_DONE j))) as Eb
    by (by apply (modify_lookup_eq r (set_type JOB_START) ma)).
  destruct (set_state_keeps _ r _ JOB_WAITING (k_consistent _ _ Kb) Eb I) as (m1 & E1 & K1 & n & Em1).
  rewrite E1 in Em. cbn [lift mbind outcome_bind] in Em.
  destruct (k_job _ _ K1 r _ Eb) as (j1 & Ej1 & _ & _ & I1 & _). cbn in I1. rewrite I in I1.
  destruct (add_to_dbus_queue_ok m1 r j1) as (m2 & E2 & Q2); [apply K1|done..|]. rewrite E2 in Em. cbn [lift mbind outcome_bind] in Em.
  destruct (k_job _ _ (proj1 Q2) r j1 Ej1) as (j2 & Ej2 & _ & _ & I2 & _). rewrite I1 in I2.
  destruct (add_to_run_queue_ok m2 r j2) as (m3 & E3 & Q3 & R3); [apply Q2|done..|]. rewrite E3 in Em. cbn [lift mbind outcome_bind] in Em.
  destruct (k_job _ _ (proj1 Q3) r j2 Ej2) as (j3 & Ej3 & _ & _ & I3 & _). rewrite I2 in I3.
  destruct (add_to_gc_queue_ok m3 r j3) as (m4 & E4 & Q4); [apply Q3|done..|]. rewrite E4 in Em. injection Em as <-.
  assert (queues m1 m4) as Q by (eauto using queues_trans).
  assert (∀ i, i ≠ r → objects m1 !! i = objects m !! i) as Hsame.
  { intros i Hi. rewrite Em1. cbn. by rewrite !lookup_alter_ne. }
  assert (units m4 = units m) as Hu by (by rewrite (k_units _ _ (proj1 Q)), (k_units _ _ K1)).
  split; [|done]. split_and!; [apply Q4|by unfold mirrored in *; rewrite Hu|].
  apply (change_awake S m m4 r j); try done.
  - intros i j' Hi E'. destruct (s_job _ _ (queues_shrinks _ _ Q) i j' E') as (j0 & E0 & Q0).
    exists j0. by rewrite <- Hsame.
  - intros i j0 Hi E0. rewrite <- Hsame in E0 by done. by apply Q.
  - intros j' E'. destruct (R3 (Hput m2)) as (j3' & E3' & R'). destruct (proj2 Q4 r j3' E3') as (j4 & E4' & Q').
    assert (j4 = j') as <- by congruence. by apply Q'.
  - intros u U EU. exists U. by rewrite Hu.
Qed.

Lemma finish_orderly fuel : ∀ S r j result recursive m m', orderly S m → objects m !! r = Some j →
  j_installed j = true → job_finish_and_invalidate fuel r result recursive m = Ret m' → orderly S m'.
Proof.
  induction fuel as [|fuel IH]; intros S r j result recursive m m' HO E I Ef; [done|].
  destruct HO as (C & M & A). destruct (c_installed m C r j E I) as (T & _ & U & EU & _).
  destruct (decide (result = JOB_DONE ∧ j_type j = JOB_RESTART)) as [[-> Tr]|Hr].
  - cbn [job_finish_and_invalidate] in Ef. rewrite E in Ef. cbn [lift mbind outcome_bind] in Ef.
    rewrite I, T, !bool_decide_true in Ef by done. cbn [assert_ andb lift mbind outcome_bind] in Ef.
    match type of Ef with ?o ≫= _ = _ => destruct o as [m1| |] eqn:E1 end; [|done..].
    destruct (restart_orderly S m m1 r j (conj C (conj M A)) E I Tr E1) as [O1 U1].
    apply (wake_orderly S m1 m' (j_unit j)); [done|by rewrite U1; eexists|done].
  - destruct (finish_unfold fuel r j result recursive m C E I Hr) as (m0 & -> & S0 & Eo & U0 & EU0 & Eu0) in Ef.
    assert (orderly (j_unit j :: S) m0) as O0.
    { split_and!; [apply S0|..].
      - apply (mirrored_deps m); [|done]. intros v V EV. rewrite Eu0, lookup_insert in EV.
        case_decide as Ev; [|by exists V]. injection EV as <-. subst v. exists U0. by rewrite put_slot_deps.
      - apply (change_awake S m m0 r j); try done.
        + intros i j' Hi E'. rewrite Eo, lookup_delete_ne in E' by done. exists j'. by split; [|apply queued_refl].
        + intros i j' Hi E'. exists j'. rewrite Eo, lookup_delete_ne by done. by split; [|apply queued_refl].
        + intros j' E'. by rewrite Eo, lookup_delete_eq in E'.
        + apply S0. }
    match type of Ef with ?o ≫= _ = _ => destruct o as [m1| |] eqn:E1 end; [|done..]. cbn in Ef.
    assert (orderly (j_unit j :: S) m1 ∧ is_Some (units m1 !! j_unit j)) as [O1 U1].
    { apply (finish_effects_inv (λ m, orderly (j_unit j :: S) m ∧ is_Some (units m !! j_unit j))) in E1;
        [done|by intros ? [[] _]| |].
      - intros r' j' ma mb [Oa Ua] Ea Ia Eb. split; [by apply (IH _ r' j' JOB_DEPENDENCY true ma)|].
        pose proof (finish_fine fuel r' j' JOB_DEPENDENCY true ma (proj1 Oa) Ea Ia) as F. rewrite Eb in F.
        by apply (frame_unit ma); [apply F|].
      - split; [done|]. rewrite Eu0, lookup_insert_eq. by eexists. }
    by apply (wake_orderly S m1 m' (j_unit j)).
Qed.

End Wake.

(** The jobs can be ordered such that each waits only for earlier ones. *)
Definition no_circle (m : Manager) : Prop := ∃ rank : nat → nat, ∀ r j i o, objects m !! r = Some j →
  objects m !! i = Some o → j_installed j = true → j_installed o = true → waits_for m j o → (rank i < rank r)%nat.

(** Jobs without a circle that are awake do not wait for each other for good. *)
Lemma awake_progress m : consistent m → awake m → no_circle m → 0 < n_installed m →
  0 < n_running_jobs m ∨ ∃ r, r ∈ run_queue m ∧ job_is_runnable r m = Some true.
Proof.
  intros C A [rank Hrank] Hn. destruct (decide (0 < n_running_jobs m)) as [?|Hz]; [by left|right].
  assert (∀ r j, objects m !! r = Some j → j_installed j = true → j_state j = JOB_WAITING) as Hwait.
  { intros r j E I. destruct (j_state j) eqn:Es; [done|]. exfalso. apply Hz. rewrite (c_running m C).
    apply (count_pos _ _ r j E). unfold is_running. by rewrite I, Es. }
  apply Exists_exists, dec_stable. intros Hno. rewrite Exists_exists in Hno.
  assert (∀ n r j, (rank r < n)%nat → objects m !! r = Some j → j_installed j = true → False) as Hfalse.
  { induction n as [|n IH]; intros r j Hlt E I; [lia|].
    assert (unblocked m j) as B.
    { intros i o Eo Io W. specialize (Hrank r j i o E Eo I Io W). apply (IH i o); [lia|done..]. }
    apply Hno. exists r. split; [|by apply (runnable_spec m r j C E I)].
    destruct (A r j E I (Hwait r j E I) B) as [R|(_ & u & U & Hu & _)]; [|by apply not_elem_of_nil in Hu].
    apply (proj2 (c_run_queue m C)). by exists j. }
  destruct (count_pos_inv _ _ Hn) as (r & j & E & I). by apply (Hfalse (S (rank r)) r j); [lia|..].
Qed.

(** C28. No wake-up is lost when a job ends: if every waiting job that could run
    is in the run queue before [job_finish_and_invalidate] ([awake]), it is so
    after it, whatever the result and with all the jobs that fail with it, and
    for a restart that goes on with its start; the call returns when the fuel is
    the number of installed jobs. So when the jobs that are left can be ordered,
    one of them is running or the queue holds one that can run. This is for a
    consistent manager in which [Before=] mirrors [After=], there is always
    memory for the run queue ([put_always]), and the units that the job's unit
    has for [OnFailure=] or is triggered by leave the jobs alone ([inert]). *)
Theorem job_finish_wakes `{JobEnv} `{!LawfulEnv} fuel r j result recursive m : inert → put_always →
  consistent m → mirrored m → awake m →
  objects m !! r = Some j → j_installed j = true → n_installed m ≤ Z.of_nat fuel →
  ∃ m', job_finish_and_invalidate fuel r result recursive m = Ret m' ∧ consistent m' ∧ mirrored m' ∧ awake m' ∧
    (∀ i ji, objects m' !! i = Some ji → j_installed ji = true → j_state ji = JOB_WAITING →
       job_is_runnable i m' = Some true → i ∈ run_queue m') ∧
    (no_circle m' → 0 < n_installed m' →
       0 < n_running_jobs m' ∨ ∃ i, i ∈ run_queue m' ∧ job_is_runnable i m' = Some true).
Proof.
  intros Hin Hput C M A E I Hf. pose proof (finish_fine fuel r j result recursive m C E I) as F.
  destruct (job_finish_and_invalidate fuel r result recursive m) as [m'| |] eqn:Ef;
    [|done|specialize (F (inert_calm Hin)); lia].
  destruct (finish_orderly Hin Hput fuel [] r j result recursive m m') as (C' & M' & A'); [done..|].
  exists m'. split_and!; [done..| |by apply awake_progress]. intros i ji Ei Ii Wi Hr.
  apply (runnable_spec m' i ji C' Ei Ii) in Hr.
  destruct (A' i ji Ei Ii Wi Hr) as [R|(_ & u & U & Hu & _)]; [|by apply not_elem_of_nil in Hu].
  apply (proj2 (c_run_queue m' C')). by exists ji.
Qed.

(** ** The invariant *)

(** C26. The manager stays consistent, for every environment that keeps it so
    ([LawfulEnv]): no assertion of [job_finish_and_invalidate], of
    [job_run_and_invalidate] or of the dispatch loop fails and no freed job is
    used, whatever jobs the operations of units, the requests for [OnFailure=]
    units and the reactions of triggering units add and remove themselves. When
    these install no job ([calm], [calm_units]) the recursion over dependent jobs
    ends after as many levels as there are installed jobs; nothing is said of its
    end when they do. *)
Theorem job_engine_invariant `{JobEnv} `{!LawfulEnv} fuel m : consistent m →
  (∀ r j result recursive, objects m !! r = Some j → j_installed j = true →
    match job_finish_and_invalidate fuel r result recursive m with
    | Ret m' => consistent m' ∧ frame m m'
    | Crash => False
    | OutOfFuel => calm → Z.of_nat fuel < n_installed m
    end) ∧
  (∀ n, match manager_dispatch_run_queue n fuel m with
        | Ret (_, m') => consistent m' ∧ frame m m'
        | Crash => False
        | OutOfFuel => calm_units → Z.of_nat fuel < n_installed m
        end).
Proof.
  intros C. split.
  - intros r j result recursive E I. pose proof (finish_fine fuel r j result recursive m C E I) as F.
    case_match; [by destruct F as (? & ? & _)|done..].
  - intros n. pose proof (dispatch_fine n fuel m C) as F.
    case_match; [|done..]. case_match. by destruct F as (? & ? & _).
Qed.

(** ** Examples *)

Lemma awake_check m : consistent m →
  map_Forall (λ i j, j_installed j = true → j_state j = JOB_WAITING → job_is_runnable i m = Some true →
                j_in_run_queue j = true) (objects m) → awake m.
Proof.
  intros C F i j E I W B. left. apply (F i j E I W). by apply (runnable_spec m i j C E I).
Qed.

(** [waits_for] as a test. *)
Definition waits_check (m : Manager) (j o : Job) : bool :=
  let later dep := match job_compare j o dep with Some d => 0 <? d | None => false end in
  match units m !! j_unit j with
  | None => false
  | Some U => bool_decide (j_unit o ∈ u_after U) && later UNIT_AFTER ||
              bool_decide (j_unit o ∈ u_before U) && later UNIT_BEFORE
  end.

Lemma waits_for_check m j o : waits_for m j o → waits_check m j o = true.
Proof.
  intros (U & EU & [(Hi & d & Ed & Hd)|(Hi & d & Ed & Hd)]); unfold waits_check; rewrite EU, Ed.
  - rewrite bool_decide_true, (proj2 (Z.ltb_lt 0 d)) by done. done.
  - rewrite orb_true_iff. right. by rewrite bool_decide_true, (proj2 (Z.ltb_lt 0 d)) by done.
Qed.

(** Units whose operations return [res] and that do not react. *)
Definition idle_units (res : Z) : JobEnv := {|
  unit_start _ m := (res, m); unit_stop _ m := (res, m); unit_reload _ m := (res, m);
  u_on_failure _ := []; u_triggered_by _ := []; add_failure_job _ _ m := m; trigger_notify _ _ m := m;
  prioq_put_ok _ := true; prioq_peek m := head (run_queue m) |}.

Lemma benign_id : benign (λ m, m).
Proof. by intros m C. Qed.

Lemma idle_lawful res : @LawfulEnv (idle_units res).
Proof.
  split; try (intros u; exact benign_id); try (intros u v _; exact benign_id); cbn; intros m;
    destruct (run_queue m) as [|r q]; try done. intros r' [= <-]. set_solver.
Qed.

Lemma idle_inert res : @inert (idle_units res).
Proof. by apply unreactive_inert. Qed.

(** Units 1, 2 and 3 start one after the other, each requires the one before it;
    unit 4 is on its own; all have a job, at the address of the unit's number. *)
Definition sample : Manager :=
  let job id t queued := mk_job (Z.of_nat id) id t JOB_WAITING JOB_DONE true queued false false false false 0 false in
  let unit u after before needed := mk_unit (Some u) None UNIT_INACTIVE false after before needed [] [] [] in
  mk_manager
    (list_to_map [(1, job 1 JOB_START true); (2, job 2 JOB_START false); (3, job 3 JOB_VERIFY_ACTIVE false);
                  (4, job 4 JOB_START true)]%nat)
    (list_to_map [(1, 1%nat); (2, 2%nat); (3, 3%nat); (4, 4%nat)])
    (list_to_map [(1, unit 1 [] [2] [2]); (2, unit 2 [1] [3] [3]); (3, unit 3 [2] [] []);
                  (4, unit 4 [] [] [])]%nat)
    [1; 4]%nat [] [] 0 4 0 5 false.

Lemma sample_consistent : consistent sample.
Proof. apply checked_consistent, (bool_decide_unpack _). by vm_compute. Qed.

Lemma job_engine_invariant_witness :
  @manager_dispatch_run_queue (idle_units (- EALREADY)) 4 4 sample ≠ Crash.
Proof.
  intros E. destruct (@job_engine_invariant (idle_units (- EALREADY)) (idle_lawful _) 4 sample sample_consistent)
    as [_ D]. specialize (D 4%nat). by rewrite E in D.
Defined.

(** The failure of the first job takes the second and third along. *)
Lemma job_failure_exact_witness : ∃ m',
  @job_finish_and_invalidate (idle_units 0) 4 1 JOB_FAILED true sample = Ret m' ∧
  objects m' !! 3%nat = None ∧ is_Some (objects m' !! 4%nat).
Proof.
  destruct (@job_failure_exact (idle_units 0) (idle_lawful 0) 4 sample 1
    (mk_job 1 1 JOB_START JOB_WAITING JOB_DONE true true false false false false 0 false) JOB_FAILED) as (m' & E & _ & H);
    [apply idle_inert|apply sample_consistent|by vm_compute..|].
  exists m'. split; [done|]. vm_compute in E. injection E as <-. split; [by vm_compute|by eexists].
Defined.

Lemma job_finish_wakes_witness : ∃ m',
  @job_finish_and_invalidate (idle_units 0) 4 1 JOB_DONE true sample = Ret m' ∧ 2%nat ∈ run_queue m' ∧
  ∃ i, i ∈ run_queue m' ∧ job_is_runnable i m' = Some true.
Proof.
  destruct (@job_finish_wakes (idle_units 0) (idle_lawful 0) 4 1
    (mk_job 1 1 JOB_START JOB_WAITING JOB_DONE true true false false false false 0 false) JOB_DONE true sample)
    as (m' & E & C' & _ & _ & Hq & Hp); [apply idle_inert|done|apply sample_consistent| | |by vm_compute|done|by vm_compute|].
  - assert (map_Forall (λ u U, map_Forall (λ v V, v ∈ u_after U ↔ u ∈ u_before V) (units sample)) (units sample)) as M.
    { apply (bool_decide_unpack _). by vm_compute. }
    intros u U v V EU EV. exact (M u U EU v V EV).
  - apply awake_check; [apply sample_consistent|]. apply (bool_decide_unpack _). by vm_compute.
  - exists m'. split; [done|]. vm_compute in E. injection E as <-.
    split; [eapply (Hq 2%nat); by vm_compute|].
    destruct Hp as [Hr|Hr]; [|by vm_compute|by vm_compute in Hr|exact Hr].
    exists id. match goal with |- ∀ r j i o, objects ?m !! r = _ → _ =>
      assert (map_Forall (λ r j, map_Forall (λ i o, waits_check m j o = true → (i < r)%nat) (objects m)) (objects m)) as Hw
        by (apply (bool_decide_unpack _); by vm_compute) end.
    intros r j i o Er Eo _ _ W. exact (Hw r j Er i o Eo (waits_for_check _ _ _ W)).
Defined.

(** A stop job for unit 4, in the table but not installed. *)
Definition with_stop (m : Manager) : Manager :=
  with_jobs (<[5 := 5%nat]> (jobs m)) (job_new 5 4 JOB_STOP m).

Lemma job_install_correct_witness : ∃ m',
  @job_install (idle_units 0) 1 5 (with_stop sample) = Ret (5%nat, m') ∧ consistent m'.
Proof.
  destruct (@job_install_correct (idle_units 0) (idle_lawful 0) 0 (with_stop sample) 5
    (mk_job 5 4 JOB_STOP JOB_WAITING JOB_DONE false false false false false false 0 false)
    (mk_unit (Some 4%nat) None UNIT_INACTIVE false [] [] [] [] [] []))
    as (r' & m' & j' & U' & E & C' & _ & _ & _ & H); try by vm_compute.
  - apply checked_consistent, (bool_decide_unpack _). by vm_compute.
  - by intros u v ?%not_elem_of_nil.
  - exists m'. destruct H as (o & Eo & H). vm_compute in Eo. injection Eo as <-. vm_compute in H. by destruct H as [-> _].
Defined.

(** A path unit 7 that starts its service, unit 4, again when a job of the service
    goes: a new start job at address 6. *)
Definition restarting_path : JobEnv := {|
  unit_start _ m := (0, m); unit_stop _ m := (0, m); unit_reload _ m := (0, m);
  u_on_failure _ := []; add_failure_job _ _ m := m;
  u_triggered_by u := if decide (u = 4%nat) then [7%nat] else [];
  trigger_notify _ u m :=
    match @job_install (idle_units 0) 1 6 (with_jobs (<[6 := 6%nat]> (jobs m)) (job_new 6 u JOB_START m)) with
    | Ret (_, m') => m' | _ => m
    end;
  prioq_put_ok _ := true; prioq_peek m := head (run_queue m) |}.

(** The condition on reactions in [job_install_correct] is needed: the reaction
    leaves a consistent manager, but [job_install] then writes its own job over
    the new one in the slot of the unit. The new job stays installed without a
    slot, and finishing it, as its timeout does, fails the assertion of
    [job_uninstall]. *)
Theorem job_install_overwrites :
  checked (with_stop sample) ∧
  (∃ m', checked m' ∧ @job_finish_and_invalidate restarting_path 1 4 JOB_CANCELED false (with_stop sample) = Ret m') ∧
  ∃ m', @job_install restarting_path 1 5 (with_stop sample) = Ret (5%nat, m') ∧ ¬ checked m' ∧
    (j_installed <$> objects m' !! 6%nat) = Some true ∧
    @job_finish_and_invalidate restarting_path 5 6 JOB_TIMEOUT true m' = Crash.
Proof.
  split; [apply (bool_decide_unpack _); by vm_compute|]. split.
  - eexists. split; [|by vm_compute]. apply (bool_decide_unpack _). by vm_compute.
  - eexists. split; [by vm_compute|]. split; [|split; by vm_compute].
    assert (∀ m, bool_decide (checked m) = false → ¬ checked m) as Hn by (intros m; by rewrite bool_decide_eq_false).
    apply Hn. by vm_compute.
Qed.
