(* ===== verification/Transaction.v ===== *)
(** * systemd: transactions

    Models [src/app/multi_process/day1/systemd/src/core/transaction.c], with the
    job links and the test for redundant jobs of [core/job.c] and
    [manager_add_job] of [core/manager.c]: the jobs that one request needs are
    collected as a graph, jobs that are not needed or contradict others are
    dropped, circles in the order are broken, the jobs of each unit are merged,
    and what is left is installed with the functions of [Job].

    The jobs are objects of the manager's store; [infos] holds the fields of a
    job that only transactions use, [links] the [JobDependency] objects. The list
    of the jobs of a unit ([transaction_next]) is the list [tr_jobs] maps the unit
    to, without jobs in no list. [Crash] is a failed assertion or the use of a
    freed object.

    Not modelled: log and bus messages, [unit_coldplug] during a reload, timers,
    the set of affected jobs and the idle pipe. *)

From S2P Require Import Prelude Outcome JobMerge Job.

#[local] Open Scope Z_scope.

Definition EDEADLK : Z := 35.

(** ** Data *)

Record JobDependency := mk_dep {
  d_subject : option nat; d_object : nat; d_matters : bool; d_conflicts : bool }.

Record JobInfo := mk_info {
  subject_list : list nat; object_list : list nat;
  matters_to_anchor : bool; marker : option nat; generation : Z }.

Record Transaction := mk_tr {
  tr_m : Manager; tr_jobs : gmap nat (list nat); anchor_job : option nat; irreversible : bool;
  infos : gmap nat JobInfo; links : gmap nat JobDependency }.

Inductive JobMode :=
  | JOB_FAIL | JOB_REPLACE | JOB_REPLACE_IRREVERSIBLY | JOB_ISOLATE | JOB_FLUSH
  | JOB_IGNORE_DEPENDENCIES | JOB_IGNORE_REQUIREMENTS | JOB_TRIGGERING.

#[export] Instance JobMode_eq_dec : EqDecision JobMode.
Proof. solve_decision. Defined.

(** The fields of a job that no transaction has touched. *)
Definition no_info : JobInfo := mk_info [] [] false None 0.

Definition info (t : Transaction) (j : nat) : JobInfo := default no_info (infos t !! j).

Definition set_m (m : Manager) (t : Transaction) : Transaction :=
  mk_tr m (tr_jobs t) (anchor_job t) (irreversible t) (infos t) (links t).
Definition set_jobs (l : gmap nat (list nat)) (t : Transaction) : Transaction :=
  mk_tr (tr_m t) l (anchor_job t) (irreversible t) (infos t) (links t).
Definition set_anchor (a : option nat) (t : Transaction) : Transaction :=
  mk_tr (tr_m t) (tr_jobs t) a (irreversible t) (infos t) (links t).
Definition set_infos (i : gmap nat JobInfo) (t : Transaction) : Transaction :=
  mk_tr (tr_m t) (tr_jobs t) (anchor_job t) (irreversible t) i (links t).
Definition set_links (l : gmap nat JobDependency) (t : Transaction) : Transaction :=
  mk_tr (tr_m t) (tr_jobs t) (anchor_job t) (irreversible t) (infos t) l.

(** Assignments to the fields of job [j]. *)
Definition modify_info (j : nat) (f : JobInfo → JobInfo) (t : Transaction) : Transaction :=
  set_infos (<[j := f (info t j)]> (infos t)) t.
Definition with_subjects l i := mk_info l (object_list i) (matters_to_anchor i) (marker i) (generation i).
Definition with_object_list l i := mk_info (subject_list i) l (matters_to_anchor i) (marker i) (generation i).
Definition with_matters b i := mk_info (subject_list i) (object_list i) b (marker i) (generation i).
Definition with_marks m g i := mk_info (subject_list i) (object_list i) (matters_to_anchor i) m g.

(** [p->field] of a pointer [p] to a job. *)
Definition get_job (t : Transaction) (j : nat) : outcome Job := lift (objects (tr_m t) !! j).
Definition get_unit (t : Transaction) (u : nat) : outcome Unit := lift (units (tr_m t) !! u).

(** The first job of the unit, [hashmap_get(tr->jobs, u)]. *)
Definition first_job (t : Transaction) (u : nat) : option nat := l ← tr_jobs t !! u; head l.

(** ** Links *)

(** [job_dependency_new] at a free address [l]. *)
Definition job_dependency_new (l : nat) (subject : option nat) (object : nat) (matters conflicts : bool)
    (t : Transaction) : Transaction :=
  let t := set_links (<[l := mk_dep subject object matters conflicts]> (links t)) t in
  let t := match subject with
           | None => t
           | Some s => modify_info s (λ i, with_subjects (l :: subject_list i) i) t
           end in
  modify_info object (λ i, with_object_list (l :: object_list i) i) t.

Definition job_dependency_free (l : nat) (t : Transaction) : option Transaction :=
  d ← links t !! l;
  t ← match d_subject d with
      | None => Some t
      | Some s =>
          _ ← objects (tr_m t) !! s;
          Some (modify_info s (λ i, with_subjects (list_remove l (subject_list i)) i) t)
      end;
  _ ← objects (tr_m t) !! d_object d;
  let t := modify_info (d_object d) (λ i, with_object_list (list_remove l (object_list i)) i) t in
  Some (set_links (delete l (links t)) t).

(** The test of [job_is_redundant] whether a later job needs the state changed. *)
Definition state_matters (type : JobType) (state : UnitActiveState) : option bool :=
  match type with
  | JOB_START => Some (bool_decide (state = UNIT_INACTIVE) || bool_decide (state = UNIT_FAILED))
  | JOB_STOP => Some (bool_decide (state = UNIT_ACTIVE) || bool_decide (state = UNIT_RELOADING))
  | _ => None
  end.

(** The loop returns at the first link to a job not seen before. *)
Fixpoint job_later_link_matters (fuel : nat) (j : nat) (type : JobType) (g : Z) (t : Transaction) :
    outcome (bool * Transaction) :=
  match fuel with
  | O => OutOfFuel
  | S fuel =>
      let t := modify_info j (λ i, with_marks (marker i) g i) t in
      (fix loop (ls : list nat) : outcome (bool * Transaction) :=
         match ls with
         | [] => Ret (false, t)
         | l :: ls =>
             d ←! links t !! l;
             if generation (info t (d_object d)) =? g then loop ls
             else
               o ← get_job t (d_object d);
               u ← get_unit t (j_unit o);
               b ←! state_matters type (u_active_state u);
               if b : bool then Ret (true, t) else job_later_link_matters fuel (d_object d) type g t
         end) (subject_list (info t j))
  end.

Definition active_or_reloading (s : UnitActiveState) : bool :=
  bool_decide (s = UNIT_ACTIVE) || bool_decide (s = UNIT_RELOADING).
Definition inactive_or_failed (s : UnitActiveState) : bool :=
  bool_decide (s = UNIT_INACTIVE) || bool_decide (s = UNIT_FAILED).

Definition job_is_redundant (fuel : nat) (j : nat) (g : Z) (t : Transaction) : outcome (bool * Transaction) :=
  jb ← get_job t j;
  u ← get_unit t (j_unit jb);
  let state := u_active_state u in
  match j_type jb with
  | JOB_START =>
      if active_or_reloading state then
        '(b, t) ← job_later_link_matters fuel j JOB_START g t; Ret (negb b, t)
      else Ret (false, t)
  | JOB_STOP =>
      if inactive_or_failed state then
        '(b, t) ← job_later_link_matters fuel j JOB_STOP g t; Ret (negb b, t)
      else Ret (false, t)
  | JOB_VERIFY_ACTIVE => Ret (active_or_reloading state, t)
  | JOB_RELOAD => Ret (bool_decide (state = UNIT_RELOADING), t)
  | JOB_RESTART => Ret (bool_decide (state = UNIT_ACTIVATING), t)
  | JOB_NOP => Ret (true, t)
  | _ => Crash
  end.

(** ** Deletion *)

(** Takes [j] out of the list of its unit. *)
Definition remove_from_list (u j : nat) (t : Transaction) : Transaction :=
  match tr_jobs t !! u with
  | None => t
  | Some l => set_jobs (match list_remove j l with
                        | [] => delete u (tr_jobs t)
                        | l => <[u := l]> (tr_jobs t)
                        end) t
  end.

(** [while (j->subject_list)]: freeing a link only shortens the list. *)
Fixpoint drop_subjects (ls : list nat) (t : Transaction) : option Transaction :=
  match ls with
  | [] => Some t
  | l :: ls => t ← job_dependency_free l t; drop_subjects ls t
  end.

(** [while (j->object_list)], with the recursive call for the jobs that need [j]. *)
Fixpoint drop_objects (delete_job : nat → Transaction → outcome Transaction) (n : nat) (j : nat)
    (delete_dependencies : bool) (t : Transaction) : outcome Transaction :=
  match n with
  | O => OutOfFuel
  | S n =>
      match object_list (info t j) with
      | [] => Ret t
      | l :: _ =>
          d ←! links t !! l;
          let other := if d_matters d then d_subject d else None in
          t ←! job_dependency_free l t;
          t ← match other with
              | Some o => if delete_dependencies then delete_job o t else Ret t
              | None => Ret t
              end;
          drop_objects delete_job n j delete_dependencies t
      end
  end.

Definition unlink_job (delete_job : nat → Transaction → outcome Transaction) (n : nat) (j : nat)
    (delete_dependencies : bool) (t : Transaction) : outcome Transaction :=
  jb ← get_job t j;
  let t := remove_from_list (j_unit jb) j t in
  t ←! drop_subjects (subject_list (info t j)) t;
  drop_objects delete_job n j delete_dependencies t.

(** [job_free] of a job that is in no list of a transaction. *)
Definition free_job (j : nat) (t : Transaction) : option Transaction :=
  assert bool_decide (subject_list (info t j) = []) && bool_decide (object_list (info t j) = []);
  m ← job_free j (tr_m t);
  Some (set_infos (delete j (infos t)) (set_m m t)).

Fixpoint transaction_delete_job (fuel : nat) (j : nat) (delete_dependencies : bool) (t : Transaction) :
    outcome Transaction :=
  match fuel with
  | O => OutOfFuel
  | S fuel =>
      t ← unlink_job (λ o, transaction_delete_job fuel o delete_dependencies) (S fuel) j delete_dependencies t;
      lift (free_job j t)
  end.

Definition transaction_unlink_job (fuel : nat) (j : nat) (delete_dependencies : bool) :=
  unlink_job (λ o, transaction_delete_job fuel o delete_dependencies) (S fuel) j delete_dependencies.

(** Every deletion frees a link or is the first. *)
Definition enough (t : Transaction) : nat := S (size (links t)).

(** The loops that delete run at most once for each job. *)
Definition n_jobs (t : Transaction) : nat := S (size (objects (tr_m t))).

#[global] Arguments enough : simpl never.
#[global] Arguments n_jobs : simpl never.

Fixpoint delete_unit_loop (n : nat) (u : nat) (t : Transaction) : outcome Transaction :=
  match n with
  | O => OutOfFuel
  | S n =>
      match first_job t u with
      | None => Ret t
      | Some j => t ← transaction_delete_job (enough t) j true t; delete_unit_loop n u t
      end
  end.

Definition transaction_delete_unit (u : nat) (t : Transaction) : outcome Transaction :=
  delete_unit_loop (n_jobs t) u t.

(** ** What the transaction uses of other components

    The order in which a hash map is gone through, memory, the properties of
    units that the job engine does not use, and the checks of a unit. *)

Class TransactionEnv := {
  tr_job_env :: JobEnv;
  keys : gmap nat (list nat) → list nat;
  all_units : Manager → list nat;
  all_jobs : Manager → list nat;
  malloc_job : Transaction → option nat;
  malloc_link : Transaction → option nat;
  hashmap_put_ok : Transaction → bool;
  transaction_alloc_ok : Manager → bool;
  u_requires : nat → list nat; u_binds_to : nat → list nat; u_wants : nat → list nat;
  u_requisite : nat → list nat; u_conflicts : nat → list nat; u_consists_of : nat → list nat;
  u_propagates_reload_to : nat → list nat;
  u_following_set : nat → list nat;
  u_ignore_on_isolate : nat → bool; u_allow_isolate : nat → bool;
  (** [IN_SET(load_state, ...)], [bus_unit_validate_load_state] and
      [unit_job_is_applicable]. *)
  u_load_state_ok : nat → bool;
  bus_unit_validate_load_state : nat → Z;
  unit_job_is_applicable : nat → JobType → bool }.

(** Loops over lists: the first ends at a negative value, the second goes on. *)
Fixpoint until_error {S} (f : nat → S → outcome (Z * S)) (l : list nat) (s : S) : outcome (Z * S) :=
  match l with
  | [] => Ret (0, s)
  | x :: l => '(r, s) ← f x s; if r <? 0 then Ret (r, s) else until_error f l s
  end.

Fixpoint for_all {S} (f : nat → S → outcome S) (l : list nat) (s : S) : outcome S :=
  match l with
  | [] => Ret s
  | x :: l => s ← f x s; for_all f l s
  end.

Section Operations.
Context `{TransactionEnv}.

(** A transaction, if there is memory for it and its hash table. *)
Definition empty_transaction (m : Manager) (irreversible : bool) : Transaction :=
  mk_tr m ∅ None irreversible ∅ ∅.
Definition transaction_new (m : Manager) (irreversible : bool) : option Transaction :=
  if transaction_alloc_ok m then Some (empty_transaction m irreversible) else None.

(** [while ((j = hashmap_first(tr->jobs)))] *)
Fixpoint abort_loop (n : nat) (t : Transaction) : outcome Transaction :=
  match n with
  | O => OutOfFuel
  | S n =>
      match head (keys (tr_jobs t)) with
      | None => Ret t
      | Some u =>
          j ←! first_job t u;
          t ← transaction_delete_job (enough t) j false t; abort_loop n t
      end
  end.

Definition transaction_abort (t : Transaction) : outcome Transaction :=
  t ← abort_loop (n_jobs t) t;
  require bool_decide (tr_jobs t = ∅);
  Ret t.

(** ** Steps *)

(** Marks what the anchor job needs. *)
Fixpoint transaction_find_jobs_that_matter_to_anchor (fuel : nat) (j : nat) (g : Z) (t : Transaction) :
    outcome Transaction :=
  match fuel with
  | O => OutOfFuel
  | S fuel =>
      _ ← get_job t j;
      let t := modify_info j (λ i, with_marks (marker i) g (with_matters true i)) t in
      for_all (λ l t,
        d ←! links t !! l;
        if negb (d_matters d) then Ret t
        else if generation (info t (d_object d)) =? g then Ret t
        else transaction_find_jobs_that_matter_to_anchor fuel (d_object d) g t)
        (subject_list (info t j)) t
  end.

(** [job_type_merge_and_collapse] of [t] with the types of the jobs in a list:
    the type, or the first job that does not fit. *)
Fixpoint merge_types (t : Transaction) (s : UnitActiveState) (type : JobType) (ks : list nat) :
    outcome (JobType + nat) :=
  match ks with
  | [] => Ret (inl type)
  | k :: ks =>
      kb ← get_job t k;
      '(r, type') ←! job_type_merge_and_collapse type (j_type kb) s;
      if 0 <=? r then merge_types t s type' ks else Ret (inr k)
  end.

Definition job_is_conflicted_by (t : Transaction) (j : nat) : outcome bool :=
  (fix loop (ls : list nat) : outcome bool :=
     match ls with
     | [] => Ret false
     | l :: ls => d ←! links t !! l; if d_conflicts d then Ret true else loop ls
     end) (object_list (info t j)).

(** Which of two conflicting jobs to delete. *)
Definition pick_job (t : Transaction) (j k : nat) : outcome (option nat) :=
  jb ← get_job t j;
  kb ← get_job t k;
  let jm := matters_to_anchor (info t j) in
  let km := matters_to_anchor (info t k) in
  if negb jm && negb km then
    if decide (j_type jb = JOB_STOP) then
      c ← job_is_conflicted_by t j; Ret (Some (if c : bool then k else j))
    else if decide (j_type kb = JOB_STOP) then
      c ← job_is_conflicted_by t k; Ret (Some (if c : bool then j else k))
    else Ret (Some j)
  else if negb jm then Ret (Some j)
  else if negb km then Ret (Some k)
  else Ret None.

(** The first job after [j] that does not merge with it. *)
Fixpoint unmergeable_with (t : Transaction) (j : nat) (ks : list nat) : outcome (option nat) :=
  match ks with
  | [] => Ret None
  | k :: ks =>
      jb ← get_job t j;
      kb ← get_job t k;
      b ←! job_type_is_mergeable (j_type jb) (j_type kb);
      if b : bool then unmergeable_with t j ks else Ret (Some k)
  end.

Fixpoint delete_one_unmergeable_job (js : list nat) (t : Transaction) : outcome (Z * Transaction) :=
  match js with
  | [] => Ret (- EINVAL, t)
  | j :: js =>
      k ← unmergeable_with t j js;
      match k with
      | None => delete_one_unmergeable_job js t
      | Some k =>
          d ← pick_job t j k;
          match d with
          | None => Ret (- ENOEXEC, t)
          | Some d => t ← transaction_delete_job (enough t) d true t; Ret (0, t)
          end
      end
  end.

(** The fields that [transaction_merge_and_delete_job] sets. *)
Definition merge_fields (ty : JobType) (other : Job) (j : Job) : Job :=
  set_state JOB_WAITING (set_flags (j_ignore_order j) (j_irreversible j || j_irreversible other) (set_type ty j)).

(** Gives the links of a list a new owner. *)
Definition own_links (f : JobDependency → JobDependency) (ls : list nat) (m : gmap nat JobDependency) :=
  foldr (alter f) m ls.

(** The job [j] takes over the marks and the links of [other]. *)
Definition absorb (j other : nat) (ty : JobType) (ob : Job) (t : Transaction) : Transaction :=
  let oi := info t other in
  let t := set_m (modify_job j (merge_fields ty ob) (tr_m t)) t in
  let t := set_links
    (own_links (λ d, mk_dep (d_subject d) j (d_matters d) (d_conflicts d)) (object_list oi)
      (own_links (λ d, mk_dep (Some j) (d_object d) (d_matters d) (d_conflicts d)) (subject_list oi) (links t))) t in
  let t := modify_info j (λ i, mk_info (subject_list oi ++ subject_list i) (object_list oi ++ object_list i)
             (matters_to_anchor i || matters_to_anchor oi) (marker i) (generation i)) t in
  modify_info other (λ i, with_subjects [] (with_object_list [] i)) t.

Definition transaction_merge_and_delete_job (j other : nat) (ty : JobType) (t : Transaction) :
    outcome Transaction :=
  jb ← get_job t j;
  ob ← get_job t other;
  require bool_decide (j_unit jb = j_unit ob) && negb (j_installed jb);
  let oi := info t other in
  require forallb (λ l, bool_decide ((d_subject <$> links t !! l) = Some (Some other))) (subject_list oi) &&
          forallb (λ l, bool_decide ((d_object <$> links t !! l) = Some other)) (object_list oi);
  let t := absorb j other ty ob t in
  transaction_delete_job (enough t) other true t.

(** [while ((k = j->transaction_next))], for the unit of [j]. *)
Fixpoint merge_loop (n : nat) (u j : nat) (ty : JobType) (t : Transaction) : outcome Transaction :=
  match n with
  | O => OutOfFuel
  | S n =>
      l ←! tr_jobs t !! u;
      require bool_decide (head l = Some j);
      match l with
      | _ :: k :: _ =>
          if decide (anchor_job t = Some k) then
            t ← transaction_merge_and_delete_job k j ty t; merge_loop n u k ty t
          else t ← transaction_merge_and_delete_job j k ty t; merge_loop n u j ty t
      | _ => Ret t
      end
  end.

(** The first step for one unit: -EAGAIN when a job was deleted. *)
Definition merge_check (u : nat) (t : Transaction) : outcome (Z * Transaction) :=
  l ←! tr_jobs t !! u;
  j ←! head l;
  jb ← get_job t j;
  U ← get_unit t (j_unit jb);
  res ← merge_types t (u_active_state U) (j_type jb) (tail l);
  match res with
  | inl _ => Ret (0, t)
  | inr _ =>
      '(r, t) ← delete_one_unmergeable_job l t;
      Ret (if 0 <=? r then - EAGAIN else - EDEADLK, t)
  end.

(** The second step for one unit. *)
Definition merge_unit (u : nat) (t : Transaction) : outcome Transaction :=
  l ←! tr_jobs t !! u;
  j ←! head l;
  jb ← get_job t j;
  U ← get_unit t (j_unit jb);
  res ← merge_types t (u_active_state U) (j_type jb) (tail l);
  match res with
  | inr _ => Crash
  | inl ty => merge_loop (length l) u j ty t
  end.

Definition transaction_merge_jobs (t : Transaction) : outcome (Z * Transaction) :=
  '(r, t) ← until_error merge_check (keys (tr_jobs t)) t;
  if r <? 0 then Ret (r, t)
  else t ← for_all merge_unit (keys (tr_jobs t)) t; Ret (0, t).

(** Whether a job of the unit must stay. *)
Fixpoint keep_jobs (g : Z) (ks : list nat) (t : Transaction) : outcome (bool * Transaction) :=
  match ks with
  | [] => Ret (false, t)
  | k :: ks =>
      if decide (anchor_job t = Some k) then Ret (true, t)
      else
        '(redundant, t) ← job_is_redundant (n_jobs t) k g t;
        if negb redundant then Ret (true, t)
        else
          kb ← get_job t k;
          U ← get_unit t (j_unit kb);
          c ← match u_job U with
              | None => Ret false
              | Some uj => ub ← get_job t uj; lift (job_type_is_conflicting (j_type kb) (j_type ub))
              end;
          if c : bool then Ret (true, t) else keep_jobs g ks t
  end.

(** One pass over the units, until the first that is deleted. *)
Fixpoint drop_redundant_pass (g : Z) (us : list nat) (t : Transaction) : outcome (bool * Transaction) :=
  match us with
  | [] => Ret (false, t)
  | u :: us =>
      l ←! tr_jobs t !! u;
      j ←! head l;
      '(keep, t) ← keep_jobs g l t;
      if keep : bool then drop_redundant_pass g us t
      else t ← transaction_delete_job (enough t) j false t; Ret (true, t)
  end.

Fixpoint drop_redundant_loop (n : nat) (g : Z) (t : Transaction) : outcome Transaction :=
  match n with
  | O => OutOfFuel
  | S n =>
      '(again, t) ← drop_redundant_pass g (keys (tr_jobs t)) t;
      if again : bool then drop_redundant_loop n g t else Ret t
  end.

Definition transaction_drop_redundant (g : Z) (t : Transaction) : outcome Transaction :=
  drop_redundant_loop (n_jobs t) g t.

Definition unit_matters_to_anchor (t : Transaction) (js : list nat) : bool :=
  existsb (λ j, matters_to_anchor (info t j)) js.

(** ** Order *)

(** The list that starts at job [k] of unit [u]; [k] must have no predecessor. *)
Definition list_from (t : Transaction) (u k : nat) : option (list nat) :=
  match tr_jobs t !! u with
  | None => Some [k]
  | Some l =>
      assert negb (bool_decide (k ∈ tail l));
      Some (if decide (head l = Some k) then l else [k])
  end.

(** Goes back the path from [k] to [j] for the first job that may be dropped. *)
Fixpoint find_delete (n : nat) (g : Z) (j : nat) (k : option nat) (t : Transaction) : outcome (option nat) :=
  match k with
  | None => Ret None
  | Some k =>
      match n with
      | O => OutOfFuel
      | S n =>
          kb ← get_job t k;
          l ←! list_from t (j_unit kb) k;
          if bool_decide (is_Some (first_job t (j_unit kb))) && negb (unit_matters_to_anchor t l) then Ret (Some k)
          else if decide (k = j) then Ret None
          else
            let i := info t k in
            find_delete n g j (if (generation i =? g) && negb (bool_decide (marker i = Some k)) then marker i else None) t
      end
  end.

(** The job of the unit in the transaction, or else the installed one. *)
Definition job_for (t : Transaction) (U : Unit) (u : nat) : option nat :=
  match first_job t u with Some o => Some o | None => u_job U end.

Fixpoint transaction_verify_order_one (fuel : nat) (j : nat) (from : option nat) (g : Z) (t : Transaction) :
    outcome (Z * Transaction) :=
  match fuel with
  | O => OutOfFuel
  | S fuel =>
      jb ← get_job t j;
      _ ←! list_from t (j_unit jb) j;
      if generation (info t j) =? g then
        match marker (info t j) with
        | None => Ret (0, t)
        | Some _ =>
            del ← find_delete (n_jobs t) g j from t;
            match del with
            | Some k =>
                kb ← get_job t k;
                t ← transaction_delete_unit (j_unit kb) t;
                Ret (- EAGAIN, t)
            | None => Ret (- EDEADLK, t)
            end
        end
      else
        let t := modify_info j (with_marks (Some (default j from)) g) t in
        U ← get_unit t (j_unit jb);
        let visit dir u t :=
          V ← get_unit t u;
          match job_for t V u with
          | None => Ret (0, t)
          | Some o =>
              jb ← get_job t j;
              ob ← get_job t o;
              c ←! job_compare jb ob dir;
              if 0 <=? c then Ret (0, t) else transaction_verify_order_one fuel o (Some j) g t
          end in
        '(r, t) ← until_error (visit UNIT_BEFORE) (u_before U) t;
        if r <? 0 then Ret (r, t)
        else
          '(r, t) ← until_error (visit UNIT_AFTER) (u_after U) t;
          if r <? 0 then Ret (r, t)
          else Ret (0, modify_info j (λ i, with_marks None (generation i) i) t)
  end.

(** The generation is the one before the increment. *)
Definition transaction_verify_order (g : Z) (t : Transaction) : outcome (Z * Transaction) :=
  until_error (λ u t, j ←! first_job t u; transaction_verify_order_one (S (n_jobs t)) j None g t)
    (keys (tr_jobs t)) t.

(** ** Dropping jobs *)

Fixpoint collect_garbage_pass (us : list nat) (t : Transaction) : outcome (bool * Transaction) :=
  match us with
  | [] => Ret (false, t)
  | u :: us =>
      j ←! first_job t u;
      if decide (anchor_job t = Some j) then collect_garbage_pass us t
      else match object_list (info t j) with
      | [] => t ← transaction_delete_job (enough t) j true t; Ret (true, t)
      | _ => collect_garbage_pass us t
      end
  end.

Fixpoint collect_garbage_loop (n : nat) (t : Transaction) : outcome Transaction :=
  match n with
  | O => OutOfFuel
  | S n =>
      '(again, t) ← collect_garbage_pass (keys (tr_jobs t)) t;
      if again : bool then collect_garbage_loop n t else Ret t
  end.

Definition transaction_collect_garbage (t : Transaction) : outcome Transaction :=
  collect_garbage_loop (n_jobs t) t.

Definition transaction_is_destructive (mode : JobMode) (t : Transaction) : outcome (Z * Transaction) :=
  until_error (λ u t,
    l ←! tr_jobs t !! u;
    require bool_decide (length l = 1%nat);
    j ←! head l;
    jb ← get_job t j;
    U ← get_unit t (j_unit jb);
    match u_job U with
    | None => Ret (0, t)
    | Some uj =>
        ub ← get_job t uj;
        if bool_decide (mode = JOB_FAIL) || j_irreversible ub then
          c ←! job_type_is_conflicting (j_type ub) (j_type jb);
          Ret (if c : bool then - EDEADLK else 0, t)
        else Ret (0, t)
    end) (keys (tr_jobs t)) t.

Definition UNIT_IS_ACTIVE_OR_ACTIVATING (s : UnitActiveState) : bool :=
  match s with UNIT_ACTIVE | UNIT_ACTIVATING | UNIT_RELOADING => true | _ => false end.

(** Whether the job would stop a running service or change an installed job. *)
Definition has_impact (t : Transaction) (j : nat) : outcome bool :=
  jb ← get_job t j;
  U ← get_unit t (j_unit jb);
  let stops := bool_decide (j_type jb = JOB_STOP) && UNIT_IS_ACTIVE_OR_ACTIVATING (u_active_state U) in
  changes ← match u_job U with
            | None => Ret false
            | Some uj => ub ← get_job t uj; lift (job_type_is_conflicting (j_type jb) (j_type ub))
            end;
  Ret (stops || changes).

(** The first job of a list that does not matter and has an impact. *)
Fixpoint first_impact (t : Transaction) (js : list nat) : outcome (option nat) :=
  match js with
  | [] => Ret None
  | j :: js =>
      if matters_to_anchor (info t j) then first_impact t js
      else b ← has_impact t j; if b : bool then Ret (Some j) else first_impact t js
  end.

Fixpoint minimize_pass (us : list nat) (t : Transaction) : outcome (option nat) :=
  match us with
  | [] => Ret None
  | u :: us =>
      l ←! tr_jobs t !! u;
      d ← first_impact t l;
      match d with Some d => Ret (Some d) | None => minimize_pass us t end
  end.

(** [goto rescan] after each deletion. *)
Fixpoint minimize_loop (n : nat) (t : Transaction) : outcome Transaction :=
  match n with
  | O => OutOfFuel
  | S n =>
      d ← minimize_pass (keys (tr_jobs t)) t;
      match d with
      | None => Ret t
      | Some d => t ← transaction_delete_job (enough t) d true t; minimize_loop n t
      end
  end.

Definition transaction_minimize_impact (t : Transaction) : outcome Transaction :=
  minimize_loop (n_jobs t) t.

(** ** Application *)

(** The manager's table after [hashmap_put] of the job of each unit. *)
Definition put_job (u : nat) (t : Transaction) : outcome (Z * Transaction) :=
  l ←! tr_jobs t !! u;
  require bool_decide (length l = 1%nat);
  j ←! head l;
  jb ← get_job t j;
  let m := tr_m t in
  match jobs m !! j_id jb with
  | Some j' => Ret (if decide (j' = j) then 0 else - EEXIST, t)
  | None =>
      if hashmap_put_ok t then Ret (0, set_m (with_jobs (<[j_id jb := j]> (jobs m)) m) t)
      else Ret (- ENOMEM, t)
  end.

Definition rollback_job (u : nat) (t : Transaction) : outcome Transaction :=
  j ←! first_job t u;
  jb ← get_job t j;
  Ret (set_m (with_jobs (delete (j_id jb) (jobs (tr_m t))) (tr_m t)) t).

(** Cancels a job that is not part of the transaction, when isolating. *)
Definition cancel_other (j : nat) (t : Transaction) : outcome Transaction :=
  match objects (tr_m t) !! j with
  | None => Ret t
  | Some jb =>
      if decide (jobs (tr_m t) !! j_id jb = Some j) then
        require j_installed jb;
        if u_ignore_on_isolate (j_unit jb) then Ret t
        else match first_job t (j_unit jb) with
        | Some _ => Ret t
        | None => m ← job_finish_and_invalidate 1 j JOB_CANCELED false (tr_m t); Ret (set_m m t)
        end
      else Ret t
  end.

(** The body of the loop that installs, for the job [j] of unit [u]. *)
Definition apply_job (u j : nat) (t : Transaction) : outcome Transaction :=
  let t := set_jobs (delete u (tr_jobs t)) t in
  t ← transaction_unlink_job (enough t) j false t;
  jb ← get_job t j;
  '(ij, m) ← job_install 1 j (tr_m t);
  let t := set_m m t in
  t ← (if decide (ij = j) then Ret t
       else
         let t := if decide (anchor_job t = Some j) then set_anchor (Some ij) t else t in
         let t := set_m (with_jobs (delete (j_id jb) (jobs (tr_m t))) (tr_m t)) t in
         lift (free_job j t));
  m ←! job_add_to_run_queue ij (tr_m t);
  m ←! job_add_to_dbus_queue ij m;
  Ret (set_m m t).

(** [while ((j = hashmap_steal_first(tr->jobs)))] *)
Fixpoint apply_loop (n : nat) (t : Transaction) : outcome Transaction :=
  match n with
  | O => OutOfFuel
  | S n =>
      match head (keys (tr_jobs t)) with
      | None => Ret t
      | Some u => j ←! first_job t u; t ← apply_job u j t; apply_loop n t
      end
  end.

Definition transaction_apply (mode : JobMode) (t : Transaction) : outcome (Z * Transaction) :=
  t ← (if bool_decide (mode = JOB_ISOLATE) || bool_decide (mode = JOB_FLUSH)
       then for_all cancel_other (all_jobs (tr_m t)) t else Ret t);
  '(r, t) ← until_error put_job (keys (tr_jobs t)) t;
  if r <? 0 then t ← for_all rollback_job (keys (tr_jobs t)) t; Ret (r, t)
  else t ← apply_loop (S (size (tr_jobs t))) t; Ret (0, t).

(** Collects garbage and verifies the order until it has no circle; the number
    is the generation. *)
Fixpoint order_loop (n : nat) (mode : JobMode) (g : Z) (t : Transaction) : outcome (Z * Z * Transaction) :=
  match n with
  | O => OutOfFuel
  | S n =>
      t ← (if decide (mode = JOB_ISOLATE) then Ret t else transaction_collect_garbage t);
      '(r, t) ← transaction_verify_order g t;
      let g := wrapu 32 (g + 1) in
      if 0 <=? r then Ret (0, g, t)
      else if r =? - EAGAIN then order_loop n mode g t
      else Ret (r, g, t)
  end.

Fixpoint unify_loop (n : nat) (mode : JobMode) (t : Transaction) : outcome (Z * Transaction) :=
  match n with
  | O => OutOfFuel
  | S n =>
      '(r, t) ← transaction_merge_jobs t;
      if 0 <=? r then Ret (0, t)
      else if r =? - EAGAIN then
        t ← (if decide (mode = JOB_ISOLATE) then Ret t else transaction_collect_garbage t);
        unify_loop n mode t
      else Ret (r, t)
  end.

Definition reset_generation (j : nat) (t : Transaction) : Transaction :=
  modify_info j (λ i, with_marks (marker i) 0 i) t.

Definition transaction_activate (mode : JobMode) (t : Transaction) : outcome (Z * Transaction) :=
  let t := foldr reset_generation t (all_jobs (tr_m t)) in
  anchor ←! anchor_job t;
  t ← transaction_find_jobs_that_matter_to_anchor (n_jobs t) anchor 1 t;
  t ← (if decide (mode = JOB_FAIL) then transaction_minimize_impact t else Ret t);
  t ← transaction_drop_redundant 2 t;
  '(r, g, t) ← order_loop (n_jobs t) mode 3 t;
  if r <? 0 then Ret (r, t)
  else
    '(r, t) ← unify_loop (n_jobs t) mode t;
    if r <? 0 then Ret (r, t)
    else
      t ← transaction_drop_redundant g t;
      '(r, t) ← transaction_is_destructive mode t;
      if r <? 0 then Ret (r, t)
      else
        '(r, t) ← transaction_apply mode t;
        if r <? 0 then Ret (r, t)
        else require bool_decide (tr_jobs t = ∅); Ret (0, t).

(** ** Collection *)

(** The first job of a list with the type. *)
Fixpoint find_type (t : Transaction) (unit : nat) (type : JobType) (js : list nat) : outcome (option nat) :=
  match js with
  | [] => Ret None
  | j :: js =>
      jb ← get_job t j;
      require bool_decide (j_unit jb = unit);
      if decide (j_type jb = type) then Ret (Some j) else find_type t unit type js
  end.

(** The job of the unit with the type, and whether it is new. *)
Definition transaction_add_one_job (type : JobType) (unit : nat) (t : Transaction) :
    outcome (option (nat * bool) * Transaction) :=
  let l := default [] (tr_jobs t !! unit) in
  f ← find_type t unit type l;
  match f with
  | Some j => Ret (Some (j, false), t)
  | None =>
      match malloc_job t with
      | None => Ret (None, t)
      | Some r =>
          let t' := set_m (modify_job r (set_flags false (irreversible t)) (job_new r unit type (tr_m t))) t in
          let t' := set_infos (<[r := no_info]> (infos t')) t' in
          if hashmap_put_ok t then Ret (Some (r, true), set_jobs (<[unit := r :: l]> (tr_jobs t')) t')
          else t' ←! free_job r t'; Ret (None, t')
      end
  end.

(** Adding jobs for a list of units: the first ends at an error other than that
    the type is not applicable, the second ignores errors. *)
Definition required (add : nat → Transaction → outcome (Z * Transaction)) : list nat → Transaction → outcome (Z * Transaction) :=
  until_error (λ dep t, '(r, t) ← add dep t; Ret (if r =? - EBADR then 0 else r, t)).
Definition optional (add : nat → Transaction → outcome (Z * Transaction)) : list nat → Transaction → outcome (Z * Transaction) :=
  until_error (λ dep t, '(_, t) ← add dep t; Ret (0, t)).

Definition and_then (o : outcome (Z * Transaction)) (k : Transaction → outcome (Z * Transaction)) : outcome (Z * Transaction) :=
  '(r, t) ← o; if r <? 0 then Ret (r, t) else k t.

(** Adds a job of the type after collapse, unless there is nothing to do. *)
Definition add_collapsed (add : JobType → nat → Transaction → outcome (Z * Transaction)) (ptype : JobType)
    (dep : nat) (t : Transaction) : outcome (Z * Transaction) :=
  D ← get_unit t dep;
  let nt := job_type_collapse ptype (u_active_state D) in
  if decide (nt = JOB_NOP) then Ret (0, t) else add nt dep t.

Definition transaction_add_propagate_reload_jobs
    (add : JobType → nat → Transaction → outcome (Z * Transaction)) (unit : nat) (t : Transaction) :
    outcome (Z * Transaction) :=
  optional (add_collapsed add JOB_TRY_RELOAD) (u_propagates_reload_to unit) t.

(** The jobs that a new job of the type pulls in; [add matters conflicts]. *)
Definition add_dependencies (add : bool → bool → JobType → nat → Transaction → outcome (Z * Transaction))
    (type : JobType) (unit : nat) (U : Unit) (t : Transaction) : outcome (Z * Transaction) :=
  and_then (optional (add false false type) (u_following_set unit) t) (λ t,
  and_then (if bool_decide (type = JOB_START) || bool_decide (type = JOB_RESTART) then
      and_then (required (add true false JOB_START) (u_requires unit) t) (λ t,
      and_then (required (add true false JOB_START) (u_binds_to unit) t) (λ t,
      and_then (optional (add false false JOB_START) (u_wants unit) t) (λ t,
      and_then (required (add true false JOB_VERIFY_ACTIVE) (u_requisite unit) t) (λ t,
      and_then (required (add true true JOB_STOP) (u_conflicts unit) t) (λ t,
      optional (add false false JOB_STOP) (u_conflicted_by U) t)))))
    else Ret (0, t)) (λ t,
  and_then (if bool_decide (type = JOB_STOP) || bool_decide (type = JOB_RESTART) then
      let ptype := if decide (type = JOB_RESTART) then JOB_TRY_RESTART else type in
      let propagate deps t := required (add_collapsed (add true false) ptype) deps t in
      and_then (propagate (u_required_by U) t) (λ t,
      and_then (propagate (u_requisite_of U) t) (λ t,
      and_then (propagate (u_bound_by U) t) (λ t,
      propagate (u_consists_of unit) t)))
    else Ret (0, t)) (λ t,
  if decide (type = JOB_RELOAD) then
    '(_, t) ← transaction_add_propagate_reload_jobs (add false false) unit t; Ret (0, t)
  else Ret (0, t)))).

Fixpoint transaction_add_job_and_dependencies (fuel : nat) (type : JobType) (unit : nat) (by_ : option nat)
    (matters conflicts ignore_requirements ignore_order : bool) (t : Transaction) : outcome (Z * Transaction) :=
  match fuel with
  | O => OutOfFuel
  | S fuel =>
      require in_transaction type;
      U ← get_unit t unit;
      if negb (u_load_state_ok unit) then Ret (- EIO, t)
      else if negb (bool_decide (type = JOB_STOP)) && (bus_unit_validate_load_state unit <? 0)
      then Ret (bus_unit_validate_load_state unit, t)
      else if negb (unit_job_is_applicable unit type) then Ret (- EBADR, t)
      else
        '(res, t) ← transaction_add_one_job type unit t;
        match res with
        | None => Ret (- ENOMEM, t)
        | Some (ret, is_new) =>
            let t := set_m (modify_job ret (λ j, set_flags (j_ignore_order j || ignore_order) (j_irreversible j) j) (tr_m t)) t in
            '(r, t) ← match by_ with
                      | Some s =>
                          Ret (match malloc_link t with
                               | None => (- ENOMEM, t)
                               | Some l => (0, job_dependency_new l (Some s) ret matters conflicts t)
                               end)
                      | None =>
                          require bool_decide (anchor_job t = None);
                          Ret (0, set_anchor (Some ret) t)
                      end;
            if r <? 0 then Ret (r, t)
            else if is_new && negb ignore_requirements && negb (bool_decide (type = JOB_NOP)) then
              add_dependencies (λ matters conflicts ty dep t,
                transaction_add_job_and_dependencies fuel ty dep (Some ret) matters conflicts false ignore_order t)
                type unit U t
            else Ret (0, t)
        end
  end.

(** A stop job for the anchor, unless the unit is down or has a job already. *)
Definition add_stop_job (fuel : nat) (u : nat) (t : Transaction) : outcome Transaction :=
  U ← get_unit t u;
  if inactive_or_failed (u_active_state U) && negb (bool_decide (is_Some (u_job U))) then Ret t
  else match first_job t u with
  | Some _ => Ret t
  | None =>
      '(_, t) ← transaction_add_job_and_dependencies fuel JOB_STOP u (anchor_job t) true false false false t;
      Ret t
  end.

Definition transaction_add_isolate_jobs (fuel : nat) (t : Transaction) : outcome Transaction :=
  for_all (λ u t, if u_ignore_on_isolate u then Ret t else add_stop_job fuel u t) (all_units (tr_m t)) t.

Definition transaction_add_triggering_jobs (fuel : nat) (u : nat) (t : Transaction) : outcome Transaction :=
  for_all (add_stop_job fuel) (u_triggered_by u) t.

(** The result, the manager, and the job that stands for the request. *)
Definition manager_add_job (fuel : nat) (type : JobType) (unit : nat) (mode : JobMode) (m : Manager) :
    outcome (Z * option nat * Manager) :=
  if bool_decide (mode = JOB_ISOLATE) && negb (bool_decide (type = JOB_START)) then Ret (- EINVAL, None, m)
  else if bool_decide (mode = JOB_ISOLATE) && negb (u_allow_isolate unit) then Ret (- EPERM, None, m)
  else if bool_decide (mode = JOB_TRIGGERING) && negb (bool_decide (type = JOB_STOP)) then Ret (- EINVAL, None, m)
  else
    U ←! units m !! unit;
    let type := job_type_collapse type (u_active_state U) in
    match transaction_new m (bool_decide (mode = JOB_REPLACE_IRREVERSIBLY)) with
    | None => Ret (- ENOMEM, None, m)
    | Some t =>
    '(r, t) ← transaction_add_job_and_dependencies fuel type unit None true false
      (bool_decide (mode = JOB_IGNORE_DEPENDENCIES) || bool_decide (mode = JOB_IGNORE_REQUIREMENTS))
      (bool_decide (mode = JOB_IGNORE_DEPENDENCIES)) t;
    if r <? 0 then t ← transaction_abort t; Ret (r, None, tr_m t)
    else
      t ← (if decide (mode = JOB_ISOLATE) then transaction_add_isolate_jobs fuel t else Ret t);
      t ← (if decide (mode = JOB_TRIGGERING) then transaction_add_triggering_jobs fuel unit t else Ret t);
      '(r, t) ← transaction_activate mode t;
      if r <? 0 then t ← transaction_abort t; Ret (r, None, tr_m t)
      else Ret (0, anchor_job t, tr_m t)
    end.

End Operations.
