(* ===== verification/TransactionProps.v ===== *)
(** * systemd: deletion in transactions

    The graph of a transaction is well-formed: every job in it is a job of its
    unit that is not installed, every link is in the list of its subject and of
    its object, and nothing points to a freed job. Deletion keeps this, ends,
    and deletes exactly the jobs that need the deleted one. *)

From S2P Require Import Prelude Outcome JobMerge Job JobProps Transaction.

#[local] Open Scope Z_scope.
#[local] Set Warnings "-clear-no-such-hyp".

(** ** Well-formed transactions *)

Definition list_of (t : Transaction) (u : nat) : list nat := default [] (tr_jobs t !! u).

(** A job of the transaction. *)
Definition member (t : Transaction) (j : nat) : Prop := ∃ u, j ∈ list_of t u.

(** A job that is not installed yet, of unit [u]. *)
Definition planned (u : nat) (j : Job) : Prop :=
  j_unit j = u ∧ j_installed j = false ∧ in_transaction (j_type j) = true ∧ j_state j = JOB_WAITING.

(** The jobs of the graph: those in the lists, and those in [D] that are being
    deleted. *)
Definition in_graph (D : gset nat) (t : Transaction) (j : nat) : Prop := j ∈ D ∨ member t j.

Record wf (D : gset nat) (t : Transaction) : Prop := {
  w_consistent : consistent (tr_m t);
  w_list : ∀ u, tr_jobs t !! u ≠ Some [];
  w_nodup : ∀ u, NoDup (list_of t u);
  w_member : ∀ u j, j ∈ list_of t u → (j ∉ D) ∧ ∃ jb, objects (tr_m t) !! j = Some jb ∧ planned u jb;
  w_pending : ∀ j, j ∈ D → ∃ u jb, objects (tr_m t) !! j = Some jb ∧ planned u jb;
  w_unit : ∀ j jb, in_graph D t j → objects (tr_m t) !! j = Some jb → is_Some (units (tr_m t) !! j_unit jb);
  w_table : ∀ j, in_graph D t j → ∀ id, jobs (tr_m t) !! id ≠ Some j;
  w_link : ∀ l d, links t !! l = Some d → ∃ s, d_subject d = Some s ∧ in_graph D t s ∧
    in_graph D t (d_object d) ∧ l ∈ subject_list (info t s) ∧ l ∈ object_list (info t (d_object d));
  w_subject : ∀ j l, l ∈ subject_list (info t j) → ∃ d, links t !! l = Some d ∧ d_subject d = Some j;
  w_object : ∀ j l, l ∈ object_list (info t j) → ∃ d, links t !! l = Some d ∧ d_object d = j;
  w_lists : ∀ j, NoDup (subject_list (info t j)) ∧ NoDup (object_list (info t j)) }.

Lemma graph_planned D t j : wf D t → in_graph D t j → ∃ u jb, objects (tr_m t) !! j = Some jb ∧ planned u jb.
Proof.
  intros W [Hj|[u Hj]].
  - apply (w_pending D t W j Hj).
  - destruct (w_member D t W u j Hj) as (_ & jb & H). by exists u, jb.
Qed.

Lemma graph_alive D t j : wf D t → in_graph D t j → is_Some (objects (tr_m t) !! j).
Proof. intros W G. destruct (graph_planned D t j W G) as (u & jb & E & _). by exists jb. Qed.

(** A job is in one list only, that of its unit. *)
Lemma member_unit D t u v j : wf D t → j ∈ list_of t u → j ∈ list_of t v → u = v.
Proof.
  intros W Hu Hv. destruct (w_member D t W u j Hu) as (_ & jb & E & P & _).
  destruct (w_member D t W v j Hv) as (_ & jb' & E' & P' & _). congruence.
Qed.

Lemma list_of_some t u l : tr_jobs t !! u = Some l → list_of t u = l.
Proof. intros E. unfold list_of. by rewrite E. Qed.

Lemma list_of_lookup D t u : wf D t → list_of t u ≠ [] → tr_jobs t !! u = Some (list_of t u).
Proof. unfold list_of. by destruct (tr_jobs t !! u). Qed.

(** ** Cuts

    What is left of [t] when the jobs [Y] leave their lists, the jobs [X] are
    freed and the links [K] are freed; [M] relates the marks of the other jobs. *)

Record cut_by (M : JobInfo → JobInfo → Prop) (Y X K : gset nat) (t t' : Transaction) : Prop := {
  c_objects : ∀ x, objects (tr_m t') !! x = if decide (x ∈ X) then None else objects (tr_m t) !! x;
  c_rest : with_objects ∅ (tr_m t') = with_objects ∅ (tr_m t);
  c_list : ∀ u, list_of t' u = filter (.∉ Y) (list_of t u);
  c_none : ∀ u, tr_jobs t !! u ≠ Some [] → tr_jobs t' !! u ≠ Some [];
  c_links : ∀ l, links t' !! l = if decide (l ∈ K) then None else links t !! l;
  c_anchor : anchor_job t' = anchor_job t;
  c_irreversible : irreversible t' = irreversible t;
  c_marks : ∀ x, x ∉ X → M (info t x) (info t' x);
  c_subjects : ∀ x, x ∉ X → subject_list (info t' x) = filter (.∉ K) (subject_list (info t x));
  c_object_list : ∀ x, x ∉ X → object_list (info t' x) = filter (.∉ K) (object_list (info t x));
  c_gone : ∀ x, x ∈ X → M no_info (info t' x) ∧ subject_list (info t' x) = [] ∧ object_list (info t' x) = [] }.

Arguments c_objects {M}. Arguments c_rest {M}. Arguments c_list {M}. Arguments c_none {M}. Arguments c_links {M}.
Arguments c_anchor {M}. Arguments c_irreversible {M}. Arguments c_marks {M}. Arguments c_subjects {M}.
Arguments c_object_list {M}. Arguments c_gone {M}.

Definition same_matters (i i' : JobInfo) : Prop := matters_to_anchor i' = matters_to_anchor i.
Definition same_marks (i i' : JobInfo) : Prop :=
  matters_to_anchor i' = matters_to_anchor i ∧ marker i' = marker i ∧ generation i' = generation i.

#[export] Instance same_matters_preorder : PreOrder same_matters.
Proof. unfold same_matters. split; [done|]. intros ???. congruence. Qed.
#[export] Instance same_marks_preorder : PreOrder same_marks.
Proof. unfold same_marks. split; [done|]. intros ???. naive_solver congruence. Qed.

Abbreviation cut := (cut_by same_marks).

(** Relations on marks that keep [matters_to_anchor]. *)
Class Marks (M : JobInfo → JobInfo → Prop) : Prop := {
  marks_preorder :: PreOrder M;
  marks_matters : ∀ i i', M i i' → matters_to_anchor i' = matters_to_anchor i }.

#[export] Instance same_matters_marks : Marks same_matters.
Proof. split; [apply _|done]. Qed.
#[export] Instance same_marks_marks : Marks same_marks.
Proof. split; [apply _|]. by intros ?? [? _]. Qed.

Lemma filter_all {A} (P : A → Prop) `{∀ x, Decision (P x)} (l : list A) : (∀ x, x ∈ l → P x) → filter P l = l.
Proof.
  induction l as [|x l IH]; intros HP; [done|]. rewrite filter_cons_True by (apply HP; left).
  f_equal. apply IH. intros y Hy. apply HP. by right.
Qed.

Lemma filter_none {A} (P : A → Prop) `{∀ x, Decision (P x)} (l : list A) : (∀ x, x ∈ l → ¬ P x) → filter P l = [].
Proof.
  induction l as [|x l IH]; intros HP; [done|]. rewrite filter_cons_False by (apply HP; left).
  apply IH. intros y Hy. apply HP. by right.
Qed.

Lemma filter_union (A B : gset nat) (l : list nat) : filter (.∉ B) (filter (.∉ A) l) = filter (.∉ A ∪ B) l.
Proof. rewrite list_filter_filter. apply list_filter_iff. set_solver. Qed.

Section Cuts.
Context {M : JobInfo → JobInfo → Prop} `{!Marks M}.

Lemma cut_refl t : cut_by M ∅ ∅ ∅ t t.
Proof.
  split; intros; rewrite ?decide_False by set_solver; rewrite ?filter_all by set_solver; done || set_solver.
Qed.

Lemma cut_trans Y1 X1 K1 Y2 X2 K2 t1 t2 t3 : cut_by M Y1 X1 K1 t1 t2 → cut_by M Y2 X2 K2 t2 t3 →
  cut_by M (Y1 ∪ Y2) (X1 ∪ X2) (K1 ∪ K2) t1 t3.
Proof.
  intros A B. split.
  - intros x. rewrite (c_objects _ _ _ _ _ B), (c_objects _ _ _ _ _ A). repeat case_decide; done || set_solver.
  - by rewrite (c_rest _ _ _ _ _ B), (c_rest _ _ _ _ _ A).
  - intros u. by rewrite (c_list _ _ _ _ _ B), (c_list _ _ _ _ _ A), filter_union.
  - intros u Hu. apply (c_none _ _ _ _ _ B), (c_none _ _ _ _ _ A), Hu.
  - intros l. rewrite (c_links _ _ _ _ _ B), (c_links _ _ _ _ _ A). repeat case_decide; done || set_solver.
  - by rewrite (c_anchor _ _ _ _ _ B), (c_anchor _ _ _ _ _ A).
  - by rewrite (c_irreversible _ _ _ _ _ B), (c_irreversible _ _ _ _ _ A).
  - intros x Hx. etrans; [apply (c_marks _ _ _ _ _ A)|apply (c_marks _ _ _ _ _ B)]; set_solver.
  - intros x Hx. rewrite (c_subjects _ _ _ _ _ B), (c_subjects _ _ _ _ _ A), filter_union by set_solver. done.
  - intros x Hx. rewrite (c_object_list _ _ _ _ _ B), (c_object_list _ _ _ _ _ A), filter_union by set_solver. done.
  - intros x Hx. destruct (decide (x ∈ X2)) as [H2|H2]; [by apply (c_gone _ _ _ _ _ B)|].
    destruct (c_gone _ _ _ _ _ A x) as (E1 & E2 & E3); [set_solver|].
    rewrite (c_subjects _ _ _ _ _ B x H2), (c_object_list _ _ _ _ _ B x H2), E2, E3.
    split; [|done]. etrans; [exact E1|by apply (c_marks _ _ _ _ _ B)].
Qed.

(** A cut that only frees what left the lists, with all its links, leaves a
    well-formed transaction. *)
Lemma cut_wf D Y X K t t' : wf D t → cut_by M Y X K t t' → consistent (tr_m t') → X ⊆ D ∪ Y →
  (∀ y, y ∈ Y → member t y) →
  (∀ l d, links t' !! l = Some d → (∀ s, d_subject d = Some s → s ∉ X) ∧ d_object d ∉ X) →
  wf ((D ∪ Y) ∖ X) t'.
Proof.
  intros W A C HX HY HL. set (D' := (D ∪ Y) ∖ X).
  assert (∀ x u, x ∈ list_of t' u ↔ x ∈ list_of t u ∧ x ∉ Y) as EL.
  { intros x u. rewrite (c_list _ _ _ _ _ A), list_elem_of_filter. naive_solver. }
  assert (∀ x, member t x → x ∉ D) as MD by (intros x [u Hu]; by apply (w_member D t W u)).
  assert (∀ x, in_graph D' t' x ↔ in_graph D t x ∧ x ∉ X) as HG.
  { intros x. unfold in_graph, member. setoid_rewrite EL. unfold D'. split.
    - intros [Hx|(u & Hu & Hy)]; [|split; [right; by exists u|]].
      + apply elem_of_difference in Hx as [[Hx|Hx]%elem_of_union Hn]; [by auto|]. split; [|done]. right. by apply HY.
      + intros Hx. apply HX, elem_of_union in Hx as [Hx|Hx]; [|done]. by apply (MD x); [exists u|].
    - intros [[Hx|[u Hu]] Hn]; [left; set_solver|]. destruct (decide (x ∈ Y)); [left; set_solver|right; by exists u]. }
  assert (∀ x, x ∉ X → objects (tr_m t') !! x = objects (tr_m t) !! x) as EO.
  { intros x Hx. rewrite (c_objects _ _ _ _ _ A). by rewrite decide_False. }
  pose proof (c_rest _ _ _ _ _ A) as R. pose proof (f_equal units R) as RU. pose proof (f_equal jobs R) as RJ. cbn in RU, RJ.
  assert (∀ x l, l ∈ subject_list (info t' x) → (x ∉ X) ∧ (l ∉ K) ∧ l ∈ subject_list (info t x)) as HS.
  { intros x l. destruct (decide (x ∈ X)) as [Hx|Hx].
    - destruct (c_gone _ _ _ _ _ A x Hx) as (_ & -> & _). intros []%not_elem_of_nil.
    - rewrite (c_subjects _ _ _ _ _ A x Hx), list_elem_of_filter. naive_solver. }
  assert (∀ x l, l ∈ object_list (info t' x) → (x ∉ X) ∧ (l ∉ K) ∧ l ∈ object_list (info t x)) as HO.
  { intros x l. destruct (decide (x ∈ X)) as [Hx|Hx].
    - destruct (c_gone _ _ _ _ _ A x Hx) as (_ & _ & ->). intros []%not_elem_of_nil.
    - rewrite (c_object_list _ _ _ _ _ A x Hx), list_elem_of_filter. naive_solver. }
  assert (∀ l d, links t !! l = Some d → l ∉ K → links t' !! l = Some d) as EK.
  { intros l d E Hl. rewrite (c_links _ _ _ _ _ A). by rewrite decide_False. }
  assert (∀ l d, links t' !! l = Some d → links t !! l = Some d ∧ l ∉ K) as EK'.
  { intros l d. rewrite (c_links _ _ _ _ _ A). by case_decide. }
  split.
  - done.
  - intros u. apply (c_none _ _ _ _ _ A), W.
  - intros u. rewrite (c_list _ _ _ _ _ A). apply NoDup_filter, W.
  - intros u j Hj. apply EL in Hj as [Hj Hy]. destruct (w_member D t W u j Hj) as (Hd & H).
    assert (j ∉ X) as Hx by set_solver. rewrite EO by done. split; [set_solver|done].
  - intros j Hj. assert (j ∉ X) as Hx by set_solver. rewrite EO by done. apply (graph_planned D t j W).
    apply HG. by left.
  - intros j jb [Hg Hx]%HG. rewrite EO, RU by done. by apply (w_unit D t W).
  - intros j [Hg Hx]%HG. rewrite RJ. by apply (w_table D t W).
  - intros l d E. destruct (HL l d E) as [Hs Ho]. apply EK' in E as [E Hl].
    destruct (w_link D t W l d E) as (s & Es & Gs & Go & Ls & Lo). exists s. specialize (Hs s Es).
    rewrite !HG, (c_subjects _ _ _ _ _ A), (c_object_list _ _ _ _ _ A), !list_elem_of_filter by done. auto 8.
  - intros j l (Hx & Hl & H)%HS. destruct (w_subject D t W j l H) as (d & E & Es). exists d. auto.
  - intros j l (Hx & Hl & H)%HO. destruct (w_object D t W j l H) as (d & E & Es). exists d. auto.
  - intros j. destruct (decide (j ∈ X)) as [Hx|Hx].
    + destruct (c_gone _ _ _ _ _ A j Hx) as (_ & -> & ->). split; constructor.
    + rewrite (c_subjects _ _ _ _ _ A), (c_object_list _ _ _ _ _ A) by done. split; apply NoDup_filter, W.
Qed.

(** Job [x] needs job [y]: a link between them matters. *)
Definition needs (t : Transaction) (x y : nat) : Prop := ∃ l d,
  links t !! l = Some d ∧ d_matters d = true ∧ d_subject d = Some x ∧ d_object d = y.

Lemma needs_cut Y X K t t' x y : cut_by M Y X K t t' → needs t' x y → needs t x y.
Proof.
  intros A (l & d & E & H). exists l, d. split; [|done]. rewrite (c_links _ _ _ _ _ A) in E. by case_decide.
Qed.

Lemma rtc_needs_cut Y X K t t' x y : cut_by M Y X K t t' → rtc (needs t') x y → rtc (needs t) x y.
Proof. intros A. apply rtc_subrel. intros a b. by apply (needs_cut Y X K). Qed.

Lemma member_cut Y X K t t' x : cut_by M Y X K t t' → member t' x → member t x.
Proof. intros A [u Hu]. exists u. rewrite (c_list _ _ _ _ _ A) in Hu. by apply list_elem_of_filter in Hu as [_ Hu]. Qed.

(** The jobs on their way out have no links of their own. *)
Definition rootless (D : gset nat) (t : Transaction) : Prop := ∀ x, x ∈ D → subject_list (info t x) = [].

Lemma rootless_cut D Y X K t t' : cut_by M Y X K t t' → D ## X → rootless D t → rootless D t'.
Proof. intros A HD R x Hx. rewrite (c_subjects _ _ _ _ _ A) by set_solver. by rewrite (R x Hx). Qed.

Lemma size_links_cut Y X K t t' : cut_by M Y X K t t' → (size (links t') ≤ size (links t))%nat.
Proof.
  intros A. apply map_subseteq_size, map_subseteq_spec. intros l d. rewrite (c_links _ _ _ _ _ A). by case_decide.
Qed.

(** A job of the lists is one of the objects, a deletion makes them fewer. *)
Lemma cut_smaller D X K t t' j : wf D t → cut_by M X X K t t' → member t j → j ∈ X →
  (size (objects (tr_m t')) < size (objects (tr_m t)))%nat.
Proof.
  intros W A Mj Hj. destruct (graph_alive D t j W) as [jb E]; [by right|].
  assert (objects (tr_m t') ⊂ objects (tr_m t)) as Hs; [|by apply map_subset_size].
  apply strict_spec_alt. split.
  - apply map_subseteq_spec. intros x b. rewrite (c_objects _ _ _ _ _ A). by case_decide.
  - intros Eq. assert (objects (tr_m t') !! j = None) as En by (rewrite (c_objects _ _ _ _ _ A), decide_True; done).
    rewrite Eq in En. congruence.
Qed.

End Cuts.

(** ** Steps of a deletion *)

Lemma info_modify j f t x : info (modify_info j f t) x = if decide (x = j) then f (info t j) else info t x.
Proof.
  unfold info at 1, modify_info, set_infos. cbn. rewrite lookup_insert. repeat case_decide; subst; done.
Qed.

(** A field that a change leaves alone. *)
Lemma info_keep {A} (π : JobInfo → A) j f t x : (∀ i, π (f i) = π i) → π (info (modify_info j f t) x) = π (info t x).
Proof. intros Hf. rewrite info_modify. case_decide; [subst; apply Hf|done]. Qed.

Lemma list_remove_filter l q : list_remove l q = filter (.∉ ({[l]} : gset nat)) q.
Proof. apply list_filter_iff. set_solver. Qed.

(** A cut of links alone. *)
Lemma cut_links D K t t' : wf D t → cut ∅ ∅ K t t' → wf D t'.
Proof.
  intros W A. assert (tr_m t' = tr_m t) as Em.
  { assert (objects (tr_m t') = objects (tr_m t)) as Eo.
    { apply map_eq. intros x. rewrite (c_objects _ _ _ _ _ A). by rewrite decide_False by set_solver. }
    pose proof (c_rest _ _ _ _ _ A) as R. destruct (tr_m t), (tr_m t'). cbn in *. by injection R as -> -> -> -> -> -> -> -> -> ->; subst. }
  replace D with ((D ∪ ∅) ∖ ∅ : gset nat) by set_solver.
  apply (cut_wf D ∅ ∅ K t); [done|done| |set_solver|set_solver|set_solver].
  rewrite Em. apply W.
Qed.

Lemma free_link_ok D t l d : wf D t → links t !! l = Some d →
  ∃ t', job_dependency_free l t = Some t' ∧ cut ∅ ∅ {[l]} t t' ∧ wf D t'.
Proof.
  intros W E. destruct (w_link D t W l d E) as (s & Es & Gs & Go & Ls & Lo).
  destruct (graph_alive D t s W Gs) as [sb Esb]. destruct (graph_alive D t _ W Go) as [ob Eob].
  unfold job_dependency_free. rewrite E. cbn. rewrite Es. cbn. rewrite Esb. cbn. rewrite Eob. cbn.
  set (t1 := modify_info s _ t). set (t2 := modify_info (d_object d) _ t1). set (t' := set_links _ t2).
  assert (∀ x, subject_list (info t' x) = list_remove l (subject_list (info t x))) as HS.
  { intros x. change (info t' x) with (info t2 x). unfold t2. rewrite info_modify.
    assert (∀ y, subject_list (info t1 y) = list_remove l (subject_list (info t y))) as H1.
    { intros y. unfold t1. rewrite info_modify. case_decide as Ey; [by subst y|].
      symmetry. apply filter_ne_id. intros Hl. destruct (w_subject D t W y l Hl) as (d' & E' & Es').
      rewrite E in E'. injection E' as <-. congruence. }
    case_decide; [subst x; cbn|]; apply H1. }
  assert (∀ x, object_list (info t' x) = list_remove l (object_list (info t x))) as HO.
  { intros x. change (info t' x) with (info t2 x). unfold t2. rewrite info_modify.
    assert (∀ y, object_list (info t1 y) = object_list (info t y)) as H1.
    { intros y. unfold t1. rewrite info_modify. case_decide as Ey; [by subst y|done]. }
    case_decide as Ex; [subst x; cbn; by rewrite H1|]. rewrite H1. symmetry. apply filter_ne_id.
    intros Hl. destruct (w_object D t W x l Hl) as (d' & E' & Es'). rewrite E in E'. injection E' as <-. congruence. }
  assert (cut ∅ ∅ {[l]} t t') as A.
  { split; try done.
    - intros u. by rewrite filter_all by set_solver.
    - intros k. unfold t'. cbn. rewrite lookup_delete. repeat case_decide; done || set_solver.
    - intros x _. change (info t' x) with (info t2 x). unfold t2, t1. split_and!; by rewrite !(info_keep _ _ _ _ x) by done.
    - intros x _. by rewrite HS, list_remove_filter.
    - intros x _. by rewrite HO, list_remove_filter. }
  exists t'. split; [done|]. split; [done|]. by apply (cut_links D {[l]} t).
Qed.

Lemma drop_subjects_ok D : ∀ ls t, wf D t → NoDup ls → (∀ l, l ∈ ls → is_Some (links t !! l)) →
  ∃ t', drop_subjects ls t = Some t' ∧ cut ∅ ∅ (list_to_set ls) t t' ∧ wf D t'.
Proof.
  induction ls as [|l ls IH]; intros t W N H.
  { exists t. split; [done|]. split; [apply cut_refl|done]. }
  apply NoDup_cons in N as [Nl N]. destruct (H l) as [d E]; [set_solver|]. cbn.
  destruct (free_link_ok D t l d W E) as (t1 & -> & A1 & W1). cbn.
  destruct (IH t1) as (t' & -> & A' & W'); [done..| |].
  { intros k Hk. rewrite (c_links _ _ _ _ _ A1). rewrite decide_False by set_solver. apply H. set_solver. }
  exists t'. split; [done|]. split; [|done]. pose proof (cut_trans _ _ _ _ _ _ _ _ _ A1 A') as B.
  by rewrite !union_empty_l_L in B.
Qed.

Lemma remove_list_of u j t v :
  list_of (remove_from_list u j t) v = if decide (v = u) then list_remove j (list_of t v) else list_of t v.
Proof.
  unfold remove_from_list, list_of. destruct (tr_jobs t !! u) as [l|] eqn:E.
  - cbn. case_decide as Ev.
    + subst v. rewrite E. cbn. destruct (list_remove j l) eqn:El; [by rewrite lookup_delete_eq|by rewrite lookup_insert_eq].
    + destruct (list_remove j l); [by rewrite lookup_delete_ne|by rewrite lookup_insert_ne].
  - case_decide as Ev; [|done]. subst v. by rewrite E.
Qed.

Lemma remove_from_list_eq u j t : ∃ X, remove_from_list u j t = set_jobs X t.
Proof.
  unfold remove_from_list. destruct (tr_jobs t !! u); [by eexists|]. exists (tr_jobs t). by destruct t.
Qed.

(** A job that leaves its list is on its way out. *)
Lemma detach_ok D t u j : wf D t → j ∈ list_of t u →
  cut {[j]} ∅ ∅ t (remove_from_list u j t) ∧ wf ({[j]} ∪ D) (remove_from_list u j t).
Proof.
  intros W Hj. destruct (remove_from_list_eq u j t) as [X EX].
  assert (cut {[j]} ∅ ∅ t (remove_from_list u j t)) as A.
  { split; try (rewrite EX; done).
    - intros v. rewrite remove_list_of. case_decide as Ev; [by rewrite list_remove_filter|].
      rewrite filter_all; [done|]. intros x Hx ->%elem_of_singleton. by apply Ev, (member_unit D t v u j).
    - intros v Hv. unfold remove_from_list. destruct (tr_jobs t !! u) as [l|] eqn:E; [|done]. cbn.
      destruct (list_remove j l); [rewrite lookup_delete|rewrite lookup_insert]; by case_decide.
    - intros x _. rewrite EX. by rewrite filter_all by set_solver.
    - intros x _. rewrite EX. by rewrite filter_all by set_solver. }
  split; [done|]. replace ({[j]} ∪ D) with ((D ∪ {[j]}) ∖ ∅ : gset nat) by set_solver.
  apply (cut_wf D {[j]} ∅ ∅ t); [done|done| |set_solver| |set_solver].
  - rewrite EX. apply W.
  - intros y ->%elem_of_singleton. by exists u.
Qed.

Lemma job_free_ok m j jb : consistent m → objects m !! j = Some jb → j_installed jb = false →
  (∀ id, jobs m !! id ≠ Some j) →
  job_free j m = Some (with_objects (delete j (objects m)) m) ∧ consistent (with_objects (delete j (objects m)) m).
Proof.
  intros C E I HT. unfold job_free, job_unlink. rewrite E. cbn. rewrite I. cbn.
  assert (j_in_run_queue jb || j_in_dbus_queue jb || j_in_gc_queue jb = false) as Hq.
  { apply not_true_is_false. intros Hq. by rewrite (c_queued m C j jb E Hq) in I. }
  apply orb_false_iff in Hq as [[Hr Hd]%orb_false_iff Hg]. rewrite Hr, Hd, Hg.
  split; [by rewrite delete_alter|].
  pose proof (queue_delete _ j_in_run_queue _ j jb E (c_run_queue m C)) as Q1. rewrite Hr in Q1.
  pose proof (queue_delete _ j_in_dbus_queue _ j jb E (c_dbus_queue m C)) as Q2. rewrite Hd in Q2.
  pose proof (queue_delete _ j_in_gc_queue _ j jb E (c_gc_queue m C)) as Q3. rewrite Hg in Q3.
  destruct C. split; cbn; try done.
  - intros u U ty r EU ES. destruct (c_slot u U ty r EU ES) as (j0 & E0 & I0 & H0). exists j0.
    rewrite lookup_delete_ne; [done|]. intros <-. congruence.
  - intros r j0 E0 I0. rewrite lookup_delete in E0. case_decide; [done|]. auto.
  - intros id r J. destruct (c_jobs id r J) as (j0 & E0 & H0). exists j0.
    rewrite lookup_delete_ne; [done|]. intros <-. by apply (HT id).
  - rewrite c_running, (count_delete _ _ j jb) by done. unfold is_running at 1. rewrite I. cbn. lia.
  - rewrite map_size_delete, E. cbn. lia.
  - intros r j0 E0. rewrite lookup_delete in E0. case_decide; [done|]. by apply (c_queued r).
Qed.

Lemma free_job_ok D t j : wf ({[j]} ∪ D) t → j ∉ D → subject_list (info t j) = [] → object_list (info t j) = [] →
  ∃ t', free_job j t = Some t' ∧ cut ∅ {[j]} ∅ t t' ∧ wf D t'.
Proof.
  intros W Nj Hs Ho. destruct (w_pending _ t W j) as (u & jb & E & P); [set_solver|].
  destruct (job_free_ok (tr_m t) j jb) as (Em & C'); [apply W|done|apply P| |].
  { apply (w_table _ t W). left. set_solver. }
  unfold free_job. rewrite Hs, Ho, !bool_decide_true by done. cbn. rewrite Em. cbn. set (t' := set_infos _ _).
  assert (∀ x, x ∉ ({[j]} : gset nat) → info t' x = info t x) as HI.
  { intros x Hx. unfold info. cbn. rewrite lookup_delete_ne; set_solver. }
  assert (cut ∅ {[j]} ∅ t t') as A.
  { split; try done; intros x; rewrite ?decide_False by set_solver.
    - cbn. rewrite lookup_delete. repeat case_decide; done || set_solver.
    - by rewrite filter_all by set_solver.
    - intros Hx. by rewrite HI.
    - intros Hx. rewrite HI by done. by rewrite filter_all by set_solver.
    - intros Hx. rewrite HI by done. by rewrite filter_all by set_solver.
    - intros ->%elem_of_singleton. unfold info. cbn. by rewrite lookup_delete_eq. }
  exists t'. split; [done|]. split; [done|]. replace D with ((({[j]} ∪ D) ∪ ∅) ∖ {[j]} : gset nat) by set_solver.
  apply (cut_wf _ ∅ {[j]} ∅ t); [done..|set_solver|set_solver|].
  intros l d El. destruct (w_link _ t W l d El) as (s & Es & _ & _ & Ls & Lo). split.
  - intros s' Es' ->%elem_of_singleton. rewrite Es in Es'. injection Es' as ->. rewrite Hs in Ls. by apply not_elem_of_nil in Ls.
  - intros Eo%elem_of_singleton. rewrite Eo, Ho in Lo. by apply not_elem_of_nil in Lo.
Qed.

(** ** Deletion of a job *)

(** The link has an end in [X]. *)
Definition touches (X : gset nat) (d : JobDependency) : Prop := (∃ s, d_subject d = Some s ∧ s ∈ X) ∨ d_object d ∈ X.

(** The jobs that must go with those in [X]. *)
Definition upward (dd : bool) (t : Transaction) (X' X : gset nat) : Prop :=
  dd = true → ∀ x y, x ∈ X' → needs t y x → y ∈ X.

(** [X] are jobs of the lists that go because of [j], [K] their links and
    those to [Z]. *)
Record doomed (dd : bool) (j : nat) (Z : gset nat) (t : Transaction) (X K : gset nat) : Prop := {
  dm_member : ∀ x, x ∈ X → member t x;
  dm_why : ∀ x, x ∈ X → x = j ∨ dd = true ∧ rtc (needs t) x j;
  dm_links : ∀ l, l ∈ K → ∃ d, links t !! l = Some d ∧ touches (Z ∪ X) d;
  dm_closed : upward dd t (Z ∪ X) X }.

(** One round of [drop_objects] and what follows it. *)
Lemma doomed_app dd j l d t t1 t2 X1 K1 X2 K2 : links t !! l = Some d → d_object d = j →
  cut ∅ ∅ {[l]} t t1 → cut X1 X1 K1 t1 t2 → doomed dd j {[j]} t2 X2 K2 →
  (X1 = ∅ ∧ K1 = ∅ ∧ (dd = true → d_matters d = false) ∨
   ∃ o, d_subject d = Some o ∧ d_matters d = true ∧ dd = true ∧ o ∈ X1 ∧ doomed dd o ∅ t1 X1 K1) →
  doomed dd j {[j]} t (X1 ∪ X2) ({[l]} ∪ (K1 ∪ K2)).
Proof.
  intros El Eo A1 A2 [M2 W2 L2 C2] H1.
  assert (∀ x, x ∈ X1 → member t x ∧ dd = true ∧ rtc (needs t) x j) as H1'.
  { intros x Hx. destruct H1 as [(-> & _)|(o & Es & Em & Ed & _ & [M1 W1 _ _])]; [set_solver|].
    split; [by apply (member_cut _ _ _ _ _ _ A1), M1|]. split; [done|].
    assert (rtc (needs t) o j) as Ho by (apply rtc_once; exists l, d; auto).
    destruct (W1 x Hx) as [->|[_ Hr]]; [done|]. etrans; [by apply (rtc_needs_cut _ _ _ _ _ _ _ A1)|done]. }
  pose proof (cut_trans _ _ _ _ _ _ _ _ _ A1 A2) as B. split.
  - intros x [Hx|Hx]%elem_of_union; [by apply H1'|]. by apply (member_cut _ _ _ _ _ _ B), M2.
  - intros x [Hx|Hx]%elem_of_union; [right; by apply H1'|]. destruct (W2 x Hx) as [->|[Ed Hr]]; [by left|].
    right. split; [done|]. by apply (rtc_needs_cut _ _ _ _ _ _ _ B).
  - intros k [->%elem_of_singleton|[Hk|Hk]%elem_of_union]%elem_of_union.
    + exists d. split; [done|]. right. set_solver.
    + destruct H1 as [(_ & -> & _)|(o & _ & _ & _ & _ & [_ _ L1 _])]; [set_solver|].
      destruct (L1 k Hk) as (d' & E' & T'). exists d'. rewrite (c_links _ _ _ _ _ A1) in E'. case_decide; [done|].
      split; [done|]. unfold touches in *. set_solver.
    + destruct (L2 k Hk) as (d' & E' & T'). exists d'. rewrite (c_links _ _ _ _ _ B) in E'. case_decide; [done|].
      split; [done|]. unfold touches in *. set_solver.
  - intros Ed x y Hx (k & d' & E' & Em' & Es' & Eo').
    destruct (decide (k = l)) as [->|Hkl].
    { rewrite El in E'. injection E' as <-. destruct H1 as [(_ & _ & H1)|(o & Es & _ & _ & Ho & _)]; [naive_solver congruence|].
      rewrite Es in Es'. injection Es' as ->. set_solver. }
    assert (links t1 !! k = Some d') as E1 by (rewrite (c_links _ _ _ _ _ A1), decide_False by set_solver; done).
    destruct (decide (x ∈ X1)) as [Hx1|Hx1].
    { destruct H1 as [(-> & _)|(o & _ & _ & _ & _ & [_ _ _ C1])]; [set_solver|]. apply elem_of_union_l.
      apply (C1 Ed x); [set_solver|]. by exists k, d'. }
    destruct (decide (k ∈ K1)) as [Hk|Hk].
    + destruct H1 as [(_ & -> & _)|(o & _ & _ & _ & _ & [_ _ L1 C1])]; [set_solver|]. apply elem_of_union_l.
      destruct (L1 k Hk) as (d'' & E'' & T''). rewrite E1 in E''. injection E'' as <-. unfold touches in T''.
      rewrite Eo', Es' in T''. destruct T'' as [(s & [= <-] & Hs)|Ho]; [|set_solver]. set_solver.
    + apply elem_of_union_r. apply (C2 Ed x); [set_solver|]. exists k, d'. split; [|done].
      rewrite (c_links _ _ _ _ _ A2). by rewrite decide_False.
Qed.

(** What deletion of job [j] of the lists must do. *)
Definition deletes (dd : bool) (D : gset nat) (j : nat) (t : Transaction) (o : outcome Transaction) : Prop :=
  ∃ t' X K, o = Ret t' ∧ cut X X K t t' ∧ wf D t' ∧ j ∈ X ∧ doomed dd j ∅ t X K.

Lemma size_links_free l d t t' : cut ∅ ∅ {[l]} t t' → links t !! l = Some d → size (links t) = S (size (links t')).
Proof.
  intros A E. replace (links t) with (<[l := d]> (links t')).
  - apply map_size_insert_None. by rewrite (c_links _ _ _ _ _ A), decide_True by set_solver.
  - apply map_eq. intros k. rewrite lookup_insert, (c_links _ _ _ _ _ A). repeat case_decide; subst; done || set_solver.
Qed.

(** The subject of a link to a job on its way out is in the lists. *)
Lemma link_subject D t l d s : wf D t → rootless D t → links t !! l = Some d → d_subject d = Some s → member t s.
Proof.
  intros W R E Es. destruct (w_link D t W l d E) as (s' & Es' & [Hs|Hs] & _ & Ls & _); simplify_eq; [|done].
  rewrite (R _ Hs) in Ls. by apply not_elem_of_nil in Ls.
Qed.

Lemma drop_objects_ok dd delete_job D j n : ∀ t,
  (∀ o t, wf ({[j]} ∪ D) t → rootless ({[j]} ∪ D) t → member t o → (S (size (links t)) < n)%nat →
     deletes dd ({[j]} ∪ D) o t (delete_job o t)) →
  wf ({[j]} ∪ D) t → rootless ({[j]} ∪ D) t → (size (links t) < n)%nat →
  ∃ t' X K, drop_objects delete_job n j dd t = Ret t' ∧ cut X X K t t' ∧ wf ({[j]} ∪ D) t' ∧
    object_list (info t' j) = [] ∧ doomed dd j {[j]} t X K.
Proof.
  induction n as [|n IH]; intros t Hdel W R Hn; [lia|]. cbn.
  destruct (object_list (info t j)) as [|l ls] eqn:EO.
  { exists t, ∅, ∅. split; [done|]. split; [apply cut_refl|]. split; [done|]. split; [done|].
    split; [set_solver..|]. intros _ x y Hx (l & d & El & _ & _ & Eo). assert (x = j) as -> by set_solver.
    destruct (w_link _ t W l d El) as (s & _ & _ & _ & _ & Lo). rewrite Eo, EO in Lo. by apply not_elem_of_nil in Lo. }
  destruct (w_object _ t W j l) as (d & El & Eo); [rewrite EO; left|]. rewrite El. cbn.
  destruct (free_link_ok _ t l d W El) as (t1 & -> & A1 & W1). cbn.
  pose proof (size_links_free l d t t1 A1 El) as Hs.
  pose proof (rootless_cut _ _ _ _ _ _ A1 (disjoint_empty_r _) R) as R1.
  assert (∃ t2 X1 K1, match (if d_matters d then d_subject d else None) with
      | Some o => if dd then delete_job o t1 else Ret t1 | None => Ret t1 end = Ret t2 ∧
      cut X1 X1 K1 t1 t2 ∧ wf ({[j]} ∪ D) t2 ∧ rootless ({[j]} ∪ D) t2 ∧
      (X1 = ∅ ∧ K1 = ∅ ∧ (dd = true → d_matters d = false) ∨
       ∃ o, d_subject d = Some o ∧ d_matters d = true ∧ dd = true ∧ o ∈ X1 ∧ doomed dd o ∅ t1 X1 K1))
    as (t2 & X1 & K1 & -> & A2 & W2 & R2 & H1).
  { destruct (w_link _ t W l d El) as (s & Es & _). destruct (d_matters d) eqn:Em; [rewrite Es; destruct dd|].
    - assert (member t1 s) as Ms.
      { destruct (link_subject _ t l d s W R El Es) as [u Hu]. exists u.
        rewrite (c_list _ _ _ _ _ A1). by rewrite filter_all by set_solver. }
      destruct (Hdel s t1 W1 R1 Ms) as (t2 & X1 & K1 & E2 & A2 & W2 & HsX & Dm); [lia|].
      exists t2, X1, K1. split; [done|]. split; [done|]. split; [done|]. split; [|right; exists s; auto].
      apply (rootless_cut _ _ _ _ _ _ A2); [|done]. intros x Hx HX. destruct (dm_member _ _ _ _ _ _ Dm x HX) as [u Hu].
      by apply (w_member _ t1 W1 u x Hu).
    - exists t1, ∅, ∅. split; [done|]. split; [apply cut_refl|]. split; [done|]. split; [done|]. by left.
    - exists t1, ∅, ∅. split; [done|]. split; [apply cut_refl|]. split; [done|]. split; [done|]. by left. }
  cbn. destruct (IH t2) as (t' & X2 & K2 & -> & A3 & W3 & Ho & Dm2).
  { intros o t3 W' R' M' Hlt. apply Hdel; [done..|lia]. }
  { done. }
  { done. }
  { pose proof (size_links_cut _ _ _ _ _ A2). lia. }
  exists t', (X1 ∪ X2), ({[l]} ∪ (K1 ∪ K2)). split; [done|]. split; [|split; [done|split; [done|]]].
  - pose proof (cut_trans _ _ _ _ _ _ _ _ _ A1 (cut_trans _ _ _ _ _ _ _ _ _ A2 A3)) as B.
    by rewrite !union_empty_l_L in B.
  - by apply (doomed_app dd j l d t t1 t2).
Qed.

Lemma doomed_delete dd D j t t0 t1 X K : member t j → cut {[j]} ∅ ∅ t t0 →
  wf D t0 → cut ∅ ∅ (list_to_set (subject_list (info t0 j))) t0 t1 → doomed dd j {[j]} t1 X K →
  doomed dd j ∅ t ({[j]} ∪ X) (list_to_set (subject_list (info t0 j)) ∪ K).
Proof.
  intros Mj A0 W0 A1 [M W L C]. pose proof (cut_trans _ _ _ _ _ _ _ _ _ A0 A1) as B.
  assert (∀ l, l ∈ subject_list (info t0 j) → ∃ d, links t !! l = Some d ∧ d_subject d = Some j) as HS.
  { intros l Hl. destruct (w_subject _ t0 W0 j l Hl) as (d & E & Es). exists d. split; [|done].
    rewrite (c_links _ _ _ _ _ A0) in E. by case_decide. }
  split.
  - intros x [->%elem_of_singleton|Hx]%elem_of_union; [done|]. by apply (member_cut _ _ _ _ _ _ B), M.
  - intros x [->%elem_of_singleton|Hx]%elem_of_union; [by left|]. destruct (W x Hx) as [->|[Ed Hr]]; [by left|].
    right. split; [done|]. by apply (rtc_needs_cut _ _ _ _ _ _ _ B).
  - intros l [Hl%elem_of_list_to_set|Hl]%elem_of_union.
    + destruct (HS l Hl) as (d & E & Es). exists d. split; [done|]. left. exists j. set_solver.
    + destruct (L l Hl) as (d & E & T). exists d. rewrite (c_links _ _ _ _ _ B) in E. case_decide; [done|].
      split; [done|]. unfold touches in *. set_solver.
  - intros Ed x y Hx (l & d & E & Em & Es & Eo).
    destruct (decide (l ∈ subject_list (info t0 j))) as [Hl|Hl].
    + destruct (HS l Hl) as (d' & E' & Es'). simplify_eq. set_solver.
    + apply elem_of_union_r, (C Ed x); [set_solver|]. exists l, d. split; [|done].
      rewrite (c_links _ _ _ _ _ B). by rewrite decide_False by set_solver.
Qed.

(** Deletion of a job that is in a list; more fuel than links is enough. *)
Lemma delete_ok dd fuel : ∀ D j t, wf D t → rootless D t → member t j → (size (links t) < fuel)%nat →
  deletes dd D j t (transaction_delete_job fuel j dd t).
Proof.
  induction fuel as [|fuel IH]; intros D j t W R [u Hu] Hf; [lia|]. cbn. unfold unlink_job.
  destruct (w_member D t W u j Hu) as (HjD & jb & E & P). unfold get_job. rewrite E. cbn.
  destruct P as [-> _]. destruct (detach_ok D t _ j W Hu) as [A0 W0]. set (t0 := remove_from_list _ j t) in *.
  destruct (drop_subjects_ok ({[j]} ∪ D) (subject_list (info t0 j)) t0) as (t1 & -> & A1 & W1); [done|apply W0| |].
  { intros l Hl. destruct (w_subject _ t0 W0 j l Hl) as (d & Ed & _). by exists d. }
  cbn. assert (rootless ({[j]} ∪ D) t1) as R1.
  { intros x [->%elem_of_singleton|Hx]%elem_of_union.
    - rewrite (c_subjects _ _ _ _ _ A1) by set_solver. apply filter_none. set_solver.
    - rewrite (c_subjects _ _ _ _ _ A1 x), (c_subjects _ _ _ _ _ A0 x), (R x Hx) by set_solver. done. }
  pose proof (size_links_cut _ _ _ _ _ (cut_trans _ _ _ _ _ _ _ _ _ A0 A1)) as Hs.
  destruct (drop_objects_ok dd (λ o, transaction_delete_job fuel o dd) D j (S fuel) t1) as (t2 & X & K & E2 & A2 & W2 & Ho & Dm);
    [|done|done|lia|].
  { intros o t3 W3 R3 M3 Hlt. apply IH; [done..|lia]. }
  assert (({[j]} ∪ D) ## X) as HX.
  { intros x Hx HX. destruct (dm_member _ _ _ _ _ _ Dm x HX) as [v Hv]. by apply (w_member _ t1 W1 v x Hv). }
  pose proof (rootless_cut _ _ _ _ _ _ A2 HX R1) as R2.
  destruct (free_job_ok D t2 j W2 HjD) as (t3 & E3 & A3 & W3); [apply R2; set_solver|done|].
  unfold deletes. cbn in E2. rewrite E2. cbn. rewrite E3.
  exists t3, ({[j]} ∪ X), (list_to_set (subject_list (info t0 j)) ∪ K). split; [done|]. split; [|split; [done|split; [set_solver|]]].
  - pose proof (cut_trans _ _ _ _ _ _ _ _ _ A0 (cut_trans _ _ _ _ _ _ _ _ _ A1 (cut_trans _ _ _ _ _ _ _ _ _ A2 A3))) as B.
    by rewrite !union_empty_l_L, !union_empty_r_L, (union_comm_L X) in B.
  - apply (doomed_delete dd ({[j]} ∪ D) j t t0 t1); [by exists u|done..].
Qed.

(** The jobs that go when [j] is deleted. *)
Definition goes (dd : bool) (t : Transaction) (j x : nat) : Prop := x = j ∨ dd = true ∧ rtc (needs t) x j.

Lemma doomed_exact dd j t X K : doomed dd j ∅ t X K → j ∈ X → ∀ x, x ∈ X ↔ goes dd t j x.
Proof.
  intros [M W L C] Hj x. split; [apply W|]. clear W. intros [->|[-> Hr]]; [done|].
  induction Hr as [|x y z Hxy _ IH]; [done|]. apply (C eq_refl y); [apply elem_of_union_r, IH, Hj|done].
Qed.

(** The links that stay are those without an end among the deleted jobs. *)
Lemma cut_links_exact dd j D t t' X K l : wf D t' → cut X X K t t' → doomed dd j ∅ t X K → X ## D →
  l ∈ K ↔ ∃ d, links t !! l = Some d ∧ touches X d.
Proof.
  intros W A Dm HD. split.
  - intros Hl. destruct (dm_links _ _ _ _ _ _ Dm l Hl) as (d & E & T). exists d. by rewrite union_empty_l_L in T.
  - intros (d & E & T). destruct (decide (l ∈ K)) as [|Hl]; [done|exfalso].
    assert (links t' !! l = Some d) as E' by (rewrite (c_links _ _ _ _ _ A), decide_False; done).
    destruct (w_link D t' W l d E') as (s & Es & Gs & Go & _).
    assert (∀ x, in_graph D t' x → x ∉ X) as HG.
    { intros x [Hx|[u Hu]]; [set_solver|]. rewrite (c_list _ _ _ _ _ A) in Hu. by apply list_elem_of_filter in Hu as [? _]. }
    destruct T as [(s' & Es' & Hs')|Ho]; [simplify_eq; by apply (HG _ Gs)|by apply (HG _ Go)].
Qed.

(** C11. [transaction_delete_job] returns for every job of a well-formed
    transaction and leaves a well-formed one. Without [delete_dependencies] it
    deletes the job alone, else exactly the jobs that need it directly or
    through others. The links of the deleted jobs go with them, and nothing else
    of the transaction or the manager changes. *)
Theorem transaction_delete_job_correct (fuel : nat) (j : nat) (dd : bool) (t : Transaction) :
  wf ∅ t → member t j → (size (links t) < fuel)%nat →
  ∃ t' X K, transaction_delete_job fuel j dd t = Ret t' ∧ wf ∅ t' ∧ cut X X K t t' ∧
    (∀ x, x ∈ X ↔ x = j ∨ dd = true ∧ rtc (needs t) x j) ∧
    (∀ l, l ∈ K ↔ ∃ d, links t !! l = Some d ∧ touches X d).
Proof.
  intros W M Hf. destruct (delete_ok dd fuel ∅ j t W) as (t' & X & K & E & A & W' & Hj & Dm); [set_solver|done..|].
  exists t', X, K. split; [done|]. split; [done|]. split; [done|]. split; [by apply (doomed_exact dd j t X K)|].
  intros l. by apply (cut_links_exact dd j ∅ t t').
Qed.

(** ** Series of deletions *)

(** [t'] is [t] without jobs of [P], which the lists of [t] held. *)
Definition trims_by (M : JobInfo → JobInfo → Prop) (P : nat → Prop) (t t' : Transaction) : Prop :=
  ∃ X K, cut_by M X X K t t' ∧ wf ∅ t' ∧ ∀ x, x ∈ X → member t x ∧ P x.

Abbreviation trims := (trims_by same_marks).
Abbreviation prunes := (trims_by same_matters).

Section Trims.
Context {M : JobInfo → JobInfo → Prop} `{!Marks M}.

Lemma trims_refl P t : wf ∅ t → trims_by M P t t.
Proof. intros W. exists ∅, ∅. split; [apply cut_refl|]. split; [done|set_solver]. Qed.

Lemma trims_trans (P P' : nat → Prop) t1 t2 t3 : trims_by M P t1 t2 → trims_by M P' t2 t3 → (∀ x, P' x → P x) → trims_by M P t1 t3.
Proof.
  intros (X1 & K1 & A1 & W1 & H1) (X2 & K2 & A2 & W2 & H2) HP. exists (X1 ∪ X2), (K1 ∪ K2).
  split; [by apply (cut_trans _ _ _ _ _ _ t1 t2)|]. split; [done|].
  intros x [Hx|Hx]%elem_of_union; [auto|]. destruct (H2 x Hx). split; [by apply (member_cut _ _ _ _ _ _ A1)|auto].
Qed.

Lemma trims_wf P t t' : trims_by M P t t' → wf ∅ t'.
Proof. by intros (X & K & _ & W & _). Qed.

Lemma trims_member P t t' x : trims_by M P t t' → member t' x → member t x.
Proof. intros (X & K & A & _) Hx. by apply (member_cut _ _ _ _ _ _ A). Qed.

(** A job that stays is where it was. *)
Lemma trims_stays P t t' u x : trims_by M P t t' → x ∈ list_of t u → ¬ P x → x ∈ list_of t' u.
Proof.
  intros (X & K & A & _ & H) Hx HP. rewrite (c_list _ _ _ _ _ A), list_elem_of_filter. split; [|done].
  intros HX. by destruct (H x HX).
Qed.

Lemma trims_needs P t t' x y : trims_by M P t t' → needs t' x y → needs t x y.
Proof. intros (X & K & A & _). by apply (needs_cut _ _ _ _ _ _ _ A). Qed.

End Trims.

(** The jobs that need, directly or not, a job for which [P] holds. *)
Definition needing (t : Transaction) (P : nat → Prop) (x : nat) : Prop := ∃ y, rtc (needs t) x y ∧ P y.

(** Deletion as the loops use it. *)
Lemma delete_trims dd t j : wf ∅ t → member t j →
  ∃ t', transaction_delete_job (enough t) j dd t = Ret t' ∧ trims (goes dd t j) t t' ∧ ¬ member t' j ∧
    (size (objects (tr_m t')) < size (objects (tr_m t)))%nat.
Proof.
  intros W M. destruct (delete_ok dd (enough t) ∅ j t W) as (t' & X & K & E & A & W' & Hj & Dm); [set_solver|done|unfold enough; lia|].
  exists t'. split; [done|]. split; [|split].
  - exists X, K. split; [done|]. split; [done|]. intros x Hx. split; [by apply Dm|]. by apply (doomed_exact dd j t X K).
  - intros [u Hu]. rewrite (c_list _ _ _ _ _ A) in Hu. by apply list_elem_of_filter in Hu as [? _].
  - by apply (cut_smaller (M:=same_marks) ∅ X K t t' j).
Qed.

Lemma first_job_head t u j : first_job t u = Some j ↔ ∃ l, list_of t u = j :: l.
Proof.
  unfold first_job, list_of. destruct (tr_jobs t !! u) as [[|x l]|]; cbn; [naive_solver| |naive_solver].
  split; [intros [= ->]; by exists l|by intros (l' & [= -> ->])].
Qed.

Lemma first_job_none D t u : wf D t → first_job t u = None ↔ tr_jobs t !! u = None.
Proof.
  intros W. pose proof (w_list D t W u) as H. unfold first_job. destruct (tr_jobs t !! u) as [[|x l]|]; cbn; naive_solver.
Qed.

Lemma goes_needing t t1 P dd j x : (∀ x y, needs t1 x y → needs t x y) → P j → goes dd t1 j x → needing t P x.
Proof.
  intros HN Hj [->|[_ Hr]]; [by exists j|]. exists j. split; [|done]. revert Hr. by apply rtc_subrel.
Qed.

Lemma delete_unit_trims t u : wf ∅ t →
  ∃ t', transaction_delete_unit u t = Ret t' ∧ trims (needing t (.∈ list_of t u)) t t' ∧ tr_jobs t' !! u = None ∧
    (tr_jobs t !! u ≠ None → (size (objects (tr_m t')) < size (objects (tr_m t)))%nat).
Proof.
  intros W. unfold transaction_delete_unit.
  assert (∀ n t1, trims (needing t (.∈ list_of t u)) t t1 → (size (objects (tr_m t1)) < n)%nat →
    ∃ t', delete_unit_loop n u t1 = Ret t' ∧ trims (needing t (.∈ list_of t u)) t t' ∧ tr_jobs t' !! u = None ∧
    (tr_jobs t1 !! u ≠ None → (size (objects (tr_m t')) < size (objects (tr_m t1)))%nat)) as H.
  { induction n as [|n IH]; intros t1 T Hn; [lia|]. cbn. pose proof (trims_wf _ _ _ T) as W1.
    destruct (first_job t1 u) as [j|] eqn:Ej.
    - destruct (proj1 (first_job_head t1 u j) Ej) as [l El].
      assert (j ∈ list_of t1 u) as Hj by (rewrite El; left).
      destruct (delete_trims true t1 j W1) as (t2 & -> & T2 & _ & S2); [by exists u|]. cbn.
      destruct (IH t2) as (t' & E' & T' & N' & S'); [|lia|].
      { apply (trims_trans _ _ _ _ _ T T2). intros x. apply goes_needing; [intros ??; by apply (trims_needs _ _ _ _ _ T)|].
        destruct T as (X & K & A & _). rewrite (c_list _ _ _ _ _ A) in Hj. by apply list_elem_of_filter in Hj as [_ ?]. }
      exists t'. split; [done|]. split; [done|]. split; [done|]. intros _.
      destruct (decide (tr_jobs t2 !! u = None)) as [E2|E2]; [|specialize (S' E2); lia].
      destruct n as [|n]; [lia|]. cbn in E'. rewrite (proj2 (first_job_none ∅ t2 u (trims_wf _ _ _ T2)) E2) in E'.
      injection E' as <-. lia.
    - exists t1. split; [done|]. split; [done|]. split; [by apply (first_job_none ∅ t1 u W1)|].
      by rewrite (proj1 (first_job_none ∅ t1 u W1) Ej). }
  apply H; [by apply trims_refl|unfold n_jobs; lia].
Qed.
