(* ===== verification/TransactionMarks.v ===== *)
(** * systemd: what matters to the anchor of a transaction

    Changes of marks, loops, and the sweep
    [transaction_find_jobs_that_matter_to_anchor], which marks exactly what the
    anchor job needs. *)

From S2P Require Import Prelude Outcome JobMerge Job JobProps Transaction TransactionProps.

#[local] Open Scope Z_scope.
#[local] Set Warnings "-clear-no-such-hyp".

(** ** Changes of marks *)

(** The same transaction but for the fields [matters_to_anchor], [marker] and
    [generation] of its jobs. *)
Record remarked (t t' : Transaction) : Prop := {
  r_m : tr_m t' = tr_m t;
  r_jobs : tr_jobs t' = tr_jobs t;
  r_anchor : anchor_job t' = anchor_job t;
  r_irreversible : irreversible t' = irreversible t;
  r_links : links t' = links t;
  r_subjects : ∀ x, subject_list (info t' x) = subject_list (info t x);
  r_objects : ∀ x, object_list (info t' x) = object_list (info t x) }.

#[export] Instance remarked_equivalence : Equivalence remarked.
Proof.
  split.
  - by split.
  - intros t t' []. by split.
  - intros t1 t2 t3 [] []. split; try (etrans; eauto); intros x; etrans; eauto.
Qed.

#[export] Instance remarked_list_of : Proper (remarked ==> eq ==> eq) list_of.
Proof. intros t t' R u ? <-. unfold list_of. by rewrite (r_jobs _ _ R). Qed.

#[export] Instance remarked_member : Proper (remarked ==> eq ==> iff) member.
Proof. intros t t' R u ? <-. unfold member. by setoid_rewrite R. Qed.

#[export] Instance remarked_needs : Proper (remarked ==> eq ==> eq ==> iff) needs.
Proof. intros t t' R x ? <- y ? <-. unfold needs. by rewrite (r_links _ _ R). Qed.

Lemma remarked_graph D t t' x : remarked t t' → in_graph D t' x ↔ in_graph D t x.
Proof. intros R. unfold in_graph. by rewrite R. Qed.

Lemma remarked_wf D t t' : remarked t t' → wf D t → wf D t'.
Proof.
  intros R W. pose proof (λ x, remarked_graph D t t' x R) as HG.
  split; try setoid_rewrite HG; rewrite ?(r_m _ _ R), ?(r_jobs _ _ R), ?(r_links _ _ R);
    repeat setoid_rewrite (r_subjects _ _ R); repeat setoid_rewrite (r_objects _ _ R);
    try setoid_rewrite <- R; apply W.
Qed.

Lemma modify_marks_remarked j f t : (∀ i, subject_list (f i) = subject_list i) → (∀ i, object_list (f i) = object_list i) →
  remarked t (modify_info j f t).
Proof. intros H1 H2. split; try done; intros x; rewrite info_modify; case_decide; subst; done || auto. Qed.

(** ** Loops *)

Lemma until_error_ok {S} (f : nat → S → outcome (Z * S)) (P : list nat → S → Prop) (Q : Z → S → Prop) l : ∀ seen s,
  P seen s →
  (∀ x seen s, x ∈ l → P seen s → ∃ r s', f x s = Ret (r, s') ∧ (0 ≤ r ∧ P (x :: seen) s' ∨ r < 0 ∧ Q r s')) →
  ∃ r s', until_error f l s = Ret (r, s') ∧ (r = 0 ∧ P (rev l ++ seen) s' ∨ r < 0 ∧ Q r s').
Proof.
  induction l as [|x l IH]; intros seen s HP Hf; cbn; [exists 0, s; auto|].
  destruct (Hf x seen s) as (r & s1 & -> & H1); [left|done|]. cbn.
  destruct H1 as [[Hr H1]|[Hr H1]].
  - rewrite (proj2 (Z.ltb_ge r 0)) by done. rewrite <- app_assoc. cbn. apply IH; [done|].
    intros y seen' s' Hy. apply Hf. by right.
  - rewrite (proj2 (Z.ltb_lt r 0)) by done. exists r, s1. auto.
Qed.

Lemma for_all_ok {S} (f : nat → S → outcome S) (P : list nat → S → Prop) l : ∀ seen s,
  P seen s → (∀ x seen s, x ∈ l → P seen s → ∃ s', f x s = Ret s' ∧ P (x :: seen) s') →
  ∃ s', for_all f l s = Ret s' ∧ P (rev l ++ seen) s'.
Proof.
  induction l as [|x l IH]; intros seen s HP Hf; cbn; [by exists s|].
  destruct (Hf x seen s) as (s1 & -> & H1); [left|done|]. cbn. rewrite <- app_assoc. cbn.
  apply IH; [done|]. intros y seen' s' Hy. apply Hf. by right.
Qed.

Lemma elem_of_rev (x : nat) l : x ∈ rev l ↔ x ∈ l.
Proof. by rewrite !list_elem_of_In, <- in_rev. Qed.

(** ** What the anchor job needs *)

Section Marks.
Context `{TransactionEnv} (g : Z) (t0 : Transaction).
Hypothesis W0 : wf ∅ t0.

Definition visited (t : Transaction) (x : nat) : Prop := generation (info t x) = g.

#[export] Instance visited_dec t x : Decision (visited t x).
Proof. unfold visited. apply _. Defined.

Definition unvisited (t : Transaction) : gset nat := filter (λ x, ¬ visited t x) (dom (objects (tr_m t0))).

(** A search that went from [t] to [t'] and found the jobs for which [R] holds;
    those in [A] are not done. *)
Record search (R A : nat → Prop) (t t' : Transaction) : Prop := {
  s_remarked : remarked t t';
  s_mono : ∀ x, visited t x → visited t' x;
  s_found : ∀ x, visited t' x → visited t x ∨ R x;
  s_matters : ∀ x, matters_to_anchor (info t' x) = true ↔ matters_to_anchor (info t x) = true ∨ (visited t' x ∧ ¬ visited t x);
  s_marker : ∀ x, marker (info t' x) = marker (info t x);
  s_old : ∀ x, ¬ visited t' x → generation (info t' x) = generation (info t x);
  s_closed : ∀ x, visited t' x → visited t x ∨ A x ∨ ∀ y, needs t0 x y → visited t' y }.

Lemma search_refl R A t : search R A t t.
Proof. split; try done; auto. intros x. tauto. Qed.

Lemma search_trans R A t1 t2 t3 : search R A t1 t2 → search R A t2 t3 → search R A t1 t3.
Proof.
  intros [] []. split; [by etrans|auto|..].
  - intros x Hx. destruct (s_found1 x Hx) as [H2|H2]; auto.
  - intros x. rewrite s_matters1, s_matters0. specialize (s_mono0 x). specialize (s_mono1 x).
    destruct (decide (visited t2 x)), (decide (visited t1 x)); tauto.
  - intros x. by rewrite s_marker1.
  - intros x Hx. rewrite s_old1 by done. apply s_old0. auto.
  - intros x Hx. destruct (s_closed1 x Hx) as [H2|[H2|H2]]; auto.
    destruct (s_closed0 x H2) as [H3|[H3|H3]]; auto 6.
Qed.

Lemma search_weaken (R R' A A' : nat → Prop) t t' : search R A t t' → (∀ x, R x → R' x) →
  (∀ x, A x → A' x ∨ ∀ y, needs t0 x y → visited t' y) → search R' A' t t'.
Proof.
  intros [] HR HA. split; auto.
  - intros x Hx. destruct (s_found0 x Hx); auto.
  - intros x Hx. destruct (s_closed0 x Hx) as [H1|[H1|H1]]; auto.
Qed.

Lemma search_unvisited R A t t' : search R A t t' → unvisited t' ⊆ unvisited t.
Proof. intros S x. unfold unvisited. rewrite !elem_of_filter. intros [Hx Hd]. split; [|done]. contradict Hx. by apply S. Qed.

(** Marking the job itself. *)
Lemma search_mark t j : ¬ visited t j →
  search (.= j) (.= j) t (modify_info j (λ i, with_marks (marker i) g (with_matters true i)) t).
Proof.
  intros Hj. set (t' := modify_info _ _ _).
  assert (∀ x, visited t' x ↔ visited t x ∨ x = j) as HV.
  { intros x. unfold visited, t'. rewrite info_modify. case_decide; subst; cbn; naive_solver. }
  split; [by apply modify_marks_remarked|..]; intros x; rewrite ?HV.
  - tauto.
  - tauto.
  - unfold t'. rewrite info_modify. case_decide; subst; cbn; tauto.
  - unfold t'. rewrite info_modify. by case_decide; subst.
  - intros Hx. unfold t'. rewrite info_modify, decide_False; [done|tauto].
  - tauto.
Qed.

Lemma find_jobs_search fuel : ∀ j t, remarked t0 t → member t0 j → ¬ visited t j → (size (unvisited t) < fuel)%nat →
  ∃ t', transaction_find_jobs_that_matter_to_anchor fuel j g t = Ret t' ∧
    search (rtc (needs t0) j) (λ _, False) t t' ∧ visited t' j.
Proof.
  induction fuel as [|fuel IH]; intros j t R M Hj Hf; [lia|]. cbn.
  destruct (graph_alive ∅ t0 j W0) as [jb Eb]; [by right|].
  assert (j ∈ unvisited t) as Hu by (unfold unvisited; rewrite elem_of_filter, elem_of_dom; eauto).
  unfold get_job. rewrite (r_m _ _ R), Eb. cbn. pose proof (search_mark t j Hj) as S1. set (t1 := modify_info _ _ t) in *.
  assert (visited t1 j) as V1 by (unfold visited, t1; rewrite info_modify, decide_True; done).
  assert (size (unvisited t1) < fuel)%nat as Hf1.
  { assert (unvisited t1 ⊂ unvisited t) as Hs%subset_size; [|lia].
    split; [by apply (search_unvisited _ _ _ _ S1)|].
    intros Hs. specialize (Hs j Hu). unfold unvisited in Hs. by apply elem_of_filter in Hs as [? _]. }
  destruct (for_all_ok (λ l t, d ←! links t !! l;
        if negb (d_matters d) then Ret t
        else if generation (info t (d_object d)) =? g then Ret t
        else transaction_find_jobs_that_matter_to_anchor fuel (d_object d) g t)
    (λ seen s, search (rtc (needs t0) j) (.= j) t1 s ∧
       ∀ l d, l ∈ seen → links t0 !! l = Some d → d_matters d = true → visited s (d_object d))
    (subject_list (info t1 j)) [] t1) as (t' & E' & S' & H').
  { split; [apply search_refl|set_solver]. }
  { intros l seen s Hl [Ss Hs]. assert (remarked t0 s) as Rs by (etrans; [exact R|etrans; [apply S1|apply Ss]]).
    assert (l ∈ subject_list (info t0 j)) as Hl0.
    { rewrite (r_subjects _ _ (s_remarked _ _ _ _ S1)), (r_subjects _ _ R) in Hl. done. }
    destruct (w_subject ∅ t0 W0 j l Hl0) as (d & El & Es). rewrite (r_links _ _ Rs), El. cbn.
    destruct (d_matters d) eqn:Em; cbn.
    2: { exists s. split; [done|]. split; [done|]. intros l' d' [->|Hl']%elem_of_cons; [congruence|eauto]. }
    destruct (Z.eqb_spec (generation (info s (d_object d))) g) as [Hg|Hg].
    { exists s. split; [done|]. split; [done|]. intros l' d' [->|Hl']%elem_of_cons; [by intros; simplify_eq|eauto]. }
    assert (needs t0 j (d_object d)) as Hn by (exists l, d; auto).
    destruct (w_link ∅ t0 W0 l d El) as (_ & _ & _ & [Hd|Hd] & _); [set_solver|].
    destruct (IH (d_object d) s) as (s' & Es' & S2 & V2); [done|done|done| |].
    { pose proof (subseteq_size _ _ (search_unvisited _ _ _ _ Ss)). lia. }
    exists s'. split; [done|]. split.
    - apply (search_trans _ _ _ _ _ Ss), (search_weaken _ _ _ _ _ _ S2); [|by intros].
      intros x Hx. by apply (rtc_l _ _ (d_object d)).
    - intros l' d' [->|Hl']%elem_of_cons El' Em'; [by simplify_eq|]. apply S2. by apply (Hs l' d'). }
  exists t'. cbn in E'. split; [done|]. split.
  - apply (search_weaken (rtc (needs t0) j) _ (.= j) _ t t').
    + apply (search_trans _ _ _ t1); [|done]. apply (search_weaken _ _ _ _ _ _ S1); [by intros x ->|by left].
    + done.
    + intros x ->. right. intros y (l & d & El & Em & Es & <-). apply (H' l d); [|done..].
      rewrite app_nil_r, elem_of_rev.
      rewrite (r_subjects _ _ (s_remarked _ _ _ _ S1)), (r_subjects _ _ R).
      destruct (w_link ∅ t0 W0 l d El) as (s & Es' & _ & _ & Ls & _). by simplify_eq.
  - by apply S'.
Qed.

End Marks.

Lemma find_jobs_ok `{TransactionEnv} (g : Z) (anchor : nat) (t : Transaction) :
  wf ∅ t → member t anchor → (∀ x, generation (info t x) ≠ g ∧ matters_to_anchor (info t x) = false) →
  ∃ t', transaction_find_jobs_that_matter_to_anchor (n_jobs t) anchor g t = Ret t' ∧ remarked t t' ∧
    (∀ x, matters_to_anchor (info t' x) = true ↔ rtc (needs t) anchor x) ∧
    (∀ x, marker (info t' x) = marker (info t x) ∧ (generation (info t' x) = generation (info t x) ∨ generation (info t' x) = g)).
Proof.
  intros W M Hg. assert (∀ x, ¬ visited g t x) as Hv by (intros x; apply Hg).
  destruct (find_jobs_search g t W (n_jobs t) anchor t) as (t' & E & S & V); [done|done|done| |].
  { unfold n_jobs. rewrite <- (size_dom (D:=gset nat) (objects (tr_m t))). unfold unvisited. 
    assert (size (filter (λ x, ¬ visited g t x) (dom (objects (tr_m t)))) ≤ size (dom (objects (tr_m t))))%nat; [|lia].
    apply subseteq_size. set_solver. }
  exists t'. split; [done|]. split; [apply S|]. split.
  - intros x. rewrite (s_matters _ _ _ _ _ _ S). destruct (Hg x) as [_ ->]. split.
    + intros [|[Hx _]]; [done|]. destruct (s_found _ _ _ _ _ _ S x Hx) as [Hx'|Hx']; [by apply Hv in Hx'|done].
    + intros Hr. right. split; [|apply Hv].
      assert (∀ x y, visited g t' x → needs t x y → visited g t' y) as HC.
      { intros y z Vy Hyz. destruct (s_closed _ _ _ _ _ _ S y Vy) as [Hy|[[]|HC]]; [by apply Hv in Hy|by apply HC]. }
      clear -Hr V HC. induction Hr as [|x y z Hxy _ IH]; [done|]. by apply IH, (HC x).
  - intros x. split; [apply S|]. destruct (decide (visited g t' x)) as [|Hx]; [by right|left; by apply S].
Qed.

(** From generations that differ from [g], the sweep of
    [transaction_find_jobs_that_matter_to_anchor] ends and marks exactly the jobs
    that the anchor job needs, directly or through others, by links that all
    matter; nothing else of the transaction changes. *)
Theorem jobs_that_matter_correct `{TransactionEnv} (g : Z) (anchor : nat) (t : Transaction) :
  wf ∅ t → member t anchor → (∀ x, generation (info t x) ≠ g ∧ matters_to_anchor (info t x) = false) →
  ∃ t', transaction_find_jobs_that_matter_to_anchor (n_jobs t) anchor g t = Ret t' ∧ remarked t t' ∧
    (∀ x, matters_to_anchor (info t' x) = true ↔ rtc (needs t) anchor x) ∧
    (∀ x, marker (info t' x) = marker (info t x) ∧ (generation (info t' x) = generation (info t x) ∨ generation (info t' x) = g)).
Proof. apply find_jobs_ok. Qed.
