(* ===== verification/TransactionOrder.v ===== *)
(** * systemd: the order of a transaction

    [transaction_verify_order] succeeds exactly when the order of the jobs, those
    of the transaction and the installed ones, has no circle that the
    transaction reaches; else it drops a unit on a circle that does not matter to
    the anchor, or reports a circle of jobs that all must stay. *)

From S2P Require Import Prelude Outcome JobMerge Job JobProps Transaction TransactionProps TransactionMarks.

#[local] Open Scope Z_scope.
#[local] Set Warnings "-clear-no-such-hyp".

(** ** The order *)

(** The job that stands for unit [u] in the order. *)
Definition stands_for (t : Transaction) (u o : nat) : Prop :=
  ∃ U, units (tr_m t) !! u = Some U ∧ job_for t U u = Some o.

Definition order_deps (dir : OrderDep) (U : Unit) : list nat :=
  match dir with UNIT_BEFORE => u_before U | UNIT_AFTER => u_after U end.

(** Job [j] runs before job [o]. *)
Definition before (t : Transaction) (j o : nat) : Prop := ∃ jb ob U v dir c,
  objects (tr_m t) !! j = Some jb ∧ objects (tr_m t) !! o = Some ob ∧ units (tr_m t) !! j_unit jb = Some U ∧
  v ∈ order_deps dir U ∧ stands_for t v o ∧ job_compare jb ob dir = Some c ∧ c < 0.

(** The jobs of unit [u] may all be dropped: none matters to the anchor. *)
Definition droppable (t : Transaction) (u : nat) : Prop :=
  tr_jobs t !! u ≠ None ∧ ∀ x, x ∈ list_of t u → matters_to_anchor (info t x) = false.

#[export] Instance droppable_dec t u : Decision (droppable t u).
Proof.
  unfold droppable. destruct (decide (Forall (λ x, matters_to_anchor (info t x) = false) (list_of t u))) as [F|F].
  - destruct (tr_jobs t !! u); [left|right]; rewrite <- Forall_forall; naive_solver.
  - right. rewrite <- Forall_forall. naive_solver.
Defined.

(** The unit of a job may be dropped. *)
Definition may_drop (t : Transaction) (k : nat) : Prop := ∃ kb, objects (tr_m t) !! k = Some kb ∧ droppable t (j_unit kb).

(** The order leads from the transaction to the job. *)
Definition reached (t : Transaction) (x : nat) : Prop := ∃ u j, first_job t u = Some j ∧ rtc (before t) j x.

(** A circle of jobs that must stay. *)
Definition stuck (t : Transaction) : Prop :=
  ∃ x, reached t x ∧ tc (λ a b, before t a b ∧ ¬ may_drop t a ∧ ¬ may_drop t b) x x.

#[export] Instance remarked_stands_for : Proper (remarked ==> eq ==> eq ==> iff) stands_for.
Proof.
  intros t t' R u ? <- o ? <-. unfold stands_for, job_for, first_job. by rewrite (r_m _ _ R), (r_jobs _ _ R).
Qed.

#[export] Instance remarked_before : Proper (remarked ==> eq ==> eq ==> iff) before.
Proof.
  intros t t' R j ? <- o ? <-. unfold before. rewrite (r_m _ _ R).
  assert (∀ v, stands_for t v o ↔ stands_for t' v o) as E by (intros v; by rewrite R). by setoid_rewrite E.
Qed.

(** ** Chains *)

(** Each job of the list is related to the one listed before it. *)
Fixpoint chain (R : nat → nat → Prop) (c : list nat) : Prop :=
  match c with
  | [] => True
  | x :: c => (∀ y, head c = Some y → R y x) ∧ chain R c
  end.

Lemma chain_app_l R c1 c2 : chain R (c1 ++ c2) → chain R c1.
Proof.
  induction c1 as [|x c1 IH]; [done|]. cbn. intros [H1 H2]. split; [|auto].
  intros y Hy. apply H1. by destruct c1.
Qed.

(** A job of a chain leads to its head. *)
Lemma chain_rtc R c : ∀ x y, chain R c → head c = Some x → y ∈ c → rtc R y x.
Proof.
  induction c as [|z c IH]; intros x y H Hx Hy; [done|]. injection Hx as ->. destruct H as [H1 H2].
  apply elem_of_cons in Hy as [->|Hy]; [done|]. destruct c as [|w c]; [by apply not_elem_of_nil in Hy|].
  eapply rtc_r; [by apply (IH w)|by apply H1].
Qed.

(** The last job of a chain leads to all. *)
Lemma chain_last_rtc R c j : ∀ y, chain R (c ++ [j]) → y ∈ c ++ [j] → rtc R j y.
Proof.
  induction c as [|z c IH]; intros y H Hy; [by apply list_elem_of_singleton in Hy as ->|].
  rewrite <- app_comm_cons in Hy. destruct H as [H1 H2].
  apply elem_of_cons in Hy as [->|Hy]; [|by apply IH]. destruct (c ++ [j]) as [|w q] eqn:E; [by destruct c|].
  eapply rtc_r; [apply (IH w); [done|left]|by apply H1].
Qed.

Lemma chain_impl (R R' : nat → nat → Prop) c : chain R c → (∀ x y, x ∈ c → y ∈ c → R x y → R' x y) → chain R' c.
Proof.
  induction c as [|x c IH]; [done|]. cbn. intros [H1 H2] HR. split.
  - intros y Hy. apply HR; [right; destruct c; [done|injection Hy as ->; left]|left|by apply H1].
  - apply IH; [done|]. intros; apply HR; [by right|by right|done].
Qed.

(** ** The search *)

Section Order.
Context `{TransactionEnv} (g : Z) (t0 : Transaction).
Hypothesis W0 : wf ∅ t0.

Lemma stands_for_facts u o : stands_for t0 u o →
  ∃ ob, objects (tr_m t0) !! o = Some ob ∧ j_unit ob = u ∧ in_transaction (j_type ob) = true ∧
    list_from t0 u o = Some (default [o] (tr_jobs t0 !! u)).
Proof.
  intros (U & EU & Ej). unfold job_for in Ej. destruct (first_job t0 u) as [o'|] eqn:Ef.
  - injection Ej as ->. destruct (proj1 (first_job_head t0 u o) Ef) as [l El].
    destruct (w_member ∅ t0 W0 u o) as (_ & ob & Eo & P); [rewrite El; left|]. exists ob.
    destruct P as (Hu & _ & Ht & _). split; [done|]. split; [done|]. split; [done|]. unfold list_from.
    pose proof (w_nodup ∅ t0 W0 u) as N. rewrite El in N. apply NoDup_cons in N as [N _].
    rewrite (list_of_lookup ∅ t0 u W0), El by (by rewrite El). cbn. rewrite bool_decide_false by done. cbn.
    by rewrite decide_True.
  - destruct (c_slot (tr_m t0) (w_consistent ∅ t0 W0) u U JOB_START o EU) as (ob & Eo & Hi & Hu & _); [done|].
    exists ob. split; [done|]. split; [done|].
    split; [by apply (c_installed (tr_m t0) (w_consistent ∅ t0 W0) o ob Eo Hi)|].
    unfold list_from. by rewrite (proj1 (first_job_none ∅ t0 u W0) Ef).
Qed.

(** The jobs the search visits. *)
Definition node (o : nat) : Prop := ∃ u, stands_for t0 u o ∧ reached t0 o.

Lemma before_node j o : before t0 j o → node j → node o.
Proof.
  intros Hjo (u & _ & w & j0 & Ej0 & Hr). pose proof Hjo as (jb & ob & U & v & dir & c & _ & _ & _ & _ & Hs & _).
  exists v. split; [done|]. exists w, j0. split; [done|]. by eapply rtc_r.
Qed.

(** The marks of a path: each job points to where the search came from. *)
Fixpoint path_marks (t : Transaction) (P : list nat) : Prop :=
  match P with
  | [] => True
  | x :: P => generation (info t x) = g ∧ marker (info t x) = Some (default x (head P)) ∧ path_marks t P
  end.

Definition finished (t : Transaction) (x : nat) : Prop := generation (info t x) = g ∧ marker (info t x) = None.

(** What the search may change. *)
Record touched (t : Transaction) : Prop := {
  k_remarked : remarked t0 t;
  k_matters : ∀ x, matters_to_anchor (info t x) = matters_to_anchor (info t0 x);
  k_gen : ∀ x, generation (info t x) = generation (info t0 x) ∨ generation (info t x) = g }.

(** The state of the search on path [P]. *)
Record walk (P : list nat) (t : Transaction) : Prop := {
  k_touched : touched t;
  k_nodup : NoDup P;
  k_node : ∀ x, x ∈ P → node x;
  k_chain : chain (before t0) P;
  k_marks : path_marks t P;
  k_done : ∀ x, generation (info t x) = g → x ∈ P ∨ marker (info t x) = None ∧ Acc (λ y x, before t0 x y) x }.

Lemma path_marks_in t P x : path_marks t P → x ∈ P → generation (info t x) = g ∧ is_Some (marker (info t x)).
Proof.
  induction P as [|y P IH]; [by intros _ ?%not_elem_of_nil|]. cbn. intros (H1 & H2 & H3) [->|Hx]%elem_of_cons; [|auto].
  split; [done|]. by rewrite H2.
Qed.

Lemma path_marks_ext t t' P : (∀ x, x ∈ P → generation (info t' x) = generation (info t x) ∧ marker (info t' x) = marker (info t x)) →
  path_marks t P → path_marks t' P.
Proof.
  induction P as [|y P IH]; [done|]. cbn. intros HE (H1 & H2 & H3). destruct (HE y) as [-> ->]; [left|].
  split; [done|]. split; [done|]. apply IH; [|done]. intros x Hx. apply HE. by right.
Qed.

Lemma walk_get P t o ob : walk P t → objects (tr_m t0) !! o = Some ob → get_job t o = Ret ob.
Proof. intros K E. unfold get_job. by rewrite (r_m _ _ (k_remarked t (k_touched P t K))), E. Qed.

Lemma walk_length P t : walk P t → (length P ≤ size (objects (tr_m t0)))%nat.
Proof.
  intros K. rewrite <- (size_dom (D:=gset nat)), <- (size_list_to_set (C:=gset nat) P) by apply K.
  apply subseteq_size. intros x (u & Hx & _)%elem_of_list_to_set%(k_node P t K).
  destruct (stands_for_facts u x Hx) as (ob & E & _). by apply elem_of_dom_2 in E.
Qed.

(** *** Going back the path *)

Lemma drop_test P t u k : walk P t → stands_for t0 u k →
  bool_decide (is_Some (first_job t u)) && negb (unit_matters_to_anchor t (default [k] (tr_jobs t !! u))) = true ↔ may_drop t0 k.
Proof.
  intros K Hs. destruct (stands_for_facts u k Hs) as (kb & Ek & Eu & _).
  assert (may_drop t0 k ↔ droppable t0 u) as ->.
  { unfold may_drop. split; [intros (kb' & Ek' & Hd); by simplify_eq|intros Hd; exists kb; by rewrite Eu]. }
  unfold droppable, first_job, list_of, unit_matters_to_anchor. rewrite (r_jobs _ _ (k_remarked t (k_touched P t K))).
  pose proof (w_list ∅ t0 W0 u) as Hne. destruct (tr_jobs t0 !! u) as [l|] eqn:El; cbn.
  - destruct l as [|x l]; [done|]. cbn [head]. rewrite bool_decide_true, andb_true_l by (by eexists).
    rewrite negb_true_iff. rewrite <- not_true_iff_false, existsb_exists. split.
    + intros Hx. split; [done|]. intros y Hy%list_elem_of_In. apply not_true_is_false. intros Hm. apply Hx. exists y.
      by rewrite (k_matters t (k_touched P t K)).
    + intros [_ Hx] (y & Hy%list_elem_of_In & Hm). rewrite (k_matters t (k_touched P t K)), Hx in Hm; done.
  - naive_solver.
Qed.

Lemma find_delete_step n j k P t : walk P t → node k →
  may_drop t0 k ∧ find_delete (S n) g j (Some k) t = Ret (Some k) ∨
  ¬ may_drop t0 k ∧ find_delete (S n) g j (Some k) t = if decide (k = j) then Ret None else
    find_delete n g j (if (generation (info t k) =? g) && negb (bool_decide (marker (info t k) = Some k))
                       then marker (info t k) else None) t.
Proof.
  intros K (u & Hs & _). destruct (stands_for_facts u k Hs) as (kb & Ek & Eu & _ & El). cbn [find_delete].
  rewrite (walk_get P t k kb K Ek). cbn. rewrite Eu.
  assert (list_from t u k = Some (default [k] (tr_jobs t !! u))) as ->.
  { unfold list_from. by rewrite (r_jobs _ _ (k_remarked t (k_touched P t K))). }
  cbn. pose proof (drop_test P t u k K Hs) as Hd.
  destruct (bool_decide (is_Some (first_job t u)) && negb (unit_matters_to_anchor t (default [k] (tr_jobs t !! u)))).
  - left. split; [by apply Hd|done].
  - right. split; [|done]. intros Hm. by apply Hd in Hm.
Qed.

Lemma find_delete_ok P2 t j : ∀ P1 P0 n, walk (P0 ++ P1 ++ j :: P2) t → (length P1 < n)%nat →
  ∃ del, find_delete n g j (head (P1 ++ [j])) t = Ret del ∧
    match del with
    | Some k => k ∈ P1 ++ [j] ∧ may_drop t0 k
    | None => ∀ k, k ∈ P1 ++ [j] → ¬ may_drop t0 k
    end.
Proof.
  induction P1 as [|k P1 IH]; intros P0 n K Hn; (destruct n as [|n]; [cbn in Hn; lia|]); cbn [head app].
  - destruct (find_delete_step n j j _ t K) as [[Hd ->]|[Hd ->]].
    + apply (k_node _ _ K). set_solver.
    + exists (Some j). set_solver.
    + exists None. rewrite decide_True by done. split; [done|]. intros k ->%list_elem_of_singleton. done.
  - destruct (find_delete_step n j k _ t K) as [[Hd ->]|[Hd ->]].
    + apply (k_node _ _ K). set_solver.
    + exists (Some k). set_solver.
    + pose proof (k_nodup _ _ K) as N. apply NoDup_app in N as (_ & _ & N). cbn in N. apply NoDup_cons in N as [Nk _].
      rewrite decide_False by set_solver.
      assert (path_marks t (k :: P1 ++ j :: P2)) as (Hg & Hm & _).
      { pose proof (k_marks _ _ K) as Hp. clear -Hp. induction P0 as [|y P0 IH]; [done|]. apply IH, Hp. }
      assert (∃ y, head (P1 ++ j :: P2) = Some y ∧ head (P1 ++ [j]) = Some y ∧ y ∈ P1 ++ j :: P2) as (y & Ey & Ey' & Hy).
      { destruct P1 as [|y P1]; [exists j|exists y]; split_and!; done || set_solver. }
      rewrite Ey in Hm. cbn in Hm. rewrite Hg, Hm, Z.eqb_refl, bool_decide_false by (intros [= ->]; done). cbn.
      destruct (IH (P0 ++ [k]) n) as (del & E & H1); [by rewrite <- app_assoc|cbn in Hn; lia|].
      rewrite Ey' in E. exists del. split; [done|]. destruct del as [d|]; [set_solver|].
      intros z [->|Hz]%elem_of_cons; auto.
Qed.

(** *** The search *)

Lemma touched_modify t j f : touched t → (∀ i, subject_list (f i) = subject_list i) → (∀ i, object_list (f i) = object_list i) →
  (∀ i, matters_to_anchor (f i) = matters_to_anchor i) →
  (generation (f (info t j)) = generation (info t j) ∨ generation (f (info t j)) = g) → touched (modify_info j f t).
Proof.
  intros [R M G] H1 H2 H3 H4. split.
  - etrans; [exact R|]. by apply modify_marks_remarked.
  - intros x. by rewrite (info_keep matters_to_anchor) by done.
  - intros x. rewrite info_modify. case_decide as Ex; [|done]. subst x. destruct H4 as [->| ->]; [apply G|by right].
Qed.

Lemma walk_push P t j : walk P t → generation (info t j) ≠ g → node j → (∀ p, head P = Some p → before t0 p j) →
  walk (j :: P) (modify_info j (with_marks (Some (default j (head P))) g) t).
Proof.
  intros [T N V C M D] Hj Hn Hb.
  assert (j ∉ P) as HP by (intros HP; by apply (path_marks_in t P j M) in HP as [? _]).
  split.
  - by apply touched_modify; auto.
  - by constructor.
  - intros x [->|Hx]%elem_of_cons; auto.
  - done.
  - cbn. rewrite info_modify, decide_True by done. cbn. split; [done|]. split; [done|].
    apply (path_marks_ext t); [|done]. intros x Hx. rewrite info_modify, decide_False by (by intros ->). done.
  - intros x. rewrite info_modify. case_decide as Ex; [intros _; left; subst; left|].
    intros Hx. destruct (D x Hx) as [H'|H']; [left; by right|by right].
Qed.

Lemma walk_finished P t x : walk P t → finished t x → (x ∉ P) ∧ Acc (λ y x, before t0 x y) x.
Proof.
  intros K [Hg Hm]. assert (x ∉ P) as HP.
  { intros HP. apply (path_marks_in t P x (k_marks P t K)) in HP as [_ [y Hy]]. congruence. }
  split; [done|]. destruct (k_done P t K x Hg) as [|[_ HA]]; done.
Qed.

Lemma walk_pop P t j : walk (j :: P) t → (∀ o, before t0 j o → finished t o) →
  let t' := modify_info j (λ i, with_marks None (generation i) i) t in walk P t' ∧ finished t' j.
Proof.
  intros K Hb t'. pose proof K as [T N V C M D]. apply NoDup_cons in N as [Nj N]. destruct C as [_ C]. destruct M as (Hg & _ & M).
  assert (finished t' j) as Hj.
  { unfold finished, t'. rewrite info_modify, decide_True by done. by split. }
  split; [|done]. split.
  - by apply touched_modify; auto.
  - done.
  - intros x Hx. apply V. by right.
  - done.
  - apply (path_marks_ext t); [|done]. intros x Hx. unfold t'. rewrite info_modify, decide_False by (by intros ->). done.
  - intros x Hx. destruct (decide (x = j)) as [->|Hne].
    + right. split; [apply Hj|]. constructor. intros y Hy. by apply (walk_finished _ t y K), Hb.
    + unfold t' in *. rewrite info_modify, decide_False in Hx by done. rewrite info_modify, decide_False by done.
      destruct (D x Hx) as [[->|H']%elem_of_cons|H']; [done|by left|by right].
Qed.

(** What a search that fails has found. *)
Definition failed (r : Z) (t' : Transaction) : Prop :=
  (r = - EAGAIN ∧ ∃ k u t1, stands_for t0 u k ∧ reached t0 k ∧ droppable t0 u ∧ tc (before t0) k k ∧ touched t1 ∧
     transaction_delete_unit u t1 = Ret t') ∨
  (r = - EDEADLK ∧ stuck t0 ∧ touched t').

Lemma circle_found P t j : walk P t → j ∈ P → (∀ p, head P = Some p → before t0 p j) →
  ∃ del, find_delete (n_jobs t) g j (head P) t = Ret del ∧
    match del with Some k => node k ∧ may_drop t0 k ∧ tc (before t0) k k | None => stuck t0 end.
Proof.
  intros K Hj Hb. pose proof (walk_length P t K) as HL. apply list_elem_of_split in Hj as (P1 & P2 & ->).
  destruct (find_delete_ok P2 t j P1 [] (n_jobs t)) as (del & E & Hd); [done| |].
  { unfold n_jobs. rewrite (r_m _ _ (k_remarked t (k_touched _ t K))). rewrite length_app in HL. cbn in HL. lia. }
  assert (∃ p, head (P1 ++ j :: P2) = Some p ∧ head (P1 ++ [j]) = Some p ∧ p ∈ P1 ++ [j]) as (p & Ep & Ep' & Hp).
  { destruct P1 as [|y P1]; [exists j|exists y]; split_and!; done || set_solver. }
  specialize (Hb p Ep). assert (chain (before t0) (P1 ++ [j])) as C.
  { apply (chain_app_l _ _ P2). rewrite <- app_assoc. apply K. }
  rewrite Ep' in E. rewrite Ep. exists del. split; [done|]. destruct del as [k|].
  - destruct Hd as [Hk Hd]. split; [apply (k_node _ _ K); set_solver|]. split; [done|].
    eapply tc_rtc_l; [by apply (chain_rtc _ _ p k C)|]. eapply tc_rtc_r; [by apply tc_once|].
    by apply (chain_last_rtc _ P1 j k).
  - exists j. split; [destruct (k_node _ _ K j) as (? & _ & ?); [set_solver|done]|]. set (R := λ a b, _). assert (chain R (P1 ++ [j])) as C'.
    { apply (chain_impl _ _ _ C). intros x y Hx Hy Hxy. split; [done|]. auto. }
    eapply tc_rtc_l; [apply (chain_rtc _ _ p j C' Ep'); set_solver|]. apply tc_once. split; [done|]. split; apply Hd; set_solver.
Qed.

Lemma compare_total jb ob dir : in_transaction (j_type jb) = true → in_transaction (j_type ob) = true →
  is_Some (job_compare jb ob dir).
Proof. intros H1 H2. unfold job_compare. rewrite H1, H2. cbn. repeat case_match; by eexists. Qed.

(** The outcome of the search from [j] on path [P]. *)
Definition searched (P : list nat) (t : Transaction) (goal : Transaction → Prop) (o : outcome (Z * Transaction)) : Prop :=
  ∃ r t', o = Ret (r, t') ∧
    (r = 0 ∧ walk P t' ∧ (∀ x, finished t x → finished t' x) ∧ goal t' ∨ r < 0 ∧ failed r t').

Definition visit (fuel : nat) (j : nat) (dir : OrderDep) (u : nat) (t : Transaction) : outcome (Z * Transaction) :=
  V ← get_unit t u;
  match job_for t V u with
  | None => Ret (0, t)
  | Some o =>
      jb ← get_job t j;
      ob ← get_job t o;
      c ←! job_compare jb ob dir;
      if 0 <=? c then Ret (0, t) else transaction_verify_order_one fuel o (Some j) g t
  end.

(** The jobs of the units [us] that come after [j] are finished. *)
Definition visited_all (jb : Job) (dir : OrderDep) (us : list nat) (t : Transaction) : Prop :=
  ∀ v o ob c, v ∈ us → stands_for t0 v o → objects (tr_m t0) !! o = Some ob → job_compare jb ob dir = Some c →
    c < 0 → finished t o.

Lemma visit_ok fuel P j jb U dir u t :
  (∀ o t, walk (j :: P) t → node o → before t0 j o →
     searched (j :: P) t (λ t', finished t' o) (transaction_verify_order_one fuel o (Some j) g t)) →
  objects (tr_m t0) !! j = Some jb → in_transaction (j_type jb) = true → units (tr_m t0) !! j_unit jb = Some U →
  u ∈ order_deps dir U → walk (j :: P) t →
  searched (j :: P) t (visited_all jb dir [u]) (visit fuel j dir u t).
Proof.
  intros IH Ej Ht EU Hu K. pose proof (k_remarked t (k_touched _ t K)) as R. unfold visit, get_unit.
  assert (is_Some (units (tr_m t0) !! u)) as [V EV].
  { pose proof (c_deps (tr_m t0) (w_consistent ∅ t0 W0) _ U EU) as Hd. rewrite Forall_forall in Hd.
    assert (order_deps dir U ∈ deps_of U) as Hi by (destruct dir; unfold deps_of; set_solver).
    specialize (Hd _ Hi). rewrite Forall_forall in Hd. by apply Hd. }
  rewrite (r_m _ _ R), EV. cbn. assert (∀ o, job_for t V u = Some o ↔ stands_for t0 u o) as Hs.
  { intros o. rewrite R. unfold stands_for. rewrite (r_m _ _ R). split; [intros Hs; by exists V|].
    intros (V' & EV' & Hs). by simplify_eq. }
  destruct (job_for t V u) as [o|] eqn:Eo.
  2: { exists 0, t. split; [done|]. left. split_and!; [done|done|done|].
       intros v o ob c ->%list_elem_of_singleton Hso. by apply Hs in Hso. }
  assert (stands_for t0 u o) as Hso by (by apply Hs). destruct (stands_for_facts u o Hso) as (ob & Eob & Eu & Hto & _).
  rewrite (walk_get _ t j jb K Ej). cbn. rewrite (walk_get _ t o ob K Eob). cbn.
  destruct (compare_total jb ob dir Ht Hto) as [c Ec]. rewrite Ec. cbn.
  assert (∀ v o', v ∈ [u] → stands_for t0 v o' → o' = o) as Huniq.
  { intros v o' ->%list_elem_of_singleton Ho'%Hs. by simplify_eq. }
  destruct (Z.leb_spec 0 c) as [Hc|Hc].
  - exists 0, t. split; [done|]. left. split_and!; [done|done|done|].
    intros v o' ob' c' Hv Hso' Eob' Ec' Hc'. pose proof (Huniq v o' Hv Hso') as ->. simplify_eq. lia.
  - assert (before t0 j o) as Hjo by (exists jb, ob, U, u, dir, c; auto 10).
    destruct (IH o t K) as (r & t' & -> & Hr); [by apply (before_node j); [|apply (k_node _ _ K); left]|done|].
    exists r, t'. split; [done|]. destruct Hr as [(-> & K' & Hm & Hf)|Hr]; [left|by right].
    split_and!; [done|done|done|]. intros v o' ob' c' Hv Hso' _ _ _. by rewrite (Huniq v o' Hv Hso').
Qed.

Lemma visit_loop fuel P j jb U dir t :
  (∀ o t, walk (j :: P) t → node o → before t0 j o →
     searched (j :: P) t (λ t', finished t' o) (transaction_verify_order_one fuel o (Some j) g t)) →
  objects (tr_m t0) !! j = Some jb → in_transaction (j_type jb) = true → units (tr_m t0) !! j_unit jb = Some U →
  walk (j :: P) t →
  searched (j :: P) t (visited_all jb dir (order_deps dir U)) (until_error (visit fuel j dir) (order_deps dir U) t).
Proof.
  intros IH Ej Ht EU K.
  destruct (until_error_ok (visit fuel j dir) (λ seen s, walk (j :: P) s ∧ (∀ x, finished t x → finished s x) ∧ visited_all jb dir seen s)
    failed (order_deps dir U) [] t) as (r & t' & E & Hr).
  - split_and!; [done|done|]. intros v o ob c Hv. by apply not_elem_of_nil in Hv.
  - intros u seen s Hu (Ks & Hm & Hv). destruct (visit_ok fuel P j jb U dir u s) as (r & s' & E & Hr); [done..|].
    exists r, s'. split; [done|]. destruct Hr as [(-> & K' & Hm' & Hv')|Hr]; [left|by right].
    split; [done|]. split_and!; [done|auto|]. intros v o ob c [->|Hin]%elem_of_cons Hs Eo Ec Hc.
    + apply (Hv' u o ob c); [set_solver|done..].
    + apply Hm'. by apply (Hv v o ob c).
  - exists r, t'. split; [done|]. destruct Hr as [(-> & K' & Hm & Hv)|Hr]; [left|by right].
    split_and!; [done..|]. intros v o ob c Hin. apply Hv. rewrite app_nil_r. by apply elem_of_rev.
Qed.

Lemma verify_one_ok fuel : ∀ P j t, walk P t → node j → (∀ p, head P = Some p → before t0 p j) →
  (size (objects (tr_m t0)) < fuel + length P)%nat →
  searched P t (λ t', finished t' j) (transaction_verify_order_one fuel j (head P) g t).
Proof.
  induction fuel as [|fuel IH]; intros P j t K Hn Hb Hf; [pose proof (walk_length P t K); lia|].
  pose proof Hn as (u & Hs & _). destruct (stands_for_facts u j Hs) as (jb & Ej & Eu & Ht & El).
  pose proof (k_remarked t (k_touched _ t K)) as R.
  cbn [transaction_verify_order_one]. rewrite (walk_get P t j jb K Ej). cbn [mbind outcome_bind]. rewrite Eu.
  assert (list_from t u j = Some (default [j] (tr_jobs t0 !! u))) as ->.
  { rewrite <- El. unfold list_from. by rewrite (r_jobs _ _ R). }
  cbn [lift mbind outcome_bind]. destruct (Z.eqb_spec (generation (info t j)) g) as [Hg|Hg].
  - destruct (k_done P t K j Hg) as [HP|[Hm _]].
    2: { rewrite Hm. exists 0, t. split; [done|]. left. by split_and!. }
    destruct (path_marks_in t P j (k_marks P t K) HP) as [_ [m Hm]]. rewrite Hm.
    destruct (circle_found P t j K HP Hb) as (del & -> & Hd). cbn. destruct del as [k|].
    + destruct Hd as ((v & Hk & Hre) & (kb & Ek & Hdr) & Hc). rewrite (walk_get P t k kb K Ek). cbn.
      destruct (delete_unit_trims t (j_unit kb)) as (t' & E' & _); [by apply (remarked_wf ∅ t0)|].
      rewrite E'. cbn. exists (- EAGAIN), t'. split; [done|]. right. split; [done|]. left. split; [done|].
      destruct (stands_for_facts v k Hk) as (kb' & Ek' & Ev & _). simplify_eq.
      exists k, (j_unit kb), t. split_and!; [done|done|done|done|apply K|done].
    + exists (- EDEADLK), t. split; [done|]. right. split; [done|]. right. split; [done|]. split; [done|apply K].
  - cbv zeta. pose proof (walk_push P t j K Hg Hn Hb) as K1. set (t1 := modify_info j _ t) in *.
    assert (∀ x, finished t x → finished t1 x) as Hm1.
    { intros x Hx. unfold finished, t1. rewrite info_modify. case_decide as Ex; [|done]. subst x. by destruct Hx. }
    destruct Hs as (U & EU & _). 
    assert (get_unit t1 u = Ret U) as -> by (unfold get_unit; by rewrite (r_m _ _ (k_remarked t1 (k_touched _ t1 K1))), EU).
    cbn [mbind outcome_bind]. assert (∀ o t, walk (j :: P) t → node o → before t0 j o →
      searched (j :: P) t (λ t', finished t' o) (transaction_verify_order_one fuel o (Some j) g t)) as IH'.
    { intros o s Ks Ho Hjo. apply (IH (j :: P) o s); [done|done|by intros p [= <-]|cbn; lia]. }
    rewrite <- Eu in EU.
    destruct (visit_loop fuel P j jb U UNIT_BEFORE t1 IH' Ej Ht EU K1) as (r2 & t2 & E2 & H2).
    change (until_error _ (u_before U) t1) with (until_error (visit fuel j UNIT_BEFORE) (u_before U) t1).
    cbn [order_deps] in *. rewrite E2. cbn [mbind outcome_bind].
    destruct H2 as [(-> & K2 & Hm2 & Hv2)|[Hr2 H2]]; [|exists r2, t2; rewrite (proj2 (Z.ltb_lt _ _) Hr2); auto].
    rewrite Z.ltb_irrefl.
    destruct (visit_loop fuel P j jb U UNIT_AFTER t2 IH' Ej Ht EU K2) as (r3 & t3 & E3 & H3).
    change (until_error _ (u_after U) t2) with (until_error (visit fuel j UNIT_AFTER) (u_after U) t2).
    cbn [order_deps] in *. rewrite E3. cbn [mbind outcome_bind].
    destruct H3 as [(-> & K3 & Hm3 & Hv3)|[Hr3 H3]]; [|exists r3, t3; rewrite (proj2 (Z.ltb_lt _ _) Hr3); auto].
    rewrite Z.ltb_irrefl. destruct (walk_pop P t3 j K3) as [K4 Hj].
    { intros o (jb' & ob & U' & v & dir & c & Ej' & Eo & EU' & Hv & Hso & Ec & Hc). simplify_eq.
      destruct dir; [by apply (Hv3 v o ob c)|apply Hm3; by apply (Hv2 v o ob c)]. }
    eexists 0, _. split; [done|]. left. split_and!; [done|done| |done].
    intros x Hx. apply Hm1, Hm2, Hm3 in Hx. destruct (decide (x = j)) as [->|Ex]; [done|].
    unfold finished. by rewrite info_modify, decide_False.
Qed.

End Order.

(** ** The whole order *)

(** What a hash map promises to its user: each key once. *)
Class LawfulTransaction `{TransactionEnv} : Prop := {
  keys_spec : ∀ m u, u ∈ keys m ↔ is_Some (m !! u);
  keys_nodup : ∀ m, NoDup (keys m) }.

Lemma acc_no_circle {A} (R : A → A → Prop) x : Acc (λ y x, R x y) x → ¬ tc R x x.
Proof.
  induction 1 as [x _ IH]. intros Hc. inversion Hc as [? ? Hxx|? y ? Hxy Hyx]; subst.
  - by apply (IH x Hxx), tc_once.
  - apply (IH y Hxy). eapply tc_rtc_r; [exact Hyx|]. by apply rtc_once.
Qed.

Lemma acc_rtc {A} (R : A → A → Prop) x y : Acc (λ y x, R x y) x → rtc R x y → Acc (λ y x, R x y) y.
Proof. intros HA Hr. induction Hr as [|x y z Hxy _ IH]; [done|]. by apply IH, HA. Qed.

Lemma touched_refl g t : touched g t t.
Proof. split; [done|done|]. intros x. by left. Qed.

Lemma touched_needing g t t1 P x : touched g t t1 → needing t1 P x → needing t P x.
Proof.
  intros T (y & Hr & Hy). exists y. split; [|done]. revert Hr. apply rtc_subrel. intros a b.
  by rewrite (k_remarked _ _ _ T).
Qed.

Lemma until_first `{LawfulTransaction} g t : wf ∅ t → (∀ x, generation (info t x) ≠ g) →
  ∃ r t', transaction_verify_order g t = Ret (r, t') ∧
    (r = 0 ∧ walk g t [] t' ∧ (∀ u j, first_job t u = Some j → finished g t' j) ∨ r < 0 ∧ failed g t r t').
Proof.
  intros W Hg. unfold transaction_verify_order.
  destruct (until_error_ok (λ u t, j ←! first_job t u; transaction_verify_order_one (S (n_jobs t)) j None g t)
    (λ seen s, walk g t [] s ∧ ∀ u j, u ∈ seen → first_job t u = Some j → finished g s j)
    (failed g t) (keys (tr_jobs t)) [] t) as (r & t' & E & Hr).
  - split; [|set_solver]. split; [apply touched_refl|constructor|set_solver|done|done|]. intros x Hx. by apply Hg in Hx.
  - intros u seen s Hu [K Hs]. apply keys_spec in Hu as [l El].
    pose proof (k_remarked _ _ _ (k_touched _ _ _ _ K)) as R.
    assert (∃ j, first_job t u = Some j) as [j Ej].
    { unfold first_job. rewrite El. cbn. destruct l as [|j l]; [by apply (w_list ∅ t W) in El|by exists j]. }
    assert (first_job s u = Some j) as -> by (unfold first_job in *; by rewrite (r_jobs _ _ R)). cbn [lift mbind outcome_bind].
    assert (node t j) as Hn.
    { exists u. split; [|exists u, j; by split]. destruct (proj1 (first_job_head t u j) Ej) as [l' El'].
      assert (j ∈ list_of t u) as Hj by (rewrite El'; left). destruct (w_member ∅ t W u j Hj) as (_ & jb & Eb & P & _).
      destruct (w_unit ∅ t W j jb) as [U EU]; [right; by exists u|done|]. exists U. rewrite P in EU. split; [done|].
      unfold job_for. by rewrite Ej. }
    destruct (verify_one_ok g t W (S (n_jobs s)) [] j s K Hn) as (r & s' & E & Hr); [done| |].
    { unfold n_jobs. rewrite (r_m _ _ R). lia. }
    exists r, s'. split; [done|]. destruct Hr as [(-> & K' & Hm & Hf)|Hr]; [left|by right].
    split; [done|]. split; [done|]. intros v k [->|Hv]%elem_of_cons Ek; [by simplify_eq|]. apply Hm. by apply (Hs v).
  - exists r, t'. split; [done|]. destruct Hr as [(-> & K & Hf)|Hr]; [left|by right]. split; [done|]. split; [done|].
    intros u j Ej. apply (Hf u); [|done]. rewrite app_nil_r. apply elem_of_rev, keys_spec.
    unfold first_job in Ej. destruct (tr_jobs t !! u); [by eexists|done].
Qed.

Lemma verify_order_ok `{LawfulTransaction} (g : Z) (t : Transaction) :
  wf ∅ t → (∀ x, generation (info t x) ≠ g) →
  ∃ r t', transaction_verify_order g t = Ret (r, t') ∧
    (r = 0 ↔ ∀ x, reached t x → ¬ tc (before t) x x) ∧
    (r = 0 ∧ touched g t t' ∨
     r = - EAGAIN ∧ (∃ u k t1, stands_for t u k ∧ tc (before t) k k ∧ droppable t u ∧ touched g t t1 ∧
       trims (needing t (.∈ list_of t u)) t1 t' ∧ tr_jobs t' !! u = None) ∨
     r = - EDEADLK ∧ stuck t ∧ touched g t t').
Proof.
  intros W Hg. destruct (until_first g t W Hg) as (r & t' & E & Hr). exists r, t'. split; [done|].
  destruct Hr as [(-> & K & Hf)|(Hlt & [(-> & k & u & t1 & Hs & Hre & Hd & Hc & T & E')|(-> & (x & Hre & Hc) & T)])].
  - split; [|left; split; [done|apply K]]. split; [|done]. intros _ x (u & j & Ej & Hr). apply acc_no_circle.
    apply (acc_rtc _ j); [|done]. by apply (walk_finished g t _ _ _ K), (Hf u).
  - split; [|right; left; split; [done|]].
    + split; [done|]. intros Hn. by destruct (Hn k Hre).
    + destruct (delete_unit_trims t1 u) as (t2 & E2 & (X & Kl & A & W2 & HX) & N2 & _);
        [by apply (remarked_wf ∅ t); [apply T|]|]. rewrite E2 in E'. injection E' as <-.
      exists u, k, t1. refine (conj Hs (conj Hc (conj Hd (conj T (conj _ N2))))). exists X, Kl. split; [done|]. split; [done|]. intros x Hx.
      destruct (HX x Hx) as [Hm Hx']. split; [done|]. apply (touched_needing g t t1) in Hx'; [|done].
      destruct Hx' as (y & Hr & Hy). exists y. split; [done|]. by rewrite (k_remarked _ _ _ T).
  - split; [|right; right; split; [done|]].
    + split; [done|]. intros Hn. destruct (Hn x Hre). revert Hc. apply (tc_congruence id). by intros ?? [? _].
    + split; [by exists x|done].
Qed.

(** C12. [transaction_verify_order] returns. It returns 0 exactly when no circle of
    the order is reached, and then changed marks only. It returns [-EAGAIN] when
    it has dropped the jobs of a unit on a circle, none of which matters to the
    anchor, with the jobs that need them. It returns [-EDEADLK] when it found a
    circle of jobs none of which may be dropped. *)
Theorem transaction_verify_order_correct `{LawfulTransaction} (g : Z) (t : Transaction) :
  wf ∅ t → (∀ x, generation (info t x) ≠ g) →
  ∃ r t', transaction_verify_order g t = Ret (r, t') ∧
    (r = 0 ↔ ∀ x, reached t x → ¬ tc (before t) x x) ∧
    (r = 0 ∧ touched g t t' ∨
     r = - EAGAIN ∧ (∃ u k t1, stands_for t u k ∧ tc (before t) k k ∧ droppable t u ∧ touched g t t1 ∧
       trims (needing t (.∈ list_of t u)) t1 t' ∧ tr_jobs t' !! u = None) ∨
     r = - EDEADLK ∧ stuck t ∧ touched g t t').
Proof. apply verify_order_ok. Qed.
