(* ===== verification/TransactionSteps.v ===== *)
(** * systemd: the steps that make a transaction smaller

    [transaction_minimize_impact], [transaction_drop_redundant],
    [transaction_collect_garbage] and the loop that breaks circles all end, never
    fail an assertion, never drop the anchor job, and reach the state they are
    for. *)

From S2P Require Import Prelude Outcome JobMerge Job JobProps Transaction TransactionProps TransactionMarks TransactionOrder.

#[local] Open Scope Z_scope.
#[local] Set Warnings "-clear-no-such-hyp".

(** ** Transactions with an anchor *)

Definition marked (t : Transaction) (x : nat) : Prop := matters_to_anchor (info t x) = true.

(** The anchor job is in the transaction, and what a marked job needs is marked. *)
Record anchored (t : Transaction) : Prop := {
  a_wf : wf ∅ t;
  a_anchor : ∃ a, anchor_job t = Some a ∧ member t a ∧ marked t a;
  a_closed : ∀ x y, marked t x → needs t x y → marked t y }.

Lemma marked_trims M `{!Marks M} P t t' x : trims_by M P t t' → marked t' x → marked t x.
Proof.
  intros (X & K & A & _) Hx. unfold marked in *. destruct (decide (x ∈ X)) as [HX|HX].
  - destruct (c_gone _ _ _ _ _ A x HX) as [Hm _]. apply marks_matters in Hm. rewrite Hm in Hx. done.
  - pose proof (c_marks _ _ _ _ _ A x HX) as Hm. apply marks_matters in Hm. by rewrite Hm in Hx.
Qed.

(** A job that stays keeps its mark. *)
Lemma stays_marked M `{!Marks M} P t t' x : trims_by M P t t' → ¬ P x → marked t x → marked t' x.
Proof.
  intros (X & K & A & _ & H) HP Hx. assert (x ∉ X) as HX by (intros HX; by destruct (H x HX)).
  unfold marked in *. by rewrite (marks_matters _ _ (c_marks _ _ _ _ _ A x HX)).
Qed.

Lemma trims_anchor M P t t' : trims_by M P t t' → anchor_job t' = anchor_job t.
Proof. intros (X & K & A & _). apply A. Qed.

Lemma anchored_trims M `{!Marks M} P t t' : anchored t → trims_by M P t t' → (∀ a, anchor_job t = Some a → ¬ P a) → anchored t'.
Proof.
  intros [W (a & Ea & [u Ma] & Ka) C] T HP. split; [by apply (trims_wf _ _ _ T)|..].
  - exists a. rewrite (trims_anchor M P t t' T). split; [done|]. split.
    + exists u. apply (trims_stays _ _ _ _ _ T Ma), HP, Ea.
    + apply (stays_marked M P t); [done| |done]. by apply HP.
  - intros x y Hx Hn. destruct T as (X & K & A & W' & H'). 
    assert (y ∉ X) as Hy.
    { destruct Hn as (l & d & El & _ & _ & <-). destruct (w_link ∅ t' W' l d El) as (s & _ & _ & [Hd|[v Hv]] & _); [set_solver|].
      rewrite (c_list _ _ _ _ _ A) in Hv. by apply list_elem_of_filter in Hv as [? _]. }
    unfold marked. rewrite (marks_matters _ _ (c_marks _ _ _ _ _ A y Hy)).
    apply (C x); [|by apply (needs_cut _ _ _ _ _ _ _ A)]. apply (marked_trims M P t t'); [|done]. by exists X, K.
Qed.

(** Nothing marked needs an unmarked job. *)
Lemma unmarked_goes dd t j x : anchored t → ¬ marked t j → goes dd t j x → ¬ marked t x.
Proof.
  intros A Hj [->|[_ Hr]]; [done|]. intros Hx. apply Hj. clear Hj. induction Hr as [|x y z Hxy _ IH]; [done|].
  by apply IH, (a_closed t A x).
Qed.

Lemma anchor_unmarked t a P : anchored t → anchor_job t = Some a → (∀ x, P x → ¬ marked t x) → ¬ P a.
Proof. intros A Ea HP Ha. destruct (a_anchor t A) as (b & Eb & _ & Hb). rewrite Ea in Eb. injection Eb as ->. by apply (HP b). Qed.

(** ** What the steps read *)

Lemma conflicting_total a b : in_transaction a = true → in_transaction b = true → is_Some (job_type_is_conflicting a b).
Proof. destruct a; try done; destruct b; try done; intros _ _; by eexists. Qed.

Lemma member_get t x : wf ∅ t → member t x →
  ∃ jb U, get_job t x = Ret jb ∧ get_unit t (j_unit jb) = Ret U ∧ in_transaction (j_type jb) = true ∧
    objects (tr_m t) !! x = Some jb ∧ units (tr_m t) !! j_unit jb = Some U.
Proof.
  intros W [u Hu]. destruct (w_member ∅ t W u x Hu) as (_ & jb & E & P).
  destruct (w_unit ∅ t W x jb) as [U EU]; [right; by exists u|done|]. exists jb, U. unfold get_job, get_unit. rewrite E, EU.
  split_and!; [done|done|apply P|done|done].
Qed.

(** The comparison of a job with the one installed for its unit. *)
Lemma installed_conflict t u U ty : wf ∅ t → units (tr_m t) !! u = Some U → in_transaction ty = true →
  ∃ b, match u_job U with
       | None => Ret false
       | Some uj => ub ← get_job t uj; lift (job_type_is_conflicting ty (j_type ub))
       end = Ret b.
Proof.
  intros W EU Ht. destruct (u_job U) as [uj|] eqn:E; [|by eexists].
  destruct (c_slot (tr_m t) (w_consistent ∅ t W) u U JOB_START uj EU) as (ub & Eb & Hi & _); [done|].
  unfold get_job. rewrite Eb. cbn. destruct (c_installed (tr_m t) (w_consistent ∅ t W) uj ub Eb Hi) as [Hb _].
  destruct (conflicting_total ty (j_type ub) Ht Hb) as [b ->]. by exists b.
Qed.

(** ** Impact *)

Lemma has_impact_total t x : wf ∅ t → member t x → ∃ b, has_impact t x = Ret b.
Proof.
  intros W M. destruct (member_get t x W M) as (jb & U & E1 & E2 & Ht & _ & EU). unfold has_impact. rewrite E1. cbn. rewrite E2. cbn.
  destruct (installed_conflict t _ U (j_type jb) W EU Ht) as [b ->]. by eexists.
Qed.

Definition harmless (t : Transaction) (x : nat) : Prop := marked t x ∨ has_impact t x = Ret false.

Lemma first_impact_ok t js : wf ∅ t → (∀ x, x ∈ js → member t x) →
  ∃ d, first_impact t js = Ret d ∧
    match d with Some x => x ∈ js ∧ ¬ marked t x | None => ∀ x, x ∈ js → harmless t x end.
Proof.
  intros W. induction js as [|x js IH]; intros HM; cbn.
  { exists None. split; [done|]. by intros x ?%not_elem_of_nil. }
  destruct IH as (d & E & Hd); [intros y Hy; apply HM; by right|].
  assert (harmless t x → ∃ d, first_impact t js = Ret d ∧
    match d with Some y => y ∈ x :: js ∧ ¬ marked t y | None => ∀ y, y ∈ x :: js → harmless t y end) as Hrest.
  { intros Hx. exists d. split; [done|]. destruct d as [y|]; [split; [right|]; apply Hd|].
    intros y [->|Hy]%elem_of_cons; auto. }
  destruct (matters_to_anchor (info t x)) eqn:Em; [apply Hrest; by left|].
  destruct (has_impact_total t x W) as [b Eb]; [apply HM; left|]. rewrite Eb. cbn.
  destruct b; [|apply Hrest; by right]. exists (Some x). split; [done|]. split; [left|]. unfold marked. by rewrite Em.
Qed.

Lemma minimize_pass_ok t us : wf ∅ t → (∀ u, u ∈ us → is_Some (tr_jobs t !! u)) →
  ∃ d, minimize_pass us t = Ret d ∧
    match d with Some x => member t x ∧ ¬ marked t x | None => ∀ u x, u ∈ us → x ∈ list_of t u → harmless t x end.
Proof.
  intros W. induction us as [|u us IH]; intros HM; cbn.
  { exists None. split; [done|]. by intros u x ?%not_elem_of_nil. }
  destruct (HM u) as [l El]; [left|]. rewrite El. cbn. pose proof (list_of_some t u l El) as Eu.
  destruct (first_impact_ok t l W) as (d & -> & Hd).
  { intros x Hx. exists u. by rewrite Eu. }
  cbn. destruct d as [x|].
  - exists (Some x). split; [done|]. destruct Hd as [Hx Hm]. split; [|done]. exists u. by rewrite Eu.
  - destruct IH as (d & -> & Hd'); [intros v Hv; apply HM; by right|]. exists d. split; [done|].
    destruct d as [x|]; [done|]. intros v x [->|Hv]%elem_of_cons; [rewrite Eu; apply Hd|by apply Hd'].
Qed.

(** *** A loop that deletes a job in each round *)

Section Steps.
Context `{LawfulTransaction}.

Lemma keys_list t u : u ∈ keys (tr_jobs t) → is_Some (tr_jobs t !! u).
Proof. by rewrite keys_spec. Qed.

Lemma keys_member t u x : x ∈ list_of t u → u ∈ keys (tr_jobs t).
Proof. rewrite keys_spec. unfold list_of. destruct (tr_jobs t !! u); [by eexists|]. cbn. by intros ?%not_elem_of_nil. Qed.

Lemma minimize_ok t : anchored t →
  ∃ t', transaction_minimize_impact t = Ret t' ∧ trims (λ x, ¬ marked t x) t t' ∧ ∀ x, member t' x → harmless t' x.
Proof.
  intros A. unfold transaction_minimize_impact.
  assert (∀ n t1, trims (λ x, ¬ marked t x) t t1 → (size (objects (tr_m t1)) < n)%nat →
    ∃ t', minimize_loop n t1 = Ret t' ∧ trims (λ x, ¬ marked t x) t t' ∧ ∀ x, member t' x → harmless t' x) as HL.
  { induction n as [|n IH]; intros t1 T Hn; [lia|]. cbn.
    assert (anchored t1) as A1.
    { apply (anchored_trims _ _ _ _ A T). intros a Ea. by apply (anchor_unmarked t a (λ x, ¬ marked t x) A Ea). }
    destruct (minimize_pass_ok t1 (keys (tr_jobs t1)) (a_wf t1 A1) (keys_list t1)) as (d & -> & Hd). cbn.
    destruct d as [d|].
    - destruct Hd as [Md Kd]. destruct (delete_trims true t1 d (a_wf t1 A1) Md) as (t2 & -> & T2 & _ & S2). cbn.
      apply IH; [|lia]. apply (trims_trans _ _ _ _ _ T T2). intros x Hx Hm.
      apply (unmarked_goes true t1 d x A1 Kd Hx). apply (stays_marked _ _ _ _ _ T); [naive_solver|done].
    - exists t1. split; [done|]. split; [done|]. intros x [u Hu]. apply (Hd u); [by apply (keys_member t1 u x)|done]. }
  apply HL; [apply trims_refl, A|unfold n_jobs; lia].
Qed.

(** ** Garbage *)

Lemma no_link_alone t j dd x : wf ∅ t → object_list (info t j) = [] → goes dd t j x → x = j.
Proof.
  intros W Ho [->|[_ Hr]]; [done|]. apply rtc_inv_r in Hr as [->|(y & _ & l & d & El & _ & _ & Eo)]; [done|].
  destruct (w_link ∅ t W l d El) as (s & _ & _ & _ & _ & Lo). rewrite Eo, Ho in Lo. by apply not_elem_of_nil in Lo.
Qed.

(** The first job of the unit is the anchor or is needed by another. *)
Definition wanted (t : Transaction) (u : nat) : Prop := ∀ j, first_job t u = Some j →
  anchor_job t = Some j ∨ object_list (info t j) ≠ [].

Lemma collect_garbage_pass_ok t us : wf ∅ t → (∀ u, u ∈ us → is_Some (tr_jobs t !! u)) →
  ∃ again t', collect_garbage_pass us t = Ret (again, t') ∧
    if again : bool then trims (λ x, anchor_job t ≠ Some x) t t' ∧ (size (objects (tr_m t')) < size (objects (tr_m t)))%nat
    else t' = t ∧ ∀ u, u ∈ us → wanted t u.
Proof.
  intros W. induction us as [|u us IH]; intros HM; cbn.
  { exists false, t. split; [done|]. split; [done|]. by intros u ?%not_elem_of_nil. }
  destruct (HM u) as [l El]; [left|].
  assert (∃ j, first_job t u = Some j) as [j Ej].
  { destruct (first_job t u) as [j|] eqn:E; [by exists j|]. apply (first_job_none ∅ t u W) in E. congruence. }
  rewrite Ej. cbn.
  assert (wanted t u → ∃ again t', collect_garbage_pass us t = Ret (again, t') ∧
    if again : bool then trims (λ x, anchor_job t ≠ Some x) t t' ∧ (size (objects (tr_m t')) < size (objects (tr_m t)))%nat
    else t' = t ∧ ∀ v, v ∈ u :: us → wanted t v) as Hrest.
  { intros Hu. destruct IH as (again & t' & E & Ht); [intros v Hv; apply HM; by right|]. exists again, t'. split; [done|].
    destruct again; [done|]. destruct Ht as [-> Hv]. split; [done|]. intros v [->|Hin]%elem_of_cons; auto. }
  case_decide as Ha.
  { apply Hrest. intros j' Ej'. simplify_eq. by left. }
  destruct (object_list (info t j)) as [|k ks] eqn:Eo.
  - destruct (proj1 (first_job_head t u j) Ej) as [q Eq].
    destruct (delete_trims true t j W) as (t' & -> & T & _ & S); [exists u; rewrite Eq; left|].
    exists true, t'. split; [done|]. split; [|done]. destruct T as (X & K & A & W' & HX). exists X, K.
    split; [done|]. split; [done|]. intros x Hx. destruct (HX x Hx) as [Hm Hg]. split; [done|].
    by rewrite (no_link_alone t j true x W Eo Hg).
  - apply Hrest. intros j' Ej'. simplify_eq. right. by rewrite Eo.
Qed.

Lemma collect_garbage_ok t : wf ∅ t →
  ∃ t', transaction_collect_garbage t = Ret t' ∧ trims (λ x, anchor_job t ≠ Some x) t t' ∧ ∀ u, wanted t' u.
Proof.
  intros W. unfold transaction_collect_garbage.
  assert (∀ n t1, trims (λ x, anchor_job t ≠ Some x) t t1 → (size (objects (tr_m t1)) < n)%nat →
    ∃ t', collect_garbage_loop n t1 = Ret t' ∧ trims (λ x, anchor_job t ≠ Some x) t t' ∧ ∀ u, wanted t' u) as HL.
  { induction n as [|n IH]; intros t1 T Hn; [lia|]. cbn.
    destruct (collect_garbage_pass_ok t1 (keys (tr_jobs t1)) (trims_wf _ _ _ T) (keys_list t1)) as (again & t2 & -> & Ht). cbn.
    destruct again.
    - destruct Ht as [T2 S2]. apply IH; [|lia]. rewrite (trims_anchor _ _ _ _ T) in T2. by apply (trims_trans _ _ _ _ _ T T2).
    - destruct Ht as [-> Hu]. exists t1. split; [done|]. split; [done|]. intros u j Ej. apply (Hu u); [|done].
      destruct (proj1 (first_job_head t1 u j) Ej) as [q Eq]. apply (keys_member t1 u j). rewrite Eq. left. }
  apply HL; [by apply trims_refl|unfold n_jobs; lia].
Qed.

End Steps.

(** ** Redundant jobs *)

Lemma touched_trans g t1 t2 t3 : touched g t1 t2 → touched g t2 t3 → touched g t1 t3.
Proof.
  intros [R1 M1 G1] [R2 M2 G2]. split; [by etrans|intros x; by rewrite M2|].
  intros x. destruct (G2 x) as [->|]; [apply G1|by right].
Qed.

Lemma touched_prunes g P t t' : wf ∅ t → touched g t t' → prunes P t t'.
Proof.
  intros W T. exists ∅, ∅. split; [|split; [by apply (remarked_wf ∅ t); [apply T|]|set_solver]].
  destruct T as [[Rm Rj Ra Ri Rl Rs Ro] M _]. split; intros; rewrite ?decide_False by set_solver; rewrite ?filter_all by set_solver;
    rewrite ?Rm; try done; try set_solver.
  - unfold list_of. by rewrite Rj.
  - by rewrite Rj.
  - by rewrite Rl.
Qed.

Section Redundant.
Context `{LawfulTransaction} (g : Z) (t0 : Transaction).
Hypothesis W0 : wf ∅ t0.

Definition linked (t : Transaction) (x y : nat) : Prop := ∃ l d,
  links t !! l = Some d ∧ d_subject d = Some x ∧ d_object d = y.

(** The state of the job's unit is one that a job of type [ty] must change. *)
Definition must_change (t : Transaction) (ty : JobType) (y : nat) : Prop := ∃ yb U,
  objects (tr_m t) !! y = Some yb ∧ units (tr_m t) !! j_unit yb = Some U ∧ state_matters ty (u_active_state U) = Some true.

Lemma later_link_ok ty : (ty = JOB_START ∨ ty = JOB_STOP) → ∀ fuel j t, touched g t0 t → member t0 j →
  (size (unvisited g t0 t ∖ {[j]}) < fuel)%nat →
  ∃ b t', job_later_link_matters fuel j ty g t = Ret (b, t') ∧ touched g t0 t' ∧
    (b = true → ∃ y, tc (linked t0) j y ∧ must_change t0 ty y).
Proof.
  intros Hty. induction fuel as [|fuel IH]; intros j t T M Hf; [lia|]. cbn [job_later_link_matters].
  set (t1 := modify_info j _ t).
  assert (touched g t0 t1) as T1.
  { apply touched_modify; try done. by right. }
  pose proof (k_remarked _ _ _ T1) as R1.
  assert (unvisited g t0 t1 = unvisited g t0 t ∖ {[j]}) as EU.
  { apply set_eq. intros x. unfold unvisited, visited. rewrite elem_of_difference, !elem_of_filter, elem_of_singleton.
    unfold t1. rewrite info_modify. case_decide; subst; cbn; naive_solver. }
  rewrite (r_subjects _ _ R1). assert (∀ l, l ∈ subject_list (info t0 j) → l ∈ subject_list (info t0 j)) as Hsub by done.
  revert Hsub. generalize (subject_list (info t0 j)) at 1 3 as ls. induction ls as [|l ls IHl]; intros Hsub.
  { exists false, t1. done. }
  destruct (w_subject ∅ t0 W0 j l) as (d & El & Es); [apply Hsub; left|].
  assert (links t1 !! l = Some d) as -> by (by rewrite (r_links _ _ R1)). cbn [lift mbind outcome_bind].
  destruct (Z.eqb_spec (generation (info t1 (d_object d))) g) as [Hg|Hg].
  { apply IHl. intros k Hk. apply Hsub. by right. }
  destruct (w_link ∅ t0 W0 l d El) as (_ & _ & _ & [Ho|Mo] & _); [set_solver|].
  destruct (member_get t0 (d_object d) W0 Mo) as (ob & U & _ & _ & _ & Eo & EUo).
  assert (get_job t1 (d_object d) = Ret ob) as -> by (unfold get_job; by rewrite (r_m _ _ R1), Eo). cbn [lift mbind outcome_bind].
  assert (get_unit t1 (j_unit ob) = Ret U) as -> by (unfold get_unit; by rewrite (r_m _ _ R1), EUo). cbn [lift mbind outcome_bind].
  assert (is_Some (state_matters ty (u_active_state U))) as [b Eb] by (destruct Hty as [-> | ->]; by eexists).
  rewrite Eb. cbn [lift mbind outcome_bind]. assert (linked t0 j (d_object d)) as HL by (by exists l, d).
  destruct b.
  { exists true, t1. split; [done|]. split; [done|]. intros _. exists (d_object d). split; [by apply tc_once|]. by exists ob, U. }
  destruct (IH (d_object d) t1 T1 Mo) as (b & t' & E' & T' & Hb).
  { assert (unvisited g t0 t1 ∖ {[d_object d]} ⊂ unvisited g t0 t1) as Hs%subset_size; [|rewrite EU in *; lia].
    split; [set_solver|]. intros Hs. specialize (Hs (d_object d)). rewrite elem_of_difference in Hs.
    assert (d_object d ∈ unvisited g t0 t1) as Hi; [|set_solver]. unfold unvisited. rewrite elem_of_filter, elem_of_dom. by rewrite Eo. }
  exists b, t'. split; [done|]. split; [done|]. intros ->. destruct Hb as (y & Hy & Hc); [done|]. exists y. split; [|done].
  eapply tc_l; [exact HL|done].
Qed.

Lemma is_redundant_ok j t : touched g t0 t → member t0 j →
  ∃ b t', job_is_redundant (n_jobs t) j g t = Ret (b, t') ∧ touched g t0 t'.
Proof.
  intros T M. destruct (member_get t0 j W0 M) as (jb & U & _ & _ & Ht & Ej & EU). pose proof (k_remarked _ _ _ T) as R.
  assert (∀ ty, ty = JOB_START ∨ ty = JOB_STOP → ∃ b t', job_later_link_matters (n_jobs t) j ty g t = Ret (b, t') ∧ touched g t0 t') as HL.
  { intros ty Hty. destruct (later_link_ok ty Hty (n_jobs t) j t T M) as (b & t' & E & T' & _); [|by exists b, t'].
    unfold n_jobs. rewrite (r_m _ _ R), <- (size_dom (D:=gset nat)).
    assert (unvisited g t0 t ∖ {[j]} ⊆ dom (objects (tr_m t0))) as Hs%subseteq_size; [unfold unvisited; set_solver|lia]. }
  unfold job_is_redundant, get_job, get_unit. rewrite (r_m _ _ R), Ej. cbn. rewrite EU. cbn.
  destruct (j_type jb); try done; try (by eexists _, t); case_match; try (by eexists _, t).
  - destruct (HL JOB_START) as (b & t' & -> & T'); [auto|]. by exists (negb b), t'.
  - destruct (HL JOB_STOP) as (b & t' & -> & T'); [auto|]. by exists (negb b), t'.
Qed.

Lemma keep_jobs_ok ks : ∀ t, touched g t0 t → (∀ k, k ∈ ks → member t0 k) →
  ∃ b t', keep_jobs g ks t = Ret (b, t') ∧ touched g t0 t' ∧ (b = false → ∀ k, k ∈ ks → anchor_job t0 ≠ Some k).
Proof.
  induction ks as [|k ks IH]; intros t T HM; cbn.
  { exists false, t. split; [done|]. split; [done|]. by intros _ k ?%not_elem_of_nil. }
  rewrite (r_anchor _ _ (k_remarked _ _ _ T)). case_decide as Ha; [by exists true, t|].
  destruct (is_redundant_ok k t T) as (b & t1 & -> & T1); [apply HM; left|]. cbn. destruct b; [|by exists true, t1]. cbn.
  destruct (member_get t0 k W0) as (kb & U & _ & _ & Ht & Ek & EU); [apply HM; left|].
  pose proof (k_remarked _ _ _ T1) as R1. 
  assert (get_job t1 k = Ret kb) as -> by (unfold get_job; by rewrite (r_m _ _ R1), Ek). cbn.
  assert (get_unit t1 (j_unit kb) = Ret U) as -> by (unfold get_unit; by rewrite (r_m _ _ R1), EU). cbn.
  destruct (installed_conflict t1 (j_unit kb) U (j_type kb)) as [c ->]; [by apply (remarked_wf ∅ t0)|by rewrite (r_m _ _ R1)|done|].
  cbn. destruct c; [by exists true, t1|]. destruct (IH t1 T1) as (b & t' & E' & T' & Hb); [intros x Hx; apply HM; by right|].
  exists b, t'. split; [done|]. split; [done|]. intros -> x [->|Hx]%elem_of_cons; auto.
Qed.

Lemma drop_redundant_pass_ok us : ∀ t, touched g t0 t → (∀ u, u ∈ us → is_Some (tr_jobs t0 !! u)) →
  ∃ again t', drop_redundant_pass g us t = Ret (again, t') ∧
    if again : bool then (∃ t1, touched g t0 t1 ∧ trims (λ x, anchor_job t0 ≠ Some x) t1 t') ∧
      (size (objects (tr_m t')) < size (objects (tr_m t0)))%nat
    else touched g t0 t'.
Proof.
  induction us as [|u us IH]; intros t T HM; cbn; [by exists false, t|].
  destruct (HM u) as [l El]; [left|]. rewrite (r_jobs _ _ (k_remarked _ _ _ T)), El. cbn.
  destruct l as [|j l]; [by apply (w_list ∅ t0 W0) in El|]. cbn [head lift mbind outcome_bind].
  assert (∀ k, k ∈ j :: l → member t0 k) as Hl by (intros k Hk; exists u; by rewrite (list_of_some t0 u _ El)).
  destruct (keep_jobs_ok (j :: l) t T Hl) as (b & t1 & -> & T1 & Hb). cbn. destruct b.
  { apply IH; [done|]. intros v Hv. apply HM. by right. }
  pose proof (k_remarked _ _ _ T1) as R1.
  destruct (delete_trims false t1 j) as (t2 & -> & T2 & _ & S2).
  { by apply (remarked_wf ∅ t0). }
  { rewrite <- R1. apply Hl. left. }
  exists true, t2. split; [done|]. split; [|by rewrite (r_m _ _ R1) in S2]. exists t1. split; [done|].
  destruct T2 as (X & K & A & W2 & HX). exists X, K. split; [done|]. split; [done|]. intros x Hx.
  destruct (HX x Hx) as [Hm [->|[? _]]]; [|done]. split; [done|]. apply Hb; [done|left].
Qed.

End Redundant.

(** The loop, and a bound of the generations after it. *)
Definition marks_from (g : Z) (t t' : Transaction) : Prop := ∀ x,
  generation (info t' x) = generation (info t x) ∨ generation (info t' x) = g ∨ generation (info t' x) = 0.

Lemma marks_from_trans g t1 t2 t3 : marks_from g t1 t2 → marks_from g t2 t3 → marks_from g t1 t3.
Proof. intros H1 H2 x. destruct (H2 x) as [->|[?|?]]; auto. Qed.

Lemma touched_marks g t t' : touched g t t' → marks_from g t t'.
Proof. intros T x. destruct (k_gen _ _ _ T x); auto. Qed.

Lemma trims_marks g P t t' : trims P t t' → marks_from g t t'.
Proof.
  intros (X & K & A & _) x. destruct (decide (x ∈ X)) as [HX|HX].
  - destruct (c_gone _ _ _ _ _ A x HX) as [(_ & _ & Hg) _]. auto.
  - destruct (c_marks _ _ _ _ _ A x HX) as (_ & _ & Hg). auto.
Qed.

Lemma trims_prunes P t t' : trims P t t' → prunes P t t'.
Proof.
  intros (X & K & A & W & HX). exists X, K. split; [|done]. destruct A. split; try done.
  - intros x Hx. by apply c_marks.
  - intros x Hx. destruct (c_gone x Hx) as ((? & _) & ?). done.
Qed.

Lemma drop_redundant_ok `{LawfulTransaction} g t : wf ∅ t →
  ∃ t', transaction_drop_redundant g t = Ret t' ∧ prunes (λ x, anchor_job t ≠ Some x) t t' ∧ marks_from g t t'.
Proof.
  intros W. unfold transaction_drop_redundant.
  assert (∀ n t1, prunes (λ x, anchor_job t ≠ Some x) t t1 → marks_from g t t1 → (size (objects (tr_m t1)) < n)%nat →
    ∃ t', drop_redundant_loop n g t1 = Ret t' ∧ prunes (λ x, anchor_job t ≠ Some x) t t' ∧ marks_from g t t') as HL.
  { induction n as [|n IH]; intros t1 T G Hn; [lia|]. cbn. pose proof (trims_wf _ _ _ T) as W1.
    destruct (drop_redundant_pass_ok g t1 W1 (keys (tr_jobs t1)) t1) as (again & t2 & -> & Ht); [apply touched_refl|apply keys_list|].
    cbn. rewrite (trims_anchor _ _ _ _ T) in Ht. destruct again.
    - destruct Ht as [(t3 & T3 & T2) S2]. apply IH; [| |lia].
      + apply (trims_trans _ _ _ _ _ T (trims_trans _ _ _ _ _ (touched_prunes g _ _ _ W1 T3) (trims_prunes _ _ _ T2) (λ x, id)) (λ x, id)).
      + apply (marks_from_trans _ _ _ _ G), (marks_from_trans _ _ t3); [by apply touched_marks|by apply (trims_marks _ _ _ _ T2)].
    - exists t2. split; [done|]. split.
      + apply (trims_trans _ _ _ _ _ T (touched_prunes g _ _ _ W1 Ht) (λ x, id)).
      + apply (marks_from_trans _ _ _ _ G). by apply touched_marks. }
  apply HL; [by apply trims_refl|by left|unfold n_jobs; lia].
Qed.

(** ** Breaking circles *)

(** No circle of the order is reached. *)
Definition acyclic (t : Transaction) : Prop := ∀ x, reached t x → ¬ tc (before t) x x.

Lemma remarked_reached t t' x : remarked t t' → reached t x → reached t' x.
Proof.
  intros R (u & j & Ej & Hr). exists u, j. split; [unfold first_job in *; by rewrite (r_jobs _ _ R)|].
  revert Hr. apply rtc_subrel. intros a b. by rewrite R.
Qed.

Lemma remarked_acyclic t t' : remarked t t' → acyclic t → acyclic t'.
Proof.
  intros R A x Hx Hc. apply (A x); [apply (remarked_reached t'); [by symmetry|done]|].
  revert Hc. apply (tc_congruence id). intros a b. by rewrite R.
Qed.

Lemma anchored_touched g t t' : anchored t → touched g t t' → anchored t'.
Proof. intros A T. apply (anchored_trims same_matters (λ _, False) _ _ A); [by apply (touched_prunes g _ _ _ (a_wf t A))|auto]. Qed.

(** Every unit has a job that is wanted, unless garbage is not collected. *)
Definition tidy (mode : JobMode) (t : Transaction) : Prop := mode ≠ JOB_ISOLATE → ∀ u, wanted t u.

Lemma remarked_tidy mode t t' : remarked t t' → tidy mode t → tidy mode t'.
Proof.
  intros R Hw Hm u j. unfold first_job. rewrite (r_jobs _ _ R), (r_anchor _ _ R), (r_objects _ _ R). by apply (Hw Hm u j).
Qed.

Lemma touched_below g t t' : 0 < g → (∀ x, generation (info t x) < g) → touched g t t' → ∀ x, generation (info t' x) < g + 1.
Proof. intros Hg Hb T x. destruct (k_gen _ _ _ T x) as [->| ->]; [specialize (Hb x)|]; lia. Qed.

Lemma trims_below g P t t' : 0 < g → (∀ x, generation (info t x) < g) → trims P t t' → ∀ x, generation (info t' x) < g.
Proof. intros Hg Hb T x. destruct (trims_marks 0 P t t' T x) as [->|[->| ->]]; [apply Hb|done|done]. Qed.

Section Circles.
Context `{LawfulTransaction}.

(** The fourth step. *)
Lemma maybe_collect_ok mode t : anchored t →
  ∃ t', (if decide (mode = JOB_ISOLATE) then Ret t else transaction_collect_garbage t) = Ret t' ∧
    trims (λ x, anchor_job t ≠ Some x) t t' ∧ anchored t' ∧ tidy mode t' ∧
    (size (objects (tr_m t')) ≤ size (objects (tr_m t)))%nat.
Proof.
  intros A. assert (∃ t', (if decide (mode = JOB_ISOLATE) then Ret t else transaction_collect_garbage t) = Ret t' ∧
    trims (λ x, anchor_job t ≠ Some x) t t' ∧ tidy mode t') as (t' & E & T & Ht).
  { case_decide as Hm.
    - exists t. split; [done|]. split; [apply trims_refl, A|]. by intros ?.
    - destruct (collect_garbage_ok t (a_wf t A)) as (t' & E & T & Hw). exists t'. split; [done|]. split; [done|]. by intros _. }
  exists t'. split; [done|]. split; [done|]. split; [|split; [done|]].
  - apply (anchored_trims _ _ _ _ A T). naive_solver.
  - destruct T as (X & K & C & _). apply map_subseteq_size, map_subseteq_spec. intros x b.
    rewrite (c_objects _ _ _ _ _ C). by destruct (decide (x ∈ X)).
Qed.

(** The fifth step, on the result of the fourth. *)
Lemma verify_step g t : anchored t → (∀ x, generation (info t x) < g) → 0 < g →
  ∃ r t', transaction_verify_order g t = Ret (r, t') ∧ anchored t' ∧ prunes (λ x, ¬ marked t x) t t' ∧
    (∀ x, generation (info t' x) < g + 1) ∧
    (r = 0 ∧ touched g t t' ∧ acyclic t' ∨
     r = - EAGAIN ∧ (size (objects (tr_m t')) < size (objects (tr_m t)))%nat ∨
     r = - EDEADLK ∧ touched g t t' ∧ stuck t).
Proof.
  intros A Hb Hg. pose proof (a_wf t A) as W.
  destruct (verify_order_ok g t W) as (r & t' & E & H0' & Hr); [intros x Hx; specialize (Hb x); lia|].
  exists r, t'. split; [done|]. destruct Hr as [[-> T]|[(-> & u & k & t1 & _ & _ & [Hne Hd] & T & T' & En)|(-> & Hs & T)]].
  - split; [by apply (anchored_touched g t)|]. split; [by apply (touched_prunes g)|]. split; [by apply (touched_below g t)|].
    left. split; [done|]. split; [done|]. apply (remarked_acyclic t); [apply T|]. exact (proj1 H0' eq_refl).
  - assert (prunes (λ x, ¬ marked t x) t t') as P.
    { apply (trims_trans _ _ _ _ _ (touched_prunes g (λ x, ¬ marked t x) _ _ W T) (trims_prunes _ _ _ T')).
      intros x (y & Hr & Hy) Hx. assert (marked t y) as Hm; [|unfold marked in Hm; by rewrite (Hd y Hy) in Hm].
      clear -Hr Hx A. induction Hr as [|x y z Hxy _ IH]; [done|]. by apply IH, (a_closed t A x). }
    split; [|split; [done|split]].
    + apply (anchored_trims _ _ _ _ A P). intros a Ea. by apply (anchor_unmarked t a (λ x, ¬ marked t x) A Ea).
    + apply (trims_below (g + 1) _ _ _ ltac:(lia)) with (2 := T'). by apply (touched_below g t).
    + right. left. split; [done|]. destruct T' as (X & K & C & _).
      assert (∃ j, j ∈ list_of t u) as [j Hj].
      { destruct (tr_jobs t !! u) as [l|] eqn:El; [|done]. rewrite (list_of_some t u l El).
        destruct l as [|j l]; [by apply (w_list ∅ t W) in El|]. exists j. left. }
      rewrite <- (r_m _ _ (k_remarked _ _ _ T)). apply (cut_smaller (M:=same_marks) ∅ X K t1 t' j); [by apply (remarked_wf ∅ t); [apply T|]|done| |].
      * exists u. by rewrite <- (k_remarked _ _ _ T).
      * apply dec_stable. intros HX. assert (j ∈ list_of t' u) as Hj'.
        { rewrite (c_list _ _ _ _ _ C), list_elem_of_filter. split; [done|]. by rewrite <- (k_remarked _ _ _ T). }
        unfold list_of in Hj'. rewrite En in Hj'. by apply not_elem_of_nil in Hj'.
  - split; [by apply (anchored_touched g t)|]. split; [by apply (touched_prunes g)|]. split; [by apply (touched_below g t)|].
    right. right. done.
Qed.

Lemma order_loop_ok mode n : ∀ g t, anchored t → (∀ x, generation (info t x) < g) → 0 < g → g + Z.of_nat n < 2 ^ 32 →
  (size (objects (tr_m t)) < n)%nat →
  ∃ r g' t', order_loop n mode g t = Ret (r, g', t') ∧ anchored t' ∧ prunes (λ x, anchor_job t ≠ Some x) t t' ∧
    (∀ x, generation (info t' x) < g') ∧ g < g' ≤ g + Z.of_nat n ∧ tidy mode t' ∧
    (r = 0 ∧ acyclic t' ∨ r = - EDEADLK ∧ ∃ t1, remarked t1 t' ∧ stuck t1).
Proof.
  induction n as [|n IH]; intros g t A Hb Hg Hmax Hn; [lia|]. cbn [order_loop].
  destruct (maybe_collect_ok mode t A) as (t1 & -> & T1 & A1 & Ht1 & S1). cbn [mbind outcome_bind].
  destruct (verify_step g t1 A1) as (r & t2 & -> & A2 & P2 & Hb2 & Hr); [exact (trims_below g _ _ _ Hg Hb T1)|done|]. cbn [mbind outcome_bind].
  rewrite wrapu_small by lia.
  assert (prunes (λ x, anchor_job t ≠ Some x) t t2) as P.
  { apply (trims_trans _ _ _ _ _ (trims_prunes _ _ _ T1) P2). intros x Hx Ea. rewrite <- (trims_anchor _ _ _ _ T1) in Ea.
    by apply (anchor_unmarked t1 x (λ x, ¬ marked t1 x) A1 Ea). }
  destruct Hr as [(-> & T & Hc)|[(-> & S2)|(-> & T & Hs)]].
  - exists 0, (g + 1), t2. split; [done|]. split_and!; [done|done|done|lia|lia| |by left].
    apply (remarked_tidy mode t1); [apply T|done].
  - destruct (IH (g + 1) t2 A2) as (r & g' & t' & E & A' & P' & Hb' & Hg' & Ht' & Hr); [done|lia|lia|lia|].
    exists r, g', t'. split; [done|]. split_and!; [done| |done|lia|lia|done|done].
    rewrite (trims_anchor _ _ _ _ P) in P'. by apply (trims_trans _ _ _ _ _ P P').
  - exists (- EDEADLK), (g + 1), t2. split; [done|]. split_and!; [done|done|done|lia|lia| |].
    + apply (remarked_tidy mode t1); [apply T|done].
    + right. split; [done|]. exists t1. split; [apply T|done].
Qed.

End Circles.
