(* ===== verification/TransactionMerge.v ===== *)
(** * systemd: merging the jobs of a transaction

    [transaction_merge_jobs] leaves one job for each unit, of the merged type,
    with the links of all; when the jobs of a unit contradict each other it drops
    one that does not matter to the anchor, and it fails only when both matter. *)

From S2P Require Import Prelude Outcome JobMerge Job JobProps Transaction TransactionProps TransactionMarks TransactionOrder TransactionSteps.

#[local] Open Scope Z_scope.
#[local] Set Warnings "-clear-no-such-hyp".

(** ** Types *)

Definition mergeable (a b : JobType) : Prop := job_type_is_mergeable a b = Some true.

Lemma merge_step_cases a b s : merging a → merging b →
  (∃ t, job_type_merge_and_collapse a b s = Some (0, t) ∧ merging t ∧ mergeable a b) ∨
  (job_type_merge_and_collapse a b s = Some (- EEXIST, a) ∧ job_type_is_mergeable a b = Some false).
Proof.
  unfold merging, mergeable. intros Ha Hb. destruct a; try done; destruct b; try done; destruct s;
    ((left; eexists; split; [reflexivity|by split]) || (right; by split)).
Qed.

Lemma merge_step_mergeable a b c s t : merging a → merging b → merging c →
  job_type_merge_and_collapse a b s = Some (0, t) → mergeable a c → mergeable b c → mergeable t c.
Proof.
  unfold merging, mergeable. intros Ha Hb Hc. destruct a; try done; destruct b; try done; destruct s; cbn;
    intros [= <-]; destruct c; done.
Qed.

Lemma merging_in_transaction ty : in_transaction ty = true → ty ≠ JOB_NOP → merging ty.
Proof. by destruct ty. Qed.

Lemma in_transaction_merging ty : merging ty → in_transaction ty = true ∧ ty ≠ JOB_NOP.
Proof. by destruct ty. Qed.

(** ** Transactions whose jobs can be compared *)

(** A job that does nothing is alone. *)
Definition nops_alone (t : Transaction) : Prop := ∀ u x jb, x ∈ list_of t u → objects (tr_m t) !! x = Some jb →
  j_type jb = JOB_NOP → list_of t u = [x].

Lemma nops_alone_trims M P t t' : nops_alone t → trims_by M P t t' → nops_alone t'.
Proof.
  intros N (X & K & A & _) u x jb Hx E Ht. rewrite (c_list _ _ _ _ _ A), list_elem_of_filter in *. destruct Hx as [HX Hx].
  rewrite (c_objects _ _ _ _ _ A), decide_False in E by done. rewrite (N u x jb Hx E Ht). by rewrite filter_cons_True.
Qed.

(** The type of a job. *)
Definition type_of (t : Transaction) (x : nat) : JobType := default JOB_NOP (j_type <$> objects (tr_m t) !! x).

Lemma type_of_some t x jb : objects (tr_m t) !! x = Some jb → type_of t x = j_type jb.
Proof. unfold type_of. by intros ->. Qed.

(** The jobs of the list [l] of a unit. *)
Definition comparable (t : Transaction) (l : list nat) : Prop := ∀ x, x ∈ l →
  member t x ∧ is_Some (objects (tr_m t) !! x) ∧ merging (type_of t x).

Lemma list_comparable t u : wf ∅ t → nops_alone t → (1 < length (list_of t u))%nat → comparable t (list_of t u).
Proof.
  intros W N HL x Hx. destruct (w_member ∅ t W u x Hx) as (_ & jb & E & P). split; [by exists u|]. split; [by eexists|].
  rewrite (type_of_some t x jb E). apply merging_in_transaction; [apply P|]. intros Ht.
  rewrite (N u x jb Hx E Ht) in HL. cbn in HL. lia.
Qed.

Lemma mergeable_sym a b : merging a → merging b → mergeable a b → mergeable b a.
Proof. unfold merging, mergeable. destruct a; try done; destruct b; done. Qed.

Lemma mergeable_refl a : merging a → mergeable a a.
Proof. unfold merging, mergeable. by destruct a. Qed.

#[export] Instance mergeable_dec a b : Decision (mergeable a b).
Proof. unfold mergeable. apply _. Defined.

(** All jobs of the list merge with each other. *)
Definition compatible (t : Transaction) (l : list nat) : Prop :=
  ∀ x y, x ∈ l → y ∈ l → mergeable (type_of t x) (type_of t y).

(** [ty] merges with all that the jobs of a list merge with. *)
Definition covers (t : Transaction) (ty : JobType) (l : list nat) : Prop :=
  ∀ c, merging c → (∀ p, p ∈ l → mergeable (type_of t p) c) → mergeable ty c.

Lemma merge_types_ok t s ks : comparable t ks → ∀ seen ty, merging ty → covers t ty seen →
  ∃ res, merge_types t s ty ks = Ret res ∧
    match res with inl ty' => merging ty' | inr k => ¬ compatible t (seen ++ ks) end.
Proof.
  induction ks as [|k ks IH]; intros HK seen ty Hty HC; cbn; [by exists (inl ty)|].
  destruct (HK k) as (_ & [kb Ek] & Hk); [left|].
  assert (get_job t k = Ret kb) as -> by (unfold get_job; by rewrite Ek). cbn.
  rewrite <- (type_of_some t k kb Ek). destruct (merge_step_cases ty (type_of t k) s Hty Hk) as [(ty' & Et & Ht' & Hm)|[Et Hm]]; rewrite Et; cbn.
  - destruct (IH (λ x Hx, HK x (list_elem_of_further _ _ _ Hx)) (seen ++ [k]) ty' Ht') as (res & E & Hr).
    + intros c Hc Hp. apply (merge_step_mergeable ty (type_of t k) c s); [done..| |].
      * apply HC; [done|]. intros p Hin. apply Hp. set_solver.
      * apply Hp. set_solver.
    + exists res. split; [done|]. destruct res; [done|]. by rewrite <- app_assoc in Hr.
  - exists (inr k). split; [done|]. intros Hall. assert (mergeable ty (type_of t k)) as Hm'.
    { apply HC; [done|]. intros p Hp. apply Hall; set_solver. }
    unfold mergeable in Hm'. congruence.
Qed.

(** ** Contradicting jobs *)

Lemma conflicted_by_total t j : wf ∅ t → ∃ b, job_is_conflicted_by t j = Ret b.
Proof.
  intros W. unfold job_is_conflicted_by. assert (∀ l, l ∈ object_list (info t j) → is_Some (links t !! l)) as HL.
  { intros l Hl. destruct (w_object ∅ t W j l Hl) as (d & E & _). by exists d. }
  induction (object_list (info t j)) as [|l ls IH]; [by exists false|].
  destruct (HL l) as [d E]; [left|]. rewrite E. cbn. destruct (d_conflicts d); [by exists true|].
  apply IH. intros k Hk. apply HL. by right.
Qed.

Lemma pick_job_ok t j k : wf ∅ t → is_Some (objects (tr_m t) !! j) → is_Some (objects (tr_m t) !! k) →
  ∃ d, pick_job t j k = Ret d ∧
    match d with Some x => (x = j ∨ x = k) ∧ ¬ marked t x | None => marked t j ∧ marked t k end.
Proof.
  intros W [jb Ej] [kb Ek]. unfold pick_job, get_job, marked. rewrite Ej, Ek. cbn.
  destruct (conflicted_by_total t j W) as [b1 E1], (conflicted_by_total t k W) as [b2 E2]. rewrite E1, E2.
  destruct (matters_to_anchor (info t j)) eqn:Mj, (matters_to_anchor (info t k)) eqn:Mk; cbn.
  - by exists None.
  - exists (Some k). rewrite Mk. auto.
  - exists (Some j). rewrite Mj. auto.
  - destruct (decide _); [exists (Some (if b1 then k else j)); destruct b1; rewrite ?Mj, ?Mk; auto|].
    destruct (decide _); [exists (Some (if b2 then j else k)); destruct b2; rewrite ?Mj, ?Mk; auto|].
    exists (Some j). rewrite Mj. auto.
Qed.

Lemma unmergeable_with_ok t j ks : comparable t (j :: ks) →
  ∃ res, unmergeable_with t j ks = Ret res ∧
    match res with
    | Some k => k ∈ ks ∧ ¬ mergeable (type_of t j) (type_of t k)
    | None => ∀ k, k ∈ ks → mergeable (type_of t j) (type_of t k)
    end.
Proof.
  intros HC. destruct (HC j) as (_ & [jb Ej] & Hj); [left|]. induction ks as [|k ks IH]; cbn.
  { exists None. split; [done|]. by intros k ?%not_elem_of_nil. }
  destruct (HC k) as (_ & [kb Ek] & Hk); [right; left|]. unfold get_job. rewrite Ej, Ek. cbn.
  rewrite <- (type_of_some t j jb Ej), <- (type_of_some t k kb Ek).
  assert (∃ b, job_type_is_mergeable (type_of t j) (type_of t k) = Some b) as [b Eb].
  { destruct (merge_step_cases (type_of t j) (type_of t k) UNIT_ACTIVE Hj Hk) as [(? & _ & _ & ?)|[_ ?]]; by eexists. }
  rewrite Eb. cbn. destruct b.
  - destruct IH as (res & E & Hr); [intros x Hx; apply HC; set_solver|]. exists res. split; [done|].
    destruct res as [x|]; [split; [right|]; apply Hr|]. intros x [->|Hx]%elem_of_cons; [done|auto].
  - exists (Some k). split; [done|]. split; [left|]. unfold mergeable. congruence.
Qed.

(** Two jobs of a unit that contradict each other and both matter. *)
Definition contradiction (t : Transaction) (l : list nat) : Prop := ∃ j k,
  j ∈ l ∧ k ∈ l ∧ marked t j ∧ marked t k ∧ ¬ mergeable (type_of t j) (type_of t k).

Lemma delete_one_ok t : anchored t → ∀ js, comparable t js →
  ∃ r t', delete_one_unmergeable_job js t = Ret (r, t') ∧
    (r = 0 ∧ trims (λ x, ¬ marked t x) t t' ∧ (size (objects (tr_m t')) < size (objects (tr_m t)))%nat ∨
     r = - ENOEXEC ∧ t' = t ∧ contradiction t js ∨
     r = - EINVAL ∧ t' = t ∧ compatible t js).
Proof.
  intros A. pose proof (a_wf t A) as W. induction js as [|j js IH]; intros HC; cbn.
  { exists (- EINVAL), t. split; [done|]. right. right. split; [done|]. split; [done|]. by intros x y ?%not_elem_of_nil. }
  destruct (unmergeable_with_ok t j js HC) as (res & -> & Hres). cbn. destruct res as [k|].
  - destruct Hres as [Hk Hm]. destruct (HC j) as (Mj & Ej & _); [left|]. destruct (HC k) as (Mk & Ek & _); [by right|].
    destruct (pick_job_ok t j k W Ej Ek) as (d & -> & Hd). cbn. destruct d as [d|].
    + destruct Hd as [Hd Kd]. destruct (delete_trims true t d W) as (t' & -> & T & _ & S); [by destruct Hd as [->| ->]|]. cbn.
      exists 0, t'. split; [done|]. left. split; [done|]. split; [|done].
      destruct T as (X & K & C & W' & HX). exists X, K. split; [done|]. split; [done|]. intros x Hx.
      destruct (HX x Hx) as [Hmem Hg]. split; [done|]. by apply (unmarked_goes true t d x A Kd).
    + exists (- ENOEXEC), t. split; [done|]. right. left. split; [done|]. split; [done|]. exists j, k.
      destruct Hd. split_and!; [left|by right|done..].
  - destruct IH as (r & t' & E & Hr); [intros x Hx; apply HC; by right|]. exists r, t'. split; [done|].
    destruct Hr as [Hr|[(-> & -> & x & y & ? & ? & ?)|(-> & -> & Hall)]]; [by left|right; left|right; right].
    + split; [done|]. split; [done|]. exists x, y. split; [by right|]. split; [by right|done].
    + split; [done|]. split; [done|]. destruct (HC j) as (_ & _ & Hj); [left|].
      assert (∀ x, x ∈ js → merging (type_of t x)) as Hjs by (intros x Hx; apply HC; by right).
      intros x y [->|Hx]%elem_of_cons [->|Hy]%elem_of_cons; auto using mergeable_refl, mergeable_sym.
Qed.

(** The merged type of the jobs of a unit. *)
Definition merged_type (t : Transaction) (u : nat) (ty : JobType) : Prop := ∃ U j l,
  units (tr_m t) !! u = Some U ∧ list_of t u = j :: l ∧
  merge_types t (u_active_state U) (type_of t j) l = Ret (inl ty) ∧ in_transaction ty = true.

(** The types of the jobs of a unit, merged or not. *)
Lemma merge_list_ok t u : wf ∅ t → nops_alone t → is_Some (tr_jobs t !! u) →
  ∃ jb U j l res, tr_jobs t !! u = Some (j :: l) ∧ list_of t u = j :: l ∧ get_job t j = Ret jb ∧ get_unit t (j_unit jb) = Ret U ∧
    merge_types t (u_active_state U) (j_type jb) l = Ret res ∧
    match res with inl ty => merged_type t u ty | inr _ => comparable t (j :: l) ∧ ¬ compatible t (j :: l) end.
Proof.
  intros W N [l El]. destruct l as [|j l]; [by apply (w_list ∅ t W) in El|]. pose proof (list_of_some t u _ El) as Eu.
  destruct (w_member ∅ t W u j) as (_ & jb & Ej & P); [rewrite Eu; left|].
  destruct (w_unit ∅ t W j jb) as [U EU]; [right; exists u; rewrite Eu; left|done|].
  assert (∃ res, merge_types t (u_active_state U) (j_type jb) l = Ret res ∧
    match res with inl ty => in_transaction ty = true | inr _ => comparable t (j :: l) ∧ ¬ compatible t (j :: l) end) as (res & E & Hr).
  { destruct (decide (l = [])) as [->|Hl]; [exists (inl (j_type jb)); split; [done|apply P]|].
    assert (comparable t (j :: l)) as HC.
    { rewrite <- Eu. apply list_comparable; [done|done|]. rewrite Eu. destruct l; [done|cbn; lia]. }
    destruct (HC j) as (_ & _ & Hj); [left|]. rewrite (type_of_some t j jb Ej) in Hj.
    destruct (merge_types_ok t (u_active_state U) l (λ x Hx, HC x (list_elem_of_further _ _ _ Hx)) [j] (j_type jb)) as (res & E & Hr); [done| |].
    - intros c Hc Hp. rewrite <- (type_of_some t j jb Ej). apply Hp. set_solver.
    - exists res. split; [done|]. destruct res; [by apply in_transaction_merging|done]. }
  exists jb, U, j, l, res. unfold get_job, get_unit. rewrite Ej. cbn. rewrite EU. split_and!; [done..|].
  destruct res as [ty|]; [|done]. exists U, j, l. rewrite (type_of_some t j jb Ej). destruct P as (<- & _). done.
Qed.

(** The first step for one unit: nothing changes, a job that does not matter is
    dropped, or two jobs that matter contradict each other. *)
Lemma merge_check_ok u t : anchored t → nops_alone t → is_Some (tr_jobs t !! u) →
  ∃ r t', merge_check u t = Ret (r, t') ∧
    (0 ≤ r ∧ t' = t ∧ (∃ ty, merged_type t u ty) ∨
     r < 0 ∧ (r = - EAGAIN ∧ trims (λ x, ¬ marked t x) t t' ∧ (size (objects (tr_m t')) < size (objects (tr_m t)))%nat ∨
              r = - EDEADLK ∧ t' = t ∧ contradiction t (list_of t u))).
Proof.
  intros A N Hu. destruct (merge_list_ok t u (a_wf t A) N Hu) as (jb & U & j & l & res & El & Eu & Ej & EU & Em & Hr).
  unfold merge_check. rewrite El. cbn. rewrite Ej. cbn. rewrite EU. cbn. rewrite Em. cbn. destruct res as [ty|k].
  { exists 0, t. split; [done|]. left. split; [done|]. split; [done|]. by exists ty. }
  destruct Hr as [HC HN]. destruct (delete_one_ok t A (j :: l) HC) as (r & t' & E & Hr).
  cbn in E. rewrite E. cbn. destruct Hr as [(-> & T & S)|[(-> & -> & Hc)|(_ & _ & Hc)]]; [| |done].
  - exists (- EAGAIN), t'. split; [done|]. right. split; [done|]. by left.
  - exists (- EDEADLK), t. split; [done|]. right. split; [done|]. right. rewrite Eu. done.
Qed.

(** ** Absorbing a job *)

Lemma own_links_lookup f ls m l : NoDup ls → own_links f ls m !! l = if decide (l ∈ ls) then f <$> m !! l else m !! l.
Proof.
  induction ls as [|k ks IH]; intros N; [by rewrite decide_False by apply not_elem_of_nil|].
  change (own_links f (k :: ks) m) with (alter f k (own_links f ks m)).
  apply NoDup_cons in N as [Nk N]. destruct (decide (k = l)) as [->|Ek].
  - rewrite lookup_alter_eq, IH by done. rewrite decide_False by done. by rewrite decide_True by left.
  - rewrite lookup_alter_ne, IH by done. destruct (decide (l ∈ ks)); [by rewrite decide_True by (by right)|].
    rewrite decide_False; [done|]. by intros [?|?]%elem_of_cons.
Qed.

(** The end [x] of a link after [other] was replaced by [j]. *)
Definition redirect (j other x : nat) : nat := if decide (x = other) then j else x.

Lemma absorb_links t j other ty ob l : wf ∅ t → links (absorb j other ty ob t) !! l =
  (λ d, mk_dep (redirect j other <$> d_subject d) (redirect j other (d_object d)) (d_matters d) (d_conflicts d)) <$> links t !! l.
Proof.
  intros W. unfold absorb. cbn. rewrite !own_links_lookup by apply (w_lists ∅ t W other).
  destruct (links t !! l) as [d|] eqn:El.
  - destruct (w_link ∅ t W l d El) as (s & Es & _ & _ & Ls & Lo). unfold redirect.
    assert (l ∈ subject_list (info t other) ↔ s = other) as H1.
    { split; [|by intros <-]. intros Hl. destruct (w_subject ∅ t W other l Hl) as (d' & E' & Es'). congruence. }
    assert (l ∈ object_list (info t other) ↔ d_object d = other) as H2.
    { split; [|by intros <-]. intros Hl. destruct (w_object ∅ t W other l Hl) as (d' & E' & Es'). congruence. }
    destruct d as [sd od md cd]. cbn in Es, H2, Lo. subst sd. cbn.
    repeat case_decide; cbn; naive_solver.
  - repeat case_decide; done.
Qed.

Lemma absorb_info t j other ty ob x : j ≠ other → 
  subject_list (info (absorb j other ty ob t) x) =
    (if decide (x = other) then [] else if decide (x = j) then subject_list (info t other) ++ subject_list (info t j) else subject_list (info t x)) ∧
  object_list (info (absorb j other ty ob t) x) =
    (if decide (x = other) then [] else if decide (x = j) then object_list (info t other) ++ object_list (info t j) else object_list (info t x)).
Proof.
  intros Hne. unfold absorb. cbv zeta. rewrite !info_modify. repeat case_decide; subst; done.
Qed.

(** A change of a job that is not installed. *)
Lemma planned_modify_consistent m j jb f : consistent m → objects m !! j = Some jb → j_installed jb = false →
  j_id (f jb) = j_id jb → j_installed (f jb) = false → j_in_run_queue (f jb) = j_in_run_queue jb →
  j_in_dbus_queue (f jb) = j_in_dbus_queue jb → j_in_gc_queue (f jb) = j_in_gc_queue jb →
  consistent (modify_job j f m).
Proof.
  intros C E I Hid Hi Hr Hd Hg. pose proof C as C0. destruct C. split; cbn; try done.
  - intros u U ty r EU ES. destruct (c_slot u U ty r EU ES) as (j0 & E0 & I0 & H0). exists j0.
    rewrite lookup_alter_ne; [done|]. intros <-. congruence.
  - intros r j0 E0 I0. rewrite lookup_alter in E0. case_decide as Er; [|auto]. subst r. rewrite E in E0.
    injection E0 as <-. congruence.
  - intros id r J. destruct (c_jobs id r J) as (j0 & E0 & H0). rewrite lookup_alter. case_decide as Er; [|by exists j0].
    subst r. rewrite E in E0 |- *. injection E0 as <-. exists (f jb). split; [done|congruence].
  - rewrite (count_alter _ _ j jb) by done. unfold is_running at 2 3. rewrite I, Hi. cbn. lia.
  - rewrite <- size_dom, dom_alter_L, size_dom. done.
  - by apply (queue_alter _ _ _ _ _ jb).
  - by apply (queue_alter _ _ _ _ _ jb).
  - by apply (queue_alter _ _ _ _ _ jb).
  - intros r j0 E0 Hq. rewrite lookup_alter in E0. case_decide as Er; [|by apply (c_queued r)]. subst r. rewrite E in E0.
    injection E0 as <-. rewrite Hr, Hd, Hg in Hq. rewrite (c_queued j jb E Hq) in I. done.
Qed.

Lemma absorb_objects t j other ty ob x : objects (tr_m (absorb j other ty ob t)) !! x =
  if decide (x = j) then merge_fields ty ob <$> objects (tr_m t) !! j else objects (tr_m t) !! x.
Proof. unfold absorb. cbn. rewrite lookup_alter. repeat case_decide; subst; done. Qed.

Section Absorb.
Context (t : Transaction) (u j other : nat) (ty : JobType) (ob : Job).
Hypotheses (W : wf ∅ t) (Hj : j ∈ list_of t u) (Ho : other ∈ list_of t u) (Hne : j ≠ other)
  (Hty : in_transaction ty = true).

Let t1 := absorb j other ty ob t.

Lemma absorb_planned v jb : planned v jb → planned v (merge_fields ty ob jb).
Proof. intros (Hu & Hi & _ & Hs). done. Qed.

Lemma absorb_wf : wf ∅ t1.
Proof.
  destruct (w_member ∅ t W u j Hj) as (_ & jb & Ej & Pj).
  assert (∀ x, in_graph ∅ t1 x ↔ in_graph ∅ t x) as HG by done.
  assert (∀ x l, l ∈ subject_list (info t1 x) → ∃ y, l ∈ subject_list (info t y) ∧ redirect j other y = x) as HS.
  { intros x l. unfold t1. rewrite (proj1 (absorb_info t j other ty ob x Hne)). unfold redirect.
    destruct (decide (x = other)) as [|Hx]; [by intros ?%not_elem_of_nil|]. destruct (decide (x = j)) as [->|Hxj].
    - intros [Hl|Hl]%elem_of_app; [exists other; by rewrite decide_True|exists j; by rewrite decide_False].
    - intros Hl. exists x. by rewrite decide_False. }
  assert (∀ x l, l ∈ object_list (info t1 x) → ∃ y, l ∈ object_list (info t y) ∧ redirect j other y = x) as HO.
  { intros x l. unfold t1. rewrite (proj2 (absorb_info t j other ty ob x Hne)). unfold redirect.
    destruct (decide (x = other)) as [|Hx]; [by intros ?%not_elem_of_nil|]. destruct (decide (x = j)) as [->|Hxj].
    - intros [Hl|Hl]%elem_of_app; [exists other; by rewrite decide_True|exists j; by rewrite decide_False].
    - intros Hl. exists x. by rewrite decide_False. }
  assert (∀ y l, l ∈ subject_list (info t y) → l ∈ subject_list (info t1 (redirect j other y))) as HS'.
  { intros y l Hl. unfold t1. rewrite (proj1 (absorb_info t j other ty ob _ Hne)). unfold redirect.
    repeat case_decide; subst; try done; rewrite elem_of_app; auto. }
  assert (∀ y l, l ∈ object_list (info t y) → l ∈ object_list (info t1 (redirect j other y))) as HO'.
  { intros y l Hl. unfold t1. rewrite (proj2 (absorb_info t j other ty ob _ Hne)). unfold redirect.
    repeat case_decide; subst; try done; rewrite elem_of_app; auto. }
  assert (∀ x, in_graph ∅ t x → in_graph ∅ t (redirect j other x)) as HR.
  { intros x Hx. unfold redirect. case_decide; [right; by exists u|done]. }
  split.
  - apply (planned_modify_consistent _ j jb); [apply W|done|apply Pj|try done..]. apply Pj.
  - apply (w_list ∅ t W).
  - apply (w_nodup ∅ t W).
  - intros v x Hx. destruct (w_member ∅ t W v x Hx) as (Hd & xb & Ex & Px). split; [done|]. unfold t1. rewrite absorb_objects.
    case_decide as Ejx; [|by exists xb]. subst x. exists (merge_fields ty ob xb). rewrite Ex. split; [done|]. by apply absorb_planned.
  - intros x Hx. set_solver.
  - intros x xb Hx Ex. change (units (tr_m t1)) with (units (tr_m t)). unfold t1 in Ex. rewrite absorb_objects in Ex. case_decide as Ejx.
    + subst x. rewrite Ej in Ex. injection Ex as <-. by apply (w_unit ∅ t W j jb).
    + by apply (w_unit ∅ t W x xb).
  - intros x Hx. by apply (w_table ∅ t W x).
  - intros l d El. unfold t1 in El. rewrite absorb_links in El by done. destruct (links t !! l) as [d0|] eqn:E0; [|done].
    injection El as <-. destruct (w_link ∅ t W l d0 E0) as (s & Es & Gs & Go & Ls & Lo). cbn. rewrite Es. cbn.
    eexists. split; [done|]. rewrite !HG. auto.
  - intros x l Hl. destruct (HS x l Hl) as (y & Hy & Ey). destruct (w_subject ∅ t W y l Hy) as (d & El & Es).
    eexists. unfold t1. rewrite absorb_links, El by done. split; [done|]. cbn. by rewrite Es, <- Ey.
  - intros x l Hl. destruct (HO x l Hl) as (y & Hy & Ey). destruct (w_object ∅ t W y l Hy) as (d & El & Es).
    eexists. unfold t1. rewrite absorb_links, El by done. split; [done|]. cbn. by rewrite Es, <- Ey.
  - intros x. unfold t1. destruct (absorb_info t j other ty ob x Hne) as [-> ->].
    destruct (decide (x = other)); [split; constructor|]. destruct (decide (x = j)) as [->|]; [|apply (w_lists ∅ t W)].
    split; apply NoDup_app; (split_and!; [apply (w_lists ∅ t W)| |apply (w_lists ∅ t W)]); intros l H1 H2.
    + destruct (w_subject ∅ t W _ l H1) as (d & El & Es), (w_subject ∅ t W _ l H2) as (d' & El' & Es'). congruence.
    + destruct (w_object ∅ t W _ l H1) as (d & El & Es), (w_object ∅ t W _ l H2) as (d' & El' & Es'). congruence.
Qed.

End Absorb.

(** ** What every step keeps

    Jobs only leave the transaction, and are freed when they do; all that is not
    in the transaction stays as it is. *)

Record evolves (t t' : Transaction) : Prop := {
  e_rest : with_objects ∅ (tr_m t') = with_objects ∅ (tr_m t);
  e_anchor : anchor_job t' = anchor_job t;
  e_irreversible : irreversible t' = irreversible t;
  e_list : ∀ u x, x ∈ list_of t' u → x ∈ list_of t u;
  e_outside : ∀ x, ¬ member t x → objects (tr_m t') !! x = objects (tr_m t) !! x;
  e_gone : ∀ x, member t x → ¬ member t' x → objects (tr_m t') !! x = None;
  e_id : ∀ x jb', objects (tr_m t') !! x = Some jb' → ∃ jb, objects (tr_m t) !! x = Some jb ∧ j_id jb' = j_id jb }.

Lemma evolves_member t t' x : evolves t t' → member t' x → member t x.
Proof. intros E [u Hu]. exists u. by apply (e_list t t' E). Qed.

Lemma member_dec D t x : wf D t → Decision (member t x).
Proof.
  intros W. destruct (objects (tr_m t) !! x) as [jb|] eqn:E.
  - destruct (decide (x ∈ list_of t (j_unit jb))) as [Hx|Hx]; [left; by exists (j_unit jb)|right].
    intros [u Hu]. destruct (w_member D t W u x Hu) as (_ & jb' & E' & P & _). congruence.
  - right. intros [u Hu]. destruct (w_member D t W u x Hu) as (_ & jb' & E' & P & _). congruence.
Defined.

Lemma evolves_refl t : evolves t t.
Proof. split; try done. intros x jb E. by exists jb. Qed.

Lemma evolves_trans t1 t2 t3 : wf ∅ t2 → evolves t1 t2 → evolves t2 t3 → evolves t1 t3.
Proof.
  intros W A B. destruct A, B. split; try congruence; auto.
  - intros x Hx. rewrite e_outside1; [by apply e_outside0|]. intros [u Hu]. apply Hx. exists u. auto.
  - intros x Hx Hn. destruct (member_dec ∅ t2 x W) as [H2|H2]; [by apply e_gone1|].
    rewrite e_outside1 by done. by apply e_gone0.
  - intros x jb E. destruct (e_id1 x jb E) as (jb' & E' & H'). destruct (e_id0 x jb' E') as (jb'' & E'' & H'').
    exists jb''. split; [done|congruence].
Qed.

Lemma trims_evolves M P t t' : trims_by M P t t' → evolves t t'.
Proof.
  intros (X & K & A & W & HX). split; try apply A.
  - intros u x. rewrite (c_list _ _ _ _ _ A), list_elem_of_filter. by intros [_ ?].
  - intros x Hx. rewrite (c_objects _ _ _ _ _ A). rewrite decide_False; [done|]. intros Hx'. by apply Hx, HX.
  - intros x [u Hu] Hn. rewrite (c_objects _ _ _ _ _ A), decide_True; [done|]. apply dec_stable. intros Hx. apply Hn.
    exists u. by rewrite (c_list _ _ _ _ _ A), list_elem_of_filter.
  - intros x jb. rewrite (c_objects _ _ _ _ _ A). case_decide; [done|]. by exists jb.
Qed.

(** ** Merging two jobs *)

Lemma merge_and_delete_ok t u j other ty : wf ∅ t → j ∈ list_of t u → other ∈ list_of t u → j ≠ other →
  in_transaction ty = true →
  ∃ t', transaction_merge_and_delete_job j other ty t = Ret t' ∧ wf ∅ t' ∧ evolves t t' ∧
    (∀ v, list_of t' v = list_remove other (list_of t v)) ∧ type_of t' j = ty ∧
    (∀ x, x ≠ j → x ≠ other → objects (tr_m t') !! x = objects (tr_m t) !! x).
Proof.
  intros W Hj Ho Hne Hty. destruct (w_member ∅ t W u j Hj) as (_ & jb & Ej & Pj).
  destruct (w_member ∅ t W u other Ho) as (_ & ob & Eo & Po).
  unfold transaction_merge_and_delete_job. unfold get_job. rewrite Ej, Eo. cbn [lift mbind outcome_bind].
  destruct Pj as (Eu & Ei & Pj). destruct Po as (Eu' & Po). rewrite Eu, Eu', Ei, bool_decide_true by done. cbn [andb negb assert_ lift mbind outcome_bind].
  rewrite !(proj2 (forallb_forall _ _)); cbn [andb assert_ lift mbind outcome_bind].
  2: { intros l Hl%list_elem_of_In. destruct (w_object ∅ t W other l Hl) as (d & El & Ed). rewrite El. cbn. rewrite Ed. by apply bool_decide_eq_true. }
  2: { intros l Hl%list_elem_of_In. destruct (w_subject ∅ t W other l Hl) as (d & El & Ed). rewrite El. cbn. rewrite Ed. by apply bool_decide_eq_true. }
  cbv zeta. pose proof (absorb_wf t u j other ty ob W Hj Hne Hty) as W1. set (t1 := absorb j other ty ob t) in *.
  destruct (delete_ok true (enough t1) ∅ other t1 W1) as (t' & X & K & -> & A & W' & HoX & Dm); [set_solver|by exists u|unfold enough; lia|].
  assert (∀ x, x ∈ X ↔ x = other) as HX.
  { intros x. split; [|by intros ->]. intros Hx. apply (no_link_alone t1 other true x W1).
    - unfold t1. rewrite (proj2 (absorb_info t j other ty ob other Hne)). by rewrite decide_True.
    - by apply (doomed_exact true other t1 X K). }
  assert (∀ x, objects (tr_m t') !! x = if decide (x = other) then None else if decide (x = j) then merge_fields ty ob <$> objects (tr_m t) !! j else objects (tr_m t) !! x) as HE.
  { intros x. rewrite (c_objects _ _ _ _ _ A). unfold t1. rewrite absorb_objects. repeat case_decide; naive_solver. }
  assert (∀ v, list_of t' v = list_remove other (list_of t v)) as HL.
  { intros v. rewrite (c_list _ _ _ _ _ A). apply list_filter_iff. intros x. by rewrite HX. }
  assert (member t j ∧ member t other) as [Mj Mo] by (split; by exists u).
  exists t'. split; [done|]. split; [done|]. split; [|split; [done|split]].
  - split.
    + by rewrite (c_rest _ _ _ _ _ A).
    + by rewrite (c_anchor _ _ _ _ _ A).
    + by rewrite (c_irreversible _ _ _ _ _ A).
    + intros v x. rewrite HL, elem_of_list_remove. by intros [? _].
    + intros x Hx. rewrite HE. repeat (rewrite decide_False by (by intros ->)). done.
    + intros x [v Hv] Hn. rewrite HE. case_decide; [done|]. destruct Hn. exists v. by rewrite HL, elem_of_list_remove.
    + intros x xb. rewrite HE. case_decide; [done|]. case_decide; [|by exists xb]. subst x. rewrite Ej. cbn. intros [= <-]. by exists jb.
  - unfold type_of. rewrite HE, decide_False, decide_True, Ej by done. done.
  - intros x H1 H2. rewrite HE. by rewrite !decide_False.
Qed.

(** ** Merging the jobs of a unit *)

(** The unit [u] has one job, of type [ty], one of [l], and the anchor if [l] holds it. *)
Definition merged_to (t : Transaction) (u : nat) (ty : JobType) (l : list nat) : Prop := ∃ k,
  list_of t u = [k] ∧ k ∈ l ∧ type_of t k = ty ∧ ∀ a, anchor_job t = Some a → a ∈ l → k = a.

(** A step that only merges jobs of unit [u]. *)
Record merges (u : nat) (t t' : Transaction) : Prop := {
  g_wf : wf ∅ t';
  g_evolves : evolves t t';
  g_other : ∀ v, v ≠ u → list_of t' v = list_of t v;
  g_objects : ∀ x, x ∉ list_of t u → objects (tr_m t') !! x = objects (tr_m t) !! x }.

Lemma merges_refl u t : wf ∅ t → merges u t t.
Proof. intros W. split; [done|apply evolves_refl|done|done]. Qed.

Lemma merges_trans u t1 t2 t3 : merges u t1 t2 → merges u t2 t3 → merges u t1 t3.
Proof.
  intros A B. split; [apply B| | |].
  - apply (evolves_trans t1 t2 t3); [apply A..|apply B].
  - intros v Hv. by rewrite (g_other u t2 t3 B v Hv), (g_other u t1 t2 A v Hv).
  - intros x Hx. rewrite (g_objects u t2 t3 B); [by apply (g_objects u t1 t2 A)|]. intros Hx'. apply Hx. by apply (e_list _ _ (g_evolves u t1 t2 A)).
Qed.

Lemma list_remove_other u v t x : wf ∅ t → x ∈ list_of t u → v ≠ u → list_remove x (list_of t v) = list_of t v.
Proof. intros W Hx Hv. apply filter_ne_id. intros Hx'. by apply Hv, (member_unit ∅ t v u x). Qed.

Lemma merge_loop_ok u ty : in_transaction ty = true → ∀ n j l t, wf ∅ t → list_of t u = j :: l → (length l < n)%nat →
  (l = [] → type_of t j = ty) →
  ∃ t', merge_loop n u j ty t = Ret t' ∧ merges u t t' ∧ merged_to t' u ty (j :: l).
Proof.
  intros Hty. induction n as [|n IH]; intros j l t W El Hn Hl; [lia|]. cbn [merge_loop].
  rewrite (list_of_lookup ∅ t u W), El by (by rewrite El). cbn [lift mbind outcome_bind head].
  rewrite bool_decide_true by done. cbn [assert_ lift mbind outcome_bind].
  pose proof (w_nodup ∅ t W u) as N. rewrite El in N. apply NoDup_cons in N as [Nj N].
  destruct l as [|k l].
  { exists t. split; [done|]. split; [by apply merges_refl|]. exists j. split_and!; [done|left|auto|].
    intros a _ ->%list_elem_of_singleton. done. }
  apply NoDup_cons in N as [Nk N].
  assert (j ∈ list_of t u ∧ k ∈ list_of t u) as [Hj Hk] by (rewrite El; split; [left|right; left]).
  assert (j ≠ k) as Hjk by set_solver.
  assert (∀ x y, x ∈ list_of t u → y ∈ list_of t u → x ≠ y → list_remove y (list_of t u) = x :: l → anchor_job t ≠ Some y →
    (x = j ∧ y = k ∨ x = k ∧ y = j) →
    ∃ t', (t ← transaction_merge_and_delete_job x y ty t; merge_loop n u x ty t) = Ret t' ∧ merges u t t' ∧ merged_to t' u ty (j :: k :: l)) as Hstep.
  { intros x y Hx Hy Hxy Hrem Hay Hcases. destruct (merge_and_delete_ok t u x y ty W Hx Hy Hxy Hty) as (t1 & -> & W1 & E1 & L1 & Ty1 & O1). cbn.
    assert (merges u t t1) as G1.
    { split; [done|done| |].
      - intros v Hv. rewrite L1. by apply (list_remove_other u v t).
      - intros z Hz. apply O1; intros ->; done. }
    destruct (IH x l t1 W1) as (t' & -> & G2 & (z & Ez & Hz & Tz & Az)); [by rewrite L1|cbn in Hn; lia|done|].
    exists t'. split; [done|]. split; [by apply (merges_trans u t t1)|]. exists z. split_and!; [done|set_solver|done|].
    intros a Ea Ha. apply Az; [done|]. rewrite (e_anchor _ _ (g_evolves _ _ _ G2)), (e_anchor _ _ E1) in Ea.
    assert (a ≠ y) as Hne by congruence. set_solver. }
  case_decide as Ha.
  - apply (Hstep k j); auto; [|intros Ej; congruence]. rewrite El. unfold list_remove.
    rewrite filter_cons_False by naive_solver. rewrite filter_cons_True by done. f_equal. apply filter_ne_id. set_solver.
  - apply (Hstep j k); auto. rewrite El. unfold list_remove.
    rewrite filter_cons_True by done. rewrite filter_cons_False by naive_solver. f_equal. by apply filter_ne_id.
Qed.

(** The second step for one unit. *)
Lemma merge_unit_ok u t ty : wf ∅ t → merged_type t u ty →
  ∃ t', merge_unit u t = Ret t' ∧ merges u t t' ∧ merged_to t' u ty (list_of t u).
Proof.
  intros W (U & j & l & EU & El & Em & Hty). unfold merge_unit.
  rewrite (list_of_lookup ∅ t u W), El by (by rewrite El). cbn [lift mbind outcome_bind head tail].
  destruct (w_member ∅ t W u j) as (_ & jb & Ej & Pj); [rewrite El; left|].
  unfold get_job, get_unit. rewrite Ej. cbn [lift mbind outcome_bind]. destruct Pj as (-> & Pj). rewrite EU. cbn [lift mbind outcome_bind].
  rewrite <- (type_of_some t j jb Ej), Em. cbn [mbind outcome_bind].
  apply (merge_loop_ok u ty Hty); [done|done|cbn; lia|]. intros ->. cbn in Em. by injection Em as ->.
Qed.

(** The merged type only depends on the jobs of the unit. *)
Lemma merge_types_ext t t' s ks : (∀ x, x ∈ ks → objects (tr_m t') !! x = objects (tr_m t) !! x) →
  ∀ ty, merge_types t' s ty ks = merge_types t s ty ks.
Proof.
  induction ks as [|k ks IH]; intros HE ty; [done|]. cbn. unfold get_job. rewrite HE by left.
  destruct (objects (tr_m t) !! k) as [kb|]; [|done]. cbn. destruct (job_type_merge_and_collapse ty (j_type kb) s) as [[r ty']|]; [|done].
  cbn. destruct (0 <=? r); [|done]. apply IH. intros x Hx. apply HE. by right.
Qed.

Lemma merged_type_ext t t' u ty : units (tr_m t') = units (tr_m t) → list_of t' u = list_of t u →
  (∀ x, x ∈ list_of t u → objects (tr_m t') !! x = objects (tr_m t) !! x) → merged_type t u ty → merged_type t' u ty.
Proof.
  intros EU EL EO (U & j & l & E1 & E2 & E3 & E4). exists U, j, l. rewrite EU, EL. split_and!; [done|done| |done].
  rewrite E2 in EO. rewrite (merge_types_ext t); [|intros x Hx; apply EO; by right].
  unfold type_of. rewrite EO by left. done.
Qed.

Lemma evolves_units t t' : evolves t t' → units (tr_m t') = units (tr_m t).
Proof. intros E. apply (f_equal units (e_rest t t' E)). Qed.

Lemma merged_single t u ty l : wf ∅ t → merged_to t u ty l → merged_type t u ty.
Proof.
  intros W (k & El & Hk & <- & _). destruct (w_member ∅ t W u k) as (_ & kb & Ek & Pk & _ & Ht & _); [rewrite El; left|].
  destruct (w_unit ∅ t W k kb) as [U EU]; [right; exists u; rewrite El; left|done|]. rewrite Pk in EU.
  exists U, k, []. split_and!; [done|done|done|]. by rewrite (type_of_some t k kb Ek).
Qed.

Section MergeAll.
Context `{LawfulTransaction} (t0 : Transaction).
Hypothesis W0 : wf ∅ t0.

(** The unit is as it was, or merged. *)
Definition unit_merged (t : Transaction) (u : nat) : Prop := ∃ ty, merged_type t0 u ty ∧ merged_to t u ty (list_of t0 u).

Lemma merge_all_ok : (∀ u, is_Some (tr_jobs t0 !! u) → ∃ ty, merged_type t0 u ty) →
  ∃ t', for_all merge_unit (keys (tr_jobs t0)) t0 = Ret t' ∧ wf ∅ t' ∧ evolves t0 t' ∧
    ∀ u, is_Some (tr_jobs t0 !! u) → unit_merged t' u.
Proof.
  intros HT. destruct (for_all_ok merge_unit
    (λ seen s, wf ∅ s ∧ evolves t0 s ∧ (∀ u, u ∈ seen → unit_merged s u) ∧
       (∀ u, unit_merged s u ∨ list_of s u = list_of t0 u ∧ ∀ x, x ∈ list_of t0 u → objects (tr_m s) !! x = objects (tr_m t0) !! x))
    (keys (tr_jobs t0)) [] t0) as (t' & E & W' & E' & Hs & _).
  - split; [done|]. split; [apply evolves_refl|]. split; [by intros u ?%not_elem_of_nil|]. intros u. by right.
  - intros u seen s Hu (W & Ev & Hs & Hd). destruct (HT u (keys_list t0 u Hu)) as [ty Hty].
    assert (merged_type s u ty) as Hty'.
    { destruct (Hd u) as [(ty' & H1 & H2)|[H1 H2]].
      - assert (ty' = ty) as ->; [|by apply (merged_single s u ty (list_of t0 u))].
        destruct H1 as (U & j & l & E1 & E2 & E3 & _), Hty as (U' & j' & l' & E1' & E2' & E3' & _). congruence.
      - apply (merged_type_ext t0); [by apply evolves_units|done|done|done]. }
    destruct (merge_unit_ok u s ty W Hty') as (s' & -> & G & M).
    assert (∀ x, x ∈ list_of s u → x ∈ list_of t0 u) as HL by (intros x; apply (e_list _ _ Ev)).
    assert (unit_merged s' u) as Mu.
    { exists ty. split; [done|]. destruct M as (k & Ek & Hk & Tk & Ak). exists k. split_and!; [done|auto|done|].
      intros a Ea Ha. apply Ak; [done|]. rewrite (e_anchor _ _ (g_evolves _ _ _ G)) in Ea.
      destruct (Hd u) as [(ty' & _ & z & Ez & _ & _ & Az)|[-> _]]; [|done]. rewrite Ez. rewrite (Az a Ea Ha). set_solver. }
    assert (∀ v, v ≠ u → unit_merged s v → unit_merged s' v) as Mv.
    { intros v Hv (ty' & H1 & k & Ek & Hk & Tk & Ak). exists ty'. split; [done|]. exists k.
      rewrite (g_other u s s' G v Hv). split_and!; [done|done| |].
      - rewrite <- Tk. unfold type_of. rewrite (g_objects u s s' G); [done|]. intros Hku. apply Hv.
        apply (member_unit ∅ s v u k); [done|rewrite Ek; left|done].
      - by rewrite (e_anchor _ _ (g_evolves _ _ _ G)). }
    exists s'. split; [done|]. split; [apply G|]. split; [apply (evolves_trans _ s); [done|done|apply G]|]. split.
    + intros v [->|Hv]%elem_of_cons; [done|]. destruct (decide (v = u)) as [->|Hne]; [done|auto].
    + intros v. destruct (decide (v = u)) as [->|Hne]; [by left|]. destruct (Hd v) as [Hm|[H1 H2]]; [left; auto|right].
      rewrite (g_other u s s' G v Hne). split; [done|]. intros x Hx. rewrite <- H2 by done. apply (g_objects u s s' G).
      intros Hxu. apply Hne. apply (member_unit ∅ t0 v u x); auto.
  - exists t'. split; [done|]. split; [done|]. split; [done|]. intros u Hu. apply Hs. rewrite app_nil_r.
    by apply elem_of_rev, keys_spec.
Qed.

End MergeAll.

Lemma merge_jobs_ok `{LawfulTransaction} (t : Transaction) : anchored t → nops_alone t →
  ∃ r t', transaction_merge_jobs t = Ret (r, t') ∧
    (r = 0 ∧ wf ∅ t' ∧ evolves t t' ∧ (∀ u, is_Some (tr_jobs t !! u) → unit_merged t t' u) ∨
     r = - EAGAIN ∧ trims (λ x, ¬ marked t x) t t' ∧ (size (objects (tr_m t')) < size (objects (tr_m t)))%nat ∨
     r = - EDEADLK ∧ t' = t ∧ ∃ u, contradiction t (list_of t u)).
Proof.
  intros A N. unfold transaction_merge_jobs.
  destruct (until_error_ok merge_check (λ seen s, s = t ∧ ∀ u, u ∈ seen → ∃ ty, merged_type t u ty)
    (λ r s, r = - EAGAIN ∧ trims (λ x, ¬ marked t x) t s ∧ (size (objects (tr_m s)) < size (objects (tr_m t)))%nat ∨
            r = - EDEADLK ∧ s = t ∧ ∃ u, contradiction t (list_of t u))
    (keys (tr_jobs t)) [] t) as (r & t1 & -> & Hr).
  - split; [done|]. by intros u ?%not_elem_of_nil.
  - intros u seen s Hu [-> Hs]. destruct (merge_check_ok u t A N (keys_list t u Hu)) as (r & t' & E & Hr).
    exists r, t'. split; [done|]. destruct Hr as [(Hr & -> & Hm)|(Hr & [Hr'|(-> & -> & Hc)])].
    + left. split; [done|]. split; [done|]. intros v [->|Hv]%elem_of_cons; auto.
    + right. split; [done|]. by left.
    + right. split; [done|]. right. split; [done|]. split; [done|]. by exists u.
  - cbn. destruct Hr as [(-> & -> & Hm)|(Hr & Hc)].
    + rewrite Z.ltb_irrefl. destruct (merge_all_ok t (a_wf t A)) as (t' & -> & W' & E' & Hu).
      { intros u Hu. apply Hm. rewrite app_nil_r. by apply elem_of_rev, keys_spec. }
      exists 0, t'. split; [done|]. by left.
    + rewrite (proj2 (Z.ltb_lt r 0)) by done. exists r, t1. split; [done|]. by right.
Qed.


(** The sixth and seventh step. *)
Lemma unify_loop_ok `{LawfulTransaction} mode n : ∀ t, anchored t → nops_alone t → (size (objects (tr_m t)) < n)%nat →
  ∃ r t1 t', unify_loop n mode t = Ret (r, t') ∧ anchored t1 ∧ trims (λ x, anchor_job t ≠ Some x) t t1 ∧
    (r = 0 ∧ wf ∅ t' ∧ evolves t1 t' ∧ (∀ u, is_Some (tr_jobs t1 !! u) → unit_merged t1 t' u) ∨
     r = - EDEADLK ∧ t' = t1 ∧ ∃ u, contradiction t1 (list_of t1 u)).
Proof.
  induction n as [|n IH]; intros t A N Hn; [lia|]. cbn [unify_loop].
  destruct (merge_jobs_ok t A N) as (r & t1 & -> & Hr). cbn [mbind outcome_bind].
  destruct Hr as [(-> & W1 & E1 & M1)|[(-> & T1 & S1)|(-> & -> & Hc)]].
  - exists 0, t, t1. split; [done|]. split; [done|]. split; [apply trims_refl, A|]. by left.
  - assert (trims (λ x, anchor_job t ≠ Some x) t t1) as T1'.
    { destruct T1 as (X & K & C & W1 & HX). exists X, K. split; [done|]. split; [done|]. intros x Hx.
      destruct (HX x Hx) as [Hm Hk]. split; [done|]. intros Ea.
      by apply (anchor_unmarked t x (λ x, ¬ marked t x) A Ea). }
    assert (anchored t1) as A1 by (apply (anchored_trims _ _ _ _ A T1'); intros a Ea Hne; by apply Hne).
    destruct (maybe_collect_ok mode t1 A1) as (t2 & E2 & T2 & A2 & _ & S2). cbn. rewrite E2. cbn.
    rewrite (trims_anchor _ _ _ _ T1') in T2. pose proof (trims_trans _ _ _ _ _ T1' T2 (λ x, id)) as T12.
    destruct (IH t2 A2) as (r & t3 & t' & E & A3 & T3 & Hr); [by apply (nops_alone_trims _ _ _ _ N T12)|lia|].
    exists r, t3, t'. split; [done|]. split; [done|]. split; [|done].
    rewrite (trims_anchor _ _ _ _ T12) in T3. by apply (trims_trans _ _ _ _ _ T12 T3).
  - exists (- EDEADLK), t, t. split; [done|]. split; [done|]. split; [apply trims_refl, A|]. by right.
Qed.
