(* ===== verification/TransactionApply.v ===== *)
(** * systemd: applying a transaction

    [transaction_apply] puts the jobs of a merged transaction into the manager's
    table and installs them one after the other. It fails no assertion and leaves
    a consistent manager, or the manager as it was. *)

From S2P Require Import Prelude Outcome JobMerge Job JobProps JobFinish Transaction TransactionProps TransactionMarks TransactionOrder TransactionSteps TransactionMerge.

#[local] Open Scope Z_scope.
#[local] Set Warnings "-clear-no-such-hyp".

(** ** Operations on links and the manager *)

Lemma free_link_set_m m' l t t' : objects m' = objects (tr_m t) → job_dependency_free l t = Some t' →
  job_dependency_free l (set_m m' t) = Some (set_m m' t') ∧ tr_m t' = tr_m t.
Proof.
  intros Em. unfold job_dependency_free. cbn. destruct (links t !! l) as [d|]; [|done]. cbn. destruct (d_subject d) as [s|]; cbn.
  - rewrite Em. destruct (objects (tr_m t) !! s); [|done]. cbn. rewrite Em. destruct (objects (tr_m t) !! d_object d); [|done].
    cbn. by intros [= <-].
  - rewrite Em. destruct (objects (tr_m t) !! d_object d); [|done]. cbn. by intros [= <-].
Qed.

Lemma drop_subjects_set_m m' ls : ∀ t t', objects m' = objects (tr_m t) → drop_subjects ls t = Some t' →
  drop_subjects ls (set_m m' t) = Some (set_m m' t') ∧ tr_m t' = tr_m t.
Proof.
  induction ls as [|l ls IH]; intros t t' Em; cbn; [by intros [= <-]|].
  destruct (job_dependency_free l t) as [t1|] eqn:E1; [|done]. cbn. intros E.
  destruct (free_link_set_m m' l t t1 Em E1) as [-> E2]. cbn. rewrite <- E2 in Em.
  destruct (IH t1 t' Em E) as [-> E3]. split; [done|congruence].
Qed.

Lemma drop_objects_set_m m' f f' j n : ∀ t t', objects m' = objects (tr_m t) → drop_objects f n j false t = Ret t' →
  drop_objects f' n j false (set_m m' t) = Ret (set_m m' t') ∧ tr_m t' = tr_m t.
Proof.
  induction n as [|n IH]; intros t t' Em; cbn; [done|]. change (info (set_m m' t) j) with (info t j).
  destruct (object_list (info t j)) as [|l ls]; [by intros [= <-]|]. destruct (links t !! l) as [d|] eqn:El; [|done]. cbn.
  destruct (job_dependency_free l t) as [t1|] eqn:E1; [|done]. cbn.
  destruct (free_link_set_m m' l t t1 Em E1) as [-> E2]. cbn. rewrite <- E2 in Em.
  assert (∀ (o : option nat) (s : Transaction), match o with Some _ => Ret s | None => Ret s end = Ret s) as Hm by (by intros []).
  intros E. rewrite Hm in E. cbn in E. rewrite Hm. cbn. destruct (IH t1 t' Em E) as [-> E3]. split; [done|congruence].
Qed.

Lemma unlink_set_m m' n j t t' : objects m' = objects (tr_m t) → transaction_unlink_job n j false t = Ret t' →
  transaction_unlink_job n j false (set_m m' t) = Ret (set_m m' t') ∧ tr_m t' = tr_m t.
Proof.
  intros Em. unfold transaction_unlink_job, unlink_job, get_job. cbn [tr_m set_m]. rewrite Em.
  destruct (objects (tr_m t) !! j) as [jb|]; [|done]. cbn [lift mbind outcome_bind].
  assert (remove_from_list (j_unit jb) j (set_m m' t) = set_m m' (remove_from_list (j_unit jb) j t)) as ->.
  { unfold remove_from_list. cbn. by destruct (tr_jobs t !! j_unit jb). }
  destruct (remove_from_list_eq (j_unit jb) j t) as [X EX]. assert (tr_m (remove_from_list (j_unit jb) j t) = tr_m t) as E0 by (by rewrite EX).
  set (t0 := remove_from_list (j_unit jb) j t) in *. change (info (set_m m' t0) j) with (info t0 j). rewrite <- E0 in Em.
  destruct (drop_subjects (subject_list (info t0 j)) t0) as [t1|] eqn:E1; [|done]. cbn [lift mbind outcome_bind].
  destruct (drop_subjects_set_m m' _ t0 t1 Em E1) as [-> E2]. cbn [lift mbind outcome_bind]. rewrite <- E2 in Em. intros E.
  destruct (drop_objects_set_m m' _ (λ o, transaction_delete_job n o false) j (S n) t1 t' Em E) as [H1 H2]. split; [done|congruence].
Qed.

(** ** Taking a job out *)

(** A job without links is no part of the graph. *)
Lemma forget_ok D t j : wf ({[j]} ∪ D) t → j ∉ D → subject_list (info t j) = [] → object_list (info t j) = [] → wf D t.
Proof.
  intros W Hj Hs Ho. destruct W as [WC WL WN WM WP WU WT WK WS WO WI].
  assert (∀ x, in_graph D t x → in_graph ({[j]} ∪ D) t x) as HG by (unfold in_graph; set_solver).
  split; try done.
  - intros u x Hx. destruct (WM u x Hx) as [Hd H]. split; [set_solver|done].
  - intros x Hx. apply WP. set_solver.
  - intros x xb Hx. by apply WU, HG.
  - intros x Hx. by apply WT, HG.
  - intros l d El. destruct (WK l d El) as (s & Es & Gs & Go & Ls & Lo). exists s. split; [done|].
    assert (s ≠ j ∧ d_object d ≠ j) as [H1 H2].
    { split; [intros ->; rewrite Hs in Ls|intros E; rewrite E, Ho in Lo]; by apply not_elem_of_nil in Ls || by apply not_elem_of_nil in Lo. }
    assert (∀ x, x ≠ j → in_graph ({[j]} ∪ D) t x → in_graph D t x) as HG' by (unfold in_graph; set_solver).
    auto.
Qed.

Lemma tr_jobs_eq D D' t t' : wf D t → wf D' t' → (∀ u, list_of t' u = list_of t u) → tr_jobs t' = tr_jobs t.
Proof.
  intros W W' E. apply map_eq. intros u. specialize (E u). pose proof (w_list D t W u). pose proof (w_list D' t' W' u).
  unfold list_of in E. destruct (tr_jobs t' !! u) as [l'|], (tr_jobs t !! u) as [l|]; cbn in *; naive_solver congruence.
Qed.

Lemma steal_ok t u j : wf ∅ t → list_of t u = [j] →
  ∃ t' K, transaction_unlink_job (enough t) j false (set_jobs (delete u (tr_jobs t)) t) = Ret t' ∧ wf ∅ t' ∧
    cut {[j]} ∅ K t t' ∧ subject_list (info t' j) = [] ∧ object_list (info t' j) = [] ∧ tr_jobs t' = delete u (tr_jobs t).
Proof.
  intros W El. assert (j ∈ list_of t u) as Hj by (rewrite El; left).
  destruct (w_member ∅ t W u j Hj) as (_ & jb & Ej & Pj). destruct (detach_ok ∅ t u j W Hj) as [A0 W0].
  pose proof (list_of_lookup ∅ t u W) as EL. rewrite El in EL. specialize (EL ltac:(done)).
  assert (remove_from_list u j t = set_jobs (delete u (tr_jobs t)) t) as E0.
  { unfold remove_from_list. rewrite EL. cbn. by rewrite decide_False by auto. }
  rewrite E0 in *. set (t0 := set_jobs _ t) in *. unfold transaction_unlink_job, unlink_job, get_job.
  change (objects (tr_m t0)) with (objects (tr_m t)). rewrite Ej. cbn [lift mbind outcome_bind]. destruct Pj as (-> & Pj).
  assert (remove_from_list u j t0 = t0) as ->.
  { unfold remove_from_list, t0. cbn. by rewrite lookup_delete_eq. }
  destruct (drop_subjects_ok ({[j]} ∪ ∅) (subject_list (info t0 j)) t0) as (t1 & -> & A1 & W1); [done|apply W0| |].
  { intros l Hl. destruct (w_subject _ t0 W0 j l Hl) as (d & Ed & _). by exists d. }
  cbn [lift mbind outcome_bind]. assert (rootless ({[j]} ∪ ∅) t1) as R1.
  { intros x Hx. assert (x = j) as -> by set_solver. rewrite (c_subjects _ _ _ _ _ A1) by set_solver. apply filter_none. set_solver. }
  pose proof (size_links_cut _ _ _ _ _ (cut_trans _ _ _ _ _ _ _ _ _ A0 A1)) as Hs.
  destruct (drop_objects_ok false (λ o, transaction_delete_job (enough t) o false) ∅ j (S (enough t)) t1) as (t2 & X & K & -> & A2 & W2 & Ho & Dm);
    [|done|done|unfold enough; lia|].
  { intros o t3 W3 R3 M3 Hlt. apply delete_ok; [done..|lia]. }
  assert (X = ∅) as ->.
  { apply set_eq. intros x. split; [|set_solver]. intros Hx. destruct (dm_member _ _ _ _ _ _ Dm x Hx) as [v Hv].
    destruct (w_member _ t1 W1 v x Hv) as [Hn _]. destruct (dm_why _ _ _ _ _ _ Dm x Hx) as [->|[? _]]; [set_solver|done]. }
  pose proof (rootless_cut _ _ _ _ _ _ A2 (disjoint_empty_r _) R1 j ltac:(set_solver)) as Hsub.
  eexists _, _. split; [done|]. split; [apply (forget_ok ∅ t2 j); [done|set_solver|done|done]|].
  split; [|split; [done|split; [done|]]].
  - pose proof (cut_trans _ _ _ _ _ _ _ _ _ A0 (cut_trans _ _ _ _ _ _ _ _ _ A1 A2)) as B.
    rewrite !union_empty_l_L, union_empty_r_L in B. exact B.
  - change (delete u (tr_jobs t)) with (tr_jobs t0). apply (tr_jobs_eq ({[j]} ∪ ∅) ({[j]} ∪ ∅)); [done|done|]. intros v.
    rewrite (c_list _ _ _ _ _ A2), (c_list _ _ _ _ _ A1), !filter_all; set_solver.
Qed.

(** ** The manager under a transaction *)

Lemma wf_manager D t m' : wf D t → consistent m' →
  (∀ x, in_graph D t x → objects m' !! x = objects (tr_m t) !! x) →
  (∀ u, is_Some (units (tr_m t) !! u) → is_Some (units m' !! u)) →
  (∀ x, in_graph D t x → ∀ id, jobs m' !! id ≠ Some x) → wf D (set_m m' t).
Proof.
  intros W C EO EU ET. assert (∀ x, in_graph D (set_m m' t) x ↔ in_graph D t x) as HG by done.
  destruct W as [WC WL WN WM WP WU WT WK WS WO WI]. split; try done.
  - intros u x Hx. destruct (WM u x Hx) as (Hd & jb & E & P). split; [done|]. exists jb. split; [|done].
    cbn. rewrite EO; [done|]. right. by exists u.
  - intros x Hx. destruct (WP x Hx) as (u & jb & E & P). exists u, jb. split; [|done]. cbn. rewrite EO; [done|by left].
  - intros x xb Hx. cbn. rewrite EO by done. intros E. by apply EU, (WU x xb).
Qed.

(** The table without the jobs that are not installed. *)
Definition installed_table (m : Manager) : gmap Z nat :=
  filter (λ p, (j_installed <$> objects m !! p.2) = Some true) (jobs m).

Definition unstage (t : Transaction) : Transaction := set_m (with_jobs (installed_table (tr_m t)) (tr_m t)) t.

Lemma installed_table_lookup m id r : installed_table m !! id = Some r ↔
  jobs m !! id = Some r ∧ ∃ j, objects m !! r = Some j ∧ j_installed j = true.
Proof.
  unfold installed_table. rewrite map_lookup_filter_Some. cbn. split.
  - intros [J E]. split; [done|]. destruct (objects m !! r) as [j|]; [|done]. exists j. split; [done|]. by injection E.
  - intros (J & j & -> & I). cbn. by rewrite I.
Qed.

Lemma installed_table_consistent m : consistent m → consistent (with_jobs (installed_table m) m).
Proof.
  intros C. destruct C. split; cbn; try done.
  - intros r j E I. destruct (c_installed r j E I) as (T & J & U & EU & ES). split; [done|]. split; [|by exists U].
    apply installed_table_lookup. split; [done|]. by exists j.
  - intros id r [J _]%installed_table_lookup. by apply c_jobs.
Qed.

(** A transaction whose jobs may be in the table already. *)
Definition staged_wf (t : Transaction) : Prop := consistent (tr_m t) ∧ wf ∅ (unstage t).

Lemma wf_staged t : wf ∅ t → staged_wf t.
Proof.
  intros W. split; [apply W|]. apply wf_manager; [done|apply installed_table_consistent, W|done|done|].
  intros x Hx id [J _]%installed_table_lookup. by apply (w_table ∅ t W x Hx id).
Qed.

(** A change of the manager that leaves the jobs of the transaction alone. *)
Lemma staged_manager t m' : wf ∅ (unstage t) → consistent m' →
  (∀ x jb, member t x → objects (tr_m t) !! x = Some jb → objects m' !! x = Some jb) →
  (∀ u, is_Some (units (tr_m t) !! u) → is_Some (units m' !! u)) → staged_wf (set_m m' t).
Proof.
  intros W C EO EU. split; [done|].
  assert (∀ x, in_graph ∅ (unstage t) x → ∃ jb, objects (tr_m t) !! x = Some jb ∧ objects m' !! x = Some jb ∧ j_installed jb = false) as HP.
  { intros x Hx. destruct (graph_planned ∅ (unstage t) x W Hx) as (u & jb & E & P). destruct Hx as [?|Hx]; [set_solver|].
    exists jb. split; [done|]. split; [by apply EO|apply P]. }
  change (unstage (set_m m' t)) with (set_m (with_jobs (installed_table m') m') (unstage t)). apply wf_manager; [done|by apply installed_table_consistent| |done|].
  - intros x Hx. destruct (HP x Hx) as (jb & E & E' & _). cbn. by rewrite E, E'.
  - intros x Hx id (_ & jb' & E' & I')%installed_table_lookup. destruct (HP x Hx) as (jb & _ & E & I). congruence.
Qed.

(** ** Installing the jobs *)

Lemma set_m_same t : set_m (tr_m t) t = t.
Proof. by destruct t. Qed.

Lemma wf_set_anchor D a t : wf D t → wf D (set_anchor a t).
Proof. intros []. by split. Qed.

(** A merged transaction whose jobs are in the manager's table. *)
Record staged (t : Transaction) : Prop := {
  st_wf : staged_wf t;
  st_single : ∀ u, (length (list_of t u) ≤ 1)%nat;
  st_table : ∀ x jb, member t x → objects (tr_m t) !! x = Some jb → jobs (tr_m t) !! j_id jb = Some x }.

(** The table without a job that is not installed. *)
Lemma table_delete_consistent m j jb : consistent m → objects m !! j = Some jb → j_installed jb = false →
  jobs m !! j_id jb = Some j → consistent (with_jobs (delete (j_id jb) (jobs m)) m) ∧
  ∀ id, delete (j_id jb) (jobs m) !! id ≠ Some j.
Proof.
  intros C E I J. split.
  - destruct C. split; cbn; try done.
    + intros r rb Er Ir. destruct (c_installed r rb Er Ir) as (T & Jr & U & EU & ES). split; [done|]. split; [|by exists U].
      rewrite lookup_delete_ne; [done|]. intros Eid. rewrite <- Eid, J in Jr. congruence.
    + intros id r Jr. rewrite lookup_delete in Jr. case_decide; [done|]. by apply c_jobs.
  - intros id Jr. rewrite lookup_delete in Jr. case_decide as Hid; [done|]. destruct (c_jobs m C id j Jr) as (j0 & E0 & H0). congruence.
Qed.

Section Install.
Context `{TransactionEnv} `{!LawfulEnv}.
Hypothesis Hquiet : quiet.

(** The job of the unit leaves the transaction for the manager. *)
Lemma steal_staged t u j : staged t → list_of t u = [j] →
  ∃ t1, transaction_unlink_job (enough t) j false (set_jobs (delete u (tr_jobs t)) t) = Ret t1 ∧ tr_m t1 = tr_m t ∧
    wf ∅ (unstage t1) ∧ tr_jobs t1 = delete u (tr_jobs t) ∧ anchor_job t1 = anchor_job t ∧
    subject_list (info t1 j) = [] ∧ object_list (info t1 j) = [] ∧ (∀ x, member t1 x → member t x ∧ x ≠ j) ∧
    (∀ v, (length (list_of t1 v) ≤ length (list_of t v))%nat).
Proof.
  intros [[C W] HS HT] El. destruct (steal_ok (unstage t) u j W El) as (t' & K & E & W' & A & Hs & Ho & Ej).
  destruct (unlink_set_m (tr_m t) _ _ (set_jobs (delete u (tr_jobs (unstage t))) (unstage t)) _ eq_refl E) as [E' Em].
  exists (set_m (tr_m t) t'). split; [exact E'|]. split; [done|]. split; [|split; [done|split; [apply (c_anchor _ _ _ _ _ A)|]]].
  - assert (unstage (set_m (tr_m t) t') = t') as ->; [|done]. clear -Em. destruct t'. unfold unstage. cbn in *. by subst.
  - split; [done|]. split; [done|]. split.
    + intros x [v Hv]. change (list_of (set_m (tr_m t) t') v) with (list_of t' v) in Hv. rewrite (c_list _ _ _ _ _ A) in Hv.
      apply list_elem_of_filter in Hv as [Hn Hv]. split; [by exists v|set_solver].
    + intros v. change (list_of (set_m (tr_m t) t') v) with (list_of t' v). rewrite (c_list _ _ _ _ _ A). apply length_filter.
Qed.

(** What an installation with the clean-up after a merge does to the manager:
    the job [j] is installed or freed, and the others are left alone. *)
Lemma install_one t1 j jb : consistent (tr_m t1) → objects (tr_m t1) !! j = Some jb → planned (j_unit jb) jb →
  is_Some (units (tr_m t1) !! j_unit jb) → jobs (tr_m t1) !! j_id jb = Some j →
  subject_list (info t1 j) = [] → object_list (info t1 j) = [] →
  ∃ ij m' t2 m'', job_install 1 j (tr_m t1) = Ret (ij, m') ∧
    (if decide (ij = j) then Ret (set_m m' t1)
     else
       let t := set_m m' t1 in
       let t := if decide (anchor_job t = Some j) then set_anchor (Some ij) t else t in
       let t := set_m (with_jobs (delete (j_id jb) (jobs (tr_m t))) (tr_m t)) t in
       lift (free_job j t)) = Ret t2 ∧
    (m ←! job_add_to_run_queue ij (tr_m t2); m ←! job_add_to_dbus_queue ij m; Ret m) = Ret m'' ∧
    consistent m'' ∧ frame_but j (tr_m t1) m'' ∧
    (∃ a, remarked (set_anchor a (set_m m'' t1)) (set_m m'' t2)).
Proof.
  intros C Ej P [U EU] J Hs Ho. destruct P as (_ & I & T & S).
  destruct (job_install_ok 0 (tr_m t1) j jb U C Ej I T S J EU Hquiet) as (ij & m' & j' & U' & Ei & C' & EU' & ES' & E' & Fb & Hne & _).
  exists ij, m'. assert (j_installed j' = true) as I'.
  { destruct (c_slot m' C' _ U' _ ij EU' ES') as (j0 & E0 & I0 & _). congruence. }
  assert (∃ t2, (if decide (ij = j) then Ret (set_m m' t1)
     else
       let t := set_m m' t1 in
       let t := if decide (anchor_job t = Some j) then set_anchor (Some ij) t else t in
       let t := set_m (with_jobs (delete (j_id jb) (jobs (tr_m t))) (tr_m t)) t in
       lift (free_job j t)) = Ret t2 ∧ consistent (tr_m t2) ∧ objects (tr_m t2) !! ij = Some j' ∧ frame_but j (tr_m t1) (tr_m t2) ∧
       ∀ m'', ∃ a, remarked (set_anchor a (set_m m'' t1)) (set_m m'' t2)) as (t2 & E2 & C2 & Eij & Fb2 & R2).
  { case_decide as Hij.
    - exists (set_m m' t1). split; [done|]. split; [done|]. split; [done|]. split; [done|]. intros m''. exists (anchor_job t1). by split.
    - destruct (Hne Hij) as [Ej' J']. destruct (table_delete_consistent m' j jb C' Ej' I J') as [C3 HT3]. cbv zeta.
      set (ta := if decide (anchor_job (set_m m' t1) = Some j) then set_anchor (Some ij) (set_m m' t1) else set_m m' t1).
      assert (tr_m ta = m' ∧ infos ta = infos t1 ∧ tr_jobs ta = tr_jobs t1 ∧ links ta = links t1 ∧ irreversible ta = irreversible t1)
        as (Em & Ein & Etj & Eli & Eir) by (unfold ta; by case_decide).
      rewrite Em. unfold free_job.
      assert (∀ x, info (set_m (with_jobs (delete (j_id jb) (jobs m')) m') ta) x = info t1 x) as Hinf by (intros x; unfold info; cbn; by rewrite Ein).
      rewrite Hinf, Hs, Ho, !bool_decide_true by done. cbn [andb assert_ mbind option_bind].
      destruct (job_free_ok (with_jobs (delete (j_id jb) (jobs m')) m') j jb C3 Ej' I HT3) as [Ef C4].
      cbn [tr_m set_m]. rewrite Ef. cbn [mbind option_bind lift]. eexists. split; [done|]. cbn [tr_m set_m set_infos].
      split; [done|]. split; [cbn; by rewrite lookup_delete_ne|]. split.
      + apply (frame_but_trans j _ m' _ Fb). split_and!; cbn.
        * intros u V EV. by exists V.
        * intros i i0 Hi Ei0 Ii. rewrite lookup_delete_ne by done. split; [done|]. intros Ji. rewrite lookup_delete_ne; [done|].
          intros Eid. rewrite <- Eid, J' in Ji. congruence.
        * intros id i i0 Hi Ji Ei0 Ii. rewrite lookup_delete_ne in Ei0 by done. rewrite lookup_delete in Ji. case_decide; done.
      + intros m''. exists (anchor_job ta). split; cbn; try done.
        * intros x. unfold info at 1. cbn. rewrite Ein, lookup_delete. change (info (set_anchor _ (set_m m'' t1)) x) with (info t1 x).
          case_decide as Ex; [subst x; by rewrite Hs|done].
        * intros x. unfold info at 1. cbn. rewrite Ein, lookup_delete. change (info (set_anchor _ (set_m m'' t1)) x) with (info t1 x).
          case_decide as Ex; [subst x; by rewrite Ho|done]. }
  destruct (add_to_run_queue_ok (tr_m t2) ij j' C2 Eij I') as (m3 & E3 & Q3 & _). destruct (proj2 Q3 ij j' Eij) as (j3 & Ej3 & S3).
  destruct (add_to_dbus_queue_ok m3 ij j3) as (m4 & E4 & Q4); [apply Q3|done|by destruct S3 as ((_ & _ & -> & _) & _)|].
  exists t2, m4. split; [done|]. split; [done|]. split; [by rewrite E3; cbn; rewrite E4|]. split; [apply Q4|]. split; [|apply R2].
  apply (frame_but_trans j _ (tr_m t2) _ Fb2), frame_frame_but. transitivity m3; [apply Q3|apply Q4].
Qed.

Lemma apply_job_ok t u j : staged t → list_of t u = [j] →
  ∃ t', apply_job u j t = Ret t' ∧ staged t' ∧ tr_jobs t' = delete u (tr_jobs t).
Proof.
  intros St El. destruct (steal_staged t u j St El) as (t1 & E1 & Em & W1 & Ej1 & _ & Hs & Ho & HM & HL).
  destruct St as [[C W] HS HT]. assert (j ∈ list_of t u) as Hj by (rewrite El; left).
  destruct (w_member ∅ _ W u j Hj) as (_ & jb & Ej & P). change (objects (tr_m (unstage t))) with (objects (tr_m t)) in Ej.
  assert (planned (j_unit jb) jb) as P' by (split; [done|apply P]).
  destruct (install_one t1 j jb) as (ij & m' & t2 & m'' & E2 & E3 & E4 & C'' & Fb & a & R); rewrite ?Em; try done.
  { apply (w_unit ∅ _ W j jb); [right; by exists u|done]. }
  { by apply HT; [exists u|]. }
  exists (set_m m'' t2). split.
  - unfold apply_job. cbv zeta. change (enough (set_jobs (delete u (tr_jobs t)) t)) with (enough t). rewrite E1. cbn [mbind outcome_bind].
    assert (get_job t1 j = Ret jb) as -> by (unfold get_job; by rewrite Em, Ej). cbn [mbind outcome_bind]. rewrite E2. cbn [mbind outcome_bind].
    cbv zeta in E3 |- *. rewrite E3. cbn [mbind outcome_bind]. destruct (job_add_to_run_queue ij (tr_m t2)) as [m3|]; [|done]. cbn in *.
    destruct (job_add_to_dbus_queue ij m3); [|done]. cbn in *. by injection E4 as ->.
  - assert (∀ x jb, member t1 x → objects (tr_m t1) !! x = Some jb → objects m'' !! x = Some jb ∧ jobs m'' !! j_id jb = Some x) as HX.
    { intros x xb Hx Ex. destruct (HM x Hx) as [Hx' Hne]. rewrite Em in *. destruct Fb as (_ & F & _).
      destruct Hx' as [v Hv]. destruct (w_member ∅ _ W v x Hv) as (_ & xb' & Ex' & Px). change (objects (tr_m (unstage t))) with (objects (tr_m t)) in Ex'.
      rewrite Ex in Ex'. injection Ex' as <-. destruct (F x xb Hne Ex) as [F1 F2]; [apply Px|]. split; [done|]. apply F2, HT; [by exists v|done]. }
    assert (staged_wf (set_m m'' t1)) as [_ W2].
    { apply staged_manager; [done|done| |].
      - intros x xb Hx Ex. by apply HX.
      - intros v [V EV]. destruct Fb as (F & _). destruct (F v V EV) as (V' & EV' & _). by exists V'. }
    pose proof (r_jobs _ _ R) as Rj. cbn in Rj. split; [|by rewrite <- Ej1].
    assert (∀ v, list_of (set_m m'' t2) v = list_of t1 v) as HLv by (intros v; unfold list_of; cbn; by rewrite Rj).
    split.
    + split; [done|]. apply (remarked_wf ∅ (unstage (set_anchor a (set_m m'' t1)))).
      * destruct R as [Rm Rj' Ra Ri Rl Rs Ro]. by split.
      * apply (wf_set_anchor ∅ a) in W2. exact W2.
    + intros v. rewrite HLv. specialize (HL v). specialize (HS v). lia.
    + intros x xb [v Hv] Ex. rewrite HLv in Hv. destruct (HM x) as [Hx Hne]; [by exists v|].
      destruct Hx as [w Hw]. destruct (w_member ∅ _ W w x Hw) as (_ & xb' & Ex' & Px). change (objects (tr_m (unstage t))) with (objects (tr_m t)) in Ex'.
      destruct (HX x xb') as [F1 F2]; [by exists v|by rewrite Em|]. cbn in Ex. rewrite F1 in Ex. injection Ex as <-. exact F2.
Qed.

Context `{!LawfulTransaction}.

Lemma no_keys t : head (keys (tr_jobs t)) = None → tr_jobs t = ∅.
Proof.
  intros E. apply map_eq. intros u. rewrite lookup_empty. destruct (tr_jobs t !! u) eqn:Eu; [|done].
  assert (u ∈ keys (tr_jobs t)) as Hu by (apply keys_spec; by rewrite Eu). destruct (keys (tr_jobs t)); [|done].
  by apply not_elem_of_nil in Hu.
Qed.

Lemma head_key t u : head (keys (tr_jobs t)) = Some u → is_Some (tr_jobs t !! u).
Proof. intros E. apply keys_spec. destruct (keys (tr_jobs t)); [done|]. injection E as ->. left. Qed.

(** The single job of a unit of a merged transaction. *)
Lemma single_job D t u : wf D t → (length (list_of t u) ≤ 1)%nat → is_Some (tr_jobs t !! u) →
  ∃ j, tr_jobs t !! u = Some [j] ∧ list_of t u = [j] ∧ first_job t u = Some j.
Proof.
  intros W HL [l El]. rewrite (list_of_some t u l El) in HL. destruct l as [|j [|k l]]; [by apply (w_list D t W) in El| |cbn in HL; lia].
  exists j. split; [done|]. split; [by apply list_of_some|]. unfold first_job. by rewrite El.
Qed.

Lemma apply_loop_ok n : ∀ t, staged t → (size (tr_jobs t) < n)%nat →
  ∃ t', apply_loop n t = Ret t' ∧ tr_jobs t' = ∅ ∧ consistent (tr_m t').
Proof.
  induction n as [|n IH]; intros t St Hn; [lia|]. cbn [apply_loop]. destruct (head (keys (tr_jobs t))) as [u|] eqn:Ek.
  - destruct (head_key t u Ek) as [l El]. destruct St as [W HS HT].
    destruct (single_job ∅ (unstage t) u) as (j & E1 & E2 & E3); [apply W|apply HS|by eexists|].
    change (first_job (unstage t) u) with (first_job t u) in E3. rewrite E3. cbn [lift mbind outcome_bind].
    destruct (apply_job_ok t u j) as (t' & -> & St' & Ej'); [done|done|]. cbn [mbind outcome_bind]. apply IH; [done|].
    rewrite Ej', map_size_delete. change (tr_jobs (unstage t)) with (tr_jobs t) in E1. rewrite E1. cbn.
    assert (size (tr_jobs t) ≠ 0%nat); [|lia]. apply map_size_ne_0_lookup. by exists u, [j].
  - exists t. split; [done|]. split; [by apply no_keys|apply St].
Qed.

End Install.

(** ** The table *)

(** The ids of the jobs are not used for other jobs. *)
Record fresh_ids (t : Transaction) : Prop := {
  f_table : ∀ x xb, member t x → objects (tr_m t) !! x = Some xb → jobs (tr_m t) !! j_id xb = None;
  f_distinct : ∀ x y xb yb, member t x → member t y → objects (tr_m t) !! x = Some xb → objects (tr_m t) !! y = Some yb →
    j_id xb = j_id yb → x = y }.

Section Table.
Context `{LawfulTransaction} (t0 : Transaction).
Hypotheses (W0 : wf ∅ t0) (HS : ∀ u, (length (list_of t0 u) ≤ 1)%nat) (HF : fresh_ids t0).

(** The table [J] has the old entries and some of the transaction's. *)
Record partial (J : gmap Z nat) : Prop := {
  p_consistent : consistent (with_jobs J (tr_m t0));
  p_old : ∀ id r, jobs (tr_m t0) !! id = Some r → J !! id = Some r;
  p_new : ∀ id r, J !! id = Some r → jobs (tr_m t0) !! id = Some r ∨
    ∃ rb, member t0 r ∧ objects (tr_m t0) !! r = Some rb ∧ j_id rb = id }.

Definition with_table (J : gmap Z nat) : Transaction := set_m (with_jobs J (tr_m t0)) t0.

Lemma unit_job_facts u : u ∈ keys (tr_jobs t0) → ∃ j jb, tr_jobs t0 !! u = Some [j] ∧ first_job t0 u = Some j ∧
  member t0 j ∧ objects (tr_m t0) !! j = Some jb ∧ j_installed jb = false ∧ jobs (tr_m t0) !! j_id jb = None.
Proof.
  intros Hu%keys_list. destruct (single_job ∅ t0 u W0 (HS u) Hu) as (j & E1 & E2 & E3).
  assert (j ∈ list_of t0 u) as Hj by (rewrite E2; left). destruct (w_member ∅ t0 W0 u j Hj) as (_ & jb & Ej & P).
  exists j, jb. split_and!; [done|done|by exists u|done|apply P|]. apply (f_table t0 HF j); [by exists u|done].
Qed.

Lemma put_all_ok : ∃ r J, until_error put_job (keys (tr_jobs t0)) t0 = Ret (r, with_table J) ∧ partial J ∧
  (r = 0 ∧ (∀ x xb, member t0 x → objects (tr_m t0) !! x = Some xb → J !! j_id xb = Some x) ∨ r = - ENOMEM).
Proof.
  destruct (until_error_ok put_job
    (λ seen s, ∃ J, s = with_table J ∧ partial J ∧ ∀ u j jb, u ∈ seen → first_job t0 u = Some j →
       objects (tr_m t0) !! j = Some jb → J !! j_id jb = Some j)
    (λ r s, r = - ENOMEM ∧ ∃ J, s = with_table J ∧ partial J) (keys (tr_jobs t0)) [] t0) as (r & s & E & Hr).
  - exists (jobs (tr_m t0)). split; [unfold with_table; by destruct t0 as [[]]|]. split; [|by intros u j jb ?%not_elem_of_nil].
    split; [|done|by left]. pose proof (w_consistent ∅ t0 W0) as C. by destruct (tr_m t0).
  - intros u seen s Hu (J & -> & PJ & HJ). destruct (unit_job_facts u Hu) as (j & jb & E1 & E2 & Mj & Ej & Ij & Fj).
    unfold put_job. cbn [tr_jobs with_table set_m]. rewrite E1. cbn [lift mbind outcome_bind length head].
    rewrite bool_decide_true by done. cbn [assert_ lift mbind outcome_bind]. unfold get_job. cbn [tr_m with_table set_m objects with_jobs].
    rewrite Ej. cbn [lift mbind outcome_bind]. change (jobs (with_jobs J (tr_m t0))) with J. destruct (J !! j_id jb) as [j'|] eqn:EJ.
    + assert (j' = j) as ->.
      { destruct (p_new J PJ _ _ EJ) as [E'|(rb & Mr & Er & Eid)]; [congruence|]. by apply (f_distinct t0 HF j' j rb jb). }
      rewrite decide_True by done. exists 0, (with_table J). split; [done|]. left. split; [done|]. exists J.
      split; [done|]. split; [done|]. intros v k kb [->|Hv]%elem_of_cons Ek Ekb; [congruence|by apply (HJ v)].
    + destruct (hashmap_put_ok (with_table J)).
      * eexists 0, (with_table (<[j_id jb := j]> J)). split; [done|]. left. split; [done|]. eexists. split; [done|]. split.
        -- split.
           ++ pose proof (jobs_put_consistent j jb _ (p_consistent J PJ) Ej Ij EJ) as C. exact C.
           ++ intros id r Er. rewrite lookup_insert_ne; [by apply PJ|]. intros <-. congruence.
           ++ intros id r. rewrite lookup_insert. case_decide as Eid; [|apply PJ]. intros [= <-]. right. by exists jb.
        -- intros v k kb [->|Hv]%elem_of_cons Ek Ekb.
           ++ assert (k = j) as -> by congruence. assert (kb = jb) as -> by congruence. by rewrite lookup_insert_eq.
           ++ rewrite lookup_insert. case_decide as Eid; [|by apply (HJ v)]. f_equal.
              assert (member t0 k) as Mk.
              { destruct (proj1 (first_job_head t0 v k) Ek) as [q Eq]. exists v. rewrite Eq. left. }
              by apply (f_distinct t0 HF j k jb kb).
      * exists (- ENOMEM), (with_table J). split; [done|]. right. split; [done|]. split; [done|]. by exists J.
  - destruct Hr as [(-> & J & -> & PJ & HJ)|(_ & -> & J & -> & PJ)].
    + exists 0, J. split; [done|]. split; [done|]. left. split; [done|]. intros x xb [u Hu] Ex.
      pose proof (keys_member t0 u x Hu) as Hk. destruct (single_job ∅ t0 u W0 (HS u) (keys_list t0 u Hk)) as (j & _ & E2 & E3).
      rewrite E2 in Hu. apply list_elem_of_singleton in Hu as ->. apply (HJ u); [|done|done]. rewrite app_nil_r. by apply elem_of_rev.
    + exists (- ENOMEM), J. split; [done|]. split; [done|]. by right.
Qed.

(** The roll-back restores the table. *)
Lemma rollback_ok J : partial J → for_all rollback_job (keys (tr_jobs t0)) (with_table J) = Ret t0.
Proof.
  intros PJ. destruct (for_all_ok rollback_job
    (λ seen s, ∃ J, s = with_table J ∧ (∀ id r, jobs (tr_m t0) !! id = Some r → J !! id = Some r) ∧
       (∀ id r, J !! id = Some r → jobs (tr_m t0) !! id = Some r ∨
          ∃ u rb, u ∈ keys (tr_jobs t0) ∧ (u ∉ seen) ∧ first_job t0 u = Some r ∧ objects (tr_m t0) !! r = Some rb ∧ j_id rb = id))
    (keys (tr_jobs t0)) [] (with_table J)) as (s & E & J' & -> & H1 & H2).
  - exists J. split; [done|]. split; [apply PJ|]. intros id r Er. destruct (p_new J PJ id r Er) as [?|(rb & [u Hu] & Erb & Eid)]; [by left|right].
    pose proof (keys_member t0 u r Hu) as Hk. destruct (single_job ∅ t0 u W0 (HS u) (keys_list t0 u Hk)) as (j & _ & E2 & E3).
    rewrite E2 in Hu. apply list_elem_of_singleton in Hu as ->. exists u, rb. split_and!; [done|apply not_elem_of_nil|done..].
  - intros u seen s Hu (J1 & -> & H1 & H2). destruct (unit_job_facts u Hu) as (j & jb & _ & E2 & _ & Ej & _ & Fj).
    unfold rollback_job. change (first_job (with_table J1) u) with (first_job t0 u). rewrite E2. cbn [lift mbind outcome_bind].
    unfold get_job. cbn [tr_m with_table set_m objects with_jobs]. rewrite Ej. cbn [lift mbind outcome_bind].
    exists (with_table (delete (j_id jb) J1)). split; [done|]. eexists. split; [done|]. split.
    + intros id r Er. rewrite lookup_delete_ne; [by apply H1|]. congruence.
    + intros id r. rewrite lookup_delete. case_decide as Eid; [done|]. intros Er.
      destruct (H2 id r Er) as [?|(v & rb & Hv & Hn & Ev & Erb & Hid)]; [by left|right]. exists v, rb. split_and!; [done| |done..].
      intros [->|?]%elem_of_cons; [|done]. congruence.
  - rewrite E. f_equal. assert (J' = jobs (tr_m t0)) as ->; [|unfold with_table; by destruct t0 as [[]]].
    apply map_eq. intros id. destruct (J' !! id) as [r|] eqn:EJ.
    + destruct (H2 id r EJ) as [->|(u & rb & Hu & Hn & _)]; [done|]. destruct Hn. rewrite app_nil_r. by apply elem_of_rev.
    + destruct (jobs (tr_m t0) !! id) as [r|] eqn:Er; [|done]. apply H1 in Er. congruence.
Qed.

End Table.

(** ** Cancelling what the transaction does not have *)

(** No two jobs have the same id. *)
Definition unique_ids (m : Manager) : Prop := ∀ x y xb yb, objects m !! x = Some xb → objects m !! y = Some yb →
  j_id xb = j_id yb → x = y.

Lemma unique_fresh t : wf ∅ t → unique_ids (tr_m t) → fresh_ids t.
Proof.
  intros W U. split.
  - intros x xb Hx Ex. destruct (jobs (tr_m t) !! j_id xb) as [r|] eqn:Er; [|done].
    destruct (c_jobs (tr_m t) (w_consistent ∅ t W) _ r Er) as (rb & Eb & Eid). assert (r = x) as -> by (by apply (U r x rb xb)).
    by destruct (w_table ∅ t W x (or_intror Hx) (j_id xb)).
  - intros x y xb yb _ _. apply U.
Qed.

Lemma unique_back m m' : (∀ x xb', objects m' !! x = Some xb' → ∃ xb, objects m !! x = Some xb ∧ j_id xb' = j_id xb) →
  unique_ids m → unique_ids m'.
Proof.
  intros HB U x y xb yb Ex Ey Eid. destruct (HB x xb Ex) as (xb0 & Ex0 & Hx). destruct (HB y yb Ey) as (yb0 & Ey0 & Hy).
  apply (U x y xb0 yb0); [done|done|congruence].
Qed.

Lemma queues_unique m m' : queues m m' → unique_ids m → unique_ids m'.
Proof.
  intros [K Q]. apply unique_back. intros x xb' E. destruct (k_back _ _ K x) as [xb Ex]; [by exists xb'|].
  exists xb. split; [done|]. destruct (Q x xb Ex) as (xb'' & E'' & (Hid & _) & _). rewrite E in E''. by injection E'' as <-.
Qed.

(** Every job in the table is installed. *)
Definition table_installed (m : Manager) : Prop := ∀ id r rb, jobs m !! id = Some r → objects m !! r = Some rb → j_installed rb = true.

Lemma frame_table m m' : frame m m' → table_installed m → table_installed m'.
Proof.
  intros (_ & _ & F) HT id r rb J E. destruct (j_installed rb) eqn:I; [done|]. destruct (F id r rb J E I) as [J' E'].
  rewrite <- (HT id r rb J' E'). done.
Qed.

(** A change of the installed jobs only. *)
Lemma wf_frame D t m' : wf D t → consistent m' → frame (tr_m t) m' → wf D (set_m m' t).
Proof.
  intros W C (F1 & F2 & F3).
  assert (∀ x, in_graph D t x → ∃ jb, objects (tr_m t) !! x = Some jb ∧ objects m' !! x = Some jb ∧ j_installed jb = false) as HP.
  { intros x Hx. destruct (graph_planned D t x W Hx) as (u & jb & E & P). exists jb.
    destruct (F2 x jb E) as [E' _]; [apply P|]. split_and!; [done|done|apply P]. }
  apply wf_manager; [done|done| | |].
  - intros x Hx. destruct (HP x Hx) as (jb & -> & -> & _). done.
  - intros u [U E]. destruct (F1 u U E) as (U' & E' & _). by exists U'.
  - intros x Hx id J. destruct (HP x Hx) as (jb & _ & E & I). destruct (F3 id x jb J E I) as [J' _]. by apply (w_table D t W x Hx id).
Qed.

Section Cancel.
Context `{TransactionEnv} `{!LawfulEnv}.

(** The reactions give new ids to new jobs. *)
Definition keeps_ids (f : Manager → Manager) : Prop := ∀ m, consistent m → unique_ids m → unique_ids (f m).

Definition fresh_reactions : Prop := ∀ u v, v ∈ u_triggered_by u → keeps_ids (trigger_notify v u).

Lemma fresh_notify u : fresh_reactions → keeps_ids (unit_trigger_notify u).
Proof.
  intros Q. unfold unit_trigger_notify. pose proof (Q u) as Hq. pose proof (notify_benign u) as B.
  induction (u_triggered_by u) as [|v l IH]; intros m C HU; cbn; [done|].
  apply IH; [set_solver..| |apply Hq; [set_solver|done|done]]. apply B; [set_solver|done].
Qed.

Hypotheses (Hquiet : quiet) (Hids : fresh_reactions).

Lemma cancel_unique m r j m' : consistent m → objects m !! r = Some j → j_installed j = true → unique_ids m →
  job_finish_and_invalidate 1 r JOB_CANCELED false m = Ret m' → unique_ids m'.
Proof.
  intros C E I HU. destruct (c_installed m C r j E I) as (T & _ & U & EU & _).
  cbn [job_finish_and_invalidate]. rewrite E. cbn. rewrite I, T. cbn.
  assert (keeps m (modify_job r (set_result JOB_CANCELED) m)) as K by (by apply (modify_keeps m r _ j)).
  set (m0 := modify_job r (set_result JOB_CANCELED) m) in *.
  assert (objects m0 !! r = Some (set_result JOB_CANCELED j)) as E0 by (unfold m0; cbn; by rewrite lookup_alter_eq, E).
  assert (unique_ids m0) as U0.
  { apply (unique_back m); [|done]. intros x xb'. unfold m0. cbn. rewrite lookup_alter. case_decide as Ex; [|by exists xb'].
    subst x. rewrite E. cbn. intros [= <-]. by exists j. }
  rewrite (bool_decide_false (JOB_CANCELED = JOB_DONE)), (bool_decide_false (JOB_CANCELED = JOB_FAILED)),
    (bool_decide_false (JOB_CANCELED = JOB_INVALID)) by done. cbn.
  destruct (uninstall_free_ok m0 r _ (k_consistent _ _ K) E0 I) as (m1 & m2 & -> & E2 & C2 & F2 & _ & Eo2 & U1 & EU1 & Eu2).
  cbn. rewrite E2. cbn in *. assert (unique_ids m2) as U2.
  { apply (unique_back m0); [|done]. intros x xb'. rewrite Eo2, lookup_delete. case_decide; [done|]. by exists xb'. }
  assert (units m2 !! j_unit j = Some (put_slot (j_type j) None U1)) as EU2 by (by rewrite Eu2, lookup_insert_eq).
  unfold finish_effects. rewrite !andb_false_r. cbn. rewrite EU2. cbn.
  rewrite (bool_decide_false (JOB_CANCELED = JOB_TIMEOUT)), (bool_decide_false (JOB_CANCELED = JOB_DEPENDENCY)) by done.
  cbn. destruct (trigger_notify_benign (j_unit j) m2 C2) as [C3 F3]. destruct F3 as (F3 & _). destruct (F3 _ _ EU2) as (U3 & EU3 & _).
  destruct (wake_neighbours_ok _ _ U3 C3 EU3) as (m4 & -> & Q4 & _). intros [= <-].
  apply (queues_unique _ _ Q4). by apply fresh_notify.
Qed.

Lemma cancel_other_ok j t : wf ∅ t → table_installed (tr_m t) → unique_ids (tr_m t) →
  ∃ m', cancel_other j t = Ret (set_m m' t) ∧ wf ∅ (set_m m' t) ∧ table_installed m' ∧ unique_ids m'.
Proof.
  intros W HT HU. assert (∃ m', Ret t = Ret (set_m m' t) ∧ wf ∅ (set_m m' t) ∧ table_installed m' ∧ unique_ids m') as Hskip.
  { exists (tr_m t). rewrite set_m_same. done. }
  unfold cancel_other. destruct (objects (tr_m t) !! j) as [jb|] eqn:Ej; [|done]. case_decide as J; [|done].
  rewrite (HT _ _ _ J Ej). cbn [assert_ lift mbind outcome_bind]. destruct (u_ignore_on_isolate (j_unit jb)); [done|].
  destruct (first_job t (j_unit jb)); [done|].
  destruct (cancel_ok 0 (tr_m t) j jb (w_consistent ∅ t W) Ej (HT _ _ _ J Ej) Hquiet) as (m' & U' & E & C' & F' & _).
  rewrite E. cbn. exists m'. split; [done|]. split; [by apply wf_frame|]. split; [by apply (frame_table (tr_m t))|].
  by apply (cancel_unique (tr_m t) j jb m' (w_consistent ∅ t W) Ej (HT _ _ _ J Ej)).
Qed.

Lemma cancel_others_ok l t : wf ∅ t → table_installed (tr_m t) → unique_ids (tr_m t) →
  ∃ m', for_all cancel_other l t = Ret (set_m m' t) ∧ wf ∅ (set_m m' t) ∧ table_installed m' ∧ unique_ids m'.
Proof.
  intros W HT HU. destruct (for_all_ok cancel_other
    (λ _ s, ∃ m', s = set_m m' t ∧ wf ∅ (set_m m' t) ∧ table_installed m' ∧ unique_ids m') l [] t) as (s & E & m' & -> & H').
  - exists (tr_m t). rewrite set_m_same. done.
  - intros j _ s _ (m1 & -> & W1 & T1 & U1). destruct (cancel_other_ok j (set_m m1 t) W1 T1 U1) as (m2 & E & H2).
    eexists. split; [exact E|]. by exists m2.
  - by exists m'.
Qed.

End Cancel.

(** ** The whole application *)

Definition clears (mode : JobMode) : bool := bool_decide (mode = JOB_ISOLATE) || bool_decide (mode = JOB_FLUSH).

(** It returns 0 with nothing left in the transaction and a consistent manager,
    or fails for want of memory; then the transaction is as before, but for the
    jobs that were cancelled. *)
Lemma apply_ok `{LawfulTransaction} `{!LawfulEnv} mode t : quiet → fresh_reactions → wf ∅ t →
  table_installed (tr_m t) → unique_ids (tr_m t) → (∀ u, (length (list_of t u) ≤ 1)%nat) →
  ∃ r t', transaction_apply mode t = Ret (r, t') ∧
    (r = 0 ∧ tr_jobs t' = ∅ ∧ consistent (tr_m t') ∨
     r = - ENOMEM ∧ wf ∅ t' ∧ ∃ m', t' = set_m m' t ∧ (clears mode = false → m' = tr_m t)).
Proof.
  intros Hq Hi W HT HU HS. unfold transaction_apply. fold (clears mode).
  assert (∃ m', (if clears mode then for_all cancel_other (all_jobs (tr_m t)) t else Ret t) = Ret (set_m m' t) ∧ wf ∅ (set_m m' t) ∧
    unique_ids m' ∧ (clears mode = false → m' = tr_m t)) as (m1 & E1 & W1 & U1 & Hm1).
  { destruct (clears mode).
    - destruct (cancel_others_ok Hq Hi (all_jobs (tr_m t)) t W HT HU) as (m' & E & W' & _ & U'). by exists m'.
    - exists (tr_m t). rewrite set_m_same. done. }
  rewrite E1. cbn [mbind outcome_bind]. set (t1 := set_m m1 t) in *.
  assert (∀ u, (length (list_of t1 u) ≤ 1)%nat) as HS1 by done.
  destruct (put_all_ok t1 W1 HS1 (unique_fresh t1 W1 U1)) as (r & J & E2 & PJ & Hr). rewrite E2. cbn [mbind outcome_bind].
  destruct Hr as [[-> HJ]| ->].
  - change (0 <? 0) with false. cbv iota. change (tr_jobs (with_table t1 J)) with (tr_jobs t1).
    destruct (apply_loop_ok Hq (S (size (tr_jobs t1))) (with_table t1 J)) as (t' & E3 & Ej & C'); [|cbn; lia|].
    { split; [|done|].
      - pose proof (wf_staged t1 W1) as [_ Ws]. assert (staged_wf (set_m (with_jobs J (tr_m t1)) t1)) as Hst; [|exact Hst].
        apply staged_manager; [done|apply PJ|done|done].
      - intros x xb Hx Ex. by apply HJ. }
    rewrite E3. cbn [mbind outcome_bind]. exists 0, t'. split; [done|]. by left.
  - change (- ENOMEM <? 0) with true. cbn [mbind outcome_bind]. change (tr_jobs (with_table t1 J)) with (tr_jobs t1).
    rewrite (rollback_ok t1 W1 HS1 (unique_fresh t1 W1 U1) J PJ). cbn. exists (- ENOMEM), t1. split; [done|]. right. split; [done|].
    split; [done|]. by exists m1.
Qed.
