(* ===== verification/TransactionActivate.v ===== *)
(** * systemd: activating a transaction

    The ten steps of [transaction_activate] one after the other: they end and
    fail no assertion, and a transaction that cannot be applied has changed
    nothing but itself. *)

From S2P Require Import Prelude Outcome JobMerge Job JobProps JobFinish Transaction TransactionProps TransactionMarks TransactionOrder TransactionSteps TransactionMerge TransactionApply.

#[local] Open Scope Z_scope.
#[local] Set Warnings "-clear-no-such-hyp".

(** ** Marks *)

Lemma reset_touched l t : touched 0 t (foldr reset_generation t l).
Proof.
  induction l as [|j l IH]; [apply touched_refl|]. cbn. apply (touched_trans _ _ _ _ IH).
  apply touched_modify; try done; [apply touched_refl|]. by right.
Qed.

(** No sweep has gone over the transaction. *)
Definition pristine (t : Transaction) : Prop := ∀ x, generation (info t x) = 0 ∧ matters_to_anchor (info t x) = false.

Lemma mark_ok `{TransactionEnv} t a : wf ∅ t → pristine t → anchor_job t = Some a → member t a →
  ∃ t', transaction_find_jobs_that_matter_to_anchor (n_jobs t) a 1 t = Ret t' ∧ anchored t' ∧ remarked t t' ∧
    (∀ x, generation (info t' x) < 2) ∧ (∀ x, marked t' x ↔ rtc (needs t) a x).
Proof.
  intros W Hp Ea Ma. destruct (find_jobs_ok 1 a t W Ma) as (t' & E & R & HM & HG).
  { intros x. destruct (Hp x) as [-> ->]. done. }
  exists t'. split; [done|]. split; [|split; [done|split; [|done]]].
  - split; [by apply (remarked_wf ∅ t)| |].
    + exists a. rewrite (r_anchor _ _ R). split; [done|]. split; [by rewrite <- R|]. by apply HM.
    + intros x y Hx Hn. apply HM. apply HM in Hx. rewrite <- R in Hn. by eapply rtc_r.
  - intros x. destruct (HG x) as [_ [->| ->]]; [rewrite (proj1 (Hp x))|]; lia.
Qed.

(** ** Destruction *)

(** The job of unit [u] would replace one that must not be. *)
Definition destroys (mode : JobMode) (t : Transaction) (u : nat) : Prop := ∃ j jb U uj ub, list_of t u = [j] ∧
  objects (tr_m t) !! j = Some jb ∧ units (tr_m t) !! u = Some U ∧ u_job U = Some uj ∧ objects (tr_m t) !! uj = Some ub ∧
  (mode = JOB_FAIL ∨ j_irreversible ub = true) ∧ job_type_is_conflicting (j_type ub) (j_type jb) = Some true.

Lemma is_destructive_ok `{LawfulTransaction} mode t : wf ∅ t → (∀ u, (length (list_of t u) ≤ 1)%nat) →
  ∃ r, transaction_is_destructive mode t = Ret (r, t) ∧
    (r = 0 ∧ (∀ u, ¬ destroys mode t u) ∨ r = - EDEADLK ∧ ∃ u, destroys mode t u).
Proof.
  intros W HS. unfold transaction_is_destructive. set (f := λ u t, _).
  destruct (until_error_ok f (λ seen s, s = t ∧ ∀ u, u ∈ seen → ¬ destroys mode t u)
    (λ r s, r = - EDEADLK ∧ s = t ∧ ∃ u, destroys mode t u) (keys (tr_jobs t)) [] t) as (r & s & E & Hr).
  - split; [done|]. by intros u ?%not_elem_of_nil.
  - intros u seen s Hu [-> Hs]. destruct (single_job ∅ t u W (HS u) (keys_list t u Hu)) as (j & El & Ej & _).
    destruct (w_member ∅ t W u j) as (_ & jb & Eb & P); [rewrite Ej; left|].
    destruct (w_unit ∅ t W j jb) as [U EU]; [right; exists u; rewrite Ej; left|done|]. rewrite (proj1 P) in EU.
    assert (¬ destroys mode t u → 0 ≤ 0 ∧ t = t ∧ ∀ v, v ∈ u :: seen → ¬ destroys mode t v) as Hok.
    { intros Hd. split; [done|]. split; [done|]. intros v [->|Hv]%elem_of_cons; auto. }
    unfold f. rewrite El. cbn. unfold get_job, get_unit. rewrite Eb. cbn. rewrite (proj1 P), EU. cbn.
    destruct (u_job U) as [uj|] eqn:Euj.
    2: { exists 0, t. split; [done|]. left. apply Hok. intros (? & ? & U' & ? & ? & _ & _ & EU' & ? & _). congruence. }
    destruct (c_slot (tr_m t) (w_consistent ∅ t W) u U JOB_START uj EU) as (ub & Eub & Hi & _); [done|]. rewrite Eub. cbn.
    destruct (c_installed (tr_m t) (w_consistent ∅ t W) uj ub Eub Hi) as [Hb _].
    destruct (conflicting_total (j_type ub) (j_type jb) Hb) as [c Ec]; [apply P|].
    assert (destroys mode t u ↔ (mode = JOB_FAIL ∨ j_irreversible ub = true) ∧ c = true) as Hd.
    { split.
      - intros (j' & jb' & U' & uj' & ub' & H1 & H2 & H3 & H4 & H5 & H6 & H7). simplify_eq. split; [done|congruence].
      - intros [H1 ->]. exists j, jb, U, uj, ub. split_and!; done. }
    destruct (bool_decide (mode = JOB_FAIL) || j_irreversible ub) eqn:Em.
    + rewrite Ec. cbn. apply orb_true_iff in Em as Em'. rewrite bool_decide_eq_true in Em'. destruct c.
      * exists (- EDEADLK), t. split; [done|]. right. split; [done|]. split; [done|]. split; [done|]. exists u. by apply Hd.
      * exists 0, t. split; [done|]. left. apply Hok. rewrite Hd. by intros [_ ?].
    + exists 0, t. split; [done|]. left. apply Hok. rewrite Hd. apply orb_false_iff in Em as [E1 E2].
      rewrite bool_decide_eq_false in E1. intros [[?|?] _]; congruence.
  - rewrite E. destruct Hr as [(-> & -> & Hs)|(_ & -> & -> & Hd)].
    + exists 0. split; [done|]. left. split; [done|]. intros u Hu. destruct (id Hu) as (j & jb & U & uj & ub & El & _).
      apply (Hs u); [|done]. rewrite app_nil_r. apply elem_of_rev, (keys_member t u j). rewrite El. left.
    + exists (- EDEADLK). split; [done|]. by right.
Qed.

(** ** Composition *)

Lemma evolves_unique t t' : evolves t t' → unique_ids (tr_m t) → unique_ids (tr_m t').
Proof. intros E. apply unique_back, E. Qed.

Lemma evolves_table t t' : wf ∅ t → evolves t t' → table_installed (tr_m t) → table_installed (tr_m t').
Proof.
  intros W E HT id r rb J Er. assert (jobs (tr_m t') = jobs (tr_m t)) as Ej by apply (f_equal jobs (e_rest t t' E)).
  rewrite Ej in J. rewrite (e_outside t t' E) in Er; [by apply (HT id r)|]. intros Hm. by apply (w_table ∅ t W r (or_intror Hm) id).
Qed.

Lemma remarked_evolves t t' : remarked t t' → evolves t t'.
Proof.
  intros [Rm Rj Ra Ri Rl Rs Ro]. split; rewrite ?Rm; try done.
  - intros u x. unfold list_of. by rewrite Rj.
  - intros x [u Hu] Hn. destruct Hn. exists u. unfold list_of in *. by rewrite Rj.
  - intros x jb E. by exists jb.
Qed.

Lemma trims_single M P t t' : trims_by M P t t' → (∀ u, (length (list_of t u) ≤ 1)%nat) → ∀ u, (length (list_of t' u) ≤ 1)%nat.
Proof.
  intros (X & K & A & _) HS u. rewrite (c_list _ _ _ _ _ A). etrans; [apply length_filter|apply HS].
Qed.

Lemma merged_single_list t t' : wf ∅ t → wf ∅ t' → evolves t t' → (∀ u, is_Some (tr_jobs t !! u) → unit_merged t t' u) →
  ∀ u, (length (list_of t' u) ≤ 1)%nat.
Proof.
  intros W W' E HM u. destruct (list_of t' u) as [|x l] eqn:El; [cbn; lia|].
  assert (x ∈ list_of t u) as Hx by (apply (e_list t t' E); rewrite El; left).
  destruct (HM u) as (ty & _ & k & Ek & _).
  { unfold list_of in Hx. destruct (tr_jobs t !! u); [by eexists|]. by apply not_elem_of_nil in Hx. }
  rewrite El in Ek. injection Ek as -> ->. done.
Qed.

(** The transaction that is applied: one job for each unit, the anchor's among
    them, and none that replaces a job that must stay. *)
Record ready (mode : JobMode) (t t1 : Transaction) : Prop := {
  y_wf : wf ∅ t1;
  y_evolves : evolves t t1;
  y_single : ∀ u, (length (list_of t1 u) ≤ 1)%nat;
  y_anchor : ∃ a, anchor_job t1 = Some a ∧ member t1 a;
  y_harmless : ∀ u, ¬ destroys mode t1 u }.

(** Why a transaction is refused, in a state it went through. *)
Definition refused (mode : JobMode) (t : Transaction) : Prop := ∃ t1, evolves t t1 ∧
  (stuck t1 ∨ (∃ u, contradiction t1 (list_of t1 u)) ∨ ∃ u, destroys mode t1 u).

Section Activate.
Context `{LawfulTransaction} `{!LawfulEnv}.

(** The steps up to the one that makes the order sound. *)
Lemma prepare_ok mode t a : wf ∅ t → pristine t → anchor_job t = Some a → member t a →
  Z.of_nat (size (objects (tr_m t))) + 8 < 2 ^ 32 →
  ∃ t1 r g t2, 
    (let t := foldr reset_generation t (all_jobs (tr_m t)) in
     anchor ←! anchor_job t;
     t ← transaction_find_jobs_that_matter_to_anchor (n_jobs t) anchor 1 t;
     t ← (if decide (mode = JOB_FAIL) then transaction_minimize_impact t else Ret t);
     transaction_drop_redundant 2 t) = Ret t1 ∧
    order_loop (n_jobs t1) mode 3 t1 = Ret (r, g, t2) ∧ anchored t2 ∧
    (∃ t0, remarked t t0 ∧ prunes (λ x, anchor_job t ≠ Some x) t0 t2) ∧
    (r = 0 ∧ acyclic t2 ∨ r = - EDEADLK ∧ ∃ t3, evolves t t3 ∧ stuck t3).
Proof.
  intros W Hp Ea Ma Hsz. cbv zeta. pose proof (reset_touched (all_jobs (tr_m t)) t) as T0. set (t0 := foldr _ t _) in *.
  pose proof (k_remarked _ _ _ T0) as R0. assert (wf ∅ t0) as W0 by (by apply (remarked_wf ∅ t)).
  assert (pristine t0) as Hp0.
  { intros x. rewrite (k_matters _ _ _ T0). split; [|apply Hp]. destruct (k_gen _ _ _ T0 x) as [->|]; [apply Hp|done]. }
  assert (anchor_job t0 = Some a) as -> by (by rewrite (r_anchor _ _ R0)). cbn [lift mbind outcome_bind].
  destruct (mark_ok t0 a W0 Hp0) as (t1 & E1 & A1 & R1 & G1 & _); [by rewrite (r_anchor _ _ R0)|by rewrite <- R0|].
  rewrite E1. cbn [mbind outcome_bind].
  assert (anchor_job t1 = anchor_job t) as Ea1 by (by rewrite (r_anchor _ _ R1), (r_anchor _ _ R0)).
  assert (∃ t2, (if decide (mode = JOB_FAIL) then transaction_minimize_impact t1 else Ret t1) = Ret t2 ∧
    trims (λ x, anchor_job t ≠ Some x) t1 t2) as (t2 & E2 & T2).
  { case_decide.
    - destruct (minimize_ok t1 A1) as (t2 & E & (X & K & C & W2 & HX) & _). exists t2. split; [done|]. exists X, K.
      split; [done|]. split; [done|]. intros x Hx. destruct (HX x Hx) as [Hm Hk]. split; [done|]. rewrite <- Ea1. intros Ex.
      by apply (anchor_unmarked t1 x (λ x, ¬ marked t1 x) A1 Ex).
    - exists t1. split; [done|]. apply trims_refl, A1. }
  rewrite E2. cbn [mbind outcome_bind]. pose proof (trims_wf _ _ _ T2) as W2.
  assert (∀ a', anchor_job t1 = Some a' → ¬ anchor_job t ≠ Some a') as Hanc by (intros a' Ea' Hn; congruence).
  pose proof (anchored_trims _ _ _ _ A1 T2 Hanc) as A2.
  destruct (drop_redundant_ok 2 t2 W2) as (t3 & E3 & P3 & G3). rewrite E3.
  assert (anchor_job t2 = anchor_job t) as Ea2 by (by rewrite (trims_anchor _ _ _ _ T2)). rewrite Ea2 in P3.
  pose proof (trims_trans _ _ _ _ _ (trims_prunes _ _ _ T2) P3 (λ x, id)) as P13.
  assert (anchored t3) as A3 by (apply (anchored_trims _ _ _ _ A1 P13 Hanc)).
  assert (∀ x, generation (info t3 x) < 3) as G3'.
  { intros x. destruct (G3 x) as [->|[->| ->]]; [|done|done]. pose proof (trims_below 2 _ _ _ ltac:(done) G1 T2 x). lia. }
  assert (size (objects (tr_m t3)) ≤ size (objects (tr_m t)))%nat as Hs3.
  { apply map_subseteq_size, map_subseteq_spec. intros x b. destruct P13 as (X & K & C & _).
    rewrite (c_objects _ _ _ _ _ C), (r_m _ _ R1), (r_m _ _ R0). by destruct (decide (x ∈ X)). }
  destruct (order_loop_ok mode (n_jobs t3) 3 t3 A3 G3') as (r & g & t4 & E4 & A4 & P4 & _ & _ & _ & Hr); [done| | |].
  { unfold n_jobs. lia. }
  { unfold n_jobs. lia. }
  assert (anchor_job t3 = anchor_job t) as Ea3 by (by rewrite (trims_anchor _ _ _ _ P13)). rewrite Ea3 in P4.
  pose proof (trims_trans _ _ _ _ _ P13 P4 (λ x, id)) as P14.
  assert (remarked t t1) as R01 by (by etrans).
  exists t3, r, g, t4. split; [done|]. split; [done|]. split; [done|]. split; [by exists t1|].
  destruct Hr as [Hr|(-> & t5 & R5 & Hs)]; [by left|right]. split; [done|]. exists t5. split; [|done].
  apply (evolves_trans t t1); [apply A1|by apply remarked_evolves|]. apply (evolves_trans t1 t4); [apply A4|by apply (trims_evolves _ _ _ _ P14)|].
  apply remarked_evolves. by symmetry.
Qed.

Lemma activate_ok mode t a : quiet → fresh_reactions → wf ∅ t → pristine t → anchor_job t = Some a → member t a →
  nops_alone t → table_installed (tr_m t) → unique_ids (tr_m t) → Z.of_nat (size (objects (tr_m t))) + 8 < 2 ^ 32 →
  ∃ r t', transaction_activate mode t = Ret (r, t') ∧
    (r = 0 ∧ tr_jobs t' = ∅ ∧ consistent (tr_m t') ∧ (∃ t1, ready mode t t1 ∧ transaction_apply mode t1 = Ret (0, t')) ∨
     r < 0 ∧ wf ∅ t' ∧ (clears mode = false → evolves t t') ∧ (r = - ENOMEM ∨ r = - EDEADLK ∧ refused mode t)).
Proof.
  intros Hq Hi W Hp Ea Ma N HT HU Hsz.
  destruct (prepare_ok mode t a W Hp Ea Ma Hsz) as (t1 & r & g & t2 & E1 & E2 & A2 & (t0 & R0 & P2) & Hr).
  unfold transaction_activate. cbv zeta in E1 |- *. set (tr := foldr reset_generation t _) in *.
  destruct (anchor_job tr) as [a'|]; [|done]. cbn [lift mbind outcome_bind] in *.
  destruct (transaction_find_jobs_that_matter_to_anchor (n_jobs tr) a' 1 tr) as [tf| |]; [|done..]. cbn [lift mbind outcome_bind] in *.
  destruct (if decide (mode = JOB_FAIL) then transaction_minimize_impact tf else Ret tf) as [tm| |]; [|done..]. cbn [lift mbind outcome_bind] in *.
  rewrite E1. cbn [mbind outcome_bind]. rewrite E2. cbn [mbind outcome_bind].
  assert (wf ∅ t0) as W0 by (by apply (remarked_wf ∅ t)).
  assert (evolves t t2) as E02 by (apply (evolves_trans t t0); [done|by apply remarked_evolves|by apply (trims_evolves _ _ _ _ P2)]).
  destruct Hr as [[-> _]|(-> & t3 & Ev3 & Hs)].
  2: { exists (- EDEADLK), t2. split; [done|]. right. split; [done|]. split; [apply A2|]. split; [done|]. right. split; [done|]. exists t3. auto. }
  rewrite Z.ltb_irrefl. assert (nops_alone t0) as N0.
  { intros u x jb. rewrite (r_m _ _ R0). rewrite <- R0. apply N. }
  destruct (unify_loop_ok mode (n_jobs t2) t2 A2) as (r & t3 & t4 & -> & A3 & T3 & Hr); [by apply (nops_alone_trims _ _ _ _ N0 P2)|unfold n_jobs; lia|].
  cbn [mbind outcome_bind]. assert (evolves t t3) as E03 by (apply (evolves_trans t t2); [apply A2|done|by apply (trims_evolves _ _ _ _ T3)]).
  destruct Hr as [(-> & W4 & E34 & HM)|(-> & -> & Hc)].
  2: { exists (- EDEADLK), t3. split; [done|]. right. split; [done|]. split; [apply A3|]. split; [done|]. right. split; [done|]. exists t3. auto. }
  rewrite Z.ltb_irrefl. pose proof (merged_single_list t3 t4 (a_wf t3 A3) W4 E34 HM) as HS4.
  destruct (drop_redundant_ok g t4 W4) as (t5 & -> & P5 & _). cbn [mbind outcome_bind]. pose proof (trims_wf _ _ _ P5) as W5.
  pose proof (trims_single _ _ _ _ P5 HS4) as HS5.
  assert (evolves t t5) as E05.
  { apply (evolves_trans t t4); [done| |by apply (trims_evolves _ _ _ _ P5)]. apply (evolves_trans t t3); [apply A3|done|done]. }
  destruct (is_destructive_ok mode t5 W5 HS5) as (r & -> & Hr). cbn [mbind outcome_bind].
  destruct Hr as [[-> Hd]|[-> Hd]].
  2: { exists (- EDEADLK), t5. split; [done|]. right. split; [done|]. split; [done|]. split; [done|]. right. split; [done|]. exists t5. auto. }
  rewrite Z.ltb_irrefl. assert (ready mode t t5) as Hready.
  { split; [done|done|done| |done]. destruct (a_anchor t3 A3) as (b & Eb & [v Hv] & _). exists b.
    assert (anchor_job t4 = Some b) as Eb4 by (by rewrite (e_anchor _ _ E34)).
    rewrite (trims_anchor _ _ _ _ P5). split; [done|]. destruct (HM v) as (ty & _ & k & Ek & _ & _ & Hk).
    { unfold list_of in Hv. destruct (tr_jobs t3 !! v); [by eexists|]. by apply not_elem_of_nil in Hv. }
    rewrite (Hk b Eb4 Hv) in Ek. exists v. apply (trims_stays _ _ _ _ _ P5); [rewrite Ek; left|]. intros Hn. by apply Hn. }
  destruct (apply_ok mode t5 Hq Hi W5) as (r & t6 & E6 & Hr); [by apply (evolves_table t)|by apply (evolves_unique t)|done|].
  rewrite E6. cbn [mbind outcome_bind]. destruct Hr as [(-> & Ej & C)|(-> & W6 & m' & -> & Hm)].
  - rewrite Z.ltb_irrefl, Ej, bool_decide_true by done. cbn. exists 0, t6. split; [done|]. left. split; [done|]. split; [done|]. split; [done|].
    by exists t5.
  - change (- ENOMEM <? 0) with true. cbv iota. exists (- ENOMEM), (set_m m' t5). split; [done|]. right. split; [done|]. split; [done|].
    split; [|by left]. intros Hc. rewrite (Hm Hc), set_m_same. done.
Qed.

End Activate.
