(* ===== verification/TransactionAdd.v ===== *)
(** * systemd: collecting the jobs of a transaction

    [transaction_add_job_and_dependencies] ends for every graph of dependencies,
    circles included, and builds a well-formed transaction of new jobs beside an
    unchanged manager; [transaction_abort] takes it away again. *)

From S2P Require Import Prelude Outcome JobMerge Job JobProps JobFinish Transaction TransactionProps TransactionMarks TransactionOrder TransactionSteps TransactionMerge TransactionApply TransactionActivate.

#[local] Open Scope Z_scope.
#[local] Set Warnings "-clear-no-such-hyp".

(** ** Giving up *)

Lemma abort_ok `{LawfulTransaction} t : wf ∅ t →
  ∃ t', transaction_abort t = Ret t' ∧ evolves t t' ∧ wf ∅ t' ∧ tr_jobs t' = ∅.
Proof.
  intros W. unfold transaction_abort.
  assert (∀ n t1, trims (λ _, True) t t1 → (size (objects (tr_m t1)) < n)%nat →
    ∃ t', abort_loop n t1 = Ret t' ∧ trims (λ _, True) t t' ∧ tr_jobs t' = ∅) as HL.
  { induction n as [|n IH]; intros t1 T Hn; [lia|]. cbn. pose proof (trims_wf _ _ _ T) as W1.
    destruct (head (keys (tr_jobs t1))) as [u|] eqn:Ek; [|exists t1; split; [done|]; split; [done|]; by apply no_keys].
    destruct (head_key t1 u Ek) as [l El]. destruct l as [|j l]; [by apply (w_list ∅ t1 W1) in El|].
    assert (first_job t1 u = Some j) as -> by (unfold first_job; by rewrite El). cbn.
    destruct (delete_trims false t1 j W1) as (t2 & -> & T2 & _ & S2); [exists u; rewrite (list_of_some t1 u _ El); left|]. cbn.
    apply IH; [|lia]. by apply (trims_trans _ _ _ _ _ T T2). }
  destruct (HL (n_jobs t) t) as (t' & -> & T & Ej); [by apply trims_refl|unfold n_jobs; lia|]. cbn.
  rewrite Ej, bool_decide_true by done. cbn. exists t'. split; [done|]. split; [by apply (trims_evolves _ _ _ _ T)|].
  split; [by apply (trims_wf _ _ _ T)|done].
Qed.

(** ** Work to do

    Each pair of a unit and a type gives one job, and a new job pulls in at most
    one for each dependency of its unit. *)

#[export] Instance job_type_code_inj : Inj (=) (=) job_type_code.
Proof. by intros [] []. Qed.

Section Work.
Context `{TransactionEnv}.

Definition all_deps (u : nat) (U : Unit) : list nat :=
  u_following_set u ++ (u_requires u ++ u_binds_to u ++ u_wants u ++ u_requisite u ++ u_conflicts u ++ u_conflicted_by U) ++
  (u_required_by U ++ u_requisite_of U ++ u_bound_by U ++ u_consists_of u) ++ u_propagates_reload_to u.

Definition codes : list Z := [0; 1; 2; 3; 4; 5].

Definition pairs (us : gmap nat Unit) : list (nat * Unit * Z) :=
  p ← map_to_list us; (λ c, (p, c)) <$> codes.

Definition cost (p : nat * Unit * Z) : nat := S (length (all_deps p.1.1 p.1.2)).

(** There is a job of the type for the unit. *)
Definition has (t : Transaction) (u : nat) (c : Z) : Prop := Exists (λ x, job_type_code (type_of t x) = c) (list_of t u).

Definition missing (t : Transaction) (p : nat * Unit * Z) : Prop := ¬ has t p.1.1 p.2.

Lemma has_exists t u c : has t u c ↔ ∃ x, x ∈ list_of t u ∧ job_type_code (type_of t x) = c.
Proof. apply Exists_exists. Qed.

Lemma has_mono t t' u c : (∀ x, x ∈ list_of t u → x ∈ list_of t' u ∧ type_of t' x = type_of t x) → has t u c → has t' u c.
Proof. rewrite !has_exists. intros HL (x & Hx & Ec). destruct (HL x Hx) as [Hx' Et]. exists x. by rewrite Et. Qed.

#[export] Instance missing_dec t p : Decision (missing t p).
Proof. unfold missing, has. apply _. Defined.

Definition work (t : Transaction) : nat := sum_list_with cost (filter (missing t) (pairs (units (tr_m t)))).

Lemma sum_filter_mono {A} (f : A → nat) (P P' : A → Prop) `{∀ x, Decision (P x), ∀ x, Decision (P' x)} (l : list A) :
  (∀ x, P' x → P x) → (sum_list_with f (filter P' l) ≤ sum_list_with f (filter P l))%nat.
Proof.
  intros HP. induction l as [|x l IH]; [done|]. rewrite !filter_cons. destruct (decide (P' x)) as [Hx|Hx].
  - rewrite decide_True by auto. cbn. lia.
  - case_decide; cbn; lia.
Qed.

Lemma sum_filter_less {A} (f : A → nat) (P P' : A → Prop) `{∀ x, Decision (P x), ∀ x, Decision (P' x)} (l : list A) x :
  (∀ y, P' y → P y) → x ∈ l → P x → ¬ P' x → (sum_list_with f (filter P' l) + f x ≤ sum_list_with f (filter P l))%nat.
Proof.
  intros HP Hx Hp Hn. induction l as [|y l IH]; [by apply not_elem_of_nil in Hx|]. rewrite !filter_cons.
  apply elem_of_cons in Hx as [->|Hx].
  - rewrite decide_False, decide_True by done. cbn. pose proof (sum_filter_mono f P P' l HP). lia.
  - specialize (IH Hx). destruct (decide (P' y)) as [Hy|Hy]; [rewrite decide_True by auto; cbn; lia|]. case_decide; cbn; lia.
Qed.

Lemma work_mono t t' : units (tr_m t') = units (tr_m t) → (∀ u c, has t u c → has t' u c) → (work t' ≤ work t)%nat.
Proof. intros EU HH. unfold work. rewrite EU. apply sum_filter_mono. intros [[u U] c] Hm Hh. by apply Hm, HH. Qed.

Lemma code_in ty : in_transaction ty = true → job_type_code ty ∈ codes.
Proof. unfold codes. destruct ty; try done; cbn; set_solver. Qed.

Lemma pairs_elem us u U c : us !! u = Some U → c ∈ codes → (u, U, c) ∈ pairs us.
Proof.
  intros EU Hc. unfold pairs. apply list_elem_of_bind. exists (u, U). split; [|by apply elem_of_map_to_list].
  apply list_elem_of_fmap. by exists c.
Qed.

Lemma work_less t t' u U ty : units (tr_m t') = units (tr_m t) → (∀ u c, has t u c → has t' u c) →
  units (tr_m t) !! u = Some U → in_transaction ty = true → ¬ has t u (job_type_code ty) → has t' u (job_type_code ty) →
  (work t' + S (length (all_deps u U)) ≤ work t)%nat.
Proof.
  intros EU HH Eu Ht Hn Hh'. unfold work. rewrite EU. apply (sum_filter_less cost (missing t) (missing t') _ (u, U, job_type_code ty)).
  - intros [[v V] c] Hm Hh. by apply Hm, HH.
  - apply pairs_elem; [done|by apply code_in].
  - done.
  - intros Hm. by apply Hm.
Qed.

End Work.

(** ** Growth *)

(** All of the manager but its jobs and the number for the next one. *)
Definition shell (m : Manager) : Manager :=
  mk_manager ∅ (jobs m) (units m) (run_queue m) (dbus_job_queue m) (gc_job_queue m)
    (n_running_jobs m) (n_installed_jobs m) (n_failed_jobs m) 0 (private_buses m).

(** A transaction of new jobs beside the manager [m0]. *)
Record over (m0 : Manager) (t : Transaction) : Prop := {
  v_wf : wf ∅ t;
  v_shell : shell (tr_m t) = shell m0;
  v_outside : ∀ x, ¬ member t x → objects (tr_m t) !! x = objects m0 !! x;
  v_new : ∀ x, member t x → objects m0 !! x = None;
  v_pristine : pristine t;
  v_ids : ∀ x jb, objects (tr_m t) !! x = Some jb → j_id jb < current_job_id (tr_m t);
  v_unique : unique_ids (tr_m t);
  v_next : 0 ≤ current_job_id (tr_m t) }.

Definition no_nops (t : Transaction) : Prop := ∀ u x, x ∈ list_of t u → type_of t x ≠ JOB_NOP.

Section Growth.
Context `{TransactionEnv}.

(** [t'] has all jobs and links of [t]; what it has more is paid with work, and
    [k] numbers may have been used up besides. *)
Record grows (k : Z) (t t' : Transaction) : Prop := {
  g_list : ∀ u x, x ∈ list_of t u → x ∈ list_of t' u ∧ type_of t' x = type_of t x;
  g_links : links t ⊆ links t';
  g_ids : current_job_id (tr_m t') + Z.of_nat (work t') ≤ current_job_id (tr_m t) + Z.of_nat (work t) + k;
  g_size : (size (objects (tr_m t')) + work t' ≤ size (objects (tr_m t)) + work t)%nat;
  g_work : (work t' ≤ work t)%nat }.

Lemma grows_refl t : grows 0 t t.
Proof. split; auto with lia. Qed.

Lemma grows_trans k1 k2 t1 t2 t3 : grows k1 t1 t2 → grows k2 t2 t3 → grows (k1 + k2) t1 t3.
Proof.
  intros [L1 K1 I1 S1 W1] [L2 K2 I2 S2 W2]. split; [|by etrans|lia..]. intros u x Hx. destruct (L1 u x Hx) as [Hx' Et].
  destruct (L2 u x Hx') as [Hx'' Et']. split; [done|congruence].
Qed.

Lemma grows_weaken k k' t t' : grows k t t' → k ≤ k' → grows k' t t'.
Proof. intros [] ?. split; auto with lia. Qed.

Lemma grows_member k t t' x : grows k t t' → member t x → member t' x.
Proof. intros G [u Hu]. exists u. by apply (g_list k t t' G). Qed.

(** Numbers and memory for the jobs still to come. *)
Definition room (k : Z) (t : Transaction) : Prop :=
  current_job_id (tr_m t) + Z.of_nat (work t) + k < 2 ^ 32 ∧
  Z.of_nat (size (objects (tr_m t)) + work t) + 8 < 2 ^ 32.

Lemma room_grows k n t t' : grows k t t' → room (k + n) t → room n t'.
Proof. intros G [R1 R2]. destruct G. split; lia. Qed.

Lemma room_weaken k n t : k ≤ n → room n t → room k t.
Proof. intros ? [R1 R2]. split; lia. Qed.

Lemma over_units m0 t : over m0 t → units (tr_m t) = units m0.
Proof. intros V. apply (f_equal units (v_shell m0 t V)). Qed.

Lemma over_table m0 t : over m0 t → table_installed m0 → table_installed (tr_m t).
Proof.
  intros V HT id x xb J Ex. assert (jobs (tr_m t) = jobs m0) as Ej by apply (f_equal jobs (v_shell m0 t V)).
  rewrite (v_outside m0 t V) in Ex; [rewrite Ej in J; by apply (HT id x)|].
  intros Hm. by apply (w_table ∅ t (v_wf m0 t V) x (or_intror Hm) id).
Qed.

(** ** One more link *)

Lemma link_ok m0 t l s o ms cs u : over m0 t → links t !! l = None → member t s → o ∈ list_of t u →
  let t' := job_dependency_new l (Some s) o ms cs t in
  over m0 t' ∧ grows 0 t t' ∧ links t' !! l = Some (mk_dep (Some s) o ms cs).
Proof.
  intros V El Ms Ho t'. pose proof (v_wf m0 t V) as W.
  assert (∀ x, subject_list (info t' x) = (if decide (x = s) then [l] else []) ++ subject_list (info t x) ∧
    object_list (info t' x) = (if decide (x = o) then [l] else []) ++ object_list (info t x) ∧ 
    generation (info t' x) = generation (info t x) ∧ matters_to_anchor (info t' x) = matters_to_anchor (info t x)) as HI.
  { intros x. unfold t', job_dependency_new, modify_info, info. cbn. rewrite !lookup_insert.
    repeat (case_decide; subst; cbn); done. }
  assert (∀ x, (l ∉ subject_list (info t x)) ∧ (l ∉ object_list (info t x))) as Hfree.
  { intros x. split; intros Hx; [apply (w_subject ∅ t W) in Hx|apply (w_object ∅ t W) in Hx]; destruct Hx as (d & E & _); congruence. }
  assert (links t' = <[l := mk_dep (Some s) o ms cs]> (links t)) as Elinks by done.
  split; [|split].
  - destruct V. split; try done.
    + destruct W. split; try done.
      * intros l' d. rewrite Elinks, lookup_insert. case_decide as Hl; intros Ed.
        -- injection Ed as <-. subst l'. exists s. cbn. split; [done|]. split; [by right|]. split; [right; by exists u|].
           destruct (HI s) as (-> & _), (HI o) as (_ & -> & _). rewrite !decide_True by done. split; left.
        -- destruct (w_link l' d Ed) as (s' & Es & G1 & G2 & L1 & L2). exists s'. split_and!; try done.
           ++ destruct (HI s') as (-> & _). apply elem_of_app. by right.
           ++ destruct (HI (d_object d)) as (_ & -> & _). apply elem_of_app. by right.
      * intros x l'. destruct (HI x) as (-> & _). rewrite elem_of_app, Elinks. intros [Hx|Hx].
        -- case_decide; [|by apply not_elem_of_nil in Hx]. apply list_elem_of_singleton in Hx as ->. subst x. eexists. by rewrite lookup_insert_eq.
        -- destruct (w_subject x l' Hx) as (d & Ed & Es). exists d. rewrite lookup_insert_ne; [done|]. intros <-. by apply (proj1 (Hfree x)).
      * intros x l'. destruct (HI x) as (_ & -> & _). rewrite elem_of_app, Elinks. intros [Hx|Hx].
        -- case_decide; [|by apply not_elem_of_nil in Hx]. apply list_elem_of_singleton in Hx as ->. subst x. eexists. by rewrite lookup_insert_eq.
        -- destruct (w_object x l' Hx) as (d & Ed & Es). exists d. rewrite lookup_insert_ne; [done|]. intros <-. by apply (proj2 (Hfree x)).
      * intros x. destruct (HI x) as (-> & -> & _), (Hfree x), (w_lists x).
        split; case_decide; cbn; try done; by constructor.
    + intros x. destruct (HI x) as (_ & _ & -> & ->). apply v_pristine0.
  - assert (work t' = work t) as Ew by done. assert (tr_m t' = tr_m t) as Em by done.
    split; [done|rewrite Elinks; by apply insert_subseteq|rewrite ?Ew, ?Em; lia..].
  - by rewrite Elinks, lookup_insert_eq.
Qed.

(** ** One more job *)

(** A pending job enters the list of its unit. *)
Lemma enlist_ok D t r u rb : wf ({[r]} ∪ D) t → r ∉ D → objects (tr_m t) !! r = Some rb → planned u rb →
  wf D (set_jobs (<[u := r :: list_of t u]> (tr_jobs t)) t).
Proof.
  intros W Hr Er P. set (t' := set_jobs _ t).
  assert (∀ v, list_of t' v = (if decide (v = u) then [r] else []) ++ list_of t v) as HL.
  { intros v. unfold list_of at 1. cbn. rewrite lookup_insert. repeat case_decide; subst; done. }
  assert (∀ x, in_graph D t' x ↔ in_graph ({[r]} ∪ D) t x) as HG.
  { intros x. unfold in_graph, member. setoid_rewrite HL. split.
    - intros [|[v Hv]]; [set_solver|]. apply elem_of_app in Hv as [Hv|Hv]; [|eauto]. case_decide; set_solver.
    - intros [Hx|[v Hv]]; [|right; exists v; set_solver]. apply elem_of_union in Hx as [Hx|Hx]; [|by left].
      right. exists u. rewrite decide_True by done. set_solver. }
  destruct W. split; try done.
  - intros v. cbn. rewrite lookup_insert. by case_decide.
  - intros v. rewrite HL. case_decide as Hv; [|apply w_nodup]. constructor; [|apply w_nodup]. intros Hx. by apply w_member in Hx as [? _]; set_solver.
  - intros v x. rewrite HL. intros [Hx|Hx]%elem_of_app.
    + case_decide as Hv; [|by apply not_elem_of_nil in Hx]. apply list_elem_of_singleton in Hx as ->. subst v. split; [done|]. by exists rb.
    + destruct (w_member v x Hx) as [Hx' E]. split; [set_solver|done].
  - intros x Hx. apply w_pending. set_solver.
  - intros x xb Hx. apply w_unit. by apply HG.
  - intros x Hx. apply w_table. by apply HG.
  - intros l d El. destruct (w_link l d El) as (s & Es & G1 & G2 & L). exists s. by rewrite !HG.
Qed.

(** The new job, in no list yet. *)
Definition with_new_job (r u : nat) (ty : JobType) (t : Transaction) : Transaction :=
  set_infos (<[r := no_info]> (infos t))
    (set_m (modify_job r (set_flags false (irreversible t)) (job_new r u ty (tr_m t))) t).

Definition new_job (u : nat) (ty : JobType) (t : Transaction) : Job :=
  mk_job (current_job_id (tr_m t)) u ty JOB_WAITING JOB_DONE false false false false false (irreversible t) 0 false.

Lemma new_objects r u ty t : objects (tr_m (with_new_job r u ty t)) = <[r := new_job u ty t]> (objects (tr_m t)).
Proof. cbn. by rewrite alter_insert_eq. Qed.

Lemma pending_ok m0 t r u ty : over m0 t → objects (tr_m t) !! r = None → is_Some (units (tr_m t) !! u) →
  in_transaction ty = true → Z.of_nat (size (objects (tr_m t))) < 2 ^ 32 - 1 → wf ({[r]} ∪ ∅) (with_new_job r u ty t).
Proof.
  intros V Er HU Ht Hs. pose proof (v_wf m0 t V) as W.
  assert (∀ x, in_graph ∅ t x → x ≠ r) as Hne by (intros x [b Eb]%(graph_alive ∅ t x W) ->; congruence).
  assert (∀ x, info (with_new_job r u ty t) x = if decide (x = r) then no_info else info t x) as HI.
  { intros x. unfold info. cbn. rewrite lookup_insert. repeat case_decide; subst; done. }
  assert (∀ l d, links t !! l = Some d → d_subject d ≠ Some r ∧ d_object d ≠ r) as HK.
  { intros l d El. destruct (w_link ∅ t W l d El) as (s & Es & G1 & G2 & _). split; [|by apply Hne]. intros Es'. apply (Hne s G1). congruence. }
  destruct W. split; rewrite ?new_objects.
  - apply (planned_modify_consistent _ r (mk_job (current_job_id (tr_m t)) u ty JOB_WAITING JOB_DONE false false false false false false 0 false));
      [by apply job_new_consistent|cbn; by rewrite lookup_insert_eq|done..].
  - done.
  - done.
  - intros v x Hx. destruct (w_member v x Hx) as (_ & b & Eb & Pb). assert (x ≠ r) by congruence. split; [set_solver|].
    exists b. by rewrite lookup_insert_ne.
  - intros x Hx. assert (x = r) as -> by set_solver. exists u, (new_job u ty t). rewrite lookup_insert_eq. done.
  - intros x xb Hx. rewrite lookup_insert. case_decide; [by intros [= <-]|]. intros Ex. apply (w_unit x xb); [|done].
    destruct Hx as [Hx|Hx]; [set_solver|by right].
  - intros x Hx id J. change (jobs (tr_m t) !! id = Some x) in J. destruct (c_jobs _ w_consistent id x J) as (b & Eb & _).
    destruct Hx as [Hx|Hx]; [assert (x = r) by set_solver; congruence|]. by apply (w_table x (or_intror Hx) id).
  - intros l d El. destruct (HK l d El) as [H1 H2]. destruct (w_link l d El) as (s & Es & G1 & G2 & L1 & L2). exists s.
    rewrite !HI, !decide_False by congruence.
    destruct G1 as [G1|G1]; [by apply elem_of_empty in G1|]. destruct G2 as [G2|G2]; [by apply elem_of_empty in G2|].
    split; [done|]. split; [by right|]. split; [by right|done].
  - intros x l. rewrite HI. case_decide; [by intros ?%not_elem_of_nil|apply w_subject].
  - intros x l. rewrite HI. case_decide; [by intros ?%not_elem_of_nil|apply w_object].
  - intros x. rewrite HI. case_decide; [split; constructor|apply w_lists].
Qed.

Lemma find_type_ok m0 t u ty l : over m0 t → (∀ x, x ∈ l → x ∈ list_of t u) →
  (∃ x, find_type t u ty l = Ret (Some x) ∧ x ∈ l ∧ type_of t x = ty) ∨
  (find_type t u ty l = Ret None ∧ ∀ x, x ∈ l → type_of t x ≠ ty).
Proof.
  intros V. induction l as [|x l IH]; intros HL; cbn; [right; split; [done|]; by intros ? ?%not_elem_of_nil|].
  destruct (w_member ∅ t (v_wf m0 t V) u x) as (_ & b & Eb & P); [apply HL; left|].
  pose proof (type_of_some t x b Eb) as Et. unfold get_job. rewrite Eb. cbn. rewrite bool_decide_true by apply P. cbn.
  case_decide as Hty; [left; exists x; split; [done|]; split; [left|congruence]|].
  destruct IH as [(y & E & Hy & Ey)|[E Hn]]; [intros y Hy; apply HL; by right| |].
  - left. exists y. split; [done|]. split; [by right|done].
  - right. split; [done|]. intros y [->|Hy]%elem_of_cons; [congruence|auto].
Qed.

(** The job that is already there, when the memory for the entry is missing. *)
Lemma unput_ok m0 t r u ty : over m0 t → objects (tr_m t) !! r = None → is_Some (units (tr_m t) !! u) →
  in_transaction ty = true → room 1 t →
  ∃ t', free_job r (with_new_job r u ty t) = Some t' ∧ over m0 t' ∧ grows 1 t t' ∧ anchor_job t' = anchor_job t ∧
    (no_nops t → no_nops t') ∧ ∀ v, (length (list_of t' v) ≤ S (length (list_of t v)))%nat.
Proof.
  intros V Er HU Ht [R1 R2]. pose proof (v_next m0 t V) as Hn.
  assert (¬ member t r) as Hr by (intros Hm; destruct (graph_alive ∅ t r (v_wf m0 t V) (or_intror Hm)); congruence).
  destruct (free_job_ok ∅ (with_new_job r u ty t) r) as (t' & E & C & W').
  { by apply (pending_ok m0); [..|lia]. }
  { set_solver. }
  1,2: unfold info; cbn; by rewrite lookup_insert_eq.
  assert (objects (tr_m t') = objects (tr_m t)) as Eo.
  { apply map_eq. intros x. rewrite (c_objects _ _ _ _ _ C), new_objects, lookup_insert. repeat case_decide; subst; set_solver || done. }
  assert (∀ v, list_of t' v = list_of t v) as EL by (intros v; rewrite (c_list _ _ _ _ _ C); by apply filter_all; set_solver).
  assert (shell (tr_m t') = shell (tr_m t)) as ES by apply (f_equal shell (c_rest _ _ _ _ _ C)).
  assert (current_job_id (tr_m t') = current_job_id (tr_m t) + 1) as EC.
  { rewrite (f_equal current_job_id (c_rest _ _ _ _ _ C) : current_job_id (tr_m t') = _). cbn. apply wrapu_small; lia. }
  assert (units (tr_m t') = units (tr_m t)) as EU by apply (f_equal units ES).
  assert (∀ x, type_of t' x = type_of t x) as ET by (intros x; unfold type_of; by rewrite Eo).
  assert (work t' = work t) as Ew.
  { apply Nat.le_antisymm; apply work_mono; try done; intros v c; apply has_mono; intros x; by rewrite EL, ET. }
  exists t'. split; [done|]. split; [|split; [|split; [|split]]].
  - destruct V. split; try done.
    + by rewrite ES.
    + intros x. unfold member. setoid_rewrite EL. rewrite Eo. apply v_outside0.
    + intros x. unfold member. setoid_rewrite EL. apply v_new0.
    + intros x. destruct (decide (x = r)) as [->|Hx].
      * destruct (c_gone _ _ _ _ _ C r) as ((H1 & _ & H3) & _); [set_solver|]. by rewrite H1, H3.
      * destruct (c_marks _ _ _ _ _ C x) as (H1 & _ & H3); [set_solver|]. rewrite H1, H3. unfold info. cbn.
        rewrite lookup_insert_ne by done. apply v_pristine0.
    + intros x b. rewrite Eo, EC. intros Eb%v_ids0. lia.
    + unfold unique_ids. by rewrite Eo.
    + lia.
  - split; rewrite ?Ew, ?Eo, ?EC; try lia.
    + intros v x Hx. by rewrite EL, ET.
    + apply map_subseteq_spec. intros l d El. rewrite (c_links _ _ _ _ _ C), decide_False by set_solver. done.
  - apply (c_anchor _ _ _ _ _ C).
  - intros N v x. rewrite EL, ET. apply N.
  - intros v. rewrite EL. lia.
Qed.

Lemma put_new_ok m0 t r u U ty : over m0 t → objects (tr_m t) !! r = None → units (tr_m t) !! u = Some U →
  in_transaction ty = true → (∀ x, x ∈ list_of t u → type_of t x ≠ ty) → room 1 t →
  let t' := set_jobs (<[u := r :: list_of t u]> (tr_jobs t)) (with_new_job r u ty t) in
  over m0 t' ∧ grows (- Z.of_nat (length (all_deps u U))) t t' ∧ (work t' < work t)%nat ∧
    r ∈ list_of t' u ∧ type_of t' r = ty ∧ (ty ≠ JOB_NOP → no_nops t → no_nops t') ∧
    ∀ v, (length (list_of t' v) ≤ S (length (list_of t v)))%nat.
Proof.
  intros V Er HU Ht Hty [R1 R2] t'. pose proof (v_next m0 t V) as Hn.
  assert (wf ∅ t') as W'.
  { apply (enlist_ok ∅ (with_new_job r u ty t) r u (new_job u ty t)); [apply (pending_ok m0); [done|done|by exists U|done|lia]|set_solver| |done].
    by rewrite new_objects, lookup_insert_eq. }
  assert (objects (tr_m t') = <[r := new_job u ty t]> (objects (tr_m t))) as Eo by apply new_objects.
  assert (∀ v, list_of t' v = (if decide (v = u) then [r] else []) ++ list_of t v) as EL.
  { intros v. unfold list_of at 1. cbn. rewrite lookup_insert. repeat case_decide; subst; done. }
  assert (current_job_id (tr_m t') = current_job_id (tr_m t) + 1) as EC by (cbn; apply wrapu_small; lia).
  assert (∀ x, x ≠ r → type_of t' x = type_of t x) as ET by (intros x Hx; unfold type_of; by rewrite Eo, lookup_insert_ne).
  assert (type_of t' r = ty) as Er' by (unfold type_of; by rewrite Eo, lookup_insert_eq).
  assert (∀ x, member t x → x ≠ r) as Hr by (intros x Hm ->; destruct (graph_alive ∅ t r (v_wf m0 t V) (or_intror Hm)); congruence).
  assert (r ∈ list_of t' u) as Lr by (rewrite EL, decide_True by done; left).
  assert (∀ v x, x ∈ list_of t v → x ∈ list_of t' v ∧ type_of t' x = type_of t x) as Hold.
  { intros v x Hx. split; [rewrite EL; apply elem_of_app; by right|]. apply ET, Hr. by exists v. }
  assert (work t' + S (length (all_deps u U)) ≤ work t)%nat as Ew.
  { apply (work_less t t' u U ty); try done; [intros v c; apply has_mono, Hold| |].
    - rewrite has_exists. intros (x & Hx & Ex). by apply (Hty x Hx), (inj job_type_code).
    - rewrite has_exists. exists r. by rewrite Er'. }
  split; [|split; [|split; [|split; [|split; [|split]]]]].
  - destruct V. split; try done.
    + intros x Hx. rewrite Eo, lookup_insert_ne; [apply v_outside0; intros [v Hv]|]; [apply Hx; exists v; by apply Hold|].
      intros ->. apply Hx. by exists u.
    + intros x [v Hv]. rewrite EL, elem_of_app in Hv. destruct Hv as [Hv|Hv]; [|apply v_new0; by exists v]. case_decide; [|by apply not_elem_of_nil in Hv].
      apply list_elem_of_singleton in Hv as ->. rewrite <- v_outside0; [done|]. intros Hm. by apply (Hr r).
    + intros x. unfold info. cbn. rewrite lookup_insert. case_decide; [done|]. apply v_pristine0.
    + intros x b. rewrite Eo, EC, lookup_insert. case_decide; [intros [= <-]; cbn; lia|]. intros Eb%v_ids0. lia.
    + intros x y xb yb. clear Er'. rewrite Eo, !lookup_insert. repeat case_decide; subst; intros Ex Ey Eid; simplify_eq; try done.
      * apply v_ids0 in Ey. cbn in Eid. lia.
      * apply v_ids0 in Ex. cbn in Eid. lia.
      * by apply (v_unique0 x y xb yb).
    + lia.
  - split; [done|done|lia| |lia]. rewrite Eo, map_size_insert_None by done. lia.
  - lia.
  - done.
  - done.
  - intros Hnop N v x. rewrite EL. intros [Hx|Hx]%elem_of_app.
    + case_decide; [|by apply not_elem_of_nil in Hx]. apply list_elem_of_singleton in Hx as ->. by rewrite Er'.
    + rewrite (proj2 (Hold v x Hx)). by apply (N v).
  - intros v. rewrite EL, length_app. case_decide; cbn; lia.
Qed.

End Growth.

(** ** What the collection relies on

    [malloc] gives a free address. *)

Class LawfulMemory `{TransactionEnv} : Prop := {
  malloc_job_free t r : malloc_job t = Some r → objects (tr_m t) !! r = None;
  malloc_link_free t l : malloc_link t = Some l → links t !! l = None }.

(** The units that are named by others are loaded. *)
Definition known_units `{TransactionEnv} (m : Manager) : Prop :=
  ∀ u U v, units m !! u = Some U → v ∈ all_deps u U → is_Some (units m !! v).

Lemma over_modify `{TransactionEnv} m0 t r f u : over m0 t → r ∈ list_of t u →
  (∀ j, j_id (f j) = j_id j ∧ j_unit (f j) = j_unit j ∧ j_type (f j) = j_type j ∧ j_state (f j) = j_state j ∧
    j_installed (f j) = j_installed j ∧ j_in_run_queue (f j) = j_in_run_queue j ∧
    j_in_dbus_queue (f j) = j_in_dbus_queue j ∧ j_in_gc_queue (f j) = j_in_gc_queue j) →
  let t' := set_m (modify_job r f (tr_m t)) t in over m0 t' ∧ grows 0 t t' ∧ ∀ x, type_of t' x = type_of t x.
Proof.
  intros V Hr Hf t'. pose proof (v_wf m0 t V) as W. destruct (w_member ∅ t W u r Hr) as (_ & rb & Er & P).
  destruct (Hf rb) as (H1 & H2 & H3 & H4 & H5 & H6 & H7 & H8).
  assert (∀ x, objects (tr_m t') !! x = if decide (r = x) then f <$> objects (tr_m t) !! x else objects (tr_m t) !! x) as HO by (intros x; cbn; rewrite lookup_alter; by case_decide; subst).
  assert (∀ x, j_id <$> objects (tr_m t') !! x = j_id <$> objects (tr_m t) !! x) as Hid.
  { intros x. rewrite HO. case_decide; [subst x; rewrite Er; cbn; by rewrite H1|done]. }
  assert (∀ x xb, objects (tr_m t') !! x = Some xb → ∃ xb0, objects (tr_m t) !! x = Some xb0 ∧ j_id xb = j_id xb0) as Hid'.
  { intros x xb E. specialize (Hid x). rewrite E in Hid. destruct (objects (tr_m t) !! x) as [xb0|]; [|done]. injection Hid as Hid. by exists xb0. }
  assert (∀ x, type_of t' x = type_of t x) as ET.
  { intros x. unfold type_of. rewrite HO. case_decide; [subst x; rewrite Er; cbn; by rewrite H3|done]. }
  assert (work t' = work t) as Ew.
  { apply Nat.le_antisymm; apply work_mono; try done; intros v c; apply has_mono; intros x; by rewrite ET. }
  assert (size (objects (tr_m t')) = size (objects (tr_m t))) as Es.
  { rewrite <- !size_dom. f_equal. apply dom_alter_L. }
  split; [|split; [|done]].
  - destruct V. split; try done.
    + destruct W. split; try done.
      * apply (planned_modify_consistent _ r rb); [done|done|apply P|try done..]. rewrite H5. apply P.
      * intros v x Hx. destruct (w_member v x Hx) as (Hd & xb & Ex & Px). split; [done|]. rewrite HO. case_decide; [|by exists xb].
        subst x. exists (f rb). rewrite Er in *. split; [done|]. injection Ex as <-. unfold planned in *. by rewrite H2, H3, H4, H5.
      * intros x xb Hx. rewrite HO. case_decide; [|by apply w_unit]. subst x. rewrite Er. intros [= <-]. rewrite H2. by apply (w_unit r).
    + intros x Hx. rewrite HO, decide_False; [by apply v_outside0|]. intros <-. apply Hx. by exists u.
    + intros x xb Ex. destruct (Hid' x xb Ex) as (xb0 & E0 & ->). by apply v_ids0 in E0.
    + intros x y xb yb Ex Ey. destruct (Hid' x xb Ex) as (xb0 & Ex0 & ->), (Hid' y yb Ey) as (yb0 & Ey0 & ->). by apply (v_unique0 x y).
  - split; rewrite ?Ew, ?Es; try done; try lia.
    change (current_job_id (tr_m t')) with (current_job_id (tr_m t)). lia.
Qed.
