(* ===== verification/TransactionCollect.v ===== *)
(** * systemd: the dependencies of the jobs of a transaction

    [transaction_add_job_and_dependencies] ends for every graph of dependencies,
    circles included: each call that makes a new job uses up work, and work bounds
    the recursion. What a new job needs directly is in the transaction when the
    call succeeds. *)

From S2P Require Import Prelude Outcome JobMerge Job JobProps JobFinish Transaction TransactionProps TransactionMarks TransactionOrder TransactionSteps TransactionMerge TransactionApply TransactionActivate TransactionAdd.

#[local] Open Scope Z_scope.
#[local] Set Warnings "-clear-no-such-hyp".

Section Collect.
Context `{TransactionEnv} `{!LawfulMemory} (m0 : Manager) (Hknown : known_units m0).

(** ** Specifications of what adds jobs *)

(** [f] adds jobs for job [s] and uses up at most [k] numbers that no work pays
    for; [E] says which errors it has, [Q] what holds when it succeeds. *)
Definition adds (s n k : nat) (E : Z → Transaction → Prop) (Q : Transaction → Prop) (f : Transaction → outcome (Z * Transaction)) : Prop :=
  ∀ t, over m0 t → member t s → (work t < n)%nat → room (Z.of_nat k) t →
  ∃ r t', f t = Ret (r, t') ∧ over m0 t' ∧ grows (Z.of_nat k) t t' ∧ anchor_job t' = anchor_job t ∧
    (no_nops t → no_nops t') ∧ (r < 0 ∧ E r t' ∨ r = 0 ∧ Q t').

(** What more jobs and links do not undo. *)
Definition lasting (Q : Transaction → Prop) : Prop := ∀ k t t', grows k t t' → Q t → Q t'.

Lemma adds_ret s n E : adds s n 0 E (λ _, True) (λ t, Ret (0, t)).
Proof. intros t V Ms Hn R. exists 0, t. split; [done|]. split; [done|]. split; [apply grows_refl|]. auto. Qed.

Lemma adds_weaken s n k k' E (Q Q' : Transaction → Prop) f : adds s n k E Q f → (k ≤ k')%nat → (∀ t, Q t → Q' t) → adds s n k' E Q' f.
Proof.
  intros A Hk HQ t V Ms Hn R. destruct (A t V Ms Hn) as (r & t' & Ef & V' & G & Ea & Hc & Hr); [by apply (room_weaken _ (Z.of_nat k')); [lia|]|].
  exists r, t'. split; [done|]. split; [done|]. split; [by apply (grows_weaken (Z.of_nat k)); [|lia]|]. split; [done|]. split; [done|].
  destruct Hr as [|[? ?]]; auto.
Qed.

Lemma adds_then s n k1 k2 E Q1 Q2 f g : adds s n k1 E Q1 f → lasting Q1 → adds s n k2 E Q2 g →
  adds s n (k1 + k2) E (λ t, Q1 t ∧ Q2 t) (λ t, and_then (f t) g).
Proof.
  intros A1 L A2 t V Ms Hn R. rewrite Nat2Z.inj_add in *.
  destruct (A1 t V Ms Hn) as (r & t1 & Ef & V1 & G1 & Ea1 & Hc1 & Hr); [by apply (room_weaken _ (Z.of_nat k1 + Z.of_nat k2)); [lia|]|].
  unfold and_then. rewrite Ef. cbn. destruct Hr as [[Hr HE]|[-> HQ]].
  - rewrite (proj2 (Z.ltb_lt r 0) Hr). exists r, t1. split; [done|]. split; [done|].
    split; [by apply (grows_weaken (Z.of_nat k1)); [|lia]|]. auto.
  - cbn. destruct (A2 t1 V1) as (r & t2 & -> & V2 & G2 & Ea2 & Hc2 & Hr).
    + by apply (grows_member _ t t1 s G1).
    + pose proof (g_work _ _ _ G1). lia.
    + by apply (room_grows _ _ _ _ G1).
    + exists r, t2. split; [done|]. split; [done|]. split; [by apply (grows_trans _ _ _ _ _ G1 G2)|]. split; [congruence|]. split; [auto|].
      destruct Hr as [?|[-> ?]]; [by left|right]. split; [done|]. split; [by apply (L _ _ _ G2)|done].
Qed.

(** A dependency that has no such job. *)
Definition inapplicable (v : nat) (ty : JobType) : Prop :=
  unit_job_is_applicable v ty = false ∨ bus_unit_validate_load_state v = - EBADR.

(** A unit that is given no such job: it is not loaded, or not well, or the type
    is not for it. *)
Definition turned_away (v : nat) (ty : JobType) : Prop :=
  u_load_state_ok v = false ∨ ty ≠ JOB_STOP ∧ bus_unit_validate_load_state v < 0 ∨ unit_job_is_applicable v ty = false.

(** No allocation fails. *)
Definition plenty : Prop := ∀ t, is_Some (malloc_job t) ∧ is_Some (malloc_link t) ∧ hashmap_put_ok t = true.

Lemma adds_list s n E (Q : nat → Transaction → Prop) f l : (∀ v, lasting (Q v)) →
  (∀ v, v ∈ l → adds s n 1 E (Q v) (f v)) →
  adds s n (length l) E (λ t, ∀ v, v ∈ l → Q v t) (until_error f l).
Proof.
  intros HL. induction l as [|v l IH]; intros HA.
  - apply (adds_weaken _ _ 0 _ _ (λ _, True)); [apply adds_ret|done|]. by intros t _ v ?%not_elem_of_nil.
  - change (length (v :: l)) with (1 + length l)%nat. change (until_error f (v :: l)) with (λ t, and_then (f v t) (until_error f l)).
    apply (adds_weaken _ _ (1 + length l) _ _ (λ t, Q v t ∧ ∀ w, w ∈ l → Q w t)); [|done|].
    + apply adds_then; [apply HA; left|apply HL|]. apply IH. intros w Hw. apply HA. by right.
    + intros t [H1 H2] w [->|Hw]%elem_of_cons; auto.
Qed.

Lemma adds_required s n (Q : nat → Transaction → Prop) (X : nat → Prop) add l : (∀ v, lasting (Q v)) →
  (∀ v, v ∈ l → adds s n 1 (λ r _, r = - EBADR → X v) (Q v) (add v)) →
  adds s n (length l) (λ r _, r ≠ - EBADR) (λ t, ∀ v, v ∈ l → Q v t ∨ X v) (required add l).
Proof.
  intros HL HA. unfold required. apply (adds_list s n _ (λ v t, Q v t ∨ X v)).
  - intros v k t t' G [?|?]; [left; by apply (HL v k t)|by right].
  - intros v Hv t V Ms Hn R. destruct (HA v Hv t V Ms Hn R) as (r & t' & -> & V' & G & Ea & Hc & Hr). cbn.
    eexists _, t'. split; [done|]. split; [done|]. split; [done|]. split; [done|]. split; [done|].
    destruct Hr as [[Hr HE]|[-> ?]]; [|by right; auto]. destruct (r =? - EBADR) eqn:Er; [apply Z.eqb_eq in Er; by right; auto|].
    apply Z.eqb_neq in Er. by left.
Qed.

Lemma adds_optional s n (Er : nat → Z → Transaction → Prop) (Q : nat → Transaction → Prop) add l : (∀ v, lasting (Q v)) →
  (∀ v r, lasting (Er v r)) → (∀ v, v ∈ l → adds s n 1 (Er v) (Q v) (add v)) →
  adds s n (length l) (λ r _, r ≠ - EBADR) (λ t, ∀ v, v ∈ l → Q v t ∨ ∃ r, Er v r t) (optional add l).
Proof.
  intros HQ HE HA. unfold optional. apply (adds_list s n _ (λ v t, Q v t ∨ ∃ r, Er v r t)).
  - intros v k t t' G [?|[r ?]]; [left; by apply (HQ v k t)|right; exists r; by apply (HE v r k t)].
  - intros v Hv t V Ms Hn R. destruct (HA v Hv t V Ms Hn R) as (r & t' & -> & V' & G & Ea & Hc & Hr). cbn.
    exists 0, t'. split; [done|]. split; [done|]. split; [done|]. split; [done|]. split; [done|]. right. split; [done|].
    destruct Hr as [[_ ?]|[_ ?]]; [right; by exists r|by left].
Qed.

(** ** The dependencies of a job *)

(** Job [s] has a link to the job of the type for unit [v]. *)
Definition pulled (s : nat) (ms cs : bool) (ty : JobType) (v : nat) (t : Transaction) : Prop :=
  ∃ y l, y ∈ list_of t v ∧ type_of t y = ty ∧ links t !! l = Some (mk_dep (Some s) y ms cs).

Lemma pulled_lasting s ms cs ty v : lasting (pulled s ms cs ty v).
Proof.
  intros k t t' G (y & l & Hy & Ey & El). destruct (g_list k t t' G v y Hy) as [Hy' Ey']. exists y, l.
  split; [done|]. split; [congruence|]. by apply (lookup_weaken _ _ _ _ El), (g_links k t t' G).
Qed.

(** What an added job is: it is there and linked, even when its own dependencies
    could not be added, unless the unit is turned away or memory is short. *)
Definition tried (s : nat) (ms cs : bool) (ty : JobType) (t : Transaction) (v : nat) : Prop :=
  plenty → pulled s ms cs ty v t ∨ turned_away v ty.

Definition add_error (s : nat) (ms cs : bool) (ty : JobType) (v : nat) (r : Z) (t : Transaction) : Prop :=
  (r = - EBADR → inapplicable v ty) ∧ tried s ms cs ty t v.

(** What a job of the type needs: for each dependency a job, unless the unit can
    have none; and what it wants. *)
Definition got (s : nat) (cs : bool) (ty : JobType) (t : Transaction) (v : nat) : Prop := pulled s true cs ty v t ∨ inapplicable v ty.

Definition propagated (s : nat) (ptype : JobType) (t : Transaction) (v : nat) : Prop :=
  ∀ V, units m0 !! v = Some V → job_type_collapse ptype (u_active_state V) = JOB_NOP ∨
    got s false (job_type_collapse ptype (u_active_state V)) t v.

Definition reloaded (s : nat) (t : Transaction) (v : nat) : Prop :=
  ∀ V, units m0 !! v = Some V → job_type_collapse JOB_TRY_RELOAD (u_active_state V) = JOB_NOP ∨
    tried s false false (job_type_collapse JOB_TRY_RELOAD (u_active_state V)) t v.

Definition fetched (s : nat) (ty : JobType) (u : nat) (U : Unit) (t : Transaction) : Prop :=
  Forall (tried s false false ty t) (u_following_set u) ∧
  (ty = JOB_START ∨ ty = JOB_RESTART →
    Forall (got s false JOB_START t) (u_requires u ++ u_binds_to u) ∧ Forall (tried s false false JOB_START t) (u_wants u) ∧
    Forall (got s false JOB_VERIFY_ACTIVE t) (u_requisite u) ∧ Forall (got s true JOB_STOP t) (u_conflicts u) ∧
    Forall (tried s false false JOB_STOP t) (u_conflicted_by U)) ∧
  (ty = JOB_STOP ∨ ty = JOB_RESTART →
    Forall (propagated s (if decide (ty = JOB_RESTART) then JOB_TRY_RESTART else ty) t)
      (u_required_by U ++ u_requisite_of U ++ u_bound_by U ++ u_consists_of u)) ∧
  (ty = JOB_RELOAD → Forall (reloaded s t) (u_propagates_reload_to u)).

Lemma got_lasting s cs ty v : lasting (λ t, got s cs ty t v).
Proof. intros k t t' G [?|?]; [left; by apply (pulled_lasting _ _ _ _ _ k t)|by right]. Qed.

Lemma tried_lasting s ms cs ty v : lasting (λ t, tried s ms cs ty t v).
Proof. intros k t t' G HT HP. destruct (HT HP); [left; by apply (pulled_lasting _ _ _ _ _ k t)|by right]. Qed.

Lemma propagated_lasting s ty v : lasting (λ t, propagated s ty t v).
Proof. intros k t t' G HV V EV. destruct (HV V EV); [by left|right]. by apply (got_lasting _ _ _ _ k t). Qed.

Lemma reloaded_lasting s v : lasting (λ t, reloaded s t v).
Proof. intros k t t' G HV V EV. destruct (HV V EV); [by left|right]. by apply (tried_lasting _ _ _ _ _ k t). Qed.

Lemma Forall_lasting (P : Transaction → nat → Prop) l : (∀ v, lasting (λ t, P t v)) → lasting (λ t, Forall (P t) l).
Proof. intros HP k t t' G HF. eapply Forall_impl; [exact HF|]. intros v. by apply (HP v k). Qed.

Lemma and_lasting P Q : lasting P → lasting Q → lasting (λ t, P t ∧ Q t).
Proof. intros HP HQ k t t' G [? ?]. split; [by apply (HP k t)|by apply (HQ k t)]. Qed.

Lemma impl_lasting (B : Prop) P : lasting P → lasting (λ t, B → P t).
Proof. intros HP k t t' G HQ Hb. by apply (HP k t), HQ. Qed.

#[local] Ltac lasting := cbv beta; repeat lazymatch goal with
  | |- lasting (λ t, @?P t ∧ @?Q t) => apply (and_lasting P Q)
  | |- lasting (λ t, Forall _ _) => apply Forall_lasting; intros
  | |- lasting (λ t, ?B → @?P t) => apply (impl_lasting B P)
  end; solve [done | apply got_lasting | apply tried_lasting | apply propagated_lasting | apply reloaded_lasting].

Lemma fetched_lasting s ty u U : lasting (fetched s ty u U).
Proof. unfold fetched. lasting. Qed.

Lemma adds_collapsed s n ms ptype add v : is_Some (units m0 !! v) →
  (∀ ty, ty ≠ JOB_NOP → ty = job_type_collapse ptype (default UNIT_ACTIVE (u_active_state <$> units m0 !! v)) →
    adds s n 1 (add_error s ms false ty v) (pulled s ms false ty v) (add ty v)) →
  adds s n 1 (λ r t, ∀ V, units m0 !! v = Some V → add_error s ms false (job_type_collapse ptype (u_active_state V)) v r t)
    (λ t, ∀ V, units m0 !! v = Some V → job_type_collapse ptype (u_active_state V) = JOB_NOP ∨
       pulled s ms false (job_type_collapse ptype (u_active_state V)) v t) (add_collapsed add ptype v).
Proof.
  intros [V EV] HA t Vt Ms Hn R. unfold add_collapsed, get_unit. rewrite (over_units m0 t Vt), EV in *. cbn in *. case_decide as Ht.
  - exists 0, t. split; [done|]. split; [done|]. split; [apply (grows_weaken 0); [apply grows_refl|done]|]. split; [done|]. split; [done|].
    right. split; [done|]. intros ? [= <-]. by left.
  - destruct (HA _ Ht eq_refl t Vt Ms Hn R) as (r & t' & E & V' & G & Ea & Hc & Hr). exists r, t'.
    split; [done|]. split; [done|]. split; [done|]. split; [done|]. split; [done|].
    destruct Hr as [[? HE]|[-> HQ]]; [left|right]; (split; [done|]); intros ? [= <-]; [done|by right].
Qed.

Lemma adds_error s n k (E E' : Z → Transaction → Prop) Q f : adds s n k E Q f → (∀ r t, E r t → E' r t) → adds s n k E' Q f.
Proof.
  intros A HE t V Ms Hn R. destruct (A t V Ms Hn R) as (r & t' & Ef & V' & G & Ea & Hc & Hr).
  exists r, t'. split; [done|]. split; [done|]. split; [done|]. split; [done|]. split; [done|].
  destruct Hr as [[? ?]|?]; [left; auto|by right].
Qed.

Section Groups.
Context (s n : nat) (add : bool → bool → JobType → nat → Transaction → outcome (Z * Transaction)) (u : nat) (U : Unit).
Context (EU : units m0 !! u = Some U).
Context (Hadd : ∀ ms cs ty v, ty ≠ JOB_NOP → in_transaction ty = true → is_Some (units m0 !! v) →
  adds s n 1 (add_error s ms cs ty v) (pulled s ms cs ty v) (add ms cs ty v)).

Lemma dep_known v : v ∈ all_deps u U → is_Some (units m0 !! v).
Proof. apply Hknown, EU. Qed.

#[local] Ltac members := let v := fresh in let Hv := fresh in intros v Hv; unfold all_deps; rewrite !elem_of_app; tauto.

Lemma required_ok cs ty l : ty ≠ JOB_NOP → in_transaction ty = true → (∀ v, v ∈ l → v ∈ all_deps u U) →
  adds s n (length l) (λ r _, r ≠ - EBADR) (λ t, Forall (got s cs ty t) l) (required (add true cs ty) l).
Proof.
  intros Hn Ht Hl. eapply adds_weaken; [apply (adds_required s n (pulled s true cs ty) (λ v, inapplicable v ty))|done|].
  - intros v. apply pulled_lasting.
  - intros v Hv. eapply adds_error; [apply Hadd; [done|done|by apply dep_known, Hl]|]. by intros r t [HE _].
  - intros t HQ. by apply Forall_forall.
Qed.

Lemma optional_ok ty l : ty ≠ JOB_NOP → in_transaction ty = true → (∀ v, v ∈ l → v ∈ all_deps u U) →
  adds s n (length l) (λ r _, r ≠ - EBADR) (λ t, Forall (tried s false false ty t) l) (optional (add false false ty) l).
Proof.
  intros Hn Ht Hl. eapply adds_weaken; [apply (adds_optional s n (λ v _ t, tried s false false ty t v) (pulled s false false ty))|done|].
  - intros v. apply pulled_lasting.
  - intros v r. apply tried_lasting.
  - intros v Hv. eapply adds_error; [apply Hadd; [done|done|by apply dep_known, Hl]|]. by intros r t [_ HE].
  - intros t HQ. apply Forall_forall. intros v Hv. destruct (HQ v Hv) as [?|[_ ?]]; [by left|done].
Qed.

Lemma collapse_ok ptype st : ptype = JOB_STOP ∨ ptype = JOB_TRY_RESTART ∨ ptype = JOB_TRY_RELOAD → in_transaction (job_type_collapse ptype st) = true.
Proof. by intros [->|[->| ->]]; destruct st. Qed.

Lemma propagate_ok ptype l : ptype = JOB_STOP ∨ ptype = JOB_TRY_RESTART → (∀ v, v ∈ l → v ∈ all_deps u U) →
  adds s n (length l) (λ r _, r ≠ - EBADR) (λ t, Forall (propagated s ptype t) l) (required (add_collapsed (add true false) ptype) l).
Proof.
  intros Hp Hl. eapply adds_weaken; [apply (adds_required s n
    (λ v t, ∀ V, units m0 !! v = Some V → job_type_collapse ptype (u_active_state V) = JOB_NOP ∨
       pulled s true false (job_type_collapse ptype (u_active_state V)) v t)
    (λ v, ∀ V, units m0 !! v = Some V → inapplicable v (job_type_collapse ptype (u_active_state V))))|done|].
  - intros v k t t' G HV V EV. destruct (HV V EV) as [?|?]; [by left|right]. by apply (pulled_lasting _ _ _ _ _ k t).
  - intros v Hv. eapply adds_error; [apply (adds_collapsed s n true ptype); [by apply dep_known, Hl|]|].
    + intros ty Hn ->. apply Hadd; [done| |by apply dep_known, Hl]. apply collapse_ok. tauto.
    + intros r t HE Er V EV. by apply (HE V EV).
  - intros t HQ. apply Forall_forall. intros v Hv V EV. unfold got. destruct (HQ v Hv) as [HV|HV]; [destruct (HV V EV)|]; auto.
Qed.

Lemma start_group_ok :
  adds s n (length (u_requires u ++ u_binds_to u ++ u_wants u ++ u_requisite u ++ u_conflicts u ++ u_conflicted_by U)) (λ r _, r ≠ - EBADR)
    (λ t, Forall (got s false JOB_START t) (u_requires u ++ u_binds_to u) ∧ Forall (tried s false false JOB_START t) (u_wants u) ∧
       Forall (got s false JOB_VERIFY_ACTIVE t) (u_requisite u) ∧ Forall (got s true JOB_STOP t) (u_conflicts u) ∧
       Forall (tried s false false JOB_STOP t) (u_conflicted_by U))
    (λ t, and_then (required (add true false JOB_START) (u_requires u) t) (λ t,
      and_then (required (add true false JOB_START) (u_binds_to u) t) (λ t,
      and_then (optional (add false false JOB_START) (u_wants u) t) (λ t,
      and_then (required (add true false JOB_VERIFY_ACTIVE) (u_requisite u) t) (λ t,
      and_then (required (add true true JOB_STOP) (u_conflicts u) t) (λ t,
      optional (add false false JOB_STOP) (u_conflicted_by U) t)))))).
Proof.
  rewrite !length_app. eapply adds_weaken; [|done|].
  - repeat (apply adds_then; [first [apply required_ok; [done|done|members]|apply optional_ok; [done|done|members]]|lasting|]).
    apply optional_ok; [done|done|members].
  - cbv beta. intros t. rewrite Forall_app. tauto.
Qed.

Lemma stop_group_ok ptype : ptype = JOB_STOP ∨ ptype = JOB_TRY_RESTART →
  adds s n (length (u_required_by U ++ u_requisite_of U ++ u_bound_by U ++ u_consists_of u)) (λ r _, r ≠ - EBADR)
    (λ t, Forall (propagated s ptype t) (u_required_by U ++ u_requisite_of U ++ u_bound_by U ++ u_consists_of u))
    (λ t, let propagate deps t := required (add_collapsed (add true false) ptype) deps t in
      and_then (propagate (u_required_by U) t) (λ t,
      and_then (propagate (u_requisite_of U) t) (λ t,
      and_then (propagate (u_bound_by U) t) (λ t,
      propagate (u_consists_of u) t)))).
Proof.
  intros Hp. cbv zeta. rewrite !length_app. eapply adds_weaken; [|done|].
  - repeat (apply adds_then; [apply propagate_ok; [done|members]|lasting|]). apply propagate_ok; [done|members].
  - cbv beta. intros t. rewrite !Forall_app. tauto.
Qed.

Lemma adds_if (b : bool) k E Q f : (b = true → adds s n k E Q f) → adds s n k E (λ t, b = true → Q t) (λ t, if b then f t else Ret (0, t)).
Proof.
  destruct b; intros HA; [eapply adds_weaken; [by apply HA|done|done]|]. eapply adds_weaken; [apply adds_ret|lia|done].
Qed.

Lemma reload_ok : adds s n (length (u_propagates_reload_to u)) (λ r _, r ≠ - EBADR) (λ t, Forall (reloaded s t) (u_propagates_reload_to u))
  (λ t, '(_, t) ← transaction_add_propagate_reload_jobs (add false false) u t; Ret (0, t)).
Proof.
  assert (adds s n (length (u_propagates_reload_to u)) (λ r _, False) (λ t, Forall (reloaded s t) (u_propagates_reload_to u))
    (transaction_add_propagate_reload_jobs (add false false) u)) as A.
  { unfold transaction_add_propagate_reload_jobs, optional. 
    eapply adds_weaken; [apply (adds_list s n (λ _ _, False) (λ v t, reloaded s t v)); [apply reloaded_lasting|]|done|by intros t HQ; apply Forall_forall].
    intros v Hv t V Ms Hn R. assert (is_Some (units m0 !! v)) as HV by (apply dep_known; revert v Hv; members).
    destruct (adds_collapsed s n false JOB_TRY_RELOAD (add false false) v HV) with t as (r & t' & -> & V' & G & Ea & Hc & Hr); try done.
    { intros ty Hn' ->. apply Hadd; [done|apply collapse_ok; tauto|done]. }
    cbn. exists 0, t'. split; [done|]. split; [done|]. split; [done|]. split; [done|]. split; [done|]. right. split; [done|].
    intros W EW. destruct Hr as [[_ HE]|[_ HQ]]; [right; by apply (HE W EW)|]. destruct (HQ W EW); [by left|right; by left]. }
  intros t V Ms Hn R. destruct (A t V Ms Hn R) as (r & t' & -> & V' & G & Ea & Hc & Hr). cbn. exists 0, t'.
  destruct Hr as [[_ []]|[_ HQ]]. auto 10.
Qed.

Lemma dependencies_ok ty : ty ≠ JOB_NOP → in_transaction ty = true →
  adds s n (length (all_deps u U)) (λ r _, r ≠ - EBADR) (fetched s ty u U) (add_dependencies add ty u U).
Proof.
  intros Hn Ht. eapply adds_weaken; [unfold add_dependencies| |].
  - apply adds_then; [apply optional_ok; [done|done|members]|lasting|].
    apply adds_then; [apply adds_if; intros _; apply start_group_ok|lasting|].
    apply adds_then; [apply (adds_if (bool_decide (ty = JOB_STOP) || bool_decide (ty = JOB_RESTART))); intros Hb;
        apply (stop_group_ok (if decide (ty = JOB_RESTART) then JOB_TRY_RESTART else ty))|lasting|].
    + destruct (decide (ty = JOB_RESTART)); [by right|left]. rewrite orb_true_iff, !bool_decide_eq_true in Hb. tauto.
    + instantiate (2 := length (u_propagates_reload_to u)).
      instantiate (1 := λ t, ty = JOB_RELOAD → Forall (reloaded s t) (u_propagates_reload_to u)). cbv beta.
      case_decide; [eapply adds_weaken; [apply reload_ok|done|done]|]. eapply adds_weaken; [apply adds_ret|lia|done].
  - unfold all_deps. rewrite !length_app. lia.
  - cbv beta. intros t (F0 & F1 & F2 & F3). rewrite !orb_true_iff, !bool_decide_eq_true in F1, F2. by split_and!.
Qed.

End Groups.

(** ** A job with its dependencies *)

Lemma add_one_ok t ty v V : over m0 t → units m0 !! v = Some V → in_transaction ty = true → room 1 t →
  ∃ res t', transaction_add_one_job ty v t = Ret (res, t') ∧ over m0 t' ∧ anchor_job t' = anchor_job t ∧
    (ty ≠ JOB_NOP → no_nops t → no_nops t') ∧ (∀ w, (length (list_of t' w) ≤ S (length (list_of t w)))%nat) ∧
    match res with
    | None => grows 1 t t' ∧ ¬ plenty
    | Some (y, false) => t' = t ∧ y ∈ list_of t v ∧ type_of t y = ty
    | Some (y, true) => grows (- Z.of_nat (length (all_deps v V))) t t' ∧ (work t' < work t)%nat ∧ y ∈ list_of t' v ∧ type_of t' y = ty
    end.
Proof.
  intros Vt EV Ht R. unfold transaction_add_one_job. fold (list_of t v).
  assert (units (tr_m t) !! v = Some V) as EV' by (by rewrite (over_units m0 t Vt)).
  destruct (find_type_ok m0 t v ty (list_of t v) Vt) as [(x & -> & Hx & Ex)|[-> Hn]]; [done| |]; cbn [mbind outcome_bind].
  { exists (Some (x, false)), t. auto 10. }
  destruct (malloc_job t) as [r|] eqn:Er.
  2: { exists None, t. split; [done|]. split; [done|]. split; [done|]. split; [done|]. split; [auto|]. split; [apply (grows_weaken 0); [apply grows_refl|done]|].
       intros HP. destruct (HP t) as ([? ?] & _). congruence. }
  apply malloc_job_free in Er. destruct (hashmap_put_ok t) eqn:Ep.
  - destruct (put_new_ok m0 t r v V ty Vt Er EV' Ht Hn R) as (V' & G & Hw & Hr & Ety & Hc & Hl).
    eexists (Some (r, true)), _. split; [reflexivity|]. auto 10.
  - destruct (unput_ok m0 t r v ty Vt Er) as (t' & E & V' & G & Ea & Hc & Hl); [by exists V|done|done|].
    assert (¬ plenty) as HP by (intros HP; destruct (HP t) as (_ & _ & ?); congruence).
    exists None, t'. unfold with_new_job in E. cbn in E |- *. rewrite E. auto 10.
Qed.

(** A job with its fields set and linked to the one that pulls it in. *)
Lemma attach_ok t by_ y v ms cs iord : over m0 t → y ∈ list_of t v →
  match by_ with Some s => member t s | None => anchor_job t = None end →
  let t1 := set_m (modify_job y (λ j, set_flags (j_ignore_order j || iord) (j_irreversible j) j) (tr_m t)) t in
  ∃ r t', match by_ with
          | Some s =>
              Ret (match malloc_link t1 with
                   | None => (- ENOMEM, t1)
                   | Some l => (0, job_dependency_new l (Some s) y ms cs t1)
                   end)
          | None => require bool_decide (anchor_job t1 = None); Ret (0, set_anchor (Some y) t1)
          end = Ret (r, t') ∧ over m0 t' ∧ grows 0 t t' ∧ (by_ ≠ None → anchor_job t' = anchor_job t) ∧ (no_nops t → no_nops t') ∧
    (∀ w, list_of t' w = list_of t w) ∧ (r = - ENOMEM ∧ ¬ plenty ∨ r = 0 ∧ match by_ with Some s => ∃ l, links t' !! l = Some (mk_dep (Some s) y ms cs) | None => anchor_job t' = Some y end).
Proof.
  intros Vt Hy Hby t1. destruct (over_modify m0 t y (λ j, set_flags (j_ignore_order j || iord) (j_irreversible j) j) v) as (V1 & G1 & ET); [done|done|done|].
  fold t1 in V1, G1, ET. assert (no_nops t → no_nops t1) as Hc by (intros N u x Hx; rewrite ET; by apply (N u)).
  destruct by_ as [s|].
  - destruct (malloc_link t1) as [l|] eqn:El.
    + apply malloc_link_free in El. destruct (link_ok m0 t1 l s y ms cs v V1 El Hby Hy) as (V2 & G2 & El').
      eexists 0, _. split; [done|]. split; [done|]. split; [by apply (grows_trans 0 0 _ _ _ G1 G2)|]. split; [done|]. split; [done|]. split; [done|].
      right. split; [done|]. by exists l.
    + eexists (- ENOMEM), t1. split; [done|]. split; [done|]. split; [done|]. split; [done|]. split; [done|]. split; [done|]. left.
      split; [done|]. intros HP. destruct (HP t1) as (_ & [? ?] & _). congruence.
  - change (anchor_job t1) with (anchor_job t). rewrite Hby, bool_decide_true by done. cbn. eexists 0, (set_anchor (Some y) t1). split; [done|].
    split; [|split; [|split; [done|split; [done|split; [done|by right]]]]].
    + pose proof (v_wf m0 t1 V1) as W1. destruct V1. split; try done. by destruct W1; split.
    + destruct G1. by split.
Qed.

(** What a call for a job of the type for unit [v] with record [V] leaves:
    [by_] is the job that pulls it in, none for the anchor. *)
Definition added (by_ : option nat) (ty : JobType) (v : nat) (V : Unit) (ms cs ireq : bool) (t : Transaction) (r : Z) (t' : Transaction) : Prop :=
  over m0 t' ∧ grows 1 t t' ∧ (by_ ≠ None → anchor_job t' = anchor_job t) ∧ (ty ≠ JOB_NOP → no_nops t → no_nops t') ∧
  (ty = JOB_NOP → ∀ w, (length (list_of t' w) ≤ S (length (list_of t w)))%nat) ∧
  (r < 0 ∧ (∀ s, by_ = Some s → add_error s ms cs ty v r t') ∨
   r = 0 ∧ ∃ y, y ∈ list_of t' v ∧ type_of t' y = ty ∧
     match by_ with Some s => ∃ l, links t' !! l = Some (mk_dep (Some s) y ms cs) | None => anchor_job t' = Some y end ∧
     ((∀ x, x ∈ list_of t v → type_of t x ≠ ty) → ireq = false → ty ≠ JOB_NOP → fetched y ty v V t')).

Lemma added_error by_ ty v V ms cs ireq t r t' : over m0 t' → grows 1 t t' → (by_ ≠ None → anchor_job t' = anchor_job t) →
  (ty ≠ JOB_NOP → no_nops t → no_nops t') →
  (∀ w, (length (list_of t' w) ≤ S (length (list_of t w)))%nat) → r < 0 → (r = - EBADR → inapplicable v ty) → (plenty → turned_away v ty) →
  added by_ ty v V ms cs ireq t r t'.
Proof. intros ? ? ? ? ? ? HE HT. split; [done|]. split; [done|]. split; [done|]. split; [done|]. split; [done|]. left. split; [done|]. intros s _. split; [done|]. intros HP. right. auto. Qed.

Lemma add_body n by_ ty v V ms cs ireq iord t :
  (∀ s ms cs ty v, ty ≠ JOB_NOP → in_transaction ty = true → is_Some (units m0 !! v) →
    adds s n 1 (add_error s ms cs ty v) (pulled s ms cs ty v)
      (transaction_add_job_and_dependencies n ty v (Some s) ms cs false iord)) →
  over m0 t → units m0 !! v = Some V → in_transaction ty = true →
  match by_ with Some s => member t s | None => anchor_job t = None end → (work t ≤ n)%nat → room 1 t →
  ∃ r t', transaction_add_job_and_dependencies (S n) ty v by_ ms cs ireq iord t = Ret (r, t') ∧ added by_ ty v V ms cs ireq t r t'.
Proof.
  intros IH Vt EV Ht Hby Hw R. cbn [transaction_add_job_and_dependencies]. rewrite Ht. cbn [mbind outcome_bind].
  unfold get_unit. rewrite (over_units m0 t Vt), EV. cbn [lift mbind outcome_bind].
  assert (∀ r, r < 0 → (r = - EBADR → inapplicable v ty) → turned_away v ty → ∃ r' t', Ret (r, t) = Ret (r', t') ∧ added by_ ty v V ms cs ireq t r' t') as Hret.
  { intros r Hr HE HT. exists r, t. split; [done|]. apply added_error; try done; [apply (grows_weaken 0); [apply grows_refl|done]|auto]. }
  destruct (u_load_state_ok v) eqn:Eload; cbn [negb]; [|by apply Hret; [..|left]].
  destruct (negb _ && _) eqn:El.
  { apply andb_true_iff in El as [Hstop%negb_true_iff%bool_decide_eq_false El]. apply Z.ltb_lt in El.
    apply Hret; [done|intros Er; by right|right; by left]. }
  destruct (unit_job_is_applicable v ty) eqn:Eapp; cbn [negb]; [|apply Hret; [done|by left|by right; right]]. clear Hret El.
  destruct (add_one_ok t ty v V Vt EV Ht R) as (res & t1 & -> & V1 & Ea1 & Hc1 & Hl1 & Hres). cbn [mbind outcome_bind].
  destruct res as [[y new]|]; [|destruct Hres; exists (- ENOMEM), t1; split; [done|]; by apply added_error].
  assert (grows 0 t t1 ∧ y ∈ list_of t1 v ∧ type_of t1 y = ty) as (G1 & Hy & Ey).
  { destruct new; [destruct Hres as (G & _ & Hy); split; [apply (grows_weaken _ _ _ _ G); lia|done]|]. destruct Hres as (-> & Hy).
    split; [apply grows_refl|done]. }
  destruct (attach_ok t1 by_ y v ms cs iord V1 Hy) as (r & t2 & E2 & V2 & G2 & Ea2 & Hc2 & Hl2 & Hr).
  { destruct by_; [by apply (grows_member _ _ _ _ G1)|by rewrite Ea1]. }
  cbv zeta in E2. rewrite E2. cbn [mbind outcome_bind]. clear E2.
  pose proof (grows_trans _ _ _ _ _ G1 G2) as G12. destruct (g_list _ _ _ G2 v y Hy) as [Hy2 Ey2].
  destruct Hr as [[-> HP]|[-> Hr]].
  { exists (- ENOMEM), t2. split; [done|]. apply added_error; [done|by apply (grows_weaken (0 + 0))| |auto| |done|done|done].
    - intros Hb. by rewrite Ea2.
    - intros w. by rewrite Hl2. }
  change (0 <? 0) with false. cbv iota.
  destruct (new && negb ireq && negb (bool_decide (ty = JOB_NOP))) eqn:Enew.
  - rewrite !andb_true_iff, !negb_true_iff, bool_decide_eq_false in Enew. destruct Enew as [[-> ->] Hnop].
    destruct Hres as (Gn & Hwn & _). pose proof (grows_trans _ _ _ _ _ Gn G2) as Gn2.
    destruct (dependencies_ok y n (λ ms cs ty dep t, transaction_add_job_and_dependencies n ty dep (Some y) ms cs false iord t)
      v V EV (IH y) ty Hnop Ht t2 V2) as (r & t3 & E3 & V3 & G3 & Ea3 & Hc3 & Hr3).
    + by exists v.
    + pose proof (g_work _ _ _ G2). lia.
    + destruct R. destruct Gn2. split; lia.
    + rewrite E3. exists r, t3. split; [done|]. split; [done|].
      split; [apply (grows_weaken _ _ _ _ (grows_trans _ _ _ _ _ Gn2 G3)); lia|].
      split; [intros Hb; rewrite Ea3, Ea2 by done; done|]. split; [auto|]. split; [done|]. destruct (g_list _ _ _ G3 v y Hy2) as [Hy3 Ey3].
      assert (∀ s, by_ = Some s → ∃ l, links t3 !! l = Some (mk_dep (Some s) y ms cs)) as Hlink.
      { intros s ->. destruct Hr as [l El]. exists l. by apply (lookup_weaken _ _ _ _ El), (g_links _ _ _ G3). }
      destruct Hr3 as [[Hr3 HE]|[-> HQ]]; [left; split; [done|]|right].
      { intros s Es. split; [done|]. intros _. left. destruct (Hlink s Es) as [l El]. exists y, l. split; [done|]. split; [congruence|done]. }
      split; [done|]. exists y. split; [done|]. split; [congruence|]. split; [|auto].
      destruct by_; [by apply Hlink|by rewrite Ea3].
  - exists 0, t2. split; [done|]. split; [done|]. split; [by apply (grows_weaken (0 + 0))|].
    split; [intros Hb; rewrite Ea2 by done; done|]. split; [auto|].
    split; [intros _ w; by rewrite Hl2|]. right. split; [done|]. exists y. split; [done|]. split; [congruence|].
    split; [done|]. intros Hn -> Hnop. destruct new.
    + by rewrite bool_decide_false in Enew.
    + destruct Hres as (-> & Hy' & Ety). by destruct (Hn y Hy').
Qed.

Lemma add_ok n : ∀ s ms cs iord ty v, ty ≠ JOB_NOP → in_transaction ty = true → is_Some (units m0 !! v) →
  adds s n 1 (add_error s ms cs ty v) (pulled s ms cs ty v)
    (transaction_add_job_and_dependencies n ty v (Some s) ms cs false iord).
Proof.
  induction n as [|n IH]; intros s ms cs iord ty v Hn Ht [V EV] t Vt Ms Hw R; [lia|].
  destruct (add_body n (Some s) ty v V ms cs false iord t) as (r & t' & E & V' & G & Ea & Hc & _ & Hr); try done; [auto|lia|].
  exists r, t'. split; [done|]. split; [done|]. split; [done|]. split; [auto|]. split; [auto|].
  destruct Hr as [[? ?]|(-> & y & Hy & Ey & [l El] & _)]; [left; auto|right]. split; [done|]. by exists y, l.
Qed.

End Collect.
