(* ===== verification/TransactionSystem.v ===== *)
(** * systemd: requests

    [manager_add_job] with all that it calls: the transaction is collected,
    cleaned up and applied, or given up without a trace. *)

From S2P Require Import Prelude Outcome JobMerge Job JobProps JobFinish Transaction TransactionProps TransactionMarks TransactionOrder TransactionSteps TransactionMerge TransactionApply TransactionActivate TransactionAdd TransactionCollect.

#[local] Open Scope Z_scope.
#[local] Set Warnings "-clear-no-such-hyp".

(** ** Managers that take requests *)

Record settled `{TransactionEnv} (m : Manager) : Prop := {
  s_consistent : consistent m;
  s_table : table_installed m;
  s_unique : unique_ids m;
  s_ids : ∀ x jb, objects m !! x = Some jb → j_id jb < current_job_id m;
  s_next : 0 ≤ current_job_id m;
  s_known : known_units m;
  s_triggered : ∀ u v, v ∈ u_triggered_by u → is_Some (units m !! v) }.

(** The pairs of a unit and a type, weighted: an upper bound of the calls. *)
Definition total_work `{TransactionEnv} (m : Manager) : nat := work (empty_transaction m false).

(** [all_units] goes over the units of the manager. *)
Class LawfulUnits `{TransactionEnv} : Prop := {
  all_units_spec m u : u ∈ all_units m → is_Some (units m !! u);
  all_units_few m : (length (all_units m) ≤ size (units m))%nat }.

(** Numbers for the jobs of one request. *)
Definition spacious `{TransactionEnv} (u : nat) (m : Manager) : Prop :=
  current_job_id m + Z.of_nat (total_work m) + 1 + Z.of_nat (size (units m)) + Z.of_nat (length (u_triggered_by u)) < 2 ^ 32 ∧
  Z.of_nat (size (objects m) + total_work m) + 8 < 2 ^ 32.

(** Nothing but the number for the next job has changed. *)
Definition untouched (m m' : Manager) : Prop := objects m' = objects m ∧ shell m' = shell m.

Section System.
Context `{LawfulTransaction} `{!LawfulEnv} `{!LawfulMemory} `{!LawfulUnits}.

Lemma new_no_jobs m irr u x : x ∈ list_of (empty_transaction m irr) u → False.
Proof. unfold list_of. cbn. rewrite lookup_empty. apply not_elem_of_nil. Qed.

Lemma over_new m irr : settled m → over m (empty_transaction m irr).
Proof.
  intros [C T Un Hi Hn K Tr]. assert (∀ x, ¬ member (empty_transaction m irr) x) as HM by (by intros x [u ?%new_no_jobs]).
  split; try done; [|intros x Hx; by destruct (HM x)].
  split; try done; unfold list_of, info; cbn; try (intros; set_solver).
  - intros u. rewrite lookup_empty. constructor.
  - intros x xb [Hx|Hx]; [set_solver|by destruct (HM x)].
  - intros x [Hx|Hx]; [set_solver|by destruct (HM x)].
  - intros x. rewrite lookup_empty. split; constructor.
Qed.

Lemma work_new m irr : work (empty_transaction m irr) = total_work m.
Proof. done. Qed.

(** The anchor of a request. *)
Lemma anchor_ok fuel ty u U ireq iord irr m : settled m → units m !! u = Some U → in_transaction ty = true →
  (total_work m < fuel)%nat → spacious u m →
  ∃ r t', transaction_add_job_and_dependencies fuel ty u None true false ireq iord (empty_transaction m irr) = Ret (r, t') ∧
    added m None ty u U true false ireq (empty_transaction m irr) r t' ∧
    room (Z.of_nat (size (units m) + length (u_triggered_by u))) t' ∧ (work t' < fuel)%nat.
Proof.
  intros S EU Ht Hf [R1 R2]. destruct fuel as [|n]; [lia|].
  destruct (add_body m (s_known m S) n None ty u U true false ireq iord (empty_transaction m irr)) as (r & t' & E & A).
  - intros s ms cs ty' v. by apply (add_ok m (s_known m S)).
  - by apply over_new.
  - done.
  - done.
  - done.
  - rewrite work_new. lia.
  - split; rewrite work_new; cbn; lia.
  - exists r, t'. split; [done|]. split; [done|]. pose proof A as (V & G & _). split; [|destruct G; rewrite work_new in *; lia].
    apply (room_grows 1 _ _ _ G). split; rewrite work_new; cbn; lia.
Qed.

(** C10. The collection for the anchor job returns for every graph of dependencies,
    circles included, when the fuel is more than the weighted number of pairs of
    a unit and a type. Nothing of the manager changes but the id for the next
    job: all jobs of the transaction are new and none is installed, and the graph
    is well-formed. When it succeeds the anchor is a job of the type for the unit;
    unless requirements are ignored, [fetched] says what it is linked to. For
    each unit of [Requires=], [BindsTo=], [Requisite=], [Conflicts=] (a link that
    conflicts) and each that a stop or restart goes on to there is a job of the
    right type, unless the type is not for that unit. For each unit of [Wants=],
    each of the following set, each that conflicts with the unit and each that a
    reload goes on to there is one with a link that does not matter, even if the
    dependencies of that job could not be added, unless the unit is turned away;
    this part is for memory that is never short ([plenty]). The manager is
    [settled], has all units that others name, and has ids and memory for the
    jobs ([spacious]); [malloc] gives free addresses. *)
Theorem transaction_add_job_correct (fuel : nat) (ty : JobType) (u : nat) (U : Unit) (ireq iord irr : bool) (m : Manager) :
  settled m → units m !! u = Some U → in_transaction ty = true → (total_work m < fuel)%nat → spacious u m →
  ∃ r t', transaction_add_job_and_dependencies fuel ty u None true false ireq iord (empty_transaction m irr) = Ret (r, t') ∧
    over m t' ∧
    (r < 0 ∨ r = 0 ∧ ∃ y, anchor_job t' = Some y ∧ y ∈ list_of t' u ∧ type_of t' y = ty ∧
       (ireq = false → ty ≠ JOB_NOP → fetched m y ty u U t')).
Proof.
  intros S EU Ht Hf R. destruct (anchor_ok fuel ty u U ireq iord irr m S EU Ht Hf R) as (r & t' & E & (V & _ & _ & _ & _ & Hr) & _).
  exists r, t'. split; [done|]. split; [done|]. destruct Hr as [[? _]|(-> & y & Hy & Ey & Ea & HF)]; [by left|right].
  split; [done|]. exists y. split; [done|]. split; [done|]. split; [done|]. apply HF. by intros x ?%new_no_jobs.
Qed.

(** ** Giving up *)

(** What is given up is as if it had never been. *)
Lemma evolves_untouched m t t' : over m t → evolves t t' → tr_jobs t' = ∅ → untouched m (tr_m t').
Proof.
  intros V E Ej. assert (∀ x, ¬ member t' x) as HM.
  { intros x [u Hu]. unfold list_of in Hu. rewrite Ej, lookup_empty in Hu. by apply not_elem_of_nil in Hu. }
  split.
  - apply map_eq. intros x. destruct (member_dec ∅ t x (v_wf m t V)) as [Hx|Hx].
    + by rewrite (e_gone t t' E x Hx (HM x)), (v_new m t V x Hx).
    + by rewrite (e_outside t t' E x Hx), (v_outside m t V x Hx).
  - rewrite <- (v_shell m t V). apply (f_equal shell (e_rest t t' E)).
Qed.

Lemma give_up_ok m t t' (P : Prop) : over m t → wf ∅ t' → (P → evolves t t') →
  ∃ t'', transaction_abort t' = Ret t'' ∧ consistent (tr_m t'') ∧ (P → untouched m (tr_m t'')).
Proof.
  intros V W' HE. destruct (abort_ok t' W') as (t'' & Ea & E' & W'' & Ej). exists t''. split; [done|]. split; [apply W''|].
  intros HP. apply (evolves_untouched m t); [done| |done]. apply (evolves_trans t t'); auto.
Qed.

(** ** Stop jobs for the anchor *)

(** A transaction whose anchor is a job of it. *)
Record collected (m : Manager) (fuel k : nat) (t : Transaction) : Prop := {
  k_over : over m t;
  k_anchor : ∃ a, anchor_job t = Some a ∧ member t a;
  k_work : (work t < fuel)%nat;
  k_room : room (Z.of_nat k) t }.

Lemma add_stop_ok m fuel k u t : settled m → is_Some (units m !! u) → collected m fuel (S k) t → no_nops t →
  ∃ t', add_stop_job fuel u t = Ret t' ∧ collected m fuel k t' ∧ no_nops t' ∧ anchor_job t' = anchor_job t ∧ grows 1 t t'.
Proof.
  intros S HU K N. destruct K as [V (a & Ea & Ma) Hw R].
  assert (∃ t', Ret t = Ret t' ∧ collected m fuel k t' ∧ no_nops t' ∧ anchor_job t' = anchor_job t ∧ grows 1 t t') as Hskip.
  { exists t. split; [done|]. split; [|split; [done|split; [done|apply (grows_weaken 0); [apply grows_refl|done]]]].
    split; [done|by exists a|done|]. apply (room_weaken _ (Z.of_nat (Datatypes.S k))); [lia|done]. }
  unfold add_stop_job, get_unit. rewrite (over_units m t V). destruct HU as [U EU]. rewrite EU. cbn [lift mbind outcome_bind].
  destruct (_ && _); [done|]. destruct (first_job t u); [done|]. rewrite Ea.
  assert (is_Some (units m !! u)) as HU' by (by exists U).
  destruct (add_ok m (s_known m S) fuel a true false false JOB_STOP u ltac:(done) ltac:(done) HU' t V Ma Hw) as (r & t' & -> & V' & G & Ea' & Hc & _).
  { apply (room_weaken _ (Z.of_nat (Datatypes.S k))); [lia|done]. }
  cbn [mbind outcome_bind]. exists t'. split; [done|]. split; [|by rewrite Ea', Ea; auto].
  split; [done|exists a; rewrite Ea'; split; [done|by apply (grows_member _ _ _ _ G)]|pose proof (g_work _ _ _ G); lia|].
  apply (room_grows _ _ _ _ G). apply (room_weaken _ (Z.of_nat (Datatypes.S k))); [lia|done].
Qed.

Lemma stops_ok m fuel f l : settled m → (∀ u, u ∈ l → is_Some (units m !! u)) →
  (∀ u t, f u t = Ret t ∨ f u t = add_stop_job fuel u t) →
  ∀ k t, collected m fuel (length l + k) t → no_nops t →
  ∃ t', for_all f l t = Ret t' ∧ collected m fuel k t' ∧ no_nops t' ∧ anchor_job t' = anchor_job t ∧ grows (Z.of_nat (length l)) t t'.
Proof.
  intros S HU Hf. induction l as [|u l IH]; intros k t K N; cbn [for_all].
  { exists t. split; [done|]. split; [done|]. split; [done|]. split; [done|]. apply grows_refl. }
  assert (∃ t1, f u t = Ret t1 ∧ collected m fuel (length l + k) t1 ∧ no_nops t1 ∧ anchor_job t1 = anchor_job t ∧ grows 1 t t1) as (t1 & -> & K1 & N1 & Ea1 & G1).
  { destruct (Hf u t) as [-> | ->]; [|apply add_stop_ok; [done|apply HU; left|done|done]].
    exists t. split; [done|]. split; [|split; [done|split; [done|apply (grows_weaken 0); [apply grows_refl|done]]]].
    destruct K as [V A Hw R]. split; [done|done|done|]. apply (room_weaken _ (Z.of_nat (length (u :: l) + k))); [cbn; lia|done]. }
  cbn [mbind outcome_bind]. destruct (IH (λ v Hv, HU v (list_elem_of_further _ _ _ Hv)) k t1 K1 N1) as (t2 & -> & K2 & N2 & Ea2 & G2).
  exists t2. split; [done|]. split; [done|]. split; [done|]. split; [congruence|].
  apply (grows_weaken _ _ _ _ (grows_trans _ _ _ _ _ G1 G2)). cbn. lia.
Qed.

Lemma no_nops_alone t : no_nops t → nops_alone t.
Proof. intros N u x jb Hx Ex Ht. destruct (N u x Hx). by rewrite (type_of_some t x jb Ex). Qed.

Lemma short_alone t : (∀ u, (length (list_of t u) ≤ 1)%nat) → nops_alone t.
Proof. intros HS u x jb Hx _ _. specialize (HS u). destruct (list_of t u) as [|y [|]]; [by apply not_elem_of_nil in Hx| |cbn in HS; lia]. by apply list_elem_of_singleton in Hx as ->. Qed.

(** ** Requests *)

Lemma collapse_in_transaction ty st : in_transaction (job_type_collapse ty st) = true.
Proof. by destruct ty, st. Qed.

(** The jobs that the mode adds to those of the anchor. *)
Lemma extra_ok mode ty st m fuel u t : settled m → collected m fuel (size (units m) + length (u_triggered_by u)) t →
  (mode = JOB_ISOLATE → ty = JOB_START) → (mode = JOB_TRIGGERING → ty = JOB_STOP) →
  (job_type_collapse ty st ≠ JOB_NOP → no_nops t) → (job_type_collapse ty st = JOB_NOP → nops_alone t) →
  ∃ t', (t ← (if decide (mode = JOB_ISOLATE) then transaction_add_isolate_jobs fuel t else Ret t);
         if decide (mode = JOB_TRIGGERING) then transaction_add_triggering_jobs fuel u t else Ret t) = Ret t' ∧
    collected m fuel 0 t' ∧ nops_alone t' ∧ anchor_job t' = anchor_job t ∧
    grows (Z.of_nat (size (units m) + length (u_triggered_by u))) t t'.
Proof.
  intros S K Hi Htr N1 N2. assert (∀ n, grows (Z.of_nat n) t t) as Hrefl by (intros n; apply (grows_weaken 0); [apply grows_refl|lia]).
  assert (∀ k, (k ≤ size (units m) + length (u_triggered_by u))%nat → collected m fuel k t) as HK.
  { intros k Hk. destruct K as [V A Hw R]. split; [done|done|done|]. eapply room_weaken; [|exact R]. lia. }
  destruct (decide (mode = JOB_ISOLATE)) as [Em|Em];
    [subst mode; rewrite (Hi eq_refl) in *|destruct (decide (mode = JOB_TRIGGERING)) as [Em'|Em']].
  - assert (units (tr_m t) = units m) as EU by (apply over_units, K).
    destruct (stops_ok m fuel (λ u t, if u_ignore_on_isolate u then Ret t else add_stop_job fuel u t) (all_units (tr_m t)) S) with (k := 0%nat) (t := t)
      as (t' & E & K' & N' & Ea & G).
    + intros v Hv%all_units_spec. by rewrite EU in Hv.
    + intros v s. destruct (u_ignore_on_isolate v); auto.
    + apply HK. pose proof (all_units_few (tr_m t)). rewrite EU in *. lia.
    + by apply N1.
    + unfold transaction_add_isolate_jobs. rewrite E. exists t'. split; [done|]. split; [done|]. split; [by apply no_nops_alone|]. split; [done|].
      apply (grows_weaken _ _ _ _ G). pose proof (all_units_few (tr_m t)). rewrite EU in *. lia.
  - rewrite (Htr Em') in *. cbn [mbind outcome_bind].
    destruct (stops_ok m fuel (add_stop_job fuel) (u_triggered_by u) S) with (k := 0%nat) (t := t) as (t' & E & K' & N' & Ea & G).
    + apply (s_triggered m S).
    + auto.
    + apply HK. lia.
    + by apply N1.
    + unfold transaction_add_triggering_jobs. rewrite E. exists t'. split; [done|]. split; [done|]. split; [by apply no_nops_alone|]. split; [done|].
      apply (grows_weaken _ _ _ _ G). lia.
  - exists t. split; [done|]. split; [apply HK; lia|]. split; [|done]. destruct (decide (job_type_collapse ty st = JOB_NOP)); [auto|].
    apply no_nops_alone. auto.
Qed.

(** Why a request fails. *)
Definition request_error (fuel : nat) (ty : JobType) (u : nat) (mode : JobMode) (m : Manager) (r : Z) : Prop :=
  (r = - EINVAL ∧ (mode = JOB_ISOLATE ∧ ty ≠ JOB_START ∨ mode = JOB_TRIGGERING ∧ ty ≠ JOB_STOP)) ∨
  (r = - EPERM ∧ mode = JOB_ISOLATE ∧ u_allow_isolate u = false) ∨
  (∃ U ireq iord irr t, units m !! u = Some U ∧
    transaction_add_job_and_dependencies fuel (job_type_collapse ty (u_active_state U)) u None true false ireq iord
      (empty_transaction m irr) = Ret (r, t)) ∨
  r = - ENOMEM ∨ r = - EDEADLK ∧ ∃ t, over m t ∧ refused mode t.

(** What a request that succeeds has done: it has collected a transaction of new
    jobs whose anchor is for the unit, cleaned it up, and applied it. *)
Definition request_done (ty : JobType) (u : nat) (U : Unit) (mode : JobMode) (m : Manager) (a : option nat) (m' : Manager) : Prop :=
  ∃ t y t1 t', over m t ∧ anchor_job t = Some y ∧ y ∈ list_of t u ∧
    type_of t y = job_type_collapse ty (u_active_state U) ∧
    (mode ≠ JOB_IGNORE_DEPENDENCIES → mode ≠ JOB_IGNORE_REQUIREMENTS → type_of t y ≠ JOB_NOP → fetched m y (type_of t y) u U t) ∧
    ready mode t t1 ∧ transaction_apply mode t1 = Ret (0, t') ∧ a = anchor_job t' ∧ m' = tr_m t'.

(** A collected transaction is applied, or given up. *)
Lemma perform_ok mode m fuel t : quiet → fresh_reactions → settled m → collected m fuel 0 t → nops_alone t →
  ∃ r a m', ('(r, t) ← transaction_activate mode t;
             if r <? 0 then t ← transaction_abort t; Ret (r, None, tr_m t) else Ret (0, anchor_job t, tr_m t)) = Ret (r, a, m') ∧
    consistent m' ∧
    (r < 0 ∧ a = None ∧ (clears mode = false → untouched m m') ∧ (r = - ENOMEM ∨ r = - EDEADLK ∧ refused mode t) ∨
     r = 0 ∧ ∃ t1 t', ready mode t t1 ∧ transaction_apply mode t1 = Ret (0, t') ∧ a = anchor_job t' ∧ m' = tr_m t').
Proof.
  intros Hq Hf S [V (a & Eb & Ma) _ [_ R]] Na.
  destruct (activate_ok mode t a Hq Hf (v_wf m t V) (v_pristine m t V)) as (r & t2 & -> & Hr); try done.
  { apply (over_table m); [done|apply S]. }
  { apply (v_unique m t V). }
  { lia. }
  cbn [mbind outcome_bind]. destruct Hr as [(-> & Ej & C & t3 & Hrdy & E3)|(Hr & W2 & HE & Hwhy)].
  - change (0 <? 0) with false. cbv iota. exists 0, (anchor_job t2), (tr_m t2). split; [done|]. split; [done|]. right. split; [done|].
    by exists t3, t2.
  - rewrite (proj2 (Z.ltb_lt r 0) Hr). destruct (give_up_ok m t t2 (clears mode = false) V W2 HE) as (t' & -> & C & Hu).
    exists r, None, (tr_m t'). split; [done|]. split; [done|]. by left.
Qed.

Lemma add_job_ok fuel ty u U mode m : quiet → fresh_reactions → settled m → units m !! u = Some U →
  (total_work m < fuel)%nat → spacious u m →
  ∃ r a m', manager_add_job fuel ty u mode m = Ret (r, a, m') ∧ consistent m' ∧
    (r < 0 ∧ a = None ∧ (clears mode = false → untouched m m') ∧ request_error fuel ty u mode m r ∨
     r = 0 ∧ request_done ty u U mode m a m').
Proof.
  intros Hq Hf S EU Hw R. unfold manager_add_job.
  assert (∀ r, r < 0 → request_error fuel ty u mode m r → ∃ r' a m', Ret (r, None, m) = Ret (r', a, m') ∧ consistent m' ∧
    (r' < 0 ∧ a = None ∧ (clears mode = false → untouched m m') ∧ request_error fuel ty u mode m r' ∨
     r' = 0 ∧ request_done ty u U mode m a m')) as Hret.
  { intros r Hr HE. exists r, None, m. split; [done|]. split; [apply S|]. by left. }
  destruct (bool_decide (mode = JOB_ISOLATE) && negb (bool_decide (ty = JOB_START))) eqn:G1.
  { apply Hret; [done|]. left. split; [done|]. rewrite andb_true_iff, negb_true_iff, bool_decide_eq_true, bool_decide_eq_false in G1. tauto. }
  destruct (bool_decide (mode = JOB_ISOLATE) && negb (u_allow_isolate u)) eqn:G2.
  { apply Hret; [done|]. right; left. split; [done|]. rewrite andb_true_iff, negb_true_iff, bool_decide_eq_true in G2. tauto. }
  destruct (bool_decide (mode = JOB_TRIGGERING) && negb (bool_decide (ty = JOB_STOP))) eqn:G3.
  { apply Hret; [done|]. left. split; [done|]. rewrite andb_true_iff, negb_true_iff, bool_decide_eq_true, bool_decide_eq_false in G3. tauto. }
  clear Hret. rewrite EU. cbn [lift mbind outcome_bind]. cbv zeta. set (ty' := job_type_collapse ty (u_active_state U)).
  set (ireq := bool_decide (mode = JOB_IGNORE_DEPENDENCIES) || bool_decide (mode = JOB_IGNORE_REQUIREMENTS)).
  set (irr := bool_decide (mode = JOB_REPLACE_IRREVERSIBLY)). set (iord := bool_decide (mode = JOB_IGNORE_DEPENDENCIES)).
  unfold transaction_new. destruct (transaction_alloc_ok m).
  2: { exists (- ENOMEM), None, m. split; [done|]. split; [apply S|]. left. split; [done|]. split; [done|]. split; [done|].
       right; right; right. by left. }
  destruct (anchor_ok fuel ty' u U ireq iord irr m S EU (collapse_in_transaction _ _) Hw R)
    as (r & t & E & (V & G & _ & N1 & N2 & Hr) & Rt & Hwt). rewrite E. cbn [mbind outcome_bind].
  destruct Hr as [[Hr _]|(-> & y & Hy & Ey & Ea & HF)].
  { rewrite (proj2 (Z.ltb_lt r 0) Hr). destruct (give_up_ok m t t (clears mode = false) V (v_wf m t V)) as (t' & -> & C & Hu).
    { intros _. by apply remarked_evolves. }
    exists r, None, (tr_m t'). split; [done|]. split; [done|]. left. split; [done|]. split; [done|]. split; [done|].
    right; right; left. by exists U, ireq, iord, irr, t. }
  change (0 <? 0) with false. cbv iota.
  destruct (extra_ok mode ty (u_active_state U) m fuel u t S) as (t1 & E1 & K1 & Na1 & Ea1 & Gr1).
  { split; [done| |done|done]. exists y. split; [done|]. by exists u. }
  { intros ->. by apply andb_false_iff in G1 as [?|?%negb_false_iff%bool_decide_eq_true]. }
  { intros ->. by apply andb_false_iff in G3 as [?|?%negb_false_iff%bool_decide_eq_true]. }
  { intros Hn. apply N1; [done|]. by intros v x ?%new_no_jobs. }
  { intros Hn. apply short_alone. intros v. etrans; [by apply N2|]. unfold list_of. cbn. rewrite lookup_empty. cbn. lia. }
  destruct (if decide (mode = JOB_ISOLATE) then transaction_add_isolate_jobs fuel t else Ret t) as [t0| |]; [|done..].
  cbn [mbind outcome_bind] in E1 |- *. rewrite E1. cbn [mbind outcome_bind]. clear E1.
  destruct (perform_ok mode m fuel t1 Hq Hf S K1 Na1) as (r & a & m' & -> & C & Hr). exists r, a, m'. split; [done|]. split; [done|].
  destruct Hr as [(Hr & -> & Hu & Hwhy)|(-> & t3 & t2 & Hrdy & E3 & Hres)]; [left|right].
  - split; [done|]. split; [done|]. split; [done|]. right; right; right. destruct Hwhy as [?|[? ?]]; [by left|right]. split; [done|].
    exists t1. split; [apply K1|done].
  - split; [done|]. destruct (g_list _ _ _ Gr1 u y Hy) as [Hy1 Ey1].
    exists t1, y, t3, t2. split; [apply K1|]. split; [by rewrite Ea1|]. split; [done|]. split; [by rewrite Ey1|]. split; [|done].
    intros Hm1 Hm2. rewrite Ey1, Ey. intros Hn. apply (fetched_lasting m y ty' u U _ _ _ Gr1), HF; [|unfold ireq; by rewrite !bool_decide_false|done].
    intros x Hx. by apply new_no_jobs in Hx.
Qed.


End System.
