(* ===== verification/TransactionExamples.v ===== *)
(** * systemd: transactions of three units

    The laws that the theorems on transactions rely on hold for maps and memory
    as the C library and systemd have them; with them the theorems apply to a
    small system. The last example is a request that succeeds although a unit
    it needs cannot be started. *)

From S2P Require Import Prelude Outcome JobMerge Job JobProps JobFinish Transaction TransactionProps TransactionMarks TransactionOrder TransactionSteps TransactionMerge TransactionApply TransactionActivate TransactionAdd TransactionCollect TransactionSystem.

#[local] Open Scope Z_scope.

(** ** A system *)

(** Units by their number, with the lists of [Requires=], [BindsTo=] and
    [Wants=] and whether the unit could be loaded. *)
Definition small_system (requires binds_to wants : nat → list nat) (loaded : nat → bool) : TransactionEnv := {|
  tr_job_env := idle_units 0;
  keys m := (map_to_list m).*1;
  all_units m := (map_to_list (units m)).*1;
  all_jobs m := (map_to_list (jobs m)).*2;
  malloc_job t := Some (fresh (dom (objects (tr_m t))));
  malloc_link t := Some (fresh (dom (links t)));
  hashmap_put_ok _ := true; transaction_alloc_ok _ := true;
  u_requires := requires; u_binds_to := binds_to; u_wants := wants;
  u_requisite _ := []; u_conflicts _ := []; u_consists_of _ := [];
  u_propagates_reload_to _ := []; u_following_set _ := [];
  u_ignore_on_isolate _ := false; u_allow_isolate _ := true;
  u_load_state_ok _ := true;
  bus_unit_validate_load_state u := if loaded u then 0 else - ENOENT;
  unit_job_is_applicable _ _ := true |}.

Section Laws.
Context (requires binds_to wants : nat → list nat) (loaded : nat → bool).
#[local] Instance env : TransactionEnv := small_system requires binds_to wants loaded.

#[export] Instance small_lawful : LawfulTransaction.
Proof.
  split; cbn.
  - intros m u. rewrite list_elem_of_fmap. split.
    + intros ([v l] & -> & Hv%elem_of_map_to_list). by exists l.
    + intros [l El]. exists (u, l). split; [done|]. by apply elem_of_map_to_list.
  - intros m. apply NoDup_fst_map_to_list.
Qed.

#[export] Instance small_env : LawfulEnv.
Proof. apply idle_lawful. Qed.

#[export] Instance small_memory : LawfulMemory.
Proof.
  split; cbn; intros t x [= <-]; apply not_elem_of_dom, is_fresh.
Qed.

#[export] Instance small_units : LawfulUnits.
Proof.
  split; cbn.
  - intros m u. rewrite list_elem_of_fmap. intros ([v U] & -> & Hv%elem_of_map_to_list). by exists U.
  - intros m. by rewrite length_fmap, length_map_to_list.
Qed.

Lemma small_quiet : quiet ∧ fresh_reactions.
Proof. split; by intros u v ?%not_elem_of_nil. Qed.

End Laws.

(** Unit 1 requires unit 2, which wants unit 3, which has a start job. *)
Definition three_units : Manager :=
  let unit j after before needed := mk_unit j None UNIT_INACTIVE false after before needed [] [] [] in
  mk_manager
    {[9%nat := mk_job 1 3 JOB_START JOB_WAITING JOB_DONE true true false false false false 0 false]}
    {[1 := 9%nat]}
    (list_to_map [(1, unit None [2] [] []); (2, unit None [3] [1] [1]); (3, unit (Some 9) [] [2] [])]%nat)
    [9]%nat [] [] 0 1 0 2 false.

Definition requires_2 (u : nat) : list nat := if decide (u = 1%nat) then [2%nat] else [].
Definition wants_3 (u : nat) : list nat := if decide (u = 2%nat) then [3%nat] else [].

#[export] Instance good_system : TransactionEnv := small_system requires_2 (λ _, []) wants_3 (λ _, true).

Lemma three_units_settled : settled three_units.
Proof.
  split.
  - apply checked_consistent, (bool_decide_unpack _). by vm_compute.
  - intros id r rb J E. cbn in *. apply lookup_singleton_Some in J as [_ <-]. rewrite lookup_singleton_eq in E. by injection E as <-.
  - intros x y xb yb Ex Ey _. cbn in *. apply lookup_singleton_Some in Ex as [<- _], Ey as [<- _]. done.
  - intros x xb Ex. cbn in *. apply lookup_singleton_Some in Ex as [_ <-]. done.
  - done.
  - assert (map_Forall (λ u U, Forall (λ v, is_Some (units three_units !! v)) (all_deps u U)) (units three_units)) as HF.
    { apply (bool_decide_unpack _). by vm_compute. }
    intros u U v EU Hv. by apply (proj1 (Forall_forall _ _) (HF u U EU)).
  - by intros u v ?%not_elem_of_nil.
Qed.

Lemma three_units_spacious u : spacious u three_units.
Proof. split; [cbn [u_triggered_by tr_job_env good_system small_system]|]; vm_compute; done. Qed.

(** ** Witnesses *)

Definition unit_1 : Unit := mk_unit None None UNIT_INACTIVE false [2%nat] [] [] [] [] [].


(** What is collected for unit 1: jobs 10, 11 and 12 for the three units. *)
Definition example_transaction : Transaction :=
  match transaction_add_job_and_dependencies 40 JOB_START 1 None true false false false (empty_transaction three_units false) with
  | Ret (_, t) => t
  | _ => empty_transaction three_units false
  end.

Lemma transaction_add_job_correct_witness : over three_units example_transaction ∧ anchor_job example_transaction = Some 10%nat ∧
  fetched three_units 10 JOB_START 1 unit_1 example_transaction.
Proof.
  destruct (transaction_add_job_correct 40 JOB_START 1 unit_1 false false false three_units) as (r & t & E & V & Hr).
  - apply three_units_settled.
  - by vm_compute.
  - done.
  - apply Nat.ltb_lt. by vm_compute.
  - apply three_units_spacious.
  - assert (example_transaction = t) as Et by (unfold example_transaction; rewrite E; reflexivity).
    assert (r = 0) as -> by (vm_compute in E; congruence). clear E.
    assert (anchor_job t = Some 10%nat) as Ea by (rewrite <- Et; by vm_compute).
    rewrite Et. split; [done|]. split; [done|]. destruct Hr as [?|(_ & y & Ey & _ & _ & HF)]; [done|].
    rewrite Ea in Ey. injection Ey as <-. by apply HF.
Defined.

Lemma example_over : over three_units example_transaction.
Proof.
  destruct (anchor_ok 40 JOB_START 1 unit_1 false false false three_units three_units_settled) as (r & t & E & (V & _) & _).
  - by vm_compute.
  - done.
  - apply Nat.ltb_lt. by vm_compute.
  - apply three_units_spacious.
  - unfold example_transaction. rewrite E. exact V.
Qed.

Lemma example_member u j : j ∈ list_of example_transaction u → member example_transaction j.
Proof. intros Hj. by exists u. Qed.

Lemma transaction_delete_job_correct_witness : ∃ t' X K,
  transaction_delete_job 40 11 true example_transaction = Ret t' ∧ cut X X K example_transaction t' ∧ 10%nat ∈ X ∧ (12%nat ∉ X).
Proof.
  destruct (transaction_delete_job_correct 40 11 true example_transaction (v_wf _ _ example_over)) as (t' & X & K & E & W & C & HX & _).
  - apply (example_member 2), (bool_decide_unpack _). by vm_compute.
  - apply Nat.ltb_lt. by vm_compute.
  - exists t', X, K. split; [exact E|]. split; [exact C|].
    assert (∀ x, bool_decide (x ∈ X) = bool_decide (objects (tr_m t') !! x = None ∧ objects (tr_m example_transaction) !! x ≠ None)) as HO.
    { intros x. apply bool_decide_ext. rewrite (c_objects _ _ _ _ _ C). case_decide as Hx; [|tauto]. split; [|tauto]. intros _. split; [done|].
      apply HX in Hx as [->|[_ Hr]]; [by vm_compute|]. intros Ex. apply rtc_inv in Hr as [->|(y & (l & d & El & _ & Es & _) & _)]; [by vm_compute in Ex|].
      destruct (w_link ∅ _ (v_wf _ _ example_over) l d El) as (s & Es' & G & _). rewrite Es in Es'. injection Es' as ->.
      destruct (graph_alive ∅ _ s (v_wf _ _ example_over) G). congruence. }
    vm_compute in E. injection E as <-. split; [apply (bool_decide_eq_true _)|apply (bool_decide_eq_false _)]; rewrite HO; by vm_compute.
Defined.

Lemma pristine_marks t g : 0 ≠ g → pristine t → ∀ x, generation (info t x) ≠ g ∧ matters_to_anchor (info t x) = false.
Proof. intros Hg P x. destruct (P x) as [-> ->]. done. Qed.

Lemma jobs_that_matter_correct_witness : ∃ t',
  transaction_find_jobs_that_matter_to_anchor (n_jobs example_transaction) 10 1 example_transaction = Ret t' ∧
  ∀ x, matters_to_anchor (info t' x) = true ↔ rtc (needs example_transaction) 10%nat x.
Proof.
  destruct (jobs_that_matter_correct 1 10 example_transaction (v_wf _ _ example_over)) as (t' & E & R & HM & _).
  - apply (example_member 1), (bool_decide_unpack _). by vm_compute.
  - by apply pristine_marks, (v_pristine _ _ example_over).
  - exists t'. exact (conj E HM).
Defined.

Lemma transaction_verify_order_correct_witness : ∃ t',
  transaction_verify_order 3 example_transaction = Ret (0, t') ∧
  ∀ x, reached example_transaction x → ¬ tc (before example_transaction) x x.
Proof.
  destruct (transaction_verify_order_correct 3 example_transaction (v_wf _ _ example_over)) as (r & t' & E & Hr & _).
  - intros x. by apply pristine_marks, (v_pristine _ _ example_over).
  - assert (r = 0) as -> by (vm_compute in E; congruence). exists t'. exact (conj E (proj1 Hr eq_refl)).
Defined.

(** The transaction with the jobs that matter marked. *)
Definition marked_transaction : Transaction :=
  match transaction_find_jobs_that_matter_to_anchor (n_jobs example_transaction) 10 1 example_transaction with
  | Ret t => t
  | _ => example_transaction
  end.

Lemma marked_anchored : anchored marked_transaction ∧ remarked example_transaction marked_transaction.
Proof.
  destruct (mark_ok example_transaction 10 (v_wf _ _ example_over) (v_pristine _ _ example_over)) as (t' & E & A & R & _).
  - by vm_compute.
  - apply (example_member 1), (bool_decide_unpack _). by vm_compute.
  - unfold marked_transaction. rewrite E. exact (conj A R).
Qed.

Lemma example_short u : (length (list_of example_transaction u) ≤ 1)%nat.
Proof.
  assert (map_Forall (λ _ l, (length l ≤ 1)%nat) (tr_jobs example_transaction)) as HF by (apply (bool_decide_unpack _); by vm_compute).
  unfold list_of. destruct (tr_jobs example_transaction !! u) as [l|] eqn:E; [by apply (HF u)|cbn; lia].
Qed.


(** ** A requirement that is lost

    Unit 1 requires unit 4 and is bound to unit 2; unit 4 wants unit 2; unit 2
    requires unit 3, which could not be loaded. *)

Definition lossy_system : TransactionEnv :=
  small_system (λ u, match u with 1 => [4] | 2 => [3] | _ => [] end)%nat (λ u, match u with 1 => [2] | _ => [] end)%nat
    (λ u, match u with 4 => [2] | _ => [] end)%nat (λ u, negb (bool_decide (u = 3%nat))).

Definition four_units : Manager :=
  let unit := mk_unit None None UNIT_INACTIVE false [] [] [] [] [] [] in
  mk_manager ∅ ∅ (list_to_map [(1, unit); (2, unit); (3, unit); (4, unit)]%nat) [] [] [] 0 0 0 1 false.

(** The units that have a start job in the run queue. *)
Definition starting (m : Manager) : list nat :=
  r ← run_queue m; match objects m !! r with
                   | Some j => if decide (j_type j = JOB_START) then [j_unit j] else []
                   | None => []
                   end.

(** A job stays in the transaction when one of its requirements fails and the
    failure is ignored because the job was only wanted. A later requirement finds
    it and succeeds: starting unit 2 fails, since unit 3 which it requires cannot
    be loaded, but starting unit 1, which is bound to unit 2, succeeds and starts
    unit 2 without unit 3. *)
Theorem lost_requirement :
  (∃ m', @manager_add_job lossy_system 40 JOB_START 2 JOB_REPLACE four_units = Ret (- ENOENT, None, m') ∧ starting m' = []) ∧
  (∃ a m', @manager_add_job lossy_system 40 JOB_START 1 JOB_REPLACE four_units = Ret (0, Some a, m') ∧ starting m' = [1; 2; 4]%nat).
Proof. split; [eexists|eexists _, _]; (split; [vm_compute; reflexivity|by vm_compute]). Qed.

(** ** The first link decides

    Unit 1 is active and its start job has links to jobs of unit 2, which is
    active, and of unit 3, which is not. *)

Definition linked_jobs (first second : nat) : Transaction :=
  let job u := mk_job (Z.of_nat u) u JOB_START JOB_WAITING JOB_DONE false false false false false false 0 false in
  let unit s := mk_unit None None s false [] [] [] [] [] [] in
  let m := mk_manager (list_to_map [(1, job 1); (2, job 2); (3, job 3)]%nat) ∅
    (list_to_map [(1%nat, unit UNIT_ACTIVE); (2%nat, unit UNIT_ACTIVE); (3%nat, unit UNIT_INACTIVE)]) [] [] [] 0 0 0 4 false in
  let t := mk_tr m (list_to_map [(1, [1]); (2, [2]); (3, [3])]%nat) (Some 1%nat) false ∅ ∅ in
  job_dependency_new 1 (Some 1%nat) first true false (job_dependency_new 2 (Some 1%nat) second true false t).

(** The job counts as redundant when the link to the active unit is looked at
    first, although the state of the other matters. *)
Lemma redundancy_depends_on_order :
  (∃ t, job_is_redundant 4 1 2 (linked_jobs 2 3) = Ret (true, t)) ∧ (∃ t, job_is_redundant 4 1 2 (linked_jobs 3 2) = Ret (false, t)).
Proof. split; eexists; vm_compute; reflexivity. Qed.
