(* ===== verification/Threads.v ===== *)
(** * The pthread examples: locks

    Models the lock examples of [src/app/multi_thread/day2]: [deadlock.c] (two
    mutexes taken in opposite orders), [pi.c] (the three threads of the
    priority inversion demonstration and their semaphores) and [mutex.c] (a
    counter incremented under a mutex). A program is a transition system whose
    steps are the statements of the threads; sleeping, spinning and printing
    take a step and any time. The finite ones are decided by exhaustive
    exploration, whose soundness is proved once ([explore_sound]). *)

From S2P Require Import Prelude.

#[local] Set Warnings "-clear-no-such-hyp".

(** ** Exhaustive exploration *)

Section explore.
Context {St : Type} `{EqDecision St} (succs : St → list St) (init : St).

Inductive reach : St → Prop :=
  | reach_init : reach init
  | reach_step s s' : reach s → s' ∈ succs s → reach s'.

(** Breadth-first search from [todo]; [seen] holds the states visited. *)
Fixpoint explore (fuel : nat) (seen todo : list St) : list St :=
  match fuel, todo with
  | S fuel, s :: todo =>
      if decide (s ∈ seen) then explore fuel seen todo
      else explore fuel (s :: seen) (todo ++ succs s)
  | _, _ => seen
  end.

Definition closed (l : list St) : bool :=
  bool_decide (init ∈ l) && forallb (λ s, forallb (λ s', bool_decide (s' ∈ l)) (succs s)) l.

(** A set that is closed under steps holds every reachable state, so that a
    check of its members is a check of all of them. *)
Lemma explore_sound (l : list St) (P : St → bool) :
  closed l = true → forallb P l = true → ∀ s, reach s → P s = true.
Proof.
  unfold closed. rewrite andb_true_iff, forallb_forall. intros [Hi Hc] HP.
  apply bool_decide_eq_true in Hi. rewrite forallb_forall in HP.
  assert (∀ s, reach s → s ∈ l) as Hin.
  { induction 1 as [|s s' Hs IH Hstep]; [done|].
    specialize (Hc s (proj1 (list_elem_of_In _ _) IH)). rewrite forallb_forall in Hc.
    specialize (Hc s' (proj1 (list_elem_of_In _ _) Hstep)). by apply bool_decide_eq_true in Hc. }
  intros s Hs. apply HP, list_elem_of_In, Hin, Hs.
Qed.

(** A run along chosen successors. *)
Fixpoint follow (s : St) (choices : list nat) : option St :=
  match choices with
  | [] => Some s
  | i :: choices => s' ← succs s !! i; follow s' choices
  end.

Lemma follow_reach choices : ∀ s s', reach s → follow s choices = Some s' → reach s'.
Proof.
  induction choices as [|i choices IH]; intros s s' Hs; simpl; [by intros [= <-]|].
  destruct (succs s !! i) as [s1|] eqn:E; [|done]. simpl. apply IH.
  eapply reach_step; [exact Hs|]. by eapply list_elem_of_lookup_2.
Qed.
End explore.

(** ** deadlock.c *)

Module Deadlock.

Inductive pc1 := A_lock1 | A_sleep | A_lock2 | A_print | A_unlock2 | A_unlock1 | A_pause.
Inductive pc2 := B_lock2 | B_lock1 | B_print | B_unlock1 | B_unlock2 | B_pause.

#[export] Instance pc1_eq_dec : EqDecision pc1.
Proof. solve_decision. Defined.
#[export] Instance pc2_eq_dec : EqDecision pc2.
Proof. solve_decision. Defined.

(** Whether each mutex is taken. *)
Record st := mk { t1 : pc1; t2 : pc2; mutex_1 : bool; mutex_2 : bool }.

#[export] Instance st_eq_dec : EqDecision st.
Proof. solve_decision. Defined.

Definition child1 (s : st) : option st :=
  let '(mk p q m1 m2) := s in
  match p with
  | A_lock1 => if m1 then None else Some (mk A_sleep q true m2)
  | A_sleep => Some (mk A_lock2 q m1 m2)
  | A_lock2 => if m2 then None else Some (mk A_print q m1 true)
  | A_print => Some (mk A_unlock2 q m1 m2)
  | A_unlock2 => Some (mk A_unlock1 q m1 false)
  | A_unlock1 => Some (mk A_pause q false m2)
  | A_pause => Some (mk A_lock1 q m1 m2)
  end.

Definition child2 (s : st) : option st :=
  let '(mk p q m1 m2) := s in
  match q with
  | B_lock2 => if m2 then None else Some (mk p B_lock1 m1 true)
  | B_lock1 => if m1 then None else Some (mk p B_print true m2)
  | B_print => Some (mk p B_unlock1 m1 m2)
  | B_unlock1 => Some (mk p B_unlock2 false m2)
  | B_unlock2 => Some (mk p B_pause m1 false)
  | B_pause => Some (mk p B_lock2 m1 m2)
  end.

Definition deadlock_main : st := mk A_lock1 B_lock2 false false.

Definition succs (s : st) : list st :=
  match child1 s with Some s => [s] | None => [] end ++
  match child2 s with Some s => [s] | None => [] end.

(** Both threads hold what the other waits for. *)
Definition crossed : st := mk A_lock2 B_lock1 true true.

Definition printing (s : st) : nat :=
  ((if decide (t1 s = A_print) then 1 else 0) + (if decide (t2 s = B_print) then 1 else 0))%nat.

Definition states : list st := explore succs 400 [] [deadlock_main].

(** [deadlock.c] can deadlock, and in one way only: the state where each
    thread holds one mutex and waits for the other is reachable, it has no
    successor, and every other reachable state has one; the two threads are
    never in their inner sections together. *)
Theorem deadlock_reachable_and_unique :
  reach succs deadlock_main crossed ∧ succs crossed = [] ∧
  ∀ s, reach succs deadlock_main s → (succs s = [] → s = crossed) ∧ (printing s ≤ 1)%nat.
Proof.
  split; [|split; [reflexivity|]].
  - apply (follow_reach succs deadlock_main [0; 0; 1]%nat deadlock_main); [constructor|]. by vm_compute.
  - intros s Hs.
    pose proof (explore_sound succs deadlock_main states
      (λ s, (negb (bool_decide (succs s = [])) || bool_decide (s = crossed)) &&
            (printing s <=? 1)%nat) ltac:(by vm_compute) ltac:(by vm_compute) s Hs) as H.
    apply andb_true_iff in H as [H1 H2]. split; [|by apply Nat.leb_le].
    intros E. rewrite bool_decide_true in H1 by done. by apply bool_decide_eq_true in H1.
Qed.

End Deadlock.

(** ** pi.c *)

Module PriorityInversion.

(** The program counters name the statement to execute next; [X_start] is a
    thread that [main] has not created yet. *)
Inductive low_pc :=
  | L_start | L_wait_go | L_lock | L_wait_mid | L_wait_high | L_post_high | L_post_mid
  | L_spin | L_unlock | L_print | L_done.
Inductive mid_pc := M_start | M_post_ready | M_wait_go | M_spin | M_print | M_done.
Inductive high_pc :=
  | H_start | H_post_ready | H_wait_go | H_lock | H_unlock | H_print | H_done.
Inductive main_pc :=
  | T_create_low | T_create_mid | T_create_high | T_post_low | T_join_low | T_join_mid
  | T_join_high | T_return.

#[export] Instance low_pc_eq_dec : EqDecision low_pc.
Proof. solve_decision. Defined.
#[export] Instance mid_pc_eq_dec : EqDecision mid_pc.
Proof. solve_decision. Defined.
#[export] Instance high_pc_eq_dec : EqDecision high_pc.
Proof. solve_decision. Defined.
#[export] Instance main_pc_eq_dec : EqDecision main_pc.
Proof. solve_decision. Defined.

(** The semaphores and whether the mutex is taken. *)
Record shared := Shared {
  low_go : nat; mid_go : nat; high_go : nat; high_ready : nat; mid_ready : nat;
  shared_mutex : bool }.

#[export] Instance shared_eq_dec : EqDecision shared.
Proof. solve_decision. Defined.

Record st := St { tm : main_pc; tl : low_pc; td : mid_pc; th : high_pc; sh : shared }.

#[export] Instance st_eq_dec : EqDecision st.
Proof. solve_decision. Defined.

Definition low (p : low_pc) (s : shared) : option (low_pc * shared) :=
  let '(Shared lg mg hg hr mr m) := s in
  match p with
  | L_start | L_done => None
  | L_wait_go => match lg with S lg => Some (L_lock, Shared lg mg hg hr mr m) | O => None end
  | L_lock => if m then None else Some (L_wait_mid, Shared lg mg hg hr mr true)
  | L_wait_mid => match mr with S mr => Some (L_wait_high, Shared lg mg hg hr mr m) | O => None end
  | L_wait_high => match hr with S hr => Some (L_post_high, Shared lg mg hg hr mr m) | O => None end
  | L_post_high => Some (L_post_mid, Shared lg mg (S hg) hr mr m)
  | L_post_mid => Some (L_spin, Shared lg (S mg) hg hr mr m)
  | L_spin => Some (L_unlock, s)
  | L_unlock => Some (L_print, Shared lg mg hg hr mr false)
  | L_print => Some (L_done, s)
  end.

Definition mid (p : mid_pc) (s : shared) : option (mid_pc * shared) :=
  let '(Shared lg mg hg hr mr m) := s in
  match p with
  | M_start | M_done => None
  | M_post_ready => Some (M_wait_go, Shared lg mg hg hr (S mr) m)
  | M_wait_go => match mg with S mg => Some (M_spin, Shared lg mg hg hr mr m) | O => None end
  | M_spin => Some (M_print, s)
  | M_print => Some (M_done, s)
  end.

Definition high (p : high_pc) (s : shared) : option (high_pc * shared) :=
  let '(Shared lg mg hg hr mr m) := s in
  match p with
  | H_start | H_done => None
  | H_post_ready => Some (H_wait_go, Shared lg mg hg (S hr) mr m)
  | H_wait_go => match hg with S hg => Some (H_lock, Shared lg mg hg hr mr m) | O => None end
  | H_lock => if m then None else Some (H_unlock, Shared lg mg hg hr mr true)
  | H_unlock => Some (H_print, Shared lg mg hg hr mr false)
  | H_print => Some (H_done, s)
  end.

(** [main] after its initialisations: [pthread_create] lets a thread start,
    [pthread_join] waits until it has returned. *)
Definition pi_main (s : st) : option st :=
  let '(St t l d h x) := s in
  match t with
  | T_create_low => Some (St T_create_mid L_wait_go d h x)
  | T_create_mid => Some (St T_create_high l M_post_ready h x)
  | T_create_high => Some (St T_post_low l d H_post_ready x)
  | T_post_low =>
      let '(Shared lg mg hg hr mr m) := x in
      Some (St T_join_low l d h (Shared (S lg) mg hg hr mr m))
  | T_join_low => if decide (l = L_done) then Some (St T_join_mid l d h x) else None
  | T_join_mid => if decide (d = M_done) then Some (St T_join_high l d h x) else None
  | T_join_high => if decide (h = H_done) then Some (St T_return l d h x) else None
  | T_return => None
  end.

(** All semaphores start at zero and the mutex free. *)
Definition init : st := St T_create_low L_start M_start H_start (Shared 0 0 0 0 0 false).

Definition succs (s : st) : list st :=
  let '(St t l d h x) := s in
  match pi_main s with Some s => [s] | None => [] end ++
  match low l x with Some (l, x) => [St t l d h x] | None => [] end ++
  match mid d x with Some (d, x) => [St t l d h x] | None => [] end ++
  match high h x with Some (h, x) => [St t l d h x] | None => [] end.

Definition states : list st := explore succs 1000 [] [init].

(** The steps a run has left, from the position of each thread. *)
Definition low_left (p : low_pc) : nat :=
  match p with
  | L_start | L_wait_go => 9 | L_lock => 8 | L_wait_mid => 7 | L_wait_high => 6
  | L_post_high => 5 | L_post_mid => 4 | L_spin => 3 | L_unlock => 2 | L_print => 1 | L_done => 0
  end.
Definition mid_left (p : mid_pc) : nat :=
  match p with
  | M_start | M_post_ready => 4 | M_wait_go => 3 | M_spin => 2 | M_print => 1 | M_done => 0
  end.
Definition high_left (p : high_pc) : nat :=
  match p with
  | H_start | H_post_ready => 5 | H_wait_go => 4 | H_lock => 3 | H_unlock => 2
  | H_print => 1 | H_done => 0
  end.
Definition main_left (p : main_pc) : nat :=
  match p with
  | T_create_low => 7 | T_create_mid => 6 | T_create_high => 5 | T_post_low => 4
  | T_join_low => 3 | T_join_mid => 2 | T_join_high => 1 | T_return => 0
  end.
Definition left (s : st) : nat :=
  (low_left (tl s) + mid_left (td s) + high_left (th s) + main_left (tm s))%nat.

Definition finished : st := St T_return L_done M_done H_done (Shared 0 0 0 0 0 false).

(** The low thread is in its critical section; the high thread has passed its
    [pthread_mutex_lock]. *)
Definition low_inside (p : low_pc) : bool := (low_left p <=? 7)%nat && (2 <=? low_left p)%nat.
Definition high_locked (p : high_pc) : bool := (high_left p <=? 2)%nat.

Definition state_ok (s : st) : bool :=
  (negb (bool_decide (succs s = [])) || bool_decide (s = finished)) &&
  forallb (λ s', (S (left s') =? left s)%nat) (succs s) &&
  (negb (high_locked (th s)) || (low_left (tl s) <=? 1)%nat) &&
  bool_decide (shared_mutex (sh s) =
    low_inside (tl s) || bool_decide (th s = H_unlock)).

Lemma state_ok_reach s : reach succs init s → state_ok s = true.
Proof. apply explore_sound with (l := states); by vm_compute. Qed.

(** A run of the program: the states it goes through. *)
Inductive run : st → list st → Prop :=
  | run_end s : succs s = [] → run s []
  | run_step s s' l : s' ∈ succs s → run s' l → run s (s' :: l).

Lemma state_ok_steps s : reach succs init s →
  (succs s = [] → s = finished) ∧ (∀ s', s' ∈ succs s → S (left s') = left s).
Proof.
  intros Hs%state_ok_reach. unfold state_ok in Hs.
  rewrite !andb_true_iff, orb_true_iff, forallb_forall in Hs.
  destruct Hs as [[[H1 H2] _] _]. split.
  - intros E. rewrite bool_decide_true in H1 by done.
    destruct H1 as [|H1]; [done|]. by apply bool_decide_eq_true in H1.
  - intros s' Hin. apply Nat.eqb_eq, H2, list_elem_of_In, Hin.
Qed.

Lemma run_finishes n : ∀ s l, left s = n → reach succs init s → run s l →
  last (s :: l) = Some finished ∧ length l = n.
Proof.
  induction n as [|n IH]; intros s l Hle Hs Hr;
    destruct (state_ok_steps s Hs) as [Hd Hl]; destruct Hr as [s E|s s' l Hin Hr].
  - by rewrite (Hd E).
  - specialize (Hl _ Hin). lia.
  - rewrite (Hd E) in Hle. discriminate Hle.
  - specialize (Hl _ Hin).
    destruct (IH s' l) as [H1 H2]; [lia|by eapply reach_step|done|].
    split; [by rewrite last_cons_cons|simpl; lia].
Qed.

(** The demonstration of [pi.c] always runs to its end and always shows the
    inversion: no interleaving of the three threads and [main] blocks before
    all of them have returned, every one takes 25 steps, the mutex is
    taken exactly while the low thread is in its critical section or the high
    thread in its own, and the high thread never gets the mutex before the low
    thread has left its critical section. *)
Theorem pi_runs_to_completion :
  (∀ l, run init l → last (init :: l) = Some finished ∧ length l = 25%nat) ∧
  (∀ s, reach succs init s → succs s = [] → s = finished) ∧
  ∀ s, reach succs init s →
    shared_mutex (sh s) = low_inside (tl s) || bool_decide (th s = H_unlock) ∧
    (high_locked (th s) = true → low_inside (tl s) = false ∧ (low_left (tl s) <= 1)%nat).
Proof.
  split; [|split].
  - intros l. apply run_finishes; [reflexivity|constructor].
  - intros s Hs. by apply state_ok_steps.
  - intros s Hs%state_ok_reach. unfold state_ok in Hs. rewrite !andb_true_iff in Hs.
    destruct Hs as [[_ H3] H4]. apply bool_decide_eq_true in H4. split; [done|].
    intros E. rewrite E in H3. apply Nat.leb_le in H3. split; [|done].
    unfold low_inside. apply andb_false_iff. right. apply Nat.leb_gt. lia.
Qed.

End PriorityInversion.

(** ** mutex.c *)

Module Counter.

Definition NLOOP : Z := 5000.

Inductive pc := D_test | D_lock | D_load | D_print | D_store | D_unlock | D_incr | D_return.

(** A thread's position and its locals [i] and [val]. *)
Record thread := Thread { at_ : pc; i : Z; val : Z }.

(** [counter], whether [counter_mutex] is taken, and the values printed. *)
Record shared := Shared { counter : Z; counter_mutex : bool; out : list Z }.

(** One statement of [doit]; additions are those of [int]. *)
Definition doit (t : thread) (s : shared) : option (thread * shared) :=
  let '(Thread p i val) := t in
  let '(Shared c m o) := s in
  match p with
  | D_test => Some (Thread (if i <? NLOOP then D_lock else D_return) i val, s)
  | D_lock => if m then None else Some (Thread D_load i val, Shared c true o)
  | D_load => Some (Thread D_print i c, s)
  | D_print => Some (Thread D_store i val, Shared c m (o ++ [wraps 32 (val + 1)]))
  | D_store => Some (Thread D_unlock i val, Shared (wraps 32 (val + 1)) m o)
  | D_unlock => Some (Thread D_incr i val, Shared c false o)
  | D_incr => Some (Thread D_test (i + 1) val, s)
  | D_return => None
  end.

Record st := St { tidA : thread; tidB : thread; sh : shared }.

(** [main] creates the two threads; [counter] is a global, so zero. The locals
    of a new thread hold anything ([va] and [vb]). *)
Definition mutex_main (va vb : Z) : st :=
  St (Thread D_test 0 va) (Thread D_test 0 vb) (Shared 0 false []).

Definition succs (s : st) : list st :=
  match doit (tidA s) (sh s) with Some (t, x) => [St t (tidB s) x] | None => [] end ++
  match doit (tidB s) (sh s) with Some (t, x) => [St (tidA s) t x] | None => [] end.

(** What a thread has added to [counter], whether it holds the mutex and
    whether it has printed what it has not stored. *)
Definition added (t : thread) : Z := match at_ t with D_unlock | D_incr => i t + 1 | _ => i t end.
Definition holds (t : thread) : bool :=
  match at_ t with D_load | D_print | D_store | D_unlock => true | _ => false end.
Definition pending (t : thread) : Z := match at_ t with D_store => 1 | _ => 0 end.

(** [1; 2; ...; n]. *)
Definition upto (n : Z) : list Z := seqZ 1 n.

Definition thread_inv (x : shared) (t : thread) : Prop :=
  0 <= i t <= NLOOP ∧
  match at_ t with
  | D_test => True
  | D_return => i t = NLOOP
  | D_print | D_store => i t < NLOOP ∧ val t = counter x
  | _ => i t < NLOOP
  end.

Definition inv (t u : thread) (x : shared) : Prop :=
  thread_inv x t ∧ thread_inv x u ∧
  counter x = added t + added u ∧
  out x = upto (counter x + pending t + pending u) ∧
  counter_mutex x = holds t || holds u ∧
  holds t && holds u = false.

Lemma inv_sym t u x : inv t u x → inv u t x.
Proof.
  intros (Ht & Hu & Hc & Ho & Hm & He).
  refine (conj Hu (conj Ht (conj _ (conj _ (conj _ _))))).
  - lia.
  - rewrite Ho. f_equal. lia.
  - by rewrite orb_comm.
  - by rewrite andb_comm.
Qed.

Lemma upto_snoc n : 0 <= n → upto n ++ [n + 1] = upto (n + 1).
Proof.
  intros H. unfold upto. rewrite (seqZ_app 1 n 1) by lia. f_equal. simpl.
  by rewrite Z.add_comm.
Qed.

Lemma wraps_small_counter n : 0 <= n <= 2 * NLOOP → wraps 32 n = n.
Proof. unfold NLOOP. intros. apply wraps_small; simpl; lia. Qed.

(** The four clauses on one step of a thread; the other thread outside the
    critical section does not read [counter]. *)
Lemma doit_inv t u x t' x' : inv t u x → doit t x = Some (t', x') → inv t' u x'.
Proof.
  destruct t as [p k v], u as [q k2 v2], x as [c m o].
  unfold inv, thread_inv, added, holds, pending. simpl.
  intros (Ht & Hu & Hc & Ho & Hm & He) H.
  assert (Hv : p = D_store ∨ p = D_print → wraps 32 (v + 1) = c + 1).
  { intros Hp. assert (v = c ∧ k < NLOOP) as [-> Hk] by (destruct Hp; subst p; simpl in Ht; lia).
    apply wraps_small_counter. destruct Hp; subst p; destruct q; simpl in *; lia. }
  destruct p; simpl in *; try discriminate H.
  all: try (destruct m; [discriminate H|]).
  all: injection H as <- <-; simpl.
  all: try (rewrite (Hv ltac:(tauto)) in * ).
  all: try (destruct (Z.ltb_spec k NLOOP); simpl).
  all: destruct q; simpl in *; try discriminate.
  all: repeat split; try done; try lia.
  all: rewrite Ho, ?Z.add_0_r; try (apply upto_snoc; lia); f_equal; lia.
Qed.

Lemma reach_counter va vb s : reach succs (mutex_main va vb) s → inv (tidA s) (tidB s) (sh s).
Proof.
  induction 1 as [|s s' _ IH Hin].
  { unfold inv, thread_inv, NLOOP. simpl. repeat split; lia. }
  unfold succs in Hin. apply elem_of_app in Hin as [Hin|Hin].
  - destruct (doit (tidA s) (sh s)) as [[t x]|] eqn:E; [|by apply elem_of_nil in Hin].
    apply list_elem_of_singleton in Hin as ->. by eapply doit_inv.
  - destruct (doit (tidB s) (sh s)) as [[t x]|] eqn:E; [|by apply elem_of_nil in Hin].
    apply list_elem_of_singleton in Hin as ->. simpl.
    apply inv_sym. eapply doit_inv; [|exact E]. by apply inv_sym.
Qed.

Lemma doit_stuck t x : doit t x = None → at_ t = D_return ∨ at_ t = D_lock ∧ counter_mutex x = true.
Proof. destruct t as [[] ? ?], x as [? [] ?]; simpl; intros; try discriminate; auto. Qed.

(** The counter of [mutex.c] loses no increment: whatever the interleaving
    of the two threads, the values printed so far are [1, 2, ...] without gap or
    repetition, so that they increase as the comment in [doit] asks; a state
    that cannot proceed is one where both threads have returned, and there
    [counter] is [2 * NLOOP] and every value up to it has been printed. *)
Theorem counter_loses_no_increment va vb s :
  reach succs (mutex_main va vb) s →
  (∃ n, out (sh s) = upto n ∧ counter (sh s) <= n <= counter (sh s) + 1) ∧
  (succs s = [] →
    at_ (tidA s) = D_return ∧ at_ (tidB s) = D_return ∧
    counter (sh s) = 2 * NLOOP ∧ out (sh s) = upto (2 * NLOOP)).
Proof.
  intros Hr%reach_counter. destruct s as [t u x]. simpl in *.
  destruct Hr as (Ht & Hu & Hc & Ho & Hm & He). split.
  - eexists. split; [exact Ho|].
    destruct t as [[] ? ?], u as [[] ? ?]; unfold pending, holds in *; simpl in *; try discriminate; lia.
  - unfold succs. simpl. intros E.
    assert (doit t x = None ∧ doit u x = None) as [H1 H2].
    { destruct (doit t x) as [[]|], (doit u x) as [[]|]; done. }
    apply doit_stuck in H1. apply doit_stuck in H2.
    destruct t as [p k v], u as [q k2 v2], x as [c m o].
    unfold thread_inv, added, pending, holds in *. simpl in *.
    destruct H1 as [->|[-> ->]], H2 as [->|[-> Hm2]]; simpl in *; try congruence.
    repeat split; [lia|]. rewrite Ho. f_equal. lia.
Qed.

(** The first iteration of the first thread. *)
Lemma counter_loses_no_increment_witness :
  reach succs (mutex_main 7 9) (St (Thread D_test 1 0) (Thread D_test 0 9) (Shared 1 false [1])) ∧
  ∃ n, [1] = upto n ∧ 1 <= n <= 1 + 1.
Proof.
  assert (reach succs (mutex_main 7 9)
    (St (Thread D_test 1 0) (Thread D_test 0 9) (Shared 1 false [1]))) as H.
  { apply (follow_reach succs _ [0; 0; 0; 0; 0; 0; 0]%nat (mutex_main 7 9)); [constructor|].
    by vm_compute. }
  split; [exact H|]. exact (proj1 (counter_loses_no_increment 7 9 _ H)).
Defined.

End Counter.
