(* ===== verification/SemQueue.v ===== *)
(** * The producer and the consumer over semaphores

    Models [src/app/multi_thread/day2/semaphore.c]: a ring of [NUM] integers,
    the semaphores [blank_number] and [product_number] and the two threads.
    A thread is its position and its index; a step is one statement of one
    thread. [rand] is outside the program: a step of the producer stores what
    some result of [rand] gives. [sleep] takes a step and any time. *)

From S2P Require Import Prelude.

Module SemQueue.

Definition NUM : nat := 5.
Definition RAND_MAX : Z := 2 ^ 31 - 1.

Inductive ppc := P_wait | P_store | P_print | P_post | P_next.
Inductive cpc := C_wait | C_print | C_clear | C_post | C_next.

(** The output is kept as the numbers of the "Produce" lines and of the
    "Consume" lines. *)
Record st := St {
  pp : ppc; p : nat; pc : cpc; c : nat;
  queue : list Z; blank_number : nat; product_number : nat;
  produced : list Z; consumed : list Z }.

(** One statement of [producer], [r] the result of [rand]; [None] when the
    thread waits, and when it accesses [queue] out of range. *)
Definition producer (r : Z) (s : st) : option st :=
  let '(St pp p pc c q b n po co) := s in
  match pp with
  | P_wait => match b with S b => Some (St P_store p pc c q b n po co) | O => None end
  | P_store =>
      _ ← q !! p; Some (St P_print p pc c (<[p := Z.rem r 1000 + 1]> q) b n po co)
  | P_print => v ← q !! p; Some (St P_post p pc c q b n (po ++ [v]) co)
  | P_post => Some (St P_next p pc c q b (S n) po co)
  | P_next => Some (St P_wait ((p + 1) mod NUM) pc c q b n po co)
  end.

Definition consumer (s : st) : option st :=
  let '(St pp p pc c q b n po co) := s in
  match pc with
  | C_wait => match n with S n => Some (St pp p C_print c q b n po co) | O => None end
  | C_print => v ← q !! c; Some (St pp p C_clear c q b n po (co ++ [v]))
  | C_clear => _ ← q !! c; Some (St pp p C_post c (<[c := 0]> q) b n po co)
  | C_post => Some (St pp p C_next c q (S b) n po co)
  | C_next => Some (St pp p C_wait ((c + 1) mod NUM) q b n po co)
  end.

(** [queue] is a global, so zero. *)
Definition main : st := St P_wait 0 C_wait 0 (replicate NUM 0) NUM 0 [] [].

Inductive reach : st → Prop :=
  | reach_main : reach main
  | reach_producer s s' r : reach s → 0 <= r <= RAND_MAX → producer r s = Some s' → reach s'
  | reach_consumer s s' : reach s → consumer s = Some s' → reach s'.

#[local] Arguments Nat.modulo : simpl never.
#[local] Arguments NUM : simpl never.

(** ** The invariant

    [stores] and [clears] count the slots filled and emptied so far; [vals] are
    the values stored. Every other quantity is one of these counts plus what
    the position of a thread adds. *)
Definition pstarted (x : ppc) : nat := match x with P_store | P_print | P_post | P_next => 1 | _ => 0 end.
Definition pstored (x : ppc) : nat := match x with P_print | P_post | P_next => 1 | _ => 0 end.
Definition pprinted (x : ppc) : nat := match x with P_post | P_next => 1 | _ => 0 end.
Definition pposted (x : ppc) : nat := match x with P_next => 1 | _ => 0 end.
Definition cstarted (x : cpc) : nat := match x with C_print | C_clear | C_post | C_next => 1 | _ => 0 end.
Definition cprinted (x : cpc) : nat := match x with C_clear | C_post | C_next => 1 | _ => 0 end.
Definition ccleared (x : cpc) : nat := match x with C_post | C_next => 1 | _ => 0 end.
Definition cposted (x : cpc) : nat := match x with C_next => 1 | _ => 0 end.

(** [i] and [j]: the iterations the two threads have completed. *)
Record inv (i j : nat) (vals : list Z) (s : st) : Prop := {
  inv_p : p s = (i mod NUM)%nat;
  inv_c : c s = (j mod NUM)%nat;
  inv_len : length (queue s) = NUM;
  inv_blank : (blank_number s + i + pstarted (pp s) = NUM + j + cposted (pc s))%nat;
  inv_product : (product_number s + j + cstarted (pc s) = i + pposted (pp s))%nat;
  inv_vals : length vals = (i + pstored (pp s))%nat;
  inv_range : Forall (λ v, 1 <= v <= 1000) vals;
  inv_produced : produced s = take (i + pprinted (pp s)) vals;
  inv_consumed : consumed s = take (j + cprinted (pc s)) vals;
  inv_full : ∀ k, (j + ccleared (pc s) <= k < i + pstored (pp s))%nat →
    queue s !! (k mod NUM)%nat = vals !! k;
  inv_empty : ∀ k, (i + pstored (pp s) <= k < NUM + j + ccleared (pc s))%nat →
    queue s !! (k mod NUM)%nat = Some 0 }.

Lemma mod_NUM_neq k l : (k < l < k + NUM)%nat → (k mod NUM ≠ l mod NUM)%nat.
Proof.
  unfold NUM. intros H E.
  pose proof (Nat.div_mod_eq k 5). pose proof (Nat.div_mod_eq l 5). lia.
Qed.

Lemma mod_NUM_lt k : (k mod NUM < NUM)%nat.
Proof. by apply Nat.mod_upper_bound. Qed.

Lemma mod_NUM_succ k : ((k mod NUM + 1) mod NUM = (k + 1) mod NUM)%nat.
Proof. by rewrite Nat.Div0.add_mod_idemp_l. Qed.

Lemma rand_range r : 0 <= r → 1 <= Z.rem r 1000 + 1 <= 1000.
Proof. intros. pose proof (Z.rem_bound_pos r 1000). lia. Qed.

Ltac nlia := unfold NUM in *; lia.
Ltac inv_fields := intros [Hp Hc Hl Hb Hn Hv Hr Hpo Hco Hf He]; simpl in *.

(** Filling the slot of the value number [i]. *)
Lemma inv_store i j vals p pc c q b n po co v :
  inv i j vals (St P_store p pc c q b n po co) → 1 <= v <= 1000 →
  inv i j (vals ++ [v]) (St P_print p pc c (<[p := v]> q) b n po co).
Proof.
  inv_fields. intros Hrange. rewrite Nat.add_0_r in *.
  assert (cposted pc <= ccleared pc ∧ ccleared pc <= cstarted pc)%nat as [] by (destruct pc; simpl; nlia).
  assert (cstarted pc <= 1 ∧ cprinted pc <= cstarted pc)%nat as [] by (destruct pc; simpl; nlia).
  constructor; simpl; rewrite ?Nat.add_0_r; auto; try nlia.
  - by rewrite length_insert.
  - rewrite length_app. simpl. nlia.
  - apply Forall_app. split; [done|by constructor].
  - by rewrite Hpo, take_app_le by nlia.
  - rewrite Hco, take_app_le by nlia. done.
  - intros k Hk. destruct (decide (k = i)) as [->|].
    + rewrite Hp, list_lookup_insert_eq by (rewrite Hl; apply mod_NUM_lt).
      by rewrite list_lookup_middle by nlia.
    + rewrite Hp, list_lookup_insert_ne, lookup_app_l by (try nlia; apply not_eq_sym, mod_NUM_neq; nlia).
      apply Hf. nlia.
  - intros k Hk. rewrite Hp, list_lookup_insert_ne by (apply mod_NUM_neq; nlia). apply He. nlia.
Qed.

Lemma producer_keeps i j vals r s s' :
  inv i j vals s → 0 <= r → producer r s = Some s' → ∃ i' vals', inv i' j vals' s'.
Proof.
  destruct s as [[] p pc c q b n po co]; simpl; intros Hi Hr0 H.
  - destruct b as [|b]; [done|]. injection H as <-. exists i, vals. revert Hi. inv_fields.
    constructor; simpl; auto; nlia.
  - destruct (q !! p); [|done]. injection H as <-. exists i, (vals ++ [Z.rem r 1000 + 1]).
    by apply inv_store, rand_range.
  - destruct (q !! p) as [v|] eqn:Ev; [|done]. injection H as <-. exists i, vals.
    revert Hi. inv_fields.
    assert (cposted pc <= 1 ∧ ccleared pc <= cstarted pc ∧ cstarted pc <= 1)%nat as (?&?&?)
      by (destruct pc; simpl; nlia).
    constructor; simpl; auto.
    rewrite Hpo, Nat.add_0_r, Nat.add_1_r. symmetry. apply take_S_r.
    rewrite <- Hf by nlia. by rewrite <- Hp.
  - injection H as <-. exists i, vals. revert Hi. inv_fields. constructor; simpl; auto; nlia.
  - injection H as <-. exists (i + 1)%nat, vals. revert Hi. inv_fields.
    constructor; simpl; rewrite ?Nat.add_0_r; auto; try nlia.
    by rewrite Hp, mod_NUM_succ.
Qed.

(** Emptying the slot of the value number [j]. *)
Lemma inv_clear i j vals pp p c q b n po co :
  inv i j vals (St pp p C_clear c q b n po co) →
  inv i j vals (St pp p C_post c (<[c := 0]> q) b n po co).
Proof.
  inv_fields. rewrite Nat.add_0_r in *.
  assert (pposted pp <= pstored pp ∧ pstored pp <= pstarted pp)%nat as [] by (destruct pp; simpl; nlia).
  constructor; simpl; rewrite ?Nat.add_0_r; auto; try nlia.
  - by rewrite length_insert.
  - intros k Hk. rewrite Hc, list_lookup_insert_ne by (apply mod_NUM_neq; nlia). apply Hf. nlia.
  - intros k Hk. destruct (decide (k = (NUM + j)%nat)) as [->|].
    + rewrite Hc, Nat.Div0.add_mod, Nat.Div0.mod_same by done.
      rewrite Nat.add_0_l, Nat.Div0.mod_mod by done.
      by rewrite list_lookup_insert_eq by (rewrite Hl; apply mod_NUM_lt).
    + rewrite Hc, list_lookup_insert_ne by (apply mod_NUM_neq; nlia). apply He. nlia.
Qed.

Lemma consumer_keeps i j vals s s' :
  inv i j vals s → consumer s = Some s' → ∃ j', inv i j' vals s'.
Proof.
  destruct s as [pp p [] c q b n po co]; simpl; intros Hi H.
  - destruct n as [|n]; [done|]. injection H as <-. exists j. revert Hi. inv_fields.
    constructor; simpl; auto; nlia.
  - destruct (q !! c) as [v|] eqn:Ev; [|done]. injection H as <-. exists j.
    revert Hi. inv_fields.
    assert (pposted pp <= pstored pp)%nat by (destruct pp; simpl; nlia).
    constructor; simpl; auto.
    rewrite Hco, Nat.add_0_r, Nat.add_1_r. symmetry. apply take_S_r.
    rewrite <- Hf by nlia. by rewrite <- Hc.
  - destruct (q !! c) as [v|] eqn:Ev; [|done]. injection H as <-. exists j. by apply inv_clear.
  - injection H as <-. exists j. revert Hi. inv_fields. constructor; simpl; auto; nlia.
  - injection H as <-. exists (j + 1)%nat. revert Hi. inv_fields.
    constructor; simpl; rewrite ?Nat.add_0_r; auto; try nlia.
    by rewrite Hc, mod_NUM_succ.
Qed.

Lemma reach_ring s : reach s → ∃ i j vals, inv i j vals s.
Proof.
  induction 1 as [|s s' r _ (i & j & vals & IH) Hr H|s s' _ (i & j & vals & IH) H].
  - exists 0%nat, 0%nat, []. constructor; try done; simpl; try nlia.
    intros k Hk. apply (lookup_replicate_2 NUM), mod_NUM_lt.
  - destruct (producer_keeps _ _ _ _ _ _ IH (proj1 Hr) H) as (i' & vals' & ?). eauto.
  - destruct (consumer_keeps _ _ _ _ _ IH H) as (j' & ?). eauto.
Qed.

(** A thread stops only at its [sem_wait]: the accesses to [queue] are in range. *)
Lemma producer_blocks i j vals r s :
  inv i j vals s → producer r s = None → pp s = P_wait ∧ blank_number s = 0%nat.
Proof.
  destruct s as [[] p pc c q b n po co]; simpl; intros Hi H; try done.
  { by destruct b. }
  all: exfalso; revert Hi; inv_fields;
    destruct (lookup_lt_is_Some_2 q p) as [v E];
    [rewrite Hl, Hp; apply mod_NUM_lt|by rewrite E in H].
Qed.

Lemma consumer_blocks i j vals s :
  inv i j vals s → consumer s = None → pc s = C_wait ∧ product_number s = 0%nat.
Proof.
  destruct s as [pp p [] c q b n po co]; simpl; intros Hi H; try done.
  { by destruct n. }
  all: exfalso; revert Hi; inv_fields;
    destruct (lookup_lt_is_Some_2 q c) as [v E];
    [rewrite Hl, Hc; apply mod_NUM_lt|by rewrite E in H].
Qed.

Lemma take_prefix_of {A} (m n : nat) (l : list A) :
  (m <= n)%nat → take m l `prefix_of` take n l.
Proof.
  intros H. exists (drop m (take n l)).
  by rewrite <- (take_drop m (take n l)) at 1; rewrite take_take, Nat.min_l.
Qed.

(** C40. The ring of [semaphore.c] is a bounded FIFO. In every reachable state
    the numbers consumed are a prefix of the numbers produced, at most [NUM]
    are outstanding, every one is between 1 and 1000 (a consumer never prints
    the 0 of an empty slot), the two semaphores never hold more than [NUM]
    together; a thread stops only at its [sem_wait] on a zero semaphore, so
    that no access to [queue] is out of range, and never both of them. *)
Theorem semqueue_bounded_fifo s :
  reach s →
  consumed s `prefix_of` produced s ∧
  (length (produced s) <= length (consumed s) + NUM)%nat ∧
  Forall (λ v, 1 <= v <= 1000) (produced s) ∧
  (blank_number s + product_number s <= NUM)%nat ∧
  (∀ r, producer r s = None → pp s = P_wait ∧ blank_number s = 0%nat) ∧
  (consumer s = None → pc s = C_wait ∧ product_number s = 0%nat) ∧
  (∀ r, producer r s = None → consumer s ≠ None).
Proof.
  intros (i & j & vals & Hi)%reach_ring.
  pose proof (λ r, producer_blocks _ _ _ r _ Hi) as Bp.
  pose proof (consumer_blocks _ _ _ _ Hi) as Bc.
  destruct Hi as [Hp Hc Hl Hb Hn Hv Hr Hpo Hco Hf He]. rewrite Hpo, Hco.
  assert (pposted (pp s) <= pprinted (pp s) <= pstored (pp s) ∧
    pstored (pp s) <= pstarted (pp s) <= 1)%nat as [] by (destruct (pp s); simpl; nlia).
  assert (cposted (pc s) <= cprinted (pc s) <= cstarted (pc s) ∧ cstarted (pc s) <= 1)%nat as []
    by (destruct (pc s); simpl; nlia).
  repeat split; try by eauto.
  - apply take_prefix_of. nlia.
  - rewrite !length_take. nlia.
  - by apply Forall_take.
  - nlia.
  - by eapply Bp.
  - by eapply Bp.
  - by apply Bc.
  - by apply Bc.
  - intros r [E1 E2]%Bp [E3 E4]%Bc. rewrite E1, E3 in *. simpl in *. unfold NUM in *. nlia.
Qed.

(** A schedule: [Some r] is a step of the producer, [None] one of the consumer. *)
Fixpoint run (l : list (option Z)) (s : st) : option st :=
  match l with
  | [] => Some s
  | Some r :: l => s' ← producer r s; run l s'
  | None :: l => s' ← consumer s; run l s'
  end.

Lemma run_reach l : ∀ s s',
  Forall (λ o, match o with Some r => 0 <= r <= RAND_MAX | None => True end) l →
  reach s → run l s = Some s' → reach s'.
Proof.
  induction l as [|[r|] l IH]; intros s s' Hl Hs; simpl; [by intros [= <-]| |];
    apply Forall_cons in Hl as [Hr Hl].
  - destruct (producer r s) as [s1|] eqn:E; [|done]. apply IH; [done|]. by eapply reach_producer.
  - destruct (consumer s) as [s1|] eqn:E; [|done]. apply IH; [done|]. by eapply reach_consumer.
Qed.

(** One value produced and the consumer about to clear its slot. *)
Definition demo : st :=
  St P_wait 1 C_clear 0 [42; 0; 0; 0; 0] 4 0 [42] [42].

Lemma semqueue_bounded_fifo_witness : reach demo ∧ consumed demo `prefix_of` produced demo.
Proof.
  assert (reach demo) as H.
  { apply (run_reach [Some 41; Some 41; Some 41; Some 41; Some 41; None; None] main);
      [repeat constructor; unfold RAND_MAX; lia|constructor|reflexivity]. }
  split; [exact H|]. exact (proj1 (semqueue_bounded_fifo demo H)).
Defined.

End SemQueue.
