(* ===== verification/CondVar.v ===== *)
(** * The producer and the consumer over a condition variable

    Models [src/app/multi_thread/day2/cond_var.c]: the linked list of messages
    under [head], the mutex [lock] and the condition [has_product]. The heap is
    a finite map from addresses to messages, so that an access to memory that
    is not allocated, and a second [free], are faults. A step is one statement
    of one thread; [pthread_cond_wait] is the release of the mutex with the
    entry into the wait, a wake-up (by a signal or spurious) and the
    acquisition of the mutex. [rand] and what [malloc] returns, NULL or a block with
    any content, are outside the program. *)

From S2P Require Import Prelude.

#[local] Set Warnings "-clear-no-such-hyp".

Module CondVar.

(** Address 0 is [NULL]. *)
Record msg := Msg { next : Z; num : Z }.
Abbreviation heap := (gmap Z msg).

Inductive cpc :=
  | C_lock | C_test | C_waiting | C_relock | C_take | C_advance | C_unlock | C_print | C_free
  | C_sleep.
Inductive ppc :=
  | P_malloc | P_num | P_print | P_lock | P_test | P_head | P_head_next | P_walk (it : Z)
  | P_link (it : Z) | P_link_next | P_unlock | P_signal | P_sleep.

(** [cmp] and [pmp] are the variables [mp] of the consumer and the producer. *)
Record st := St {
  cp : cpc; cmp : Z; pp : ppc; pmp : Z;
  mem : heap; head : Z; lock : bool;
  produced : list Z; consumed : list Z }.

Inductive outcome := Next (s : st) | Blocked | Fault.

(** Read and write through a pointer. *)
Definition load {A} (h : heap) (a : Z) (k : msg → A) (fault : A) : A :=
  match h !! a with Some m => k m | None => fault end.

(** One statement of [consumer]. At [C_waiting] it sleeps in [pthread_cond_wait]. *)
Definition consumer (s : st) : outcome :=
  let '(St cp cmp pp pmp h hd lk po co) := s in
  match cp with
  | C_lock | C_relock => if lk then Blocked else Next (St C_test cmp pp pmp h hd true po co)
  | C_test =>
      if bool_decide (hd = 0) then Next (St C_waiting cmp pp pmp h hd false po co)
      else Next (St C_take cmp pp pmp h hd lk po co)
  | C_waiting => Blocked
  | C_take => Next (St C_advance hd pp pmp h hd lk po co)
  | C_advance => load h cmp (λ m, Next (St C_unlock cmp pp pmp h (next m) lk po co)) Fault
  | C_unlock => Next (St C_print cmp pp pmp h hd false po co)
  | C_print => load h cmp (λ m, Next (St C_free cmp pp pmp h hd lk po (co ++ [num m]))) Fault
  | C_free => load h cmp (λ _, Next (St C_sleep cmp pp pmp (delete cmp h) hd lk po co)) Fault
  | C_sleep => Next (St C_lock cmp pp pmp h hd lk po co)
  end.

(** What a wake-up does to a waiting consumer. *)
Definition wake (p : cpc) : cpc := match p with C_waiting => C_relock | _ => p end.

Definition spurious (s : st) : st :=
  let '(St cp cmp pp pmp h hd lk po co) := s in St (wake cp) cmp pp pmp h hd lk po co.

(** What the environment chooses: the block [malloc] returns and what it
    holds, and the result of [rand]. *)
Record choice := Choice { addr : Z; junk : msg; rnd : Z }.

Definition RAND_MAX : Z := 2 ^ 31 - 1.

(** [malloc] returns NULL or a block that is not in use. *)
Definition choice_ok (s : st) (e : choice) : Prop :=
  (addr e = 0 ∨ mem s !! addr e = None) ∧ 0 <= rnd e <= RAND_MAX.

Definition producer (e : choice) (s : st) : outcome :=
  let '(St cp cmp pp pmp h hd lk po co) := s in
  match pp with
  | P_malloc =>
      Next (St cp cmp P_num (addr e)
        (if bool_decide (addr e = 0) then h else <[addr e := junk e]> h) hd lk po co)
  | P_num =>
      load h pmp (λ m, Next (St cp cmp P_print pmp
        (<[pmp := Msg (next m) (Z.rem (rnd e) 1000 + 1)]> h) hd lk po co)) Fault
  | P_print => load h pmp (λ m, Next (St cp cmp P_lock pmp h hd lk (po ++ [num m]) co)) Fault
  | P_lock => if lk then Blocked else Next (St cp cmp P_test pmp h hd true po co)
  | P_test => Next (St cp cmp (if bool_decide (hd = 0) then P_head else P_walk hd) pmp h hd lk po co)
  | P_head => Next (St cp cmp P_head_next pmp h pmp lk po co)
  | P_head_next | P_link_next =>
      load h pmp (λ m, Next (St cp cmp P_unlock pmp (<[pmp := Msg 0 (num m)]> h) hd lk po co)) Fault
  | P_walk it =>
      if bool_decide (it = 0) then Next (St cp cmp P_unlock pmp h hd lk po co)
      else load h it (λ m,
        Next (St cp cmp (if bool_decide (next m = 0) then P_link it else P_walk (next m))
                 pmp h hd lk po co)) Fault
  | P_link it =>
      load h it (λ m, Next (St cp cmp P_link_next pmp (<[it := Msg pmp (num m)]> h) hd lk po co))
        Fault
  | P_unlock => Next (St cp cmp P_signal pmp h hd false po co)
  | P_signal => Next (St (wake cp) cmp P_sleep pmp h hd lk po co)
  | P_sleep => Next (St cp cmp P_malloc pmp h hd lk po co)
  end.

(** [main]: [head] is a global, so [NULL]; the locals hold anything. *)
Definition main (x y : Z) : st := St C_lock x P_malloc y ∅ 0 false [] [].

Inductive reach : st → Prop :=
  | reach_main x y : reach (main x y)
  | reach_consumer s s' : reach s → consumer s = Next s' → reach s'
  | reach_producer s s' e : reach s → choice_ok s e → producer e s = Next s' → reach s'
  | reach_spurious s : reach s → reach (spurious s).

(** ** The list in memory *)

(** [lseg h a l z]: the messages from [a] up to the pointer [z] are [l]. *)
Fixpoint lseg (h : heap) (a : Z) (l : list (Z * Z)) (z : Z) : Prop :=
  match l with
  | [] => a = z
  | (x, v) :: l => a = x ∧ ∃ n, h !! x = Some (Msg n v) ∧ lseg h n l z
  end.

Lemma lseg_app h l1 : ∀ a l2 z,
  lseg h a (l1 ++ l2) z ↔ ∃ y, lseg h a l1 y ∧ lseg h y l2 z.
Proof.
  induction l1 as [|[x v] l1 IH]; intros a l2 z; simpl.
  - split; [eauto|by intros (y & -> & ?)].
  - setoid_rewrite IH. naive_solver.
Qed.

(** Memory outside the list does not matter. *)
Lemma lseg_ext h h' l : ∀ a z,
  (∀ x, x ∈ l.*1 → h' !! x = h !! x) → lseg h a l z → lseg h' a l z.
Proof.
  induction l as [|[x v] l IH]; intros a z Hh; simpl; [done|].
  intros (-> & n & E & Hl). split; [done|]. exists n. split.
  - rewrite Hh; [done|]. left.
  - apply IH; [|done]. intros y Hy. apply Hh. by right.
Qed.

Lemma lseg_insert h a l z x m : x ∉ l.*1 → lseg h a l z → lseg (<[x := m]> h) a l z.
Proof.
  intros Hx. apply lseg_ext. intros y Hy. apply lookup_insert_ne. by intros ->.
Qed.

Lemma lseg_delete h a l z x : x ∉ l.*1 → lseg h a l z → lseg (delete x h) a l z.
Proof.
  intros Hx. apply lseg_ext. intros y Hy. apply lookup_delete_ne. by intros ->.
Qed.

(** A list that ends at [NULL] and has no [NULL] cell is empty exactly when it
    starts at [NULL]. *)
Lemma lseg_null h a l : 0 ∉ l.*1 → lseg h a l 0 → (a = 0 ↔ l = []).
Proof.
  destruct l as [|[x v] l]; simpl; [done|]. intros H0 (-> & _). split; [|done].
  intros ->. exfalso. apply H0. left.
Qed.

(** ** The invariant

    The blocks in use are the list, the message the consumer has taken and not
    freed, and the message the producer has allocated and not linked. *)
Definition cowns (s : st) : list Z :=
  match cp s with C_unlock | C_print | C_free => [cmp s] | _ => [] end.
Definition powns (s : st) : list Z :=
  match pp s with
  | P_malloc | P_unlock | P_signal | P_sleep => []
  | P_num => if bool_decide (pmp s = 0) then [] else [pmp s]
  | _ => [pmp s]
  end.
Definition owned (l : list (Z * Z)) (s : st) : list Z := cowns s ++ l.*1 ++ powns s.

Definition number (h : heap) (a : Z) : list Z := load h a (λ m, [num m]) [].

(** Taken and not printed; printed and not linked. *)
Definition cflight (s : st) : list Z :=
  match cp s with C_unlock | C_print => number (mem s) (cmp s) | _ => [] end.
Definition pflight (s : st) : list Z :=
  match pp s with
  | P_lock | P_test | P_head | P_head_next | P_walk _ | P_link _ | P_link_next =>
      number (mem s) (pmp s)
  | _ => []
  end.

Definition clocked (p : cpc) : bool :=
  match p with C_test | C_take | C_advance | C_unlock => true | _ => false end.
Definition plocked (p : ppc) : bool :=
  match p with
  | P_test | P_head | P_head_next | P_walk _ | P_link _ | P_link_next | P_unlock => true
  | _ => false
  end.

(** The pointer that ends the list: between the two assignments that link a
    message it is the message, whose own [next] is not set yet. *)
Definition tail (s : st) : Z :=
  match pp s with P_head_next | P_link_next => pmp s | _ => 0 end.

Definition ppos (l : list (Z * Z)) (p : ppc) : Prop :=
  match p with
  | P_head => l = []
  | P_walk it => ∃ l1 v l2, l = l1 ++ (it, v) :: l2
  | P_link it => ∃ l1 v, l = l1 ++ [(it, v)]
  | _ => True
  end.
Definition cpos (l : list (Z * Z)) (s : st) : Prop :=
  match cp s with C_take => l ≠ [] | C_advance => l ≠ [] ∧ cmp s = head s | _ => True end.

Record inv (l : list (Z * Z)) (s : st) : Prop := {
  i_nodup : NoDup (0 :: owned l s);
  i_dom : ∀ x, is_Some (mem s !! x) ↔ x ∈ owned l s;
  i_seg : lseg (mem s) (head s) l (tail s);
  i_p : ppos l (pp s);
  i_c : cpos l s;
  i_lock : lock s = clocked (cp s) || plocked (pp s);
  i_excl : clocked (cp s) && plocked (pp s) = false;
  i_wait : cp s = C_waiting → l = [] ∨ pp s = P_unlock ∨ pp s = P_signal;
  i_fifo : produced s = consumed s ++ cflight s ++ l.*2 ++ pflight s }.

Lemma ppos_unlocked l p : plocked p = false → ppos l p.
Proof. by destruct p. Qed.

Lemma inv_list_cell l s a : inv l s → a ∈ owned l s → ∃ m, mem s !! a = Some m.
Proof. intros Hi Ha. by apply (i_dom _ _ Hi). Qed.

Lemma inv_not_null l s : inv l s → 0 ∉ l.*1.
Proof.
  intros Hi. pose proof (i_nodup _ _ Hi) as [H _]%NoDup_cons. intros H0. apply H.
  unfold owned. rewrite !elem_of_app. tauto.
Qed.

Ltac inv_goal :=
  constructor; unfold owned, cowns, powns, cflight, pflight, tail, cpos; simpl in *; auto;
  try done;
  try match goal with
  | Hw : ?p = C_waiting → _ |- ?p = C_waiting → _ =>
      let Hq := fresh in intros Hq; destruct (Hw Hq) as [?|[?|?]]; by auto
  end.

Ltac inv_cases := intros [Hnd Hdom Hseg Hp Hc Hlk Hex Hw Hff];
  unfold owned, cowns, powns, cflight, pflight, tail, ppos, cpos in *; simpl in *.

(** The critical section of the consumer that takes the first message. *)
Lemma inv_advance l s s' : inv l s → cp s = C_advance → consumer s = Next s' →
  ∃ x l', l = x :: l' ∧ inv l' s'.
Proof.
  destruct s as [cp cmp pp pmp h hd lk po co]. simpl. intros Hi -> Hs. revert Hi. inv_cases.
  destruct Hc as [Hne ->]. destruct l as [|[x v] l]; [done|].
  assert (plocked pp = false) as Hpl by (by destruct pp).
  assert (∀ m, match pp with P_head_next | P_link_next => m | _ => 0 end = 0) as Ht
    by (intros; by destruct pp).
  rewrite Ht in Hseg. destruct Hseg as (-> & n & E & Hseg). unfold load in Hs.
  rewrite E in Hs. injection Hs as <-. exists (x, v), l. split; [done|].
  inv_goal.
  - by rewrite Ht.
  - by apply ppos_unlocked.
  - unfold number, load. by rewrite E.
Qed.

Lemma tail_unlocked s : plocked (pp s) = false → tail s = 0.
Proof. unfold tail. by destruct (pp s). Qed.

(** The messages of the other thread are not the ones [free] and the writes of
    a thread touch. *)
Lemma number_ne (h h' : heap) a : h' !! a = h !! a → number h' a = number h a.
Proof. unfold number, load. by intros ->. Qed.

(** [free]: the consumer gives its block back. *)
Lemma inv_free l s s' : inv l s → cp s = C_free → consumer s = Next s' → inv l s'.
Proof.
  destruct s as [cp cmp pp pmp h hd lk po co]. simpl. intros Hi -> Hs. revert Hi. inv_cases.
  unfold load in Hs. destruct (h !! cmp) as [m|] eqn:E; [|done]. injection Hs as <-.
  apply NoDup_cons in Hnd as [H0 Hnd]. pose proof Hnd as [Hcmp Hnd']%NoDup_cons.
  assert (cmp ∉ l.*1) as Hl by (intros H; apply Hcmp; rewrite elem_of_app; tauto).
  inv_goal.
  - apply NoDup_cons. split; [|done]. intros H. apply H0. by right.
  - intros x. destruct (decide (x = cmp)) as [->|].
    + rewrite lookup_delete_eq. split; [by intros []|done].
    + rewrite lookup_delete_ne, Hdom by done. rewrite elem_of_cons. naive_solver.
  - by apply lseg_delete.
  - rewrite Hff. simpl. do 2 f_equal.
    destruct pp; try done; symmetry; apply number_ne, lookup_delete_ne; intros ->; apply Hcmp;
      apply elem_of_app; right; left.
Qed.

Lemma consumer_inv l s s' : inv l s → consumer s = Next s' → ∃ l', inv l' s'.
Proof.
  intros Hi Hs. destruct (cp s) eqn:Ecp.
  6: { destruct (inv_advance _ _ _ Hi Ecp Hs) as (x & l' & _ & ?). eauto. }
  8: { exists l. by eapply inv_free. }
  all: exists l; pose proof (inv_not_null _ _ Hi) as H0;
    destruct s as [cp cmp pp pmp h hd lk po co]; simpl in Ecp; subst cp; simpl in Hs;
    pose proof (tail_unlocked (St C_lock cmp pp pmp h hd lk po co)) as Ht; simpl in Ht;
    revert Hi; inv_cases.
  1,4: destruct lk; [done|]; injection Hs as <-;
    inv_goal.
  - rewrite (Ht Hex) in Hseg. pose proof (lseg_null _ _ _ H0 Hseg) as Hn.
    destruct (decide (hd = 0)) as [->|Hd].
    + injection Hs as <-.
      inv_goal.
      * by rewrite (Ht Hex).
      * intros _. left. by apply Hn.
    + rewrite bool_decide_false in Hs by done. injection Hs as <-.
      inv_goal.
      * by rewrite (Ht Hex).
      * intros ->. by apply Hd, Hn.
  - done.
  - injection Hs as <-.
    inv_goal.
  - injection Hs as <-.
    inv_goal.
  - unfold load in Hs. destruct (h !! cmp) as [m|] eqn:E; [|done]. injection Hs as <-.
    inv_goal.
    rewrite Hff. unfold number, load. rewrite E. by rewrite <- app_assoc.
  - injection Hs as <-.
    inv_goal.
Qed.

(** ** The steps of the producer *)

(** Writing a block that is allocated keeps the blocks in use. *)
Lemma dom_insert (h : heap) a m m' (o : list Z) :
  h !! a = Some m → (∀ x, is_Some (h !! x) ↔ x ∈ o) → ∀ x, is_Some (<[a := m']> h !! x) ↔ x ∈ o.
Proof.
  intros E Hd x. destruct (decide (x = a)) as [->|]; [|by rewrite lookup_insert_ne].
  rewrite lookup_insert_eq, <- Hd, E. done.
Qed.

(** What the consumer holds is not changed by a write to another block. *)
Lemma cflight_insert (p : cpc) h a b m :
  b ∉ match p with C_unlock | C_print | C_free => [a] | _ => [] end →
  match p with C_unlock | C_print => number (<[b := m]> h) a | _ => [] end =
  match p with C_unlock | C_print => number h a | _ => [] end.
Proof.
  intros H. destruct p; try done; apply number_ne, lookup_insert_ne;
    intros ->; apply H; left.
Qed.

Lemma owned_disjoint (c l : list Z) a :
  NoDup (0 :: (c ++ (l ++ [a]))) → (a ∉ c) ∧ (a ∉ l) ∧ a ≠ 0.
Proof.
  rewrite app_assoc, NoDup_cons, NoDup_app, elem_of_app. intros [H0 (_ & H & _)].
  repeat split.
  - intros Ha. apply (H a); [|left]. apply elem_of_app. by left.
  - intros Ha. apply (H a); [|left]. apply elem_of_app. by right.
  - intros ->. apply H0. right. left.
Qed.

Lemma inv_malloc l s s' e :
  inv l s → choice_ok s e → pp s = P_malloc → producer e s = Next s' → inv l s'.
Proof.
  destruct s as [cp cmp pp pmp h hd lk po co]. unfold choice_ok. simpl.
  intros Hi (Hfree & _) -> [= <-]. revert Hi. inv_cases.
  destruct (decide (addr e = 0)) as [Ha|Ha]; [rewrite Ha; inv_goal|].
  rewrite bool_decide_false by done. destruct Hfree as [|Hfree]; [done|].
  rewrite app_nil_r in Hnd, Hdom.
  assert (∀ x, x ∈ match cp with C_unlock | C_print | C_free => [cmp] | _ => [] end ++ l.*1 →
    x ≠ addr e) as Hne.
  { intros x Hx ->. apply Hdom in Hx. rewrite Hfree in Hx. by destruct Hx. }
  setoid_rewrite elem_of_app in Hne. inv_goal; rewrite ?(bool_decide_false (addr e = 0)) by done.
  - rewrite app_assoc. change (0 :: ?l ++ ?k) with ((0 :: l) ++ k). apply NoDup_app.
    repeat split; [done| |apply NoDup_singleton].
    intros x Hx ->%list_elem_of_singleton. apply elem_of_cons in Hx as [Hx|Hx]; [done|].
    apply elem_of_app in Hx. by apply (Hne (addr e)).
  - intros x. rewrite app_assoc, elem_of_app, list_elem_of_singleton.
    destruct (decide (x = addr e)) as [->|].
    + rewrite lookup_insert_eq. split; [by right|eauto].
    + rewrite lookup_insert_ne, Hdom by done. tauto.
  - apply lseg_insert; [|done]. intros H. by apply (Hne (addr e)); [right|].
  - rewrite Hff. f_equal. f_equal. symmetry. apply cflight_insert.
    intros H. by apply (Hne (addr e)); [left|].
Qed.

Lemma inv_num l s s' e : inv l s → pp s = P_num → producer e s = Next s' → inv l s'.
Proof.
  destruct s as [cp cmp pp pmp h hd lk po co]. simpl. intros Hi -> Hs. revert Hi. inv_cases.
  unfold load in Hs. destruct (h !! pmp) as [m|] eqn:E; [|done]. injection Hs as <-.
  assert (pmp ≠ 0) as Hp0.
  { intros ->. apply NoDup_cons in Hnd as [H0 _]. apply H0, Hdom. by rewrite E. }
  rewrite bool_decide_false in Hnd, Hdom by done.
  destruct (owned_disjoint _ _ _ Hnd) as (Hnc & Hnl & _). inv_goal.
  - by eapply dom_insert.
  - by apply lseg_insert.
  - by rewrite Hff, (cflight_insert cp h cmp pmp) by done.
Qed.

(** The second assignment of the link: the message becomes the last of the list. *)
Lemma inv_append l s s' e : inv l s → pp s = P_head_next ∨ pp s = P_link_next →
  producer e s = Next s' → ∃ v, number (mem s) (pmp s) = [v] ∧ inv (l ++ [(pmp s, v)]) s'.
Proof.
  destruct s as [cp cmp pp pmp h hd lk po co]. simpl. intros Hi Hpp Hs. revert Hi. inv_cases.
  assert (Hs' : load h pmp (λ m, Next (St cp cmp P_unlock pmp (<[pmp := Msg 0 (num m)]> h)
    hd lk po co)) Fault = Next s') by (by destruct Hpp; subst pp).
  assert (NoDup (0 :: match cp with C_unlock | C_print | C_free => [cmp] | _ => [] end ++
    l.*1 ++ [pmp])) as Hnd' by (by destruct Hpp; subst pp).
  assert (∀ x, is_Some (h !! x) ↔
    x ∈ match cp with C_unlock | C_print | C_free => [cmp] | _ => [] end ++ l.*1 ++ [pmp]) as Hdom'
    by (by destruct Hpp; subst pp).
  assert (lseg h hd l pmp) as Hseg' by (by destruct Hpp; subst pp).
  assert (plocked pp = true) as Hpl by (by destruct Hpp; subst pp).
  rewrite Hpl in Hlk, Hex. rewrite andb_true_r in Hex. rewrite orb_true_r in Hlk.
  unfold load in Hs'. destruct (h !! pmp) as [m|] eqn:E; [|done]. injection Hs' as <-.
  destruct (owned_disjoint _ _ _ Hnd') as (Hnc & Hnl & _).
  exists (num m). split; [unfold number, load; by rewrite E|].
  inv_goal; rewrite ?fmap_app; simpl; rewrite ?app_nil_r; auto.
  - by eapply dom_insert.
  - apply lseg_app. exists pmp. split; [by apply lseg_insert|].
    split; [done|]. exists 0. by rewrite lookup_insert_eq.
  - by destruct cp.
  - by rewrite orb_true_r.
  - by rewrite andb_true_r.
  - rewrite Hff, cflight_insert by done. f_equal. f_equal. f_equal.
    unfold number, load. destruct Hpp; subst pp; by rewrite E.
Qed.

(** The walk stands on a message of the list; it stops at the last one. *)
Lemma inv_walk l s s' e it : inv l s → pp s = P_walk it → producer e s = Next s' → inv l s'.
Proof.
  destruct s as [cp cmp pp pmp h hd lk po co]. simpl. intros Hi -> Hs.
  pose proof (inv_not_null _ _ Hi) as H0. revert Hi. inv_cases.
  destruct Hp as (l1 & v & l2 & ->).
  apply lseg_app in Hseg as Hseg'. destruct Hseg' as (y & _ & (-> & n & E & Hl2)).
  rewrite fmap_app, elem_of_app, fmap_cons, elem_of_cons in H0. simpl in H0.
  rewrite bool_decide_false in Hs by (intros ->; tauto).
  unfold load in Hs. rewrite E in Hs. injection Hs as <-.
  assert (n = 0 ↔ l2 = []) as Hn by (apply (lseg_null h); [tauto|done]).
  destruct (decide (n = 0)) as [->|Hne].
  - assert (l2 = []) as -> by (by apply Hn). inv_goal. eauto.
  - destruct l2 as [|[x w] l2]; [by destruct Hne; apply Hn|]. destruct Hl2 as [-> _].
    rewrite bool_decide_false by done. inv_goal.
    exists (l1 ++ [(it, v)]), w, l2. by rewrite <- app_assoc.
Qed.

(** The first assignment of the link: the last message points to the new one. *)
Lemma inv_link l s s' e it : inv l s → pp s = P_link it → producer e s = Next s' → inv l s'.
Proof.
  destruct s as [cp cmp pp pmp h hd lk po co]. simpl. intros Hi -> Hs. revert Hi. inv_cases.
  destruct Hp as (l1 & v & ->).
  apply lseg_app in Hseg as (y & Hl1 & (-> & n & E & _)).
  unfold load in Hs. rewrite E in Hs. injection Hs as <-.
  destruct (owned_disjoint _ _ _ Hnd) as (_ & Hpl & _).
  assert ((it ∉ match cp with C_unlock | C_print | C_free => [cmp] | _ => [] end) ∧ (it ∉ l1.*1))
    as [Hic Hil].
  { rewrite fmap_app in Hnd. simpl in Hnd. rewrite <- app_assoc, app_assoc in Hnd.
    apply NoDup_cons in Hnd as [_ (_ & Hd & _)%NoDup_app].
    split; intros H; (apply (Hd it); [apply elem_of_app; tauto|left]). }
  assert (it ≠ pmp) as Hne.
  { intros ->. apply Hpl. rewrite fmap_app, elem_of_app. right. left. }
  inv_goal.
  - by eapply dom_insert.
  - apply lseg_app. exists it. split; [by apply lseg_insert|].
    split; [done|]. exists pmp. by rewrite lookup_insert_eq.
  - rewrite Hff, cflight_insert by done. do 3 f_equal. symmetry.
    apply number_ne, lookup_insert_ne. done.
Qed.

Lemma producer_inv l s s' e :
  inv l s → choice_ok s e → producer e s = Next s' → ∃ l', inv l' s'.
Proof.
  intros Hi He Hs. destruct (pp s) eqn:Epp.
  1: { exists l. by eapply inv_malloc. }
  1: { exists l. by eapply inv_num. }
  5: { destruct (inv_append _ _ _ _ Hi (or_introl Epp) Hs) as (v & _ & ?). eauto. }
  5: { exists l. by eapply inv_walk. }
  5: { exists l. by eapply inv_link. }
  5: { destruct (inv_append _ _ _ _ Hi (or_intror Epp) Hs) as (v & _ & ?). eauto. }
  all: exists l; pose proof (inv_not_null _ _ Hi) as H0; clear He;
    destruct s as [cp cmp pp pmp h hd lk po co]; simpl in Epp; subst pp; simpl in Hs;
    revert Hi; inv_cases.
  - unfold load in Hs. destruct (h !! pmp) as [m|] eqn:E; [|done]. injection Hs as <-. inv_goal.
    assert (number h pmp = [num m]) as -> by (unfold number, load; by rewrite E).
    by rewrite Hff, app_nil_r, <- !app_assoc.
  - destruct lk; [done|]. injection Hs as <-. inv_goal.
    all: rewrite orb_false_r in Hlk; rewrite <- Hlk; done.
  - injection Hs as <-. pose proof (lseg_null _ _ _ H0 Hseg) as Hn.
    destruct (decide (hd = 0)) as [->|Hd]; [rewrite bool_decide_true by done|rewrite bool_decide_false by done].
    + inv_goal. by apply Hn.
    + destruct l as [|[x v] l]; [by destruct Hd; apply Hn|]. destruct Hseg as [-> Hseg].
      inv_goal. by exists [], v, l.
  - injection Hs as <-. rewrite Hp in *. inv_goal.
    by destruct cp.
  - injection Hs as <-. rewrite andb_true_r in Hex. inv_goal.
    + by rewrite Hex.
    + by rewrite Hex.
  - injection Hs as <-. destruct cp; inv_goal.
  - injection Hs as <-. inv_goal.
Qed.

Lemma spurious_inv l s : inv l s → inv l (spurious s).
Proof.
  destruct s as [cp cmp pp pmp h hd lk po co]. inv_cases. destruct cp; inv_goal.
Qed.

Lemma reach_inv s : reach s → ∃ l, inv l s.
Proof.
  induction 1 as [x y|s s' _ [l IH] H|s s' e _ [l IH] He H|s _ [l IH]].
  - exists []. inv_goal; [repeat constructor; by apply not_elem_of_nil|].
    intros x'. rewrite lookup_empty. split; [by intros []|by intros ?%elem_of_nil].
  - by eapply consumer_inv.
  - by eapply producer_inv.
  - exists l. by apply spurious_inv.
Qed.

(** ** What the threads cannot do *)

Lemma load_cell l s a {A} (k : msg → A) (z : A) :
  inv l s → a ∈ owned l s → ∃ m, load (mem s) a k z = k m.
Proof.
  intros Hi Ha. destruct (inv_list_cell _ _ _ Hi Ha) as [m E]. exists m. unfold load. by rewrite E.
Qed.

Lemma lseg_start h a l z : l ≠ [] → lseg h a l z → a ∈ l.*1.
Proof. destruct l as [|[x v] l]; [done|]. intros _ [-> _]. left. Qed.

Lemma consumer_safe l s : inv l s → consumer s ≠ Fault.
Proof.
  intros Hi. pose proof (λ a A k z, @load_cell l s a A k z Hi) as Hload. revert Hi.
  destruct s as [cp cmp pp pmp h hd lk po co]. simpl in Hload. inv_cases.
  destruct cp; simpl in *; try done; try (by destruct lk); try (by destruct (bool_decide (hd = 0))).
  all: edestruct (Hload cmp) as [m ->]; [|done].
  2,3: left.
  destruct Hc as [Hne ->]. apply elem_of_app. left. by eapply lseg_start.
Qed.

(** The producer faults exactly when it uses the NULL that [malloc] returned. *)
Lemma producer_safe l s e : inv l s → producer e s = Fault ↔ pp s = P_num ∧ pmp s = 0.
Proof.
  intros Hi. pose proof (λ a A k z, @load_cell l s a A k z Hi) as Hload. revert Hi.
  destruct s as [cp cmp pp pmp h hd lk po co]. simpl in Hload. inv_cases.
  assert (∀ it l1 v l2, l = l1 ++ (it, v) :: l2 → it ∈ l.*1) as Hit.
  { intros it l1 v l2 ->. rewrite fmap_app. apply elem_of_app. right. left. }
  assert (pp = P_num ∨ pp ≠ P_num) as [->|Hne] by (destruct pp; (by left) || (by right)).
  { case_bool_decide as H0.
    - subst pmp. split; [done|]. intros _. unfold load. destruct (h !! 0) eqn:E; [|done].
      apply NoDup_cons in Hnd as [Hnd _]. destruct Hnd. apply Hdom. by rewrite E.
    - edestruct (Hload pmp) as [m ->]; [rewrite !elem_of_app; right; right; left|]. naive_solver. }
  split; [|by intros [? _]].
  destruct pp as [| | | | | | |it|it| | | |]; simpl in *; try done; try (by destruct lk).
  3: destruct (bool_decide (it = 0)); [done|].
  3: destruct Hp as (l1 & v & l2 & Hl).
  4: destruct Hp as (l1 & v & Hl).
  3,4: edestruct (Hload it) as [m ->]; [|done]; rewrite !elem_of_app; right; left; by eapply Hit.
  all: edestruct (Hload pmp) as [m ->]; [|done]; rewrite !elem_of_app; right; right; left.
Qed.

(** The producer waits only for a mutex the consumer holds. *)
Lemma producer_blocked l s e :
  inv l s → producer e s = Blocked → pp s = P_lock ∧ clocked (cp s) = true.
Proof.
  intros Hi Hb. pose proof (i_lock _ _ Hi) as Hlk. destruct s as [cp cmp pp pmp h hd lk po co].
  destruct pp; simpl in *; unfold load in Hb; repeat case_match; try done.
  by rewrite orb_false_r in Hlk.
Qed.

Lemma consumer_runs l s : inv l s → clocked (cp s) = true → ∃ s', consumer s = Next s'.
Proof.
  intros Hi Hc. pose proof (consumer_safe _ _ Hi) as Hs.
  destruct (consumer s) as [s'| |] eqn:E; [eauto| |done].
  destruct s as [[] cmp pp pmp h hd lk po co]; simpl in *; unfold load in E;
    repeat case_match; done.
Qed.

(** ** The walk of the producer *)

Fixpoint produce_n (n : nat) (e : choice) (s : st) : outcome :=
  match n with
  | O => Next s
  | S n => match producer e s with Next s => produce_n n e s | o => o end
  end.

Lemma walk_ends e cp cmp pmp h hd lk po co l : ∀ it x v,
  0 ∉ (l ++ [(x, v)]).*1 → lseg h it (l ++ [(x, v)]) 0 →
  produce_n (S (length l)) e (St cp cmp (P_walk it) pmp h hd lk po co) =
  Next (St cp cmp (P_link x) pmp h hd lk po co).
Proof.
  induction l as [|[y w] l IH]; intros it x v H0 Hl; simpl in H0, Hl;
    rewrite elem_of_cons in H0; destruct Hl as (-> & n & E & Hl);
    cbn [length produce_n producer]; rewrite bool_decide_false by (intros ->; tauto);
    unfold load; rewrite E; cbn [next].
  - simpl in Hl. by rewrite Hl, bool_decide_true.
  - rewrite bool_decide_false; [apply (IH n x v); tauto|].
    intros ->. destruct (lseg_null h 0 (l ++ [(x, v)])) as [Hn _]; [tauto|done|].
    specialize (Hn eq_refl). by apply app_nil in Hn as [_ ?].
Qed.

(** The list of [cond_var.c] is a FIFO that is used safely. In every
    reachable state (spurious wake-ups included) no statement of either thread
    accesses memory that is not allocated or frees a block twice, but for the producer
    after [malloc] returned NULL; the numbers
    produced are the numbers consumed, then the one the consumer has taken and
    not printed, then those of the list from [head], then the one the producer
    has printed and not linked; the blocks allocated are exactly the list and
    what the two threads hold, so that nothing leaks. *)
Theorem condvar_fifo_memory_safe s :
  reach s →
  consumer s ≠ Fault ∧ (∀ e, producer e s = Fault ↔ pp s = P_num ∧ pmp s = 0) ∧
  ∃ l, lseg (mem s) (head s) l (tail s) ∧
    produced s = consumed s ++ cflight s ++ l.*2 ++ pflight s ∧
    NoDup (owned l s) ∧ (∀ x, is_Some (mem s !! x) ↔ x ∈ owned l s).
Proof.
  intros [l Hi]%reach_inv. split; [by eapply consumer_safe|].
  split; [intros e; by eapply producer_safe|].
  exists l. pose proof (i_nodup _ _ Hi) as [_ Hnd]%NoDup_cons. by destruct Hi.
Qed.

(** No wake-up is lost in [cond_var.c] and it does not deadlock: a consumer
    that waits while the list is not empty has a producer before its
    [pthread_cond_signal], which wakes it; when the producer is blocked the
    consumer is not; and the producer's walk down the list ends at the last
    message, in as many steps as the list is long. *)
Theorem condvar_no_lost_wakeup s :
  reach s →
  (cp s = C_waiting → head s ≠ 0 →
     pp s = P_head_next ∨ pp s = P_link_next ∨ pp s = P_unlock ∨ pp s = P_signal) ∧
  (∀ e s', pp s = P_signal → cp s = C_waiting → producer e s = Next s' → cp s' = C_relock) ∧
  (∀ e, producer e s = Blocked → ∃ s', consumer s = Next s') ∧
  (∀ e, pp s = P_walk (head s) → ∃ n s' it, produce_n n e s = Next s' ∧ pp s' = P_link it ∧
     mem s' = mem s ∧ load (mem s) it next 1 = 0).
Proof.
  intros [l Hi]%reach_inv. repeat split.
  - intros Hw Hh. pose proof (i_wait _ _ Hi Hw) as Hl. pose proof (i_seg _ _ Hi) as Hs.
    destruct Hl as [->|?]; [|tauto]. simpl in Hs. unfold tail in Hs.
    destruct (pp s); try done; auto.
  - intros e s' Hp Hc. destruct s; simpl in *; subst. by intros [= <-].
  - intros e [Hp Hc]%(producer_blocked _ _ _ Hi). by eapply consumer_runs.
  - intros e Hp. pose proof (inv_not_null _ _ Hi) as H0. pose proof (i_seg _ _ Hi) as Hs.
    pose proof (i_p _ _ Hi) as Hl. unfold tail in Hs. rewrite Hp in Hs, Hl.
    destruct Hl as (l1 & v & l2 & El).
    destruct l as [|[x w] l _] using rev_ind; [by destruct l1|].
    exists (S (length l)). destruct s as [cp cmp pp pmp h hd lk po co].
    cbn [CondVar.pp mem head] in *. subst pp.
    rewrite (walk_ends e _ _ _ h hd _ _ _ l hd x w) by done.
    eexists _, x. split; [done|]. split; [done|]. split; [done|].
    apply lseg_app in Hs as (y & _ & (-> & n & E & Hn)). unfold load. by rewrite E.
Qed.

(** ** A run

    The consumer waits on the empty list; the producer links a message and is
    about to signal. *)
Definition demo : st :=
  St C_waiting 0 P_signal 8 {[ 8 := Msg 0 42 ]} 8 false [42] [].

Definition e8 : choice := Choice 8 (Msg 7 7) 41.
Definition e16 : choice := Choice 16 (Msg 7 7) 41.

Lemma step_producer e s s' : choice_ok s e → producer e s = Next s' → reach s → reach s'.
Proof. intros. by eapply reach_producer. Qed.

Ltac demo_step e :=
  match goal with
  | H : reach ?s |- _ =>
      let s' := eval vm_compute in (producer e s) in
      match s' with
      | Next ?s' =>
          apply (step_producer e s s' ltac:(split; [right; by vm_compute|by vm_compute]) ltac:(by vm_compute)) in H
      end
  end.

Lemma demo_reach : reach demo.
Proof.
  assert (reach (St C_waiting 0 P_malloc 0 ∅ 0 false [] [])) as H.
  { eapply reach_consumer; [eapply reach_consumer; [apply (reach_main 0 0)|]|];
      reflexivity. }
  demo_step e8. do 7 demo_step e16. exact H.
Qed.

Lemma condvar_fifo_memory_safe_witness : reach demo ∧ consumer demo ≠ Fault.
Proof.
  split; [exact demo_reach|]. exact (proj1 (condvar_fifo_memory_safe demo demo_reach)).
Defined.

Lemma condvar_no_lost_wakeup_witness :
  reach demo ∧ cp demo = C_waiting ∧ head demo ≠ 0 ∧
  (pp demo = P_head_next ∨ pp demo = P_link_next ∨ pp demo = P_unlock ∨ pp demo = P_signal).
Proof.
  split; [exact demo_reach|]. split; [reflexivity|]. split; [discriminate|].
  exact (proj1 (condvar_no_lost_wakeup demo demo_reach) eq_refl ltac:(discriminate)).
Defined.

(** C38. The list of [cond_var.c] is a FIFO that is used safely and without lost
    wake-up. In every reachable state, spurious wake-ups included, no statement
    accesses memory that is not allocated, except that the producer does so exactly when
    [malloc] has just returned NULL, which it does not check; the numbers produced are those
    consumed, the one the consumer has taken, those of the list and the one the
    producer has not linked yet, and exactly these blocks are allocated; a
    consumer that waits while the list is not empty has a producer before its
    signal; and when the producer is blocked the consumer is not. *)
Theorem condvar_correct s :
  reach s →
  consumer s ≠ Fault ∧ (∀ e, producer e s = Fault ↔ pp s = P_num ∧ pmp s = 0) ∧
  (∃ l, lseg (mem s) (head s) l (tail s) ∧
    produced s = consumed s ++ cflight s ++ l.*2 ++ pflight s ∧
    NoDup (owned l s) ∧ (∀ x, is_Some (mem s !! x) ↔ x ∈ owned l s)) ∧
  (cp s = C_waiting → head s ≠ 0 →
     pp s = P_head_next ∨ pp s = P_link_next ∨ pp s = P_unlock ∨ pp s = P_signal) ∧
  (∀ e, producer e s = Blocked → ∃ s', consumer s = Next s').
Proof.
  intros Hr. destruct (condvar_fifo_memory_safe s Hr) as (H1 & H2 & H3).
  destruct (condvar_no_lost_wakeup s Hr) as (H4 & _ & H5 & _). auto 6.
Qed.

Lemma condvar_correct_witness : reach demo ∧ consumer demo ≠ Fault.
Proof. split; [exact demo_reach|]. exact (proj1 (condvar_correct demo demo_reach)). Defined.

(** Without memory the first message is a NULL pointer, and the producer crashes. *)
Example condvar_null_message :
  ∃ s, reach s ∧ ∀ e, producer e s = Fault.
Proof.
  exists (St C_lock 0 P_num 0 ∅ 0 false [] []). split; [|done].
  apply (reach_producer (main 0 0) _ (Choice 0 (Msg 0 0) 0)); [apply reach_main| |done].
  split; [by left|by vm_compute].
Qed.

End CondVar.
