(* ===== verification/FuseHello.v ===== *)
(** * The FUSE example file system

    Models [src/io/fuse-hello/hello.c]: the four operations of a file system
    with one file. A path is a string, [struct stat] the three fields the code
    sets, and the directory filler of libfuse a function that the operation
    calls with each name. *)

From Stdlib Require Import String.
From S2P Require Import Prelude.

#[local] Set Warnings "-clear-no-such-hyp".
#[local] Open Scope Z_scope.

Module FuseHello.

Definition EACCES : Z := 13.
Definition S_IFDIR : Z := 0x4000.
Definition S_IFREG : Z := 0x8000.
Definition O_RDONLY : Z := 0.

(** "Hello World!\n" without its terminating zero. *)
Definition hello_str : list Z := [72; 101; 108; 108; 111; 32; 87; 111; 114; 108; 100; 33; 10].
Definition hello_path : string := "/hello"%string.

Record stat := Stat { st_mode : Z; st_nlink : Z; st_size : Z }.

(** [*stbuf] and the result. *)
Definition hello_getattr (path : string) : stat * Z :=
  if String.eqb path "/"%string then (Stat (Z.lor S_IFDIR 0x1ED) 2 0, 0)
  else if String.eqb path hello_path then
    (Stat (Z.lor S_IFREG 0x124) 1 (Z.of_nat (length hello_str)), 0)
  else (Stat 0 0 0, - ENOENT).

(** [filler] adds a name to [buf]; its result is ignored. *)
Definition hello_readdir {B} (filler : B → string → B) (path : string) (buf : B) : B * Z :=
  if negb (String.eqb path "/"%string) then (buf, - ENOENT)
  else (filler (filler (filler buf "."%string) ".."%string) (substring 1 (String.length hello_path) hello_path), 0).

Definition hello_open (path : string) (flags : Z) : Z :=
  if negb (String.eqb path hello_path) then - ENOENT
  else if negb (Z.land flags 3 =? O_RDONLY) then - EACCES
  else 0.

(** [memcpy] from the string literal; [None] when it reads behind it. *)
Definition copy_hello (offset size : Z) : option (list Z) :=
  if (0 <=? offset) && (offset + size <=? Z.of_nat (length hello_str) + 1)
  then Some (take (Z.to_nat size) (drop (Z.to_nat offset) (hello_str ++ [0]))) else None.

(** What is copied to the start of [buf], and the result. The comparisons are
    those of [size_t], to which the signed [offset] is converted; the result is
    an [int]. *)
Definition hello_read (path : string) (size offset : Z) : option (list Z * Z) :=
  if negb (String.eqb path hello_path) then Some ([], - ENOENT)
  else
    let len := Z.of_nat (length hello_str) in
    if wrapu 64 offset <? len then
      let size := if len <? wrapu 64 (offset + size) then wrapu 64 (len - offset) else size in
      b ← copy_hello offset size; Some (b, wraps 32 size)
    else Some ([], 0).

(** A client that reads the file from [offset] in pieces of [size] until it
    gets none; [fuel] pieces at most. *)
Fixpoint read_all (fuel : nat) (size offset : Z) : option (list Z) :=
  match fuel with
  | O => None
  | S fuel =>
      '(b, n) ← hello_read hello_path size offset;
      if n =? 0 then Some [] else rest ← read_all fuel size (offset + n); Some (b ++ rest)
  end.

(** The names of a directory. *)
Definition listing (path : string) : list string * Z :=
  hello_readdir (λ l n, l ++ [n]) path [].

Lemma hello_read_slice size offset :
  0 <= size → 0 <= offset → offset + size < 2 ^ 64 →
  hello_read hello_path size offset =
  Some (take (Z.to_nat size) (drop (Z.to_nat offset) hello_str),
        Z.of_nat (length (take (Z.to_nat size) (drop (Z.to_nat offset) hello_str)))).
Proof.
  intros Hs Ho Hlt. unfold hello_read. rewrite String.eqb_refl. cbn [negb].
  rewrite !wrapu_small by lia. rewrite length_take, length_drop.
  assert (Z.of_nat (length hello_str) = 13) as Hl by done. rewrite Hl.
  destruct (Z.ltb_spec offset 13).
  - assert (∀ n, 0 <= n → offset + n <= 13 → copy_hello offset n =
      Some (take (Z.to_nat n) (drop (Z.to_nat offset) hello_str))) as Hc.
    { intros n Hn Hb. unfold copy_hello. rewrite Hl.
      destruct (Z.leb_spec 0 offset), (Z.leb_spec (offset + n) (13 + 1)); try lia. cbn [andb]. f_equal. rewrite drop_app_le by lia.
      rewrite take_app_le by (rewrite length_drop; lia). done. }
    destruct (Z.ltb_spec 13 (offset + size)).
    + rewrite wrapu_small by lia. rewrite Hc by lia. cbn [mbind option_bind].
      rewrite wraps_small by lia. f_equal. f_equal; [|lia].
      rewrite !take_ge; [done| |]; rewrite length_drop; lia.
    + rewrite Hc by lia. cbn [mbind option_bind]. rewrite wraps_small by lia.
      f_equal. f_equal. lia.
  - rewrite drop_ge by lia. rewrite take_nil. f_equal. f_equal. lia.
Qed.

Lemma hello_read_negative size offset :
  - 2 ^ 63 <= offset < 0 → hello_read hello_path size offset = Some ([], 0).
Proof.
  intros H. unfold hello_read. rewrite String.eqb_refl. cbn [negb].
  assert (wrapu 64 offset = offset + 2 ^ 64) as ->.
  { unfold wrapu. rewrite <- (Z_mod_plus_full offset 1). apply Z.mod_small. lia. }
  assert (Z.of_nat (length hello_str) = 13) as -> by done.
  destruct (Z.ltb_spec (offset + 2 ^ 64) 13); [lia|done].
Qed.

Lemma read_all_suffix size : 1 <= size < 2 ^ 63 → ∀ fuel offset,
  0 <= offset → (length (drop (Z.to_nat offset) hello_str) < fuel)%nat → offset < 2 ^ 32 →
  read_all fuel size offset = Some (drop (Z.to_nat offset) hello_str).
Proof.
  intros Hs. induction fuel as [|fuel IH]; intros offset Ho Hf Hb; [lia|].
  cbn [read_all]. rewrite hello_read_slice by lia. cbn [mbind option_bind].
  set (rest := drop (Z.to_nat offset) hello_str) in *.
  assert (length rest <= 13)%nat by (subst rest; rewrite length_drop; simpl; lia).
  destruct (Z.eqb_spec (Z.of_nat (length (take (Z.to_nat size) rest))) 0) as [E|E];
    rewrite length_take in E.
  - destruct rest; [done|]. simpl in E. lia.
  - assert (offset < 13) by (subst rest; rewrite length_drop in E; simpl length in E; lia).
    rewrite length_take. set (n := Nat.min (Z.to_nat size) (length rest)) in *.
    assert (drop (Z.to_nat (offset + Z.of_nat n)) hello_str = drop n rest) as Hd.
    { subst rest. rewrite drop_drop. f_equal. lia. }
    rewrite IH, Hd; [|lia|rewrite Hd, length_drop; lia|lia].
    cbn [mbind option_bind]. f_equal. rewrite <- (take_drop n rest) at 3. f_equal.
    subst n. rewrite <- (take_ge rest (length rest)) at 1 by lia.
    by rewrite take_take.
Qed.

(** The operations of [hello.c] describe one file system: [getattr] knows
    the two paths and no other; [readdir] lists the root, and the name it gives
    for the file is one [getattr] knows; [open] accepts the file read-only and
    nothing else; a client that reads the file in pieces of any size gets
    exactly its contents, whose length is the size [getattr] reports; an
    offset behind the end or negative reads nothing. *)
Theorem fuse_hello_consistent (path : string) (flags size offset : Z) :
  1 <= size < 2 ^ 63 → - 2 ^ 63 <= offset < 2 ^ 63 →
  ((hello_getattr path).2 = 0 ↔ path = "/"%string ∨ path = hello_path) ∧
  ((listing path).2 = 0 ↔ path = "/"%string) ∧
  (∃ name, (listing "/").1 !! 2%nat = Some name ∧ String.append "/" name = hello_path) ∧
  (hello_open path flags = 0 ↔ path = hello_path ∧ Z.land flags 3 = O_RDONLY) ∧
  read_all 14 size 0 = Some hello_str ∧
  st_size (hello_getattr hello_path).1 = Z.of_nat (length hello_str) ∧
  (offset < 0 ∨ 13 <= offset → hello_read hello_path size offset = Some ([], 0)) ∧
  (path ≠ hello_path → hello_read path size offset = Some ([], - ENOENT)).
Proof.
  intros Hs Ho. split_and!.
  - unfold hello_getattr. destruct (String.eqb_spec path "/"), (String.eqb_spec path hello_path);
      simpl; split; try tauto; try done.
  - unfold listing, hello_readdir. by destruct (String.eqb_spec path "/").
  - exists "hello"%string. split; reflexivity.
  - unfold hello_open. destruct (String.eqb_spec path hello_path); simpl; [|naive_solver].
    destruct (Z.eqb_spec (Z.land flags 3) O_RDONLY); simpl; naive_solver.
  - rewrite read_all_suffix; [done|lia|lia|simpl; lia|lia].
  - reflexivity.
  - intros [H|H]; [apply hello_read_negative; lia|].
    rewrite hello_read_slice by lia. rewrite drop_ge by (simpl; lia). by rewrite take_nil.
  - intros H. unfold hello_read. by destruct (String.eqb_spec path hello_path).
Qed.

Lemma fuse_hello_consistent_witness :
  (1 <= 4 < 2 ^ 63) ∧ (- 2 ^ 63 <= -1 < 2 ^ 63) ∧ read_all 14 4 0 = Some hello_str.
Proof.
  split; [lia|]. split; [lia|].
  exact (proj1 (proj2 (proj2 (proj2 (proj2
    (fuse_hello_consistent "/x" 1 4 (-1) ltac:(lia) ltac:(lia))))))).
Defined.

End FuseHello.
