(* ===== verification/SysvSem.v ===== *)
(** * Processes that share a System V semaphore

    Models [src/app/multi_process/day3/sysvshm/sem.c]: a process makes a semaphore,
    forks [num] children that enter a critical section twice each, waits for them and
    removes the semaphore. A step is a system call of one process or what it does
    between two; printing and sleeping take a step and any time. Every call that the
    program checks may fail ([Fail]), and a child may be killed at any time ([Kill]):
    then the kernel undoes its operations, since they have the flag [SEM_UNDO].

    [arg.array=1] and [arg.val], which [semctl] reads, are the same word of a union, so
    that the semaphore starts with 1. *)

From S2P Require Import Prelude.

#[local] Open Scope Z_scope.
#[local] Set Warnings "-clear-no-such-hyp".

Module SysvSem.

Inductive action := Run | Fail | Kill.

(** Where a child is, in round [j] of its loop. *)
Inductive cpc := C_semget | C_sleep (j : nat) | C_acquire (j : nat) | C_enter (j : nat) | C_leave (j : nat) | C_release (j : nat) | C_exit (code : Z) | C_gone (code : Z).

(** A child and what the kernel will add to the semaphore when it ends. *)
Record child := mk_child { pc : cpc; semadj : Z }.

(** The value of the semaphore, [None] when the set does not exist. *)
Definition semaphore : Type := option Z.

Definition next_round (j : nat) : cpc := if (S j <? 2)%nat then C_sleep (S j) else C_exit 0.

(** [exit]: the undo operations. *)
Definition child_ends (code : Z) (sem : semaphore) (c : child) : semaphore * child :=
  (match sem with Some v => Some (v + semadj c) | None => None end, mk_child (C_gone code) 0).

Definition child_step (a : action) (sem : semaphore) (c : child) : option (semaphore * child) :=
  let go pc := Some (sem, mk_child pc (semadj c)) in
  match a, pc c with
  | _, C_gone _ => None
  | Kill, _ => Some (child_ends (-1) sem c)
  | Fail, (C_semget | C_acquire _ | C_release _) => go (C_exit (-1))
  | Fail, _ => None
  | Run, C_semget => match sem with Some _ => go (C_sleep 0) | None => go (C_exit (-1)) end
  | Run, C_sleep j => go (C_acquire j)
  | Run, C_acquire j =>
      match sem with
      | None => go (C_exit (-1))
      | Some v => if v <? 1 then None else Some (Some (v - 1), mk_child (C_enter j) (semadj c + 1))
      end
  | Run, C_enter j => go (C_leave j)
  | Run, C_leave j => go (C_release j)
  | Run, C_release j =>
      match sem with
      | None => go (C_exit (-1))
      | Some v => Some (Some (v + 1), mk_child (next_round j) (semadj c - 1))
      end
  | Run, C_exit code => Some (child_ends code sem c)
  end.

Inductive mpc := M_semget | M_setval | M_fork (i : nat) | M_wait (k : nat) | M_rmid | M_return (code : Z).

Record st := St { main : mpc; sem : semaphore; children : list child }.

Definition gone (c : child) : bool := match pc c with C_gone _ => true | _ => false end.
Definition gone_count (l : list child) : nat := length (filter (λ c, gone c = true) l).

Section Num.
Context (num : nat).

(** One call of the main process; [M_wait k] has [k] calls of [wait] left, each of
    which takes one child that is gone. *)
Definition main_step (a : action) (s : st) : option st :=
  match a, main s with
  | Run, M_semget => match sem s with None => Some (St M_setval (Some 0) (children s)) | Some _ => Some (St (M_return (-1)) (sem s) (children s)) end
  | Run, M_setval => Some (St (M_fork 0) (Some 1) (children s))
  | Run, M_fork i =>
      if (i <? num)%nat then Some (St (M_fork (S i)) (sem s) (children s ++ [mk_child C_semget 0]))
      else Some (St (M_wait num) (sem s) (children s))
  | Run, M_wait O => Some (St M_rmid (sem s) (children s))
  | Run, M_wait (S k) => if (num - S k <? gone_count (children s))%nat then Some (St (M_wait k) (sem s) (children s)) else None
  | Run, M_rmid => Some (St (M_return 0) None (children s))
  | Fail, M_fork i => if (i <? num)%nat then Some (St (M_return (-1)) (sem s) (children s)) else None
  | Fail, (M_semget | M_setval | M_rmid) => Some (St (M_return (-1)) (sem s) (children s))
  | _, _ => None
  end.

Inductive step : st → st → Prop :=
  | step_main a s s' : main_step a s = Some s' → step s s'
  | step_child a i c sm c' s : children s !! i = Some c → child_step a (sem s) c = Some (sm, c') → step s (St (main s) sm (<[i := c']> (children s))).

Definition init : st := St M_semget None [].

Inductive reach : st → Prop :=
  | reach_init : reach init
  | reach_step s s' : reach s → step s s' → reach s'.

(** ** The invariant *)

Definition inside (c : child) : bool := match pc c with C_enter _ | C_leave _ | C_release _ => true | _ => false end.
Definition leaving (c : child) : bool := match pc c with C_exit _ => true | _ => false end.

Definition child_ok (c : child) : Prop := 0 ≤ semadj c ≤ 1 ∧ (inside c = true → semadj c = 1) ∧ (inside c = false → leaving c = false → semadj c = 0).

Fixpoint held (l : list child) : Z := match l with [] => 0 | c :: l => semadj c + held l end.

(** The semaphore is free, or one child holds it. *)
Definition balanced (s : st) : Prop := ∃ v, sem s = Some v ∧ 0 ≤ v ∧ v + held (children s) = 1.

Definition main_ok (s : st) : Prop :=
  match main s with
  | M_semget => sem s = None ∧ children s = []
  | M_setval => sem s = Some 0 ∧ children s = []
  | M_fork i => balanced s ∧ length (children s) = i ∧ (i ≤ num)%nat
  | M_wait k => balanced s ∧ length (children s) = num ∧ (k ≤ num)%nat ∧ (num - k ≤ gone_count (children s))%nat
  | M_rmid => balanced s ∧ length (children s) = num ∧ gone_count (children s) = num
  | M_return code => if code =? 0 then sem s = None ∧ length (children s) = num ∧ gone_count (children s) = num else balanced s ∨ children s = []
  end.

Record inv (s : st) : Prop := { inv_main : main_ok s; inv_children : Forall child_ok (children s) }.

Lemma held_insert l i c c' : l !! i = Some c → held (<[i := c']> l) = held l - semadj c + semadj c'.
Proof.
  revert i. induction l as [|x l IH]; intros [|i] E; try done; [injection E as ->; cbn; lia|].
  change (<[S i := c']> (x :: l)) with (x :: <[i := c']> l). cbn [held]. rewrite (IH i E). lia.
Qed.

Lemma held_app l l' : held (l ++ l') = held l + held l'.
Proof. induction l as [|x l IH]; cbn; [lia|]. rewrite IH. lia. Qed.

Lemma gone_count_le l : (gone_count l ≤ length l)%nat.
Proof. apply length_filter. Qed.

Lemma gone_count_insert l i c c' : l !! i = Some c → gone c = false → (gone_count l ≤ gone_count (<[i := c']> l))%nat.
Proof.
  unfold gone_count. revert i. induction l as [|x l IH]; intros [|i] E Hc; try done.
  - injection E as ->. change (<[0%nat := c']> (c :: l)) with (c' :: l). rewrite !filter_cons. rewrite decide_False by congruence. case_decide; cbn; lia.
  - change (<[S i := c']> (x :: l)) with (x :: <[i := c']> l). rewrite !filter_cons. specialize (IH i E Hc). case_decide; cbn [length]; lia.
Qed.

Lemma gone_count_all l : gone_count l = length l → Forall (λ c, gone c = true) l.
Proof.
  unfold gone_count. induction l as [|x l IH]; [by constructor|]. rewrite filter_cons. case_decide as Hx; cbn; intros E.
  - constructor; [done|]. apply IH. lia.
  - pose proof (gone_count_le l) as Hl. unfold gone_count in Hl. lia.
Qed.

(** A step of a child moves between the semaphore and what it holds. *)
Lemma child_step_ok a sm c sm' c' : child_step a sm c = Some (sm', c') → child_ok c → gone c = false ∧ child_ok c' ∧
  match sm with Some v => ∃ v', sm' = Some v' ∧ (0 ≤ v → 0 ≤ v') ∧ v' + semadj c' = v + semadj c | None => sm' = None end.
Proof.
  destruct c as [p d]. unfold child_ok, child_step, child_ends, gone, inside, leaving, next_round. cbn. intros E (H1 & H2 & H3).
  destruct a, p; try done; try (destruct sm as [v|]; try destruct (Z.ltb_spec v 1); try done); injection E as <- <-; cbn; try specialize (H2 eq_refl); try specialize (H3 eq_refl eq_refl);
    repeat case_match; split_and!; try done; try lia; try (eexists; split; [done|]); try lia; try (split; intros; lia).
Qed.

Lemma balanced_child a s i c sm c' : children s !! i = Some c → child_step a (sem s) c = Some (sm, c') → child_ok c → balanced s → balanced (St (main s) sm (<[i := c']> (children s))).
Proof.
  intros Ei E Hc (v & Es & Hv & Hb). destruct (child_step_ok _ _ _ _ _ E Hc) as (_ & _ & H). rewrite Es in H. destruct H as (v' & -> & Hv' & Hs).
  exists v'. cbn. split; [done|]. split; [auto|]. rewrite (held_insert _ _ c) by done. lia.
Qed.

Lemma main_step_inv a s s' : main_step a s = Some s' → inv s → inv s'.
Proof.
  intros E [Hm Hc]. assert (Forall child_ok (children s')) as Hc'.
  { unfold main_step in E. destruct a, (main s) as [| |i|[|k]| |code]; try done; repeat case_match; simplify_eq/=; try done. apply Forall_app. split; [done|]. apply Forall_singleton. unfold child_ok, inside, leaving. cbn. lia. }
  split; [|done]. unfold main_step in E. unfold main_ok in *. destruct (main s) as [| |i|k| |code] eqn:Em.
  - destruct Hm as [Es Ec]. destruct a; [|injection E as <-; by right|done]. rewrite Es in E. injection E as <-. by cbn.
  - destruct Hm as [Es Ec]. destruct a; [|injection E as <-; by right|done]. injection E as <-. cbn. rewrite Ec. split; [|cbn; lia]. by exists 1.
  - destruct Hm as (Hb & Hl & Hi). destruct a; [| |done]; destruct (Nat.ltb_spec i num) as [Hlt|Hge]; try done; injection E as <-; cbn [main sem children].
    + split; [|rewrite length_app; cbn; lia]. destruct Hb as (v & Es & Hv & Hs). exists v. cbn. rewrite held_app. cbn. split; [done|]. lia.
    + split_and!; [done|lia..].
    + by left.
  - destruct Hm as (Hb & Hl & Hk & Hg). pose proof (gone_count_le (children s)). destruct a, k as [|k]; try done.
    + injection E as <-. cbn [main sem children]. split; [done|]. lia.
    + destruct (Nat.ltb_spec (num - S k) (gone_count (children s))); [|done]. injection E as <-. cbn [main sem children]. split; [done|]. lia.
  - destruct Hm as (Hb & Hl & Hg). destruct a; [| |done]; injection E as <-; cbn [main sem children]; [done|by left].
  - by destruct a.
Qed.

Lemma child_step_inv a s i c sm c' : children s !! i = Some c → child_step a (sem s) c = Some (sm, c') → inv s → inv (St (main s) sm (<[i := c']> (children s))).
Proof.
  intros Ei E [Hm Hc]. assert (child_ok c) as Hok by (by eapply Forall_lookup_1). destruct (child_step_ok _ _ _ _ _ E Hok) as (Hg & Hok' & _).
  split; [|by apply Forall_insert]. pose proof (balanced_child a s i c sm c' Ei E Hok) as HB. pose proof (gone_count_insert _ _ _ c' Ei Hg) as HG. pose proof (gone_count_le (<[i:=c']> (children s))) as HL.
  assert (children s ≠ []) as Hne by (by intros E0; rewrite E0 in Ei). assert (gone_count (children s) ≠ length (children s)) as Hall.
  { intros Hall%gone_count_all. apply (Forall_lookup_1 _ _ i c) in Hall; [congruence|done]. }
  rewrite length_insert in HL. unfold main_ok in *. cbn [main sem children] in *. destruct (main s) as [| |k|k| |code]; rewrite ?length_insert.
  - by destruct Hm.
  - by destruct Hm.
  - destruct Hm as (? & ? & ?). split_and!; auto.
  - destruct Hm as (? & ? & ? & ?). split_and!; [by auto|done|done|lia].
  - destruct Hm as (_ & ? & ?). congruence.
  - destruct (code =? 0); [destruct Hm as (_ & ? & ?); congruence|]. destruct Hm as [?|?]; [left; auto|done].
Qed.

Lemma sem_reach_inv s : reach s → inv s.
Proof.
  induction 1 as [|s s' _ IH Hs]; [split; [done|by apply Forall_nil]|]. destruct Hs as [a s0 s1 E|a i c sm c' s0 Ei E]; [exact (main_step_inv a s0 s1 E IH)|exact (child_step_inv a s0 i c sm c' Ei E IH)].
Qed.

(** ** What it means *)

Lemma held_nonneg l : Forall child_ok l → 0 ≤ held l.
Proof. induction 1 as [|c l [Hc _] _ IH]; cbn; lia. Qed.

Lemma held_two l i j c d : Forall child_ok l → l !! i = Some c → l !! j = Some d → i ≠ j → semadj c + semadj d ≤ held l.
Proof.
  intros Hl Ei Ej Hij. pose proof (held_insert l i c (mk_child C_semget 0) Ei) as H1. cbn in H1.
  assert (<[i := mk_child C_semget 0]> l !! j = Some d) as Ej' by (by rewrite list_lookup_insert_ne).
  pose proof (held_insert _ j d (mk_child C_semget 0) Ej') as H2. cbn in H2.
  assert (Forall child_ok (<[j := mk_child C_semget 0]> (<[i := mk_child C_semget 0]> l))) as HF%held_nonneg; [|lia].
  assert (child_ok (mk_child C_semget 0)) by (unfold child_ok, inside, leaving; cbn; lia). by repeat apply Forall_insert.
Qed.

Definition blocked (c : child) : bool := match pc c with C_acquire _ => true | _ => false end.

Lemma child_runs sm c : gone c = false → blocked c = false ∨ (∃ v, sm = Some v ∧ 1 ≤ v) → ∃ sm' c', child_step Run sm c = Some (sm', c').
Proof.
  destruct c as [p d]. unfold gone, blocked, child_step, child_ends. cbn. intros Hg H. destruct p; try done; try (destruct sm; by eexists _, _).
  destruct H as [|(v & -> & Hv)]; [done|]. rewrite (proj2 (Z.ltb_ge _ _)) by lia. by eexists _, _.
Qed.

(** Some child holds the semaphore when it is taken, and that one can go on. *)
Lemma holder l : held l = 1 → ∃ i c, l !! i = Some c ∧ semadj c ≠ 0.
Proof.
  induction l as [|c l IH]; cbn [held]; [done|]. intros H. destruct (decide (semadj c = 0)) as [E|E]; [|by exists 0%nat, c].
  destruct IH as (i & d & Hi & Hd); [lia|]. by exists (S i), d.
Qed.

Lemma not_all_gone l : gone_count l ≠ length l → ∃ i c, l !! i = Some c ∧ gone c = false.
Proof.
  unfold gone_count. induction l as [|c l IH]; [done|]. rewrite filter_cons. case_decide as Hc; cbn [length]; intros H.
  - destruct IH as (i & d & ? & ?); [lia|]. by exists (S i), d.
  - exists 0%nat, c. split; [done|]. by apply not_true_is_false.
Qed.

Definition can_run (s : st) : Prop :=
  (∃ s', main_step Run s = Some s') ∨ ∃ i c sm c', children s !! i = Some c ∧ child_step Run (sem s) c = Some (sm, c').

Lemma balanced_runs s : Forall child_ok (children s) → balanced s → gone_count (children s) ≠ length (children s) → can_run s.
Proof.
  intros Hc (v & Es & Hv & Hb) Hg. right. assert (∃ i c, children s !! i = Some c ∧ gone c = false ∧ (blocked c = false ∨ ∃ v, sem s = Some v ∧ 1 ≤ v)) as (i & c & Ei & Hgc & H).
  { destruct (decide (v = 0)) as [->|Hv0].
    - destruct (holder (children s)) as (i & c & Ei & Hd); [lia|]. exists i, c. pose proof (Forall_lookup_1 _ _ _ _ Hc Ei) as (_ & _ & H0). split; [done|].
      assert (inside c = true ∨ leaving c = true) as HI by (destruct (inside c); [by left|]; destruct (leaving c); [by right|]; by destruct Hd; apply H0).
      unfold inside, leaving, gone, blocked in *. destruct (pc c); destruct HI; try done; by split; [|left].
    - destruct (not_all_gone _ Hg) as (i & c & Ei & Hgc). exists i, c. split_and!; [done|done|]. right. exists v. split; [done|lia]. }
  destruct (child_runs (sem s) c Hgc H) as (sm & c' & E). by exists i, c, sm, c'.
Qed.

Lemma inv_runs s : inv s → can_run s ∨ (∃ code, main s = M_return code) ∧ Forall (λ c, gone c = true) (children s).
Proof.
  intros [Hm Hc]. destruct (decide (gone_count (children s) = length (children s))) as [Hg|Hg].
  - unfold main_ok in Hm. destruct (main s) as [| |i|k| |code] eqn:Em; [left; left; unfold main_step; rewrite Em..|right; split; [by eexists|by apply gone_count_all]].
    + destruct (sem s); by eexists.
    + by eexists.
    + destruct (i <? num)%nat; by eexists.
    + destruct k as [|k]; [by eexists|]. destruct Hm as (_ & Hl & Hk & _). destruct (Nat.ltb_spec (num - S k) (gone_count (children s))); [by eexists|lia].
    + by eexists.
  - left. assert (children s ≠ []) as Hne by (intros E; rewrite E in Hg; done). apply balanced_runs; [done| |done]. unfold main_ok in Hm.
    destruct (main s) as [| |i|k| |code]; [by destruct Hm|by destruct Hm|by destruct Hm..|]. destruct (code =? 0); [destruct Hm as (_ & ? & ?); congruence|by destruct Hm].
Qed.

(** ** Every run ends *)

Definition round_left (j at_ : nat) : nat := 5 * (1 - j) + at_ + 1.
Definition child_left (c : child) : nat :=
  match pc c with
  | C_semget => 12 | C_sleep j => round_left j 5 | C_acquire j => round_left j 4 | C_enter j => round_left j 3
  | C_leave j => round_left j 2 | C_release j => round_left j 1 | C_exit _ => 1 | C_gone _ => 0
  end.
Definition main_left (m : mpc) : nat :=
  match m with M_semget => 14 * num + 5 | M_setval => 14 * num + 4 | M_fork i => 13 * (num - i) + num + 3 | M_wait k => k + 2 | M_rmid => 1 | M_return _ => 0 end.
Fixpoint children_left (l : list child) : nat := match l with [] => 0 | c :: l => child_left c + children_left l end.
Definition steps_left (s : st) : nat := main_left (main s) + children_left (children s).

Lemma children_left_insert l i c c' : l !! i = Some c → (child_left c' < child_left c)%nat → (children_left (<[i := c']> l) < children_left l)%nat.
Proof.
  revert i. induction l as [|x l IH]; intros [|i] E H; try done; [injection E as ->; cbn; lia|].
  change (<[S i := c']> (x :: l)) with (x :: <[i := c']> l). cbn [children_left]. specialize (IH i E H). lia.
Qed.

Lemma children_left_app l l' : children_left (l ++ l') = (children_left l + children_left l')%nat.
Proof. induction l as [|c l IH]; cbn; [done|]. rewrite IH. lia. Qed.

Lemma child_step_left a sm c sm' c' : child_step a sm c = Some (sm', c') → (child_left c' < child_left c)%nat.
Proof.
  destruct c as [p d]. unfold child_step, child_ends, child_left, round_left, next_round. cbn [pc semadj]. intros E.
  destruct a, p as [|j|j|j|j|j|code|code]; try done; try (destruct sm as [v|]; try destruct (Z.ltb_spec v 1); try done); injection E as <- <-; cbn [pc]; try lia;
    destruct (Nat.ltb_spec (S j) 2); lia.
Qed.

Lemma step_left s s' : step s s' → (steps_left s' < steps_left s)%nat.
Proof.
  unfold steps_left. intros [a s0 s1 E|a i c sm c' s0 Ei E].
  - unfold main_step in E. destruct a, (main s0) as [| |i|[|k]| |code]; try done; repeat case_match; simplify_eq/=; try lia;
      repeat match goal with H : (_ <? _)%nat = _ |- _ => first [apply Nat.ltb_lt in H|apply Nat.ltb_ge in H] end; rewrite ?children_left_app; cbn; lia.
  - cbn [main children]. pose proof (children_left_insert _ _ _ c' Ei (child_step_left _ _ _ _ _ E)). lia.
Qed.

Lemma run_length n s s' : nsteps step n s s' → (n + steps_left s' ≤ steps_left s)%nat.
Proof. induction 1 as [|n s s1 s' Hs _ IH]; [lia|]. apply step_left in Hs. lia. Qed.

(** C39. In every state that the processes of [sem.c] can reach, whatever calls fail
    and whichever children are killed at any time, at most one child is in its
    critical section; the semaphore exists as long as there are children, and is 0 or
    1; something can go on unless everything has ended, so that there is no deadlock,
    not even after a child was killed in its critical section; when main returns 0 all
    children have ended and the semaphore is removed; and every run ends after at most
    14 * num + 5 steps. *)
Theorem sysv_sem_correct (s : st) (Hr : reach s) :
  (∀ i j c d, children s !! i = Some c → children s !! j = Some d → inside c = true → inside d = true → i = j) ∧
  ((∃ c, c ∈ children s ∧ gone c = false) → ∃ v, sem s = Some v ∧ 0 ≤ v ≤ 1) ∧
  (can_run s ∨ (∃ code, main s = M_return code) ∧ Forall (λ c, gone c = true) (children s)) ∧
  (main s = M_return 0 → sem s = None ∧ length (children s) = num ∧ Forall (λ c, gone c = true) (children s)) ∧
  (∀ n, nsteps step n init s → (n ≤ 14 * num + 5)%nat).
Proof.
  pose proof (sem_reach_inv s Hr) as Hi. pose proof Hi as [Hm Hc]. assert (gone_count (children s) = length (children s) ∨ children s = [] ∨ balanced s) as HB.
  { unfold main_ok in Hm. destruct (main s) as [| |i|k| |code]; [tauto|tauto|tauto|tauto|tauto|]. destruct (code =? 0); [left; destruct Hm as (_ & ? & ?); congruence|tauto]. }
  split_and!.
  - intros i j c d Ei Ej Hic Hjd. destruct (decide (i = j)) as [|Hij]; [done|exfalso]. pose proof (held_two _ _ _ _ _ Hc Ei Ej Hij) as H2.
    pose proof (proj1 (proj2 (Forall_lookup_1 _ _ _ _ Hc Ei)) Hic). pose proof (proj1 (proj2 (Forall_lookup_1 _ _ _ _ Hc Ej)) Hjd).
    destruct HB as [Hg%gone_count_all|[E|(v & _ & Hv & Hb)]]; [|by rewrite E in Ei|lia].
    pose proof (Forall_lookup_1 _ _ _ _ Hg Ei). unfold gone, inside in *. by destruct (pc c).
  - intros (c & Hin & Hg). destruct HB as [Ha%gone_count_all|[E|(v & Es & Hv & Hb)]].
    + rewrite Forall_forall in Ha. specialize (Ha c Hin). cbn in Ha. congruence.
    + rewrite E in Hin. by apply not_elem_of_nil in Hin.
    + exists v. pose proof (held_nonneg _ Hc). split; [done|lia].
  - by apply inv_runs.
  - intros E. unfold main_ok in Hm. rewrite E in Hm. cbn in Hm. destruct Hm as (? & ? & ?). split_and!; [done..|]. apply gone_count_all. congruence.
  - intros n H%run_length. unfold steps_left in H. cbn in H. lia.
Qed.

End Num.

(** A run along chosen actions: of main, or of a child. *)
Definition do_step (num : nat) (who : option nat) (a : action) (s : st) : option st :=
  match who with
  | None => main_step num a s
  | Some i => c ← children s !! i; '(sm, c') ← child_step a (sem s) c; Some (St (main s) sm (<[i := c']> (children s)))
  end.

Fixpoint run (num : nat) (l : list (option nat * action)) (s : st) : option st :=
  match l with [] => Some s | (who, a) :: l => s ← do_step num who a s; run num l s end.

Lemma schedule_reach num l : ∀ s s', reach num s → run num l s = Some s' → reach num s'.
Proof.
  induction l as [|[who a] l IH]; intros s s' Hs; cbn [run]; [by intros [= <-]|]. destruct (do_step num who a s) as [s1|] eqn:E; [|done]. cbn. apply IH.
  apply (reach_step _ s); [done|]. unfold do_step in E. destruct who as [i|]; [|by apply (step_main _ a)]. destruct (children s !! i) as [c|] eqn:Ei; [|done]. cbn in E.
  destruct (child_step a (sem s) c) as [[sm c']|] eqn:Ec; [|done]. injection E as <-. by apply (step_child _ a i c).
Qed.

(** Two children, the first of which was killed in its critical section; the second
    waits and can go on. *)
Definition killed_inside : list (option nat * action) :=
  [(None, Run); (None, Run); (None, Run); (None, Run); (Some 0%nat, Run); (Some 1%nat, Run); (Some 0%nat, Run); (Some 1%nat, Run); (Some 0%nat, Run); (Some 0%nat, Kill)].

Lemma sysv_sem_correct_witness : ∃ s, run 2 killed_inside init = Some s ∧ map pc (children s) = [C_gone (-1); C_acquire 0] ∧ sem s = Some 1 ∧
  (can_run 2 s ∨ (∃ code, main s = M_return code) ∧ Forall (λ c, gone c = true) (children s)).
Proof.
  destruct (run 2 killed_inside init) as [s|] eqn:E; [|by vm_compute in E]. exists s. pose proof E as E'. vm_compute in E'. injection E' as Es. split; [done|].
  split; [by rewrite <- Es|]. split; [by rewrite <- Es|]. apply (sysv_sem_correct 2 s). apply (schedule_reach 2 killed_inside init s); [apply reach_init|exact E].
Defined.

(** When a fork fails, main returns and the set is left behind. *)
Example fork_failure_leaves_set : ∃ s, run 2 [(None, Run); (None, Run); (None, Run); (None, Fail); (Some 0%nat, Kill)] init = Some s ∧
  main s = M_return (-1) ∧ sem s = Some 1 ∧ forallb gone (children s) = true.
Proof. by eexists. Qed.

End SysvSem.
