(* ===== verification/Reentrancy.v ===== *)
(** * The reentrancy examples

    Models [src/app/multi_thread/day3/reentrace.c] and [no-reentrace.c], two threads
    that print strings in upper case, from a buffer of their own or from a static one,
    and [src/app/multi_process/day3/signal_non_reenteriable_fixed.c] and
    [signal_non_reenteriable.c], where a signal handler prints a structure of two words
    that main keeps writing, with the signal blocked meanwhile or not.

    A step is one access to a character or a word. Schedules are lists of who goes
    next. *)

From Stdlib Require Import String.
From S2P Require Import Prelude Hexdecoct Utf8 Utf8Props.

#[local] Open Scope Z_scope.
#[local] Set Warnings "-clear-no-such-hyp".

(** ** Upper case *)

Module Upper.

(** In the C locale. *)
Definition toupper (c : Z) : Z := if (97 <=? c) && (c <=? 122) then c - 32 else c.

(** Where a thread is: before the call, in the loop of [strtoupper], or printing. *)
Inductive pc := T_sleep | T_loop (index : nat) | T_print (i : nat) (out : list Z).

(** A step of [thread_fun] over a buffer: the new place and buffer, and what was
    printed. [None] is an access outside the buffer. *)
Definition thread_fun (param : list Z) (at_ : pc) (buffer : list Z) : option (pc * list Z * option (list Z)) :=
  match at_ with
  | T_sleep => Some (T_loop 0, buffer, None)
  | T_loop index =>
      _ ← buffer !! index;
      match param !! index with
      | Some c => Some (T_loop (S index), <[index := toupper c]> buffer, None)
      | None => Some (T_print 0 [], <[index := 0]> buffer, None)
      end
  | T_print i out =>
      c ← buffer !! i;
      if c =? 0 then Some (T_sleep, buffer, Some out) else Some (T_print (S i) (out ++ [c]), buffer, None)
  end.

(** Threads with buffers of their own. *)
Record thread := mk_thread { param : list Z; at_ : pc; buff : list Z }.

Definition printed (i : nat) (o : option (list Z)) : list (nat * list Z) := match o with None => [] | Some s => [(i, s)] end.

(** Who printed what, along a schedule. *)
Fixpoint run_reentrant (ts : list thread) (schedule : list nat) : option (list thread * list (nat * list Z)) :=
  match schedule with
  | [] => Some (ts, [])
  | i :: schedule =>
      t ← ts !! i;
      '(a, b, o) ← thread_fun (param t) (at_ t) (buff t);
      '(ts, log) ← run_reentrant (<[i := mk_thread (param t) a b]> ts) schedule;
      Some (ts, printed i o ++ log)
  end.

(** Threads that share the static buffer. *)
Fixpoint run_static (ts : list (list Z * pc)) (buffer : list Z) (schedule : list nat) : option (list (nat * list Z)) :=
  match schedule with
  | [] => Some []
  | i :: schedule =>
      '(p, a) ← ts !! i;
      '(a, buffer, o) ← thread_fun p a buffer;
      log ← run_static (<[i := (p, a)]> ts) buffer schedule;
      Some (printed i o ++ log)
  end.

Definition BUFFER_SIZE : nat := 1000.

Definition upper (s : list Z) : list Z := map toupper s.

Lemma toupper_nonzero c : 0 < c → toupper c ≠ 0.
Proof. unfold toupper. destruct (_ && _) eqn:E; [reflect_bools; lia|lia]. Qed.

(** What is in the buffer of a thread. *)
Definition thread_ok (t : thread) : Prop :=
  cstring (param t) ∧ (length (param t) < BUFFER_SIZE)%nat ∧ length (buff t) = BUFFER_SIZE ∧
  match at_ t with
  | T_sleep => True
  | T_loop index => (index ≤ length (param t))%nat ∧ take index (buff t) = take index (upper (param t))
  | T_print i out => (i ≤ length (param t))%nat ∧ out = take i (upper (param t)) ∧ take (S (length (param t))) (buff t) = upper (param t) ++ [0]
  end.

Lemma take_insert_end {A} (l l' : list A) i x : take i l = take i l' → (i < length l)%nat → l' !! i = Some x → take (S i) (<[i := x]> l) = take (S i) l'.
Proof.
  intros E Hi Hx. rewrite (take_S_r l' i x) by done. rewrite (take_S_r _ i x) by (by apply list_lookup_insert_eq). by rewrite take_insert_ge, E.
Qed.

Lemma thread_step_ok t : thread_ok t → ∃ a b o, thread_fun (param t) (at_ t) (buff t) = Some (a, b, o) ∧ thread_ok (mk_thread (param t) a b) ∧ (∀ s, o = Some s → s = upper (param t)).
Proof.
  destruct t as [s a b]. unfold thread_ok. cbn [param at_ buff]. intros (Hs & Hl & Hb & Ha). destruct a as [|index|i out]; cbn [thread_fun].
  - eexists _, _, _. split; [done|]. split; [|done]. split_and!; [done..|lia|by rewrite !take_0].
  - destruct Ha as [Hi Ht]. destruct (lookup_lt_is_Some_2 b index) as [y Ey]; [lia|]. rewrite Ey. cbn [mbind option_bind]. destruct (s !! index) as [c|] eqn:Ec.
    + eexists _, _, _. split; [done|]. split; [|done]. rewrite length_insert. pose proof (lookup_lt_Some _ _ _ Ec). split_and!; [done..|lia|].
      apply take_insert_end; [done|lia|]. unfold upper. by rewrite list_lookup_fmap, Ec.
    + eexists _, _, _. split; [done|]. split; [|done]. rewrite length_insert. apply lookup_ge_None in Ec. assert (index = length s) as -> by lia. split_and!; [done..|lia|done|].
      assert (length (upper s) = length s) as Hu by apply length_map. assert (take (length s) b = upper s) as Ht' by (rewrite Ht; apply take_ge; lia).
      rewrite (take_S_r _ (length s) 0) by (apply list_lookup_insert_eq; lia). by rewrite take_insert_ge, Ht'.
  - destruct Ha as (Hi & -> & Ht). assert (length (upper s) = length s) as Hu by apply length_map.
    assert (∀ k, (k ≤ length s)%nat → b !! k = (upper s ++ [0]) !! k) as HK by (intros k Hk; rewrite <- Ht, lookup_take_lt; [done|lia]). rewrite (HK i Hi).
    destruct (decide (i = length s)) as [->|Hne].
    + rewrite lookup_app_r, Hu, Nat.sub_diag by lia. cbn. eexists _, _, _. split; [done|]. split; [done|]. intros x [= <-]. apply take_ge. lia.
    + destruct (lookup_lt_is_Some_2 s i) as [c Ec]; [lia|]. assert (upper s !! i = Some (toupper c)) as Eu by (unfold upper; by rewrite list_lookup_fmap, Ec).
      rewrite (lookup_app_l_Some _ _ _ _ Eu). cbn [mbind option_bind]. assert (0 < c < 256) as Hc by (by apply (Forall_lookup_1 _ _ _ _ Hs) in Ec).
      rewrite (proj2 (Z.eqb_neq _ 0)) by (apply toupper_nonzero; lia). eexists _, _, _. split; [done|]. split; [|done]. split_and!; [done..|lia|by rewrite (take_S_r _ i (toupper c))|done].
Qed.

Lemma reentrant_runs schedule : ∀ ts, Forall thread_ok ts → Forall (λ i, (i < length ts)%nat) schedule → ∃ ts' log, run_reentrant ts schedule = Some (ts', log) ∧
  ∀ i s, (i, s) ∈ log → ∃ t, ts !! i = Some t ∧ s = upper (param t).
Proof.
  induction schedule as [|i schedule IH]; intros ts Ht Hs; cbn [run_reentrant]; [eexists _, _; split; [done|]; by intros ? ? ?%not_elem_of_nil|].
  apply Forall_cons in Hs as [Hi Hs]. destruct (lookup_lt_is_Some_2 ts i Hi) as [t Et]. rewrite Et. cbn [mbind option_bind].
  destruct (thread_step_ok t) as (a & b & o & -> & Hok & Ho); [by eapply Forall_lookup_1|]. cbn [mbind option_bind].
  destruct (IH (<[i := mk_thread (param t) a b]> ts)) as (ts' & log & -> & Hlog); [by apply Forall_insert|by rewrite length_insert|]. cbn [mbind option_bind].
  eexists _, _. split; [done|]. intros k s [Hk|Hk]%elem_of_app.
  - destruct o as [x|]; [|by apply not_elem_of_nil in Hk]. apply list_elem_of_singleton in Hk as [= -> ->]. exists t. split; [done|]. by apply Ho.
  - destruct (Hlog k s Hk) as (t' & Et' & ->). destruct (decide (k = i)) as [->|Hne].
    + rewrite list_lookup_insert_eq in Et' by done. injection Et' as <-. by exists t.
    + rewrite list_lookup_insert_ne in Et' by done. by exists t'.
Qed.

(** With buffers of their own, whatever was in them, the threads of [reentrace.c] print
    their own string in upper case under every schedule, and never leave their
    buffers. *)
Theorem reentrant_correct (params : list (list Z)) (buffers : list (list Z)) (schedule : list nat) :
  Forall (λ p, cstring p ∧ (length p < BUFFER_SIZE)%nat) params → Forall (λ b, length b = BUFFER_SIZE) buffers → length buffers = length params →
  Forall (λ i, (i < length params)%nat) schedule →
  ∃ ts log, run_reentrant (zip_with (λ p b, mk_thread p T_sleep b) params buffers) schedule = Some (ts, log) ∧
    ∀ i s, (i, s) ∈ log → ∃ p, params !! i = Some p ∧ s = upper p.
Proof.
  intros Hp Hb El Hs. destruct (reentrant_runs schedule (zip_with (λ p b, mk_thread p T_sleep b) params buffers)) as (ts & log & E & H).
  - apply Forall_lookup. intros i t (p & b & -> & Ep & Eb)%lookup_zip_with_Some. apply (Forall_lookup_1 _ _ _ _ Hp) in Ep as [? ?]. apply (Forall_lookup_1 _ _ _ _ Hb) in Eb. by split_and!.
  - eapply Forall_impl; [done|]. intros i Hi. cbn beta in *. rewrite length_zip_with. lia.
  - exists ts, log. split; [done|]. intros i s Hin. destruct (H i s Hin) as (t & (p & b & -> & Ep & Eb)%lookup_zip_with_Some & ->). by exists p.
Qed.

(** With the static buffer a thread may print what is nobody's string: the second
    writes its first character between the conversion and the printing of the first. *)
Example static_mixes : run_static [(bytes_of "hello world", T_sleep); (bytes_of "world hello", T_sleep)] (replicate BUFFER_SIZE 0)
    (replicate 13 0%nat ++ [1%nat; 1%nat] ++ replicate 12 0%nat) = Some [(0%nat, bytes_of "WELLO WORLD")].
Proof. by vm_compute. Qed.

End Upper.

(** ** A structure that a signal handler reads *)

Module SignalData.

(** The loop of main: [B] blocks the signal, [A] and [W] write the first and the second
    word, [U] restores the mask; first with zeros, then with ones. *)
Inductive place := B | A | W | U.
Record pc := mk_pc { ones : bool; place_ : place }.

Record st := St { main : pc; a : Z; b : Z; blocked : bool; oset : bool; armed : bool; pending : bool; printed : list (Z * Z) }.

Definition value (ones : bool) : Z := if ones then 1 else 0.

(** One statement of main in [signal_non_reenteriable_fixed.c]. *)
Definition main_fixed (s : st) : st :=
  let '(St (mk_pc o p) a b bl os ar pe l) := s in
  match p with
  | B => St (mk_pc o A) a b true bl ar pe l
  | A => St (mk_pc o W) (value o) b bl os ar pe l
  | W => St (mk_pc o U) a (value o) bl os ar pe l
  | U => St (mk_pc (negb o) B) a b os os ar pe l
  end.

(** The same without the calls of [sigprocmask], as in [signal_non_reenteriable.c]. *)
Definition main_unfixed (s : st) : st :=
  let '(St (mk_pc o p) a b bl os ar pe l) := s in
  match p with
  | B | A => St (mk_pc o W) (value o) b bl os ar pe l
  | W | U => St (mk_pc (negb o) A) a (value o) bl os ar pe l
  end.

(** The time of [alarm] is over: the signal is pending. *)
Definition tick (s : st) : option st :=
  let '(St m a b bl os ar pe l) := s in if ar then Some (St m a b bl os false true l) else None.

(** [signal_handler] runs between two statements of main. *)
Definition signal_handler (s : st) : option st :=
  let '(St m a b bl os ar pe l) := s in if pe && negb bl then Some (St m a b bl os true false (l ++ [(a, b)])) else None.

(** After [data = zeros] and [alarm]. *)
Definition start (p : place) : st := St (mk_pc false p) 0 0 false false true false [].

Section Main.
Context (main_step : st → st) (first : place).

Inductive reach : st → Prop :=
  | reach_start : reach (start first)
  | reach_main s : reach s → reach (main_step s)
  | reach_tick s s' : reach s → tick s = Some s' → reach s'
  | reach_handler s s' : reach s → signal_handler s = Some s' → reach s'.
End Main.

Definition whole (d : Z * Z) : Prop := d = (0, 0) ∨ d = (1, 1).

(** Where the data is not whole the signal is blocked. *)
Definition inv (s : st) : Prop :=
  Forall whole (printed s) ∧
  match place_ (main s) with
  | B => whole (a s, b s) ∧ blocked s = false
  | A => whole (a s, b s) ∧ blocked s = true ∧ oset s = false
  | W => a s = value (ones (main s)) ∧ blocked s = true ∧ oset s = false
  | U => a s = value (ones (main s)) ∧ b s = value (ones (main s)) ∧ blocked s = true ∧ oset s = false
  end.

Lemma data_reach_inv s : reach main_fixed B s → inv s.
Proof.
  induction 1 as [|s _ IH|s s' _ IH E|s s' _ IH E]; [split; [by apply Forall_nil|]; split; [by left|done]|..];
    destruct s as [[o p] x y bl os ar pe l]; destruct IH as [Hl Hp]; cbn in *.
  - split; destruct p; cbn; try done; [by destruct Hp as [? ->]|by destruct Hp as (? & ? & ?)|by destruct Hp as (? & ? & ?)|].
    destruct Hp as (-> & -> & _ & ->). split; [|done]. destruct o; [by right|by left].
  - destruct ar; [|done]. by injection E as <-.
  - destruct pe, bl; try done. injection E as <-. split; cbn; [|by destruct p]. apply Forall_app. split; [done|]. apply Forall_singleton.
    destruct p; [by destruct Hp|by destruct Hp as (_ & ? & _)|by destruct Hp as (_ & ? & _)|by destruct Hp as (_ & _ & ? & _)].
Qed.

(** With the signal blocked around the writes the handler prints 0, 0 or 1, 1 and
    nothing else, whenever the signal comes; without, it may print 1, 0. *)
Theorem handler_sees_whole_data :
  (∀ s, reach main_fixed B s → Forall whole (printed s)) ∧ (∃ s, reach main_unfixed A s ∧ (1, 0) ∈ printed s).
Proof.
  split; [intros s Hs; apply (data_reach_inv s Hs)|]. exists (default (start A) (tick (main_unfixed (main_unfixed (main_unfixed (start A)))) ≫= signal_handler)). split; [|by left].
  eapply reach_handler; [eapply reach_tick; [do 3 apply reach_main; apply reach_start|]|]; done.
Qed.

End SignalData.
