(* ===== verification/BubbleSort.v ===== *)
(** * The sorting example

    Models [src/arm/bubble_sort.c], which sorts an array of [N] integers in place; [N] is
    the length of the list here. The two exchange statements are translated as they are
    written. *)

From Stdlib Require Import Permutation.
From S2P Require Import Prelude.

#[local] Open Scope Z_scope.

(** The body of the inner loop; [None] is an access outside the array. *)
Definition exchange (i j : nat) (data : list Z) : option (list Z) :=
  x ← data !! j;
  y ← data !! S j;
  if x >? y then
    let tmp := x in
    z ← data !! i;
    let data := <[j := z]> data in
    Some (<[i := tmp]> data)
  else Some data.

(** The inner loop from [j] on, with [n] rounds left. *)
Fixpoint inner_loop (n i j : nat) (data : list Z) : option (list Z) :=
  match n with O => Some data | S n => data ← exchange i j data; inner_loop n i (S j) data end.

Fixpoint outer_loop (n i : nat) (data : list Z) : option (list Z) :=
  match n with O => Some data | S n => data ← inner_loop (length data - 1) i 0 data; outer_loop n (S i) data end.

Definition bubble_main (data : list Z) : option (list Z) := outer_loop (length data - 1) 0 data.

(** Two places of a list exchanged. *)
Lemma swap_permutation (l : list Z) i j x z : l !! j = Some x → l !! i = Some z → <[i := x]> (<[j := z]> l) ≡ₚ l.
Proof.
  intros Hj Hi. destruct (decide (i = j)) as [->|Hne].
  { rewrite list_insert_insert_eq. by rewrite list_insert_id. }
  apply Permutation_inj. split; [by rewrite !length_insert|]. exists (λ k, if decide (k = i) then j else if decide (k = j) then i else k). split.
  - intros k k'. repeat case_decide; congruence.
  - intros k. pose proof (lookup_lt_Some _ _ _ Hi). pose proof (lookup_lt_Some _ _ _ Hj). case_decide as H1; [subst k|case_decide as H2; [subst k|]].
    + rewrite list_lookup_insert_eq by (by rewrite length_insert). done.
    + rewrite list_lookup_insert_ne, list_lookup_insert_eq by done. done.
    + by rewrite !list_lookup_insert_ne.
Qed.

Lemma exchange_permutation i j data : (S j < length data)%nat → (i < length data)%nat → ∃ data', exchange i j data = Some data' ∧ data' ≡ₚ data.
Proof.
  intros Hj Hi. unfold exchange. destruct (lookup_lt_is_Some_2 data j) as [x Ex]; [lia|]. destruct (lookup_lt_is_Some_2 data (S j)) as [y Ey]; [done|]. destruct (lookup_lt_is_Some_2 data i) as [z Ez]; [done|].
  rewrite Ex, Ey, Ez. cbn. destruct (x >? y); [|by eexists]. eexists. split; [done|]. by apply swap_permutation.
Qed.

Lemma inner_permutation n : ∀ i j data, (n + j < length data)%nat → (i < length data)%nat → ∃ data', inner_loop n i j data = Some data' ∧ data' ≡ₚ data.
Proof.
  induction n as [|n IH]; intros i j data Hn Hi; cbn [inner_loop]; [by eexists|]. destruct (exchange_permutation i j data) as (d1 & -> & H1); [lia|done|]. cbn.
  pose proof (Permutation_length H1). destruct (IH i (S j) d1) as (d2 & -> & H2); [lia|lia|]. exists d2. split; [done|]. by rewrite H2.
Qed.

Lemma outer_permutation n : ∀ i data, (n + i < length data)%nat ∨ n = 0%nat → ∃ data', outer_loop n i data = Some data' ∧ data' ≡ₚ data.
Proof.
  induction n as [|n IH]; intros i data Hn; cbn [outer_loop]; [by eexists|]. destruct Hn as [Hn|]; [|done]. destruct (inner_permutation (length data - 1) i 0 data) as (d1 & -> & H1); [lia|lia|]. cbn.
  pose proof (Permutation_length H1). destruct (IH (S i) d1) as (d2 & -> & H2); [lia|]. exists d2. split; [done|]. by rewrite H2.
Qed.

(** The program stays inside the array and only exchanges numbers. *)
Theorem bubble_permutes (data : list Z) : ∃ data', bubble_main data = Some data' ∧ data' ≡ₚ data.
Proof. apply outer_permutation. destruct data; cbn; [by right|lia]. Qed.

(** But it does not sort: it exchanges [data[j]] with [data[i]], not with the neighbour
    it was compared with. Two numbers in the wrong order stay as they are. *)
Example bubble_does_not_sort : bubble_main [2; 1] = Some [2; 1] ∧ bubble_main [1; 3; 2] = Some [1; 3; 2].
Proof. by vm_compute. Qed.
